(* ===== verification/_CoqProject ===== *)
-Q . S2P
Prelude.v
Bitmap.v
Versions.v
RowRegion.v
Serval.v
ServalRc.v
Caracal.v
RWLock.v
WaitDieLock.v
Epoch.v
BitFields.v
Timestamp.v
Index.v
NoWait.v
Memory.v
Silo.v
SiloInv.v
SiloCalls.v
SiloCommit.v
SiloSerial.v
SiloSystem.v
SiloRun.v
SiloLoops.v
Mvto.v
MvtoInv.v
MvtoStore.v
MvtoCalls.v
MvtoCommit.v
MvtoSystem.v
MvtoRun.v
WaitDieClaims.v
WaitDie.v
WaitDieInv.v
WaitDieSteps.v
WaitDieCalls.v
WaitDieCommit.v
WaitDieSystem.v
WaitDieRun.v
Utils.v
Records.v
RecordGen.v
Tx.v
Tpcc.v
Naive.v
NaiveLock.v
NaiveInv.v
NaiveCommit.v
NaiveTx.v
TxSerial.v
TpccRules.v
TpccNewOrder.v
TpccPayment.v
TpccStockLevel.v
TpccStat.v
NaiveRun.v
NaiveClaims.v
