(* ===== verification/Prelude.v ===== *)
(** * tpcc-runner: concurrency control protocols, verified

    The repository runs TPC-C and YCSB on in-memory concurrency control
    protocols written as C++ header libraries.  This development models the
    protocols and the components they share, and proves the theorems that
    make them correct.

    ** The program and where it is modelled

    Deterministic protocols: a batch of transactions of one epoch first
    appends pending versions of the rows it will write, ordered by the serial
    ids of the transactions, then executes.
    - [Bitmap]: src/utils/bitmap.hpp, 64-bit bitmaps of cores and transactions.
    - [Versions]: the class Version of the three deterministic protocols and
      the heap of versions and records ([delete_version], [gc_version], ...).
    - [RowRegion]: src/protocols/serval/include/row_region.hpp, Modules
      [GlobalVersionArray], [PerCoreVersionArray], [RowRegion],
      [RowRegionController].
    - [Serval]: src/protocols/serval/include/serval.hpp and value.hpp; the
      uncontended array of a row, the move to a per-core region, reads.
    - [ServalRc]: src/protocols/serval_rc/include/rw_bitmaps.hpp and
      serval_rc.hpp; Modules [WriteBitmap] and [ServalRc].
    - [Caracal]: src/protocols/caracal/include; version arrays with per-core
      buffers, batch append, minor and major garbage collection.

    Locks and shared services:
    - [RWLock]: src/protocols/common/readwritelock.hpp, the loads and
      compare-exchanges of every call as a transition system.
    - [WaitDieLock]: src/protocols/waitdie/include/waitdielock.hpp, owners,
      waiters and their promotion.
    - [Epoch]: src/protocols/common/epoch_manager.hpp, the manager and the
      workers as interleaved atomic actions, and the epoch-based collector.
    - [Timestamp]: src/protocols/common/timestamp_manager.hpp.
    - [BitFields]: src/protocols/common/transaction_id.hpp,
      src/protocols/silo/include/tidword.hpp and
      src/benchmarks/tpcc/include/record_key.hpp.
    - [Index]: src/indexes/masstree_wrapper.hpp and masstree.hpp.  The
      Masstree library is the class [Masstree] with [MasstreeLaws]; the
      interface the protocols are templates over is the class [Index] with
      [IndexLaws], and [masstree_index_laws] discharges it.

    Interactive protocols, clients of the index:
    - [NoWait]: src/protocols/nowait/include; read/write set, all operations,
      commit and abort, proved against [Index] and the lock words of [RWLock].
    - [Memory]: allocation, copying and freeing of records, shared by the
      protocols below (src/protocols/common/memory_allocator.hpp, schema.hpp).
    - [Silo]: src/protocols/silo/include; optimistic validation.  The calls of
      a transaction are functions; [advance] is the commit and the abort cut
      at their atomic accesses (a lock attempt, one validation, one installed
      write).  [SiloInv], [SiloCalls] and [SiloCommit] hold the invariant and
      its preservation by calls and commit steps, [SiloSerial] the argument
      that the validated reads still hold at the serialization point,
      [SiloSystem] the threads as a transition system and the theorems,
      [SiloRun] the commit run to its end, [SiloLoops] the read and write
      loops of a record at the level of single memory accesses.
    - [Mvto]: src/protocols/mvto/include; version chains, leaf timestamps and
      both levels of reclamation.  [MvtoInv] states the invariant over a ghost
      history of committed versions, [MvtoStore], [MvtoCalls] and [MvtoCommit]
      show that every primitive, call, commit and abort preserve it,
      [MvtoSystem] is the workers' transition system with the theorems, and
      [MvtoRun] executes schedules for the witnesses and for what the
      conditions of the theorems exclude.
    - [WaitDie]: src/protocols/waitdie/include; two-phase locking over
      [WaitDieLock].  A call is a [prog] that stops where it asks for a lock
      and is given the store it finds when it goes on.  [WaitDieClaims] is the
      lock seen from one transaction, [WaitDieInv] the invariant, [WaitDieSteps]
      the changes of one row, [WaitDieCalls] and [WaitDieCommit] the calls,
      commit and abort, [WaitDieSystem] the threads with the theorems,
      [WaitDieRun] the schedules.

    The naive protocol and TPC-C, which runs on it through an interface:
    - [Utils]: src/utils/random.hpp and utils.hpp, the random generators as a
      state monad, strings in arrays, permutations.
    - [Records] and [RecordGen]: record_layout.hpp and record_layout.cpp under
      src/benchmarks/tpcc; the nine records, their copies, their generation.
    - [Tx]: the class [Transaction] of the calls a protocol offers TPC-C, and
      [TransactionSpec], what they promise: each running transaction has a
      view over committed rows, a call writes its target and nothing else.
    - [Tpcc]: src/benchmarks/tpcc/include; the five transactions over any
      [Transaction] in a monad of worker states, with tx_utils.hpp and
      tx_runner.hpp.
    - [Naive]: src/protocols/naive/include; database, record cache, write set
      and calls.  [NaiveInv] says which pointers own which record, [NaiveCommit]
      that commit and abort keep it, [NaiveTx] that the protocol is a
      [TransactionSpec].  [NaiveLock] is concurrency_manager.hpp.
    - [TxSerial]: series of transactions against rows, over any protocol with
      the promises; [TpccRules]: the rules by which the transactions are
      proved from the promises alone; [TpccNewOrder], [TpccPayment],
      [TpccStockLevel]: their specifications and proofs; [TpccStat]: the
      counters; [NaiveRun]: the protocol plugged into the theorems and a small
      database for the witnesses; [NaiveClaims]: what goes wrong, in general.

    ** How code becomes definitions

    A call is a function to [outcome]: [Ok] when it returns, [Throw] when it
    throws, [Stuck] when an assertion fails or memory is misused.  State is
    passed explicitly; pointers are [option positive] into maps, so freed and
    null pointers are visible.  Integers are [Z], wrapped at the width of the
    C++ type ([u8], [u32], [u64], [s64]).  What other threads do in between,
    the outcome of a try_lock or the iteration order of a hash table, is an
    argument of the definition or a step of a transition system.  Loops over
    containers are structural; a loop that need not end takes fuel and the
    theorems about it say how much is enough.

    ** What the theorems show

    - Serval, Caracal and Serval-RC: for every order in which workers append,
      the row holds exactly the writes of the epoch in serial order; a reader
      that executes after any part of them has been filled in gets the record
      of the latest write before it, or spins while that one is pending; a new
      epoch keeps the final state and frees the rest; the bitmap search equals
      a linear search.
    - Locks: mutual exclusion over all interleavings, the wait-die decision,
      who is woken, absence of deadlock for wait-die, its possibility for
      lock_upgrade.
    - Epochs and timestamps: with initialised worker epochs memory is freed
      only when no running transaction can hold it, without them it is not;
      timestamps are unique and the published bounds bracket the counters, but
      the horizon may pass a running transaction; nothing retired is lost.
    - Index: lookups, insertions and removals refine a map; scans are exact.
    - NoWait: no conflicting holders, no memory error, the committed database
      changes at commits only and by the write set exactly, repeatable reads.
    - Silo: the log of committed transactions replayed one by one gives the
      database, and every transaction read what the replay had at its place;
      no memory error between calls and steps, no deadlock while locking;
      commits, aborts and destructors end within a bound whatever the schedule
      and leave no row locked; a record read in the loop is one that was
      stored with the word it was read with.
    - MVTO: every read ever made is of the latest version before the reader's
      timestamp in the final history, so timestamp order is a serial order;
      chains represent that history down to the horizon; commit is all or
      nothing; version reclamation is invisible at and above the horizon and
      takes away what an older transaction reads.
    - WaitDie: the commits in their order are a serial execution; rows stay as
      a transaction saw them until it ends; no circle of waiting threads, and
      behind each a thread that runs; no memory error, given safe
      reclamation, and no lock released that is not held.
    - Naive and TPC-C: the naive protocol implements the tables of the committed
      transactions whatever memory its cache hands out; one transaction runs at
      a time and no wake-up of the lock is lost; over any protocol with the
      promises a new order and a payment commit and leave exactly the rows of
      their specification, a new order with an unused item is rolled back and
      leaves every row as it was, and a stock level counts the items below its
      threshold; every run is counted once under its status; generated records
      are well formed.
    - Theorems of kind error state where the code fails to do what it means
      to; the repository's findings list refers to them.

    ** Bounds

    Counters are proved free of overflow under stated bounds: fewer than
    [2 ^ 62] lock holders, epochs below [2 ^ 32], transaction counters below
    [2 ^ 55].  [CORES] is 64 and a core runs at most 64 transactions of an
    epoch, as in the sources.  The epoch of a worker is
    uninitialised when it is registered: reclamation is safe if it is then at
    most the global epoch and may free memory in use otherwise
    ([epoch_gc_safe], [epoch_uninitialised_unsafe]).  A core appends
    at most 63 versions to a row in an epoch, as the assertion that runs after
    the insertion refuses the 64th ([core_array_full]); the controller of
    Serval has a region left when a row needs one; an append to a row is one
    step.

    The theorems on Silo hold while no tid reaches 29 bits and no epoch 32
    ([small]); the global epoch advances only when all running transactions
    began in it.  A call of a running transaction is one step, and so is an
    installed write with its exchange, store and removal from the index: a
    call that is interrupted between the index and the value is not covered.
    In MVTO a call, the commit included, runs without interference; a step may
    raise the horizon only below the running transactions and may reclaim a
    value only when none holds it: the first is what the timestamp manager
    means to ensure and does not always ([horizon_passes_running]).  Rows are
    serializable; that a range or a key is empty is not
    ([mvto_absent_unprotected]).  In WaitDie threads interleave where a call
    asks for a lock or spins on it; commit and abort run at once, and a scan
    looks its next row up in the index each time.  Its theorems hold while no
    transaction inserts a key just before a row it has accessed ([room]) and no
    insertion finds its key taken after a wait ([key_free]): the code loses or
    leaks a lock then ([waitdie_insert_next_own], [waitdie_taken_leaks_lock]);
    and while the values a destructor frees are not those another thread asks
    or waits for ([unwanted]): reclamation in WaitDie is not proved safe.  In
    NoWait an insertion or upsert has a next key, which the transaction itself
    does not hold ([next_free]): the code asserts the first and drops a lock
    without the second ([nowait_insert_drops_lock]).  Iterators into the
    read/write sets stay valid when the table is rehashed, as with node-based
    containers in practice.

    In the naive protocol a record that the cache gives up is freed in the
    model's memory, and what new memory holds is a parameter of the theorems.
    The TPC-C theorems are stated for one transaction that starts when no
    other is running, over rows on which it is [ready] (the rows it names
    exist, the keys it inserts do not, the numbers fit their fields); a new
    order has at most 15 lines, districts are numbered 1 to 10 and no item has
    the number 1, with which an order is rolled back ([neworder_rolls_back]);
    the text [ol_dist_info] of its lines is not compared.  Amounts
    are the values of the class [Double], of which no law is assumed.  The
    operands of [|] in [nurand_int] are drawn from left to right.  The loop
    that draws another warehouse and the retries of a transaction take fuel:
    when it runs out the result is [Wait], and the theorems about a result
    hold for any fuel.

    ** Not modelled

    YCSB (random reads and updates of keys drawn from a zipf distribution over
    doubles), the loaders of TPC-C and the adapters that cast the records of
    the index protocols (src/protocols/*/tpcc), the byte sum of [Output],
    logging, performance counters, NUMA placement and the executables
    (input/output and operating system calls); rounding of doubles; weak
    memory: loads and stores are atomic and sequentially consistent; the older
    copy of Serval under src/protocols/serval_rc/serval. *)
From Stdlib Require Export ZArith Lia ZifyBool Sorted.
From stdpp Require Export base tactics numbers gmap sets strings option list_numbers list.

#[global] Open Scope Z_scope.

(** ** Outcomes: a C++ call returns, throws, or violates an assertion *)

(** [Ok a]: the call returned [a].  [Throw m]: it threw
    [std::runtime_error(m)].  [Stuck]: an [assert] failed or the call had
    undefined behaviour (null dereference, index out of range).  [Wait]: it
    spins on a word that another thread has to change first. *)
Inductive outcome (A : Type) : Type :=
| Ok (a : A)
| Throw (what : string)
| Stuck
| Wait.
Arguments Ok {A} a.
Arguments Throw {A} what.
Arguments Stuck {A}.
Arguments Wait {A}.

#[export] Instance outcome_ret : MRet outcome := λ A a, Ok a.
#[export] Instance outcome_bind : MBind outcome := λ A B f m,
  match m with Ok a => f a | Throw w => Throw w | Stuck => Stuck | Wait => Wait end.
#[export] Instance outcome_fmap : FMap outcome := λ A B f m,
  match m with Ok a => Ok (f a) | Throw w => Throw w | Stuck => Stuck | Wait => Wait end.
#[export] Instance outcome_eq_dec {A} `{EqDecision A} : EqDecision (outcome A).
Proof.
  refine (λ m n, match m, n with
    | Ok a, Ok b => cast_if (decide (a = b))
    | Throw w, Throw w' => cast_if (decide (w = w'))
    | Stuck, Stuck => left eq_refl
    | Wait, Wait => left eq_refl
    | _, _ => right _
    end); congruence.
Defined.

(** [assert(b)] of <cassert>. *)
Definition assert_ (b : bool) : outcome unit := if b then Ok () else Stuck.

(** Reading through a pointer or an index that may be invalid. *)
Definition deref {A} (o : option A) : outcome A :=
  match o with Some a => Ok a | None => Stuck end.

Lemma bind_Ok {A B} (m : outcome A) (f : A → outcome B) b :
  m ≫= f = Ok b ↔ ∃ a, m = Ok a ∧ f a = Ok b.
Proof. destruct m; naive_solver. Qed.

Lemma assert_Ok b : b = true → assert_ b = Ok ().
Proof. by intros ->. Qed.

Lemma bind_assert {A} b (f : () → outcome A) : b = true → assert_ b ≫= f = f ().
Proof. by intros ->. Qed.

Lemma bind_assoc {A B C} (m : outcome A) (f : A → outcome B) (g : B → outcome C) : (m ≫= f) ≫= g = m ≫= λ a, f a ≫= g.
Proof. by destruct m. Qed.

Lemma bind_ext {A B} (m : outcome A) (f g : A → outcome B) : (∀ a, f a = g a) → m ≫= f = m ≫= g.
Proof. intros Hfg. destruct m; [apply Hfg|done..]. Qed.

Lemma bind_ret {A B} (a : A) (f : A → outcome B) : Ok a ≫= f = f a.
Proof. done. Qed.

(** Discharge the assertions at the head of a computation. *)
Ltac asserts := repeat (rewrite assert_Ok by (simpl; lia || done); simpl).

(** Closed equations and comparisons, decided by evaluation. *)
Ltac by_vm := match goal with |- ?x = ?y => vm_cast_no_check (eq_refl y) | |- (_ < _)%Z => unfold Z.lt; vm_cast_no_check (eq_refl Lt) end.

(** A partial lookup that is seen to succeed by evaluation. *)
Lemma lookup_default {A} (o : option A) (d : A) : (if o is Some _ then true else false) = true → o = Some (default d o).
Proof. by destruct o. Qed.

Lemma assert_Ok_inv b u : assert_ b = Ok u → b = true.
Proof. by destruct b. Qed.

Lemma deref_Ok {A} (o : option A) a : deref o = Ok a ↔ o = Some a.
Proof. destruct o; naive_solver. Qed.

(** ** Machine words *)

(** [wrap w z]: the value of [z] stored in a [w]-bit unsigned integer. *)
Definition wrap (w z : Z) : Z := z mod 2 ^ w.
Abbreviation u8 := (wrap 8).
Abbreviation u16 := (wrap 16).
Abbreviation u32 := (wrap 32).
Abbreviation u64 := (wrap 64).
(** [swrap w z]: the value of [z] stored in a [w]-bit signed integer. *)
Definition swrap (w z : Z) : Z := (z + 2 ^ (w - 1)) mod 2 ^ w - 2 ^ (w - 1).
Abbreviation s64 := (swrap 64).

Definition word (w z : Z) : Prop := 0 ≤ z < 2 ^ w.
Abbreviation word64 := (word 64).
#[export] Instance word_dec w z : Decision (word w z).
Proof. unfold word. apply _. Defined.

Definition UINT64_MAX : Z := 2 ^ 64 - 1.

Lemma wrap_word w z : 0 ≤ w → word w (wrap w z).
Proof. intros. apply Z.mod_pos_bound. lia. Qed.

Lemma wrap_small w z : word w z → wrap w z = z.
Proof. apply Z.mod_small. Qed.

Lemma wrap_testbit w z i : 0 ≤ w → 0 ≤ i →
  Z.testbit (wrap w z) i = (i <? w) && Z.testbit z i.
Proof.
  intros Hw Hi. unfold wrap. destruct (Z.ltb_spec i w); simpl.
  - by rewrite Z.mod_pow2_bits_low.
  - rewrite Z.mod_pow2_bits_high; [done|lia].
Qed.

Lemma word_testbit_high w z i : word w z → w ≤ i → Z.testbit z i = false.
Proof.
  intros [Hz Hlt] Hi. destruct (decide (0 ≤ w)).
  - rewrite <- (Z.mod_small z (2 ^ w)) by lia. rewrite Z.mod_pow2_bits_high; [done|lia].
  - rewrite Z.pow_neg_r in Hlt by lia. lia.
Qed.

Lemma word_of_bits w z : 0 ≤ w → 0 ≤ z →
  (∀ i, w ≤ i → Z.testbit z i = false) → word w z.
Proof.
  intros Hw Hz Hb. split; [done|]. destruct (decide (z = 0)) as [->|]; [lia|].
  apply Z.log2_lt_pow2; [lia|]. apply Z.nle_gt. intros Hle.
  assert (Z.testbit z (Z.log2 z) = true) as Ht by (apply Z.bit_log2; lia).
  rewrite Hb in Ht by done. done.
Qed.

Lemma word_eq w a b : word w a → word w b →
  (∀ i, 0 ≤ i < w → Z.testbit a i = Z.testbit b i) → a = b.
Proof.
  intros Ha Hb Hbits. apply Z.bits_inj'. intros i Hi.
  destruct (decide (i < w)); [by apply Hbits|].
  rewrite !(word_testbit_high w) by (done || lia). done.
Qed.

Lemma word_lor w a b : 0 ≤ w → word w a → word w b → word w (Z.lor a b).
Proof.
  intros Hw Ha Hb. pose proof Ha as [? _]; pose proof Hb as [? _].
  apply word_of_bits; [done|by apply Z.lor_nonneg|].
  intros i Hi. rewrite Z.lor_spec, !(word_testbit_high w) by done. done.
Qed.

Lemma word_land_l w a b : 0 ≤ w → word w a → word w (Z.land a b).
Proof.
  intros Hw Ha. pose proof Ha as [? _].
  apply word_of_bits; [done|apply Z.land_nonneg; by left|].
  intros i Hi. rewrite Z.land_spec, (word_testbit_high w a) by done. done.
Qed.

Lemma word_land_r w a b : 0 ≤ w → word w b → word w (Z.land a b).
Proof. rewrite Z.land_comm. apply word_land_l. Qed.

(** ** The algorithms of <algorithm> on ascending vectors *)

(** [std_upper_bound comp l]: the index of the first element [e] with
    [comp e], the length of [l] when there is none.  [comp e] is the
    source's [comp(value, e)]. *)
Fixpoint std_upper_bound {A} (comp : A → bool) (l : list A) : nat :=
  match l with
  | [] => 0
  | x :: l => if comp x then 0%nat else S (std_upper_bound comp l)
  end.

(** [v.insert(v.begin() + i, x)] of a [std::vector]. *)
Definition vector_insert {A} (i : nat) (x : A) (l : list A) : list A :=
  take i l ++ x :: drop i l.

(** [std::find_if(l.begin(), l.end(), p)], the element found. *)
Fixpoint std_find_if {A} (p : A → bool) (l : list A) : option A :=
  match l with
  | [] => None
  | x :: l => if p x then Some x else std_find_if p l
  end.

(** The position where an element with key [k] enters a vector of
    (key, value) pairs: after every key that is not greater than [k]. *)
Definition insert_ascending {A} (k : Z) (x : A) (l : list (Z * A)) : list (Z * A) :=
  vector_insert (std_upper_bound (λ p, k <? p.1) l) (k, x) l.

Definition ascending {A} (l : list (Z * A)) : Prop := StronglySorted Z.lt (l.*1).

(** The entry with the largest key below [k]: what a reader with id [k]
    must see. *)
Definition latest_below {A} (k : Z) (l : list (Z * A)) : option (Z * A) :=
  last (filter (λ p, p.1 < k) l).

Lemma ascending_nil {A} : @ascending A [].
Proof. constructor. Qed.

Lemma ascending_cons {A} (p : Z * A) l :
  ascending (p :: l) ↔ (∀ q, q ∈ l → p.1 < q.1) ∧ ascending l.
Proof.
  unfold ascending. csimpl. split.
  - intros [Hs Hall]%StronglySorted_inv. split; [|done].
    intros q Hq. eapply Forall_forall in Hall; [done|]. by apply list_elem_of_fmap_2.
  - intros [Hlt Hs]. constructor; [done|]. apply Forall_forall.
    intros z (q & -> & Hq)%list_elem_of_fmap_1. by apply Hlt.
Qed.

Lemma ascending_app {A} (l1 l2 : list (Z * A)) :
  ascending (l1 ++ l2) ↔
  ascending l1 ∧ ascending l2 ∧ (∀ p q, p ∈ l1 → q ∈ l2 → p.1 < q.1).
Proof.
  induction l1 as [|p l1 IH]; cbn.
  - split; [|naive_solver]. intros; split_and!; [apply ascending_nil|done|set_solver].
  - rewrite !ascending_cons, IH. setoid_rewrite elem_of_app. set_solver.
Qed.

Lemma ascending_unique {A} (l : list (Z * A)) k x y :
  ascending l → (k, x) ∈ l → (k, y) ∈ l → x = y.
Proof.
  induction l as [|p l IH]; [set_solver|].
  rewrite ascending_cons, !elem_of_cons. intros [Hlt Ha] [Hx|Hx] [Hy|Hy]; subst.
  - by simplify_eq.
  - specialize (Hlt _ Hy). simpl in Hlt. lia.
  - specialize (Hlt _ Hx). simpl in Hlt. lia.
  - eauto.
Qed.

(** An ascending vector is determined by its members. *)
Lemma ascending_ext {A} (l1 l2 : list (Z * A)) :
  ascending l1 → ascending l2 → (∀ e, e ∈ l1 ↔ e ∈ l2) → l1 = l2.
Proof.
  revert l2. induction l1 as [|p l1 IH]; intros l2 Ha1 Ha2 Heq.
  - destruct l2 as [|q l2]; [done|]. specialize (Heq q). set_solver.
  - destruct l2 as [|q l2]; [specialize (Heq p); set_solver|].
    apply ascending_cons in Ha1 as [Hlt1 Ha1]. apply ascending_cons in Ha2 as [Hlt2 Ha2].
    assert (p = q) as ->.
    { assert (p ∈ q :: l2) as [->|Hp]%elem_of_cons by (apply Heq; set_solver); [done|].
      assert (q ∈ p :: l1) as [->|Hq]%elem_of_cons by (apply Heq; set_solver); [done|].
      specialize (Hlt1 _ Hq). specialize (Hlt2 _ Hp). lia. }
    f_equal. apply IH; [done..|]. intros e. specialize (Heq e). rewrite !elem_of_cons in Heq.
    split; intros He.
    + destruct (proj1 Heq) as [->|]; [by right| |done]. specialize (Hlt1 _ He). lia.
    + destruct (proj2 Heq) as [->|]; [by right| |done]. specialize (Hlt2 _ He). lia.
Qed.

Lemma filter_all {A} (P : A → Prop) `{∀ x, Decision (P x)} (l : list A) :
  (∀ x, x ∈ l → P x) → filter P l = l.
Proof.
  induction l as [|x l IH]; [done|]. intros HP.
  rewrite filter_cons_True by (apply HP; set_solver). f_equal. apply IH. set_solver.
Qed.

Lemma filter_none {A} (P : A → Prop) `{∀ x, Decision (P x)} (l : list A) :
  (∀ x, x ∈ l → ¬ P x) → filter P l = [].
Proof.
  induction l as [|x l IH]; [done|]. intros HP.
  rewrite filter_cons_False by (apply HP; set_solver). apply IH. set_solver.
Qed.

Lemma elem_of_option_list {A} (o : option A) (a : A) : a ∈ option_list o ↔ o = Some a.
Proof. destruct o as [b|]; simpl; [rewrite list_elem_of_singleton|rewrite elem_of_nil]; naive_solver. Qed.

(** On an ascending vector, the elements before [upper_bound] are those on
    which the comparison fails. *)
Lemma upper_bound_take {A} (comp : Z * A → bool) (l : list (Z * A)) :
  (∀ p q, p.1 < q.1 → comp p = true → comp q = true) → ascending l →
  take (std_upper_bound comp l) l = filter (λ p, comp p = false) l ∧
  drop (std_upper_bound comp l) l = filter (λ p, comp p = true) l.
Proof.
  intros Hmono. induction l as [|p l IH]; [done|].
  rewrite ascending_cons. intros [Hlt Ha]. simpl. destruct (comp p) eqn:Hp.
  - rewrite filter_cons_False, filter_cons_True by congruence. simpl.
    split; [symmetry; apply filter_none|f_equal; symmetry; apply filter_all].
    + intros q Hq. rewrite (Hmono p q) by eauto. done.
    + intros q Hq. eauto.
  - rewrite filter_cons_True, filter_cons_False by congruence. simpl.
    destruct (IH Ha) as [-> ->]. done.
Qed.

Lemma filter_iff {A} (P Q : A → Prop)
    `{∀ x, Decision (P x)} `{∀ x, Decision (Q x)} (l : list A) :
  (∀ x, x ∈ l → P x ↔ Q x) → filter P l = filter Q l.
Proof.
  induction l as [|x l IH]; [done|]. intros HPQ.
  assert (P x ↔ Q x) as Hx by (apply HPQ; set_solver).
  assert (filter P l = filter Q l) as Hl by (apply IH; set_solver).
  destruct (decide (P x)).
  - rewrite !filter_cons_True by naive_solver. congruence.
  - rewrite !filter_cons_False by naive_solver. congruence.
Qed.

Lemma ascending_filter {A} (P : Z * A → Prop) `{∀ p, Decision (P p)} (l : list (Z * A)) :
  ascending l → ascending (filter P l).
Proof.
  induction l as [|p l IH]; [done|]. intros [Hlt Ha]%ascending_cons.
  rewrite filter_cons. case_decide; [|auto].
  apply ascending_cons. split; [|auto]. intros q [_ Hq]%list_elem_of_filter. auto.
Qed.

(** *** Inserting at the upper bound *)

Lemma insert_ascending_perm {A} k (x : A) l :
  insert_ascending k x l ≡ₚ (k, x) :: l.
Proof.
  unfold insert_ascending, vector_insert.
  rewrite <- Permutation_middle, take_drop. done.
Qed.

Lemma elem_of_insert_ascending {A} k (x : A) l p :
  p ∈ insert_ascending k x l ↔ p = (k, x) ∨ p ∈ l.
Proof. rewrite insert_ascending_perm. apply elem_of_cons. Qed.

Lemma insert_ascending_length {A} k (x : A) l :
  length (insert_ascending k x l) = S (length l).
Proof. by rewrite insert_ascending_perm. Qed.

Lemma insert_ascending_sorted {A} k (x : A) l :
  ascending l → k ∉ l.*1 → ascending (insert_ascending k x l).
Proof.
  intros Ha Hk. unfold insert_ascending, vector_insert.
  destruct (upper_bound_take (λ p, k <? p.1) l) as [-> ->]; [simpl; lia|done|].
  assert (∀ p, p ∈ l → p.1 ≠ k) as Hne.
  { intros p Hp <-. apply Hk. by apply list_elem_of_fmap_2. }
  apply ascending_app. rewrite ascending_cons. split_and!; try by apply ascending_filter.
  - intros q [Hq _]%list_elem_of_filter. simpl. lia.
  - intros p q [Hp Hpl]%list_elem_of_filter [->|[Hq _]%list_elem_of_filter]%elem_of_cons.
    + specialize (Hne p Hpl). simpl. lia.
    + lia.
Qed.

(** Elements below the key are passed over. *)
Lemma insert_ascending_app {A} k (x : A) l1 l2 :
  (∀ p, p ∈ l1 → p.1 < k) → insert_ascending k x (l1 ++ l2) = l1 ++ insert_ascending k x l2.
Proof.
  unfold insert_ascending, vector_insert. induction l1 as [|p l1 IH]; intros Hlt; [done|].
  simpl. assert (p.1 < k) by (apply Hlt; set_solver). destruct (Z.ltb_spec k p.1); [lia|].
  simpl. f_equal. apply IH. set_solver.
Qed.

(** A key larger than all the others goes to the end. *)
Lemma insert_ascending_snoc {A} k (x : A) l :
  (∀ p, p ∈ l → p.1 < k) → insert_ascending k x l = l ++ [(k, x)].
Proof.
  intros Hlt. unfold insert_ascending, vector_insert.
  assert (std_upper_bound (λ p, k <? p.1) l = length l) as ->.
  { induction l as [|p l IH]; [done|]. simpl.
    assert (p.1 < k) by (apply Hlt; set_solver).
    destruct (Z.ltb_spec k p.1); [lia|]. f_equal. apply IH. set_solver. }
  by rewrite take_ge, drop_ge by lia.
Qed.

(** *** Multimaps: keys in non-descending order *)

Definition nondescending {A} (l : list (Z * A)) : Prop := StronglySorted Z.le l.*1.

Lemma insert_nondescending {A} k (x : A) l : nondescending l → nondescending (insert_ascending k x l).
Proof.
  unfold nondescending, insert_ascending, vector_insert. induction l as [|p l IH]; simpl; [by repeat constructor|].
  intros Ha. csimpl in Ha. pose proof Ha as [Hs Hall]%StronglySorted_inv. destruct (Z.ltb_spec k p.1); csimpl.
  - constructor; [done|]. constructor; [lia|]. rewrite Forall_forall in *. intros q Hq%Hall. lia.
  - constructor; [by apply IH|]. rewrite fmap_app. csimpl. rewrite <- Permutation_middle, <- fmap_app, take_drop.
    by constructor.
Qed.

(** [upper_bound(k)] separates the keys up to [k] from those above. *)
Lemma upper_bound_nondescending {A} k (l : list (Z * A)) : nondescending l →
  (∀ p, p ∈ take (std_upper_bound (λ p, k <? p.1) l) l → p.1 ≤ k) ∧
  (∀ p, p ∈ drop (std_upper_bound (λ p, k <? p.1) l) l → k < p.1).
Proof.
  unfold nondescending. induction l as [|p l IH]; [simpl; split; set_solver|]. csimpl. intros [Hs Hall]%StronglySorted_inv.
  rewrite Forall_forall in Hall. destruct (Z.ltb_spec k p.1); simpl.
  - split; [set_solver|]. intros q [->|Hq]%elem_of_cons; [done|].
    specialize (Hall q.1 ltac:(by apply list_elem_of_fmap_2)). lia.
  - destruct (IH Hs) as [H1 H2]. split; [|done]. intros q [->|Hq]%elem_of_cons; [done|by apply H1].
Qed.

(** *** Searching below a key *)

Lemma latest_below_Some {A} k (l : list (Z * A)) i x : ascending l →
  latest_below k l = Some (i, x) ↔
  (i, x) ∈ l ∧ i < k ∧ ∀ p, p ∈ l → p.1 < k → p.1 ≤ i.
Proof.
  intros Ha. unfold latest_below. split.
  - intros Hl. pose proof (last_Some_elem_of _ _ Hl) as [Hi Hin]%list_elem_of_filter.
    split_and!; [done..|]. intros p Hp Hpk.
    apply last_filter_Some in Hl as (l1 & l2 & -> & Hno).
    apply elem_of_app in Hp as [Hp|[->|Hp]%elem_of_cons]; [|done|].
    + apply ascending_app in Ha as (_ & _ & Hlt).
      specialize (Hlt p (i, x) Hp ltac:(set_solver)). simpl in Hlt. lia.
    + rewrite Forall_forall in Hno. by specialize (Hno p Hp).
  - intros (Hin & Hi & Hmax). destruct (last (filter _ l)) as [[j y]|] eqn:Hl.
    + pose proof (last_Some_elem_of _ _ Hl) as [Hj Hjn]%list_elem_of_filter.
      pose proof (Hmax _ Hjn Hj). simpl in *.
      apply last_filter_Some in Hl as (l1 & l2 & -> & Hno).
      apply elem_of_app in Hin as [Hin|[?|Hin]%elem_of_cons]; [|by simplify_eq|].
      * apply ascending_app in Ha as (_ & _ & Hlt).
        specialize (Hlt (i, x) (j, y) Hin ltac:(set_solver)). simpl in Hlt. lia.
      * rewrite Forall_forall in Hno. by specialize (Hno _ Hin).
    + apply last_None in Hl. exfalso. eapply (filter_nil_not_elem_of _ _ (i, x)); eauto.
Qed.

Lemma latest_below_None {A} k (l : list (Z * A)) :
  latest_below k l = None ↔ ∀ p, p ∈ l → k ≤ p.1.
Proof.
  unfold latest_below. rewrite last_None. split.
  - intros Hnil p Hp. apply Z.nlt_ge. intros Hlt.
    eapply (filter_nil_not_elem_of _ _ p); eauto.
  - intros Hge. apply filter_none. intros p Hp. specialize (Hge p Hp). lia.
Qed.

(** Stepping back from the upper bound reaches the entry below the key. *)
Lemma upper_bound_pred {A} k (l : list (Z * A)) : ascending l →
  latest_below k l =
    match std_upper_bound (λ p, k <=? p.1) l with O => None | S n => l !! n end.
Proof.
  intros Ha. unfold latest_below.
  destruct (upper_bound_take (λ p, k <=? p.1) l) as [Htake _]; [simpl; lia|done|].
  rewrite (filter_iff _ (λ p : Z * A, (k <=? p.1)%Z = false)) by (intros; rewrite Z.leb_gt; lia).
  rewrite <- Htake. assert (∀ c, std_upper_bound c l ≤ length l)%nat as Hle.
  { intros c. clear. induction l as [|p l IH]; [done|]. simpl. case_match; simpl; lia. }
  specialize (Hle (λ p, (k <=? p.1)%Z)).
  destruct (std_upper_bound _ l) as [|n]; [done|].
  destruct (lookup_lt_is_Some_2 l n) as [x Hx]; [lia|].
  by rewrite (take_S_r _ _ _ Hx), last_snoc.
Qed.

(** *** A set of writes in the order of their ids *)

Section spec_row.
Context {A : Type}.

(** The specification of a row: its writes in the order of their ids. *)
Definition spec_row (writes : list (Z * A)) : list (Z * A) :=
  foldr (λ e E, insert_ascending e.1 e.2 E) [] writes.

Lemma spec_row_perm writes : spec_row writes ≡ₚ writes.
Proof.
  induction writes as [|[id p] writes IH]; [done|]. simpl. by rewrite insert_ascending_perm, IH.
Qed.

Lemma ascending_NoDup (l : list (Z * A)) : ascending l → NoDup l.*1.
Proof.
  unfold ascending. generalize l.*1. induction 1 as [|x L Hs IH Hall]; constructor; [|done].
  rewrite Forall_forall in Hall. intros Hx%Hall. lia.
Qed.

Lemma spec_row_ascending writes : NoDup writes.*1 → ascending (spec_row writes).
Proof.
  induction writes as [|[id p] writes IH]; [constructor|]. csimpl.
  intros [Hni Hnd]%NoDup_cons. apply insert_ascending_sorted; [auto|]. by rewrite spec_row_perm.
Qed.

Lemma spec_row_unique E writes : ascending E → E ≡ₚ writes → E = spec_row writes.
Proof.
  intros Ha Hp. apply ascending_ext; [done| |intros e; by rewrite Hp, spec_row_perm].
  apply spec_row_ascending. rewrite <- Hp. by apply ascending_NoDup.
Qed.
End spec_row.

(** ** Automation

    [rows] proves that vectors stay sorted, [outcome] evaluates the monad. *)
Create HintDb rows.
#[export] Hint Resolve ascending_nil insert_ascending_sorted ascending_filter insert_nondescending
  spec_row_ascending ascending_NoDup : rows.

Create HintDb outcome.
Create Rewrite HintDb outcome.
#[export] Hint Rewrite @bind_ret : outcome.
#[export] Hint Resolve assert_Ok : outcome.

(** ** Notation of the models *)
Declare Scope cpp_scope.
Delimit Scope cpp_scope with cpp.
Notation "'assert!' b ; k" := (mbind (M := outcome) (λ _ : unit, k) (assert_ b))
  (at level 100, b at level 99, k at level 200, right associativity) : cpp_scope.
