(* ===== verification/Bitmap.v ===== *)
(** * utils/bitmap.hpp: 64-bit bitmaps read from the left

    A bitmap is a [uint64_t] whose position 0 is the most significant bit.
    The file models every function of bitmap.hpp at its width and relates
    each to the ascending list of the positions set, [positions]. *)
From S2P Require Import Prelude.

(** ** Compiler builtins *)

(** [__builtin_popcountll]: the number of one bits. *)
Definition builtin_popcountll (x : Z) : Z :=
  Z.of_nat (length (filter (λ i, Z.testbit x i = true) (seqZ 0 64))).

(** [__builtin_ffsll]: one plus the index of the least significant one
    bit, zero for zero. *)
Definition builtin_ffsll (x : Z) : Z :=
  match list_find (λ i, Z.testbit x i = true) (seqZ 0 64) with
  | Some (_, i) => i + 1
  | None => 0
  end.

(** ** The functions of bitmap.hpp *)

Definition count_bits (bits : Z) : Z := builtin_popcountll bits.

(** [~0ULL >> 1], complemented; the signed version is converted to
    [int64_t]. *)
Definition set_upper_bit___unsigned : Z := u64 (Z.lnot (Z.shiftr UINT64_MAX 1)).
Definition set_upper_bit___signed : Z := s64 (u64 (Z.lnot (Z.shiftr UINT64_MAX 1))).

Definition set_bit_at_the_given_location (pos : Z) : Z :=
  Z.shiftr set_upper_bit___unsigned pos.

Definition set_bit_in (bitmap pos : Z) : outcome Z :=
  _ ← assert_ (pos <? 64);
  Ok (Z.lor bitmap (set_bit_at_the_given_location pos)).

(** The right shift of the negative [int64_t] is arithmetic. *)
Definition fill_the_left_side_until_before_the_given_position (pos : Z) : Z :=
  if pos =? 0 then 0 else u64 (Z.shiftr set_upper_bit___signed (pos - 1)).

Definition fill_the_left_side_until_the_given_position (pos : Z) : Z :=
  u64 (Z.shiftr set_upper_bit___signed pos).

Definition is_bit_set_at_the_position (bitmap pos : Z) : bool :=
  negb (Z.land bitmap (set_bit_at_the_given_location pos) =? 0).

Definition find_the_location_of_first_bit_from_right (bits : Z) : Z :=
  builtin_ffsll bits.

Definition find_the_largest (bits : Z) : outcome Z :=
  _ ← assert_ (negb (bits =? 0));
  let result := 64 - find_the_location_of_first_bit_from_right bits in
  _ ← assert_ ((0 <=? result) && (result <? 64));
  Ok result.

Definition find_the_largest_among_or_less_than (bitmap pos : Z) : outcome Z :=
  _ ← assert_ (negb (bitmap =? 0));
  _ ← assert_ ((0 <=? pos) && (pos <? 64));
  let smallers := Z.land bitmap (fill_the_left_side_until_the_given_position pos) in
  if smallers =? 0 then Ok (-1) else find_the_largest smallers.

(** The pair is (second largest, largest). *)
Definition find_the_two_largest_among_or_less_than (bitmap pos : Z) : outcome (Z * Z) :=
  _ ← assert_ (negb (bitmap =? 0));
  _ ← assert_ ((0 <=? pos) && (pos <? 64));
  let smallers := Z.land bitmap (fill_the_left_side_until_the_given_position pos) in
  if smallers =? 0 then Ok (-1, -1) else
  largest_pos ← find_the_largest smallers;
  _ ← assert_ (largest_pos <? 64);
  if builtin_popcountll smallers =? 1 then Ok (-1, largest_pos) else
  _ ← assert_ (0 <=? largest_pos);
  second_largest_pos ←
    find_the_largest (Z.land (Z.lnot (set_bit_at_the_given_location largest_pos)) smallers);
  _ ← assert_ (second_largest_pos <? largest_pos);
  Ok (second_largest_pos, largest_pos).

Definition find_the_largest_among_less_than (bitmap pos : Z) : outcome Z :=
  _ ← assert_ (negb (bitmap =? 0));
  _ ← assert_ ((0 <=? pos) && (pos <? 64));
  let smallers := Z.land bitmap (fill_the_left_side_until_before_the_given_position pos) in
  if smallers =? 0 then Ok (-1) else find_the_largest smallers.

(** ** The abstract view: the positions set, in ascending order *)

Definition bit_at (bm p : Z) : bool := Z.testbit bm (63 - p).

Definition positions (bm : Z) : list Z :=
  filter (λ p, bit_at bm p = true) (seqZ 0 64).

(** The last element of a list of positions, -1 when there is none: the
    convention of the find functions. *)
Definition last_or_none (l : list Z) : Z := default (-1) (last l).

Lemma elem_of_positions bm p : p ∈ positions bm ↔ bit_at bm p = true ∧ 0 ≤ p < 64.
Proof. unfold positions. rewrite list_elem_of_filter, elem_of_seqZ. naive_solver lia. Qed.

Lemma StronglySorted_filter {A} (R : relation A) (P : A → Prop) `{∀ x, Decision (P x)} l :
  StronglySorted R l → StronglySorted R (filter P l).
Proof.
  induction 1 as [|x l Hs IH Hall]; [constructor|].
  rewrite filter_cons. case_decide; [|done]. constructor; [done|].
  rewrite Forall_forall in *. intros y [_ Hy]%list_elem_of_filter. auto.
Qed.

Lemma positions_sorted bm : StronglySorted Z.lt (positions bm).
Proof. apply StronglySorted_filter. vm_compute. repeat constructor. Qed.

(** Ascending lists with the same members are equal. *)
Lemma sorted_ext (l1 l2 : list Z) :
  StronglySorted Z.lt l1 → StronglySorted Z.lt l2 → (∀ x, x ∈ l1 ↔ x ∈ l2) → l1 = l2.
Proof.
  intros Hs1. revert l2. induction Hs1 as [|x l1 Hs1 IH Hall1]; intros l2 Hs2 Heq.
  - destruct l2 as [|y l2]; [done|]. specialize (Heq y). set_solver.
  - destruct Hs2 as [|y l2 Hs2 Hall2]; [specialize (Heq x); set_solver|].
    rewrite Forall_forall in Hall1, Hall2.
    assert (x = y) as ->.
    { assert (x ∈ y :: l2) as [->|Hx]%elem_of_cons by (apply Heq; set_solver); [done|].
      assert (y ∈ x :: l1) as [->|Hy]%elem_of_cons by (apply Heq; set_solver); [done|].
      pose proof (Hall1 _ Hy). pose proof (Hall2 _ Hx). lia. }
    f_equal. apply IH; [done|]. intros z. specialize (Heq z). rewrite !elem_of_cons in Heq.
    split; intros Hz.
    + destruct (proj1 Heq) as [->|]; [by right| |done]. specialize (Hall1 _ Hz). lia.
    + destruct (proj2 Heq) as [->|]; [by right| |done]. specialize (Hall2 _ Hz). lia.
Qed.

Lemma sorted_snoc (l : list Z) p q :
  StronglySorted Z.lt (l ++ [p]) → q ∈ l → q < p.
Proof.
  induction l as [|x l IH]; [set_solver|]. cbn. intros [Hs Hall]%StronglySorted_inv.
  rewrite Forall_forall in Hall. intros [->|Hq]%elem_of_cons; [apply Hall; set_solver|auto].
Qed.

(** The maximum of an ascending list is its last element. *)
Lemma sorted_last (l : list Z) p : StronglySorted Z.lt l →
  last l = Some p ↔ p ∈ l ∧ ∀ q, q ∈ l → q ≤ p.
Proof.
  intros Hs. split.
  - intros Hl. split; [by apply last_Some_elem_of|].
    apply last_Some in Hl as [l' ->]. intros q Hq.
    apply elem_of_app in Hq as [Hq|Hq]; [pose proof (sorted_snoc _ _ _ Hs Hq); lia|set_solver].
  - intros [Hin Hmax]. destruct (last l) as [q|] eqn:Hl; [|apply last_None in Hl; set_solver].
    assert (q ≤ p) as Hq by by apply Hmax, last_Some_elem_of.
    apply last_Some in Hl as [l' ->].
    apply elem_of_app in Hin as [Hin|Hin]; [pose proof (sorted_snoc _ _ _ Hs Hin); lia|set_solver].
Qed.

(** ** Bits of the masks *)

Lemma bit_at_set pos p : 0 ≤ pos < 64 → 0 ≤ p < 64 →
  bit_at (set_bit_at_the_given_location pos) p = bool_decide (p = pos).
Proof.
  intros Hpos Hp. unfold bit_at, set_bit_at_the_given_location.
  change set_upper_bit___unsigned with (2 ^ 63).
  rewrite Z.shiftr_spec by lia. rewrite Z.pow2_bits_eqb by lia.
  case_bool_decide; destruct (Z.eqb_spec 63 (63 - p + pos)); lia || done.
Qed.

Lemma set_bit_word pos : 0 ≤ pos → word64 (set_bit_at_the_given_location pos).
Proof.
  intros. unfold set_bit_at_the_given_location. change set_upper_bit___unsigned with (2 ^ 63).
  rewrite Z.shiftr_div_pow2 by done. split; [apply Z.div_pos; lia|].
  apply Z.div_lt_upper_bound; lia.
Qed.

Lemma shiftr_min_bits n i : 0 ≤ n → 0 ≤ i →
  Z.testbit (Z.shiftr (- 2 ^ 63) n) i = (63 <=? i + n).
Proof.
  intros. rewrite Z.shiftr_spec by done.
  replace (- 2 ^ 63) with (Z.lnot (2 ^ 63 - 1)) by (unfold Z.lnot; lia).
  rewrite Z.lnot_spec by lia.
  change (2 ^ 63 - 1) with (Z.ones 63).
  destruct (Z.leb_spec 63 (i + n)).
  - by rewrite Z.ones_spec_high by lia.
  - by rewrite Z.ones_spec_low by lia.
Qed.

Lemma bit_at_fill_until pos p : 0 ≤ pos < 64 → 0 ≤ p < 64 →
  bit_at (fill_the_left_side_until_the_given_position pos) p = bool_decide (p ≤ pos).
Proof.
  intros Hpos Hp. unfold bit_at, fill_the_left_side_until_the_given_position.
  change set_upper_bit___signed with (- 2 ^ 63). rewrite wrap_testbit by lia.
  rewrite shiftr_min_bits by lia.
  case_bool_decide; destruct (Z.ltb_spec (63 - p) 64), (Z.leb_spec 63 (63 - p + pos)); simpl; lia.
Qed.

Lemma bit_at_fill_before pos p : 0 ≤ pos < 64 → 0 ≤ p < 64 →
  bit_at (fill_the_left_side_until_before_the_given_position pos) p = bool_decide (p < pos).
Proof.
  intros Hpos Hp. unfold bit_at, fill_the_left_side_until_before_the_given_position.
  destruct (Z.eqb_spec pos 0) as [->|].
  - rewrite Z.bits_0. case_bool_decide; [lia|done].
  - change set_upper_bit___signed with (- 2 ^ 63). rewrite wrap_testbit by lia.
    rewrite shiftr_min_bits by lia.
    case_bool_decide; destruct (Z.ltb_spec (63 - p) 64), (Z.leb_spec 63 (63 - p + (pos - 1)));
      simpl; lia.
Qed.

Lemma fill_until_word pos : word64 (fill_the_left_side_until_the_given_position pos).
Proof. by apply wrap_word. Qed.

Lemma fill_before_word pos : word64 (fill_the_left_side_until_before_the_given_position pos).
Proof.
  unfold fill_the_left_side_until_before_the_given_position.
  case_match; [by vm_compute|by apply wrap_word].
Qed.

(** ** The abstraction of each operation *)

Lemma positions_nil bm : word64 bm → positions bm = [] ↔ bm = 0.
Proof.
  intros Hw. split; [|by intros ->].
  intros Hnil. apply (word_eq 64); [done|by vm_compute|].
  intros i Hi. rewrite Z.bits_0. apply not_true_iff_false. intros Hb.
  assert (63 - i ∈ positions bm) as Hin.
  { apply elem_of_positions. unfold bit_at. replace (63 - (63 - i)) with i by lia. split; [done|lia]. }
  rewrite Hnil in Hin. set_solver.
Qed.

Lemma positions_land bm m : positions (Z.land bm m) = filter (λ p, bit_at m p = true) (positions bm).
Proof.
  unfold positions. rewrite list_filter_filter. apply filter_iff.
  intros p _. unfold bit_at. rewrite Z.land_spec, andb_true_iff. tauto.
Qed.

Lemma positions_lor bm pos : 0 ≤ pos < 64 →
  ∀ p, p ∈ positions (Z.lor bm (set_bit_at_the_given_location pos)) ↔ p = pos ∨ p ∈ positions bm.
Proof.
  intros Hpos p. rewrite !elem_of_positions. unfold bit_at at 1. rewrite Z.lor_spec.
  fold (bit_at bm p). fold (bit_at (set_bit_at_the_given_location pos) p).
  rewrite orb_true_iff. split.
  - intros [[|Hb] Hp]; [by right|]. rewrite bit_at_set in Hb by done.
    apply bool_decide_eq_true in Hb. by left.
  - intros [->|[? ?]]; [|naive_solver]. split; [|done]. right. rewrite bit_at_set by done.
    by apply bool_decide_eq_true.
Qed.

(** A bit is set exactly when its position is listed. *)
Lemma is_bit_set_bit_at bm pos : word64 bm → 0 ≤ pos < 64 →
  is_bit_set_at_the_position bm pos = bit_at bm pos.
Proof.
  intros Hw Hpos. unfold is_bit_set_at_the_position.
  set (m := Z.land bm (set_bit_at_the_given_location pos)).
  assert (word64 m) as Hm by by apply word_land_l.
  assert (positions m = filter (λ p, p = pos) (positions bm)) as Hpm.
  { unfold m. rewrite positions_land. apply filter_iff. intros p [_ Hp]%elem_of_positions.
    rewrite bit_at_set by done. apply bool_decide_eq_true. }
  pose proof (positions_nil m Hm) as Hnil. rewrite Hpm in Hnil.
  destruct (bit_at bm pos) eqn:Hb, (Z.eqb_spec m 0) as [Hz|Hz]; [|done..|]; exfalso.
  - apply Hnil in Hz. eapply (filter_nil_not_elem_of _ _ pos); [done..|].
    by apply elem_of_positions.
  - apply Hz, Hnil, filter_none. intros p [? _]%elem_of_positions ->. congruence.
Qed.

Lemma seqZ_mirror : seqZ 0 64 = reverse ((λ i, 63 - i) <$> seqZ 0 64).
Proof. reflexivity. Qed.

(** [popcount] counts the positions. *)
Lemma popcount_positions bm : builtin_popcountll bm = Z.of_nat (length (positions bm)).
Proof.
  unfold builtin_popcountll. f_equal. rewrite seqZ_mirror at 1.
  rewrite filter_reverse, length_reverse. unfold positions.
  induction (seqZ 0 64) as [|p l IH]; [done|]. csimpl. rewrite !filter_cons.
  unfold bit_at at 1. by do 2 case_decide; simpl; rewrite ?IH.
Qed.

(** [ffs] finds the position farthest to the right. *)
Lemma ffs_positions bm : word64 bm → bm ≠ 0 →
  ∃ p, last (positions bm) = Some p ∧ builtin_ffsll bm = 64 - p ∧ 0 ≤ p < 64.
Proof.
  intros Hw Hnz. unfold builtin_ffsll. destruct (list_find _ _) as [[n i]|] eqn:Hf.
  - apply list_find_Some in Hf as (Hn & Hi & Hmin).
    apply lookup_seqZ in Hn as [-> Hn]. rewrite Z.add_0_l in *.
    exists (63 - Z.of_nat n). split_and!; try lia. apply sorted_last; [apply positions_sorted|].
    split; [apply elem_of_positions; unfold bit_at; replace (63 - (63 - Z.of_nat n)) with (Z.of_nat n) by lia; split; [done|lia]|].
    intros q [Hq Hq']%elem_of_positions. apply Z.nlt_ge. intros Hlt.
    apply (Hmin (Z.to_nat (63 - q)) (63 - q)); [apply lookup_seqZ; lia|lia|done].
  - apply list_find_None in Hf. exfalso. apply Hnz, positions_nil; [done|].
    apply filter_none. intros p Hp%elem_of_seqZ Hb. rewrite Forall_forall in Hf.
    apply (Hf (63 - p)); [apply elem_of_seqZ; lia|done].
Qed.

Lemma find_the_largest_last bm p : word64 bm → last (positions bm) = Some p →
  find_the_largest bm = Ok p.
Proof.
  intros Hw Hl. assert (bm ≠ 0) as Hnz by (intros ->; done).
  destruct (ffs_positions bm Hw Hnz) as (p' & Hl' & Hffs & Hp). simplify_eq.
  unfold find_the_largest, find_the_location_of_first_bit_from_right. rewrite Hffs.
  destruct (Z.eqb_spec bm 0); [done|]. simpl.
  replace (64 - (64 - p)) with p by lia.
  rewrite (assert_Ok (_ && _)) by lia. done.
Qed.

Lemma last_cons_Some {A} (x : A) l : ∃ y, last (x :: l) = Some y.
Proof. destruct (last (x :: l)) eqn:Hl; [eauto|]. by apply last_None in Hl. Qed.

(** The masked search: the last of the positions that the mask keeps. *)
Lemma find_masked bm m (P : Z → Prop) `{∀ p, Decision (P p)} :
  word64 bm → (∀ p, 0 ≤ p < 64 → bit_at m p = true ↔ P p) →
  (if Z.land bm m =? 0 then Ok (-1) else find_the_largest (Z.land bm m)) =
    Ok (last_or_none (filter P (positions bm))).
Proof.
  intros Hw HP. assert (word64 (Z.land bm m)) as Hwm by by apply word_land_l.
  assert (positions (Z.land bm m) = filter P (positions bm)) as Hpos.
  { rewrite positions_land. apply filter_iff. intros p [_ Hp]%elem_of_positions. auto. }
  destruct (Z.eqb_spec (Z.land bm m) 0) as [Hz|Hnz].
  - rewrite Hz in Hpos. by rewrite <- Hpos.
  - rewrite <- Hpos. destruct (positions (Z.land bm m)) as [|q l] eqn:Hql.
    { by apply positions_nil in Hql. }
    destruct (last_cons_Some q l) as [p Hp]. unfold last_or_none. rewrite Hp.
    apply find_the_largest_last; [done|]. by rewrite Hql.
Qed.

Lemma count_masked bm m (P : Z → Prop) `{∀ p, Decision (P p)} :
  (∀ p, 0 ≤ p < 64 → bit_at m p = true ↔ P p) →
  builtin_popcountll (Z.land bm m) = Z.of_nat (length (filter P (positions bm))).
Proof.
  intros HP. rewrite popcount_positions, positions_land. do 2 f_equal.
  apply filter_iff. intros p [_ Hp]%elem_of_positions. auto.
Qed.

Lemma fill_until_mask pos : 0 ≤ pos < 64 → ∀ p, 0 ≤ p < 64 →
  bit_at (fill_the_left_side_until_the_given_position pos) p = true ↔ p ≤ pos.
Proof. intros ? p ?. rewrite bit_at_fill_until by done. apply bool_decide_eq_true. Qed.

Lemma fill_before_mask pos : 0 ≤ pos < 64 → ∀ p, 0 ≤ p < 64 →
  bit_at (fill_the_left_side_until_before_the_given_position pos) p = true ↔ p < pos.
Proof. intros ? p ?. rewrite bit_at_fill_before by done. apply bool_decide_eq_true. Qed.

Lemma find_le bm pos : word64 bm → bm ≠ 0 → 0 ≤ pos < 64 →
  find_the_largest_among_or_less_than bm pos =
    Ok (last_or_none (filter (λ p, p ≤ pos) (positions bm))).
Proof.
  intros Hw Hnz Hpos. unfold find_the_largest_among_or_less_than.
  rewrite !assert_Ok by lia. simpl. apply find_masked; [done|]. by apply fill_until_mask.
Qed.

Lemma find_lt bm pos : word64 bm → bm ≠ 0 → 0 ≤ pos < 64 →
  find_the_largest_among_less_than bm pos =
    Ok (last_or_none (filter (λ p, p < pos) (positions bm))).
Proof.
  intros Hw Hnz Hpos. unfold find_the_largest_among_less_than.
  rewrite !assert_Ok by lia. simpl. apply find_masked; [done|]. by apply fill_before_mask.
Qed.

(** Clearing the last position leaves the others. *)
Lemma positions_clear bm q l : word64 bm → positions bm = l ++ [q] →
  positions (Z.land (Z.lnot (set_bit_at_the_given_location q)) bm) = l.
Proof.
  intros Hw Hl. rewrite Z.land_comm, positions_land.
  assert (0 ≤ q < 64) as Hq by (apply (elem_of_positions bm); rewrite Hl; set_solver).
  pose proof (positions_sorted bm) as Hs. rewrite Hl in Hs |- *.
  assert (∀ p, p ∈ l ++ [q] → bit_at (Z.lnot (set_bit_at_the_given_location q)) p = true ↔ p ≠ q)
    as Hbit.
  { intros p Hp. rewrite <- Hl in Hp. apply elem_of_positions in Hp as [_ Hp].
    unfold bit_at. rewrite Z.lnot_spec by lia.
    change (negb (bit_at (set_bit_at_the_given_location q) p) = true ↔ p ≠ q).
    rewrite bit_at_set by done. case_bool_decide; naive_solver. }
  rewrite (filter_iff _ (λ p, p ≠ q)) by done.
  rewrite filter_app, filter_cons_False, filter_nil, app_nil_r by naive_solver.
  apply filter_all. intros p Hp ->. pose proof (sorted_snoc _ _ _ Hs Hp). lia.
Qed.

Lemma find_two bm pos l : word64 bm → bm ≠ 0 → 0 ≤ pos < 64 →
  filter (λ p, p ≤ pos) (positions bm) = l →
  find_the_two_largest_among_or_less_than bm pos =
    Ok (last_or_none (take (length l - 1) l), last_or_none l).
Proof.
  intros Hw Hnz Hpos Hl. unfold find_the_two_largest_among_or_less_than.
  rewrite !(assert_Ok (negb _)), !(assert_Ok (_ && _)) by lia. cbn -[find_the_largest].
  set (m := Z.land bm _).
  assert (word64 m) as Hm by by apply word_land_l.
  assert (positions m = l) as Hpm.
  { unfold m. rewrite positions_land, <- Hl. apply filter_iff.
    intros p [_ Hp]%elem_of_positions. by apply fill_until_mask. }
  destruct l as [|a l] using rev_ind; [|clear IHl].
  { apply positions_nil in Hpm as ->; done. }
  destruct (Z.eqb_spec m 0) as [Hz|_]; [rewrite Hz in Hpm; by destruct l|].
  rewrite (find_the_largest_last m a) by (rewrite ?Hpm, ?last_snoc; done). cbn -[find_the_largest].
  assert (0 ≤ a < 64) as Ha by (apply (elem_of_positions m); rewrite Hpm; set_solver).
  rewrite (assert_Ok (a <? 64)) by lia. cbn -[find_the_largest].
  rewrite popcount_positions, Hpm, length_app. simpl.
  replace (length l + 1 - 1)%nat with (length l) by lia.
  rewrite take_app_length. unfold last_or_none at 2. rewrite last_snoc. simpl.
  destruct l as [|b l] using rev_ind; [done|clear IHl].
  rewrite length_app. simpl. destruct (Z.eqb_spec (Z.of_nat (length l + 1 + 1)) 1); [lia|].
  rewrite (assert_Ok (0 <=? a)) by lia. cbn -[find_the_largest].
  pose proof (positions_clear m a (l ++ [b]) Hm Hpm) as Hc.
  rewrite (find_the_largest_last _ b);
    [|by apply word_land_r|by rewrite Hc, last_snoc]. cbn.
  pose proof (positions_sorted m) as Hs. rewrite Hpm in Hs.
  assert (b < a) by (eapply sorted_snoc; [done|set_solver]).
  rewrite assert_Ok by lia. unfold last_or_none. by rewrite last_snoc.
Qed.

(** ** The guarantee of the searches *)
Section bitmap_properties.

(** The double search of a bitmap returns the largest position at or
    before [pos] that is set and the largest set before that one, -1 for
    each that does not exist; no assertion of the code fails. *)
Theorem find_two_largest_correct (bm pos : Z) (Hw : word64 bm) (Hnz : bm ≠ 0) (Hpos : 0 ≤ pos < 64) :
  ∃ second first, find_the_two_largest_among_or_less_than bm pos = Ok (second, first) ∧
    (first = -1 ∨ (is_bit_set_at_the_position bm first = true ∧ 0 ≤ first ≤ pos)) ∧
    (second = -1 ∨ (is_bit_set_at_the_position bm second = true ∧ 0 ≤ second < first)) ∧
    ∀ p, 0 ≤ p ≤ pos → is_bit_set_at_the_position bm p = true → p = first ∨ p ≤ second.
Proof.
  set (L := filter (λ p, p ≤ pos) (positions bm)).
  assert (StronglySorted Z.lt L) as HLs by apply StronglySorted_filter, positions_sorted.
  assert (∀ p, p ∈ L ↔ 0 ≤ p ≤ pos ∧ is_bit_set_at_the_position bm p = true) as HL.
  { intros p. unfold L. rewrite list_elem_of_filter, elem_of_positions. split.
    - intros (? & ? & ?). rewrite is_bit_set_bit_at by done. split; [lia|done].
    - intros [? Hb]. rewrite is_bit_set_bit_at in Hb by (done || lia). split_and!; [lia|done|lia..]. }
  eexists _, _. split; [by apply (find_two bm pos L)|].
  clearbody L. destruct L as [|a L _] using rev_ind.
  { split_and!; [by left..|]. intros p ? ?. assert (p ∈ ([] : list Z)) by (by apply HL). set_solver. }
  rewrite length_app. simpl. replace (length L + 1 - 1)%nat with (length L) by lia.
  rewrite take_app_length. unfold last_or_none. rewrite last_snoc. simpl.
  destruct (proj1 (HL a)) as [Ha Hab]; [set_solver|]. split; [by right|].
  assert (∀ p, 0 ≤ p ≤ pos → is_bit_set_at_the_position bm p = true → p = a ∨ p ∈ L) as Hin.
  { intros p ? ?. assert (p ∈ L ++ [a]) by by apply HL. set_solver. }
  destruct (last L) as [b|] eqn:Hl; simpl.
  - apply last_Some in Hl as [L' ->]. split.
    + right. destruct (proj1 (HL b)) as [? ?]; [set_solver|]. split; [done|].
      pose proof (sorted_snoc _ _ b HLs ltac:(set_solver)). lia.
    + intros p Hp Hb. destruct (Hin p Hp Hb) as [|Hp']; [by left|right].
      apply elem_of_app in Hp' as [Hp'|Hp']; [|set_solver].
      assert (StronglySorted Z.lt (L' ++ [b])) as Hs.
      { clear -HLs. revert HLs. generalize (L' ++ [b]). induction l as [|x l IH]; cbn; [constructor|].
        intros [? Hall]%StronglySorted_inv. constructor; [auto|]. by apply Forall_app in Hall as [? _]. }
      pose proof (sorted_snoc _ _ _ Hs Hp'). lia.
  - apply last_None in Hl as ->. split; [by left|]. intros p Hp Hb. destruct (Hin p Hp Hb); set_solver.
Qed.

Lemma find_two_largest_correct_witness :
  ∃ second first, find_the_two_largest_among_or_less_than (2 ^ 61 + 2 ^ 3) 10 = Ok (second, first) ∧
    (first = -1 ∨ (is_bit_set_at_the_position (2 ^ 61 + 2 ^ 3) first = true ∧ 0 ≤ first ≤ 10)) ∧
    (second = -1 ∨ (is_bit_set_at_the_position (2 ^ 61 + 2 ^ 3) second = true ∧ 0 ≤ second < first)) ∧
    ∀ p, 0 ≤ p ≤ 10 → is_bit_set_at_the_position (2 ^ 61 + 2 ^ 3) p = true → p = first ∨ p ≤ second.
Proof. apply (find_two_largest_correct (2 ^ 61 + 2 ^ 3) 10); [split; lia|lia|lia]. Defined.
End bitmap_properties.
