(* ===== verification/Versions.v ===== *)
(** * Versions and the memory they live in

    The class [Version] of the deterministic protocols (Caracal, Serval,
    Serval-RC; the three files declare the same class), the heap that the
    C++ [new] and [delete] act on, and the lemmas on it the protocols share. *)
From S2P Require Import Prelude.

Abbreviation loc := positive.
(** A pointer: [None] is [nullptr]. *)
Abbreviation Ptr := (option loc).

(** [class Version]. *)
Inductive VersionStatus := PENDING | STABLE.
#[export] Instance VersionStatus_eq_dec : EqDecision VersionStatus.
Proof. solve_decision. Defined.

Record Version := mkVersion { rec : Ptr; status : VersionStatus; deleted : bool }.
#[export] Instance Version_eq_dec : EqDecision Version.
Proof. solve_decision. Defined.

(** The heap: the live versions and the live record blocks (their payload
    is opaque to the protocols). *)
Record mem := mkMem { versions : gmap loc Version; records : gset loc }.

(** [delete rec]: deleting [nullptr] does nothing, deleting a block that
    is not live is undefined. *)
Definition delete_record (m : mem) (r : Ptr) : outcome mem :=
  match r with
  | None => Ok m
  | Some l =>
      if decide (l ∈ records m)
      then Ok (mkMem (versions m) (records m ∖ {[l]})) else Stuck
  end.

Definition delete_version (m : mem) (v : Ptr) : outcome mem :=
  match v with
  | None => Ok m
  | Some l =>
      match versions m !! l with
      | Some _ => Ok (mkMem (delete l (versions m)) (records m))
      | None => Stuck
      end
  end.

(** [version->...]: reading a version through a pointer. *)
Definition load_version (m : mem) (v : Ptr) : outcome Version :=
  l ← deref v; deref (versions m !! l).

(** [new Version], then [rec = nullptr; deleted = false; status = PENDING]. *)
Definition create_pending_version (m : mem) : Ptr * mem :=
  let l := fresh (dom (versions m)) in
  (Some l, mkMem (<[l := mkVersion None PENDING false]> (versions m)) (records m)).

(** The body of the garbage collection loops: the version is non-null,
    holds a record and is STABLE; its record and the version are deleted. *)
Definition gc_version (m : mem) (v : Ptr) : outcome mem :=
  _ ← assert_ (bool_decide (is_Some v));
  ver ← load_version m v;
  _ ← assert_ (bool_decide (is_Some (rec ver)));
  _ ← assert_ (bool_decide (status ver = STABLE));
  m ← delete_record m (rec ver);
  delete_version m v.

Fixpoint gc_versions (m : mem) (vs : list Ptr) : outcome mem :=
  match vs with
  | [] => Ok m
  | v :: vs => m ← gc_version m v; gc_versions m vs
  end.

(** [upsert] of the deterministic protocols: allocate a record, publish it
    in the pending version and mark the version STABLE. *)
Definition install_record (m : mem) (pending : Ptr) : outcome (Ptr * mem) :=
  l ← deref pending;
  v ← deref (versions m !! l);
  let r := fresh (records m) in
  Ok (Some r, mkMem (<[l := mkVersion (Some r) STABLE (deleted v)]> (versions m))
                    ({[r]} ∪ records m)).

(** ** Collectable versions *)

(** Versions that the collector may free: distinct, live, STABLE, each
    owning a distinct live record. *)
Definition collectable (m : mem) (vs : list Ptr) : Prop :=
  ∃ lr : list (loc * loc), vs = Some <$> lr.*1 ∧ NoDup lr.*1 ∧ NoDup lr.*2 ∧
    ∀ l r, (l, r) ∈ lr →
      (∃ d, versions m !! l = Some (mkVersion (Some r) STABLE d)) ∧ r ∈ records m.

Lemma collectable_nil m : collectable m [].
Proof. exists []. split_and!; [done|constructor|constructor|]. set_solver. Qed.

Lemma collectable_perm m vs vs' : vs ≡ₚ vs' → collectable m vs → collectable m vs'.
Proof.
  intros Hp (lr & -> & H1 & H2 & H). symmetry in Hp.
  apply Permutation_map_inv in Hp as (l3 & -> & Hp).
  symmetry in Hp. apply Permutation_map_inv in Hp as (lr' & -> & Hp).
  exists lr'. split_and!; [done|by rewrite <- Hp..|]. intros l r. rewrite <- Hp. apply H.
Qed.

Lemma collectable_cons_inv m v vs : collectable m (v :: vs) →
  ∃ l r m', v = Some l ∧ m' = mkMem (delete l (versions m)) (records m ∖ {[r]}) ∧
    gc_version m v = Ok m' ∧ collectable m' vs ∧ (v ∉ vs) ∧
    (∃ d, versions m !! l = Some (mkVersion (Some r) STABLE d)) ∧ r ∈ records m.
Proof.
  intros ([|[l r] lr] & Heq & H1 & H2 & H); [done|]. cbn in *. simplify_eq.
  apply NoDup_cons in H1 as [Hl H1], H2 as [Hr H2].
  destruct (H l r) as [[d Hd] Hrec]; [set_solver|].
  exists l, r. eexists. split_and!; [done..| | | |eauto|done].
  - unfold gc_version, load_version. simpl. rewrite Hd. simpl.
    rewrite decide_True by done. simpl. by rewrite Hd.
  - exists lr. split_and!; [done..|]. intros l' r' Hin. destruct (H l' r') as [[d' Hd'] ?]; [set_solver|].
    apply (list_elem_of_fmap_2 fst) in Hin as Hl'. apply (list_elem_of_fmap_2 snd) in Hin as Hr'.
    simpl in *. split; [exists d'; rewrite lookup_delete_ne; [done|congruence]|].
    apply elem_of_difference. split; [done|]. rewrite elem_of_singleton. congruence.
  - intros (l' & [= <-] & ?)%list_elem_of_fmap_1. done.
Qed.

(** Collecting collectable versions succeeds, frees exactly them and leaves
    the rest collectable. *)
Lemma gc_versions_collectable m vs vs' : collectable m (vs ++ vs') →
  ∃ m', gc_versions m vs = Ok m' ∧ collectable m' vs' ∧ records m' ⊆ records m ∧
    (∀ l, versions m' !! l = if decide (Some l ∈ vs) then None else versions m !! l).
Proof.
  revert m. induction vs as [|v vs IH]; intros m Hc; [by exists m|].
  apply collectable_cons_inv in Hc as (l & r & m1 & -> & -> & Hgc & Hc & Hni & _ & _).
  destruct (IH _ Hc) as (m' & Hgcs & Hc' & Hrec & Hv). simpl in *.
  exists m'. rewrite Hgc. split_and!; [done..|set_solver|].
  intros l'. rewrite Hv, lookup_delete. repeat case_decide; set_solver.
Qed.

Lemma collectable_app_r m vs vs' : collectable m (vs ++ vs') → collectable m vs'.
Proof.
  intros (lr & Heq & H1 & H2 & H).
  symmetry in Heq. apply fmap_app_inv in Heq as (a & b & -> & -> & Heq).
  apply fmap_app_inv in Heq as (la & lb & -> & -> & ->).
  rewrite !fmap_app in *. apply NoDup_app in H1 as (_ & _ & ?), H2 as (_ & _ & ?).
  exists lb. split_and!; [done..|]. intros l r ?. apply H. set_solver.
Qed.

Lemma collectable_app_l m vs vs' : collectable m (vs ++ vs') → collectable m vs.
Proof. intros Hc. eapply collectable_app_r, collectable_perm, Hc. apply Permutation_app_comm. Qed.

(** Changing the heap outside the versions does not matter to collecting them. *)
Lemma collectable_frame m m' vs : collectable m vs → records m ⊆ records m' →
  (∀ l, Some l ∈ vs → versions m' !! l = versions m !! l) → collectable m' vs.
Proof.
  intros (lr & -> & H1 & H2 & H) Hrec Hv. exists lr. split_and!; [done..|]. intros l r Hin.
  destruct (H l r Hin) as [[d ?] ?]. split; [|set_solver]. exists d. rewrite Hv; [done|].
  apply list_elem_of_fmap_2. by apply (list_elem_of_fmap_2 fst) in Hin.
Qed.

(** A new version takes none of them away. *)
Lemma collectable_pending m m' p ver vs : versions m !! p = None → versions m' = <[p := ver]> (versions m) → records m' = records m →
  collectable m vs → collectable m' vs.
Proof.
  intros Hp Hv Hr Hc. eapply collectable_frame; [exact Hc|by rewrite Hr|]. intros l Hl. rewrite Hv, lookup_insert_ne; [done|]. intros ->.
  destruct Hc as (lr & -> & _ & _ & Hlr). apply list_elem_of_fmap_1 in Hl as (l' & [= ->] & ([l2 r] & -> & Hin)%list_elem_of_fmap_1).
  destruct (Hlr l2 r Hin) as [[d Hd] _]. simpl in *. congruence.
Qed.

Lemma collectable_live m vs l : collectable m vs → Some l ∈ vs →
  ∃ r d, versions m !! l = Some (mkVersion (Some r) STABLE d).
Proof.
  intros (lr & -> & _ & _ & H) (? & [= <-] & ([l' r] & -> & Hin)%list_elem_of_fmap_1)%list_elem_of_fmap_1.
  destruct (H _ _ Hin) as [[d ?] _]. eauto.
Qed.

Lemma create_pending_fresh m v m' : create_pending_version m = (v, m') →
  ∃ l, v = Some l ∧ versions m !! l = None ∧
    versions m' = <[l := mkVersion None PENDING false]> (versions m) ∧ records m' = records m.
Proof.
  intros [= <- <-]. eexists. split_and!; [done| |done|done].
  apply not_elem_of_dom, is_fresh.
Qed.
