(* ===== verification/RowRegion.v ===== *)
(** * protocols/serval/include/row_region.hpp: Serval's version storage

    A row keeps the versions of the current epoch either in one ascending
    array ([GlobalVersionArray]) or, once contended, in a [RowRegion]: one
    append-only array per core, indexed by a bitmap of the transactions that
    wrote it, under a bitmap of the cores that wrote.  The file models the
    classes and proves that a region is a representation of the ascending
    array: identifying the visible version through the two levels of bitmaps
    finds what the search in the array finds. *)
From S2P Require Import Prelude Bitmap Versions.

Definition LOGICAL_CORE_SIZE : Z := 64.
Definition MAX_SLOTS_OF_PER_CORE_ARRAY : Z := 64.
Definition NUM_REGIONS : Z := 10000.

(** ** GlobalVersionArray *)
Module GlobalVersionArray.

(** [ids_slots_], in ascending order of the serial ids. *)
Record t := mk { ids_slots_ : list (Z * Ptr) }.

Definition is_exist (g : t) (tx : Z) : bool :=
  bool_decide (is_Some (std_find_if (λ p, p.1 =? tx) (ids_slots_ g))).

(** The triple is (found, id, version). *)
Definition search_visible_version (g : t) (serial_id : Z) : outcome (bool * Z * Ptr) :=
  match ids_slots_ g with
  | [] => Ok (false, 0, None)
  | first :: _ =>
      if serial_id <=? first.1 then Ok (false, 0, None) else
      let it := std_upper_bound (λ p, serial_id <=? p.1) (ids_slots_ g) in
      e ← deref (ids_slots_ g !! pred it);
      Ok (true, u64 e.1, e.2)
  end.

Definition append (g : t) (version : Ptr) (serial_id : Z) : outcome t :=
  _ ← assert_ (bool_decide (is_Some version));
  Ok (mk (insert_ascending serial_id version (ids_slots_ g))).

(** Every pointer of the array is null afterwards. *)
Definition minor_gc (m : mem) (g : t) : outcome (mem * t) :=
  m ← gc_versions m (ids_slots_ g).*2;
  Ok (m, mk ((λ p, (p.1, None)) <$> ids_slots_ g)).

Definition clear_memory (m : mem) (g : t) : outcome (mem * t) :=
  '(m, _) ← minor_gc m g;
  Ok (m, mk []).

Definition is_empty (g : t) : bool := bool_decide (ids_slots_ g = []).
Definition is_dirty (g : t) : bool := negb (is_empty g).

Definition pop_final_state (g : t) : (Z * Ptr) * t :=
  match last (ids_slots_ g) with
  | None => ((-1, None), g)
  | Some last => (last, mk (removelast (ids_slots_ g)))
  end.

Definition latest (g : t) : Z * Ptr := default (-1, None) (last (ids_slots_ g)).

End GlobalVersionArray.

(** ** PerCoreVersionArray *)
Module PerCoreVersionArray.

Record t := mk { transaction_bitmap_ : Z; slots_ : list Ptr }.

Definition empty : t := mk 0 [].

Definition minor_gc (m : mem) (a : t) : outcome (mem * t) :=
  m ← gc_versions m (slots_ a);
  Ok (m, mk (transaction_bitmap_ a) ((λ _, None) <$> slots_ a)).

Definition clear_memory (m : mem) (a : t) : outcome (mem * t) :=
  '(m, _) ← minor_gc m a;
  Ok (m, mk 0 []).

Definition length (a : t) : Z := builtin_popcountll (transaction_bitmap_ a).

Definition update_transaction_bitmap (a : t) (tx_id : Z) : outcome t :=
  _ ← assert_ (negb (is_bit_set_at_the_position (transaction_bitmap_ a) tx_id));
  let bits := transaction_bitmap_ a in
  bitmap ← set_bit_in (transaction_bitmap_ a) tx_id;
  _ ← assert_ (negb (bits =? bitmap));
  _ ← assert_ (builtin_popcountll bits + 1 =? builtin_popcountll bitmap);
  _ ← assert_ (is_bit_set_at_the_position bitmap tx_id);
  Ok (mk bitmap (slots_ a)).

Definition get (a : t) (tx : Z) : outcome Ptr :=
  _ ← assert_ (tx <? 64);
  _ ← assert_ (negb (set_bit_at_the_given_location tx =? 0));
  let mask := fill_the_left_side_until_the_given_position tx in
  let len := builtin_popcountll (Z.land (transaction_bitmap_ a) mask) in
  let index := len - 1 in
  _ ← assert_ (0 <=? index);
  v ← deref (slots_ a !! Z.to_nat index);
  _ ← assert_ (bool_decide (is_Some v));
  Ok v.

Definition latest (a : t) : outcome Ptr :=
  _ ← assert_ (0 <? length a);
  _ ← assert_ (length a =? Z.of_nat (List.length (slots_ a)));
  deref (slots_ a !! Z.to_nat (length a - 1)).

(** The slot is dropped; the bitmap keeps its bit. *)
Definition pop_latest (a : t) : outcome ((Z * Ptr) * t) :=
  _ ← assert_ (0 <? length a);
  _ ← assert_ (length a =? Z.of_nat (List.length (slots_ a)));
  last ← deref (last (slots_ a));
  tx ← find_the_largest (transaction_bitmap_ a);
  Ok ((tx, last), mk (transaction_bitmap_ a) (removelast (slots_ a))).

Definition append (a : t) (version : Ptr) (tx_id : Z) : outcome t :=
  _ ← assert_ (bool_decide (is_Some version));
  _ ← assert_ (tx_id <? 64);
  _ ← assert_ (length a <? MAX_SLOTS_OF_PER_CORE_ARRAY);
  let len := length a in
  let debug_len := Z.of_nat (List.length (slots_ a)) in
  _ ← assert_ (len =? debug_len);
  _ ← assert_ (debug_len <? 64);
  let slots := vector_insert (Z.to_nat len) version (slots_ a) in
  _ ← assert_ (Z.of_nat (List.length slots) <? 64);
  _ ← assert_ (debug_len + 1 =? Z.of_nat (List.length slots));
  _ ← assert_ (negb (is_bit_set_at_the_position (transaction_bitmap_ a) tx_id));
  a ← update_transaction_bitmap (mk (transaction_bitmap_ a) slots) tx_id;
  _ ← assert_ (is_bit_set_at_the_position (transaction_bitmap_ a) tx_id);
  _ ← assert_ (len + 1 =? length a);
  _ ← assert_ (length a =? Z.of_nat (List.length (slots_ a)));
  Ok a.

End PerCoreVersionArray.

(** ** RowRegion *)
Module RowRegion.

Record t := mk { core_bitmap_ : Z; arrays_ : list PerCoreVersionArray.t }.

(** The constructor: an empty array per core. *)
Definition new : t :=
  mk 0 (replicate (Z.to_nat LOGICAL_CORE_SIZE) PerCoreVersionArray.empty).

Definition initialize_core_bitmap (r : t) : t := mk 0 (arrays_ r).

Definition array (r : t) (core : Z) : outcome PerCoreVersionArray.t :=
  deref (arrays_ r !! Z.to_nat core).

(** The triple is (found, core, tx). *)
Definition identify_visible_version (r : t) (core tx : Z) : outcome (bool * Z * Z) :=
  '(second_core, first_core) ←
    find_the_two_largest_among_or_less_than (core_bitmap_ r) core;
  if first_core =? -1 then
    _ ← assert_ ((first_core =? -1) && (second_core =? -1));
    Ok (false, 0, 0)
  else if first_core =? core then
    a ← array r first_core;
    first_tx ←
      find_the_largest_among_less_than (PerCoreVersionArray.transaction_bitmap_ a) tx;
    if negb (first_tx =? -1) then Ok (true, first_core, first_tx)
    else if negb (second_core =? -1) then
      b ← array r second_core;
      t ← find_the_largest (PerCoreVersionArray.transaction_bitmap_ b);
      Ok (true, second_core, t)
    else Ok (false, 0, 0)
  else
    _ ← assert_ ((0 <=? first_core) && (first_core <? core));
    a ← array r first_core;
    t ← find_the_largest (PerCoreVersionArray.transaction_bitmap_ a);
    Ok (true, first_core, t).

Definition is_dirty (r : t) : bool := negb (core_bitmap_ r =? 0).

Definition pop_final_state (r : t) : outcome ((Z * Ptr) * t) :=
  core ← find_the_largest (core_bitmap_ r);
  a ← array r core;
  '(e, a) ← PerCoreVersionArray.pop_latest a;
  Ok (e, mk (core_bitmap_ r) (<[Z.to_nat core := a]> (arrays_ r))).

Definition clear_memory (m : mem) (r : t) (core : Z) : outcome (mem * t) :=
  a ← array r core;
  '(m, a) ← PerCoreVersionArray.clear_memory m a;
  Ok (m, mk (core_bitmap_ r) (<[Z.to_nat core := a]> (arrays_ r))).

Definition is_first_write (r : t) (core : Z) : bool :=
  negb (is_bit_set_at_the_position (core_bitmap_ r) core).

Definition append (m : mem) (r : t) (core : Z) (version : Ptr) (tx : Z) : outcome (mem * t) :=
  _ ← assert_ (bool_decide (is_Some version));
  _ ← assert_ (tx <? 64);
  '(m, r) ←
    (if negb (is_bit_set_at_the_position (core_bitmap_ r) core) then
       '(m, r) ← clear_memory m r core;
       let r := mk (Z.lor (core_bitmap_ r) (set_bit_at_the_given_location core)) (arrays_ r) in
       _ ← assert_ (is_bit_set_at_the_position (core_bitmap_ r) core);
       Ok (m, r)
     else Ok (m, r));
  _ ← assert_ (is_bit_set_at_the_position (core_bitmap_ r) core);
  a ← array r core;
  a ← PerCoreVersionArray.append a version tx;
  Ok (m, mk (core_bitmap_ r) (<[Z.to_nat core := a]> (arrays_ r))).

End RowRegion.

(** ** RowRegionController *)
Module RowRegionController.

(** The regions are preallocated; a region is named by its index. *)
Record t := mk { used_ : Z }.

Definition fetch_new_region (c : t) : outcome (Z * t) :=
  _ ← assert_ (used_ c <? NUM_REGIONS);
  if NUM_REGIONS <=? used_ c then Throw "NUM_REGIONS <= used_" else
  Ok (used_ c, mk (used_ c + 1)).

End RowRegionController.

(** ** The ascending array *)
Section global_array.
Import GlobalVersionArray.

Lemma global_search_spec g serial_id : ascending (ids_slots_ g) →
  search_visible_version g serial_id =
    Ok (match latest_below serial_id (ids_slots_ g) with
        | Some (id, v) => (true, u64 id, v)
        | None => (false, 0, None)
        end).
Proof.
  intros Ha. unfold search_visible_version. rewrite (upper_bound_pred _ _ Ha).
  destruct (ids_slots_ g) as [|[i v] l] eqn:Hl; [done|]. simpl.
  destruct (Z.leb_spec serial_id i); [done|]. simpl.
  destruct (std_upper_bound _ l) as [|n] eqn:Hub; simpl; [done|].
  destruct (l !! n) as [[j w]|] eqn:Hn; [done|]. exfalso.
  apply lookup_ge_None in Hn. revert Hub Hn. clear. revert n.
  induction l as [|p l IH]; intros n; simpl; [done|]. case_match; [done|].
  intros [= Hub] Hle. destruct n; simpl in *; [lia|]. eapply IH; [done|lia].
Qed.

Lemma global_append_spec g v serial_id : ascending (ids_slots_ g) →
  serial_id ∉ (ids_slots_ g).*1 →
  ∃ g', append g (Some v) serial_id = Ok g' ∧ ascending (ids_slots_ g') ∧
    ∀ e, e ∈ ids_slots_ g' ↔ e = (serial_id, Some v) ∨ e ∈ ids_slots_ g.
Proof.
  intros Ha Hfresh. eexists. split; [done|]. simpl. split.
  - by apply insert_ascending_sorted.
  - intros e. apply elem_of_insert_ascending.
Qed.

(** The final state of the epoch is the version with the largest id. *)
Lemma global_pop_spec g : ids_slots_ g ≠ [] →
  ∃ l e, ids_slots_ g = l ++ [e] ∧ pop_final_state g = (e, mk l).
Proof.
  intros Hne. destruct g as [l]; simpl in *.
  destruct l as [|e l] using rev_ind; [done|]. exists l, e. split; [done|].
  unfold pop_final_state. simpl. rewrite last_snoc. by rewrite removelast_last.
Qed.
End global_array.

(** ** The per-core array *)
Section per_core.
Import PerCoreVersionArray.

(** The bitmap and the slots agree: one slot per position set. *)
Definition pca_ok (a : t) : Prop :=
  word64 (transaction_bitmap_ a) ∧
  List.length (slots_ a) = List.length (positions (transaction_bitmap_ a)).

(** What the array stores: the version of each transaction that wrote. *)
Definition pca_entries (a : t) : list (Z * Ptr) :=
  zip (positions (transaction_bitmap_ a)) (slots_ a).

Lemma pca_length a : pca_ok a → length a = Z.of_nat (List.length (slots_ a)).
Proof. intros [_ Hl]. unfold length. by rewrite popcount_positions, Hl. Qed.

Lemma pca_fst a : pca_ok a → (pca_entries a).*1 = positions (transaction_bitmap_ a).
Proof. intros [_ Hl]. apply fst_zip. lia. Qed.

Lemma pca_ascending a : pca_ok a → ascending (pca_entries a).
Proof. intros Hok. unfold ascending. rewrite pca_fst by done. apply positions_sorted. Qed.

Lemma empty_ok : pca_ok empty.
Proof. split; [by vm_compute|done]. Qed.

Lemma pca_nil a : pca_ok a → transaction_bitmap_ a ≠ 0 → pca_entries a ≠ [].
Proof.
  intros Hok Hnz Hnil. apply Hnz, (positions_nil _ (proj1 Hok)).
  by rewrite <- pca_fst, Hnil.
Qed.

Lemma set_bit_positions bm tx : word64 bm → 0 ≤ tx < 64 →
  (∀ p, p ∈ positions bm → p < tx) →
  positions (Z.lor bm (set_bit_at_the_given_location tx)) = positions bm ++ [tx].
Proof.
  intros Hw Htx Hlt. apply sorted_ext; [apply positions_sorted| |].
  - pose proof (positions_sorted bm) as Hs. revert Hs Hlt. generalize (positions bm).
    induction 1 as [|x l Hs IH Hall]; intros Hlt; simpl; [by repeat constructor|].
    constructor; [apply IH; set_solver|]. apply Forall_app. split; [done|].
    constructor; [|done]. apply Hlt. set_solver.
  - intros p. rewrite positions_lor by done. set_solver.
Qed.

(** Appending the transactions of a core in ascending order extends the
    array at its end, and no assertion of the code fails. *)
Lemma pca_append_spec a v tx : pca_ok a → 0 ≤ tx < 64 →
  (∀ p, p ∈ positions (transaction_bitmap_ a) → p < tx) → (List.length (slots_ a) < 63)%nat →
  ∃ a', append a (Some v) tx = Ok a' ∧ pca_ok a' ∧ transaction_bitmap_ a' ≠ 0 ∧
    pca_entries a' = pca_entries a ++ [(tx, Some v)].
Proof.
  intros Hok Htx Hlt Hlen. pose proof Hok as [Hw Hl].
  pose proof (pca_length a Hok) as Hlength.
  assert (bit_at (transaction_bitmap_ a) tx = false) as Hunset.
  { apply not_true_iff_false. intros Hb. assert (tx < tx); [|lia]. apply Hlt.
    by apply elem_of_positions. }
  set (bm := Z.lor (transaction_bitmap_ a) (set_bit_at_the_given_location tx)).
  assert (word64 bm) as Hwb by (apply word_lor; [lia|done|apply set_bit_word; lia]).
  assert (positions bm = positions (transaction_bitmap_ a) ++ [tx]) as Hpb
    by by apply set_bit_positions.
  assert (bit_at bm tx = true) as Hset.
  { assert (tx ∈ positions bm) as [Hb _]%elem_of_positions by (rewrite Hpb; set_solver). done. }
  assert (builtin_popcountll bm = Z.of_nat (List.length (slots_ a)) + 1) as Hpc.
  { rewrite popcount_positions, Hpb, length_app, <- Hl. simpl. lia. }
  unfold append. rewrite Hlength. unfold MAX_SLOTS_OF_PER_CORE_ARRAY.
  rewrite !is_bit_set_bit_at, Hunset by done.
  assert (vector_insert (Z.to_nat (Z.of_nat (List.length (slots_ a)))) (Some v) (slots_ a) =
    slots_ a ++ [Some v]) as Hvi.
  { unfold vector_insert. rewrite Nat2Z.id, take_ge, drop_ge by lia. done. }
  rewrite Hvi, length_app. asserts.
   unfold update_transaction_bitmap, set_bit_in. simpl.
  rewrite is_bit_set_bit_at, Hunset by done. simpl. rewrite (assert_Ok (tx <? 64)) by lia.
  simpl. fold bm.
  assert (transaction_bitmap_ a ≠ bm) as Hne by (intros Heq; congruence).
  rewrite (assert_Ok (negb (_ =? bm))) by lia. simpl.
  unfold length in Hlength. rewrite (assert_Ok (_ + 1 =? _)) by lia. simpl.
  rewrite !is_bit_set_bit_at, Hset by done. simpl. rewrite is_bit_set_bit_at, Hset by done. simpl.
  unfold length. simpl. rewrite Hpc, length_app. asserts. eexists. split; [done|]. split; [split; [done|]|split].
  - simpl. rewrite Hpb, !length_app, Hl. done.
  - simpl. intros Hz. rewrite Hz in Hset. unfold bit_at in Hset. by rewrite Z.bits_0 in Hset.
  - unfold pca_entries. simpl. rewrite Hpb, zip_with_app by lia. done.
Qed.

Lemma pca_append_empty v tx : 0 ≤ tx < 64 →
  ∃ a', append empty (Some v) tx = Ok a' ∧ pca_ok a' ∧ transaction_bitmap_ a' ≠ 0 ∧
    pca_entries a' = [(tx, Some v)].
Proof.
  intros Htx. apply (pca_append_spec empty); [apply empty_ok|done| |simpl; lia].
  intros p Hp. by apply not_elem_of_nil in Hp.
Qed.

(** [get tx] returns the version that transaction [tx] appended. *)
Lemma pca_get_spec a tx v : pca_ok a → (tx, Some v) ∈ pca_entries a → get a tx = Ok (Some v).
Proof.
  intros Hok Hin. pose proof Hok as [Hw Hl].
  assert (tx ∈ positions (transaction_bitmap_ a)) as Htx.
  { rewrite <- pca_fst by done. change tx with (fst (tx, Some v)). by apply list_elem_of_fmap_2. }
  apply elem_of_positions in Htx as Hpos. destruct Hpos as [_ Hpos].
  apply list_elem_of_lookup in Hin as [i Hi]. unfold pca_entries in Hi.
  apply lookup_zip_with_Some in Hi as (p & w & [= <- <-] & Hp & Hv).
  unfold get. rewrite (assert_Ok (tx <? 64)) by lia. simpl.
  assert (set_bit_at_the_given_location tx ≠ 0) as Hne.
  { intros Hz. pose proof (bit_at_set tx tx Hpos Hpos) as Hb. rewrite Hz in Hb.
    unfold bit_at in Hb. rewrite Z.bits_0 in Hb. rewrite bool_decide_true in Hb; done. }
  rewrite (assert_Ok (negb _)) by lia. simpl.
  rewrite (count_masked _ _ (λ p, p ≤ tx)) by by apply fill_until_mask.
  assert (List.length (filter (λ p, p ≤ tx) (positions (transaction_bitmap_ a))) = S i) as ->.
  { pose proof (positions_sorted (transaction_bitmap_ a)) as Hs. revert Hs Hp. clear.
    revert i. generalize (positions (transaction_bitmap_ a)). intros l i Hs. revert i.
    induction Hs as [|x l Hs IH Hall]; intros i Hi; [done|]. rewrite Forall_forall in Hall.
    destruct i as [|i]; simpl in Hi.
    - simplify_eq. rewrite filter_cons_True by lia. rewrite filter_none; [done|].
      intros y Hy. specialize (Hall y Hy). lia.
    - assert (x < tx) by (apply Hall, list_elem_of_lookup; eauto).
      rewrite filter_cons_True by lia. simpl. f_equal. by apply IH. }
  rewrite assert_Ok by lia. replace (Z.to_nat (Z.of_nat (S i) - 1)) with i by lia.
  rewrite Hv. done.
Qed.

Lemma pca_last a e : pca_ok a → last (pca_entries a) = Some e →
  find_the_largest (transaction_bitmap_ a) = Ok e.1 ∧ last (slots_ a) = Some e.2.
Proof.
  intros Hok Hl. apply last_Some in Hl as [l Hl]. pose proof Hok as [Hw Hlen]. split.
  - apply find_the_largest_last; [done|]. rewrite <- pca_fst by done.
    rewrite Hl, fmap_app. simpl. apply last_snoc.
  - assert ((pca_entries a).*2 = slots_ a) as Hs by (apply snd_zip; lia).
    rewrite <- Hs, Hl, fmap_app. simpl. apply last_snoc.
Qed.
End per_core.

Lemma sorted_prefix (l1 l2 : list Z) : StronglySorted Z.lt (l1 ++ l2) → StronglySorted Z.lt l1.
Proof.
  induction l1 as [|x l1 IH]; cbn; [constructor|].
  intros [? Hall]%StronglySorted_inv. constructor; [auto|]. by apply Forall_app in Hall as [? _].
Qed.

(** ** The region as an ascending array *)
Section region.
Import RowRegion.

Record region_ok (r : t) : Prop := {
  ok_bitmap : word64 (core_bitmap_ r);
  ok_arrays : length (arrays_ r) = 64%nat;
  ok_core : ∀ core, core ∈ positions (core_bitmap_ r) →
    ∃ a, arrays_ r !! Z.to_nat core = Some a ∧ pca_ok a ∧
      PerCoreVersionArray.transaction_bitmap_ a ≠ 0
}.

Definition core_entries (r : t) (core : Z) : list (Z * Ptr) :=
  match arrays_ r !! Z.to_nat core with Some a => pca_entries a | None => [] end.

(** The serial id of transaction [tx] of [core] is [core * 64 + tx]. *)
Definition region_entries (r : t) : list (Z * Ptr) :=
  positions (core_bitmap_ r) ≫= λ core,
    (λ e, (core * 64 + e.1, e.2)) <$> core_entries r core.

Lemma elem_of_region_entries r id v : (id, v) ∈ region_entries r ↔
  ∃ core tx, core ∈ positions (core_bitmap_ r) ∧ (tx, v) ∈ core_entries r core ∧
    id = core * 64 + tx.
Proof.
  unfold region_entries. rewrite list_elem_of_bind. split.
  - intros (core & ([tx w] & [= -> ->] & He)%list_elem_of_fmap_1 & Hc). eauto.
  - intros (core & tx & Hc & He & ->). exists core. split; [|done].
    apply list_elem_of_fmap. by exists (tx, v).
Qed.

Lemma core_entries_range r core tx v : region_ok r → core ∈ positions (core_bitmap_ r) →
  (tx, v) ∈ core_entries r core → 0 ≤ tx < 64.
Proof.
  intros Hok Hc. destruct (ok_core r Hok core Hc) as (a & Ha & Hpok & _).
  unfold core_entries. rewrite Ha. intros Hin.
  assert (tx ∈ (pca_entries a).*1) as Htx by (apply list_elem_of_fmap; by exists (tx, v)).
  rewrite pca_fst in Htx by done. by apply elem_of_positions in Htx as [_ ?].
Qed.

Lemma core_entries_ascending r core : region_ok r → core ∈ positions (core_bitmap_ r) →
  ascending (core_entries r core) ∧ core_entries r core ≠ [].
Proof.
  intros Hok Hc. destruct (ok_core r Hok core Hc) as (a & Ha & Hpok & Hnz).
  unfold core_entries. rewrite Ha. split; [by apply pca_ascending|by apply pca_nil].
Qed.

Lemma ascending_shift (l : list (Z * Ptr)) k :
  ascending l → ascending ((λ e, (k + e.1, e.2)) <$> l).
Proof.
  induction l as [|e l IH]; [done|]. rewrite fmap_cons, !ascending_cons. intros [Hlt Ha].
  split; [|auto]. intros q (e' & -> & He')%list_elem_of_fmap_1. specialize (Hlt _ He').
  simpl. lia.
Qed.

Lemma region_entries_ascending r : region_ok r → ascending (region_entries r).
Proof.
  intros Hok. unfold region_entries.
  assert (∀ core, core ∈ positions (core_bitmap_ r) → core ∈ positions (core_bitmap_ r)) as Hsub by done.
  revert Hsub. pose proof (positions_sorted (core_bitmap_ r)) as Hs. revert Hs.
  generalize (positions (core_bitmap_ r)) at 1 2 4. intros L.
  induction 1 as [|c L Hs IH Hall]; intros Hsub; [apply ascending_nil|].
  rewrite bind_cons. apply ascending_app. split_and!.
  - apply ascending_shift, core_entries_ascending; set_solver.
  - apply IH. set_solver.
  - intros p q ([tx v] & -> & Hp)%list_elem_of_fmap_1 (c' & Hq & Hc')%list_elem_of_bind.
    apply list_elem_of_fmap_1 in Hq as ([tx' v'] & -> & Hq). simpl.
    apply core_entries_range in Hp; [|done|set_solver].
    apply core_entries_range in Hq; [|done|set_solver].
    rewrite Forall_forall in Hall. specialize (Hall _ Hc'). lia.
Qed.

(** The last entry of a core, through the bitmap of its transactions. *)
Lemma core_last r core : region_ok r → core ∈ positions (core_bitmap_ r) →
  ∃ a tx v, array r core = Ok a ∧
    find_the_largest (PerCoreVersionArray.transaction_bitmap_ a) = Ok tx ∧
    (tx, v) ∈ core_entries r core ∧ (∀ e, e ∈ core_entries r core → e.1 ≤ tx).
Proof.
  intros Hok Hc. destruct (ok_core r Hok core Hc) as (a & Ha & Hpok & Hnz).
  destruct (core_entries_ascending r core Hok Hc) as [Hasc Hne].
  unfold core_entries in *. rewrite Ha in *.
  destruct (last (pca_entries a)) as [[tx v]|] eqn:Hl; [|by apply last_None in Hl].
  exists a, tx, v. unfold array. rewrite Ha. destruct (pca_last a _ Hpok Hl) as [Hf _].
  split_and!; [done..|by apply last_Some_elem_of|].
  apply last_Some in Hl as [l Hl]. intros e He. rewrite Hl in He, Hasc.
  apply ascending_app in Hasc as (_ & _ & Hlt).
  apply elem_of_app in He as [He| ->%list_elem_of_singleton]; [|done].
  specialize (Hlt e (tx, v) He ltac:(set_solver)). simpl in Hlt. lia.
Qed.

Definition visible_ids (r : t) (serial_id : Z) : bool * Z * Z :=
  match latest_below serial_id (region_entries r) with
  | Some (id, _) => (true, id / 64, id mod 64)
  | None => (false, 0, 0)
  end.

Lemma visible_ids_Some r core tx c t v : region_ok r → 0 ≤ t < 64 →
  c ∈ positions (core_bitmap_ r) → (t, v) ∈ core_entries r c → c * 64 + t < core * 64 + tx →
  (∀ e, e ∈ region_entries r → e.1 < core * 64 + tx → e.1 ≤ c * 64 + t) →
  visible_ids r (core * 64 + tx) = (true, c, t).
Proof.
  intros Hok Ht Hc Hin Hlt Hmax. unfold visible_ids.
  assert (latest_below (core * 64 + tx) (region_entries r) = Some (c * 64 + t, v)) as ->.
  { apply latest_below_Some; [by apply region_entries_ascending|]. split_and!; [|done..].
    apply elem_of_region_entries. eauto. }
  repeat f_equal; [rewrite Z.div_add_l by lia|rewrite Z.add_comm, Z.mod_add by lia];
    rewrite ?Z.div_small, ?Z.mod_small by lia; lia.
Qed.

Lemma visible_ids_None r core tx : region_ok r →
  (∀ c t v, c ∈ positions (core_bitmap_ r) → (t, v) ∈ core_entries r c →
     core * 64 + tx ≤ c * 64 + t) →
  visible_ids r (core * 64 + tx) = (false, 0, 0).
Proof.
  intros Hok Hno. unfold visible_ids.
  destruct (latest_below _ _) as [[id v]|] eqn:Hlb; [|done]. exfalso.
  apply latest_below_Some in Hlb as (Hin & Hlt & _); [|by apply region_entries_ascending].
  apply elem_of_region_entries in Hin as (c & t & Hc & Ht & ->).
  specialize (Hno c t v Hc Ht). lia.
Qed.

(** The last write of core [c] is visible when [c] is the closest core
    with a write before the reader. *)
Lemma visible_of_core r core tx c : region_ok r → c ∈ positions (core_bitmap_ r) →
  0 ≤ tx < 64 → c < core →
  (∀ c' t v, c' ∈ positions (core_bitmap_ r) → (t, v) ∈ core_entries r c' →
     c' * 64 + t < core * 64 + tx → c' ≤ c) →
  ∃ a t, array r c = Ok a ∧
    find_the_largest (PerCoreVersionArray.transaction_bitmap_ a) = Ok t ∧
    visible_ids r (core * 64 + tx) = (true, c, t).
Proof.
  intros Hok Hc Htx Hlt Hcl. destruct (core_last r c Hok Hc) as (a & t & v & Ha & Hf & Hin & Hmax).
  exists a, t. split_and!; [done..|].
  pose proof (core_entries_range _ _ _ _ Hok Hc Hin).
  eapply visible_ids_Some; [done|lia|done..|lia|].
  intros [id w] (c' & t' & Hc' & Ht' & ->)%elem_of_region_entries Hlt'. simpl in *.
  pose proof (core_entries_range _ _ _ _ Hok Hc' Ht').
  specialize (Hcl c' t' w Hc' Ht' Hlt').
  destruct (decide (c' = c)) as [->|]; [specialize (Hmax _ Ht'); simpl in *; lia|lia].
Qed.

(** The search in the reader's own core. *)
Lemma visible_in_own_core r core tx : region_ok r → core ∈ positions (core_bitmap_ r) →
  0 ≤ tx < 64 →
  ∃ a first_tx, array r core = Ok a ∧
    find_the_largest_among_less_than (PerCoreVersionArray.transaction_bitmap_ a) tx = Ok first_tx ∧
    ((first_tx = -1 ∧ ∀ e, e ∈ core_entries r core → tx ≤ e.1) ∨
     (first_tx ≠ -1 ∧ visible_ids r (core * 64 + tx) = (true, core, first_tx))).
Proof.
  intros Hok Hc Htx. destruct (ok_core r Hok core Hc) as (a & Ha & Hpok & Hanz).
  exists a. unfold array. rewrite Ha, find_lt by (apply Hpok || done). eexists. split_and!; [done..|].
  assert (core_entries r core = pca_entries a) as Hce by (unfold core_entries; by rewrite Ha).
  set (T := filter (λ p, p < tx) (positions (PerCoreVersionArray.transaction_bitmap_ a))).
  assert (∀ t, t ∈ T ↔ (∃ v, (t, v) ∈ core_entries r core) ∧ t < tx) as HT.
  { intros t. unfold T. rewrite list_elem_of_filter, <- pca_fst, Hce by done.
    rewrite list_elem_of_fmap. split.
    - intros (? & [t' v] & -> & ?). simpl. eauto.
    - intros [[v Hin] ?]. split; [done|]. by exists (t, v). }
  assert (StronglySorted Z.lt T) as HTs by apply StronglySorted_filter, positions_sorted.
  unfold last_or_none. destruct (last T) as [t|] eqn:HlT; simpl.
  - right. apply sorted_last in HlT as [HtT HmaxT]; [|done]. apply HT in HtT as [[v Hv] Httx].
    pose proof (core_entries_range _ _ _ _ Hok Hc Hv). split; [lia|].
    eapply visible_ids_Some; [done|lia|done..|lia|].
    intros [id w] (c' & t' & Hc' & Ht' & ->)%elem_of_region_entries Hlt. simpl in *.
    pose proof (core_entries_range _ _ _ _ Hok Hc' Ht').
    destruct (decide (c' = core)) as [->|]; [|lia].
    assert (t' ≤ t); [apply HmaxT, HT; split; [eauto|lia]|lia].
  - left. apply last_None in HlT. split; [done|]. intros [t v] He. simpl. apply Z.nlt_ge. intros Hlt.
    assert (t ∈ T) as Hin by (apply HT; eauto). rewrite HlT in Hin. by apply not_elem_of_nil in Hin.
Qed.

(** The two largest cores at or before the reader's. *)
Lemma two_cores r core (L := filter (λ p, p ≤ core) (positions (core_bitmap_ r)))
    (second := last_or_none (take (length L - 1) L)) (first := last_or_none L) :
  region_ok r →
  (first = -1 ∧ second = -1 ∧ ∀ c, c ∈ positions (core_bitmap_ r) → core < c) ∨
  (first ∈ positions (core_bitmap_ r) ∧ first ≤ core ∧
   (∀ c, c ∈ positions (core_bitmap_ r) → c ≤ core → c ≤ first) ∧
   ((second = -1 ∧ ∀ c, c ∈ positions (core_bitmap_ r) → c ≤ core → c = first) ∨
    (second ∈ positions (core_bitmap_ r) ∧ second < first ∧
     ∀ c, c ∈ positions (core_bitmap_ r) → c ≤ core → c = first ∨ c ≤ second))).
Proof.
  intros Hok. subst first second.
  assert (∀ c, c ∈ L ↔ c ∈ positions (core_bitmap_ r) ∧ c ≤ core) as HL.
  { intros c. unfold L. rewrite list_elem_of_filter. tauto. }
  assert (StronglySorted Z.lt L) as HLs by apply StronglySorted_filter, positions_sorted.
  clearbody L. destruct L as [|c L _] using rev_ind.
  { left. split_and!; [done..|]. intros c Hc. apply Z.nle_gt. intros Hle.
    assert (c ∈ ([] : list Z)) by (by apply HL). set_solver. }
  right. rewrite length_app. simpl. replace (length L + 1 - 1)%nat with (length L) by lia.
  rewrite take_app_length. unfold last_or_none. rewrite last_snoc. simpl.
  destruct (proj1 (HL c)) as [Hc Hle]; [set_solver|].
  assert (∀ c', c' ∈ L → c' < c) as Hlt by (intros; by eapply sorted_snoc).
  assert (∀ c', c' ∈ positions (core_bitmap_ r) → c' ≤ core → c' = c ∨ c' ∈ L) as Hcs.
  { intros c' ? ?. assert (c' ∈ L ++ [c]) by (apply HL; done). set_solver. }
  split_and!; [done..| |].
  { intros c' ? ?. destruct (Hcs c') as [->|?%Hlt]; [done..|lia|lia]. }
  destruct L as [|c2 L _] using rev_ind; [left; split; [done|]|right]; rewrite ?last_snoc; simpl.
  { intros c' ? ?. destruct (Hcs c'); set_solver. }
  destruct (proj1 (HL c2)) as [Hc2 _]; [set_solver|].
  split_and!; [done|apply Hlt; set_solver|]. intros c' ? ?.
  destruct (Hcs c') as [|Hin]; [done..|by left|right].
  apply elem_of_app in Hin as [Hin|Hin]; [|set_solver].
  apply sorted_prefix in HLs. pose proof (sorted_snoc _ _ _ HLs Hin). lia.
Qed.

(** The two-level search computes the largest serial id below the
    reader's, over everything the region stores. *)
Lemma identify_visible_spec r core tx : region_ok r → core_bitmap_ r ≠ 0 →
  0 ≤ core < 64 → 0 ≤ tx < 64 →
  identify_visible_version r core tx = Ok (visible_ids r (core * 64 + tx)).
Proof.
  intros Hok Hnz Hcore Htx. unfold identify_visible_version.
  rewrite (find_two _ _ _ (ok_bitmap r Hok) Hnz Hcore eq_refl). simpl.
  assert (∀ c e, c ∈ positions (core_bitmap_ r) → e ∈ core_entries r c → 0 ≤ e.1 < 64) as Hrange.
  { intros c [t v] Hc He. by eapply core_entries_range. }
  assert (∀ c, c ∈ positions (core_bitmap_ r) → 0 ≤ c) as Hpos.
  { intros c [_ ?]%elem_of_positions. lia. }
  destruct (two_cores r core Hok) as [(-> & -> & Hall)|(Hc & Hle & Hcl & H2)].
  { simpl. f_equal. symmetry. apply visible_ids_None; [done|]. intros c t v Hc Ht.
    specialize (Hall c Hc). pose proof (Hrange c (t, v) Hc Ht). simpl in *. lia. }
  revert Hc Hle Hcl H2. generalize (last_or_none (filter (λ p, p ≤ core) (positions (core_bitmap_ r)))).
  generalize (last_or_none (take (length (filter (λ p, p ≤ core) (positions (core_bitmap_ r))) - 1)
    (filter (λ p, p ≤ core) (positions (core_bitmap_ r))))). intros second first Hc Hle Hcl H2.
  pose proof (Hpos first Hc). destruct (Z.eqb_spec first (-1)); [lia|].
  destruct (Z.eqb_spec first core) as [->|Hne].
  - destruct (visible_in_own_core r core tx Hok Hc Htx)
      as (a & first_tx & -> & Hf & [[-> Hnone]|[Hft Hvis]]); simpl; rewrite Hf; simpl.
    + destruct H2 as [[-> Honly]|(Hs & Hlt & Hcs)]; simpl.
      * f_equal. symmetry. apply visible_ids_None; [done|]. intros c t v Hc' Ht.
        pose proof (Hrange c (t, v) Hc' Ht). simpl in *.
        destruct (decide (c ≤ core)) as [Hle'|]; [|lia].
        specialize (Honly c Hc' Hle') as ->. specialize (Hnone _ Ht). simpl in *. lia.
      * pose proof (Hpos second Hs). destruct (Z.eqb_spec second (-1)); [lia|]. simpl.
        destruct (visible_of_core r core tx second Hok Hs Htx Hlt) as (b & t & -> & Hb & ->).
        { intros c' t v Hc' Ht Hlt'. pose proof (Hrange c' (t, v) Hc' Ht). simpl in *.
          destruct (Hcs c' Hc' ltac:(lia)) as [->|]; [|done]. specialize (Hnone _ Ht). simpl in *. lia. }
        simpl. by rewrite Hb.
    + destruct (Z.eqb_spec first_tx (-1)); [done|]. simpl. by rewrite Hvis.
  - rewrite assert_Ok by lia. simpl.
    destruct (visible_of_core r core tx first Hok Hc Htx ltac:(lia)) as (a & t & -> & Ha & ->).
    { intros c' t v Hc' Ht Hlt'. pose proof (Hrange c' (t, v) Hc' Ht). simpl in *.
      apply Hcl; [done|lia]. }
    simpl. by rewrite Ha.
Qed.

(** Storing an array that extends the entries of a core by [(tx, v)]. *)
Lemma region_store r cb core a tx v :
  region_ok r → word64 cb → 0 ≤ core < 64 → 0 ≤ tx < 64 →
  (∀ c, c ∈ positions cb ↔ c = core ∨ c ∈ positions (core_bitmap_ r)) →
  pca_ok a → PerCoreVersionArray.transaction_bitmap_ a ≠ 0 →
  (∀ e, e ∈ pca_entries a ↔
     e = (tx, v) ∨ (core ∈ positions (core_bitmap_ r) ∧ e ∈ core_entries r core)) →
  core * 64 + tx ∉ (region_entries r).*1 →
  let r' := mk cb (<[Z.to_nat core := a]> (arrays_ r)) in
  region_ok r' ∧ region_entries r' = insert_ascending (core * 64 + tx) v (region_entries r).
Proof.
  intros Hok Hw Hcore Htx Hcb Ha Hnz He Hfresh r'.
  assert (arrays_ r' !! Z.to_nat core = Some a) as Hself.
  { apply list_lookup_insert_eq. rewrite (ok_arrays r Hok). lia. }
  assert (∀ c, 0 ≤ c → c ≠ core → arrays_ r' !! Z.to_nat c = arrays_ r !! Z.to_nat c) as Hother.
  { intros c ? ?. apply list_lookup_insert_ne. lia. }
  assert (region_ok r') as Hok'.
  { split; [done|simpl; by rewrite length_insert, ok_arrays|]. intros c Hc.
    destruct (decide (c = core)) as [->|Hne]; [by exists a|].
    apply Hcb in Hc as [|Hc]; [done|]. pose proof (proj2 (proj1 (elem_of_positions _ _) Hc)).
    rewrite Hother by (done || lia). by apply ok_core. }
  split; [done|].
  apply ascending_ext; [by apply region_entries_ascending| |].
  { by apply insert_ascending_sorted; [apply region_entries_ascending|]. }
  intros [id w]. rewrite elem_of_insert_ascending, !elem_of_region_entries. simpl. split.
  - intros (c & t & Hc & Ht & ->). unfold core_entries in Ht.
    destruct (decide (c = core)) as [->|Hne].
    + rewrite Hself in Ht. apply He in Ht as [[= -> ->]|[? ?]]; [by left|]. right. eauto.
    + apply Hcb in Hc as [|Hc]; [done|]. pose proof (proj2 (proj1 (elem_of_positions _ _) Hc)).
      rewrite Hother in Ht by (done || lia). right. exists c, t. done.
  - intros [[= -> ->]|(c & t & Hc & Ht & ->)].
    + exists core, tx. split_and!; [apply Hcb; by left| |done].
      unfold core_entries. rewrite Hself. apply He. by left.
    + exists c, t. split_and!; [apply Hcb; by right| |done]. unfold core_entries.
      destruct (decide (c = core)) as [->|Hne].
      * rewrite Hself. apply He. by right.
      * pose proof (proj2 (proj1 (elem_of_positions _ _) Hc)).
        rewrite Hother by (done || lia). done.
Qed.

(** When core [core] may append transaction [tx]: it has appended only
    earlier transactions of this epoch, or none and its array of an
    earlier epoch can be freed (giving the heap [m']). *)
Definition appendable (m : mem) (r : t) (core tx : Z) (m' : mem) : Prop :=
  if bit_at (core_bitmap_ r) core
  then m' = m ∧ (∀ e, e ∈ core_entries r core → e.1 < tx) ∧
       (length (core_entries r core) < 63)%nat
  else ∃ a, arrays_ r !! Z.to_nat core = Some a ∧
       gc_versions m (PerCoreVersionArray.slots_ a) = Ok m'.

Lemma region_append_spec m r core tx v m' :
  region_ok r → 0 ≤ core < 64 → 0 ≤ tx < 64 → appendable m r core tx m' →
  ∃ r', append m r core (Some v) tx = Ok (m', r') ∧ region_ok r' ∧ core_bitmap_ r' ≠ 0 ∧
    region_entries r' = insert_ascending (core * 64 + tx) (Some v) (region_entries r) ∧
    (∀ c, c ∈ positions (core_bitmap_ r') ↔ c = core ∨ c ∈ positions (core_bitmap_ r)) ∧
    (∀ c, 0 ≤ c → c ≠ core → arrays_ r' !! Z.to_nat c = arrays_ r !! Z.to_nat c).
Proof.
  intros Hok Hcore Htx Happ. pose proof (ok_bitmap r Hok) as Hw. unfold append.
  rewrite (assert_Ok (tx <? 64)) by lia. simpl. rewrite is_bit_set_bit_at by done.
  set (cb := Z.lor (core_bitmap_ r) (set_bit_at_the_given_location core)).
  assert (word64 cb) as Hwcb by (apply word_lor; [lia|done|apply set_bit_word; lia]).
  assert (∀ c, c ∈ positions cb ↔ c = core ∨ c ∈ positions (core_bitmap_ r)) as Hcb
    by by apply positions_lor.
  assert (∀ bm, core ∈ positions bm → bit_at bm core = true ∧ bm ≠ 0) as Hbit.
  { intros bm [Hb _]%elem_of_positions. split; [done|]. intros ->. unfold bit_at in Hb.
    by rewrite Z.bits_0 in Hb. }
  unfold appendable in Happ. destruct (bit_at (core_bitmap_ r) core) eqn:Hb; simpl.
  - destruct Happ as (-> & Hlt & Hlen).
    assert (core ∈ positions (core_bitmap_ r)) as Hc by by apply elem_of_positions.
    destruct (ok_core r Hok core Hc) as (a & Ha & Hpok & Hanz).
    rewrite is_bit_set_bit_at, Hb by done. simpl. unfold array. rewrite Ha. simpl.
    assert (core_entries r core = pca_entries a) as Hce by (unfold core_entries; by rewrite Ha).
    rewrite Hce in Hlt, Hlen.
    destruct (pca_append_spec a v tx) as (a' & -> & Hpok' & Hnz' & He'); [done..| | |].
    { intros p. rewrite <- pca_fst by done. intros (e & -> & He)%list_elem_of_fmap_1. auto. }
    { unfold pca_entries in Hlen. rewrite length_zip_with in Hlen. destruct Hpok as [_ Hl]. lia. }
    simpl. eexists. split; [done|].
    destruct (region_store r (core_bitmap_ r) core a' tx (Some v)) as [Hok' Hent]; try done.
    { intros c. naive_solver. }
    { intros e. rewrite He', Hce. set_solver. }
    { intros ([id w] & Heq & Hin)%list_elem_of_fmap_1.
      apply elem_of_region_entries in Hin as (c & t & Hc' & Ht & ->). simpl in Heq.
      pose proof (core_entries_range _ _ _ _ Hok Hc' Ht).
      assert (c = core) as -> by lia. rewrite Hce in Ht. specialize (Hlt _ Ht). simpl in *. lia. }
    split_and!; [done|by apply Hbit|done|naive_solver|].
    intros c ? ?. apply list_lookup_insert_ne. lia.
  - destruct Happ as (a & Ha & Hgc). unfold clear_memory, array. rewrite Ha. simpl.
    unfold PerCoreVersionArray.clear_memory, PerCoreVersionArray.minor_gc. rewrite Hgc. simpl.
    fold cb. assert (core ∈ positions cb) as Hc by (apply Hcb; by left).
    destruct (Hbit cb Hc) as [Hbcb Hcbnz]. rewrite is_bit_set_bit_at, Hbcb by done. simpl.
    rewrite is_bit_set_bit_at, Hbcb by done. simpl.
    rewrite list_lookup_insert_eq by (rewrite (ok_arrays r Hok); lia). simpl.
    destruct (pca_append_empty v tx Htx) as (a' & Happ' & Hpok' & Hnz' & He').
    unfold PerCoreVersionArray.empty in Happ'. rewrite Happ'. simpl.
    rewrite list_insert_insert_eq. eexists. split; [done|].
    assert (core ∉ positions (core_bitmap_ r)) as Hnc.
    { intros [Hb' _]%elem_of_positions. congruence. }
    destruct (region_store r cb core a' tx (Some v)) as [Hok' Hent]; try done.
    { intros e. rewrite He', list_elem_of_singleton. tauto. }
    { intros ([id w] & Heq & Hin)%list_elem_of_fmap_1.
      apply elem_of_region_entries in Hin as (c & t & Hc' & Ht & ->). simpl in Heq.
      pose proof (core_entries_range _ _ _ _ Hok Hc' Ht).
      assert (c = core) as -> by lia. done. }
    split_and!; [done..|]. intros c ? ?. apply list_lookup_insert_ne. lia.
Qed.

(** The slots of the cores that have not written in this epoch: what is
    left of earlier epochs, freed at the core's first write. *)
Definition slots_of (r : t) (core : Z) : list Ptr :=
  match arrays_ r !! Z.to_nat core with
  | Some a => PerCoreVersionArray.slots_ a | None => [] end.
Definition stale_cores (r : t) : list Z :=
  filter (λ c, bit_at (core_bitmap_ r) c = false) (seqZ 0 64).
Definition stale_slots (r : t) : list Ptr := stale_cores r ≫= slots_of r.

Lemma elem_of_stale_cores r c :
  c ∈ stale_cores r ↔ 0 ≤ c < 64 ∧ c ∉ positions (core_bitmap_ r).
Proof.
  unfold stale_cores. rewrite list_elem_of_filter, elem_of_seqZ, elem_of_positions.
  rewrite <- not_true_iff_false. naive_solver lia.
Qed.

Lemma stale_cores_NoDup r : NoDup (stale_cores r).
Proof. apply NoDup_filter, NoDup_seqZ. Qed.

Lemma bind_ext_in {A B} (f g : A → list B) (l : list A) :
  (∀ x, x ∈ l → f x = g x) → l ≫= f = l ≫= g.
Proof.
  induction l as [|x l IH]; [done|]. intros Hfg. rewrite !bind_cons. f_equal; [|apply IH]; set_solver.
Qed.

(** A core's first write takes its slots off the stale ones. *)
Lemma stale_slots_first r r' core : 0 ≤ core < 64 → core ∉ positions (core_bitmap_ r) →
  (∀ c, c ∈ positions (core_bitmap_ r') ↔ c = core ∨ c ∈ positions (core_bitmap_ r)) →
  (∀ c, 0 ≤ c → c ≠ core → arrays_ r' !! Z.to_nat c = arrays_ r !! Z.to_nat c) →
  stale_slots r ≡ₚ slots_of r core ++ stale_slots r'.
Proof.
  intros Hcore Hnc Hcb Harr. unfold stale_slots.
  assert (stale_cores r ≡ₚ core :: stale_cores r') as ->.
  { apply NoDup_Permutation; [apply stale_cores_NoDup| |].
    - constructor; [|apply stale_cores_NoDup]. rewrite elem_of_stale_cores, Hcb. naive_solver.
    - intros c. rewrite elem_of_cons, !elem_of_stale_cores, Hcb. destruct (decide (c = core)); naive_solver. }
  rewrite bind_cons. f_equiv. apply reflexive_eq, bind_ext_in.
  intros c [Hc Hni]%elem_of_stale_cores. unfold slots_of. rewrite Harr; [done|lia|set_solver].
Qed.

Lemma stale_slots_again r r' core : core ∈ positions (core_bitmap_ r) →
  (∀ c, c ∈ positions (core_bitmap_ r') ↔ c = core ∨ c ∈ positions (core_bitmap_ r)) →
  (∀ c, 0 ≤ c → c ≠ core → arrays_ r' !! Z.to_nat c = arrays_ r !! Z.to_nat c) →
  stale_slots r' ≡ₚ stale_slots r.
Proof.
  intros Hc Hcb Harr. unfold stale_slots.
  assert (stale_cores r' ≡ₚ stale_cores r) as ->.
  { apply NoDup_Permutation; [apply stale_cores_NoDup..|].
    intros c. rewrite !elem_of_stale_cores, Hcb. naive_solver. }
  apply reflexive_eq, bind_ext_in. intros c [? Hni]%elem_of_stale_cores.
  unfold slots_of. rewrite Harr; [done|lia|]. congruence.
Qed.

(** The writes of one core, by their serial ids. *)
Definition of_core (core : Z) (l : list (Z * Ptr)) : list (Z * Ptr) :=
  filter (λ e, e.1 / 64 = core) l.

Lemma of_core_entries r core : region_ok r → core ∈ positions (core_bitmap_ r) →
  of_core core (region_entries r) = (λ e, (core * 64 + e.1, e.2)) <$> core_entries r core.
Proof.
  intros Hok Hc. apply ascending_ext.
  - by apply ascending_filter, region_entries_ascending.
  - by apply ascending_shift, core_entries_ascending.
  - intros [id v]. unfold of_core. rewrite list_elem_of_filter, elem_of_region_entries. simpl. split.
    + intros (Hdiv & c & t & Hc' & Ht & ->).
      pose proof (core_entries_range _ _ _ _ Hok Hc' Ht).
      rewrite Z.div_add_l, Z.div_small, Z.add_0_r in Hdiv by lia. subst c.
      apply list_elem_of_fmap. by exists (t, v).
    + intros ([t w] & [= -> ->] & Ht)%list_elem_of_fmap_1.
      pose proof (core_entries_range _ _ _ _ Hok Hc Ht). simpl.
      split; [rewrite Z.div_add_l, Z.div_small by lia; lia|]. eauto.
Qed.

(** [RowRegion::append] under the discipline of the initialization phase:
    a core appends its transactions in ascending order, fewer than 64. *)
Lemma region_append_row m r core tx v :
  region_ok r → 0 ≤ core < 64 → 0 ≤ tx < 64 → collectable m (stale_slots r) →
  (∀ e, e ∈ of_core core (region_entries r) → e.1 < core * 64 + tx) →
  (length (of_core core (region_entries r)) < 63)%nat →
  ∃ m' r', append m r core (Some v) tx = Ok (m', r') ∧ region_ok r' ∧ core_bitmap_ r' ≠ 0 ∧
    region_entries r' = insert_ascending (core * 64 + tx) (Some v) (region_entries r) ∧
    (∀ vs, collectable m (vs ++ stale_slots r) → collectable m' (vs ++ stale_slots r')) ∧ records m' ⊆ records m ∧
    (∀ p, p ∈ stale_slots r' → p ∈ stale_slots r) ∧
    (∀ l, Some l ∉ stale_slots r → versions m' !! l = versions m !! l) ∧
    (stale_slots r = [] → m' = m).
Proof.
  intros Hok Hcore Htx Hcol Hlt Hlen.
  destruct (decide (core ∈ positions (core_bitmap_ r))) as [Hc|Hnc].
  - rewrite (of_core_entries r core Hok Hc) in Hlt, Hlen. rewrite length_fmap in Hlen.
    destruct (region_append_spec m r core tx v m) as (r' & Happ & Hok' & Hnz & Hent & Hcb & Harr); [done..| |].
    { unfold appendable. apply elem_of_positions in Hc as [-> _]. split_and!; [done| |done].
      intros e He. specialize (Hlt (core * 64 + e.1, e.2)). simpl in Hlt.
      assert (core * 64 + e.1 < core * 64 + tx); [|lia]. apply Hlt. apply list_elem_of_fmap. by exists e. }
    pose proof (stale_slots_again r r' core Hc Hcb Harr) as Hst.
    exists m, r'. split_and!; try done.
    + intros vs Hvs. eapply collectable_perm; [|exact Hvs]. by rewrite Hst.
    + intros p. by rewrite Hst.
  - assert (bit_at (core_bitmap_ r) core = false) as Hb.
    { apply not_true_iff_false. intros Hb. apply Hnc. by apply elem_of_positions. }
    destruct (lookup_lt_is_Some_2 (arrays_ r) (Z.to_nat core)) as [a Ha];
      [rewrite (ok_arrays r Hok); lia|].
    set (cb := Z.lor (core_bitmap_ r) (set_bit_at_the_given_location core)).
    assert (stale_slots r ≡ₚ slots_of r core ++ stale_slots (mk cb (arrays_ r))) as Hst0.
    { apply stale_slots_first; [done|done| |done]. by apply positions_lor. }
    destruct (gc_versions_collectable m (slots_of r core) (stale_slots (mk cb (arrays_ r))))
      as (m' & Hgc & Hcol' & Hrec & Hv); [by eapply collectable_perm|].
    unfold slots_of in Hgc. rewrite Ha in Hgc.
    destruct (region_append_spec m r core tx v m') as (r' & Happ & Hok' & Hnz & Hent & Hcb & Harr); [done..| |].
    { unfold appendable. rewrite Hb. eauto. }
    pose proof (stale_slots_first r r' core Hcore Hnc Hcb Harr) as Hst.
    assert (stale_slots (mk cb (arrays_ r)) ≡ₚ stale_slots r') as Heq.
    { apply (Permutation_app_inv_l (slots_of r core)). by rewrite <- Hst0. }
    exists m', r'. split_and!; try done.
    + intros vs Hvs. destruct (gc_versions_collectable m (slots_of r core) (vs ++ stale_slots r')) as (m2 & Hgc2 & Hcol2 & _).
      { eapply collectable_perm; [|exact Hvs]. by rewrite Hst, Permutation_app_swap_app. }
      unfold slots_of in Hgc2. rewrite Ha, Hgc in Hgc2. by injection Hgc2 as <-.
    + intros p Hp. rewrite Hst. set_solver.
    + intros l Hl. rewrite Hv, decide_False; [done|]. rewrite Hst in Hl. set_solver.
    + intros Hnil. rewrite Hnil in Hst. apply Permutation_nil, app_eq_nil in Hst as [Hs _].
      unfold slots_of in Hs. rewrite Ha in Hs. rewrite Hs in Hgc. by injection Hgc as ->.
Qed.

Lemma entries_slots r : region_ok r →
  (region_entries r).*2 = positions (core_bitmap_ r) ≫= slots_of r.
Proof.
  intros Hok. unfold region_entries.
  assert (∀ L, (∀ c, c ∈ L → c ∈ positions (core_bitmap_ r)) →
    (L ≫= λ core, (λ e, (core * 64 + e.1, e.2)) <$> core_entries r core).*2 = L ≫= slots_of r)
    as Hgen; [|by apply Hgen].
  induction L as [|c L IH]; intros Hsub; [done|].
  rewrite !bind_cons, fmap_app, IH by set_solver. f_equal.
  destruct (ok_core r Hok c) as (a & Ha & [_ Hl] & _); [set_solver|].
  unfold core_entries, slots_of. rewrite Ha, <- list_fmap_compose.
  change (snd <$> pca_entries a = PerCoreVersionArray.slots_ a). apply snd_zip. lia.
Qed.

Lemma initialized_ok r : length (arrays_ r) = 64%nat →
  region_ok (initialize_core_bitmap r) ∧ region_entries (initialize_core_bitmap r) = [].
Proof.
  intros Hlen. split; [|reflexivity]. split; [by vm_compute|done|]. simpl.
  intros core Hc. by apply not_elem_of_nil in Hc.
Qed.

(** The final state of the epoch is the version with the largest id; the
    versions of the epoch are stale once the bitmap is reset. *)
Lemma region_pop_spec r E id v : region_ok r → region_entries r = E ++ [(id, v)] →
  ∃ r', pop_final_state r = Ok ((id mod 64, v), r') ∧ length (arrays_ r') = 64%nat ∧
    stale_slots (initialize_core_bitmap r') ≡ₚ E.*2 ++ stale_slots r.
Proof.
  intros Hok Hl. pose proof (ok_bitmap r Hok) as Hw.
  destruct (positions (core_bitmap_ r)) as [|c0 L0] eqn:HP.
  { unfold region_entries in Hl. rewrite HP in Hl. by destruct E. }
  destruct (last_cons_Some c0 L0) as [c Hc]. rewrite <- HP in Hc. clear HP c0 L0.
  unfold pop_final_state. rewrite (find_the_largest_last _ c) by done. simpl.
  apply last_Some in Hc as [L Hc].
  assert (c ∈ positions (core_bitmap_ r)) as Hcin by (rewrite Hc; set_solver).
  destruct (ok_core r Hok c Hcin) as (a & Ha & Hpok & Hanz). unfold array. rewrite Ha. simpl.
  pose proof (entries_slots r Hok) as Hsl. rewrite Hl, Hc, bind_app, fmap_app in Hsl. simpl in Hsl.
  rewrite app_nil_r in Hsl. unfold slots_of in Hsl at 2. rewrite Ha in Hsl.
  assert (∃ tx w, last (pca_entries a) = Some (tx, w)) as (tx & w & HlE).
  { destruct (last (pca_entries a)) as [[tx w]|] eqn:HlE; [eauto|].
    apply last_None in HlE. by apply pca_nil in HlE. }
  destruct (pca_last a (tx, w) Hpok HlE) as [Hf Hs]. simpl in *.
  assert (id = c * 64 + tx ∧ v = w) as [-> ->].
  { unfold region_entries in Hl. rewrite Hc, bind_app in Hl. simpl in Hl. rewrite app_nil_r in Hl.
    apply last_Some in HlE as [E' HE']. unfold core_entries in Hl at 2. rewrite Ha, HE', fmap_app in Hl.
    rewrite app_assoc in Hl. apply app_inj_tail in Hl as [_ [= <- <-]]. done. }
  assert (0 ≤ tx < 64) as Htx.
  { eapply (core_entries_range r c tx w); [done..|]. unfold core_entries. rewrite Ha.
    by apply last_Some_elem_of. }
  apply last_Some in Hs as [S HS]. rewrite HS in Hsl. rewrite app_assoc in Hsl.
  apply app_inj_tail in Hsl as [HE _].
  unfold PerCoreVersionArray.pop_latest. rewrite (pca_length a Hpok), HS, length_app. simpl.
  asserts. rewrite last_snoc. simpl. rewrite Hf. simpl. rewrite removelast_last.
  rewrite Z.add_comm, Z.mod_add, Z.mod_small by lia. eexists. split; [done|].
  split; [simpl; by rewrite length_insert, ok_arrays|].
  unfold stale_slots at 1. rewrite HE.
  match goal with |- context [slots_of ?x] => set (r' := x) end. assert (stale_cores r' ≡ₚ c :: L ++ stale_cores r) as ->.
  { rewrite app_comm_cons, (Permutation_cons_append L c), <- Hc.
    apply NoDup_Permutation; [apply stale_cores_NoDup| |].
    - apply NoDup_app. split_and!; [apply NoDup_filter, NoDup_seqZ| |apply stale_cores_NoDup].
      intros x Hx ?%elem_of_stale_cores. naive_solver.
    - intros x. rewrite elem_of_app, !elem_of_stale_cores.
      destruct (decide (x ∈ positions (core_bitmap_ r))) as [Hx|Hx].
      + pose proof (proj2 (proj1 (elem_of_positions _ _) Hx)). split; [by left|].
        intros _. split; [done|]. apply not_elem_of_nil.
      + split; [intros [? _]; by right|]. intros [|[? _]]; [done|]. split; [done|].
        apply not_elem_of_nil. }
  rewrite bind_cons, bind_app, app_assoc, Permutation_app_comm.
  assert (∀ x, 0 ≤ x → x ≠ c → slots_of r' x = slots_of r x) as Hsame.
  { intros x ? ?. unfold slots_of. simpl. rewrite list_lookup_insert_ne; [done|].
    apply elem_of_positions in Hcin as [_ ?]. lia. }
  pose proof (positions_sorted (core_bitmap_ r)) as Hsort. rewrite Hc in Hsort.
  rewrite Permutation_app_comm. f_equiv; [rewrite Permutation_app_comm; f_equiv|].
  - apply reflexive_eq, bind_ext_in. intros x Hx. apply Hsame.
    + assert (x ∈ positions (core_bitmap_ r)) as [_ ?]%elem_of_positions by (rewrite Hc; set_solver). lia.
    + intros ->. pose proof (sorted_snoc _ _ _ Hsort Hx). lia.
  - unfold slots_of. simpl. rewrite list_lookup_insert_eq; [done|].
    apply elem_of_positions in Hcin as [_ ?]. rewrite (ok_arrays r Hok). lia.
  - apply reflexive_eq, bind_ext_in. intros x [Hx Hni]%elem_of_stale_cores. apply Hsame; [lia|].
    intros ->. done.
Qed.
End region.

(** ** The guarantees of the region *)
Section region_properties.
Import RowRegion.

(** C31: the two-level bitmap search of a region and the binary search of
    the global array agree: on the same versions they find the same
    version, or both find none. *)
Theorem region_search_equiv (g : GlobalVersionArray.t) (r : t) (core tx : Z)
    (Hok : region_ok r) (Hnz : core_bitmap_ r ≠ 0)
    (Hsame : GlobalVersionArray.ids_slots_ g = region_entries r)
    (Hptr : ∀ e, e ∈ region_entries r → is_Some e.2)
    (Hcore : 0 ≤ core < 64) (Htx : 0 ≤ tx < 64) :
  (GlobalVersionArray.search_visible_version g (core * 64 + tx) = Ok (false, 0, None) ∧
   identify_visible_version r core tx = Ok (false, 0, 0)) ∨
  (∃ c t a p, GlobalVersionArray.search_visible_version g (core * 64 + tx) = Ok (true, c * 64 + t, p) ∧
   identify_visible_version r core tx = Ok (true, c, t) ∧
   array r c = Ok a ∧ PerCoreVersionArray.get a t = Ok p ∧ c * 64 + t < core * 64 + tx).
Proof.
  pose proof (region_entries_ascending r Hok) as Hasc.
  rewrite global_search_spec, identify_visible_spec, Hsame by (rewrite ?Hsame; done).
  unfold visible_ids. destruct (latest_below _ _) as [[id p]|] eqn:Hlb; [right|by left].
  apply latest_below_Some in Hlb as (Hin & Hlt & _); [|done].
  destruct (Hptr _ Hin) as [q Hq]. simpl in Hq. subst p.
  apply elem_of_region_entries in Hin as (c & t & Hc & Ht & ->).
  pose proof (core_entries_range _ _ _ _ Hok Hc Ht).
  pose proof (proj2 (proj1 (elem_of_positions _ _) Hc)).
  destruct (ok_core r Hok c Hc) as (a & Ha & Hpok & _).
  exists c, t, a, (Some q). unfold array. rewrite Ha.
  unfold core_entries in Ht. rewrite Ha in Ht. rewrite wrap_small by (split; lia).
  rewrite Z.div_add_l, Z.div_small, Z.add_0_r by lia.
  rewrite (Z.add_comm (c * 64) t), Z.mod_add, Z.mod_small by lia.
  split_and!; [by rewrite Z.add_comm|done|done|by apply pca_get_spec|lia].
Qed.

(** Core 0 wrote transaction 3, core 2 transactions 1 and 5. *)
Definition region1 : t :=
  match (append (mkMem ∅ ∅) new 2 (Some 1%positive) 1 ≫= λ '(m, r),
         append m r 2 (Some 2%positive) 5 ≫= λ '(m, r), append m r 0 (Some 3%positive) 3) with
  | Ok (_, r) => r | _ => new end.

Lemma region1_ok : region_ok region1.
Proof.
  split; [by vm_compute|by vm_compute|].
  assert (positions (core_bitmap_ region1) = [0; 2]) as -> by by vm_compute.
  intros core [->|[->|H%not_elem_of_nil]%elem_of_cons]%elem_of_cons; [..|done];
    (eexists; split; [by vm_compute|]; split; [split; [by vm_compute|by vm_compute]|done]).
Qed.

Lemma region_search_equiv_witness :
  let g := GlobalVersionArray.mk [(3, Some 3%positive); (129, Some 1%positive); (133, Some 2%positive)] in
  (GlobalVersionArray.search_visible_version g (2 * 64 + 5) = Ok (false, 0, None) ∧
   identify_visible_version region1 2 5 = Ok (false, 0, 0)) ∨
  (∃ c t a p, GlobalVersionArray.search_visible_version g (2 * 64 + 5) = Ok (true, c * 64 + t, p) ∧
   identify_visible_version region1 2 5 = Ok (true, c, t) ∧
   array region1 c = Ok a ∧ PerCoreVersionArray.get a t = Ok p ∧ c * 64 + t < 2 * 64 + 5).
Proof.
  apply (region_search_equiv _ region1 2 5); [apply region1_ok|by vm_compute|by vm_compute| |lia|lia].
  assert (region_entries region1 = [(3, Some 3%positive); (129, Some 1%positive); (133, Some 2%positive)])
    as -> by by vm_compute.
  intros e [->|[->|[->|H%not_elem_of_nil]%elem_of_cons]%elem_of_cons]%elem_of_cons; eauto; done.
Defined.

(** A core's array never takes its 64th version: the assertion after
    the insertion, [slots_.size() < 64], fails although the array has
    MAX_SLOTS_OF_PER_CORE_ARRAY = 64 slots. *)
Theorem core_array_full (a : PerCoreVersionArray.t) (v : loc) (tx : Z)
    (Hok : pca_ok a) (Hfull : length (PerCoreVersionArray.slots_ a) = 63%nat) (Htx : 0 ≤ tx < 64) :
  PerCoreVersionArray.length a < MAX_SLOTS_OF_PER_CORE_ARRAY ∧
  PerCoreVersionArray.append a (Some v) tx = Stuck.
Proof.
  pose proof (pca_length a Hok) as Hlen. rewrite Hfull in Hlen. split; [by rewrite Hlen|].
  unfold PerCoreVersionArray.append. rewrite Hlen, Hfull. simpl.
  rewrite (assert_Ok (tx <? 64)) by lia. simpl.
  unfold vector_insert. rewrite length_app. simpl. rewrite length_take, length_drop, Hfull. done.
Qed.

Lemma core_array_full_witness :
  let a := PerCoreVersionArray.mk (2 ^ 64 - 2) (replicate 63 (Some 1%positive)) in
  PerCoreVersionArray.length a < MAX_SLOTS_OF_PER_CORE_ARRAY ∧
  PerCoreVersionArray.append a (Some 2%positive) 63 = Stuck.
Proof.
  apply core_array_full; [|by vm_compute|lia].
  split; by vm_compute.
Defined.
End region_properties.
