(* ===== verification/Serval.v ===== *)
(** * protocols/serval/include/serval.hpp: the Serval protocol

    A row ([Value]) of the current epoch stores its versions in the global
    array until two writers collide; then the array moves into a row region.
    A transaction appends a PENDING version for each of its writes in the
    initialization phase, and in the execution phase reads the version with
    the largest serial id below its own, or the row's [master_].

    Granularity: an append is serialized with the other appends of its row
    ([try_lock], or the region of its own core); what another thread can
    change is whether [try_lock] succeeds, the argument [got_lock].  The spin
    on a PENDING version is a result of its own ([Spin]). *)
From S2P Require Import Prelude Bitmap Versions RowRegion.

Module Serval.

(** [struct Value]; [row_region_] names a region of the controller. *)
Record Value := mkValue {
  epoch_ : Z;
  master_ : Ptr;
  global_array_ : GlobalVersionArray.t;
  row_region_ : option Z
}.

(** What the transactions share: the heap, the rows, the controller and
    its regions. *)
Record state := mkState {
  heap : mem;
  values : gmap loc Value;
  rrc_ : RowRegionController.t;
  regions_ : list RowRegion.t
}.

(** [class Serval]: one object per worker. *)
Record tx := mkTx {
  core_ : Z;
  serial_id_ : Z;
  tx_epoch_ : Z;
  tables : gset Z;
  ws : gmap Z (list Z)
}.

Definition get_core_serial (serial_id : Z) : Z := serial_id / 64.
Definition get_tx_serial (serial_id : Z) : Z := serial_id mod 64.
Definition decompose_id_serial (serial_id : Z) : Z * Z :=
  (get_core_serial serial_id, get_tx_serial serial_id).

Definition value_at (s : state) (l : loc) : outcome Value := deref (values s !! l).
Definition region_at (s : state) (i : Z) : outcome RowRegion.t :=
  deref (regions_ s !! Z.to_nat i).

Definition set_heap (s : state) (m : mem) : state :=
  mkState m (values s) (rrc_ s) (regions_ s).
Definition set_value (s : state) (l : loc) (v : Value) : state :=
  mkState (heap s) (<[l := v]> (values s)) (rrc_ s) (regions_ s).
Definition set_region (s : state) (i : Z) (r : RowRegion.t) : state :=
  mkState (heap s) (values s) (rrc_ s) (<[Z.to_nat i := r]> (regions_ s)).
Definition set_rrc (s : state) (c : RowRegionController.t) : state :=
  mkState (heap s) (values s) c (regions_ s).

Definition has_dirty_region (s : state) (v : Value) : outcome bool :=
  match row_region_ v with
  | None => Ok false
  | Some i => r ← region_at s i; Ok (RowRegion.is_dirty r)
  end.

Definition assert_global_array_and_region (s : state) (v : Value) : outcome bool :=
  d ← has_dirty_region s v;
  if GlobalVersionArray.is_dirty (global_array_ v) then Ok (negb d) else Ok d.

Definition may_be_contented (row_region : option Z) : bool :=
  bool_decide (is_Some row_region).

(** [append_to_unconted_row] *)
Definition append_to_unconted_row (t : tx) (s : state) (l : loc) : outcome (Ptr * state) :=
  let '(new_version, m) := create_pending_version (heap s) in
  let s := set_heap s m in
  v ← value_at s l;
  g ← GlobalVersionArray.append (global_array_ v) new_version (serial_id_ t);
  _ ← assert_ (GlobalVersionArray.is_exist g (serial_id_ t));
  Ok (new_version, set_value s l (mkValue (epoch_ v) (master_ v) g (row_region_ v))).

Definition append_to_contented_row (t : tx) (s : state) (region : Z) : outcome (Ptr * state) :=
  let '(pending, m) := create_pending_version (heap s) in
  r ← region_at s region;
  '(m, r) ← RowRegion.append m r (core_ t) pending (get_tx_serial (serial_id_ t));
  Ok (pending, set_region (set_heap s m) region r).

Fixpoint move_entries (m : mem) (r : RowRegion.t) (l : list (Z * Ptr)) : outcome (mem * RowRegion.t) :=
  match l with
  | [] => Ok (m, r)
  | (serial_id, version) :: l =>
      let '(core, tx) := decompose_id_serial serial_id in
      '(m, r) ← RowRegion.append m r core version tx;
      move_entries m r l
  end.

Definition move_global_array_to_row_region (m : mem) (g : GlobalVersionArray.t)
    (r : RowRegion.t) : outcome (mem * GlobalVersionArray.t * RowRegion.t) :=
  '(m, r) ← move_entries m r (GlobalVersionArray.ids_slots_ g);
  Ok (m, GlobalVersionArray.mk [], r).

(** The loop ends when a region is installed, by another thread or by
    this one once it gets the lock. *)
Definition wait_region_installation (s : state) (l : loc) : outcome (Z * state) :=
  v ← value_at s l;
  match row_region_ v with
  | Some region => Ok (region, s)
  | None =>
      '(region, c) ← RowRegionController.fetch_new_region (rrc_ s);
      r ← region_at s region;
      '(m, g, r) ← move_global_array_to_row_region (heap s) (global_array_ v) r;
      let s := set_region (set_heap (set_rrc s c) m) region r in
      Ok (region, set_value s l (mkValue (epoch_ v) (master_ v) g (Some region)))
  end.

Definition gc_master_version (s : state) (l : loc) (latest : Ptr) : outcome state :=
  v ← value_at s l;
  _ ← assert_ (bool_decide (is_Some (master_ v)));
  ver ← load_version (heap s) (master_ v);
  _ ← assert_ (bool_decide (is_Some (rec ver)));
  m ← delete_record (heap s) (rec ver);
  m ← delete_version m (master_ v);
  Ok (set_value (set_heap s m) l (mkValue (epoch_ v) latest (global_array_ v) (row_region_ v))).

Definition initialize_the_row (t : tx) (s : state) (l : loc) : outcome state :=
  v ← value_at s l;
  ok ← assert_global_array_and_region s v;
  _ ← assert_ ok;
  d ← has_dirty_region s v;
  s ← (if GlobalVersionArray.is_dirty (global_array_ v) then
         let '((id, latest), g) := GlobalVersionArray.pop_final_state (global_array_ v) in
         _ ← assert_ (bool_decide (is_Some latest));
         '(m, g) ← GlobalVersionArray.clear_memory (heap s) g;
         gc_master_version
           (set_value (set_heap s m) l (mkValue (epoch_ v) (master_ v) g (row_region_ v))) l latest
       else if (d : bool) then
         i ← deref (row_region_ v);
         r ← region_at s i;
         '((id, latest), r) ← RowRegion.pop_final_state r;
         _ ← assert_ (bool_decide (is_Some latest));
         gc_master_version (set_region s i (RowRegion.initialize_core_bitmap r)) l latest
       else Stuck);
  v ← value_at s l;
  Ok (set_value s l (mkValue (tx_epoch_ t) (master_ v) (global_array_ v) (row_region_ v))).

(** The first transaction of the epoch to reach the row initializes it. *)
Definition epoch_guard (t : tx) (s : state) (l : loc) : outcome state :=
  v ← value_at s l;
  if epoch_ v <? tx_epoch_ t then initialize_the_row t s l else Ok s.

Definition do_append_pending_version (t : tx) (got_lock : bool) (s : state) (l : loc)
    (pending : Ptr) : outcome (Ptr * state) :=
  _ ← assert_ (negb (bool_decide (is_Some pending)));
  s ← epoch_guard t s l;
  v ← value_at s l;
  _ ← assert_ (epoch_ v =? tx_epoch_ t);
  if got_lock then
    let cur_region := row_region_ v in
    if may_be_contented cur_region then
      region ← deref cur_region; append_to_contented_row t s region
    else append_to_unconted_row t s l
  else
    '(region, s) ← wait_region_installation s l;
    append_to_contented_row t s region.

Section with_index.
(** The index, filled before the run: table and key to the row. *)
Variable find : Z → Z → option loc.

Definition append_pending_version (got_lock : bool) (t : tx) (s : state)
    (table_id key : Z) (pending : Ptr) : outcome (Ptr * tx * state) :=
  let tables' := {[table_id]} ∪ tables t in
  let w_table := default [] (ws t !! table_id) in
  let t := mkTx (core_ t) (serial_id_ t) (tx_epoch_ t) tables' (<[table_id := w_table]> (ws t)) in
  if bool_decide (key ∈ w_table) then Ok (pending, t, s) else
  match find table_id key with
  | None => Stuck
  | Some l =>
      '(pending, s) ← do_append_pending_version t got_lock s l pending;
      _ ← assert_ (bool_decide (is_Some pending));
      Ok (pending,
          mkTx (core_ t) (serial_id_ t) (tx_epoch_ t) tables'
               (<[table_id := w_table ++ [key]]> (ws t)), s)
  end.

Definition terminate_transaction (t : tx) : tx :=
  mkTx (core_ t) (serial_id_ t) (tx_epoch_ t) ∅
    (set_fold (λ table_id w, <[table_id := []]> w) (ws t) (tables t)).

(** The result of a read: the record, or the spin on a pending version. *)
Inductive read_result := Got (r : Ptr) | Spin.

Definition execute_read (s : state) (visible : Ptr) : outcome read_result :=
  _ ← assert_ (bool_decide (is_Some visible));
  v ← load_version (heap s) visible; Ok (Got (rec v)).

Definition wait_stable_and_execute_read (s : state) (visible : Ptr) : outcome read_result :=
  _ ← assert_ (bool_decide (is_Some visible));
  v ← load_version (heap s) visible;
  if bool_decide (status v = PENDING) then Ok Spin else execute_read s visible.

Definition read (t : tx) (s : state) (table_id key : Z) : outcome read_result :=
  match find table_id key with
  | None => Stuck
  | Some l =>
      v ← value_at s l;
      if negb (epoch_ v =? tx_epoch_ t) then execute_read s (master_ v) else
      ok ← assert_global_array_and_region s v;
      _ ← assert_ ok;
      d ← has_dirty_region s v;
      if GlobalVersionArray.is_dirty (global_array_ v) then
        '(is_found, txid, visible) ←
          GlobalVersionArray.search_visible_version (global_array_ v) (serial_id_ t);
        if is_found : bool then
          _ ← assert_ (txid <? serial_id_ t);
          wait_stable_and_execute_read s visible
        else execute_read s (master_ v)
      else if (d : bool) then
        i ← deref (row_region_ v);
        r ← region_at s i;
        '(is_found, core, tx) ←
          RowRegion.identify_visible_version r (core_ t) (get_tx_serial (serial_id_ t));
        if is_found : bool then
          _ ← assert_ (core * 64 + tx <? serial_id_ t);
          a ← RowRegion.array r core;
          visible ← PerCoreVersionArray.get a tx;
          wait_stable_and_execute_read s visible
        else execute_read s (master_ v)
      else Stuck
  end.
End with_index.

(** [write] and [upsert]: publish a record in the pending version. *)
Definition upsert (s : state) (pending : Ptr) : outcome (Ptr * state) :=
  '(r, m) ← install_record (heap s) pending; Ok (r, set_heap s m).

Definition write (s : state) (pending : Ptr) : outcome (Ptr * state) := upsert s pending.

End Serval.

(** ** The abstract row *)

(** Whatever its representation, a row of the current epoch is the
    ascending array of its versions. *)
Section serval_row.
Import Serval.

Definition row_entries (s : state) (v : Value) : list (Z * Ptr) :=
  match row_region_ v with
  | None => GlobalVersionArray.ids_slots_ (global_array_ v)
  | Some i =>
      match regions_ s !! Z.to_nat i with Some r => region_entries r | None => [] end
  end.

(** The versions of earlier epochs that the row still has to free. *)
Definition row_stale (s : state) (v : Value) : list Ptr :=
  match row_region_ v with
  | None => []
  | Some i =>
      match regions_ s !! Z.to_nat i with Some r => stale_slots r | None => [] end
  end.

Record row_ok (s : state) (v : Value) : Prop := {
  row_ids : ∀ e, e ∈ row_entries s v → 0 ≤ e.1 < 4096;
  row_asc : ascending (row_entries s v);
  row_cores : ∀ c, (length (of_core c (row_entries s v)) ≤ 63)%nat;
  row_repr : ∀ i, row_region_ v = Some i →
    GlobalVersionArray.ids_slots_ (global_array_ v) = [] ∧
    0 ≤ i < RowRegionController.used_ (rrc_ s) ∧
    ∃ r, regions_ s !! Z.to_nat i = Some r ∧ region_ok r;
  row_collectable : collectable (heap s) (row_stale s v);
  row_live : ∀ e, e ∈ row_entries s v →
    ∃ p, e.2 = Some p ∧ is_Some (versions (heap s) !! p) ∧ e.2 ∉ row_stale s v
}.

(** A row without a region can get one: the next region of the controller
    is as constructed. *)
Definition controller_ok (s : state) (v : Value) : Prop :=
  row_region_ v = None →
  0 ≤ RowRegionController.used_ (rrc_ s) < NUM_REGIONS ∧
  regions_ s !! Z.to_nat (RowRegionController.used_ (rrc_ s)) = Some RowRegion.new.

(** The discipline of the initialization phase (executables/ycsb_serval.cpp):
    core [c] runs the transactions [c * 64 .. c * 64 + 63] in order. *)
Record may_append (t : tx) (E : list (Z * Ptr)) : Prop := {
  app_serial : 0 ≤ serial_id_ t < 4096;
  app_core : core_ t = get_core_serial (serial_id_ t);
  app_order : ∀ e, e ∈ of_core (core_ t) E → e.1 < serial_id_ t;
  app_room : (length (of_core (core_ t) E) < 63)%nat
}.

(** What appending a pending version does to the row. *)
Record appended (t : tx) (s s' : state) (v v' : Value) (p : loc) : Prop := {
  app_entries : row_entries s' v' = insert_ascending (serial_id_ t) (Some p) (row_entries s v);
  app_pending : versions (heap s') !! p = Some (mkVersion None PENDING false);
  app_fresh : versions (heap s) !! p = None;
  app_keep : ∀ q, is_Some (versions (heap s) !! q) → Some q ∉ row_stale s v →
    versions (heap s') !! q = versions (heap s) !! q ∧ Some q ∉ row_stale s' v';
  app_collectable : ∀ vs, collectable (heap s) (vs ++ row_stale s v) → collectable (heap s') (vs ++ row_stale s' v');
  app_value : epoch_ v' = epoch_ v ∧ master_ v' = master_ v
}.

Lemma serial_decompose id : 0 ≤ id < 4096 →
  0 ≤ get_core_serial id < 64 ∧ 0 ≤ get_tx_serial id < 64 ∧
  get_core_serial id * 64 + get_tx_serial id = id.
Proof.
  intros. unfold get_core_serial, get_tx_serial.
  pose proof (Z.mod_pos_bound id 64 ltac:(lia)). pose proof (Z.div_mod id 64 ltac:(lia)).
  lia.
Qed.

Lemma of_core_insert c id (p : Ptr) E :
  of_core c (insert_ascending id p E) ≡ₚ (if decide (id / 64 = c) then [(id, p)] else []) ++ of_core c E.
Proof.
  unfold of_core. rewrite insert_ascending_perm, filter_cons. simpl. by case_decide.
Qed.

Lemma may_append_fresh t E : may_append t E → serial_id_ t ∉ E.*1.
Proof.
  intros [Hs Hc Ho _] (e & Heq & He)%list_elem_of_fmap_1.
  assert (e.1 < serial_id_ t); [|lia]. apply Ho. apply list_elem_of_filter. split; [|done].
  rewrite Hc, Heq. done.
Qed.

(** The part of [row_ok] that only depends on the entries. *)
Lemma appended_entries_ok t s v p : may_append t (row_entries s v) → row_ok s v →
  let E := insert_ascending (serial_id_ t) (Some p) (row_entries s v) in
  (∀ e, e ∈ E → 0 ≤ e.1 < 4096) ∧ ascending E ∧ (∀ c, (length (of_core c E) ≤ 63)%nat).
Proof.
  intros Hm Hok E. split_and!.
  - intros e [->|He]%elem_of_insert_ascending; [apply Hm|by eapply row_ids].
  - apply insert_ascending_sorted; [apply Hok|by apply may_append_fresh].
  - intros c. unfold E. rewrite of_core_insert, length_app. pose proof (row_cores _ _ Hok c).
    case_decide as Hd; simpl; [|lia]. destruct Hm as [_ Hcore _ Hroom].
    unfold get_core_serial in Hcore. rewrite Hcore, Hd in Hroom. lia.
Qed.

(** Appending to the region of the transaction's core. *)
Lemma append_to_contented_spec t s v i : row_ok s v → row_region_ v = Some i →
  may_append t (row_entries s v) →
  ∃ p s', append_to_contented_row t s i = Ok (Some p, s') ∧
    values s' = values s ∧ rrc_ s' = rrc_ s ∧
    (∀ j, 0 ≤ j → j ≠ i → regions_ s' !! Z.to_nat j = regions_ s !! Z.to_nat j) ∧
    row_ok s' v ∧ appended t s s' v v p ∧ has_dirty_region s' v = Ok true.
Proof.
  intros Hok Hi Hm. destruct (row_repr _ _ Hok i Hi) as (Hg & Hused & r & Hr & Hrok).
  unfold append_to_contented_row. destruct (create_pending_version (heap s)) as [q m] eqn:Hnew.
  apply create_pending_fresh in Hnew as (p & -> & Hfresh & Hver & Hrec).
  unfold region_at. rewrite Hr. simpl.
  assert (row_entries s v = region_entries r) as HE by (unfold row_entries; by rewrite Hi, Hr).
  assert (row_stale s v = stale_slots r) as HS by (unfold row_stale; by rewrite Hi, Hr).
  destruct (serial_decompose (serial_id_ t)) as (Hc & Htx & Hid); [apply Hm|].
  rewrite <- (app_core _ _ Hm) in Hc, Hid.
  assert (Some p ∉ stale_slots r) as Hnp.
  { intros Hin. rewrite <- HS in Hin.
    destruct (collectable_live _ _ _ (row_collectable _ _ Hok) Hin) as (? & ? & ?). congruence. }
  pose proof (row_live _ _ Hok) as Hlive. rewrite HE, HS in Hlive.
  destruct (region_append_row m r (core_ t) (get_tx_serial (serial_id_ t)) p)
    as (m' & r' & -> & Hrok' & Hnz & Hent & Hcol & Hrec' & Hst & Hv & _); [done..| | | |].
  { rewrite <- HS. eapply (collectable_pending (heap s) m p); [done..|apply Hok]. }
  { rewrite Hid, <- HE. apply Hm. }
  { rewrite <- HE. apply Hm. }
  simpl. rewrite Hid in Hent. pose proof (Hcol [] ltac:(rewrite <- HS; eapply (collectable_pending (heap s) m p); [done..|apply Hok])) as Hcol0.
  assert (Z.to_nat i < length (regions_ s))%nat as Hlt by (by eapply lookup_lt_Some).
  set (s' := set_region _ _ _).
  assert (regions_ s' !! Z.to_nat i = Some r') as Hr' by by apply list_lookup_insert_eq.
  assert (row_entries s' v = insert_ascending (serial_id_ t) (Some p) (row_entries s v)) as HE'.
  { rewrite HE. unfold row_entries. by rewrite Hi, Hr'. }
  assert (row_stale s' v = stale_slots r') as HS' by (unfold row_stale; by rewrite Hi, Hr').
  assert (versions m' !! p = Some (mkVersion None PENDING false)) as Hp.
  { rewrite Hv, Hver by done. by rewrite lookup_insert_eq. }
  assert (∀ q, Some q ∈ (row_entries s v).*2 → versions m' !! q = versions (heap s) !! q) as Hkeep.
  { rewrite HE. intros q (e & Heq & He)%list_elem_of_fmap_1.
    destruct (Hlive e He) as (q' & Hq' & Hq & Hns). rewrite <- Heq in *. simplify_eq.
    rewrite Hv, Hver, lookup_insert_ne; [done| |done]. intros ->. rewrite Hfresh in Hq. by destruct Hq. }
  exists p, s'. split_and!; [done..| | | |].
  - intros j ? ?. apply list_lookup_insert_ne. lia.
  - destruct (appended_entries_ok t s v p Hm Hok) as (H1 & H2 & H3).
    split; rewrite ?HE', ?HS'; try done.
    + intros j Hj. rewrite Hi in Hj. injection Hj as <-. split; [done|]. split; [done|]. by exists r'.
    + intros e [->|He]%elem_of_insert_ascending; simpl.
      * exists p. split_and!; [done|simpl; rewrite Hp; eauto|by intros ?%Hst].
      * pose proof He as He0. rewrite HE in He0. destruct (Hlive e He0) as (q & Hq & Hsome & Hns).
        exists q. split_and!; [done| |by intros ?%Hst]. simpl. rewrite Hkeep; [done|].
        rewrite <- Hq. by apply list_elem_of_fmap_2.
  - split; [done..| | |done].
    { intros q Hq Hns. rewrite HS in Hns. rewrite HS'. split; [|by intros ?%Hst]. simpl. rewrite Hv, Hver, lookup_insert_ne; [done| |done].
      intros ->. rewrite Hfresh in Hq. by destruct Hq. }
    intros vs Hvs. rewrite HS'. apply Hcol. rewrite <- HS. by eapply (collectable_pending (heap s) m p).
  - unfold has_dirty_region, region_at. rewrite Hi, Hr'. simpl. unfold RowRegion.is_dirty.
    by destruct (Z.eqb_spec (RowRegion.core_bitmap_ r') 0).
Qed.

Lemma find_if_elem {A} (f : A → bool) l x : x ∈ l → f x = true → is_Some (std_find_if f l).
Proof.
  induction 1 as [x l|x y l Hin IH]; intros Hf; simpl; [by rewrite Hf|].
  case_match; [done|auto].
Qed.

(** Appending to the global array, under the row's lock. *)
Lemma append_to_unconted_spec t s l v : values s !! l = Some v → row_ok s v →
  row_region_ v = None → may_append t (row_entries s v) →
  ∃ p s' v', append_to_unconted_row t s l = Ok (Some p, s') ∧
    values s' = <[l := v']> (values s) ∧ rrc_ s' = rrc_ s ∧ regions_ s' = regions_ s ∧
    row_region_ v' = None ∧ row_ok s' v' ∧ appended t s s' v v' p.
Proof.
  intros Hl Hok Hi Hm. unfold append_to_unconted_row.
  destruct (create_pending_version (heap s)) as [q m] eqn:Hnew.
  apply create_pending_fresh in Hnew as (p & -> & Hfresh & Hver & Hrec).
  unfold value_at. simpl. rewrite Hl. simpl.
  set (g := insert_ascending _ _ _).
  assert (row_entries s v = GlobalVersionArray.ids_slots_ (global_array_ v)) as HE
    by (unfold row_entries; by rewrite Hi).
  assert (g = insert_ascending (serial_id_ t) (Some p) (row_entries s v)) as Hg by by rewrite HE.
  assert (is_Some (std_find_if (λ e, e.1 =? serial_id_ t) g)) as Hex.
  { eapply (find_if_elem _ _ (serial_id_ t, Some p)); [|simpl; lia].
    rewrite Hg. apply elem_of_insert_ascending. by left. }
  unfold GlobalVersionArray.is_exist. simpl. rewrite bool_decide_true by done. simpl.
  set (v' := mkValue _ _ _ _). set (s' := set_value _ _ _).
  assert (row_entries s' v' = g) as HE' by (unfold row_entries; simpl; by rewrite Hi).
  assert (row_stale s' v' = [] ∧ row_stale s v = []) as [HS' HS] by (unfold row_stale; simpl; by rewrite Hi).
  assert (∀ q, Some q ∈ (row_entries s v).*2 → q ≠ p ∧ is_Some (versions (heap s) !! q)) as Hne.
  { intros q (e & Heq & He)%list_elem_of_fmap_1.
    destruct (row_live _ _ Hok e He) as (q' & Hq' & Hq & _). rewrite <- Heq in Hq'. simplify_eq.
    split; [|done]. intros ->. rewrite Hfresh in Hq. by destruct Hq. }
  exists p, s', v'. split_and!; try done.
  - destruct (appended_entries_ok t s v p Hm Hok) as (H1 & H2 & H3).
    split; rewrite ?HE', ?HS', ?Hg; try done.
    + intros i. simpl. by rewrite Hi.
    + apply collectable_nil.
    + intros e [->|He]%elem_of_insert_ascending; simpl.
      * exists p. rewrite Hver, lookup_insert_eq. split_and!; [done|eauto|set_solver].
      * destruct (row_live _ _ Hok e He) as (q & Hq & Hsome & Hns).
        exists q. split_and!; [done| |set_solver]. rewrite Hver, lookup_insert_ne; [done|].
        destruct (Hne q); [|done]. rewrite <- Hq. by apply list_elem_of_fmap_2.
  - split; [by rewrite HE'| |done| | |done].
    + simpl. by rewrite Hver, lookup_insert_eq.
    + intros q Hq _. rewrite HS'. split; [|apply not_elem_of_nil]. simpl. rewrite Hver, lookup_insert_ne; [done|].
      intros ->. rewrite Hfresh in Hq. by destruct Hq.
    + intros vs Hvs. rewrite HS', <- HS. by eapply (collectable_pending (heap s) m p).
Qed.

Lemma region_new_ok : region_ok RowRegion.new ∧ region_entries RowRegion.new = [] ∧
  stale_slots RowRegion.new = [].
Proof.
  split_and!; [|by vm_compute..]. by apply (initialized_ok RowRegion.new).
Qed.

(** Moving the global array into a region that has nothing to free. *)
Lemma move_entries_spec m r l : region_ok r → stale_slots r = [] →
  ascending (region_entries r ++ l) →
  (∀ e, e ∈ l → 0 ≤ e.1 < 4096 ∧ is_Some e.2) →
  (∀ c, (length (of_core c (region_entries r ++ l)) ≤ 63)%nat) →
  ∃ r', move_entries m r l = Ok (m, r') ∧ region_ok r' ∧ stale_slots r' = [] ∧
    region_entries r' = region_entries r ++ l.
Proof.
  revert r. induction l as [|[id q] l IH]; intros r Hok Hst Hasc Hl Hcnt.
  { exists r. by rewrite app_nil_r. }
  cbn [move_entries]. unfold decompose_id_serial.
  destruct (Hl (id, q)) as [Hid [p Hp]]; [set_solver|]. simpl in Hid, Hp. subst q.
  destruct (serial_decompose id Hid) as (Hc & Htx & Hdec).
  pose proof Hasc as (_ & _ & Hlt)%ascending_app.
  assert (∀ e, e ∈ region_entries r → e.1 < id) as Hbelow.
  { intros e He. apply (Hlt e (id, Some p)); set_solver. }
  destruct (region_append_row m r (get_core_serial id) (get_tx_serial id) p)
    as (m' & r' & -> & Hok' & _ & Hent & _ & _ & Hst' & _ & Hm); [done..| | | |].
  { rewrite Hst. apply collectable_nil. }
  { intros e [_ He]%list_elem_of_filter. rewrite Hdec. auto. }
  { specialize (Hcnt (get_core_serial id)). unfold of_core in *. rewrite filter_app, length_app in Hcnt.
    rewrite filter_cons_True in Hcnt by done. simpl in Hcnt. lia. }
  rewrite Hdec, insert_ascending_snoc in Hent by done. rewrite (Hm Hst). cbn.
  assert (stale_slots r' = []) as Hst''.
  { destruct (stale_slots r') as [|x L] eqn:HL; [done|].
    assert (x ∈ stale_slots r) as Hx by (apply Hst'; set_solver).
    rewrite Hst in Hx. by apply not_elem_of_nil in Hx. }
  destruct (IH r') as (r'' & Hmove & Hok'' & Hs'' & Hent''); [done..| | | |].
  - by rewrite Hent, <- app_assoc.
  - intros e He. apply Hl. set_solver.
  - intros c. rewrite Hent, <- app_assoc. apply Hcnt.
  - exists r''. split_and!; [done..|]. by rewrite Hent'', Hent, <- app_assoc.
Qed.

(** Installing a region leaves the row as it is. *)
Lemma wait_region_spec s l v : values s !! l = Some v → row_ok s v → controller_ok s v →
  ∃ i s' v', wait_region_installation s l = Ok (i, s') ∧ row_region_ v' = Some i ∧
    values s' = <[l := v']> (values s) ∧ heap s' = heap s ∧
    row_ok s' v' ∧ row_entries s' v' = row_entries s v ∧ row_stale s' v' = row_stale s v ∧
    epoch_ v' = epoch_ v ∧ master_ v' = master_ v ∧
    RowRegionController.used_ (rrc_ s) ≤ RowRegionController.used_ (rrc_ s') ∧
    (∀ j, 0 ≤ j < RowRegionController.used_ (rrc_ s) →
       regions_ s' !! Z.to_nat j = regions_ s !! Z.to_nat j).
Proof.
  intros Hl Hok Hctl. unfold wait_region_installation, value_at. rewrite Hl. simpl.
  destruct (row_region_ v) as [i|] eqn:Hi.
  { exists i, s, v. split_and!; try done. by rewrite insert_id. }
  destruct (Hctl Hi) as [[Hu0 Hu] Hnew].
  unfold RowRegionController.fetch_new_region. set (i := RowRegionController.used_ (rrc_ s)) in *.
  rewrite assert_Ok by (simpl; lia). simpl. destruct (Z.leb_spec NUM_REGIONS i); [lia|]. simpl.
  unfold region_at. rewrite Hnew. simpl.
  assert (row_entries s v = GlobalVersionArray.ids_slots_ (global_array_ v)) as HE
    by (unfold row_entries; by rewrite Hi).
  destruct region_new_ok as (Hrok & Hrent & Hrst).
  unfold move_global_array_to_row_region.
  destruct (move_entries_spec (heap s) RowRegion.new (GlobalVersionArray.ids_slots_ (global_array_ v)))
    as (r' & -> & Hrok' & Hst' & Hent'); [done..| | | |].
  { rewrite Hrent, <- HE. apply Hok. }
  { rewrite <- HE. intros e He. split; [by eapply row_ids|].
    destruct (row_live _ _ Hok e He) as (p & -> & _). done. }
  { rewrite Hrent, <- HE. apply Hok. }
  simpl. rewrite Hrent, <- HE in Hent'. simpl in Hent'.
  set (v' := mkValue _ _ _ _). set (s' := set_value _ _ _).
  assert (regions_ s' !! Z.to_nat i = Some r') as Hr'.
  { apply list_lookup_insert_eq. by eapply lookup_lt_Some. }
  assert (row_entries s' v' = row_entries s v) as HE'.
  { unfold row_entries at 1. change (row_region_ v') with (Some i). cbv iota. by rewrite Hr', Hent'. }
  assert (row_stale s' v' = []) as HS'.
  { unfold row_stale. change (row_region_ v') with (Some i). cbv iota. by rewrite Hr'. }
  assert (row_stale s v = []) as HS by (unfold row_stale; by rewrite Hi).
  exists i, s', v'. split_and!; try done.
  - split; rewrite ?HE', ?HS'; try apply Hok.
    + intros j [= <-]. split_and!; [done|simpl; lia|simpl; lia|by exists r'].
    + apply collectable_nil.
    + intros e He. destruct (row_live _ _ Hok e He) as (p & ? & ? & _). exists p. split_and!; [done..|set_solver].
  - by rewrite HS', HS.
  - simpl. lia.
  - intros j Hj. apply list_lookup_insert_ne. lia.
Qed.

(** One append, whatever the outcome of [try_lock]. *)
Lemma do_append_spec got_lock t s l v : values s !! l = Some v → epoch_ v = tx_epoch_ t →
  row_ok s v → controller_ok s v → may_append t (row_entries s v) →
  ∃ p s' v', do_append_pending_version t got_lock s l None = Ok (Some p, s') ∧
    values s' = <[l := v']> (values s) ∧ row_ok s' v' ∧ controller_ok s' v' ∧
    appended t s s' v v' p.
Proof.
  intros Hl He Hok Hctl Hm. unfold do_append_pending_version. simpl.
  unfold epoch_guard, value_at. rewrite Hl. simpl.
  destruct (Z.ltb_spec (epoch_ v) (tx_epoch_ t)); [lia|]. simpl. rewrite Hl. simpl.
  rewrite assert_Ok by lia. simpl. destruct got_lock.
  - unfold may_be_contented. destruct (row_region_ v) as [i|] eqn:Hi; simpl.
    + destruct (append_to_contented_spec t s v i Hok Hi Hm) as (p & s' & -> & Hv & _ & _ & ? & ? & _).
      exists p, s', v. split_and!; try done; [by rewrite Hv, insert_id|]. intros Hn. congruence.
    + destruct (append_to_unconted_spec t s l v Hl Hok Hi Hm) as (p & s' & v' & -> & Hv & Hc & Hr & Hi' & ? & ?).
      exists p, s', v'. split_and!; try done. intros _. rewrite Hc, Hr. by apply Hctl.
  - destruct (wait_region_spec s l v Hl Hok Hctl)
      as (i & s1 & v1 & -> & Hi & Hv1 & Hh & Hok1 & HE & HS & Hep & Hma & _). simpl.
    destruct (append_to_contented_spec t s1 v1 i Hok1 Hi) as (p & s' & -> & Hv & _ & _ & Hok' & Happ & _);
      [by rewrite HE|].
    exists p, s', v1. split_and!; [done|by rewrite Hv, Hv1|done| |].
    + intros Hn. congruence.
    + destruct Happ. split; rewrite <- ?HE, <- ?Hh, <- ?HS; done.
Qed.

(** A schedule: the appends to one row in the order in which they take
    effect, each with the outcome of its [try_lock]. *)
Fixpoint run_appends (l : loc) (ops : list (tx * bool)) (s : state) : outcome (list Ptr * state) :=
  match ops with
  | [] => Ok ([], s)
  | (t, got_lock) :: ops =>
      '(p, s) ← do_append_pending_version t got_lock s l None;
      '(ps, s) ← run_appends l ops s;
      Ok (p :: ps, s)
  end.

Definition serials (ops : list (tx * bool)) : list Z := (λ o, serial_id_ o.1) <$> ops.

(** Each core appends its own transactions, in order, at most 63. *)
Record disciplined (epoch : Z) (ops : list (tx * bool)) : Prop := {
  dis_tx : ∀ o, o ∈ ops → tx_epoch_ o.1 = epoch ∧ 0 ≤ serial_id_ o.1 < 4096 ∧
    core_ o.1 = get_core_serial (serial_id_ o.1);
  dis_order : StronglySorted (λ a b, a / 64 = b / 64 → a < b) (serials ops);
  dis_room : ∀ c, (length (filter (λ id, (id / 64)%Z = c) (serials ops)) ≤ 63)%nat
}.

Lemma length_of_core c (E : list (Z * Ptr)) :
  length (of_core c E) = length (filter (λ id, (id / 64)%Z = c) E.*1).
Proof.
  induction E as [|e E IH]; [done|]. unfold of_core in *. csimpl. rewrite !filter_cons.
  by case_decide; simpl; rewrite IH.
Qed.

(** What a series of appends leaves in the heap: distinct pending versions
    that no other version of the row is, and whatever could be collected. *)
Record pending_versions (s s' : state) (v v' : Value) (ps : list Ptr) : Prop := {
  pend_nodup : NoDup ps;
  pend_new : ∀ p, p ∈ ps → p ∉ (row_entries s v).*2;
  pend_status : ∀ p, p ∈ ps → ∃ q, p = Some q ∧ versions (heap s') !! q = Some (mkVersion None PENDING false);
  pend_keep : ∀ q, is_Some (versions (heap s) !! q) → Some q ∉ row_stale s v →
    versions (heap s') !! q = versions (heap s) !! q;
  pend_collectable : ∀ vs, collectable (heap s) (vs ++ row_stale s v) → collectable (heap s') (vs ++ row_stale s' v')
}.

Lemma pending_nil s v : pending_versions s s v v [].
Proof. split; [constructor|by intros ? ?%not_elem_of_nil..|done|done]. Qed.

Lemma pending_cons t s s1 s' v v1 v' p ps : row_ok s v → row_ok s1 v1 → appended t s s1 v v1 p → pending_versions s1 s' v1 v' ps →
  pending_versions s s' v v' (Some p :: ps).
Proof.
  intros Hok Hok1 Happ [Hnd Hnew Hst Hkeep Hcol].
  assert (∀ q, q ∈ (row_entries s1 v1).*2 ↔ q = Some p ∨ q ∈ (row_entries s v).*2) as Hent.
  { intros q. rewrite (app_entries _ _ _ _ _ _ Happ), insert_ascending_perm. csimpl. by rewrite elem_of_cons. }
  assert (Some p ∉ (row_entries s v).*2) as Hp.
  { intros (e & Heq & He)%list_elem_of_fmap_1. destruct (row_live _ _ Hok e He) as (q & Hq & [ver Hver] & _).
    pose proof (app_fresh _ _ _ _ _ _ Happ). congruence. }
  split.
  - apply NoDup_cons. split; [|done]. intros Hin. apply (Hnew _ Hin), Hent. by left.
  - intros q [->|Hq]%elem_of_cons; [done|]. intros Hin. apply (Hnew _ Hq), Hent. by right.
  - intros q [->|Hq]%elem_of_cons; [|by apply Hst]. exists p. split; [done|].
    assert (Some p ∈ (row_entries s1 v1).*2) as (e & Heq & He)%list_elem_of_fmap_1 by (apply Hent; by left).
    destruct (row_live _ _ Hok1 e He) as (q & Hq & Hsome & Hns). rewrite <- Heq in Hq, Hns. injection Hq as <-.
    rewrite Hkeep by done. apply Happ.
  - intros q Hq Hns. destruct (app_keep _ _ _ _ _ _ Happ q Hq Hns) as [Heq Hns']. rewrite <- Heq in Hq |- *. by apply Hkeep.
  - intros vs Hvs. by apply Hcol, Happ.
Qed.

Lemma run_appends_spec epoch l ops s v : values s !! l = Some v → epoch_ v = epoch →
  row_ok s v → controller_ok s v → disciplined epoch ops →
  (∀ a b, a ∈ (row_entries s v).*1 → b ∈ serials ops → a / 64 = b / 64 → a < b) →
  (∀ c, (length (filter (λ id, (id / 64)%Z = c) ((row_entries s v).*1 ++ serials ops)) ≤ 63)%nat) →
  ∃ ps s' v', run_appends l ops s = Ok (ps, s') ∧ length ps = length ops ∧
    values s' !! l = Some v' ∧ row_ok s' v' ∧ controller_ok s' v' ∧
    epoch_ v' = epoch ∧ master_ v' = master_ v ∧
    row_entries s' v' ≡ₚ zip (serials ops) ps ++ row_entries s v ∧ pending_versions s s' v v' ps.
Proof.
  revert s v. induction ops as [|[t b] ops IH]; intros s v Hl He Hok Hctl Hd Hord Hroom.
  { exists [], s, v. split_and!; try done. apply pending_nil. }
  destruct (dis_tx _ _ Hd (t, b)) as (Hte & Hser & Hcore); [set_solver|]. simpl in *.
  pose proof (dis_order _ _ Hd) as [Hsort Hall]%StronglySorted_inv. simpl in Hall.
  rewrite Forall_forall in Hall.
  assert (may_append t (row_entries s v)) as Hm.
  { split; [done..| |].
    - intros e [Hc Hin]%list_elem_of_filter. apply Hord; [by apply list_elem_of_fmap_2|csimpl; set_solver|].
      by rewrite Hc, Hcore.
    - rewrite length_of_core. specialize (Hroom (core_ t)). unfold serials in Hroom. csimpl in Hroom.
      rewrite filter_app, filter_cons_True, length_app in Hroom by done. simpl in Hroom. lia. }
  destruct (do_append_spec b t s l v Hl ltac:(congruence) Hok Hctl Hm)
    as (p & s1 & v1 & -> & Hv1 & Hok1 & Hctl1 & Happ). simpl.
  assert ((row_entries s1 v1).*1 ≡ₚ serial_id_ t :: (row_entries s v).*1) as Hids.
  { rewrite (app_entries _ _ _ _ _ _ Happ), insert_ascending_perm. done. }
  destruct (app_value _ _ _ _ _ _ Happ) as [Hep Hma].
  destruct (IH s1 v1) as (ps & s' & v' & -> & Hlen & Hl' & Hok' & Hctl' & Hep' & Hma' & Hperm & Hpend);
    [by rewrite Hv1, lookup_insert_eq|congruence|done|done| | | |].
  - split; [intros; apply (dis_tx _ _ Hd); set_solver|done|]. intros c.
    pose proof (dis_room _ _ Hd c) as Hc. unfold serials in *. csimpl in Hc. rewrite filter_cons in Hc.
    case_decide; simpl in Hc; lia.
  - intros x y. rewrite Hids. intros [->|Hx]%elem_of_cons Hy; [by apply Hall|].
    apply Hord; [done|]. csimpl. set_solver.
  - intros c. rewrite Hids. specialize (Hroom c). unfold serials in *. csimpl in Hroom.
    rewrite <- Permutation_middle in Hroom. done.
  - simpl. exists (Some p :: ps), s', v'. split_and!; try done; [simpl; congruence|congruence| |by apply (pending_cons t s s1 s' v v1 v')].
    rewrite Hperm, (app_entries _ _ _ _ _ _ Happ), insert_ascending_perm. csimpl.
    by rewrite <- Permutation_middle.
Qed.

(** ** Reading *)

Definition read_version (s : state) (visible : Ptr) : outcome read_result :=
  v ← load_version (heap s) visible;
  Ok (if bool_decide (status v = PENDING) then Spin else Got (rec v)).

Definition dirty (s : state) (v : Value) : Prop := row_entries s v ≠ [].

Lemma dirty_representation s v : row_ok s v → dirty s v →
  (row_region_ v = None ∧ GlobalVersionArray.is_dirty (global_array_ v) = true ∧
     has_dirty_region s v = Ok false) ∨
  (∃ i r, row_region_ v = Some i ∧ regions_ s !! Z.to_nat i = Some r ∧ region_ok r ∧
     GlobalVersionArray.is_dirty (global_array_ v) = false ∧
     RowRegion.core_bitmap_ r ≠ 0 ∧ has_dirty_region s v = Ok true).
Proof.
  intros Hok Hd. unfold dirty, row_entries, has_dirty_region in *.
  destruct (row_region_ v) as [i|] eqn:Hi; [right|left].
  - destruct (row_repr _ _ Hok i Hi) as (Hg & _ & r & Hr & Hrok). exists i, r.
    unfold region_at. rewrite Hr in *. simpl. unfold GlobalVersionArray.is_dirty, GlobalVersionArray.is_empty.
    rewrite Hg. assert (RowRegion.core_bitmap_ r ≠ 0) as Hnz.
    { intros Hz. apply Hd. unfold region_entries. by rewrite Hz. }
    split_and!; try done. unfold RowRegion.is_dirty. by destruct (Z.eqb_spec (RowRegion.core_bitmap_ r) 0).
  - split_and!; [done| |done]. unfold GlobalVersionArray.is_dirty, GlobalVersionArray.is_empty.
    by rewrite bool_decide_false.
Qed.

Lemma entry_pointer s v id p : row_ok s v → (id, p) ∈ row_entries s v → is_Some p.
Proof. intros Hok Hin. destruct (row_live _ _ Hok _ Hin) as (q & Hq & _). simpl in *. subst. eauto. Qed.

Lemma wait_stable_spec s p : is_Some p → wait_stable_and_execute_read s p = read_version s p.
Proof.
  intros [q ->]. unfold wait_stable_and_execute_read, read_version, execute_read. simpl.
  destruct (load_version (heap s) (Some q)) as [ver| | |]; simpl; [|done..]. by destruct (bool_decide _).
Qed.

Lemma read_spec find t s table_id key l v : find table_id key = Some l →
  values s !! l = Some v → epoch_ v = tx_epoch_ t → row_ok s v → dirty s v →
  0 ≤ serial_id_ t < 4096 → core_ t = get_core_serial (serial_id_ t) →
  read find t s table_id key =
    match latest_below (serial_id_ t) (row_entries s v) with
    | Some (_, p) => read_version s p
    | None => execute_read s (master_ v)
    end.
Proof.
  intros Hf Hl He Hok Hd Hs Hc. unfold read. rewrite Hf. unfold value_at. rewrite Hl. simpl.
  destruct (Z.eqb_spec (epoch_ v) (tx_epoch_ t)); [|done]. simpl.
  destruct (serial_decompose (serial_id_ t) Hs) as (Hc' & Htx & Hid). rewrite <- Hc in Hc', Hid.
  pose proof (row_asc _ _ Hok) as Hasc.
  unfold assert_global_array_and_region.
  destruct (dirty_representation s v Hok Hd)
    as [(Hi & Hg & Hh)|(i & r & Hi & Hr & Hrok & Hg & Hnz & Hh)]; rewrite Hh; simpl; rewrite Hg; simpl.
  - assert (row_entries s v = GlobalVersionArray.ids_slots_ (global_array_ v)) as HE
      by (unfold row_entries; by rewrite Hi). rewrite HE in Hasc.
    rewrite global_search_spec, <- HE by done. rewrite <- HE in Hasc. simpl.
    destruct (latest_below _ _) as [[id p]|] eqn:Hlb; [|done].
    apply latest_below_Some in Hlb as (Hin & Hlt & _); [|done].
    pose proof (row_ids _ _ Hok _ Hin) as Hrange. simpl in Hrange.
    rewrite wrap_small by (split; lia). rewrite assert_Ok by lia. simpl.
    apply wait_stable_spec. by eapply entry_pointer.
  - rewrite Hi. simpl. unfold region_at. rewrite Hr. simpl.
    assert (row_entries s v = region_entries r) as HE by (unfold row_entries; by rewrite Hi, Hr).
    rewrite identify_visible_spec by done. rewrite Hid. unfold visible_ids. rewrite HE. simpl.
    rewrite HE in Hasc. destruct (latest_below _ _) as [[id p]|] eqn:Hlb; [|done].
    apply latest_below_Some in Hlb as (Hin & Hlt & _); [|done].
    assert (is_Some p) as [q ->]. { eapply (entry_pointer s v id); [done|]. by rewrite HE. }
    apply elem_of_region_entries in Hin as (c & x & Hcp & Hx & ->).
    pose proof (core_entries_range _ _ _ _ Hrok Hcp Hx).
    rewrite Z.div_add_l, Z.div_small, Z.add_0_r by lia.
    rewrite (Z.add_comm (c * 64)), Z.mod_add, Z.mod_small by lia.
    rewrite assert_Ok by lia. simpl.
    destruct (ok_core r Hrok c Hcp) as (a & Ha & Hpok & _). unfold RowRegion.array. rewrite Ha. simpl.
    unfold core_entries in Hx. rewrite Ha in Hx. rewrite (pca_get_spec a x q) by done. simpl.
    by rewrite wait_stable_spec.
Qed.

(** ** The first transaction of an epoch *)

Lemma gc_master_spec s l v latest vs : values s !! l = Some v →
  collectable (heap s) (master_ v :: vs) →
  ∃ s', gc_master_version s l latest = Ok s' ∧
    values s' = <[l := mkValue (epoch_ v) latest (global_array_ v) (row_region_ v)]> (values s) ∧
    regions_ s' = regions_ s ∧ rrc_ s' = rrc_ s ∧ collectable (heap s') vs ∧
    (∀ q, versions (heap s') !! q =
       if decide (Some q = master_ v) then None else versions (heap s) !! q).
Proof.
  intros Hl Hc. apply collectable_cons_inv in Hc as (p & r & m' & Hp & -> & _ & Hc & _ & [d Hd] & Hr).
  unfold gc_master_version, value_at, load_version. rewrite Hl. simpl. rewrite Hp. simpl. rewrite Hd. simpl.
  rewrite decide_True by done. simpl. rewrite Hd. simpl. eexists. split; [done|].
  split_and!; [done..|]. intros q. simpl. rewrite lookup_delete. by repeat case_decide; simplify_eq.
Qed.

(** The final state of the previous epoch becomes [master_]; the old
    master is freed; the versions of the epoch are freed or left stale. *)
Record initialized (t : tx) (l : loc) (s s' : state) (v v' : Value) (p : loc) : Prop := {
  init_values : values s' = <[l := v']> (values s);
  init_epoch : epoch_ v' = tx_epoch_ t;
  init_master : master_ v' = Some p;
  init_region : row_region_ v' = row_region_ v;
  init_ok : row_ok s' v';
  init_entries : row_entries s' v' = [];
  init_controller : controller_ok s v → controller_ok s' v';
  init_freed : ∀ m, master_ v = Some m → versions (heap s') !! m = None;
  init_kept : versions (heap s') !! p = versions (heap s) !! p
}.

Lemma empty_row_ok s v : row_entries s v = [] → collectable (heap s) (row_stale s v) →
  (∀ i, row_region_ v = Some i → GlobalVersionArray.ids_slots_ (global_array_ v) = [] ∧
    0 ≤ i < RowRegionController.used_ (rrc_ s) ∧
    ∃ r, regions_ s !! Z.to_nat i = Some r ∧ region_ok r) →
  row_ok s v.
Proof.
  intros HE Hc Hr. split; rewrite ?HE; try done.
  - intros e He. by apply not_elem_of_nil in He.
  - constructor.
  - intros c. simpl. lia.
  - intros e He. by apply not_elem_of_nil in He.
Qed.

Lemma initialize_global t s l v E id p : values s !! l = Some v → row_ok s v →
  row_region_ v = None → row_entries s v = E ++ [(id, Some p)] →
  collectable (heap s) (master_ v :: Some p :: E.*2 ++ row_stale s v) →
  (Some p ∉ master_ v :: E.*2) →
  ∃ s' v', initialize_the_row t s l = Ok s' ∧ initialized t l s s' v v' p.
Proof.
  intros Hl Hok Hi HE Hcol Hnp.
  assert (dirty s v) as Hd by (unfold dirty; rewrite HE; by destruct E).
  unfold initialize_the_row, value_at, assert_global_array_and_region. rewrite Hl. simpl.
  destruct (dirty_representation s v Hok Hd) as [(_ & Hg & Hh)|(? & ? & ? & _)]; [|congruence].
  rewrite Hh. simpl. rewrite Hg. simpl.
  unfold row_entries in HE. rewrite Hi in HE.
  unfold GlobalVersionArray.pop_final_state. rewrite HE, last_snoc, removelast_last. simpl.
  unfold GlobalVersionArray.clear_memory, GlobalVersionArray.minor_gc. simpl.
  assert (row_stale s v = []) as HS by (unfold row_stale; by rewrite Hi).
  rewrite HS, app_nil_r in Hcol.
  destruct (gc_versions_collectable (heap s) E.*2 [master_ v; Some p])
    as (m1 & -> & Hcol1 & _ & Hv1).
  { eapply collectable_perm, Hcol. by rewrite Permutation_app_comm. }
  simpl. set (s1 := set_value _ _ _).
  destruct (gc_master_spec s1 l (mkValue (epoch_ v) (master_ v) (GlobalVersionArray.mk []) (row_region_ v))
    (Some p) [Some p]) as (s' & -> & Hv' & Hr' & Hc' & Hcol' & Hk'); [by apply lookup_insert_eq|done|].
  simpl. rewrite Hv', lookup_insert_eq. simpl. eexists _, (mkValue (tx_epoch_ t) (Some p) (GlobalVersionArray.mk []) (row_region_ v)).
  split; [done|].
  split; simpl; rewrite ?Hv'; simpl; rewrite ?insert_insert_eq; try done.
  - apply empty_row_ok; unfold row_entries, row_stale; simpl; rewrite Hi; try done. apply collectable_nil.
  - unfold row_entries. simpl. by rewrite Hi.
  - intros Hctl _. simpl. rewrite Hc', Hr'. by apply Hctl.
  - intros m Hm. rewrite Hk'. simpl. by rewrite decide_True.
  - rewrite Hk'. simpl. rewrite decide_False by set_solver. rewrite Hv1. by rewrite decide_False by set_solver.
Qed.

Lemma initialize_region t s l v i E id p : values s !! l = Some v → row_ok s v →
  row_region_ v = Some i → row_entries s v = E ++ [(id, Some p)] →
  collectable (heap s) (master_ v :: Some p :: E.*2 ++ row_stale s v) →
  (Some p ∉ master_ v :: E.*2) →
  ∃ s' v', initialize_the_row t s l = Ok s' ∧ initialized t l s s' v v' p.
Proof.
  intros Hl Hok Hi HE Hcol Hnp.
  assert (dirty s v) as Hd by (unfold dirty; rewrite HE; by destruct E).
  unfold initialize_the_row, value_at, assert_global_array_and_region. rewrite Hl. simpl.
  destruct (dirty_representation s v Hok Hd) as [(? & _)|(i' & r & Hi' & Hr & Hrok & Hg & Hnz & Hh)];
    [congruence|]. rewrite Hi' in Hi. injection Hi as ->. rename Hi' into Hi.
  rewrite Hh. simpl. rewrite Hg. simpl. rewrite Hi. simpl. unfold region_at. rewrite Hr. simpl.
  unfold row_entries in HE. rewrite Hi, Hr in HE.
  destruct (region_pop_spec r E id (Some p) Hrok HE) as (r' & -> & Hlen & Hst). simpl.
  destruct (initialized_ok r' Hlen) as [Hrok' Hent'].
  set (r0 := RowRegion.initialize_core_bitmap r') in *.
  assert (row_stale s v = stale_slots r) as HS by (unfold row_stale; by rewrite Hi, Hr). rewrite HS in Hcol.
  destruct (gc_master_spec (set_region s i r0) l v (Some p) (Some p :: E.*2 ++ stale_slots r))
    as (s' & -> & Hv' & Hr' & Hc' & Hcol' & Hk'); [done..|].
  simpl. rewrite Hv', lookup_insert_eq. simpl. eexists _, (mkValue (tx_epoch_ t) (Some p) (global_array_ v) (row_region_ v)).
  split; [done|].
  destruct (row_repr _ _ Hok i Hi) as (Hgn & Hused & _).
  assert (regions_ s' !! Z.to_nat i = Some r0) as Hr0.
  { rewrite Hr'. apply list_lookup_insert_eq. by eapply lookup_lt_Some. }
  split; simpl; rewrite ?Hv'; simpl; rewrite ?insert_insert_eq; try done.
  - apply empty_row_ok; unfold row_entries, row_stale; simpl; rewrite Hi, ?Hr0; [done| |].
    + eapply collectable_perm; [symmetry; exact Hst|]. by eapply (collectable_app_r _ [_]).
    + intros j [= <-]. split; [done|]. split; [by rewrite Hc'|]. by exists r0.
  - unfold row_entries. simpl. by rewrite Hi, Hr0.
  - intros _ Hn. simpl in Hn. congruence.
  - intros m Hm. rewrite Hk'. simpl. by rewrite decide_True.
  - rewrite Hk'. simpl. by rewrite decide_False by set_solver.
Qed.

Lemma initialize_spec t s l v E id p : values s !! l = Some v → row_ok s v →
  row_entries s v = E ++ [(id, Some p)] →
  collectable (heap s) (master_ v :: Some p :: E.*2 ++ row_stale s v) →
  ∃ s' v', initialize_the_row t s l = Ok s' ∧ initialized t l s s' v v' p.
Proof.
  intros Hl Hok HE Hcol.
  assert (Some p ∉ master_ v :: E.*2) as Hnp.
  { eapply (collectable_perm _ _ (Some p :: master_ v :: E.*2 ++ row_stale s v)) in Hcol; [|constructor].
    apply collectable_cons_inv in Hcol as (? & ? & ? & _ & _ & _ & _ & Hni & _). set_solver. }
  destruct (row_region_ v) as [i|] eqn:Hi.
  - by eapply initialize_region.
  - by eapply initialize_global.
Qed.

(** The first append of an epoch: the row is initialized, then holds the
    new version only. *)
Lemma first_append_spec got_lock t s l v E id p : values s !! l = Some v → row_ok s v →
  controller_ok s v → epoch_ v < tx_epoch_ t → row_entries s v = E ++ [(id, Some p)] →
  collectable (heap s) (master_ v :: Some p :: E.*2 ++ row_stale s v) →
  0 ≤ serial_id_ t < 4096 → core_ t = get_core_serial (serial_id_ t) →
  ∃ q s' v', do_append_pending_version t got_lock s l None = Ok (Some q, s') ∧
    values s' = <[l := v']> (values s) ∧ row_ok s' v' ∧ controller_ok s' v' ∧
    epoch_ v' = tx_epoch_ t ∧ master_ v' = Some p ∧ row_entries s' v' = [(serial_id_ t, Some q)].
Proof.
  intros Hl Hok Hctl He HE Hcol Hs Hc.
  destruct (initialize_spec t s l v E id p) as (s1 & v1 & Hinit & [Hv1 He1 Hm1 Hi1 Hok1 HE1 Hctl1 _ _]);
    [done..|].
  assert (values s1 !! l = Some v1) as Hl1 by by rewrite Hv1, lookup_insert_eq.
  destruct (do_append_spec got_lock t s1 l v1) as (q & s' & v' & Hdo & Hv' & Hok' & Hctl' & Happ); auto.
  { rewrite HE1. split; [done..| |]; simpl; [|lia]. intros e He'. by apply not_elem_of_nil in He'. }
  exists q, s', v'. destruct (app_value _ _ _ _ _ _ Happ) as [He' Hm'].
  split_and!; [|by rewrite Hv', Hv1, insert_insert_eq|done|done|congruence|congruence|].
  - revert Hdo. unfold do_append_pending_version, epoch_guard, value_at. simpl.
    rewrite Hl. simpl. destruct (Z.ltb_spec (epoch_ v) (tx_epoch_ t)); [|lia]. rewrite Hinit. simpl.
    rewrite Hl1. simpl. destruct (Z.ltb_spec (epoch_ v1) (tx_epoch_ t)); [lia|]. simpl. by rewrite Hl1.
  - by rewrite (app_entries _ _ _ _ _ _ Happ), HE1.
Qed.
End serval_row.

(** ** The guarantees of the protocol *)
Section serval_properties.
Import Serval.

(** A row no transaction of the epoch has written yet. *)
Record fresh_row (s : state) (l : loc) (v : Value) (epoch : Z) : Prop := {
  fresh_at : values s !! l = Some v;
  fresh_epoch : epoch_ v = epoch;
  fresh_ok : row_ok s v;
  fresh_controller : controller_ok s v;
  fresh_entries : row_entries s v = []
}.

Lemma run_appends_fresh epoch l ops s v : fresh_row s l v epoch → disciplined epoch ops →
  ∃ ps s' v', run_appends l ops s = Ok (ps, s') ∧ length ps = length ops ∧
    values s' !! l = Some v' ∧ row_ok s' v' ∧ epoch_ v' = epoch ∧ master_ v' = master_ v ∧
    row_entries s' v' = spec_row (zip (serials ops) ps) ∧ pending_versions s s' v v' ps.
Proof.
  intros [Hl He Hok Hctl HE] Hd.
  destruct (run_appends_spec epoch l ops s v) as (ps & s' & v' & ? & ? & ? & Hok' & ? & ? & ? & Hp & Hpend); try done.
  - rewrite HE. intros a b Ha. by apply not_elem_of_nil in Ha.
  - rewrite HE. apply Hd.
  - exists ps, s', v'. split_and!; try done. rewrite HE, app_nil_r in Hp.
    apply spec_row_unique; [apply Hok'|done].
Qed.

(** C22: The rows of an epoch do not depend on the schedule.
    Each core appends its own transactions of the epoch in serial order, at
    most 63 of them to this row (the 64th append of a core fails the assertion
    of row_region.hpp:208, core_array_full), the controller has a
    region left if the row has none, and an append is one step.  Then however
    the appends of the cores interleave, and whichever of them win the row's
    lock or fall back to the region, every append succeeds and the row
    ends as the specification: the versions in the order of their serial
    ids, each the one handed to its transaction. *)
Theorem serval_append_schedule (epoch : Z) (l : loc) (s : state) (v : Value) (ops : list (tx * bool))
    (Hrow : fresh_row s l v epoch) (Hops : disciplined epoch ops) :
  ∃ ps s' v', run_appends l ops s = Ok (ps, s') ∧ length ps = length ops ∧
    values s' !! l = Some v' ∧ row_entries s' v' = spec_row (zip (serials ops) ps) ∧
    ∀ ops2, disciplined epoch ops2 → serials ops2 ≡ₚ serials ops →
      ∃ ps2 s2 v2, run_appends l ops2 s = Ok (ps2, s2) ∧ values s2 !! l = Some v2 ∧
        (row_entries s2 v2).*1 = (row_entries s' v').*1.
Proof.
  destruct (run_appends_fresh epoch l ops s v Hrow Hops)
    as (ps & s' & v' & Hrun & Hlen & Hl' & Hok' & _ & _ & HE' & _). exists ps, s', v'. split_and!; try done.
  intros ops2 Hops2 Hperm.
  destruct (run_appends_fresh epoch l ops2 s v Hrow Hops2)
    as (ps2 & s2 & v2 & Hrun2 & Hlen2 & Hl2 & Hok2 & _ & _ & HE2 & _). exists ps2, s2, v2. split_and!; try done.
  apply sorted_ext; [apply Hok2|apply Hok'|]. intros x.
  rewrite HE', HE2, !spec_row_perm, !fst_zip by (unfold serials; rewrite length_fmap; lia). by rewrite Hperm.
Qed.

(** The execution phase: the transactions that have executed install their
    records, in any order. *)
Fixpoint run_upserts (pendings : list Ptr) (s : state) : outcome (list Ptr * state) :=
  match pendings with
  | [] => Ok ([], s)
  | p :: pendings =>
      '(r, s) ← upsert s p;
      '(rs, s) ← run_upserts pendings s;
      Ok (r :: rs, s)
  end.

Definition installed (s : state) (p r : Ptr) : Prop :=
  ∃ q d, p = Some q ∧ versions (heap s) !! q = Some (mkVersion r STABLE d).

(** What [upsert]s leave alone. *)
Record upserted (pendings : list Ptr) (s s' : state) : Prop := {
  ups_values : values s' = values s;
  ups_rrc : rrc_ s' = rrc_ s;
  ups_regions : regions_ s' = regions_ s;
  ups_records : records (heap s) ⊆ records (heap s');
  ups_live : ∀ q, is_Some (versions (heap s) !! q) → is_Some (versions (heap s') !! q);
  ups_keep : ∀ q, Some q ∉ pendings → versions (heap s') !! q = versions (heap s) !! q
}.

Lemma upsert_spec s q : is_Some (versions (heap s) !! q) →
  ∃ r s', upsert s (Some q) = Ok (Some r, s') ∧ (r ∉ records (heap s)) ∧ r ∈ records (heap s') ∧
    installed s' (Some q) (Some r) ∧ upserted [Some q] s s'.
Proof.
  intros [ver Hver]. unfold upsert, install_record. simpl. rewrite Hver. simpl.
  eexists _, _. split_and!; [done|apply is_fresh|simpl; set_solver| |].
  - exists q, (deleted ver). split; [done|]. simpl. by rewrite lookup_insert_eq.
  - split; simpl; [done..|set_solver| |].
    + intros q' Hq'. rewrite lookup_insert. by case_decide.
    + intros q' Hq'. apply lookup_insert_ne. set_solver.
Qed.

Lemma run_upserts_spec pendings : ∀ s, NoDup pendings → (∀ p, p ∈ pendings → ∃ q, p = Some q ∧ is_Some (versions (heap s) !! q)) →
  ∃ rs s', run_upserts pendings s = Ok (rs, s') ∧ upserted pendings s s' ∧ Forall2 (installed s') pendings rs ∧
    NoDup rs ∧ ∀ r, r ∈ rs → ∃ q, r = Some q ∧ q ∉ records (heap s).
Proof.
  induction pendings as [|p pendings IH]; intros s Hnd Hlive.
  { exists [], s. split_and!; [done|by split|constructor|constructor|by intros ? ?%not_elem_of_nil]. }
  apply NoDup_cons in Hnd as [Hni Hnd]. destruct (Hlive p ltac:(set_solver)) as (q & -> & Hq).
  destruct (upsert_spec s q Hq) as (r & s1 & Hup & Hr & Hr1 & Hinst & Hu). cbn [run_upserts]. rewrite Hup. simpl.
  destruct (IH s1) as (rs & s' & -> & Hus & Hall & Hnd' & Hnew); [done| |].
  { intros p Hp. destruct (Hlive p ltac:(set_solver)) as (q' & -> & Hq'). exists q'. split; [done|]. by apply Hu. }
  simpl. exists (Some r :: rs), s'. split_and!; [done| | | |].
  - destruct Hu, Hus. split; try congruence; [set_solver|auto|]. intros q' [? ?]%not_elem_of_cons.
    rewrite ups_keep1 by done. apply ups_keep0. set_solver.
  - constructor; [|done]. destruct Hinst as (q' & d & [= <-] & Hd). exists q, d. split; [done|]. by rewrite (ups_keep _ _ _ Hus).
  - apply NoDup_cons. split; [|done]. intros (q' & [= <-] & ?)%Hnew. done.
  - intros r' [->|(q' & -> & Hq')%Hnew]%elem_of_cons; [by exists r|]. exists q'. split; [done|]. pose proof (ups_records _ _ _ Hu). set_solver.
Qed.

Lemma upserted_entries pendings s s' v : upserted pendings s s' → row_entries s' v = row_entries s v ∧ row_stale s' v = row_stale s v.
Proof. intros Hu. unfold row_entries, row_stale. by rewrite (ups_regions _ _ _ Hu). Qed.

Lemma upserted_row_ok pendings s s' v : upserted pendings s s' → (∀ p, p ∈ pendings → p ∈ (row_entries s v).*2) → row_ok s v → row_ok s' v.
Proof.
  intros Hu Hsub Hok. destruct (upserted_entries _ _ _ v Hu) as [HE HS]. split; rewrite ?HE, ?HS; try apply Hok.
  - intros i Hi. rewrite (ups_rrc _ _ _ Hu), (ups_regions _ _ _ Hu). by apply Hok.
  - eapply collectable_frame; [apply Hok|apply Hu|]. intros q Hq. apply Hu. intros (e & Heq & He)%Hsub%list_elem_of_fmap_1.
    destruct (row_live _ _ Hok e He) as (q' & _ & _ & Hns). congruence.
  - intros e He. destruct (row_live _ _ Hok e He) as (q & ? & ? & ?). exists q. split_and!; [done|by apply Hu|done].
Qed.

Lemma disciplined_serials epoch ops : disciplined epoch ops → NoDup (serials ops).
Proof.
  intros Hd. pose proof (dis_order _ _ Hd) as Hs. induction Hs as [|a L Hs IH Hall]; [constructor|]. constructor; [|done].
  intros Hin. rewrite Forall_forall in Hall. specialize (Hall a Hin eq_refl). lia.
Qed.

(** The latest of the writes that precede a reader. *)
Definition latest_writer (ops : list (tx * bool)) (id : Z) (i : nat) : Prop :=
  ∃ w : Z, serials ops !! i = Some w ∧ w < id ∧ ∀ (j : nat) (w' : Z), serials ops !! j = Some w' → w' < id → w' ≤ w.

Lemma latest_writer_below ops (ps : list Ptr) (id : Z) i p : length ps = length ops → ps !! i = Some p → latest_writer ops id i → NoDup (serials ops) →
  ∃ w, latest_below id (spec_row (zip (serials ops) ps)) = Some (w, p).
Proof.
  intros Hlen Hp (w & Hw & Hlt & Hmax) Hnd. exists w. apply latest_below_Some.
  { apply spec_row_ascending. rewrite fst_zip; [done|]. unfold serials. rewrite length_fmap. lia. }
  split_and!; [|done|].
  - rewrite spec_row_perm. apply list_elem_of_lookup. exists i. by apply lookup_zip_Some.
  - intros [w' p']. rewrite spec_row_perm. intros (j & [Hj _]%lookup_zip_Some)%list_elem_of_lookup. simpl in *. eauto.
Qed.

(** The master version and its record outlive the appends. *)
Lemma appends_keep_master s s1 v v1 ps m r0 d0 : pending_versions s s1 v v1 ps → master_ v = Some m →
  versions (heap s) !! m = Some (mkVersion (Some r0) STABLE d0) → collectable (heap s) (master_ v :: row_stale s v) →
  versions (heap s1) !! m = Some (mkVersion (Some r0) STABLE d0) ∧ (Some m ∉ ps) ∧ r0 ∈ records (heap s1).
Proof.
  intros Hpend Hmaster Hm Hcol.
  pose proof (collectable_cons_inv _ _ _ Hcol) as (m1 & r' & _ & Hm' & _ & _ & _ & Hms & _ & _).
  rewrite Hmaster in Hm', Hms. injection Hm' as <-.
  assert (versions (heap s1) !! m = Some (mkVersion (Some r0) STABLE d0)) as Hm1 by (rewrite (pend_keep _ _ _ _ _ Hpend); eauto).
  split_and!; [done| |].
  - intros (q & [= <-] & Hq)%(pend_status _ _ _ _ _ Hpend). congruence.
  - destruct (collectable_cons_inv _ _ _ (pend_collectable _ _ _ _ _ Hpend [master_ v] Hcol)) as (m1 & r1 & _ & Hm' & _ & _ & _ & _ & [d' Hd'] & Hr').
    rewrite Hmaster in Hm'. injection Hm' as <-. congruence.
Qed.

(** C25: A reader sees the latest write before it.  The appends of the
    initialization phase (each core its own transactions in serial order, at
    most 63 of them to the row, in any interleaving) are followed by an
    execution phase in which any of the writers have installed their
    records, in any order.  A reader of the epoch then gets the record that
    the writer with the largest serial id below its own has installed, spins
    if that writer has not executed yet, whichever others have, and gets the
    record of the row's master version when no writer precedes it; the
    records are all different. *)
Theorem serval_read_visible (find : Z → Z → option loc) (table_id key epoch : Z) (l : loc) (s : state)
    (v : Value) (ops : list (tx * bool)) (t : tx) (m r0 : loc) (d0 : bool) (executed : list nat)
    (Hfind : find table_id key = Some l) (Hrow : fresh_row s l v epoch)
    (Hmaster : master_ v = Some m) (Hm : versions (heap s) !! m = Some (mkVersion (Some r0) STABLE d0))
    (Hcol : collectable (heap s) (master_ v :: row_stale s v))
    (Hops : disciplined epoch ops) (Hne : ops ≠ []) (Hepoch : tx_epoch_ t = epoch)
    (Hserial : 0 ≤ serial_id_ t < 4096) (Hcore : core_ t = get_core_serial (serial_id_ t))
    (Hexec : NoDup executed) (Hin : ∀ i, i ∈ executed → (i < length ops)%nat) :
  ∃ ps s1 rs s2, run_appends l ops s = Ok (ps, s1) ∧ run_upserts ((ps !!!.) <$> executed) s1 = Ok (rs, s2) ∧
    length rs = length executed ∧ NoDup (Some r0 :: rs) ∧
    (∀ i j r, latest_writer ops (serial_id_ t) i → executed !! j = Some i → rs !! j = Some r →
       read find t s2 table_id key = Ok (Got r)) ∧
    (∀ i, latest_writer ops (serial_id_ t) i → i ∉ executed → read find t s2 table_id key = Ok Spin) ∧
    ((∀ w, w ∈ serials ops → serial_id_ t ≤ w) → read find t s2 table_id key = Ok (Got (Some r0))).
Proof.
  destruct (run_appends_fresh epoch l ops s v Hrow Hops) as (ps & s1 & v1 & Hrun & Hlen & Hl1 & Hok1 & He1 & Hm1 & HE1 & Hpend).
  pose proof (disciplined_serials _ _ Hops) as Hnd.
  assert ((row_entries s1 v1).*2 ≡ₚ ps) as Hps.
  { rewrite HE1, spec_row_perm. rewrite snd_zip; [done|]. unfold serials. rewrite length_fmap. lia. }
  assert (∀ i, i ∈ executed → ps !! i = Some (ps !!! i)) as Hlook by (intros i Hi; apply list_lookup_lookup_total_lt; rewrite Hlen; auto).
  assert (∀ p, p ∈ (ps !!!.) <$> executed → p ∈ ps) as Hsub.
  { intros p (i & -> & Hi)%list_elem_of_fmap_1. by eapply list_elem_of_lookup_2, Hlook. }
  destruct (run_upserts_spec ((ps !!!.) <$> executed) s1) as (rs & s2 & Hups & Hu & Hinst & Hndr & Hnew).
  { apply NoDup_fmap_2_strong; [|done]. intros i j Hi Hj Heq. eapply (NoDup_lookup ps); [apply Hpend|by apply Hlook|]. rewrite Heq. by apply Hlook. }
  { intros p Hp. destruct (pend_status _ _ _ _ _ Hpend p (Hsub p Hp)) as (q & -> & Hq). eauto. }
  assert (length rs = length executed) as Hlrs by (apply Forall2_length in Hinst; by rewrite length_fmap in Hinst).
  destruct (appends_keep_master _ _ _ _ _ _ _ _ Hpend Hmaster Hm Hcol) as (Hm1' & Hmps & Hr1).
  pose proof (upserted_row_ok _ _ _ v1 Hu ltac:(intros p Hp; rewrite Hps; auto) Hok1) as Hok2.
  destruct (upserted_entries _ _ _ v1 Hu) as [HE2 _].
  assert (read find t s2 table_id key = match latest_below (serial_id_ t) (row_entries s2 v1) with
    Some (_, p) => read_version s2 p | None => execute_read s2 (master_ v1) end) as Hread.
  { apply read_spec with (l := l); try done; [by rewrite (ups_values _ _ _ Hu)|congruence|]. unfold dirty. rewrite HE2. intros Hnil.
    rewrite Hnil in Hps. apply Permutation_nil in Hps as ->. by destruct ops. }
  rewrite HE2, HE1 in Hread.
  exists ps, s1, rs, s2. split_and!; try done.
  - apply NoDup_cons. split; [|done]. by intros (q & [= <-] & Hq)%Hnew.
  - intros i j r Hw Hj Hrj. assert (i ∈ executed) as Hi by by eapply list_elem_of_lookup_2.
    destruct (latest_writer_below ops ps _ i _ Hlen (Hlook i Hi) Hw Hnd) as [w ->] in Hread. rewrite Hread.
    assert (installed s2 (ps !!! i) r) as (q & d' & -> & Hq).
    { eapply (Forall2_lookup_lr _ _ _ j _ _ Hinst); [|done]. by rewrite list_lookup_fmap, Hj. }
    unfold read_version, load_version. simpl. by rewrite Hq.
  - intros i Hw Hni. assert (is_Some (ps !! i)) as [p Hp].
    { destruct Hw as (w & Hw & _). apply lookup_lt_Some in Hw. unfold serials in Hw. rewrite length_fmap in Hw. apply lookup_lt_is_Some. lia. }
    destruct (latest_writer_below ops ps _ i p Hlen Hp Hw Hnd) as [w Hlb]. rewrite Hread, Hlb.
    destruct (pend_status _ _ _ _ _ Hpend p) as (q & -> & Hq); [by eapply list_elem_of_lookup_2|].
    unfold read_version, load_version. simpl. rewrite (ups_keep _ _ _ Hu), Hq; [done|]. intros (j & Heq & Hj)%list_elem_of_fmap_1.
    apply Hni. rewrite (NoDup_lookup ps i j (Some q)); [done|apply Hpend|done|]. rewrite Heq. by apply Hlook.
  - intros Hall. assert (latest_below (serial_id_ t) (spec_row (zip (serials ops) ps)) = None) as Hlb.
    { apply latest_below_None. intros [w p]. rewrite spec_row_perm. intros Hp. apply Hall. by eapply elem_of_zip_l. }
    rewrite Hread, Hlb, Hm1, Hmaster. unfold execute_read, load_version. simpl. rewrite (ups_keep _ _ _ Hu), Hm1'; [done|]. by intros ?%Hsub.
Qed.

(** The first transaction of an epoch to reach a row makes the last
    version of the previous epoch the row's master, frees the old master
    exactly once, and starts the epoch's versions with its own. *)
Theorem serval_new_epoch (got_lock : bool) (t : tx) (s : state) (l : loc) (v : Value)
    (E : list (Z * Ptr)) (id : Z) (p : loc)
    (Hl : values s !! l = Some v) (Hok : row_ok s v) (Hctl : controller_ok s v)
    (Hepoch : epoch_ v < tx_epoch_ t) (HE : row_entries s v = E ++ [(id, Some p)])
    (Hcol : collectable (heap s) (master_ v :: Some p :: E.*2 ++ row_stale s v))
    (Hserial : 0 ≤ serial_id_ t < 4096) (Hcore : core_ t = get_core_serial (serial_id_ t)) :
  (∃ s1 v1, initialize_the_row t s l = Ok s1 ∧ initialized t l s s1 v v1 p) ∧
  ∃ q s' v', do_append_pending_version t got_lock s l None = Ok (Some q, s') ∧
    values s' = <[l := v']> (values s) ∧ row_ok s' v' ∧ controller_ok s' v' ∧
    epoch_ v' = tx_epoch_ t ∧ master_ v' = Some p ∧ row_entries s' v' = [(serial_id_ t, Some q)].
Proof.
  split; [by eapply initialize_spec|by eapply first_append_spec].
Qed.
End serval_properties.

(** ** A concrete run *)
Section serval_example.
Import Serval.

(** One row in epoch 1, its master version at 1. *)
Definition row1 : Value := mkValue 1 (Some 1%positive) (GlobalVersionArray.mk []) None.
Definition state1 : state :=
  mkState (mkMem {[1%positive := mkVersion (Some 1%positive) STABLE false]} {[1%positive]})
    {[1%positive := row1]} (RowRegionController.mk 0) [RowRegion.new].
Definition worker (epoch serial : Z) : tx := mkTx (get_core_serial serial) serial epoch ∅ ∅.

(** Core 1 runs transactions 65 and 70, core 0 runs 2; 2 loses the lock. *)
Definition ops1 : list (tx * bool) := [(worker 1 65, true); (worker 1 2, false); (worker 1 70, true)].
Definition ops2 : list (tx * bool) := [(worker 1 2, true); (worker 1 65, true); (worker 1 70, false)].

Lemma state1_fresh : fresh_row state1 1 row1 1.
Proof.
  split; [done|done| | |done].
  - apply empty_row_ok; [done|apply collectable_nil|done].
  - intros _. split; [by vm_compute|done].
Qed.

Lemma few_disciplined epoch ops : (length ops ≤ 63)%nat →
  (∀ o, o ∈ ops → tx_epoch_ o.1 = epoch ∧ 0 ≤ serial_id_ o.1 < 4096 ∧
    core_ o.1 = get_core_serial (serial_id_ o.1)) →
  StronglySorted (λ a b, a / 64 = b / 64 → a < b) (serials ops) → disciplined epoch ops.
Proof.
  intros Hlen Htx Hs. split; [done..|]. intros c.
  pose proof (length_filter (λ id, (id / 64)%Z = c) (serials ops)).
  unfold serials in *. rewrite length_fmap in *. lia.
Qed.

Ltac few := apply few_disciplined;
  [vm_compute; lia
  |intros o Ho; repeat (apply elem_of_cons in Ho as [->|Ho]; [done|]); by apply not_elem_of_nil in Ho
  |repeat constructor; done].

Lemma ops1_disciplined : disciplined 1 ops1.
Proof. few. Qed.

Lemma ops2_disciplined : disciplined 1 ops2.
Proof. few. Qed.

Lemma serval_append_schedule_witness :
  ∃ ps s' v', run_appends 1 ops1 state1 = Ok (ps, s') ∧ length ps = 3%nat ∧
    values s' !! 1%positive = Some v' ∧ row_entries s' v' = spec_row (zip [65; 2; 70] ps) ∧
    ∀ ops, disciplined 1 ops → serials ops ≡ₚ [65; 2; 70] →
      ∃ ps2 s2 v2, run_appends 1 ops state1 = Ok (ps2, s2) ∧ values s2 !! 1%positive = Some v2 ∧
        (row_entries s2 v2).*1 = (row_entries s' v').*1.
Proof. exact (serval_append_schedule 1 1 state1 row1 ops1 state1_fresh ops1_disciplined). Defined.

Lemma ops2_latest : latest_writer ops2 66 1.
Proof.
  exists 65. split_and!; [done|done|]. change (serials ops2) with [2; 65; 70]. intros j w' Hj%list_elem_of_lookup_2 Hlt.
  apply elem_of_cons in Hj as [->|[->|[->|H%not_elem_of_nil]%elem_of_cons]%elem_of_cons]; done || lia.
Qed.

(** Transactions 70 and 65 have executed, 2 has not: 66 reads what 65 wrote,
    5 would wait for 2. *)
Lemma serval_read_visible_witness :
  ∃ ps s1 rs s2 r70 r65, run_appends 1 ops2 state1 = Ok (ps, s1) ∧ run_upserts ((ps !!!.) <$> [2; 1]%nat) s1 = Ok (rs, s2) ∧
    rs = [r70; r65] ∧ r70 ≠ r65 ∧ read (λ _ _, Some 1%positive) (worker 1 66) s2 0 0 = Ok (Got r65).
Proof.
  destruct (serval_read_visible (λ _ _, Some 1%positive) 0 0 1 1 state1 row1 ops2 (worker 1 66) 1 1 false [2; 1]%nat)
    as (ps & s1 & rs & s2 & Hrun & Hups & Hlen & Hnd & Hgot & _); [done|apply state1_fresh|done|done| |apply ops2_disciplined|done..| | |].
  { exists [(1, 1)]%positive. split_and!; [done|by apply (bool_decide_unpack _)..|]. intros l r [[= -> ->]|H%not_elem_of_nil]%elem_of_cons; [|done].
    split; [by exists false|by vm_compute]. }
  { repeat constructor; set_solver. }
  { intros i [->|[->|H%not_elem_of_nil]%elem_of_cons]%elem_of_cons; [simpl; lia..|done]. }
  destruct rs as [|r70 [|r65 [|]]]; [done| | |done]; [done|].
  exists ps, s1, [r70; r65], s2, r70, r65. split_and!; [done..| |].
  - apply NoDup_cons in Hnd as [_ [Hni _]%NoDup_cons]. intros ->. apply Hni, list_elem_of_here.
  - by apply (Hgot 1%nat 1%nat); [apply ops2_latest|..].
Defined.

(** The same row at the end of the epoch: transaction 65 wrote version 2. *)
Definition row2 : Value :=
  mkValue 1 (Some 1%positive) (GlobalVersionArray.mk [(65, Some 2%positive)]) None.
Definition state2 : state :=
  mkState (mkMem (<[1%positive := mkVersion (Some 1%positive) STABLE false]>
                 {[2%positive := mkVersion (Some 2%positive) STABLE false]}) {[1%positive; 2%positive]})
    {[1%positive := row2]} (RowRegionController.mk 0) [RowRegion.new].

Lemma state2_collectable : collectable (heap state2) [Some 1%positive; Some 2%positive].
Proof.
  exists [(1, 1); (2, 2)]%positive. split_and!; [done|by apply (bool_decide_unpack _)..|].
  intros l r [[= -> ->]|[[= -> ->]|H%not_elem_of_nil]%elem_of_cons]%elem_of_cons; [..|done];
    (split; [exists false; reflexivity|by vm_compute]).
Qed.

Lemma state2_ok : row_ok state2 row2.
Proof.
  split.
  - intros e [->|H%not_elem_of_nil]%elem_of_cons; done.
  - repeat constructor.
  - intros c. unfold of_core. rewrite length_filter. vm_compute. lia.
  - done.
  - apply collectable_nil.
  - intros e [->|H%not_elem_of_nil]%elem_of_cons; [|done]. exists 2%positive.
    split_and!; [done|by vm_compute; eauto|apply not_elem_of_nil].
Qed.

Lemma serval_new_epoch_witness :
  (∃ s1 v1, initialize_the_row (worker 2 7) state2 1 = Ok s1 ∧
     initialized (worker 2 7) 1 state2 s1 row2 v1 2) ∧
  ∃ q s' v', do_append_pending_version (worker 2 7) false state2 1 None = Ok (Some q, s') ∧
    values s' = <[1%positive := v']> (values state2) ∧ row_ok s' v' ∧ controller_ok s' v' ∧
    epoch_ v' = 2 ∧ master_ v' = Some 2%positive ∧ row_entries s' v' = [(7, Some q)].
Proof.
  apply (serval_new_epoch false (worker 2 7) state2 1 row2 [] 65 2);
    [done|apply state2_ok|intros _; split; [by vm_compute|done]|done|done|apply state2_collectable|done..].
Defined.
End serval_example.
