(* ===== verification/ServalRc.v ===== *)
(** * protocols/serval_rc/include: Serval with reference-counted versions

    A row records in bitmaps which transactions of the epoch write it, and
    allocates a version only for a write that some transaction reads: in the
    read phase a reader gets the placeholder of the last writer before it.
    Every member function of [WriteBitmap] runs under the row's lock, so a
    call is one step of the row. *)
From S2P Require Import Prelude Bitmap Versions RowRegion.

(** ** WriteBitmap *)
Module WriteBitmap.

Record t := mk {
  ref_cnt_ : Z;
  core_bitmap_ : Z;
  master_ : Ptr;
  tx_bitmaps_ : list Z;
  placeholders_ : list (Z * Ptr)
}.

Definition get_serial_id (core tx : Z) : Z := u64 (core * 64 + tx).

Definition count_prefix_sum (w : t) (core : Z) : Z :=
  count_bits (Z.land (core_bitmap_ w) (fill_the_left_side_until_before_the_given_position core)).

Definition set_bitmaps (w : t) (core_bitmap : Z) (tx_bitmaps : list Z) : t :=
  mk (ref_cnt_ w) core_bitmap (master_ w) tx_bitmaps (placeholders_ w).
Definition clear_bitmaps (w : t) : t := set_bitmaps w 0 [].

Definition update_tx_bitmap (w : t) (pos tx : Z) : outcome t :=
  _ ← assert_ (pos <? Z.of_nat (length (tx_bitmaps_ w)));
  bm ← deref (tx_bitmaps_ w !! Z.to_nat pos);
  bm ← set_bit_in bm tx;
  Ok (set_bitmaps w (core_bitmap_ w) (<[Z.to_nat pos := bm]> (tx_bitmaps_ w))).

Definition insert_tx_bitmap (w : t) (insert_pos tx : Z) : t :=
  set_bitmaps w (core_bitmap_ w)
    (vector_insert (Z.to_nat insert_pos) (set_bit_at_the_given_location tx) (tx_bitmaps_ w)).

Definition update_core_bitmap (w : t) (core : Z) : outcome t :=
  bm ← set_bit_in (core_bitmap_ w) core;
  Ok (set_bitmaps w bm (tx_bitmaps_ w)).

(** Write phase. *)
Definition update_bitmap (w : t) (core txid : Z) : outcome t :=
  let insert_pos := count_prefix_sum w core in
  if is_bit_set_at_the_position (core_bitmap_ w) core then update_tx_bitmap w insert_pos txid
  else update_core_bitmap (insert_tx_bitmap w insert_pos txid) core.

(** Read phase. *)
Definition tx_bitmap (w : t) (pos : Z) : outcome Z := deref (tx_bitmaps_ w !! Z.to_nat pos).

Definition identify_visible_version_in_placeholders (w : t) (core tx : Z) : outcome (bool * Z * Z) :=
  '(second_core, first_core) ← find_the_two_largest_among_or_less_than (core_bitmap_ w) core;
  if first_core =? -1 then
    _ ← assert_ ((first_core =? -1) && (second_core =? -1));
    Ok (false, 0, 0)
  else
    let first_core_pos := count_prefix_sum w first_core in
    _ ← assert_ (first_core_pos <? Z.of_nat (length (tx_bitmaps_ w)));
    if first_core =? core then
      bm ← tx_bitmap w first_core_pos;
      first_tx ← find_the_largest_among_less_than bm tx;
      if negb (first_tx =? -1) then Ok (true, first_core, first_tx)
      else if negb (second_core =? -1) then
        let second_core_pos := count_prefix_sum w second_core in
        _ ← assert_ (second_core_pos <? first_core_pos);
        bm ← tx_bitmap w second_core_pos;
        t ← find_the_largest bm;
        Ok (true, second_core, t)
      else Ok (false, 0, 0)
    else
      _ ← assert_ ((0 <=? first_core) && (first_core <? core));
      bm ← tx_bitmap w first_core_pos;
      t ← find_the_largest bm;
      Ok (true, first_core, t).

Definition find_placeholder (w : t) (id : Z) : option (Z * Ptr) :=
  std_find_if (λ p, p.1 =? id) (placeholders_ w).

Definition do_append_pending_version (m : mem) (w : t) (core tx : Z) : outcome (Ptr * mem * t) :=
  '(is_found, first_core, first_tx) ←
    (if core_bitmap_ w =? 0 then Ok (false, 0, 0) else identify_visible_version_in_placeholders w core tx);
  if (is_found : bool) then
    let visible_id := get_serial_id first_core first_tx in
    match find_placeholder w visible_id with
    | Some (_, v) => Ok (v, m, w)
    | None =>
        let '(v, m) := create_pending_version m in
        Ok (v, m, mk (ref_cnt_ w) (core_bitmap_ w) (master_ w) (tx_bitmaps_ w)
                     (insert_ascending visible_id v (placeholders_ w)))
    end
  else Ok (master_ w, m, w).

Definition set_ref_cnt (w : t) (n : Z) : t :=
  mk n (core_bitmap_ w) (master_ w) (tx_bitmaps_ w) (placeholders_ w).

Definition append_pending_version (m : mem) (w : t) (core tx : Z) : outcome (Ptr * mem * t) :=
  do_append_pending_version m (set_ref_cnt w (u64 (ref_cnt_ w + 1))) core tx.

(** Execution phase. *)
Definition gc_master (m : mem) (w : t) : outcome mem :=
  _ ← assert_ (bool_decide (is_Some (master_ w)));
  ver ← load_version m (master_ w);
  _ ← assert_ (bool_decide (status ver = STABLE));
  m ← delete_record m (rec ver);
  delete_version m (master_ w).

Definition set_master (w : t) (v : Ptr) : t :=
  mk (ref_cnt_ w) (core_bitmap_ w) v (tx_bitmaps_ w) (placeholders_ w).

Definition gc_and_update_master (m : mem) (w : t) : outcome (mem * t) :=
  match last (placeholders_ w) with
  | None => Ok (m, clear_bitmaps w)
  | Some (_, v) =>
      m ← gc_master m w;
      Ok (m, clear_bitmaps (mk (ref_cnt_ w) (core_bitmap_ w) v (tx_bitmaps_ w) []))
  end.

Definition decrement_ref_cnt (m : mem) (w : t) : outcome (mem * t) :=
  let w := set_ref_cnt w (u64 (ref_cnt_ w - 1)) in
  if ref_cnt_ w =? 0 then gc_and_update_master m w else Ok (m, w).

Definition is_final_state (w : t) (core tx : Z) : outcome (bool * t) :=
  if core_bitmap_ w =? 0 then Ok (false, w) else
  last_core ← find_the_largest (core_bitmap_ w);
  is_final ←
    (if last_core =? core then
       bm ← deref (last (tx_bitmaps_ w));
       last_tx ← find_the_largest bm;
       Ok (last_tx =? tx)
     else Ok false);
  Ok (is_final, clear_bitmaps w).

Definition identify_write_version (m : mem) (w : t) (core tx : Z) : outcome (Ptr * mem * t) :=
  if negb (ref_cnt_ w =? 0) then
    match find_placeholder w (get_serial_id core tx) with
    | Some (_, v) => Ok (v, m, w)
    | None => Ok (None, m, w)
    end
  else
    _ ← assert_ (bool_decide (placeholders_ w = []));
    '(is_final, w) ← is_final_state w core tx;
    if (is_final : bool) then
      m ← gc_master m w;
      let '(v, m) := create_pending_version m in
      Ok (v, m, set_master w v)
    else Ok (None, m, w).

End WriteBitmap.

(** ** The protocol object *)
Module ServalRc.

Record state := mkState { heap : mem; values : gmap loc WriteBitmap.t }.
Record tx := mkTx { core_ : Z; serial_id_ : Z; tables : gset Z; ws : gmap Z (list Z) }.

Definition get_tx_serial (serial_id : Z) : Z := serial_id mod 64.
Definition value_at (s : state) (l : loc) : outcome WriteBitmap.t := deref (values s !! l).

(** The two phases differ in the call on the row: [on_row] is it. *)
Section with_index.
Variable find : Z → Z → option loc.

Definition visit {A} (on_row : state → loc → outcome (A * state)) (t : tx) (s : state)
    (table_id key : Z) (out : A * option loc) : outcome (A * option loc * tx * state) :=
  let w_table := default [] (ws t !! table_id) in
  let tables' := {[table_id]} ∪ tables t in
  if bool_decide (key ∈ w_table) then
    Ok (out, mkTx (core_ t) (serial_id_ t) tables' (<[table_id := w_table]> (ws t)), s)
  else
    match find table_id key with
    | None => Stuck
    | Some l =>
        '(a, s) ← on_row s l;
        Ok ((a, Some l), mkTx (core_ t) (serial_id_ t) tables' (<[table_id := w_table ++ [key]]> (ws t)), s)
    end.

Definition update_write_bitmaps (t : tx) (s : state) (table_id key : Z) (w_bitmap : option loc) :=
  visit (λ s l,
    w ← value_at s l;
    w ← WriteBitmap.update_bitmap w (core_ t) (get_tx_serial (serial_id_ t));
    Ok ((), mkState (heap s) (<[l := w]> (values s)))) t s table_id key ((), w_bitmap).

Definition append_pending_version (t : tx) (s : state) (table_id key : Z) (pending : Ptr) (w_bitmap : option loc) :=
  visit (λ s l,
    w ← value_at s l;
    '(p, m, w) ← WriteBitmap.append_pending_version (heap s) w (core_ t) (get_tx_serial (serial_id_ t));
    _ ← assert_ (bool_decide (is_Some p));
    Ok (p, mkState m (<[l := w]> (values s)))) t s table_id key (pending, w_bitmap).
End with_index.

Definition terminate_transaction (t : tx) : tx :=
  mkTx (core_ t) (serial_id_ t) ∅ (set_fold (λ table_id w, <[table_id := []]> w) (ws t) (tables t)).

(** The result of a read: the record, or the spin on a pending version. *)
Inductive read_result := Got (r : Ptr) | Spin.

Definition read (s : state) (pending : Ptr) (w_bitmap : loc) : outcome (read_result * state) :=
  _ ← assert_ (bool_decide (is_Some pending));
  v ← load_version (heap s) pending;
  if bool_decide (status v = PENDING) then Ok (Spin, s) else
  w ← value_at s w_bitmap;
  '(m, w) ← WriteBitmap.decrement_ref_cnt (heap s) w;
  Ok (Got (rec v), mkState m (<[w_bitmap := w]> (values s))).

Definition upsert (t : tx) (s : state) (w_bitmap : loc) : outcome (Ptr * state) :=
  w ← value_at s w_bitmap;
  '(pending, m, w) ← WriteBitmap.identify_write_version (heap s) w (core_ t) (get_tx_serial (serial_id_ t));
  let s := mkState m (<[w_bitmap := w]> (values s)) in
  match pending with
  | None => Ok (None, s)
  | Some _ => '(r, m) ← install_record (heap s) pending; Ok (r, mkState m (values s))
  end.

Definition write (t : tx) (s : state) (w_bitmap : loc) : outcome (Ptr * state) := upsert t s w_bitmap.
End ServalRc.

(** ** The writers of a row *)
Section write_bitmap.
Import WriteBitmap.

Abbreviation cores w := (positions (core_bitmap_ w)).

(** The rank of a core among the cores that write. *)
Definition rank (P : list Z) (c : Z) : nat := length (filter (λ p, p < c) P).

(** The transactions of a core that write the row. *)
Definition bitmap_of (w : t) (c : Z) : Z := default 0 (tx_bitmaps_ w !! rank (cores w) c).

(** The serial ids of the writers, in ascending order. *)
Definition writers (w : t) : list Z :=
  cores w ≫= λ c, (λ tx, c * 64 + tx) <$> positions (bitmap_of w c).

Record bitmaps_ok (w : t) : Prop := {
  bmp_core : word64 (core_bitmap_ w);
  bmp_length : length (tx_bitmaps_ w) = length (cores w);
  bmp_tx : ∀ bm, bm ∈ tx_bitmaps_ w → word64 bm ∧ bm ≠ 0
}.

Lemma rank_lookup (P : list Z) k c : StronglySorted Z.lt P → P !! k = Some c → rank P c = k.
Proof.
  intros Hs. revert k. induction Hs as [|x P Hs IH Hall]; intros k Hk; [done|]. rewrite Forall_forall in Hall.
  unfold rank in *. destruct k as [|k]; simpl in Hk.
  - injection Hk as <-. rewrite filter_cons_False by lia. rewrite filter_none; [done|].
    intros y Hy. specialize (Hall y Hy). lia.
  - assert (x < c) by (apply Hall, list_elem_of_lookup; eauto).
    rewrite filter_cons_True by done. simpl. f_equal. by apply IH.
Qed.

Lemma prefix_sum_rank w c : 0 ≤ c < 64 → count_prefix_sum w c = Z.of_nat (rank (cores w) c).
Proof.
  intros Hc. unfold count_prefix_sum, count_bits.
  by rewrite (count_masked _ _ (λ p, p < c)) by by apply fill_before_mask.
Qed.

Lemma rank_of_core w c : c ∈ cores w → cores w !! rank (cores w) c = Some c.
Proof.
  intros [k Hk]%list_elem_of_lookup. by rewrite (rank_lookup _ k c (positions_sorted _) Hk).
Qed.

Lemma rank_lt w c : bitmaps_ok w → c ∈ cores w → (rank (cores w) c < length (tx_bitmaps_ w))%nat.
Proof. intros Hok Hc. rewrite (bmp_length w Hok). by eapply lookup_lt_Some, rank_of_core. Qed.

Lemma core_range w c : c ∈ cores w → 0 ≤ c < 64.
Proof. by intros [_ ?]%elem_of_positions. Qed.

(** The bitmap of a core, through its rank in the vector. *)
Lemma tx_bitmap_of w c : bitmaps_ok w → c ∈ cores w →
  tx_bitmap w (count_prefix_sum w c) = Ok (bitmap_of w c) ∧
  tx_bitmaps_ w !! rank (cores w) c = Some (bitmap_of w c) ∧
  word64 (bitmap_of w c) ∧ bitmap_of w c ≠ 0.
Proof.
  intros Hok Hc. destruct (lookup_lt_is_Some_2 _ _ (rank_lt w c Hok Hc)) as [bm Hbm].
  unfold tx_bitmap, bitmap_of. rewrite prefix_sum_rank, Nat2Z.id by by eapply core_range.
  rewrite Hbm. simpl. split_and!; [done..| |]; apply (bmp_tx w Hok); by eapply list_elem_of_lookup_2.
Qed.

(** The bitmaps as a row region, to share the region's two-level search. *)
Definition as_region (w : t) : RowRegion.t :=
  RowRegion.mk (core_bitmap_ w)
    ((λ c, let bm := if decide (c ∈ cores w) then bitmap_of w c else 0 in
           PerCoreVersionArray.mk bm (replicate (length (positions bm)) None)) <$> seqZ 0 64).

Lemma as_region_array w c : c ∈ cores w →
  RowRegion.arrays_ (as_region w) !! Z.to_nat c =
    Some (PerCoreVersionArray.mk (bitmap_of w c) (replicate (length (positions (bitmap_of w c))) None)).
Proof.
  intros Hc. pose proof (core_range w c Hc). unfold as_region. cbn [RowRegion.arrays_]. rewrite list_lookup_fmap.
  assert (seqZ 0 64 !! Z.to_nat c = Some c) as -> by (apply lookup_seqZ; lia).
  simpl. by rewrite decide_True.
Qed.

Lemma as_region_ok w : bitmaps_ok w → region_ok (as_region w).
Proof.
  intros Hok. split; [apply Hok|unfold as_region; cbn [RowRegion.arrays_]; by rewrite length_fmap|]. intros c Hc.
  destruct (tx_bitmap_of w c Hok Hc) as (_ & _ & Hw & Hnz).
  eexists. split; [by apply as_region_array|]. split; [|done]. split; [done|]. simpl. by rewrite length_replicate.
Qed.

Lemma as_region_ids w : (region_entries (as_region w)).*1 = writers w.
Proof.
  unfold region_entries, writers. simpl.
  assert (∀ L, (∀ c, c ∈ L → c ∈ cores w) →
    (L ≫= λ c, (λ e, (c * 64 + e.1, e.2)) <$> core_entries (as_region w) c).*1 =
    L ≫= λ c, (λ tx, c * 64 + tx) <$> positions (bitmap_of w c)) as Hgen; [|by apply Hgen].
  induction L as [|c L IH]; intros HL; [done|]. rewrite !bind_cons, fmap_app, IH by set_solver. f_equal.
  unfold core_entries. rewrite as_region_array by (apply HL; set_solver). unfold pca_entries. simpl.
  generalize (positions (bitmap_of w c)). intros P. induction P as [|x P IHP]; [done|]. csimpl. by rewrite IHP.
Qed.

Lemma writers_sorted w : bitmaps_ok w → StronglySorted Z.lt (writers w).
Proof. intros Hok. rewrite <- as_region_ids. by apply region_entries_ascending, as_region_ok. Qed.

Lemma elem_of_writers w id : id ∈ writers w ↔
  ∃ c tx, c ∈ cores w ∧ tx ∈ positions (bitmap_of w c) ∧ id = c * 64 + tx.
Proof.
  unfold writers. rewrite list_elem_of_bind. setoid_rewrite list_elem_of_fmap. naive_solver.
Qed.

Lemma rank_le (P : list Z) c c' : c ≤ c' → (rank P c ≤ rank P c')%nat.
Proof.
  intros Hle. induction P as [|x P IH]; [done|]. unfold rank in *. rewrite !filter_cons.
  repeat case_decide; simpl; lia.
Qed.

Lemma rank_strict (P : list Z) c c' : c ∈ P → c < c' → (rank P c < rank P c')%nat.
Proof.
  intros Hin Hlt. induction P as [|x P IH]; [by apply not_elem_of_nil in Hin|].
  pose proof (rank_le P c c' ltac:(lia)) as Hle. unfold rank in *. rewrite !filter_cons.
  apply elem_of_cons in Hin as [->|Hin]; [|specialize (IH Hin)]; repeat case_decide; simpl; lia.
Qed.

(** The search through the ranks is the region's search. *)
Lemma identify_as_region w core tx : bitmaps_ok w → core_bitmap_ w ≠ 0 → 0 ≤ core < 64 →
  identify_visible_version_in_placeholders w core tx =
    RowRegion.identify_visible_version (as_region w) core tx.
Proof.
  intros Hok Hnz Hcore. unfold identify_visible_version_in_placeholders, RowRegion.identify_visible_version.
  change (RowRegion.core_bitmap_ (as_region w)) with (core_bitmap_ w).
  rewrite (find_two _ _ _ (bmp_core w Hok) Hnz Hcore eq_refl). rewrite !bind_ret.
  pose proof (two_cores (as_region w) core (as_region_ok w Hok)) as H2c. cbv zeta in H2c.
  change (RowRegion.core_bitmap_ (as_region w)) with (core_bitmap_ w) in H2c.
  destruct H2c as [(-> & -> & _)|(Hf & Hle & _ & H2)]; [done|]. revert Hf Hle H2.
  generalize (last_or_none (filter (λ p, p ≤ core) (cores w))).
  generalize (last_or_none (take (length (filter (λ p, p ≤ core) (cores w)) - 1) (filter (λ p, p ≤ core) (cores w)))).
  intros second first Hf Hle H2. pose proof (core_range w first Hf).
  destruct (Z.eqb_spec first (-1)); [lia|]. cbv zeta.
  destruct (tx_bitmap_of w first Hok Hf) as (Hb1 & _). pose proof (rank_lt w first Hok Hf).
  rewrite bind_assert by (rewrite prefix_sum_rank by done; lia).
  unfold RowRegion.array. rewrite Hb1, (as_region_array w first Hf). rewrite !bind_ret. cbn [deref].
  destruct (Z.eqb_spec first core) as [->|]; [|done]. rewrite !bind_ret.
  cbn [PerCoreVersionArray.transaction_bitmap_].
  destruct (find_the_largest_among_less_than _ _) as [first_tx| | |]; [|done..]. rewrite !bind_ret.
  destruct (negb (first_tx =? -1)); [done|].
  destruct H2 as [[-> _]|(Hs & Hlt & _)]; [done|]. pose proof (core_range w second Hs).
  destruct (Z.eqb_spec second (-1)); [lia|]. cbn [negb].
  destruct (tx_bitmap_of w second Hok Hs) as (Hb2 & _). pose proof (rank_strict (cores w) second core Hs Hlt).
  rewrite bind_assert by (rewrite !prefix_sum_rank by done; lia).
  rewrite Hb2, (as_region_array w second Hs). done.
Qed.

(** The last writer before transaction [tx] of [core], if any. *)
Definition last_writer (w : t) (core tx : Z) : option Z :=
  last (filter (λ id, id < core * 64 + tx) (writers w)).

Lemma latest_below_ids {A} k (E : list (Z * A)) :
  fst <$> latest_below k E = last (filter (λ id, id < k) E.*1).
Proof.
  unfold latest_below. rewrite <- fmap_last. f_equal. induction E as [|e E IH]; [done|].
  csimpl. rewrite !filter_cons. by case_decide; csimpl; rewrite IH.
Qed.

Lemma identify_spec w core tx : bitmaps_ok w → core_bitmap_ w ≠ 0 → 0 ≤ core < 64 → 0 ≤ tx < 64 →
  identify_visible_version_in_placeholders w core tx =
    Ok (match last_writer w core tx with Some id => (true, id / 64, id mod 64) | None => (false, 0, 0) end).
Proof.
  intros Hok Hnz Hc Htx. rewrite identify_as_region by done.
  rewrite identify_visible_spec by (done || by apply as_region_ok).
  unfold visible_ids, last_writer. rewrite <- as_region_ids, <- latest_below_ids.
  by destruct (latest_below _ _) as [[id v]|].
Qed.

Lemma writers_range w id : bitmaps_ok w → id ∈ writers w → 0 ≤ id < 4096.
Proof.
  intros Hok (c & tx & Hc & Htx & ->)%elem_of_writers. pose proof (core_range w c Hc).
  apply elem_of_positions in Htx as [_ ?]. lia.
Qed.

(** Cores other than the one updated keep their bitmap. *)
Lemma writers_update w w' core tx : bitmaps_ok w → 0 ≤ core < 64 → 0 ≤ tx < 64 →
  (∀ c, c ∈ cores w' ↔ c = core ∨ c ∈ cores w) →
  (∀ c, c ∈ cores w → c ≠ core → bitmap_of w' c = bitmap_of w c) →
  (∀ t, t ∈ positions (bitmap_of w' core) ↔ t = tx ∨ (core ∈ cores w ∧ t ∈ positions (bitmap_of w core))) →
  ∀ id, id ∈ writers w' ↔ id = core * 64 + tx ∨ id ∈ writers w.
Proof.
  intros Hok Hcore Htx Hcores Hsame Hupd id. rewrite !elem_of_writers. split.
  - intros (c & t & Hc & Ht & ->). destruct (decide (c = core)) as [->|Hne].
    + apply Hupd in Ht as [->|[? ?]]; [by left|]. right. eauto.
    + apply Hcores in Hc as [|Hc]; [done|]. rewrite Hsame in Ht by done. right. eauto.
  - intros [->|(c & t & Hc & Ht & ->)].
    + exists core, tx. split_and!; [apply Hcores; by left|apply Hupd; by left|done].
    + exists c, t. split_and!; [apply Hcores; by right| |done].
      destruct (decide (c = core)) as [->|Hne]; [apply Hupd; by right|by rewrite Hsame].
Qed.

Lemma set_bit_nonzero bm pos : word64 bm → 0 ≤ pos < 64 → Z.lor bm (set_bit_at_the_given_location pos) ≠ 0.
Proof.
  intros Hw Hpos Hz. assert (pos ∈ positions (Z.lor bm (set_bit_at_the_given_location pos))) as Hin
    by (apply positions_lor; [done|by left]).
  rewrite Hz in Hin. by apply not_elem_of_nil in Hin.
Qed.

Lemma set_bit_single pos : 0 ≤ pos < 64 →
  ∀ p, p ∈ positions (set_bit_at_the_given_location pos) ↔ p = pos.
Proof.
  intros Hpos p. rewrite <- (Z.lor_0_l (set_bit_at_the_given_location pos)), positions_lor by done.
  split; [intros [|Hin]; [done|by apply not_elem_of_nil in Hin]|by left].
Qed.

Lemma update_tx_bitmap_spec w core tx : bitmaps_ok w → core ∈ cores w → 0 ≤ tx < 64 →
  ∃ w', update_tx_bitmap w (count_prefix_sum w core) tx = Ok w' ∧ bitmaps_ok w' ∧
    (∀ id, id ∈ writers w' ↔ id = core * 64 + tx ∨ id ∈ writers w) ∧
    core_bitmap_ w' = core_bitmap_ w ∧ ref_cnt_ w' = ref_cnt_ w ∧ master_ w' = master_ w ∧
    placeholders_ w' = placeholders_ w.
Proof.
  intros Hok Hc Htx. pose proof (core_range w core Hc) as Hcr. destruct (tx_bitmap_of w core Hok Hc) as (_ & Hbm & Hw & Hnz).
  pose proof (rank_lt w core Hok Hc) as Hlt. unfold update_tx_bitmap. rewrite prefix_sum_rank by done.
  rewrite bind_assert by lia. rewrite Nat2Z.id, Hbm. cbn [deref]. rewrite bind_ret. unfold set_bit_in.
  rewrite bind_assert by lia. rewrite bind_ret. eexists. split; [done|].
  set (bm' := Z.lor _ _). set (w' := set_bitmaps _ _ _).
  assert (bitmap_of w' core = bm') as Hself.
  { unfold bitmap_of. simpl. by rewrite list_lookup_insert_eq. }
  split_and!; try done.
  - split; [apply Hok|simpl; rewrite length_insert; apply Hok|].
    intros bm (j & Hj)%list_elem_of_lookup. simpl in Hj.
    destruct (decide (j = rank (cores w) core)) as [->|Hne].
    + rewrite list_lookup_insert_eq in Hj by done. injection Hj as <-. split; [|by apply set_bit_nonzero].
      apply word_lor; [lia|done|apply set_bit_word; lia].
    + rewrite list_lookup_insert_ne in Hj by done. apply (bmp_tx w Hok). by eapply list_elem_of_lookup_2.
  - apply writers_update; try done.
    + intros c. simpl. split; [by right|]. intros [->|]; done.
    + intros c Hc' Hne. unfold bitmap_of. simpl. rewrite list_lookup_insert_ne; [done|].
      intros He. pose proof (rank_of_core w c Hc') as H1. pose proof (rank_of_core w core Hc) as H2. congruence.
    + intros t. rewrite Hself. unfold bm'. rewrite positions_lor by done. tauto.
Qed.

Lemma vector_insert_lookup {A} n (x : A) l i : (n ≤ length l)%nat →
  vector_insert n x l !! i = if decide (i < n)%nat then l !! i else if decide (i = n) then Some x else l !! pred i.
Proof.
  intros Hn. unfold vector_insert. repeat case_decide.
  - rewrite lookup_app_l by (rewrite length_take; lia). by rewrite lookup_take_lt.
  - subst. rewrite lookup_app_r by (rewrite length_take; lia). rewrite length_take.
    by replace (n - n `min` length l)%nat with 0%nat by lia.
  - rewrite lookup_app_r by (rewrite length_take; lia). rewrite length_take.
    replace (i - n `min` length l)%nat with (S (i - n - 1)) by lia. simpl. rewrite lookup_drop. f_equal. lia.
Qed.

Lemma insert_tx_bitmap_spec w core tx : bitmaps_ok w → 0 ≤ core < 64 → core ∉ cores w → 0 ≤ tx < 64 →
  ∃ w', update_core_bitmap (insert_tx_bitmap w (count_prefix_sum w core) tx) core = Ok w' ∧ bitmaps_ok w' ∧
    (∀ id, id ∈ writers w' ↔ id = core * 64 + tx ∨ id ∈ writers w) ∧
    core_bitmap_ w' ≠ 0 ∧ ref_cnt_ w' = ref_cnt_ w ∧ master_ w' = master_ w ∧ placeholders_ w' = placeholders_ w.
Proof.
  intros Hok Hcore Hni Htx. pose proof (bmp_core w Hok) as Hw.
  unfold update_core_bitmap, insert_tx_bitmap, set_bit_in. simpl. rewrite prefix_sum_rank, Nat2Z.id by done.
  rewrite bind_assert by lia. rewrite bind_ret. eexists. split; [done|]. set (w' := set_bitmaps _ _ _).
  set (n := rank (cores w) core).
  assert (∀ c, c ∈ cores w' ↔ c = core ∨ c ∈ cores w) as Hcores by (intros c; by apply positions_lor).
  assert (cores w' ≡ₚ core :: cores w) as HP.
  { apply NoDup_Permutation; [apply NoDup_filter, NoDup_seqZ|constructor; [done|apply NoDup_filter, NoDup_seqZ]|].
    intros c. by rewrite Hcores, elem_of_cons. }
  assert (∀ c, rank (cores w') c = (if decide (core < c)%Z then 1 else 0) + rank (cores w) c)%nat as Hrank.
  { intros c. unfold rank. rewrite HP, filter_cons. by case_decide. }
  assert (n ≤ length (tx_bitmaps_ w))%nat as Hn.
  { rewrite (bmp_length w Hok). unfold n, rank. apply length_filter. }
  assert (∀ c, bitmap_of w' c = default 0 (vector_insert n (set_bit_at_the_given_location tx) (tx_bitmaps_ w) !! rank (cores w') c))
    as Hof by done.
  split_and!; try done; [| |by apply set_bit_nonzero].
  - split; [apply word_lor; [lia|done|apply set_bit_word; lia]| |].
    + rewrite HP. cbn [tx_bitmaps_ w' set_bitmaps]. unfold vector_insert. rewrite length_app. simpl.
      rewrite length_take, length_drop, (bmp_length w Hok). rewrite (bmp_length w Hok) in Hn. lia.
    + simpl. intros bm Hbm. unfold vector_insert in Hbm. rewrite <- Permutation_middle, take_drop in Hbm.
      apply elem_of_cons in Hbm as [->|Hbm]; [|by apply (bmp_tx w Hok)].
      split; [apply set_bit_word; lia|]. intros Hz. pose proof (proj2 (set_bit_single tx Htx tx) eq_refl) as Hin.
      rewrite Hz in Hin. by apply not_elem_of_nil in Hin.
  - apply writers_update; try done.
    + intros c Hc Hne. rewrite Hof, Hrank. unfold bitmap_of. rewrite vector_insert_lookup by done.
      destruct (decide (core < c)).
      * pose proof (rank_le (cores w) core c ltac:(lia)) as Hr. fold n in Hr.
        rewrite decide_False by lia. rewrite decide_False by lia. done.
      * pose proof (rank_strict (cores w) c core Hc ltac:(lia)) as Hr. fold n in Hr. by rewrite decide_True by lia.
    + intros t. rewrite Hof, Hrank. rewrite (decide_False (P := (core < core)%Z)) by lia. rewrite vector_insert_lookup by done.
      rewrite decide_False by (fold n; lia). rewrite decide_True by done. simpl. rewrite set_bit_single by done.
      split; [by left|]. intros [|[? _]]; done.
Qed.

Lemma update_bitmap_spec w core tx : bitmaps_ok w → 0 ≤ core < 64 → 0 ≤ tx < 64 →
  ∃ w', update_bitmap w core tx = Ok w' ∧ bitmaps_ok w' ∧ core_bitmap_ w' ≠ 0 ∧
    (∀ id, id ∈ writers w' ↔ id = core * 64 + tx ∨ id ∈ writers w) ∧
    ref_cnt_ w' = ref_cnt_ w ∧ master_ w' = master_ w ∧ placeholders_ w' = placeholders_ w.
Proof.
  intros Hok Hcore Htx. unfold update_bitmap. rewrite is_bit_set_bit_at by (apply Hok || done).
  destruct (bit_at (core_bitmap_ w) core) eqn:Hb.
  - assert (core ∈ cores w) as Hc by by apply elem_of_positions.
    destruct (update_tx_bitmap_spec w core tx Hok Hc Htx) as (w' & -> & ? & ? & Hcb & ? & ? & ?).
    exists w'. split_and!; try done. rewrite Hcb. intros Hz. rewrite Hz in Hc. by apply not_elem_of_nil in Hc.
  - destruct (insert_tx_bitmap_spec w core tx) as (w' & -> & ? & ? & ? & ? & ? & ?); try done.
    + intros [Hb' _]%elem_of_positions. congruence.
    + exists w'. by split_and!.
Qed.
End write_bitmap.

(** ** The guarantees of the bitmaps *)
Section write_bitmap_properties.
Import WriteBitmap.

#[local] Abbreviation cores w := (positions (core_bitmap_ w)).

Definition empty_row (master : Ptr) : t := mk 0 0 master [] [].

Lemma empty_row_bitmaps master : bitmaps_ok (empty_row master).
Proof. split; [by vm_compute|done|]. intros bm Hbm. by apply not_elem_of_nil in Hbm. Qed.

(** The write phase: the transactions that write the row, in the order in
    which they reach it. *)
Fixpoint mark_all (w : t) (ops : list (Z * Z)) : outcome t :=
  match ops with
  | [] => Ok w
  | (core, tx) :: ops => w ← update_bitmap w core tx; mark_all w ops
  end.

Lemma mark_all_spec ops w : bitmaps_ok w → (∀ o, o ∈ ops → 0 ≤ o.1 < 64 ∧ 0 ≤ o.2 < 64) →
  ∃ w', mark_all w ops = Ok w' ∧ bitmaps_ok w' ∧
    ∀ id, id ∈ writers w' ↔ id ∈ writers w ∨ id ∈ (λ o, o.1 * 64 + o.2) <$> ops.
Proof.
  revert w. induction ops as [|[core tx] ops IH]; intros w Hok Hops.
  { exists w. split_and!; try done. set_solver. }
  destruct (Hops (core, tx)) as [Hc Ht]; [set_solver|].
  destruct (update_bitmap_spec w core tx Hok Hc Ht) as (w1 & Hu & Hok1 & _ & Hw1 & _).
  destruct (IH w1 Hok1) as (w' & Hm & Hok' & Hw'); [intros o Ho; apply Hops; set_solver|].
  exists w'. cbn [mark_all]. rewrite Hu. split_and!; try done. intros id. rewrite Hw', Hw1. csimpl. set_solver.
Qed.

(** C32: the write phase records exactly the transactions that write the
    row, in the order of their serial ids, whatever the order in which the
    cores reach it. *)
Theorem rc_write_phase (master : Ptr) (ops : list (Z * Z))
    (Hops : ∀ o, o ∈ ops → 0 ≤ o.1 < 64 ∧ 0 ≤ o.2 < 64) :
  ∃ w, mark_all (empty_row master) ops = Ok w ∧ StronglySorted Z.lt (writers w) ∧
    (∀ id, id ∈ writers w ↔ id ∈ (λ o, o.1 * 64 + o.2) <$> ops) ∧
    ∀ ops2 w2, ops2 ≡ₚ ops → mark_all (empty_row master) ops2 = Ok w2 → writers w2 = writers w.
Proof.
  destruct (mark_all_spec ops (empty_row master) (empty_row_bitmaps master) Hops) as (w & Hm & Hok & Hw).
  assert (∀ id, id ∈ writers w ↔ id ∈ (λ o, o.1 * 64 + o.2) <$> ops) as Hw'.
  { intros id. rewrite Hw. split; [intros [H|H]; [by apply not_elem_of_nil in H|done]|by right]. }
  exists w. split_and!; [done|by apply writers_sorted|done|]. intros ops2 w2 Hp Hm2.
  destruct (mark_all_spec ops2 (empty_row master) (empty_row_bitmaps master)) as (w2' & Hm2' & Hok2 & Hw2).
  { intros o. rewrite Hp. apply Hops. }
  rewrite Hm2 in Hm2'. injection Hm2' as <-. apply sorted_ext; [by apply writers_sorted..|].
  intros id. rewrite Hw2, Hw', Hp. split; [intros [H|H]; [by apply not_elem_of_nil in H|done]|by right].
Qed.

Lemma find_if_unique (l : list (Z * Ptr)) id p : ascending l → (id, p) ∈ l →
  std_find_if (λ e, e.1 =? id) l = Some (id, p).
Proof.
  induction l as [|e l IH]; intros Ha Hin; [by apply not_elem_of_nil in Hin|].
  apply ascending_cons in Ha as [Hlt Ha]. simpl. apply elem_of_cons in Hin as [<-|Hin]; [by rewrite Z.eqb_refl|].
  specialize (Hlt _ Hin). simpl in Hlt. destruct (Z.eqb_spec e.1 id); [lia|]. by apply IH.
Qed.

Lemma find_if_None (l : list (Z * Ptr)) id : std_find_if (λ e, e.1 =? id) l = None → id ∉ l.*1.
Proof.
  induction l as [|e l IH]; simpl; [intros _; apply not_elem_of_nil|].
  destruct (Z.eqb_spec e.1 id); [done|]. intros Hf. csimpl. apply not_elem_of_cons. split; [done|by apply IH].
Qed.

Lemma find_if_elem_of (l : list (Z * Ptr)) id e : std_find_if (λ e, e.1 =? id) l = Some e → e ∈ l ∧ e.1 = id.
Proof.
  induction l as [|x l IH]; simpl; [done|]. destruct (Z.eqb_spec x.1 id).
  - intros [= <-]. split; [left|done].
  - intros [? ?]%IH. split; [by right|done].
Qed.

(** A reader is handed the version of the last transaction before it
    that writes the row, shared with the other readers of that version, or
    the master version when there is none; and that transaction, when it
    executes, writes exactly this version. *)
Theorem rc_reader_gets_last_writer (m : mem) (w : t) (core tx : Z) (Hok : bitmaps_ok w)
    (Hasc : ascending (placeholders_ w)) (Hcnt : 0 ≤ ref_cnt_ w < UINT64_MAX)
    (Hcore : 0 ≤ core < 64) (Htx : 0 ≤ tx < 64) :
  ∃ p m' w', append_pending_version m w core tx = Ok (p, m', w') ∧ ref_cnt_ w' = ref_cnt_ w + 1 ∧
    bitmaps_ok w' ∧ writers w' = writers w ∧ ascending (placeholders_ w') ∧
    match last_writer w core tx with
    | None => p = master_ w ∧ placeholders_ w' = placeholders_ w
    | Some id =>
        id ∈ writers w ∧ id < core * 64 + tx ∧
        (∀ e, e ∈ placeholders_ w' ↔ e = (id, p) ∨ e ∈ placeholders_ w) ∧
        identify_write_version m' w' (id / 64) (id mod 64) = Ok (p, m', w')
    end.
Proof.
  unfold append_pending_version. rewrite wrap_small by (unfold UINT64_MAX in *; split; lia).
  set (w1 := set_ref_cnt w (ref_cnt_ w + 1)). assert (bitmaps_ok w1) as Hok1 by (destruct Hok; by split).
  assert (last_writer w1 core tx = last_writer w core tx) as Hlw by done.
  unfold do_append_pending_version.
  destruct (last_writer w core tx) as [id|] eqn:Hl.
  - assert (id ∈ writers w ∧ id < core * 64 + tx) as [Hin Hlt].
    { unfold last_writer in Hl. by apply last_Some_elem_of, list_elem_of_filter in Hl as [? ?]. }
    pose proof (writers_range w id Hok Hin) as Hrange.
    assert (core_bitmap_ w ≠ 0) as Hnz.
    { intros Hz. unfold writers in Hin. rewrite Hz in Hin. by apply not_elem_of_nil in Hin. }
    change (core_bitmap_ w1) with (core_bitmap_ w). destruct (Z.eqb_spec (core_bitmap_ w) 0); [done|].
    rewrite identify_spec by done. rewrite Hlw, bind_ret.
    assert (get_serial_id (id / 64) (id mod 64) = id) as Hser.
    { unfold get_serial_id. replace (id / 64 * 64 + id mod 64) with id by (pose proof (Z.div_mod id 64); lia).
      apply wrap_small. split; lia. }
    rewrite Hser. destruct (find_placeholder w1 id) as [[id' p]|] eqn:Hf.
    + apply find_if_elem_of in Hf as Hf'. destruct Hf' as [Hpin Heq]. simpl in Heq. subst id'.
      exists p, m, w1. split; [done|]. split_and!; try done.
      * intros e. split; [by right|]. intros [->|]; done.
      * unfold identify_write_version. simpl ref_cnt_. destruct (Z.eqb_spec (ref_cnt_ w + 1) 0); [lia|]. simpl negb.
        cbv iota. by rewrite Hser, Hf.
    + destruct (create_pending_version m) as [p m'] eqn:Hnew. eexists p, m', _. split; [done|].
      assert (ascending (insert_ascending id p (placeholders_ w))) as Hasc'.
      { apply insert_ascending_sorted; [done|]. by apply find_if_None. }
      split_and!; try done; [destruct Hok; by split|intros e; apply elem_of_insert_ascending|].
      unfold identify_write_version. cbn [ref_cnt_]. destruct (Z.eqb_spec (ref_cnt_ w + 1) 0); [lia|].
      cbn [negb]. cbv iota. rewrite Hser. unfold find_placeholder. cbn [placeholders_].
      change (ref_cnt_ w1) with (ref_cnt_ w + 1). destruct (Z.eqb_spec (ref_cnt_ w + 1) 0); [lia|]. cbn [negb].
      rewrite (find_if_unique _ id p); [done..|]. apply elem_of_insert_ascending. by left.
  - exists (master_ w), m, w1. split; [|by split_and!].
    change (core_bitmap_ w1) with (core_bitmap_ w). destruct (Z.eqb_spec (core_bitmap_ w) 0); [done|].
    rewrite identify_spec by done. by rewrite Hlw.
Qed.

(** The final writer of the epoch. *)
Lemma final_writer w core tx : bitmaps_ok w → last (writers w) = Some (core * 64 + tx) → 0 ≤ tx < 64 →
  core_bitmap_ w ≠ 0 ∧ find_the_largest (core_bitmap_ w) = Ok core ∧
  ∃ bm, last (tx_bitmaps_ w) = Some bm ∧ find_the_largest bm = Ok tx.
Proof.
  intros Hok Hl Htx.
  assert (core_bitmap_ w ≠ 0) as Hnz by (intros Hz; unfold writers in Hl; by rewrite Hz in Hl).
  destruct (last (cores w)) as [c|] eqn:Hc.
  2:{ apply last_None in Hc. unfold writers in Hl. by rewrite Hc in Hl. }
  apply last_Some in Hc as [P HP]. assert (c ∈ cores w) as Hcin by (rewrite HP; set_solver).
  destruct (tx_bitmap_of w c Hok Hcin) as (_ & Hbm & Hwb & Hbnz).
  assert (∃ t, last (positions (bitmap_of w c)) = Some t) as [t Ht].
  { destruct (last (positions (bitmap_of w c))) eqn:E; [eauto|]. by apply last_None, positions_nil in E. }
  apply last_Some in Ht as Ht'. destruct Ht' as [T HT].
  assert (0 ≤ t < 64) as Htr by (apply (elem_of_positions (bitmap_of w c)); rewrite HT; set_solver).
  assert (c = core ∧ t = tx) as [-> ->].
  { unfold writers in Hl. rewrite HP, bind_app in Hl. simpl in Hl. rewrite app_nil_r, HT, fmap_app in Hl.
    simpl in Hl. rewrite app_assoc, last_snoc in Hl. injection Hl as Hl. pose proof (core_range w c Hcin).
    assert (c = core) by lia. lia. }
  split; [done|]. split; [apply find_the_largest_last; [apply Hok|by rewrite HP, last_snoc]|].
  exists (bitmap_of w core). split; [|by apply find_the_largest_last].
  rewrite last_lookup, (bmp_length w Hok), HP, length_app. simpl.
  replace (pred (length P + 1)) with (length P) by lia.
  assert (rank (cores w) core = length P) as <-; [|done].
  apply rank_lookup; [apply positions_sorted|]. rewrite HP. by rewrite lookup_app_r, Nat.sub_diag by lia.
Qed.

(** C37: with no reader, the final write of the epoch is lost unless the
    final writer is the first to execute: an earlier writer that executes
    first gets no version, but clears the bitmaps, and the final writer then
    gets none either, so the master version keeps the value of the previous
    epoch. *)
Theorem rc_final_write_lost (m : mem) (w : t) (c1 t1 c2 t2 : Z) (Hok : bitmaps_ok w)
    (Hcnt : ref_cnt_ w = 0) (Hph : placeholders_ w = [])
    (Hlast : last (writers w) = Some (c2 * 64 + t2)) (Ht2 : 0 ≤ t2 < 64) (Hother : (c1, t1) ≠ (c2, t2)) :
  ∃ w', identify_write_version m w c1 t1 = Ok (None, m, w') ∧
    identify_write_version m w' c2 t2 = Ok (None, m, w') ∧ master_ w' = master_ w.
Proof.
  destruct (final_writer w c2 t2 Hok Hlast Ht2) as (Hnz & Hcore & bm & Hbm & Htx).
  exists (clear_bitmaps w). unfold identify_write_version. simpl. rewrite Hcnt, Hph. simpl.
  split_and!; [|done|done]. unfold is_final_state. destruct (Z.eqb_spec (core_bitmap_ w) 0); [done|].
  rewrite Hcore. simpl. destruct (Z.eqb_spec c2 c1) as [->|]; [|done].
  rewrite Hbm. simpl. rewrite Htx. simpl. destruct (Z.eqb_spec t2 t1) as [->|]; done.
Qed.

(** With a reader of an earlier version, the final write is lost too:
    while the reader is active the final writer has no placeholder and gets
    no version; when the last reader leaves, the master becomes the newest
    placeholder, not the final state, and the bitmaps are cleared. *)
Theorem rc_master_not_final (m : mem) (w : t) (id c2 t2 : Z) (p p0 : loc) (Hok : bitmaps_ok w)
    (Hcnt : ref_cnt_ w = 1) (Hph : placeholders_ w = [(id, Some p)]) (Hmaster : master_ w = Some p0)
    (Hcol : collectable m [Some p0]) (Hc2 : 0 ≤ c2 < 64) (Ht2 : 0 ≤ t2 < 64)
    (Hlast : last (writers w) = Some (c2 * 64 + t2)) (Hid : id < c2 * 64 + t2) :
  identify_write_version m w c2 t2 = Ok (None, m, w) ∧
  ∃ m' w', decrement_ref_cnt m w = Ok (m', w') ∧ master_ w' = Some p ∧ writers w' = [] ∧
    identify_write_version m' w' c2 t2 = Ok (None, m', w').
Proof.
  split.
  - unfold identify_write_version, find_placeholder, get_serial_id. rewrite Hcnt, Hph. cbn [negb Z.eqb].
    rewrite wrap_small by (split; lia). simpl. by destruct (Z.eqb_spec id (c2 * 64 + t2)); [lia|].
  - apply collectable_cons_inv in Hcol as (l & r & m' & [= <-] & Hm' & Hgc & _ & _ & [d Hd] & Hr).
    assert (∀ w', master_ w' = Some p0 → gc_master m w' = Ok m') as Hgm.
    { intros w' Hw'. unfold gc_master, load_version. rewrite Hw'. simpl. rewrite Hd. simpl.
      rewrite decide_True by done. simpl. rewrite Hd. by rewrite Hm'. }
    unfold decrement_ref_cnt. rewrite Hcnt. simpl. unfold gc_and_update_master. simpl. rewrite Hph. simpl.
    rewrite Hgm by done. simpl. eexists _, _. split; [done|]. done.
Qed.

(** ** A concrete row: transactions 3 of core 0 and 5 of core 2 write it *)
Definition row_rc : t := mk 0 (2 ^ 63 + 2 ^ 61) (Some 1%positive) [2 ^ 60; 2 ^ 58] [].

Lemma row_rc_bitmaps n ph : bitmaps_ok (mk n (2 ^ 63 + 2 ^ 61) (Some 1%positive) [2 ^ 60; 2 ^ 58] ph).
Proof.
  split; [by vm_compute|by vm_compute|].
  intros bm [->|[->|H%not_elem_of_nil]%elem_of_cons]%elem_of_cons; [split; [split; lia|lia]..|done].
Qed.

Lemma rc_write_phase_witness :
  ∃ w, mark_all (empty_row (Some 1%positive)) [(2, 5); (0, 3)] = Ok w ∧ StronglySorted Z.lt (writers w) ∧
    (∀ id, id ∈ writers w ↔ id ∈ [133; 3]) ∧
    ∀ ops2 w2, ops2 ≡ₚ [(2, 5); (0, 3)] → mark_all (empty_row (Some 1%positive)) ops2 = Ok w2 → writers w2 = writers w.
Proof.
  apply (rc_write_phase (Some 1%positive) [(2, 5); (0, 3)]).
  intros o [->|[->|H%not_elem_of_nil]%elem_of_cons]%elem_of_cons; [simpl; lia..|done].
Defined.

Lemma rc_reader_gets_last_writer_witness :
  ∃ p m' w', append_pending_version (mkMem ∅ ∅) row_rc 2 4 = Ok (p, m', w') ∧ ref_cnt_ w' = 1 ∧
    bitmaps_ok w' ∧ writers w' = writers row_rc ∧ ascending (placeholders_ w') ∧
    match last_writer row_rc 2 4 with
    | None => p = Some 1%positive ∧ placeholders_ w' = []
    | Some id =>
        id ∈ writers row_rc ∧ id < 2 * 64 + 4 ∧
        (∀ e, e ∈ placeholders_ w' ↔ e = (id, p) ∨ e ∈ []) ∧
        identify_write_version m' w' (id / 64) (id mod 64) = Ok (p, m', w')
    end.
Proof.
  apply (rc_reader_gets_last_writer (mkMem ∅ ∅) row_rc 2 4);
    [apply row_rc_bitmaps|apply ascending_nil|by vm_compute|lia|lia].
Defined.

Lemma rc_final_write_lost_witness :
  ∃ w', identify_write_version (mkMem ∅ ∅) row_rc 0 3 = Ok (None, mkMem ∅ ∅, w') ∧
    identify_write_version (mkMem ∅ ∅) w' 2 5 = Ok (None, mkMem ∅ ∅, w') ∧ master_ w' = Some 1%positive.
Proof.
  apply (rc_final_write_lost (mkMem ∅ ∅) row_rc 0 3 2 5); [apply row_rc_bitmaps|done|done|by vm_compute|lia|done].
Defined.

Definition mem_rc : mem := mkMem {[1%positive := mkVersion (Some 1%positive) STABLE false]} {[1%positive]}.

Lemma mem_rc_collectable : collectable mem_rc [Some 1%positive].
Proof.
  exists [(1, 1)]%positive. split_and!; [done|by apply (bool_decide_unpack _)..|].
  intros l r [= -> ->]%list_elem_of_singleton. split; [exists false; reflexivity|by vm_compute].
Qed.

Lemma rc_master_not_final_witness :
  let w := mk 1 (2 ^ 63 + 2 ^ 61) (Some 1%positive) [2 ^ 60; 2 ^ 58] [(3, Some 2%positive)] in
  identify_write_version mem_rc w 2 5 = Ok (None, mem_rc, w) ∧
  ∃ m' w', decrement_ref_cnt mem_rc w = Ok (m', w') ∧ master_ w' = Some 2%positive ∧ writers w' = [] ∧
    identify_write_version m' w' 2 5 = Ok (None, m', w').
Proof.
  apply (rc_master_not_final mem_rc (mk 1 (2 ^ 63 + 2 ^ 61) (Some 1%positive) [2 ^ 60; 2 ^ 58] [(3, Some 2%positive)])
    3 2 5 2 1); [apply row_rc_bitmaps|done|done|done|apply mem_rc_collectable|lia|lia|by vm_compute|lia].
Defined.
End write_bitmap_properties.
