(* ===== verification/Caracal.v ===== *)
(** * protocols/caracal/include: the Caracal protocol

    A row keeps its versions of all epochs in one ascending array; once it is
    contended, each core collects its pending versions of the epoch in a small
    buffer that is moved into the array when it is full, and at the end of the
    initialization phase.  Appending frees the versions no transaction of the
    current epoch can see.

    Granularity as in Serval: an append is one step of its row; what other
    threads decide is an argument ([got_lock], [installed]). *)
From S2P Require Import Prelude Bitmap Versions.

(** CMakeLists.txt sets the size of the per-core buffers; 4 is its default. *)
Definition MAX_SLOTS_OF_PER_CORE_BUFFER : Z := 4.
Definition CORES : nat := 64.
Definition NUM_BUFFERS : Z := 10000.

(** ** Global ids *)

Definition convert_to_global_id (epoch serial_id : Z) : Z :=
  u64 (Z.lor (Z.shiftl epoch 32) serial_id).
Definition get_serial_id (global_id : Z) : Z :=
  Z.land global_id (u64 (Z.lnot (fill_the_left_side_until_before_the_given_position 32))).
Definition get_epoch (global_id : Z) : Z := Z.shiftr global_id 32.

(** ** PerCoreBuffer *)
Module PerCoreBuffer.
Abbreviation t := (list (Z * Ptr)).

(** The buffer with the version, and whether it still has room. *)
Definition appendable (b : t) (version : Ptr) (epoch serial_id : Z) : outcome (bool * t) :=
  _ ← assert_ (bool_decide (is_Some version));
  _ ← assert_ (Z.of_nat (length b) <? MAX_SLOTS_OF_PER_CORE_BUFFER);
  let b := insert_ascending (convert_to_global_id epoch serial_id) version b in
  Ok (Z.of_nat (length b) <? MAX_SLOTS_OF_PER_CORE_BUFFER, b).

Definition initialize (b : t) : t := [].
End PerCoreBuffer.

(** ** GlobalVersionArray *)
Module CaracalArray.
Abbreviation t := (list (Z * Ptr)).

Definition is_exist (g : t) (epoch serial_id : Z) : bool :=
  bool_decide (is_Some (std_find_if (λ p, p.1 =? convert_to_global_id epoch serial_id) g)).

Definition is_exist_visible_version (g : t) (global_id : Z) : bool :=
  if negb (global_id =? 0) then bool_decide (is_Some (std_find_if (λ p, p.1 <? global_id) g)) else true.

Definition is_visible (global_id visible_id : Z) : outcome bool :=
  if get_epoch visible_id <? get_epoch global_id then Ok true else
  _ ← assert_ (get_epoch visible_id =? get_epoch global_id);
  _ ← assert_ (get_serial_id visible_id <? get_serial_id global_id);
  Ok true.

Definition search_visible_version (g : t) (epoch serial_id : Z) : outcome (Z * Ptr) :=
  let global_id := convert_to_global_id epoch serial_id in
  _ ← assert_ (negb (bool_decide (g = [])));
  _ ← assert_ (is_exist_visible_version g global_id);
  let it := std_upper_bound (λ p, global_id <=? p.1) g in
  _ ← assert_ (negb (bool_decide (it = 0%nat)));
  e ← deref (g !! pred it);
  b ← is_visible global_id e.1;
  _ ← assert_ b;
  Ok e.

(** [gc(itr, epoch)]: free the version at the front. *)
Definition gc (m : mem) (e : Z * Ptr) (epoch : Z) : outcome mem :=
  _ ← assert_ (e.1 <? epoch);
  gc_version m e.2.

(** The loop of [minor_gc]: free the front while the entry after it is of an
    earlier epoch. *)
Fixpoint minor_gc_loop (m : mem) (g : t) (cur_epoch : Z) : outcome (mem * t) :=
  match g with
  | x :: ((y :: _) as rest) =>
      if cur_epoch <=? y.1 then Ok (m, g)
      else m ← gc m x cur_epoch; minor_gc_loop m rest cur_epoch
  | _ => Ok (m, g)
  end.

Definition minor_gc (m : mem) (g : t) (cur_e : Z) : outcome (mem * t) :=
  _ ← assert_ (negb (bool_decide (g = [])));
  let cur_epoch := convert_to_global_id cur_e 0 in
  _ ← assert_ (is_exist_visible_version g cur_epoch);
  '(m, g) ← minor_gc_loop m g cur_epoch;
  _ ← assert_ (negb (bool_decide (g = [])));
  _ ← assert_ (is_exist_visible_version g cur_epoch);
  Ok (m, g).

Definition append_with_gc (m : mem) (g : t) (version : Ptr) (global_id epoch_for_gc : Z) : outcome (mem * t) :=
  _ ← assert_ (bool_decide (is_Some version));
  minor_gc m (insert_ascending global_id version g) epoch_for_gc.

Definition append (m : mem) (g : t) (version : Ptr) (epoch serial_id : Z) : outcome (mem * t) :=
  _ ← assert_ (bool_decide (is_Some version));
  append_with_gc m g version (convert_to_global_id epoch serial_id) epoch.

(** The loop of [batch_append] over the buffer. *)
Fixpoint append_all (m : mem) (g : t) (b : PerCoreBuffer.t) (epoch_for_gc : Z) : outcome (mem * t) :=
  match b with
  | [] => Ok (m, g)
  | (id, version) :: b =>
      '(m, g) ← append_with_gc m g version id epoch_for_gc;
      append_all m g b epoch_for_gc
  end.

(** The array with the versions of the buffer, and the buffer cleared. *)
Definition batch_append (m : mem) (g : t) (b : PerCoreBuffer.t) (epoch_for_gc : Z) :
    outcome (mem * t * PerCoreBuffer.t) :=
  '(m, g) ← append_all m g b epoch_for_gc;
  Ok (m, g, PerCoreBuffer.initialize b).

(** [major_gc] with [n] iterations of its loop allowed: the iterator never
    moves, so the loop frees the same version again.  [None]: still looping. *)
Fixpoint major_gc_loop (n : nat) (m : mem) (g : t) (old_epoch : Z) : option (outcome mem) :=
  match n with
  | O => None
  | S n =>
      match g with
      | [] => Some (Ok m)
      | x :: _ =>
          if old_epoch <? x.1 then Some (Ok m)
          else match gc m x old_epoch with
               | Ok m => major_gc_loop n m g old_epoch
               | Throw w => Some (Throw w)
               | Stuck => Some Stuck
               | Wait => Some Wait
               end
      end
  end.

Definition major_gc (n : nat) (m : mem) (g : t) (old_e : Z) : option (outcome mem) :=
  if bool_decide (g = []) then Some Stuck
  else major_gc_loop n m g (convert_to_global_id old_e 0).

Definition is_empty (g : t) : bool := bool_decide (g = []).
End CaracalArray.

(** ** RowBufferController *)
Module RowBufferController.
Record t := mk { used_ : Z }.

Definition fetch_new_buffer (c : t) : outcome (Z * t) :=
  _ ← assert_ (used_ c <? NUM_BUFFERS);
  if NUM_BUFFERS <=? used_ c then Throw "NUM_REGIONS <= used_" else
  Ok (used_ c, mk (used_ c + 1)).
End RowBufferController.

(** ** Caracal *)
Module Caracal.

Record Value := mkValue {
  epoch_ : Z;
  global_array_ : CaracalArray.t;
  row_buffer_ : option Z
}.

(** [RowBuffer]: a buffer per core. *)
Abbreviation RowBuffer := (list PerCoreBuffer.t).
Definition RowBuffer_new : RowBuffer := replicate CORES [].

Record state := mkState {
  heap : mem;
  values : gmap loc Value;
  rrc_ : RowBufferController.t;
  buffers_ : list RowBuffer
}.

(** [class Caracal], one object per worker; [appended_core_buffers_] maps a
    row to the row buffer whose slice of this core is to be flushed. *)
Record tx := mkTx {
  core_ : Z;
  serial_id_ : Z;
  tx_epoch_ : Z;
  tables : gset Z;
  ws : gmap Z (list Z);
  spare_buffer_ : option Z;
  appended_core_buffers_ : gmap loc Z
}.

Definition value_at (s : state) (l : loc) : outcome Value := deref (values s !! l).
Definition buffer_at (s : state) (i core : Z) : outcome PerCoreBuffer.t :=
  b ← deref (buffers_ s !! Z.to_nat i); deref (b !! Z.to_nat core).

Definition set_heap (s : state) (m : mem) : state := mkState m (values s) (rrc_ s) (buffers_ s).
Definition set_value (s : state) (l : loc) (v : Value) : state :=
  mkState (heap s) (<[l := v]> (values s)) (rrc_ s) (buffers_ s).
Definition set_buffer (s : state) (i core : Z) (b : PerCoreBuffer.t) : state :=
  mkState (heap s) (values s) (rrc_ s)
    (alter (<[Z.to_nat core := b]>) (Z.to_nat i) (buffers_ s)).
Definition set_rrc (s : state) (c : RowBufferController.t) : state :=
  mkState (heap s) (values s) c (buffers_ s).

Definition set_spare (t : tx) (b : option Z) : tx :=
  mkTx (core_ t) (serial_id_ t) (tx_epoch_ t) (tables t) (ws t) b (appended_core_buffers_ t).
Definition set_appended (t : tx) (a : gmap loc Z) : tx :=
  mkTx (core_ t) (serial_id_ t) (tx_epoch_ t) (tables t) (ws t) (spare_buffer_ t) a.
Definition set_ws (t : tx) (tables : gset Z) (ws : gmap Z (list Z)) : tx :=
  mkTx (core_ t) (serial_id_ t) (tx_epoch_ t) tables ws (spare_buffer_ t) (appended_core_buffers_ t).

Definition may_be_contented (row_buffer : option Z) : bool := bool_decide (is_Some row_buffer).

(** [global_array_.batch_append(buffer, epoch_)] under the array's lock. *)
Definition flush (epoch : Z) (s : state) (l : loc) (i core : Z) : outcome state :=
  v ← value_at s l;
  b ← buffer_at s i core;
  '(m, g, b) ← CaracalArray.batch_append (heap s) (global_array_ v) b epoch;
  Ok (set_buffer (set_value (set_heap s m) l (mkValue (epoch_ v) g (row_buffer_ v))) i core b).

(** [append_to_uncontended_row]; the caller holds the array's lock. *)
Definition append_to_uncontended_row (t : tx) (s : state) (l : loc) : outcome (Ptr * state) :=
  let '(pending, m) := create_pending_version (heap s) in
  v ← value_at s l;
  '(m, g) ← CaracalArray.append m (global_array_ v) pending (tx_epoch_ t) (serial_id_ t);
  _ ← assert_ (CaracalArray.is_exist g (tx_epoch_ t) (serial_id_ t));
  Ok (pending, set_value (set_heap s m) l (mkValue (epoch_ v) g (row_buffer_ v))).

Definition append_to_contented_row (t : tx) (s : state) (l : loc) (i : Z) : outcome (Ptr * tx * state) :=
  let '(pending, m) := create_pending_version (heap s) in
  let s := set_heap s m in
  b ← buffer_at s i (core_ t);
  '(room, b) ← PerCoreBuffer.appendable b pending (tx_epoch_ t) (serial_id_ t);
  let s := set_buffer s i (core_ t) b in
  if (room : bool) then
    let a := appended_core_buffers_ t in
    Ok (pending, set_appended t (if decide (is_Some (a !! l)) then a else <[l := i]> a), s)
  else
    s ← flush (tx_epoch_ t) s l i (core_ t);
    Ok (pending, t, s).

(** The compare-exchange on [row_buffer_]; [installed] is the buffer another
    thread installed since it was loaded as null. *)
Definition try_install_new_buffer (s : state) (l : loc) (installed : option Z) (new_buffer : Z) :
    outcome (bool * state) :=
  v ← value_at s l;
  let cur := match row_buffer_ v with Some b => Some b | None => installed end in
  match cur with
  | Some b => Ok (false, set_value s l (mkValue (epoch_ v) (global_array_ v) (Some b)))
  | None => Ok (true, set_value s l (mkValue (epoch_ v) (global_array_ v) (Some new_buffer)))
  end.

Definition do_append_pending_version (t : tx) (got_lock : bool) (installed : option Z)
    (s : state) (l : loc) (pending : Ptr) : outcome (Ptr * tx * state) :=
  _ ← assert_ (negb (bool_decide (is_Some pending)));
  v ← value_at s l;
  let cur_buffer := row_buffer_ v in
  if may_be_contented cur_buffer then
    i ← deref cur_buffer; append_to_contented_row t s l i
  else if got_lock then
    '(p, s) ← append_to_uncontended_row t s l; Ok (p, t, s)
  else
    '(new_buffer, t, s) ←
      match spare_buffer_ t with
      | Some b => Ok (b, set_spare t None, s)
      | None => '(b, c) ← RowBufferController.fetch_new_buffer (rrc_ s); Ok (b, t, set_rrc s c)
      end;
    '(ok, s) ← try_install_new_buffer s l installed new_buffer;
    if (ok : bool) then append_to_contented_row t s l new_buffer
    else
      v ← value_at s l;
      other_buffer ← deref (row_buffer_ v);
      append_to_contented_row (set_spare t (Some new_buffer)) s l other_buffer.

(** [finalize_batch_append_*]: [order] is the order in which the rows'
    locks are obtained; a row whose lock is busy is retried later. *)
Fixpoint finalize_batch_append (order : list loc) (t : tx) (s : state) : outcome (tx * state) :=
  match order with
  | [] => _ ← assert_ (bool_decide (appended_core_buffers_ t = ∅)); Ok (t, s)
  | l :: order =>
      i ← deref (appended_core_buffers_ t !! l);
      s ← flush (tx_epoch_ t) s l i (core_ t);
      finalize_batch_append order (set_appended t (delete l (appended_core_buffers_ t))) s
  end.

Section with_index.
(** The index, filled before the run: table and key to the row. *)
Variable find : Z → Z → option loc.

Definition append_pending_version (got_lock : bool) (installed : option Z) (t : tx) (s : state)
    (table_id key : Z) (pending : Ptr) : outcome (Ptr * tx * state) :=
  _ ← assert_ (0 <? tx_epoch_ t);
  let w_table := default [] (ws t !! table_id) in
  let t := set_ws t ({[table_id]} ∪ tables t) (<[table_id := w_table]> (ws t)) in
  if bool_decide (key ∈ w_table) then Ok (pending, t, s) else
  match find table_id key with
  | None => Stuck
  | Some l =>
      '(pending, t, s) ← do_append_pending_version t got_lock installed s l pending;
      _ ← assert_ (bool_decide (is_Some pending));
      Ok (pending, set_ws t (tables t) (<[table_id := w_table ++ [key]]> (ws t)), s)
  end.

Definition terminate_transaction (t : tx) : tx :=
  set_ws t ∅ (set_fold (λ table_id w, <[table_id := []]> w) (ws t) (tables t)).

(** The result of a read: the record, or the spin on a pending version. *)
Inductive read_result := Got (r : Ptr) | Spin.

Definition execute_read (s : state) (visible : Ptr) : outcome read_result :=
  _ ← assert_ (bool_decide (is_Some visible));
  v ← load_version (heap s) visible; Ok (Got (rec v)).

Definition wait_stable_and_execute_read (s : state) (visible : Ptr) : outcome read_result :=
  _ ← assert_ (bool_decide (is_Some visible));
  v ← load_version (heap s) visible;
  if bool_decide (status v = PENDING) then Ok Spin else execute_read s visible.

Definition read (t : tx) (s : state) (table_id key : Z) : outcome read_result :=
  match find table_id key with
  | None => Stuck
  | Some l =>
      v ← value_at s l;
      '(visible_id, visible) ←
        CaracalArray.search_visible_version (global_array_ v) (tx_epoch_ t) (serial_id_ t);
      _ ← assert_ (bool_decide (is_Some visible));
      wait_stable_and_execute_read s visible
  end.
End with_index.

Definition upsert (s : state) (pending : Ptr) : outcome (Ptr * state) :=
  '(r, m) ← install_record (heap s) pending; Ok (r, set_heap s m).
Definition write (s : state) (pending : Ptr) : outcome (Ptr * state) := upsert s pending.
End Caracal.

(** ** MajorGC *)
Module MajorGC.
Definition k_ : Z := 4.

(** [versions_]: the epoch in which each array got a version. *)
Abbreviation t := (list (Z * Ptr * loc)).

Definition collect (g : t) (cur_epoch : Z) (version : Ptr) (array : loc) : t :=
  g ++ [(cur_epoch, version, array)].

(** The arrays whose versions are old enough are collected, each entry of
    the list erased; the subtraction wraps at 64 bits.  [n] bounds the
    iterations of each array's loop. *)
Fixpoint major_gc (n : nat) (s : Caracal.state) (g : t) (cur_epoch : Z) : option (outcome (Caracal.state * t)) :=
  match g with
  | [] => Some (Ok (s, []))
  | (id, version, array) :: rest =>
      if u64 (cur_epoch - k_) <=? id then Some (Ok (s, g)) else
      match Caracal.values s !! array with
      | None => Some Stuck
      | Some v =>
          match CaracalArray.major_gc n (Caracal.heap s) (Caracal.global_array_ v) (u64 (cur_epoch - k_)) with
          | None => None
          | Some (Ok m) => major_gc n (Caracal.set_heap s m) rest cur_epoch
          | Some (Throw w) => Some (Throw w)
          | Some Stuck => Some Stuck
          | Some Wait => Some Wait
          end
      end
  end.
End MajorGC.

(** ** Global ids order the versions of all epochs *)

Lemma global_id_sum epoch serial_id : word 32 epoch → word 32 serial_id →
  convert_to_global_id epoch serial_id = epoch * 2 ^ 32 + serial_id.
Proof.
  intros He Hs. unfold convert_to_global_id.
  assert (Z.lor (Z.shiftl epoch 32) serial_id = epoch * 2 ^ 32 + serial_id) as ->.
  { rewrite <- Z.shiftl_mul_pow2 by lia. rewrite Z.add_nocarry_lxor, Z.lxor_lor; [done|..];
      (apply Z.bits_inj'; intros i Hi; rewrite Z.land_spec, Z.bits_0, Z.shiftl_spec by done;
       destruct (decide (32 ≤ i));
       [by rewrite (word_testbit_high 32 serial_id), andb_false_r by done
       |by rewrite Z.testbit_neg_r by lia]). }
  apply wrap_small. unfold word in *. lia.
Qed.

Lemma get_epoch_id epoch serial_id : word 32 epoch → word 32 serial_id →
  get_epoch (convert_to_global_id epoch serial_id) = epoch.
Proof.
  intros He Hs. rewrite global_id_sum by done. unfold get_epoch. rewrite Z.shiftr_div_pow2 by lia.
  rewrite Z.div_add_l by lia. rewrite Z.div_small by (unfold word in *; lia). lia.
Qed.

Lemma get_serial_id_mod id : word64 id → get_serial_id id = id mod 2 ^ 32.
Proof.
  intros Hid. unfold get_serial_id. change (u64 _) with (Z.ones 32). by rewrite Z.land_ones.
Qed.

Lemma get_serial_id_id epoch serial_id : word 32 epoch → word 32 serial_id →
  get_serial_id (convert_to_global_id epoch serial_id) = serial_id.
Proof.
  intros He Hs. rewrite get_serial_id_mod by (apply wrap_word; lia). rewrite global_id_sum by done.
  rewrite Z.add_comm, Z.mod_add by lia. by apply Z.mod_small.
Qed.

(** ** The array of a row *)

(** In the middle of epoch [cur]: [olds] are of earlier epochs (the last one
    is what the epoch started from), [news] are of this epoch. *)
Record array_ok (m : mem) (cur : Z) (g olds news : list (Z * Ptr)) (base : Z * Ptr) : Prop := {
  arr_split : g = olds ++ news;
  arr_asc : ascending g;
  arr_old : ∀ e, e ∈ olds → e.1 < cur;
  arr_new : ∀ e, e ∈ news → cur ≤ e.1;
  arr_base : last olds = Some base;
  arr_gc : collectable m (removelast olds).*2
}.

Lemma find_if_Some {A} (f : A → bool) l x : x ∈ l → f x = true → is_Some (std_find_if f l).
Proof.
  induction 1 as [x l|x y l Hin IH]; intros Hf; simpl; [by rewrite Hf|].
  case_match; [done|auto].
Qed.

Lemma exists_visible cur g e : e ∈ g → e.1 < cur → CaracalArray.is_exist_visible_version g cur = true.
Proof.
  intros He Hlt. unfold CaracalArray.is_exist_visible_version. case_match; [|done].
  apply bool_decide_eq_true. eapply find_if_Some; [done|lia].
Qed.

(** The loop frees all the old versions but the last. *)
Lemma minor_gc_loop_spec m cur olds base news : (∀ e, e ∈ olds ++ [base] → e.1 < cur) →
  (∀ e, e ∈ news → cur ≤ e.1) → collectable m olds.*2 →
  ∃ m', CaracalArray.minor_gc_loop m (olds ++ base :: news) cur = Ok (m', base :: news) ∧
    (∀ l, versions m' !! l = if decide (Some l ∈ olds.*2) then None else versions m !! l).
Proof.
  revert m. induction olds as [|x olds IH]; intros m Hold Hnew Hc.
  - exists m. split; [|done]. simpl. destruct news as [|y news]; [done|].
    specialize (Hnew y ltac:(set_solver)). destruct (Z.leb_spec cur y.1); [done|lia].
  - csimpl in Hc. apply collectable_cons_inv in Hc as (l & r & m1 & Hx & -> & Hgc & Hc & Hni & _).
    destruct (IH _ ltac:(set_solver) Hnew Hc) as (m' & Hloop & Hv).
    exists m'. split.
    + assert (x.1 < cur) by (apply Hold; set_solver).
      assert (∃ y rest, olds ++ base :: news = y :: rest ∧ y.1 < cur) as (y & rest & Hy & Hlt).
      { destruct olds as [|y olds]; [exists base, news|exists y, (olds ++ base :: news)];
          (split; [done|apply Hold; set_solver]). }
      simpl. rewrite Hy in *. destruct (Z.leb_spec cur y.1); [lia|].
      unfold CaracalArray.gc. rewrite assert_Ok by lia. simpl. rewrite Hgc. simpl. done.
    + intros l'. rewrite Hv. csimpl. rewrite lookup_delete. rewrite Hx. repeat case_decide; set_solver.
Qed.

(** One append to the array: the old versions but the last are freed, the
    new version takes its place among those of the epoch. *)
Lemma append_with_gc_spec m cur_e cur g olds news base id p :
  cur = convert_to_global_id cur_e 0 → array_ok m cur g olds news base → cur ≤ id → id ∉ news.*1 →
  ∃ m', CaracalArray.append_with_gc m g (Some p) id cur_e = Ok (m', base :: insert_ascending id (Some p) news) ∧
    array_ok m' cur (base :: insert_ascending id (Some p) news) [base] (insert_ascending id (Some p) news) base ∧
    (∀ l, versions m' !! l = if decide (Some l ∈ (removelast olds).*2) then None else versions m !! l).
Proof.
  intros Hcur [-> Hasc Hold Hnew Hbase Hgc] Hid Hni.
  apply last_Some in Hbase as [olds' ->]. rewrite removelast_last in *.
  assert (base.1 < cur) as Hb by (apply Hold; set_solver).
  assert (∀ e, e ∈ insert_ascending id (Some p) news → cur ≤ e.1) as Hnew'.
  { intros e [->|He]%elem_of_insert_ascending; [done|auto]. }
  unfold CaracalArray.append_with_gc. simpl.
  rewrite insert_ascending_app by (intros e He; specialize (Hold e He); lia).
  unfold CaracalArray.minor_gc. rewrite <- Hcur.
  rewrite bool_decide_false by (by destruct olds'). simpl.
  rewrite (exists_visible cur _ base) by (done || set_solver). simpl.
  rewrite <- app_assoc. simpl.
  destruct (minor_gc_loop_spec m cur olds' base (insert_ascending id (Some p) news)) as (m' & -> & Hv); [done..|].
  simpl. rewrite (exists_visible cur _ base) by (done || set_solver). simpl.
  exists m'. split; [done|]. split; [|done]. split; try done.
  - apply (ascending_app [base]). apply ascending_app in Hasc as (Ha & Hn & Hlt). split_and!.
    + apply ascending_cons. split; [set_solver|apply ascending_nil].
    + by apply insert_ascending_sorted.
    + intros q e ->%list_elem_of_singleton He%Hnew'. lia.
  - intros e ->%list_elem_of_singleton. done.
  - apply collectable_nil.
Qed.

Lemma append_all_spec m cur_e cur g olds news base b :
  cur = convert_to_global_id cur_e 0 → array_ok m cur g olds news base →
  (∀ e, e ∈ b → cur ≤ e.1 ∧ is_Some e.2) → NoDup (b.*1 ++ news.*1) →
  ∃ m' g' olds' news', CaracalArray.append_all m g b cur_e = Ok (m', g') ∧
    array_ok m' cur g' olds' news' base ∧ news' ≡ₚ b ++ news ∧
    (∀ p, p ∈ (removelast olds').*2 → p ∈ (removelast olds).*2) ∧
    (∀ l, Some l ∉ (removelast olds).*2 → versions m' !! l = versions m !! l).
Proof.
  intros Hcur. revert m g olds news. induction b as [|[id q] b IH]; intros m g olds news Hok Hb Hnd.
  { exists m, g, olds, news. by split_and!. }
  destruct (Hb (id, q)) as [Hid [p Hp]]; [set_solver|]. simpl in Hid, Hp. subst q. csimpl in Hnd.
  apply NoDup_cons in Hnd as [Hni Hnd]. apply not_elem_of_app in Hni as [Hnib Hnin].
  destruct (append_with_gc_spec m cur_e cur g olds news base id p) as (m1 & Happ & Hok1 & Hv1); [done..|].
  cbn [CaracalArray.append_all]. rewrite Happ. cbn.
  destruct (IH m1 (base :: insert_ascending id (Some p) news) [base] (insert_ascending id (Some p) news)) as (m' & g' & olds' & news' & -> & Hok' & Hp' & Hs & Hv).
  - done.
  - intros e He. apply Hb. set_solver.
  - rewrite insert_ascending_perm. csimpl. rewrite <- Permutation_middle. constructor; [|done].
    by apply not_elem_of_app.
  - exists m', g', olds', news'. split_and!; [done|done| | |].
    + rewrite Hp', insert_ascending_perm. simpl. by rewrite <- Permutation_middle.
    + intros x Hx%Hs. by apply not_elem_of_nil in Hx.
    + intros l Hl. rewrite Hv by (simpl; apply not_elem_of_nil). rewrite Hv1. by rewrite decide_False.
Qed.

(** ** The row: the array and the buffers *)
Section caracal_row.
Import Caracal.

Definition row_pending (s : state) (v : Value) : list (Z * Ptr) :=
  match row_buffer_ v with
  | None => []
  | Some i => match buffers_ s !! Z.to_nat i with Some b => concat b | None => [] end
  end.

Record row_sound (s : state) (v : Value) (cur : Z) (base : Z * Ptr) (olds news : list (Z * Ptr)) : Prop := {
  snd_array : array_ok (heap s) cur (global_array_ v) olds news base;
  snd_pending : ∀ e, e ∈ row_pending s v → cur ≤ e.1;
  snd_NoDup : NoDup ((news ++ row_pending s v).*1);
  snd_buffer : ∀ i, row_buffer_ v = Some i →
    0 ≤ i ∧ ∃ b, buffers_ s !! Z.to_nat i = Some b ∧ length b = CORES ∧
      ∀ c x, b !! c = Some x → Z.of_nat (length x) < MAX_SLOTS_OF_PER_CORE_BUFFER;
  snd_live : ∀ e, e ∈ news ++ row_pending s v →
    ∃ p, e.2 = Some p ∧ is_Some (versions (heap s) !! p) ∧ e.2 ∉ (removelast olds).*2
}.

(** The versions of the epoch, whether in the array or still in a buffer. *)
Definition row_current (s : state) (v : Value) (news : list (Z * Ptr)) : list (Z * Ptr) :=
  news ++ row_pending s v.

Definition fresh_buffer (s : state) (i : Z) : Prop :=
  0 ≤ i ∧ buffers_ s !! Z.to_nat i = Some RowBuffer_new.

Lemma alter_concat (bs : list (list (Z * Ptr))) c x y : bs !! c = Some x →
  ∃ rest, concat bs ≡ₚ x ++ rest ∧ concat (<[c := y]> bs) ≡ₚ y ++ rest.
Proof.
  intros Hc. exists (concat (take c bs) ++ concat (drop (S c) bs)).
  assert (c < length bs)%nat by (by eapply lookup_lt_Some). split.
  - rewrite <- (take_drop_middle bs c x Hc) at 1. rewrite concat_app. simpl.
    apply Permutation_app_swap_app.
  - rewrite insert_take_drop by done. rewrite concat_app. simpl.
    apply Permutation_app_swap_app.
Qed.

(** Core [core]'s slice of the row's buffer can be replaced by any list;
    [rest] is what the other cores hold. *)
Definition slice_ok (s : state) (v : Value) (i core : Z) (rest : list (Z * Ptr)) : Prop :=
  ∀ y m vs c, let s' := mkState m vs c (buffers_ (set_buffer s i core y)) in
    row_pending s' v ≡ₚ y ++ rest ∧ buffer_at s' i core = Ok y ∧
    (Z.of_nat (length y) < MAX_SLOTS_OF_PER_CORE_BUFFER →
     ∃ b, buffers_ s' !! Z.to_nat i = Some b ∧ length b = CORES ∧
       ∀ c z, b !! c = Some z → Z.of_nat (length z) < MAX_SLOTS_OF_PER_CORE_BUFFER).

Lemma row_slice s v cur base olds news i core : row_sound s v cur base olds news →
  row_buffer_ v = Some i → 0 ≤ core < 64 →
  ∃ x rest, buffer_at s i core = Ok x ∧ Z.of_nat (length x) < MAX_SLOTS_OF_PER_CORE_BUFFER ∧
    row_pending s v ≡ₚ x ++ rest ∧ slice_ok s v i core rest.
Proof.
  intros Hok Hi Hcore. destruct (snd_buffer _ _ _ _ _ _ Hok i Hi) as (_ & b & Hb & Hlen & Hmax).
  destruct (lookup_lt_is_Some_2 b (Z.to_nat core)) as [x Hx]; [rewrite Hlen; unfold CORES; lia|].
  destruct (alter_concat b (Z.to_nat core) x [] Hx) as (rest & Hc & _).
  exists x, rest. unfold buffer_at. rewrite Hb. simpl. rewrite Hx. split_and!; [done|by eapply Hmax| |].
  { unfold row_pending. by rewrite Hi, Hb. }
  intros y m vs c. simpl.
  assert (alter (insert (Z.to_nat core) y) (Z.to_nat i) (buffers_ s) !! Z.to_nat i =
    Some (<[Z.to_nat core := y]> b)) as Hal by (rewrite list_lookup_alter_eq, Hb; done).
  split_and!.
  - unfold row_pending. rewrite Hi. simpl. rewrite Hal.
    destruct (alter_concat b (Z.to_nat core) x y Hx) as (rest' & Hc1 & Hc2). rewrite Hc2. f_equiv.
    apply (Permutation_app_inv_l x). by rewrite <- Hc1.
  - unfold buffer_at. simpl. rewrite Hal. simpl.
    by rewrite list_lookup_insert_eq by (by eapply lookup_lt_Some).
  - intros Hy. exists (<[Z.to_nat core := y]> b). split_and!; [done|by rewrite length_insert|].
    intros c' z. destruct (decide (c' = Z.to_nat core)) as [->|Hne].
    + rewrite list_lookup_insert_eq by (by eapply lookup_lt_Some). by intros [= <-].
    + rewrite list_lookup_insert_ne by done. apply Hmax.
Qed.

Lemma set_buffer_twice s i core x y :
  buffers_ (set_buffer (set_buffer s i core x) i core y) = buffers_ (set_buffer s i core y).
Proof.
  simpl. apply list_eq. intros j. destruct (decide (j = Z.to_nat i)) as [->|Hne].
  - rewrite !list_lookup_alter_eq. destruct (buffers_ s !! Z.to_nat i); [|done]. simpl.
    by rewrite list_insert_insert_eq.
  - by rewrite !list_lookup_alter_ne by done.
Qed.

Lemma slice_ok_set s v i core rest x m vs c : slice_ok s v i core rest →
  slice_ok (mkState m vs c (buffers_ (set_buffer s i core x))) v i core rest.
Proof.
  intros Hs y m' vs' c'. simpl.
  pose proof (set_buffer_twice s i core x y) as Heq. simpl in Heq. rewrite Heq. apply Hs.
Qed.

(** Flushing a core's slice moves its versions from the buffer to the array. *)
Lemma flush_spec cur_e cur s l v i core x rest base olds news :
  cur = convert_to_global_id cur_e 0 → values s !! l = Some v → row_buffer_ v = Some i → 0 ≤ i →
  buffer_at s i core = Ok x → slice_ok s v i core rest →
  array_ok (heap s) cur (global_array_ v) olds news base →
  (∀ e, e ∈ x ++ rest → cur ≤ e.1) → NoDup ((news ++ x ++ rest).*1) →
  (∀ e, e ∈ news ++ x ++ rest →
     ∃ p, e.2 = Some p ∧ is_Some (versions (heap s) !! p) ∧ e.2 ∉ (removelast olds).*2) →
  ∃ s' v' olds' news', flush cur_e s l i core = Ok s' ∧ values s' = <[l := v']> (values s) ∧
    rrc_ s' = rrc_ s ∧ buffers_ s' = buffers_ (set_buffer s i core []) ∧
    row_buffer_ v' = Some i ∧ row_sound s' v' cur base olds' news' ∧
    row_current s' v' news' ≡ₚ x ++ rest ++ news ∧
    (∀ l, Some l ∉ (removelast olds).*2 → versions (heap s') !! l = versions (heap s) !! l).
Proof.
  intros Hcur Hl Hi H0 Hx Hslice Harr Hge Hnd Hlive.
  destruct (append_all_spec (heap s) cur_e cur (global_array_ v) olds news base x)
    as (m' & g' & olds' & news' & Happ & Harr' & Hperm & Hsub & Hv); [done..| | |].
  { intros e He. split; [apply Hge; set_solver|]. destruct (Hlive e) as (p & -> & _); [set_solver|done]. }
  { rewrite !fmap_app in Hnd. apply NoDup_app in Hnd as (Hn & Hd & Hxr).
    apply NoDup_app in Hxr as (Hx' & _). apply NoDup_app. split_and!; [done| |done]. set_solver. }
  unfold flush, value_at. rewrite Hl. simpl. rewrite Hx. simpl. unfold CaracalArray.batch_append.
  rewrite Happ. simpl. set (v' := mkValue _ _ _). eexists _, v', olds', news'. split; [done|].
  destruct (Hslice [] m' (<[l := v']> (values s)) (rrc_ s)) as (Hpend & _ & Hbuf). simpl in Hpend.
  assert (row_pending (mkState m' (<[l := v']> (values s)) (rrc_ s) (buffers_ (set_buffer s i core []))) v' ≡ₚ rest)
    as Hpend' by (unfold row_pending in *; simpl in *; done).
  split_and!; try done.
  - split; [done| | | |].
    + intros e He. rewrite Hpend' in He. apply Hge. set_solver.
    + rewrite Hpend', Hperm. rewrite !fmap_app in *. rewrite <- app_assoc.
      by rewrite Permutation_app_swap_app.
    + intros j Hj. simpl in Hj. rewrite Hi in Hj. injection Hj as <-. split; [done|]. by apply Hbuf.
    + intros e He. rewrite Hpend', Hperm in He. destruct (Hlive e) as (p & Hp & Hsome & Hni); [set_solver|].
      exists p. split_and!; [done| |]; [|by intros ?%Hsub]. simpl. rewrite Hv; [done|]. congruence.
  - unfold row_current. rewrite Hpend', Hperm. rewrite <- app_assoc. f_equiv. apply Permutation_app_comm.
Qed.

(** What appending a pending version does to the row: the versions of the
    epoch grow by a fresh PENDING version, the others stay as they are. *)
Record appended (id : Z) (s s' : state) (E E' : list (Z * Ptr)) (p : loc) : Prop := {
  app_current : E' ≡ₚ (id, Some p) :: E;
  app_pending : versions (heap s') !! p = Some (mkVersion None PENDING false);
  app_fresh : versions (heap s) !! p = None;
  app_keep : ∀ q, Some q ∈ E.*2 → versions (heap s') !! q = versions (heap s) !! q
}.

(** The fresh version is neither an old one nor one of the epoch. *)
Lemma pending_fresh s v cur base olds news p : row_sound s v cur base olds news →
  versions (heap s) !! p = None →
  (Some p ∉ (removelast olds).*2) ∧ (Some p ∉ (row_current s v news).*2).
Proof.
  intros Hok Hp. split.
  - intros Hin. destruct (collectable_live _ _ _ (arr_gc _ _ _ _ _ _ (snd_array _ _ _ _ _ _ Hok)) Hin)
      as (? & ? & ?). congruence.
  - intros (e & Heq & He)%list_elem_of_fmap_1. destruct (snd_live _ _ _ _ _ _ Hok e He) as (q & Hq & [? Hs] & _).
    congruence.
Qed.

Lemma array_ok_heap m m' cur g olds news base : array_ok m cur g olds news base →
  records m ⊆ records m' → (∀ l, Some l ∈ (removelast olds).*2 → versions m' !! l = versions m !! l) →
  array_ok m' cur g olds news base.
Proof. intros [H1 H2 H3 H4 H5 H6] Hr Hv. split; try done. by eapply collectable_frame. Qed.

Section append.
Context (t : tx) (l : loc) (cur id : Z).
Context (Hcur : cur = convert_to_global_id (tx_epoch_ t) 0).
Context (Hid : id = convert_to_global_id (tx_epoch_ t) (serial_id_ t)).
Context (Hcore : 0 ≤ core_ t < 64) (Hge : cur ≤ id).

Lemma caracal_append_to_contented_spec s v i base olds news : values s !! l = Some v → row_buffer_ v = Some i →
  row_sound s v cur base olds news → id ∉ (row_current s v news).*1 →
  ∃ p t' s' v' olds' news', append_to_contented_row t s l i = Ok (Some p, t', s') ∧
    values s' = <[l := v']> (values s) ∧ row_buffer_ v' = Some i ∧ row_sound s' v' cur base olds' news' ∧
    appended id s s' (row_current s v news) (row_current s' v' news') p ∧
    (buffer_at s' i (core_ t) = Ok [] ∨ is_Some (appended_core_buffers_ t' !! l)).
Proof.
  intros Hl Hi Hok Hni. unfold append_to_contented_row.
  destruct (create_pending_version (heap s)) as [q m] eqn:Hnew.
  apply create_pending_fresh in Hnew as (p & -> & Hfresh & Hver & Hrec).
  destruct (pending_fresh _ _ _ _ _ _ p Hok Hfresh) as [Hnp Hnc].
  destruct (row_slice _ _ _ _ _ _ i (core_ t) Hok Hi Hcore) as (x & rest & Hx & Hlen & Hpend & Hslice).
  destruct (snd_buffer _ _ _ _ _ _ Hok i Hi) as [H0 _].
  unfold buffer_at, set_heap in *. simpl. rewrite Hx. simpl.
  unfold PerCoreBuffer.appendable. rewrite (assert_Ok (_ <? _)) by lia. simpl. rewrite <- Hid.
  set (x' := insert_ascending id (Some p) x). set (s1 := set_buffer _ _ _ _).
  assert (x' ≡ₚ (id, Some p) :: x) as Hx' by apply insert_ascending_perm.
  assert (∀ e, e ∈ row_current s v news → ∃ q, e.2 = Some q ∧ versions m !! q = versions (heap s) !! q ∧
    is_Some (versions (heap s) !! q) ∧ e.2 ∉ (removelast olds).*2) as Hlive.
  { intros e He. destruct (snd_live _ _ _ _ _ _ Hok e He) as (q & Hq & Hs & Hn). exists q. split_and!; try done.
    rewrite Hver, lookup_insert_ne; [done|]. intros ->. rewrite Hfresh in Hs. by destruct Hs. }
  assert (array_ok m cur (global_array_ v) olds news base) as Harr.
  { eapply array_ok_heap; [apply Hok|by rewrite Hrec|]. intros y Hy. rewrite Hver, lookup_insert_ne; [done|congruence]. }
  destruct (Hslice x' m (values s) (rrc_ s)) as (Hpend1 & Hat1 & Hbuf1).
  assert (row_current s v news ≡ₚ news ++ x ++ rest) as HE by (unfold row_current; by rewrite Hpend).
  assert (∀ e, e ∈ x' ++ rest → cur ≤ e.1) as Hge'.
  { intros e. rewrite Hx'. simpl. intros [->|He]%elem_of_cons; [done|]. eapply snd_pending; [done|]. by rewrite Hpend. }
  assert (NoDup ((news ++ x' ++ rest).*1)) as Hnd.
  { rewrite Hx'. simpl. rewrite <- Permutation_middle. csimpl. constructor; rewrite <- HE; [done|apply Hok]. }
  assert (∀ e, e ∈ news ++ x' ++ rest →
    ∃ q, e.2 = Some q ∧ is_Some (versions m !! q) ∧ e.2 ∉ (removelast olds).*2) as Hlive'.
  { intros e. rewrite Hx'. simpl. rewrite <- Permutation_middle. intros [->|He]%elem_of_cons.
    - exists p. simpl. rewrite Hver, lookup_insert_eq. eauto.
    - rewrite <- HE in He. destruct (Hlive e He) as (q & ? & Hq & ? & ?). exists q. by rewrite Hq. }
  assert (versions m !! p = Some (mkVersion None PENDING false)) as Hp by (by rewrite Hver, lookup_insert_eq).
  assert (∀ q, Some q ∈ (row_current s v news).*2 → versions m !! q = versions (heap s) !! q ∧
    Some q ∉ (removelast olds).*2) as Hkeep.
  { intros q (e & Heq & He)%list_elem_of_fmap_1. destruct (Hlive e He) as (q' & Hq' & ? & _ & ?).
    rewrite <- Heq in *. by simplify_eq. }
  destruct (Z.ltb_spec (Z.of_nat (length x')) MAX_SLOTS_OF_PER_CORE_BUFFER) as [Hroom|Hfull].
  - eexists p, _, s1, v, olds, news. split; [done|].
    split_and!; [by rewrite insert_id|done| | |right; simpl; case_decide; rewrite ?lookup_insert_eq; eauto].
    + split; [done| | | |].
      * intros e He. apply Hge'. by rewrite <- Hpend1.
      * unfold s1, set_buffer. simpl. rewrite Hpend1. done.
      * intros j Hj. rewrite Hi in Hj. injection Hj as <-. split; [done|]. by apply Hbuf1.
      * intros e He. apply Hlive'. unfold s1, set_buffer in He. simpl in He. by rewrite Hpend1 in He.
    + split; [|done|done|by intros q [? _]%Hkeep].
      unfold row_current at 1, s1, set_buffer. simpl. rewrite Hpend1, Hx', HE. simpl. by rewrite <- Permutation_middle.
  - destruct (flush_spec (tx_epoch_ t) cur s1 l v i (core_ t) x' rest base olds news)
      as (s' & v' & olds' & news' & -> & Hv' & _ & Hb' & Hi' & Hok' & Hcur' & Hk'); try done.
    { by apply slice_ok_set. }
    simpl. exists p, t, s', v', olds', news'. split_and!; try done.
    + split; [|by rewrite Hk'|done|intros q [? ?]%Hkeep; by rewrite Hk'].
      rewrite Hcur', Hx', HE. simpl. f_equiv. rewrite app_assoc. apply Permutation_app_comm.
    + left. destruct s' as [m' vs' c' bs']. simpl in Hb'. subst bs'.
      by destruct (slice_ok_set s v i (core_ t) rest x' m (values s) (rrc_ s) Hslice [] m' vs' c') as (_ & ? & _).
Qed.

Lemma append_to_uncontended_spec s v base olds news : values s !! l = Some v → row_buffer_ v = None →
  row_sound s v cur base olds news → id ∉ (row_current s v news).*1 →
  ∃ p s' v' olds' news', append_to_uncontended_row t s l = Ok (Some p, s') ∧
    values s' = <[l := v']> (values s) ∧ row_buffer_ v' = None ∧ row_sound s' v' cur base olds' news' ∧
    appended id s s' (row_current s v news) (row_current s' v' news') p.
Proof.
  intros Hl Hi Hok Hni. unfold append_to_uncontended_row.
  destruct (create_pending_version (heap s)) as [q m] eqn:Hnew.
  apply create_pending_fresh in Hnew as (p & -> & Hfresh & Hver & Hrec).
  destruct (pending_fresh _ _ _ _ _ _ p Hok Hfresh) as [Hnp Hnc].
  assert (row_current s v news = news) as HE by (unfold row_current, row_pending; by rewrite Hi, app_nil_r).
  rewrite HE in Hni, Hnc.
  assert (array_ok m cur (global_array_ v) olds news base) as Harr.
  { eapply array_ok_heap; [apply Hok|by rewrite Hrec|]. intros y Hy. rewrite Hver, lookup_insert_ne; [done|congruence]. }
  destruct (append_with_gc_spec m (tx_epoch_ t) cur (global_array_ v) olds news base id p)
    as (m' & Happ & Harr' & Hv'); [done..|].
  unfold value_at. rewrite Hl. simpl. unfold CaracalArray.append. simpl. rewrite <- Hid, Happ. simpl.
  unfold CaracalArray.is_exist. rewrite <- Hid.
  rewrite bool_decide_true.
  2:{ eapply (find_if_Some _ _ (id, Some p)); [|simpl; lia]. right. apply elem_of_insert_ascending. by left. }
  simpl. set (news' := insert_ascending id (Some p) news) in *. set (v' := mkValue _ _ _). set (s' := set_value _ _ _).
  assert (row_pending s' v' = []) as Hpend by (unfold row_pending; simpl; by rewrite Hi).
  assert (news' ≡ₚ (id, Some p) :: news) as Hn' by apply insert_ascending_perm.
  assert (versions m' !! p = Some (mkVersion None PENDING false)) as Hp.
  { rewrite Hv', decide_False by done. by rewrite Hver, lookup_insert_eq. }
  assert (∀ e, e ∈ news → ∃ q, e.2 = Some q ∧ versions m' !! q = versions (heap s) !! q ∧
    is_Some (versions (heap s) !! q)) as Hlive.
  { intros e He. destruct (snd_live _ _ _ _ _ _ Hok e) as (q & Hq & Hs & Hn); [set_solver|]. exists q.
    split_and!; try done. rewrite Hv', decide_False, Hver, lookup_insert_ne; [done| |congruence].
    intros ->. rewrite Hfresh in Hs. by destruct Hs. }
  exists p, s', v', [base], news'. split; [done|]. split_and!; [done|done| |].
  - split; rewrite ?Hpend, ?app_nil_r; [done| | | |].
    + intros e He. by apply not_elem_of_nil in He.
    + rewrite Hn'. csimpl. constructor; [done|]. pose proof (snd_NoDup _ _ _ _ _ _ Hok) as Hnd.
      rewrite fmap_app in Hnd. by apply NoDup_app in Hnd as [? _].
    + simpl. by rewrite Hi.
    + intros e. rewrite Hn'. intros [->|He]%elem_of_cons.
      * exists p. simpl. split_and!; [done|by rewrite Hp|apply not_elem_of_nil].
      * destruct (Hlive e He) as (q & ? & Hq & ?). exists q. simpl. rewrite Hq. split_and!; [done..|apply not_elem_of_nil].
  - rewrite HE. unfold row_current. rewrite Hpend, app_nil_r. split; try done.
    intros q (e & Heq & He)%list_elem_of_fmap_1. destruct (Hlive e He) as (q' & Hq' & ? & _). assert (q' = q) as <- by congruence. done.
Qed.
End append.

(** The buffers a thread may install into a row that has none. *)
Definition buffers_ready (t : tx) (s : state) (installed : option Z) : Prop :=
  (∀ b, installed = Some b → fresh_buffer s b) ∧
  match spare_buffer_ t with
  | Some b => fresh_buffer s b
  | None => RowBufferController.used_ (rrc_ s) < NUM_BUFFERS ∧ fresh_buffer s (RowBufferController.used_ (rrc_ s))
  end.

Lemma concat_new : concat RowBuffer_new = [].
Proof. reflexivity. Qed.

(** Installing an empty buffer leaves the row as it is. *)
Lemma install_sound s v b cur' base olds news vs c : row_sound s v cur' base olds news →
  row_buffer_ v = None → fresh_buffer s b →
  let v' := mkValue (epoch_ v) (global_array_ v) (Some b) in
  let s' := mkState (heap s) vs c (buffers_ s) in
  row_sound s' v' cur' base olds news ∧ row_current s' v' news = row_current s v news.
Proof.
  intros Hok Hi [H0 Hb] v' s'.
  assert (row_pending s' v' = row_pending s v) as Hp.
  { unfold row_pending. simpl. rewrite Hb, Hi. apply concat_new. }
  split; [|unfold row_current; by rewrite Hp]. destruct Hok as [H1 H2 H3 H4 H5]. split; rewrite ?Hp; try done.
  intros i [= <-]. split; [done|]. exists RowBuffer_new. split_and!; [done..|].
  intros c' x Hx. apply lookup_replicate in Hx as [-> _]. done.
Qed.

(** One append, whatever the outcome of [try_lock] and of the installation. *)
Lemma caracal_do_append_spec t l cur id got_lock installed s v base olds news :
  cur = convert_to_global_id (tx_epoch_ t) 0 → id = convert_to_global_id (tx_epoch_ t) (serial_id_ t) →
  0 ≤ core_ t < 64 → cur ≤ id → values s !! l = Some v →
  row_sound s v cur base olds news → id ∉ (row_current s v news).*1 →
  (row_buffer_ v = None → buffers_ready t s installed) →
  ∃ p t' s' v' olds' news', do_append_pending_version t got_lock installed s l None = Ok (Some p, t', s') ∧
    values s' = <[l := v']> (values s) ∧ row_sound s' v' cur base olds' news' ∧
    appended id s s' (row_current s v news) (row_current s' v' news') p.
Proof.
  intros Hcur Hid Hcore Hge Hl Hok Hni Hready. unfold do_append_pending_version, value_at. simpl. rewrite Hl. simpl.
  unfold may_be_contented. destruct (row_buffer_ v) as [i|] eqn:Hi; simpl.
  { destruct (caracal_append_to_contented_spec t l cur id Hcur Hid Hcore Hge s v i base olds news Hl Hi Hok Hni)
      as (p & t' & s' & v' & olds' & news' & ? & ? & _ & ? & ? & _). eauto 12. }
  destruct got_lock.
  { destruct (append_to_uncontended_spec t l cur id Hcur Hid Hcore Hge s v base olds news Hl Hi Hok Hni)
      as (p & s' & v' & olds' & news' & -> & ? & _ & ? & ?). simpl. eauto 12. }
  destruct (Hready eq_refl) as [Hinst Hspare].
  assert (∃ nb t1 s1, match spare_buffer_ t with
      | Some b => Ok (b, set_spare t None, s)
      | None => '(b, c) ← RowBufferController.fetch_new_buffer (rrc_ s); Ok (b, t, set_rrc s c)
      end = Ok (nb, t1, s1) ∧ fresh_buffer s nb ∧ (∃ c, s1 = set_rrc s c) ∧
      core_ t1 = core_ t ∧ serial_id_ t1 = serial_id_ t ∧ tx_epoch_ t1 = tx_epoch_ t) as
    (nb & t1 & s1 & -> & Hnb & [c ->] & Hc1 & Hs1 & He1).
  { destruct (spare_buffer_ t) as [b|].
    - eexists _, _, _. split; [done|]. split_and!; try done. exists (rrc_ s). by destruct s.
    - destruct Hspare as [Hu Hf]. unfold RowBufferController.fetch_new_buffer. rewrite assert_Ok by lia. simpl.
      destruct (Z.leb_spec NUM_BUFFERS (RowBufferController.used_ (rrc_ s))); [lia|]. simpl.
      eexists _, _, _. split; [done|]. split_and!; try done. by eexists. }
  simpl. unfold try_install_new_buffer, value_at. simpl. rewrite Hl. simpl. rewrite Hi.
  assert (∀ b t2, fresh_buffer s b → core_ t2 = core_ t → serial_id_ t2 = serial_id_ t → tx_epoch_ t2 = tx_epoch_ t →
    let s2 := set_value (set_rrc s c) l (mkValue (epoch_ v) (global_array_ v) (Some b)) in
    ∃ p t' s' v' olds' news', append_to_contented_row t2 s2 l b = Ok (Some p, t', s') ∧
      values s' = <[l := v']> (values s) ∧ row_sound s' v' cur base olds' news' ∧
      appended id s s' (row_current s v news) (row_current s' v' news') p) as Hgo.
  { intros b t2 Hb Ec Es Ee s2.
    destruct (install_sound s v b cur base olds news (values s2) c Hok Hi Hb) as [Hok2 HE2].
    destruct (caracal_append_to_contented_spec t2 l cur id ltac:(by rewrite Ee) ltac:(by rewrite Ee, Es)
      ltac:(by rewrite Ec) Hge s2 (mkValue (epoch_ v) (global_array_ v) (Some b)) b base olds news)
      as (p & t' & s' & v' & olds' & news' & Ha & Hv & _ & Hs & Happ & _).
    - by apply lookup_insert_eq.
    - done.
    - exact Hok2.
    - change (row_current s2 _ news) with (row_current (mkState (heap s) (values s2) c (buffers_ s))
        (mkValue (epoch_ v) (global_array_ v) (Some b)) news). by rewrite HE2.
    - exists p, t', s', v', olds', news'. split_and!; [done| |done|].
      + rewrite Hv. simpl. by rewrite insert_insert_eq.
      + destruct Happ as [A1 A2 A3 A4]. rewrite <- HE2. split; done. }
  destruct installed as [b|]; simpl.
  - rewrite lookup_insert_eq. simpl. by apply Hgo; [apply Hinst|..].
  - by apply Hgo.
Qed.
End caracal_row.

(** ** An epoch of one row *)
Section caracal_epoch.
Import Caracal.

(** The appends to a row in the order in which they take effect, each with
    its transaction and the version it was given. *)
Inductive appends (l : loc) : state → list (tx * loc) → state → Prop :=
| appends_nil s : appends l s [] s
| appends_cons s v t got_lock installed p t' s1 ops s' :
    values s !! l = Some v → (row_buffer_ v = None → buffers_ready t s installed) →
    do_append_pending_version t got_lock installed s l None = Ok (Some p, t', s1) →
    appends l s1 ops s' → appends l s ((t, p) :: ops) s'.

Definition global_id (t : tx) : Z := convert_to_global_id (tx_epoch_ t) (serial_id_ t).
Definition writes (ops : list (tx * loc)) : list (Z * Ptr) := (λ o, (global_id o.1, Some o.2)) <$> ops.

(** Transactions of one epoch with distinct serial ids. *)
Record same_epoch (epoch : Z) (ops : list (tx * loc)) : Prop := {
  ep_word : word 32 epoch;
  ep_tx : ∀ o, o ∈ ops → tx_epoch_ o.1 = epoch ∧ word 32 (serial_id_ o.1) ∧ 0 ≤ core_ o.1 < 64;
  ep_NoDup : NoDup (writes ops).*1
}.

Lemma id_in_epoch t epoch : tx_epoch_ t = epoch → word 32 epoch → word 32 (serial_id_ t) →
  convert_to_global_id epoch 0 ≤ global_id t.
Proof.
  intros <- He Hs. unfold global_id. rewrite !global_id_sum by (done || split; lia). destruct Hs. lia.
Qed.

Lemma appends_spec epoch cur base l s ops s' : appends l s ops s' →
  cur = convert_to_global_id epoch 0 → same_epoch epoch ops → ∀ v olds news,
  values s !! l = Some v → row_sound s v cur base olds news →
  (∀ e, e ∈ row_current s v news → e.1 ∉ (writes ops).*1) →
  ∃ v' olds' news', values s' !! l = Some v' ∧ row_sound s' v' cur base olds' news' ∧
    row_current s' v' news' ≡ₚ writes ops ++ row_current s v news.
Proof.
  intros Hrun Hcur. induction Hrun as [s|s v0 t b inst p t' s1 ops s' Hv0 Hready Hdo Hrun IH];
    intros Hep v olds news Hv Hok Hfresh.
  { exists v, olds, news. by split_and!. }
  rewrite Hv in Hv0. injection Hv0 as <-.
  destruct (ep_tx _ _ Hep (t, p)) as (He & Hs & Hc); [set_solver|]. simpl in *.
  pose proof (ep_NoDup _ _ Hep) as Hnd. unfold writes in Hnd, Hfresh. csimpl in Hnd. csimpl in Hfresh.
  apply NoDup_cons in Hnd as [Hni Hnd].
  destruct (caracal_do_append_spec t l cur (global_id t) b inst s v base olds news)
    as (p1 & t1 & s2 & v1 & olds1 & news1 & Hdo1 & Hv1 & Hok1 & Happ); try done.
  - by rewrite He.
  - rewrite Hcur. apply id_in_epoch; [done|apply Hep|done].
  - intros (e & Heq & Hin)%list_elem_of_fmap_1. specialize (Hfresh e Hin). rewrite <- Heq in Hfresh. set_solver.
  - rewrite Hdo in Hdo1. injection Hdo1 as <- <- <-.
    destruct (IH ltac:(split; [apply Hep|intros o Ho; apply (ep_tx _ _ Hep); set_solver|done]) v1 olds1 news1)
      as (v' & olds' & news' & Hv' & Hok' & Hcur'); try done.
    + by rewrite Hv1, lookup_insert_eq.
    + intros e. rewrite (app_current _ _ _ _ _ _ Happ). intros [->|Hin]%elem_of_cons; [done|].
      specialize (Hfresh e Hin). intros Hin'. apply Hfresh. by right.
    + exists v', olds', news'. split_and!; try done. rewrite Hcur', (app_current _ _ _ _ _ _ Happ).
      unfold writes. csimpl. by rewrite <- Permutation_middle.
Qed.

(** The end of the initialization phase: the slices of [cores] are flushed. *)
Fixpoint flush_all (epoch : Z) (s : state) (l : loc) (i : Z) (cores : list Z) : outcome state :=
  match cores with
  | [] => Ok s
  | core :: cores => s ← flush epoch s l i core; flush_all epoch s l i cores
  end.

Lemma flush_all_spec epoch cur base l i cores s v olds news : cur = convert_to_global_id epoch 0 →
  values s !! l = Some v → row_buffer_ v = Some i → row_sound s v cur base olds news →
  (∀ c, c ∈ cores → 0 ≤ c < 64) →
  ∃ s' v' olds' news', flush_all epoch s l i cores = Ok s' ∧ values s' !! l = Some v' ∧
    row_buffer_ v' = Some i ∧ row_sound s' v' cur base olds' news' ∧
    row_current s' v' news' ≡ₚ row_current s v news ∧
    (∀ c, 0 ≤ c < 64 → c ∈ cores ∨ buffer_at s i c = Ok [] → buffer_at s' i c = Ok []).
Proof.
  intros Hcur. revert s v olds news. induction cores as [|core cores IH]; intros s v olds news Hl Hi Hok Hc.
  { exists s, v, olds, news. split_and!; try done. intros c _ [Hin|]; [by apply not_elem_of_nil in Hin|done]. }
  destruct (row_slice _ _ _ _ _ _ i core Hok Hi) as (x & rest & Hx & Hlen & Hpend & Hslice); [apply Hc; set_solver|].
  destruct (snd_buffer _ _ _ _ _ _ Hok i Hi) as [H0 _].
  assert (row_current s v news ≡ₚ news ++ x ++ rest) as HE by (unfold row_current; by rewrite Hpend).
  destruct (flush_spec epoch cur s l v i core x rest base olds news)
    as (s1 & v1 & olds1 & news1 & Hf & Hv1 & _ & Hb1 & Hi1 & Hok1 & Hcur1 & _); try done.
  { apply Hok. }
  { intros e He. eapply snd_pending; [done|]. by rewrite Hpend. }
  { rewrite <- HE. apply Hok. }
  { intros e He. rewrite <- HE in He. by eapply snd_live. }
  destruct (IH s1 v1 olds1 news1) as (s' & v' & olds' & news' & Hf' & Hl' & Hi' & Hok' & Hcur' & Hempty); try done.
  { by rewrite Hv1, lookup_insert_eq. }
  { intros c Hin. apply Hc. set_solver. }
  exists s', v', olds', news'. cbn. rewrite Hf. cbn. split_and!; try done.
  - rewrite Hcur', Hcur1, HE. rewrite app_assoc. apply Permutation_app_comm.
  - intros c Hc64 Hor. apply Hempty; [done|].
    assert (∀ d, 0 ≤ d < 64 → d = core ∨ buffer_at s i d = Ok [] → buffer_at s1 i d = Ok []) as Hd.
    { intros d Hd64 Hd. destruct s1 as [m1 vs1 c1 bs1]. simpl in Hb1. subst bs1.
      destruct (decide (d = core)) as [->|Hne].
      - by destruct (Hslice [] m1 vs1 c1) as (_ & ? & _).
      - destruct Hd as [|Hd]; [done|]. unfold buffer_at in *. simpl. rewrite list_lookup_alter_eq.
        destruct (buffers_ s !! Z.to_nat i) as [b|]; [|done]. simpl in *.
        rewrite list_lookup_insert_ne; [done|]. specialize (Hc core ltac:(set_solver)). lia. }
    destruct Hor as [[->|Hin]%elem_of_cons|Hb]; [right; apply Hd; auto|by left|right; apply Hd; auto].
Qed.

(** Once every slice is empty the array holds the whole epoch. *)
Lemma flushed_row s v i cur base olds news : row_sound s v cur base olds news → row_buffer_ v = Some i →
  (∀ c, 0 ≤ c < 64 → buffer_at s i c = Ok []) → row_pending s v = [].
Proof.
  intros Hok Hi Hempty. destruct (snd_buffer _ _ _ _ _ _ Hok i Hi) as (_ & b & Hb & Hlen & _).
  unfold row_pending. rewrite Hi, Hb. apply Permutation_nil_r.
  assert (∀ x, x ∈ b → x = []) as Hall.
  { intros x (c & Hx)%list_elem_of_lookup.
    assert (c < 64)%nat by (apply lookup_lt_Some in Hx; by rewrite Hlen in Hx).
    specialize (Hempty (Z.of_nat c) ltac:(lia)). unfold buffer_at in Hempty. rewrite Hb in Hempty. simpl in Hempty.
    rewrite Nat2Z.id, Hx in Hempty. by injection Hempty. }
  clear -Hall. induction b as [|x b IH]; [done|]. simpl. rewrite (Hall x) by set_solver. apply IH. set_solver.
Qed.

(** The search finds the version with the largest id below the reader's. *)
Lemma search_visible_spec m cur g olds news base epoch serial_id :
  array_ok m cur g olds news base → word 32 epoch → word 32 serial_id →
  cur = convert_to_global_id epoch 0 → (∀ e, e ∈ base :: news → word64 e.1) →
  ∃ e, CaracalArray.search_visible_version g epoch serial_id = Ok e ∧
    latest_below (convert_to_global_id epoch serial_id) (base :: news) = Some e.
Proof.
  intros [-> Hasc Hold Hnew Hbase _] He Hs Hcur Hw.
  set (id := convert_to_global_id epoch serial_id).
  assert (cur ≤ id) as Hge.
  { subst cur. unfold id. rewrite !global_id_sum by (done || split; lia). destruct Hs. lia. }
  apply last_Some in Hbase as [olds' ->].
  assert (base ∈ (olds' ++ [base]) ++ news) as Hb by set_solver.
  assert (base.1 < id) as Hlt by (specialize (Hold base ltac:(set_solver)); lia).
  assert (latest_below id (base :: news) = latest_below id ((olds' ++ [base]) ++ news)) as Hlb.
  { unfold latest_below. rewrite <- app_assoc. rewrite filter_app. simpl.
    rewrite filter_cons_True by done. destruct (last_cons_Some base (filter (λ p, p.1 < id) news)) as [y Hy].
    rewrite Hy. apply last_Some in Hy as [k ->]. by rewrite app_assoc, last_snoc. }
  destruct (latest_below id ((olds' ++ [base]) ++ news)) as [e|] eqn:Hl.
  2:{ apply (latest_below_None id) with (p := base) in Hl; [lia|done]. }
  exists e. split; [|done]. unfold CaracalArray.search_visible_version. fold id.
  rewrite bind_assert.
  2:{ rewrite bool_decide_false; [done|]. intros Hn. rewrite Hn in Hb. by apply not_elem_of_nil in Hb. }
  rewrite bind_assert by (by eapply exists_visible).
  pose proof (upper_bound_pred id _ Hasc) as Hub. rewrite Hl in Hub. cbv zeta.
  destruct (std_upper_bound _ _) as [|n]; [done|].
  rewrite bind_assert by done. cbn [Nat.pred]. rewrite <- Hub. cbn [deref]. rewrite bind_ret.
  destruct e as [i p]. apply latest_below_Some in Hl as (_ & Hi & _); [|done]. cbn [fst].
  assert (word64 i) as Hwi.
  { unfold latest_below in Hlb. apply last_Some_elem_of, list_elem_of_filter in Hlb as [_ Hin]. by apply (Hw (i, p)). }
  assert (CaracalArray.is_visible id i = Ok true) as ->; [|rewrite bind_ret; by rewrite bind_assert].
  unfold CaracalArray.is_visible, id. rewrite get_epoch_id, get_serial_id_id, get_serial_id_mod by done.
  assert (get_epoch i = i / 2 ^ 32) as Hei by (unfold get_epoch; by rewrite Z.shiftr_div_pow2).
  destruct (Z.ltb_spec (get_epoch i) epoch); [done|].
  assert (id = epoch * 2 ^ 32 + serial_id) as Hids by by apply global_id_sum.
  assert (i / 2 ^ 32 = epoch ∧ i mod 2 ^ 32 < serial_id) as [H1 H2].
  { rewrite Hei in *. unfold word in *. pose proof (Z.div_mod i (2 ^ 32) ltac:(lia)).
    pose proof (Z.mod_pos_bound i (2 ^ 32) ltac:(lia)). nia. }
  rewrite !bind_assert by lia. done.
Qed.
End caracal_epoch.

(** ** The guarantees of the protocol *)
Section caracal_properties.
Import Caracal.

(** Finishing the initialization phase on a row: each core flushes its slice. *)
Definition finish (epoch : Z) (cores : list Z) (s : state) (l : loc) : outcome state :=
  v ← value_at s l;
  match row_buffer_ v with
  | Some i => flush_all epoch s l i cores
  | None => Ok s
  end.

(** A row at the start of the epoch: no version of this epoch, [base] last. *)
Record epoch_start (s : state) (l : loc) (v : Value) (epoch : Z) (base : Z * Ptr) (olds : list (Z * Ptr)) : Prop := {
  st_at : values s !! l = Some v;
  st_sound : row_sound s v (convert_to_global_id epoch 0) base olds [];
  st_pending : row_pending s v = [];
  st_base : is_Some base.2
}.

Lemma epoch_complete epoch cores l s v base olds ops s1 : epoch_start s l v epoch base olds →
  appends l s ops s1 → same_epoch epoch ops → (∀ c, c ∈ cores ↔ 0 ≤ c < 64) →
  ∃ s2 v2 olds2, finish epoch cores s1 l = Ok s2 ∧ values s2 !! l = Some v2 ∧
    array_ok (heap s2) (convert_to_global_id epoch 0) (global_array_ v2) olds2 (spec_row (writes ops)) base.
Proof.
  intros [Hl Hok Hp _] Hrun Hep Hcores.
  destruct (appends_spec epoch _ base l s ops s1 Hrun eq_refl Hep v olds [] Hl Hok) as (v1 & olds1 & news1 & Hl1 & Hok1 & Hc1).
  { unfold row_current. rewrite Hp. intros e He. by apply not_elem_of_nil in He. }
  unfold row_current in Hc1 at 2. rewrite Hp, app_nil_r in Hc1.
  assert (∀ s2 v2 olds2 news2, row_sound s2 v2 (convert_to_global_id epoch 0) base olds2 news2 →
    row_pending s2 v2 = [] → row_current s2 v2 news2 ≡ₚ writes ops →
    array_ok (heap s2) (convert_to_global_id epoch 0) (global_array_ v2) olds2 (spec_row (writes ops)) base) as Hend.
  { intros s2 v2 olds2 news2 Hok2 Hp2 Hc2. unfold row_current in Hc2. rewrite Hp2, app_nil_r in Hc2.
    pose proof (snd_array _ _ _ _ _ _ Hok2) as Harr. rewrite <- (spec_row_unique news2); [done| |done].
    destruct Harr as [-> Ha _ _ _ _]. by apply ascending_app in Ha as (_ & ? & _). }
  unfold finish, value_at. rewrite Hl1. simpl. destruct (row_buffer_ v1) as [i|] eqn:Hi.
  - destruct (flush_all_spec epoch _ base l i cores s1 v1 olds1 news1 eq_refl Hl1 Hi Hok1)
      as (s2 & v2 & olds2 & news2 & Hf & Hl2 & Hi2 & Hok2 & Hc2 & Hempty); [by intros c ?%Hcores|].
    exists s2, v2, olds2. split_and!; [done..|]. eapply Hend; [done| |by rewrite Hc2].
    eapply flushed_row; [done..|]. intros c Hc. apply Hempty; [done|]. left. by apply Hcores.
  - exists s1, v1, olds1. split_and!; [done..|]. eapply Hend; [done| |done].
    unfold row_pending. by rewrite Hi.
Qed.

(** C24: the initialization phase of an epoch does not depend on the
    schedule.  However the appends of the cores interleave, through the
    array's lock, a buffer this thread or another one installs, or a full
    buffer's batch-append, once the cores have flushed their slices (in any
    order) the row's array holds the versions of the epoch in the order of
    their serial ids, after the last version of the earlier epochs. *)
Theorem caracal_epoch_versions (epoch : Z) (cores : list Z) (l : loc) (s s1 : state) (v : Value)
    (base : Z * Ptr) (olds : list (Z * Ptr)) (ops : list (tx * loc))
    (Hstart : epoch_start s l v epoch base olds) (Hrun : appends l s ops s1)
    (Hops : same_epoch epoch ops) (Hcores : ∀ c, c ∈ cores ↔ 0 ≤ c < 64) :
  ∃ s2 v2 olds2, finish epoch cores s1 l = Ok s2 ∧ values s2 !! l = Some v2 ∧
    global_array_ v2 = olds2 ++ spec_row (writes ops) ∧ last olds2 = Some base.
Proof.
  destruct (epoch_complete epoch cores l s v base olds ops s1 Hstart Hrun Hops Hcores)
    as (s2 & v2 & olds2 & ? & ? & [? _ _ _ ? _]). eauto 8.
Qed.

(** In the execution phase a reader gets the version of the largest
    serial id below its own, the epoch's starting version when no earlier
    transaction writes the row; no assertion of the search fails. *)
Theorem caracal_read_visible (find : Z → Z → option loc) (table_id key epoch : Z) (cores : list Z) (l : loc)
    (s s1 : state) (v : Value) (base : Z * Ptr) (olds : list (Z * Ptr)) (ops : list (tx * loc)) (t : tx)
    (Hfind : find table_id key = Some l) (Hstart : epoch_start s l v epoch base olds)
    (Hwords : ∀ e, e ∈ olds → word64 e.1) (Hrun : appends l s ops s1) (Hops : same_epoch epoch ops)
    (Hcores : ∀ c, c ∈ cores ↔ 0 ≤ c < 64) (Ht : tx_epoch_ t = epoch) (Hserial : word 32 (serial_id_ t)) :
  ∃ s2 id q, finish epoch cores s1 l = Ok s2 ∧
    latest_below (global_id t) (base :: spec_row (writes ops)) = Some (id, Some q) ∧
    read find t s2 table_id key = wait_stable_and_execute_read s2 (Some q).
Proof.
  destruct (epoch_complete epoch cores l s v base olds ops s1 Hstart Hrun Hops Hcores)
    as (s2 & v2 & olds2 & Hf & Hl2 & Harr).
  assert (word64 base.1) as Hwb.
  { apply Hwords. pose proof (arr_base _ _ _ _ _ _ (snd_array _ _ _ _ _ _ (st_sound _ _ _ _ _ _ Hstart))) as Hb.
    by apply last_Some_elem_of. }
  pose proof Harr as [Hg Hasc Hold Hnew Hbase _].
  assert (∀ e, e ∈ writes ops → word64 e.1 ∧ is_Some e.2) as Hw.
  { intros e (o & -> & Ho)%list_elem_of_fmap_1. split; [by apply wrap_word|simpl; eauto]. }
  destruct (search_visible_spec (heap s2) (convert_to_global_id epoch 0) (global_array_ v2) olds2
    (spec_row (writes ops)) base epoch (serial_id_ t)) as ([id p] & Hsearch & Hlb); [done|apply Hops|done|done| |].
  { intros e [->|He]%elem_of_cons; [done|]. rewrite spec_row_perm in He. by apply Hw. }
  assert (is_Some p) as [q ->].
  { unfold latest_below in Hlb. apply last_Some_elem_of, list_elem_of_filter in Hlb as [_ Hin].
    apply elem_of_cons in Hin as [Heq|Hin].
    - pose proof (st_base _ _ _ _ _ _ Hstart) as Hb. by rewrite <- Heq in Hb.
    - rewrite spec_row_perm in Hin. by apply Hw in Hin as [_ ?]. }
  exists s2, id, q. unfold global_id. rewrite Ht. split_and!; [done..|].
  unfold read, value_at. rewrite Hfind, Hl2, Ht. simpl. by rewrite Hsearch.
Qed.

(** The collector frees exactly the versions no transaction of the
    current epoch can see.  Appending in epoch [epoch] frees every version of
    the earlier epochs but the last, keeps the others, and what a reader of the epoch finds is
    what it would find with nothing freed. *)
Theorem caracal_minor_gc (epoch : Z) (m : mem) (g olds news : list (Z * Ptr)) (base : Z * Ptr) (id : Z) (p : loc)
    (Hok : array_ok m (convert_to_global_id epoch 0) g olds news base)
    (Hid : convert_to_global_id epoch 0 ≤ id) (Hnew : id ∉ news.*1) :
  ∃ m' g', CaracalArray.append_with_gc m g (Some p) id epoch = Ok (m', g') ∧
    (∀ l, Some l ∈ (removelast olds).*2 → versions m' !! l = None) ∧
    (∀ l, Some l ∉ (removelast olds).*2 → versions m' !! l = versions m !! l) ∧
    (∀ k, convert_to_global_id epoch 0 ≤ k → latest_below k g' = latest_below k (insert_ascending id (Some p) g)).
Proof.
  destruct (append_with_gc_spec m epoch _ g olds news base id p eq_refl Hok Hid Hnew) as (m' & Happ & _ & Hv).
  eexists m', _. split_and!; [done|by intros l Hl; rewrite Hv, decide_True|by intros l Hl; rewrite Hv, decide_False|].
  intros k Hk. destruct Hok as [-> _ Hold _ Hbase _].
  rewrite insert_ascending_app by (intros e He; specialize (Hold e He); lia).
  apply last_Some in Hbase as [olds' ->]. specialize (Hold base ltac:(set_solver)).
  unfold latest_below. rewrite <- app_assoc, filter_app. simpl. rewrite !filter_cons_True by lia.
  destruct (last_cons_Some base (filter (λ p, p.1 < k) (insert_ascending id (Some p) news))) as [y Hy].
  rewrite Hy. apply last_Some in Hy as [k' ->]. by rewrite app_assoc, last_snoc.
Qed.

(** [GlobalVersionArray::major_gc] never returns normally on an array
    whose first version is old enough: the iterator does not move, so the
    second iteration frees a version that is already freed. *)
Theorem caracal_major_gc_double_free (n : nat) (m : mem) (x : Z * Ptr) (g : list (Z * Ptr)) (old_e : Z)
    (Hold : x.1 ≤ convert_to_global_id old_e 0) (Hcol : collectable m [x.2]) :
  CaracalArray.major_gc (S (S n)) m (x :: g) old_e = Some Stuck.
Proof.
  unfold CaracalArray.major_gc. rewrite bool_decide_false by done. cbn [CaracalArray.major_gc_loop].
  destruct (Z.ltb_spec (convert_to_global_id old_e 0) x.1); [lia|].
  unfold CaracalArray.gc. destruct (Z.ltb_spec x.1 (convert_to_global_id old_e 0)); [|done].
  rewrite bind_assert by done.
  apply collectable_cons_inv in Hcol as (l & r & m' & Hx & -> & -> & _).
  rewrite Hx. unfold gc_version, load_version. cbn. by rewrite lookup_delete_eq.
Qed.
End caracal_properties.

(** ** A concrete epoch *)
Section caracal_example.
Import Caracal.

(** One row whose last version, of epoch 0, is at 1. *)
Definition crow1 : Value := mkValue 0 [(5, Some 1%positive)] None.
Definition cstate1 : state :=
  mkState (mkMem {[1%positive := mkVersion (Some 1%positive) STABLE false]} {[1%positive]})
    {[1%positive := crow1]} (RowBufferController.mk 0) [RowBuffer_new; RowBuffer_new].
Definition cworker (core serial : Z) : tx := mkTx core serial 1 ∅ ∅ None ∅.

Lemma cstate1_start : epoch_start cstate1 1 crow1 1 (5, Some 1%positive) [(5, Some 1%positive)].
Proof.
  split; [done| |done|eauto]. split; [split|..]; try done.
  - apply ascending_cons. split; [intros q Hq; by apply not_elem_of_nil in Hq|apply ascending_nil].
  - intros e ->%list_elem_of_singleton. by vm_compute.
  - intros e He. by apply not_elem_of_nil in He.
  - apply collectable_nil.
  - intros e He. by apply not_elem_of_nil in He.
  - constructor.
  - intros e He. by apply not_elem_of_nil in He.
Qed.

(** Core 0 appends 3 under the lock; core 1 finds it busy and installs a
    buffer for 7. *)
Definition cops : list (tx * loc) := [(cworker 0 3, 2%positive); (cworker 1 7, 3%positive)].

Lemma cops_run : ∃ s1, appends 1 cstate1 cops s1.
Proof.
  eexists. eapply (appends_cons _ _ crow1 _ true None); [done| |by vm_compute|].
  { intros _. split; [done|]. by split. }
  eapply (appends_cons _ _ _ _ false None); [by vm_compute| |by vm_compute|apply appends_nil].
  intros _. split; [done|]. by split.
Qed.

Lemma cops_epoch : same_epoch 1 cops.
Proof.
  split; [by vm_compute| |].
  - intros o [->|[->|H%not_elem_of_nil]%elem_of_cons]%elem_of_cons; [unfold word; simpl; lia..|done].
  - apply (bool_decide_unpack _). by vm_compute.
Qed.

Lemma all_cores c : c ∈ seqZ 0 64 ↔ 0 ≤ c < 64.
Proof. rewrite elem_of_seqZ. lia. Qed.

Lemma caracal_epoch_versions_witness :
  ∃ s1 s2 v2 olds2, appends 1 cstate1 cops s1 ∧ finish 1 (seqZ 0 64) s1 1 = Ok s2 ∧
    values s2 !! 1%positive = Some v2 ∧
    global_array_ v2 = olds2 ++ spec_row (writes cops) ∧ last olds2 = Some (5, Some 1%positive).
Proof.
  destruct cops_run as [s1 Hrun]. exists s1.
  destruct (caracal_epoch_versions 1 (seqZ 0 64) 1 cstate1 s1 crow1 _ _ cops cstate1_start Hrun cops_epoch all_cores)
    as (s2 & v2 & olds2 & H). exists s2, v2, olds2. exact (conj Hrun H).
Defined.

Lemma caracal_read_visible_witness :
  ∃ s1 s2 id q, appends 1 cstate1 cops s1 ∧ finish 1 (seqZ 0 64) s1 1 = Ok s2 ∧
    latest_below (global_id (cworker 2 5)) ((5, Some 1%positive) :: spec_row (writes cops)) = Some (id, Some q) ∧
    read (λ _ _, Some 1%positive) (cworker 2 5) s2 0 0 = wait_stable_and_execute_read s2 (Some q).
Proof.
  destruct cops_run as [s1 Hrun]. exists s1.
  destruct (caracal_read_visible (λ _ _, Some 1%positive) 0 0 1 (seqZ 0 64) 1 cstate1 s1 crow1 _ _ cops (cworker 2 5)
    eq_refl cstate1_start ltac:(by intros e ->%list_elem_of_singleton; vm_compute) Hrun cops_epoch all_cores
    eq_refl ltac:(by vm_compute)) as (s2 & id & q & H). exists s2, id, q. exact (conj Hrun H).
Defined.

(** Two versions of epoch 0: the first is freed when epoch 1 appends. *)
Definition cmem2 : mem :=
  mkMem (<[1%positive := mkVersion (Some 1%positive) STABLE false]>
         {[2%positive := mkVersion (Some 2%positive) STABLE false]}) {[1%positive; 2%positive]}.

Lemma cmem2_collectable : collectable cmem2 [Some 1%positive].
Proof.
  exists [(1, 1)]%positive. split_and!; [done|by apply (bool_decide_unpack _)..|].
  intros l r [= -> ->]%list_elem_of_singleton. split; [exists false; reflexivity|by vm_compute].
Qed.

Lemma caracal_minor_gc_witness :
  let g := [(4, Some 1%positive); (5, Some 2%positive)] in
  ∃ m' g', CaracalArray.append_with_gc cmem2 g (Some 3%positive) (2 ^ 32 + 1) 1 = Ok (m', g') ∧
    (∀ l, Some l ∈ [Some 1%positive] → versions m' !! l = None) ∧
    (∀ l, Some l ∉ [Some 1%positive] → versions m' !! l = versions cmem2 !! l) ∧
    (∀ k, convert_to_global_id 1 0 ≤ k →
       latest_below k g' = latest_below k (insert_ascending (2 ^ 32 + 1) (Some 3%positive) g)).
Proof.
  apply (caracal_minor_gc 1 cmem2 _ [(4, Some 1%positive); (5, Some 2%positive)] [] (5, Some 2%positive));
    [|by vm_compute|apply not_elem_of_nil].
  split; try done.
  - repeat constructor.
  - intros e [->|[->|H%not_elem_of_nil]%elem_of_cons]%elem_of_cons; [rewrite global_id_sum by (split; lia); simpl; lia..|done].
  - intros e He. by apply not_elem_of_nil in He.
  - apply cmem2_collectable.
Defined.

Lemma caracal_major_gc_double_free_witness :
  CaracalArray.major_gc 5 cmem2 [(4, Some 1%positive); (5, Some 2%positive)] 1 = Some Stuck.
Proof.
  apply (caracal_major_gc_double_free 3 cmem2 (4, Some 1%positive) [(5, Some 2%positive)] 1);
    [by vm_compute|apply cmem2_collectable].
Defined.
End caracal_example.
