(* ===== verification/RWLock.v ===== *)
(** * protocols/common/readwritelock.hpp: the reader-writer spin lock

    [cnt] is -1 while a writer holds the lock and the number of readers
    otherwise.  Each member function is a sequence of atomic actions (a load,
    a compare-exchange, a fetch-add); the file models the threads that call
    them as a transition system over these actions and proves mutual
    exclusion for every interleaving.  [try_lock] and its like are the calls
    run without interference, which the models of the protocols use. *)
From S2P Require Import Prelude.

Module RWLock.

(** The member functions that acquire. *)
Inductive call := LockShared | LockUpgrade | Lock | TryLockShared | TryLockUpgrade | TryLock.
#[export] Instance call_eq_dec : EqDecision call.
Proof. solve_decision. Defined.

(** The guard on the loaded value [expected] and the value exchanged in. *)
Definition guard (c : call) (expected : Z) : bool :=
  match c with
  | LockShared | TryLockShared => 0 <=? expected
  | LockUpgrade | TryLockUpgrade => expected =? 1
  | Lock | TryLock => expected =? 0
  end.
Definition desired (c : call) (expected : Z) : Z :=
  match c with
  | LockShared | TryLockShared => s64 (expected + 1)
  | _ => -1
  end.

(** A thread: what it holds, or where it is in a call; [Loaded c e] has
    [expected = e]. *)
Inductive thread :=
| Idle
| ReadHeld
| WriteHeld
| Called (c : call)
| Loaded (c : call) (expected : Z).

Definition upgrades (c : call) : bool :=
  match c with LockUpgrade | TryLockUpgrade => true | _ => false end.

(** Where a failed or refused call returns to: an upgrade keeps its read lock. *)
Definition before (c : call) : thread := if upgrades c then ReadHeld else Idle.
Definition acquired (c : call) : thread :=
  match c with LockShared | TryLockShared => ReadHeld | _ => WriteHeld end.

(** After a guard that fails, [lock*] loads again and [try_lock*] returns false. *)
Definition refused (c : call) : thread :=
  match c with
  | LockShared | LockUpgrade | Lock => Called c
  | _ => before c
  end.
(** After a compare-exchange that fails: [lock*] loads again,
    [try_lock_shared] retries with the value the exchange stored into
    [expected], [try_lock] and [try_lock_upgrade] return false. *)
Definition cas_failed (c : call) (cnt : Z) : thread :=
  match c with
  | LockShared | LockUpgrade | Lock => Called c
  | TryLockShared => Loaded c cnt
  | _ => before c
  end.

(** The atomic actions of a thread. *)
Inductive action := Call (c : call) | Act | UnlockShared | Unlock.

(** One action of a thread on the shared counter; [None]: not enabled. *)
Definition act (a : action) (cnt : Z) (t : thread) : option (Z * thread) :=
  match a, t with
  | Call c, Idle => if upgrades c then None else Some (cnt, Called c)
  | Call c, ReadHeld => if upgrades c then Some (cnt, Called c) else None
  | Act, Called c => Some (cnt, Loaded c cnt)
  | Act, Loaded c e =>
      if guard c e then
        if cnt =? e then Some (desired c e, acquired c) else Some (cnt, cas_failed c cnt)
      else Some (cnt, refused c)
  | UnlockShared, ReadHeld => Some (s64 (cnt - 1), Idle)
  | Unlock, WriteHeld => Some (s64 (cnt + 1), Idle)
  | _, _ => None
  end.

(** The calls with no other thread in between, as the protocols' models use
    them: the counter and whether the call returned true. *)
Definition try_lock_shared (cnt : Z) : bool * Z :=
  if 0 <=? cnt then (true, s64 (cnt + 1)) else (false, cnt).
Definition try_lock_upgrade (cnt : Z) : bool * Z :=
  if cnt =? 1 then (true, -1) else (false, cnt).
Definition try_lock (cnt : Z) : bool * Z :=
  if cnt =? 0 then (true, -1) else (false, cnt).
Definition unlock_shared (cnt : Z) : Z := s64 (cnt - 1).
Definition unlock (cnt : Z) : Z := s64 (cnt + 1).

Record state := mkState { cnt : Z; threads : list thread }.

Definition initial (n : nat) : state := mkState 0 (replicate n Idle).

Inductive step : state → state → Prop :=
| step_act s i t a cnt' t' :
    threads s !! i = Some t → act a (cnt s) t = Some (cnt', t') →
    step s (mkState cnt' (<[i := t']> (threads s))).

End RWLock.

(** ** The invariant *)
Section rwlock.
Import RWLock.

Definition is_reader (t : thread) : bool :=
  match t with
  | ReadHeld => true
  | Called c | Loaded c _ => upgrades c
  | _ => false
  end.
Definition is_writer (t : thread) : bool :=
  match t with WriteHeld => true | _ => false end.

Fixpoint count (f : thread → bool) (l : list thread) : Z :=
  match l with [] => 0 | t :: l => (if f t then 1 else 0) + count f l end.

Lemma count_bounds f l : 0 ≤ count f l ≤ Z.of_nat (length l).
Proof. induction l as [|t l IH]; simpl; [done|]. destruct (f t); lia. Qed.

Lemma count_insert f l i t t' : l !! i = Some t →
  count f (<[i := t']> l) = count f l - (if f t then 1 else 0) + (if f t' then 1 else 0).
Proof.
  revert i. induction l as [|x l IH]; intros i Hi; [done|]. destruct i as [|i]; simpl in *.
  - simplify_eq. destruct (f t), (f t'); lia.
  - rewrite (IH i Hi). lia.
Qed.

Lemma count_positive f l i t : l !! i = Some t → f t = true → 1 ≤ count f l.
Proof.
  intros Hi Hf. revert i Hi. induction l as [|x l IH]; intros i Hi; [done|]. destruct i; simpl in *.
  - simplify_eq. rewrite Hf. pose proof (count_bounds f l). lia.
  - specialize (IH i Hi). destruct (f x); lia.
Qed.

Lemma count_two f l i j t u : f Idle = false → l !! i = Some t → l !! j = Some u → i ≠ j →
  f t = true → f u = true → 2 ≤ count f l.
Proof.
  intros HI Hi Hj Hij Ht Hu.
  pose proof (count_insert f l i t Idle Hi) as Hc. rewrite Ht, HI in Hc.
  pose proof (count_positive f (<[i := Idle]> l) j u) as Hp.
  rewrite list_lookup_insert_ne in Hp by done. specialize (Hp Hj Hu). lia.
Qed.

(** The counter counts the readers, or there is one writer and no reader. *)
Record rw_ok (s : state) : Prop := {
  rw_size : Z.of_nat (length (threads s)) < 2 ^ 62;
  rw_writers : count is_writer (threads s) ≤ 1;
  rw_count : cnt s = if count is_writer (threads s) =? 0 then count is_reader (threads s) else -1;
  rw_excl : count is_writer (threads s) = 1 → count is_reader (threads s) = 0
}.

Lemma s64_small z : - 2 ^ 62 ≤ z ≤ 2 ^ 62 → s64 z = z.
Proof. intros. unfold swrap. rewrite Z.mod_small; lia. Qed.

Lemma is_reader_acquired c : is_reader (acquired c) = match c with LockShared | TryLockShared => true | _ => false end.
Proof. by destruct c. Qed.

(** Returning from a call that did not acquire does not change the roles. *)
Lemma roles_kept c : (∀ t, t = before c ∨ t = refused c ∨ (∃ z, t = cas_failed c z) ∨ t = Called c ∨
    (∃ z, t = Loaded c z) → is_reader t = upgrades c ∧ is_writer t = false).
Proof. intros t [->|[->|[[z ->]|[->|[z ->]]]]]; by destruct c. Qed.

Lemma step_ok s s' : step s s' → rw_ok s → rw_ok s'.
Proof.
  intros [s0 i t a cnt' t' Hi Hact] [Hn Hw Hc He].
  pose proof (count_bounds is_reader (threads s0)). pose proof (count_bounds is_writer (threads s0)).
  pose proof (count_insert is_reader _ i t t' Hi) as HR. pose proof (count_insert is_writer _ i t t' Hi) as HW.
  assert (is_reader t = true → 1 ≤ count is_reader (threads s0)) as HR1 by (by intros; eapply count_positive).
  assert (is_writer t = true → 1 ≤ count is_writer (threads s0)) as HW1 by (by intros; eapply count_positive).
  assert (is_reader t' = is_reader t → is_writer t' = is_writer t → cnt' = cnt s0 →
    rw_ok (mkState cnt' (<[i := t']> (threads s0)))) as Hsame.
  { intros Er Ew ->. rewrite Er in HR. rewrite Ew in HW.
    split; simpl; rewrite ?length_insert, ?HR, ?HW; destruct (is_writer t), (is_reader t); try done;
      rewrite ?Z.sub_0_r, ?Z.add_0_r, ?Z.sub_add; done. }
  destruct a as [c| | |], t as [| | |c0|c0 e]; simpl in Hact; try done.
  - destruct (upgrades c) eqn:Hu; simplify_eq. apply Hsame; simpl; done.
  - destruct (upgrades c) eqn:Hu; simplify_eq. apply Hsame; simpl; done.
  - simplify_eq. by apply Hsame.
  - destruct (guard c0 e) eqn:Hg; [|by simplify_eq; apply Hsame; [destruct (roles_kept c0 (refused c0)); auto..|]].
    destruct (Z.eqb_spec (cnt s0) e) as [<-|];
      [|by simplify_eq; apply Hsame; [destruct (roles_kept c0 (cas_failed c0 (cnt s0))); eauto 6..|]].
    simplify_eq. split; simpl; rewrite ?length_insert, ?HR, ?HW; try done;
    destruct (Z.eqb_spec (count is_writer (threads s0)) 0); destruct c0; simpl in *; try lia;
    rewrite ?s64_small by lia; case_match; lia.
  - simplify_eq. simpl in *. split; simpl; rewrite ?length_insert, ?HR, ?HW; try done; try lia.
    destruct (Z.eqb_spec (count is_writer (threads s0)) 0); [|lia]. rewrite s64_small by lia.
    case_match; lia.
  - simplify_eq. simpl in *. specialize (HW1 eq_refl).
    split; simpl; rewrite ?length_insert, ?HR, ?HW; try done; try lia.
    destruct (Z.eqb_spec (count is_writer (threads s0)) 0); [lia|]. rewrite Hc.
    rewrite s64_small by lia. case_match; lia.
Qed.
End rwlock.

(** ** The guarantees of the lock *)
Section rwlock_properties.
Import RWLock.

Lemma initial_ok n : Z.of_nat n < 2 ^ 62 → rw_ok (initial n).
Proof.
  intros Hn. assert (∀ f, f Idle = false → count f (replicate n Idle) = 0) as Hc.
  { intros f Hf. clear Hn. induction n as [|n IH]; [done|]. simpl. by rewrite Hf, IH. }
  split; simpl; rewrite ?length_replicate, ?Hc by done; done.
Qed.

Lemma reachable_ok s s' : rtc step s s' → rw_ok s → rw_ok s'.
Proof. induction 1; eauto using step_ok. Qed.

(** C23: in every interleaving of any number of threads, while a thread
    holds the lock exclusively no other thread holds it, shared or
    exclusive, and [cnt] is -1; while none does, [cnt] counts the readers. *)
Theorem rwlock_mutual_exclusion (n : nat) (s : state) (Hn : Z.of_nat n < 2 ^ 62)
    (Hreach : rtc step (initial n) s) :
  (∀ i j t, i ≠ j → threads s !! i = Some WriteHeld → threads s !! j = Some t →
     is_writer t = false ∧ is_reader t = false ∧ cnt s = -1) ∧
  ((∀ i, threads s !! i ≠ Some WriteHeld) → cnt s = count is_reader (threads s)).
Proof.
  pose proof (reachable_ok _ _ Hreach (initial_ok n Hn)) as [_ Hw Hc He]. split.
  - intros i j t Hij Hi Hj. pose proof (count_positive is_writer _ i _ Hi eq_refl).
    assert (count is_writer (threads s) = 1) as Hw1 by lia. rewrite Hw1 in Hc. split_and!; [| |done].
    + apply not_true_iff_false. intros Ht.
      pose proof (count_two is_writer _ i j _ _ eq_refl Hi Hj Hij eq_refl Ht). lia.
    + apply not_true_iff_false. intros Ht. pose proof (count_positive is_reader _ j _ Hj Ht).
      specialize (He Hw1). lia.
  - intros Hno. assert (count is_writer (threads s) = 0) as Hw0; [|by rewrite Hc, Hw0].
    clear -Hno. induction (threads s) as [|t l IH]; [done|]. simpl.
    rewrite IH by (intros i; apply (Hno (S i))). specialize (Hno 0%nat). by destruct t.
Qed.

Definition in_upgrade (t : thread) : Prop :=
  match t with Called LockUpgrade | Loaded LockUpgrade _ => True | _ => False end.

Lemma in_upgrade_reader t : in_upgrade t → is_reader t = true.
Proof. by destruct t as [| | |[]|[]]. Qed.

Lemma upgrade_stays s s' i j t u : step s s' → rw_ok s → i ≠ j →
  threads s !! i = Some t → threads s !! j = Some u → in_upgrade t → in_upgrade u →
  ∃ t', threads s' !! i = Some t' ∧ in_upgrade t'.
Proof.
  intros [s0 k x a cnt' x' Hk Hact] [_ Hw Hc He] Hij Hi Hj Ht Hu. simpl.
  destruct (decide (k = i)) as [->|Hne]; [|exists t; by rewrite list_lookup_insert_ne].
  rewrite list_lookup_insert_eq by (by eapply lookup_lt_Some). exists x'. split; [done|].
  rewrite Hk in Hi. injection Hi as ->.
  pose proof (count_two is_reader _ i j _ _ eq_refl Hk Hj Hij (in_upgrade_reader _ Ht) (in_upgrade_reader _ Hu)).
  pose proof (count_bounds is_writer (threads s0)).
  assert (1 < cnt s0).
  { rewrite Hc. destruct (Z.eqb_spec (count is_writer (threads s0)) 0); [lia|]. specialize (He ltac:(lia)). lia. }
  destruct a, t as [| | |[]|[] e]; simpl in *; try done; simplify_eq; try done.
  destruct (Z.eqb_spec e 1) as [->|]; simpl in *; [|by simplify_eq].
  destruct (Z.eqb_spec (cnt s0) 1); [lia|by simplify_eq].
Qed.

(** Two readers that both call [lock_upgrade] spin forever: in no
    continuation does either of them acquire the lock. *)
Theorem rwlock_upgrade_deadlock (n : nat) (s s' : state) (i j : nat) (t u : thread)
    (Hn : Z.of_nat n < 2 ^ 62) (Hreach : rtc step (initial n) s) (Hij : i ≠ j)
    (Hi : threads s !! i = Some t) (Hj : threads s !! j = Some u)
    (Ht : in_upgrade t) (Hu : in_upgrade u) (Hsteps : rtc step s s') :
  ∃ t' u', threads s' !! i = Some t' ∧ threads s' !! j = Some u' ∧ in_upgrade t' ∧ in_upgrade u'.
Proof.
  assert (rw_ok s) as Hok by (eapply reachable_ok; [done|by apply initial_ok]).
  clear Hreach. revert t u Hi Hj Ht Hu. induction Hsteps as [s|s s1 s' Hstep Hsteps IH]; intros t u Hi Hj Ht Hu.
  - eauto 6.
  - destruct (upgrade_stays s s1 i j t u) as (t1 & ? & ?); [done..|].
    destruct (upgrade_stays s s1 j i u t) as (u1 & ? & ?); [done..|].
    eapply IH; [by eapply step_ok|done..].
Qed.

(** Run without interference, a [try_*] call takes the lock exactly
    when it is free for it, leaves the counter alone otherwise, and the
    matching unlock restores the counter. *)
Theorem rwlock_try_alone (cnt : Z) (Hcnt : - 1 ≤ cnt < 2 ^ 62) :
  (act Act cnt (Called TryLockShared) ≫= λ '(c, t), act Act c t) =
    Some (let '(b, c) := try_lock_shared cnt in (c, if b then ReadHeld else Idle)) ∧
  (act Act cnt (Called TryLockUpgrade) ≫= λ '(c, t), act Act c t) =
    Some (let '(b, c) := try_lock_upgrade cnt in (c, if b then WriteHeld else ReadHeld)) ∧
  (act Act cnt (Called TryLock) ≫= λ '(c, t), act Act c t) =
    Some (let '(b, c) := try_lock cnt in (c, if b then WriteHeld else Idle)) ∧
  (∀ c, try_lock_shared cnt = (true, c) → unlock_shared c = cnt) ∧
  (∀ c, try_lock cnt = (true, c) → unlock c = cnt).
Proof.
  unfold try_lock_shared, try_lock_upgrade, try_lock, unlock_shared, unlock. simpl.
  split_and!; try (repeat case_match; simpl; try done; lia).
  - intros c. destruct (Z.leb_spec 0 cnt); intros [= <-]. rewrite (s64_small (cnt + 1)) by lia.
    rewrite s64_small; lia.
  - intros c. destruct (Z.eqb_spec cnt 0); intros [= <-]. rewrite s64_small; lia.
Qed.

(** Executing a list of actions, each by a thread. *)
Fixpoint run (l : list (nat * action)) (s : state) : option state :=
  match l with
  | [] => Some s
  | (i, a) :: l =>
      t ← threads s !! i;
      '(cnt', t') ← act a (cnt s) t;
      run l (mkState cnt' (<[i := t']> (threads s)))
  end.

Lemma run_steps l s s' : run l s = Some s' → rtc step s s'.
Proof.
  revert s. induction l as [|[i a] l IH]; intros s; simpl; [by intros [= ->]|].
  intros (t & Hi & ([c t'] & Ha & Hr)%bind_Some)%bind_Some. eapply rtc_l; [|by apply IH].
  by eapply step_act.
Qed.

Definition writer_state : state := mkState (-1) [WriteHeld; Loaded Lock (-1)].

Lemma rwlock_mutual_exclusion_witness :
  (∀ i j t, i ≠ j → threads writer_state !! i = Some WriteHeld → threads writer_state !! j = Some t →
     is_writer t = false ∧ is_reader t = false ∧ cnt writer_state = -1) ∧
  ((∀ i, threads writer_state !! i ≠ Some WriteHeld) → cnt writer_state = count is_reader (threads writer_state)).
Proof.
  apply (rwlock_mutual_exclusion 2 writer_state); [lia|].
  apply (run_steps [(0, Call Lock); (1, Call Lock); (0, Act); (0, Act); (1, Act)])%nat. reflexivity.
Defined.

Definition two_upgraders : state := mkState 2 [Called LockUpgrade; Loaded LockUpgrade 2].

Lemma rwlock_upgrade_deadlock_witness :
  ∃ t' u', [Called LockUpgrade; Called LockUpgrade] !! 0%nat = Some t' ∧
    [Called LockUpgrade; Called LockUpgrade] !! 1%nat = Some u' ∧ in_upgrade t' ∧ in_upgrade u'.
Proof.
  apply (rwlock_upgrade_deadlock 2 two_upgraders (mkState 2 [Called LockUpgrade; Called LockUpgrade]) 0 1
    (Called LockUpgrade) (Loaded LockUpgrade 2)); [lia| |done..|].
  - apply (run_steps [(0, Call LockShared); (0, Act); (0, Act); (1, Call LockShared); (1, Act); (1, Act);
      (0, Call LockUpgrade); (1, Call LockUpgrade); (1, Act)])%nat. reflexivity.
  - apply (run_steps [(1%nat, Act)]). reflexivity.
Defined.

Lemma rwlock_try_alone_witness :
  (act Act 3 (Called TryLockShared) ≫= λ '(c, t), act Act c t) =
    Some (let '(b, c) := try_lock_shared 3 in (c, if b then ReadHeld else Idle)) ∧
  (act Act 3 (Called TryLockUpgrade) ≫= λ '(c, t), act Act c t) =
    Some (let '(b, c) := try_lock_upgrade 3 in (c, if b then WriteHeld else ReadHeld)) ∧
  (act Act 3 (Called TryLock) ≫= λ '(c, t), act Act c t) =
    Some (let '(b, c) := try_lock 3 in (c, if b then WriteHeld else Idle)) ∧
  (∀ c, try_lock_shared 3 = (true, c) → unlock_shared c = 3) ∧
  (∀ c, try_lock 3 = (true, c) → unlock c = 3).
Proof. apply (rwlock_try_alone 3). lia. Defined.
End rwlock_properties.
