(* ===== verification/WaitDieLock.v ===== *)
(** * protocols/waitdie/include/waitdielock.hpp: the wait-die lock

    A lock keeps its owners and its waiters in lists sorted by timestamp,
    largest (youngest) first.  A request that conflicts waits when it is
    older than every owner and dies otherwise.  Every member function runs
    under the latch, so a call is one step of the lock; the spin on
    [node->waiting] is the result [Waiting], and a release returns the
    waiters whose flag it cleared.  The file proves the lists' invariant, mutual
    exclusion, that no call of a client that follows the protocol throws, and
    that waiting is only ever older-for-younger, so that no cycle of waiting
    transactions exists over any set of locks. *)
From S2P Require Import Prelude.

(** ** TimestampSortedList *)
Module TimestampSortedList.
Section list.
Context {A : Type}.

(** [item_list]: the items with their timestamps. *)
Abbreviation t := (list (Z * A)).

(** The assertion at the end of the source's loop holds by the loop's test. *)
Fixpoint insert (ts : Z) (node : A) (l : t) : t :=
  match l with
  | [] => [(ts, node)]
  | x :: l' => if x.1 <? ts then (ts, node) :: l else x :: insert ts node l'
  end.

Fixpoint remove (ts : Z) (l : t) : outcome t :=
  match l with
  | [] => Throw "timestamp not in list"
  | x :: l => if x.1 =? ts then Ok l else l ← remove ts l; Ok (x :: l)
  end.

Definition front (l : t) : outcome (Z * A) := deref (head l).
Definition pop (l : t) : t := tail l.
Definition get_back_timestamp (l : t) : outcome Z := x ← deref (last l); Ok x.1.
Definition get_size (l : t) : Z := Z.of_nat (length l).
Definition empty (l : t) : bool := match l with [] => true | _ => false end.
End list.
End TimestampSortedList.

(** ** WaitDieLock *)
Module WaitDieLock.
Import TimestampSortedList.

Inductive Operation := I | S | E | U.
#[export] Instance Operation_eq_dec : EqDecision Operation.
Proof. solve_decision. Defined.

(** [OwnerList]: the mode and the owners; [WaiterList]: the waiters with
    the operation each waits for. *)
Record OwnerList := mkOwners { op : Operation; owners : list (Z * ()) }.
Record t := mk { waiter_list : list (Z * Operation); owner_list : OwnerList }.

Definition new : t := mk [] (mkOwners I []).

Definition owner_insert (o : OwnerList) (ts : Z) (mode : Operation) : OwnerList :=
  mkOwners mode (insert ts () (owners o)).

Definition owner_remove (o : OwnerList) (ts : Z) : outcome OwnerList :=
  l ← remove ts (owners o);
  Ok (mkOwners (if empty l then I else op o) l).

Definition get_min_timestamp (o : OwnerList) : outcome Z := get_back_timestamp (owners o).

(** What a request returns: the lock, a spin until a release grants it, or
    a refusal (the transaction dies). *)
Inductive result := Acquired | Waiting | Died.

Definition add_waiter (l : t) (ts : Z) (w : Operation) : t :=
  mk (insert ts w (waiter_list l)) (owner_list l).

Definition try_lock_shared (l : t) (ts : Z) : outcome (result * t) :=
  let no_waiter := empty (waiter_list l) in
  match op (owner_list l), no_waiter with
  | I, true | S, true => Ok (Acquired, mk (waiter_list l) (owner_insert (owner_list l) ts S))
  | I, false => Ok (Waiting, add_waiter l ts S)
  | S, false | E, _ =>
      min_ts ← get_min_timestamp (owner_list l);
      if ts <? min_ts then Ok (Waiting, add_waiter l ts S) else Ok (Died, l)
  | U, _ => Throw "Unhandled State Found"
  end.

Definition try_lock (l : t) (ts : Z) : outcome (result * t) :=
  let no_waiter := empty (waiter_list l) in
  match op (owner_list l), no_waiter with
  | I, true => Ok (Acquired, mk (waiter_list l) (owner_insert (owner_list l) ts E))
  | I, false => Ok (Waiting, add_waiter l ts E)
  | S, _ | E, _ =>
      min_ts ← get_min_timestamp (owner_list l);
      if ts <? min_ts then Ok (Waiting, add_waiter l ts E) else Ok (Died, l)
  | U, _ => Throw "Unhandled State Found"
  end.

Definition try_lock_upgrade (l : t) (ts : Z) : outcome (result * t) :=
  match op (owner_list l) with
  | I | E => Throw "No lock to upgrade"
  | S =>
      min_ts ← get_min_timestamp (owner_list l);
      let num_owners := get_size (owners (owner_list l)) in
      if (min_ts =? ts) && (1 <? num_owners) then Ok (Waiting, add_waiter l ts U)
      else if (min_ts =? ts) && (num_owners =? 1) then
        Ok (Acquired, mk (waiter_list l) (mkOwners E (owners (owner_list l))))
      else Ok (Died, l)
  | U => Throw "Unhandled State Found"
  end.

(** The loop of [promote_waiters]: each iteration pops a waiter.  It returns
    the lock and the waiters woken, in order. *)
Fixpoint promote (waiters : list (Z * Operation)) (o : OwnerList) : outcome (t * list Z) :=
  match waiters with
  | [] => Ok (mk [] o, [])
  | (ts, w_op) :: rest =>
      let o_op := op o in
      let num_owners := get_size (owners o) in
      let wake o := '(l, woken) ← promote rest o; Ok (l, ts :: woken) in
      match w_op, o_op with
      | S, E | E, S | E, E => Ok (mk waiters o, [])
      | U, I | U, E => Throw "Failed Promoting Waiter"
      | S, I | S, S => wake (owner_insert o ts S)
      | E, I => wake (owner_insert o ts E)
      | U, S =>
          if 1 <? num_owners then Ok (mk waiters o, [])
          else if num_owners =? 1 then
            min_ts ← get_min_timestamp o;
            _ ← assert_ (min_ts =? ts);
            wake (mkOwners E (owners o))
          else Throw "Unhandled State Found"
      | I, _ | _, U => Throw "Unhandled State Found"
      end
  end.

Definition promote_waiters (l : t) : outcome (t * list Z) := promote (waiter_list l) (owner_list l).

Definition unlock_shared (l : t) (ts : Z) : outcome (t * list Z) :=
  match op (owner_list l) with
  | I | E => Throw "No shared lock to unlock"
  | S => o ← owner_remove (owner_list l) ts; promote_waiters (mk (waiter_list l) o)
  | U => Throw "Unhandled State Found"
  end.

Definition unlock (l : t) (ts : Z) : outcome (t * list Z) :=
  match op (owner_list l) with
  | I | S => Throw "No exclusive lock to unlock"
  | E => o ← owner_remove (owner_list l) ts; promote_waiters (mk (waiter_list l) o)
  | U => Throw "Unhandled State Found"
  end.

End WaitDieLock.

(** ** Lists sorted from the youngest to the oldest *)
Section sorted_list.
Import TimestampSortedList.
Context {A : Type}.
Implicit Types (l : list (Z * A)) (ts : Z).

Definition youngest_first l : Prop := StronglySorted Z.gt l.*1.

Lemma youngest_cons x l : youngest_first (x :: l) ↔ (∀ ts, ts ∈ l.*1 → ts < x.1) ∧ youngest_first l.
Proof.
  unfold youngest_first. csimpl. split.
  - intros [Hs Hall]%StronglySorted_inv. rewrite Forall_forall in Hall.
    split; [|done]. intros ts Hin. specialize (Hall ts Hin). lia.
  - intros [Hlt Hs]. constructor; [done|]. apply Forall_forall. intros ts Hin%Hlt. lia.
Qed.

Lemma insert_perm ts node l : insert ts node l ≡ₚ (ts, node) :: l.
Proof.
  induction l as [|x l IH]; [done|]. simpl. case_match; [done|]. rewrite IH. constructor.
Qed.

Lemma insert_youngest ts node l : youngest_first l → ts ∉ l.*1 → youngest_first (insert ts node l).
Proof.
  induction l as [|x l IH]; intros Hs Hni; [by repeat constructor|]. csimpl in Hni.
  apply not_elem_of_cons in Hni as [Hne Hni]. simpl.
  pose proof Hs as [Hlt Hs']%youngest_cons. destruct (Z.ltb_spec x.1 ts).
  - apply youngest_cons. split; [|done]. intros y [->|Hy%Hlt]%elem_of_cons; simpl; lia.
  - apply youngest_cons. split; [|auto]. intros y. rewrite insert_perm. csimpl.
    intros [->|Hy%Hlt]%elem_of_cons; lia.
Qed.

Lemma remove_spec ts l : youngest_first l → ts ∈ l.*1 →
  ∃ l', remove ts l = Ok l' ∧ youngest_first l' ∧ (∀ y, y ∈ l'.*1 ↔ y ∈ l.*1 ∧ y ≠ ts) ∧
    length l = S (length l').
Proof.
  induction l as [|x l IH]; intros Hs Hin; [by apply not_elem_of_nil in Hin|].
  pose proof Hs as [Hlt Hs']%youngest_cons. csimpl in Hin. cbn [remove].
  destruct (Z.eqb_spec x.1 ts) as [<-|Hne].
  - exists l. split_and!; try done. csimpl. intros y. rewrite elem_of_cons. split.
    + intros Hy. split; [by right|]. intros ->. specialize (Hlt _ Hy). lia.
    + intros [[|] ?]; done.
  - destruct IH as (l' & -> & Hs'' & Hl' & Hlen); [done|set_solver|]. exists (x :: l'). split_and!; [done| | |].
    + apply youngest_cons. split; [|done]. intros y [Hy _]%Hl'. auto.
    + intros y. csimpl. rewrite !elem_of_cons, Hl'. naive_solver.
    + simpl. by rewrite Hlen.
Qed.

Lemma back_spec l : youngest_first l → l ≠ [] →
  ∃ m, get_back_timestamp l = Ok m ∧ m ∈ l.*1 ∧ ∀ y, y ∈ l.*1 → m ≤ y.
Proof.
  intros Hs Hne. unfold get_back_timestamp. destruct (last l) as [x|] eqn:Hl; [|by apply last_None in Hl].
  simpl. exists x.1. apply last_Some in Hl as [l' ->]. split_and!; [done|rewrite fmap_app; set_solver|].
  clear Hne. induction l' as [|z l' IH]; [cbn|rewrite <- app_comm_cons in *; csimpl].
  - intros y [->|Hy%not_elem_of_nil]%elem_of_cons; [lia|done].
  - apply youngest_cons in Hs as [Hlt Hs]. intros y [->|Hy]%elem_of_cons; [|by apply IH].
    specialize (Hlt x.1). rewrite fmap_app in Hlt. specialize (Hlt ltac:(set_solver)). lia.
Qed.
End sorted_list.

(** ** The invariant *)
Section wait_die.
Import TimestampSortedList WaitDieLock.

Definition owner_ts (o : OwnerList) : list Z := (owners o).*1.
Definition waiter_ts (l : t) : list Z := (waiter_list l).*1.

Definition mode_ok (o : OwnerList) : Prop :=
  match op o with
  | I => owners o = []
  | S => owners o ≠ []
  | E => length (owners o) = 1%nat
  | U => False
  end.

(** A waiter is older than every owner; one that waits to upgrade is the
    oldest owner of a shared lock. *)
Definition waiter_ok (o : OwnerList) (w : Z * Operation) : Prop :=
  match w.2 with
  | S | E => ∀ y, y ∈ owner_ts o → w.1 < y
  | U => op o = S ∧ w.1 ∈ owner_ts o ∧ ∀ y, y ∈ owner_ts o → w.1 ≤ y
  | I => False
  end.

Record lists_ok (ws : list (Z * Operation)) (o : OwnerList) : Prop := {
  ok_owners : youngest_first (owners o);
  ok_waiters : youngest_first ws;
  ok_mode : mode_ok o;
  ok_waiter : ∀ w, w ∈ ws → waiter_ok o w
}.

(** Between calls a lock with waiters has owners to wait for, at least two
    when one waits to upgrade. *)
Record lock_ok (l : t) : Prop := {
  ok_lists : lists_ok (waiter_list l) (owner_list l);
  ok_blocked : waiter_list l ≠ [] → owners (owner_list l) ≠ [];
  ok_upgrade : ∀ ts, (ts, U) ∈ waiter_list l → (1 < length (owners (owner_list l)))%nat
}.

(** Only the first waiter can wait to upgrade. *)
Lemma upgrade_first ts w rest o ts' : lists_ok ((ts, w) :: rest) o → (ts', U) ∈ rest → False.
Proof.
  intros [_ Hw _ Hok] Hin. apply youngest_cons in Hw as [Hlt _]. simpl in Hlt.
  specialize (Hlt ts' ltac:(by apply (list_elem_of_fmap_2 fst _ (ts', U)))).
  pose proof (Hok (ts, w) ltac:(set_solver)) as H1. pose proof (Hok (ts', U) ltac:(set_solver)) as (_ & Hin' & Hmin).
  unfold waiter_ok in H1. simpl in *. destruct w; [done| | |].
  - specialize (H1 _ Hin'). lia.
  - specialize (H1 _ Hin'). lia.
  - destruct H1 as (_ & Hin1 & Hmin1). specialize (Hmin _ Hin1). specialize (Hmin1 _ Hin'). lia.
Qed.

Lemma owner_insert_ts o ts m y : y ∈ owner_ts (owner_insert o ts m) ↔ y = ts ∨ y ∈ owner_ts o.
Proof. unfold owner_ts. simpl. rewrite insert_perm. csimpl. apply elem_of_cons. Qed.

(** Granting the first waiter [ts] in mode [m] keeps the lists sound. *)
Lemma grant_ok ts w rest o m : lists_ok ((ts, w) :: rest) o → w = S ∨ w = E →
  (m = S ∨ (m = E ∧ owners o = [])) → lists_ok rest (owner_insert o ts m).
Proof.
  intros Hok Hw Hm. pose proof Hok as [Ho Hws Hmode Hwok].
  pose proof (Hwok (ts, w) ltac:(set_solver)) as Hlt.
  assert (∀ y, y ∈ owner_ts o → ts < y) as Hlt' by (unfold waiter_ok in Hlt; destruct Hw; by subst).
  pose proof Hws as [Hold Hws']%youngest_cons. simpl in Hold. split.
  - apply insert_youngest; [done|]. intros Hin%Hlt'. lia.
  - done.
  - unfold mode_ok. simpl. destruct Hm as [->|[-> Hn]]; [|by rewrite Hn].
    intros Hn. apply (f_equal length) in Hn. by rewrite insert_perm in Hn.
  - intros [ts' w'] Hin. pose proof (Hwok (ts', w') ltac:(set_solver)) as H'. unfold waiter_ok in *. simpl in *.
    assert (ts' < ts) by (apply Hold; by apply (list_elem_of_fmap_2 fst _ (ts', w'))).
    destruct w'; [done| | |exfalso; by eapply upgrade_first];
      intros y [->|Hy]%owner_insert_ts; auto.
Qed.

Lemma single_owner o ts : youngest_first (owners o) → length (owners o) = 1%nat → ts ∈ owner_ts o →
  owner_ts o = [ts] ∧ get_min_timestamp o = Ok ts.
Proof.
  unfold owner_ts, get_min_timestamp, get_back_timestamp. intros _ Hlen Hin.
  destruct (owners o) as [|x [|? ?]]; try done. csimpl in *.
  apply list_elem_of_singleton in Hin as ->. done.
Qed.

(** [promote_waiters] grants a prefix of the waiters, restores the
    invariant and never throws. *)
Lemma promote_spec ws o : lists_ok ws o →
  ∃ l woken, promote ws o = Ok (l, woken) ∧ lock_ok l ∧ ws.*1 = woken ++ waiter_ts l ∧
    (∀ y, y ∈ owner_ts (owner_list l) ↔ y ∈ owner_ts o ∨ y ∈ woken).
Proof.
  revert o. induction ws as [|[ts w] rest IH]; intros o Hok.
  { eexists _, []. split; [done|]. split_and!; [|done|set_solver].
    split; [done|done|]. intros ts Hin. by apply not_elem_of_nil in Hin. }
  pose proof (ok_mode _ _ Hok) as Hmode. unfold mode_ok in Hmode.
  pose proof (ok_waiter _ _ Hok (ts, w) ltac:(set_solver)) as Hw. unfold waiter_ok in Hw. simpl in Hw.
  assert (∀ m, (w = S ∨ w = E) → (m = S ∨ (m = E ∧ owners o = [])) →
    ∃ l woken, ('(l, woken) ← promote rest (owner_insert o ts m); Ok (l, ts :: woken)) = Ok (l, woken) ∧
      lock_ok l ∧ ts :: rest.*1 = woken ++ waiter_ts l ∧
      (∀ y, y ∈ owner_ts (owner_list l) ↔ y ∈ owner_ts o ∨ y ∈ woken)) as Hgrant.
  { intros m Hw' Hm. destruct (IH _ (grant_ok ts w rest o m Hok Hw' Hm)) as (l & woken & -> & Hl & Hws & Hown).
    exists l, (ts :: woken). simpl. split_and!; try done; [by rewrite Hws|].
    intros y. rewrite Hown, owner_insert_ts, elem_of_cons. naive_solver. }
  assert (owners o ≠ [] → (∀ ts', w = U → ts' = ts → (1 < length (owners o))%nat) →
    ∃ l woken, Ok (mk ((ts, w) :: rest) o, []) = Ok (l, woken) ∧
      lock_ok l ∧ ts :: rest.*1 = woken ++ waiter_ts l ∧
      (∀ y, y ∈ owner_ts (owner_list l) ↔ y ∈ owner_ts o ∨ y ∈ woken)) as Hstop.
  { intros Hne Hup. eexists _, []. split; [done|]. split_and!; [|done|set_solver]. split; [done|done|].
    simpl. intros ts' [[= <- <-]|Hin]%elem_of_cons; [eauto|]. exfalso. by eapply upgrade_first. }
  csimpl. destruct w; [done|..].
  - destruct (op o) eqn:Hop; [apply Hgrant; auto|apply Hgrant; auto| |done].
    apply Hstop; [by destruct (owners o)|done].
  - destruct (op o) eqn:Hop; [apply Hgrant; auto|apply Hstop; done| |done].
    apply Hstop; [by destruct (owners o)|done].
  - destruct Hw as (Hop & Hin & Hmin). rewrite Hop in *.
    unfold get_size. destruct (Z.ltb_spec 1 (Z.of_nat (length (owners o)))) as [Hgt|Hle].
    { apply Hstop; [done|lia]. }
    assert (length (owners o) = 1%nat) as Hone by (destruct (owners o); [done|simpl in *; lia]).
    rewrite Hone. simpl. destruct (single_owner o ts (ok_owners _ _ Hok) Hone Hin) as [Hts ->]. simpl.
    rewrite Z.eqb_refl. simpl.
    destruct (IH (mkOwners E (owners o))) as (l & woken & -> & Hl & Hws & Hown).
    { split; [apply Hok|by apply (proj2 (proj1 (youngest_cons _ _) (ok_waiters _ _ Hok)))|done|].
      intros [ts' w'] Hin'. pose proof (ok_waiter _ _ Hok (ts', w') ltac:(set_solver)) as H'.
      unfold waiter_ok in *. simpl in *. destruct w'; try done. exfalso. by eapply upgrade_first. }
    exists l, (ts :: woken). simpl. split_and!; try done; [by rewrite Hws|].
    intros y. rewrite Hown, elem_of_cons. unfold owner_ts at 1. simpl. fold (owner_ts o).
    rewrite Hts, list_elem_of_singleton. tauto.
Qed.

(** ** The calls *)

(** The calls of a client that follows the protocol: a transaction asks for
    a lock it neither holds nor waits for, upgrades or releases a shared lock
    it holds while it does not wait, and releases an exclusive lock it holds. *)
Inductive event := ELockShared (ts : Z) | ELock (ts : Z) | EUpgrade (ts : Z)
  | EUnlockShared (ts : Z) | EUnlock (ts : Z).

Definition absent (l : t) (ts : Z) : Prop :=
  (ts ∉ owner_ts (owner_list l)) ∧ (ts ∉ waiter_ts l).
Definition holds (l : t) (m : Operation) (ts : Z) : Prop :=
  op (owner_list l) = m ∧ ts ∈ owner_ts (owner_list l) ∧ (ts ∉ waiter_ts l).

Definition allowed (l : t) (e : event) : Prop :=
  match e with
  | ELockShared ts | ELock ts => absent l ts
  | EUpgrade ts | EUnlockShared ts => holds l S ts
  | EUnlock ts => holds l E ts
  end.

Definition perform (l : t) (e : event) : outcome t :=
  match e with
  | ELockShared ts => '(_, l) ← try_lock_shared l ts; Ok l
  | ELock ts => '(_, l) ← try_lock l ts; Ok l
  | EUpgrade ts => '(_, l) ← try_lock_upgrade l ts; Ok l
  | EUnlockShared ts => '(l, _) ← unlock_shared l ts; Ok l
  | EUnlock ts => '(l, _) ← unlock l ts; Ok l
  end.

(** Queueing a waiter that is older than every owner. *)
Lemma add_waiter_ok l ts w : lock_ok l → absent l ts → w = S ∨ w = E →
  owners (owner_list l) ≠ [] → (∀ y, y ∈ owner_ts (owner_list l) → ts < y) →
  lock_ok (add_waiter l ts w).
Proof.
  intros [[Ho Hws Hm Hw] Hb Hu] [_ Hni] Hop Hne Hlt. split; [split|..]; simpl; try done.
  - by apply insert_youngest.
  - intros x. rewrite insert_perm. intros [->|Hx]%elem_of_cons; [|auto]. unfold waiter_ok. simpl.
    by destruct Hop; subst.
  - intros ts'. rewrite insert_perm. intros [[= _ <-]|Hx]%elem_of_cons; [by destruct Hop|eauto].
Qed.

Lemma first_owner_ok l ts m : lock_ok l → waiter_list l = [] → absent l ts →
  (m = S ∨ (m = E ∧ owners (owner_list l) = [])) →
  lock_ok (mk (waiter_list l) (owner_insert (owner_list l) ts m)).
Proof.
  intros [[Ho Hws Hmo Hw] Hb Hu] Hnil [Hni _] Hm. rewrite Hnil in *.
  split; [split|..]; simpl; try done; try (intros x Hx; by apply not_elem_of_nil in Hx).
  - by apply insert_youngest.
  - unfold mode_ok. simpl. destruct Hm as [->|[-> Hn]]; [|by rewrite Hn].
    intros Hn. apply (f_equal length) in Hn. by rewrite insert_perm in Hn.
Qed.

Lemma empty_nil {A} (l : list (Z * A)) : empty l = true ↔ l = [].
Proof. by destruct l. Qed.

Lemma min_spec l : lock_ok l → owners (owner_list l) ≠ [] →
  ∃ m, get_min_timestamp (owner_list l) = Ok m ∧ m ∈ owner_ts (owner_list l) ∧
    ∀ y, y ∈ owner_ts (owner_list l) → m ≤ y.
Proof. intros Hl Hne. apply back_spec; [apply Hl|done]. Qed.

(** A conflicting request waits or dies. *)
Lemma wait_or_die l ts w : lock_ok l → absent l ts → w = S ∨ w = E → owners (owner_list l) ≠ [] →
  ∃ r l', (min_ts ← get_min_timestamp (owner_list l);
           if ts <? min_ts then Ok (Waiting, add_waiter l ts w) else Ok (Died, l)) = Ok (r, l') ∧
    lock_ok l' ∧ (r = Waiting ∨ r = Died) ∧
    (r = Waiting ↔ ∀ y, y ∈ owner_ts (owner_list l) → ts < y).
Proof.
  intros Hl Ha Hw Hne. destruct (min_spec l Hl Hne) as (m & -> & Hin & Hmin). simpl.
  destruct (Z.ltb_spec ts m).
  - eexists _, _. split; [done|]. split_and!; [|by left|].
    + apply add_waiter_ok; try done. intros y ?%Hmin. lia.
    + split; [|done]. intros _ y ?%Hmin. lia.
  - eexists _, _. split; [done|]. split_and!; [done|by right|]. split; [done|].
    intros Hlt. specialize (Hlt _ Hin). lia.
Qed.

Lemma owners_nonempty l m : lock_ok l → op (owner_list l) = m → m = S ∨ m = E → owners (owner_list l) ≠ [].
Proof.
  intros Hl Hop Hm. pose proof (ok_mode _ _ (ok_lists _ Hl)) as Hmode. unfold mode_ok in Hmode.
  rewrite Hop in Hmode. destruct Hm; subst; rewrite H in Hmode; [done|]. by destruct (owners _).
Qed.

(** What a request decides: it is granted when it conflicts with nothing,
    and otherwise waits exactly when it is older than every owner. *)
Definition decides (l : t) (ts : Z) (free : bool) (r : result) : Prop :=
  if free then r = Acquired
  else (r = Waiting ∨ r = Died) ∧ (r = Waiting ↔ ∀ y, y ∈ owner_ts (owner_list l) → ts < y).

Definition free_shared (l : t) : bool :=
  match op (owner_list l) with I | S => empty (waiter_list l) | _ => false end.
Definition free_exclusive (l : t) : bool :=
  match op (owner_list l) with I => empty (waiter_list l) | _ => false end.

Lemma try_lock_shared_spec l ts : lock_ok l → absent l ts →
  ∃ r l', try_lock_shared l ts = Ok (r, l') ∧ lock_ok l' ∧ decides l ts (free_shared l) r.
Proof.
  intros Hl Ha. pose proof (ok_mode _ _ (ok_lists _ Hl)) as Hm. unfold mode_ok in Hm.
  pose proof (ok_blocked _ Hl) as Hb.
  unfold try_lock_shared, decides, free_shared. destruct (op (owner_list l)) eqn:Hop; [..|done].
  - destruct (empty (waiter_list l)) eqn:He; [|by exfalso; apply Hb; [intros Hn; by rewrite Hn in He|]].
    apply empty_nil in He. eexists _, _. split; [done|]. split; [|done]. apply first_owner_ok; auto.
  - destruct (empty (waiter_list l)) eqn:He; [|apply wait_or_die; auto].
    apply empty_nil in He. eexists _, _. split; [done|]. split; [|done]. apply first_owner_ok; auto.
  - apply wait_or_die; auto. by eapply owners_nonempty; [| |right].
Qed.

Lemma try_lock_spec l ts : lock_ok l → absent l ts →
  ∃ r l', try_lock l ts = Ok (r, l') ∧ lock_ok l' ∧ decides l ts (free_exclusive l) r.
Proof.
  intros Hl Ha. pose proof (ok_mode _ _ (ok_lists _ Hl)) as Hm. unfold mode_ok in Hm.
  pose proof (ok_blocked _ Hl) as Hb.
  unfold try_lock, decides, free_exclusive. destruct (op (owner_list l)) eqn:Hop; [..|done].
  - destruct (empty (waiter_list l)) eqn:He; [|by exfalso; apply Hb; [intros Hn; by rewrite Hn in He|]].
    apply empty_nil in He. eexists _, _. split; [done|]. split; [|done]. apply first_owner_ok; auto.
  - apply wait_or_die; auto.
  - apply wait_or_die; auto. by eapply owners_nonempty; [| |right].
Qed.

(** An upgrade is granted to the only owner, waits for the oldest of several
    and is refused to the others. *)
Lemma try_lock_upgrade_spec l ts : lock_ok l → holds l S ts →
  ∃ r l', try_lock_upgrade l ts = Ok (r, l') ∧ lock_ok l' ∧
    match r with
    | Acquired => owner_ts (owner_list l) = [ts]
    | Waiting => (1 < length (owners (owner_list l)))%nat ∧ ∀ y, y ∈ owner_ts (owner_list l) → ts ≤ y
    | Died => ∃ y, y ∈ owner_ts (owner_list l) ∧ y < ts
    end.
Proof.
  intros Hl (Hop & Hin & Hni). pose proof Hl as [[Ho Hws Hm Hw] Hb Hu].
  assert (owners (owner_list l) ≠ []) as Hne by (by eapply owners_nonempty; [| |left]).
  destruct (min_spec l Hl Hne) as (m & Hmin & Hmin_in & Hmin_le).
  unfold try_lock_upgrade. rewrite Hop, Hmin. simpl. unfold get_size.
  destruct (Z.eqb_spec m ts) as [->|Hmts]; simpl.
  2:{ eexists _, _. split; [done|]. split; [done|]. exists m. specialize (Hmin_le _ Hin). split; [done|lia]. }
  destruct (Z.ltb_spec 1 (Z.of_nat (length (owners (owner_list l))))) as [Hgt|Hle].
  - eexists _, _. split; [done|]. split; [|split; [lia|done]].
    split; [split|..]; simpl; try done.
    + by apply insert_youngest.
    + intros x. rewrite insert_perm. intros [->|Hx]%elem_of_cons; [|auto]. done.
    + intros ts' _. lia.
  - assert (length (owners (owner_list l)) = 1%nat) as Hone by (destruct (owners _); [done|simpl in *; lia]).
    rewrite Hone. simpl. eexists _, _. split; [done|]. split; [|by apply single_owner].
    split; [split|..]; simpl; try done.
    + intros [ts' w'] Hx. pose proof (Hw _ Hx) as H'. unfold waiter_ok in *. simpl in *.
      destruct w'; try done. apply Hu in Hx. lia.
Qed.

(** A release wakes a prefix of the queue; the waiters left still wait for
    an owner. *)
Definition released (l l' : t) (ts : Z) (woken : list Z) : Prop :=
  waiter_ts l = woken ++ waiter_ts l' ∧
  (∀ y, y ∈ owner_ts (owner_list l') ↔ (y ∈ owner_ts (owner_list l) ∧ y ≠ ts) ∨ y ∈ woken) ∧
  (waiter_list l ≠ [] → owners (owner_list l') ≠ []).

Lemma release_spec l ts m : lock_ok l → holds l m ts → m = S ∨ m = E →
  ∃ l' woken, (o ← owner_remove (owner_list l) ts; promote_waiters (mk (waiter_list l) o)) = Ok (l', woken) ∧
    lock_ok l' ∧ released l l' ts woken.
Proof.
  intros Hl (Hop & Hin & Hni) Hm. pose proof Hl as [[Ho Hws Hmo Hw] Hb Hu].
  destruct (remove_spec ts (owners (owner_list l)) Ho Hin) as (os & Hrem & Hos & Hel & Hlen).
  unfold owner_remove. rewrite Hrem. simpl. unfold promote_waiters. simpl.
  set (o := mkOwners _ _). assert (∀ y, y ∈ owner_ts o ↔ y ∈ owner_ts (owner_list l) ∧ y ≠ ts) as Hot by done.
  destruct (promote_spec (waiter_list l) o) as (l' & woken & -> & Hl' & Hq & Hown).
  { split; try done.
    - unfold mode_ok, o. simpl. unfold mode_ok in Hmo. rewrite Hop in *.
      destruct os as [|x os']; simpl; [done|]. destruct Hm as [Hm|Hm]; rewrite Hm in *; [done|]. simpl in *. lia.
    - intros [ts' w'] Hx. pose proof (Hw _ Hx) as H'. unfold waiter_ok in *. simpl in *.
      destruct w'; try done; try by (intros y [? _]%Hot; auto).
      destruct H' as (Hs & Hin' & Hmin). pose proof (Hu _ Hx).
      assert (ts' ≠ ts) by (intros ->; apply Hni; by apply (list_elem_of_fmap_2 fst _ (ts, U))).
      rewrite Hs in *. split_and!; [|by apply Hot|].
      + destruct os; [simpl in *; lia|done].
      + intros y [? _]%Hot. auto. }
  eexists _, _. split; [done|]. split; [done|]. split_and!; [done| |].
  - intros y. rewrite Hown, Hot. done.
  - intros Hne Hnil. pose proof (ok_blocked _ Hl') as Hb'.
    assert (waiter_list l' = []) as Hw' by (destruct (waiter_list l'); [done|by exfalso; apply Hb']).
    unfold waiter_ts in Hq. rewrite Hw', app_nil_r in Hq.
    destruct (waiter_list l) as [|[y w] ws]; [done|]. csimpl in Hq.
    assert (y ∈ owner_ts (owner_list l')) as Hy by (apply Hown; right; rewrite <- Hq; set_solver).
    unfold owner_ts in Hy. rewrite Hnil in Hy. by apply not_elem_of_nil in Hy.
Qed.

Lemma perform_ok l e : lock_ok l → allowed l e → ∃ l', perform l e = Ok l' ∧ lock_ok l'.
Proof.
  intros Hl Ha. destruct e; simpl in *.
  - destruct (try_lock_shared_spec l ts Hl Ha) as (r & l' & -> & ? & _). eauto.
  - destruct (try_lock_spec l ts Hl Ha) as (r & l' & -> & ? & _). eauto.
  - destruct (try_lock_upgrade_spec l ts Hl Ha) as (r & l' & -> & ? & _). eauto.
  - destruct (release_spec l ts S Hl Ha) as (l' & w & Hr & ? & _); [by left|].
    unfold unlock_shared. destruct Ha as (-> & _). rewrite Hr. eauto.
  - destruct (release_spec l ts E Hl Ha) as (l' & w & Hr & ? & _); [by right|].
    unfold unlock. destruct Ha as (-> & _). rewrite Hr. eauto.
Qed.

(** The locks that clients following the protocol produce. *)
Inductive reachable : t → Prop :=
| reach_new : reachable new
| reach_step l e l' : reachable l → allowed l e → perform l e = Ok l' → reachable l'.

Lemma reachable_lock_ok l : reachable l → lock_ok l.
Proof.
  induction 1 as [|l e l' Hr IH Ha Hp].
  - split; [split|..]; simpl; try done; try constructor; intros x Hx; by apply not_elem_of_nil in Hx.
  - destruct (perform_ok l e IH Ha) as (l1 & Hp' & ?). congruence.
Qed.
End wait_die.

(** ** The guarantees of the lock *)
Section wait_die_properties.
Import TimestampSortedList WaitDieLock.

(** A lock used by clients that follow the protocol never throws and
    never fails an assertion; an exclusive lock has exactly one owner, an
    invalid one none, and a lock with waiters always has an owner whose
    release will consider them. *)
Theorem waitdie_lock_safe (l : t) (Hreach : reachable l) :
  (∀ e, allowed l e → ∃ l', perform l e = Ok l' ∧ reachable l') ∧
  (op (owner_list l) = E → ∃ ts, owner_ts (owner_list l) = [ts]) ∧
  (op (owner_list l) = I ↔ owner_ts (owner_list l) = []) ∧
  (waiter_list l ≠ [] → owners (owner_list l) ≠ []).
Proof.
  pose proof (reachable_lock_ok l Hreach) as Hl. pose proof Hl as [[_ _ Hm _] Hb _].
  unfold mode_ok in Hm. unfold owner_ts. split_and!.
  - intros e Ha. destruct (perform_ok l e Hl Ha) as (l' & Hp & _). exists l'.
    split; [done|by eapply reach_step].
  - intros Hop. rewrite Hop in Hm. destruct (owners (owner_list l)) as [|x [|? ?]]; try done. by exists x.1.
  - destruct (op (owner_list l)) eqn:Hop; [rewrite Hm|..]; try done;
      (split; [done|]); intros Hn; destruct (owners (owner_list l)); done.
  - done.
Qed.

(** The wait-die decision.  A request that conflicts with nothing is
    granted; a conflicting one waits exactly when it is older than every
    owner and dies otherwise; an upgrade is granted to the only owner, waits
    for the oldest of several and dies for the others. *)
Theorem waitdie_decision (l : t) (ts : Z) (Hreach : reachable l) :
  (absent l ts → ∃ r l', try_lock_shared l ts = Ok (r, l') ∧ decides l ts (free_shared l) r) ∧
  (absent l ts → ∃ r l', try_lock l ts = Ok (r, l') ∧ decides l ts (free_exclusive l) r) ∧
  (holds l S ts → ∃ r l', try_lock_upgrade l ts = Ok (r, l') ∧
     match r with
     | Acquired => owner_ts (owner_list l) = [ts]
     | Waiting => (1 < length (owners (owner_list l)))%nat ∧ ∀ y, y ∈ owner_ts (owner_list l) → ts ≤ y
     | Died => ∃ y, y ∈ owner_ts (owner_list l) ∧ y < ts
     end).
Proof.
  pose proof (reachable_lock_ok l Hreach) as Hl. split_and!; intros Ha.
  - destruct (try_lock_shared_spec l ts Hl Ha) as (r & l' & ? & _ & ?). eauto.
  - destruct (try_lock_spec l ts Hl Ha) as (r & l' & ? & _ & ?). eauto.
  - destruct (try_lock_upgrade_spec l ts Hl Ha) as (r & l' & ? & _ & ?). eauto.
Qed.

(** A release hands the lock to a prefix of the queue, youngest first:
    the waiters woken become owners beside the other owners, the rest keep
    their place and wait for an owner. *)
Theorem waitdie_release (l : t) (ts : Z) (Hreach : reachable l) :
  (holds l S ts → ∃ l' woken, unlock_shared l ts = Ok (l', woken) ∧ released l l' ts woken) ∧
  (holds l E ts → ∃ l' woken, unlock l ts = Ok (l', woken) ∧ released l l' ts woken).
Proof.
  pose proof (reachable_lock_ok l Hreach) as Hl. split; intros Ha.
  - destruct (release_spec l ts S Hl Ha) as (l' & w & Hr & _ & ?); [by left|].
    unfold unlock_shared. destruct Ha as (-> & _). rewrite Hr. eauto.
  - destruct (release_spec l ts E Hl Ha) as (l' & w & Hr & _ & ?); [by right|].
    unfold unlock. destruct Ha as (-> & _). rewrite Hr. eauto.
Qed.

(** Transaction [a] waits for [b] at lock [l]: [b] owns it, or is ahead of
    [a] in the queue. *)
Definition waits_for (l : t) (a b : Z) : Prop :=
  a ≠ b ∧ a ∈ waiter_ts l ∧
  (b ∈ owner_ts (owner_list l) ∨ ∃ q1 q2, waiter_ts l = q1 ++ q2 ∧ b ∈ q1 ∧ a ∈ q2).

Lemma waits_for_older l a b : lock_ok l → waits_for l a b → a < b.
Proof.
  intros [[Ho Hws _ Hw] _ _] (Hne & Ha & [Hb|(q1 & q2 & Hq & Hb & Ha2)]).
  - unfold waiter_ts in Ha. apply list_elem_of_fmap_1 in Ha as ([a' w] & -> & Hin).
    pose proof (Hw _ Hin) as H'. unfold waiter_ok in H'. simpl in *.
    destruct w; [done|by apply H'..|]. destruct H' as (_ & _ & Hmin). specialize (Hmin _ Hb). lia.
  - unfold youngest_first in Hws. change (waiter_list l).*1 with (waiter_ts l) in Hws. rewrite Hq in Hws.
    clear -Hws Hb Ha2. induction q1 as [|x q1 IH]; [by apply not_elem_of_nil in Hb|].
    cbn in Hws. apply StronglySorted_inv in Hws as [Hs Hall]. rewrite Forall_forall in Hall.
    apply elem_of_cons in Hb as [->|Hb]; [|by apply IH]. specialize (Hall a ltac:(set_solver)). lia.
Qed.

(** No deadlock.  Over any set of locks, a transaction only ever waits
    for younger ones, through any chain of waits; so no transaction waits
    for itself. *)
Theorem waitdie_no_deadlock (locks : list t) (Hreach : ∀ l, l ∈ locks → reachable l) :
  (∀ a b, tc (λ a b, ∃ l, l ∈ locks ∧ waits_for l a b) a b → a < b) ∧
  (∀ a, ¬ tc (λ a b, ∃ l, l ∈ locks ∧ waits_for l a b) a a).
Proof.
  assert (∀ a b, tc (λ a b, ∃ l, l ∈ locks ∧ waits_for l a b) a b → a < b) as Hlt.
  { induction 1 as [a b (l & Hl & Hw)|a b c (l & Hl & Hw) _ IH].
    - by eapply waits_for_older; [apply reachable_lock_ok, Hreach|].
    - assert (a < b); [|lia]. by eapply waits_for_older; [apply reachable_lock_ok, Hreach|]. }
  split; [done|]. intros a Ha%Hlt. lia.
Qed.

(** ** A concrete lock: 30 and 20 share it, 20 waits to upgrade, 10 to write *)
Definition contended : t := mk [(20, U); (10, E)] (mkOwners S [(30, ()); (20, ())]).

Lemma contended_reachable : reachable contended.
Proof.
  apply (reach_step (mk [(10, E)] (mkOwners S [(30, ()); (20, ())])) (EUpgrade 20)); [|by split_and!; vm_compute; set_solver|done].
  apply (reach_step (mk [] (mkOwners S [(30, ()); (20, ())])) (ELock 10)); [|split; vm_compute; set_solver|done].
  apply (reach_step (mk [] (mkOwners S [(20, ())])) (ELockShared 30)); [|split; vm_compute; set_solver|done].
  apply (reach_step new (ELockShared 20)); [constructor|split; vm_compute; set_solver|done].
Qed.

Lemma waitdie_lock_safe_witness :
  (∀ e, allowed contended e → ∃ l', perform contended e = Ok l' ∧ reachable l') ∧
  (op (owner_list contended) = E → ∃ ts, owner_ts (owner_list contended) = [ts]) ∧
  (op (owner_list contended) = I ↔ owner_ts (owner_list contended) = []) ∧
  (waiter_list contended ≠ [] → owners (owner_list contended) ≠ []).
Proof. exact (waitdie_lock_safe contended contended_reachable). Defined.

Lemma waitdie_decision_witness :
  (absent contended 5 → ∃ r l', try_lock_shared contended 5 = Ok (r, l') ∧
     decides contended 5 (free_shared contended) r) ∧
  (absent contended 5 → ∃ r l', try_lock contended 5 = Ok (r, l') ∧
     decides contended 5 (free_exclusive contended) r) ∧
  (holds contended S 5 → ∃ r l', try_lock_upgrade contended 5 = Ok (r, l') ∧
     match r with
     | Acquired => owner_ts (owner_list contended) = [5]
     | Waiting => (1 < length (owners (owner_list contended)))%nat ∧
         ∀ y, y ∈ owner_ts (owner_list contended) → 5 ≤ y
     | Died => ∃ y, y ∈ owner_ts (owner_list contended) ∧ y < 5
     end).
Proof. exact (waitdie_decision contended 5 contended_reachable). Defined.

Lemma waitdie_release_witness :
  (holds contended S 30 → ∃ l' woken, unlock_shared contended 30 = Ok (l', woken) ∧
     released contended l' 30 woken) ∧
  (holds contended E 30 → ∃ l' woken, unlock contended 30 = Ok (l', woken) ∧
     released contended l' 30 woken).
Proof. exact (waitdie_release contended 30 contended_reachable). Defined.

Lemma waitdie_no_deadlock_witness :
  (∀ a b, tc (λ a b, ∃ l, l ∈ [contended; contended] ∧ waits_for l a b) a b → a < b) ∧
  (∀ a, ¬ tc (λ a b, ∃ l, l ∈ [contended; contended] ∧ waits_for l a b) a a).
Proof.
  apply (waitdie_no_deadlock [contended; contended]).
  intros l [->|[->|H%not_elem_of_nil]%elem_of_cons]%elem_of_cons; [apply contended_reachable..|done].
Defined.
End wait_die_properties.
