(* ===== verification/Epoch.v ===== *)
(** * protocols/common/epoch_manager.hpp: epochs and epoch-based reclamation

    A manager thread advances the global epoch once every registered worker
    has seen the current one; a worker publishes the epoch it loaded when it
    begins a transaction; memory retired in an epoch is freed two epochs
    later.  The loads and stores are separate atomic actions, so the file
    models the manager and the workers as a transition system over them and
    proves that the reclamation is safe for every interleaving. *)
From S2P Require Import Prelude.

Module EpochManager.

(** A worker: between transactions, after loading the global epoch in
    [begin_tx], or inside a transaction. *)
Inductive worker_pc := Idle | Loaded (epoch : Z) | Active.
Record worker := mkWorker { worker_epoch : Z; tx_counter : Z; pc : worker_pc }.

(** The manager: sleeping, or in [increment_epoch] with the epoch it loaded,
    the smallest worker epoch so far and the number of workers read. *)
Inductive manager_pc := Sleeping | Scanning (e smallest : Z) (next : nat).

(** The slots of the vector [workers] are null until [set_worker]. *)
Record state := mkState { global_epoch : Z; manager : manager_pc; workers : list (option worker) }.

Definition UINT32_MAX : Z := 2 ^ 32 - 1.

(** One action of the manager: start [increment_epoch], read the next
    worker's epoch, or compare and advance. *)
Definition manager_act (s : state) : state :=
  match manager s with
  | Sleeping => mkState (global_epoch s) (Scanning (global_epoch s) UINT32_MAX 0) (workers s)
  | Scanning e smallest next =>
      match workers s !! next with
      | Some None => mkState (global_epoch s) (Scanning e smallest (S next)) (workers s)
      | Some (Some w) =>
          mkState (global_epoch s) (Scanning e (Z.min (worker_epoch w) smallest) (S next)) (workers s)
      | None =>
          mkState (if e =? smallest then u32 (global_epoch s + 1) else global_epoch s) Sleeping (workers s)
      end
  end.

(** [set_worker] stores a new worker into its null slot. *)
Definition set_worker (s : state) (worker_id : nat) (w : worker) : option state :=
  match workers s !! worker_id with
  | Some None => Some (mkState (global_epoch s) (manager s) (<[worker_id := Some w]> (workers s)))
  | _ => None
  end.

(** One action of a worker: load the global epoch, publish it (the
    transaction begins), or end the transaction. *)
Definition worker_act (g : Z) (w : worker) : worker :=
  match pc w with
  | Idle => mkWorker (worker_epoch w) (tx_counter w) (Loaded g)
  | Loaded e => mkWorker e (u32 (tx_counter w + 1)) Active
  | Active => mkWorker (worker_epoch w) (tx_counter w) Idle
  end.

(** A worker that has not begun a transaction.  The constructor does not
    initialise [worker_epoch]: [uninit g v] says that it may be [v] when the
    worker registers while the global epoch is [g]. *)
Definition new_worker (uninit : Z → Z → Prop) (g : Z) (w : worker) : Prop := pc w = Idle ∧ uninit g (worker_epoch w).

Inductive step (uninit : Z → Z → Prop) : state → state → Prop :=
| step_manager s : step uninit s (manager_act s)
| step_set_worker s s' i w : new_worker uninit (global_epoch s) w → set_worker s i w = Some s' → step uninit s s'
| step_worker s i w : workers s !! i = Some (Some w) →
    step uninit s (mkState (global_epoch s) (manager s) (<[i := Some (worker_act (global_epoch s) w)]> (workers s))).

Definition initial (num_workers : nat) : state := mkState 1 Sleeping (replicate num_workers None).

(** [increment_epoch] and [get_smallest_worker_epoch] with no worker moving
    in between. *)
Definition get_smallest_worker_epoch (ws : list (option worker)) : Z :=
  foldl (λ smallest o, match o with Some w => Z.min (worker_epoch w) smallest | None => smallest end) UINT32_MAX ws.
Definition increment_epoch (s : state) : bool * state :=
  if global_epoch s =? get_smallest_worker_epoch (workers s)
  then (true, mkState (u32 (global_epoch s + 1)) (manager s) (workers s)) else (false, s).

End EpochManager.

(** ** GarbageCollector *)
Module GarbageCollector.

(** A multimap in ascending order of the keys; [A] is what [void*] points
    to in the protocol that uses it. *)
Abbreviation container A := (list (Z * A)).

Definition collect {A} (gc : container A) (current_epoch : Z) (ptr : A) : container A :=
  insert_ascending current_epoch ptr gc.

(** The entries freed and the container left. *)
Definition remove {A} (gc : container A) (current_epoch : Z) : container A * container A :=
  if 2 <=? current_epoch then
    let end_ := std_upper_bound (λ p, current_epoch - 2 <? p.1) gc in
    (take end_ gc, drop end_ gc)
  else ([], gc).

End GarbageCollector.

(** ** The invariant *)
Section epochs.
Import EpochManager.

(** The oldest epoch the worker holds or is about to publish is at least
    [b]; between transactions it holds none. *)
Definition holds_from (b : Z) (w : worker) : Prop :=
  match pc w with Idle => True | Loaded e => b ≤ e | Active => b ≤ worker_epoch w end.

Definition worker_ok (g : Z) (w : worker) : Prop :=
  worker_epoch w ≤ g ∧ holds_from (g - 1) w ∧ match pc w with Loaded e => worker_epoch w ≤ e ≤ g | _ => True end.

Record epochs_ok (s : state) : Prop := {
  ep_workers : ∀ i w, workers s !! i = Some (Some w) → worker_ok (global_epoch s) w;
  ep_manager : match manager s with
    | Sleeping => True
    | Scanning e smallest next =>
        e = global_epoch s ∧
        ∀ i w, (i < next)%nat → workers s !! i = Some (Some w) → holds_from (Z.min smallest e) w
    end
}.

Lemma holds_from_le b b' w : b' ≤ b → holds_from b w → holds_from b' w.
Proof. unfold holds_from. destruct (pc w); lia. Qed.

Lemma worker_act_ok g b w : b ≤ g → worker_ok g w →
  worker_ok g (worker_act g w) ∧ (holds_from b w → holds_from b (worker_act g w)).
Proof.
  intros Hb (Hw & Hh & Hpc). unfold worker_act, worker_ok, holds_from in *. destruct (pc w); simpl in *; split_and!; intros; try done; lia.
Qed.

(** Replacing one worker by one that is as recent keeps the invariant. *)
Lemma epochs_insert s i x :
  epochs_ok s → (∃ o, workers s !! i = Some o ∧ worker_ok (global_epoch s) x ∧
    ∀ b, b ≤ global_epoch s → (∀ w, o = Some w → holds_from b w) → holds_from b x) →
  epochs_ok (mkState (global_epoch s) (manager s) (<[i := Some x]> (workers s))).
Proof.
  intros [Hws Hm] (o & Ho & Hx & Hfrom). split; simpl.
  - intros j w [(-> & Hw & _)|[? Hw]]%list_lookup_insert_Some; [by simplify_eq|by eapply Hws].
  - destruct (manager s) as [|e smallest next]; [done|]. destruct Hm as [-> Hs]. split; [done|].
    intros j w Hj [(-> & Hw & _)|[? Hw]]%list_lookup_insert_Some; [|by eapply Hs]. injection Hw as <-.
    apply Hfrom; [lia|]. intros w' ->. by eapply Hs.
Qed.

Lemma manager_epochs s : global_epoch s < UINT32_MAX → 0 ≤ global_epoch s → epochs_ok s → epochs_ok (manager_act s).
Proof.
  intros Hmax H0 [Hws Hm]. unfold manager_act. destruct (manager s) as [|e smallest next] eqn:Hmgr.
  - split; simpl; [done|]. split; [done|]. intros j x Hj. lia.
  - destruct Hm as [-> Hs]. destruct (workers s !! next) as [[w|]|] eqn:Hn; split; simpl; try done.
    + split; [done|]. intros j x Hj Hx. destruct (decide (j = next)) as [->|].
      * simplify_eq. destruct (Hws _ _ Hn) as (? & ? & ?). unfold holds_from. destruct (pc w); lia.
      * eapply holds_from_le; [|apply (Hs j x); [lia|done]]. lia.
    + split; [done|]. intros j x Hj Hx. destruct (decide (j = next)) as [->|]; [simplify_eq|]. apply (Hs j x); [lia|done].
    + intros j x Hx. destruct (Z.eqb_spec (global_epoch s) smallest) as [He|]; [|by eapply Hws].
      destruct (Hws j x Hx) as (Hwx & Hh & Hpc).
      assert (j < next)%nat by (apply lookup_ge_None in Hn; apply lookup_lt_Some in Hx; lia).
      rewrite wrap_small by (unfold UINT32_MAX in *; split; lia). split_and!; [lia| |destruct (pc x); lia].
      eapply holds_from_le; [|by apply (Hs j x)]. lia.
Qed.

(** What an uninitialised epoch may be. *)
Context (uninit : Z → Z → Prop).

Lemma epochs_step s s' : (∀ g v, 1 ≤ g → uninit g v → v ≤ g) → step uninit s s' → global_epoch s < UINT32_MAX → 1 ≤ global_epoch s → epochs_ok s → epochs_ok s'.
Proof.
  intros Hun [s0|s0 s1 i w [Hpc Hw] Hset|s0 i w Hi] Hmax H0 Hok.
  - apply manager_epochs; [done|lia|done].
  - unfold set_worker in Hset. destruct (workers s0 !! i) as [[|]|] eqn:Hi; try done. injection Hset as <-.
    apply epochs_insert; [done|]. exists None. split; [done|]. unfold worker_ok, holds_from. rewrite Hpc. split_and!; [by apply Hun; [lia|]|done..].
  - apply epochs_insert; [done|]. exists (Some w). split; [done|]. pose proof (ep_workers _ Hok _ _ Hi) as Hwok.
    split; [by apply (worker_act_ok _ (global_epoch s0))|]. intros b Hb Hh. apply worker_act_ok; auto.
Qed.

(** The states reachable while the 32-bit epoch has not wrapped. *)
Inductive reachable (n : nat) : state → Prop :=
| reach_init : reachable n (initial n)
| reach_step s s' : reachable n s → global_epoch s < UINT32_MAX → step uninit s s' → reachable n s'.

Lemma step_epoch s s' : step uninit s s' → 1 ≤ global_epoch s → global_epoch s < UINT32_MAX →
  global_epoch s ≤ global_epoch s' ≤ global_epoch s + 1.
Proof.
  intros [s0|s0 s1 i w _ Hset|s0 i w Hi] H1 Hmax; simpl; [|unfold set_worker in Hset; repeat case_match; simplify_eq; simpl; lia|lia].
  unfold manager_act. destruct (manager s0) as [|e m n]; simpl; [lia|].
  destruct (workers s0 !! n) as [[]|]; simpl; [lia..|]. destruct (Z.eqb_spec e m); [|lia].
  rewrite wrap_small; unfold UINT32_MAX in *; [lia|split; lia].
Qed.

Lemma reachable_epochs n s : (∀ g v, 1 ≤ g → uninit g v → v ≤ g) → reachable n s → epochs_ok s ∧ 1 ≤ global_epoch s ≤ UINT32_MAX.
Proof.
  intros Hun. induction 1 as [|s s' Hr [IH Hg] Hmax Hstep].
  - split; [|by vm_compute]. split; simpl; [|done]. intros i w Hw. apply lookup_replicate in Hw as [Hw _]; discriminate Hw.
  - pose proof (step_epoch s s' Hstep ltac:(lia) Hmax). split; [apply (epochs_step s s'); [done|done|lia|lia|done]|lia].
Qed.

(** A multimap may hold several entries of one epoch. *)
Definition by_epoch {A} (gc : GarbageCollector.container A) : Prop := nondescending gc.

Lemma remove_split {A} (gc : GarbageCollector.container A) e : 2 ≤ e → by_epoch gc →
  GarbageCollector.remove gc e = (filter (λ p, p.1 ≤ e - 2) gc, filter (λ p, e - 2 < p.1) gc).
Proof.
  intros He Ha. unfold GarbageCollector.remove. destruct (Z.leb_spec 2 e); [|lia]. clear He H.
  induction gc as [|p gc IH]; [done|]. unfold by_epoch, nondescending in *. csimpl in Ha.
  apply StronglySorted_inv in Ha as [Hs Hall]. rewrite Forall_forall in Hall. simpl.
  destruct (Z.ltb_spec (e - 2) p.1); rewrite !filter_cons.
  - rewrite decide_False, decide_True by lia. simpl. f_equal; [symmetry; apply filter_none|f_equal; symmetry; apply filter_all];
      intros q Hq; assert (p.1 ≤ q.1) by (apply Hall; by apply list_elem_of_fmap_2); lia.
  - rewrite decide_True, decide_False by lia. simpl. specialize (IH Hs). injection IH as -> ->. done.
Qed.

Lemma collect_by_epoch {A} (gc : GarbageCollector.container A) e ptr : by_epoch gc → by_epoch (GarbageCollector.collect gc e ptr) ∧
  GarbageCollector.collect gc e ptr ≡ₚ (e, ptr) :: gc.
Proof. unfold by_epoch, GarbageCollector.collect. auto using insert_ascending_perm with rows. Qed.
End epochs.

(** ** The guarantees of the epochs *)
Section epoch_properties.
Import EpochManager.

(** C30: the reclamation is safe.  In every interleaving of the manager, of
    the registration of workers and of their transactions, what a transaction
    of epoch [e] frees was retired at least two epochs before, and every other
    transaction running at that moment began in a later epoch than the one
    the memory was retired in.  The condition is that the epoch of a worker,
    which its constructor leaves uninitialised, is not above the global epoch
    when the worker registers; epoch_uninitialised_unsafe shows that it is
    needed. *)
Theorem epoch_gc_safe (uninit : Z → Z → Prop) (Hun : ∀ g v, 1 ≤ g → uninit g v → v ≤ g)
    (n : nat) (s : state) (i j : nat) (wi wj : worker) (gc : GarbageCollector.container positive)
    (c : Z) (ptr : positive) (Hreach : reachable uninit n s)
    (Hi : workers s !! i = Some (Some wi)) (Hj : workers s !! j = Some (Some wj))
    (Hai : pc wi = Active) (Haj : pc wj = Active)
    (Hgc : by_epoch gc) (Hfree : (c, ptr) ∈ (GarbageCollector.remove gc (worker_epoch wi)).1) :
  (c, ptr) ∈ gc ∧ c + 2 ≤ worker_epoch wi ∧ c < worker_epoch wj.
Proof.
  destruct (reachable_epochs uninit n s Hun Hreach) as [[Hws _] _].
  destruct (Hws i wi Hi) as (Hwi & _ & _), (Hws j wj Hj) as (_ & Hwj & _). unfold holds_from in Hwj. rewrite Haj in Hwj.
  destruct (decide (2 ≤ worker_epoch wi)) as [H2|H2].
  - rewrite remove_split in Hfree by done. simpl in Hfree.
    apply list_elem_of_filter in Hfree as [Hc Hin]. simpl in Hc. split_and!; [done|lia|lia].
  - unfold GarbageCollector.remove in Hfree. destruct (Z.leb_spec 2 (worker_epoch wi)); [lia|].
    by apply not_elem_of_nil in Hfree.
Qed.

(** ** Runs *)
Inductive action := Manage | Register (i : nat) | Work (i : nat).
#[local] Instance worker_pc_eq_dec : EqDecision worker_pc.
Proof. solve_decision. Defined.

Section runs.
(** The epoch of each worker when it registers. *)
Context (first : nat → Z).
Definition may_be (g v : Z) : Prop := ∃ i, v = first i.

Definition act (a : action) (s : state) : option state :=
  match a with
  | Manage => Some (manager_act s)
  | Register i => set_worker s i (mkWorker (first i) 1 Idle)
  | Work i => o ← workers s !! i; w ← o;
      Some (mkState (global_epoch s) (manager s) (<[i := Some (worker_act (global_epoch s) w)]> (workers s)))
  end.

Lemma act_step a s s' : act a s = Some s' → step may_be s s'.
Proof.
  destruct a as [|i|i]; simpl.
  - intros [= <-]. constructor.
  - intros Hset. eapply step_set_worker; [|done]. split; [done|by exists i].
  - intros (o & Ho & (w & -> & [= <-])%bind_Some)%bind_Some. by constructor.
Qed.

Definition run_actions (l : list action) (s : state) : option state := foldl (λ o a, o ≫= act a) (Some s) l.

Lemma run_actions_cons a l s : run_actions (a :: l) s = act a s ≫= run_actions l.
Proof. unfold run_actions. simpl. destruct (act a s); [done|]. simpl. by induction l. Qed.

Lemma run_reachable n l s s' : reachable may_be n s → 1 ≤ global_epoch s → global_epoch s + Z.of_nat (length l) < UINT32_MAX →
  run_actions l s = Some s' → reachable may_be n s'.
Proof.
  revert s. induction l as [|a l IH]; intros s Hr H1 Hlen Hrun; [unfold run_actions in Hrun; simpl in *; by simplify_eq|].
  rewrite run_actions_cons in Hrun. apply bind_Some in Hrun as (s1 & Ha & Hrun). simpl in Hlen.
  pose proof (step_epoch may_be s s1 (act_step _ _ _ Ha) H1 ltac:(lia)).
  apply (IH s1); [eapply reach_step; [done|lia|by eapply act_step]|lia|lia|done].
Qed.
End runs.

(** One worker registers, the manager reaches epoch 3. *)
Definition advance : list action :=
  [Register 0; Work 0; Work 0; Manage; Manage; Manage; Work 0; Work 0; Work 0; Manage; Manage; Manage;
   Work 0; Work 0; Work 0].
Definition state_epoch : state := mkState 3 Sleeping [Some (mkWorker 3 4 Active)].

Lemma state_epoch_reachable : reachable (may_be (λ _, 0)) 1 state_epoch.
Proof. apply (run_reachable _ 1 advance (initial 1) state_epoch); [constructor|done|done|reflexivity]. Qed.

Lemma epoch_gc_safe_witness :
  (1, 7%positive) ∈ [(1, 7%positive); (2, 8%positive)] ∧ 1 + 2 ≤ 3 ∧ 1 < 3.
Proof.
  apply (epoch_gc_safe (may_be (λ _, 0)) ltac:(by intros g v ? (i & ->); lia) 1 state_epoch 0 0 (mkWorker 3 4 Active) (mkWorker 3 4 Active)
    [(1, 7%positive); (2, 8%positive)] 1 7%positive state_epoch_reachable);
    [done..|repeat constructor; simpl; lia|apply list_elem_of_here].
Defined.

(** Worker 1 registers with what its memory holds and loads epoch 1; the
    manager does not see it and goes on with worker 0. *)
Definition overtake : list action :=
  [Register 0; Work 0; Work 0; Register 1; Work 1; Manage; Manage; Manage; Manage; Work 0; Work 0; Work 0;
   Manage; Manage; Manage; Manage; Work 0; Work 0; Work 0; Work 1].

(** What the memory of worker 1 holds. *)
Definition garbage (v : Z) (i : nat) : Z := match i with 1%nat => v | _ => 0 end.

Lemma overtaken v : 2 ≤ v → run_actions (garbage v) overtake (initial 2) =
  Some (mkState 3 Sleeping [Some (mkWorker 3 4 Active); Some (mkWorker 1 2 Active)]).
Proof.
  intros Hv. assert (∀ k, k ≤ 2 → Z.min v k = k) as Hmin by (intros; lia).
  unfold overtake. rewrite !run_actions_cons. cbn -[Z.min].
  change (1 `min` UINT32_MAX) with 1. rewrite !(Hmin 1) by lia. cbn -[Z.min].
  change (u32 (1 + 1)) with 2. change (2 `min` UINT32_MAX) with 2. rewrite !(Hmin 2) by lia. reflexivity.
Qed.

(** An uninitialised epoch makes the reclamation unsafe.  A worker that
    registers in epoch 1 with any larger value in its uninitialised
    [worker_epoch] is not waited for while it begins its first transaction:
    another worker reaches epoch 3 and frees what was retired in epoch 1
    while this one is running in epoch 1. *)
Theorem epoch_uninitialised_unsafe (v : Z) : 2 ≤ v ≤ UINT32_MAX →
  ∃ s wi wj, reachable (may_be (garbage v)) 2 s ∧
    workers s !! 0%nat = Some (Some wi) ∧ workers s !! 1%nat = Some (Some wj) ∧ pc wi = Active ∧ pc wj = Active ∧
    worker_epoch wi = 3 ∧ worker_epoch wj = 1 ∧ ∀ ptr : positive, GarbageCollector.remove [(1, ptr)] (worker_epoch wi) = ([(1, ptr)], []).
Proof.
  intros Hv. exists (mkState 3 Sleeping [Some (mkWorker 3 4 Active); Some (mkWorker 1 2 Active)]), (mkWorker 3 4 Active), (mkWorker 1 2 Active).
  split_and!; try done. apply (run_reachable (garbage v) 2 overtake (initial 2)); [constructor|done|done|apply overtaken; lia].
Qed.

Lemma epoch_uninitialised_unsafe_witness : 2 ≤ 1000 ≤ UINT32_MAX ∧ ∃ s wi wj, reachable (may_be (garbage 1000)) 2 s ∧
  workers s !! 0%nat = Some (Some wi) ∧ workers s !! 1%nat = Some (Some wj) ∧ worker_epoch wi = 3 ∧ worker_epoch wj = 1.
Proof.
  split; [done|]. destruct (epoch_uninitialised_unsafe 1000) as (s & wi & wj & Hr & Hi & Hj & _ & _ & He & He' & _); [done|].
  by exists s, wi, wj.
Defined.
End epoch_properties.
