(* ===== verification/BitFields.v ===== *)
(** * Bit-fields: transaction_id.hpp, tidword.hpp and record_key.hpp

    The identifiers of the program are C++ bit-fields in a union with the
    integer they are compared and stored as.  A field is an offset and a
    width (GCC allocates them from the least significant bit); the file
    models reading and assigning one, the structures built from them, and
    proves the round trips and that comparing the integers compares the
    fields from the most significant one. *)
From S2P Require Import Prelude.

(** ** Fields *)

Record field := mkField { offset : Z; width : Z }.

Definition field_mask (f : field) : Z := Z.shiftl (Z.ones (width f)) (offset f).
Definition get_field (f : field) (obj : Z) : Z := wrap (width f) (Z.shiftr obj (offset f)).
Definition set_field (f : field) (v obj : Z) : Z :=
  Z.lor (Z.ldiff obj (field_mask f)) (Z.shiftl (wrap (width f) v) (offset f)).

Definition field_ok (f : field) : Prop := 0 ≤ offset f ∧ 0 ≤ width f.
Definition disjoint_fields (f g : field) : Prop :=
  offset f + width f ≤ offset g ∨ offset g + width g ≤ offset f.

Lemma set_field_bits f v obj i : field_ok f → 0 ≤ i →
  Z.testbit (set_field f v obj) i =
    if (offset f <=? i) && (i <? offset f + width f) then Z.testbit v (i - offset f)
    else Z.testbit obj i.
Proof.
  intros [Ho Hw] Hi. unfold set_field, field_mask. rewrite Z.lor_spec, Z.ldiff_spec, !Z.shiftl_spec by done.
  destruct (Z.leb_spec (offset f) i); simpl.
  - rewrite wrap_testbit by lia. destruct (Z.ltb_spec i (offset f + width f)).
    + rewrite Z.ones_spec_low by lia. destruct (Z.ltb_spec (i - offset f) (width f)); [|lia].
      by rewrite andb_false_r.
    + rewrite Z.ones_spec_high by lia. destruct (Z.ltb_spec (i - offset f) (width f)); [lia|].
      by rewrite andb_true_r, orb_false_r.
  - rewrite (Z.testbit_neg_r (Z.ones _)), (Z.testbit_neg_r (wrap _ _)) by lia.
    by rewrite andb_true_r, orb_false_r.
Qed.

Lemma get_set_same f v obj : field_ok f → get_field f (set_field f v obj) = wrap (width f) v.
Proof.
  intros Hf. pose proof Hf as [Ho Hw]. apply (word_eq (width f)); [by apply wrap_word..|].
  intros i Hi. unfold get_field. rewrite !wrap_testbit, Z.shiftr_spec, set_field_bits by lia || done.
  destruct (Z.leb_spec (offset f) (i + offset f)), (Z.ltb_spec (i + offset f) (offset f + width f)); try lia.
  simpl. do 2 f_equal. lia.
Qed.

Lemma get_set_other f g v obj : field_ok f → field_ok g → disjoint_fields f g →
  get_field f (set_field g v obj) = get_field f obj.
Proof.
  intros [Ho Hw] Hg Hd. pose proof Hg as [? ?].
  apply (word_eq (width f)); [by apply wrap_word..|].
  intros i Hi. unfold get_field. rewrite !wrap_testbit, !Z.shiftr_spec, set_field_bits by lia || done.
  destruct Hd, (Z.leb_spec (offset g) (i + offset f)), (Z.ltb_spec (i + offset f) (offset g + width g));
    simpl; done || lia.
Qed.

Lemma set_field_word w f v obj : field_ok f → offset f + width f ≤ w → word w obj → word w (set_field f v obj).
Proof.
  intros Hf Hle Hobj. pose proof Hf as [? ?]. pose proof Hobj as [? ?]. apply word_of_bits; [lia| |].
  - unfold set_field. apply Z.lor_nonneg. split; [by apply Z.ldiff_nonneg; left|].
    apply Z.shiftl_nonneg, wrap_word. done.
  - intros i Hi. rewrite set_field_bits by (done || lia).
    destruct (Z.ltb_spec i (offset f + width f)); [lia|]. rewrite andb_false_r.
    by apply (word_testbit_high w).
Qed.

(** Assigning a field that is zero adds its value there. *)
Lemma set_field_zero f v obj : field_ok f → 0 ≤ obj → get_field f obj = 0 →
  set_field f v obj = wrap (width f) v * 2 ^ offset f + obj.
Proof.
  intros Hf Hobj Hz. pose proof Hf as [? ?].
  assert (∀ i, offset f ≤ i < offset f + width f → Z.testbit obj i = false) as Hbits.
  { intros i Hi. assert (Z.testbit (get_field f obj) (i - offset f) = false) as Hb by (rewrite Hz; apply Z.bits_0).
    unfold get_field in Hb. rewrite wrap_testbit, Z.shiftr_spec in Hb by lia.
    replace (i - offset f + offset f) with i in Hb by lia.
    destruct (Z.ltb_spec (i - offset f) (width f)); [done|lia]. }
  assert (∀ i, 0 ≤ i → Z.testbit (wrap (width f) v) (i - offset f) =
    (offset f <=? i) && (i <? offset f + width f) && Z.testbit v (i - offset f)) as Hv.
  { intros i Hi. destruct (Z.leb_spec (offset f) i); simpl.
    - rewrite wrap_testbit by lia.
      destruct (Z.ltb_spec i (offset f + width f)), (Z.ltb_spec (i - offset f) (width f)); done || lia.
    - by rewrite Z.testbit_neg_r by lia. }
  rewrite <- Z.shiftl_mul_pow2 by done. rewrite Z.add_nocarry_lxor; apply Z.bits_inj'; intros i Hi.
  - rewrite set_field_bits, Z.lxor_spec, Z.shiftl_spec, Hv by done.
    destruct (Z.leb_spec (offset f) i), (Z.ltb_spec i (offset f + width f)); simpl; try done.
    by rewrite Hbits, xorb_false_r by lia.
  - rewrite Z.land_spec, Z.shiftl_spec, Hv, Z.bits_0 by done.
    destruct (Z.leb_spec (offset f) i), (Z.ltb_spec i (offset f + width f)); simpl; try done.
    by rewrite Hbits, andb_false_r by lia.
Qed.

Lemma get_field_0 f : get_field f 0 = 0.
Proof. unfold get_field. by rewrite Z.shiftr_0_l. Qed.

Lemma set_field_nonneg f v obj : field_ok f → 0 ≤ obj → 0 ≤ set_field f v obj.
Proof.
  intros Hf Hobj. unfold set_field. apply Z.lor_nonneg. split; [by apply Z.ldiff_nonneg; left|].
  apply Z.shiftl_nonneg, wrap_word, Hf.
Qed.

(** Decide the side conditions on concrete fields. *)
Ltac fields :=
  repeat first
    [ rewrite get_set_same by (split; simpl; lia)
    | rewrite get_set_other by (first [split; simpl; lia | unfold disjoint_fields; simpl; lia])
    | rewrite get_field_0 ].
Ltac fields_sum :=
  repeat (rewrite set_field_zero;
    [|split; simpl; lia|repeat (apply set_field_nonneg; [split; simpl; lia|]); lia|fields; done]).

(** ** TxID *)
Module TxID.
Definition tx_counter : field := mkField 0 32.
Definition thread_id : field := mkField 32 32.

(** [TxID(thread_id, tx_counter)]; [TxID(txid)] is the integer itself. *)
Definition make (thread tx : Z) : Z := set_field thread_id thread (set_field tx_counter tx 0).
End TxID.

(** ** TidWord *)
Module TidWord.
Definition lock : field := mkField 0 1.
Definition latest : field := mkField 1 1.
Definition absent : field := mkField 2 1.
Definition tid : field := mkField 3 29.
Definition epoch : field := mkField 32 32.
End TidWord.

(** ** The TPC-C keys *)

Definition ItemKey_create_key (i_id : Z) : Z := u32 i_id.
Definition WarehouseKey_create_key (w_id : Z) : Z := u16 w_id.

Module StockKey.
Definition i_id : field := mkField 0 32.
Definition w_id : field := mkField 32 16.
Definition create_key (w i : Z) : Z := set_field i_id i (set_field w_id w 0).
End StockKey.

Module DistrictKey.
Definition d_id : field := mkField 0 8.
Definition w_id : field := mkField 8 16.
Definition create_key (w d : Z) : Z := set_field d_id d (set_field w_id w 0).
End DistrictKey.

Module CustomerKey.
Definition c_id : field := mkField 0 32.
Definition d_id : field := mkField 32 8.
Definition w_id : field := mkField 40 16.
Definition create_key (w d c : Z) : Z := set_field c_id c (set_field d_id d (set_field w_id w 0)).
End CustomerKey.

Module OrderKey.
Definition o_id : field := mkField 0 32.
Definition d_id : field := mkField 32 8.
Definition w_id : field := mkField 40 16.
Definition create_key (w d o : Z) : Z := set_field o_id o (set_field d_id d (set_field w_id w 0)).
End OrderKey.

Module OrderLineKey.
Definition ol_number : field := mkField 0 8.
Definition o_id : field := mkField 8 32.
Definition d_id : field := mkField 40 8.
Definition w_id : field := mkField 48 16.
Definition create_key (w d o n : Z) : Z :=
  set_field o_id o (set_field d_id d (set_field w_id w (set_field ol_number n 0))).
End OrderLineKey.

Module NewOrderKey.
Definition o_id : field := mkField 0 32.
Definition d_id : field := mkField 32 8.
Definition w_id : field := mkField 40 16.
Definition create_key (w d o : Z) : Z := set_field o_id o (set_field d_id d (set_field w_id w 0)).
End NewOrderKey.

(** ** The keys as numbers *)

Lemma order_line_key_sum w d o n : word 16 w → word 8 d → word 32 o → word 8 n →
  OrderLineKey.create_key w d o n = w * 2 ^ 48 + d * 2 ^ 40 + o * 2 ^ 8 + n.
Proof.
  intros. unfold OrderLineKey.create_key. fields_sum. simpl. rewrite !wrap_small by done. lia.
Qed.

(** ** The guarantees of the identifiers *)
Section bit_field_properties.

(** C35: every key keeps the fields it was created from: reading a field
    back gives the value, at the field's width. *)
Theorem keys_roundtrip (w d o n : Z) (Hw : word 16 w) (Hd : word 8 d) (Ho : word 32 o) (Hn : word 8 n) :
  (let k := StockKey.create_key w o in
   get_field StockKey.w_id k = w ∧ get_field StockKey.i_id k = o ∧ word 48 k) ∧
  (let k := DistrictKey.create_key w d in
   get_field DistrictKey.w_id k = w ∧ get_field DistrictKey.d_id k = d ∧ word 24 k) ∧
  (let k := CustomerKey.create_key w d o in
   get_field CustomerKey.w_id k = w ∧ get_field CustomerKey.d_id k = d ∧
   get_field CustomerKey.c_id k = o ∧ word 56 k) ∧
  (let k := OrderKey.create_key w d o in
   get_field OrderKey.w_id k = w ∧ get_field OrderKey.d_id k = d ∧ get_field OrderKey.o_id k = o ∧ word 56 k) ∧
  (let k := NewOrderKey.create_key w d o in
   get_field NewOrderKey.w_id k = w ∧ get_field NewOrderKey.d_id k = d ∧
   get_field NewOrderKey.o_id k = o ∧ word 56 k) ∧
  (let k := OrderLineKey.create_key w d o n in
   get_field OrderLineKey.w_id k = w ∧ get_field OrderLineKey.d_id k = d ∧
   get_field OrderLineKey.o_id k = o ∧ get_field OrderLineKey.ol_number k = n ∧ word 64 k) ∧
  (let x := TxID.make o (w + d) in get_field TxID.thread_id x = o ∧ get_field TxID.tx_counter x = w + d).
Proof.
  unfold StockKey.create_key, DistrictKey.create_key, CustomerKey.create_key, OrderKey.create_key,
    NewOrderKey.create_key, OrderLineKey.create_key, TxID.make.
  cbv zeta. split_and!; try (fields; simpl; apply wrap_small; unfold word in *; lia);
    (repeat (apply set_field_word; [split; simpl; lia|simpl; lia|]); split; lia).
Qed.

(** Scans over order lines.  For lines numbered from 1, the key range
    from (w, d, o, 1) up to (w, d, o', 1), excluded, holds exactly the lines of
    the orders o .. o'-1 of district (w, d): what Delivery and OrderStatus
    scan with o' = o + 1 and StockLevel with o = d_next_o_id - 20. *)
Theorem order_line_range (w d o o' w1 d1 o1 n1 : Z) (Hw : word 16 w) (Hd : word 8 d) (Ho : word 32 o)
    (Ho' : word 32 o') (Hw1 : word 16 w1) (Hd1 : word 8 d1) (Ho1 : word 32 o1) (Hn1 : 1 ≤ n1 < 2 ^ 8) :
  OrderLineKey.create_key w d o 1 ≤ OrderLineKey.create_key w1 d1 o1 n1 < OrderLineKey.create_key w d o' 1 ↔
  w1 = w ∧ d1 = d ∧ o ≤ o1 < o'.
Proof.
  rewrite !order_line_key_sum by (done || split; lia). unfold word in *. split; [|lia].
  intros [H1 H2]. assert (w1 = w) as -> by lia. assert (d1 = d) as -> by lia. lia.
Qed.

(** Comparing the 64-bit words of two Silo TIDs whose status bits are
    clear compares their epochs, then their sequence numbers; and setting
    a status bit changes neither. *)
Theorem tidword_order (a b : Z) (Ha : word 64 a) (Hb : word 64 b)
    (Hal : get_field TidWord.lock a = 0 ∧ get_field TidWord.latest a = 0 ∧ get_field TidWord.absent a = 0)
    (Hbl : get_field TidWord.lock b = 0 ∧ get_field TidWord.latest b = 0 ∧ get_field TidWord.absent b = 0) :
  (a < b ↔ get_field TidWord.epoch a < get_field TidWord.epoch b ∨
           (get_field TidWord.epoch a = get_field TidWord.epoch b ∧
            get_field TidWord.tid a < get_field TidWord.tid b)) ∧
  ∀ v, (get_field TidWord.tid (set_field TidWord.lock v a) = get_field TidWord.tid a ∧
        get_field TidWord.epoch (set_field TidWord.lock v a) = get_field TidWord.epoch a ∧
        get_field TidWord.absent (set_field TidWord.lock v a) = get_field TidWord.absent a ∧
        get_field TidWord.lock (set_field TidWord.lock v a) = wrap 1 v).
Proof.
  split; [|intros v; fields; done].
  assert (∀ x, word 64 x →
    get_field TidWord.lock x = 0 ∧ get_field TidWord.latest x = 0 ∧ get_field TidWord.absent x = 0 →
    x = get_field TidWord.epoch x * 2 ^ 32 + get_field TidWord.tid x * 8 ∧ 0 ≤ get_field TidWord.tid x < 2 ^ 29)
    as Hsum.
  { intros x Hx (Hl & Hla & Hab). unfold get_field, wrap in *. simpl in *.
    rewrite !Z.shiftr_div_pow2 in * by lia. unfold word in Hx. simpl Z.pow in *.
    rewrite Z.div_1_r in Hl. Z.div_mod_to_equations. lia. }
  destruct (Hsum a Ha Hal) as [Ea ?], (Hsum b Hb Hbl) as [Eb ?]. lia.
Qed.

Lemma keys_roundtrip_witness :
  let k := OrderLineKey.create_key 7 3 1000 5 in
  get_field OrderLineKey.w_id k = 7 ∧ get_field OrderLineKey.d_id k = 3 ∧
  get_field OrderLineKey.o_id k = 1000 ∧ get_field OrderLineKey.ol_number k = 5 ∧ word 64 k.
Proof.
  destruct (keys_roundtrip 7 3 1000 5) as (_ & _ & _ & _ & _ & H & _); [split; lia..|]. exact H.
Defined.

Lemma order_line_range_witness :
  OrderLineKey.create_key 7 3 1000 1 ≤ OrderLineKey.create_key 7 3 1000 15 < OrderLineKey.create_key 7 3 1001 1 ↔
  7 = 7 ∧ 3 = 3 ∧ 1000 ≤ 1000 < 1001.
Proof. apply (order_line_range 7 3 1000 1001 7 3 1000 15); split; lia. Defined.

Lemma tidword_order_witness :
  (8 < 2 ^ 32 ↔ 0 < 1 ∨ (0 = 1 ∧ 1 < 0)).
Proof.
  apply (tidword_order 8 (2 ^ 32)); [split; lia|split; lia|split_and!; reflexivity|split_and!; reflexivity].
Defined.
End bit_field_properties.
