(* ===== verification/Timestamp.v ===== *)
(** * protocols/common/timestamp_manager.hpp: timestamps of MVTO and WaitDie

    Each worker counts its transactions in an atomic counter and stamps them
    with the counter in the upper 56 bits and its id in the lower 8; it
    catches up with another worker now and then, and runs ahead after an
    abort.  The manager publishes the smallest and largest counters, from
    which the workers decide what memory to free.  The file models the
    counters, the synchronisation and the collector, and shows that no
    timestamp is issued twice and that no retired pointer is lost. *)
From S2P Require Import Prelude.

Module TimeStampManager.

Record worker := mkWorker {
  txn_cnt : Z; smallest_txn_cnt : Z; largest_txn_cnt : Z;
  worker_id : Z; synchronize_cnt : Z; next_worker_offset : Z; abort_cnt : Z
}.

(** [workers]; a slot is null until [set_worker]. *)
Abbreviation t := (list (option worker)).

(** The constructor of [Worker]. *)
Definition new_worker (id synchronize_cnt : Z) : worker := mkWorker 1 1 1 (u8 id) synchronize_cnt 0 0.

Definition set_worker (ws : t) (id : nat) (w : worker) : t := <[id := Some w]> ws.

Definition set_cnt (w : worker) (cnt : Z) : worker :=
  mkWorker cnt (smallest_txn_cnt w) (largest_txn_cnt w) (worker_id w) (synchronize_cnt w) (next_worker_offset w) (abort_cnt w).
Definition set_offset (w : worker) (o : Z) : worker :=
  mkWorker (txn_cnt w) (smallest_txn_cnt w) (largest_txn_cnt w) (worker_id w) (synchronize_cnt w) o (abort_cnt w).
Definition set_abort_cnt (w : worker) (n : Z) : worker :=
  mkWorker (txn_cnt w) (smallest_txn_cnt w) (largest_txn_cnt w) (worker_id w) (synchronize_cnt w) (next_worker_offset w) n.
Definition set_gc_cnt (smallest largest : Z) (w : worker) : worker :=
  mkWorker (txn_cnt w) smallest largest (worker_id w) (synchronize_cnt w) (next_worker_offset w) (abort_cnt w).

(** The smallest and the largest counter of the registered workers. *)
Definition get_gc_txn_cnt (ws : t) : Z * Z :=
  foldl (λ p o, match o with Some w => (Z.min (txn_cnt w) p.1, Z.max (txn_cnt w) p.2) | None => p end)
    (UINT64_MAX, 0) ws.

Definition set_gc_ts (ws : t) : t :=
  let '(smallest, largest) := get_gc_txn_cnt ws in fmap (M := option) (set_gc_cnt (u64 (smallest - 1)) largest) <$> ws.

(** [tsm.synchronize] for worker [i]: with one worker there is nothing to
    do; otherwise the counter of the worker [offset] places further is
    adopted when it is ahead. *)
Definition synchronize (ws : t) (i : nat) (cnt next_worker_offset : Z) : option t :=
  let num_workers := u8 (Z.of_nat (length ws)) in
  let max_worker_id := u8 (num_workers - 1) in
  if max_worker_id =? 0 then Some ws else
  let offset := u8 (next_worker_offset mod max_worker_id + 1) in
  let next_worker_id := (Z.of_nat i + offset) mod num_workers in
  match ws !! Z.to_nat next_worker_id with
  | None => None
  | Some None => Some ws
  | Some (Some next) =>
      match ws !! i with
      | Some (Some w) => Some (if cnt <? txn_cnt next then <[i := Some (set_cnt w (txn_cnt next))]> ws else ws)
      | _ => None
      end
  end.

(** [Worker::synchronize]. *)
Definition worker_synchronize (ws : t) (i : nat) (w : worker) : option t :=
  let ws := <[i := Some (set_offset w (u8 (next_worker_offset w + 1)))]> ws in
  synchronize ws i (txn_cnt w) (next_worker_offset w).

Definition get_ts (w : worker) (cnt : Z) : Z := Z.lor (u64 (Z.shiftl cnt 8)) (worker_id w).

(** The counter advances by [step], the old value is the new timestamp. *)
Definition issue (ws : t) (i : nat) (w : worker) (step : Z) : option (Z * t) :=
  let cnt := txn_cnt w in
  let w := set_cnt w (u64 (cnt + step)) in
  let ws := <[i := Some w]> ws in
  ws ← (if cnt mod synchronize_cnt w =? 0 then worker_synchronize ws i w else Some ws);
  Some (get_ts w cnt, ws).

Definition get_new_ts (ws : t) (i : nat) : option (Z * t) :=
  match ws !! i with
  | Some (Some w) => issue ws i (set_abort_cnt w 0) 1
  | _ => None
  end.

Definition get_abort_boosted_ts (ws : t) (i : nat) : option (Z * t) :=
  match ws !! i with
  | Some (Some w) =>
      let w := set_abort_cnt w (u64 (abort_cnt w + 1)) in
      issue ws i w (2 ^ Z.min (abort_cnt w) 2)
  | _ => None
  end.

Definition get_smallest_ts (w : worker) : Z := get_ts w (smallest_txn_cnt w).
Definition get_largest_ts (w : worker) : Z := get_ts w (largest_txn_cnt w).
End TimeStampManager.

(** ** GarbageCollector *)
Module TimestampGC.

(** The two multimaps of a thread, in ascending order of the keys. *)
Record t := mk { gc_map : list (Z * positive); temp_gc_map : list (Z * positive) }.

Definition collect (g : t) (current_largest_ts : Z) (ptr : positive) : t :=
  mk (gc_map g) (insert_ascending current_largest_ts ptr (temp_gc_map g)).

(** The temporary entries up to the new largest timestamp are stamped with
    it and move to the map. *)
Definition attach_new_ts (g : t) (new_largest_ts : Z) : t :=
  let end_ := std_upper_bound (λ p, new_largest_ts <? p.1) (temp_gc_map g) in
  mk (foldl (λ m p, insert_ascending new_largest_ts p.2 m) (gc_map g) (take end_ (temp_gc_map g)))
     (drop end_ (temp_gc_map g)).

(** The entries freed and the collector left. *)
Definition remove (g : t) (smallest_ts new_largest_ts : Z) : list (Z * positive) * t :=
  let g := attach_new_ts g new_largest_ts in
  let end_ := std_upper_bound (λ p, smallest_ts <? p.1) (gc_map g) in
  (take end_ (gc_map g), mk (drop end_ (gc_map g)) (temp_gc_map g)).
End TimestampGC.

(** ** Timestamps *)
Section timestamps.
Import TimeStampManager.

(** Worker [i] has id [i], and its counter is far from the end of its 56 bits. *)
Definition worker_ok (i : nat) (w : worker) : Prop :=
  worker_id w = Z.of_nat i ∧ (i < 256)%nat ∧ 1 ≤ txn_cnt w < 2 ^ 55 ∧ 0 < synchronize_cnt w.
Definition workers_ok (ws : t) : Prop := ∀ i w, ws !! i = Some (Some w) → worker_ok i w.

Lemma get_ts_value i w cnt : worker_id w = Z.of_nat i → (i < 256)%nat → 0 ≤ cnt < 2 ^ 56 → get_ts w cnt = cnt * 256 + Z.of_nat i.
Proof.
  intros Hid Hi Hcnt. unfold get_ts. rewrite Hid, Z.shiftl_mul_pow2 by lia. change (2 ^ 8) with 256.
  rewrite wrap_small by (split; lia).
  assert (Z.land (cnt * 256) (Z.of_nat i) = 0) as Hdis; [|by rewrite Z.add_nocarry_lxor, Z.lxor_lor].
  apply Z.bits_inj'. intros n Hn. rewrite Z.land_spec, Z.bits_0. change 256 with (2 ^ 8).
  destruct (Z.ltb_spec n 8); [by rewrite Z.mul_pow2_bits_low|].
  rewrite (word_testbit_high 8 (Z.of_nat i)) by (lia || (split; lia)). by rewrite andb_false_r.
Qed.

(** Counters only grow, ids stay. *)
Definition advances (ws ws' : t) : Prop := ∀ i w', ws' !! i = Some (Some w') →
  ∃ w, ws !! i = Some (Some w) ∧ worker_id w' = worker_id w ∧ synchronize_cnt w' = synchronize_cnt w ∧ txn_cnt w ≤ txn_cnt w'.

Lemma advances_refl ws : advances ws ws.
Proof. intros i w Hw. exists w. auto with lia. Qed.

Lemma advances_trans ws1 ws2 ws3 : advances ws1 ws2 → advances ws2 ws3 → advances ws1 ws3.
Proof.
  intros H12 H23 i w3 H3. destruct (H23 i w3 H3) as (w2 & Hw2 & ? & ? & ?). destruct (H12 i w2 Hw2) as (w1 & Hw1 & ? & ? & ?).
  exists w1. split_and!; [done|congruence..|lia].
Qed.

Lemma advances_insert ws i w w' : ws !! i = Some (Some w) → worker_id w' = worker_id w →
  synchronize_cnt w' = synchronize_cnt w → txn_cnt w ≤ txn_cnt w' → advances ws (<[i := Some w']> ws).
Proof.
  intros Hw ? ? ? j x [(-> & [= <-] & _)|[_ Hx]]%list_lookup_insert_Some; [exists w|exists x]; auto with lia.
Qed.

Lemma synchronize_advances ws i w offset ws' : ws !! i = Some (Some w) → synchronize ws i (txn_cnt w) offset = Some ws' →
  advances ws ws'.
Proof.
  unfold synchronize. intros Hw. destruct (_ =? 0); [intros [= <-]; apply advances_refl|].
  destruct (ws !! Z.to_nat _) as [[next|]|]; [|intros [= <-]; apply advances_refl|done]. rewrite Hw. intros [= <-].
  destruct (Z.ltb_spec (txn_cnt w) (txn_cnt next)); [|apply advances_refl]. apply (advances_insert ws i w); [done..|simpl; lia].
Qed.

Lemma issue_ok ws i w w0 step ts ws' : ws !! i = Some (Some w0) → worker_ok i w0 →
  txn_cnt w = txn_cnt w0 → worker_id w = worker_id w0 → synchronize_cnt w = synchronize_cnt w0 → 1 ≤ step ≤ 4 →
  issue ws i w step = Some (ts, ws') →
  ts = txn_cnt w0 * 256 + Z.of_nat i ∧ advances ws ws' ∧ ∀ w', ws' !! i = Some (Some w') → txn_cnt w0 < txn_cnt w'.
Proof.
  intros Hw (Hid & Hi & Hcnt & Hs) Hc Hwid Hsync Hstep. unfold issue. set (w1 := set_cnt w _).
  assert (txn_cnt w1 = txn_cnt w0 + step) as Hc1 by (simpl; rewrite Hc; apply wrap_small; split; lia).
  assert (worker_id w1 = worker_id w0 ∧ synchronize_cnt w1 = synchronize_cnt w0) as [Hid1 Hs1] by done.
  clearbody w1. intros (ws1 & Hws1 & [= <- <-])%bind_Some.
  split; [|assert (advances (<[i := Some w1]> ws) ws1) as Hadv].
  - rewrite Hc. apply get_ts_value; [congruence|done|lia].
  - destruct (_ =? 0); [|injection Hws1 as <-; apply advances_refl]. unfold worker_synchronize in Hws1.
    eapply advances_trans, (synchronize_advances _ i (set_offset w1 (u8 (next_worker_offset w1 + 1)))), Hws1.
    + apply (advances_insert _ i w1); [|done..]. apply list_lookup_insert_eq. by eapply lookup_lt_Some.
    + apply list_lookup_insert_eq. rewrite length_insert. by eapply lookup_lt_Some.
  - split.
    + eapply advances_trans, Hadv. apply (advances_insert ws i w0); [done|congruence..|lia].
    + intros w' Hw'. destruct (Hadv i w' Hw') as (w2 & Hw2 & _ & _ & Hle).
      rewrite list_lookup_insert_eq in Hw2 by (by eapply lookup_lt_Some). injection Hw2 as <-. lia.
Qed.

Lemma boosted_ts ws i w ts ws' : workers_ok ws → ws !! i = Some (Some w) → 0 ≤ abort_cnt w < 2 ^ 63 →
  get_abort_boosted_ts ws i = Some (ts, ws') →
  ts = txn_cnt w * 256 + Z.of_nat i ∧ advances ws ws' ∧ ∀ w', ws' !! i = Some (Some w') → txn_cnt w < txn_cnt w'.
Proof.
  intros Hok Hw Hab Hts. unfold get_abort_boosted_ts in Hts. rewrite Hw in Hts. cbn [abort_cnt set_abort_cnt] in Hts.
  rewrite (wrap_small 64) in Hts by (split; lia).
  assert (1 ≤ 2 ^ Z.min (abort_cnt w + 1) 2 ≤ 4) as Hstep.
  { assert (Z.min (abort_cnt w + 1) 2 = 1 ∨ Z.min (abort_cnt w + 1) 2 = 2) as [-> | ->] by lia; lia. }
  exact (issue_ok ws i (set_abort_cnt w (abort_cnt w + 1)) w _ ts ws' Hw (Hok i w Hw) eq_refl eq_refl eq_refl Hstep Hts).
Qed.

(** The timestamps issued so far, latest first, each with its worker. *)
Inductive issued (ws : t) : list (nat * Z) → t → Prop :=
| issued_none : issued ws [] ws
| issued_new l ws1 i ts ws2 : issued ws l ws1 → workers_ok ws1 → get_new_ts ws1 i = Some (ts, ws2) →
    issued ws ((i, ts) :: l) ws2
| issued_boosted l ws1 i ts ws2 : issued ws l ws1 → workers_ok ws1 →
    (∀ w, ws1 !! i = Some (Some w) → 0 ≤ abort_cnt w < 2 ^ 63) → get_abort_boosted_ts ws1 i = Some (ts, ws2) →
    issued ws ((i, ts) :: l) ws2
| issued_gc l ws1 : issued ws l ws1 → issued ws l (set_gc_ts ws1).

Definition log_ok (l : list (nat * Z)) (ws : t) : Prop := ∀ i ts, (i, ts) ∈ l →
  (i < 256)%nat ∧ ∃ cnt, ts = cnt * 256 + Z.of_nat i ∧ ∀ w, ws !! i = Some (Some w) → cnt < txn_cnt w.

Lemma log_ok_advances l ws ws' : advances ws ws' → log_ok l ws → log_ok l ws'.
Proof.
  intros Hadv Hl i ts Hin. destruct (Hl i ts Hin) as (Hi & cnt & -> & Hw). split; [done|]. exists cnt. split; [done|].
  intros w' (w & Hw1 & _ & _ & Hle)%Hadv. specialize (Hw w Hw1). lia.
Qed.

Lemma set_gc_advances ws : advances ws (set_gc_ts ws).
Proof.
  unfold set_gc_ts. destruct (get_gc_txn_cnt ws) as [a b]. intros i w' Hw'. rewrite list_lookup_fmap in Hw'.
  destruct (ws !! i) as [[w|]|] eqn:Hw; simpl in Hw'; simplify_eq. exists w. simpl. auto with lia.
Qed.

(** One more timestamp of worker [i] exceeds its earlier ones. *)
Definition log_sorted (l : list (nat * Z)) : Prop := ∀ i, StronglySorted Z.gt (filter (λ p, p.1 = i) l).*2.

Lemma log_cons l ws ws' i w ts : ws !! i = Some (Some w) → worker_ok i w → log_ok l ws → log_sorted l →
  ts = txn_cnt w * 256 + Z.of_nat i → advances ws ws' → (∀ w', ws' !! i = Some (Some w') → txn_cnt w < txn_cnt w') →
  log_ok ((i, ts) :: l) ws' ∧ log_sorted ((i, ts) :: l).
Proof.
  intros Hw (_ & Hi & Hcnt & _) Hl Hs -> Hadv Hnew. split.
  - intros j ts' [[= -> ->]|Hin]%elem_of_cons; [|by eapply log_ok_advances]. split; [done|]. eexists. split; [done|exact Hnew].
  - intros j. rewrite filter_cons. cbn [fst]. case_decide as Hj; [subst j|by apply Hs]. csimpl. constructor; [apply Hs|].
    apply Forall_forall. intros z ([i' ts'] & -> & [Hi' Hin]%list_elem_of_filter)%list_elem_of_fmap_1. simpl in *. subst i'.
    destruct (Hl i ts' Hin) as (_ & cnt & -> & Hlt). specialize (Hlt w Hw). lia.
Qed.

Lemma issued_log ws l ws' : issued ws l ws' → log_ok l ws' ∧ log_sorted l.
Proof.
  induction 1 as [|l ws1 i ts ws2 Hr [Hl Hs] Hok Hts|l ws1 i ts ws2 Hr [Hl Hs] Hok Hab Hts|l ws1 Hr [Hl Hs]].
  - split; [by intros i ts ?%not_elem_of_nil|constructor].
  - unfold get_new_ts in Hts. destruct (ws1 !! i) as [[w|]|] eqn:Hw; try done.
    destruct (issue_ok ws1 i (set_abort_cnt w 0) w 1 ts ws2 Hw (Hok i w Hw) eq_refl eq_refl eq_refl ltac:(lia) Hts) as (? & ? & ?).
    eapply log_cons; eauto.
  - destruct (ws1 !! i) as [[w|]|] eqn:Hw; [|unfold get_abort_boosted_ts in Hts; by rewrite Hw in Hts..].
    destruct (boosted_ts ws1 i w ts ws2 Hok Hw (Hab w eq_refl) Hts) as (? & ? & ?). eapply log_cons; eauto.
  - split; [|done]. eapply log_ok_advances, Hl. apply set_gc_advances.
Qed.
End timestamps.

(** ** The published bounds *)
Section bounds.
Import TimeStampManager.

Lemma gc_cnt_bounds (ws : t) p : let '(a, b) := foldl (λ p o, match o with
    Some w => (Z.min (txn_cnt w) p.1, Z.max (txn_cnt w) p.2) | None => p end) p ws in
  a ≤ p.1 ∧ p.2 ≤ b ∧ (∀ w, Some w ∈ ws → a ≤ txn_cnt w ≤ b) ∧ (a = p.1 ∨ ∃ w, Some w ∈ ws ∧ txn_cnt w = a).
Proof.
  revert p. induction ws as [|[w|] ws IH]; intros p; simpl.
  - destruct p. simpl. split_and!; [lia|lia|set_solver|by left].
  - specialize (IH (Z.min (txn_cnt w) p.1, Z.max (txn_cnt w) p.2)). destruct (foldl _ _ ws) as [a b]. simpl in IH.
    destruct IH as (H1 & H2 & H3 & H4). split_and!; [lia|lia| |].
    + intros w' [[= ->]|Hin]%elem_of_cons; [lia|by apply H3].
    + destruct H4 as [->|(w' & Hin & <-)]; [|right; exists w'; split; [by right|done]].
      destruct (Z.min_spec (txn_cnt w) p.1) as [[_ ->]|[_ ->]]; [right; exists w; split; [by left|done]|by left].
  - specialize (IH p). destruct (foldl _ _ ws) as [a b]. destruct IH as (H1 & H2 & H3 & H4). split_and!; [done..| |].
    + intros w' [?|Hin]%elem_of_cons; [done|by apply H3].
    + destruct H4 as [?|(w' & Hin & ?)]; [by left|right; exists w'; split; [by right|done]].
Qed.
End bounds.

(** ** The collector *)
Section collector.
Import TimestampGC.

Lemma attach_spec k (l m : list (Z * positive)) : nondescending m →
  let m' := foldl (λ m p, insert_ascending k p.2 m) m l in
  nondescending m' ∧ m' ≡ₚ ((λ p, (k, p.2)) <$> l) ++ m.
Proof.
  revert m. induction l as [|p l IH]; intros m Hm; simpl; [done|].
  destruct (IH (insert_ascending k p.2 m)) as [H1 H2]; [auto with rows|]. split; [done|].
  rewrite H2, insert_ascending_perm. by rewrite <- Permutation_middle.
Qed.
End collector.

(** ** Retired pointers *)
Section retired.
Implicit Types (c : TimestampGC.t).

Definition retired c : list positive := (TimestampGC.gc_map c).*2 ++ (TimestampGC.temp_gc_map c).*2.

Lemma attach_perm n (l m : list (Z * positive)) : (foldl (λ m p, insert_ascending n p.2 m) m l).*2 ≡ₚ m.*2 ++ l.*2.
Proof.
  revert m. induction l as [|p l IH]; intros m; simpl; [by rewrite app_nil_r|]. rewrite IH, insert_ascending_perm. csimpl.
  by rewrite Permutation_middle.
Qed.

Lemma remove_retired c sm lg : (TimestampGC.remove c sm lg).1.*2 ++ retired (TimestampGC.remove c sm lg).2 ≡ₚ retired c.
Proof.
  unfold TimestampGC.remove, TimestampGC.attach_new_ts, retired. simpl. set (n := std_upper_bound _ (TimestampGC.temp_gc_map c)).
  rewrite app_assoc, <- fmap_app, take_drop, attach_perm, <- app_assoc, <- fmap_app. by rewrite take_drop.
Qed.

Lemma collect_retired c ts p : retired (TimestampGC.collect c ts p) ≡ₚ p :: retired c.
Proof. unfold retired. simpl. rewrite insert_ascending_perm. csimpl. by rewrite Permutation_middle. Qed.
End retired.

(** ** The guarantees of the timestamps *)
Section timestamp_properties.
Import TimeStampManager.

(** No timestamp is issued twice.  Whatever the order in which the
    workers draw fresh or boosted timestamps, synchronise their counters and
    the manager publishes its bounds, all timestamps are distinct, and those
    of one worker increase, as long as the counters stay below [2 ^ 55]. *)
Theorem timestamps_unique (ws ws' : t) (l : list (nat * Z)) (Hrun : issued ws l ws') :
  NoDup l.*2 ∧ ∀ i, StronglySorted Z.gt (filter (λ p, p.1 = i) l).*2.
Proof.
  destruct (issued_log ws l ws' Hrun) as [Hl Hs]. split; [|exact Hs].
  assert (∀ i ts, (i, ts) ∈ l → i = Z.to_nat (ts mod 256)) as Hid.
  { intros i ts Hin. destruct (Hl i ts Hin) as (Hi & cnt & -> & _). rewrite Z.add_comm, Z.mod_add, Z.mod_small by lia. lia. }
  clear Hrun Hl. induction l as [|[i ts] l IH]; [constructor|]. csimpl. constructor.
  - intros ([j ts'] & Heq & Hin)%list_elem_of_fmap_1. simpl in Heq. subst ts'.
    assert (j = i) as -> by (rewrite (Hid i ts), (Hid j ts); [done|by right|by left]).
    specialize (Hs i). rewrite filter_cons, decide_True in Hs by done. csimpl in Hs.
    apply StronglySorted_inv in Hs as [_ Hall]. rewrite Forall_forall in Hall. specialize (Hall ts). 
    assert (ts > ts); [|lia]. apply Hall. apply list_elem_of_fmap. exists (i, ts). split; [done|]. by apply list_elem_of_filter.
  - apply IH; [|set_solver]. intros j. specialize (Hs j). rewrite filter_cons in Hs. case_decide; [|done]. csimpl in Hs.
    by apply StronglySorted_inv in Hs as [? _].
Qed.

(** C33: the published bounds bracket the workers: after [set_gc_ts] the
    smallest count every worker knows is below the counter of every worker,
    and the largest is not below any. *)
Theorem timestamp_bounds (ws : t) (i j : nat) (wi wj : worker) (Hok : workers_ok ws)
    (Hi : set_gc_ts ws !! i = Some (Some wi)) (Hj : ws !! j = Some (Some wj)) :
  0 ≤ smallest_txn_cnt wi < txn_cnt wj ∧ txn_cnt wj ≤ largest_txn_cnt wi.
Proof.
  unfold set_gc_ts, get_gc_txn_cnt in Hi. pose proof (gc_cnt_bounds ws (UINT64_MAX, 0)) as Hb.
  destruct (foldl _ _ ws) as [a b]. destruct Hb as (_ & _ & Hall & Hmin). rewrite list_lookup_fmap in Hi.
  destruct (ws !! i) as [[w|]|] eqn:Hw; simpl in Hi; simplify_eq. simpl.
  assert (Some wj ∈ ws) as Hin by (by eapply list_elem_of_lookup_2). specialize (Hall wj Hin).
  destruct (Hok j wj Hj) as (_ & _ & Hcj & _).
  assert (1 ≤ a) as Ha.
  { destruct Hmin as [->|(w' & [k Hk]%list_elem_of_lookup & <-)]; [by vm_compute|]. destruct (Hok k w' Hk) as (_ & _ & ? & _). lia. }
  rewrite wrap_small by (split; lia). lia.
Qed.

(** The collector loses nothing and frees only what is old.  A removal
    with bounds [smallest] and [largest] stamps the retired pointers it knew
    up to [largest] with [largest], frees exactly the pointers stamped up to
    [smallest] and keeps the others: every pointer is freed once or kept. *)
Theorem timestamp_gc_exact (g : TimestampGC.t) (smallest largest : Z)
    (Hgc : nondescending (TimestampGC.gc_map g)) (Htemp : nondescending (TimestampGC.temp_gc_map g)) :
  let '(freed, g') := TimestampGC.remove g smallest largest in
  freed.*2 ++ (TimestampGC.gc_map g').*2 ++ (TimestampGC.temp_gc_map g').*2 ≡ₚ
    (TimestampGC.gc_map g).*2 ++ (TimestampGC.temp_gc_map g).*2 ∧
  (∀ p, p ∈ freed → p.1 ≤ smallest) ∧ (∀ p, p ∈ TimestampGC.gc_map g' → smallest < p.1) ∧
  (∀ p, p ∈ TimestampGC.temp_gc_map g' → largest < p.1).
Proof.
  unfold TimestampGC.remove, TimestampGC.attach_new_ts. cbn [TimestampGC.gc_map TimestampGC.temp_gc_map].
  set (n := std_upper_bound _ (TimestampGC.temp_gc_map g)).
  destruct (attach_spec largest (take n (TimestampGC.temp_gc_map g)) _ Hgc) as [Hk Hp]. set (m := foldl _ _ _) in *.
  destruct (upper_bound_nondescending smallest m Hk) as [H1 H2], (upper_bound_nondescending largest _ Htemp) as [_ H3].
  split_and!; [|done..]. rewrite app_assoc, <- fmap_app, take_drop, Hp, fmap_app, <- list_fmap_compose.
  rewrite <- (take_drop n (TimestampGC.temp_gc_map g)) at 3. rewrite fmap_app, <- app_assoc.
  rewrite (Permutation_app_comm (_ <$> take n _)), <- app_assoc. apply Permutation_app_head. by rewrite Permutation_app_comm.
Qed.

Lemma smallest_above (ws : t) (m : Z) : m ≤ UINT64_MAX → (∀ k w, ws !! k = Some (Some w) → m ≤ txn_cnt w) → m ≤ (get_gc_txn_cnt ws).1.
Proof.
  intros Hm Hall. unfold get_gc_txn_cnt. pose proof (gc_cnt_bounds ws (UINT64_MAX, 0)) as Hb.
  destruct (foldl _ _ ws) as [a b]. destruct Hb as (_ & _ & _ & [->|(w & [k Hk]%list_elem_of_lookup & <-)]); [done|by eapply Hall].
Qed.

Lemma published_horizon (ws : t) (j : nat) (wj : worker) (m : Z) : workers_ok ws → set_gc_ts ws !! j = Some (Some wj) → 1 ≤ m →
  (∀ k w, ws !! k = Some (Some w) → m ≤ txn_cnt w) → (m - 1) * 256 + Z.of_nat j ≤ get_smallest_ts wj.
Proof.
  intros Hok Hj Hm Hall. pose proof (smallest_above ws m) as Hle.
  unfold set_gc_ts in Hj. pose proof (gc_cnt_bounds ws (UINT64_MAX, 0)) as Hb. fold (get_gc_txn_cnt ws) in Hb.
  destruct (get_gc_txn_cnt ws) as [a b]. simpl in Hle. destruct Hb as (_ & _ & Hin & _). rewrite list_lookup_fmap in Hj.
  destruct (ws !! j) as [[w|]|] eqn:Hw; simpl in Hj; simplify_eq. destruct (Hok j w Hw) as (Hid & Hlt & Hc & _).
  assert (a ≤ txn_cnt w) by (apply Hin; by eapply list_elem_of_lookup_2). specialize (Hall j w Hw) as Hmw.
  assert (m ≤ a) as Hma by (apply Hle; [unfold UINT64_MAX; lia|exact Hall]).
  unfold get_smallest_ts. simpl. rewrite wrap_small by (split; lia). rewrite (get_ts_value j) by (done || lia). lia.
Qed.

(** C34: the horizon may pass a running transaction.  Worker [i] draws the
    timestamp [ts] of the transaction it then runs, and the manager publishes
    its bounds.  If the transaction is a fresh one and no worker has stayed
    behind, every worker with a larger id then takes a horizon above [ts]; if
    it is the retry of an aborted one, which advances the counter by 2 or 4,
    and every worker has counted two further, so does every worker.  A worker
    frees the versions that are overwritten up to its horizon, and so those
    that the running transaction may still read. *)
Theorem horizon_passes_running (ws ws' : t) (i j : nat) (w wj : worker) (ts : Z) (Hok : workers_ok ws) (Hok' : workers_ok ws')
    (Hi : ws !! i = Some (Some w)) (Hj : set_gc_ts ws' !! j = Some (Some wj)) :
  (get_new_ts ws i = Some (ts, ws') → (∀ k wk, ws' !! k = Some (Some wk) → txn_cnt w + 1 ≤ txn_cnt wk) → (i < j)%nat →
    ts < get_smallest_ts wj) ∧
  (get_abort_boosted_ts ws i = Some (ts, ws') → 0 ≤ abort_cnt w < 2 ^ 63 →
    (∀ k wk, ws' !! k = Some (Some wk) → txn_cnt w + 2 ≤ txn_cnt wk) → ts < get_smallest_ts wj).
Proof.
  destruct (Hok i w Hi) as (_ & Hi256 & Hc & _). split.
  - intros Hts Hall Hij. unfold get_new_ts in Hts. rewrite Hi in Hts.
    destruct (issue_ok ws i (set_abort_cnt w 0) w 1 ts ws' Hi (Hok i w Hi) eq_refl eq_refl eq_refl ltac:(lia) Hts) as (-> & _).
    pose proof (published_horizon ws' j wj (txn_cnt w + 1) Hok' Hj ltac:(lia) Hall). lia.
  - intros Hts Hab Hall. destruct (boosted_ts ws i w ts ws' Hok Hi Hab Hts) as (-> & _).
    pose proof (published_horizon ws' j wj (txn_cnt w + 2) Hok' Hj ltac:(lia) Hall). lia.
Qed.

(** ** Witnesses *)
Definition ws0 : t := [Some (new_worker 0 2); Some (new_worker 1 2)].

Lemma ws0_ok : workers_ok ws0.
Proof. intros [|[|i]] w Hw; simpl in Hw; simplify_eq; split_and!; simpl; (done || lia). Qed.

Lemma ws0_issued : issued ws0 [(0%nat, 256)] [Some (mkWorker 2 1 1 0 2 0 0); Some (new_worker 1 2)].
Proof. eapply (issued_new ws0 [] ws0 0); [constructor|apply ws0_ok|reflexivity]. Qed.

Lemma timestamps_unique_witness : NoDup [256] ∧ ∀ i, StronglySorted Z.gt (filter (λ p, p.1 = i) [(0%nat, 256)]).*2.
Proof. apply (timestamps_unique ws0 _ [(0%nat, 256)] ws0_issued). Defined.

Lemma timestamp_bounds_witness : 0 ≤ 0 < 1 ∧ 1 ≤ 1.
Proof.
  apply (timestamp_bounds ws0 1 0 (mkWorker 1 0 1 1 2 0 0) (new_worker 0 2) ws0_ok); reflexivity.
Defined.

Definition gc0 : TimestampGC.t := TimestampGC.mk [(256, 1%positive)] [(300, 2%positive); (900, 3%positive)].

Lemma timestamp_gc_exact_witness :
  TimestampGC.remove gc0 256 512 = ([(256, 1%positive)], TimestampGC.mk [(512, 2%positive)] [(900, 3%positive)]) ∧
  ∀ p, p ∈ (TimestampGC.remove gc0 256 512).1 → p.1 ≤ 256.
Proof.
  split; [reflexivity|].
  apply (timestamp_gc_exact gc0 256 512); repeat constructor; simpl; lia.
Defined.

(** Worker 0 draws 512 while worker 1 is at 3; worker 1 then frees up to
    513. *)
Definition ws1 : t := [Some (mkWorker 2 1 1 0 5 0 0); Some (mkWorker 3 1 1 1 5 0 0)].
Definition ws2 : t := [Some (mkWorker 3 1 1 0 5 0 0); Some (mkWorker 3 1 1 1 5 0 0)].
(** Worker 0 retries as 512 with its counter at 4, and so is worker 1's. *)
Definition ws3 : t := [Some (mkWorker 2 1 1 0 5 0 0); Some (mkWorker 4 1 1 1 5 0 0)].
Definition ws4 : t := [Some (mkWorker 4 1 1 0 5 0 1); Some (mkWorker 4 1 1 1 5 0 0)].

Lemma two_workers_ok a b c d : worker_ok 0 a → worker_ok 1 b → [Some a; Some b] !! c = Some (Some d) → worker_ok c d.
Proof. intros Ha Hb. destruct c as [|[|c]]; simpl; intros [= <-]; assumption. Qed.

Lemma horizon_passes_running_witness :
  (get_new_ts ws1 0 = Some (512, ws2) ∧ 512 < get_smallest_ts (mkWorker 3 2 3 1 5 0 0)) ∧
  (get_abort_boosted_ts ws3 0 = Some (512, ws4) ∧ 512 < get_smallest_ts (mkWorker 4 3 4 0 5 0 1)).
Proof.
  split; (split; [reflexivity|]).
  - refine (proj1 (horizon_passes_running ws1 ws2 0 1 (mkWorker 2 1 1 0 5 0 0) _ 512 _ _ eq_refl eq_refl) eq_refl _ _); [| | |lia].
    + intros i w. apply two_workers_ok; split_and!; simpl; (done || lia).
    + intros i w. apply two_workers_ok; split_and!; simpl; (done || lia).
    + intros [|[|k]] wk [= <-]; simpl; lia.
  - refine (proj2 (horizon_passes_running ws3 ws4 0 0 (mkWorker 2 1 1 0 5 0 0) _ 512 _ _ eq_refl eq_refl) eq_refl _ _); [| |simpl; lia|].
    + intros i w. apply two_workers_ok; split_and!; simpl; (done || lia).
    + intros i w. apply two_workers_ok; split_and!; simpl; (done || lia).
    + intros [|[|k]] wk [= <-]; simpl; lia.
Defined.
End timestamp_properties.
