(* ===== verification/Index.v ===== *)
(** * indexes/masstree_wrapper.hpp and indexes/masstree.hpp: the ordered index

    [MasstreeWrapper] drives the Masstree library with scanner objects;
    [MasstreeIndexes] turns 64-bit keys into byte strings whose lexicographic
    order is the numeric order and offers lookups, insertions, removals and
    range scans with a limit.  The library itself is the class [Masstree]:
    a byte-string map whose scans visit leaves and entries in order.  The
    class [Index] is what the protocols rely on, and the last section shows
    that [MasstreeIndexes] implements it. *)
From stdpp Require Import sorting.
From S2P Require Import Prelude.

(** ** Memory images of keys *)

Abbreviation bytes := (list Z).

Definition is_byte (b : Z) : Prop := 0 ≤ b < 256.

(** The bytes of an [n]-byte unsigned integer in memory (little endian). *)
Fixpoint le_split (n : nat) (z : Z) : bytes :=
  match n with O => [] | S n => z mod 256 :: le_split n (z / 256) end.
Fixpoint le_combine (l : bytes) : Z :=
  match l with [] => 0 | b :: l => b + 256 * le_combine l end.

(** [__builtin_bswap64]. *)
Definition bswap64 (k : Z) : Z := le_combine (reverse (le_split 8 k)).

(** [byte_swap] of the index, and the key buffer it passes as [char*]. *)
Definition byte_swap (key : Z) : Z := bswap64 key.
Definition key_buf (key : Z) : bytes := le_split 8 (byte_swap key).
#[global] Arguments key_buf : simpl never.

(** The key a scan hands to the callbacks of the index. *)
Definition actual_key (s : bytes) : Z := bswap64 (le_combine (take 8 s)).

(** [memcmp(a, b, n)]. *)
Fixpoint memcmp (n : nat) (a b : bytes) : Z :=
  match n, a, b with
  | S n, x :: a, y :: b => if x =? y then memcmp n a b else x - y
  | _, _, _ => 0
  end.

(** The order of the library on keys. *)
Fixpoint lex_ltb (a b : bytes) : bool :=
  match a, b with
  | [], [] => false
  | [], _ :: _ => true
  | _ :: _, [] => false
  | x :: a, y :: b => if x =? y then lex_ltb a b else x <? y
  end.

(** ** The Masstree library *)

(** What a traversal shows its scanner. *)
Inductive visit (V : Type) := Leaf (node version : Z) | Entry (key : bytes) (val : V).
Arguments Leaf {V} _ _.
Arguments Entry {V} _ _.

Definition entries {V} (vs : list (visit V)) : list (bytes * V) :=
  omap (λ x, match x with Leaf _ _ => None | Entry k v => Some (k, v) end) vs.

Class Masstree (V : Type) := {
  table : Type;
  table_initialize : table;
  (** [find_unlocked], [find_locked] or [find_insert] and [value]. *)
  table_find : table → bytes → option V;
  (** [node]: the leaf that holds the key, or would. *)
  table_node : table → bytes → Z;
  (** [full_version_value] of a leaf. *)
  table_version : table → Z → Z;
  (** The value of a present key replaced in place, [finish(0)]. *)
  table_store : table → bytes → V → table;
  (** [finish(1)] after storing the value, [finish(-1)]. *)
  table_put : table → bytes → V → table;
  table_erase : table → bytes → table;
  (** The visits of a complete traversal from the first key. *)
  table_scan : table → bytes → bool → list (visit V);
  table_rscan : table → bytes → bool → list (visit V)
}.

Class MasstreeLaws (V : Type) `{Masstree V} := {
  find_initialize k : table_find table_initialize k = None;
  find_store t k v k' : table_find (table_store t k v) k' =
    if decide (k' = k) then (λ _, v) <$> table_find t k else table_find t k';
  find_put t k v k' : table_find (table_put t k v) k' = if decide (k' = k) then Some v else table_find t k';
  find_erase t k k' : table_find (table_erase t k) k' = if decide (k' = k) then None else table_find t k';
  scan_entries t k emit_firstkey k' v : (k', v) ∈ entries (table_scan t k emit_firstkey) ↔
    table_find t k' = Some v ∧ (lex_ltb k k' = true ∨ (emit_firstkey = true ∧ k' = k));
  scan_order t k emit_firstkey :
    StronglySorted (λ a b, lex_ltb a.1 b.1 = true) (entries (table_scan t k emit_firstkey));
  rscan_entries t k emit_firstkey k' v : (k', v) ∈ entries (table_rscan t k emit_firstkey) ↔
    table_find t k' = Some v ∧ (lex_ltb k' k = true ∨ (emit_firstkey = true ∧ k' = k));
  rscan_order t k emit_firstkey :
    StronglySorted (λ a b, lex_ltb b.1 a.1 = true) (entries (table_rscan t k emit_firstkey))
}.

(** ** MasstreeWrapper *)
Module MasstreeWrapper.

(** [node_info_t]; a null node is [None]. *)
Record node_info_t := mkNodeInfo { node : option Z; old_version : Z; new_version : Z }.
Definition no_node_info : node_info_t := mkNodeInfo None 0 0.

Section wrapper.
Context {V : Type} `{Masstree V}.

Definition insert_value (t : table) (key : bytes) (value : V) : bool * table :=
  match table_find t key with
  | Some _ => (false, t)
  | None => (true, table_put t key value)
  end.

Definition insert_value_and_get_nodeinfo_on_success (t : table) (key : bytes) (value : V) (ni : node_info_t) :
    bool * node_info_t * table :=
  match table_find t key with
  | Some _ => (false, ni, t)
  | None =>
      let t' := table_put t key value in
      let n := table_node t key in
      (true, mkNodeInfo (Some n) (table_version t n) (table_version t' n), t')
  end.

Definition get_value (t : table) (key : bytes) : option V := table_find t key.

Definition get_value_and_get_nodeinfo_on_failure (t : table) (key : bytes) (ni : node_info_t) :
    option V * node_info_t :=
  match table_find t key with
  | Some v => (Some v, ni)
  | None => let n := table_node t key in (None, mkNodeInfo (Some n) (table_version t n) (table_version t n))
  end.

Definition update_value (t : table) (key : bytes) (value : V) : bool * table :=
  match table_find t key with
  | Some _ => (true, table_store t key value)
  | None => (false, t)
  end.

Definition update_value_and_get_nodeinfo_on_failure (t : table) (key : bytes) (value : V) (ni : node_info_t) :
    bool * node_info_t * table :=
  match table_find t key with
  | Some _ => (true, ni, table_store t key value)
  | None =>
      let n := table_node t key in
      (false, mkNodeInfo (Some n) (table_version t n) (table_version t n), t)
  end.

Definition remove_value (t : table) (key : bytes) : bool * table :=
  match table_find t key with
  | Some _ => (true, table_erase t key)
  | None => (false, t)
  end.

Definition remove_value_and_get_nodeinfo_on_failure (t : table) (key : bytes) (ni : node_info_t) :
    bool * node_info_t * table :=
  match table_find t key with
  | Some _ => (true, ni, table_erase t key)
  | None =>
      let n := table_node t key in
      (false, mkNodeInfo (Some n) (table_version t n) (table_version t n), t)
  end.

Definition get_version_value (t : table) (n : Z) : Z := table_version t n.

(** *** Scanners *)

(** A scanner counts its entries and holds [continue_flag]; the callbacks
    update the caller's state [S] and the flag. *)
Context {S : Type}.
Record scanner := mkScanner { scan_num_cnt : Z; continue_flag : bool; client : S }.
Record Callback := mkCallback {
  per_node_func : Z → Z → S * bool → S * bool;
  per_kv_func : bytes → V → S * bool → S * bool
}.

Definition visit_leaf (cb : Callback) (n v : Z) (x : scanner) : scanner :=
  let '(s, flag) := per_node_func cb n v (client x, continue_flag x) in
  mkScanner (scan_num_cnt x) flag s.

Definition emit (cb : Callback) (key : bytes) (val : V) (x : scanner) : bool * scanner :=
  let '(s, flag) := per_kv_func cb key val (client x, continue_flag x) in
  (true, mkScanner (scan_num_cnt x) flag s).

Definition stopped (max_scan_num : Z) (x : scanner) : bool :=
  negb (continue_flag x) || ((0 <=? max_scan_num) && (max_scan_num <=? scan_num_cnt x)).

Definition count_entry (x : scanner) : scanner :=
  mkScanner (scan_num_cnt x + 1) (continue_flag x) (client x).

(** [SearchRangeScanner::visit_value]. *)
Definition visit_value (cb : Callback) (rkey : option bytes) (r_exclusive : bool) (max_scan_num : Z)
    (key : bytes) (val : V) (x : scanner) : bool * scanner :=
  if stopped max_scan_num x then (false, x) else
  let x := count_entry x in
  match rkey with
  | None => emit cb key val x
  | Some rkey =>
      let res := memcmp (length rkey `min` length key) rkey key in
      let smaller_than_end_key := 0 <? res in
      let same_as_end_key_but_shorter := (res =? 0) && (length key <? length rkey)%nat in
      let same_as_end_key_inclusive := (res =? 0) && (length rkey =? length key)%nat && negb r_exclusive in
      if smaller_than_end_key || same_as_end_key_but_shorter || same_as_end_key_inclusive
      then emit cb key val x else (false, x)
  end.

(** [BackwordScanner::visit_value]. *)
Definition visit_value_backward (cb : Callback) (lkey : option bytes) (l_exclusive : bool) (max_scan_num : Z)
    (key : bytes) (val : V) (x : scanner) : bool * scanner :=
  if stopped max_scan_num x then (false, x) else
  let x := count_entry x in
  match lkey with
  | None => emit cb key val x
  | Some lkey =>
      let res := memcmp (length lkey `min` length key) lkey key in
      let bigger_than_end_key := res <? 0 in
      let same_as_end_key_but_longer := (res =? 0) && (length lkey <? length key)%nat in
      let same_as_end_key_inclusive := (res =? 0) && (length lkey =? length key)%nat && negb l_exclusive in
      if bigger_than_end_key || same_as_end_key_but_longer || same_as_end_key_inclusive
      then emit cb key val x else (false, x)
  end.

(** A traversal ends when [visit_value] returns false. *)
Fixpoint traverse (cb : Callback) (value : bytes → V → scanner → bool * scanner) (vs : list (visit V))
    (x : scanner) : scanner :=
  match vs with
  | [] => x
  | Leaf n v :: vs => traverse cb value vs (visit_leaf cb n v x)
  | Entry key val :: vs =>
      let '(continue, x) := value key val x in
      if continue then traverse cb value vs x else x
  end.

Definition start (s : S) : scanner := mkScanner 0 true s.

Definition scan (t : table) (lkey : option bytes) (l_exclusive : bool) (rkey : option bytes) (r_exclusive : bool)
    (cb : Callback) (max_scan_num : Z) (s : S) : S :=
  let mtkey := default [] lkey in
  client (traverse cb (visit_value cb rkey r_exclusive max_scan_num) (table_scan t mtkey (negb l_exclusive)) (start s)).

(** The first key of [rscan] is empty when [lkey] is null, whatever [rkey]. *)
Definition rscan (t : table) (lkey : option bytes) (l_exclusive : bool) (rkey : bytes) (r_exclusive : bool)
    (cb : Callback) (max_scan_num : Z) (s : S) : S :=
  let mtkey := match lkey with None => [] | Some _ => rkey end in
  client (traverse cb (visit_value_backward cb lkey l_exclusive max_scan_num)
    (table_rscan t mtkey (negb r_exclusive)) (start s)).
End wrapper.
Arguments scanner : clear implicits.
Arguments Callback : clear implicits.
End MasstreeWrapper.

(** ** MasstreeIndexes *)
Module MasstreeIndexes.
Import MasstreeWrapper.

Inductive Result := OK | NOT_FOUND | BAD_INSERT | NOT_INSERTED | NOT_DELETED | BAD_SCAN.
#[global] Instance Result_eq_dec : EqDecision Result.
Proof. solve_decision. Defined.

(** [NodeMap]: leaves and their versions. *)
Abbreviation NodeMap := (gmap Z Z).

(** [std::unordered_map::emplace] and [std::map::emplace] keep what is there. *)
Definition node_emplace (n v : Z) (nm : NodeMap) : NodeMap :=
  match nm !! n with Some _ => nm | None => <[n := v]> nm end.
Definition map_emplace {A} (k : Z) (x : A) (m : list (Z * A)) : list (Z * A) :=
  if decide (k ∈ m.*1) then m else insert_ascending k x m.

Section indexes.
Context {V : Type} `{Masstree V}.

(** [indexes[table_id]] makes an empty tree for a new table. *)
Definition t : Type := gmap Z table.
Definition mt (idx : t) (table_id : Z) : table := default table_initialize (idx !! table_id).

Definition find (idx : t) (table_id key : Z) : Result * option V :=
  let val := get_value (mt idx table_id) (key_buf key) in
  match val with None => (NOT_FOUND, None) | Some v => (OK, Some v) end.

Definition find_and_note (idx : t) (table_id key : Z) (nm : NodeMap) : Result * option V * NodeMap :=
  let '(val, ni) := get_value_and_get_nodeinfo_on_failure (mt idx table_id) (key_buf key) no_node_info in
  match val with
  | None => (NOT_FOUND, None, match node ni with Some n => node_emplace n (new_version ni) nm | None => nm end)
  | Some v => (OK, Some v, nm)
  end.

Definition insert (idx : t) (table_id key : Z) (val : V) : Result * t :=
  let '(inserted, t') := insert_value (mt idx table_id) (key_buf key) val in
  (if inserted then OK else NOT_INSERTED, <[table_id := t']> idx).

Definition insert_with_nodeinfo (idx : t) (table_id key : Z) (val : V) (ni : node_info_t) :
    Result * node_info_t * t :=
  let '(inserted, ni, t') :=
    insert_value_and_get_nodeinfo_on_success (mt idx table_id) (key_buf key) val ni in
  (if inserted then OK else NOT_INSERTED, ni, <[table_id := t']> idx).

Definition insert_and_note (idx : t) (table_id key : Z) (val : V) (nm : NodeMap) : Result * NodeMap * t :=
  let '(inserted, ni, t') :=
    insert_value_and_get_nodeinfo_on_success (mt idx table_id) (key_buf key) val no_node_info in
  let idx := <[table_id := t']> idx in
  if inserted then
    match node ni with
    | None => (OK, nm, idx)
    | Some n =>
        match nm !! n with
        | None => (OK, nm, idx)
        | Some version =>
            if version =? old_version ni then (OK, <[n := new_version ni]> nm, idx) else (BAD_INSERT, nm, idx)
        end
    end
  else (NOT_INSERTED, nm, idx).

(** [next_key] and [next_value] are assigned when there is an entry. *)
Definition get_next_kv (idx : t) (table_id lkey : Z) : Result * option (Z * V) :=
  (OK, scan (mt idx table_id) (Some (key_buf lkey)) true (Some (key_buf UINT64_MAX)) false
    (mkCallback (λ _ _ sf, sf) (λ key val sf, (Some (actual_key key, val), sf.2))) 1 None).

Section callbacks.
Context {S : Type}.
Definition get_kv_in_range_with (idx : t) (table_id lkey rkey : Z)
    (per_node : Z → Z → S * bool → S * bool) (per_kv : Z → V → S * bool → S * bool) (s : S) : Result * S :=
  (OK, scan (mt idx table_id) (Some (key_buf lkey)) false (Some (key_buf rkey)) true
    (mkCallback per_node (λ key, per_kv (actual_key key))) (-1) s).

Definition get_kv_in_rev_range_with (idx : t) (table_id lkey rkey : Z)
    (per_node : Z → Z → S * bool → S * bool) (per_kv : Z → V → S * bool → S * bool) (s : S) : Result * S :=
  (OK, rscan (mt idx table_id) (Some (key_buf lkey)) true (key_buf rkey) false
    (mkCallback per_node (λ key, per_kv (actual_key key))) (-1) s).
End callbacks.

(** The callback that fills [kv_map] up to [count] entries. *)
Definition collect (count : Z) (key : Z) (val : V) (sf : list (Z * V) * bool) : list (Z * V) * bool :=
  let kv_map := map_emplace key val sf.1 in
  (kv_map, if negb (count =? -1) && (count <=? Z.of_nat (length kv_map)) then false else sf.2).

Definition get_kv_in_range (idx : t) (table_id lkey rkey count : Z) (kv_map : list (Z * V)) :
    Result * list (Z * V) :=
  (OK, (get_kv_in_range_with idx table_id lkey rkey (λ _ _ sf, sf) (collect count) kv_map).2).

Definition get_kv_in_rev_range (idx : t) (table_id lkey rkey count : Z) (kv_map : list (Z * V)) :
    Result * list (Z * V) :=
  (OK, (get_kv_in_rev_range_with idx table_id lkey rkey (λ _ _ sf, sf) (collect count) kv_map).2).

(** The state of the scans with a node map: the entries, the node map and
    [exception_caught]. *)
Abbreviation noted := (list (Z * V) * NodeMap * bool)%type.

Definition note_leaf (leaf version : Z) (sf : noted * bool) : noted * bool :=
  let '((kv_map, nm, exception_caught), flag) := sf in
  match nm !! leaf with
  | None => ((kv_map, <[leaf := version]> nm, exception_caught), flag)
  | Some v => if v =? version then sf else ((kv_map, nm, true), false)
  end.

Definition collect_noted (count : Z) (key : Z) (val : V) (sf : noted * bool) : noted * bool :=
  let '((kv_map, nm, exception_caught), flag) := sf in
  let '(kv_map, flag) := collect count key val (kv_map, flag) in
  ((kv_map, nm, exception_caught), flag).

Definition noted_result (x : Result * noted) : Result * list (Z * V) * NodeMap :=
  let '(_, (kv_map, nm, exception_caught)) := x in
  (if exception_caught then BAD_SCAN else OK, kv_map, nm).

Definition get_kv_in_range_and_note (idx : t) (table_id lkey rkey count : Z) (kv_map : list (Z * V))
    (nm : NodeMap) : Result * list (Z * V) * NodeMap :=
  noted_result (get_kv_in_range_with idx table_id lkey rkey note_leaf (collect_noted count) (kv_map, nm, false)).

Definition get_kv_in_rev_range_and_note (idx : t) (table_id lkey rkey count : Z) (kv_map : list (Z * V))
    (nm : NodeMap) : Result * list (Z * V) * NodeMap :=
  noted_result (get_kv_in_rev_range_with idx table_id lkey rkey note_leaf (collect_noted count) (kv_map, nm, false)).

Definition remove (idx : t) (table_id key : Z) : Result * t :=
  let '(removed, t') := remove_value (mt idx table_id) (key_buf key) in
  (if removed then OK else NOT_DELETED, <[table_id := t']> idx).

Definition get_version_value (idx : t) (table_id n : Z) : Z :=
  MasstreeWrapper.get_version_value (mt idx table_id) n.
End indexes.
End MasstreeIndexes.

(** ** Byte strings of keys: order and round trip *)
Section key_bytes.

Lemma le_split_length n z : length (le_split n z) = n.
Proof. revert z. induction n as [|n IH]; intros z; [done|]. simpl. by rewrite IH. Qed.

Lemma le_split_bytes n z : Forall is_byte (le_split n z).
Proof.
  revert z. induction n as [|n IH]; intros z; [constructor|]. constructor; [|apply IH].
  apply Z.mod_pos_bound. lia.
Qed.

Lemma le_split_combine l : Forall is_byte l → le_split (length l) (le_combine l) = l.
Proof.
  unfold is_byte. induction 1 as [|b l Hb Hl IH]; [done|]. cbn [le_split le_combine length].
  rewrite (Z.mul_comm 256), Z.mod_add, Z.mod_small by lia. f_equal.
  rewrite Z.div_add, (Z.div_small b), Z.add_0_l by lia. done.
Qed.

Lemma le_combine_split n z : le_combine (le_split n z) = z mod 256 ^ Z.of_nat n.
Proof.
  revert z. induction n as [|n IH]; intros z; simpl; [by rewrite Z.mod_1_r|].
  rewrite IH. replace (Z.of_nat (S n)) with (1 + Z.of_nat n) by lia. rewrite Z.pow_add_r, Z.pow_1_r by lia.
  rewrite Z.rem_mul_r by lia. lia.
Qed.

Lemma le_combine_app l1 l2 : le_combine (l1 ++ l2) = le_combine l1 + 256 ^ Z.of_nat (length l1) * le_combine l2.
Proof.
  induction l1 as [|b l1 IH]; cbn [app le_combine length]; [lia|]. rewrite IH, Nat2Z.inj_succ, Z.pow_succ_r by lia. lia.
Qed.

Lemma le_combine_bound l : Forall is_byte l → 0 ≤ le_combine l < 256 ^ Z.of_nat (length l).
Proof.
  unfold is_byte. induction 1 as [|b l Hb Hl IH]; [done|]. cbn [le_combine length].
  rewrite Nat2Z.inj_succ, Z.pow_succ_r by lia. lia.
Qed.

(** The key buffer holds the most significant byte first. *)
Lemma key_buf_reverse k : key_buf k = reverse (le_split 8 k).
Proof.
  unfold key_buf, byte_swap, bswap64. rewrite <- (le_split_combine (reverse (le_split 8 k))) at 2.
  - by rewrite length_reverse, le_split_length.
  - by rewrite Forall_reverse; apply le_split_bytes.
Qed.

Lemma key_buf_length k : length (key_buf k) = 8%nat.
Proof. apply le_split_length. Qed.

Lemma key_buf_bytes k : Forall is_byte (key_buf k).
Proof. apply le_split_bytes. Qed.

Lemma key_buf_value k : word64 k → le_combine (reverse (key_buf k)) = k.
Proof.
  intros Hk. rewrite key_buf_reverse, reverse_involutive, le_combine_split.
  change (256 ^ Z.of_nat 8) with (2 ^ 64). by apply Z.mod_small.
Qed.

Lemma actual_key_buf k : word64 k → actual_key (key_buf k) = k.
Proof.
  intros Hk. unfold actual_key. rewrite take_ge by (by rewrite key_buf_length). unfold bswap64.
  pose proof (le_split_combine (key_buf k) (key_buf_bytes k)) as Hs. rewrite key_buf_length in Hs. rewrite Hs.
  by apply key_buf_value.
Qed.

Lemma key_buf_inj a b : word64 a → word64 b → key_buf a = key_buf b → a = b.
Proof. intros Ha Hb Heq. rewrite <- (actual_key_buf a), <- (actual_key_buf b) by done. by rewrite Heq. Qed.

(** On byte strings of one length both comparisons are the comparison of
    the numbers written most significant byte first. *)
Lemma compare_bytes a b : length a = length b → Forall is_byte a → Forall is_byte b →
  (memcmp (length a) a b <? 0) = (le_combine (reverse a) <? le_combine (reverse b)) ∧
  (memcmp (length a) a b =? 0) = (le_combine (reverse a) =? le_combine (reverse b)) ∧
  lex_ltb a b = (le_combine (reverse a) <? le_combine (reverse b)).
Proof.
  revert b. induction a as [|x a IH]; intros [|y b] Hlen Ha Hb; try done.
  apply Forall_cons in Ha as [Hx Ha], Hb as [Hy Hb]. injection Hlen as Hlen.
  rewrite !reverse_cons, !le_combine_app, !length_reverse, <- Hlen. cbn [le_combine length memcmp lex_ltb].
  pose proof (le_combine_bound (reverse a) ltac:(by apply Forall_reverse)) as Hba.
  pose proof (le_combine_bound (reverse b) ltac:(by apply Forall_reverse)) as Hbb.
  rewrite length_reverse in Hba, Hbb. rewrite <- Hlen in Hbb.
  set (m := 256 ^ Z.of_nat (length a)) in *. destruct (Z.eqb_spec x y) as [->|Hne].
  - destruct (IH b Hlen Ha Hb) as (-> & -> & ->). split_and!; apply eq_bool_prop_intro; rewrite !Is_true_true; lia.
  - assert (x < y ∨ y < x) as [Hlt|Hlt] by lia;
      [assert (m * (x + 1) ≤ m * y) by nia|assert (m * (y + 1) ≤ m * x) by nia];
      split_and!; apply eq_bool_prop_intro; rewrite !Is_true_true; lia.
Qed.

Lemma key_buf_lex a b : word64 a → word64 b → lex_ltb (key_buf a) (key_buf b) = (a <? b).
Proof.
  intros Ha Hb. destruct (compare_bytes (key_buf a) (key_buf b)) as (_ & _ & ->);
    [by rewrite !key_buf_length|apply key_buf_bytes..|]. by rewrite !key_buf_value.
Qed.

Lemma key_buf_memcmp a b : word64 a → word64 b →
  (memcmp 8 (key_buf a) (key_buf b) <? 0) = (a <? b) ∧ (memcmp 8 (key_buf a) (key_buf b) =? 0) = (a =? b) ∧
  (0 <? memcmp 8 (key_buf a) (key_buf b)) = (b <? a).
Proof.
  intros Ha Hb. destruct (compare_bytes (key_buf a) (key_buf b)) as (H1 & H2 & _);
    [by rewrite !key_buf_length|apply key_buf_bytes..|]. rewrite key_buf_length, !key_buf_value in * by done.
  split_and!; [done..|]. apply eq_bool_prop_intro. rewrite !Is_true_true. lia.
Qed.
End key_bytes.

(** ** What the scans collect *)
Section scans.
Import MasstreeWrapper MasstreeIndexes.
Context {V : Type} `{Masstree V}.

Definition encode (D : list (Z * V)) : list (bytes * V) := (λ p, (key_buf p.1, p.2)) <$> D.

(** The keys of a table are buffers of 64-bit keys. *)
Definition table_ok (tb : table) : Prop := ∀ k v, table_find tb k = Some v → ∃ key, word64 key ∧ k = key_buf key.

(** The limit of a scan: one entry is collected before the first test. *)
Definition limited {A} (count : Z) (l : list A) : list A :=
  if count =? -1 then l else take (Z.to_nat (Z.max 1 count)) l.

Section traversal.
Context {S : Type} (cb : Callback V S) (value : bytes → V → scanner S → bool * scanner S).

Fixpoint traverse_entries (es : list (bytes * V)) (x : scanner S) : scanner S :=
  match es with
  | [] => x
  | (key, val) :: es => let '(continue, x) := value key val x in if continue then traverse_entries es x else x
  end.

Lemma traverse_skip_leaves vs x : (∀ n v sf, per_node_func cb n v sf = sf) →
  traverse cb value vs x = traverse_entries (entries vs) x.
Proof.
  intros Hcb. revert x. induction vs as [|[n v|key val] vs IH]; intros x; [done| |].
  - cbn. unfold visit_leaf. rewrite Hcb. destruct x. by rewrite IH.
  - cbn. destruct (value key val x) as [[] y]; [apply IH|done].
Qed.
End traversal.

Lemma map_emplace_fresh {A} k (x : A) m : k ∉ m.*1 → map_emplace k x m = insert_ascending k x m.
Proof. intros. unfold map_emplace. by rewrite decide_False. Qed.

Lemma ascending_take {A} n (l : list (Z * A)) : ascending l → ascending (take n l).
Proof. rewrite <- (take_drop n l) at 1. by intros (? & _)%ascending_app. Qed.

(** Collecting from entries with distinct keys, of which those in range come
    first. *)
Lemma traverse_collect count (value : bytes → V → scanner (list (Z * V)) → bool * scanner (list (Z * V)))
    (in_range : Z → bool) D n acc :
  let cb := mkCallback (λ _ _ sf, sf) (λ key : bytes, collect (V := V) count (actual_key key)) in
  (∀ p x, p ∈ D → value (key_buf p.1) p.2 x = if stopped (-1) x then (false, x)
     else if in_range p.1 then emit cb (key_buf p.1) p.2 (count_entry x) else (false, count_entry x)) →
  (∀ p, p ∈ D → word64 p.1) → NoDup (acc.*1 ++ D.*1) →
  StronglySorted (λ p q, in_range q.1 = true → in_range p.1 = true) D →
  client (traverse_entries value (encode D) (mkScanner n true acc)) =
  foldl (λ m p, map_emplace p.1 p.2 m) acc
    (if count =? -1 then filter (λ p, in_range p.1 = true) D
     else take (Z.to_nat (Z.max 1 (count - Z.of_nat (length acc)))) (filter (λ p, in_range p.1 = true) D)).
Proof.
  intros cb. revert n acc. induction D as [|p D IH]; intros n acc Hval Hw Hnd Hs.
  { cbn. by rewrite take_nil, Tauto.if_same. }
  apply StronglySorted_inv in Hs as [Hs Hp]. rewrite Forall_forall in Hp. csimpl in *.
  rewrite (Hval p) by set_solver. cbn [stopped continue_flag negb orb Z.leb]. unfold stopped.
  change (0 <=? -1) with false. cbn [continue_flag negb orb andb].
  rewrite filter_cons. destruct (in_range p.1) eqn:Hr.
  - rewrite decide_True by done. unfold emit, count_entry. cbn [per_kv_func cb client continue_flag scan_num_cnt].
    unfold collect. cbn [fst snd]. rewrite actual_key_buf by (apply Hw; set_solver).
    assert (p.1 ∉ acc.*1) as Hfresh by (apply NoDup_app in Hnd as (_ & Hd & _); intros Hin; apply (Hd _ Hin); set_solver).
    rewrite map_emplace_fresh, insert_ascending_length by done.
    assert (NoDup ((insert_ascending p.1 p.2 acc).*1 ++ D.*1)) as Hnd'.
    { rewrite insert_ascending_perm. csimpl. by rewrite Permutation_middle. }
    destruct (Z.eqb_spec count (-1)) as [->|Hc]; simpl.
    + rewrite IH; [|by set_solver..|done|done]. simpl. by rewrite map_emplace_fresh.
    + destruct (Z.leb_spec count (Z.of_nat (S (length acc)))).
      * replace (Z.to_nat (Z.max 1 (count - Z.of_nat (length acc)))) with 1%nat by lia. cbn [take foldl].
        rewrite map_emplace_fresh by done. destruct D as [|q D]; [done|]. csimpl.
        rewrite (Hval q) by set_solver. done.
      * rewrite IH; [|by set_solver..|done|done]. rewrite insert_ascending_length.
        destruct (Z.eqb_spec count (-1)); [done|].
        replace (Z.to_nat (Z.max 1 (count - Z.of_nat (length acc)))) with
          (S (Z.to_nat (Z.max 1 (count - Z.of_nat (S (length acc)))))) by lia.
        cbn [take foldl]. by rewrite map_emplace_fresh.
  - rewrite decide_False by congruence. rewrite filter_none.
    + simpl. by rewrite take_nil, Tauto.if_same.
    + intros q Hq Hin. specialize (Hp q Hq Hin). congruence.
Qed.

Lemma emplace_ascending (D acc : list (Z * V)) : ascending (acc ++ D) →
  foldl (λ m p, map_emplace p.1 p.2 m) acc D = acc ++ D.
Proof.
  revert acc. induction D as [|[k v] D IH]; intros acc Ha; simpl; [by rewrite app_nil_r|].
  pose proof Ha as (_ & _ & Hlt)%ascending_app.
  assert (∀ p, p ∈ acc → p.1 < k) by (intros p Hp; apply (Hlt p (k, v)); set_solver).
  rewrite map_emplace_fresh, insert_ascending_snoc by
    (done || (intros (p & -> & Hp)%list_elem_of_fmap_1; specialize (Hlt p (p.1, v)); simpl in Hlt; set_solver by lia)).
  rewrite IH; by rewrite <- app_assoc.
Qed.

Lemma insert_ascending_head {A} k (x : A) l : (∀ p, p ∈ l → k < p.1) → insert_ascending k x l = (k, x) :: l.
Proof.
  destruct l as [|p l]; intros Hlt; [done|]. unfold insert_ascending, vector_insert. simpl.
  destruct (Z.ltb_spec k p.1) as [|Hge]; [done|]. specialize (Hlt p ltac:(set_solver)). lia.
Qed.

Lemma emplace_descending (D acc : list (Z * V)) : ascending (reverse D ++ acc) →
  foldl (λ m p, map_emplace p.1 p.2 m) acc D = reverse D ++ acc.
Proof.
  revert acc. induction D as [|[k v] D IH]; intros acc Ha; [done|]. cbn [foldl].
  rewrite reverse_cons, <- app_assoc in *. simpl in *. pose proof Ha as (_ & [Hlt _]%ascending_cons & _)%ascending_app.
  simpl in Hlt. rewrite map_emplace_fresh, insert_ascending_head by
    (done || (intros (p & -> & Hp)%list_elem_of_fmap_1; specialize (Hlt p Hp); lia)). by apply IH.
Qed.
End scans.

(** ** The interface the protocols use *)

Export MasstreeIndexes (Result(..)).

Class Index (V : Type) := {
  index : Type;
  idx_find : index → Z → Z → Result * option V;
  idx_insert : index → Z → Z → V → Result * index;
  idx_remove : index → Z → Z → Result * index;
  idx_get_next_kv : index → Z → Z → Result * option (Z * V);
  idx_get_kv_in_range : index → Z → Z → Z → Z → list (Z * V) → Result * list (Z * V);
  idx_get_kv_in_rev_range : index → Z → Z → Z → Z → list (Z * V) → Result * list (Z * V)
}.

(** The binding of a key. *)
Definition idx_at {V} `{Index V} (i : index) (table_id key : Z) : option V := (idx_find i table_id key).2.

(** [all] lists the bindings of the keys in [l, r) in ascending order. *)
Definition bindings_in {V} (bind : Z → option V) (l r : Z) (all : list (Z * V)) : Prop :=
  ascending all ∧ ∀ k v, (k, v) ∈ all ↔ l ≤ k < r ∧ bind k = Some v.

Class IndexLaws (V : Type) `{Index V} := {
  index_ok : index → Prop;
  find_result i t k : idx_find i t k = (match idx_at i t k with Some _ => OK | None => NOT_FOUND end, idx_at i t k);
  insert_absent i t k v : index_ok i → word64 k → idx_at i t k = None →
    ∃ i', idx_insert i t k v = (OK, i') ∧ index_ok i' ∧
    ∀ t' k', word64 k' → idx_at i' t' k' = if decide (t' = t ∧ k' = k) then Some v else idx_at i t' k';
  insert_present i t k v : index_ok i → word64 k → is_Some (idx_at i t k) →
    ∃ i', idx_insert i t k v = (NOT_INSERTED, i') ∧ index_ok i' ∧ ∀ t' k', idx_at i' t' k' = idx_at i t' k';
  remove_result i t k : index_ok i → word64 k →
    ∃ i', idx_remove i t k = (match idx_at i t k with Some _ => OK | None => NOT_DELETED end, i') ∧ index_ok i' ∧
    ∀ t' k', word64 k' → idx_at i' t' k' = if decide (t' = t ∧ k' = k) then None else idx_at i t' k';
  next_result i t l : index_ok i → word64 l → ∃ all, bindings_in (idx_at i t) (l + 1) (2 ^ 64) all ∧
    idx_get_next_kv i t l = (OK, head all);
  range_result i t l r count : index_ok i → word64 l → word64 r → ∃ all, bindings_in (idx_at i t) l r all ∧
    idx_get_kv_in_range i t l r count [] = (OK, limited count all);
  rev_range_result i t l r count : index_ok i → word64 l → word64 r →
    ∃ all, bindings_in (idx_at i t) (l + 1) (r + 1) all ∧
    idx_get_kv_in_rev_range i t l r count [] = (OK, reverse (limited count (reverse all)))
}.

(** The lookups, insertions and scans that note the leaves they depend on. *)
Class NodeIndex (V : Type) := {
  node_index : Index V;
  idx_find_and_note : index → Z → Z → MasstreeIndexes.NodeMap → Result * option V * MasstreeIndexes.NodeMap;
  idx_insert_and_note : index → Z → Z → V → MasstreeIndexes.NodeMap → Result * MasstreeIndexes.NodeMap * index;
  idx_get_kv_in_range_and_note : index → Z → Z → Z → Z → list (Z * V) → MasstreeIndexes.NodeMap →
    Result * list (Z * V) * MasstreeIndexes.NodeMap;
  idx_get_kv_in_rev_range_and_note : index → Z → Z → Z → Z → list (Z * V) → MasstreeIndexes.NodeMap →
    Result * list (Z * V) * MasstreeIndexes.NodeMap;
  idx_get_version_value : index → Z → Z → Z
}.

(** Noting changes neither answers nor bindings; a scan collects bindings. *)
Class NodeIndexLaws (V : Type) `{NodeIndex V} := {
  node_index_laws : IndexLaws V (H := node_index);
  note_find i t k nm : (idx_find_and_note i t k nm).1 = idx_find i t k;
  note_insert i t k v nm : (idx_insert_and_note i t k v nm).2 = (idx_insert i t k v).2 ∧
    ((idx_insert_and_note i t k v nm).1.1 = NOT_INSERTED ↔ (idx_insert i t k v).1 = NOT_INSERTED);
  note_range i t l r count nm k v : index_ok i →
    (k, v) ∈ (idx_get_kv_in_range_and_note i t l r count [] nm).1.2 → word64 k ∧ idx_at i t k = Some v;
  note_rev_range i t l r count nm k v : index_ok i →
    (k, v) ∈ (idx_get_kv_in_rev_range_and_note i t l r count [] nm).1.2 → word64 k ∧ idx_at i t k = Some v
}.

(** The insertions that tell the leaf and the scans that call back. *)
Class ScanIndex (V : Type) := {
  scan_index : Index V;
  idx_insert_with_nodeinfo : index → Z → Z → V → MasstreeWrapper.node_info_t → Result * MasstreeWrapper.node_info_t * index;
  idx_get_kv_in_range_with {S : Type} : index → Z → Z → Z → (Z → Z → S * bool → S * bool) → (Z → V → S * bool → S * bool) → S → Result * S;
  idx_get_kv_in_rev_range_with {S : Type} : index → Z → Z → Z → (Z → Z → S * bool → S * bool) → (Z → V → S * bool → S * bool) → S → Result * S
}.

(** The leaf makes no difference to the insertion; the callbacks are given
    leaves and bindings, so that what they keep holds after the scan. *)
Class ScanIndexLaws (V : Type) `{ScanIndex V} := {
  scan_index_laws : IndexLaws V (H := scan_index);
  nodeinfo_insert i t k v ni :
    ((idx_insert_with_nodeinfo i t k v ni).1.1, (idx_insert_with_nodeinfo i t k v ni).2) = idx_insert i t k v;
  nodeinfo_node i t k v ni : (idx_insert_with_nodeinfo i t k v ni).1.1 = OK →
    is_Some (MasstreeWrapper.node (idx_insert_with_nodeinfo i t k v ni).1.2);
  range_with_keeps {S} (P : S → Prop) i t l r per_node per_kv s : index_ok i → P s →
    (∀ n v x, P x.1 → P (per_node n v x).1) → (∀ k v x, word64 k → idx_at i t k = Some v → P x.1 → P (per_kv k v x).1) →
    (idx_get_kv_in_range_with i t l r per_node per_kv s).1 = OK ∧ P (idx_get_kv_in_range_with i t l r per_node per_kv s).2;
  rev_range_with_keeps {S} (P : S → Prop) i t l r per_node per_kv s : index_ok i → P s →
    (∀ n v x, P x.1 → P (per_node n v x).1) → (∀ k v x, word64 k → idx_at i t k = Some v → P x.1 → P (per_kv k v x).1) →
    (idx_get_kv_in_rev_range_with i t l r per_node per_kv s).1 = OK ∧ P (idx_get_kv_in_rev_range_with i t l r per_node per_kv s).2
}.

(** ** MasstreeIndexes implements the interface *)
Section implementation.
Import MasstreeWrapper MasstreeIndexes.
Context {V : Type} `{HM : Masstree V} `{HL : !MasstreeLaws V}.

#[export] Instance masstree_index : Index V | 100 := {
  index := MasstreeIndexes.t (V := V);
  idx_find := MasstreeIndexes.find;
  idx_insert := MasstreeIndexes.insert;
  idx_remove := MasstreeIndexes.remove;
  idx_get_next_kv := MasstreeIndexes.get_next_kv;
  idx_get_kv_in_range := MasstreeIndexes.get_kv_in_range;
  idx_get_kv_in_rev_range := MasstreeIndexes.get_kv_in_rev_range
}.

Definition tables_ok (i : MasstreeIndexes.t (V := V)) : Prop := ∀ t, table_ok (mt i t).

Lemma at_find (i : index (V := V)) t k : idx_at i t k = table_find (mt i t) (key_buf k).
Proof.
  unfold idx_at. cbn. unfold MasstreeIndexes.find, get_value. by destruct (table_find _ _).
Qed.

Lemma mt_insert (i : MasstreeIndexes.t (V := V)) t t' tb : mt (<[t := tb]> i) t' = if decide (t' = t) then tb else mt i t'.
Proof.
  unfold mt, MasstreeIndexes.t in *. case_decide as Heq; [subst; by rewrite lookup_insert_eq|by rewrite lookup_insert_ne].
Qed.

Lemma tables_ok_insert i t tb : tables_ok i → table_ok tb → tables_ok (<[t := tb]> i).
Proof. intros Hi Htb t'. rewrite mt_insert. case_decide; [done|apply Hi]. Qed.

(** The entries of a scan of a well-formed table, as numbers. *)
Lemma decode_entries tb (es : list (bytes * V)) (lt : bytes → bytes → bool) (R : Z → Z → bool) (P : bytes → Prop) : table_ok tb →
  (∀ k v, (k, v) ∈ es ↔ table_find tb k = Some v ∧ P k) →
  (∀ a b, word64 a → word64 b → lt (key_buf a) (key_buf b) = true → R a b = true) →
  StronglySorted (λ a b, lt a.1 b.1 = true) es →
  ∃ D, es = encode D ∧ (∀ p, p ∈ D → word64 p.1) ∧ StronglySorted (λ p q, R p.1 q.1 = true) D ∧
    ∀ k v, word64 k → (k, v) ∈ D ↔ table_find tb (key_buf k) = Some v ∧ P (key_buf k).
Proof.
  intros Htb Hes HR Hs.
  assert (∃ D, es = encode D ∧ ∀ p, p ∈ D → word64 p.1) as (D & -> & Hw).
  { assert (∀ e, e ∈ es → ∃ key, word64 key ∧ e.1 = key_buf key) as He.
    { intros [k v] [Hf _]%Hes. destruct (Htb _ _ Hf) as (key & ? & ->). by exists key. }
    clear Hes Hs. induction es as [|[k v] es IH]; [exists []; split; [done|set_solver]|].
    destruct IH as (D & -> & HD); [set_solver|]. destruct (He (k, v)) as (key & Hkey & Heq); [set_solver|].
    simpl in Heq. subst k. exists ((key, v) :: D). split; [done|]. set_solver. }
  exists D. split_and!; [done..| |].
  - clear Hes. induction D as [|p D IH]; [constructor|]. csimpl in Hs. apply StronglySorted_inv in Hs as [Hs Hp].
    constructor; [apply IH; [done|set_solver]|]. apply Forall_forall. intros q Hq. rewrite Forall_forall in Hp.
    apply HR; [apply Hw; set_solver..|]. apply (Hp (key_buf q.1, q.2)). by apply (list_elem_of_fmap_2 (λ p, (key_buf p.1, p.2))).
  - intros k v Hk. rewrite <- Hes. split.
    + intros Hin. by apply (list_elem_of_fmap_2 (λ p : Z * V, (key_buf p.1, p.2)) _ _ Hin).
    + intros ([k' v'] & Heq & Hin)%list_elem_of_fmap_1. pose proof (f_equal fst Heq) as Hk'.
      pose proof (f_equal snd Heq) as Hv. cbn [fst snd] in Hk', Hv. clear Heq. subst v.
      apply key_buf_inj in Hk'; [by subst|done|by apply (Hw _ Hin)].
Qed.

Lemma visit_value_range {S} (cb : Callback V S) r x k (v : V) : word64 r → word64 k →
  visit_value cb (Some (key_buf r)) true (-1) (key_buf k) v x =
  if stopped (-1) x then (false, x)
  else if k <? r then emit cb (key_buf k) v (count_entry x) else (false, count_entry x).
Proof.
  intros Hr Hk. unfold visit_value. destruct (stopped (-1) x); [done|].
  destruct (key_buf_memcmp r k Hr Hk) as (_ & He & Hlt). rewrite !key_buf_length. cbn [Nat.min].
  rewrite He, Hlt. by rewrite Nat.ltb_irrefl, !andb_false_r, !orb_false_r.
Qed.

Lemma visit_value_rev_range {S} (cb : Callback V S) l x k (v : V) : word64 l → word64 k →
  visit_value_backward cb (Some (key_buf l)) true (-1) (key_buf k) v x =
  if stopped (-1) x then (false, x)
  else if l <? k then emit cb (key_buf k) v (count_entry x) else (false, count_entry x).
Proof.
  intros Hl Hk. unfold visit_value_backward. destruct (stopped (-1) x); [done|].
  destruct (key_buf_memcmp l k Hl Hk) as (Hlt & He & _). rewrite !key_buf_length. cbn [Nat.min].
  rewrite He, Hlt. by rewrite Nat.ltb_irrefl, !andb_false_r, !orb_false_r.
Qed.

Lemma ascending_of_sorted (D : list (Z * V)) : StronglySorted (λ p q, (p.1 <? q.1) = true) D → ascending D.
Proof.
  induction 1 as [|p D Hs IH Hp]; [constructor|]. apply ascending_cons. split; [|done].
  rewrite Forall_forall in Hp. intros q Hq%Hp. lia.
Qed.

Lemma sorted_keys_NoDup (D : list (Z * V)) (R : Z → Z → bool) : (∀ a, R a a = false) →
  StronglySorted (λ p q, R p.1 q.1 = true) D → NoDup D.*1.
Proof.
  intros Hirr. induction 1 as [|p D Hs IH Hp]; csimpl; constructor; [|done].
  intros (q & Heq & Hq)%list_elem_of_fmap_1. rewrite Forall_forall in Hp. specialize (Hp q Hq). simpl in Hp.
  rewrite <- Heq, Hirr in Hp. done.
Qed.

Lemma StronglySorted_impl {A} (R R' : A → A → Prop) l : (∀ a b, R a b → R' a b) → StronglySorted R l → StronglySorted R' l.
Proof. intros HR. induction 1; constructor; [done|]. eapply Forall_impl; [done|]. simpl. auto. Qed.

Lemma range_collects i t l r count : tables_ok i → word64 l → word64 r →
  ∃ all, bindings_in (idx_at i t) l r all ∧ get_kv_in_range i t l r count [] = (OK, limited count all).
Proof.
  intros Hi Hl Hr.
  destruct (decode_entries (mt i t) (entries (table_scan (mt i t) (key_buf l) true)) lex_ltb Z.ltb
    (λ k, lex_ltb (key_buf l) k = true ∨ (true = true ∧ k = key_buf l))) as (D & HD & Hw & Hs & Hin);
    [apply Hi|intros; apply scan_entries|intros; by rewrite <- key_buf_lex|apply scan_order|].
  exists (filter (λ p, (p.1 <? r) = true) D). split.
  - split; [by apply ascending_filter, ascending_of_sorted|]. intros k v. rewrite list_elem_of_filter, at_find. simpl. split.
    + intros [Hkr HkD]. pose proof (Hw _ HkD) as Hk. simpl in Hk. apply (Hin k v Hk) in HkD as [Hf Hlk].
      split; [|done]. rewrite key_buf_lex in Hlk by done. destruct Hlk as [Hlk|[_ ->%key_buf_inj]]; [lia|lia|done..].
    + intros [Hk Hf]. assert (word64 k) by (split; destruct Hl, Hr; lia). split; [lia|]. apply Hin; [done|]. split; [done|].
      rewrite key_buf_lex by done. destruct (decide (k = l)) as [->|]; [by right|left; lia].
  - unfold get_kv_in_range, get_kv_in_range_with, scan. cbn [fst snd]. f_equal.
    rewrite traverse_skip_leaves by done. change (entries _) with (entries (table_scan (mt i t) (key_buf l) true)). rewrite HD. unfold start.
    rewrite (traverse_collect count _ (λ k, k <? r) D 0 []); [| |done| |].
    + unfold limited. cbn [length Z.of_nat]. rewrite Z.sub_0_r. apply emplace_ascending. simpl.
      destruct (count =? -1); [|apply ascending_take]; by apply ascending_filter, ascending_of_sorted.
    + intros p x Hp. by apply visit_value_range, Hw.
    + simpl. by eapply sorted_keys_NoDup, Hs; apply Z.ltb_irrefl.
    + eapply StronglySorted_impl, Hs. simpl. lia.
Qed.
Lemma rev_range_collects i t l r count : tables_ok i → word64 l → word64 r →
  ∃ all, bindings_in (idx_at i t) (l + 1) (r + 1) all ∧
    get_kv_in_rev_range i t l r count [] = (OK, reverse (limited count (reverse all))).
Proof.
  intros Hi Hl Hr.
  destruct (decode_entries (mt i t) (entries (table_rscan (mt i t) (key_buf r) true)) (flip lex_ltb) (flip Z.ltb)
    (λ k, lex_ltb k (key_buf r) = true ∨ (true = true ∧ k = key_buf r))) as (D & HD & Hw & Hs & Hin);
    [apply Hi|intros; apply rscan_entries|intros; simpl; by rewrite <- key_buf_lex|apply rscan_order|].
  assert (ascending (reverse (filter (λ p, (l <? p.1) = true) D))) as Hasc.
  { rewrite <- filter_reverse. apply ascending_filter. clear -Hs.
    induction Hs as [|p D Hs IH Hp]; [constructor|]. rewrite reverse_cons, ascending_app. split_and!; [done|repeat constructor|].
    rewrite Forall_forall in Hp. intros q ? Hq ->%list_elem_of_singleton. rewrite elem_of_reverse in Hq. specialize (Hp q Hq). simpl in Hp. lia. }
  exists (reverse (filter (λ p, (l <? p.1) = true) D)). split.
  - split; [done|]. intros k v. rewrite elem_of_reverse, list_elem_of_filter, at_find. simpl. split.
    + intros [Hkr HkD]. pose proof (Hw _ HkD) as Hk. simpl in Hk. apply (Hin k v Hk) in HkD as [Hf Hlk].
      split; [|done]. rewrite key_buf_lex in Hlk by done. destruct Hlk as [Hlk|[_ ->%key_buf_inj]]; [lia|lia|done..].
    + intros [Hk Hf]. assert (word64 k) by (split; destruct Hl, Hr; lia). split; [lia|]. apply Hin; [done|]. split; [done|].
      rewrite key_buf_lex by done. destruct (decide (k = r)) as [->|]; [by right|left; lia].
  - unfold get_kv_in_rev_range, get_kv_in_rev_range_with, rscan. cbn [fst snd]. f_equal.
    rewrite traverse_skip_leaves by done. change (entries _) with (entries (table_rscan (mt i t) (key_buf r) true)).
    rewrite HD. unfold start. rewrite (traverse_collect count _ (λ k, l <? k) D 0 []); [| |done| |].
    + unfold limited. cbn [length Z.of_nat]. rewrite Z.sub_0_r, reverse_involutive.
      rewrite <- (app_nil_r (reverse (if count =? -1 then _ else _))). apply emplace_descending. rewrite app_nil_r.
      destruct (count =? -1); [done|].
      rewrite <- (take_drop (Z.to_nat (Z.max 1 count)) (filter _ D)), reverse_app in Hasc.
      by apply ascending_app in Hasc as (_ & ? & _).
    + intros p x Hp. by apply visit_value_rev_range, Hw.
    + simpl. eapply (sorted_keys_NoDup D (flip Z.ltb)), Hs. intros. apply Z.ltb_irrefl.
    + eapply StronglySorted_impl, Hs. simpl. lia.
Qed.

Lemma next_collects i t l : tables_ok i → word64 l →
  ∃ all, bindings_in (idx_at i t) (l + 1) (2 ^ 64) all ∧ get_next_kv i t l = (OK, head all).
Proof.
  intros Hi Hl.
  destruct (decode_entries (mt i t) (entries (table_scan (mt i t) (key_buf l) false)) lex_ltb Z.ltb
    (λ k, lex_ltb (key_buf l) k = true ∨ (false = true ∧ k = key_buf l))) as (D & HD & Hw & Hs & Hin);
    [apply Hi|intros; apply scan_entries|intros; by rewrite <- key_buf_lex|apply scan_order|].
  exists D. split.
  - split; [by apply ascending_of_sorted|]. intros k v. rewrite at_find. split.
    + intros HkD. pose proof (Hw _ HkD) as Hk. simpl in Hk. apply (Hin k v Hk) in HkD as [Hf [Hlk|[? _]]]; [|done].
      split; [|done]. rewrite key_buf_lex in Hlk by done. destruct Hk. lia.
    + intros [Hk Hf]. assert (word64 k) by (split; destruct Hl; lia). apply Hin; [done|]. split; [done|].
      rewrite key_buf_lex by done. left. lia.
  - unfold get_next_kv, scan. f_equal. rewrite traverse_skip_leaves by done.
    change (entries _) with (entries (table_scan (mt i t) (key_buf l) false)). rewrite HD.
    assert (word64 UINT64_MAX) as Hmax by (unfold UINT64_MAX; split; lia).
    destruct D as [|[k v] D]; [done|]. assert (word64 k) as Hk by (apply (Hw (k, v)), list_elem_of_here).
    clear HD Hw Hs Hin. unfold start, encode. rewrite fmap_cons. cbn [traverse_entries fst snd].
    unfold visit_value at 1. unfold stopped at 1. cbn [continue_flag scan_num_cnt negb orb andb].
    change ((0 <=? 1) && (1 <=? 0)) with false. cbv iota.
    destruct (key_buf_memcmp UINT64_MAX k Hmax Hk) as (_ & He & Hlt). rewrite !key_buf_length. cbn [Nat.min].
    rewrite He, Hlt, Nat.eqb_refl, Nat.ltb_irrefl, andb_false_r, orb_false_r. cbn [negb andb].
    rewrite !andb_true_r. assert ((k <? UINT64_MAX) || (UINT64_MAX =? k) = true) as -> by (unfold UINT64_MAX, word in *; lia).
    unfold emit, count_entry. cbn [per_kv_func client continue_flag scan_num_cnt snd].
    rewrite actual_key_buf by done. by destruct D as [|[k' v'] D].
Qed.

#[export] Instance masstree_index_laws : IndexLaws V | 100.
Proof.
  unshelve refine {| index_ok := tables_ok |}.
  - intros i t k. rewrite at_find. cbn. unfold MasstreeIndexes.find, get_value. by destruct (table_find _ _).
  - intros i t k v Hi Hk Hat. cbn. unfold MasstreeIndexes.insert, insert_value. rewrite at_find in Hat. rewrite Hat.
    eexists. split; [done|]. split.
    + apply tables_ok_insert; [done|]. intros k' v'. rewrite find_put. case_decide; [intros _; by exists k|apply Hi].
    + intros t' k' Hk'. rewrite !at_find, mt_insert. destruct (decide (t' = t)) as [->|]; [rewrite find_put|].
      * destruct (decide (k' = k)) as [->|Hne]; [by rewrite !decide_True|].
        rewrite !decide_False; [done|by intros [_ ?]|]. by intros ?%key_buf_inj.
      * rewrite decide_False; [done|by intros [? _]].
  - intros i t k v Hi Hk [x Hat]. cbn. unfold MasstreeIndexes.insert, insert_value. rewrite at_find in Hat. rewrite Hat.
    eexists. split; [done|]. split; [by apply tables_ok_insert|]. intros t' k'. rewrite !at_find, mt_insert.
    by case_decide as Heq; [rewrite Heq|].
  - intros i t k Hi Hk. cbn. unfold MasstreeIndexes.remove, remove_value. rewrite at_find.
    assert (∀ tb, table_ok tb → (∀ k', table_find tb k' = if decide (k' = key_buf k) then None else table_find (mt i t) k') →
      tables_ok (<[t := tb]> i) ∧ ∀ t' k', word64 k' →
      idx_at (V := V) (<[t := tb]> i) t' k' = if decide (t' = t ∧ k' = k) then None else idx_at i t' k') as Hrem.
    { intros tb Htb Hf. split; [by apply tables_ok_insert|]. intros t' k' Hk'. rewrite !at_find, mt_insert.
      destruct (decide (t' = t)) as [->|]; [|rewrite decide_False; [done|by intros [? _]]]. rewrite Hf.
      destruct (decide (k' = k)) as [->|Hne]; [by rewrite !decide_True|].
      rewrite !decide_False; [done|by intros [_ ?]|]. by intros ?%key_buf_inj. }
    destruct (table_find (mt i t) (key_buf k)) as [v|] eqn:Hv; (eexists; split; [done|]); apply Hrem.
    + intros k' v'. rewrite find_erase. case_decide; [done|apply Hi].
    + intros k'. by rewrite find_erase.
    + apply Hi.
    + intros k'. case_decide; [by subst|done].
  - intros i t l. apply next_collects.
  - intros i t l r count. apply range_collects.
  - intros i t l r count. apply rev_range_collects.
Defined.

(** *** Noting leaves *)

#[export] Instance masstree_node_index : NodeIndex V | 100 := {
  node_index := masstree_index;
  idx_find_and_note := MasstreeIndexes.find_and_note;
  idx_insert_and_note := MasstreeIndexes.insert_and_note;
  idx_get_kv_in_range_and_note := MasstreeIndexes.get_kv_in_range_and_note;
  idx_get_kv_in_rev_range_and_note := MasstreeIndexes.get_kv_in_rev_range_and_note;
  idx_get_version_value := MasstreeIndexes.get_version_value
}.

(** What a noting traversal collects are entries it visits. *)
Lemma traverse_noted count (value : bytes → V → scanner (list (Z * V) * NodeMap * bool) → bool * scanner (list (Z * V) * NodeMap * bool)) vs x p :
  let cb := mkCallback note_leaf (λ key : bytes, collect_noted (V := V) count (actual_key key)) in
  (∀ key val x, (value key val x).2 = x ∨ (value key val x).2 = count_entry x ∨ (value key val x).2 = (emit cb key val (count_entry x)).2) →
  p ∈ (client (traverse cb value vs x)).1.1 → p ∈ (client x).1.1 ∨ ∃ key, (key, p.2) ∈ entries vs ∧ p.1 = actual_key key.
Proof.
  intros cb Hval. revert x. induction vs as [|[n v|key val] vs IH]; intros x Hp; [by left| |].
  - cbn in Hp. apply IH in Hp as [Hp|Hp]; [left|by right]. revert Hp. unfold visit_leaf. cbn [per_node_func cb].
    destruct x as [m f [[kv nm] ex]]. unfold note_leaf. cbn [client continue_flag scan_num_cnt].
    destruct (nm !! n) as [v'|]; [destruct (v' =? v)|]; done.
  - assert (p ∈ (client (value key val x).2).1.1 → p ∈ (client x).1.1 ∨ (key, p.2) = (key, val) ∧ p.1 = actual_key key) as Hone.
    { destruct (Hval key val x) as [->|[->| ->]]; [by left|by left|]. destruct x as [m f [[kv nm] ex]].
      unfold emit, count_entry. cbn [per_kv_func cb client continue_flag scan_num_cnt]. unfold collect_noted, collect. cbn [fst snd].
      generalize (if negb (count =? -1) && (count <=? Z.of_nat (length (map_emplace (actual_key key) val kv))) then false else f). intros f'.
      cbn [client fst snd]. unfold map_emplace. case_decide; [by left|]. rewrite elem_of_insert_ascending.
      intros [->|?]; [by right|by left]. }
    cbn in Hp. destruct (value key val x) as [[] y] eqn:Hv; cbn [snd] in Hone.
    + apply IH in Hp as [Hp|(key' & Hin & Heq)]; [apply Hone in Hp as [?|[Heq ?]]; [by left|right]|right].
      * exists key. rewrite Heq. split; [apply list_elem_of_here|done].
      * exists key'. split; [by apply list_elem_of_further|done].
    + apply Hone in Hp as [?|[Heq ?]]; [by left|right]. exists key. rewrite Heq. split; [apply list_elem_of_here|done].
Qed.

Lemma visit_value_shape {S} (cb : Callback V S) r e m key (v : V) x :
  (visit_value cb r e m key v x).2 = x ∨ (visit_value cb r e m key v x).2 = count_entry x ∨
  (visit_value cb r e m key v x).2 = (emit cb key v (count_entry x)).2.
Proof. unfold visit_value. destruct (stopped m x), r; [by left..| |by right; right]. cbv zeta. case_match; auto. Qed.

Lemma visit_backward_shape {S} (cb : Callback V S) l e m key (v : V) x :
  (visit_value_backward cb l e m key v x).2 = x ∨ (visit_value_backward cb l e m key v x).2 = count_entry x ∨
  (visit_value_backward cb l e m key v x).2 = (emit cb key v (count_entry x)).2.
Proof. unfold visit_value_backward. destruct (stopped m x), l; [by left..| |by right; right]. cbv zeta. case_match; auto. Qed.

Lemma noted_entry (i : MasstreeIndexes.t (V := V)) t k key v : tables_ok i → table_find (mt i t) key = Some v → k = actual_key key →
  word64 k ∧ idx_at i t k = Some v.
Proof.
  intros Hi Hf ->. destruct (Hi _ _ _ Hf) as (k' & Hk & ->). rewrite actual_key_buf by done. split; [done|]. by rewrite at_find.
Qed.

Lemma noted_client (x : Result * (list (Z * V) * NodeMap * bool)) : (noted_result x).1.2 = x.2.1.1.
Proof. by destruct x as [? [[] ?]]. Qed.

#[export] Instance masstree_node_index_laws : NodeIndexLaws V | 100.
Proof.
  unshelve refine {| node_index_laws := masstree_index_laws |}.
  - intros i t k nm. cbn. unfold MasstreeIndexes.find_and_note, MasstreeIndexes.find, get_value_and_get_nodeinfo_on_failure, get_value.
    by destruct (table_find _ _).
  - intros i t k v nm. cbn. unfold MasstreeIndexes.insert_and_note, MasstreeIndexes.insert, insert_value_and_get_nodeinfo_on_success, insert_value.
    destruct (table_find _ _); [done|]. cbn. repeat case_match; simplify_eq; done.
  - intros i t l r count nm k v Hi. cbn [idx_get_kv_in_range_and_note masstree_node_index]. unfold get_kv_in_range_and_note. rewrite noted_client. unfold get_kv_in_range_with, scan. cbn [snd].
    intros [?%not_elem_of_nil|(key & Hin & Heq)]%traverse_noted; [done| |intros; apply visit_value_shape].
    apply scan_entries in Hin as [Hf _]. by eapply noted_entry.
  - intros i t l r count nm k v Hi. cbn [idx_get_kv_in_rev_range_and_note masstree_node_index]. unfold get_kv_in_rev_range_and_note. rewrite noted_client. unfold get_kv_in_rev_range_with, rscan. cbn [snd].
    intros [?%not_elem_of_nil|(key & Hin & Heq)]%traverse_noted; [done| |intros; apply visit_backward_shape].
    apply rscan_entries in Hin as [Hf _]. by eapply noted_entry.
Defined.

(** *** Callbacks *)

#[export] Instance masstree_scan_index : ScanIndex V | 100 := {
  scan_index := masstree_index;
  idx_insert_with_nodeinfo := MasstreeIndexes.insert_with_nodeinfo;
  idx_get_kv_in_range_with S := MasstreeIndexes.get_kv_in_range_with (S := S);
  idx_get_kv_in_rev_range_with S := MasstreeIndexes.get_kv_in_rev_range_with (S := S)
}.

Lemma traverse_keeps {S} (P : S → Prop) (cb : Callback V S) value vs x :
  P (client x) → (∀ n v y, P y.1 → P (per_node_func cb n v y).1) →
  (∀ key val y, (key, val) ∈ entries vs → P y.1 → P (per_kv_func cb key val y).1) →
  (∀ key val y, (value key val y).2 = y ∨ (value key val y).2 = count_entry y ∨ (value key val y).2 = (emit cb key val (count_entry y)).2) →
  P (client (traverse cb value vs x)).
Proof.
  intros HP Hn Hk Hval. revert x HP Hk. induction vs as [|[n v|key val] vs IH]; intros x HP Hk; [done| |].
  - cbn. apply IH; [|intros key val y Hin; apply Hk; exact Hin].
    unfold visit_leaf. specialize (Hn n v (client x, continue_flag x) HP). by destruct (per_node_func cb n v (client x, continue_flag x)).
  - cbn. assert (P (client (value key val x).2)) as HP'.
    { destruct (Hval key val x) as [->|[->| ->]]; [done..|]. unfold emit.
      specialize (Hk key val (client (count_entry x), continue_flag (count_entry x)) ltac:(left) HP).
      by destruct (per_kv_func cb key val (client (count_entry x), continue_flag (count_entry x))). }
    destruct (value key val x) as [[] y]; [|done]. apply IH; [done|]. intros key' val' y' Hin. apply Hk. by right.
Qed.

#[export] Instance masstree_scan_index_laws : ScanIndexLaws V | 100.
Proof.
  unshelve refine {| scan_index_laws := masstree_index_laws |}.
  - intros i t k v ni. cbn. unfold MasstreeIndexes.insert_with_nodeinfo, MasstreeIndexes.insert, insert_value_and_get_nodeinfo_on_success, insert_value.
    by destruct (table_find _ _).
  - intros i t k v ni. cbn. unfold MasstreeIndexes.insert_with_nodeinfo, insert_value_and_get_nodeinfo_on_success.
    destruct (table_find _ _); [done|]. by eexists.
  - intros S P i t l r pn pk s Hi HP Hn Hk. split; [done|]. cbn. unfold scan. apply traverse_keeps; [done|done| |intros; apply visit_value_shape].
    intros key val y Hin HPy. apply scan_entries in Hin as [Hf _]. destruct (noted_entry i t (actual_key key) key val Hi Hf eq_refl). by apply Hk.
  - intros S P i t l r pn pk s Hi HP Hn Hk. split; [done|]. cbn. unfold rscan. apply traverse_keeps; [done|done| |intros; apply visit_backward_shape].
    intros key val y Hin HPy. apply rscan_entries in Hin as [Hf _]. destruct (noted_entry i t (actual_key key) key val Hi Hf eq_refl). by apply Hk.
Defined.
End implementation.

(** ** A Masstree in one leaf *)
Section one_leaf.
Context {V : Type}.

Definition key_le (a b : bytes * V) : Prop := lex_ltb b.1 a.1 = false.
#[local] Instance key_le_dec a b : Decision (key_le a b).
Proof. unfold key_le. apply _. Defined.

Lemma lex_irrefl a : lex_ltb a a = false.
Proof. induction a as [|x a IH]; [done|]. simpl. by rewrite Z.eqb_refl. Qed.

Lemma lex_split a b c : lex_ltb a c = true → lex_ltb a b = true ∨ lex_ltb b c = true.
Proof.
  revert b c. induction a as [|x a IH]; intros [|y b] [|z c]; simpl; auto.
  destruct (Z.eqb_spec x z) as [->|].
  - intros Hac. destruct (Z.eqb_spec z y) as [->|]; [rewrite Z.eqb_refl; by apply IH|].
    destruct (Z.eqb_spec y z); [lia|]. lia.
  - intros Hxz. destruct (Z.eqb_spec x y) as [->|], (Z.eqb_spec y z); lia.
Qed.

Lemma lex_total a b : lex_ltb a b = false → lex_ltb b a = false → a = b.
Proof.
  revert b. induction a as [|x a IH]; intros [|y b]; simpl; try done.
  rewrite (Z.eqb_sym y x). destruct (Z.eqb_spec x y) as [->|]; [|lia]. intros. f_equal. by apply IH.
Qed.

#[local] Instance key_le_trans : Transitive key_le.
Proof.
  intros a b c Hab Hbc. unfold key_le in *. destruct (lex_ltb c.1 a.1) eqn:Hca; [|done].
  destruct (lex_split _ b.1 _ Hca); congruence.
Qed.
#[local] Instance key_le_total : Total key_le.
Proof.
  intros a b. unfold key_le. destruct (lex_ltb b.1 a.1) eqn:Hba; [|by left]. right.
  destruct (lex_ltb a.1 b.1) eqn:Hab; [|done]. destruct (lex_split _ b.1 _ Hba) as [H|H]; [by rewrite lex_irrefl in H|].
  clear H. exfalso. revert Hab Hba. generalize a.1 b.1. clear.
  induction l as [|x a IH]; intros [|y b]; simpl; try done.
  rewrite (Z.eqb_sym y x). destruct (Z.eqb_spec x y) as [->|]; [apply IH|lia].
Qed.

Definition sorted_entries (m : gmap bytes V) (P : bytes → bool) : list (bytes * V) :=
  merge_sort key_le (filter (λ p, P p.1 = true) (map_to_list m)).

Definition after (k : bytes) (incl : bool) (k' : bytes) : bool := lex_ltb k k' || (incl && bool_decide (k' = k)).
Definition until (k : bytes) (incl : bool) (k' : bytes) : bool := lex_ltb k' k || (incl && bool_decide (k' = k)).

Definition visits (m : gmap bytes V) (es : list (bytes * V)) : list (visit V) :=
  Leaf 0 (Z.of_nat (size m)) :: ((λ p, Entry p.1 p.2) <$> es).

#[export] Instance one_leaf : Masstree V | 100 := {
  table := gmap bytes V;
  table_initialize := ∅;
  table_find m k := m !! k;
  table_node _ _ := 0;
  table_version m _ := Z.of_nat (size m);
  table_store m k v := match m !! k with Some _ => <[k := v]> m | None => m end;
  table_put m k v := <[k := v]> m;
  table_erase m k := delete k m;
  table_scan m k incl := visits m (sorted_entries m (after k incl));
  table_rscan m k incl := visits m (reverse (sorted_entries m (until k incl)))
}.

Lemma entries_visits m es : entries (visits m es) = es.
Proof. unfold entries, visits. simpl. induction es as [|[k v] es IH]; [done|]. csimpl. by f_equal. Qed.

Lemma elem_of_sorted_entries m P k v : (k, v) ∈ sorted_entries m P ↔ m !! k = Some v ∧ P k = true.
Proof.
  unfold sorted_entries. rewrite merge_sort_Permutation, list_elem_of_filter, elem_of_map_to_list. simpl. tauto.
Qed.

Lemma sorted_entries_sorted m P : StronglySorted (λ a b, lex_ltb a.1 b.1 = true) (sorted_entries m P).
Proof.
  assert (NoDup (sorted_entries m P).*1) as Hnd.
  { unfold sorted_entries. rewrite merge_sort_Permutation.
    eapply sublist_NoDup; [apply (NoDup_fst_map_to_list m)|]. apply fmap_sublist, sublist_filter. }
  assert (StronglySorted key_le (sorted_entries m P)) as Hs by (apply StronglySorted_merge_sort; apply _).
  induction Hs as [|a l Hs IH Ha]; [constructor|]. csimpl in Hnd. apply NoDup_cons in Hnd as [Hni Hnd].
  constructor; [by apply IH|]. rewrite Forall_forall in *. intros b Hb. specialize (Ha b Hb).
  destruct (lex_ltb a.1 b.1) eqn:Hab; [done|]. exfalso. apply Hni. rewrite (lex_total _ _ Hab Ha).
  by apply list_elem_of_fmap_2.
Qed.

Lemma StronglySorted_reverse {A} (R : A → A → Prop) l : StronglySorted R l → StronglySorted (flip R) (reverse l).
Proof.
  induction 1 as [|a l Hs IH Ha]; [constructor|]. rewrite reverse_cons. clear Hs.
  assert (∀ b, b ∈ reverse l → R a b) as Hall by (intros b; rewrite elem_of_reverse; revert b; by rewrite <- Forall_forall).
  clear Ha. induction IH as [|b l' Hs IH Hb]; simpl; [repeat constructor|]. constructor; [apply IH; set_solver|].
  apply Forall_app. split; [done|]. repeat constructor. apply Hall. set_solver.
Qed.

#[export] Instance one_leaf_laws : MasstreeLaws V | 100.
Proof.
  split; intros; cbn [table_find table_initialize table_store table_put table_erase table_scan table_rscan one_leaf].
  - done.
  - case_match; [|by case_decide; [subst|]]. case_decide; [subst; by rewrite lookup_insert_eq|by rewrite lookup_insert_ne].
  - case_decide; [subst; by rewrite lookup_insert_eq|by rewrite lookup_insert_ne].
  - case_decide; [subst; by rewrite lookup_delete_eq|by rewrite lookup_delete_ne].
  - rewrite entries_visits, elem_of_sorted_entries. unfold after. rewrite orb_true_iff, andb_true_iff, bool_decide_eq_true. done.
  - rewrite entries_visits. apply sorted_entries_sorted.
  - rewrite entries_visits, elem_of_reverse, elem_of_sorted_entries. unfold until.
    rewrite orb_true_iff, andb_true_iff, bool_decide_eq_true. done.
  - rewrite entries_visits. by apply StronglySorted_reverse, sorted_entries_sorted.
Qed.
End one_leaf.

(** ** The guarantees of the index *)
Section index_properties.
Context {V : Type} `{HM : Masstree V} `{HL : !MasstreeLaws V}.

Inductive operation := Find (t k : Z) | Insert (t k : Z) (v : V) | Remove (t k : Z).
Definition key_of (o : operation) : Z := match o with Find _ k | Insert _ k _ | Remove _ k => k end.

Definition perform (o : operation) (i : MasstreeIndexes.t (V := V)) : Result * option V * MasstreeIndexes.t (V := V) :=
  match o with
  | Find t k => (MasstreeIndexes.find i t k, i)
  | Insert t k v => let '(r, i) := MasstreeIndexes.insert i t k v in (r, None, i)
  | Remove t k => let '(r, i) := MasstreeIndexes.remove i t k in (r, None, i)
  end.

(** The specification: a map from (table, key) to values. *)
Definition spec_perform (o : operation) (m : gmap (Z * Z) V) : Result * option V * gmap (Z * Z) V :=
  match o with
  | Find t k => (match m !! (t, k) with Some _ => OK | None => NOT_FOUND end, m !! (t, k), m)
  | Insert t k v =>
      match m !! (t, k) with Some _ => (NOT_INSERTED, None, m) | None => (OK, None, <[(t, k) := v]> m) end
  | Remove t k => (match m !! (t, k) with Some _ => OK | None => NOT_DELETED end, None, delete (t, k) m)
  end.

Fixpoint run {St} (f : operation → St → Result * option V * St) (ops : list operation) (s : St) :
    list (Result * option V) * St :=
  match ops with
  | [] => ([], s)
  | o :: ops => let '(r, s) := f o s in let '(rs, s) := run f ops s in (r :: rs, s)
  end.

Definition represents (i : MasstreeIndexes.t (V := V)) (m : gmap (Z * Z) V) : Prop :=
  tables_ok i ∧ ∀ t k, word64 k → idx_at i t k = m !! (t, k).

Lemma perform_refines o i m : word64 (key_of o) → represents i m →
  (perform o i).1 = (spec_perform o m).1 ∧ represents (perform o i).2 (spec_perform o m).2.
Proof.
  intros Hk [Hi Hm]. destruct o as [t k|t k v|t k]; simpl in Hk; unfold perform, spec_perform.
  - pose proof (find_result i t k) as Hf. cbn [idx_find masstree_index] in Hf. rewrite Hf, Hm by done. done.
  - destruct (m !! (t, k)) as [x|] eqn:Hx.
    + destruct (@insert_present V masstree_index masstree_index_laws i t k v Hi Hk) as (i' & Heq & Hi' & Hat); [by rewrite Hm, Hx|].
      cbn [idx_insert masstree_index] in Heq. rewrite Heq. split; [done|]. split; [done|]. intros. rewrite Hat. by apply Hm.
    + destruct (@insert_absent V masstree_index masstree_index_laws i t k v Hi Hk) as (i' & Heq & Hi' & Hat); [by rewrite Hm|].
      cbn [idx_insert masstree_index] in Heq. rewrite Heq. split; [done|]. split; [done|]. intros t' k' Hk'. rewrite Hat by done.
      cbn [snd]. case_decide as Hd; [destruct Hd as [-> ->]; by rewrite lookup_insert_eq|].
      rewrite lookup_insert_ne by (intros [= -> ->]; by apply Hd). by apply Hm.
  - destruct (@remove_result V masstree_index masstree_index_laws i t k Hi Hk) as (i' & Heq & Hi' & Hat). cbn [idx_remove masstree_index] in Heq.
    rewrite Heq, Hm by done. split; [done|]. split; [done|]. intros t' k' Hk'. rewrite Hat by done.
    cbn [snd]. case_decide as Hd; [destruct Hd as [-> ->]; by rewrite lookup_delete_eq|].
    rewrite lookup_delete_ne by (intros [= -> ->]; by apply Hd). by apply Hm.
Qed.

Lemma represents_empty : represents ∅ ∅.
Proof.
  split.
  - intros t k v. unfold MasstreeIndexes.mt, MasstreeIndexes.t. rewrite lookup_empty. simpl. by rewrite find_initialize.
  - intros t k _. rewrite at_find. unfold MasstreeIndexes.mt, MasstreeIndexes.t. rewrite !lookup_empty. simpl. by rewrite find_initialize.
Qed.

(** C28: any sequence of lookups, insertions and removals on a fresh index
    answers exactly what a map from (table, 64-bit key) to values answers,
    error results included, and leaves the bindings of that map: byte
    swapping the keys neither merges nor loses any. *)
Theorem index_refines_map (ops : list operation) (Hkeys : Forall (λ o, word64 (key_of o)) ops) :
  (run perform ops ∅).1 = (run spec_perform ops ∅).1 ∧
  ∀ t k, word64 k → idx_at (run perform ops ∅).2 t k = (run spec_perform ops ∅).2 !! (t, k).
Proof.
  enough (∀ i m, represents i m → (run perform ops i).1 = (run spec_perform ops m).1 ∧
    represents (run perform ops i).2 (run spec_perform ops m).2) as Hrun.
  { destruct (Hrun ∅ ∅ represents_empty) as [? [_ ?]]. done. }
  induction Hkeys as [|o ops Ho Hops IH]; intros i m Hr; [done|]. simpl.
  destruct (perform_refines o i m Ho Hr) as [H1 H2]. destruct (perform o i) as [r i'], (spec_perform o m) as [r' m'].
  simpl in *. subst r'. destruct (IH i' m' H2) as [H3 H4].
  destruct (run perform ops i') as [rs i''], (run spec_perform ops m') as [rs' m'']. simpl in *. by subst.
Qed.

(** C29: the scans are exact.  A scan of [l, r) collects its bindings in
    ascending order, the smallest [count] of them when a limit is given; a
    reverse scan of (l, r] collects the largest; [get_next_kv] yields the
    smallest key above [l].  A limit below 1 other than -1 still collects
    one entry. *)
Theorem index_scans_exact (i : MasstreeIndexes.t (V := V)) (t l r count : Z)
    (Hi : tables_ok i) (Hl : word64 l) (Hr : word64 r) :
  (∃ all, bindings_in (idx_at i t) l r all ∧
    MasstreeIndexes.get_kv_in_range i t l r count [] = (OK, limited count all)) ∧
  (∃ all, bindings_in (idx_at i t) (l + 1) (r + 1) all ∧
    MasstreeIndexes.get_kv_in_rev_range i t l r count [] = (OK, reverse (limited count (reverse all)))) ∧
  (∃ all, bindings_in (idx_at i t) (l + 1) (2 ^ 64) all ∧ MasstreeIndexes.get_next_kv i t l = (OK, head all)).
Proof. split_and!; [by apply range_collects|by apply rev_range_collects|by apply next_collects]. Qed.
End index_properties.

Section index_example.

Definition idx_ops : list (operation (V := positive)) :=
  [Insert 1 300 1%positive; Insert 1 7 2%positive; Insert 1 300 3%positive; Insert 1 70000 4%positive; Remove 1 7;
   Find 1 7; Find 1 300].

Lemma index_refines_map_witness :
  (run (perform (V := positive)) idx_ops ∅).1 =
    [(OK, None); (OK, None); (NOT_INSERTED, None); (OK, None); (OK, None); (NOT_FOUND, None); (OK, Some 1%positive)] ∧
  ∀ t k, word64 k → idx_at (run (perform (V := positive)) idx_ops ∅).2 t k = (run spec_perform idx_ops ∅).2 !! (t, k).
Proof. apply (index_refines_map idx_ops). repeat (constructor; [split; simpl; lia|]). constructor. Defined.

Definition idx1 : MasstreeIndexes.t (V := positive) := 
  ({[1 := {[key_buf 300 := 1%positive; key_buf 7 := 2%positive]}]} : gmap Z (gmap bytes positive)).

Lemma idx1_ok : tables_ok idx1.
Proof.
  intros t k v. unfold MasstreeIndexes.mt, idx1, MasstreeIndexes.t. destruct (decide (t = 1)) as [->|].
  - rewrite lookup_singleton_eq. cbn [default table_find one_leaf]. unfold id.
    intros [[<- _]|[_ [<- _]%lookup_singleton_Some]]%lookup_insert_Some; [exists 300|exists 7]; (split; [split; lia|done]).
  - rewrite lookup_singleton_ne by done. cbn [default table_find one_leaf table_initialize]. by rewrite lookup_empty.
Qed.

Lemma index_scans_exact_witness :
  (∃ all, bindings_in (idx_at idx1 1) 5 301 all ∧
    MasstreeIndexes.get_kv_in_range idx1 1 5 301 1 [] = (OK, limited 1 all)) ∧
  MasstreeIndexes.get_kv_in_range idx1 1 5 301 1 [] = (OK, [(7, 2%positive)]).
Proof.
  split; [|by vm_compute]. apply (index_scans_exact idx1 1 5 301 1 idx1_ok); split; lia.
Defined.
End index_example.

(** ** An index of two rows, of keys 10 and 20 of table 1 *)
Definition two_rows : index (V := positive) :=
  ({[1 := {[key_buf 10 := 1%positive; key_buf 20 := 2%positive]}]} : gmap Z (gmap bytes positive)).
Lemma two_rows_at t k l : word64 k → idx_at two_rows t k = Some l →
  (t = 1 ∧ k = 10 ∧ l = 1%positive) ∨ (t = 1 ∧ k = 20 ∧ l = 2%positive).
Proof.
  intros Hk. rewrite at_find. unfold MasstreeIndexes.mt, two_rows, MasstreeIndexes.t. destruct (decide (t = 1)) as [->|].
  - rewrite lookup_singleton_eq. cbn [default table_find one_leaf]. unfold id.
    intros [[Heq <-]|[_ [Heq <-]%lookup_singleton_Some]]%lookup_insert_Some; apply key_buf_inj in Heq;
      try (split; lia); try done; subst; auto.
  - rewrite lookup_singleton_ne by done. cbn [default table_find one_leaf table_initialize]. by rewrite lookup_empty.
Qed.

Lemma two_rows_ok : index_ok two_rows.
Proof.
  intros t k v. unfold MasstreeIndexes.mt, two_rows, MasstreeIndexes.t. destruct (decide (t = 1)) as [->|].
  - rewrite lookup_singleton_eq. cbn [default table_find one_leaf]. unfold id.
    intros [[<- _]|[_ [<- _]%lookup_singleton_Some]]%lookup_insert_Some; [exists 10|exists 20]; (split; [split; lia|done]).
  - rewrite lookup_singleton_ne by done. cbn [default table_find one_leaf table_initialize]. by rewrite lookup_empty.
Qed.
