(* ===== verification/NoWait.v ===== *)
(** * protocols/nowait: two-phase locking that aborts instead of waiting

    [NoWait<Index>] over the lock words of [RWLock] and any index with the
    interface [Index]: the read/write set, the operations of a transaction,
    commit and abort.  Each call runs without another thread in between; the
    transactions of the workers interleave call by call.  Memory is explicit:
    a freed or null block that is used makes the call [Stuck]. *)
From S2P Require Import Prelude Versions RWLock Epoch Index.

Module NoWait.

(** A block of record memory; an indeterminate byte is [None]. *)
Abbreviation block := (list (option Z)).

Inductive ReadWriteType := READ | UPDATE | INSERT | DELETE.
#[export] Instance ReadWriteType_eq_dec : EqDecision ReadWriteType.
Proof. solve_decision. Defined.

Record ReadWriteElement := mkElem { rec : Ptr; rwt : ReadWriteType; is_new : bool; val : loc }.
Abbreviation entry := (((Z * Z) * ReadWriteElement)%type).

(** [struct Value]; the lock word of [rwl] is its counter. *)
Record Value := mkValue { rwl : Z; vrec : Ptr }.

Section protocol.
Context `{HI : Index loc}.
(** [Schema]: the record size of each table. *)
Context (schema : gmap Z nat).

Record store := mkStore { values : gmap loc Value; records : gmap loc block; idx : index (V := loc) }.

(** A transaction, with the thread's container of retired values.  The
    read/write sets of the tables are one map over (table, key). *)
Record tx := mkTx {
  starting_epoch : Z; tables : gset Z; rws : gmap (Z * Z) ReadWriteElement;
  gc_container : list (Z * loc)
}.

Definition get_record_size (table_id : Z) : outcome nat :=
  match schema !! table_id with Some n => Ok n | None => Throw "unordered_map::at" end.

Definition set_value (s : store) (l : loc) (v : Value) : store := mkStore (<[l := v]> (values s)) (records s) (idx s).
Definition set_records (s : store) (m : gmap loc block) : store := mkStore (values s) m (idx s).
Definition set_idx (s : store) (i : index (V := loc)) : store := mkStore (values s) (records s) i.
Definition add_table (t : tx) (table_id : Z) : tx :=
  mkTx (starting_epoch t) ({[table_id]} ∪ tables t) (rws t) (gc_container t).
Definition put (t : tx) (k : Z * Z) (e : ReadWriteElement) : tx :=
  mkTx (starting_epoch t) (tables t) (<[k := e]> (rws t)) (gc_container t).
Definition set_gc (t : tx) (g : list (Z * loc)) : tx := mkTx (starting_epoch t) (tables t) (rws t) g.

(** [val->rwl.try_lock()] and the like. *)
Definition try_ (f : Z → bool * Z) (s : store) (l : loc) : outcome (bool * store) :=
  v ← deref (values s !! l);
  let '(b, n) := f (rwl v) in Ok (b, set_value s l (mkValue n (vrec v))).
Definition release (f : Z → Z) (s : store) (l : loc) : outcome store :=
  v ← deref (values s !! l); Ok (set_value s l (mkValue (f (rwl v)) (vrec v))).

Definition load_rec (s : store) (l : loc) : outcome Ptr := v ← deref (values s !! l); Ok (vrec v).

(** [MemoryAllocator] and [memcpy]. *)
Definition aligned_allocate (s : store) (size : nat) : loc * store :=
  let r := fresh (dom (records s)) in (r, set_records s (<[r := replicate size None]> (records s))).
Definition deallocate (s : store) (r : Ptr) : outcome store :=
  match r with
  | None => Ok s
  | Some r => match records s !! r with Some _ => Ok (set_records s (delete r (records s))) | None => Stuck end
  end.
Definition memcpy (s : store) (dst : loc) (src : Ptr) (n : nat) : outcome store :=
  src ← deref src; from ← deref (records s !! src); to ← deref (records s !! dst);
  _ ← assert_ ((n <=? length from)%nat && (n <=? length to)%nat);
  Ok (set_records s (<[dst := take n from ++ drop n to]> (records s))).

(** A local record for a write: allocated, then copied from the value. *)
Definition copy_record (s : store) (src : Ptr) (size : nat) : outcome (loc * store) :=
  let '(r, s) := aligned_allocate s size in s ← memcpy s r src size; Ok (r, s).

(** ** The operations *)

(** A value not in the read/write set is locked for reading; [None] when it
    cannot be. *)
Definition read_absent (t : tx) (s : store) (k : Z * Z) (val : loc) : outcome (option Ptr * tx * store) :=
  '(locked, s) ← try_ RWLock.try_lock_shared s val;
  if locked : bool then
    r ← load_rec s val; Ok (Some r, put t k (mkElem None READ false val), s)
  else Ok (None, t, s).

Definition read (t : tx) (s : store) (table_id key : Z) : outcome (Ptr * tx * store) :=
  let t := add_table t table_id in
  match rws t !! (table_id, key) with
  | None =>
      match idx_find (idx s) table_id key with
      | (NOT_FOUND, _) => Ok (None, t, s)
      | (_, val) =>
          val ← deref val;
          '(r, t, s) ← read_absent t s (table_id, key) val;
          Ok (default None r, t, s)
      end
  | Some e =>
      match rwt e with
      | READ => r ← load_rec s (val e); Ok (r, t, s)
      | UPDATE | INSERT => Ok (rec e, t, s)
      | DELETE => Ok (None, t, s)
      end
  end.

(** The write lock on the next key: taken when the key is not in the
    read/write set, upgraded when it was read, assumed held otherwise. *)
Definition lock_next (t : tx) (s : store) (table_id next_key : Z) (next_value : loc) : outcome (bool * store) :=
  match rws t !! (table_id, next_key) with
  | None => try_ RWLock.try_lock s next_value
  | Some e =>
      if decide (rwt e = READ) then try_ RWLock.try_lock_upgrade s next_value else Ok (true, s)
  end.

(** The new value, locked and without a record, enters the index; the next
    key is unlocked. *)
Definition insert_new_record (t : tx) (s : store) (table_id key : Z) (next_value : loc) (record_size : nat) :
    outcome (Ptr * tx * store) :=
  let new_val := fresh (dom (values s)) in
  let s := set_value s new_val (mkValue (-1) None) in
  let '(res, i) := idx_insert (idx s) table_id key new_val in
  let s := set_idx s i in
  match res with
  | NOT_INSERTED => Ok (None, t, mkStore (delete new_val (values s)) (records s) (idx s))
  | _ =>
      s ← release RWLock.unlock s next_value;
      let '(r, s) := aligned_allocate s record_size in
      Ok (Some r, put t (table_id, key) (mkElem (Some r) INSERT true new_val), s)
  end.

(** A deleted entry becomes an update with a new local record. *)
Definition revive (t : tx) (s : store) (k : Z * Z) (e : ReadWriteElement) (record_size : nat) : Ptr * tx * store :=
  let '(r, s) := aligned_allocate s record_size in
  (Some r, put t k (mkElem (Some r) UPDATE (is_new e) (val e)), s).

Definition insert (t : tx) (s : store) (table_id key : Z) : outcome (Ptr * tx * store) :=
  record_size ← get_record_size table_id;
  let t := add_table t table_id in
  match rws t !! (table_id, key) with
  | None =>
      match idx_find (idx s) table_id key with
      | (OK, _) => Ok (None, t, s)
      | _ =>
          let '(res, next) := idx_get_next_kv (idx s) table_id key in
          '(next_key, next_value) ← deref next;
          _ ← assert_ (negb (next_key =? 0));
          match res with
          | OK =>
              '(locked, s) ← lock_next t s table_id next_key next_value;
              if locked : bool then insert_new_record t s table_id key next_value record_size else Ok (None, t, s)
          | _ => Ok (None, t, s)
          end
      end
  | Some e =>
      match rwt e with
      | READ | UPDATE | INSERT => Ok (None, t, s)
      | DELETE => Ok (revive t s (table_id, key) e record_size)
      end
  end.

(** A value not in the read/write set is locked and copied. *)
Definition update_absent (t : tx) (s : store) (k : Z * Z) (val : loc) (record_size : nat) :
    outcome (Ptr * tx * store) :=
  '(locked, s) ← try_ RWLock.try_lock s val;
  if locked : bool then
    src ← load_rec s val; '(r, s) ← copy_record s src record_size;
    Ok (Some r, put t k (mkElem (Some r) UPDATE false val), s)
  else Ok (None, t, s).

(** A value that was read: its lock is upgraded. *)
Definition update_read (t : tx) (s : store) (k : Z * Z) (e : ReadWriteElement) (record_size : nat) :
    outcome (Ptr * tx * store) :=
  '(locked, s) ← try_ RWLock.try_lock_upgrade s (val e);
  if locked : bool then
    src ← load_rec s (val e); '(r, s) ← copy_record s src record_size;
    Ok (Some r, put t k (mkElem (Some r) UPDATE (is_new e) (val e)), s)
  else Ok (None, t, s).

Definition update (t : tx) (s : store) (table_id key : Z) : outcome (Ptr * tx * store) :=
  record_size ← get_record_size table_id;
  let t := add_table t table_id in
  match rws t !! (table_id, key) with
  | None =>
      match idx_find (idx s) table_id key with
      | (NOT_FOUND, _) => Ok (None, t, s)
      | (_, val) => val ← deref val; update_absent t s (table_id, key) val record_size
      end
  | Some e =>
      match rwt e with
      | READ => update_read t s (table_id, key) e record_size
      | UPDATE | INSERT => Ok (rec e, t, s)
      | DELETE => Ok (None, t, s)
      end
  end.

Definition upsert (t : tx) (s : store) (table_id key : Z) : outcome (Ptr * tx * store) :=
  record_size ← get_record_size table_id;
  let t := add_table t table_id in
  match rws t !! (table_id, key) with
  | None =>
      match idx_find (idx s) table_id key with
      | (NOT_FOUND, _) =>
          let '(res, next) := idx_get_next_kv (idx s) table_id key in
          match res with
          | OK =>
              '(next_key, next_value) ← deref next;
              '(locked, s) ← lock_next t s table_id next_key next_value;
              if locked : bool then insert_new_record t s table_id key next_value record_size else Ok (None, t, s)
          | _ => Ok (None, t, s)
          end
      | (OK, val) => val ← deref val; update_absent t s (table_id, key) val record_size
      | _ => Throw "invalid state"
      end
  | Some e =>
      match rwt e with
      | READ => update_read t s (table_id, key) e record_size
      | UPDATE | INSERT => Ok (rec e, t, s)
      | DELETE => Ok (revive t s (table_id, key) e record_size)
      end
  end.
Definition write := upsert.

(** [kr_map] is filled in the order of the keys; a row that cannot be
    locked or was deleted ends the scan with false. *)
Fixpoint read_rows (t : tx) (s : store) (table_id : Z) (kv_map : list (Z * loc)) (kr_map : list (Z * Ptr)) :
    outcome (bool * list (Z * Ptr) * tx * store) :=
  match kv_map with
  | [] => Ok (true, kr_map, t, s)
  | (key, val_) :: kv_map =>
      match rws t !! (table_id, key) with
      | None =>
          '(r, t, s) ← read_absent t s (table_id, key) val_;
          match r with
          | Some r => read_rows t s table_id kv_map (MasstreeIndexes.map_emplace key r kr_map)
          | None => Ok (false, kr_map, t, s)
          end
      | Some e =>
          match rwt e with
          | READ => r ← load_rec s (val e); read_rows t s table_id kv_map (MasstreeIndexes.map_emplace key r kr_map)
          | UPDATE | INSERT => read_rows t s table_id kv_map (MasstreeIndexes.map_emplace key (rec e) kr_map)
          | DELETE => Ok (false, kr_map, t, s)
          end
      end
  end.

Definition read_scan (t : tx) (s : store) (table_id lkey rkey count : Z) (rev : bool) (kr_map : list (Z * Ptr)) :
    outcome (bool * list (Z * Ptr) * tx * store) :=
  if rev then Throw "reverse scan not supported in nowait" else
  let t := add_table t table_id in
  let '(res, kv_map) := idx_get_kv_in_range (idx s) table_id lkey rkey count [] in
  _ ← assert_ (bool_decide (res = OK));
  read_rows t s table_id kv_map kr_map.

Fixpoint update_rows (t : tx) (s : store) (table_id : Z) (record_size : nat) (kv_map : list (Z * loc))
    (kr_map : list (Z * Ptr)) : outcome (bool * list (Z * Ptr) * tx * store) :=
  match kv_map with
  | [] => Ok (true, kr_map, t, s)
  | (key, val_) :: kv_map =>
      match rws t !! (table_id, key) with
      | None =>
          '(r, t, s) ← update_absent t s (table_id, key) val_ record_size;
          match r with
          | Some _ => update_rows t s table_id record_size kv_map (MasstreeIndexes.map_emplace key r kr_map)
          | None => Ok (false, kr_map, t, s)
          end
      | Some e =>
          match rwt e with
          | READ =>
              '(r, t, s) ← update_read t s (table_id, key) e record_size;
              match r with
              | Some _ => update_rows t s table_id record_size kv_map (MasstreeIndexes.map_emplace key r kr_map)
              | None => Ok (false, kr_map, t, s)
              end
          | UPDATE | INSERT => update_rows t s table_id record_size kv_map (MasstreeIndexes.map_emplace key (rec e) kr_map)
          | DELETE => Ok (false, kr_map, t, s)
          end
      end
  end.

Definition update_scan (t : tx) (s : store) (table_id lkey rkey count : Z) (rev : bool) (kr_map : list (Z * Ptr)) :
    outcome (bool * list (Z * Ptr) * tx * store) :=
  if rev then Throw "reverse scan not supported in nowait" else
  record_size ← get_record_size table_id;
  let t := add_table t table_id in
  let '(res, kv_map) := idx_get_kv_in_range (idx s) table_id lkey rkey count [] in
  _ ← assert_ (bool_decide (res = OK));
  update_rows t s table_id record_size kv_map kr_map.

Definition remove (t : tx) (s : store) (table_id key : Z) : outcome (Ptr * tx * store) :=
  let t := add_table t table_id in
  match rws t !! (table_id, key) with
  | None =>
      match idx_find (idx s) table_id key with
      | (NOT_FOUND, _) => Ok (None, t, s)
      | (_, val) =>
          val ← deref val;
          '(locked, s) ← try_ RWLock.try_lock s val;
          if locked : bool then
            r ← load_rec s val; Ok (r, put t (table_id, key) (mkElem None DELETE false val), s)
          else Ok (None, t, s)
      end
  | Some e =>
      match rwt e with
      | READ =>
          '(locked, s) ← try_ RWLock.try_lock_upgrade s (val e);
          if locked : bool then
            r ← load_rec s (val e); Ok (r, put t (table_id, key) (mkElem (rec e) DELETE (is_new e) (val e)), s)
          else Ok (None, t, s)
      | UPDATE | INSERT =>
          s ← deallocate s (rec e);
          r ← load_rec s (val e);
          Ok (r, put t (table_id, key) (mkElem None DELETE (is_new e) (val e)), s)
      | DELETE => Ok (None, t, s)
      end
  end.

(** ** Commit and abort

    [order] lists the entries of the read/write set in the order the
    iterations over the hash tables visit them. *)
Fixpoint unlock_reads (s : store) (order : list entry) : outcome store :=
  match order with
  | [] => Ok s
  | (_, e) :: order =>
      s ← (if decide (rwt e = READ) then release RWLock.unlock_shared s (val e) else Ok s);
      unlock_reads s order
  end.

Definition collect (epoch : Z) (g : list (Z * loc)) (l : loc) : list (Z * loc) :=
  GarbageCollector.collect g epoch l.

Fixpoint apply_writes (epoch : Z) (s : store) (g : list (Z * loc)) (order : list entry) :
    outcome (store * list (Z * loc)) :=
  match order with
  | [] => Ok (s, g)
  | ((table_id, key), e) :: order =>
      match rwt e with
      | READ => apply_writes epoch s g order
      | UPDATE | INSERT =>
          v ← deref (values s !! val e);
          let old := vrec v in
          let s := set_value s (val e) (mkValue (rwl v) (rec e)) in
          s ← release RWLock.unlock s (val e);
          s ← deallocate s old;
          apply_writes epoch s g order
      | DELETE =>
          let '(_, i) := idx_remove (idx s) table_id key in
          let s := set_idx s i in
          r ← load_rec s (val e);
          s ← deallocate s r;
          apply_writes epoch s (collect epoch g (val e)) order
      end
  end.

Definition precommit (t : tx) (s : store) (order : list entry) : outcome (bool * tx * store) :=
  s ← unlock_reads s order;
  '(s, g) ← apply_writes (starting_epoch t) s (gc_container t) order;
  Ok (true, set_gc t g, s).

Fixpoint undo (epoch : Z) (s : store) (g : list (Z * loc)) (order : list entry) : outcome (store * list (Z * loc)) :=
  match order with
  | [] => Ok (s, g)
  | ((table_id, key), e) :: order =>
      let '(s, g) := if is_new e then (set_idx s (idx_remove (idx s) table_id key).2, collect epoch g (val e)) else (s, g) in
      s ← match rwt e with
          | READ => release RWLock.unlock_shared s (val e)
          | UPDATE | INSERT =>
              s ← deallocate s (rec e);
              if is_new e then Ok s else release RWLock.unlock s (val e)
          | DELETE => if is_new e then Ok s else release RWLock.unlock s (val e)
          end;
      undo epoch s g order
  end.

Definition abort (t : tx) (s : store) (order : list entry) : outcome (tx * store) :=
  '(s, g) ← undo (starting_epoch t) s (gc_container t) order;
  Ok (mkTx (starting_epoch t) ∅ ∅ g, s).

(** [MemoryAllocator::deallocate] of retired values. *)
Fixpoint free_values (s : store) (ls : list loc) : outcome store :=
  match ls with
  | [] => Ok s
  | l :: ls =>
      match values s !! l with
      | Some _ => free_values (mkStore (delete l (values s)) (records s) (idx s)) ls
      | None => Stuck
      end
  end.

(** The destructor: the tables are cleared and the values retired two epochs
    before are freed. *)
Definition destroy (t : tx) (s : store) : outcome (tx * store) :=
  let '(freed, g) := GarbageCollector.remove (gc_container t) (starting_epoch t) in
  s ← free_values s freed.*2; Ok (mkTx (starting_epoch t) ∅ ∅ g, s).
End protocol.
End NoWait.

(** ** The locking invariant *)
Section nowait.
Import NoWait.
Context `{HI : Index loc} `{HL : !IndexLaws loc} (schema : gmap Z nat).
Implicit Types (s : store) (t : tx) (E F : list entry) (D : list loc) (H : list entry).

#[local] Abbreviation bound s tk l := (word64 tk.2 ∧ idx_at (idx s) tk.1 tk.2 = Some l).

(** The entries of all transactions that hold a value. *)
Definition holders E (l : loc) : list entry := filter (λ x, val x.2 = l) E.

(** One writer, or as many readers as the lock counts. *)
Definition lock_ok (n : Z) H : Prop :=
  (n = -1 ∧ ∃ x, H = [x] ∧ rwt x.2 ≠ READ) ∨
  (n = Z.of_nat (length H) ∧ ∀ x, x ∈ H → rwt x.2 = READ).

(** An entry holds a local record exactly when it is an update or insert. *)
Definition entry_ok (e : ReadWriteElement) : Prop :=
  match rwt e with
  | READ => rec e = None ∧ is_new e = false
  | DELETE => rec e = None
  | UPDATE | INSERT => is_Some (rec e)
  end.

(** The records a row owns: its committed record and local ones. *)
Definition row_recs (v : Value) H : list loc := option_list (vrec v) ++ omap (λ x, rec x.2) H.

Record row_ok (recs : gmap loc block) (tk : Z * Z) (v : Value) H : Prop := {
  row_lock : lock_ok (rwl v) H;
  row_keys : ∀ x, x ∈ H → x.1 = tk ∧ entry_ok x.2;
  row_nodup : NoDup (row_recs v H);
  row_alloc : ∀ r, r ∈ row_recs v H → ∃ b, recs !! r = Some b ∧ schema !! tk.1 = Some (length b);
  row_new : vrec v = None ↔ ∃ x, x ∈ H ∧ is_new x.2 = true
}.

Record store_ok s E D : Prop := {
  ok_index : index_ok (idx s);
  ok_dead_once : NoDup D;
  ok_dead : ∀ l, l ∈ D → ∃ v, values s !! l = Some v ∧ rwl v = -1;
  ok_entry : ∀ x, x ∈ E → bound s x.1 (val x.2);
  ok_row : ∀ tk l, bound s tk l → (l ∉ D) ∧ ∃ v, values s !! l = Some v ∧ row_ok (records s) tk v (holders E l);
  ok_inj : ∀ tk tk' l, bound s tk l → bound s tk' l → tk = tk';
  ok_sep : ∀ tk l v tk' l' v' r, bound s tk l → bound s tk' l' → l ≠ l' →
    values s !! l = Some v → values s !! l' = Some v' →
    r ∈ row_recs v (holders E l) → (r ∉ row_recs v' (holders E l'))
}.

Lemma elem_of_row_recs v H r : r ∈ row_recs v H ↔ vrec v = Some r ∨ ∃ x, x ∈ H ∧ rec x.2 = Some r.
Proof. unfold row_recs. by rewrite elem_of_app, elem_of_option_list, list_elem_of_omap. Qed.

#[export] Instance holders_perm l : Proper ((≡ₚ) ==> (≡ₚ)) (λ E, holders E l).
Proof. intros E E' HE. unfold holders. by rewrite HE. Qed.

Lemma lock_ok_perm n H H' : H ≡ₚ H' → lock_ok n H → lock_ok n H'.
Proof.
  intros HH [(-> & x & -> & Hx)|[-> Hr]]; [left|right].
  - apply Permutation_singleton_l in HH as <-. eauto.
  - split; [by rewrite HH|]. intros x. rewrite <- HH. apply Hr.
Qed.

Lemma row_recs_perm v H H' : H ≡ₚ H' → row_recs v H ≡ₚ row_recs v H'.
Proof. intros HH. unfold row_recs. by rewrite HH. Qed.

Lemma row_ok_perm recs tk v H H' : H ≡ₚ H' → row_ok recs tk v H → row_ok recs tk v H'.
Proof.
  intros HH [Hl Hk Hn Ha Hnew]. split.
  - by eapply lock_ok_perm.
  - intros x. rewrite <- HH. apply Hk.
  - by rewrite <- (row_recs_perm v _ _ HH).
  - intros r. rewrite <- (row_recs_perm v _ _ HH). apply Ha.
  - rewrite Hnew. by setoid_rewrite HH.
Qed.

Lemma store_ok_perm s E E' D D' : E ≡ₚ E' → D ≡ₚ D' → store_ok s E D → store_ok s E' D'.
Proof.
  intros HE HD [Hi Hdo Hd He Hr Hinj Hsep]. split; [done|by rewrite <- HD| | | |done|].
  - intros l. rewrite <- HD. apply Hd.
  - intros x. rewrite <- HE. apply He.
  - intros tk l Hb. destruct (Hr tk l Hb) as (Hn & v & Hv & Hrow). split; [by rewrite <- HD|]. exists v.
    split; [done|]. eapply row_ok_perm, Hrow. by apply holders_perm.
  - intros tk l v tk' l' v' r. rewrite <- !(row_recs_perm _ _ _ (holders_perm _ _ _ HE)). apply Hsep.
Qed.

(** Changing one row, its holders and the records it owns. *)
Lemma row_update s E E' D tk l v v' recs' :
  store_ok s E D → bound s tk l → values s !! l = Some v →
  (∀ l', l' ≠ l → holders E' l' = holders E l') →
  row_ok recs' tk v' (holders E' l) →
  (∀ r b, records s !! r = Some b → r ∉ row_recs v (holders E l) → recs' !! r = Some b) →
  (∀ r, r ∈ row_recs v' (holders E' l) → r ∈ row_recs v (holders E l) ∨ records s !! r = None) →
  store_ok (mkStore (<[l := v']> (values s)) recs' (idx s)) E' D.
Proof.
  intros Hok Hb Hv Hother Hrow Hkeep Hown. pose proof Hok as [Hi Hdo Hd He Hr Hinj Hsep].
  destruct (Hr tk l Hb) as (Hnd & v0 & Hv0 & Hrow0). assert (v0 = v) as -> by congruence.
  assert (∀ tk' l' u r, bound s tk' l' → l' ≠ l → values s !! l' = Some u → r ∈ row_recs u (holders E l') →
    r ∉ row_recs v' (holders E' l)) as Hsep'.
  { intros tk' l' u r Hb' Hne Hu Hr' [Hin|Hnone]%Hown.
    - by eapply (Hsep tk' l' u tk l v r).
    - destruct (Hr tk' l' Hb') as (_ & u' & Hu' & Hrow'). assert (u' = u) as -> by congruence.
      apply (row_alloc _ _ _ _ Hrow') in Hr' as (b & Hb'' & _). congruence. }
  split; simpl; [done|done| | | |done|].
  - intros l' Hl'. destruct (Hd l' Hl') as (u & Hu & Hlock). exists u. split; [|done].
    rewrite lookup_insert_ne; [done|]. intros <-. done.
  - intros x Hx. destruct (decide (val x.2 = l)) as [<-|Hne].
    + assert (x.1 = tk) as ->; [|done]. apply (row_keys _ _ _ _ Hrow). apply list_elem_of_filter. done.
    + assert (x ∈ holders E (val x.2)) as Hin by (rewrite <- Hother by done; by apply list_elem_of_filter).
      apply list_elem_of_filter in Hin as [_ Hin]. by apply He.
  - intros tk' l' Hb'. destruct (Hr tk' l' Hb') as (Hnd' & u & Hu & Hrow'). split; [done|].
    destruct (decide (l' = l)) as [->|Hne].
    + rewrite lookup_insert_eq. exists v'. split; [done|]. by rewrite (Hinj tk' tk l Hb' Hb).
    + rewrite lookup_insert_ne by done. exists u. split; [done|]. rewrite Hother by done.
      destruct Hrow' as [H1 H2 H3 H4 H5]. split; [done..| |done]. intros r Hin. destruct (H4 r Hin) as (b & Hbl & Hsz).
      exists b. split; [|done]. apply Hkeep; [done|]. intros Hin'. by eapply (Hsep tk' l' u tk l v r).
  - intros tk1 l1 u1 tk2 l2 u2 r Hb1 Hb2 Hne Hu1 Hu2.
    destruct (decide (l1 = l)) as [->|Hne1]; [|destruct (decide (l2 = l)) as [->|Hne2]].
    + rewrite lookup_insert_eq in Hu1. injection Hu1 as <-. rewrite lookup_insert_ne in Hu2 by done.
      rewrite (Hother l2) by done. intros Hin Hin2. by eapply (Hsep' tk2 l2 u2 r).
    + rewrite lookup_insert_eq in Hu2. injection Hu2 as <-. rewrite lookup_insert_ne in Hu1 by done.
      rewrite (Hother l1) by done. intros Hin. by eapply (Hsep' tk1 l1 u1 r).
    + rewrite !lookup_insert_ne in * by done. rewrite !Hother by done. by eapply Hsep.
Qed.
(** Removing a locked row from the index: the value is retired. *)
Lemma row_drop s E E' D tk l v recs' :
  store_ok s E D → bound s tk l → values s !! l = Some v → rwl v = -1 →
  (∀ l', holders E' l' = if decide (l' = l) then [] else holders E l') →
  (∀ r b, records s !! r = Some b → r ∉ row_recs v (holders E l) → recs' !! r = Some b) →
  store_ok (mkStore (values s) recs' (idx_remove (idx s) tk.1 tk.2).2) E' (l :: D).
Proof.
  intros Hok Hb Hv Hlock Hother Hkeep. pose proof Hok as [Hi Hdo Hd He Hr Hinj Hsep].
  destruct (remove_result (idx s) tk.1 tk.2 Hi (proj1 Hb)) as (i' & Hrem & Hi' & Hat). rewrite Hrem. simpl.
  assert (∀ tk' l', word64 tk'.2 ∧ idx_at i' tk'.1 tk'.2 = Some l' ↔ bound s tk' l' ∧ l' ≠ l) as Hbound.
  { intros tk' l'. split.
    - intros [Hw Hl']. rewrite Hat in Hl' by done. case_decide as Hdec; [done|]. split; [done|]. intros ->.
      apply Hdec. by rewrite (Hinj tk' tk l (conj Hw Hl') Hb).
    - intros [[Hw Hl'] Hne]. split; [done|]. rewrite Hat by done. rewrite decide_False; [done|].
      intros [H1 H2]. apply Hne. rewrite H1, H2 in Hl'. destruct Hb as [_ Hb]. congruence. }
  assert (∀ l', l' ≠ l → holders E' l' = holders E l') as Hsame by (intros l' Hne; by rewrite Hother, decide_False).
  split; simpl; [done|constructor; [apply (Hr tk l Hb)|done]| | | | |].
  - intros l' [->|Hl']%elem_of_cons; [by exists v|auto].
  - intros x Hx. apply Hbound. assert (val x.2 ≠ l) as Hne.
    { intros Heq. assert (x ∈ holders E' l) as Hin by (by apply list_elem_of_filter).
      rewrite Hother, decide_True in Hin by done. by apply not_elem_of_nil in Hin. }
    split; [|done]. apply He.
    assert (x ∈ holders E (val x.2)) as [_ ?]%list_elem_of_filter; [|done]. rewrite <- Hsame by done. by apply list_elem_of_filter.
  - intros tk' l' [Hb' Hne]%Hbound. destruct (Hr tk' l' Hb') as (Hnd & u & Hu & Hrow). split; [by apply not_elem_of_cons|].
    exists u. split; [done|]. rewrite Hsame by done. destruct Hrow as [H1 H2 H3 H4 H5]. split; [done..| |done].
    intros r Hin. destruct (H4 r Hin) as (b & Hbl & Hsz). exists b. split; [|done]. apply Hkeep; [done|].
    by eapply (Hsep tk' l' u tk l v r).
  - intros tk1 tk2 l' [Hb1 _]%Hbound [Hb2 _]%Hbound. by eapply Hinj.
  - intros tk1 l1 u1 tk2 l2 u2 r [Hb1 Hn1]%Hbound [Hb2 Hn2]%Hbound. rewrite !Hsame by done. by apply (Hsep tk1 l1 u1 tk2 l2 u2 r).
Qed.

(** A new locked row. *)
Lemma row_add s E E' D tk l v recs' i' :
  store_ok s E D → word64 tk.2 → idx_at (idx s) tk.1 tk.2 = None → values s !! l = None →
  index_ok i' →
  (∀ (ti k' : Z), word64 k' → idx_at i' ti k' = if decide (ti = tk.1 ∧ k' = tk.2) then Some l else idx_at (idx s) ti k') →
  (∀ l', l' ≠ l → holders E' l' = holders E l') →
  row_ok recs' tk v (holders E' l) →
  records s ⊆ recs' → (∀ r, r ∈ row_recs v (holders E' l) → records s !! r = None) →
  store_ok (mkStore (<[l := v]> (values s)) recs' i') E' D.
Proof.
  intros Hok Hw Hnone Hl Hi' Hat Hother Hrow Hkeep Hown. pose proof Hok as [Hi Hdo Hd He Hr Hinj Hsep].
  assert (∀ tk', ¬ bound s tk' l) as Hnb.
  { intros tk' Hb. destruct (Hr tk' l Hb) as (_ & u & Hu & _). congruence. }
  assert (∀ tk' l', word64 tk'.2 ∧ idx_at i' tk'.1 tk'.2 = Some l' ↔ (tk' = tk ∧ l' = l) ∨ bound s tk' l') as Hbound.
  { intros tk' l'. split.
    - intros [Hw' Hl']. rewrite Hat in Hl' by done. case_decide as Hdec; [left|by right].
      destruct Hdec as [H1 H2], tk, tk'; simpl in *. by simplify_eq.
    - intros [[-> ->]|[Hw' Hl']]; (split; [done|]); rewrite Hat by done; [by rewrite decide_True|].
      rewrite decide_False; [done|]. intros [H1 H2]. rewrite H1, H2 in Hl'. congruence. }
  assert (∀ tk' l' u r, bound s tk' l' → values s !! l' = Some u → r ∈ row_recs u (holders E l') →
    r ∉ row_recs v (holders E' l)) as Hsep'.
  { intros tk' l' u r Hb' Hu Hr' Hin%Hown. destruct (Hr tk' l' Hb') as (_ & u' & Hu' & Hrow').
    assert (u' = u) as -> by congruence. apply (row_alloc _ _ _ _ Hrow') in Hr' as (b & Hb'' & _). congruence. }
  assert (∀ tk' l', bound s tk' l' → l' ≠ l) as Hnel by (intros tk' l' Hb' ->; by eapply Hnb).
  split; simpl; [done|done| | | | |].
  - intros l' Hl'. destruct (Hd l' Hl') as (u & Hu & Hlock). exists u. split; [|done].
    rewrite lookup_insert_ne; [done|]. intros <-. congruence.
  - intros x Hx. apply Hbound. destruct (decide (val x.2 = l)) as [<-|Hne].
    + left. split; [|done]. apply (row_keys _ _ _ _ Hrow). by apply list_elem_of_filter.
    + right. apply He. assert (x ∈ holders E (val x.2)) as [_ ?]%list_elem_of_filter; [|done].
      rewrite <- Hother by done. by apply list_elem_of_filter.
  - intros tk' l' [[-> ->]|Hb']%Hbound.
    + split; [intros (u & Hu & _)%Hd; congruence|]. exists v. by rewrite lookup_insert_eq.
    + destruct (Hr tk' l' Hb') as (Hnd & u & Hu & Hrow'). split; [done|]. pose proof (Hnel tk' l' Hb').
      rewrite lookup_insert_ne by done. exists u. split; [done|]. rewrite Hother by done.
      destruct Hrow' as [H1 H2 H3 H4 H5]. split; [done..| |done]. intros r Hin. destruct (H4 r Hin) as (b & Hbl & Hsz).
      exists b. split; [|done]. by eapply lookup_weaken.
  - intros tk1 tk2 l' [[-> ->]|Hb1]%Hbound [[-> Heq]|Hb2]%Hbound; [done|by apply Hnb in Hb2| |by eapply Hinj].
    subst l'. by apply Hnb in Hb1.
  - intros tk1 l1 u1 tk2 l2 u2 r [[-> ->]|Hb1]%Hbound [[-> ->]|Hb2]%Hbound Hne; [done| | |].
    + rewrite lookup_insert_eq, lookup_insert_ne by done. intros [= <-] Hu2. rewrite (Hother l2) by done.
      intros Hin Hin2. by eapply (Hsep' tk2 l2 u2 r).
    + rewrite lookup_insert_eq, lookup_insert_ne by done. intros Hu1 [= <-]. rewrite (Hother l1) by done.
      intros Hin. by eapply (Hsep' tk1 l1 u1 r).
    + rewrite !lookup_insert_ne by (intros <-; (by apply Hnb in Hb1) || (by apply Hnb in Hb2)).
      rewrite !Hother by (by eapply Hnel). by apply (Hsep tk1 l1 u1 tk2 l2 u2 r).
Qed.
(** *** Steps of one transaction on one row *)

Lemma holders_cons x E l : holders (x :: E) l = if decide (val x.2 = l) then x :: holders E l else holders E l.
Proof. unfold holders. by rewrite filter_cons. Qed.

Lemma holders_cons_other x E l l' : val x.2 = l → l' ≠ l → holders (x :: E) l' = holders E l'.
Proof. intros <- Hne. by rewrite holders_cons, decide_False. Qed.

Lemma lock_free H : lock_ok 0 H → H = [].
Proof. intros [[? _]|[Hlen _]]; [lia|]. by destruct H. Qed.

(** A writer is alone with its row. *)
Lemma writer_alone n x H : lock_ok n H → x ∈ H → rwt x.2 ≠ READ → n = -1 ∧ H = [x].
Proof.
  intros [(-> & y & -> & _)|[_ Hall]] Hx Hrw.
  - split; [done|]. by apply list_elem_of_singleton in Hx as ->.
  - by apply Hall in Hx.
Qed.

Lemma lock_shared_ok n x H : lock_ok n H → x ∈ H → rwt x.2 = READ →
  n = Z.of_nat (length H) ∧ ∀ y, y ∈ H → rwt y.2 = READ.
Proof.
  intros [(-> & y & -> & Hy)|?] Hx Hrw; [|done]. by apply list_elem_of_singleton in Hx as ->.
Qed.

(** The state of a row held by the one entry [(tk, e)], which is about to
    change. *)
Lemma single_row tk v recs' e : rwt e ≠ READ → entry_ok e →
  (vrec v = None ↔ is_new e = true) →
  (∀ r, vrec v = Some r → ∃ b, recs' !! r = Some b ∧ schema !! tk.1 = Some (length b)) →
  (∀ r, rec e = Some r → vrec v ≠ Some r ∧ ∃ b, recs' !! r = Some b ∧ schema !! tk.1 = Some (length b)) →
  row_ok recs' tk (mkValue (-1) (vrec v)) [(tk, e)].
Proof.
  intros Hrw Hent Hnew Hvr Her. split; cbn [rwl vrec].
  - left. split; [done|]. by exists (tk, e).
  - intros x ->%list_elem_of_singleton. done.
  - unfold row_recs. cbn [vrec]. csimpl. destruct (vrec v) as [r|], (rec e) as [r'|]; simpl; repeat constructor; try set_solver.
  - intros r [Hr|(x & ->%list_elem_of_singleton & Hr)]%elem_of_row_recs; [by apply Hvr|by apply Her].
  - rewrite Hnew. split; [intros; exists (tk, e); split; [set_solver|done]|]. by intros (x & ->%list_elem_of_singleton & ?).
Qed.

(** Where a new local record comes from. *)
Definition new_record s (tk : Z * Z) (recs' : gmap loc block) (e : ReadWriteElement) : Prop :=
  ∀ r, rec e = Some r → records s !! r = None ∧ ∃ b, recs' !! r = Some b ∧ schema !! tk.1 = Some (length b).

Section step.
Context {s : store} {E : list entry} {D : list loc} {tk : Z * Z} {l : loc} {v : Value}.
Context (Hok : store_ok s E D) (Hb : bound s tk l) (Hv : values s !! l = Some v).

Lemma row_of : row_ok (records s) tk v (holders E l).
Proof. destruct (ok_row _ _ _ Hok tk l Hb) as (_ & u & Hu & Hrow). by simplify_eq. Qed.

Lemma acquire_shared : 0 ≤ rwl v → Z.of_nat (length E) < 2 ^ 62 →
  store_ok (set_value s l (mkValue (s64 (rwl v + 1)) (vrec v))) ((tk, mkElem None READ false l) :: E) D.
Proof.
  intros Hfree Hfew. destruct row_of as [Hlock Hkeys Hnd Ha Hnew].
  destruct Hlock as [[? _]|[Hn Hall]]; [lia|].
  eapply (row_update s E _ D tk l v); [done..| | | |].
  - intros l' Hne. by apply (holders_cons_other _ _ l).
  - rewrite holders_cons, decide_True by done. split; cbn [rwl vrec].
    + right. split; [|intros x [->|Hx]%elem_of_cons; auto]. simpl. rewrite Hn.
      assert (length (holders E l) ≤ length E)%nat by apply length_filter. unfold swrap. simpl. rewrite Z.mod_small; lia.
    + intros x [->|Hx]%elem_of_cons; [|by apply Hkeys]. by split.
    + unfold row_recs in *. by csimpl.
    + unfold row_recs in *. by csimpl.
    + rewrite Hnew. split; intros (x & Hx & Hnx); exists x; [set_solver|].
      apply elem_of_cons in Hx as [->|Hx]; [done|]. by split.
  - intros r b Hr _. exact Hr.
  - intros r Hr. left. unfold row_recs in *. rewrite holders_cons, decide_True in Hr by done. by csimpl in Hr.
Qed.

Lemma acquire_exclusive recs' e : rwl v = 0 → rwt e ≠ READ → val e = l → is_new e = false → entry_ok e →
  records s ⊆ recs' → new_record s tk recs' e →
  store_ok (mkStore (<[l := mkValue (-1) (vrec v)]> (values s)) recs' (idx s)) ((tk, e) :: E) D.
Proof.
  intros Hfree Hrw Hval Hnew Hent Hsub Hrec. destruct row_of as [Hlock Hkeys Hnd Ha Hn].
  rewrite Hfree in Hlock. apply lock_free in Hlock as HE. rewrite HE in *.
  assert (is_Some (vrec v)) as [r Hr].
  { destruct (vrec v) eqn:Hr; [done|]. destruct (proj1 Hn eq_refl) as (x & Hx & _). by apply not_elem_of_nil in Hx. }
  assert (r ∈ row_recs v []) as Hin by (apply elem_of_row_recs; by left).
  eapply (row_update s E _ D tk l v); [done..| | | |].
  - intros l' Hne. by apply (holders_cons_other _ _ l).
  - rewrite holders_cons, decide_True, HE by done. apply single_row; [done..| | |].
    + rewrite Hr, Hnew. done.
    + intros r' Hr'. destruct (Ha r') as (b & Hb' & Hsz); [apply elem_of_row_recs; by left|].
      exists b. split; [|done]. by eapply lookup_weaken.
    + intros r' Hr'. destruct (Hrec r' Hr') as [Hnone Hb']. split; [|done]. intros Heq. rewrite Hr in Heq. injection Heq as ->.
      destruct (Ha r' Hin) as (b & Hb'' & _). congruence.
  - intros r' b Hb' _. by eapply lookup_weaken.
  - rewrite holders_cons, decide_True, HE by done. intros r'. rewrite !elem_of_row_recs.
    intros [?|(x & ->%list_elem_of_singleton & Hr')]; [by left; left|right; by apply Hrec].
Qed.
End step.
Section own.
Context {s : store} {E : list entry} {D : list loc} {tk : Z * Z} {e : ReadWriteElement} {v : Value}.
Context (Hok : store_ok s ((tk, e) :: E) D) (Hv : values s !! val e = Some v).

Lemma own_bound : bound s tk (val e).
Proof. apply (ok_entry _ _ _ Hok (tk, e)). set_solver. Qed.

Lemma own_row : row_ok (records s) tk v ((tk, e) :: holders E (val e)).
Proof.
  pose proof (row_of Hok own_bound Hv) as Hrow. by rewrite holders_cons, decide_True in Hrow.
Qed.

Lemma own_other l' : l' ≠ val e → holders E l' = holders ((tk, e) :: E) l'.
Proof. intros Hne. by rewrite (holders_cons_other _ _ (val e)). Qed.

Lemma own_written : rwt e ≠ READ → rwl v = -1 ∧ holders E (val e) = [].
Proof.
  intros Hrw. destruct own_row as [Hlock _ _ _ _].
  destruct (writer_alone _ _ _ Hlock ltac:(by left) Hrw) as [? Heq]. split; [done|]. by injection Heq.
Qed.

(** Its committed and its local record are distinct. *)
Lemma own_distinct r : vrec v = Some r → rec e ≠ Some r.
Proof.
  intros Hr He. destruct own_row as [_ _ Hnd _ _]. unfold row_recs in Hnd. rewrite Hr in Hnd. csimpl in Hnd.
  rewrite He in Hnd. apply NoDup_cons in Hnd as [Hni _]. set_solver.
Qed.
(** The one holder of a row changes its entry. *)
Lemma change_entry recs' e' : holders E (val e) = [] → rwt e' ≠ READ → val e' = val e → is_new e' = is_new e →
  entry_ok e' → (∀ r b, records s !! r = Some b → rec e ≠ Some r → recs' !! r = Some b) →
  new_record s tk recs' e' →
  store_ok (mkStore (<[val e := mkValue (-1) (vrec v)]> (values s)) recs' (idx s)) ((tk, e') :: E) D.
Proof.
  intros Halone Hrw Hval Hnew Hent Hkeep Hrec. pose proof own_row as [Hlock Hkeys Hnd Ha Hn]. rewrite Halone in *.
  pose proof own_distinct as Hdis.
  eapply (row_update s ((tk, e) :: E) _ D tk (val e) v); [done|apply own_bound|done| | | |].
  - intros l' Hne. by rewrite !(holders_cons_other _ _ (val e)).
  - rewrite holders_cons, decide_True, Halone by done. apply single_row; [done..| | |].
    + rewrite Hn, Hnew. split; [by intros (x & ->%list_elem_of_singleton & ?)|]. intros. exists (tk, e). set_solver.
    + intros r Hr. destruct (Ha r) as (b & Hb & Hsz); [apply elem_of_row_recs; by left|].
      exists b. split; [|done]. apply Hkeep; auto.
    + intros r Hr. destruct (Hrec r Hr) as [Hnone Hb]. split; [|done]. intros Heq.
      destruct (Ha r) as (b & Hb' & _); [apply elem_of_row_recs; by left|]. congruence.
  - intros r b Hb Hni. apply Hkeep; [done|]. intros He. apply Hni. rewrite holders_cons, decide_True by done.
    apply elem_of_row_recs. right. exists (tk, e). split; [by left|done].
  - intros r. rewrite !holders_cons, !decide_True, Halone by done. rewrite !elem_of_row_recs.
    intros [?|(x & ->%list_elem_of_singleton & Hr)]; [by left; left|right; by apply Hrec].
Qed.

(** A reader leaves. *)
Lemma release_shared : rwt e = READ → Z.of_nat (length E) < 2 ^ 62 →
  store_ok (set_value s (val e) (mkValue (s64 (rwl v - 1)) (vrec v))) E D.
Proof.
  intros Hrw Hfew. pose proof own_row as [Hlock Hkeys Hnd Ha Hn].
  destruct (lock_shared_ok _ _ _ Hlock ltac:(by left) Hrw) as [Hlen Hall].
  destruct (Hkeys (tk, e) ltac:(by left)) as [_ Hent]. unfold entry_ok in Hent. simpl in Hent. rewrite Hrw in Hent.
  destruct Hent as [Hrec Hnew].
  assert (∀ r, r ∈ row_recs v (holders E (val e)) ↔ r ∈ row_recs v ((tk, e) :: holders E (val e))) as Hiff.
  { intros r. rewrite !elem_of_row_recs. setoid_rewrite elem_of_cons. split; [naive_solver|].
    intros [?|(x & [->|?] & ?)]; [by left|simpl in *; congruence|naive_solver]. }
  eapply (row_update s ((tk, e) :: E) _ D tk (val e) v); [done|apply own_bound|done| | | |].
  - apply own_other.
  - split; cbn [rwl vrec].
    + right. split; [|intros; apply Hall; by right]. rewrite Hlen. simpl.
      assert (length (holders E (val e)) ≤ length E)%nat by apply length_filter. unfold swrap. simpl. rewrite Z.mod_small; lia.
    + intros. apply Hkeys. by right.
    + unfold row_recs in *. cbn [vrec]. csimpl in Hnd. by rewrite Hrec in Hnd.
    + intros r Hr. by apply Ha, Hiff.
    + rewrite Hn. setoid_rewrite elem_of_cons. split; [|naive_solver].
      intros (x & [->|?] & ?); [simpl in *; congruence|naive_solver].
  - intros r b Hb _. exact Hb.
  - intros r Hr. left. rewrite holders_cons, decide_True by done. by apply Hiff.
Qed.

(** A writer leaves with [o] as the committed record: its local record on
    commit, the old one on abort; the other is freed. *)
Lemma release_exclusive recs' o : rwt e ≠ READ → is_Some o → (o = vrec v ∨ o = rec e) →
  (∀ r b, records s !! r = Some b → (o = Some r ∨ (vrec v ≠ Some r ∧ rec e ≠ Some r)) → recs' !! r = Some b) →
  store_ok (mkStore (<[val e := mkValue 0 o]> (values s)) recs' (idx s)) E D.
Proof.
  intros Hrw [r Ho] Hor Hkeep. pose proof own_row as [Hlock Hkeys Hnd Ha Hn].
  destruct (own_written Hrw) as [Hlocked Halone]. rewrite Halone in *.
  assert (r ∈ row_recs v [(tk, e)]) as Hin.
  { apply elem_of_row_recs. destruct Hor as [Hor|Hor]; rewrite Hor in Ho; [by left|]. right. exists (tk, e).
    split; [by left|done]. }
  eapply (row_update s ((tk, e) :: E) _ D tk (val e) v); [done|apply own_bound|done| | | |].
  - apply own_other.
  - rewrite Halone. split; cbn [rwl vrec].
    + right. split; [done|]. by intros x ?%not_elem_of_nil.
    + by intros x ?%not_elem_of_nil.
    + unfold row_recs. rewrite Ho. simpl. repeat constructor. set_solver.
    + intros r' [Hr|(x & ?%not_elem_of_nil & _)]%elem_of_row_recs; [|done]. simpl in Hr. rewrite Ho in Hr. injection Hr as <-.
      destruct (Ha r Hin) as (b & Hb & Hsz). exists b. split; [|done]. apply Hkeep; [done|by left].
    + rewrite Ho. split; [done|]. by intros (x & ?%not_elem_of_nil & _).
  - intros r' b Hb Hni. rewrite holders_cons, decide_True, Halone in Hni by done. rewrite elem_of_row_recs in Hni.
    apply Hkeep; [done|]. right. split; [by intros ?; apply Hni; left|]. intros He. apply Hni. right. exists (tk, e). split; [by left|done].
  - intros r'. rewrite Halone, holders_cons, decide_True, Halone by done.
    intros [Hr|(x & ?%not_elem_of_nil & _)]%elem_of_row_recs; [|done]. simpl in Hr. left. by simplify_eq.
Qed.

(** A writer takes the row out of the index. *)
Lemma retire_row recs' : rwt e ≠ READ →
  (∀ r b, records s !! r = Some b → vrec v ≠ Some r → rec e ≠ Some r → recs' !! r = Some b) →
  store_ok (mkStore (values s) recs' (idx_remove (idx s) tk.1 tk.2).2) E (val e :: D).
Proof.
  intros Hrw Hkeep. destruct (own_written Hrw) as [Hlocked Halone].
  apply (row_drop s ((tk, e) :: E) E D tk (val e) v); [done|apply own_bound|done|done| |].
  - intros l'. destruct (decide (l' = val e)) as [->|Hne]; [done|by apply own_other].
  - intros r b Hb Hni. rewrite holders_cons, decide_True, Halone in Hni by done. rewrite elem_of_row_recs in Hni.
    apply Hkeep; [done|by intros ?; apply Hni; left|]. intros He. apply Hni. right. exists (tk, e). split; [by left|done].
Qed.
End own.
(** *** What the other transactions see *)

(** The records that [F] reads or writes, and the committed records of the
    rows it holds, are left alone. *)
Definition frame s s' F : Prop := ∀ x, x ∈ F → ∃ u u', values s !! val x.2 = Some u ∧ values s' !! val x.2 = Some u' ∧
  vrec u' = vrec u ∧
  ∀ r b, (vrec u = Some r ∨ rec x.2 = Some r) → records s !! r = Some b → records s' !! r = Some b.

Lemma entry_value {s E D} x : store_ok s E D → x ∈ E → ∃ u, values s !! val x.2 = Some u ∧
  row_ok (records s) x.1 u (holders E (val x.2)).
Proof. intros Hok Hx. destruct (ok_row _ _ _ Hok _ _ (ok_entry _ _ _ Hok x Hx)) as (_ & u & Hu & Hrow). eauto. Qed.

Lemma frame_refl s E F D : store_ok s E D → F ⊆ E → frame s s F.
Proof. intros Hok HF x Hx. destruct (entry_value x Hok (HF x Hx)) as (u & Hu & _). exists u, u. auto. Qed.

Lemma frame_trans s1 s2 s3 F : frame s1 s2 F → frame s2 s3 F → frame s1 s3 F.
Proof.
  intros H12 H23 x Hx. destruct (H12 x Hx) as (u1 & u2 & Hu1 & Hu2 & Hv12 & Hr12).
  destruct (H23 x Hx) as (u2' & u3 & Hu2' & Hu3 & Hv23 & Hr23). assert (u2' = u2) as -> by congruence.
  exists u1, u3. split_and!; [done|done|congruence|]. intros r b Hr Hb. apply Hr23; [|by apply Hr12].
  rewrite Hv12. done.
Qed.

(** Changing a lock and allocating. *)
Lemma frame_grow s E D F l v n recs' i' : store_ok s E D → F ⊆ E → values s !! l = Some v → records s ⊆ recs' →
  frame s (mkStore (<[l := mkValue n (vrec v)]> (values s)) recs' i') F.
Proof.
  intros Hok HF Hv Hsub x Hx. destruct (entry_value x Hok (HF x Hx)) as (u & Hu & _). exists u.
  destruct (decide (val x.2 = l)) as [Heq|Hne]; simpl.
  - rewrite Heq in *. rewrite lookup_insert_eq. assert (u = v) as -> by congruence.
    eexists. split_and!; [done..|]. intros r b _ Hb. by eapply lookup_weaken.
  - rewrite lookup_insert_ne by done. exists u. split_and!; [done..|]. intros r b _ Hb. by eapply lookup_weaken.
Qed.

(** Changing a row nobody else holds. *)
Lemma frame_apart s E D F tk l v vs' recs' i' : store_ok s E D → F ⊆ E → bound s tk l → values s !! l = Some v →
  holders F l = [] → (∀ l', l' ≠ l → vs' !! l' = values s !! l') →
  (∀ r b, records s !! r = Some b → r ∉ row_recs v (holders E l) → recs' !! r = Some b) →
  frame s (mkStore vs' recs' i') F.
Proof.
  intros Hok HF Hb Hv Hno Hvs Hrecs x Hx. pose proof (HF x Hx) as HxE.
  destruct (entry_value x Hok HxE) as (u & Hu & Hrow).
  assert (val x.2 ≠ l) as Hne.
  { intros Heq. assert (x ∈ holders F l) as Hin by (by apply list_elem_of_filter). rewrite Hno in Hin. by apply not_elem_of_nil in Hin. }
  exists u, u. simpl. rewrite Hvs by done. split_and!; [done..|]. intros r b Hr Hrb. apply Hrecs; [done|].
  apply (ok_sep _ _ _ Hok x.1 (val x.2) u tk l v r); [by apply (ok_entry _ _ _ Hok)|done..|].
  apply elem_of_row_recs. destruct Hr as [?|Hr]; [by left|]. right. exists x. split; [|done]. by apply list_elem_of_filter.
Qed.

(** *** The committed database *)

(** The committed record of a key. *)
Definition view s (tk : Z * Z) : option block :=
  l ← idx_at (idx s) tk.1 tk.2; v ← values s !! l; r ← vrec v; records s !! r.

Lemma view_bound s tk l v : bound s tk l → values s !! l = Some v → view s tk = r ← vrec v; records s !! r.
Proof. intros [_ Hb] Hv. unfold view. rewrite Hb. simpl. by rewrite Hv. Qed.

Lemma row_committed s E D tk l v r : store_ok s E D → bound s tk l → values s !! l = Some v → vrec v = Some r →
  ∃ b, records s !! r = Some b.
Proof.
  intros Hok Hb Hv Hr. destruct (row_of Hok Hb Hv) as [_ _ _ Ha _].
  destruct (Ha r) as (b & Hrb & _); [apply elem_of_row_recs; by left|]. eauto.
Qed.

(** Changing one row leaves the other keys alone. *)
Lemma view_apart s E D tk l v vs' recs' i' tk' : store_ok s E D → bound s tk l → values s !! l = Some v →
  (∀ l', l' ≠ l → vs' !! l' = values s !! l') →
  (∀ r b, records s !! r = Some b → r ∉ row_recs v (holders E l) → recs' !! r = Some b) →
  (∀ tk', word64 tk'.2 → tk' ≠ tk → idx_at i' tk'.1 tk'.2 = idx_at (idx s) tk'.1 tk'.2) →
  tk' ≠ tk → word64 tk'.2 → view (mkStore vs' recs' i') tk' = view s tk'.
Proof.
  intros Hok Hb Hv Hvs Hrecs Hi Hne Hw. unfold view at 1. simpl. rewrite Hi by done.
  destruct (idx_at (idx s) tk'.1 tk'.2) as [l'|] eqn:Hl'; simpl; [|unfold view; by rewrite Hl'].
  assert (bound s tk' l') as Hb' by done. assert (l' ≠ l) as Hnl by (intros ->; by apply Hne, (ok_inj _ _ _ Hok _ _ l)).
  destruct (ok_row _ _ _ Hok tk' l' Hb') as (_ & u & Hu & Hrow). rewrite Hvs, Hu by done. simpl.
  rewrite (view_bound s tk' l' u Hb' Hu). destruct (vrec u) as [r|] eqn:Hr; [|done]. simpl.
  destruct (row_committed s E D tk' l' u r) as [b Hrb]; [done..|]. rewrite Hrb. apply Hrecs; [done|].
  apply (ok_sep _ _ _ Hok tk' l' u tk l v r); [done..|]. apply elem_of_row_recs. by left.
Qed.

(** Nobody else and no committed record is affected. *)
Definition quiet s s' F : Prop := frame s s' F ∧ ∀ tk, word64 tk.2 → view s' tk = view s tk.

Lemma quiet_refl s E F D : store_ok s E D → F ⊆ E → quiet s s F.
Proof. split; [by eapply frame_refl|done]. Qed.

Lemma quiet_trans s1 s2 s3 F : quiet s1 s2 F → quiet s2 s3 F → quiet s1 s3 F.
Proof. intros [Hf1 Hv1] [Hf2 Hv2]. split; [by eapply frame_trans|]. intros tk Hw. by rewrite Hv2, Hv1. Qed.

Lemma quiet_grow s E D F l v n recs' : store_ok s E D → F ⊆ E → values s !! l = Some v → records s ⊆ recs' →
  quiet s (mkStore (<[l := mkValue n (vrec v)]> (values s)) recs' (idx s)) F.
Proof.
  intros Hok HF Hv Hsub. split; [by eapply frame_grow|]. intros tk Hw. unfold view at 1. simpl.
  destruct (idx_at (idx s) tk.1 tk.2) as [l'|] eqn:Hl'; simpl; [|unfold view; by rewrite Hl'].
  destruct (ok_row _ _ _ Hok tk l' (conj Hw Hl')) as (_ & u & Hu & _).
  assert (∃ u', <[l := mkValue n (vrec v)]> (values s) !! l' = Some u' ∧ vrec u' = vrec u) as (u' & -> & Hvr).
  { destruct (decide (l' = l)) as [->|]; [|rewrite lookup_insert_ne by done; eauto]. rewrite lookup_insert_eq. simplify_eq. eauto. }
  simpl. rewrite Hvr, (view_bound s tk l' u (conj Hw Hl') Hu). destruct (vrec u) as [r|] eqn:Hr; [|done]. simpl.
  destruct (row_committed s E D tk l' u r) as [b Hrb]; [done..|]. rewrite Hrb. by eapply lookup_weaken.
Qed.

(** The one holder of a row changes it. *)
Section own_effects.
Context {s : store} {E : list entry} {D : list loc} {tk : Z * Z} {e : ReadWriteElement} {v : Value}.
Context (Hok : store_ok s ((tk, e) :: E) D) (Hv : values s !! val e = Some v) (Hrw : rwt e ≠ READ).
Context (vs' : gmap loc Value) (recs' : gmap loc block) (i' : index (V := loc)).
Context (Hvs : ∀ l', l' ≠ val e → vs' !! l' = values s !! l').
Context (Hkeep : ∀ r b, records s !! r = Some b → vrec v ≠ Some r → rec e ≠ Some r → recs' !! r = Some b).

Lemma own_keep r b : records s !! r = Some b → r ∉ row_recs v (holders ((tk, e) :: E) (val e)) → recs' !! r = Some b.
Proof.
  destruct (own_written Hok Hv Hrw) as [_ Halone]. rewrite holders_cons, decide_True, Halone by done.
  rewrite elem_of_row_recs. intros Hb Hni. apply Hkeep; [done|by intros ?; apply Hni; left|].
  intros He. apply Hni. right. exists (tk, e). split; [by left|done].
Qed.

Lemma own_frame F : F ⊆ E → frame s (mkStore vs' recs' i') F.
Proof.
  intros HF. destruct (own_written Hok Hv Hrw) as [_ Halone].
  eapply (frame_apart s ((tk, e) :: E) D F tk (val e) v); [done|set_solver|by apply (own_bound Hok Hv)|done| |done|apply own_keep].
  apply filter_none. intros x Hx Hval. assert (x ∈ holders E (val e)) as Hin by (apply list_elem_of_filter; auto).
  rewrite Halone in Hin. by apply not_elem_of_nil in Hin.
Qed.

Lemma own_view tk' : (∀ tk', word64 tk'.2 → tk' ≠ tk → idx_at i' tk'.1 tk'.2 = idx_at (idx s) tk'.1 tk'.2) →
  tk' ≠ tk → word64 tk'.2 → view (mkStore vs' recs' i') tk' = view s tk'.
Proof.
  intros Hi. eapply (view_apart s ((tk, e) :: E) D tk (val e) v); [done|by apply (own_bound Hok Hv)|done|done|apply own_keep|done].
Qed.

End own_effects.

(** *** The calls *)

Definition held t : list entry := map_to_list (rws t).

(** The call returns, the invariant holds and the others see nothing. *)
Definition call_ok {A} t s F D (m : outcome (A * tx * store)) : Prop :=
  ∃ a t' s', m = Ok (a, t', s') ∧ store_ok s' (held t' ++ F) D ∧ quiet s s' F ∧ gc_container t' = gc_container t.

Lemma held_put_absent t tk e F : rws t !! tk = None → held (put t tk e) ++ F ≡ₚ (tk, e) :: held t ++ F.
Proof. intros Hn. unfold held, put. simpl. by rewrite map_to_list_insert. Qed.

Lemma held_split t tk e F : rws t !! tk = Some e → held t ++ F ≡ₚ (tk, e) :: map_to_list (delete tk (rws t)) ++ F.
Proof. intros Hs. unfold held. by rewrite <- (map_to_list_delete _ _ _ Hs). Qed.

Lemma held_put_present t tk e F : held (put t tk e) ++ F ≡ₚ (tk, e) :: map_to_list (delete tk (rws t)) ++ F.
Proof. unfold held, put. simpl. rewrite <- insert_delete_eq, map_to_list_insert; [done|]. apply lookup_delete_eq. Qed.

Lemma rest_subset t tk F : F ⊆ map_to_list (delete tk (rws t)) ++ F.
Proof. set_solver. Qed.

(** The entry of a key of the read/write set. *)
Lemma own_value {t s F D tk e} : store_ok s (held t ++ F) D → rws t !! tk = Some e →
  store_ok s ((tk, e) :: map_to_list (delete tk (rws t)) ++ F) D ∧ ∃ v, values s !! val e = Some v.
Proof.
  intros Hok He. assert (store_ok s ((tk, e) :: map_to_list (delete tk (rws t)) ++ F) D) as Hok'
    by (eapply store_ok_perm, Hok; [by apply held_split|done]).
  split; [done|]. destruct (entry_value (tk, e) Hok') as (u & Hu & _); [by left|]. eauto.
Qed.

Lemma call_same {A} t s F D (a : A) : store_ok s (held t ++ F) D → call_ok t s F D (Ok (a, t, s)).
Proof. intros Hok. exists a, t, s. split_and!; [done|done| |done]. eapply quiet_refl; [done|]. set_solver. Qed.

Lemma call_skip {A} t s F D (a : A) table_id : store_ok s (held t ++ F) D →
  call_ok t s F D (Ok (a, add_table t table_id, s)).
Proof. exact (call_same (add_table t table_id) s F D a). Qed.

Lemma find_cases i table_id key : idx_find i table_id key = (NOT_FOUND, None) ∧ idx_at i table_id key = None ∨
  ∃ l, idx_find i table_id key = (OK, Some l) ∧ idx_at i table_id key = Some l.
Proof. rewrite find_result. destruct (idx_at i table_id key) as [l|]; [right; eauto|by left]. Qed.

Lemma few_app t tk F : Z.of_nat (length (held t ++ F)) < 2 ^ 62 →
  Z.of_nat (length (map_to_list (delete tk (rws t)) ++ F)) < 2 ^ 62.
Proof.
  unfold held. rewrite !length_app, !length_map_to_list. destruct (rws t !! tk) eqn:Hd.
  - rewrite map_size_delete_Some by eauto. lia.
  - by rewrite delete_id.
Qed.
Lemma set_value_id s l v : values s !! l = Some v → set_value s l (mkValue (rwl v) (vrec v)) = s.
Proof. intros Hv. unfold set_value. destruct s as [vs recs i], v; simpl in *. by rewrite insert_id. Qed.

Lemma copy_record_ok r b n s' : records s' !! r = Some b → length b = n →
  copy_record s' (Some r) n =
  Ok (fresh (dom (records s')), set_records s' (<[fresh (dom (records s')) := b]> (records s'))).
Proof.
  intros Hr Hlen. unfold copy_record, aligned_allocate, memcpy. simpl.
  set (r' := fresh (dom (records s'))). assert (records s' !! r' = None) as Hnone by (apply not_elem_of_dom, is_fresh).
  assert (r' ≠ r) by (intros Heq; rewrite Heq in Hnone; congruence).
  rewrite (lookup_insert_ne _ r' r), Hr by done. simpl. rewrite lookup_insert_eq. simpl.
  rewrite length_replicate, Hlen, Nat.leb_refl. simpl.
  rewrite insert_insert_eq, take_ge, drop_ge, app_nil_r by (rewrite ?length_replicate; lia). done.
Qed.

Lemma fresh_record (recs : gmap loc block) b : recs !! fresh (dom recs) = None ∧ recs ⊆ <[fresh (dom recs) := b]> recs.
Proof.
  assert (recs !! fresh (dom recs) = None) by (apply not_elem_of_dom, is_fresh). split; [done|]. by apply insert_subseteq.
Qed.

Lemma new_record_fresh s tk b e : rec e = Some (fresh (dom (records s))) → schema !! tk.1 = Some (length b) →
  new_record s tk (<[fresh (dom (records s)) := b]> (records s)) e.
Proof.
  intros He Hsz r Hr. rewrite He in Hr. injection Hr as <-. split; [by apply fresh_record|].
  exists b. split; [apply lookup_insert_eq|done].
Qed.

Section calls.
Context {t : tx} {s : store} {F : list entry} {D : list loc} {tk : Z * Z}.
Context (Hok : store_ok s (held t ++ F) D) (Hfew : Z.of_nat (length (held t ++ F)) < 2 ^ 62).

Lemma bound_value l : bound s tk l → ∃ v, values s !! l = Some v ∧ row_ok (records s) tk v (holders (held t ++ F) l).
Proof. intros Hb. destruct (ok_row _ _ _ Hok tk l Hb) as (_ & v & Hv & Hrow). eauto. Qed.

Lemma read_absent_ok l : rws t !! tk = None → bound s tk l → call_ok t s F D (read_absent t s tk l).
Proof.
  intros Hn Hb. destruct (bound_value l Hb) as (v & Hv & Hrow). unfold read_absent, try_. rewrite Hv. simpl.
  unfold RWLock.try_lock_shared. destruct (Z.leb_spec 0 (rwl v)); simpl.
  - unfold load_rec. simpl. rewrite lookup_insert_eq. simpl. eexists _, _, _. split; [done|]. split_and!; [| |done].
    + eapply store_ok_perm; [symmetry; by apply held_put_absent|done|]. by apply (acquire_shared Hok Hb Hv).
    + eapply quiet_grow; [exact Hok|set_solver|done|done].
  - rewrite set_value_id by done. by apply call_same.
Qed.

Lemma update_absent_ok l n : rws t !! tk = None → bound s tk l → schema !! tk.1 = Some n →
  call_ok t s F D (update_absent t s tk l n).
Proof.
  intros Hn Hb Hsz. destruct (bound_value l Hb) as (v & Hv & Hrow). unfold update_absent, try_. rewrite Hv. simpl.
  unfold RWLock.try_lock. destruct (Z.eqb_spec (rwl v) 0) as [Hfree|]; simpl.
  - unfold load_rec. simpl. rewrite lookup_insert_eq. simpl.
    destruct Hrow as [Hlock _ _ Ha Hnew]. rewrite Hfree in Hlock. apply lock_free in Hlock. rewrite Hlock in *.
    destruct (vrec v) as [r|] eqn:Hr; [|destruct (proj1 Hnew eq_refl) as (x & Hx & _); by apply not_elem_of_nil in Hx].
    destruct (Ha r) as (b & Hrb & Hsz'); [apply elem_of_row_recs; by left|].
    rewrite (copy_record_ok r b n); [|done|congruence]. simpl. eexists _, _, _. split; [done|]. split_and!; [| |done].
    + eapply store_ok_perm; [symmetry; by apply held_put_absent|done|]. rewrite <- Hr.
      apply (acquire_exclusive Hok Hb Hv); [done|done|done|done|by eexists|by apply fresh_record|by apply new_record_fresh].
    + unfold set_records. simpl. rewrite <- Hr. eapply quiet_grow; [exact Hok|set_solver|done|by apply fresh_record].
  - rewrite set_value_id by done. by apply call_same.
Qed.

Lemma remove_absent_ok l : rws t !! tk = None → bound s tk l →
  call_ok t s F D ('(locked, s) ← try_ RWLock.try_lock s l;
    if locked : bool then r ← load_rec s l; Ok (r, put t tk (mkElem None DELETE false l), s) else Ok (None, t, s)).
Proof.
  intros Hn Hb. destruct (bound_value l Hb) as (v & Hv & Hrow). unfold try_. rewrite Hv. simpl.
  unfold RWLock.try_lock. destruct (Z.eqb_spec (rwl v) 0) as [Hfree|]; simpl.
  - unfold load_rec. simpl. rewrite lookup_insert_eq. simpl. eexists _, _, _. split; [done|]. split_and!; [| |done].
    + eapply store_ok_perm; [symmetry; by apply held_put_absent|done|]. by apply (acquire_exclusive Hok Hb Hv).
    + eapply quiet_grow; [exact Hok|set_solver|done|done].
  - rewrite set_value_id by done. by apply call_same.
Qed.
End calls.
Section own_calls.
Context {t : tx} {s : store} {F : list entry} {D : list loc} {tk : Z * Z} {e : ReadWriteElement}.
Context (Hok : store_ok s (held t ++ F) D) (He : rws t !! tk = Some e).
#[local] Abbreviation rest := (map_to_list (delete tk (rws t)) ++ F).

(** A read entry whose lock can be upgraded is the only one. *)
Lemma upgrade_alone v : values s !! val e = Some v → rwt e = READ → rwl v = 1 →
  holders rest (val e) = [] ∧ rec e = None ∧ is_new e = false ∧ ∃ r b, vrec v = Some r ∧ records s !! r = Some b ∧
  schema !! tk.1 = Some (length b).
Proof.
  intros Hv Hrw Hone. destruct (own_value Hok He) as [Hok' _]. destruct (own_row Hok' Hv) as [Hlock Hkeys _ Ha Hnew].
  destruct (lock_shared_ok _ _ _ Hlock ltac:(by left) Hrw) as [Hlen _]. rewrite Hone in Hlen. simpl in Hlen.
  assert (holders rest (val e) = []) as Halone by (destruct (holders rest (val e)); [done|simpl in Hlen; lia]).
  destruct (Hkeys (tk, e) ltac:(by left)) as [_ Hent]. unfold entry_ok in Hent. simpl in Hent. rewrite Hrw in Hent.
  destruct Hent as [Hrec Hne]. split_and!; [done..|].
  destruct (vrec v) as [r|] eqn:Hr.
  - destruct (Ha r) as (b & Hb & Hsz); [apply elem_of_row_recs; by left|]. eauto.
  - destruct (proj1 Hnew eq_refl) as (x & Hx & Hnx). rewrite Halone in Hx. apply list_elem_of_singleton in Hx as ->.
    simpl in Hnx. congruence.
Qed.

Lemma update_read_ok n : rwt e = READ → schema !! tk.1 = Some n → call_ok t s F D (update_read t s tk e n).
Proof.
  intros Hrw Hsz. destruct (own_value Hok He) as [Hok' (v & Hv)]. unfold update_read, try_. rewrite Hv. simpl.
  unfold RWLock.try_lock_upgrade. destruct (Z.eqb_spec (rwl v) 1) as [Hone|]; simpl.
  - destruct (upgrade_alone v Hv Hrw Hone) as (Halone & Hrec & Hnew & r & b & Hr & Hrb & Hsz').
    unfold load_rec. simpl. rewrite lookup_insert_eq. simpl. rewrite Hr.
    rewrite (copy_record_ok r b n); [|done|congruence]. simpl. eexists _, _, _. split; [done|]. split_and!; [| |done].
    + eapply store_ok_perm; [symmetry; by apply held_put_present|done|]. unfold set_records. simpl. rewrite <- Hr.
      apply (change_entry Hok' Hv); [done|done|done|done|by eexists| |by apply new_record_fresh].
      intros r' b' Hb' _. eapply lookup_weaken; [done|by apply fresh_record].
    + unfold set_records. simpl. rewrite <- Hr. eapply quiet_grow; [exact Hok|set_solver|done|by apply fresh_record].
  - rewrite set_value_id by done. by apply call_same.
Qed.

Lemma remove_read_ok : rwt e = READ → call_ok t s F D
  ('(locked, s) ← try_ RWLock.try_lock_upgrade s (val e);
   if locked : bool then
     r ← load_rec s (val e); Ok (r, put t tk (mkElem (rec e) DELETE (is_new e) (val e)), s)
   else Ok (None, t, s)).
Proof.
  intros Hrw. destruct (own_value Hok He) as [Hok' (v & Hv)]. unfold try_. rewrite Hv. simpl.
  unfold RWLock.try_lock_upgrade. destruct (Z.eqb_spec (rwl v) 1) as [Hone|]; simpl.
  - destruct (upgrade_alone v Hv Hrw Hone) as (Halone & Hrec & Hnew & _).
    unfold load_rec. simpl. rewrite lookup_insert_eq. simpl. eexists _, _, _. split; [done|]. split_and!; [| |done].
    + eapply store_ok_perm; [symmetry; by apply held_put_present|done|]. rewrite Hrec.
      apply (change_entry Hok' Hv); [done|done|done|done|done|intros r b Hb _; exact Hb|by intros r ?].
    + eapply quiet_grow; [exact Hok|set_solver|done|done].
  - rewrite set_value_id by done. by apply call_same.
Qed.

(** An entry of a written row. *)
Lemma own_locked v : values s !! val e = Some v → rwt e ≠ READ → rwl v = -1 ∧ holders rest (val e) = [].
Proof. intros Hv Hrw. destruct (own_value Hok He) as [Hok' _]. by apply (own_written Hok' Hv). Qed.

Lemma own_entry_ok : entry_ok e ∧ ∀ r, rec e = Some r → ∃ b, records s !! r = Some b ∧ schema !! tk.1 = Some (length b).
Proof.
  destruct (own_value Hok He) as [Hok' (v & Hv)]. destruct (own_row Hok' Hv) as [_ Hkeys _ Ha _].
  split; [by apply (Hkeys (tk, e)); left|]. intros r Hr. apply Ha, elem_of_row_recs. right. exists (tk, e). split; [by left|done].
Qed.

Lemma holders_rest_frame : holders rest (val e) = [] → holders F (val e) = [].
Proof. unfold holders. rewrite filter_app. by intros [_ ?]%app_eq_nil. Qed.

Lemma remove_written_ok : rwt e = UPDATE ∨ rwt e = INSERT → call_ok t s F D
  (s ← deallocate s (rec e); r ← load_rec s (val e);
   Ok (r, put t tk (mkElem None DELETE (is_new e) (val e)), s)).
Proof.
  intros Hrw. assert (rwt e ≠ READ) as Hnr by (destruct Hrw; congruence).
  destruct (own_value Hok He) as [Hok' (v & Hv)]. destruct (own_locked v Hv Hnr) as [Hlocked Halone].
  destruct own_entry_ok as [Hent Ha]. assert (is_Some (rec e)) as [r Hr] by (unfold entry_ok in Hent; destruct Hrw as [Hrw|Hrw]; by rewrite Hrw in Hent).
  destruct (Ha r Hr) as (b & Hb & Hsz). rewrite Hr. simpl. rewrite Hb. simpl. unfold load_rec. simpl. rewrite Hv. simpl.
  eexists _, _, _. split; [done|]. split_and!; [| |done].
  - eapply store_ok_perm; [symmetry; by apply held_put_present|done|].
    replace (set_records s (delete r (records s))) with
      (mkStore (<[val e := mkValue (-1) (vrec v)]> (values s)) (delete r (records s)) (idx s)).
    + apply (change_entry Hok' Hv); [done|done|done|done|done| |by intros r' ?].
      intros r' b' Hb' Hne. rewrite lookup_delete_ne; [done|]. congruence.
    + unfold set_records. f_equal. rewrite insert_id; [done|]. rewrite Hv. f_equal. destruct v; simpl in *. by subst.
  - assert (∀ r' b', records s !! r' = Some b' → rec e ≠ Some r' → delete r (records s) !! r' = Some b') as Hkeep
      by (intros r' b' Hb' Hne; rewrite lookup_delete_ne; [done|congruence]).
    split; [apply (own_frame Hok' Hv Hnr); [done|auto|set_solver]|]. intros tk' Hw.
    destruct (decide (tk' = tk)) as [->|Hne]; [|by apply (own_view Hok' Hv Hnr); [|auto|..]].
    rewrite !(view_bound _ tk (val e) v) by (done || by apply (own_bound Hok' Hv)).
    destruct (vrec v) as [r'|] eqn:Hr'; [|done]. simpl. rewrite lookup_delete_ne; [done|].
    intros ->. by apply (own_distinct Hok' Hv r').
Qed.

Lemma revive_ok n : rwt e = DELETE → schema !! tk.1 = Some n → call_ok t s F D (Ok (revive t s tk e n)).
Proof.
  intros Hrw Hsz. assert (rwt e ≠ READ) as Hnr by congruence.
  destruct (own_value Hok He) as [Hok' (v & Hv)]. destruct (own_locked v Hv Hnr) as [Hlocked Halone].
  destruct own_entry_ok as [Hent _]. unfold entry_ok in Hent. rewrite Hrw in Hent.
  unfold revive, aligned_allocate. eexists _, _, _. split; [done|].
  replace (set_records s _) with (mkStore (<[val e := mkValue (-1) (vrec v)]> (values s))
    (<[fresh (dom (records s)) := replicate n None]> (records s)) (idx s)).
  2: { unfold set_records. f_equal. rewrite insert_id; [done|]. rewrite Hv. f_equal. destruct v; simpl in *. by subst. }
  split_and!; [| |done].
  - eapply store_ok_perm; [symmetry; by apply held_put_present|done|].
    apply (change_entry Hok' Hv); [done|done|done|done|by eexists| |].
    + intros r b Hb _. eapply lookup_weaken; [done|by apply fresh_record].
    + apply new_record_fresh; [done|]. by rewrite length_replicate.
  - eapply quiet_grow; [exact Hok|set_solver|done|by apply fresh_record].
Qed.
End own_calls.
(** Allocating rows and records. *)
Lemma frame_alloc s E D F vs' recs' i' : store_ok s E D → F ⊆ E → values s ⊆ vs' → records s ⊆ recs' →
  frame s (mkStore vs' recs' i') F.
Proof.
  intros Hok HF Hvs Hrecs x Hx. destruct (entry_value x Hok (HF x Hx)) as (u & Hu & _). exists u, u. simpl.
  split_and!; [done|by eapply lookup_weaken|done|]. intros r b _ Hb. by eapply lookup_weaken.
Qed.

Lemma insert_new_ok t s F D table_id key next_key next_value n :
  store_ok s (held t ++ F) D → rws t !! (table_id, key) = None → word64 key → idx_at (idx s) table_id key = None →
  bound s (table_id, next_key) next_value → rws t !! (table_id, next_key) = None → schema !! table_id = Some n →
  call_ok t s F D ('(locked, s) ← lock_next t s table_id next_key next_value;
    if locked : bool then insert_new_record t s table_id key next_value n else Ok (None, t, s)).
Proof.
  intros Hok Hn Hw Hat Hnext Hnn Hsz. unfold lock_next. rewrite Hnn.
  destruct (ok_row _ _ _ Hok _ _ Hnext) as (_ & v & Hv & _). unfold try_. rewrite Hv. simpl.
  unfold RWLock.try_lock. destruct (Z.eqb_spec (rwl v) 0) as [Hfree|]; simpl; [|rewrite set_value_id by done; by apply call_same].
  unfold insert_new_record. simpl. set (new := fresh (dom (<[next_value := mkValue (-1) (vrec v)]> (values s)))).
  assert (values s !! new = None ∧ new ≠ next_value) as [Hnew Hne].
  { assert (new ∉ dom (<[next_value := mkValue (-1) (vrec v)]> (values s))) as Hf by apply is_fresh.
    rewrite dom_insert, not_elem_of_union, not_elem_of_singleton in Hf. destruct Hf as [Hf1 Hf2]. split; [by apply not_elem_of_dom|done]. }
  destruct (insert_absent (idx s) table_id key new (ok_index _ _ _ Hok) Hw Hat) as (i' & Hins & Hi' & Hat').
  rewrite Hins. unfold release. simpl. rewrite lookup_insert_ne, lookup_insert_eq by done. simpl.
  change (RWLock.unlock (-1)) with 0.
  assert (<[next_value := mkValue 0 (vrec v)]> (<[new := mkValue (-1) None]>
    (<[next_value := mkValue (-1) (vrec v)]> (values s))) = <[new := mkValue (-1) None]> (values s)) as Heq.
  { rewrite (insert_insert_ne _ next_value new) by done. f_equal. rewrite insert_insert_eq. apply insert_id.
    rewrite Hv. f_equal. destruct v. simpl in *. by subst. }
  unfold set_value, set_idx, set_records. simpl. rewrite Heq. eexists _, _, _. split; [done|]. split_and!; [| |done].
  - eapply store_ok_perm; [symmetry; by apply held_put_absent|done|].
    assert (holders (held t ++ F) new = []) as Hnone.
    { apply filter_none. intros x Hx Hxv. destruct (entry_value x Hok Hx) as (u & Hu & _). congruence. }
    eapply (row_add s (held t ++ F) _ D (table_id, key) new); [done|done|done|done|done|done| | | |].
    + intros l' Hl'. by apply (holders_cons_other _ _ new).
    + rewrite holders_cons, decide_True, Hnone by done. apply (single_row _ (mkValue (-1) None)); [done|by eexists|done|done|].
      intros r [= <-]. split; [done|]. exists (replicate n None). rewrite lookup_insert_eq, length_replicate. done.
    + by apply fresh_record.
    + rewrite holders_cons, decide_True, Hnone by done.
      intros r [?|(x & ->%list_elem_of_singleton & [= <-])]%elem_of_row_recs; [done|]. exact (proj1 (fresh_record (records s) [])).
  - split; [eapply frame_alloc; [exact Hok|set_solver|by apply insert_subseteq|by apply fresh_record]|].
    intros tk Htk. unfold view. simpl. rewrite Hat' by done. case_decide as Hd.
    + destruct Hd as [-> ->]. rewrite Hat. simpl. by rewrite lookup_insert_eq.
    + destruct (idx_at (idx s) tk.1 tk.2) as [l|] eqn:Hl; [|done]. simpl.
      destruct (ok_row _ _ _ Hok tk l (conj Htk Hl)) as (_ & u & Hu & _). rewrite lookup_insert_ne, Hu by congruence. simpl.
      destruct (vrec u) as [r|] eqn:Hr; [|done]. simpl. destruct (row_committed s _ D tk l u r Hok) as [b Hrb]; [done..|].
      rewrite Hrb. eapply lookup_weaken; [done|by apply fresh_record].
Qed.
(** A call that changes neither the index nor more than one entry. *)
Definition modest {A} t s (m : outcome (A * tx * store)) : Prop :=
  ∀ a t' s', m = Ok (a, t', s') → idx s' = idx s ∧ (size (rws t') ≤ S (size (rws t)))%nat.

Lemma size_put t tk e : (size (rws (put t tk e)) ≤ S (size (rws t)))%nat.
Proof.
  unfold put. simpl. destruct (rws t !! tk) eqn:Hl.
  - rewrite map_size_insert_Some by eauto. lia.
  - rewrite map_size_insert_None by done. lia.
Qed.

Lemma try_idx f s l b s' : try_ f s l = Ok (b, s') → idx s' = idx s.
Proof.
  unfold try_. intros (v & _ & Heq)%bind_Ok. destruct (f (rwl v)). by injection Heq as <- <-.
Qed.

Lemma read_absent_modest t s tk l : modest t s (read_absent t s tk l).
Proof.
  intros a t' s' ([locked s1] & Hs1%try_idx & Heq)%bind_Ok. destruct locked.
  - apply bind_Ok in Heq as (r & _ & [= <- <- <-]). split; [done|apply size_put].
  - injection Heq as <- <- <-. split; [done|lia].
Qed.

Lemma copy_idx s src n r s' : copy_record s src n = Ok (r, s') → idx s' = idx s.
Proof.
  unfold copy_record, aligned_allocate, memcpy. intros (s1 & Hs1 & [= _ <-])%bind_Ok.
  apply bind_Ok in Hs1 as (? & _ & (? & _ & (? & _ & (? & _ & [= <-])%bind_Ok)%bind_Ok)%bind_Ok). done.
Qed.

Lemma update_absent_modest t s tk l n : modest t s (update_absent t s tk l n).
Proof.
  intros a t' s' ([locked s1] & Hs1%try_idx & Heq)%bind_Ok. destruct locked; [|injection Heq as <- <- <-; split; [done|lia]].
  apply bind_Ok in Heq as (src & _ & ([r s2] & Hs2%copy_idx & [= <- <- <-])%bind_Ok). split; [congruence|apply size_put].
Qed.

Lemma update_read_modest t s tk e n : modest t s (update_read t s tk e n).
Proof.
  intros a t' s' ([locked s1] & Hs1%try_idx & Heq)%bind_Ok. destruct locked; [|injection Heq as <- <- <-; split; [done|lia]].
  apply bind_Ok in Heq as (src & _ & ([r s2] & Hs2%copy_idx & [= <- <- <-])%bind_Ok). split; [congruence|apply size_put].
Qed.

Section operations.
Context {t : tx} {s : store} {F : list entry} {D : list loc}.
Context (Hok : store_ok s (held t ++ F) D) (Hfew : Z.of_nat (length (held t ++ F)) < 2 ^ 62).
Context (table_id key : Z) (Hw : word64 key).

Lemma call_bind {A B} (m : outcome (A * tx * store)) (f : A → B) : call_ok t s F D m →
  call_ok t s F D ('(a, t, s) ← m; Ok (f a, t, s)).
Proof. intros (a & t' & s' & -> & ?). eexists _, _, _. by split. Qed.

Lemma read_ok : call_ok t s F D (read t s table_id key).
Proof.
  unfold read. simpl. destruct (rws t !! (table_id, key)) as [e|] eqn:He.
  - destruct (own_value Hok He) as [_ (v & Hv)]. unfold load_rec. rewrite Hv. simpl. destruct (rwt e); by apply call_skip.
  - destruct (find_cases (idx s) table_id key) as [[-> _]|(l & -> & Hat)]; [by apply call_skip|]. cbn [deref mbind outcome_bind].
    apply (call_bind (read_absent (add_table t table_id) s (table_id, key) l)). by apply (read_absent_ok (t := add_table t table_id)).
Qed.

Context (n : nat) (Hsz : schema !! table_id = Some n).

Lemma record_size_ok : get_record_size schema table_id = Ok n.
Proof. unfold get_record_size. by rewrite Hsz. Qed.

Lemma update_ok : call_ok t s F D (update schema t s table_id key).
Proof.
  unfold update. rewrite record_size_ok. simpl. destruct (rws t !! (table_id, key)) as [e|] eqn:He.
  - destruct (rwt e) eqn:Hrw; [by apply (update_read_ok (t := add_table t table_id))|by apply call_skip..].
  - destruct (find_cases (idx s) table_id key) as [[-> _]|(l & -> & Hat)]; [by apply call_skip|].
    by apply (update_absent_ok (t := add_table t table_id)).
Qed.

Lemma remove_ok : call_ok t s F D (remove t s table_id key).
Proof.
  unfold remove. simpl. destruct (rws t !! (table_id, key)) as [e|] eqn:He.
  - destruct (rwt e) eqn:Hrw; [by apply (remove_read_ok (t := add_table t table_id))| | |by apply call_skip];
      (apply (remove_written_ok (t := add_table t table_id)); auto).
  - destruct (find_cases (idx s) table_id key) as [[-> _]|(l & -> & Hat)]; [by apply call_skip|].
    by apply (remove_absent_ok (t := add_table t table_id)).
Qed.

(** There is a next key, and the transaction does not hold it. *)
Definition next_free t s (table_id key : Z) : Prop := ∃ nk nl,
  (idx_get_next_kv (idx s) table_id key).2 = Some (nk, nl) ∧ rws t !! (table_id, nk) = None.

Lemma next_bound nk nl : (idx_get_next_kv (idx s) table_id key).2 = Some (nk, nl) →
  idx_get_next_kv (idx s) table_id key = (OK, Some (nk, nl)) ∧ bound s (table_id, nk) nl ∧ key < nk.
Proof.
  destruct (next_result (idx s) table_id key (ok_index _ _ _ Hok) Hw) as (all & [_ Hall] & ->). simpl. intros Hh. rewrite Hh.
  split; [done|]. destruct all as [|p all]; [done|]. injection Hh as ->. destruct (Hall nk nl) as [Hin _].
  destruct Hin as [Hlt Hat]; [by left|]. destruct Hw. split; [split; [split; simpl; lia|done]|lia].
Qed.

Lemma insert_ok : next_free t s table_id key → call_ok t s F D (insert schema t s table_id key).
Proof.
  intros (nk & nl & (Hnext & Hb & Hlt)%next_bound & Hnn). unfold insert. rewrite record_size_ok. simpl.
  destruct (rws t !! (table_id, key)) as [e|] eqn:He.
  - destruct (rwt e) eqn:Hrw; [by apply call_skip..|]. by apply (revive_ok (t := add_table t table_id)).
  - destruct (find_cases (idx s) table_id key) as [[-> Hat]|(l & -> & Hat)]; [|by apply call_skip].
    rewrite Hnext. cbn [deref mbind outcome_bind]. rewrite bind_assert by (destruct Hw; lia).
    by apply (insert_new_ok (add_table t table_id) s F D table_id key nk nl n).
Qed.

Lemma upsert_ok : next_free t s table_id key → call_ok t s F D (upsert schema t s table_id key).
Proof.
  intros (nk & nl & (Hnext & Hb & Hlt)%next_bound & Hnn). unfold upsert. rewrite record_size_ok. simpl.
  destruct (rws t !! (table_id, key)) as [e|] eqn:He.
  - destruct (rwt e) eqn:Hrw; [by apply (update_read_ok (t := add_table t table_id))|by apply call_skip..|].
    by apply (revive_ok (t := add_table t table_id)).
  - destruct (find_cases (idx s) table_id key) as [[-> Hat]|(l & -> & Hat)].
    + rewrite Hnext. cbn [deref mbind outcome_bind]. by apply (insert_new_ok (add_table t table_id) s F D table_id key nk nl n).
    + by apply (update_absent_ok (t := add_table t table_id)).
Qed.
End operations.
(** *** Scans *)

Lemma call_trans {A B} t s F D (a : A) t1 s1 (m : outcome (B * tx * store)) :
  quiet s s1 F → gc_container t1 = gc_container t → call_ok t1 s1 F D m → call_ok t s F D m.
Proof.
  intros Hf Hg (b & t2 & s2 & -> & Hok2 & Hf2 & Hg2). exists b, t2, s2. split_and!; [done|done|by eapply quiet_trans|congruence].
Qed.

Lemma held_length t F : Z.of_nat (length (held t ++ F)) = Z.of_nat (size (rws t)) + Z.of_nat (length F).
Proof. unfold held. rewrite length_app, length_map_to_list. lia. Qed.

(** One row of a scan: a modest call and the rest of the loop. *)
Lemma scan_row {A B} t s F D table_id (kv_map : list (Z * loc)) (m : outcome (A * tx * store))
    (k : A → tx → store → outcome (B * tx * store)) :
  call_ok t s F D m → modest t s m →
  (∀ p, p ∈ kv_map → bound s (table_id, p.1) p.2) →
  Z.of_nat (length (held t ++ F)) + Z.of_nat (S (length kv_map)) < 2 ^ 62 →
  (∀ a t' s', store_ok s' (held t' ++ F) D → (∀ p, p ∈ kv_map → bound s' (table_id, p.1) p.2) →
     Z.of_nat (length (held t' ++ F)) + Z.of_nat (length kv_map) < 2 ^ 62 → call_ok t' s' F D (k a t' s')) →
  call_ok t s F D ('(a, t, s) ← m; k a t s).
Proof.
  intros (a & t' & s' & -> & Hok & Hf & Hg) Hm Hb Hfew Hk. destruct (Hm _ _ _ eq_refl) as [Hi Hsize]. cbn [mbind outcome_bind].
  apply (call_trans t s F D a t' s'); [done..|]. rewrite held_length in Hfew.
  apply Hk; [done|by rewrite Hi|rewrite held_length; lia].
Qed.

Lemma read_rows_ok table_id kv_map t s F D kr_map : store_ok s (held t ++ F) D →
  (∀ p, p ∈ kv_map → bound s (table_id, p.1) p.2) →
  Z.of_nat (length (held t ++ F)) + Z.of_nat (length kv_map) < 2 ^ 62 →
  call_ok t s F D (read_rows t s table_id kv_map kr_map).
Proof.
  revert t s kr_map. induction kv_map as [|[key l] kv_map IH]; intros t s kr_map Hok Hb Hfew; [by apply call_same|].
  cbn [read_rows]. destruct (rws t !! (table_id, key)) as [e|] eqn:He.
  - assert (∀ kr, call_ok t s F D (read_rows t s table_id kv_map kr)) as Hrest.
    { intros kr. apply IH; [done|intros p Hp; apply Hb; by right|]. cbn [length] in Hfew. lia. }
    destruct (own_value Hok He) as [_ (v & Hv)]. unfold load_rec. rewrite Hv. simpl. destruct (rwt e); auto. by apply call_same.
  - eapply (scan_row t s F D table_id kv_map);
      [|apply read_absent_modest|intros p Hp; apply Hb; by right|done|intros [r|] t' s' Hok' Hb' Hfew'; [by apply IH|by apply call_same]].
    apply read_absent_ok; [done|lia|done|]. apply (Hb (key, l)). by left.
Qed.

Lemma update_rows_ok table_id n kv_map t s F D kr_map : schema !! table_id = Some n → store_ok s (held t ++ F) D →
  (∀ p, p ∈ kv_map → bound s (table_id, p.1) p.2) →
  Z.of_nat (length (held t ++ F)) + Z.of_nat (length kv_map) < 2 ^ 62 →
  call_ok t s F D (update_rows t s table_id n kv_map kr_map).
Proof.
  intros Hsz. revert t s kr_map. induction kv_map as [|[key l] kv_map IH]; intros t s kr_map Hok Hb Hfew; [by apply call_same|].
  cbn [update_rows]. destruct (rws t !! (table_id, key)) as [e|] eqn:He; [destruct (rwt e) eqn:Hrw|].
  - eapply (scan_row t s F D table_id kv_map);
      [|apply update_read_modest|intros p Hp; apply Hb; by right|done|intros [r|] t' s' Hok' Hb' Hfew'; [by apply IH|by apply call_same]].
    by apply update_read_ok.
  - apply IH; [done|intros p Hp; apply Hb; by right|]. cbn [length] in Hfew. lia.
  - apply IH; [done|intros p Hp; apply Hb; by right|]. cbn [length] in Hfew. lia.
  - by apply call_same.
  - eapply (scan_row t s F D table_id kv_map);
      [|apply update_absent_modest|intros p Hp; apply Hb; by right|done|intros [r|] t' s' Hok' Hb' Hfew'; [by apply IH|by apply call_same]].
    apply update_absent_ok; [done|lia|done|apply (Hb (key, l)); by left|done].
Qed.

Section scan_operations.
Context {t : tx} {s : store} {F : list entry} {D : list loc}.
Context (Hok : store_ok s (held t ++ F) D) (table_id lkey rkey count : Z) (Hl : word64 lkey) (Hr : word64 rkey).
Context (Hfew : Z.of_nat (length (held t ++ F)) +
  Z.of_nat (length (idx_get_kv_in_range (idx s) table_id lkey rkey count []).2) < 2 ^ 62).

Lemma range_bound : ∃ kv_map, idx_get_kv_in_range (idx s) table_id lkey rkey count [] = (OK, kv_map) ∧
  ∀ p, p ∈ kv_map → bound s (table_id, p.1) p.2.
Proof.
  destruct (range_result (idx s) table_id lkey rkey count (ok_index _ _ _ Hok) Hl Hr) as (all & [_ Hall] & ->).
  eexists. split; [done|]. intros [k l] Hin. assert ((k, l) ∈ all) as Hin'.
  { unfold limited in Hin. destruct (count =? -1); [done|]. by eapply subseteq_take. }
  apply Hall in Hin' as [Hk Hat]. destruct Hl, Hr. split; [split; simpl; lia|done].
Qed.

Lemma read_scan_ok kr_map : call_ok t s F D (read_scan t s table_id lkey rkey count false kr_map).
Proof.
  destruct range_bound as (kv_map & Heq & Hb). unfold read_scan. rewrite Heq in *. simpl.
  by apply (read_rows_ok table_id kv_map (add_table t table_id)).
Qed.

Lemma update_scan_ok n kr_map : schema !! table_id = Some n →
  call_ok t s F D (update_scan schema t s table_id lkey rkey count false kr_map).
Proof.
  intros Hsz. destruct range_bound as (kv_map & Heq & Hb). unfold update_scan, get_record_size. rewrite Heq, Hsz in *. simpl.
  by apply (update_rows_ok table_id n kv_map (add_table t table_id)).
Qed.
End scan_operations.
(** *** Commit and abort *)

Lemma quiet_mono s s' F F' : F' ⊆ F → quiet s s' F → quiet s s' F'.
Proof. intros HF [Hf Hv]. split; [|done]. intros x Hx. by apply Hf, HF. Qed.

Definition is_write (x : entry) : Prop := rwt x.2 ≠ READ.
#[local] Instance is_write_dec x : Decision (is_write x).
Proof. unfold is_write. apply _. Defined.

Lemma unlock_reads_ok order s F D : store_ok s (order ++ F) D → Z.of_nat (length (order ++ F)) < 2 ^ 62 →
  ∃ s', unlock_reads s order = Ok s' ∧ store_ok s' (filter is_write order ++ F) D ∧
    quiet s s' (filter is_write order ++ F) ∧ records s' = records s ∧ idx s' = idx s.
Proof.
  revert s F. induction order as [|[tk e] order IH]; intros s F Hok Hfew.
  - exists s. split_and!; try done. by eapply quiet_refl.
  - cbn [unlock_reads]. destruct (entry_value (tk, e) Hok) as (v & Hv & _); [set_solver|]. cbn [fst snd] in Hv.
    destruct (decide (rwt e = READ)) as [Hrw|Hrw].
    + rewrite filter_cons_False by (unfold is_write; simpl; tauto). unfold release. rewrite Hv. cbn [mbind outcome_bind deref].
      change (RWLock.unlock_shared (rwl v)) with (s64 (rwl v - 1)).
      cbn [app length] in Hfew. assert (store_ok (set_value s (val e) (mkValue (s64 (rwl v - 1)) (vrec v))) (order ++ F) D) as Hok1
        by (apply (release_shared (E := order ++ F) Hok Hv); [done|lia]).
      destruct (IH _ F Hok1) as (s' & -> & Hok' & Hq & Hr & Hi); [lia|]. exists s'. split_and!; [done|done| |done|done].
      eapply quiet_trans, Hq. eapply quiet_grow; [exact Hok| |done|done].
      intros x. rewrite !elem_of_app, elem_of_cons, list_elem_of_filter. tauto.
    + rewrite filter_cons_True by done. cbn [mbind outcome_bind].
      assert (order ++ (tk, e) :: F ≡ₚ ((tk, e) :: order) ++ F) as Hp by (by rewrite <- Permutation_middle).
      destruct (IH s ((tk, e) :: F)) as (s' & -> & Hok' & Hq & Hr & Hi).
      { by eapply store_ok_perm, Hok. } { by rewrite Hp. }
      assert (filter is_write order ++ (tk, e) :: F ≡ₚ ((tk, e) :: filter is_write order) ++ F) as Hp'
        by (by rewrite <- Permutation_middle).
      exists s'. split_and!; [done|by eapply store_ok_perm, Hok'| |done|done].
      eapply quiet_mono, Hq. intros x. by rewrite Hp'.
Qed.

(** The record an entry puts in place of the committed one. *)
Definition written s (e : ReadWriteElement) : option block := r ← rec e; records s !! r.

(** What processing an entry does: the others are undisturbed, its key gets
    [b] and the other keys keep their records. *)
Definition processed s s' E (tk : Z * Z) (b : option block) : Prop :=
  frame s s' E ∧ view s' tk = b ∧ ∀ tk', tk' ≠ tk → word64 tk'.2 → view s' tk' = view s tk'.

Section entry_steps.
Context {s : store} {E : list entry} {D : list loc} {tk : Z * Z} {e : ReadWriteElement} {v : Value}.
Context (Hok : store_ok s ((tk, e) :: E) D) (Hv : values s !! val e = Some v).

Lemma own_records r : vrec v = Some r ∨ rec e = Some r → ∃ b, records s !! r = Some b.
Proof.
  intros Hr. destruct (own_row Hok Hv) as [_ _ _ Ha _]. destruct (Ha r) as (b & Hb & _); [|eauto].
  apply elem_of_row_recs. destruct Hr; [by left|]. right. exists (tk, e). split; [by left|done].
Qed.

Lemma deallocate_own (s' : store) o : records s' = records s → (o = vrec v ∨ o = rec e) →
  ∃ recs', deallocate s' o = Ok (set_records s' recs') ∧ (∀ r, o ≠ Some r → recs' !! r = records s !! r) ∧
  recs' ⊆ records s.
Proof.
  intros Hs Ho. destruct o as [r|]; simpl.
  - destruct (own_records r) as [b Hb]; [destruct Ho; [by left|by right]|]. rewrite Hs, Hb. eexists. split; [done|].
    split; [|apply delete_subseteq]. intros r' Hne. rewrite lookup_delete_ne; [done|congruence].
  - exists (records s). split; [destruct s'; simpl in *; by subst|done].
Qed.

Lemma commit_write_ok : is_Some (rec e) → rwt e ≠ READ → ∃ s',
  (s1 ← release RWLock.unlock (set_value s (val e) (mkValue (rwl v) (rec e))) (val e);
   deallocate s1 (vrec v)) = Ok s' ∧ store_ok s' E D ∧ processed s s' E tk (written s e).
Proof.
  intros [r Hr] Hrw. destruct (own_written Hok Hv Hrw) as [Hlocked Halone].
  unfold release. simpl. rewrite lookup_insert_eq. simpl. rewrite Hlocked, Hr. change (RWLock.unlock (-1)) with 0.
  destruct (deallocate_own (set_value (set_value s (val e) (mkValue (-1) (Some r))) (val e) (mkValue 0 (Some r))) (vrec v))
    as (recs' & -> & Hrecs & Hsub); [done|by left|].
  unfold set_value, set_records. simpl. rewrite insert_insert_eq. eexists. split; [done|].
  assert (vrec v ≠ Some r) as Hne by (intros Hvr; by apply (own_distinct Hok Hv r)).
  assert (∀ r' b, records s !! r' = Some b → vrec v ≠ Some r' → rec e ≠ Some r' → recs' !! r' = Some b) as Hkeep
    by (intros; by rewrite Hrecs).
  unfold processed. split_and!.
  - apply (release_exclusive Hok Hv); [done|done|by right|]. intros r' b Hb [[= <-]|[? _]]; by rewrite Hrecs.
  - apply (own_frame Hok Hv Hrw); [|done|done]. intros l' Hl'. by rewrite lookup_insert_ne.
  - pose proof (own_bound Hok Hv) as [Hw Hb]. unfold view. simpl. rewrite Hb. simpl. rewrite lookup_insert_eq. simpl.
    unfold written. rewrite Hr. simpl. by rewrite Hrecs.
  - intros tk' Hne' Hw'. apply (own_view Hok Hv Hrw); [|done|done|done|done]. intros l' Hl'. by rewrite lookup_insert_ne.
Qed.

(** Taking the row out of the index, on commit of a delete or abort of an
    insert; [o] is the record freed. *)
Lemma retire_ok o : rwt e ≠ READ → (o = vrec v ∨ o = rec e) → ∃ s',
  deallocate (set_idx s (idx_remove (idx s) tk.1 tk.2).2) o = Ok s' ∧ values s' = values s ∧
  store_ok s' E (val e :: D) ∧ processed s s' E tk None.
Proof.
  intros Hrw Ho. destruct (deallocate_own (set_idx s (idx_remove (idx s) tk.1 tk.2).2) o) as (recs' & -> & Hrecs & Hsub); [done|done|].
  unfold set_records, set_idx. simpl. eexists. split; [done|].
  assert (∀ r' b, records s !! r' = Some b → vrec v ≠ Some r' → rec e ≠ Some r' → recs' !! r' = Some b) as Hkeep
    by (intros; rewrite Hrecs; [done|destruct Ho; congruence]).
  pose proof (own_bound Hok Hv) as [Hw Hb].
  destruct (remove_result (idx s) tk.1 tk.2 (ok_index _ _ _ Hok) Hw) as (i' & Hrem & _ & Hat). rewrite Hrem.
  unfold processed. split_and!.
  - done.
  - pose proof (retire_row Hok Hv recs' Hrw Hkeep) as Hret. by rewrite Hrem in Hret.
  - by apply (own_frame Hok Hv Hrw).
  - unfold view. simpl. rewrite Hat, decide_True by done. done.
  - intros tk' Hne' Hw'. apply (own_view Hok Hv Hrw); [done|done| |done|done]. intros tk2 Hw2 Hne2. simpl. rewrite Hat by done.
    rewrite decide_False; [done|]. intros [? ?]. apply Hne2. destruct tk, tk2. simpl in *. by subst.
Qed.

(** Abort of a write to a committed row. *)
Lemma undo_write_ok : rwt e ≠ READ → is_new e = false → ∃ s',
  (s1 ← deallocate s (rec e); release RWLock.unlock s1 (val e)) = Ok s' ∧ store_ok s' E D ∧
  processed s s' E tk (view s tk).
Proof.
  intros Hrw Hnew. destruct (own_written Hok Hv Hrw) as [Hlocked Halone].
  destruct (own_row Hok Hv) as [_ _ _ _ Hn]. rewrite Halone in Hn.
  assert (is_Some (vrec v)) as [r Hr].
  { destruct (vrec v); [done|]. destruct (proj1 Hn eq_refl) as (x & ->%list_elem_of_singleton & Hx). simpl in Hx. congruence. }
  destruct (deallocate_own s (rec e)) as (recs' & -> & Hrecs & Hsub); [done|by right|]. simpl.
  unfold release. simpl. rewrite Hv. simpl. rewrite Hlocked. change (RWLock.unlock (-1)) with 0. rewrite Hr.
  unfold set_value, set_records. simpl. eexists. split; [done|].
  assert (rec e ≠ Some r) as Hne by (by apply (own_distinct Hok Hv r)).
  assert (∀ r' b, records s !! r' = Some b → vrec v ≠ Some r' → rec e ≠ Some r' → recs' !! r' = Some b) as Hkeep
    by (intros; by rewrite Hrecs).
  unfold processed. split_and!.
  - apply (release_exclusive Hok Hv); [done|done|by left|]. intros r' b Hb [[= <-]|[_ ?]]; by rewrite Hrecs.
  - apply (own_frame Hok Hv Hrw); [|done|done]. intros l' Hl'. by rewrite lookup_insert_ne.
  - rewrite (view_bound s tk (val e) v (own_bound Hok Hv) Hv). pose proof (own_bound Hok Hv) as [Hw Hb].
    unfold view. simpl. rewrite Hb. simpl. rewrite lookup_insert_eq, Hr. simpl. by rewrite Hrecs.
  - intros tk' Hne' Hw'. apply (own_view Hok Hv Hrw); [|done|done|done|done]. intros l' Hl'. by rewrite lookup_insert_ne.
Qed.
End entry_steps.
Lemma collect_perm epoch g (l : loc) (G : list loc) : (collect epoch g l).*2 ++ G ≡ₚ l :: g.*2 ++ G.
Proof. unfold collect, GarbageCollector.collect. rewrite insert_ascending_perm. done. Qed.

Lemma written_frame s s1 E D x : store_ok s E D → x ∈ E → frame s s1 E → written s1 x.2 = written s x.2.
Proof.
  intros Hok Hx Hf. unfold written. destruct (rec x.2) as [r|] eqn:Hr; [|done]. simpl.
  destruct (entry_value x Hok Hx) as (u & Hu & [_ _ _ Ha _]).
  destruct (Ha r) as (b & Hb & _); [apply elem_of_row_recs; right; exists x; split; [by apply list_elem_of_filter|done]|].
  destruct (Hf x Hx) as (u1 & u2 & _ & _ & _ & Hkeep). rewrite Hb. apply Hkeep; [by right|done].
Qed.

(** The keys of [order] that are written get their local records. *)
Definition installs s s' (order : list entry) : Prop := ∀ tk, word64 tk.2 →
  (∀ e, (tk, e) ∈ order → rwt e ≠ READ → view s' tk = written s e) ∧
  ((∀ e, (tk, e) ∈ order → rwt e = READ) → view s' tk = view s tk).

Lemma installs_step s s1 s' tk e order E D : processed s s1 E tk (written s e) → rwt e ≠ READ → tk ∉ order.*1 →
  store_ok s ((tk, e) :: E) D → filter is_write order ⊆ E → installs s1 s' order → installs s s' ((tk, e) :: order).
Proof.
  intros (Hf & Hview & Hother) Hrw Hni Hok Hsub Hrest tk0 Hw0. destruct (Hrest tk0 Hw0) as [H1 H2].
  assert (tk0 = tk → view s' tk0 = view s1 tk0) as Hlast.
  { intros ->. apply H2. intros e' He'. exfalso. apply Hni. by apply (list_elem_of_fmap_2 fst _ _ He'). }
  split.
  - intros e0 [[= -> ->]|Hin]%elem_of_cons Hrw0; [by rewrite Hlast|]. rewrite (H1 e0 Hin Hrw0).
    assert ((tk0, e0) ∈ E) as HE by (apply Hsub; by apply list_elem_of_filter).
    unfold written. destruct (rec e0) as [r|] eqn:Hr; [|done]. simpl.
    destruct (entry_value (tk0, e0) Hok) as (u & Hu & [_ _ _ Ha _]); [by right|]. cbn [fst snd] in Hu, Ha.
    destruct (Ha r) as (b & Hb & _).
    { apply elem_of_row_recs. right. exists (tk0, e0). split; [|done]. apply list_elem_of_filter. split; [done|by right]. }
    destruct (Hf _ HE) as (u1 & u2 & _ & _ & _ & Hkeep). rewrite Hb. apply Hkeep; [by right|done].
  - intros Hreads. destruct (decide (tk0 = tk)) as [->|Hne].
    + exfalso. apply Hrw, Hreads. by left.
    + rewrite H2; [by apply Hother|]. intros e0 Hin. apply Hreads. by right.
Qed.

Lemma apply_writes_ok epoch order s F g G : store_ok s (filter is_write order ++ F) (g.*2 ++ G) → NoDup order.*1 →
  ∃ s' g', apply_writes epoch s g order = Ok (s', g') ∧ store_ok s' F (g'.*2 ++ G) ∧ frame s s' F ∧ installs s s' order.
Proof.
  revert s g. induction order as [|[tk e] order IH]; intros s g Hok Hnd.
  { exists s, g. split_and!; [done|done|by eapply frame_refl|]. intros tk Hw. split; [by intros e ?%not_elem_of_nil|done]. }
  csimpl in Hnd. apply NoDup_cons in Hnd as [Hni Hnd]. destruct (decide (rwt e = READ)) as [Hrw|Hrw].
  { rewrite filter_cons_False in Hok by (unfold is_write; simpl; tauto). destruct tk as [table_id key]. cbn [apply_writes].
    rewrite Hrw. destruct (IH s g Hok Hnd) as (s' & g' & -> & Hok' & Hf & Hinst). exists s', g'. split_and!; [done..|].
    intros tk0 Hw0. destruct (Hinst tk0 Hw0) as [H1 H2]. split.
    - intros e0 [[= -> ->]|Hin]%elem_of_cons Hrw0; [done|by apply H1].
    - intros Hreads. apply H2. intros e0 Hin. apply Hreads. by right. }
  rewrite filter_cons_True in Hok by done. simpl in Hok. set (E := filter is_write order ++ F) in *.
  destruct (entry_value (tk, e) Hok) as (v & Hv & [_ Hkeys _ _ _]); [by left|]. cbn [fst snd] in Hv, Hkeys.
  assert (entry_ok e) as Hent by (apply (Hkeys (tk, e)); apply list_elem_of_filter; split; [done|by left]).
  assert (∃ s1 g1, apply_writes epoch s g ((tk, e) :: order) = apply_writes epoch s1 g1 order ∧
    store_ok s1 E (g1.*2 ++ G) ∧ processed s s1 E tk (written s e)) as (s1 & g1 & -> & Hok1 & Hproc).
  { destruct tk as [table_id key]. cbn [apply_writes]. unfold entry_ok in Hent. destruct (rwt e) eqn:Hrwt; [done| | |].
    1, 2: rewrite Hv; cbn [mbind outcome_bind deref];
      destruct (commit_write_ok Hok Hv Hent) as (s1 & Hs1 & Hok1 & Hp); [congruence|];
      apply bind_Ok in Hs1 as (s0 & -> & Hs0); cbn [mbind outcome_bind]; rewrite Hs0; by exists s1, g.
    destruct (retire_ok Hok Hv (vrec v)) as (s1 & Hs1 & Hvs & Hok1 & Hp); [congruence|by left|].
    cbn [fst snd] in Hs1. destruct (idx_remove (idx s) table_id key) as [res i] eqn:Hrem. cbn [snd] in Hs1.
    unfold load_rec. cbn [set_idx values]. rewrite Hv. cbn [mbind outcome_bind deref]. rewrite Hs1.
    exists s1, (collect epoch g (val e)). split; [done|]. split; [by eapply store_ok_perm, Hok1; [|symmetry; apply collect_perm]|].
    unfold written. by rewrite Hent. }
  destruct (IH s1 g1 Hok1 Hnd) as (s' & g' & -> & Hok' & Hf & Hinst). exists s', g'. split_and!; [done|done| |].
  - apply (frame_trans s s1); [|done]. destruct Hproc as [Hf1 _]. intros x Hx. apply Hf1. set_solver.
  - eapply installs_step; [done|done|done|exact Hok|set_solver|done].
Qed.

Lemma undo_ok epoch order s F g G : store_ok s (order ++ F) (g.*2 ++ G) → Z.of_nat (length (order ++ F)) < 2 ^ 62 →
  ∃ s' g', undo epoch s g order = Ok (s', g') ∧ store_ok s' F (g'.*2 ++ G) ∧ quiet s s' F.
Proof.
  revert s g. induction order as [|[tk e] order IH]; intros s g Hok Hfew.
  { exists s, g. split_and!; [done|done|by eapply quiet_refl]. }
  cbn [app length] in Hok, Hfew. set (E := order ++ F) in *.
  destruct (entry_value (tk, e) Hok) as (v & Hv & [_ Hkeys _ _ Hn]); [by left|]. cbn [fst snd] in Hv, Hkeys, Hn.
  assert (entry_ok e) as Hent by (apply (Hkeys (tk, e)); apply list_elem_of_filter; split; [done|by left]).
  assert (∃ s1 g1, undo epoch s g ((tk, e) :: order) = undo epoch s1 g1 order ∧
    store_ok s1 E (g1.*2 ++ G) ∧ quiet s s1 E) as (s1 & g1 & -> & Hok1 & Hq).
  2: { destruct (IH s1 g1 Hok1) as (s' & g' & -> & Hok' & Hq'); [lia|]. exists s', g'. split_and!; [done|done|].
    eapply quiet_trans, Hq'. eapply quiet_mono, Hq. set_solver. }
  assert (∀ s1, processed s s1 E tk (view s tk) → quiet s s1 E) as Hquiet.
  { intros s1 (Hf & Hvw & Ho). split; [done|]. intros tk0 Hw0. destruct (decide (tk0 = tk)) as [->|]; [done|by apply Ho]. }
  destruct (decide (rwt e = READ)) as [Hrw|Hrw].
  { unfold entry_ok in Hent. rewrite Hrw in Hent. destruct Hent as [Hrec Hnew]. destruct tk as [table_id key].
    cbn [undo]. rewrite Hnew, Hrw. unfold release. rewrite Hv. cbn [mbind outcome_bind deref].
    eexists _, g. split; [done|]. split; [apply (release_shared Hok Hv); [done|lia]|].
    eapply quiet_grow; [exact Hok|set_solver|done|done]. }
  destruct (is_new e) eqn:Hnew.
  - destruct (retire_ok Hok Hv (rec e)) as (s1 & Hs1 & Hvs & Hok1 & Hp); [done|by right|].
    exists s1, (collect epoch g (val e)). split; [|split; [by eapply store_ok_perm, Hok1; [|symmetry; apply collect_perm]|]].
    + destruct tk as [table_id key]. cbn [undo]. rewrite Hnew. cbn [fst snd] in Hs1. unfold entry_ok in Hent.
      destruct (rwt e); [done| | |]; [rewrite Hs1..|rewrite Hent in Hs1; simpl in Hs1; injection Hs1 as <-]; done.
    + apply Hquiet. destruct Hp as (Hf & Hvw & Ho). split_and!; [done| |done]. rewrite Hvw.
      rewrite (view_bound s tk (val e) v (own_bound Hok Hv) Hv).
      assert (vrec v = None) as ->; [|done]. apply Hn. exists (tk, e). split; [|done]. apply list_elem_of_filter. split; [done|by left].
  - destruct (undo_write_ok Hok Hv Hrw Hnew) as (s1 & Hs1 & Hok1 & Hp). exists s1, g. split; [|split; [done|by apply Hquiet]].
    destruct tk as [table_id key]. cbn [undo]. rewrite Hnew. unfold entry_ok in Hent.
    destruct (rwt e) eqn:Hrwt; [done|rewrite Hs1; done|rewrite Hs1; done|]. rewrite Hent in Hs1. simpl in Hs1. rewrite Hs1. done.
Qed.
(** *** Reclamation and the whole transaction *)

Lemma free_dead s E D l : store_ok s E (l :: D) → is_Some (values s !! l) ∧
  store_ok (mkStore (delete l (values s)) (records s) (idx s)) E D ∧
  quiet s (mkStore (delete l (values s)) (records s) (idx s)) E.
Proof.
  intros Hok. pose proof Hok as [Hi Hdo Hd He Hr Hinj Hsep]. apply NoDup_cons in Hdo as [Hni Hdo].
  assert (∀ tk l', bound s tk l' → l' ≠ l) as Hne by (intros tk l' Hb ->; apply (Hr tk l Hb); by left).
  split; [|split].
  - destruct (Hd l) as (v & Hv & _); [by left|eauto].
  - split; simpl; [done|done| |done| |done|].
    + intros l' Hl'. destruct (Hd l') as (v & Hv & Hlock); [by right|]. exists v. rewrite lookup_delete_ne; [done|]. by intros ->.
    + intros tk l' Hb. destruct (Hr tk l' Hb) as (Hnd & v & Hv & Hrow). split; [set_solver|]. exists v.
      pose proof (Hne _ _ Hb). by rewrite lookup_delete_ne.
    + intros tk1 l1 u1 tk2 l2 u2 r Hb1 Hb2. pose proof (Hne _ _ Hb1). pose proof (Hne _ _ Hb2).
      rewrite !lookup_delete_ne by done. by apply (Hsep tk1 l1 u1 tk2 l2 u2 r).
  - split.
    + intros x Hx. destruct (entry_value x Hok Hx) as (u & Hu & _). exists u, u. simpl.
      rewrite lookup_delete_ne by (intros Heq; by apply (Hne _ _ (He x Hx))). auto.
    + intros tk Hw. unfold view. simpl. destruct (idx_at (idx s) tk.1 tk.2) as [l'|] eqn:Hl'; [|done]. simpl.
      rewrite lookup_delete_ne; [done|]. intros <-. by apply (Hne tk l (conj Hw Hl')).
Qed.

Lemma free_values_ok ls s E D : store_ok s E (ls ++ D) →
  ∃ s', free_values s ls = Ok s' ∧ store_ok s' E D ∧ quiet s s' E.
Proof.
  revert s. induction ls as [|l ls IH]; intros s Hok; [exists s; split_and!; [done|done|by eapply quiet_refl]|].
  destruct (free_dead s E (ls ++ D) l Hok) as ([v Hv] & Hok1 & Hq). cbn [free_values]. rewrite Hv.
  destruct (IH _ Hok1) as (s' & -> & Hok' & Hq'). exists s'. split_and!; [done|done|by eapply quiet_trans].
Qed.

Lemma remove_app (g : list (Z * loc)) e : (GarbageCollector.remove g e).1 ++ (GarbageCollector.remove g e).2 = g.
Proof. unfold GarbageCollector.remove. destruct (2 <=? e); [apply take_drop|done]. Qed.

(** A transaction ended by commit or abort, up to the next one of the
    worker, which begins in epoch [next]. *)
Definition finish_tx (next : Z) (t : tx) (s : store) : outcome (tx * store) :=
  '(t, s) ← destroy t s; Ok (mkTx next (tables t) (rws t) (gc_container t), s).
Definition commit_tx next t s order : outcome (tx * store) :=
  '(_, t, s) ← precommit t s order; finish_tx next t s.
Definition abort_tx next t s order : outcome (tx * store) :=
  '(t, s) ← abort t s order; finish_tx next t s.

Lemma finish_ok next t s F g G : store_ok s F (g.*2 ++ G) → gc_container t = g →
  ∃ t' s', finish_tx next t s = Ok (t', s') ∧ store_ok s' (held t' ++ F) ((gc_container t').*2 ++ G) ∧
    rws t' = ∅ ∧ quiet s s' F.
Proof.
  intros Hok Hg. unfold finish_tx, destroy. rewrite Hg. pose proof (remove_app g (starting_epoch t)) as Happ.
  destruct (GarbageCollector.remove g (starting_epoch t)) as [freed g']. cbn [fst snd] in Happ.
  destruct (free_values_ok freed.*2 s F (g'.*2 ++ G)) as (s' & -> & Hok' & Hq).
  { by rewrite app_assoc, <- fmap_app, Happ. }
  cbn [mbind outcome_bind]. eexists _, s'. split; [done|]. unfold held. cbn [rws gc_container]. rewrite map_to_list_empty. done.
Qed.

Lemma NoDup_order t order : order ≡ₚ held t → NoDup order.*1.
Proof. intros ->. apply NoDup_fst_map_to_list. Qed.

Lemma commit_ok next t s F G order : store_ok s (held t ++ F) ((gc_container t).*2 ++ G) →
  Z.of_nat (length (held t ++ F)) < 2 ^ 62 → order ≡ₚ held t →
  ∃ t' s', commit_tx next t s order = Ok (t', s') ∧ store_ok s' (held t' ++ F) ((gc_container t').*2 ++ G) ∧
    rws t' = ∅ ∧ frame s s' F ∧
    ∀ tk, word64 tk.2 → view s' tk = match rws t !! tk with
      | Some e => if decide (rwt e = READ) then view s tk else written s e
      | None => view s tk
      end.
Proof.
  intros Hok Hfew Ho. destruct (unlock_reads_ok order s F ((gc_container t).*2 ++ G)) as (s1 & Hs1 & Hok1 & Hq1 & Hr1 & Hi1).
  { eapply store_ok_perm, Hok; [by rewrite Ho|done]. } { by rewrite Ho. }
  destruct (apply_writes_ok (starting_epoch t) order s1 F (gc_container t) G Hok1 (NoDup_order t order Ho))
    as (s2 & g' & Hs2 & Hok2 & Hf2 & Hinst).
  destruct (finish_ok next (set_gc t g') s2 F g' G Hok2 eq_refl) as (t' & s' & Hs' & Hok' & Hrws & Hf' & Hv').
  exists t', s'. unfold commit_tx, precommit. rewrite Hs1. cbn [mbind outcome_bind]. rewrite Hs2. cbn [mbind outcome_bind].
  destruct Hq1 as [Hf1 Hv1]. split_and!; [done|done|done| |].
  - eapply frame_trans, frame_trans; [|exact Hf2|exact Hf']. intros x Hx. apply Hf1. set_solver.
  - intros tk Hw. rewrite Hv' by done. destruct (Hinst tk Hw) as [Hw1 Hw2].
    assert (∀ e, (tk, e) ∈ order ↔ rws t !! tk = Some e) as Hin by (intros e; rewrite Ho; unfold held; apply elem_of_map_to_list).
    destruct (rws t !! tk) as [e|] eqn:He; [destruct (decide (rwt e = READ)) as [Hrw|Hrw]|].
    + rewrite Hw2; [by apply Hv1|]. intros e' [= ->]%Hin. done.
    + rewrite (Hw1 e); [unfold written; by rewrite Hr1|by apply Hin|done].
    + rewrite Hw2; [by apply Hv1|]. by intros e' ?%Hin.
Qed.

Lemma abort_ok next t s F G order : store_ok s (held t ++ F) ((gc_container t).*2 ++ G) →
  Z.of_nat (length (held t ++ F)) < 2 ^ 62 → order ≡ₚ held t →
  ∃ t' s', abort_tx next t s order = Ok (t', s') ∧ store_ok s' (held t' ++ F) ((gc_container t').*2 ++ G) ∧
    rws t' = ∅ ∧ quiet s s' F.
Proof.
  intros Hok Hfew Ho. destruct (undo_ok (starting_epoch t) order s F (gc_container t) G) as (s1 & g1 & Hs1 & Hok1 & Hq1).
  { eapply store_ok_perm, Hok; [by rewrite Ho|done]. } { by rewrite Ho. }
  destruct (finish_ok next (mkTx (starting_epoch t) ∅ ∅ g1) s1 F g1 G Hok1 eq_refl) as (t' & s' & Hs' & Hok' & Hrws & Hq').
  exists t', s'. unfold abort_tx, abort. rewrite Hs1. cbn [mbind outcome_bind]. split_and!; [done..|by eapply quiet_trans].
Qed.
(** *** Workers and their calls *)

Record sys := mkSys { st : store; txs : list tx }.

Inductive call :=
| CRead (table_id key : Z) | CInsert (table_id key : Z) | CUpdate (table_id key : Z) | CUpsert (table_id key : Z)
| CRemove (table_id key : Z)
| CReadScan (table_id lkey rkey count : Z) | CUpdateScan (table_id lkey rkey count : Z)
(** The program writes [b] into its local record of a key. *)
| CStore (tk : Z * Z) (b : block)
| CCommit (next : Z) (order : list entry) | CAbort (next : Z) (order : list entry).

Definition state_of {A} (m : outcome (A * tx * store)) : outcome (tx * store) := '(_, t, s) ← m; Ok (t, s).

Definition store_record t s (tk : Z * Z) (b : block) : outcome (tx * store) :=
  e ← deref (rws t !! tk); r ← deref (rec e); b0 ← deref (records s !! r);
  _ ← assert_ (length b =? length b0)%nat;
  Ok (t, set_records s (<[r := b]> (records s))).

Definition perform_call (c : call) t s : outcome (tx * store) :=
  match c with
  | CRead table_id key => state_of (read t s table_id key)
  | CInsert table_id key => state_of (insert schema t s table_id key)
  | CUpdate table_id key => state_of (update schema t s table_id key)
  | CUpsert table_id key => state_of (upsert schema t s table_id key)
  | CRemove table_id key => state_of (remove t s table_id key)
  | CReadScan table_id lkey rkey count => state_of (read_scan t s table_id lkey rkey count false [])
  | CUpdateScan table_id lkey rkey count => state_of (update_scan schema t s table_id lkey rkey count false [])
  | CStore tk b => store_record t s tk b
  | CCommit next order => commit_tx next t s order
  | CAbort next order => abort_tx next t s order
  end.

Definition all_held (ts : list tx) : list entry := concat (held <$> ts).
Definition all_dead (ts : list tx) : list loc := concat ((λ t, (gc_container t).*2) <$> ts).

Definition scanned s (table_id lkey rkey count : Z) : Z :=
  Z.of_nat (length (idx_get_kv_in_range (idx s) table_id lkey rkey count []).2).

(** The calls of a program: 64-bit keys of tables of the schema, insertions
    whose next key exists and is not held by the transaction itself, and
    fewer than [2 ^ 62] entries in all. *)
Definition allowed (x : sys) t (c : call) : Prop :=
  let n := Z.of_nat (length (all_held (txs x))) in
  n < 2 ^ 62 ∧
  match c with
  | CRead _ key | CRemove _ key => word64 key
  | CUpdate table_id key => word64 key ∧ is_Some (schema !! table_id)
  | CInsert table_id key | CUpsert table_id key =>
      word64 key ∧ is_Some (schema !! table_id) ∧ next_free t (st x) table_id key
  | CReadScan table_id lkey rkey count =>
      word64 lkey ∧ word64 rkey ∧ n + scanned (st x) table_id lkey rkey count < 2 ^ 62
  | CUpdateScan table_id lkey rkey count =>
      word64 lkey ∧ word64 rkey ∧ is_Some (schema !! table_id) ∧ n + scanned (st x) table_id lkey rkey count < 2 ^ 62
  | CStore tk b => ∃ e r b0, rws t !! tk = Some e ∧ rec e = Some r ∧ records (st x) !! r = Some b0 ∧ length b = length b0
  | CCommit _ order | CAbort _ order => order ≡ₚ held t
  end.

(** What a call does to the committed database. *)
Definition effect (c : call) t s (tk : Z * Z) : option block :=
  match c with
  | CCommit _ _ =>
      match rws t !! tk with
      | Some e => if decide (rwt e = READ) then view s tk else written s e
      | None => view s tk
      end
  | _ => view s tk
  end.

Lemma store_record_ok t s F D tk b e r b0 : store_ok s (held t ++ F) D → rws t !! tk = Some e → rec e = Some r →
  records s !! r = Some b0 → length b = length b0 →
  store_record t s tk b = Ok (t, set_records s (<[r := b]> (records s))) ∧
  store_ok (set_records s (<[r := b]> (records s))) (held t ++ F) D ∧ quiet s (set_records s (<[r := b]> (records s))) F.
Proof.
  intros Hok He Hr Hb0 Hlen. split.
  { unfold store_record. rewrite He. simpl. rewrite Hr. simpl. rewrite Hb0. simpl. by rewrite Hlen, Nat.eqb_refl. }
  destruct (own_value Hok He) as [Hok' (v & Hv)]. destruct (own_entry_ok Hok He) as [Hent _].
  assert (rwt e ≠ READ) as Hrw by (intros Hrw; unfold entry_ok in Hent; rewrite Hrw in Hent; destruct Hent; congruence).
  destruct (own_written Hok' Hv Hrw) as [_ Halone].
  assert (∀ r' b', records s !! r' = Some b' → rec e ≠ Some r' → <[r := b]> (records s) !! r' = Some b') as Hkeep
    by (intros r' b' Hb' Hne; rewrite lookup_insert_ne; [done|congruence]).
  split.
  - eapply store_ok_perm; [symmetry; by apply held_split|done|].
    replace (set_records s _) with (mkStore (<[val e := v]> (values s)) (<[r := b]> (records s)) (idx s))
      by (unfold set_records; by rewrite insert_id).
    eapply (row_update s ((tk, e) :: _) _ D tk (val e) v); [done|by apply (own_bound Hok' Hv)|done|done| | |auto].
    + rewrite holders_cons, decide_True by done. destruct (own_row Hok' Hv) as [H1 H2 H3 H4 H5]. split; [done..| |done].
      intros r' Hr'. destruct (H4 r' Hr') as (b' & Hb' & Hsz). destruct (decide (r' = r)) as [->|Hne].
      * exists b. rewrite lookup_insert_eq. split; [done|]. congruence.
      * exists b'. rewrite lookup_insert_ne by done. done.
    + intros r' b' Hb' Hni. apply Hkeep; [done|]. intros Heq. apply Hni. rewrite holders_cons, decide_True by done.
      apply elem_of_row_recs. right. exists (tk, e). split; [by left|done].
  - split; [apply (own_frame Hok' Hv Hrw); [done|auto|set_solver]|]. intros tk' Hw.
    destruct (decide (tk' = tk)) as [->|Hne]; [|by apply (own_view Hok' Hv Hrw); [|auto|..]].
    rewrite !(view_bound _ tk (val e) v) by (done || by apply (own_bound Hok' Hv)).
    destruct (vrec v) as [r'|] eqn:Hr'; [|done]. simpl. rewrite lookup_insert_ne; [done|].
    intros ->. by apply (own_distinct Hok' Hv r').
Qed.

Lemma call_perform {A} t s F (G : list loc) (m : outcome (A * tx * store)) :
  call_ok t s F ((gc_container t).*2 ++ G) m → ∃ t' s', state_of m = Ok (t', s') ∧ store_ok s' (held t' ++ F) ((gc_container t').*2 ++ G) ∧
  frame s s' F ∧ ∀ tk, word64 tk.2 → view s' tk = view s tk.
Proof.
  intros (a & t' & s' & -> & Hok & [Hf Hv] & Hg). exists t', s'. unfold state_of. rewrite Hg. by split_and!.
Qed.

(** Every allowed call returns, keeps the invariant, leaves the others alone
    and has its effect on the database. *)
Lemma perform_call_ok (x : sys) t F G c : store_ok (st x) (held t ++ F) ((gc_container t).*2 ++ G) →
  all_held (txs x) ≡ₚ held t ++ F → allowed x t c →
  ∃ t' s', perform_call c t (st x) = Ok (t', s') ∧ store_ok s' (held t' ++ F) ((gc_container t').*2 ++ G) ∧
    frame (st x) s' F ∧ ∀ tk, word64 tk.2 → view s' tk = effect c t (st x) tk.
Proof.
  intros Hok Hperm [Hfew Hall]. rewrite Hperm in Hfew. destruct c as [tb k|tb k|tb k|tb k|tb k|tb l r cnt|tb l r cnt|tk b|nx o|nx o];
    cbn [perform_call effect]; try apply (call_perform t).
  - by apply read_ok.
  - destruct Hall as (Hw & [n Hn] & Hnf). by apply (insert_ok Hok tb k Hw n).
  - destruct Hall as (Hw & [n Hn]). by apply (update_ok Hok Hfew tb k Hw n).
  - destruct Hall as (Hw & [n Hn] & Hnf). by apply (upsert_ok Hok Hfew tb k Hw n).
  - by apply remove_ok.
  - destruct Hall as (Hl & Hr & Hs). rewrite Hperm in Hs. by apply read_scan_ok.
  - destruct Hall as (Hl & Hr & [n Hn] & Hs). rewrite Hperm in Hs. by apply (update_scan_ok Hok tb l r cnt Hl Hr Hs n).
  - destruct Hall as (e & rr & b0 & He & Hr & Hb0 & Hlen).
    destruct (store_record_ok t (st x) F _ tk b e rr b0 Hok He Hr Hb0 Hlen) as (-> & Hok' & Hf & Hv).
    eexists t, _. by split_and!.
  - destruct (commit_ok nx t (st x) F G o Hok Hfew Hall) as (t' & s' & -> & Hok' & _ & Hf & Hv). exists t', s'. by split_and!.
  - destruct (abort_ok nx t (st x) F G o Hok Hfew Hall) as (t' & s' & -> & Hok' & _ & Hf & Hv). exists t', s'. by split_and!.
Qed.
End nowait.

(** ** The guarantees of NoWait *)
Section nowait_properties.
Import NoWait.
Context `{HI : Index loc} `{HL : !IndexLaws loc} (schema : gmap Z nat).

(** The states reached from a loaded database, call by call, by any number of
    workers. *)
Inductive sys_reachable : sys → Prop :=
| sys_init s ts : store_ok schema s [] [] → (∀ t, t ∈ ts → rws t = ∅ ∧ gc_container t = []) →
    sys_reachable (mkSys s ts)
| sys_step x i t c t' s' : sys_reachable x → txs x !! i = Some t → allowed schema x t c →
    perform_call schema c t (st x) = Ok (t', s') → sys_reachable (mkSys s' (<[i := t']> (txs x))).

Lemma concat_split {A B} (f : A → list B) (l : list A) i x : l !! i = Some x →
  concat (f <$> l) ≡ₚ f x ++ concat (f <$> delete i l) ∧
  ∀ y, concat (f <$> <[i := y]> l) ≡ₚ f y ++ concat (f <$> delete i l).
Proof.
  intros Hi. assert (∀ y, concat (f <$> <[i := y]> l) ≡ₚ f y ++ concat (f <$> delete i l)) as Hy.
  { intros y. rewrite insert_take_drop, delete_take_drop by (by eapply lookup_lt_Some).
    rewrite !fmap_app, !concat_app. csimpl. by rewrite Permutation_app_swap_app. }
  split; [|done]. rewrite <- (list_insert_id l i x Hi) at 1. apply Hy.
Qed.

Lemma sys_ok x : sys_reachable x → store_ok schema (st x) (all_held (txs x)) (all_dead (txs x)).
Proof.
  induction 1 as [s ts Hok Hnew|x i t c t' s' Hr IH Hi Hc Hperf].
  - simpl. assert (all_held ts = [] ∧ all_dead ts = []) as [-> ->]; [|done]. clear -Hnew. unfold all_held, all_dead.
    induction ts as [|t ts IH]; [done|]. destruct (Hnew t) as [H1 H2]; [by left|]. csimpl. unfold held at 1.
    rewrite H1, H2, map_to_list_empty. apply IH. set_solver.
  - unfold all_held, all_dead in *. destruct (concat_split held _ _ _ Hi) as [HE HE'].
    destruct (concat_split (λ t, (gc_container t).*2) _ _ _ Hi) as [HD HD']. simpl.
    eapply store_ok_perm; [symmetry; apply HE'|symmetry; apply HD'|].
    destruct (perform_call_ok schema x t (concat (held <$> delete i (txs x)))
      (concat ((λ t, (gc_container t).*2) <$> delete i (txs x))) c) as (t2 & s2 & Heq & Hok & _);
      [by eapply store_ok_perm, IH|done|done|]. rewrite Heq in Hperf. by injection Hperf as <- <-.
Qed.

(** A call of worker [i] in a reachable state. *)
Lemma sys_call x i t c : sys_reachable x → txs x !! i = Some t → allowed schema x t c →
  ∃ t' s', perform_call schema c t (st x) = Ok (t', s') ∧ frame (st x) s' (all_held (delete i (txs x))) ∧
    ∀ tk, word64 tk.2 → view s' tk = effect c t (st x) tk.
Proof.
  intros Hr Hi Hc. pose proof (sys_ok x Hr) as Hok. unfold all_held, all_dead in Hok.
  destruct (concat_split held _ _ _ Hi) as [HE _], (concat_split (λ t, (gc_container t).*2) _ _ _ Hi) as [HD _].
  destruct (perform_call_ok schema x t (concat (held <$> delete i (txs x)))
    (concat ((λ t, (gc_container t).*2) <$> delete i (txs x))) c) as (t2 & s2 & Heq & _ & Hf & Hv);
    [by eapply store_ok_perm, Hok|done|done|]. exists t2, s2. done.
Qed.

Lemma other_held x i j t tk e : txs x !! j = Some t → i ≠ j → rws t !! tk = Some e →
  (tk, e) ∈ all_held (delete i (txs x)).
Proof.
  intros Hj Hne He. unfold all_held. apply list_elem_of_In, in_concat. exists (held t). split; apply list_elem_of_In.
  - apply list_elem_of_fmap_2. destruct (decide (j < i)%nat).
    + apply (list_elem_of_lookup_2 _ j). by rewrite list_lookup_delete_lt.
    + apply (list_elem_of_lookup_2 _ (pred j)). rewrite list_lookup_delete_ge by lia. by replace (S (pred j)) with j by lia.
  - unfold held. by apply elem_of_map_to_list.
Qed.

(** C26: Two-phase locking excludes conflicts and never misuses
    memory, provided that insertions and upserts have a next key in their table
    (the code asserts it) which the transaction itself does not hold
    ([next_free]; otherwise the insertion drops the lock it holds on that key,
    nowait.hpp:113, nowait_insert_drops_lock).  In every state the workers
    reach by any interleaving of such calls, two transactions that hold the
    same row both only read it, and every such call the program may make next
    returns: no null or freed record is used, none is freed twice, no lock word
    overflows. *)
Theorem nowait_safe (x : sys) (Hreach : sys_reachable x) :
  (∀ i j ti tj tki tkj ei ej, i ≠ j → txs x !! i = Some ti → txs x !! j = Some tj →
     rws ti !! tki = Some ei → rws tj !! tkj = Some ej → val ei = val ej → rwt ei = READ ∧ rwt ej = READ) ∧
  (∀ i t c, txs x !! i = Some t → allowed schema x t c → ∃ t' s', perform_call schema c t (st x) = Ok (t', s')).
Proof.
  split.
  - intros i j ti tj tki tkj ei ej Hne Hi Hj Hei Hej Hval. pose proof (sys_ok x Hreach) as Hok.
    destruct (concat_split held _ _ _ Hi) as [HE _]. fold (all_held (txs x)) in HE. fold (all_held (delete i (txs x))) in HE.
    rewrite (held_split ti tki ei) in HE by done. eapply store_ok_perm in Hok; [|exact HE|reflexivity].
    destruct (entry_value schema (tki, ei) Hok) as (u & Hu & [Hlock _ _ _ _]); [by left|]. cbn [snd] in Hlock.
    rewrite holders_cons, decide_True in Hlock by done. set (H := holders _ _) in Hlock.
    assert ((tkj, ej) ∈ H) as Hin.
    { apply list_elem_of_filter. split; [by symmetry|]. apply elem_of_app. right. by eapply other_held. }
    destruct Hlock as [(_ & y & Heq & _)|[_ Hall]].
    + injection Heq as _ Heq. rewrite Heq in Hin. by apply not_elem_of_nil in Hin.
    + split; [apply (Hall (tki, ei)); by left|apply (Hall (tkj, ej)); by right].
  - intros i t c Hi Hc. destruct (sys_call x i t c Hreach Hi Hc) as (t' & s' & Heq & _). eauto.
Qed.

(** C27: The committed database changes at commit points only.  The
    workers' insertions and upserts are before a next key which the inserting
    transaction does not hold itself ([next_free]; nowait.hpp:113 drops the lock
    of that key otherwise, nowait_insert_drops_lock).  In a state they reach a
    call leaves the record of every key as it was, unless it is a commit, which
    replaces the record of each key its transaction updated or inserted by
    the local record, removes the keys it deleted and touches no other; an
    abort restores everything. *)
Theorem nowait_database (x : sys) (i : nat) (t t' : tx) (c : call) (s' : store) (tk : Z * Z)
    (Hreach : sys_reachable x) (Hi : txs x !! i = Some t) (Hc : allowed schema x t c)
    (Hcall : perform_call schema c t (st x) = Ok (t', s')) (Hkey : word64 tk.2) :
  view s' tk = effect c t (st x) tk.
Proof.
  destruct (sys_call x i t c Hreach Hi Hc) as (t2 & s2 & Heq & _ & Hv). rewrite Heq in Hcall. injection Hcall as <- <-. by apply Hv.
Qed.

(** Reads are repeatable.  While a transaction holds a row, no call of
    another worker, commits included, changes the record it read or the
    bytes of its local copy. *)
Theorem nowait_repeatable_read (x : sys) (i j : nat) (ti tj t' : tx) (c : call) (s' : store) (tk : Z * Z)
    (e : ReadWriteElement) (Hreach : sys_reachable x) (Hne : i ≠ j) (Hi : txs x !! i = Some ti)
    (Hj : txs x !! j = Some tj) (He : rws tj !! tk = Some e) (Hc : allowed schema x ti c)
    (Hcall : perform_call schema c ti (st x) = Ok (t', s')) :
  ∃ u u', values (st x) !! val e = Some u ∧ values s' !! val e = Some u' ∧ vrec u' = vrec u ∧
    ∀ r b, vrec u = Some r ∨ rec e = Some r → records (st x) !! r = Some b → records s' !! r = Some b.
Proof.
  destruct (sys_call x i ti c Hreach Hi Hc) as (t2 & s2 & Heq & Hf & _). rewrite Heq in Hcall. injection Hcall as <- <-.
  apply (Hf (tk, e)). by eapply other_held.
Qed.

(** An insertion next to a row of its own loses the lock of that row.
    When the next key is in the read/write set, read by this transaction
    alone or written by it, the insertion succeeds and leaves the lock word
    of that row at 0 although the entry stays: any other transaction can now
    lock the row. *)
Theorem nowait_insert_drops_lock (t : tx) (s : store) (F : list entry) (D : list loc) (table_id key nk : Z) (nl : loc)
    (n : nat) (e : ReadWriteElement) (v : Value) (Hok : store_ok schema s (held t ++ F) D)
    (Habsent : rws t !! (table_id, key) = None) (Hkey : word64 key) (Hnew : idx_at (idx s) table_id key = None)
    (Hschema : schema !! table_id = Some n)
    (Hnext : (idx_get_next_kv (idx s) table_id key).2 = Some (nk, nl)) (He : rws t !! (table_id, nk) = Some e)
    (Hv : values s !! val e = Some v) (Hlock : rwt e = READ → rwl v = 1) :
  ∃ r t' s' v', insert schema t s table_id key = Ok (Some r, t', s') ∧ rws t' !! (table_id, nk) = Some e ∧
    values s' !! val e = Some v' ∧ RWLock.try_lock (rwl v') = (true, -1).
Proof.
  destruct (next_bound schema Hok table_id key Hkey nk nl Hnext) as (Hnext' & [Hw Hat] & Hlt).
  assert (nl = val e) as ->.
  { destruct (own_value schema Hok He) as [Hok' _]. destruct (own_bound schema Hok' Hv) as [_ Hb]. simpl in *. congruence. }
  unfold insert, get_record_size. rewrite Hschema. cbn [mbind outcome_bind rws add_table]. rewrite Habsent.
  destruct (find_cases (idx s) table_id key) as [[-> _]|(l & _ & ?)]; [|congruence]. rewrite Hnext'.
  cbn [deref mbind outcome_bind]. rewrite bind_assert by (destruct Hkey; lia).
  assert (∃ w, lock_next (add_table t table_id) s table_id nk (val e) = Ok (true, set_value s (val e) w) ∧ rwl w = -1)
    as (w & Hl & Hw1).
  { unfold lock_next. cbn [rws add_table]. rewrite He. destruct (decide (rwt e = READ)) as [Hrw|Hrw].
    - unfold try_. rewrite Hv. cbn [deref mbind outcome_bind]. unfold RWLock.try_lock_upgrade. rewrite (Hlock Hrw). simpl. eauto.
    - exists v. unfold set_value. rewrite insert_id by done. destruct (own_locked schema Hok He v Hv Hrw) as [? _]. by destruct s. }
  rewrite Hl. cbn [mbind outcome_bind]. unfold insert_new_record. cbn [values set_value idx].
  set (new := fresh (dom (<[val e := w]> (values s)))).
  assert (new ≠ val e) as Hne.
  { assert (new ∉ dom (<[val e := w]> (values s))) as Hf by apply is_fresh. rewrite dom_insert in Hf. set_solver. }
  destruct (insert_absent (idx s) table_id key new (ok_index _ _ _ _ Hok) Hkey Hnew) as (i' & -> & _).
  unfold release. cbn [values set_idx set_value]. rewrite lookup_insert_ne, lookup_insert_eq by done.
  cbn [deref mbind outcome_bind]. unfold aligned_allocate. rewrite Hw1.
  eexists _, _, _, (mkValue 0 (vrec w)). split; [reflexivity|]. split; [|split; [|done]].
  - cbn [rws put]. rewrite lookup_insert_ne by (intros [=]; lia). done.
  - cbn [values set_records set_value]. by rewrite lookup_insert_eq.
Qed.
End nowait_properties.

(** ** A concrete database: one table, two rows *)
Section nowait_example.
Import NoWait.

Definition nw_schema : gmap Z nat := {[1 := 1%nat]}.
Definition nw_store : store :=
  mkStore {[1%positive := mkValue 0 (Some 11%positive); 2%positive := mkValue 0 (Some 12%positive)]}
    {[11%positive := [Some 5]; 12%positive := [Some 6]]} two_rows.
Definition nw_tx : tx := mkTx 3 ∅ ∅ [].
Definition nw0 : sys := mkSys nw_store [nw_tx; nw_tx].

Lemma nw_store_ok : store_ok nw_schema nw_store [] [].
Proof.
  split; simpl.
  - apply two_rows_ok.
  - constructor.
  - by intros l ?%not_elem_of_nil.
  - by intros x ?%not_elem_of_nil.
  - intros [t k] l [Hw Hat]. simpl in *. split; [apply not_elem_of_nil|].
    destruct (two_rows_at t k l Hw Hat) as [(-> & -> & ->)|(-> & -> & ->)]; eexists; (split; [reflexivity|]);
      (split; simpl; [right; split; [done|by intros x ?%not_elem_of_nil]|by intros x ?%not_elem_of_nil|repeat constructor; set_solver| |split; [done|by intros (x & ?%not_elem_of_nil & _)]]);
      intros r ->%list_elem_of_singleton; eexists; (split; reflexivity).
  - intros [t k] [t' k'] l [Hw Hat] [Hw' Hat']. simpl in *.
    destruct (two_rows_at t k l Hw Hat) as [(-> & -> & ->)|(-> & -> & ->)], (two_rows_at t' k' _ Hw' Hat') as [(-> & -> & ?)|(-> & -> & ?)]; done.
  - intros [t k] l v [t' k'] l' v' r [Hw Hat] [Hw' Hat'] Hne. simpl in *.
    destruct (two_rows_at t k l Hw Hat) as [(-> & -> & ->)|(-> & -> & ->)], (two_rows_at t' k' l' Hw' Hat') as [(-> & -> & ->)|(-> & -> & ->)];
      try done; intros [= <-] [= <-] ->%list_elem_of_singleton ?%list_elem_of_singleton; done.
Qed.

Lemma nw0_reachable : sys_reachable nw_schema nw0.
Proof. apply sys_init; [apply nw_store_ok|]. intros t Ht. assert (t = nw_tx) as -> by set_solver. done. Qed.

(** Worker 0 updates key 10; then worker 1 reads key 20. *)
Definition after_call (c : call) (i : nat) (x : sys) : sys :=
  match txs x !! i with
  | Some t => match perform_call nw_schema c t (st x) with Ok (t', s') => mkSys s' (<[i := t']> (txs x)) | _ => x end
  | None => x
  end.
Definition nw1 : sys := after_call (CUpdate 1 10) 0 nw0.
Definition nw2 : sys := after_call (CRead 1 20) 1 nw1.
Definition nw_tx0 : tx := default nw_tx (txs nw2 !! 0%nat).
Definition nw_tx1 : tx := default nw_tx (txs nw2 !! 1%nat).

Lemma after_call_reachable c i x t : sys_reachable nw_schema x → txs x !! i = Some t → allowed nw_schema x t c →
  sys_reachable nw_schema (after_call c i x).
Proof.
  intros Hr Hi Hc. unfold after_call. rewrite Hi. destruct (sys_call nw_schema x i t c Hr Hi Hc) as (t' & s' & Heq & _).
  rewrite Heq. by eapply sys_step.
Qed.

Lemma nw2_reachable : sys_reachable nw_schema nw2.
Proof.
  apply after_call_reachable with (t := nw_tx); [|by_vm|].
  - apply after_call_reachable with (t := nw_tx); [apply nw0_reachable|reflexivity|].
    split; [by_vm|]. split; [split; lia|by eexists].
  - split; [by_vm|]. split; lia.
Qed.

Lemma nowait_safe_witness :
  (rwt (default (mkElem None READ false 1%positive) (rws nw_tx0 !! (1, 10))) = UPDATE) ∧
  ∃ t' s', perform_call nw_schema (CUpdate 1 20) nw_tx0 (st nw2) = Ok (t', s').
Proof.
  split; [by_vm|]. apply (nowait_safe nw_schema nw2 nw2_reachable) with (i := 0%nat); [by_vm|].
  split; [by_vm|]. split; [split; lia|by eexists].
Defined.

Definition nw_commit : call := CCommit 4 (held nw_tx0).
Definition nw3 : tx * store :=
  match perform_call nw_schema nw_commit nw_tx0 (st nw2) with Ok p => p | _ => (nw_tx, nw_store) end.

Lemma nw_commit_allowed : allowed nw_schema nw2 nw_tx0 nw_commit.
Proof. split; [by_vm|]. exact (Permutation_refl (held nw_tx0)). Qed.

Lemma nw3_call : perform_call nw_schema nw_commit nw_tx0 (st nw2) = Ok (nw3.1, nw3.2).
Proof.
  destruct (sys_call nw_schema nw2 0 nw_tx0 nw_commit nw2_reachable) as (t' & s' & Heq & _);
    [by_vm|apply nw_commit_allowed|]. unfold nw3. by rewrite Heq.
Qed.

Lemma nowait_database_witness : view nw3.2 (1, 10) = effect nw_commit nw_tx0 (st nw2) (1, 10) ∧
  view nw3.2 (1, 10) = Some [Some 5].
Proof.
  split; [|by_vm]. apply (nowait_database nw_schema nw2 0 nw_tx0 nw3.1 nw_commit nw3.2 (1, 10) nw2_reachable);
    [by_vm|apply nw_commit_allowed|apply nw3_call|split; simpl; lia].
Defined.

Lemma nowait_repeatable_read_witness : ∃ u u', values (st nw2) !! 2%positive = Some u ∧
  values nw3.2 !! 2%positive = Some u' ∧ vrec u' = vrec u ∧
  ∀ r b, vrec u = Some r ∨ None = Some r → records (st nw2) !! r = Some b → records nw3.2 !! r = Some b.
Proof.
  apply (nowait_repeatable_read nw_schema nw2 0 1 nw_tx0 nw_tx1 nw3.1 nw_commit nw3.2 (1, 20)
    (mkElem None READ false 2%positive) nw2_reachable);
    [lia|by_vm|by_vm|by_vm|apply nw_commit_allowed|apply nw3_call].
Defined.

Lemma nowait_insert_drops_lock_witness : ∃ r t' s' v', insert nw_schema nw_tx1 (st nw2) 1 15 = Ok (Some r, t', s') ∧
  rws t' !! (1, 20) = Some (mkElem None READ false 2%positive) ∧ values s' !! 2%positive = Some v' ∧
  RWLock.try_lock (rwl v') = (true, -1).
Proof.
  apply (nowait_insert_drops_lock nw_schema nw_tx1 (st nw2) (held nw_tx0) [] 1 15 20 2%positive 1
    (mkElem None READ false 2%positive) (mkValue 1 (Some 12%positive)));
    [|by_vm|split; lia|by_vm..|done].
  eapply store_ok_perm, (sys_ok nw_schema nw2 nw2_reachable); [|done]. change (all_held (txs nw2)) with (held nw_tx0 ++ held nw_tx1 ++ []).
  rewrite app_nil_r. apply Permutation_app_comm.
Defined.
End nowait_example.
