(* ===== verification/Memory.v ===== *)
(** * Record memory

    protocols/common/memory_allocator.hpp and the use the protocols make of
    it: blocks of bytes that are allocated with indeterminate content, copied
    with [memcpy] and freed.  A block that is not live cannot be used.  The
    record sizes come from protocols/common/schema.hpp. *)
From S2P Require Import Prelude Versions.

Module Memory.

(** A block of record memory; an indeterminate byte is [None]. *)
Abbreviation block := (list (option Z)).
Abbreviation heap := (gmap loc block).

(** [MemoryAllocator::aligned_allocate]. *)
Definition aligned_allocate (m : heap) (size : nat) : loc * heap :=
  let r := fresh (dom m) in (r, <[r := replicate size None]> m).

(** [MemoryAllocator::deallocate]; freeing [nullptr] does nothing. *)
Definition deallocate (m : heap) (r : Ptr) : outcome heap :=
  match r with
  | None => Ok m
  | Some r => match m !! r with Some _ => Ok (delete r m) | None => Stuck end
  end.

Definition memcpy (m : heap) (dst : loc) (src : Ptr) (n : nat) : outcome heap :=
  src ← deref src; from ← deref (m !! src); to ← deref (m !! dst);
  _ ← assert_ ((n <=? length from)%nat && (n <=? length to)%nat);
  Ok (<[dst := take n from ++ drop n to]> m).

(** [Schema::get_record_size]: [unordered_map::at] throws. *)
Definition get_record_size (schema : gmap Z nat) (table_id : Z) : outcome nat :=
  match schema !! table_id with Some n => Ok n | None => Throw "unordered_map::at" end.

End Memory.

Section memory.
Import Memory.
Implicit Types m : heap.

Lemma allocate_fresh m : m !! fresh (dom m) = None.
Proof. apply not_elem_of_dom, is_fresh. Qed.

(** Copying a whole block into another of its size. *)
Lemma memcpy_block m dst src b c : m !! src = Some b → m !! dst = Some c → length c = length b →
  memcpy m dst (Some src) (length b) = Ok (<[dst := b]> m).
Proof.
  intros Hs Hd Hlen. unfold memcpy. simpl. rewrite Hs, Hd. simpl. rewrite Hlen, Nat.leb_refl. simpl.
  by rewrite firstn_all, drop_ge, app_nil_r by lia.
Qed.

(** A block allocated and freed again leaves no trace. *)
Lemma deallocate_fresh m r b : m !! r = None → deallocate (<[r := b]> m) (Some r) = Ok m.
Proof. intros Hr. simpl. by rewrite lookup_insert_eq, delete_insert_id. Qed.

End memory.

(** ** Several blocks freed *)
Definition drop_recs {A} (m : gmap loc A) (D : list loc) : gmap loc A := foldl (λ m r, delete r m) m D.

Lemma lookup_drop_recs {A} (m : gmap loc A) D r : drop_recs m D !! r = if decide (r ∈ D) then None else m !! r.
Proof.
  revert m. induction D as [|d D IH]; intros m; [done|]. simpl. rewrite IH. clear IH.
  destruct (decide (r ∈ D)); [by rewrite decide_True by by right|].
  destruct (decide (r = d)) as [->|]; [by rewrite lookup_delete_eq, decide_True by left|].
  rewrite lookup_delete_ne by done. by rewrite decide_False by (by intros [?|?]%elem_of_cons).
Qed.

Lemma free_all_ok {A} (m : gmap loc A) (F : list (Z * loc)) : NoDup F.*2 → (∀ l, l ∈ F.*2 → is_Some (m !! l)) →
  foldl (λ m p, m ← m; match m !! p.2 with Some _ => Ok (delete p.2 m) | None => Stuck end) (Ok m) F = Ok (drop_recs m F.*2).
Proof.
  revert m. induction F as [|[n l] F IH]; intros m Hnd Hall; [done|]. csimpl in *. apply NoDup_cons in Hnd as [Hni Hnd].
  destruct (Hall l) as [c Hc]; [by left|]. simpl. rewrite Hc. apply IH; [done|]. intros l' Hl'. rewrite lookup_delete_ne; [apply Hall; by right|].
  by intros ->.
Qed.
