(* ===== verification/Silo.v ===== *)
(** * protocols/silo: optimistic concurrency control

    [Silo<Index>]: transactions read without locking, keep their writes in
    local records and validate at commit: the write set is locked in order,
    the versions that were read and the leaves that were scanned are checked,
    then the records are installed under a new version.  [Silo] holds the
    operations; the second half breaks [precommit], [abort] and the
    destructor into the steps between which other threads run.

    A call that spins on a locked record is [Wait]; the loops that wait for a
    consistent pair of record and version are studied in [SiloLoops]. *)
From stdpp Require Import sorting.
From S2P Require Import Prelude Versions BitFields Epoch Index Memory.

Module Silo.
Import Memory.

(** [TidWord]: the fields of the 64-bit word. *)
Record TidWord := mkTid { lock : bool; latest : bool; absent : bool; tid : Z; epoch : Z }.
#[export] Instance TidWord_eq_dec : EqDecision TidWord.
Proof. solve_decision. Defined.

(** The word, with the layout of the union. *)
Definition obj (w : TidWord) : Z :=
  set_field TidWord.epoch (epoch w) (set_field TidWord.tid (tid w)
    (set_field TidWord.absent (Z.b2z (absent w)) (set_field TidWord.latest (Z.b2z (latest w))
      (set_field TidWord.lock (Z.b2z (lock w)) 0)))).

Definition set_lock (w : TidWord) (b : bool) : TidWord := mkTid b (latest w) (absent w) (tid w) (epoch w).

Definition is_same (lhs rhs : TidWord) : bool := obj lhs =? obj rhs.
Definition is_readable (w : TidWord) : bool := negb (absent w) && latest w.
Definition is_valid (current expected : TidWord) : bool :=
  (epoch current =? epoch expected) && (tid current =? tid expected) && is_readable current.

Inductive ReadWriteType := READ | UPDATE | INSERT | DELETE.
#[export] Instance ReadWriteType_eq_dec : EqDecision ReadWriteType.
Proof. solve_decision. Defined.

Record ReadWriteElement := mkElem { rec : Ptr; tw : TidWord; rwt : ReadWriteType; is_new : bool; val : loc }.

(** [struct Value]. *)
Record Value := mkValue { tidword : TidWord; vrec : Ptr }.

(** What [GarbageCollector::collect] is given: a record or a value. *)
Inductive garbage := GRec (r : Ptr) | GVal (l : loc).
#[export] Instance garbage_eq_dec : EqDecision garbage.
Proof. solve_decision. Defined.

#[local] Existing Instance node_index.

Section protocol.
Context `{HI : NodeIndex loc}.
(** [Schema]: the record size of each table. *)
Context (schema : gmap Z nat).

(** Shared memory: the values, the records, the index and the epoch. *)
Record store := mkStore {
  values : gmap loc Value; records : heap; idx : index (V := loc); global_epoch : Z
}.

(** A transaction.  The read/write sets of the tables are one map over
    (table, key); the write set holds the keys of each table in the order
    they were added; [ns] holds the node maps; [gc_container] belongs to the
    thread.  [seen] is not in the source: the record each first access found
    and its content. *)
Record tx := mkTx {
  starting_epoch : Z; tables : gset Z; rws : gmap (Z * Z) ReadWriteElement; ws : gmap Z (list Z);
  ns : gmap Z MasstreeIndexes.NodeMap; gc_container : list (Z * garbage); seen : gmap (Z * Z) (loc * block)
}.

Definition set_value (s : store) (l : loc) (v : Value) : store :=
  mkStore (<[l := v]> (values s)) (records s) (idx s) (global_epoch s).
Definition set_records (s : store) (m : heap) : store := mkStore (values s) m (idx s) (global_epoch s).
Definition set_idx (s : store) (i : index (V := loc)) : store := mkStore (values s) (records s) i (global_epoch s).

Definition add_table (t : tx) (table_id : Z) : tx :=
  mkTx (starting_epoch t) ({[table_id]} ∪ tables t) (rws t) (ws t) (ns t) (gc_container t) (seen t).
Definition put (t : tx) (k : Z * Z) (e : ReadWriteElement) : tx :=
  mkTx (starting_epoch t) (tables t) (<[k := e]> (rws t)) (ws t) (ns t) (gc_container t) (seen t).
Definition write_keys (t : tx) (table_id : Z) : list Z := default [] (ws t !! table_id).
Definition set_writes (t : tx) (table_id : Z) (keys : list Z) : tx :=
  mkTx (starting_epoch t) (tables t) (rws t) (<[table_id := keys]> (ws t)) (ns t) (gc_container t) (seen t).
(** [w_table.emplace_back(key, iter)]. *)
Definition push_write (t : tx) (k : Z * Z) : tx := set_writes t k.1 (write_keys t k.1 ++ [k.2]).
Definition get_nodemap (t : tx) (table_id : Z) : MasstreeIndexes.NodeMap := default ∅ (ns t !! table_id).
Definition set_nodemap (t : tx) (table_id : Z) (nm : MasstreeIndexes.NodeMap) : tx :=
  mkTx (starting_epoch t) (tables t) (rws t) (ws t) (<[table_id := nm]> (ns t)) (gc_container t) (seen t).
Definition set_gc (t : tx) (g : list (Z * garbage)) : tx :=
  mkTx (starting_epoch t) (tables t) (rws t) (ws t) (ns t) g (seen t).

(** What the first access to a row finds is remembered in [seen]. *)
Definition observe (t : tx) (s : store) (k : Z * Z) (r : Ptr) : tx :=
  match r ≫= λ r, (λ b, (r, b)) <$> records s !! r with
  | Some rb => mkTx (starting_epoch t) (tables t) (rws t) (ws t) (ns t) (gc_container t) (<[k := rb]> (seen t))
  | None => t
  end.

(** ** Access to a value *)

(** The record and the version of an unlocked value. *)
Definition get_record_pointer (s : store) (l : loc) : outcome (Ptr * TidWord) :=
  v ← deref (values s !! l);
  if lock (tidword v) then Wait else Ok (vrec v, tidword v).

(** The record is copied into [rec]; a value without record is not. *)
Definition copy_record (s : store) (l : loc) (rec : Ptr) (rec_size : nat) : outcome (TidWord * store) :=
  match rec with
  | None => Throw "memory not allocated"
  | Some r =>
      v ← deref (values s !! l);
      if lock (tidword v) then Wait else
      m ← (if vrec v is Some _ then memcpy (records s) r (vrec v) rec_size else Ok (records s));
      Ok (tidword v, set_records s m)
  end.

Definition is_tidword_latest (s : store) (l : loc) (current : TidWord) : outcome bool :=
  '(_, tw) ← get_record_pointer s l; Ok (is_same tw current).

Definition allocate (s : store) (size : nat) : loc * store :=
  let '(r, m) := aligned_allocate (records s) size in (r, set_records s m).
Definition free (s : store) (r : Ptr) : outcome store := m ← deallocate (records s) r; Ok (set_records s m).

(** ** The operations *)

(** A row not in the read/write set is read; [None] when it is not
    readable. *)
Definition read_absent (t : tx) (s : store) (k : Z * Z) (val : loc) : outcome (option Ptr * tx) :=
  '(r, tw) ← get_record_pointer s val;
  if is_readable tw then Ok (Some r, put (observe t s k r) k (mkElem None tw READ false val))
  else Ok (None, t).

(** A row in the read set is read again; [None] when it has changed. *)
Definition read_again (s : store) (e : ReadWriteElement) : outcome (option Ptr) :=
  '(r, tw_) ← get_record_pointer s (val e); Ok (if is_same tw_ (tw e) then Some r else None).

(** A row in the write set: the local record while the version is the
    latest. *)
Definition read_own (s : store) (e : ReadWriteElement) : outcome (option Ptr) :=
  b ← is_tidword_latest s (val e) (tw e); Ok (if b : bool then Some (rec e) else None).

Definition read (t : tx) (s : store) (table_id key : Z) : outcome (Ptr * tx * store) :=
  let t := add_table t table_id in
  match rws t !! (table_id, key) with
  | None =>
      let '(res, val, nm) := idx_find_and_note (idx s) table_id key (get_nodemap t table_id) in
      let t := set_nodemap t table_id nm in
      match res with
      | NOT_FOUND => Ok (None, t, s)
      | _ => val ← deref val; '(r, t) ← read_absent t s (table_id, key) val; Ok (default None r, t, s)
      end
  | Some e =>
      match rwt e with
      | READ => r ← read_again s e; Ok (default None r, t, s)
      | UPDATE | INSERT => r ← read_own s e; Ok (default None r, t, s)
      | DELETE => Ok (None, t, s)
      end
  end.

(** A new value, absent and without a record, enters the index; the local
    record is returned unless a leaf changed. *)
Definition insert_new (t : tx) (s : store) (table_id key : Z) (record_size : nat) : outcome (Ptr * tx * store) :=
  let new_val := fresh (dom (values s)) in
  let new_tw := mkTid false true true 0 0 in
  let s := set_value s new_val (mkValue new_tw None) in
  let '(res, nm, i) := idx_insert_and_note (idx s) table_id key new_val (get_nodemap t table_id) in
  let t := set_nodemap t table_id nm in
  let s := set_idx s i in
  match res with
  | NOT_INSERTED => Ok (None, t, mkStore (delete new_val (values s)) (records s) (idx s) (global_epoch s))
  | _ =>
      let '(r, s) := allocate s record_size in
      let t := push_write (put t (table_id, key) (mkElem (Some r) new_tw INSERT true new_val)) (table_id, key) in
      Ok (match res with BAD_INSERT => None | _ => Some r end, t, s)
  end.

(** A deleted entry becomes an update with a new local record. *)
Definition revive (t : tx) (s : store) (k : Z * Z) (e : ReadWriteElement) (record_size : nat) :
    outcome (Ptr * tx * store) :=
  _ ← assert_ (bool_decide (rec e = None));
  b ← is_tidword_latest s (val e) (tw e);
  if b : bool then
    let '(r, s) := allocate s record_size in
    Ok (Some r, put t k (mkElem (Some r) (tw e) UPDATE (is_new e) (val e)), s)
  else Ok (None, t, s).

Definition insert (t : tx) (s : store) (table_id key : Z) : outcome (Ptr * tx * store) :=
  record_size ← get_record_size schema table_id;
  let t := add_table t table_id in
  match rws t !! (table_id, key) with
  | None =>
      match idx_find (idx s) table_id key with
      | (OK, _) => Ok (None, t, s)
      | _ => insert_new t s table_id key record_size
      end
  | Some e =>
      match rwt e with
      | READ | UPDATE | INSERT => Ok (None, t, s)
      | DELETE => revive t s (table_id, key) e record_size
      end
  end.

(** A row not in the read/write set is copied into a local record; [None]
    when it is not readable. *)
Definition update_absent (t : tx) (s : store) (k : Z * Z) (val : loc) (type : ReadWriteType) (record_size : nat) :
    outcome (Ptr * tx * store) :=
  let '(r, s) := allocate s record_size in
  '(tw, s) ← copy_record s val (Some r) record_size;
  if is_readable tw then
    v ← deref (values s !! val);
    Ok (Some r, push_write (put (observe t s k (vrec v)) k (mkElem (Some r) tw type false val)) k, s)
  else s ← free s (Some r); Ok (None, t, s).

(** A row in the read set is copied; [None] when it has changed. *)
Definition update_read (t : tx) (s : store) (k : Z * Z) (e : ReadWriteElement) (record_size : nat) :
    outcome (Ptr * tx * store) :=
  _ ← assert_ (bool_decide (rec e = None));
  let '(r, s) := allocate s record_size in
  '(tw_, s) ← copy_record s (val e) (Some r) record_size;
  if is_same tw_ (tw e) then
    Ok (Some r, push_write (put t k (mkElem (Some r) (tw e) UPDATE (is_new e) (val e))) k, s)
  else s ← free s (Some r); Ok (None, t, s).

Definition update (t : tx) (s : store) (table_id key : Z) : outcome (Ptr * tx * store) :=
  record_size ← get_record_size schema table_id;
  let t := add_table t table_id in
  match rws t !! (table_id, key) with
  | None =>
      match idx_find (idx s) table_id key with
      | (NOT_FOUND, _) => Ok (None, t, s)
      | (_, val) => val ← deref val; update_absent t s (table_id, key) val UPDATE record_size
      end
  | Some e =>
      match rwt e with
      | READ => update_read t s (table_id, key) e record_size
      | UPDATE | INSERT => r ← read_own s e; Ok (default None r, t, s)
      | DELETE => Ok (None, t, s)
      end
  end.

(** [write] and [upsert] differ in the type of the entry for a row found in
    the index: INSERT is not validated. *)
Definition write_or_upsert (found : ReadWriteType) (t : tx) (s : store) (table_id key : Z) :
    outcome (Ptr * tx * store) :=
  record_size ← get_record_size schema table_id;
  let t := add_table t table_id in
  match rws t !! (table_id, key) with
  | None =>
      match idx_find (idx s) table_id key with
      | (NOT_FOUND, _) => insert_new t s table_id key record_size
      | (OK, val) => val ← deref val; update_absent t s (table_id, key) val found record_size
      | _ => Throw "invalid state"
      end
  | Some e =>
      match rwt e with
      | READ => update_read t s (table_id, key) e record_size
      | UPDATE | INSERT => r ← read_own s e; Ok (default None r, t, s)
      | DELETE => revive t s (table_id, key) e record_size
      end
  end.
Definition write := write_or_upsert INSERT.
Definition upsert := write_or_upsert UPDATE.

(** [kr_map] is filled in the order of the keys; a row that is unreadable,
    has changed or was deleted ends the scan with false. *)
Fixpoint read_rows (t : tx) (s : store) (table_id : Z) (kv_map : list (Z * loc)) (kr_map : list (Z * Ptr)) :
    outcome (bool * list (Z * Ptr) * tx * store) :=
  match kv_map with
  | [] => Ok (true, kr_map, t, s)
  | (key, val_) :: kv_map =>
      '(r, t) ← match rws t !! (table_id, key) with
        | None => read_absent t s (table_id, key) val_
        | Some e =>
            match rwt e with
            | READ => r ← read_again s e; Ok (r, t)
            | UPDATE | INSERT => r ← read_own s e; Ok (r, t)
            | DELETE => Ok (None, t)
            end
        end;
      match r with
      | Some r => read_rows t s table_id kv_map (MasstreeIndexes.map_emplace key r kr_map)
      | None => Ok (false, kr_map, t, s)
      end
  end.

(** The range of a scan in either direction, with its leaves noted. *)
Definition scan_range (t : tx) (s : store) (table_id lkey rkey count : Z) (reverse : bool) :
    Result * list (Z * loc) * MasstreeIndexes.NodeMap :=
  (if reverse then idx_get_kv_in_rev_range_and_note else idx_get_kv_in_range_and_note)
    (idx s) table_id lkey rkey count [] (get_nodemap t table_id).

Definition read_scan (t : tx) (s : store) (table_id lkey rkey count : Z) (reverse : bool) (kr_map : list (Z * Ptr)) :
    outcome (bool * list (Z * Ptr) * tx * store) :=
  let t := add_table t table_id in
  let '(res, kv_map, nm) := scan_range t s table_id lkey rkey count reverse in
  let t := set_nodemap t table_id nm in
  match res with
  | BAD_SCAN => Ok (false, kr_map, t, s)
  | _ => read_rows t s table_id kv_map kr_map
  end.

Fixpoint update_rows (t : tx) (s : store) (table_id : Z) (record_size : nat) (kv_map : list (Z * loc))
    (kr_map : list (Z * Ptr)) : outcome (bool * list (Z * Ptr) * tx * store) :=
  match kv_map with
  | [] => Ok (true, kr_map, t, s)
  | (key, val_) :: kv_map =>
      '(r, t, s) ← match rws t !! (table_id, key) with
        | None => '(r, t, s) ← update_absent t s (table_id, key) val_ UPDATE record_size; Ok (option_map Some r, t, s)
        | Some e =>
            match rwt e with
            | READ => '(r, t, s) ← update_read t s (table_id, key) e record_size; Ok (option_map Some r, t, s)
            | UPDATE | INSERT => r ← read_own s e; Ok (r, t, s)
            | DELETE => _ ← assert_ (bool_decide (rec e = None)); Ok (None, t, s)
            end
        end;
      match r with
      | Some r => update_rows t s table_id record_size kv_map (MasstreeIndexes.map_emplace key r kr_map)
      | None => Ok (false, kr_map, t, s)
      end
  end.

Definition update_scan (t : tx) (s : store) (table_id lkey rkey count : Z) (reverse : bool) (kr_map : list (Z * Ptr)) :
    outcome (bool * list (Z * Ptr) * tx * store) :=
  record_size ← get_record_size schema table_id;
  let t := add_table t table_id in
  let '(res, kv_map, nm) := scan_range t s table_id lkey rkey count reverse in
  let t := set_nodemap t table_id nm in
  match res with
  | BAD_SCAN => Ok (false, kr_map, t, s)
  | _ => update_rows t s table_id record_size kv_map kr_map
  end.

Definition remove (t : tx) (s : store) (table_id key : Z) : outcome (Ptr * tx * store) :=
  let t := add_table t table_id in
  match rws t !! (table_id, key) with
  | None =>
      match idx_find (idx s) table_id key with
      | (NOT_FOUND, _) => Ok (None, t, s)
      | (_, val) =>
          val ← deref val;
          '(r, tw) ← get_record_pointer s val;
          if is_readable tw then
            Ok (r, push_write (put (observe t s (table_id, key) r) (table_id, key) (mkElem None tw DELETE false val))
              (table_id, key), s)
          else Ok (None, t, s)
      end
  | Some e =>
      match rwt e with
      | READ =>
          _ ← assert_ (bool_decide (rec e = None));
          r ← read_again s e;
          match r with
          | Some r => Ok (r, put (push_write t (table_id, key)) (table_id, key)
              (mkElem (rec e) (tw e) DELETE (is_new e) (val e)), s)
          | None => Ok (None, t, s)
          end
      | UPDATE | INSERT =>
          r ← read_again s e;
          match r with
          | Some r =>
              s ← free s (rec e);
              Ok (r, put t (table_id, key) (mkElem None (tw e) DELETE (is_new e) (val e)), s)
          | None => Ok (None, t, s)
          end
      | DELETE => Ok (None, t, s)
      end
  end.

(** ** Commit *)

(** [lock]: the compare-and-swap succeeds on an unlocked word. *)
Definition lock_value (s : store) (l : loc) : outcome store :=
  v ← deref (values s !! l);
  if lock (tidword v) then Wait else Ok (set_value s l (mkValue (set_lock (tidword v) true) (vrec v))).

Definition unlock (s : store) (l : loc) : outcome store :=
  v ← deref (values s !! l);
  _ ← assert_ (lock (tidword v));
  Ok (set_value s l (mkValue (set_lock (tidword v) false) (vrec v))).

(** The tables in the order of [std::set], and the write set in the order
    the loops of [precommit] visit it. *)
Definition table_order (t : tx) : list Z := merge_sort Z.le (elements (tables t)).
Definition table_writes (t : tx) (table_id : Z) : list (Z * Z) := pair table_id <$> write_keys t table_id.
Definition write_order (t : tx) : list (Z * Z) := table_order t ≫= table_writes t.

(** [std::sort] of one table's write set. *)
Definition sort_writes (t : tx) (table_id : Z) : tx :=
  set_writes t table_id (merge_sort Z.le (write_keys t table_id)).

(** One iteration of P1: false when the row is unreadable. *)
Definition lock_entry (t : tx) (s : store) (k : Z * Z) (commit_tid : Z) : outcome (bool * Z * store) :=
  e ← deref (rws t !! k);
  s ← lock_value s (val e);
  v ← deref (values s !! val e);
  let current := tidword v in
  if negb (is_new e) && negb (is_readable current) then Ok (false, commit_tid, s)
  else Ok (true, if commit_tid <? tid current then tid current else commit_tid, s).

Definition unlock_entry (t : tx) (s : store) (k : Z * Z) : outcome store :=
  e ← deref (rws t !! k); unlock s (val e).
Fixpoint unlock_keys (t : tx) (s : store) (keys : list (Z * Z)) : outcome store :=
  match keys with
  | [] => Ok s
  | k :: keys => s ← unlock_entry t s k; unlock_keys t s keys
  end.

(** The keys up to the first occurrence of [k]. *)
Fixpoint up_to (k : Z * Z) (keys : list (Z * Z)) : list (Z * Z) :=
  match keys with
  | [] => []
  | k' :: keys => if decide (k' = k) then [k'] else k' :: up_to k keys
  end.
Definition unlock_writeset_until (t : tx) (s : store) (end_ : Z * Z) : outcome store :=
  unlock_keys t s (up_to end_ (write_order t)).
Definition unlock_writeset (t : tx) (s : store) : outcome store :=
  unlock_writeset_until t s (UINT64_MAX, UINT64_MAX).

Fixpoint lock_keys (t : tx) (s : store) (keys : list (Z * Z)) (commit_tid : Z) : outcome (bool * Z * store) :=
  match keys with
  | [] => Ok (true, commit_tid, s)
  | k :: keys =>
      '(ok, commit_tid, s) ← lock_entry t s k commit_tid;
      if ok : bool then lock_keys t s keys commit_tid
      else s ← unlock_writeset_until t s k; Ok (false, commit_tid, s)
  end.

Fixpoint lock_tables (t : tx) (s : store) (order : list Z) (commit_tid : Z) : outcome (bool * Z * tx * store) :=
  match order with
  | [] => Ok (true, commit_tid, t, s)
  | table_id :: order =>
      let t := sort_writes t table_id in
      '(ok, commit_tid, s) ← lock_keys t s (table_writes t table_id) commit_tid;
      if ok : bool then lock_tables t s order commit_tid else Ok (false, commit_tid, t, s)
  end.

(** One iteration of P2.1. *)
Definition validate_entry (s : store) (e : ReadWriteElement) (commit_tid : Z) : outcome (bool * Z) :=
  if decide (rwt e = INSERT) then Ok (true, commit_tid) else
  v ← deref (values s !! val e);
  let current := tidword v in
  if negb (is_valid current (tw e)) || (lock current && bool_decide (rwt e = READ)) then Ok (false, commit_tid)
  else Ok (true, if commit_tid <? tid current then tid current else commit_tid).

(** [order] lists the entries in the order the hash tables are iterated. *)
Fixpoint validate_reads (s : store) (order : list ((Z * Z) * ReadWriteElement)) (commit_tid : Z) : outcome (bool * Z) :=
  match order with
  | [] => Ok (true, commit_tid)
  | (_, e) :: order =>
      '(ok, commit_tid) ← validate_entry s e commit_tid;
      if ok : bool then validate_reads s order commit_tid else Ok (false, commit_tid)
  end.

(** P2.2: every leaf still has the version that was noted. *)
Definition validate_nodes (t : tx) (s : store) : bool :=
  forallb (λ table_id, forallb (λ p, p.2 =? idx_get_version_value (idx s) table_id p.1)
    (map_to_list (get_nodemap t table_id))) (table_order t).

(** One iteration of P3. *)
Definition write_entry (t : tx) (s : store) (k : Z * Z) (commit_tw : TidWord) : outcome (tx * store) :=
  e ← deref (rws t !! k);
  v ← deref (values s !! val e);
  let deleted := bool_decide (rwt e = DELETE) in
  let new_tw := mkTid false (negb deleted) deleted (tid commit_tw) (epoch commit_tw) in
  let s := set_value s (val e) (mkValue new_tw (rec e)) in
  let t := set_gc t (GarbageCollector.collect (gc_container t) (epoch commit_tw) (GRec (vrec v))) in
  if deleted then
    Ok (set_gc t (GarbageCollector.collect (gc_container t) (epoch commit_tw) (GVal (val e))),
        set_idx s (idx_remove (idx s) k.1 k.2).2)
  else Ok (t, s).

Fixpoint write_keys_to_memory (t : tx) (s : store) (keys : list (Z * Z)) (commit_tw : TidWord) : outcome (tx * store) :=
  match keys with
  | [] => Ok (t, s)
  | k :: keys => '(t, s) ← write_entry t s k commit_tw; write_keys_to_memory t s keys commit_tw
  end.

(** [tid] is a 29-bit field. *)
Definition next_tid (n : Z) : Z := wrap 29 (n + 1).

Definition precommit (t : tx) (s : store) (order : list ((Z * Z) * ReadWriteElement)) : outcome (bool * tx * store) :=
  '(ok, commit_tid, t, s) ← lock_tables t s (table_order t) 0;
  if negb ok then Ok (false, t, s) else
  let commit_epoch := global_epoch s in
  '(ok, commit_tid) ← validate_reads s order commit_tid;
  if negb ok then s ← unlock_writeset t s; Ok (false, t, s) else
  let commit_tw := mkTid false false false (next_tid commit_tid) commit_epoch in
  if negb (validate_nodes t s) then s ← unlock_writeset t s; Ok (false, t, s) else
  '(t, s) ← write_keys_to_memory t s (write_order t) commit_tw;
  Ok (true, t, s).

(** ** Abort and destruction *)

(** A failed insert: the value is locked, marked absent, taken out of the
    index and retired. *)
Definition undo_insert (t : tx) (s : store) (k : Z * Z) (e : ReadWriteElement) : outcome (tx * store) :=
  s ← lock_value s (val e);
  v ← deref (values s !! val e);
  _ ← assert_ (bool_decide (vrec v = None));
  let s := set_value s (val e) (mkValue (mkTid false false true (tid (tidword v)) (epoch (tidword v))) (vrec v)) in
  let s := set_idx s (idx_remove (idx s) k.1 k.2).2 in
  Ok (set_gc t (GarbageCollector.collect (gc_container t) (starting_epoch t) (GVal (val e))), s).

Definition undo_entry (t : tx) (s : store) (k : Z * Z) : outcome (tx * store) :=
  e ← deref (rws t !! k);
  '(t, s) ← (if is_new e then undo_insert t s k e else Ok (t, s));
  match rwt e with
  | UPDATE | INSERT => s ← free s (rec e); Ok (t, s)
  | READ | DELETE => Ok (t, s)
  end.

Fixpoint undo_keys (t : tx) (s : store) (keys : list (Z * Z)) : outcome (tx * store) :=
  match keys with
  | [] => Ok (t, s)
  | k :: keys => '(t, s) ← undo_entry t s k; undo_keys t s keys
  end.

(** The tables of a transaction are cleared. *)
Definition clear (t : tx) : tx := mkTx (starting_epoch t) ∅ ∅ ∅ ∅ (gc_container t) ∅.

Definition abort (t : tx) (s : store) : outcome (tx * store) :=
  '(t, s) ← undo_keys t s (write_order t); Ok (clear t, s).

(** [MemoryAllocator::deallocate] of one retired block. *)
Definition free_garbage (s : store) (g : garbage) : outcome store :=
  match g with
  | GRec r => free s r
  | GVal l =>
      match values s !! l with
      | Some _ => Ok (mkStore (delete l (values s)) (records s) (idx s) (global_epoch s))
      | None => Stuck
      end
  end.
Fixpoint free_all (s : store) (gs : list garbage) : outcome store :=
  match gs with
  | [] => Ok s
  | g :: gs => s ← free_garbage s g; free_all s gs
  end.

(** The destructor: what was retired two epochs before is freed. *)
Definition destroy (t : tx) (s : store) : outcome (tx * store) :=
  let '(freed, g) := GarbageCollector.remove (gc_container t) (starting_epoch t) in
  s ← free_all s freed.*2; Ok (set_gc t g, s).

(** ** The steps of a thread

    [precommit], [abort] and the destructor as a machine whose steps are the
    iterations of their loops; [Calls] is a transaction between calls. *)
Inductive pc :=
| Calls
| Locking (held todo : list (Z * Z)) (rest : list Z) (commit_tid : Z)
| Validating (todo : list ((Z * Z) * ReadWriteElement)) (commit_tid commit_epoch : Z)
| Writing (todo : list (Z * Z)) (commit_tw : TidWord)
| Unlocking (todo : list (Z * Z))
| Refused
| Aborting (todo : list (Z * Z))
| Ended (committed : bool)
| Freeing (todo : list garbage)
| Idle.

Definition unlocking (t : tx) (end_ : Z * Z) : pc := Unlocking (up_to end_ (write_order t)).
Definition unlocking_all (t : tx) : pc := unlocking t (UINT64_MAX, UINT64_MAX).

(** One step; [order] is used when the validation begins.  A thread that is
    between calls waits for its client. *)
Definition advance (order : list ((Z * Z) * ReadWriteElement)) (t : tx) (s : store) (p : pc) : outcome (tx * store * pc) :=
  match p with
  | Locking held [] (table_id :: rest) n =>
      let t := sort_writes t table_id in Ok (t, s, Locking held (table_writes t table_id) rest n)
  | Locking held (k :: todo) rest n =>
      '(ok, n, s) ← lock_entry t s k n;
      Ok (t, s, if ok : bool then Locking (held ++ [k]) todo rest n else unlocking t k)
  | Locking held [] [] n => Ok (t, s, Validating order n (global_epoch s))
  | Validating ((k, e) :: todo) n c =>
      '(ok, n) ← validate_entry s e n;
      Ok (t, s, if ok : bool then Validating todo n c else unlocking_all t)
  | Validating [] n c =>
      Ok (t, s, if validate_nodes t s then Writing (write_order t) (mkTid false false false (next_tid n) c)
                else unlocking_all t)
  | Writing (k :: todo) c => '(t, s) ← write_entry t s k c; Ok (t, s, Writing todo c)
  | Writing [] c => Ok (t, s, Ended true)
  | Unlocking (k :: todo) => s ← unlock_entry t s k; Ok (t, s, Unlocking todo)
  | Unlocking [] => Ok (t, s, Refused)
  | Aborting (k :: todo) => '(t, s) ← undo_entry t s k; Ok (t, s, Aborting todo)
  | Aborting [] => Ok (clear t, s, Ended false)
  | Ended _ =>
      let '(freed, g) := GarbageCollector.remove (gc_container t) (starting_epoch t) in
      Ok (set_gc t g, s, Freeing freed.*2)
  | Freeing (g :: todo) => s ← free_garbage s g; Ok (t, s, Freeing todo)
  | Freeing [] => Ok (t, s, Idle)
  | Calls | Refused | Idle => Ok (t, s, p)
  end.

(** ** The system *)

(** The calls of a client; [CStore] writes a local record through the
    pointer an operation returned. *)
Inductive call :=
| CRead (table_id key : Z) | CInsert (table_id key : Z) | CUpdate (table_id key : Z)
| CWrite (table_id key : Z) | CUpsert (table_id key : Z) | CRemove (table_id key : Z)
| CReadScan (table_id lkey rkey count : Z) (reverse : bool)
| CUpdateScan (table_id lkey rkey count : Z) (reverse : bool)
| CStore (k : Z * Z) (b : block).

Definition state_of {A} (m : outcome (A * tx * store)) : outcome (tx * store) := '(_, t, s) ← m; Ok (t, s).

Definition store_record (t : tx) (s : store) (k : Z * Z) (b : block) : outcome (tx * store) :=
  e ← deref (rws t !! k); r ← deref (rec e); old ← deref (records s !! r);
  _ ← assert_ (length b =? length old)%nat;
  Ok (t, set_records s (<[r := b]> (records s))).

Definition perform_call (c : call) (t : tx) (s : store) : outcome (tx * store) :=
  match c with
  | CRead table_id key => state_of (read t s table_id key)
  | CInsert table_id key => state_of (insert t s table_id key)
  | CUpdate table_id key => state_of (update t s table_id key)
  | CWrite table_id key => state_of (write t s table_id key)
  | CUpsert table_id key => state_of (upsert t s table_id key)
  | CRemove table_id key => state_of (remove t s table_id key)
  | CReadScan table_id lkey rkey count reverse => state_of (read_scan t s table_id lkey rkey count reverse [])
  | CUpdateScan table_id lkey rkey count reverse => state_of (update_scan t s table_id lkey rkey count reverse [])
  | CStore k b => store_record t s k b
  end.

(** A worker thread with its current transaction and the number of it. *)
Record thread := mkThread { ttx : tx; tpc : pc; serial : nat }.

(** The serial order: a transaction enters the log at its serial point with
    what it is going to write; the keys it has installed and the rows it has
    validated are added as it proceeds, and it leaves when it is refused. *)
Record logged := mkLogged {
  lserial : nat; lepoch : Z; lwrites : gmap (Z * Z) (option block); ldone : gset (Z * Z);
  lreads : gmap (Z * Z) (option block)
}.
Record sys := mkSys { st : store; threads : gmap nat thread; log : list logged; next : nat }.

Definition intended (t : tx) (s : store) : gmap (Z * Z) (option block) :=
  (λ e, rec e ≫= λ r, records s !! r) <$> filter (λ ke, rwt ke.2 ≠ READ) (rws t).
(** An inserted row was found absent. *)
Definition inserted (t : tx) : gmap (Z * Z) (option block) :=
  (λ _, None) <$> filter (λ ke, is_new ke.2 = true) (rws t).

Definition update_log (n : nat) (f : logged → logged) (l : list logged) : list logged :=
  (λ x, if decide (lserial x = n) then f x else x) <$> l.
Definition note_read (k : Z * Z) (o : option block) (x : logged) : logged :=
  mkLogged (lserial x) (lepoch x) (lwrites x) (ldone x) (<[k := o]> (lreads x)).
Definition note_done (k : Z * Z) (x : logged) : logged :=
  mkLogged (lserial x) (lepoch x) (lwrites x) ({[k]} ∪ ldone x) (lreads x).

Definition log_step (n : nat) (t : tx) (s : store) (p p' : pc) (l : list logged) : list logged :=
  match p, p' with
  | Locking _ [] [] _, Validating _ _ c => l ++ [mkLogged n c (intended t s) ∅ (inserted t)]
  | Validating ((k, e) :: _) _ _, Validating _ _ _ =>
      if decide (rwt e = INSERT) then l else update_log n (note_read k (snd <$> seen t !! k)) l
  | Validating _ _ _, Unlocking _ => filter (λ x, lserial x ≠ n) l
  | Writing (k :: _) _, Writing _ _ => update_log n (note_done k) l
  | _, _ => l
  end.

Definition client_turn (p : pc) : Prop := p = Calls ∨ p = Refused ∨ p = Idle.
Definition alive (p : pc) : Prop := match p with Idle | Freeing _ => False | _ => True end.

(** What a client may call: 64-bit keys, tables of the schema; it writes
    local records while it runs. *)
Definition allowed (c : call) : Prop :=
  match c with
  | CRead t k | CInsert t k | CUpdate t k | CWrite t k | CUpsert t k | CRemove t k =>
      word64 t ∧ word64 k ∧ is_Some (schema !! t)
  | CReadScan t l r _ _ | CUpdateScan t l r _ _ => word64 t ∧ word64 l ∧ word64 r ∧ is_Some (schema !! t)
  | CStore _ _ => True
  end.

Definition new_tx (e : Z) (g : list (Z * garbage)) : tx := mkTx e ∅ ∅ ∅ ∅ g ∅.

Inductive sys_step : sys → sys → Prop :=
| step_call x i T c t' s' : threads x !! i = Some T → tpc T = Calls → allowed c →
    perform_call c (ttx T) (st x) = Ok (t', s') →
    sys_step x (mkSys s' (<[i := mkThread t' Calls (serial T)]> (threads x)) (log x) (next x))
| step_begin x i T : threads x !! i = Some T → tpc T = Idle →
    sys_step x (mkSys (st x) (<[i := mkThread (new_tx (global_epoch (st x)) (gc_container (ttx T))) Calls (next x)]>
      (threads x)) (log x) (S (next x)))
| step_commit x i T : threads x !! i = Some T → tpc T = Calls →
    sys_step x (mkSys (st x) (<[i := mkThread (ttx T) (Locking [] [] (table_order (ttx T)) 0) (serial T)]> (threads x))
      (log x) (next x))
| step_abort x i T : threads x !! i = Some T → tpc T = Calls ∨ tpc T = Refused →
    sys_step x (mkSys (st x) (<[i := mkThread (ttx T) (Aborting (write_order (ttx T))) (serial T)]> (threads x))
      (log x) (next x))
| step_advance x i T order t' s' p' : threads x !! i = Some T → ¬ client_turn (tpc T) →
    order ≡ₚ map_to_list (rws (ttx T)) → advance order (ttx T) (st x) (tpc T) = Ok (t', s', p') →
    sys_step x (mkSys s' (<[i := mkThread t' p' (serial T)]> (threads x))
      (log_step (serial T) (ttx T) (st x) (tpc T) p' (log x)) (next x))
| step_epoch x : (∀ i T, threads x !! i = Some T → alive (tpc T) → starting_epoch (ttx T) = global_epoch (st x)) →
    sys_step x (mkSys (mkStore (values (st x)) (records (st x)) (idx (st x)) (u32 (global_epoch (st x) + 1)))
      (threads x) (log x) (next x)).

(** The runs in which no 29-bit version and no 32-bit epoch wraps around. *)
Definition small (s : store) : Prop :=
  global_epoch s < 2 ^ 32 - 1 ∧ ∀ l v, values s !! l = Some v → tid (tidword v) < 2 ^ 29 - 1.

Inductive reachable (x0 : sys) : sys → Prop :=
| reach_init : reachable x0 x0
| reach_step x y : reachable x0 x → small (st x) → sys_step x y → reachable x0 y.
End protocol.
End Silo.
