(* ===== verification/SiloInv.v ===== *)
(** * The invariant of Silo

    Ghost state says who owns what: [vown] the values (in the index under a
    key, being inserted by a thread, or retired), [rown] the records (of a
    value, local to a transaction, or retired) and [hold] the locks.  The
    invariant of the store, of each thread at each step of its commit, and of
    the threads together is kept by every step. *)
From stdpp Require Import sorting.
From S2P Require Import Prelude Versions BitFields Epoch Index Memory Silo.

#[export] Existing Instance node_index.
#[export] Existing Instance node_index_laws.

Section silo_invariant.
Import Memory Silo.
Context `{HI : NodeIndex loc} `{HL : !NodeIndexLaws loc} (schema : gmap Z nat).
Implicit Types (s : store) (t : tx) (T : thread) (k : Z * Z) (l r : loc) (e : ReadWriteElement) (v : Value) (p : pc).

(** ** Words *)

Definition word_ok (w : TidWord) : Prop := word 29 (tid w) ∧ word 32 (epoch w).

Lemma obj_fields w : word_ok w →
  get_field TidWord.lock (obj w) = Z.b2z (lock w) ∧ get_field TidWord.latest (obj w) = Z.b2z (latest w) ∧
  get_field TidWord.absent (obj w) = Z.b2z (absent w) ∧ get_field TidWord.tid (obj w) = tid w ∧
  get_field TidWord.epoch (obj w) = epoch w.
Proof.
  intros [Ht He]. unfold obj.
  split_and!; fields; simpl width; apply wrap_small; try done; unfold word;
    match goal with |- context [Z.b2z ?b] => destruct b; simpl; lia end.
Qed.

(** Comparing the words compares the fields. *)
Lemma is_same_eq w w' : word_ok w → word_ok w' → is_same w w' = true ↔ w = w'.
Proof.
  intros Hw Hw'. unfold is_same. rewrite Z.eqb_eq. split; [|by intros ->]. intros Heq.
  destruct (obj_fields w Hw) as (H1 & H2 & H3 & H4 & H5), (obj_fields w' Hw') as (H1' & H2' & H3' & H4' & H5').
  rewrite Heq in *. destruct w, w'; simpl in *. f_equal; [apply Z.b2z_inj; congruence..|congruence|congruence].
Qed.

Lemma set_lock_fields w b : tid (set_lock w b) = tid w ∧ epoch (set_lock w b) = epoch w ∧
  is_readable (set_lock w b) = is_readable w ∧ lock (set_lock w b) = b.
Proof. done. Qed.

(** ** Ownership *)

Inductive vowner := Live (k : Z * Z) | New (i : nat) (k : Z * Z) | Dead (i : nat) (k : Z * Z).
Inductive rowner := Committed (l : loc) | Local (i : nat) (k : Z * Z) | Retired (i : nat).
Record ghost := mkGhost { vown : gmap loc vowner; rown : gmap loc rowner; hold : gmap loc (nat * (Z * Z)) }.
Implicit Types (g : ghost) (i j : nat).

#[local] Abbreviation bound s k l := (word64 k.2 ∧ idx_at (idx s) k.1 k.2 = Some l).

Definition sized s k r : Prop := ∃ b, records s !! r = Some b ∧ schema !! k.1 = Some (length b).

Definition value_ok g s l v (o : vowner) : Prop :=
  word_ok (tidword v) ∧ lock (tidword v) = bool_decide (is_Some (hold g !! l)) ∧
  match o with
  | Live k => is_readable (tidword v) = true ∧ ∃ r, vrec v = Some r ∧ rown g !! r = Some (Committed l) ∧ sized s k r
  | New _ _ | Dead _ _ => is_readable (tidword v) = false ∧ vrec v = None
  end.

Definition keyed (o : vowner) k : Prop := o = Live k ∨ ∃ i, o = New i k.

Record store_ok g s : Prop := {
  so_index : index_ok (idx s);
  so_bound : ∀ k l, bound s k l ↔ word64 k.2 ∧ ∃ o, vown g !! l = Some o ∧ keyed o k;
  so_value : ∀ l o, vown g !! l = Some o → ∃ v, values s !! l = Some v ∧ value_ok g s l v o;
  so_owned : ∀ l v, values s !! l = Some v → is_Some (vown g !! l);
  so_rec : ∀ r o, rown g !! r = Some o → is_Some (records s !! r);
  so_hold : ∀ l x, hold g !! l = Some x → is_Some (vown g !! l);
  so_epoch : 1 ≤ global_epoch s < 2 ^ 32
}.

(** ** Threads *)

(** The keys whose values a thread has locked. *)
Definition held_keys T : list (Z * Z) :=
  match tpc T with
  | Locking h _ _ _ => h
  | Validating _ _ _ => write_order (ttx T)
  | Writing todo _ | Unlocking todo => todo
  | _ => []
  end.
Definition checked p : Prop := match p with Unlocking _ => False | _ => True end.

(** The entries that are still used. *)
Definition live p k : Prop :=
  match p with
  | Writing todo _ | Aborting todo => k ∈ todo
  | Ended _ | Freeing _ | Idle => False
  | _ => True
  end.

(** What the value of an entry may have become since it was read. *)
Definition current_ok t k e v : Prop :=
  tid (tw e) < tid (tidword v) ∨
  (tid (tw e) = tid (tidword v) ∧ epoch (tw e) = epoch (tidword v) ∧
   (is_readable (tidword v) = true → ∃ r b, vrec v = Some r ∧ seen t !! k = Some (r, b))).

Record entry_ok g s i t k e : Prop := {
  eo_rec : ∀ r, rec e = Some r → rown g !! r = Some (Local i k) ∧ sized s k r;
  eo_new : is_new e = true → vown g !! val e = Some (New i k);
  eo_old : is_new e = false →
    (vown g !! val e = Some (Live k) ∨ ∃ j, vown g !! val e = Some (Dead j k)) ∧
    ∃ v, values s !! val e = Some v ∧ current_ok t k e v
}.

Definition elem_ok e : Prop :=
  word_ok (tw e) ∧
  match rwt e with
  | READ => rec e = None ∧ is_new e = false
  | DELETE => rec e = None
  | UPDATE | INSERT => is_Some (rec e)
  end.

Record shape t : Prop := {
  sh_entry : ∀ k e, rws t !! k = Some e → k.1 ∈ tables t ∧ word64 k.1 ∧ word64 k.2 ∧ elem_ok e;
  sh_writes : ∀ k, k.2 ∈ write_keys t k.1 ↔ ∃ e, rws t !! k = Some e ∧ rwt e ≠ READ;
  sh_nodup : ∀ x, NoDup (write_keys t x)
}.

Definition sorted_tables t (l : list Z) : Prop := ∀ x, x ∈ l → StronglySorted Z.lt (write_keys t x).

(** The tids of the rows locked are at most the one collected. *)
Definition tids s t (ks : list (Z * Z)) (n : Z) : Prop :=
  0 ≤ n < 2 ^ 29 - 1 ∧
  ∀ k e v, k ∈ ks → rws t !! k = Some e → values s !! val e = Some v → tid (tidword v) ≤ n.

Definition pc_ok s t p : Prop :=
  match p with
  | Locking h todo rest n => tids s t h n ∧
      ∃ done, table_order t = done ++ rest ∧ done ≫= table_writes t = h ++ todo ∧ sorted_tables t done
  | Validating todo n c => tids s t (write_order t) n ∧ sorted_tables t (table_order t) ∧ word 32 c ∧
      NoDup todo.*1 ∧ (∀ k e, (k, e) ∈ todo → rws t !! k = Some e) ∧
      ∀ k e, rws t !! k = Some e → is_new e = true → rwt e ≠ INSERT → (k, e) ∈ todo
  | Writing todo cw => word_ok cw ∧ (∃ done, write_order t = done ++ todo) ∧
      (∀ k e, rws t !! k = Some e → is_new e = true → rwt e = INSERT) ∧
      ∀ k e v, k ∈ todo → rws t !! k = Some e → values s !! val e = Some v → tid (tidword v) < tid cw
  | Unlocking todo => NoDup todo ∧ ∀ k, k ∈ todo → is_Some (rws t !! k)
  | Aborting todo => ∃ done, write_order t = done ++ todo
  | _ => True
  end.

Definition nonnull (x : garbage) : Prop := x ≠ GRec None.
#[local] Instance nonnull_dec x : Decision (nonnull x).
Proof. unfold nonnull. apply _. Defined.

Definition freeing p : list garbage := match p with Freeing todo => todo | _ => [] end.
Definition garbage_of T : list garbage := (gc_container (ttx T)).*2 ++ freeing (tpc T).

Definition retired g i (x : garbage) : Prop :=
  match x with
  | GVal l => ∃ k, vown g !! l = Some (Dead i k)
  | GRec (Some r) => rown g !! r = Some (Retired i)
  | GRec None => True
  end.

Definition stable_rec g r : Prop := (∃ l, rown g !! r = Some (Committed l)) ∨ ∃ j, rown g !! r = Some (Retired j).

Record thread_ok g s i T : Prop := {
  to_shape : shape (ttx T);
  to_pc : pc_ok s (ttx T) (tpc T);
  to_epoch : alive (tpc T) → global_epoch s - 1 ≤ starting_epoch (ttx T);
  to_past : starting_epoch (ttx T) ≤ global_epoch s;
  to_entry : ∀ k e, rws (ttx T) !! k = Some e → live (tpc T) k → entry_ok g s i (ttx T) k e;
  to_seen : alive (tpc T) → ∀ k r b, seen (ttx T) !! k = Some (r, b) → records s !! r = Some b ∧ stable_rec g r;
  to_hold : ∀ k e, k ∈ held_keys T → rws (ttx T) !! k = Some e → hold g !! val e = Some (i, k) ∧
    (checked (tpc T) → ∃ o, vown g !! val e = Some o ∧ keyed o k);
  to_once : NoDup (filter nonnull (garbage_of T));
  to_retired : ∀ x, x ∈ garbage_of T → retired g i x;
  to_sorted : by_epoch (gc_container (ttx T))
}.

(** What a running transaction may still dereference. *)
Definition refs T (x : garbage) : Prop :=
  alive (tpc T) ∧
  ((∃ k e, rws (ttx T) !! k = Some e ∧ live (tpc T) k ∧ x = GVal (val e)) ∨
   (∃ k r b, seen (ttx T) !! k = Some (r, b) ∧ x = GRec (Some r))).

Definition commit_epoch p : option Z :=
  match p with Validating _ _ c => Some c | Writing _ cw => Some (epoch cw) | _ => None end.

(** The threads together. *)
Record sys_ok g s (th : gmap nat thread) : Prop := {
  sy_store : store_ok g s;
  sy_thread : ∀ i T, th !! i = Some T → thread_ok g s i T;
  sy_hold : ∀ l i k, hold g !! l = Some (i, k) →
    ∃ T e, th !! i = Some T ∧ k ∈ held_keys T ∧ rws (ttx T) !! k = Some e ∧ val e = l;
  sy_gc : ∀ i T j U c x, th !! i = Some T → th !! j = Some U → (c, x) ∈ gc_container (ttx T) → refs U x →
    starting_epoch (ttx U) ≤ c;
  sy_free : ∀ i T j U x, th !! i = Some T → th !! j = Some U → x ∈ freeing (tpc T) → ¬ refs U x;
  sy_commit : ∀ i T j U c k e v x, th !! i = Some T → th !! j = Some U → commit_epoch (tpc T) = Some c →
    k ∈ held_keys T → rws (ttx T) !! k = Some e → values s !! val e = Some v →
    x = GVal (val e) ∨ x = GRec (vrec v) → refs U x → starting_epoch (ttx U) ≤ c
}.

(** ** What a thread tolerates from the others *)

Definition val_le v v' : Prop :=
  (∃ b, tidword v' = set_lock (tidword v) b ∧ vrec v' = vrec v) ∨ tid (tidword v) < tid (tidword v').
Definition own_le (o o' : vowner) : Prop := o' = o ∨ ∃ k i, o = Live k ∧ o' = Dead i k.

Lemma val_le_refl v : val_le v v.
Proof. left. exists (lock (tidword v)). by destruct v as [[]]. Qed.

Lemma own_le_refl o : own_le o o.
Proof. by left. Qed.

Record evolves g s g' s' j (R : garbage → Prop) : Prop := {
  ev_epoch : global_epoch s' = global_epoch s;
  ev_value : ∀ l v, R (GVal l) → values s !! l = Some v → ∃ v', values s' !! l = Some v' ∧ val_le v v';
  ev_owner : ∀ l o, R (GVal l) → vown g !! l = Some o → ∃ o', vown g' !! l = Some o' ∧ own_le o o';
  ev_held : ∀ l k, hold g !! l = Some (j, k) →
    hold g' !! l = Some (j, k) ∧ values s' !! l = values s !! l ∧ vown g' !! l = vown g !! l;
  ev_local : ∀ r k, rown g !! r = Some (Local j k) →
    rown g' !! r = Some (Local j k) ∧ records s' !! r = records s !! r;
  ev_seen : ∀ r, R (GRec (Some r)) → stable_rec g r → records s' !! r = records s !! r ∧ stable_rec g' r;
  ev_dead : ∀ l k, vown g !! l = Some (Dead j k) → vown g' !! l = Some (Dead j k);
  ev_retired : ∀ r, rown g !! r = Some (Retired j) → rown g' !! r = Some (Retired j)
}.

Lemma current_mono t t' k e v v' : seen t' !! k = seen t !! k → val_le v v' → current_ok t k e v → current_ok t' k e v'.
Proof.
  intros Hseen [(b & Hw & Hr)|Hlt] Hc; unfold current_ok in *; rewrite Hseen.
  - rewrite Hw, Hr. exact Hc.
  - left. destruct Hc as [?|(? & _)]; lia.
Qed.

Lemma entry_mono g s g' s' i t t' k e : entry_ok g s i t k e →
  (∀ r, rec e = Some r → rown g !! r = Some (Local i k) → rown g' !! r = Some (Local i k) ∧ records s' !! r = records s !! r) →
  (∀ o, vown g !! val e = Some o → ∃ o', vown g' !! val e = Some o' ∧ own_le o o') →
  (∀ v, values s !! val e = Some v → ∃ v', values s' !! val e = Some v' ∧ val_le v v') →
  seen t' !! k = seen t !! k → entry_ok g' s' i t' k e.
Proof.
  intros [Hr Hn Ho] Hrec Hown Hval Hseen. split.
  - intros r Hre. destruct (Hr r Hre) as [Hl (b & Hb & Hsz)]. destruct (Hrec r Hre Hl) as [? Hsame]. split; [done|].
    exists b. by rewrite Hsame.
  - intros Hnew. destruct (Hown _ (Hn Hnew)) as (o' & Ho' & [->|(? & ? & ? & ?)]); [done|congruence].
  - intros Hold. destruct (Ho Hold) as [Hlive (v & Hv & Hc)]. split.
    + destruct Hlive as [Hlive|[j Hdead]].
      * destruct (Hown _ Hlive) as (o' & Ho' & [->|(k' & j & [= <-] & ->)]); [by left|right; eauto].
      * destruct (Hown _ Hdead) as (o' & Ho' & [->|(? & ? & ? & ?)]); [right; eauto|congruence].
    + destruct (Hval v Hv) as (v' & Hv' & Hle). exists v'. split; [done|]. by eapply current_mono.
Qed.

Lemma evolves_thread g s g' s' j U : thread_ok g s j U → evolves g s g' s' j (refs U) → thread_ok g' s' j U.
Proof.
  intros HU Hev. pose proof HU as [Hsh Hpc Hep Hpast Hen Hse Hh Ho Hr Hs]. destruct Hev as [Ee Ev Eo Eh El Es Ed Er].
  assert (∀ k e v, k ∈ held_keys U → rws (ttx U) !! k = Some e → values s' !! val e = Some v → values s !! val e = Some v) as Hval.
  { intros k e v Hk He Hv. destruct (Hh k e Hk He) as [Hhold _]. destruct (Eh _ _ Hhold) as (_ & <- & _). done. }
  split; try done.
  - unfold pc_ok, tids in *. unfold held_keys in Hval. destruct (tpc U); naive_solver.
  - by rewrite Ee.
  - by rewrite Ee.
  - intros k e He Hlive.
    assert (alive (tpc U)) as Hal by (by destruct (tpc U)).
    assert (refs U (GVal (val e))) as Href by (split; [done|left; eauto]).
    eapply entry_mono; [by apply Hen| | | |done]; intros; [by apply El|by apply Eo|by apply Ev].
  - intros Hal k r b Hseen. destruct (Hse Hal k r b Hseen) as [Hb Hst].
    destruct (Es r) as [-> ?]; [|done..]. split; [done|]. right. eauto.
  - intros k e Hk He. destruct (Hh k e Hk He) as [Hhold Hck]. destruct (Eh _ _ Hhold) as (? & _ & ->). done.
  - intros [[r|]|l] Hx; specialize (Hr _ Hx); simpl in *; [by apply Er|done|]. destruct Hr as [k Hr]. exists k. by apply Ed.
Qed.

(** ** The committed database *)

Definition view s k : option block :=
  l ← idx_at (idx s) k.1 k.2; v ← values s !! l;
  if is_readable (tidword v) then r ← vrec v; records s !! r else None.

Lemma view_live g s k l v : store_ok g s → word64 k.2 → vown g !! l = Some (Live k) → values s !! l = Some v →
  view s k = r ← vrec v; records s !! r.
Proof.
  intros Hs Hw Hl Hv. destruct (proj2 (so_bound _ _ Hs k l)) as [_ Hat]; [split; [done|]; exists (Live k); split; [done|by left]|].
  destruct (so_value _ _ Hs l _ Hl) as (v' & Hv' & _ & _ & Hr & _). assert (v' = v) as -> by congruence.
  unfold view. rewrite Hat. simpl. rewrite Hv. simpl. by rewrite Hr.
Qed.

Lemma view_dead g s k : store_ok g s → word64 k.2 → (∀ l, vown g !! l ≠ Some (Live k)) → view s k = None.
Proof.
  intros Hs Hw Hno. unfold view. destruct (idx_at (idx s) k.1 k.2) as [l|] eqn:Hat; [|done]. simpl.
  destruct (proj1 (so_bound _ _ Hs k l) (conj Hw Hat)) as (_ & o & Ho & [->|[i ->]]); [by apply Hno in Ho|].
  destruct (so_value _ _ Hs l _ Ho) as (v & -> & _ & _ & Hr & _). simpl. by rewrite Hr.
Qed.

(** At most one live value has a key. *)
Lemma keyed_unique g s k l l' o o' : store_ok g s → word64 k.2 → vown g !! l = Some o → keyed o k →
  vown g !! l' = Some o' → keyed o' k → l = l'.
Proof.
  intros Hs Hw Ho Hk Ho' Hk'. destruct (proj2 (so_bound _ _ Hs k l)) as [_ H1]; [eauto|].
  destruct (proj2 (so_bound _ _ Hs k l')) as [_ H2]; [eauto|]. congruence.
Qed.

Lemma live_dec g s k : store_ok g s → word64 k.2 → (∃ l, vown g !! l = Some (Live k)) ∨ ∀ l, vown g !! l ≠ Some (Live k).
Proof.
  intros Hs Hw. destruct (idx_at (idx s) k.1 k.2) as [l|] eqn:Hat.
  - destruct (proj1 (so_bound _ _ Hs k l) (conj Hw Hat)) as (_ & o & Ho & [->|[i ->]]); [eauto|]. right. intros l' Hl'.
    assert (l = l') as <- by (eapply (keyed_unique g s k); [done..|by right; eauto|done|by left]). congruence.
  - right. intros l Hl. destruct (proj2 (so_bound _ _ Hs k l)) as [_ ?]; [|congruence]. split; [done|]. exists (Live k). split; [done|by left].
Qed.

(** The view of a key depends on its live value alone. *)
Lemma view_eq g s g' s' k : store_ok g s → store_ok g' s' → word64 k.2 →
  (∀ l, vown g' !! l = Some (Live k) → vown g !! l = Some (Live k)) →
  (∀ l v r, vown g !! l = Some (Live k) → values s !! l = Some v → vrec v = Some r →
    vown g' !! l = Some (Live k) ∧ ∃ v', values s' !! l = Some v' ∧ vrec v' = Some r ∧ records s' !! r = records s !! r) →
  view s' k = view s k.
Proof.
  intros Hs Hs' Hw Hback Hfwd. destruct (live_dec g s k Hs Hw) as [[l Hl]|Hno].
  - destruct (so_value _ _ Hs l _ Hl) as (v & Hv & _ & _ & _ & r & Hr & _).
    destruct (Hfwd l v r Hl Hv Hr) as (Hl' & v' & Hv' & Hr' & Hsame).
    rewrite (view_live g s k l v), (view_live g' s' k l v') by done. rewrite Hr, Hr'. simpl. done.
  - rewrite (view_dead g s k), (view_dead g' s' k); [done..| |done|done|done]. intros l Hl%Hback. by apply Hno in Hl.
Qed.

(** ** Steps on the store *)

(** What a step of thread [i] guarantees; [gone] has been freed. *)
Record footprint i g s g' s' (gone : garbage → Prop) : Prop := {
  fp_store : store_ok g' s';
  fp_others : ∀ j R, j ≠ i → (∀ x, gone x → ¬ R x) → evolves g s g' s' j R
}.
Definition none (x : garbage) : Prop := False.

Definition set_rown g m : ghost := mkGhost (vown g) m (hold g).

Section record_steps.
Context {g : ghost} {s : store} (Hs : store_ok g s).

(** Only records change, and none that is committed or retired. *)
Lemma records_step i rown' recs' :
  (∀ r, stable_rec g r → rown' !! r = rown g !! r ∧ recs' !! r = records s !! r) →
  (∀ r j k, j ≠ i → rown g !! r = Some (Local j k) → rown' !! r = rown g !! r ∧ recs' !! r = records s !! r) →
  (∀ r o, rown' !! r = Some o → is_Some (recs' !! r)) →
  footprint i g s (set_rown g rown') (set_records s recs') none ∧
  ∀ k, word64 k.2 → view (set_records s recs') k = view s k.
Proof.
  intros Hst Hloc Hown.
  assert (∀ r l, rown g !! r = Some (Committed l) → rown' !! r = Some (Committed l) ∧ recs' !! r = records s !! r) as Hcom.
  { intros r l Hr. destruct (Hst r) as [-> ?]; [left; eauto|]. done. }
  assert (store_ok (set_rown g rown') (set_records s recs')) as Hs'.
  { destruct Hs as [H1 H2 H3 H4 H5 H6 H7]. split; try done. intros l o Ho. destruct (H3 l o Ho) as (v & Hv & Hw & Hl & Ho').
    exists v. split; [done|]. split; [done|]. split; [done|]. destruct o as [k| |]; [|done..].
    destruct Ho' as (? & r & Hr & Hrc & b & Hb & Hsz). split; [done|]. exists r. destruct (Hcom r l Hrc) as [? Hsame].
    split_and!; [done..|]. exists b. simpl. by rewrite Hsame. }
  split; [split; [done|]|].
  - intros j R Hj _. split; simpl; [done|eauto using val_le_refl|eauto using own_le_refl|done| | |done|].
    + intros r k Hr. destruct (Hloc r j k Hj Hr) as [-> ?]. done.
    + intros r _ Hr. destruct (Hst r Hr) as [Heq ?]. split; [done|]. unfold stable_rec. simpl. by rewrite Heq.
    + intros r Hr. destruct (Hst r) as [-> ?]; [right; eauto|]. done.
  - intros k Hw. apply (view_eq g s (set_rown g rown')); try done. intros l v r Hl Hv Hr. split; [done|]. exists v. split_and!; [done..|].
    destruct (so_value _ _ Hs l _ Hl) as (v' & Hv' & _ & _ & _ & r' & Hr' & Hrc & _).
    assert (v' = v) as -> by congruence. assert (r' = r) as -> by congruence. simpl. by apply (Hcom r l).
Qed.

Lemma rown_fresh r : records s !! r = None → rown g !! r = None.
Proof. intros Hr. destruct (rown g !! r) as [o|] eqn:Ho; [|done]. destruct (so_rec _ _ Hs r o Ho). congruence. Qed.

(** A local record is allocated, written or freed. *)
Lemma local_step i k r o recs' : rown g !! r = None ∨ rown g !! r = Some (Local i k) →
  (o = None ∨ o = Some (Local i k) ∧ is_Some (recs' !! r)) → (∀ r', r' ≠ r → recs' !! r' = records s !! r') →
  footprint i g s (set_rown g (partial_alter (λ _, o) r (rown g))) (set_records s recs') none ∧
  ∀ k, word64 k.2 → view (set_records s recs') k = view s k.
Proof.
  intros Hr Ho Hrecs.
  assert (∀ r', r' ≠ r → partial_alter (λ _, o) r (rown g) !! r' = rown g !! r') as Hne
    by (intros r' ?; by apply lookup_partial_alter_ne).
  apply records_step.
  - intros r' [[l Hl]|[j Hj]]; (split; [apply Hne|apply Hrecs]); intros ->; destruct Hr; congruence.
  - intros r' j k' Hj Hl. split; [apply Hne|apply Hrecs]; intros ->; destruct Hr; congruence.
  - intros r' o'. destruct (decide (r' = r)) as [->|Hd].
    + rewrite lookup_partial_alter_eq. intros ->. destruct Ho as [|[_ ?]]; done.
    + rewrite Hne, Hrecs by done. apply (so_rec _ _ Hs).
Qed.
End record_steps.

(** One value changes, and with it records of the thread or of the value. *)
Section value_step.
Context {g g' : ghost} {s s' : store} (i : nat) (l : loc) (v' : Value) (o' : vowner) (gone : garbage → Prop).
Context (Hs : store_ok g s).
Context (Hvals : values s' = <[l := v']> (values s)) (Hvown : vown g' = <[l := o']> (vown g)).
Context (Hglobal : global_epoch s' = global_epoch s).
Context (Hholds : ∀ l', l' ≠ l → hold g' !! l' = hold g !! l').
Context (Hmine : ∀ j k, hold g !! l = Some (j, k) → j = i).
Context (Hle : gone (GVal l) ∨
  (∀ v, values s !! l = Some v → val_le v v') ∧ (∀ o, vown g !! l = Some o → own_le o o')).
Context (Hdead : ∀ j k, j ≠ i → vown g !! l = Some (Dead j k) → o' = Dead j k).
Context (Hrec : ∀ r, (∀ k, rown g !! r ≠ Some (Local i k)) → rown g !! r ≠ None → records s' !! r = records s !! r ∧
  (rown g' !! r = rown g !! r ∨ rown g !! r = Some (Committed l) ∧ rown g' !! r = Some (Retired i))).
Context (Hrown : ∀ r o, rown g' !! r = Some o → is_Some (records s' !! r)).
Context (Hvok : value_ok g' s' l v' o') (Hidx : index_ok (idx s')).
Context (Hbound : ∀ k l', bound s' k l' ↔ word64 k.2 ∧ ∃ o, vown g' !! l' = Some o ∧ keyed o k).

Lemma value_store : store_ok g' s'.
Proof using Hs Hvals Hvown Hglobal Hholds Hrec Hrown Hvok Hidx Hbound.
  split; [done|done| | |done| |].
  - intros l1 o1. rewrite Hvown. intros [[<- <-]|[Hne Ho]]%lookup_insert_Some.
    + exists v'. rewrite Hvals, lookup_insert_eq. done.
    + destruct (so_value _ _ Hs l1 o1 Ho) as (v1 & Hv1 & Hw & Hlk & Hk). exists v1. rewrite Hvals, lookup_insert_ne by done.
      split; [done|]. split; [done|]. rewrite Hholds by done. split; [done|]. destruct o1 as [k1| |]; [|done..].
      destruct Hk as (? & r & Hr & Hrc & b & Hb & Hsz). split; [done|]. exists r. split; [done|].
      destruct (Hrec r) as [Hsame [Hown|[? _]]]; [congruence|congruence| |congruence]. rewrite Hown. split; [done|].
      exists b. by rewrite Hsame.
  - intros l1 v1. rewrite Hvals, Hvown. intros [[<- <-]|[Hne Hv]]%lookup_insert_Some.
    + by rewrite lookup_insert_eq.
    + rewrite lookup_insert_ne by done. by eapply so_owned.
  - intros l1 x Hx. rewrite Hvown. destruct (decide (l1 = l)) as [->|Hne]; [by rewrite lookup_insert_eq|].
    rewrite lookup_insert_ne by done. rewrite Hholds in Hx by done. by eapply so_hold.
  - rewrite Hglobal. apply Hs.
Qed.

Lemma value_step : footprint i g s g' s' gone.
Proof using Hs Hvals Hvown Hglobal Hholds Hmine Hle Hdead Hrec Hrown Hvok Hidx Hbound.
  split; [apply value_store|]. intros j R Hj HR. split; [done| | | | | | |].
  - intros l1 v1 HRl Hv1. rewrite Hvals. destruct (decide (l1 = l)) as [->|Hne].
    + rewrite lookup_insert_eq. exists v'. split; [done|]. destruct Hle as [Hg|[H1 _]]; [by apply HR in Hg|by apply H1].
    + rewrite lookup_insert_ne by done. eauto using val_le_refl.
  - intros l1 o1 HRl Ho1. rewrite Hvown. destruct (decide (l1 = l)) as [->|Hne].
    + rewrite lookup_insert_eq. exists o'. split; [done|]. destruct Hle as [Hg|[_ H1]]; [by apply HR in Hg|by apply H1].
    + rewrite lookup_insert_ne by done. eauto using own_le_refl.
  - intros l1 k1 Hl1. assert (l1 ≠ l) as Hne by (intros ->; by apply Hj, (Hmine j k1)).
    rewrite Hholds, Hvals, Hvown, !lookup_insert_ne by done. done.
  - intros r k1 Hr. destruct (Hrec r) as [Hsame [Hown|[? _]]]; [congruence|congruence| |congruence]. by rewrite Hown.
  - intros r _ Hr. destruct (Hrec r) as [Hsame Hown];
      [destruct Hr as [[? Hr]|[? Hr]]; congruence|destruct Hr as [[? Hr]|[? Hr]]; congruence|].
    split; [done|]. destruct Hown as [Hown|[_ Hown]]; [unfold stable_rec; by rewrite Hown|right; eauto].
  - intros l1 k1 Hl1. rewrite Hvown. destruct (decide (l1 = l)) as [->|Hne]; [|by rewrite lookup_insert_ne].
    rewrite lookup_insert_eq. f_equal. by apply (Hdead j k1).
  - intros r Hr. destruct (Hrec r) as [Hsame [Hown|[? _]]]; [congruence|congruence| |congruence]. by rewrite Hown.
Qed.
End value_step.

(** The steps on one value. *)
Section value_steps.
Context {g : ghost} {s : store} (Hs : store_ok g s).

Definition set_vown g l o : ghost := mkGhost (<[l := o]> (vown g)) (rown g) (hold g).
Definition set_hold g m : ghost := mkGhost (vown g) (rown g) m.

Lemma bound_same g' s' l o o' : idx s' = idx s → vown g' = <[l := o']> (vown g) → vown g !! l = Some o →
  (∀ k, keyed o' k ↔ keyed o k) →
  ∀ k l', bound s' k l' ↔ word64 k.2 ∧ ∃ o, vown g' !! l' = Some o ∧ keyed o k.
Proof.
  intros Hi Hv Ho Hk k l'. rewrite Hi, (so_bound _ _ Hs), Hv. destruct (decide (l' = l)) as [->|Hne].
  - rewrite lookup_insert_eq, Ho. naive_solver.
  - by rewrite lookup_insert_ne.
Qed.

Lemma bound_removed k g' s' l o : vown g' = <[l := o]> (vown g) → idx s' = (idx_remove (idx s) k.1 k.2).2 →
  word64 k.2 → (∃ o, vown g !! l = Some o ∧ keyed o k) → (∀ k', ¬ keyed o k') →
  index_ok (idx s') ∧ ∀ k' l', bound s' k' l' ↔ word64 k'.2 ∧ ∃ o, vown g' !! l' = Some o ∧ keyed o k'.
Proof.
  intros Hv Hi Hw (o1 & Ho1 & Hk1) Hno. destruct (remove_result (idx s) k.1 k.2 (so_index _ _ Hs) Hw) as (i' & Hrem & Hok & Hat).
  rewrite Hrem in Hi. simpl in Hi. rewrite Hi. split; [done|]. intros k' l'. rewrite Hv.
  destruct (decide (word64 k'.2)) as [Hw'|]; [|naive_solver]. rewrite Hat by done. case_decide as Hd.
  - destruct Hd as [H1 H2]. assert (k' = k) as -> by (by destruct k, k'; simpl in *; subst). split; [naive_solver|].
    intros (_ & o' & Ho' & Hk'). exfalso. apply lookup_insert_Some in Ho' as [[<- <-]|[Hne Ho']]; [by eapply Hno|].
    apply Hne. by eapply (keyed_unique g s k).
  - assert (k' ≠ k) as Hne by (intros ->; by apply Hd). rewrite (so_bound _ _ Hs).
    destruct (decide (l' = l)) as [->|Hl]; [rewrite lookup_insert_eq, Ho1|by rewrite lookup_insert_ne].
    split; [|intros (_ & ? & [= <-] & Hkk); exfalso; by eapply Hno]. intros (_ & ? & [= <-] & Hk'). exfalso. apply Hne.
    unfold keyed in *. naive_solver.
Qed.

Lemma hold_locked l v : values s !! l = Some v → lock (tidword v) = bool_decide (is_Some (hold g !! l)).
Proof.
  intros Hv. destruct (so_owned _ _ Hs l v Hv) as [o Ho]. destruct (so_value _ _ Hs l o Ho) as (v' & Hv' & _ & Hl & _).
  congruence.
Qed.

Lemma value_of l o : vown g !! l = Some o → ∃ v, values s !! l = Some v ∧ value_ok g s l v o.
Proof. apply (so_value _ _ Hs). Qed.

(** Taking and dropping the lock. *)
Lemma relock_step i l v o b h' : values s !! l = Some v → vown g !! l = Some o →
  (∀ j k, hold g !! l = Some (j, k) → j = i) → (∀ l', l' ≠ l → h' !! l' = hold g !! l') →
  b = bool_decide (is_Some (h' !! l)) →
  footprint i g s (set_hold g h') (set_value s l (mkValue (set_lock (tidword v) b) (vrec v))) none ∧
  ∀ k, word64 k.2 → view (set_value s l (mkValue (set_lock (tidword v) b) (vrec v))) k = view s k.
Proof.
  intros Hv Ho Hmine Hh' Hb. destruct (value_of l o Ho) as (v0 & Hv0 & Hw & Hl & Hk). assert (v0 = v) as -> by congruence.
  assert (footprint i g s (set_hold g h') (set_value s l (mkValue (set_lock (tidword v) b) (vrec v))) none) as Hfp.
  { apply (value_step i l (mkValue (set_lock (tidword v) b) (vrec v)) o); try done.
    - simpl. by rewrite insert_id.
    - right. split; [|intros ?; rewrite Ho; intros [= <-]; apply own_le_refl]. intros v1. rewrite Hv. intros [= <-]. left. by exists b.
    - intros j k _. rewrite Ho. by intros [= ->].
    - intros r _ _. split; [done|by left].
    - apply (so_rec _ _ Hs).
    - apply Hs.
    - eapply bound_same; [done| |done|done]. simpl. by rewrite insert_id. }
  split; [done|]. intros k Hwk. eapply view_eq; [done|apply Hfp|done|done|]. simpl. intros l1 v1 r Hl1 Hv1 Hr. split; [done|].
  destruct (decide (l1 = l)) as [->|Hne].
  - rewrite lookup_insert_eq. eexists. split; [done|]. assert (v1 = v) as -> by congruence. done.
  - rewrite lookup_insert_ne by done. eauto.
Qed.

(** A new value enters the index. *)
Lemma new_value_step i k l v ix : values s !! l = None → word64 k.2 →
  vrec v = None → word_ok (tidword v) → is_readable (tidword v) = false → lock (tidword v) = false →
  index_ok ix → (∀ x y : Z, word64 y → idx_at ix x y = if decide (x = k.1 ∧ y = k.2) then Some l else idx_at (idx s) x y) →
  idx_at (idx s) k.1 k.2 = None →
  footprint i g s (set_vown g l (New i k)) (set_idx (set_value s l v) ix) none ∧
  ∀ k, word64 k.2 → view (set_idx (set_value s l v) ix) k = view s k.
Proof.
  intros Hl Hw Hrec Hwok Hread Hlock Hi' Hat Hno.
  assert (vown g !! l = None) as Hlo.
  { destruct (vown g !! l) as [o|] eqn:Ho; [|done]. destruct (value_of l o Ho) as (? & ? & _). congruence. }
  assert (hold g !! l = None) as Hh.
  { destruct (hold g !! l) as [x|] eqn:Hx; [|done]. destruct (so_hold _ _ Hs l x Hx). congruence. }
  assert (footprint i g s (set_vown g l (New i k)) (set_idx (set_value s l v) ix) none) as Hfp.
  { apply (value_step i l v (New i k)); try done.
    - intros j k'. by rewrite Hh.
    - right. split; intros ?; [by rewrite Hl|by rewrite Hlo].
    - intros j k' _. by rewrite Hlo.
    - intros r _ _. split; [done|by left].
    - apply (so_rec _ _ Hs).
    - split_and!; [done| |done|done]. simpl. by rewrite Hh, Hlock.
    - intros k' l'. simpl. destruct (decide (word64 k'.2)) as [Hw'|]; [|naive_solver]. rewrite Hat by done. case_decide as Hd.
      + destruct Hd as [H1 H2]. assert (k' = k) as -> by (by destruct k, k'; simpl in *; subst). split.
        * intros [_ [= <-]]. split; [done|]. exists (New i k). rewrite lookup_insert_eq. split; [done|right; eauto].
        * intros (_ & o & [[<- _]|[_ Ho]]%lookup_insert_Some & Hk); [done|]. exfalso.
          destruct (proj2 (so_bound _ _ Hs k l')) as [_ ?]; [eauto|congruence].
      + rewrite (so_bound _ _ Hs). destruct (decide (l' = l)) as [->|]; [rewrite lookup_insert_eq, Hlo|by rewrite lookup_insert_ne].
        split; [naive_solver|]. intros (_ & ? & [= <-] & [?|[j [= _ <-]]]); [done|]. by destruct Hd. }
  split; [done|]. intros k' Hwk. eapply view_eq; [done|apply Hfp|done| |]; simpl.
  - intros l' [[_ ?]|[_ ?]]%lookup_insert_Some; done.
  - intros l' v1 r Hl' Hv1 Hr. assert (l' ≠ l) by congruence. rewrite !lookup_insert_ne by done. eauto.
Qed.

(** The record of a value is replaced by the local one of an entry, or the
    value is taken out of the index; the old record is retired. *)
Definition retire_rec i (o : Ptr) (m : gmap loc rowner) : gmap loc rowner :=
  if o is Some r then <[r := Retired i]> m else m.
Definition newborn i l (o : vowner) (x : garbage) : Prop := x = GVal l ∧ ∃ k, o = New i k.

Section removal.
Context (i : nat) (k : Z * Z) (l : loc) (v : Value) (o : vowner).
Context (Hv : values s !! l = Some v) (Ho : vown g !! l = Some o) (Hk : keyed o k) (Hw : word64 k.2).
Context (Hown : ∀ j k', o = New j k' → j = i) (Hmine : ∀ j k', hold g !! l = Some (j, k') → j = i).

Lemma old_record r : vrec v = Some r → o = Live k ∧ rown g !! r = Some (Committed l) ∧ is_Some (records s !! r).
Proof using Hs Hv Ho Hk Hown.
  intros Hr. destruct (value_of l o Ho) as (v0 & Hv0 & _ & _ & Hkk). assert (v0 = v) as -> by congruence.
  destruct Hk as [->|[j ->]]; [|by destruct Hkk; congruence].
  destruct Hkk as (_ & r0 & Hr0 & Hc & b & Hb & _). assert (r0 = r) as -> by congruence. split_and!; [done..|by eexists].
Qed.

Lemma retire_lookup r : retire_rec i (vrec v) (rown g) !! r = rown g !! r ∨
  vrec v = Some r ∧ rown g !! r = Some (Committed l) ∧ retire_rec i (vrec v) (rown g) !! r = Some (Retired i).
Proof using Hs Hv Ho Hk Hown.
  unfold retire_rec. destruct (vrec v) as [r0|] eqn:Hr0; [|by left]. destruct (decide (r = r0)) as [->|Hne].
  - right. rewrite lookup_insert_eq. destruct (old_record r0) as (_ & ? & _); done.
  - left. by rewrite lookup_insert_ne.
Qed.

Lemma install_step r w : rown g !! r = Some (Local i k) → sized s k r → hold g !! l = Some (i, k) →
  word_ok w → is_readable w = true → lock w = false → tid (tidword v) < tid w →
  let g' := mkGhost (<[l := Live k]> (vown g)) (<[r := Committed l]> (retire_rec i (vrec v) (rown g))) (delete l (hold g)) in
  let s' := set_value s l (mkValue w (Some r)) in
  footprint i g s g' s' (newborn i l o) ∧
  ∀ k', word64 k'.2 → view s' k' = if decide (k' = k) then records s !! r else view s k'.
Proof using Hs Hv Ho Hk Hw Hown Hmine.
  intros Hr Hsz Hh Hwok Hread Hlock Htid g' s'.
  assert (footprint i g s g' s' (newborn i l o)) as Hfp.
  { apply (value_step i l (mkValue w (Some r)) (Live k)); try done.
    - intros l' Hl'. simpl. by rewrite lookup_delete_ne.
    - destruct Hk as [->|[j ->]]; [right|left; split; [done|]; rewrite (Hown j k eq_refl); eauto].
      split; [|intros o1; rewrite Ho; intros [= <-]; apply own_le_refl]. intros v1. rewrite Hv. intros [= <-]. by right.
    - intros j k' _ Hd. destruct Hk as [->|[? ->]]; congruence.
    - intros r1 Hn1 Hn2. split; [done|]. simpl. rewrite lookup_insert_ne by (intros <-; by apply (Hn1 k)).
      destruct (retire_lookup r1) as [?|(_ & ? & ?)]; [by left|by right].
    - intros r1 o1. simpl. intros [[<- _]|[_ Hr1]]%lookup_insert_Some; [by destruct Hsz as (? & -> & _)|].
      destruct (retire_lookup r1) as [Heq|(Hold & _ & _)]; [rewrite Heq in Hr1; by eapply so_rec|by apply old_record].
    - split_and!; [done| |done|].
      + simpl. by rewrite lookup_delete_eq, Hlock.
      + exists r. simpl. by rewrite lookup_insert_eq.
    - apply Hs.
    - eapply bound_same; [done|done|done|]. intros k'. unfold keyed in *. naive_solver. }
  split; [done|]. intros k' Hw'. case_decide as Hd.
  - subst k'. rewrite (view_live g' s' k l (mkValue w (Some r))); [done|apply Hfp|done|..]; simpl; by rewrite lookup_insert_eq.
  - eapply view_eq; [done|apply Hfp|done| |]; simpl.
    + intros l' [[_ ?]|[_ ?]]%lookup_insert_Some; congruence.
    + intros l' v1 r1 Hl' Hv1 Hr1. assert (l' ≠ l) by (intros ->; destruct Hk as [->|[? ->]]; congruence).
      rewrite !lookup_insert_ne by done. eauto.
Qed.

Lemma remove_step w : word_ok w → is_readable w = false → lock w = false → (o = Live k → tid (tidword v) < tid w) →
  let g' := mkGhost (<[l := Dead i k]> (vown g)) (retire_rec i (vrec v) (rown g)) (delete l (hold g)) in
  let s' := set_idx (set_value s l (mkValue w None)) (idx_remove (idx s) k.1 k.2).2 in
  footprint i g s g' s' (newborn i l o) ∧
  ∀ k', word64 k'.2 → view s' k' = if decide (k' = k) then None else view s k'.
Proof using Hs Hv Ho Hk Hw Hown Hmine.
  intros Hwok Hread Hlock Htid g' s'.
  destruct (bound_removed k g' s' l (Dead i k)) as [Hidx Hbound]; [done|done|done|eauto|unfold keyed; naive_solver|].
  assert (footprint i g s g' s' (newborn i l o)) as Hfp.
  { apply (value_step i l (mkValue w None) (Dead i k)); try done.
    - intros l' Hl'. simpl. by rewrite lookup_delete_ne.
    - destruct Hk as [->|[j ->]]; [right|left; split; [done|]; rewrite (Hown j k eq_refl); eauto].
      split; [|intros o1; rewrite Ho; intros [= <-]; right; eauto]. intros v1. rewrite Hv. intros [= <-]. right. by apply Htid.
    - intros j k' _ Hd. destruct Hk as [->|[? ->]]; congruence.
    - intros r1 _ _. split; [done|]. destruct (retire_lookup r1) as [?|(_ & ? & ?)]; [by left|by right].
    - intros r1 o1 Hr1. simpl in *. destruct (retire_lookup r1) as [Heq|(Hold & _ & _)]; [rewrite Heq in Hr1; by eapply so_rec|by apply old_record].
    - split_and!; [done| |done|done]. simpl. by rewrite lookup_delete_eq, Hlock. }
  split; [done|]. intros k' Hw'. case_decide as Hd.
  - subst k'. eapply view_dead; [apply Hfp|done|]. intros l'. simpl. intros [[_ ?]|[Hne Hl']]%lookup_insert_Some; [done|].
    apply Hne. by eapply (keyed_unique g s k); [| | | |done|left].
  - eapply view_eq; [done|apply Hfp|done| |]; simpl.
    + intros l' [[_ ?]|[_ ?]]%lookup_insert_Some; congruence.
    + intros l' v1 r1 Hl' Hv1 Hr1. assert (l' ≠ l) by (intros ->; destruct Hk as [->|[? ->]]; congruence).
      rewrite !lookup_insert_ne by done. eauto.
Qed.
End removal.

(** Freeing what was retired. *)
Lemma free_value_step i k l : vown g !! l = Some (Dead i k) → hold g !! l = None →
  let g' := mkGhost (delete l (vown g)) (rown g) (hold g) in
  let s' := mkStore (delete l (values s)) (records s) (idx s) (global_epoch s) in
  footprint i g s g' s' (λ x, x = GVal l) ∧ ∀ k', word64 k'.2 → view s' k' = view s k'.
Proof.
  intros Hl Hh g' s'. assert (store_ok g' s') as Hs'.
  { destruct Hs as [H1 H2 H3 H4 H5 H6 H7]. split; try done; simpl.
    - intros k' l'. rewrite H2. destruct (decide (l' = l)) as [->|]; [rewrite lookup_delete_eq, Hl|by rewrite lookup_delete_ne].
      unfold keyed. naive_solver.
    - intros l' o [Hne Ho]%lookup_delete_Some. destruct (H3 l' o Ho) as (v & Hv & Hok). exists v. by rewrite lookup_delete_ne.
    - intros l' v [Hne Hv]%lookup_delete_Some. rewrite lookup_delete_ne by done. eauto.
    - intros l' x Hx. destruct (decide (l' = l)) as [->|]; [congruence|]. rewrite lookup_delete_ne by done. eauto. }
  split; [split; [done|]|].
  - intros j R Hj HR. assert (¬ R (GVal l)) as Hnl by (by apply HR). split; simpl; try done.
    + intros l' v HRl Hv. rewrite lookup_delete_ne by (by intros ->). eauto using val_le_refl.
    + intros l' o HRl Ho. rewrite lookup_delete_ne by (by intros ->). eauto using own_le_refl.
    + intros l' k' Hl'. rewrite !lookup_delete_ne by congruence. done.
    + intros l' k' Hl'. rewrite lookup_delete_ne by congruence. done.
  - intros k' Hw. eapply view_eq; [done|apply Hs'|done| |]; simpl.
    + intros l' [_ ?]%lookup_delete_Some. done.
    + intros l' v r Hl' Hv Hr. rewrite !lookup_delete_ne by congruence. eauto.
Qed.

Lemma free_record_step i r : rown g !! r = Some (Retired i) →
  let g' := set_rown g (delete r (rown g)) in
  let s' := set_records s (delete r (records s)) in
  footprint i g s g' s' (λ x, x = GRec (Some r)) ∧ ∀ k', word64 k'.2 → view s' k' = view s k'.
Proof.
  intros Hr g' s'. assert (store_ok g' s') as Hs'.
  { destruct Hs as [H1 H2 H3 H4 H5 H6 H7]. split; try done; simpl.
    - intros l o Ho. destruct (H3 l o Ho) as (v & Hv & Hw & Hlk & Hok). exists v. split; [done|]. split; [done|]. split; [done|].
      destruct o as [k| |]; [|done..]. destruct Hok as (? & r' & Hr' & Hc & b & Hb & ?). split; [done|]. exists r'. simpl.
      rewrite lookup_delete_ne by congruence. split_and!; [done..|]. exists b. simpl. by rewrite lookup_delete_ne by congruence.
    - intros r' o [Hne Ho]%lookup_delete_Some. rewrite lookup_delete_ne by done. eauto. }
  split; [split; [done|]|].
  - intros j R Hj HR. assert (¬ R (GRec (Some r))) as Hnl by (by apply HR).
    split; simpl; try done; [eauto using val_le_refl|eauto using own_le_refl|..].
    + intros r' k Hr'. rewrite !lookup_delete_ne by congruence. done.
    + intros r' HRr Hst. assert (r' ≠ r) by (by intros ->). unfold stable_rec. simpl. by rewrite !lookup_delete_ne by done.
    + intros r' Hr'. rewrite lookup_delete_ne by congruence. done.
  - intros k' Hw. eapply view_eq; [done|apply Hs'|done|done|]. simpl. intros l v r' Hl Hv Hr'. split; [done|]. exists v. split_and!; [done..|].
    destruct (value_of l _ Hl) as (v0 & Hv0 & _ & _ & _ & r0 & Hr0 & Hc & _). rewrite lookup_delete_ne by congruence. done.
Qed.
End value_steps.

(** ** One thread moves *)

Lemma evolves_refl g s j R : evolves g s g s j R.
Proof. split; eauto using val_le_refl, own_le_refl. Qed.

Lemma footprint_refl g s i : store_ok g s → footprint i g s g s none.
Proof. intros Hs. split; [done|]. intros. apply evolves_refl. Qed.

(** Neither retired nor locked. *)
Definition unclaimed g (x : garbage) : Prop :=
  match x with
  | GVal l => (∀ j k, vown g !! l ≠ Some (Dead j k)) ∧ hold g !! l = None
  | GRec (Some r) => ∃ l, rown g !! r = Some (Committed l) ∧ hold g !! l = None
  | GRec None => False
  end.

Lemma unclaimed_retired g j x : unclaimed g x → retired g j x → False.
Proof. destruct x as [[r|]|l]; simpl; [intros (l & Hr & _) ?; congruence|done|]. intros [Hd _] [k Hk]. by eapply Hd. Qed.

Lemma unclaimed_held g s j U k e v x : store_ok g s → thread_ok g s j U → k ∈ held_keys U → rws (ttx U) !! k = Some e →
  values s !! val e = Some v → x = GVal (val e) ∨ x = GRec (vrec v) → unclaimed g x → False.
Proof.
  intros Hs HU Hk He Hv Hx Hun. destruct (to_hold _ _ _ _ HU k e Hk He) as [Hh _].
  destruct Hx as [->| ->]; simpl in Hun; [destruct Hun; congruence|]. destruct (vrec v) as [r|] eqn:Hr; [|done].
  destruct Hun as (l & Hrl & Hl). destruct (so_owned _ _ Hs _ _ Hv) as [o Ho].
  destruct (so_value _ _ Hs _ _ Ho) as (v0 & Hv0 & _ & _ & Hok). assert (v0 = v) as -> by congruence.
  destruct o as [k0| |]; [|destruct Hok; congruence..]. destruct Hok as (_ & r0 & Hr0 & Hc & _).
  assert (r0 = r) as -> by congruence. assert (l = val e) as -> by congruence. congruence.
Qed.

Lemma thread_moves g s g' s' th i T T' gone :
  sys_ok g s th → th !! i = Some T → footprint i g s g' s' gone →
  (∀ j U x, j ≠ i → th !! j = Some U → gone x → ¬ refs U x) →
  thread_ok g' s' i T' →
  (∀ l j k, hold g' !! l = Some (j, k) → j ≠ i ∧ hold g !! l = Some (j, k) ∨
    j = i ∧ ∃ e, k ∈ held_keys T' ∧ rws (ttx T') !! k = Some e ∧ val e = l) →
  (∀ x, refs T' x → refs T x ∧ starting_epoch (ttx T') = starting_epoch (ttx T) ∨ unclaimed g x) →
  (∀ c x, (c, x) ∈ gc_container (ttx T') → (c, x) ∈ gc_container (ttx T) ∨
    ∀ j U, <[i := T']> th !! j = Some U → refs U x → starting_epoch (ttx U) ≤ c) →
  (∀ x, x ∈ freeing (tpc T') → ¬ alive (tpc T') ∧ (x ∈ freeing (tpc T) ∨ ∀ j U, j ≠ i → th !! j = Some U → ¬ refs U x)) →
  (∀ c k e v, commit_epoch (tpc T') = Some c → k ∈ held_keys T' → rws (ttx T') !! k = Some e → values s' !! val e = Some v →
    (commit_epoch (tpc T) = Some c ∧ k ∈ held_keys T ∧ rws (ttx T) !! k = Some e ∧ values s !! val e = Some v) ∨
    ∀ j U, <[i := T']> th !! j = Some U → alive (tpc U) → starting_epoch (ttx U) ≤ c) →
  sys_ok g' s' (<[i := T']> th).
Proof.
  intros Hsys HT [Hs' Hoth] Hgone HT' Hhold Hrefs Hgc Hfree Hcom. pose proof Hsys as [Hs Hth Hh Hg Hf Hc].
  assert (∀ j U, j ≠ i → th !! j = Some U → evolves g s g' s' j (refs U)) as Hev by (intros j U ? ?; apply Hoth; [done|]; intros x Hx; by apply (Hgone j U x)).
  assert (∀ j U x, <[i := T']> th !! j = Some U → refs U x →
    (∃ U0, th !! j = Some U0 ∧ refs U0 x ∧ starting_epoch (ttx U) = starting_epoch (ttx U0)) ∨ unclaimed g x) as Hback.
  { intros j U x [[<- <-]|[Hne HU]]%lookup_insert_Some Hx; [|left; eauto].
    destruct (Hrefs x Hx) as [[? ?]|?]; [left; eauto|by right]. }
  split; [done| | | | |].
  - intros j U [[<- <-]|[Hne HU]]%lookup_insert_Some; [done|]. eapply evolves_thread; [by apply Hth|by apply Hev].
  - intros l j k [[Hne Hl]|[-> (e & Hk & He & Hl)]]%Hhold.
    + destruct (Hh l j k Hl) as (U & e & HU & ?). exists U, e. by rewrite lookup_insert_ne.
    + exists T', e. by rewrite lookup_insert_eq.
  - intros j U j' U' c x HU HU' Hin Hx.
    assert ((∃ U0, th !! j = Some U0 ∧ (c, x) ∈ gc_container (ttx U0)) ∨ ∀ j U, <[i := T']> th !! j = Some U → refs U x → starting_epoch (ttx U) ≤ c)
      as [(U0 & HU0 & Hin0)|Hall]; [|destruct (Hback j' U' x HU' Hx) as [(V & HV & HxV & ->)|Hun]|by eapply Hall].
    { apply lookup_insert_Some in HU as [[<- <-]|[Hne HU]]; [|left; eauto]. destruct (Hgc c x Hin); [left; eauto|by right]. }
    + by apply (Hg j U0 j' V c x).
    + exfalso. eapply (unclaimed_retired g j x); [done|]. apply (to_retired _ _ _ _ (Hth j U0 HU0)). apply elem_of_app. left.
      by apply (list_elem_of_fmap_2 snd _ (c, x)).
  - intros j U j' U' x HU HU' Hin Hx.
    assert ((∃ U0, th !! j = Some U0 ∧ x ∈ freeing (tpc U0)) ∨ ∀ j U, <[i := T']> th !! j = Some U → ¬ refs U x) as [(U0 & HU0 & Hin0)|Hall].
    { apply lookup_insert_Some in HU as [[<- <-]|[Hne HU]]; [|left; eauto]. destruct (Hfree x Hin) as [Hna [?|Hall]]; [left; eauto|right].
      intros j1 U1 [[<- <-]|[Hne HU1]]%lookup_insert_Some; [by intros [? _]|by eapply Hall]. }
    + destruct (Hback j' U' x HU' Hx) as [(V & HV & HxV & _)|Hun]; [by apply (Hf j U0 j' V x)|].
      eapply (unclaimed_retired g j x); [done|]. apply (to_retired _ _ _ _ (Hth j U0 HU0)). apply elem_of_app. by right.
    + by eapply Hall.
  - intros j U j' U' c k e v x HU HU' Hce Hk He Hv Hxx Hx.
    assert ((∃ U0, th !! j = Some U0 ∧ commit_epoch (tpc U0) = Some c ∧ k ∈ held_keys U0 ∧ rws (ttx U0) !! k = Some e ∧ values s !! val e = Some v) ∨
      ∀ j U, <[i := T']> th !! j = Some U → alive (tpc U) → starting_epoch (ttx U) ≤ c) as [(U0 & HU0 & H1 & H2 & H3 & H4)|Hall].
    { apply lookup_insert_Some in HU as [[<- <-]|[Hne HU]].
      - destruct (Hcom c k e v Hce Hk He Hv) as [(?&?&?&?)|?]; [left; eauto 10|by right].
      - left. exists U. split_and!; try done. destruct (to_hold _ _ _ _ (Hth j U HU) k e Hk He) as [Hl _].
        destruct (ev_held _ _ _ _ _ _ (Hev j U ltac:(done) HU) _ _ Hl) as (_ & <- & _). done. }
    + destruct (Hback j' U' x HU' Hx) as [(V & HV & HxV & ->)|Hun]; [by apply (Hc j U0 j' V c k e v x)|]. exfalso.
      eapply (unclaimed_held g s j U0); [done|by apply Hth|done..].
    + eapply Hall; [done|by destruct Hx].
Qed.

(** ** The calls of a transaction *)

Lemma val_le_trans v1 v2 v3 : val_le v1 v2 → val_le v2 v3 → val_le v1 v3.
Proof.
  intros [(b & H1 & H2)|H1] [(b' & H3 & H4)|H3].
  - left. exists b'. rewrite H3, H1, H4, H2. done.
  - right. rewrite H1 in H3. done.
  - right. rewrite H3. done.
  - right. lia.
Qed.

Lemma own_le_trans o1 o2 o3 : own_le o1 o2 → own_le o2 o3 → own_le o1 o3.
Proof. unfold own_le. naive_solver. Qed.

Lemma evolves_trans g1 s1 g2 s2 g3 s3 j R : evolves g1 s1 g2 s2 j R → evolves g2 s2 g3 s3 j R → evolves g1 s1 g3 s3 j R.
Proof.
  intros [Ee Ev Eo Eh El Es Ed Er] [Ee' Ev' Eo' Eh' El' Es' Ed' Er']. split.
  - congruence.
  - intros l v HR Hv. destruct (Ev l v HR Hv) as (v2 & Hv2 & ?), (Ev' l v2 HR Hv2) as (v3 & ? & ?). eauto using val_le_trans.
  - intros l o HR Ho. destruct (Eo l o HR Ho) as (o2 & Ho2 & ?), (Eo' l o2 HR Ho2) as (o3 & ? & ?). eauto using own_le_trans.
  - intros l k Hl. destruct (Eh l k Hl) as (Hl2 & <- & <-). by apply Eh' in Hl2.
  - intros r k Hr. destruct (El r k Hr) as (Hr2 & <-). by apply El' in Hr2.
  - intros r HR Hr. destruct (Es r HR Hr) as [<- Hr2]. by apply Es'.
  - eauto.
  - eauto.
Qed.

(** Steps that leave the database and the other threads alone. *)
Definition quiet i g s g' s' : Prop :=
  (∀ j R, j ≠ i → evolves g s g' s' j R) ∧ ∀ k, word64 k.2 → view s' k = view s k.

Lemma still_refl i g s : quiet i g s g s.
Proof. split; [|done]. intros. apply evolves_refl. Qed.

Lemma still_trans i g1 s1 g2 s2 g3 s3 : quiet i g1 s1 g2 s2 → quiet i g2 s2 g3 s3 → quiet i g1 s1 g3 s3.
Proof.
  intros [H1 H2] [H3 H4]. split; [intros; eapply evolves_trans; eauto|]. intros k Hk. rewrite H4, H2 by done. done.
Qed.

Lemma footprint_quiet i g s g' s' : footprint i g s g' s' none → (∀ k, word64 k.2 → view s' k = view s k) → quiet i g s g' s'.
Proof. intros [_ H] Hv. split; [|done]. intros j R Hj. by apply H. Qed.

Section calls.
Context (th : gmap nat thread) (i n : nat).
#[local] Abbreviation calling t := (<[i := mkThread t Calls n]> th).

(** Some ghost state for the new store, reached quietly. *)
Definition calls_ok g s s' t' : Prop := ∃ g', sys_ok g' s' (calling t') ∧ quiet i g s g' s'.

Lemma calls_same g s t : sys_ok g s (calling t) → calls_ok g s s t.
Proof. intros. exists g. split; [done|apply still_refl]. Qed.

Lemma calls_trans g1 s1 g2 s2 s3 t : quiet i g1 s1 g2 s2 → calls_ok g2 s2 s3 t → calls_ok g1 s1 s3 t.
Proof. intros Hq (g3 & ? & ?). exists g3. split; [done|]. by eapply still_trans. Qed.

(** The transaction changes, the store does not. *)
Lemma retx g s t t' : sys_ok g s (calling t) → shape t' →
  starting_epoch t' = starting_epoch t → gc_container t' = gc_container t →
  (∀ k e, rws t' !! k = Some e → entry_ok g s i t' k e ∧ (refs (mkThread t Calls n) (GVal (val e)) ∨ unclaimed g (GVal (val e)))) →
  (∀ k r b, seen t' !! k = Some (r, b) → seen t !! k = Some (r, b) ∨
    records s !! r = Some b ∧ stable_rec g r ∧ unclaimed g (GRec (Some r))) →
  sys_ok g s (calling t').
Proof.
  intros Hsys Hsh Hse Hgc Hen Hseen.
  pose proof (sy_thread _ _ _ Hsys i _ (lookup_insert_eq _ _ _)) as [_ _ H3 H4 _ H6 H7 H8 H9 H10].
  rewrite <- (insert_insert_eq th i (mkThread t' Calls n) (mkThread t Calls n)).
  eapply (thread_moves g s g s _ i (mkThread t Calls n)); [done|apply lookup_insert_eq|apply footprint_refl, Hsys|done|..].
  - unfold garbage_of in *. split; unfold garbage_of; simpl in *; rewrite ?Hse, ?Hgc; try done.
    + intros k e He _. by apply Hen.
    + intros _ k r b [Hs|(? & ? & _)]%Hseen; [by apply (H6 I k)|done].
    + intros k e Hk. by apply not_elem_of_nil in Hk.
  - intros l j k Hl. destruct (sy_hold _ _ _ Hsys l j k Hl) as (U & e & HU & Hk & _).
    destruct (decide (j = i)) as [->|]; [|by left]. rewrite lookup_insert_eq in HU. injection HU as <-. by apply not_elem_of_nil in Hk.
  - intros x [_ [(k & e & He & _ & ->)|(k & r & b & Hs & ->)]]; simpl in *.
    + destruct (proj2 (Hen k e He)); [by left|by right].
    + destruct (Hseen k r b Hs) as [?|(_ & _ & ?)]; [left|by right]. split; [|done]. split; [done|]. right. eauto.
  - intros c x. simpl. rewrite Hgc. by left.
  - intros x Hx. by apply not_elem_of_nil in Hx.
  - done.
Qed.

(** A local record is allocated, written or freed; [k] is its key. *)
Lemma relocal g s t k r o recs' : sys_ok g s (calling t) →
  rown g !! r = None ∨ rown g !! r = Some (Local i k) →
  (o = None ∨ o = Some (Local i k) ∧ is_Some (recs' !! r)) → (∀ r', r' ≠ r → recs' !! r' = records s !! r') →
  (∀ k' e, rws t !! k' = Some e → rec e = Some r → o = Some (Local i k') ∧ sized (set_records s recs') k' r) →
  let g' := set_rown g (partial_alter (λ _, o) r (rown g)) in
  sys_ok g' (set_records s recs') (calling t) ∧ quiet i g s g' (set_records s recs').
Proof.
  intros Hsys Hr Ho Hrecs Hent g'.
  destruct (local_step (sy_store _ _ _ Hsys) i k r o recs' Hr Ho Hrecs) as [Hfp Hview].
  split; [|by apply footprint_quiet].
  pose proof (sy_thread _ _ _ Hsys i _ (lookup_insert_eq _ _ _)) as [H1 H2 H3 H4 H5 H6 H7 H8 H9 H10].
  rewrite <- (insert_insert_eq th i (mkThread t Calls n) (mkThread t Calls n)).
  assert (∀ r', r' ≠ r → rown g' !! r' = rown g !! r') as Hne by (intros r' ?; simpl; by apply lookup_partial_alter_ne).
  assert (∀ r', stable_rec g r' → r' ≠ r) as Hst by (intros r' [[? ?]|[? ?]] ->; destruct Hr; congruence).
  eapply (thread_moves g s g' _ _ i (mkThread t Calls n)); [done|apply lookup_insert_eq|apply Hfp|done|..].
  - split; simpl in *; try done.
    + intros k' e He _. pose proof (H5 k' e He I) as Hek. destruct (decide (rec e = Some r)) as [Heq|Hneq].
      * destruct Hek as [Hx Hy Hz]. split; [|done|done]. intros r' Hr'. assert (r' = r) as -> by congruence.
        destruct (Hent k' e He Heq) as [Ho' ?]. split; [|done]. simpl. by rewrite lookup_partial_alter_eq.
      * eapply entry_mono; [done| |eauto using own_le_refl|eauto using val_le_refl|done]. intros r' Hr' Hl.
        rewrite Hne, Hrecs by congruence. done.
    + intros _ k' r' b Hs. destruct (H6 I k' r' b Hs) as [Hb Hsr]. pose proof (Hst r' Hsr). rewrite Hrecs by done. split; [done|].
      unfold stable_rec. by rewrite Hne.
    + intros [[r'|]|l] Hx; specialize (H9 _ Hx); simpl in *; [|done..].
      rewrite lookup_partial_alter_ne; [done|]. intros ->. destruct Hr; congruence.
  - intros l j k' Hl. destruct (sy_hold _ _ _ Hsys l j k' Hl) as (U & e & HU & Hk & _).
    destruct (decide (j = i)) as [->|]; [|by left]. rewrite lookup_insert_eq in HU. injection HU as <-. by apply not_elem_of_nil in Hk.
  - intros x Hx. left. done.
  - intros c x. by left.
  - intros x Hx. by apply not_elem_of_nil in Hx.
  - done.
Qed.
End calls.
End silo_invariant.
