(* ===== verification/SiloCalls.v ===== *)
(** * The operations of Silo keep the invariant

    Every operation of a transaction either waits for a locked row or
    returns, never throws or fails an assertion, and leaves the invariant,
    the database and the other threads as they were. *)
From stdpp Require Import sorting.
From S2P Require Import Prelude Versions BitFields Epoch Index Memory Silo SiloInv.

Section silo_calls.
Import Memory Silo.
Context `{HI : NodeIndex loc} `{HL : !NodeIndexLaws loc} (schema : gmap Z nat).
Implicit Types (s : store) (t : tx) (T : thread) (k : Z * Z) (l r : loc) (e : ReadWriteElement) (v : Value) (p : pc).
Implicit Types (g : ghost) (i j : nat).

(** ** The read/write set *)

Lemma write_keys_push t k x : write_keys (push_write t k) x = if decide (x = k.1) then write_keys t k.1 ++ [k.2] else write_keys t x.
Proof.
  unfold write_keys, push_write, set_writes. simpl. case_decide as Hd; [subst; by rewrite lookup_insert_eq|by rewrite lookup_insert_ne].
Qed.

(** An entry is set, and its key added to the write set when it was not
    there and has to be. *)
Lemma shape_put t k e (b : bool) : shape t → k.1 ∈ tables t → word64 k.1 → word64 k.2 → elem_ok e →
  (∀ e0, rws t !! k = Some e0 → rwt e0 ≠ READ → b = false ∧ rwt e ≠ READ) →
  ((∀ e0, rws t !! k = Some e0 → rwt e0 = READ) → b = bool_decide (rwt e ≠ READ)) →
  shape (if b then push_write (put t k e) k else put t k e).
Proof.
  intros [H1 H2 H3] Htab Hw1 Hw2 He Hold Hnew.
  assert (k.2 ∈ write_keys t k.1 → b = false ∧ rwt e ≠ READ) as Hin by (intros (e0 & ? & ?)%H2; eauto).
  assert (k.2 ∉ write_keys t k.1 → b = bool_decide (rwt e ≠ READ)) as Hout.
  { intros Hni. apply Hnew. intros e0 He0. destruct (decide (rwt e0 = READ)); [done|]. exfalso. apply Hni, H2. eauto. }
  assert (∀ k', k'.2 ∈ write_keys (if b then push_write (put t k e) k else put t k e) k'.1 ↔
    (k' = k ∧ b = true) ∨ k'.2 ∈ write_keys t k'.1) as Hk.
  { intros k'. destruct b; [|naive_solver]. rewrite write_keys_push. destruct (decide (k'.1 = k.1)) as [Hd|Hd].
    - change (write_keys (put t k e) k.1) with (write_keys t k.1). rewrite elem_of_app, list_elem_of_singleton, <- Hd.
      destruct k, k'; simpl in *; subst. naive_solver.
    - change (write_keys (put t k e)) with (write_keys t). split; [by right|]. intros [[-> _]|?]; [by destruct Hd|done]. }
  assert (∀ k' : Z * Z, rws (if b then push_write (put t k e) k else put t k e) !! k' = <[k := e]> (rws t) !! k') as Hr by (by destruct b).
  split.
  - intros k' e'. rewrite Hr. intros [[<- <-]|[_ ?]]%lookup_insert_Some; [by destruct b|].
    destruct (H1 k' e') as (? & ? & ? & ?); [done|]. by destruct b.
  - intros k'. rewrite Hk, Hr. destruct (decide (k' = k)) as [->|Hne].
    + rewrite lookup_insert_eq. destruct (decide (k.2 ∈ write_keys t k.1)) as [Hi|Hni].
      * destruct (Hin Hi). naive_solver.
      * rewrite (Hout Hni), bool_decide_eq_true. naive_solver.
    + rewrite lookup_insert_ne by done. rewrite <- H2. naive_solver.
  - intros x. destruct b; [|apply H3]. rewrite write_keys_push. destruct (decide (x = k.1)); [|apply H3].
    apply NoDup_app. split_and!; [apply H3| |apply NoDup_singleton].
    intros y Hy ->%list_elem_of_singleton. by destruct (Hin Hy).
Qed.

Section one_thread.
Context (th : gmap nat thread) (i n : nat).
#[local] Abbreviation calling t := (<[i := mkThread t Calls n]> th).
#[local] Abbreviation me t := (mkThread t Calls n).

Lemma me_ok {g s t} : sys_ok schema g s (calling t) → thread_ok schema g s i (me t).
Proof. intros Hsys. apply (sy_thread _ _ _ _ Hsys), lookup_insert_eq. Qed.

Lemma my_entry {g s t k e} : sys_ok schema g s (calling t) → rws t !! k = Some e → entry_ok schema g s i t k e ∧ refs (me t) (GVal (val e)).
Proof.
  intros Hsys He. split; [by apply (to_entry _ _ _ _ _ (me_ok Hsys) k e)|]. split; [done|]. left. exists k, e. done.
Qed.

(** Tables and noted leaves do not matter. *)
Lemma tx_same g s t t' : sys_ok schema g s (calling t) → rws t' = rws t → ws t' = ws t → seen t' = seen t →
  starting_epoch t' = starting_epoch t → gc_container t' = gc_container t → tables t ⊆ tables t' →
  sys_ok schema g s (calling t').
Proof.
  intros Hsys Hr Hws Hse He Hg Ht. eapply retx; [done| |done|done| |].
  - destruct (to_shape _ _ _ _ _ (me_ok Hsys)) as [H1 H2 H3]. unfold write_keys in *. simpl in *.
    split; unfold write_keys; rewrite ?Hr, ?Hws; [|done..]. intros k e Hk. destruct (H1 k e Hk) as (? & ? & ? & ?). eauto.
  - intros k e. rewrite Hr. intros Hk. destruct (my_entry Hsys Hk) as [Hok Href]. split; [|by left].
    eapply entry_mono; [done|done|eauto using own_le_refl|eauto using val_le_refl|by rewrite Hse].
  - rewrite Hse. by left.
Qed.

Lemma add_table_ok g s t table_id : sys_ok schema g s (calling t) → sys_ok schema g s (calling (add_table t table_id)).
Proof. intros. eapply tx_same; [done..|]. simpl. set_solver. Qed.

Lemma set_nodemap_ok g s t table_id nm : sys_ok schema g s (calling t) → sys_ok schema g s (calling (set_nodemap t table_id nm)).
Proof. intros. by eapply tx_same. Qed.

(** ** Entries *)

(** A readable, unlocked row in the index. *)
Lemma readable_row g s k l v : store_ok schema g s → word64 k.2 → idx_at (idx s) k.1 k.2 = Some l → values s !! l = Some v →
  is_readable (tidword v) = true → vown g !! l = Some (Live k) ∧ word_ok (tidword v) ∧
  ∃ r b, vrec v = Some r ∧ records s !! r = Some b ∧ schema !! k.1 = Some (length b) ∧ rown g !! r = Some (Committed l).
Proof.
  intros Hs Hw Hat Hv Hread. destruct (proj1 (so_bound _ _ _ Hs k l) (conj Hw Hat)) as (_ & o & Ho & Hk).
  destruct (so_value _ _ _ Hs l o Ho) as (v0 & Hv0 & Hwok & _ & Hok). assert (v0 = v) as -> by congruence.
  destruct Hk as [->|[j ->]]; [|destruct Hok; congruence]. destruct Hok as (_ & r & Hr & Hc & b & Hb & Hsz).
  split_and!; [done..|]. exists r, b. done.
Qed.

Lemma row_value g s k l : store_ok schema g s → word64 k.2 → idx_at (idx s) k.1 k.2 = Some l → ∃ v, values s !! l = Some v.
Proof.
  intros Hs Hw Hat. destruct (proj1 (so_bound _ _ _ Hs k l) (conj Hw Hat)) as (_ & o & Ho & _).
  destruct (so_value _ _ _ Hs l o Ho) as (v & ? & _). eauto.
Qed.

Lemma unlocked_hold g s l v : store_ok schema g s → values s !! l = Some v → lock (tidword v) = false → hold g !! l = None.
Proof.
  intros Hs Hv Hl. rewrite (hold_locked schema Hs l v Hv) in Hl. apply bool_decide_eq_false in Hl. by apply eq_None_not_Some.
Qed.

(** The first access to a row. *)
Lemma enter_ok g s t k l v r b e (w : bool) : sys_ok schema g s (calling t) → rws t !! k = None → k.1 ∈ tables t → word64 k.1 → word64 k.2 →
  values s !! l = Some v → lock (tidword v) = false → vown g !! l = Some (Live k) →
  vrec v = Some r → records s !! r = Some b → rown g !! r = Some (Committed l) →
  elem_ok e → tw e = tidword v → is_new e = false → val e = l → w = bool_decide (rwt e ≠ READ) →
  (∀ r, rec e = Some r → rown g !! r = Some (Local i k) ∧ sized schema s k r) →
  sys_ok schema g s (calling (if w then push_write (put (observe t s k (Some r)) k e) k else put (observe t s k (Some r)) k e)).
Proof.
  intros Hsys Hno Htab Hw1 Hw2 Hv Hlk Hl Hr Hb Hc He Htw Hnew Hval -> Hrec.
  pose proof (unlocked_hold g s l v (sy_store _ _ _ _ Hsys) Hv Hlk) as Hh.
  unfold observe. simpl. rewrite Hb. simpl.
  set (t1 := mkTx _ _ _ _ _ _ _).
  assert (∀ (t' := if bool_decide (rwt e ≠ READ) then push_write (put t1 k e) k else put t1 k e),
    rws t' = <[k := e]> (rws t) ∧ seen t' = <[k := (r, b)]> (seen t) ∧ starting_epoch t' = starting_epoch t ∧
    gc_container t' = gc_container t) as (Hr' & Hs' & He' & Hg') by (by case_bool_decide).
  eapply retx; [done| |done|done|rewrite Hr'|rewrite Hs'].
  - apply shape_put; simpl; try done; [|by rewrite Hno]. destruct (to_shape _ _ _ _ _ (me_ok Hsys)). by split.
  - intros k' e' [[<- <-]|[Hne Hk']]%lookup_insert_Some.
    + split; [|right; rewrite Hval; simpl; split; [congruence|done]]. split; [done|congruence|]. intros _. rewrite Hval. split; [by left|].
      exists v. split; [done|]. right. rewrite Htw. split_and!; [done..|]. intros _. exists r, b. by rewrite Hs', lookup_insert_eq.
    + destruct (my_entry Hsys Hk') as [Hok Href]. split; [|by left].
      eapply entry_mono; [done|done|eauto using own_le_refl|eauto using val_le_refl|]. by rewrite Hs', lookup_insert_ne.
  - intros k' r' b' [[<- [= <- <-]]|[Hne Hk']]%lookup_insert_Some; [|by left]. right. split_and!; [done|left; eauto|]. simpl. eauto.
Qed.

(** An entry changes its type and its local record. *)
Lemma change_ok g s t k e e' (w : bool) : sys_ok schema g s (calling t) → rws t !! k = Some e →
  tw e' = tw e → is_new e' = is_new e → val e' = val e → elem_ok e' → rwt e' ≠ READ →
  w = bool_decide (rwt e = READ) →
  (∀ r, rec e' = Some r → rown g !! r = Some (Local i k) ∧ sized schema s k r) →
  sys_ok schema g s (calling (if w then push_write (put t k e') k else put t k e')).
Proof.
  intros Hsys He Htw Hnew Hval He' Hrwt -> Hrec. pose proof (to_shape _ _ _ _ _ (me_ok Hsys)) as Hsh. simpl in Hsh.
  destruct (sh_entry _ Hsh k e He) as (? & ? & ? & _).
  assert (∀ (t' := if bool_decide (rwt e = READ) then push_write (put t k e') k else put t k e'),
    rws t' = <[k := e']> (rws t) ∧ seen t' = seen t ∧ starting_epoch t' = starting_epoch t ∧
    gc_container t' = gc_container t) as (Hr' & Hs' & Hst' & Hg') by (by case_bool_decide).
  eapply retx; [done| |done|done|rewrite Hr'|rewrite Hs'; by left].
  - apply shape_put; try done.
    + intros e0. rewrite He. intros [= <-] ?. rewrite bool_decide_eq_false. done.
    + intros Hall. rewrite !bool_decide_eq_true_2; eauto.
  - destruct (my_entry Hsys He) as [[_ Ho1 Ho2] Href]. intros k' e1 [[<- <-]|[Hne Hk']]%lookup_insert_Some.
    + rewrite Hval. split; [|by left]. split; [done|by rewrite Hnew, Hval|]. rewrite Hnew, Hval. intros Hn. destruct (Ho2 Hn) as [? (v & ? & Hcur)].
      split; [done|]. exists v. split; [done|]. unfold current_ok in *. by rewrite Hs', Htw.
    + destruct (my_entry Hsys Hk') as [Hok ?]. split; [|by left].
      eapply entry_mono; [done|done|eauto using own_le_refl|eauto using val_le_refl|]. by rewrite Hs'.
Qed.

(** ** Records *)

Lemma alloc_ok g s t k r b : sys_ok schema g s (calling t) → records s !! r = None → schema !! k.1 = Some (length b) →
  ∃ g', sys_ok schema g' (set_records s (<[r := b]> (records s))) (calling t) ∧
    quiet i g s g' (set_records s (<[r := b]> (records s))) ∧ vown g' = vown g ∧ rown g' !! r = Some (Local i k) ∧
    sized schema (set_records s (<[r := b]> (records s))) k r ∧ ∀ r', r' ≠ r → rown g' !! r' = rown g !! r'.
Proof.
  intros Hsys Hr Hsz.
  destruct (relocal schema th i n g s t k r (Some (Local i k)) (<[r := b]> (records s))) as [Hsys' Hq]; [done| | | | |].
  - left. by eapply rown_fresh; [apply Hsys|].
  - right. rewrite lookup_insert_eq. eauto.
  - intros r' Hne. by rewrite lookup_insert_ne.
  - intros k' e He Hre. exfalso. destruct (my_entry Hsys He) as [[Hrec _ _] _]. destruct (Hrec r Hre) as [_ (? & ? & _)]. congruence.
  - eexists. split_and!; [exact Hsys'|exact Hq|done|simpl; by rewrite lookup_partial_alter_eq| |].
    + exists b. simpl. by rewrite lookup_insert_eq.
    + intros r' Hne. simpl. by rewrite lookup_partial_alter_ne.
Qed.

(** Copying into a record that has just been allocated. *)
Lemma copy_result s l v r m : values s !! l = Some v → lock (tidword v) = false → records s !! r = None →
  (∀ src, vrec v = Some src → ∃ b, records s !! src = Some b ∧ length b = m) →
  ∃ c, length c = m ∧ copy_record (set_records s (<[r := replicate m None]> (records s))) l (Some r) m =
    Ok (tidword v, set_records s (<[r := c]> (records s))).
Proof.
  intros Hv Hlk Hr Hsrc. unfold copy_record. simpl. rewrite Hv. simpl. rewrite Hlk. destruct (vrec v) as [src|] eqn:Hsr.
  - destruct (Hsrc src eq_refl) as (b & Hb & <-). exists b. split; [done|].
    rewrite (memcpy_block _ _ _ b (replicate (length b) None)).
    + simpl. by rewrite insert_insert_eq.
    + rewrite lookup_insert_ne by congruence. done.
    + apply lookup_insert_eq.
    + by rewrite length_replicate.
  - exists (replicate m None). split; [by rewrite length_replicate|done].
Qed.

Lemma copy_waits s l v r m m' : values s !! l = Some v → lock (tidword v) = true → copy_record (set_records s m') l (Some r) m = Wait.
Proof. intros Hv Hlk. unfold copy_record. simpl. rewrite Hv. simpl. by rewrite Hlk. Qed.

Lemma set_records_id s : set_records s (records s) = s.
Proof. by destruct s. Qed.

Lemma free_fresh s r c : records s !! r = None → free (set_records s (<[r := c]> (records s))) (Some r) = Ok s.
Proof. intros Hr. unfold free. cbn [records set_records]. rewrite deallocate_fresh by done. by destruct s. Qed.

(** The record of a row has the size of its table. *)
Lemma row_size g s k l v o m src : store_ok schema g s → vown g !! l = Some o → (o = Live k ∨ ∃ j, o = New j k ∨ o = Dead j k) →
  values s !! l = Some v → schema !! k.1 = Some m → vrec v = Some src → ∃ b, records s !! src = Some b ∧ length b = m.
Proof.
  intros Hs Ho Hk Hv Hm Hsrc. destruct (so_value _ _ _ Hs l o Ho) as (v0 & Hv0 & _ & _ & Hok). assert (v0 = v) as -> by congruence.
  destruct Hk as [->|[j [->| ->]]]; [|destruct Hok; congruence..]. destruct Hok as (_ & r & Hr & _ & b & Hb & Hsz).
  exists b. split; congruence.
Qed.

(** ** The operations *)

Definition fine {A} g s (m : outcome (A * tx * store)) : Prop :=
  match m with Ok (_, t', s') => calls_ok schema th i n g s s' t' | Wait => True | Throw _ | Stuck => False end.

Lemma fine_same {A} g s t (a : A) : sys_ok schema g s (calling t) → fine g s (Ok (a, t, s)).
Proof. apply calls_same. Qed.

Lemma my_value {g s t k e} : sys_ok schema g s (calling t) → rws t !! k = Some e → ∃ v, values s !! val e = Some v ∧
  word_ok (tidword v) ∧ word_ok (tw e) ∧ (∀ m src, schema !! k.1 = Some m → vrec v = Some src → ∃ b, records s !! src = Some b ∧ length b = m).
Proof.
  intros Hsys He. destruct (my_entry Hsys He) as [[_ Hn Ho] _]. pose proof (sy_store _ _ _ _ Hsys) as Hs.
  assert (∃ o, vown g !! val e = Some o ∧ (o = Live k ∨ ∃ j, o = New j k ∨ o = Dead j k)) as (o & Hown & Hk).
  { destruct (is_new e); [exists (New i k); split; [by apply Hn|right; exists i; by left]|].
    destruct (Ho eq_refl) as [[Hl|[j Hd]] _]; [exists (Live k); auto|exists (Dead j k); eauto]. }
  destruct (so_value _ _ _ Hs _ _ Hown) as (v & Hv & Hw & _). exists v.
  destruct (sh_entry _ (to_shape _ _ _ _ _ (me_ok Hsys)) k e He) as (_ & _ & _ & ? & _). split_and!; [done..|].
  intros m src Hm Hsrc. by eapply row_size.
Qed.

Section access.
Context {g : ghost} {s : store} {t : tx} (Hsys : sys_ok schema g s (calling t)).
Context {k : Z * Z} (Htab : k.1 ∈ tables t) (Hw1 : word64 k.1) (Hw2 : word64 k.2).

Lemma read_absent_fine l : rws t !! k = None → idx_at (idx s) k.1 k.2 = Some l →
  match read_absent t s k l with Ok (_, t') => sys_ok schema g s (calling t') | Wait => True | _ => False end.
Proof.
  intros Hno Hat. pose proof (sy_store _ _ _ _ Hsys) as Hs. destruct (row_value g s k l Hs Hw2 Hat) as [v Hv].
  unfold read_absent, get_record_pointer. rewrite Hv. simpl. destruct (lock (tidword v)) eqn:Hlk; [done|]. simpl.
  destruct (is_readable (tidword v)) eqn:Hr; [|done].
  destruct (readable_row g s k l v Hs Hw2 Hat Hv Hr) as (Hl & Hwok & r & b & Hvr & Hb & Hsz & Hc). rewrite Hvr.
  by apply (enter_ok g s t k l v r b (mkElem None (tidword v) READ false l) false).
Qed.

Lemma update_absent_fine l type m : rws t !! k = None → idx_at (idx s) k.1 k.2 = Some l → schema !! k.1 = Some m →
  type = UPDATE ∨ type = INSERT → fine g s (update_absent t s k l type m).
Proof.
  intros Hno Hat Hm Htype. pose proof (sy_store _ _ _ _ Hsys) as Hs. destruct (row_value g s k l Hs Hw2 Hat) as [v Hv].
  destruct (proj1 (so_bound _ _ _ Hs k l) (conj Hw2 Hat)) as (_ & o & Ho & Hk).
  unfold update_absent, allocate, aligned_allocate. set (r := fresh _). assert (records s !! r = None) as Hfr by apply allocate_fresh.
  destruct (lock (tidword v)) eqn:Hlk; [by rewrite (copy_waits s l v) by done|].
  destruct (copy_result s l v r m Hv Hlk Hfr) as (c & Hlen & ->); [intros; eapply row_size; [done|done| |done..]; unfold keyed in Hk; naive_solver|].
  simpl. destruct (is_readable (tidword v)) eqn:Hr; [|rewrite free_fresh by done; by apply fine_same].
  destruct (readable_row g s k l v Hs Hw2 Hat Hv Hr) as (Hl & Hwok & src & b & Hvr & Hb & Hsz & Hc).
  destruct (alloc_ok g s t k r c Hsys Hfr) as (g' & Hsys' & Hq & Hvo & Hro & Hsized & Hne); [by rewrite Hlen|].
  rewrite Hv. simpl. exists g'. split; [|done]. rewrite Hvr. assert (src ≠ r) by congruence.
  apply (enter_ok g' _ t k l v src b (mkElem (Some r) (tidword v) type false l) true); try done; simpl.
  - by rewrite Hvo.
  - by rewrite lookup_insert_ne.
  - by rewrite Hne.
  - split; [done|]. destruct Htype as [->| ->]; by eexists.
  - destruct Htype as [->| ->]; done.
  - intros r' [= <-]. done.
Qed.

Lemma update_read_fine e m : rws t !! k = Some e → rwt e = READ → schema !! k.1 = Some m → fine g s (update_read t s k e m).
Proof.
  intros He Hrw Hm. destruct (my_value Hsys He) as (v & Hv & Hw & Hwt & Hsz).
  destruct (sh_entry _ (to_shape _ _ _ _ _ (me_ok Hsys)) k e He) as (_ & _ & _ & _ & Hrec). rewrite Hrw in Hrec. destruct Hrec as [Hrec _].
  unfold update_read. rewrite bind_assert by (by rewrite Hrec). unfold allocate, aligned_allocate. set (r := fresh _).
  assert (records s !! r = None) as Hfr by apply allocate_fresh.
  destruct (lock (tidword v)) eqn:Hlk; [by rewrite (copy_waits s (val e) v) by done|].
  destruct (copy_result s (val e) v r m Hv Hlk Hfr) as (c & Hlen & ->); [eauto|].
  simpl. destruct (is_same _ _); [|rewrite free_fresh by done; by apply fine_same].
  destruct (alloc_ok g s t k r c Hsys Hfr) as (g' & Hsys' & Hq & Hvo & Hro & Hsized & Hne); [by rewrite Hlen|].
  exists g'. split; [|done].
  apply (change_ok g' _ t k e (mkElem (Some r) (tw e) UPDATE (is_new e) (val e)) true); try done; simpl.
  - split; [done|]. by eexists.
  - by rewrite Hrw.
  - intros r' [= <-]. done.
Qed.

Lemma own_pointer_fine e : rws t !! k = Some e → match get_record_pointer s (val e) with Ok _ | Wait => True | _ => False end.
Proof.
  intros He. destruct (my_value Hsys He) as (v & Hv & _). unfold get_record_pointer. rewrite Hv. simpl. by destruct (lock _).
Qed.

Lemma revive_fine e m : rws t !! k = Some e → rwt e = DELETE → schema !! k.1 = Some m → fine g s (revive t s k e m).
Proof.
  intros He Hrw Hm. destruct (my_value Hsys He) as (v & Hv & Hw & Hwt & Hsz). pose proof (own_pointer_fine e He) as Hp.
  destruct (sh_entry _ (to_shape _ _ _ _ _ (me_ok Hsys)) k e He) as (_ & _ & _ & _ & Hrec). rewrite Hrw in Hrec.
  unfold revive, is_tidword_latest. rewrite bind_assert by (by rewrite Hrec). destruct (get_record_pointer s (val e)) as [[? tw_]| | |]; try done. simpl.
  destruct (is_same tw_ (tw e)); [|by apply fine_same]. unfold allocate, aligned_allocate. set (r := fresh _).
  assert (records s !! r = None) as Hfr by apply allocate_fresh.
  destruct (alloc_ok g s t k r (replicate m None) Hsys Hfr) as (g' & Hsys' & Hq & Hvo & Hro & Hsized & Hne); [by rewrite length_replicate|].
  exists g'. split; [|done].
  apply (change_ok g' _ t k e (mkElem (Some r) (tw e) UPDATE (is_new e) (val e)) false); try done; simpl.
  - split; [done|]. by eexists.
  - by rewrite Hrw.
  - intros r' [= <-]. done.
Qed.
End access.

(** *** Insertion *)

Lemma new_value_ok g s t k l v ix : sys_ok schema g s (calling t) → values s !! l = None → word64 k.2 →
  vrec v = None → word_ok (tidword v) → is_readable (tidword v) = false → lock (tidword v) = false →
  index_ok ix → (∀ x y : Z, word64 y → idx_at ix x y = if decide (x = k.1 ∧ y = k.2) then Some l else idx_at (idx s) x y) →
  idx_at (idx s) k.1 k.2 = None →
  let g' := set_vown g l (New i k) in let s' := set_idx (set_value s l v) ix in
  sys_ok schema g' s' (calling t) ∧ quiet i g s g' s' ∧ hold g' !! l = None.
Proof.
  intros Hsys Hl Hw Hrec Hwok Hread Hlock Hix Hat Hno g' s'. pose proof (sy_store _ _ _ _ Hsys) as Hs.
  destruct (new_value_step schema Hs i k l v ix) as [Hfp Hview]; [done..|].
  assert (vown g !! l = None) as Hlo.
  { destruct (vown g !! l) as [o|] eqn:Ho; [|done]. destruct (so_value _ _ _ Hs l o Ho) as (? & ? & _). congruence. }
  split; [|split; [by apply (footprint_quiet schema)|]].
  2: { simpl. destruct (hold g !! l) as [x|] eqn:Hx; [|done]. destruct (so_hold _ _ _ Hs l x Hx). congruence. }
  rewrite <- (insert_insert_eq th i (me t) (me t)).
  pose proof (me_ok Hsys) as [H1 H2 H3 H4 H5 H6 H7 H8 H9 H10].
  eapply (thread_moves schema g s g' s' _ i (me t)); [done|apply lookup_insert_eq|apply Hfp|done|..].
  - split; try done.
    + intros k' e He _. eapply entry_mono; [by apply H5|done| | |done].
      * intros o Ho. simpl. rewrite lookup_insert_ne by congruence. eauto using own_le_refl.
      * intros v' Hv'. simpl. rewrite lookup_insert_ne by congruence. eauto using val_le_refl.
    + intros k' e Hk'. by apply not_elem_of_nil in Hk'.
    + intros [[r|]|l'] Hx; specialize (H9 _ Hx); simpl in *; [done..|]. destruct H9 as [k' Hk']. exists k'.
      rewrite lookup_insert_ne by congruence. done.
  - intros l' j k' Hl'. destruct (sy_hold _ _ _ _ Hsys l' j k' Hl') as (U & e & HU & Hk & _).
    destruct (decide (j = i)) as [->|]; [|by left]. rewrite lookup_insert_eq in HU. injection HU as <-. by apply not_elem_of_nil in Hk.
  - intros x Hx. left. done.
  - intros c x. by left.
  - intros x Hx. by apply not_elem_of_nil in Hx.
  - done.
Qed.

Lemma enter_new_ok g s t k l e : sys_ok schema g s (calling t) → rws t !! k = None → k.1 ∈ tables t → word64 k.1 → word64 k.2 →
  vown g !! l = Some (New i k) → hold g !! l = None → elem_ok e → is_new e = true → val e = l → rwt e ≠ READ →
  (∀ r, rec e = Some r → rown g !! r = Some (Local i k) ∧ sized schema s k r) →
  sys_ok schema g s (calling (push_write (put t k e) k)).
Proof.
  intros Hsys Hno Htab Hw1 Hw2 Hl Hh He Hnew Hval Hrw Hrec.
  eapply retx; [done| |done|done| |by left].
  - apply (shape_put t k e true); try done; [apply (me_ok Hsys)|by rewrite Hno|]. intros _. by rewrite bool_decide_eq_true_2.
  - simpl. intros k' e' [[<- <-]|[Hne Hk']]%lookup_insert_Some.
    + split; [|right; rewrite Hval; split; [congruence|done]]. split; [done|by rewrite Hval|congruence].
    + destruct (my_entry Hsys Hk') as [Hok Href]. split; [|by left].
      eapply entry_mono; [done|done|eauto using own_le_refl|eauto using val_le_refl|done].
Qed.

Lemma insert_new_fine g s t table_id key m : sys_ok schema g s (calling t) → rws t !! (table_id, key) = None → table_id ∈ tables t →
  word64 table_id → word64 key → idx_at (idx s) table_id key = None → schema !! table_id = Some m →
  fine g s (insert_new t s table_id key m).
Proof.
  intros Hsys Hno Htab Hw1 Hw2 Hat Hm. pose proof (sy_store _ _ _ _ Hsys) as Hs. unfold insert_new. set (l := fresh _).
  assert (values s !! l = None) as Hl by (apply not_elem_of_dom, is_fresh).
  cbn [idx set_value]. pose proof (note_insert (idx s) table_id key l (get_nodemap t table_id)) as [Hidx Hres].
  destruct (insert_absent (idx s) table_id key l (so_index _ _ _ Hs) Hw2 Hat) as (ix & Hins & Hix & Hat').
  rewrite Hins in Hidx, Hres. destruct (idx_insert_and_note _ _ _ _ _) as [[res nm] ix']. simpl in Hidx, Hres. subst ix'.
  set (v := mkValue (mkTid false true true 0 0) None).
  destruct (new_value_ok g s t (table_id, key) l v ix) as (Hsys1 & Hq1 & Hh1); try done.
  set (s1 := set_idx (set_value s l v) ix) in *. set (t1 := set_nodemap t table_id nm).
  assert (sys_ok schema (set_vown g l (New i (table_id, key))) s1 (calling t1)) as Hsys1' by (by apply set_nodemap_ok).
  unfold allocate, aligned_allocate. set (r := fresh _). assert (records s1 !! r = None) as Hfr by apply allocate_fresh.
  destruct (alloc_ok _ s1 t1 (table_id, key) r (replicate m None) Hsys1' Hfr) as (g2 & Hsys2 & Hq2 & Hvo & Hro & Hsized & _);
    [by rewrite length_replicate|].
  assert (fine g s (Ok (match res with BAD_INSERT => None | _ => Some r end,
    push_write (put t1 (table_id, key) (mkElem (Some r) (mkTid false true true 0 0) INSERT true l)) (table_id, key),
    set_records s1 (<[r := replicate m None]> (records s1))))) as Hfine; [|destruct res; try done; discriminate (proj1 Hres eq_refl)].
  exists g2. split; [|by eapply still_trans]. eapply (enter_new_ok g2 _ t1 _ l); try done.
  - rewrite Hvo. simpl. by rewrite lookup_insert_eq.
  - destruct (hold g2 !! l) as [[j k']|] eqn:Hx; [|done]. exfalso.
    pose proof (sy_store _ _ _ _ Hsys2) as Hs2. assert (values (set_records s1 (<[r := replicate m None]> (records s1))) !! l = Some v) as Hv
      by (simpl; by rewrite lookup_insert_eq).
    pose proof (hold_locked schema Hs2 l v Hv) as Hlk. rewrite Hx in Hlk. done.
  - split; [split; split; simpl; lia|]. by eexists.
  - intros r' [= <-]. done.
Qed.

(** *** Dropping a local record *)
Lemma drop_fine g s t k e r : sys_ok schema g s (calling t) → rws t !! k = Some e → rec e = Some r → rwt e ≠ READ →
  match free s (rec e) with
  | Ok s' => calls_ok schema th i n g s s' (put t k (mkElem None (tw e) DELETE (is_new e) (val e)))
  | _ => False
  end.
Proof.
  intros Hsys He Hr Hrw. destruct (my_entry Hsys He) as [[Hrec _ _] _]. destruct (Hrec r Hr) as [Hro (b & Hb & Hsz)].
  unfold free, deallocate. rewrite Hr, Hb. simpl. set (e' := mkElem _ _ _ _ _).
  assert (sys_ok schema g s (calling (put t k e'))) as Hsys1.
  { destruct (sh_entry _ (to_shape _ _ _ _ _ (me_ok Hsys)) k e He) as (_ & _ & _ & Hw & _).
    apply (change_ok g s t k e e' false); try done. by rewrite bool_decide_eq_false_2. }
  destruct (relocal schema th i n g s (put t k e') k r None (delete r (records s))) as [Hsys2 Hq]; [done|by right|by left| | |by eexists].
  - intros r' Hne. by rewrite lookup_delete_ne.
  - simpl. intros k' e1 [[<- <-]|[Hne Hk']]%lookup_insert_Some Hr1; [done|]. exfalso.
    destruct (my_entry Hsys Hk') as [[Hrec' _ _] _]. destruct (Hrec' r Hr1) as [Hro' _]. congruence.
Qed.

(** *** The operations *)

Lemma lookup_cases ix table_id key : idx_find ix table_id key = (NOT_FOUND, None) ∧ idx_at ix table_id key = None ∨
  ∃ l, idx_find ix table_id key = (OK, Some l) ∧ idx_at ix table_id key = Some l.
Proof. rewrite find_result. destruct (idx_at ix table_id key) as [l|]; [right; eauto|by left]. Qed.

Lemma again_fine g s t k e : sys_ok schema g s (calling t) → rws t !! k = Some e →
  match read_again s e with Ok _ | Wait => True | _ => False end ∧ match read_own s e with Ok _ | Wait => True | _ => False end.
Proof.
  intros Hsys He. pose proof (own_pointer_fine Hsys e He) as Hp. unfold read_again, read_own, is_tidword_latest.
  destruct (get_record_pointer s (val e)) as [[]| | |]; done.
Qed.

(** A local read of an entry, whatever is done with the pointer. *)
Lemma own_fine {A} g s t k e (f : option Ptr → A) (m : outcome (option Ptr)) : sys_ok schema g s (calling t) → rws t !! k = Some e →
  m = read_again s e ∨ m = read_own s e → fine g s (r ← m; Ok (f r, t, s)).
Proof.
  intros Hsys He Hm. destruct (again_fine g s t k e Hsys He) as [H1 H2].
  destruct Hm as [->| ->]; [destruct (read_again s e)|destruct (read_own s e)]; try done; simpl; by apply calls_same.
Qed.

Section operations.
Context {g : ghost} {s : store} {t : tx} (Hsys : sys_ok schema g s (calling t)).
Context (table_id key : Z) (Hw1 : word64 table_id) (Hw2 : word64 key).
#[local] Abbreviation t1 := (add_table t table_id).
#[local] Abbreviation k := (table_id, key).

Lemma added : sys_ok schema g s (calling t1) ∧ table_id ∈ tables t1.
Proof using Hsys. split; [by apply add_table_ok|]. apply elem_of_union_l, elem_of_singleton_2. done. Qed.

Lemma read_fine : fine g s (read t s table_id key).
Proof.
  destruct added as [Hsys1 Htab]. unfold read. destruct (rws t1 !! k) as [e|] eqn:He.
  - destruct (rwt e); [eapply own_fine; eauto..|by apply fine_same].
  - pose proof (note_find (idx s) table_id key (get_nodemap t1 table_id)) as Hf.
    destruct (idx_find_and_note _ _ _ _) as [[res o] nm]. simpl in Hf.
    assert (sys_ok schema g s (calling (set_nodemap t1 table_id nm))) as Hsys2 by (by apply set_nodemap_ok).
    destruct (lookup_cases (idx s) table_id key) as [[Hc Hat]|(l & Hc & Hat)]; rewrite Hc in Hf; simplify_eq; [by apply fine_same|].
    cbn [deref]. rewrite bind_ret. pose proof (read_absent_fine (k := k) Hsys2 Htab Hw1 Hw2 l He Hat) as Hr.
    destruct (read_absent _ _ _ _) as [[r t']| | |]; try done. simpl. by apply calls_same.
Qed.

Lemma remove_fine : fine g s (remove t s table_id key).
Proof.
  destruct added as [Hsys1 Htab]. unfold remove. destruct (rws t1 !! k) as [e|] eqn:He.
  - destruct (sh_entry _ (to_shape _ _ _ _ _ (me_ok Hsys1)) k e He) as (_ & _ & _ & Hw & Hrec).
    destruct (again_fine g s t1 k e Hsys1 He) as [Ha _]. destruct (rwt e) eqn:Hrw; [|..|by apply fine_same].
    + destruct Hrec as [Hrec _]. rewrite bind_assert by (by rewrite Hrec). destruct (read_again s e) as [[r|]| | |]; try done; [|by apply fine_same].
      simpl. apply calls_same. apply (change_ok g s t1 k e (mkElem (rec e) (tw e) DELETE (is_new e) (val e)) true); try done.
      * by rewrite Hrw.
      * simpl. by rewrite Hrec.
    + destruct Hrec as [r Hrec]. destruct (read_again s e) as [[r'|]| | |]; try done; [|by apply fine_same]. cbn [mbind outcome_bind].
      pose proof (drop_fine g s t1 k e r Hsys1 He Hrec ltac:(congruence)) as Hd. by destruct (free s (rec e)).
    + destruct Hrec as [r Hrec]. destruct (read_again s e) as [[r'|]| | |]; try done; [|by apply fine_same]. cbn [mbind outcome_bind].
      pose proof (drop_fine g s t1 k e r Hsys1 He Hrec ltac:(congruence)) as Hd. by destruct (free s (rec e)).
  - destruct (lookup_cases (idx s) table_id key) as [[-> Hat]|(l & -> & Hat)]; [by apply fine_same|].
    pose proof (sy_store _ _ _ _ Hsys) as Hs. destruct (row_value g s k l Hs Hw2 Hat) as [v Hv].
    cbn [deref]. rewrite bind_ret. unfold get_record_pointer. rewrite Hv. simpl. destruct (lock (tidword v)) eqn:Hlk; [done|]. simpl.
    destruct (is_readable (tidword v)) eqn:Hr; [|by apply calls_same].
    destruct (readable_row g s k l v Hs Hw2 Hat Hv Hr) as (Hl & Hwok & r & b & Hvr & Hb & Hsz & Hc). rewrite Hvr.
    apply calls_same. by apply (enter_ok g s t1 k l v r b (mkElem None (tidword v) DELETE false l) true).
Qed.

Context (m : nat) (Hm : schema !! table_id = Some m).

Lemma record_size : get_record_size schema table_id = Ok m.
Proof using Hm. unfold get_record_size. by rewrite Hm. Qed.

Lemma insert_fine : fine g s (insert schema t s table_id key).
Proof.
  destruct added as [Hsys1 Htab]. unfold insert. rewrite record_size, bind_ret. destruct (rws t1 !! k) as [e|] eqn:He.
  - destruct (rwt e) eqn:Hrw; [by apply fine_same..|]. by eapply (revive_fine Hsys1).
  - destruct (lookup_cases (idx s) table_id key) as [[-> Hat]|(l & -> & Hat)]; [by apply insert_new_fine|by apply fine_same].
Qed.

Lemma update_fine : fine g s (update schema t s table_id key).
Proof.
  destruct added as [Hsys1 Htab]. unfold update. rewrite record_size, bind_ret. destruct (rws t1 !! k) as [e|] eqn:He.
  - destruct (rwt e) eqn:Hrw; [by eapply (update_read_fine Hsys1)|eapply own_fine; eauto..|by apply fine_same].
  - destruct (lookup_cases (idx s) table_id key) as [[-> Hat]|(l & -> & Hat)]; [by apply fine_same|]. cbn [deref]. rewrite bind_ret.
    apply (update_absent_fine Hsys1); auto.
Qed.

Lemma write_fine found : found = UPDATE ∨ found = INSERT → fine g s (write_or_upsert schema found t s table_id key).
Proof.
  intros Hfound. destruct added as [Hsys1 Htab]. unfold write_or_upsert. rewrite record_size, bind_ret. destruct (rws t1 !! k) as [e|] eqn:He.
  - destruct (rwt e) eqn:Hrw; [by eapply (update_read_fine Hsys1)|eapply own_fine; eauto..|by eapply (revive_fine Hsys1)].
  - destruct (lookup_cases (idx s) table_id key) as [[-> Hat]|(l & -> & Hat)]; [by apply insert_new_fine|]. cbn [deref]. rewrite bind_ret.
    by apply (update_absent_fine Hsys1).
Qed.
End operations.

(** *** Scans *)

Lemma observe_tables t s k (r : Ptr) : tables (observe t s k r) = tables t.
Proof. unfold observe. by case_match. Qed.

Lemma copy_record_idx s l (r : Ptr) m w s' : copy_record s l r m = Ok (w, s') → idx s' = idx s.
Proof.
  unfold copy_record. destruct r as [r|]; [|done]. intros (v & _ & H)%bind_Ok. destruct (lock _); [done|].
  apply bind_Ok in H as (h & _ & [= <- <-]). done.
Qed.

Lemma free_idx s (r : Ptr) s' : free s r = Ok s' → idx s' = idx s.
Proof. unfold free. intros (h & _ & [= <-])%bind_Ok. done. Qed.

Lemma update_absent_idx t s k l type m (r : Ptr) t' s' : update_absent t s k l type m = Ok (r, t', s') → idx s' = idx s ∧ tables t' = tables t.
Proof.
  unfold update_absent, allocate, aligned_allocate. intros ([w s1] & Hc%copy_record_idx & H)%bind_Ok. simpl in Hc.
  destruct (is_readable w); apply bind_Ok in H.
  - destruct H as (v & _ & [= <- <- <-]). split; [done|]. apply observe_tables.
  - destruct H as (s2 & Hf%free_idx & [= <- <- <-]). split; congruence.
Qed.

Lemma update_read_idx t s k e m (r : Ptr) t' s' : update_read t s k e m = Ok (r, t', s') → idx s' = idx s ∧ tables t' = tables t.
Proof.
  unfold update_read, allocate, aligned_allocate. intros (u & _ & H)%bind_Ok. apply bind_Ok in H as ([w s1] & Hc%copy_record_idx & H). simpl in Hc.
  destruct (is_same w (tw e)); [by simplify_eq|]. apply bind_Ok in H as (s2 & Hf%free_idx & [= <- <- <-]). split; congruence.
Qed.

Lemma read_absent_tables t s k l (r : option Ptr) t' : read_absent t s k l = Ok (r, t') → tables t' = tables t.
Proof.
  unfold read_absent. intros ([r0 w] & _ & H)%bind_Ok. destruct (is_readable w); simplify_eq; [|done]. apply observe_tables.
Qed.

Section scans.
Context (table_id : Z) (Hw1 : word64 table_id).

Lemma read_rows_fine kv_map g s t kr_map : sys_ok schema g s (calling t) → table_id ∈ tables t →
  (∀ key l, (key, l) ∈ kv_map → word64 key ∧ idx_at (idx s) table_id key = Some l) →
  fine g s (read_rows t s table_id kv_map kr_map).
Proof.
  revert t kr_map. induction kv_map as [|[key l] kv_map IH]; intros t kr_map Hsys Htab Hkv; [by apply calls_same|].
  destruct (Hkv key l) as [Hw2 Hat]; [apply list_elem_of_here|].
  assert (∀ (r : option Ptr) t', sys_ok schema g s (calling t') → tables t' = tables t → fine g s (match r with
    | Some r => read_rows t' s table_id kv_map (MasstreeIndexes.map_emplace key r kr_map) | None => Ok (false, kr_map, t', s) end)) as Hnext.
  { intros [r|] t' Ht' Htb; [|by apply calls_same]. apply IH; [done|by rewrite Htb|]. intros key' l' Hin. apply Hkv. by right. }
  cbn [read_rows]. destruct (rws t !! (table_id, key)) as [e|] eqn:He.
  - destruct (again_fine g s t _ e Hsys He) as [Ha Hb].
    destruct (rwt e); [destruct (read_again s e)|destruct (read_own s e)..|by apply (Hnext None)]; try done; simpl; by apply Hnext.
  - pose proof (read_absent_fine (k := (table_id, key)) Hsys Htab Hw1 Hw2 l He Hat) as Hr.
    destruct (read_absent _ _ _ _) as [[r t']| | |] eqn:Hra; try done. simpl. apply Hnext; [done|]. by apply read_absent_tables in Hra.
Qed.

Lemma update_rows_fine m kv_map g s t kr_map : schema !! table_id = Some m → sys_ok schema g s (calling t) → table_id ∈ tables t →
  (∀ key l, (key, l) ∈ kv_map → word64 key ∧ idx_at (idx s) table_id key = Some l) →
  fine g s (update_rows t s table_id m kv_map kr_map).
Proof.
  intros Hm. revert g s t kr_map. induction kv_map as [|[key l] kv_map IH]; intros g s t kr_map Hsys Htab Hkv; [by apply calls_same|].
  destruct (Hkv key l) as [Hw2 Hat]; [apply list_elem_of_here|].
  assert (∀ (r : option Ptr) t' s', calls_ok schema th i n g s s' t' → idx s' = idx s → tables t' = tables t → fine g s (match r with
    | Some r => update_rows t' s' table_id m kv_map (MasstreeIndexes.map_emplace key r kr_map) | None => Ok (false, kr_map, t', s') end)) as Hnext.
  { intros [r|] t' s' Hok Hidx Htb; [|done]. destruct Hok as (g' & Hsys' & Hq).
    assert (fine g' s' (update_rows t' s' table_id m kv_map (MasstreeIndexes.map_emplace key r kr_map))) as Hf.
    { apply IH; [done|by rewrite Htb|]. intros key' l' Hin. rewrite Hidx. apply Hkv. by right. }
    unfold fine in *. destruct (update_rows _ _ _ _ _ _) as [[[[? ?] ?] ?]| | |]; try done. by eapply calls_trans. }
  cbn [update_rows]. destruct (rws t !! (table_id, key)) as [e|] eqn:He.
  - destruct (again_fine g s t _ e Hsys He) as [Ha Hb].
    destruct (rwt e) eqn:Hrw.
    + pose proof (update_read_fine (k := (table_id, key)) Hsys e m He Hrw Hm) as Hf.
      destruct (update_read _ _ _ _ _) as [[[r t'] s']| | |] eqn:Hu; try done. simpl. apply update_read_idx in Hu as [? ?]. by apply Hnext.
    + destruct (read_own s e); try done. simpl. apply Hnext; [by apply calls_same|done..].
    + destruct (read_own s e); try done. simpl. apply Hnext; [by apply calls_same|done..].
    + destruct (sh_entry _ (to_shape _ _ _ _ _ (me_ok Hsys)) _ e He) as (_ & _ & _ & _ & Hrec). rewrite Hrw in Hrec.
      rewrite Hrec. simpl. by apply calls_same.
  - pose proof (update_absent_fine (k := (table_id, key)) Hsys Htab Hw1 Hw2 l UPDATE m He Hat Hm ltac:(by left)) as Hf.
    destruct (update_absent _ _ _ _ _ _) as [[[r t'] s']| | |] eqn:Hu; try done. simpl. apply update_absent_idx in Hu as [? ?]. by apply Hnext.
Qed.

Context {g : ghost} {s : store} {t : tx} (Hsys : sys_ok schema g s (calling t)) (lkey rkey count : Z) (reverse : bool).

Lemma scan_bound : ∃ res kv_map nm, scan_range (add_table t table_id) s table_id lkey rkey count reverse = (res, kv_map, nm) ∧
  ∀ key l, (key, l) ∈ kv_map → word64 key ∧ idx_at (idx s) table_id key = Some l.
Proof.
  unfold scan_range. pose proof (so_index _ _ _ (sy_store _ _ _ _ Hsys)) as Hix. set (nm := get_nodemap _ _).
  pose proof (λ key l, note_range (idx s) table_id lkey rkey count nm key l Hix) as H1.
  pose proof (λ key l, note_rev_range (idx s) table_id lkey rkey count nm key l Hix) as H2.
  destruct reverse; [destruct (idx_get_kv_in_rev_range_and_note _ _ _ _ _ _ _) as [[res kv] nm']|
    destruct (idx_get_kv_in_range_and_note _ _ _ _ _ _ _) as [[res kv] nm']]; exists res, kv, nm'; split; done || eauto.
Qed.

Lemma read_scan_fine kr_map : fine g s (read_scan t s table_id lkey rkey count reverse kr_map).
Proof.
  destruct (added Hsys table_id) as [Hsys1 Htab]. unfold read_scan. destruct scan_bound as (res & kv & nm & -> & Hkv).
  pose proof (set_nodemap_ok g s _ table_id nm Hsys1) as Hsys2.
  destruct res; try (by apply read_rows_fine). by apply calls_same.
Qed.

Lemma update_scan_fine m kr_map : schema !! table_id = Some m → fine g s (update_scan schema t s table_id lkey rkey count reverse kr_map).
Proof.
  intros Hm. destruct (added Hsys table_id) as [Hsys1 Htab]. unfold update_scan. rewrite (record_size _ m Hm), bind_ret.
  destruct scan_bound as (res & kv & nm & -> & Hkv). pose proof (set_nodemap_ok g s _ table_id nm Hsys1) as Hsys2.
  destruct res; try (by apply update_rows_fine). by apply calls_same.
Qed.
End scans.

(** *** All calls *)

Lemma store_record_fine g s t k b t' s' : sys_ok schema g s (calling t) → store_record t s k b = Ok (t', s') →
  calls_ok schema th i n g s s' t'.
Proof.
  intros Hsys (e & He%deref_Ok & H)%bind_Ok. apply bind_Ok in H as (r & Hr%deref_Ok & H).
  apply bind_Ok in H as (old & Hold%deref_Ok & H). apply bind_Ok in H as (u & Hlen%assert_Ok_inv%Nat.eqb_eq & [= <- <-]).
  destruct (my_entry Hsys He) as [[Hrec _ _] _]. destruct (Hrec r Hr) as [Hro (b' & Hb & Hsz)]. assert (b' = old) as -> by congruence.
  destruct (relocal schema th i n g s t k r (Some (Local i k)) (<[r := b]> (records s))) as [Hsys' Hq]; [done|by right| | | |by eexists].
  - right. rewrite lookup_insert_eq. eauto.
  - intros r' Hne. by rewrite lookup_insert_ne.
  - intros k' e' He' Hr'. destruct (my_entry Hsys He') as [[Hrec' _ _] _]. destruct (Hrec' r Hr') as [Hro' _].
    assert (k' = k) as -> by congruence. split; [done|]. exists b. simpl. rewrite lookup_insert_eq. by rewrite Hlen.
Qed.

Definition is_store (c : call) : Prop := match c with CStore _ _ => True | _ => False end.

Lemma fine_state {A} g s (m : outcome (A * tx * store)) : fine g s m →
  match state_of m with Ok (t', s') => calls_ok schema th i n g s s' t' | Wait => True | _ => False end.
Proof. destruct m as [[[? ?] ?]| | |]; done. Qed.

Lemma perform_fine c g s t : sys_ok schema g s (calling t) → allowed schema c → ¬ is_store c →
  match perform_call schema c t s with Ok (t', s') => calls_ok schema th i n g s s' t' | Wait => True | _ => False end.
Proof.
  intros Hsys Hal Hst. destruct c; simpl in Hal |- *; [..|by destruct Hst]; destruct_and?;
    match goal with H : is_Some _ |- _ => destruct H as [m Hm] end; apply fine_state;
    [by apply read_fine|by eapply insert_fine|by eapply update_fine|unfold write; eapply write_fine; eauto|
     unfold upsert; eapply write_fine; eauto|by apply remove_fine|by apply read_scan_fine|by eapply update_scan_fine].
Qed.

(** A call that returns keeps the invariant. *)
Lemma performed_ok c g s t t' s' : sys_ok schema g s (calling t) → allowed schema c → perform_call schema c t s = Ok (t', s') →
  calls_ok schema th i n g s s' t'.
Proof.
  intros Hsys Hal Hc. destruct c as [| | | | | | | |k b]; [..|by apply (store_record_fine g s t k b)];
    pose proof (perform_fine _ g s t Hsys Hal (λ x, x)) as Hf; by rewrite Hc in Hf.
Qed.
End one_thread.
End silo_calls.
