(* ===== verification/SiloCommit.v ===== *)
(** * The steps of Silo's commit, abort and destructor keep the invariant *)
From stdpp Require Import sorting.
From S2P Require Import Prelude Versions BitFields Epoch Index Memory Silo SiloInv SiloCalls.

Section silo_commit.
Import Memory Silo.
Context `{HI : NodeIndex loc} `{HL : !NodeIndexLaws loc} (schema : gmap Z nat).
Implicit Types (s : store) (t : tx) (T : thread) (k : Z * Z) (l r : loc) (e : ReadWriteElement) (v : Value) (p : pc).
Implicit Types (g : ghost) (i j n : nat).

(** ** The order of the write set *)

Lemma elem_of_table_writes t x k : k ∈ table_writes t x ↔ k.1 = x ∧ k.2 ∈ write_keys t x.
Proof.
  unfold table_writes. rewrite list_elem_of_fmap. destruct k as [a b]. simpl. split; [|naive_solver].
  intros (y & [= -> ->] & ?). done.
Qed.

Lemma elem_of_order t (l : list Z) k : k ∈ l ≫= table_writes t ↔ k.1 ∈ l ∧ k.2 ∈ write_keys t k.1.
Proof.
  rewrite list_elem_of_bind. setoid_rewrite elem_of_table_writes. split; [intros (x & [<- ?] & ?); done|intros [? ?]; eauto].
Qed.

Lemma elem_of_table_order t x : x ∈ table_order t ↔ x ∈ tables t.
Proof. unfold table_order. by rewrite merge_sort_Permutation, elem_of_elements. Qed.

Lemma elem_of_write_order t k : shape t → k ∈ write_order t ↔ ∃ e, rws t !! k = Some e ∧ rwt e ≠ READ.
Proof.
  intros Hsh. unfold write_order. rewrite elem_of_order, elem_of_table_order, (sh_writes _ Hsh). split; [naive_solver|].
  intros (e & He & ?). split; [by eapply sh_entry|eauto].
Qed.

Lemma sorted_lt (l : list Z) : NoDup l → StronglySorted Z.le l → StronglySorted Z.lt l.
Proof.
  induction 2 as [|x l Hs IH Hx]; [constructor|]. apply NoDup_cons in H as [Hni Hnd]. constructor; [by apply IH|].
  rewrite Forall_forall in *. intros y Hy. assert (x ≠ y) by congruence. specialize (Hx y Hy). lia.
Qed.

Lemma merge_sort_lt (l : list Z) : NoDup l → StronglySorted Z.lt (merge_sort Z.le l).
Proof.
  intros Hnd. apply sorted_lt; [by rewrite merge_sort_Permutation|].
  apply StronglySorted_merge_sort; [intros ???; lia|intros x y; lia].
Qed.

Lemma table_order_sorted t : StronglySorted Z.lt (table_order t).
Proof. apply merge_sort_lt, NoDup_elements. Qed.

Lemma order_nodup t (l : list Z) : shape t → NoDup l → NoDup (l ≫= table_writes t).
Proof.
  intros Hsh. induction 1 as [|x l Hx Hl IH]; [constructor|]. simpl. apply NoDup_app. split_and!; [|..|done].
  - unfold table_writes. apply NoDup_fmap_2; [by intros ?? [= ->]|]. by apply sh_nodup.
  - intros k [<- _]%elem_of_table_writes [? _]%elem_of_order. done.
Qed.

Lemma strongly_lt_nodup (l : list Z) : StronglySorted Z.lt l → NoDup l.
Proof.
  induction 1 as [|x l Hs IH Hx]; constructor; [|done]. rewrite Forall_forall in Hx. intros Hin%Hx. lia.
Qed.

Lemma write_order_nodup t : shape t → NoDup (write_order t).
Proof. intros Hsh. apply order_nodup; [done|]. apply strongly_lt_nodup, table_order_sorted. Qed.

(** The lock order: by table, then by key. *)
Definition lock_lt k k' : Prop := k.1 < k'.1 ∨ (k.1 = k'.1 ∧ k.2 < k'.2).

Lemma order_sorted t (l : list Z) : StronglySorted Z.lt l → sorted_tables t l → StronglySorted lock_lt (l ≫= table_writes t).
Proof.
  induction 1 as [|x l Hs IH Hx]; intros Hst; [constructor|]. simpl. rewrite Forall_forall in Hx.
  assert (StronglySorted lock_lt (l ≫= table_writes t)) as Hrest by (apply IH; intros y Hy; apply Hst; by right).
  assert (∀ k', k' ∈ l ≫= table_writes t → x < k'.1) as Hlt by (intros k' [Hk' _]%elem_of_order; by apply Hx).
  pose proof (Hst x (list_elem_of_here _ _)) as Hkeys. unfold table_writes at 1. induction Hkeys as [|y ys Hys IHy Hy]; [done|].
  simpl. constructor; [done|]. rewrite Forall_forall in Hy. apply Forall_forall. intros k' [(z & -> & Hz)%list_elem_of_fmap|Hk']%elem_of_app.
  - right. split; [done|]. by apply Hy.
  - left. by apply Hlt.
Qed.

(** [unlock_writeset()] goes through the whole write set. *)
Lemma up_to_all (ks : list (Z * Z)) : StronglySorted lock_lt ks → (∀ k, k ∈ ks → word64 k.1 ∧ word64 k.2) →
  up_to (UINT64_MAX, UINT64_MAX) ks = ks.
Proof.
  induction 1 as [|k ks Hs IH Hk]; intros Hw; [done|]. simpl. case_decide as Hd.
  - destruct ks as [|k' ks]; [done|]. exfalso. rewrite Forall_forall in Hk. specialize (Hk k' (list_elem_of_here _ _)).
    destruct (Hw k') as [[? ?] [? ?]]; [right; left|]. subst k. unfold lock_lt, UINT64_MAX in *. simpl in *. lia.
  - f_equal. apply IH. intros k' Hk'. apply Hw. by right.
Qed.

Lemma up_to_app k (l1 l2 : list (Z * Z)) : k ∉ l1 → up_to k (l1 ++ k :: l2) = l1 ++ [k].
Proof.
  induction l1 as [|k' l1 IH]; intros Hni; simpl; [by rewrite decide_True|].
  apply not_elem_of_cons in Hni as [Hne Hni]. rewrite decide_False by congruence. by rewrite IH.
Qed.

Lemma unlocking_all_order t : shape t → sorted_tables t (table_order t) → unlocking_all t = Unlocking (write_order t).
Proof.
  intros Hsh Hst. unfold unlocking_all, unlocking. f_equal. apply up_to_all.
  - apply order_sorted; [apply table_order_sorted|done].
  - intros k (e & He & _)%elem_of_write_order; [|done]. destruct (sh_entry _ Hsh k e He) as (_ & ? & ? & _). done.
Qed.

(** Sorting the write set of a table. *)
Lemma write_keys_sort t x y : write_keys (sort_writes t x) y = if decide (y = x) then merge_sort Z.le (write_keys t x) else write_keys t y.
Proof.
  unfold write_keys, sort_writes, set_writes. simpl. destruct (decide (y = x)) as [->|]; [by rewrite lookup_insert_eq|by rewrite lookup_insert_ne].
Qed.

Lemma write_keys_sort_perm t x y : write_keys (sort_writes t x) y ≡ₚ write_keys t y.
Proof. rewrite write_keys_sort. case_decide; [subst; apply merge_sort_Permutation|done]. Qed.

Lemma sort_shape t x : shape t → shape (sort_writes t x).
Proof.
  intros [H1 H2 H3]. split; [done| |].
  - intros k. rewrite write_keys_sort_perm. apply H2.
  - intros y. rewrite write_keys_sort_perm. apply H3.
Qed.

(** ** Steps that do not touch the store *)

Lemma restep g s th i T T' : sys_ok schema g s th → th !! i = Some T → thread_ok schema g s i T' →
  (∀ k e, k ∈ held_keys T → rws (ttx T) !! k = Some e → k ∈ held_keys T' ∧ rws (ttx T') !! k = Some e) →
  (∀ x, refs T' x → refs T x ∧ starting_epoch (ttx T') = starting_epoch (ttx T)) →
  (∀ c x, (c, x) ∈ gc_container (ttx T') → (c, x) ∈ gc_container (ttx T)) →
  (∀ x, x ∈ freeing (tpc T') → ¬ alive (tpc T') ∧ (x ∈ freeing (tpc T) ∨ ∀ j U, j ≠ i → th !! j = Some U → ¬ refs U x)) →
  (∀ c k e, commit_epoch (tpc T') = Some c → k ∈ held_keys T' → rws (ttx T') !! k = Some e →
    (commit_epoch (tpc T) = Some c ∧ k ∈ held_keys T ∧ rws (ttx T) !! k = Some e) ∨
    ∀ j U, <[i := T']> th !! j = Some U → alive (tpc U) → starting_epoch (ttx U) ≤ c) →
  sys_ok schema g s (<[i := T']> th).
Proof.
  intros Hsys HT HT' Hheld Hrefs Hgc Hfree Hcom.
  eapply (thread_moves schema g s g s th i T); [done|done|apply footprint_refl, Hsys|done|done|..]; try done.
  - intros l j k Hl. destruct (sy_hold _ _ _ _ Hsys l j k Hl) as (U & e & HU & Hk & He & Hv).
    destruct (decide (j = i)) as [->|]; [right|by left]. assert (U = T) as -> by congruence.
    destruct (Hheld k e Hk He). eauto.
  - intros x Hx. left. by apply Hrefs.
  - intros c x Hx. left. by apply Hgc.
  - intros c k e v Hc Hk He Hv. destruct (Hcom c k e Hc Hk He) as [(?&?&?)|?]; [by left|by right].
Qed.

(** The same transaction at another step. *)
Lemma thread_repc g s i t p p' n : thread_ok schema g s i (mkThread t p n) → pc_ok s t p' →
  (alive p' → alive p) → (∀ k, live p' k → live p k) → freeing p' = freeing p →
  (∀ k e, k ∈ held_keys (mkThread t p' n) → rws t !! k = Some e → k ∈ held_keys (mkThread t p n) ∧ (checked p' → checked p)) →
  thread_ok schema g s i (mkThread t p' n).
Proof.
  intros [H1 H2 H3 H4 H5 H6 H7 H8 H9 H10] Hpc Hal Hlive Hfr Hheld. unfold garbage_of in *. simpl in *.
  split; unfold garbage_of; simpl; rewrite ?Hfr; try done.
  - intros Ha. apply H3. by apply Hal.
  - intros k e He Hl. apply H5; [done|]. by apply Hlive.
  - intros Ha. apply H6. by apply Hal.
  - intros k e Hk He. destruct (Hheld k e Hk He) as [Hk' Hck]. destruct (H7 k e Hk' He) as [? Hc]. split; [done|].
    intros Hp'. by apply Hc, Hck.
Qed.

(** Moving to another step with the same locks, or locks not in use. *)
Lemma repc g s th i t p p' n : sys_ok schema g s th → th !! i = Some (mkThread t p n) → pc_ok s t p' →
  (alive p' → alive p) → (∀ k, live p' k → live p k) → freeing p' = freeing p → (∀ k, k ∈ held_keys (mkThread t p' n) → checked p' → checked p) →
  (∀ k, k ∈ held_keys (mkThread t p' n) ↔ k ∈ held_keys (mkThread t p n)) →
  (∀ c, commit_epoch p' = Some c → commit_epoch p = Some c ∨ c = global_epoch s) →
  sys_ok schema g s (<[i := mkThread t p' n]> th).
Proof.
  intros Hsys HT Hpc Hal Hlive Hfr Hck Hheld Hce. pose proof (sy_thread _ _ _ _ Hsys i _ HT) as HTok.
  apply (restep g s th i (mkThread t p n)); try done; simpl.
  - apply (thread_repc g s i t p); try done. intros k e Hk _. split; [by rewrite <- Hheld|by apply (Hck k)].
  - intros k e Hk He. by rewrite Hheld.
  - intros x (Ha & Hx). simpl in *. split; [|done]. split; [by apply Hal|]. simpl. destruct Hx as [(k & e & ? & ? & ?)|?]; [left|by right].
    exists k, e. split_and!; [done|by apply Hlive|done].
  - intros x. rewrite Hfr. intros Hx. split; [|by left]. destruct p, p'; simpl in *; try done; by apply not_elem_of_nil in Hx || subst; try by apply not_elem_of_nil in Hx.
  - intros c k e Hc Hk He. destruct (Hce c Hc) as [->| ->]; [left; by rewrite <- Hheld|right]. intros j U HU Ha.
    apply lookup_insert_Some in HU as [[<- <-]|[_ HU]]; [apply (to_past _ _ _ _ _ HTok)|apply (to_past _ _ _ _ _ (sy_thread _ _ _ _ Hsys j U HU))].
Qed.

(** What the destructor frees and keeps. *)
Lemma remove_parts {A} (gc : list (Z * A)) (e : Z) : by_epoch gc →
  (GarbageCollector.remove gc e).1 ++ (GarbageCollector.remove gc e).2 = gc ∧ by_epoch (GarbageCollector.remove gc e).2 ∧
  ∀ x, x ∈ (GarbageCollector.remove gc e).1 → x.1 ≤ e - 2.
Proof.
  intros Hgc. unfold GarbageCollector.remove. destruct (Z.leb_spec 2 e); simpl.
  - split; [apply take_drop|]. split; [|by apply upper_bound_nondescending].
    unfold by_epoch, nondescending in *. rewrite fmap_drop. generalize dependent (gc.*1). generalize (std_upper_bound (λ q : Z * A, e - 2 <? q.1) gc). clear.
    intros m. induction m as [|m IH]; intros l Hl; [done|]. destruct l; [done|]. simpl. apply IH. by apply StronglySorted_inv in Hl as [? _].
  - split_and!; [done..|]. intros x Hx. by apply not_elem_of_nil in Hx.
Qed.

Section local_steps.
Context {g : ghost} {s : store} {th : gmap nat thread} (Hsys : sys_ok schema g s th).
Context {i n : nat} {t : tx}.
#[local] Abbreviation at_ p := (mkThread t p n).

Lemma thread_at p : th !! i = Some (at_ p) → thread_ok schema g s i (at_ p) ∧ shape t ∧ pc_ok s t p.
Proof. intros HT. pose proof (sy_thread _ _ _ _ Hsys i _ HT) as HTok. split; [done|]. split; [apply HTok|apply HTok]. Qed.

Lemma start_ok : th !! i = Some (at_ Calls) → sys_ok schema g s (<[i := at_ (Locking [] [] (table_order t) 0)]> th).
Proof.
  intros HT. apply (repc g s th i t Calls); try done. split.
  - split; [lia|]. intros k e v Hk. by apply not_elem_of_nil in Hk.
  - exists []. split_and!; [done..|]. intros x Hx. by apply not_elem_of_nil in Hx.
Qed.

Lemma serial_ok h m order : th !! i = Some (at_ (Locking h [] [] m)) → order ≡ₚ map_to_list (rws t) →
  sys_ok schema g s (<[i := at_ (Validating order m (global_epoch s))]> th).
Proof.
  intros HT Hord. destruct (thread_at _ HT) as (HTok & Hsh & Htids & done_ & Hd & Hk & Hst).
  rewrite app_nil_r in Hd, Hk. assert (write_order t = h) as Hwo by (unfold write_order; by rewrite Hd).
  apply (repc g s th i t (Locking h [] [] m)); try done.
  - split; [by rewrite Hwo|]. split; [by rewrite Hd|]. split; [destruct (so_epoch _ _ _ (sy_store _ _ _ _ Hsys)); split; lia|]. split_and!.
    + rewrite Hord. apply NoDup_fst_map_to_list.
    + intros k e. rewrite Hord. apply elem_of_map_to_list.
    + intros k e He _ _. rewrite Hord. by apply elem_of_map_to_list.
  - intros k. unfold held_keys. simpl. by rewrite Hwo.
  - intros c [= <-]. by right.
Qed.

Lemma validated_ok k e todo m m' c : th !! i = Some (at_ (Validating ((k, e) :: todo) m c)) → m ≤ m' < 2 ^ 29 - 1 →
  (is_new e = true → rwt e = INSERT) →
  sys_ok schema g s (<[i := at_ (Validating todo m' c)]> th).
Proof.
  intros HT Hm Hnew. destruct (thread_at _ HT) as (HTok & Hsh & [Hb Htids] & Hst & Hc & Hnd & Hin & Hnn).
  apply (repc g s th i t (Validating ((k, e) :: todo) m c)); try done; [|by left]. csimpl in Hnd. apply NoDup_cons in Hnd as [_ Hnd].
  split_and!; try done.
  - split; [lia|]. intros k' e' v Hk' He' Hv. specialize (Htids k' e' v Hk' He' Hv). lia.
  - intros k' e' Hk'. apply Hin. by right.
  - intros k' e' He' Hn Hi. specialize (Hnn k' e' He' Hn Hi). apply elem_of_cons in Hnn as [[= -> ->]|?]; [|done]. by apply Hnew in Hn.
Qed.

Lemma writing_ok m c : th !! i = Some (at_ (Validating [] m c)) →
  sys_ok schema g s (<[i := at_ (Writing (write_order t) (mkTid false false false (next_tid m) c))]> th).
Proof.
  intros HT. destruct (thread_at _ HT) as (HTok & Hsh & [Hb Htids] & Hst & Hc & Hnd & Hin & Hnn).
  assert (next_tid m = m + 1) as Hnext by (unfold next_tid; apply wrap_small; split; lia).
  apply (repc g s th i t (Validating [] m c)); try done; [|by left]. simpl. rewrite Hnext. split_and!.
  - split; [split; simpl; lia|done].
  - by exists [].
  - intros k e He Hn. destruct (decide (rwt e = INSERT)); [done|]. specialize (Hnn k e He Hn ltac:(done)). by apply not_elem_of_nil in Hnn.
  - intros k e v Hk He Hv. specialize (Htids k e v Hk He Hv). simpl. lia.
Qed.

Lemma refused_ok todo m c : th !! i = Some (at_ (Validating todo m c)) → sys_ok schema g s (<[i := at_ (unlocking_all t)]> th).
Proof.
  intros HT. destruct (thread_at _ HT) as (HTok & Hsh & Htids & Hst & _). rewrite unlocking_all_order by done.
  apply (repc g s th i t (Validating todo m c)); try done. split; [by apply write_order_nodup|].
  intros k (e & He & _)%elem_of_write_order; [eauto|done].
Qed.

Lemma ended_ok cw : th !! i = Some (at_ (Writing [] cw)) → sys_ok schema g s (<[i := at_ (Ended true)]> th).
Proof. intros HT. by apply (repc g s th i t (Writing [] cw)). Qed.

Lemma unlocked_ok : th !! i = Some (at_ (Unlocking [])) → sys_ok schema g s (<[i := at_ Refused]> th).
Proof. intros HT. apply (repc g s th i t (Unlocking [])); try done. intros k Hk. by apply not_elem_of_nil in Hk. Qed.

Lemma aborting_ok p : th !! i = Some (at_ p) → p = Calls ∨ p = Refused → sys_ok schema g s (<[i := at_ (Aborting (write_order t))]> th).
Proof.
  intros HT [->| ->]; (eapply repc; [done|exact HT|..]); try done; by exists [].
Qed.

Lemma idle_ok : th !! i = Some (at_ (Freeing [])) → sys_ok schema g s (<[i := at_ Idle]> th).
Proof. intros HT. by apply (repc g s th i t (Freeing [])). Qed.

Lemma table_ok h x rest m : th !! i = Some (at_ (Locking h [] (x :: rest) m)) →
  sys_ok schema g s (<[i := mkThread (sort_writes t x) (Locking h (table_writes (sort_writes t x) x) rest m) n]> th).
Proof.
  intros HT. destruct (thread_at _ HT) as ([H1 H2 H3 H4 H5 H6 H7 H8 H9 H10] & Hsh & Htids & done_ & Hd & Hk & Hst).
  assert (x ∉ done_) as Hx.
  { pose proof (strongly_lt_nodup _ (table_order_sorted t)) as Hnd. rewrite Hd in Hnd. apply NoDup_app in Hnd as (_ & Hnd & _).
    intros Hin. apply (Hnd x Hin). left. }
  apply (restep g s th i (at_ (Locking h [] (x :: rest) m))); try done.
  2: { intros y Hy. by apply not_elem_of_nil in Hy. }
  split; try done; [by apply sort_shape| |].
  2: { intros k e He Hl. eapply entry_mono; [by apply H5|done|eauto using own_le_refl|eauto using val_le_refl|done]. }
  split; [done|]. exists (done_ ++ [x]). split_and!.
  - transitivity (table_order t); [done|]. by rewrite Hd, <- app_assoc.
  - cbn [ttx]. rewrite bind_app. simpl. rewrite app_nil_r in Hk |- *. f_equal. rewrite <- Hk. clear -Hx. induction done_ as [|y l IH]; [done|].
    apply not_elem_of_cons in Hx as [Hne Hni]. simpl. f_equal; [|by apply IH]. unfold table_writes. rewrite write_keys_sort, decide_False by congruence. done.
  - intros y [Hy| ->%list_elem_of_singleton]%elem_of_app; cbn [ttx]; rewrite write_keys_sort; case_decide as Hyx.
    + by subst.
    + by apply Hst.
    + apply merge_sort_lt. by apply sh_nodup.
    + done.
Qed.

Lemma clear_ok : th !! i = Some (at_ (Aborting [])) → sys_ok schema g s (<[i := mkThread (clear t) (Ended false) n]> th).
Proof.
  intros HT. destruct (thread_at _ HT) as ([H1 H2 H3 H4 H5 H6 H7 H8 H9 H10] & Hsh & _).
  assert (∀ k, k ∈ held_keys (mkThread (clear t) (Ended false) n) → False) as Hno by (intros k Hk; by apply not_elem_of_nil in Hk).
  assert (∀ x, ¬ refs (mkThread (clear t) (Ended false) n) x) as Hnr.
  { intros x [_ [(k & e & He & _)|(k & r & b & Hs & _)]]; simpl in *; [by rewrite lookup_empty in He|by rewrite lookup_empty in Hs]. }
  apply (restep g s th i (at_ (Aborting []))); try done; simpl.
  - split; try done. split; unfold write_keys; simpl.
    + intros k e He. by rewrite lookup_empty in He.
    + intros k. rewrite !lookup_empty. simpl. rewrite elem_of_nil. naive_solver.
    + intros x. rewrite lookup_empty. constructor.
  - intros k e Hk. by apply not_elem_of_nil in Hk.
  - intros x Hx. by apply Hnr in Hx.
  - intros x Hx. by apply not_elem_of_nil in Hx.
Qed.

Lemma collect_ok b : th !! i = Some (at_ (Ended b)) →
  sys_ok schema g s (<[i := mkThread (set_gc t (GarbageCollector.remove (gc_container t) (starting_epoch t)).2)
    (Freeing (GarbageCollector.remove (gc_container t) (starting_epoch t)).1.*2) n]> th).
Proof.
  intros HT. destruct (thread_at _ HT) as ([H1 H2 H3 H4 H5 H6 H7 H8 H9 H10] & Hsh & _).
  unfold garbage_of in *. simpl in *. rewrite app_nil_r in *.
  destruct (remove_parts (gc_container t) (starting_epoch t) H10) as (Hperm & Hsorted & Hold).
  destruct (GarbageCollector.remove (gc_container t) (starting_epoch t)) as [freed gc']. simpl in *.
  assert (gc'.*2 ++ freed.*2 ≡ₚ (gc_container t).*2) as Hp2 by (rewrite <- fmap_app, (comm app gc' freed); by rewrite Hperm).
  apply (restep g s th i (at_ (Ended b))); try done; simpl.
  - split; unfold garbage_of; simpl; try done.
    + destruct H1 as [? ? ?]. by split.
    + by rewrite Hp2.
    + intros x. rewrite Hp2. apply H9.
  - intros x [[] _].
  - intros c x Hx. rewrite <- Hperm. apply elem_of_app. by right.
  - intros x ((c & y) & -> & Hin)%list_elem_of_fmap. split; [by intros []|]. right. intros j U Hj HU Href.
    pose proof (sy_gc _ _ _ _ Hsys i _ j U c y HT HU) as Hc. simpl in Hc.
    specialize (Hc ltac:(rewrite <- Hperm; apply elem_of_app; by left) Href).
    pose proof (to_epoch _ _ _ _ _ (sy_thread _ _ _ _ Hsys j U HU) (proj1 Href)). specialize (Hold _ Hin). simpl in Hold. lia.
Qed.

Lemma begin_ok n' : th !! i = Some (at_ Idle) → sys_ok schema g s (<[i := mkThread (new_tx (global_epoch s) (gc_container t)) Calls n']> th).
Proof.
  intros HT. destruct (thread_at _ HT) as ([H1 H2 H3 H4 H5 H6 H7 H8 H9 H10] & Hsh & _).
  assert (∀ x, ¬ refs (mkThread (new_tx (global_epoch s) (gc_container t)) Calls n') x) as Hnr.
  { intros x [_ [(k & e & He & _)|(k & r & b & Hs & _)]]; simpl in *; [by rewrite lookup_empty in He|by rewrite lookup_empty in Hs]. }
  apply (restep g s th i (at_ Idle)); try done; simpl.
  - split; try done; simpl; [|lia].
    split; unfold write_keys; simpl.
    + intros k e He. by rewrite lookup_empty in He.
    + intros k. rewrite !lookup_empty. simpl. rewrite elem_of_nil. naive_solver.
    + intros x. rewrite lookup_empty. constructor.
  - intros k e Hk. by apply not_elem_of_nil in Hk.
  - intros x Hx. by apply Hnr in Hx.
  - intros x Hx. by apply not_elem_of_nil in Hx.
Qed.
End local_steps.

(** The epoch advances when every running transaction has seen it. *)
Lemma epoch_ok g s th : sys_ok schema g s th → global_epoch s < 2 ^ 32 - 1 →
  (∀ i T, th !! i = Some T → alive (tpc T) → starting_epoch (ttx T) = global_epoch s) →
  sys_ok schema g (mkStore (values s) (records s) (idx s) (u32 (global_epoch s + 1))) th.
Proof.
  intros [Hs Hth Hh Hg Hf Hc] Hsmall Hall. assert (u32 (global_epoch s + 1) = global_epoch s + 1) as ->.
  { apply wrap_small. destruct (so_epoch _ _ _ Hs). split; lia. }
  split; try done.
  - destruct Hs as [H1 H2 H3 H4 H5 H6 H7]. split; try done. simpl. lia.
  - intros i T HT. destruct (Hth i T HT) as [H1 H2 H3 H4 H5 H6 H7 H8 H9 H10]. split; try done; simpl.
    + intros Ha. specialize (Hall i T HT Ha). lia.
    + lia.
    + intros k e He Hl. destruct (H5 k e He Hl) as [E1 E2 E3]. by split.
Qed.

(** ** Steps on the store *)

Lemma set_gc_id t : set_gc t (gc_container t) = t.
Proof. by destruct t. Qed.

Lemma set_gc_shape t gc : shape t → shape (set_gc t gc).
Proof. by intros [? ? ?]. Qed.

(** The thread that makes a step on the store. *)
Lemma own_thread g s g' s' i t gc p p' n : thread_ok schema g s i (mkThread t p n) → global_epoch s' = global_epoch s →
  (∀ k e, rws t !! k = Some e → live p' k → live p k ∧
    (∀ r, rec e = Some r → rown g !! r = Some (Local i k) → rown g' !! r = Some (Local i k) ∧ records s' !! r = records s !! r) ∧
    (∀ o, vown g !! val e = Some o → ∃ o', vown g' !! val e = Some o' ∧ own_le o o') ∧
    (∀ v, values s !! val e = Some v → ∃ v', values s' !! val e = Some v' ∧ val_le v v')) →
  (∀ r, refs (mkThread t p n) (GRec (Some r)) → stable_rec g r → records s' !! r = records s !! r ∧ stable_rec g' r) →
  (alive p' → alive p) → pc_ok s' (set_gc t gc) p' →
  (∀ k e, k ∈ held_keys (mkThread (set_gc t gc) p' n) → rws t !! k = Some e → hold g' !! val e = Some (i, k) ∧
    (checked p' → ∃ o, vown g' !! val e = Some o ∧ keyed o k)) →
  NoDup (filter nonnull (gc.*2 ++ freeing p')) → (∀ x, x ∈ gc.*2 ++ freeing p' → retired g' i x) → by_epoch gc →
  thread_ok schema g' s' i (mkThread (set_gc t gc) p' n).
Proof.
  intros [H1 H2 H3 H4 H5 H6 H7 H8 H9 H10] Hgl Hen Hst Hal Hpc Hh Hnd Hret Hby. simpl in *.
  split; try done; simpl; rewrite ?Hgl; try done.
  - by apply set_gc_shape.
  - intros Ha. by apply H3, Hal.
  - intros k e He Hl. destruct (Hen k e He Hl) as (Hl' & Hr & Ho & Hv). eapply entry_mono; [by apply H5|done..].
  - intros Ha k r b Hs. destruct (H6 (Hal Ha) k r b Hs) as [Hb Hsr]. destruct (Hst r) as [-> ?]; [|done..].
    split; [by apply Hal|]. right. eauto.
Qed.

Lemma own_thread_same g s g' s' i t p p' n : thread_ok schema g s i (mkThread t p n) → global_epoch s' = global_epoch s →
  (∀ k e, rws t !! k = Some e → live p' k → live p k ∧
    (∀ r, rec e = Some r → rown g !! r = Some (Local i k) → rown g' !! r = Some (Local i k) ∧ records s' !! r = records s !! r) ∧
    (∀ o, vown g !! val e = Some o → ∃ o', vown g' !! val e = Some o' ∧ own_le o o') ∧
    (∀ v, values s !! val e = Some v → ∃ v', values s' !! val e = Some v' ∧ val_le v v')) →
  (∀ r, refs (mkThread t p n) (GRec (Some r)) → stable_rec g r → records s' !! r = records s !! r ∧ stable_rec g' r) →
  (alive p' → alive p) → pc_ok s' t p' →
  (∀ k e, k ∈ held_keys (mkThread t p' n) → rws t !! k = Some e → hold g' !! val e = Some (i, k) ∧
    (checked p' → ∃ o, vown g' !! val e = Some o ∧ keyed o k)) →
  freeing p' = freeing p → (∀ x, retired g i x → retired g' i x) →
  thread_ok schema g' s' i (mkThread t p' n).
Proof.
  intros HT Hgl Hen Hst Hal Hpc Hh Hfr Hret. pose proof HT as [_ _ _ _ _ _ _ H8 H9 H10].
  pose proof (own_thread g s g' s' i t (gc_container t) p p' n) as H. rewrite set_gc_id, Hfr in H. apply H; try done.
  intros x Hx. by apply Hret, H9.
Qed.

Section store_steps.
Context {g : ghost} {s : store} {th : gmap nat thread} (Hsys : sys_ok schema g s th).
Context {i n : nat} {t : tx}.
#[local] Abbreviation at_ p := (mkThread t p n).

(** What a used entry of the thread refers to. *)
Lemma entry_value_of p k e : th !! i = Some (at_ p) → rws t !! k = Some e → live p k → ∃ o v, vown g !! val e = Some o ∧
  values s !! val e = Some v ∧ value_ok schema g s (val e) v o ∧ (is_new e = true → o = New i k) ∧
  (is_new e = false → o = Live k ∨ ∃ j, o = Dead j k).
Proof.
  intros HT He Hl. destruct (to_entry _ _ _ _ _ (sy_thread _ _ _ _ Hsys i _ HT) k e He Hl) as [_ Hn Ho]. simpl in *.
  assert (∃ o, vown g !! val e = Some o ∧ (is_new e = true → o = New i k) ∧ (is_new e = false → o = Live k ∨ ∃ j, o = Dead j k)) as (o & Hown & H1 & H2).
  { destruct (is_new e); [exists (New i k); split_and!; [by apply Hn|done|done]|].
    destruct (Ho eq_refl) as [[Hl'|[j Hd]] _]; [exists (Live k)|exists (Dead j k)]; (split_and!; [done|done|]); eauto. }
  destruct (so_value _ _ _ (sy_store _ _ _ _ Hsys) _ _ Hown) as (v & Hv & Hok). exists o, v. done.
Qed.

(** Entries with different keys have different values. *)
Lemma own_apart p k e k' e' : th !! i = Some (at_ p) → rws t !! k = Some e → live p k → rws t !! k' = Some e' → live p k' →
  val e = val e' → k = k'.
Proof.
  intros HT He Hl He' Hl' Heq. destruct (entry_value_of p k e HT He Hl) as (o & v & Ho & _ & _ & N1 & O1).
  destruct (entry_value_of p k' e' HT He' Hl') as (o' & v' & Ho' & _ & _ & N2 & O2). assert (o' = o) as -> by congruence.
  destruct (is_new e), (is_new e'); naive_solver.
Qed.

(** A value being inserted is nobody else's. *)
Lemma newborn_own p l k j U : th !! i = Some (at_ p) → vown g !! l = Some (New i k) → th !! j = Some U → refs U (GVal l) → j = i.
Proof.
  intros HT Hl HU [_ [(k' & e & He & Hlive & [= ->])|(? & ? & ? & _ & ?)]]; [|done].
  destruct (to_entry _ _ _ _ _ (sy_thread _ _ _ _ Hsys j U HU) k' e He Hlive) as [_ Hn Ho].
  destruct (is_new e); [specialize (Hn eq_refl); congruence|]. destruct (Ho eq_refl) as [[?|[? ?]] _]; congruence.
Qed.

(** The lock of one value is taken or dropped. *)
Lemma relock_sys p p' k e v o b h' : let s1 := set_value s (val e) (mkValue (set_lock (tidword v) b) (vrec v)) in
  th !! i = Some (at_ p) → rws t !! k = Some e → values s !! val e = Some v → vown g !! val e = Some o →
  (∀ j k', hold g !! val e = Some (j, k') → j = i) → (∀ l, l ≠ val e → h' !! l = hold g !! l) → b = bool_decide (is_Some (h' !! val e)) →
  alive p → (∀ k, live p' k → live p k) → freeing p' = freeing p → freeing p' = [] → commit_epoch p' = None → pc_ok s1 t p' →
  (∀ k' e', k' ∈ held_keys (at_ p') → rws t !! k' = Some e' → h' !! val e' = Some (i, k') ∧
    (checked p' → ∃ o, vown g !! val e' = Some o ∧ keyed o k')) →
  (∀ l k', h' !! l = Some (i, k') → ∃ e', k' ∈ held_keys (at_ p') ∧ rws t !! k' = Some e' ∧ val e' = l) →
  (∀ j k', h' !! val e = Some (j, k') → j = i) →
  sys_ok schema (set_hold g h') s1 (<[i := at_ p']> th) ∧ quiet i g s (set_hold g h') s1.
Proof.
  intros s1 HT He Hv Ho Hmine Hh' Hb Hal Hlive Hfr Hfr' Hce Hpc Hheld Hback Hmine'. pose proof (sy_thread _ _ _ _ Hsys i _ HT) as HTok.
  destruct (relock_step schema (sy_store _ _ _ _ Hsys) i (val e) v o b h') as [Hfp Hview]; [done..|].
  split; [|by apply (footprint_quiet schema)].
  eapply (thread_moves schema g s _ s1 th i _ (at_ p')); [done|exact HT|exact Hfp|done| | | | | |].
  - eapply own_thread_same; [exact HTok|..]; try done.
    intros k' e' He' Hl'. split; [by apply Hlive|]. split; [done|]. split; [eauto using own_le_refl|]. intros v' Hv'. simpl.
    destruct (decide (val e' = val e)) as [Heq|]; [|rewrite lookup_insert_ne by done; eauto using val_le_refl].
    rewrite Heq, lookup_insert_eq. eexists. split; [done|]. left. assert (v' = v) as -> by congruence. by exists b.
  - intros l j k' Hl. destruct (decide (j = i)) as [->|]; [right; split; [done|by apply Hback]|left; split; [done|]].
    simpl in Hl. destruct (decide (l = val e)) as [->|]; [by apply Hmine' in Hl|by rewrite <- Hh'].
  - intros x [_ Hx]. left. split; [|done]. split; [done|]. simpl in *.
    destruct Hx as [(k' & e' & ? & ? & ?)|?]; [left; exists k', e'; auto|by right].
  - intros c x. by left.
  - simpl. rewrite Hfr'. intros x Hx. by apply not_elem_of_nil in Hx.
  - simpl. by rewrite Hce.
Qed.

Lemma lock_ok h k todo rest m ok m' s' : th !! i = Some (at_ (Locking h (k :: todo) rest m)) → small s →
  lock_entry t s k m = Ok (ok, m', s') → ∃ g',
  sys_ok schema g' s' (<[i := at_ (if ok then Locking (h ++ [k]) todo rest m' else unlocking t k)]> th) ∧ quiet i g s g' s'.
Proof.
  intros HT Hsmall (e & He%deref_Ok & H)%bind_Ok. apply bind_Ok in H as (s1 & Hlock & H).
  unfold lock_value in Hlock. apply bind_Ok in Hlock as (v & Hv%deref_Ok & Hlock).
  destruct (lock (tidword v)) eqn:Hlk; [done|]. injection Hlock as <-. apply bind_Ok in H as (v1 & Hv1%deref_Ok & H).
  simpl in Hv1. rewrite lookup_insert_eq in Hv1. injection Hv1 as <-. simpl in H.
  set (s1 := set_value s (val e) (mkValue (set_lock (tidword v) true) (vrec v))) in *.
  pose proof (sy_thread _ _ _ _ Hsys i _ HT) as HTok.
  destruct (to_pc _ _ _ _ _ HTok) as [[Hm Htids] (done_ & Hd & Hk & Hst)]. pose proof (to_shape _ _ _ _ _ HTok) as Hsh. simpl in Hd, Hk, Hst, Htids, Hsh.
  destruct (entry_value_of _ k e HT He I) as (o & v0 & Ho & Hv0 & (Hw & _ & Hok) & Hnew & Hold). assert (v0 = v) as -> by congruence.
  pose proof (unlocked_hold schema g s (val e) v (sy_store _ _ _ _ Hsys) Hv Hlk) as Hh.
  set (h' := <[val e := (i, k)]> (hold g)).
  assert (s' = s1) as -> by (destruct (_ && _); by simplify_eq).
  assert (write_order t = h ++ k :: todo ++ (rest ≫= table_writes t)) as Hwo.
  { unfold write_order. rewrite Hd, bind_app, Hk. by rewrite <- app_assoc. }
  pose proof (write_order_nodup t Hsh) as Hnd. rewrite Hwo in Hnd.
  assert (k ∉ h) as Hkh by (apply NoDup_app in Hnd as (_ & Hnd & _); intros Hin; apply (Hnd k Hin); left).
  exists (set_hold g h').
  assert (∀ p, held_keys (at_ p) = h ++ [k] → alive p → (∀ k, live p k) → freeing p = [] → commit_epoch p = None → pc_ok s1 t p →
    (checked p → keyed o k) → sys_ok schema (set_hold g h') s1 (<[i := at_ p]> th) ∧ quiet i g s (set_hold g h') s1) as Hgo.
  { intros p Hheld Hal Hlive Hfr Hce Hpc Hck. eapply (relock_sys _ p k e v o true h'); try done; rewrite ?Hheld; unfold h'.
    - by rewrite Hh.
    - intros l Hl. by rewrite lookup_insert_ne.
    - by rewrite lookup_insert_eq.
    - intros k' e' [Hk'| ->%list_elem_of_singleton]%elem_of_app He'.
      + destruct (to_hold _ _ _ _ _ HTok k' e' Hk' He') as [Hh' Hc]. rewrite lookup_insert_ne by congruence. split; [done|]. intros _. by apply Hc.
      + assert (e' = e) as -> by congruence. rewrite lookup_insert_eq. split; [done|]. intros Hc. exists o. split; [done|]. by apply Hck.
    - intros l k' [[<- [= <-]]|[Hne Hl]]%lookup_insert_Some.
      + exists e. split; [|done]. apply elem_of_app. right. left.
      + destruct (sy_hold _ _ _ _ Hsys l i k' Hl) as (U & e' & HU & Hk' & He' & Hval). assert (U = at_ (Locking h (k :: todo) rest m)) as -> by congruence.
        exists e'. split; [|done]. apply elem_of_app. by left.
    - intros j k'. rewrite lookup_insert_eq. by intros [= <- _]. }
  destruct (negb (is_new e) && negb (is_readable (set_lock (tidword v) true))) eqn:Hbad; injection H as <- <-.
  - assert (unlocking t k = Unlocking (h ++ [k])) as -> by (unfold unlocking; by rewrite Hwo, up_to_app).
    apply Hgo; try done. split.
    + apply NoDup_app in Hnd as (? & _ & _). apply NoDup_app. split_and!; [done| |apply NoDup_singleton].
      intros k' Hk' ->%list_elem_of_singleton. done.
    + intros k' Hk'. destruct (elem_of_write_order t k' Hsh) as [Hin _]. destruct Hin as (e' & -> & _); [|done]. rewrite Hwo.
      apply elem_of_app in Hk' as [?| ->%list_elem_of_singleton]; apply elem_of_app; [by left|right; left].
  - apply Hgo; try done.
    + split; [|exists done_; split_and!; [done|by rewrite <- app_assoc|done]].
      destruct Hsmall as [_ Hsmall]. specialize (Hsmall _ _ Hv). destruct Hw as [[Hw0 _] _]. simpl in *. split.
      * destruct (Z.ltb_spec m (tid (tidword v))); lia.
      * intros k' e' v' Hk' He' Hv'. unfold s1 in Hv'. simpl in Hv'. destruct (decide (val e' = val e)) as [Heq|Hne].
        -- rewrite Heq, lookup_insert_eq in Hv'. injection Hv' as <-. simpl. destruct (Z.ltb_spec m (tid (tidword v))); lia.
        -- rewrite lookup_insert_ne in Hv' by done. apply elem_of_app in Hk' as [Hk'| ->%list_elem_of_singleton]; [|congruence].
           specialize (Htids k' e' v' Hk' He' Hv'). destruct (Z.ltb_spec m (tid (tidword v))); lia.
    + intros _. destruct (is_new e) eqn:Hn; [rewrite Hnew by done; right; eauto|]. simpl in Hbad. apply negb_false_iff in Hbad.
      destruct (Hold eq_refl) as [->|[j ->]]; [by left|]. destruct Hok as [Hr _]. simpl in Hr. change (is_readable (tidword v) = true) in Hbad. congruence.
Qed.

(** A locked entry can be unlocked. *)
Lemma unlock_ok k todo : th !! i = Some (at_ (Unlocking (k :: todo))) → ∃ s' g', unlock_entry t s k = Ok s' ∧
  sys_ok schema g' s' (<[i := at_ (Unlocking todo)]> th) ∧ quiet i g s g' s'.
Proof.
  intros HT. pose proof (sy_thread _ _ _ _ Hsys i _ HT) as HTok. destruct (to_pc _ _ _ _ _ HTok) as [Hnd Hin]. simpl in Hnd, Hin.
  destruct (Hin k) as [e He]; [left|]. destruct (entry_value_of _ k e HT He I) as (o & v & Ho & Hv & _).
  destruct (to_hold _ _ _ _ _ HTok k e) as [Hh _]; [left|done|]. apply NoDup_cons in Hnd as [Hni Hnd].
  pose proof (hold_locked schema (sy_store _ _ _ _ Hsys) (val e) v Hv) as Hlk. rewrite Hh in Hlk. simpl in Hlk.
  unfold unlock_entry, unlock. rewrite He. simpl. rewrite Hv. simpl. rewrite Hlk. simpl. do 2 eexists. split; [done|].
  eapply (relock_sys _ (Unlocking todo) k e v o false (delete (val e) (hold g))); try done.
  - rewrite Hh. by intros j k' [= <- _].
  - intros l Hl. by rewrite lookup_delete_ne.
  - by rewrite lookup_delete_eq.
  - split; [done|]. intros k' Hk'. apply Hin. by right.
  - intros k' e' Hk' He'. destruct (to_hold _ _ _ _ _ HTok k' e') as [Hh' _]; [by right|done|]. split; [|by intros []].
    rewrite lookup_delete_ne; [done|]. intros Heq. rewrite Heq in Hh. assert (k' = k) as -> by congruence. done.
  - intros l k' [Hne Hl]%lookup_delete_Some. destruct (sy_hold _ _ _ _ Hsys l i k' Hl) as (U & e' & HU & Hk' & He' & Hval).
    assert (U = at_ (Unlocking (k :: todo))) as -> by congruence. exists e'. split; [|done].
    apply elem_of_cons in Hk' as [->|]; [|done]. simpl in He'. congruence.
  - intros j k'. by rewrite lookup_delete_eq.
Qed.

(** *** Installing a write *)
Section install.
Context {k : Z * Z} {todo : list (Z * Z)} {cw : TidWord} {e : ReadWriteElement} {v : Value} {o : vowner}.
Context (HT : th !! i = Some (at_ (Writing (k :: todo) cw))) (He : rws t !! k = Some e).
Context (Hv : values s !! val e = Some v) (Ho : vown g !! val e = Some o) (Hk : keyed o k).

Lemma written_facts : (k ∉ todo) ∧ word64 k.2 ∧ hold g !! val e = Some (i, k) ∧ (is_new e = true → o = New i k) ∧
  (is_new e = false → o = Live k) ∧ tid (tidword v) < tid cw.
Proof using Hsys HT He Hv Ho Hk.
  pose proof (sy_thread _ _ _ _ Hsys i _ HT) as HTok. destruct (to_pc _ _ _ _ _ HTok) as (_ & (d & Hd) & _ & Ht).
  pose proof (to_shape _ _ _ _ _ HTok) as Hsh. simpl in Hd, Ht, Hsh. split_and!.
  - pose proof (write_order_nodup t Hsh) as Hnd. rewrite Hd in Hnd. by apply NoDup_app in Hnd as (_ & _ & [? _]%NoDup_cons).
  - by apply (sh_entry _ Hsh k e He).
  - apply (to_hold _ _ _ _ _ HTok k e); [left|done].
  - intros Hn. destruct (entry_value_of _ k e HT He) as (o' & v' & Ho' & _ & _ & H1 & _); [left|]. assert (o' = o) as -> by congruence. auto.
  - intros Hn. destruct (entry_value_of _ k e HT He) as (o' & v' & Ho' & _ & _ & _ & H2); [left|]. assert (o' = o) as -> by congruence.
    destruct (H2 Hn) as [?|[j ->]]; [done|]. by destruct Hk as [?|[? ?]].
  - apply (Ht k e v); [left|done|done].
Qed.

Lemma other_entry k' e' : k' ∈ todo → rws t !! k' = Some e' → val e' ≠ val e ∧ k' ≠ k.
Proof using Hsys HT He Hv Ho Hk.
  intros Hin He'. assert (k' ≠ k) by (intros ->; by apply (proj1 written_facts)). split; [|done]. intros Heq.
  assert (k' = k); [|done]. eapply (own_apart _ k' e' k e); [done..|by right|done|left|done].
Qed.

Context (g' : ghost) (s' : store) (xs : list garbage) (gc' : list (Z * garbage)).
Context (Hfp : footprint schema i g s g' s' (newborn i (val e) o)).
Context (F1 : ∀ l, l ≠ val e → vown g' !! l = vown g !! l ∧ values s' !! l = values s !! l ∧ hold g' !! l = hold g !! l).
Context (F2 : hold g' !! val e = None) (Frec : records s' = records s) (Fgl : global_epoch s' = global_epoch s).
Context (F3 : ∀ r k', k' ≠ k → rown g !! r = Some (Local i k') → rown g' !! r = Some (Local i k')).
Context (F4 : ∀ r, stable_rec g r → stable_rec g' r) (F5 : ∀ r, rown g !! r = Some (Retired i) → rown g' !! r = Some (Retired i)).
Context (Hxs : ∀ x, x ∈ xs → (x = GVal (val e) ∨ x = GRec (vrec v)) ∧ retired g' i x ∧ (nonnull x → ¬ retired g i x)).
Context (Hxnd : NoDup (filter nonnull xs)).
Context (Hgc : gc' ≡ₚ ((pair (epoch cw) <$> xs) ++ gc_container t)) (Hby : by_epoch gc').

Lemma installed_sys : sys_ok schema g' s' (<[i := mkThread (set_gc t gc') (Writing todo cw) n]> th) ∧
  ∀ j U, j ≠ i → th !! j = Some U → evolves g s g' s' j (refs U).
Proof.
  pose proof (sy_thread _ _ _ _ Hsys i _ HT) as HTok. destruct (to_pc _ _ _ _ _ HTok) as (Hcw & (d & Hd) & Hnew & Ht). simpl in *.
  assert (∀ x, retired g i x → retired g' i x) as Hret.
  { intros [[r|]|l]; simpl; [apply F5|done|]. intros [k' Hl]. exists k'. destruct (F1 l) as [-> _]; [|done]. intros ->.
    destruct Hk as [->|[? ->]]; congruence. }
  assert (gc'.*2 ≡ₚ xs ++ (gc_container t).*2) as Hg2.
  { rewrite Hgc, fmap_app. f_equiv. clear. induction xs as [|x l IH]; [done|]. csimpl. by rewrite IH. }
  assert (∀ j U x, j ≠ i → th !! j = Some U → newborn i (val e) o x → ¬ refs U x) as Hnb.
  { intros j U x Hj HU [-> [k' ->]] Href. apply Hj. by eapply newborn_own. }
  split; [|intros j U Hj HU; apply (fp_others _ _ _ _ _ _ _ Hfp); eauto].
  assert (∀ x, refs (mkThread (set_gc t gc') (Writing todo cw) n) x → refs (at_ (Writing (k :: todo) cw)) x) as Hrefs.
  { intros x [_ [(k' & e' & ? & ? & ?)|?]]; (split; [done|]); [left; exists k', e'; split_and!; [done|by right|done]|by right]. }
  eapply (thread_moves schema g s g' s' th i (at_ (Writing (k :: todo) cw))); [done|done|done|done| | | | | |].
  - eapply own_thread; [exact HTok|done| | |done| | | | |done]; simpl.
    + intros k' e' He' Hl'. destruct (other_entry k' e' Hl' He') as [Hne Hne']. destruct (F1 _ Hne) as (F1a & F1b & _).
      split; [by right|]. split; [|split; [rewrite F1a; eauto using own_le_refl|rewrite F1b; eauto using val_le_refl]].
      intros r _ Hr. rewrite Frec. eauto.
    + intros r _ Hr. rewrite Frec. eauto.
    + split_and!; [done|exists (d ++ [k]); by rewrite <- app_assoc|done|]. intros k' e' v' Hk' He' Hv'.
      destruct (other_entry k' e' Hk' He') as [Hne _]. destruct (F1 _ Hne) as (_ & F1b & _). rewrite F1b in Hv'.
      apply (Ht k' e'); [by right|done|done].
    + intros k' e' Hk' He'. destruct (other_entry k' e' Hk' He') as [Hne _]. destruct (F1 _ Hne) as (-> & _ & ->).
      apply (to_hold _ _ _ _ _ HTok k' e'); [by right|done].
    + rewrite app_nil_r, Hg2, filter_app. apply NoDup_app. split_and!; [done| |].
      * intros x [Hn Hx]%list_elem_of_filter [_ Hx']%list_elem_of_filter. destruct (Hxs x Hx) as (_ & _ & Hno). apply (Hno Hn).
        apply (to_retired _ _ _ _ _ HTok). apply elem_of_app. by left.
      * pose proof (to_once _ _ _ _ _ HTok) as Hon. unfold garbage_of in Hon. simpl in Hon. by rewrite app_nil_r in Hon.
    + intros x. rewrite app_nil_r, Hg2. intros [Hx|Hx]%elem_of_app; [by apply Hxs|]. apply Hret, (to_retired _ _ _ _ _ HTok).
      apply elem_of_app. by left.
  - intros l j k' Hl. destruct (decide (l = val e)) as [->|Hne]; [congruence|]. destruct (F1 _ Hne) as (_ & _ & F1c). rewrite F1c in Hl.
    destruct (decide (j = i)) as [->|]; [right; split; [done|]|by left].
    destruct (sy_hold _ _ _ _ Hsys l i k' Hl) as (U & e' & HU & Hk' & He' & Hval). assert (U = at_ (Writing (k :: todo) cw)) as -> by congruence.
    exists e'. split; [|done]. simpl in *. apply elem_of_cons in Hk' as [->|]; [|done]. congruence.
  - intros x Hx. left. split; [by apply Hrefs|done].
  - intros c x. simpl. rewrite Hgc. intros [Hx|Hx]%elem_of_app; [right|by left]. apply list_elem_of_fmap in Hx as (y & [= -> ->] & Hy).
    intros j U HU Href. destruct (Hxs y Hy) as [Hy' _].
    assert (∃ U0, th !! j = Some U0 ∧ refs U0 y ∧ starting_epoch (ttx U) = starting_epoch (ttx U0)) as (U0 & HU0 & Href0 & ->).
    { apply lookup_insert_Some in HU as [[<- <-]|[_ HU]]; [|eauto]. eexists. split; [done|]. split; [by apply Hrefs|done]. }
    eapply (sy_commit _ _ _ _ Hsys i _ j U0 (epoch cw) k e v y); [done|done|done|left|done..].
  - intros x Hx. by apply not_elem_of_nil in Hx.
  - simpl. intros c k' e' v' Hc Hk' He' Hv'. left. destruct (other_entry k' e' Hk' He') as [Hne _]. destruct (F1 _ Hne) as (_ & F1b & _).
    rewrite F1b in Hv'. split_and!; [done|by right|done|done].
Qed.
End install.

Lemma retire_rec_lookup l v o k r : store_ok schema g s → vown g !! l = Some o → keyed o k → values s !! l = Some v →
  (vrec v = Some r → rown g !! r = Some (Committed l)) ∧
  (retire_rec i (vrec v) (rown g) !! r = if decide (vrec v = Some r) then Some (Retired i) else rown g !! r).
Proof.
  intros Hs Ho Hk Hv. split.
  - intros Hr. destruct (so_value _ _ _ Hs l o Ho) as (v0 & Hv0 & _ & _ & Hok). assert (v0 = v) as -> by congruence.
    destruct Hk as [->|[? ->]]; [|destruct Hok; congruence]. destruct Hok as (_ & r0 & Hr0 & Hc & _). congruence.
  - unfold retire_rec. destruct (vrec v) as [r0|]; [|done]. case_decide as Hd.
    + injection Hd as ->. by rewrite lookup_insert_eq.
    + rewrite lookup_insert_ne by congruence. done.
Qed.

(** What a write leaves in the database. *)
Definition content s e : option block := rec e ≫= λ r, records s !! r.

Section install_cases.
Context {k : Z * Z} {todo : list (Z * Z)} {cw : TidWord} {e : ReadWriteElement} {v : Value} {o : vowner}.
Context (HT : th !! i = Some (at_ (Writing (k :: todo) cw))) (He : rws t !! k = Some e).
Context (Hv : values s !! val e = Some v) (Ho : vown g !! val e = Some o) (Hk : keyed o k).
#[local] Abbreviation Hs := (sy_store _ _ _ _ Hsys).
#[local] Abbreviation collected := (GarbageCollector.collect (gc_container t) (epoch cw) (GRec (vrec v))).

Lemma retired_row r : (vrec v = Some r → rown g !! r = Some (Committed (val e))) ∧
  retire_rec i (vrec v) (rown g) !! r = if decide (vrec v = Some r) then Some (Retired i) else rown g !! r.
Proof using Hsys Hv Ho Hk. by eapply retire_rec_lookup; [apply Hs|..]. Qed.

Lemma retire_keeps r x : rown g !! r = Some x → (∀ l, x ≠ Committed l) → retire_rec i (vrec v) (rown g) !! r = Some x.
Proof using Hsys Hv Ho Hk.
  intros Hx Hno. rewrite (proj2 (retired_row r)). rewrite decide_False; [done|]. intros Hr%retired_row. rewrite Hr in Hx.
  injection Hx as <-. by eapply Hno.
Qed.

Lemma retire_stable r : stable_rec g r → ∃ x, retire_rec i (vrec v) (rown g) !! r = Some x ∧ ((∃ l, x = Committed l) ∨ ∃ j, x = Retired j).
Proof using Hsys Hv Ho Hk.
  rewrite (proj2 (retired_row r)). case_decide; [eauto|]. intros [[l ->]|[j ->]]; eauto.
Qed.

Lemma old_not_retired : nonnull (GRec (vrec v)) → ¬ retired g i (GRec (vrec v)).
Proof using Hsys Hv Ho Hk.
  intros Hnn. destruct (vrec v) as [r|] eqn:Hr; [|done]. simpl. rewrite (proj1 (retired_row r)) by done. done.
Qed.

Lemma collected_ok : by_epoch collected ∧ collected ≡ₚ (epoch cw, GRec (vrec v)) :: gc_container t.
Proof using Hsys HT. apply collect_by_epoch. apply (to_sorted _ _ _ _ _ (sy_thread _ _ _ _ Hsys i _ HT)). Qed.

Lemma holder_facts : word64 k.2 ∧ hold g !! val e = Some (i, k) ∧ (∀ j k', o = New j k' → j = i) ∧
  (∀ j k', hold g !! val e = Some (j, k') → j = i) ∧ tid (tidword v) < tid cw ∧ word_ok cw.
Proof using Hsys HT He Hv Ho Hk.
  destruct (written_facts HT He Hv Ho Hk) as (Hni & Hw & Hh & Hn1 & Hn2 & Htid). split_and!; try done.
  - intros j k' ->. destruct (is_new e); [by injection (Hn1 eq_refl)|by discriminate (Hn2 eq_refl)].
  - intros j k'. rewrite Hh. by intros [= <- _].
  - apply (to_pc _ _ _ _ _ (sy_thread _ _ _ _ Hsys i _ HT)).
Qed.

Lemma write_install r : rec e = Some r →
  let s' := set_value s (val e) (mkValue (mkTid false true false (tid cw) (epoch cw)) (Some r)) in ∃ g',
  sys_ok schema g' s' (<[i := mkThread (set_gc t collected) (Writing todo cw) n]> th) ∧
  (∀ j U, j ≠ i → th !! j = Some U → evolves g s g' s' j (refs U)) ∧
  ∀ k', word64 k'.2 → view s' k' = if decide (k' = k) then content s e else view s k'.
Proof using Hsys HT He Hv Ho Hk.
  intros Hr s'. destruct holder_facts as (Hw & Hh & Hmine & Hmineh & Htid & Hcw). destruct collected_ok as [Hby Hgc].
  destruct (to_entry _ _ _ _ _ (sy_thread _ _ _ _ Hsys i _ HT) k e He ltac:(left)) as [Hloc _ _]. destruct (Hloc r Hr) as [Hro Hsz].
  destruct (install_step schema Hs i k (val e) v o Hv Ho Hk Hw Hmine Hmineh r
    (mkTid false true false (tid cw) (epoch cw)) Hro Hsz Hh) as [Hfp Hview]; [done..|].
  eexists. unfold content. rewrite Hr. split; [|split; [|exact Hview]].
  all: apply (installed_sys HT He Hv Ho Hk _ _ [GRec (vrec v)] collected Hfp); try done; simpl.
  all: try (intros l Hl; by rewrite !lookup_insert_ne, lookup_delete_ne by done).
  all: try (by rewrite lookup_delete_eq).
  all: try (intros r' k' Hne Hr'; rewrite lookup_insert_ne by congruence; by apply retire_keeps).
  all: try (intros r' Hr'; rewrite lookup_insert_ne by congruence; by apply retire_keeps).
  all: try (intros r' Hr'; destruct (retire_stable r' Hr') as (x & Hx & Hxx); unfold stable_rec; simpl;
    rewrite lookup_insert_ne by (intros <-; destruct Hr' as [[? ?]|[? ?]]; congruence); rewrite Hx; destruct Hxx as [[l ->]|[j ->]]; eauto).
  all: try (destruct (decide (nonnull (GRec (vrec v)))); [rewrite filter_cons_True by done|rewrite filter_cons_False by done]; repeat constructor;
    by intros ?%not_elem_of_nil).
  all: intros x ->%list_elem_of_singleton; split_and!; [by right| |apply old_not_retired]; simpl; destruct (vrec v) as [r0|] eqn:Hr0; [|done];
    simpl; rewrite lookup_insert_ne; [by rewrite lookup_insert_eq|]; intros <-; rewrite (proj1 (retired_row r) Hr0) in Hro; done.
Qed.

Lemma write_delete : rec e = None → is_new e = false →
  let s' := set_idx (set_value s (val e) (mkValue (mkTid false false true (tid cw) (epoch cw)) None)) (idx_remove (idx s) k.1 k.2).2 in ∃ g',
  sys_ok schema g' s' (<[i := mkThread (set_gc t (GarbageCollector.collect collected (epoch cw) (GVal (val e)))) (Writing todo cw) n]> th) ∧
  (∀ j U, j ≠ i → th !! j = Some U → evolves g s g' s' j (refs U)) ∧
  ∀ k', word64 k'.2 → view s' k' = if decide (k' = k) then content s e else view s k'.
Proof using Hsys HT He Hv Ho Hk.
  intros Hr Hnew s'. destruct holder_facts as (Hw & Hh & Hmine & Hmineh & Htid & Hcw). destruct collected_ok as [Hby Hgc].
  destruct (collect_by_epoch collected (epoch cw) (GVal (val e)) Hby) as [Hby2 Hgc2].
  destruct (written_facts HT He Hv Ho Hk) as (_ & _ & _ & _ & Hlive & _). specialize (Hlive Hnew).
  destruct (remove_step schema Hs i k (val e) v o Hv Ho Hk Hw Hmine Hmineh (mkTid false false true (tid cw) (epoch cw))) as [Hfp Hview]; [done..|].
  eexists. unfold content. rewrite Hr. split; [|split; [|exact Hview]].
  all: apply (installed_sys HT He Hv Ho Hk _ _ [GVal (val e); GRec (vrec v)] (GarbageCollector.collect collected (epoch cw) (GVal (val e))) Hfp); try done; simpl.
  all: try (intros l Hl; by rewrite !lookup_insert_ne, lookup_delete_ne by done).
  all: try (by rewrite lookup_delete_eq).
  all: try (intros r' k' Hne Hr'; by apply retire_keeps).
  all: try (intros r' Hr'; by apply retire_keeps).
  all: try (intros r' Hr'; destruct (retire_stable r' Hr') as (x & Hx & Hxx); unfold stable_rec; simpl; rewrite Hx; destruct Hxx as [[l ->]|[j ->]]; eauto).
  all: try (by rewrite Hgc2, Hgc).
  all: try (rewrite filter_cons_True by done; destruct (decide (nonnull (GRec (vrec v)))); [rewrite filter_cons_True by done|rewrite filter_cons_False by done];
    [constructor; [by intros ?%list_elem_of_singleton|]|]; apply NoDup_singleton).
  all: intros x [->|[->|[]%not_elem_of_nil]%elem_of_cons]%elem_of_cons; (split_and!; [auto| |]); try apply old_not_retired.
  all: try (exists k; simpl; by rewrite lookup_insert_eq).
  all: try (intros _ [k' Hx]; destruct Hk as [->|[? ->]]; congruence).
  all: simpl; destruct (vrec v) as [r0|]; [|done]; simpl; by rewrite lookup_insert_eq.
Qed.
End install_cases.

Lemma write_ok k todo cw : th !! i = Some (at_ (Writing (k :: todo) cw)) → ∃ gc' s' g',
  write_entry t s k cw = Ok (set_gc t gc', s') ∧
  sys_ok schema g' s' (<[i := mkThread (set_gc t gc') (Writing todo cw) n]> th) ∧
  (∀ j U, j ≠ i → th !! j = Some U → evolves g s g' s' j (refs U)) ∧ records s' = records s ∧ global_epoch s' = global_epoch s ∧
  ∃ e v v' o, rws t !! k = Some e ∧ values s !! val e = Some v ∧ vown g !! val e = Some o ∧ keyed o k ∧
    values s' !! val e = Some v' ∧ tid (tidword v) < tid (tidword v') ∧
    ∀ k', word64 k'.2 → view s' k' = if decide (k' = k) then content s e else view s k'.
Proof.
  intros HT. pose proof (sy_thread _ _ _ _ Hsys i _ HT) as HTok.
  destruct (to_pc _ _ _ _ _ HTok) as (_ & (d & Hd) & Hnew & _). pose proof (to_shape _ _ _ _ _ HTok) as Hsh. simpl in Hd, Hsh, Hnew.
  destruct (proj1 (elem_of_write_order t k Hsh)) as (e & He & Hrw); [rewrite Hd; apply elem_of_app; right; left|].
  destruct (entry_value_of _ k e HT He ltac:(left)) as (o & v & Ho & Hv & _ & _ & _).
  destruct (to_hold _ _ _ _ _ HTok k e ltac:(left) He) as [Hh Hck]. destruct (Hck I) as (o' & Ho' & Hk). assert (o' = o) as -> by congruence.
  destruct (sh_entry _ Hsh k e He) as (_ & _ & _ & _ & Hrec). destruct (holder_facts HT He Hv Ho Hk) as (_ & _ & _ & _ & Htid & _).
  unfold write_entry. rewrite He. cbn [deref mbind outcome_bind]. rewrite Hv. cbn [deref mbind outcome_bind]. destruct (rwt e) eqn:Hrwt; [done|..].
  1, 2: destruct Hrec as [r Hr]; destruct (write_install HT He Hv Ho Hk r Hr) as (g' & ? & ? & ?); rewrite Hr; do 2 eexists; exists g'; split; [reflexivity|];
    split_and!; [done|done|done|done|]; exists e, v; eexists; exists o; split_and!; [done..|apply lookup_insert_eq|apply Htid|done].
  destruct (write_delete HT He Hv Ho Hk Hrec) as (g' & ? & ? & ?).
  - destruct (is_new e) eqn:Hne; [by rewrite (Hnew k e He Hne) in Hrwt|done].
  - rewrite Hrec. do 2 eexists. exists g'. split; [reflexivity|]. split_and!; [done|done|done|done|].
    exists e, v. eexists. exists o. split_and!; [done..|apply lookup_insert_eq|apply Htid|done].
Qed.

(** A lock is held by a thread that still uses the value. *)
Lemma hold_refs l j k : hold g !! l = Some (j, k) → ∃ U, th !! j = Some U ∧ refs U (GVal l) ∧ k ∈ held_keys U.
Proof.
  intros Hl. destruct (sy_hold _ _ _ _ Hsys l j k Hl) as (U & e & HU & Hk & He & <-). exists U. split; [done|]. split; [|done].
  unfold held_keys in Hk. split; [destruct (tpc U); done || by apply not_elem_of_nil in Hk|]. left. exists k, e. split_and!; [done| |done].
  destruct (tpc U); done || by apply not_elem_of_nil in Hk.
Qed.

(** *** Abort *)

Lemma skip_ok k todo : th !! i = Some (at_ (Aborting (k :: todo))) → sys_ok schema g s (<[i := at_ (Aborting todo)]> th).
Proof.
  intros HT. destruct (to_pc _ _ _ _ _ (sy_thread _ _ _ _ Hsys i _ HT)) as (d & Hd). simpl in Hd.
  apply (repc g s th i t (Aborting (k :: todo))); try done.
  - exists (d ++ [k]). by rewrite <- app_assoc.
  - intros k' Hk'. by right.
Qed.

Lemma undo_insert_ok k todo e : th !! i = Some (at_ (Aborting (k :: todo))) → rws t !! k = Some e → is_new e = true → ∃ gc' s' g',
  undo_insert t s k e = Ok (set_gc t gc', s') ∧
  sys_ok schema g' s' (<[i := mkThread (set_gc t gc') (Aborting todo) n]> th) ∧
  (∀ j U, j ≠ i → th !! j = Some U → evolves g s g' s' j (refs U)) ∧
  (∀ k, word64 k.2 → view s' k = view s k) ∧ rown g' = rown g ∧ records s' = records s.
Proof.
  intros HT He Hnew. pose proof (sy_thread _ _ _ _ Hsys i _ HT) as HTok. pose proof (sy_store _ _ _ _ Hsys) as Hs.
  destruct (to_pc _ _ _ _ _ HTok) as (d & Hd). pose proof (to_shape _ _ _ _ _ HTok) as Hsh. simpl in Hd, Hsh.
  destruct (entry_value_of _ k e HT He ltac:(left)) as (o & v & Ho & Hv & (Hw & Hlk & Hok) & Hn & _). rewrite (Hn Hnew) in *.
  destruct Hok as [Hread Hrec]. assert (hold g !! val e = None) as Hh.
  { destruct (hold g !! val e) as [[j k']|] eqn:Hx; [|done]. destruct (hold_refs _ _ _ Hx) as (U & HU & Href & Hk').
    assert (j = i) as -> by (by eapply newborn_own). assert (U = at_ (Aborting (k :: todo))) as -> by congruence. by apply not_elem_of_nil in Hk'. }
  rewrite Hh in Hlk. change (lock (tidword v) = false) in Hlk.
  assert (word64 k.2) as Hw2 by (by apply (sh_entry _ Hsh k e He)).
  assert (k ∉ todo) as Hni by (pose proof (write_order_nodup t Hsh) as Hnd; rewrite Hd in Hnd; by apply NoDup_app in Hnd as (_ & _ & [? _]%NoDup_cons)).
  set (w := mkTid false false true (tid (tidword v)) (epoch (tidword v))).
  destruct (remove_step schema Hs i k (val e) v (New i k) Hv Ho ltac:(right; eauto) Hw2 ltac:(by intros ? ? [= -> _]) ltac:(by rewrite Hh) w)
    as [Hfp Hview]; [done..|].
  destruct (collect_by_epoch (gc_container t) (starting_epoch t) (GVal (val e)) (to_sorted _ _ _ _ _ HTok)) as [Hby Hgc].
  do 3 eexists. split; [unfold undo_insert, lock_value; rewrite Hv; simpl; rewrite Hlk; simpl; rewrite lookup_insert_eq; simpl; rewrite Hrec; simpl;
    unfold set_value; simpl; rewrite insert_insert_eq; reflexivity|].
  assert (∀ j U x, j ≠ i → th !! j = Some U → newborn i (val e) (New i k) x → ¬ refs U x) as Hnb.
  { intros j U x Hj HU [-> _] Href. apply Hj. by eapply newborn_own. }
  assert (∀ k' e', k' ∈ todo → rws t !! k' = Some e' → val e' ≠ val e) as Hother.
  { intros k' e' Hk' He' Heq. assert (k' = k) as ->; [|done]. eapply (own_apart _ k' e' k e); [done..|by right|done|left|done]. }
  split; [|split_and!].
  - eapply (thread_moves schema g s _ _ th i (at_ (Aborting (k :: todo)))); [done|done|exact Hfp|done| | | | | |].
    + eapply own_thread; [exact HTok|done| | |done|exists (d ++ [k]); by rewrite <- app_assoc| | | |exact Hby]; simpl.
      * intros k' e' He' Hk'. specialize (Hother k' e' Hk' He'). rewrite !lookup_insert_ne by done.
        split; [by right|]. rewrite Hrec. simpl. split; [done|]. split; intros; eauto using own_le_refl, val_le_refl.
      * intros r _ Hr. split; [done|]. unfold stable_rec in *. simpl. by rewrite Hrec.
      * intros k' e' Hk'. by apply not_elem_of_nil in Hk'.
      * rewrite app_nil_r, Hgc. csimpl. rewrite filter_cons_True by done. pose proof (to_once _ _ _ _ _ HTok) as Hon. unfold garbage_of in Hon. simpl in Hon.
        rewrite app_nil_r in Hon. constructor; [|done]. intros [_ Hin]%list_elem_of_filter.
        destruct (to_retired _ _ _ _ _ HTok (GVal (val e))) as [k' Hk']; [apply elem_of_app; by left|]. congruence.
      * intros x. rewrite app_nil_r, Hgc. csimpl. intros [->|Hx]%elem_of_cons; [exists k; simpl; by rewrite lookup_insert_eq|].
        pose proof (to_retired _ _ _ _ _ HTok x) as Hr. unfold garbage_of in Hr. simpl in Hr. rewrite app_nil_r in Hr. specialize (Hr Hx).
        destruct x as [[r|]|l]; simpl in *; [by rewrite Hrec|done|]. destruct Hr as [k' Hr]. exists k'. rewrite lookup_insert_ne by congruence. done.
    + simpl. intros l j k' [Hne Hl]%lookup_delete_Some. destruct (decide (j = i)) as [->|]; [|by left]. exfalso.
      destruct (hold_refs _ _ _ Hl) as (U & HU & _ & Hk'). assert (U = at_ (Aborting (k :: todo))) as -> by congruence. by apply not_elem_of_nil in Hk'.
    + intros x [_ Hx]. left. split; [|done]. split; [done|]. destruct Hx as [(k' & e' & ? & ? & ?)|?]; [left; exists k', e'; split_and!; [done|by right|done]|by right].
    + simpl. intros c x. rewrite Hgc. intros [[= -> ->]|?]%elem_of_cons; [right|by left]. intros j U [[<- <-]|[Hne HU]]%lookup_insert_Some Href; [done|].
      exfalso. apply Hne. symmetry. by eapply newborn_own.
    + intros x Hx. by apply not_elem_of_nil in Hx.
    + done.
  - intros j U Hj HU. apply (fp_others _ _ _ _ _ _ _ Hfp); eauto.
  - intros k' Hk'. rewrite Hview by done. case_decide; [subst|done]. symmetry. eapply view_dead; [done|done|]. intros l Hl.
    assert (l = val e) as -> by (eapply (keyed_unique schema g s k); [done|done|exact Hl|by left|exact Ho|right; eauto]). congruence.
  - simpl. by rewrite Hrec.
  - done.
Qed.

Lemma free_local_ok todo k r : th !! i = Some (at_ (Aborting todo)) → rown g !! r = Some (Local i k) → k ∉ todo → ∃ s' g',
  free s (Some r) = Ok s' ∧ sys_ok schema g' s' (<[i := at_ (Aborting todo)]> th) ∧ quiet i g s g' s'.
Proof.
  intros HT Hr Hk. pose proof (sy_thread _ _ _ _ Hsys i _ HT) as HTok. destruct (so_rec _ _ _ (sy_store _ _ _ _ Hsys) r _ Hr) as [b Hb].
  destruct (local_step schema (sy_store _ _ _ _ Hsys) i k r None (delete r (records s))) as [Hfp Hview];
    [by right|by left|intros r' Hne; by rewrite lookup_delete_ne|].
  unfold free, deallocate. rewrite Hb. simpl. do 2 eexists. split; [done|]. split; [|by apply (footprint_quiet schema)].
  assert (∀ r', r' ≠ r → partial_alter (λ _, None) r (rown g) !! r' = rown g !! r') as Hne by (intros r' ?; by apply lookup_partial_alter_ne).
  assert (∀ r', stable_rec g r' → r' ≠ r) as Hst by (intros r' [[? ?]|[? ?]] ->; congruence).
  eapply (thread_moves schema g s _ _ th i (at_ (Aborting todo))); [done|done|exact Hfp|done| | | | | |].
  - eapply own_thread_same; [exact HTok|..]; try done; simpl.
    + intros k' e' He' Hk'. split; [done|]. split; [|split; intros; eauto using own_le_refl, val_le_refl]. intros r' Hr' Hl.
      assert (r' ≠ r) by (intros ->; congruence). rewrite Hne, lookup_delete_ne by done. done.
    + intros r' _ Hs'. pose proof (Hst r' Hs'). rewrite lookup_delete_ne by done. split; [done|]. unfold stable_rec. simpl. by rewrite Hne.
    + apply (to_pc _ _ _ _ _ HTok).
    + intros k' e' Hk'. by apply not_elem_of_nil in Hk'.
    + intros [[r'|]|l]; simpl; [|done..]. intros Hr'. rewrite Hne by congruence. done.
  - intros l j k' Hl. destruct (decide (j = i)) as [->|]; [|by left]. exfalso. destruct (hold_refs _ _ _ Hl) as (U & HU & _ & Hk').
    assert (U = at_ (Aborting todo)) as -> by congruence. by apply not_elem_of_nil in Hk'.
  - intros x Hx. by left.
  - intros c x. by left.
  - intros x Hx. by apply not_elem_of_nil in Hx.
  - done.
Qed.

(** *** The destructor *)
Lemma free_garbage_ok x todo : th !! i = Some (at_ (Freeing (x :: todo))) → ∃ s' g', free_garbage s x = Ok s' ∧
  sys_ok schema g' s' (<[i := at_ (Freeing todo)]> th) ∧ (∀ j U, j ≠ i → th !! j = Some U → evolves g s g' s' j (refs U)) ∧
  (∀ k, word64 k.2 → view s' k = view s k).
Proof.
  intros HT. pose proof (sy_thread _ _ _ _ Hsys i _ HT) as HTok. pose proof (sy_store _ _ _ _ Hsys) as Hs.
  assert (retired g i x) as Hret by (apply (to_retired _ _ _ _ _ HTok); apply elem_of_app; right; left).
  assert (garbage_of (at_ (Freeing (x :: todo))) ≡ₚ x :: garbage_of (at_ (Freeing todo))) as Hperm
    by (unfold garbage_of; simpl; by rewrite Permutation_middle).
  pose proof (to_once _ _ _ _ _ HTok) as Hon. rewrite Hperm in Hon.
  assert (∀ y, y ∈ garbage_of (at_ (Freeing todo)) → retired g i y) as Hrest
    by (intros y Hy; apply (to_retired _ _ _ _ _ HTok); rewrite Hperm; by right).
  assert (∀ j U, th !! j = Some U → ¬ refs U x) as Hnr by (intros j U HU; apply (sy_free _ _ _ _ Hsys i _ j U x HT HU); left).
  assert (∀ l j k, hold g !! l = Some (j, k) → j ≠ i) as Hnh.
  { intros l j k Hl ->. destruct (hold_refs _ _ _ Hl) as (U & HU & _ & Hk). assert (U = at_ (Freeing (x :: todo))) as -> by congruence.
    by apply not_elem_of_nil in Hk. }
  assert (∀ g' s' gone, footprint schema i g s g' s' gone → (∀ y, gone y → y = x) → hold g' = hold g → global_epoch s' = global_epoch s →
    NoDup (filter nonnull (garbage_of (at_ (Freeing todo)))) → (∀ y, y ∈ garbage_of (at_ (Freeing todo)) → retired g' i y) →
    sys_ok schema g' s' (<[i := at_ (Freeing todo)]> th) ∧ (∀ j U, j ≠ i → th !! j = Some U → evolves g s g' s' j (refs U))) as Hgo.
  { intros g' s' gone Hfp Hgone Hhold Hgl Hnd Hret'.
    assert (∀ j U y, j ≠ i → th !! j = Some U → gone y → ¬ refs U y) as Hng by (intros j U y _ HU ->%Hgone; by eapply Hnr).
    split; [|intros j U Hj HU; apply (fp_others _ _ _ _ _ _ _ Hfp); eauto].
    destruct HTok as [H1 H2 H3 H4 H5 H6 H7 H8 H9 H10].
    eapply (thread_moves schema g s g' s' th i (at_ (Freeing (x :: todo)))); [done|done|exact Hfp|done| | | | | |].
    - split; try done; [simpl; by rewrite Hgl|]. intros k e Hk. by apply not_elem_of_nil in Hk.
    - intros l j k Hl. left. rewrite Hhold in Hl. split; [by eapply Hnh|done].
    - intros y [[] _].
    - intros c y. by left.
    - intros y Hy. split; [by intros []|]. left. by right.
    - done. }
  destruct x as [[r|]|l].
  - destruct (free_record_step schema Hs i r Hret) as [Hfp Hview]. rewrite filter_cons_True in Hon by done. apply NoDup_cons in Hon as [Hni Hnd].
    destruct (so_rec _ _ _ Hs r _ Hret) as [b Hb]. unfold free_garbage, free, deallocate. rewrite Hb. simpl. do 2 eexists. split; [done|].
    split; [|split; [|exact Hview]]; eapply (Hgo _ _ _ Hfp); try done.
    all: intros [[r'|]|l] Hy; specialize (Hrest _ Hy); simpl in *; try done; rewrite lookup_delete_ne; [done|]; intros ->; apply Hni;
      by apply list_elem_of_filter.
  - rewrite filter_cons_False in Hon by (intros Hn; by apply Hn). exists s, g. split; [unfold free_garbage, free; simpl; by destruct s|].
    destruct (Hgo g s none) as [? ?]; [by apply footprint_refl|done..|]. done.
  - destruct Hret as [k Hret]. assert (hold g !! l = None) as Hh.
    { destruct (hold g !! l) as [[j k']|] eqn:Hx; [|done]. destruct (hold_refs _ _ _ Hx) as (U & HU & Href & _). by eapply Hnr in Href. }
    destruct (free_value_step schema Hs i k l Hret Hh) as [Hfp Hview]. rewrite filter_cons_True in Hon by done. apply NoDup_cons in Hon as [Hni Hnd].
    destruct (so_value _ _ _ Hs l _ Hret) as (v & Hv & _). simpl. rewrite Hv. do 2 eexists. split; [done|].
    split; [|split; [|exact Hview]]; eapply (Hgo _ _ _ Hfp); try done.
    all: intros [[r'|]|l'] Hy; specialize (Hrest _ Hy); simpl in *; try done; destruct Hrest as [k' Hk']; exists k'; rewrite lookup_delete_ne; [done|];
      intros ->; apply Hni; by apply list_elem_of_filter.
Qed.
End store_steps.

Lemma undo_entry_ok g s th i n t k todo : sys_ok schema g s th → th !! i = Some (mkThread t (Aborting (k :: todo)) n) → ∃ gc' s' g',
  undo_entry t s k = Ok (set_gc t gc', s') ∧
  sys_ok schema g' s' (<[i := mkThread (set_gc t gc') (Aborting todo) n]> th) ∧
  (∀ j U, j ≠ i → th !! j = Some U → evolves g s g' s' j (refs U)) ∧ (∀ k, word64 k.2 → view s' k = view s k).
Proof.
  intros Hsys HT. pose proof (sy_thread _ _ _ _ Hsys i _ HT) as HTok. pose proof (to_shape _ _ _ _ _ HTok) as Hsh. simpl in Hsh.
  destruct (to_pc _ _ _ _ _ HTok) as (d & Hd). simpl in Hd.
  destruct (proj1 (elem_of_write_order t k Hsh)) as (e & He & Hrw); [rewrite Hd; apply elem_of_app; right; left|].
  assert (k ∉ todo) as Hni by (pose proof (write_order_nodup t Hsh) as Hnd; rewrite Hd in Hnd; by apply NoDup_app in Hnd as (_ & _ & [? _]%NoDup_cons)).
  destruct (to_entry _ _ _ _ _ HTok k e He ltac:(left)) as [Hloc _ _].
  destruct (sh_entry _ Hsh k e He) as (_ & _ & _ & _ & Hrec). unfold undo_entry. rewrite He. simpl.
  assert (∃ gc' s1 g1, (if is_new e then undo_insert t s k e else Ok (t, s)) = Ok (set_gc t gc', s1) ∧
    sys_ok schema g1 s1 (<[i := mkThread (set_gc t gc') (Aborting todo) n]> th) ∧
    (∀ j U, j ≠ i → th !! j = Some U → evolves g s g1 s1 j (refs U)) ∧ (∀ k, word64 k.2 → view s1 k = view s k) ∧ rown g1 = rown g)
    as (gc' & s1 & g1 & Hun & Hsys1 & Hev1 & Hv1 & Hro).
  { destruct (is_new e) eqn:Hnew.
    - destruct (undo_insert_ok Hsys k todo e HT He Hnew) as (gc' & s1 & g1 & ? & ? & ? & ? & ? & _). eauto 10.
    - exists (gc_container t), s, g. rewrite set_gc_id. split_and!; [done|by eapply skip_ok| |done|done]. intros. apply evolves_refl. }
  rewrite Hun. simpl. destruct (rwt e); [done|..].
  1, 2: destruct Hrec as [r Hr]; destruct (Hloc r Hr) as [Hl _]; rewrite <- Hro in Hl;
    destruct (free_local_ok Hsys1 (t := set_gc t gc') todo k r (lookup_insert_eq _ _ _) Hl Hni) as (s2 & g2 & Hf & Hsys2 & Hq);
    rewrite Hr, Hf; simpl; exists gc', s2, g2; split; [done|]; rewrite insert_insert_eq in Hsys2; split; [done|]; split;
    [intros j U Hj HU; eapply evolves_trans; [by apply Hev1|by apply Hq]|intros k' Hk'; rewrite (proj2 Hq), Hv1 by done; done].
  exists gc', s1, g1. done.
Qed.
End silo_commit.
