(* ===== verification/SiloSerial.v ===== *)
(** * Silo is serializable

    The log lists the transactions in the order of their serial points.  The
    invariant says that the database is what the installed writes of the log
    make of the initial one, that a write not yet installed has no later
    writer in the log, and that what a transaction has validated is what the
    log before it leaves behind. *)
From stdpp Require Import sorting.
From S2P Require Import Prelude Versions BitFields Epoch Index Memory Silo SiloInv SiloCalls SiloCommit.

Section silo_serial.
Import Memory Silo.
Context `{HI : NodeIndex loc} `{HL : !NodeIndexLaws loc} (schema : gmap Z nat) (d0 : Z * Z → option block).
Implicit Types (s : store) (t : tx) (T U : thread) (k : Z * Z) (l r : loc) (e : ReadWriteElement) (v : Value) (p : pc).
Implicit Types (g : ghost) (i j n : nat) (x y : logged) (L : list logged).

(** ** Serial execution *)

(** The database after the transactions of a log ran one after another. *)
Definition replay L k : option block := foldl (λ d x, default d (lwrites x !! k)) (d0 k) L.
(** The same with the writes that have been installed. *)
Definition replay_done L k : option block :=
  foldl (λ d x, if decide (k ∈ ldone x) then default d (lwrites x !! k) else d) (d0 k) L.

Definition pending x k : Prop := is_Some (lwrites x !! k) ∧ k ∉ ldone x.
Definition settled L k : Prop := ∀ x, x ∈ L → ¬ pending x k.

Lemma settled_replay L k : settled L k → replay_done L k = replay L k.
Proof.
  unfold replay, replay_done, settled. generalize (d0 k). induction L as [|x L IH]; intros d Hs; [done|]. simpl.
  rewrite IH by (intros y Hy; apply Hs; by right). f_equal. case_decide as Hd; [done|].
  destruct (lwrites x !! k) as [o|] eqn:Ho; [|done]. destruct (Hs x); [left|]. split; [by rewrite Ho|done].
Qed.

Lemma replay_app L L' k : replay (L ++ L') k = foldl (λ d x, default d (lwrites x !! k)) (replay L k) L'.
Proof. unfold replay. by rewrite foldl_app. Qed.

Lemma replay_skip L L' k : (∀ x, x ∈ L' → lwrites x !! k = None) → replay (L ++ L') k = replay L k.
Proof.
  rewrite replay_app. generalize (replay L k). induction L' as [|x L' IH]; intros d Hno; [done|]. simpl. rewrite (Hno x) by left. simpl.
  apply IH. intros y Hy. apply Hno. by right.
Qed.

Lemma replay_ext L L' k : Forall2 (λ x y, lwrites x !! k = lwrites y !! k) L L' → replay L k = replay L' k.
Proof. unfold replay. generalize (d0 k). intros d H. revert d. induction H as [|x y L L' Hxy H IH]; intros d; [done|]. simpl. rewrite Hxy. apply IH. Qed.

Lemma done_ext L L' k : Forall2 (λ x y, lwrites x !! k = lwrites y !! k ∧ (k ∈ ldone x ↔ k ∈ ldone y)) L L' → replay_done L k = replay_done L' k.
Proof.
  unfold replay_done. generalize (d0 k). intros d H. revert d. induction H as [|x y L L' [Hw Hd] H IH]; intros d; [done|]. simpl.
  rewrite Hw, (decide_ext _ _ _ _ Hd). apply IH.
Qed.

(** Dropping transactions that do not write a key, or have not yet. *)
Lemma replay_filter (P : logged → Prop) `{∀ x, Decision (P x)} L k :
  (∀ x, x ∈ L → ¬ P x → lwrites x !! k = None) → replay (filter P L) k = replay L k.
Proof.
  unfold replay. generalize (d0 k). induction L as [|x L IH]; intros d Hno; [done|]. rewrite filter_cons. simpl. case_decide as Hp; simpl.
  - apply IH. intros y Hy. apply Hno. by right.
  - rewrite (Hno x) by (done || left). apply IH. intros y Hy. apply Hno. by right.
Qed.

Lemma done_filter (P : logged → Prop) `{∀ x, Decision (P x)} L k :
  (∀ x, x ∈ L → ¬ P x → k ∉ ldone x) → replay_done (filter P L) k = replay_done L k.
Proof.
  unfold replay_done. generalize (d0 k). induction L as [|x L IH]; intros d Hno; [done|]. rewrite filter_cons. simpl.
  destruct (decide (P x)) as [Hp|Hp]; simpl.
  - apply IH. intros y Hy. apply Hno. by right.
  - rewrite (decide_False (P := k ∈ ldone x)) by (apply Hno; [left|done]). apply IH. intros y Hy. apply Hno. by right.
Qed.

(** ** The invariant of the log *)

Definition in_log p : Prop := match p with Validating _ _ _ | Writing _ _ | Ended true => True | _ => False end.
Definition unvalidated p : list ((Z * Z) * ReadWriteElement) := match p with Validating todo _ _ => todo | _ => [] end.

Record logged_as s T x : Prop := {
  la_epoch : ∀ c, commit_epoch (tpc T) = Some c → lepoch x = c;
  la_writes : ∀ k, is_Some (lwrites x !! k) ↔ k ∈ write_order (ttx T);
  la_content : ∀ k e, k ∈ held_keys T → rws (ttx T) !! k = Some e → lwrites x !! k = Some (content s e);
  la_done : ∀ k, k ∈ ldone x ↔ k ∈ write_order (ttx T) ∧ k ∉ held_keys T;
  la_new : ∀ k e, rws (ttx T) !! k = Some e → is_new e = true → lreads x !! k = Some None;
  la_read : ∀ k e, rws (ttx T) !! k = Some e → is_new e = false → rwt e ≠ INSERT → (k, e) ∉ unvalidated (tpc T) →
    ∃ r b, seen (ttx T) !! k = Some (r, b) ∧ lreads x !! k = Some (Some b)
}.

Record log_ok s (th : gmap nat thread) L (nx : nat) : Prop := {
  lg_nodup : NoDup (lserial <$> L);
  lg_next : ∀ x, x ∈ L → (lserial x < nx)%nat;
  lg_serial : ∀ i T, th !! i = Some T → alive (tpc T) → (serial T < nx)%nat;
  lg_distinct : ∀ i j T U, th !! i = Some T → th !! j = Some U → alive (tpc T) → alive (tpc U) → serial T = serial U → i = j;
  lg_sorted : StronglySorted Z.le (lepoch <$> L);
  lg_epochs : ∀ x, x ∈ L → lepoch x ≤ global_epoch s;
  lg_in : ∀ i T, th !! i = Some T → in_log (tpc T) → ∃ x, x ∈ L ∧ lserial x = serial T ∧ logged_as s T x;
  lg_out : ∀ i T x, th !! i = Some T → alive (tpc T) → ¬ in_log (tpc T) → x ∈ L → lserial x ≠ serial T;
  lg_pending : ∀ x k, x ∈ L → pending x k → ∃ i T e, th !! i = Some T ∧ serial T = lserial x ∧
    is_Some (commit_epoch (tpc T)) ∧ k ∈ held_keys T ∧ rws (ttx T) !! k = Some e;
  lg_view : ∀ k, word64 k.2 → view s k = replay_done L k;
  lg_last : ∀ L1 x L2 k, L = L1 ++ x :: L2 → pending x k → ∀ y, y ∈ L2 → lwrites y !! k = None;
  lg_reads : ∀ L1 x L2 k o, L = L1 ++ x :: L2 → lreads x !! k = Some o → replay L1 k = o ∧ settled L1 k;
  lg_unread : ∀ i T k e L1 x L2 y v, th !! i = Some T → (k, e) ∈ unvalidated (tpc T) → is_new e = false → rwt e ≠ INSERT →
    L = L1 ++ x :: L2 → lserial x = serial T → y ∈ L2 → k ∈ ldone y → values s !! val e = Some v → is_valid (tidword v) (tw e) = false
}.

(** An entry that is no longer valid never becomes valid. *)
Lemma invalid_stays v v' e t k : val_le v v' → current_ok t k e v → is_valid (tidword v) (tw e) = false → is_valid (tidword v') (tw e) = false.
Proof.
  intros [(b & Hw & _)|Hlt] Hc Hi; [by rewrite Hw|]. unfold is_valid. destruct (Z.eqb_spec (tid (tidword v')) (tid (tw e))) as [Heq|].
  - destruct Hc as [?|[? _]]; lia.
  - by rewrite andb_false_r.
Qed.

Lemma logged_unique s th L nx x y : log_ok s th L nx → x ∈ L → y ∈ L → lserial x = lserial y → x = y.
Proof.
  intros Hlog Hx Hy Heq. pose proof (lg_nodup _ _ _ _ Hlog) as Hnd. apply list_elem_of_lookup_1 in Hx as [a Ha], Hy as [b Hb].
  assert (a = b) as ->; [|congruence]. eapply (NoDup_lookup _ a b (lserial x)); [exact Hnd|..]; rewrite list_lookup_fmap; [rewrite Ha|rewrite Hb]; simpl; congruence.
Qed.

(** *** The threads that did not move *)
Lemma logged_evolves g s g' s' j U x : thread_ok schema g s j U → evolves g s g' s' j (refs U) → logged_as s U x → logged_as s' U x.
Proof.
  intros HU Hev [H1 H2 H3 H4 H5 H6]. split; try done. intros k e Hk He. rewrite (H3 k e Hk He). f_equal.
  assert (live (tpc U) k) as Hl by (unfold held_keys in Hk; destruct (tpc U); done || by apply not_elem_of_nil in Hk).
  unfold content. destruct (rec e) as [r|] eqn:Hr; [|done]. simpl.
  destruct (to_entry _ _ _ _ _ HU k e He Hl) as [Hloc _ _]. destruct (Hloc r Hr) as [Hl' _].
  by destruct (ev_local _ _ _ _ _ _ Hev r k Hl') as [_ ->].
Qed.

Lemma unread_evolves g s g' s' th j U k e v v' : sys_ok schema g s th → th !! j = Some U → evolves g s g' s' j (refs U) →
  (k, e) ∈ unvalidated (tpc U) → is_new e = false → values s !! val e = Some v → values s' !! val e = Some v' →
  is_valid (tidword v) (tw e) = false → is_valid (tidword v') (tw e) = false.
Proof.
  intros Hsys HU Hev Hin Hnew Hv Hv' Hi. pose proof (sy_thread _ _ _ _ Hsys j U HU) as HUok. unfold unvalidated in Hin.
  destruct (tpc U) as [| |todo m c| | | | | | |] eqn:Hp; try by apply not_elem_of_nil in Hin.
  pose proof (to_pc _ _ _ _ _ HUok) as Hpc. rewrite Hp in Hpc. destruct Hpc as (_ & _ & _ & _ & He & _). specialize (He k e Hin).
  assert (live (tpc U) k) as Hl by (by rewrite Hp).
  destruct (ev_value _ _ _ _ _ _ Hev (val e) v) as (v1 & Hv1 & Hle); [|done|].
  { split; [by rewrite Hp|]. left. exists k, e. done. }
  assert (v1 = v') as -> by congruence.
  destruct (eo_old _ _ _ _ _ _ _ (to_entry _ _ _ _ _ HUok k e He Hl) Hnew) as [_ (v2 & Hv2 & Hc)].
  assert (v2 = v) as -> by congruence. by eapply invalid_stays.
Qed.

(** *** Decompositions of the log *)

Lemma snoc_inv L L1 L2 x y : L ++ [x] = L1 ++ y :: L2 →
  (L2 = [] ∧ y = x ∧ L1 = L) ∨ ∃ L3, L2 = L3 ++ [x] ∧ L = L1 ++ y :: L3.
Proof.
  destruct L2 as [|z L2 _] using rev_ind; intros Heq.
  - left. by apply app_inj_tail in Heq as [-> ->].
  - right. exists L2. rewrite app_comm_cons, app_assoc in Heq. apply app_inj_tail in Heq as [-> ->]. done.
Qed.

Lemma filter_split (P : logged → Prop) `{∀ x, Decision (P x)} L L1 L2 y : filter P L = L1 ++ y :: L2 →
  ∃ M1 M2, L = M1 ++ y :: M2 ∧ L1 = filter P M1 ∧ L2 = filter P M2.
Proof.
  revert L1. induction L as [|x L IH]; intros L1 Heq; [by destruct L1|]. rewrite filter_cons in Heq. case_decide as Hp.
  - destruct L1 as [|z L1]; simplify_eq/=; [by exists [], L|].
    destruct (IH L1) as (M1 & M2 & -> & -> & ->); [done|]. exists (z :: M1), M2. by rewrite filter_cons, decide_True.
  - destruct (IH L1) as (M1 & M2 & -> & -> & ->); [done|]. exists (x :: M1), M2. by rewrite filter_cons, decide_False.
Qed.

Lemma epochs_snoc (l : list Z) (z : Z) : StronglySorted Z.le l → (∀ a, a ∈ l → a ≤ z) → StronglySorted Z.le (l ++ [z]).
Proof.
  induction 1 as [|y l Hs IH Hy]; intros Hz; simpl; [by repeat constructor|]. constructor.
  - apply IH. intros w Hw. apply Hz. by right.
  - apply Forall_app. split; [done|]. constructor; [|constructor]. apply Hz. left.
Qed.

Lemma sorted_filter (P : logged → Prop) `{∀ x, Decision (P x)} L : StronglySorted Z.le (lepoch <$> L) → StronglySorted Z.le (lepoch <$> filter P L).
Proof.
  induction L as [|x L IH]; [done|]. rewrite filter_cons. simpl. intros [Hs Hx]%StronglySorted_inv. case_decide; [|by apply IH].
  simpl. constructor; [by apply IH|]. rewrite Forall_fmap, Forall_forall in *. intros y [_ Hy]%list_elem_of_filter. by apply Hx.
Qed.

(** ** The log after a step of thread [i] *)
Section log_step.
Context {g g' : ghost} {s s' : store} {th : gmap nat thread} {L : list logged} {nx i : nat} {T : thread}.
Context (Hsys : sys_ok schema g s th) (Hlog : log_ok s th L nx) (HT : th !! i = Some T).
Context (Hev : ∀ j U, j ≠ i → th !! j = Some U → evolves g s g' s' j (refs U)).

Lemma live_log p : in_log p → alive p.
Proof. by destruct p. Qed.

Lemma committing_alive p : is_Some (commit_epoch p) → alive p ∧ in_log p.
Proof. by destruct p; intros [? ?]. Qed.

Lemma serials_move T' : serial T' = serial T → (alive (tpc T') → alive (tpc T)) →
  (∀ j U, <[i := T']> th !! j = Some U → alive (tpc U) → (serial U < nx)%nat) ∧
  (∀ j1 j2 U1 U2, <[i := T']> th !! j1 = Some U1 → <[i := T']> th !! j2 = Some U2 → alive (tpc U1) → alive (tpc U2) →
    serial U1 = serial U2 → j1 = j2).
Proof.
  intros Hn Ha. assert (∀ j U, <[i := T']> th !! j = Some U → alive (tpc U) → ∃ U0, th !! j = Some U0 ∧ alive (tpc U0) ∧ serial U0 = serial U) as Hback.
  { intros j U [[<- <-]|[Hne HU]]%lookup_insert_Some Hal; eauto. }
  split.
  - intros j U HU Hal. destruct (Hback j U HU Hal) as (U0 & HU0 & Hal0 & <-). by eapply lg_serial.
  - intros j1 j2 U1 U2 HU1 HU2 Hal1 Hal2 Heq. destruct (Hback _ _ HU1 Hal1) as (V1 & HV1 & Ha1 & He1), (Hback _ _ HU2 Hal2) as (V2 & HV2 & Ha2 & He2).
    eapply (lg_distinct _ _ _ _ Hlog j1 j2 V1 V2); congruence.
Qed.

Lemma others_in j U : j ≠ i → th !! j = Some U → in_log (tpc U) → ∃ x, x ∈ L ∧ lserial x = serial U ∧ logged_as s' U x.
Proof.
  intros Hne HU Hin. destruct (lg_in _ _ _ _ Hlog j U HU Hin) as (x & Hx & Hs & Ha). exists x. split_and!; [done..|].
  eapply logged_evolves; [by eapply sy_thread|by apply Hev|done].
Qed.

Lemma others_unread j U k e L1 x L2 y v' : j ≠ i → th !! j = Some U → (k, e) ∈ unvalidated (tpc U) → is_new e = false → rwt e ≠ INSERT →
  L = L1 ++ x :: L2 → lserial x = serial U → y ∈ L2 → k ∈ ldone y → values s' !! val e = Some v' → is_valid (tidword v') (tw e) = false.
Proof.
  intros Hne HU Hk Hnew Hins HL' Hx Hy Hd Hv'.
  pose proof (sy_thread _ _ _ _ Hsys j U HU) as HUok. unfold unvalidated in Hk.
  destruct (tpc U) as [| |todo m c| | | | | | |] eqn:Hp; try by apply not_elem_of_nil in Hk.
  pose proof (to_pc _ _ _ _ _ HUok) as Hpc. rewrite Hp in Hpc. destruct Hpc as (_ & _ & _ & _ & He & _). specialize (He k e Hk).
  assert (live (tpc U) k) as Hl by (by rewrite Hp).
  destruct (eo_old _ _ _ _ _ _ _ (to_entry _ _ _ _ _ HUok k e He Hl) Hnew) as [_ (v & Hv & _)].
  eapply unread_evolves; [done|done|by apply Hev|by rewrite Hp|done|done|done|].
  eapply lg_unread; [done|done|by rewrite Hp|done..].
Qed.

(** A step that leaves the log alone. *)
Lemma log_same T' : serial T' = serial T → (alive (tpc T') → alive (tpc T)) →
  (in_log (tpc T') → in_log (tpc T) ∧ ∀ x, logged_as s T x → logged_as s' T' x) → (in_log (tpc T) → alive (tpc T') → in_log (tpc T')) →
  (∀ k e, is_Some (commit_epoch (tpc T)) → k ∈ held_keys T → rws (ttx T) !! k = Some e →
    is_Some (commit_epoch (tpc T')) ∧ k ∈ held_keys T' ∧ rws (ttx T') !! k = Some e) →
  (∀ k e, (k, e) ∈ unvalidated (tpc T') → (k, e) ∈ unvalidated (tpc T) ∧ values s' !! val e = values s !! val e) →
  (∀ k, word64 k.2 → view s' k = view s k) → global_epoch s' = global_epoch s →
  log_ok s' (<[i := T']> th) L nx.
Proof.
  intros Hn Hal Hin Hout Hpend Hun Hview Hgl. destruct (serials_move T' Hn Hal) as [Hser Hdis]. pose proof Hlog as [G1 G2 _ _ G5 G6 G7 G8 G9 G10 G11 G12 G13].
  split; try done.
  - by rewrite Hgl.
  - intros j U [[<- <-]|[Hne HU]]%lookup_insert_Some Hil; [|by apply (others_in j)].
    destruct (Hin Hil) as [Hil0 Has]. destruct (G7 i T HT Hil0) as (x & ? & ? & ?). rewrite Hn. eauto.
  - intros j U x [[<- <-]|[Hne HU]]%lookup_insert_Some Ha Hnot Hx; [|by eapply G8]. rewrite Hn. eapply G8; [done|auto| |done].
    intros Hil. by apply Hnot, Hout.
  - intros x k Hx Hp. destruct (G9 x k Hx Hp) as (j & U & e & HU & Hs & Hc & Hk & He). exists j. destruct (decide (i = j)) as [<-|Hne].
    + assert (U = T) as -> by congruence. destruct (Hpend k e) as (? & ? & ?); [done..|]. exists T', e. rewrite lookup_insert_eq. split_and!; [done|congruence|done..].
    + exists U, e. by rewrite lookup_insert_ne.
  - intros k Hk. rewrite Hview by done. by apply G10.
  - intros j U k e L1 x L2 y v [[<- <-]|[Hne HU]]%lookup_insert_Some Hk Hnew Hins HL' Hx Hy Hd Hv; [|by eapply (others_unread j)].
    destruct (Hun k e Hk) as [Hk0 Hsame]. rewrite Hsame in Hv. eapply G13; [exact HT|done..| |done|done|done]. congruence.
Qed.
End log_step.

(** A transaction begins with the next number. *)
Lemma log_begin s th L nx i T t' : log_ok s th L nx → th !! i = Some T → ¬ alive (tpc T) →
  log_ok s (<[i := mkThread t' Calls nx]> th) L (S nx).
Proof.
  intros [G1 G2 G3 G4 G5 G6 G7 G8 G9 G10 G11 G12 G13] HT Hdead. split; try done.
  - intros x Hx. specialize (G2 x Hx). lia.
  - intros j U [[<- <-]|[Hne HU]]%lookup_insert_Some Ha; [simpl; lia|]. specialize (G3 j U HU Ha). lia.
  - intros j1 j2 U1 U2 [[<- <-]|[Hne1 HU1]]%lookup_insert_Some [[<- <-]|[Hne2 HU2]]%lookup_insert_Some Ha1 Ha2 Heq; [done|..|by eapply G4]; exfalso; simpl in Heq.
    + specialize (G3 j2 U2 HU2 Ha2). lia.
    + specialize (G3 j1 U1 HU1 Ha1). lia.
  - intros j U [[<- <-]|[Hne HU]]%lookup_insert_Some Hil; [done|by eapply G7].
  - intros j U x [[<- <-]|[Hne HU]]%lookup_insert_Some Ha Hnot Hx; [|by eapply G8]. simpl. specialize (G2 x Hx). lia.
  - intros x k Hx Hp. destruct (G9 x k Hx Hp) as (j & U & e & HU & Hs & Hc & Hk & He). exists j, U, e. rewrite lookup_insert_ne; [done|].
    intros <-. assert (U = T) as -> by congruence. by apply committing_alive in Hc as [? _].
  - intros j U k e L1 x L2 y v [[<- <-]|[Hne HU]]%lookup_insert_Some Hk; [by apply not_elem_of_nil in Hk|]. by eapply G13.
Qed.

Lemma log_epoch s th L nx (c : Z) : log_ok s th L nx → global_epoch s ≤ c → log_ok (mkStore (values s) (records s) (idx s) c) th L nx.
Proof.
  intros [G1 G2 G3 G4 G5 G6 G7 G8 G9 G10 G11 G12 G13] Hc. split; try done.
  - intros x Hx. specialize (G6 x Hx). simpl. lia.
  - intros j U HU Hil. destruct (G7 j U HU Hil) as (x & ? & ? & [? ? ? ? ? ?]). by exists x.
Qed.

(** No other transaction in the log is about to write a key that is locked. *)
Lemma pending_holder g s th L nx x k : sys_ok schema g s th → log_ok s th L nx → x ∈ L → pending x k →
  ∃ i T e, th !! i = Some T ∧ serial T = lserial x ∧ in_log (tpc T) ∧ rws (ttx T) !! k = Some e ∧ word64 k.2 ∧
    hold g !! val e = Some (i, k) ∧ ∃ o, vown g !! val e = Some o ∧ keyed o k.
Proof.
  intros Hsys Hlog Hx Hp. destruct (lg_pending _ _ _ _ Hlog x k Hx Hp) as (i & T & e & HT & Hs & Hc & Hk & He). exists i, T, e.
  pose proof (sy_thread _ _ _ _ Hsys i T HT) as HTok. destruct (sh_entry _ (to_shape _ _ _ _ _ HTok) k e He) as (_ & _ & Hw & _).
  destruct (to_hold _ _ _ _ _ HTok k e Hk He) as [Hh Ho]. pose proof (committing_alive _ Hc) as [_ Hil]. split_and!; [done..|].
  apply Ho. destruct (tpc T); try done.
Qed.

Lemma pending_locked g s th L nx x k l o : sys_ok schema g s th → log_ok s th L nx → x ∈ L → pending x k →
  vown g !! l = Some o → keyed o k → ∃ i T, th !! i = Some T ∧ serial T = lserial x ∧ in_log (tpc T) ∧ hold g !! l = Some (i, k).
Proof.
  intros Hsys Hlog Hx Hp Ho Hk. destruct (pending_holder g s th L nx x k) as (i & T & e & HT & Hs & Hil & He & Hw & Hh & o' & Ho' & Hk'); [done..|].
  assert (val e = l) as <- by (eapply keyed_unique; [apply Hsys|..]; done). by exists i, T.
Qed.

(** *** The serial point *)
Section serial_point.
Context {g : ghost} {s : store} {th : gmap nat thread} {L : list logged} {nx i n : nat} {t : tx} {h : list (Z * Z)} {m : Z}.
Context (Hsys : sys_ok schema g s th) (Hlog : log_ok s th L nx) (HT : th !! i = Some (mkThread t (Locking h [] [] m) n)).
Context (order : list ((Z * Z) * ReadWriteElement)) (Horder : order ≡ₚ map_to_list (rws t)).
Local Abbreviation x1 := (mkLogged n (global_epoch s) (intended t s) ∅ (inserted t)).
Local Abbreviation T1 := (mkThread t (Validating order m (global_epoch s)) n).

Lemma serial_held : shape t ∧ h = write_order t.
Proof.
  pose proof (sy_thread _ _ _ _ Hsys i _ HT) as HTok. split; [apply HTok|].
  destruct (to_pc _ _ _ _ _ HTok) as (_ & done & Hd & Hh & _). simpl in *. rewrite app_nil_r in Hd, Hh. subst done. by unfold write_order.
Qed.

Lemma intended_lookup k : intended t s !! k = e ← rws t !! k; if decide (rwt e = READ) then None else Some (content s e).
Proof.
  unfold intended, content. rewrite lookup_fmap, map_lookup_filter. destruct (rws t !! k) as [e|]; [|done]. simpl.
  destruct (decide (rwt e = READ)) as [He|He]; [by rewrite option_guard_False by naive_solver|by rewrite option_guard_True].
Qed.

Lemma inserted_lookup k o : inserted t !! k = Some o ↔ o = None ∧ ∃ e, rws t !! k = Some e ∧ is_new e = true.
Proof.
  unfold inserted. rewrite lookup_fmap_Some. setoid_rewrite map_lookup_filter_Some. split.
  - intros (e & <- & ? & ?). eauto.
  - intros (-> & e & ? & ?). eauto.
Qed.

(** The keys the transaction writes are not pending. *)
Lemma serial_free x k : x ∈ L → pending x k → k ∉ write_order t.
Proof.
  intros Hx Hp Hk. destruct serial_held as [Hsh Hheld]. destruct (proj1 (elem_of_write_order t k Hsh) Hk) as (e & He & _).
  pose proof (sy_thread _ _ _ _ Hsys i _ HT) as HTok. destruct (to_hold _ _ _ _ _ HTok k e) as [Hh (o & Ho & Hok)]; [by rewrite Hheld|done..|].
  destruct (pending_locked g s th L nx x k (val e) o) as (j & U & HU & Hs & Hil & Hh'); [done..|].
  assert (j = i) as -> by congruence. simplify_eq. done.
Qed.

Lemma serial_inserted k o : inserted t !! k = Some o → replay L k = o ∧ settled L k.
Proof.
  intros (-> & e & He & Hnew)%inserted_lookup. destruct serial_held as [Hsh Hheld].
  pose proof (sy_thread _ _ _ _ Hsys i _ HT) as HTok. destruct (sh_entry _ Hsh k e He) as (_ & _ & Hw & _ & Hel).
  assert (settled L k) as Hset.
  { intros x Hx Hp. eapply serial_free; [done..|]. apply elem_of_write_order; [done|]. exists e. split; [done|]. intros Hr; rewrite Hr in Hel; destruct Hel; congruence. }
  split; [|done]. rewrite <- (settled_replay L k Hset), <- (lg_view _ _ _ _ Hlog k Hw).
  apply (view_dead schema g); [apply Hsys|done|]. intros l Hl.
  pose proof (eo_new _ _ _ _ _ _ _ (to_entry _ _ _ _ _ HTok k e He I) Hnew) as Hown.
  assert (l = val e) as -> by (eapply (keyed_unique schema g s k); [apply Hsys|done|done|by left|done|by right; eauto]). congruence.
Qed.

Lemma serial_logged : logged_as s T1 x1.
Proof.
  destruct serial_held as [Hsh Hheld]. split; simpl.
  - by intros c [= ->].
  - intros k. rewrite intended_lookup, (elem_of_write_order t k Hsh). destruct (rws t !! k) as [e|]; simpl; [|split; [by intros []|naive_solver]].
    case_decide; split; [by intros []|naive_solver|eauto|done].
  - intros k e Hk He. rewrite intended_lookup, He. simpl. rewrite decide_False; [done|]. apply (elem_of_write_order t k Hsh) in Hk. naive_solver.
  - intros k. unfold held_keys. simpl. set_solver.
  - intros k e He Hnew. apply inserted_lookup. eauto.
  - intros k e He Hnew _ Hni. exfalso. apply Hni. rewrite Horder. by apply elem_of_map_to_list.
Qed.

Lemma log_serial : log_ok s (<[i := T1]> th) (L ++ [x1]) nx.
Proof.
  pose proof Hlog as [G1 G2 _ _ G5 G6 G7 G8 G9 G10 G11 G12 G13].
  destruct (serials_move Hlog HT T1) as [Hser Hdis]; [done..|]. pose proof (lg_serial _ _ _ _ Hlog i _ HT I) as Hn.
  assert (∀ x, x ∈ L → lserial x ≠ n) as Hfresh by (intros x Hx; exact (G8 i _ x HT I id Hx)). split; try done.
  - rewrite fmap_app. apply NoDup_app. split_and!; [done| |by apply NoDup_singleton]. simpl. intros z (x & -> & Hx)%list_elem_of_fmap Hz%list_elem_of_singleton.
    by apply Hfresh in Hx.
  - intros x [Hx| ->%list_elem_of_singleton]%elem_of_app; [by apply G2|done].
  - rewrite fmap_app. apply epochs_snoc; [done|]. intros z (x & -> & Hx)%list_elem_of_fmap. by apply G6.
  - intros x [Hx| ->%list_elem_of_singleton]%elem_of_app; [by apply G6|done].
  - intros j U [[<- <-]|[Hne HU]]%lookup_insert_Some Hil.
    + exists x1. split_and!; [apply elem_of_app; right; by apply list_elem_of_singleton|done|apply serial_logged].
    + destruct (G7 j U HU Hil) as (x & ? & ? & ?). exists x. split_and!; [by apply elem_of_app; left|done..].
  - intros j U x [[<- <-]|[Hne HU]]%lookup_insert_Some Ha Hnot; [done|]. intros [Hx| ->%list_elem_of_singleton]%elem_of_app; [by eapply G8|].
    simpl. intros Heq. apply Hne. by eapply (lg_distinct _ _ _ _ Hlog i j _ U).
  - intros x k [Hx| ->%list_elem_of_singleton]%elem_of_app Hp.
    + destruct (G9 x k Hx Hp) as (j & U & e & HU & Hs & Hc & Hk & He). exists j, U, e. rewrite lookup_insert_ne; [done|].
      intros <-. assert (U = mkThread t (Locking h [] [] m) n) as -> by congruence. by destruct Hc.
    + destruct Hp as [[o Ho] _]. simpl in Ho. rewrite intended_lookup in Ho. destruct (rws t !! k) as [e|] eqn:He; [|done]. simpl in Ho.
      case_decide; [done|]. exists i, T1, e. rewrite lookup_insert_eq. split_and!; [done..|eauto| |done].
      apply elem_of_write_order; [apply serial_held|eauto].
  - intros k Hk. unfold replay_done. rewrite foldl_app. simpl. rewrite decide_False by set_solver. by apply G10.
  - intros L1 y L2 k Heq Hp z Hz. apply snoc_inv in Heq as [(-> & _)|(L3 & -> & HL3)]; [by apply not_elem_of_nil in Hz|].
    apply elem_of_app in Hz as [Hz| ->%list_elem_of_singleton]; [by eapply G11|]. simpl.
    apply eq_None_not_Some. rewrite (la_writes _ _ _ serial_logged k). eapply serial_free; [|done]. rewrite HL3. apply elem_of_app. right. left.
  - intros L1 y L2 k o Heq Ho. apply snoc_inv in Heq as [(-> & -> & ->)|(L3 & -> & HL3)]; [by apply serial_inserted|by eapply G12].
  - intros j U k e L1 y L2 z v HU Hk Hnew Hins Heq Hy Hz Hd Hv. apply snoc_inv in Heq as [(-> & _)|(L3 & -> & HL3)]; [by apply not_elem_of_nil in Hz|].
    apply elem_of_app in Hz as [Hz| ->%list_elem_of_singleton]; [|set_solver].
    apply lookup_insert_Some in HU as [[<- <-]|[Hne HU]]; [|by eapply G13]. exfalso. simpl in Hy. apply (Hfresh y); [|done]. rewrite HL3. apply elem_of_app. right. left.
Qed.
End serial_point.

(** *** Changes of one entry of the log *)
Definition touch n (f : logged → logged) x : logged := if decide (lserial x = n) then f x else x.

Lemma update_log_split n f L M1 y M2 : update_log n f L = M1 ++ y :: M2 →
  ∃ L1 x L2, L = L1 ++ x :: L2 ∧ M1 = update_log n f L1 ∧ y = touch n f x ∧ M2 = update_log n f L2.
Proof.
  unfold update_log. intros (L1 & L' & -> & Heq & ->)%fmap_app_inv. symmetry in Heq. apply fmap_cons_inv in Heq as (x & L2 & -> & -> & ->).
  by exists L1, x, L2.
Qed.

Lemma elem_of_update_log n f L y : y ∈ update_log n f L ↔ ∃ x, x ∈ L ∧ y = touch n f x.
Proof. unfold update_log. rewrite list_elem_of_fmap. unfold touch. naive_solver. Qed.

Section touching.
Context (n : nat) (f : logged → logged).
Context (Hf : ∀ x, lserial (f x) = lserial x ∧ lepoch (f x) = lepoch x ∧ lwrites (f x) = lwrites x ∧ ldone x ⊆ ldone (f x)).

Lemma touch_fields x : lserial (touch n f x) = lserial x ∧ lepoch (touch n f x) = lepoch x ∧ lwrites (touch n f x) = lwrites x ∧
  ldone x ⊆ ldone (touch n f x).
Proof. unfold touch. case_decide; [apply Hf|done]. Qed.

Lemma update_log_fields L : lserial <$> update_log n f L = lserial <$> L ∧ lepoch <$> update_log n f L = lepoch <$> L.
Proof.
  unfold update_log. rewrite <- !list_fmap_compose. split; apply list_fmap_ext; intros j x _; destruct (touch_fields x) as (H1 & H2 & _); unfold touch in *; simpl; congruence.
Qed.

Lemma pending_touch x k : pending (touch n f x) k → pending x k.
Proof. destruct (touch_fields x) as (_ & _ & Hw & Hd). intros [H1 H2]. split; [by rewrite <- Hw|set_solver]. Qed.

Lemma replay_update L k : replay (update_log n f L) k = replay L k.
Proof. apply replay_ext. unfold update_log. apply Forall2_fmap_l, Forall_Forall2_diag, Forall_forall. intros x _. destruct (touch_fields x) as (_ & _ & Hw & _). unfold touch in Hw. simpl. by rewrite Hw. Qed.

Lemma settled_update L k : settled L k → settled (update_log n f L) k.
Proof. intros Hs y (x & Hx & ->)%elem_of_update_log Hp%pending_touch. by apply (Hs x). Qed.

Context {g g' : ghost} {s s' : store} {th : gmap nat thread} {L : list logged} {nx i : nat} {T T' : thread} {x : logged}.
Context (Hsys : sys_ok schema g s th) (Hlog : log_ok s th L nx) (HT : th !! i = Some T) (Hn : serial T = n) (Hn' : serial T' = n).
Context (Hev : ∀ j U, j ≠ i → th !! j = Some U → evolves g s g' s' j (refs U)) (Hgl : global_epoch s' = global_epoch s).
Context (Hin : in_log (tpc T)) (Hin' : in_log (tpc T')) (Hx : x ∈ L) (Hxn : lserial x = n) (Has : logged_as s' T' (f x)).
Context (Hpend : ∀ k, pending (f x) k → ∀ e, k ∈ held_keys T → rws (ttx T) !! k = Some e →
  is_Some (commit_epoch (tpc T')) ∧ k ∈ held_keys T' ∧ rws (ttx T') !! k = Some e).
Context (Hview : ∀ k, word64 k.2 → view s' k = replay_done (update_log n f L) k).
Context (Hread : ∀ k o L1 L2, L = L1 ++ x :: L2 → lreads (f x) !! k = Some o → replay L1 k = o ∧ settled L1 k).
Context (Hunread : ∀ j U k e L1 y L2 v, <[i := T']> th !! j = Some U → (k, e) ∈ unvalidated (tpc U) → is_new e = false → rwt e ≠ INSERT →
  L = L1 ++ y :: L2 → lserial y = serial U → (j = i ∧ (∃ z, z ∈ L2 ∧ k ∈ ldone (touch n f z)) ∨ j ≠ i ∧ x ∈ L2 ∧ k ∈ ldone (f x) ∧ k ∉ ldone x) →
  values s' !! val e = Some v → is_valid (tidword v) (tw e) = false).

Lemma touch_x y : y ∈ L → lserial y = n → y = x.
Proof. intros Hy Heq. eapply logged_unique; [done..|congruence]. Qed.

Lemma log_touch : log_ok s' (<[i := T']> th) (update_log n f L) nx.
Proof.
  pose proof Hlog as [G1 G2 _ _ G5 G6 G7 G8 G9 G10 G11 G12 G13]. destruct (update_log_fields L) as [Hser0 Hep0].
  destruct (serials_move Hlog HT T') as [Hser Hdis]; [congruence|by intros; apply live_log|].
  split; try done; rewrite ?Hser0, ?Hep0; try done.
  - intros y (z & Hz & ->)%elem_of_update_log. destruct (touch_fields z) as (-> & _). by apply G2.
  - intros y (z & Hz & ->)%elem_of_update_log. destruct (touch_fields z) as (_ & -> & _). rewrite Hgl. by apply G6.
  - intros j U [[<- <-]|[Hne HU]]%lookup_insert_Some Hil.
    + exists (f x). split_and!; [|destruct (Hf x) as [-> _]; congruence|done]. apply elem_of_update_log. exists x. unfold touch. by rewrite decide_True.
    + destruct (others_in Hsys Hlog Hev j U) as (y & Hy & Hys & Hya); [done..|]. exists y. split_and!; [|done..].
      apply elem_of_update_log. exists y. split; [done|]. unfold touch. rewrite decide_False; [done|]. intros Heq.
      apply Hne. eapply (lg_distinct _ _ _ _ Hlog i j T U); [done|done|by apply live_log..|congruence].
  - intros j U y [[<- <-]|[Hne HU]]%lookup_insert_Some Ha Hnot (z & Hz & ->)%elem_of_update_log; [done|].
    destruct (touch_fields z) as (-> & _). by eapply G8.
  - intros y k (z & Hz & ->)%elem_of_update_log Hp. destruct (G9 z k Hz (pending_touch _ _ Hp)) as (j & U & e & HU & Hs & Hc & Hk & He).
    destruct (touch_fields z) as (-> & _). exists j. destruct (decide (i = j)) as [<-|Hne].
    + assert (U = T) as -> by congruence. assert (z = x) as -> by (apply touch_x; [done|congruence]). unfold touch in Hp. rewrite decide_True in Hp by done.
      destruct (Hpend k Hp e) as (? & ? & ?); [done..|]. exists T', e. rewrite lookup_insert_eq. split_and!; [done|congruence|done..].
    + exists U, e. by rewrite lookup_insert_ne.
  - intros M1 y M2 k (L1 & z & L2 & -> & -> & -> & ->)%update_log_split Hp y' (z' & Hz' & ->)%elem_of_update_log.
    destruct (touch_fields z') as (_ & _ & -> & _). by eapply G11; [|apply pending_touch|].
  - intros M1 y M2 k o (L1 & z & L2 & HL' & -> & -> & ->)%update_log_split Ho. rewrite replay_update. unfold touch in Ho. case_decide as Hz.
    + assert (z = x) as -> by (apply touch_x; [rewrite HL'; apply elem_of_app; right; left|done]). destruct (Hread k o L1 L2); [done..|]. split; [done|by apply settled_update].
    + destruct (G12 L1 z L2 k o HL' Ho). split; [done|by apply settled_update].
  - intros j U k e M1 y M2 y' v HU Hk Hnew Hins (L1 & z & L2 & HL' & -> & -> & ->)%update_log_split Hy (z' & Hz' & ->)%elem_of_update_log Hd Hv.
    destruct (touch_fields z) as (Hzs & _). rewrite Hzs in Hy. destruct (decide (j = i)) as [->|Hne].
    { eapply Hunread; [done..|by left; eauto|done]. }
    destruct (decide (k ∈ ldone z')) as [Hd0|Hd0].
    { rewrite lookup_insert_ne in HU by done. by eapply (others_unread Hsys Hlog Hev j). }
    unfold touch in Hd. case_decide as Hzn; [|done].
    assert (z' = x) as -> by (apply touch_x; [rewrite HL'; apply elem_of_app; right; by right|done]).
    eapply Hunread; [done..|by right|done].
Qed.
End touching.

Lemma done_app L L' k : replay_done (L ++ L') k = foldl (λ d x, if decide (k ∈ ldone x) then default d (lwrites x !! k) else d) (replay_done L k) L'.
Proof. unfold replay_done. by rewrite foldl_app. Qed.

Lemma done_skip L L' k : (∀ x, x ∈ L' → k ∈ ldone x → lwrites x !! k = None) → replay_done (L ++ L') k = replay_done L k.
Proof.
  rewrite done_app. generalize (replay_done L k). induction L' as [|x L' IH]; intros d Hno; [done|]. simpl.
  case_decide as Hd; [rewrite (Hno x) by (done || left); simpl|]; apply IH; intros y Hy; apply Hno; by right.
Qed.

Lemma elem_of_split L x : x ∈ L → ∃ L1 L2, L = L1 ++ x :: L2.
Proof. apply list_elem_of_split. Qed.

(** *** A row is validated *)
Section validation.
Context {g : ghost} {s : store} {th : gmap nat thread} {L : list logged} {nx i n : nat} {t : tx}.
Context {k : Z * Z} {e : ReadWriteElement} {todo : list ((Z * Z) * ReadWriteElement)} {m c : Z}.
Context (Hsys : sys_ok schema g s th) (Hlog : log_ok s th L nx) (HT : th !! i = Some (mkThread t (Validating ((k, e) :: todo) m c) n)).
Context {v : Value} (Hv : values s !! val e = Some v) (Hvalid : is_valid (tidword v) (tw e) = true).

Lemma validated_entry : rws t !! k = Some e ∧ word64 k.2 ∧ is_new e = false ∧ vown g !! val e = Some (Live k) ∧ (k ∉ todo.*1) ∧
  ∃ r b, seen t !! k = Some (r, b) ∧ view s k = Some b.
Proof.
  pose proof (sy_thread _ _ _ _ Hsys i _ HT) as HTok. destruct (to_pc _ _ _ _ _ HTok) as (_ & _ & _ & Hnd & Hent & _).
  simpl in Hnd. apply NoDup_cons in Hnd as [Hni _].
  assert (rws t !! k = Some e) as He by (apply Hent; left). destruct (sh_entry _ (to_shape _ _ _ _ _ HTok) k e He) as (_ & _ & Hw & _).
  unfold is_valid in Hvalid. apply andb_prop in Hvalid as [[Hep Htid]%andb_prop Hread].
  pose proof (to_entry _ _ _ _ _ HTok k e He I) as Heok.
  destruct (is_new e) eqn:Hnew.
  { pose proof (eo_new _ _ _ _ _ _ _ Heok Hnew) as Ho. destruct (so_value _ _ _ (sy_store _ _ _ _ Hsys) _ _ Ho) as (v' & Hv' & _ & _ & Hun & _). naive_solver congruence. }
  destruct (eo_old _ _ _ _ _ _ _ Heok Hnew) as [Hown (v' & Hv' & Hc)]. assert (v' = v) as -> by congruence.
  assert (vown g !! val e = Some (Live k)) as Hlive.
  { destruct Hown as [?|[j Hd]]; [done|]. destruct (so_value _ _ _ (sy_store _ _ _ _ Hsys) _ _ Hd) as (v' & Hv1 & _ & _ & Hun & _). naive_solver congruence. }
  split_and!; try done; [apply Hw..|]. apply Z.eqb_eq in Htid. destruct Hc as [Hlt|(_ & _ & Hs)]; [simpl in *; lia|].
  destruct (Hs Hread) as (r & b & Hr & Hseen). exists r, b. split; [done|].
  rewrite (view_live schema g s k (val e) v) by (done || apply Hsys). rewrite Hr. simpl. by eapply to_seen in Hseen as [-> _].
Qed.

Context (Hlock : lock (tidword v) = false ∨ rwt e ≠ READ).

(** No other transaction of the log is about to write the row. *)
Lemma validated_settled x : x ∈ L → pending x k → lserial x = n.
Proof.
  intros Hx Hp. destruct validated_entry as (He & Hw & Hnew & Hlive & _).
  destruct (pending_locked g s th L nx x k (val e) (Live k)) as (j & U & HU & Hs & Hil & Hh); [done..|by left|].
  destruct Hlock as [Hlk|Hwr].
  - pose proof (hold_locked schema (sy_store _ _ _ _ Hsys) _ _ Hv) as Hb. rewrite Hlk, Hh in Hb. by rewrite bool_decide_eq_true_2 in Hb by eauto.
  - pose proof (sy_thread _ _ _ _ Hsys i _ HT) as HTok. destruct (to_hold _ _ _ _ _ HTok k e) as [Hh' _]; [|done|].
    { apply elem_of_write_order; [apply HTok|eauto]. }
    assert (j = i) as -> by congruence. simplify_eq. done.
Qed.

Lemma validated_read x L1 L2 : L = L1 ++ x :: L2 → lserial x = n → logged_as s (mkThread t (Validating ((k, e) :: todo) m c) n) x → rwt e ≠ INSERT →
  replay L1 k = view s k ∧ settled L1 k.
Proof.
  intros HL' Hxn Has Hins. destruct validated_entry as (He & Hw & Hnew & Hlive & _).
  assert (x ∈ L) as HxL by (rewrite HL'; apply elem_of_app; right; left).
  assert (settled L1 k) as Hset.
  { intros y Hy Hp. assert (y ∈ L) as HyL by (rewrite HL'; by apply elem_of_app; left). pose proof (validated_settled y HyL Hp) as Hyn.
    pose proof (lg_nodup _ _ _ _ Hlog) as Hnd. rewrite HL', fmap_app in Hnd. apply NoDup_app in Hnd as (_ & Hd & _).
    apply (Hd (lserial y)); [by apply list_elem_of_fmap_2|]. rewrite Hyn, <- Hxn. left. }
  split; [|done]. rewrite <- (settled_replay L1 k Hset), (lg_view _ _ _ _ Hlog k Hw), HL'. symmetry. apply done_skip. intros y Hy Hd. exfalso.
  apply elem_of_cons in Hy as [->|Hy].
  - apply (la_done _ _ _ Has) in Hd as [? []]. done.
  - assert (is_valid (tidword v) (tw e) = false); [|congruence]. eapply (lg_unread _ _ _ _ Hlog i _ k e L1 x L2 y v HT); [by left|done..].
Qed.

Lemma log_validate (m' : Z) : rwt e ≠ INSERT →
  log_ok s (<[i := mkThread t (Validating todo m' c) n]> th) (update_log n (note_read k (snd <$> seen t !! k)) L) nx.
Proof.
  intros Hins. destruct (lg_in _ _ _ _ Hlog i _ HT I) as (x & Hx & Hxn & Has). simpl in Hxn.
  destruct validated_entry as (He & Hw & Hnew & Hlive & Hni & r & b & Hseen & Hview).
  eapply (log_touch n (note_read k (snd <$> seen t !! k)) ltac:(done) (x := x) Hsys Hlog HT); try done.
  - intros. apply evolves_refl.
  - destruct Has as [H1 H2 H3 H4 H5 H6]. split; try done; simpl.
    + intros k' e' He' Hnew'. rewrite lookup_insert_ne by naive_solver congruence. by apply (H5 k' e').
    + intros k' e' He' Hnew' Hins' Hun. destruct (decide (k' = k)) as [->|Hne].
      * exists r, b. by rewrite lookup_insert_eq, Hseen.
      * rewrite lookup_insert_ne by done. apply (H6 k' e'); [done..|]. simpl. intros [?|?]%elem_of_cons; naive_solver.
  - intros k' Hk'. rewrite (lg_view _ _ _ _ Hlog k' Hk'). apply done_ext. unfold update_log. apply Forall2_fmap_r, Forall_Forall2_diag, Forall_forall.
    intros y _. simpl. by case_decide.
  - intros k' o L1 L2 HL'. simpl. intros [[<- <-]|[Hne Ho]]%lookup_insert_Some.
    + rewrite Hseen. simpl. rewrite <- Hview. by eapply validated_read.
    + by eapply lg_reads.
  - intros j U k' e' L1 y L2 v' HU Hk' Hnew' Hins' HL' Hy Hcase Hv'. destruct Hcase as [[-> (z & Hz & Hd)]|(_ & _ & Hd & Hnd)]; [|done].
    rewrite lookup_insert_eq in HU. injection HU as <-.
    eapply (lg_unread _ _ _ _ Hlog i _ k' e' L1 y L2 z v' HT); [by right|done|done|done|done|done| |done]. unfold touch in Hd. by case_decide.
Qed.
End validation.

(** *** A transaction is refused *)
Lemma log_refuse g s th L nx i n t todo m c : sys_ok schema g s th → log_ok s th L nx → th !! i = Some (mkThread t (Validating todo m c) n) →
  log_ok s (<[i := mkThread t (unlocking_all t) n]> th) (filter (λ x, lserial x ≠ n) L) nx.
Proof.
  intros Hsys Hlog HT. pose proof Hlog as [G1 G2 _ _ G5 G6 G7 G8 G9 G10 G11 G12 G13].
  destruct (serials_move Hlog HT (mkThread t (unlocking_all t) n)) as [Hser Hdis]; [done..|].
  destruct (G7 i _ HT I) as (x & Hx & Hxn & Has). simpl in Hxn.
  assert (∀ y, y ∈ L → ¬ lserial y ≠ n → y = x) as Heqx.
  { intros y Hy Hyn. eapply logged_unique; [done..|]. destruct (decide (lserial y = n)); [congruence|done]. }
  assert (∀ k, k ∉ ldone x) as Hnone by (intros k [? []]%(la_done _ _ _ Has); done).
  assert (∀ k L1, settled L1 k → (∀ y, y ∈ L1 → y ∈ L) → replay (filter (λ y, lserial y ≠ n) L1) k = replay L1 k) as Hrep.
  { intros k L1 Hset Hsub. apply replay_filter. intros y Hy Hyn. assert (y = x) as -> by auto. apply eq_None_not_Some. intros Hs.
    apply (Hset x Hy). by split; [|apply Hnone]. }
  split; try done.
  - eapply sublist_NoDup; [exact G1|]. apply fmap_sublist, sublist_filter.
  - intros y [_ Hy]%list_elem_of_filter. by apply G2.
  - by apply sorted_filter.
  - intros y [_ Hy]%list_elem_of_filter. by apply G6.
  - intros j U [[<- <-]|[Hne HU]]%lookup_insert_Some Hil; [done|]. destruct (G7 j U HU Hil) as (y & Hy & Hys & Hya). exists y. split_and!; [|done..].
    apply list_elem_of_filter. split; [|done]. intros Heq. apply Hne. eapply (lg_distinct _ _ _ _ Hlog i j _ U); [done|done|done|by apply live_log|simpl; congruence].
  - intros j U y [[<- <-]|[Hne HU]]%lookup_insert_Some Ha Hnot [Hyn Hy]%list_elem_of_filter; [done|by eapply G8].
  - intros y k [Hyn Hy]%list_elem_of_filter Hp. destruct (G9 y k Hy Hp) as (j & U & e & HU & Hs & Hrest). exists j, U, e.
    rewrite lookup_insert_ne; [done|]. intros <-. simplify_eq.
  - intros k Hk. rewrite done_filter; [by apply G10|]. intros y Hy Hyn. rewrite (Heqx y) by done. apply Hnone.
  - intros L1 y L2 k (M1 & M2 & HL' & -> & ->)%filter_split Hp z [_ Hz]%list_elem_of_filter. by eapply G11.
  - intros L1 y L2 k o (M1 & M2 & HL' & -> & ->)%filter_split Ho. destruct (G12 M1 y M2 k o HL' Ho) as [<- Hset]. split.
    + apply Hrep; [done|]. intros z Hz. rewrite HL'. by apply elem_of_app; left.
    + intros z [_ Hz]%list_elem_of_filter. by apply Hset.
  - intros j U k e L1 y L2 z v [[<- <-]|[Hne HU]]%lookup_insert_Some Hk Hnew Hins; [by apply not_elem_of_nil in Hk|].
    intros (M1 & M2 & HL' & -> & ->)%filter_split Hy [_ Hz]%list_elem_of_filter. by eapply G13.
Qed.

(** *** A row is written *)
Lemma invalid_after t k e v v' : current_ok t k e v → tid (tidword v) < tid (tidword v') → is_valid (tidword v') (tw e) = false.
Proof.
  intros Hc Hlt. unfold is_valid. destruct (Z.eqb_spec (tid (tidword v')) (tid (tw e))) as [Heq|]; [|by rewrite andb_false_r].
  destruct Hc as [?|[? _]]; lia.
Qed.

Section install_log.
Context {g g' : ghost} {s s' : store} {th : gmap nat thread} {L : list logged} {nx i n : nat} {t t' : tx}.
Context {k : Z * Z} {todo : list (Z * Z)} {cw : TidWord} {e : ReadWriteElement} {v v' : Value} {o : vowner}.
Context (Hsys : sys_ok schema g s th) (Hlog : log_ok s th L nx) (HT : th !! i = Some (mkThread t (Writing (k :: todo) cw) n)).
Context (Hev : ∀ j U, j ≠ i → th !! j = Some U → evolves g s g' s' j (refs U)).
Context (Hrecs : records s' = records s) (Hgl : global_epoch s' = global_epoch s).
Context (He : rws t !! k = Some e) (Hv : values s !! val e = Some v) (Ho : vown g !! val e = Some o) (Hk : keyed o k).
Context (Hv' : values s' !! val e = Some v') (Htid : tid (tidword v) < tid (tidword v')).
Context (Hview : ∀ k', word64 k'.2 → view s' k' = if decide (k' = k) then content s e else view s k').
Context (Hrws : rws t' = rws t) (Hws : ws t' = ws t) (Htabs : tables t' = tables t) (Hseen : seen t' = seen t).

Lemma same_order : write_order t' = write_order t.
Proof. unfold write_order, table_order, table_writes, write_keys. by rewrite Hws, Htabs. Qed.

(** What another transaction has still to validate of this row is no longer
    valid. *)
Lemma overwritten j U e' v1 : j ≠ i → th !! j = Some U → (k, e') ∈ unvalidated (tpc U) → is_new e' = false →
  values s' !! val e' = Some v1 → is_valid (tidword v1) (tw e') = false.
Proof.
  intros Hne HU Hin Hnew Hv1. pose proof (sy_thread _ _ _ _ Hsys j U HU) as HUok.
  assert (rws (ttx U) !! k = Some e' ∧ live (tpc U) k) as [He' Hl].
  { unfold unvalidated in Hin. destruct (tpc U) as [| |vtodo m c| | | | | | |] eqn:Hp; try by apply not_elem_of_nil in Hin.
    pose proof (to_pc _ _ _ _ _ HUok) as Hpc. rewrite Hp in Hpc. destruct Hpc as (_ & _ & _ & _ & Hent & _). split; [by apply Hent|done]. }
  destruct (sh_entry _ (to_shape _ _ _ _ _ HUok) k e' He') as (_ & _ & Hw & _).
  destruct (eo_old _ _ _ _ _ _ _ (to_entry _ _ _ _ _ HUok k e' He' Hl) Hnew) as [Hown (v0 & Hv0 & Hc)].
  destruct (decide (val e' = val e)) as [Heq|Hneq].
  - rewrite Heq in *. simplify_eq. by eapply invalid_after.
  - destruct Hown as [Hlive|[j' Hdead]].
    + exfalso. apply Hneq. eapply (keyed_unique schema g s k); [apply Hsys|done|done|by left|done|done].
    + destruct (so_value _ _ _ (sy_store _ _ _ _ Hsys) _ _ Hdead) as (v2 & Hv2 & _ & _ & Hun & _). assert (v2 = v0) as -> by congruence.
      eapply (unread_evolves g s g' s' th j U k e' v0 v1); [done|done|by apply Hev|done|done|done|done|]. unfold is_valid. by rewrite Hun, andb_false_r.
Qed.

Lemma log_write : log_ok s' (<[i := mkThread t' (Writing todo cw) n]> th) (update_log n (note_done k) L) nx.
Proof.
  pose proof (sy_thread _ _ _ _ Hsys i _ HT) as HTok. pose proof (to_shape _ _ _ _ _ HTok) as Hsh. simpl in Hsh.
  destruct (to_pc _ _ _ _ _ HTok) as (_ & (done & Hdone) & _). pose proof (write_order_nodup t Hsh) as Hnd. simpl in Hdone. rewrite Hdone in Hnd.
  apply NoDup_app in Hnd as (_ & _ & Hnd). apply NoDup_cons in Hnd as [Hkt _].
  assert (k ∈ write_order t) as Hkw by (rewrite Hdone; apply elem_of_app; right; left).
  assert (word64 k.2) as Hkword by (by eapply sh_entry).
  destruct (lg_in _ _ _ _ Hlog i _ HT I) as (x & Hx & Hxn & Has). simpl in Hxn. pose proof Has as [H1 H2 H3 H4 H5 H6]. simpl in *.
  assert (pending x k) as Hp. { split; [by apply H2|]. intros [_ []]%H4. left. }
  eapply (log_touch n (note_done k) ltac:(set_solver) (x := x) Hsys Hlog HT); try done.
  - split; simpl; try done.
    + intros k'. rewrite same_order. apply H2.
    + intros k' e' Hk' He'. rewrite Hrws in He'. unfold content. rewrite Hrecs. apply (H3 k' e'); [by right|done].
    + intros k'. rewrite same_order, elem_of_union, elem_of_singleton, H4. unfold held_keys. simpl. rewrite not_elem_of_cons. split; [naive_solver|].
      intros [Hw Hni]. destruct (decide (k' = k)); naive_solver.
    + intros k' e' He'. rewrite Hrws in He'. by apply (H5 k' e').
    + intros k' e' He'. rewrite Hrws in He'. rewrite Hseen. by apply (H6 k' e').
  - intros k' [_ Hni] e' Hk' He'. simpl in *. rewrite Hrws. split_and!; [eauto| |done]. apply elem_of_cons in Hk' as [->|]; [|done]. set_solver.
  - intros k' Hk'. rewrite Hview by done. case_decide as Hd.
    + subst k'. destruct (elem_of_split L x Hx) as (L1 & L2 & HL'). rewrite HL'. unfold update_log. rewrite fmap_app, fmap_cons.
      change (?a ++ ?b :: ?c) with (a ++ [b] ++ c). rewrite app_assoc, done_skip, done_app; simpl.
      * rewrite (decide_True (P := lserial x = n)) by done. rewrite decide_True by set_solver. simpl. rewrite (H3 k e) by (done || left). done.
      * intros y (z & -> & Hz)%list_elem_of_fmap _. pose proof (lg_last _ _ _ _ Hlog L1 x L2 k HL' Hp z Hz) as Hlast. by case_decide.
    + rewrite (lg_view _ _ _ _ Hlog k' Hk'). apply done_ext. unfold update_log. apply Forall2_fmap_r, Forall_Forall2_diag, Forall_forall.
      intros y _. simpl. case_decide; [|done]. simpl. split; [done|]. set_solver.
  - intros k' o' L1 L2 HL' Ho'. by eapply lg_reads.
  - intros j U k' e' L1 y L2 v1 HU Hk' Hnew' Hins' HL' Hy [[-> _]|(Hne & _ & Hd & Hnd)] Hv1.
    + rewrite lookup_insert_eq in HU. injection HU as <-. by apply not_elem_of_nil in Hk'.
    + rewrite lookup_insert_ne in HU by done. assert (k' = k) as -> by (simpl in Hd; set_solver). by eapply overwritten.
Qed.
End install_log.
End silo_serial.
