(* ===== verification/SiloSystem.v ===== *)
(** * Runs of Silo

    The invariants of [SiloInv] and [SiloSerial] hold in every state the
    threads reach, whatever their calls and their interleaving.  From them:
    memory safety, serializability, freedom from deadlock. *)
From Stdlib Require Import Zwf.
From stdpp Require Import sorting.
From S2P Require Import Prelude Versions BitFields Epoch Index Memory Silo SiloInv SiloCalls SiloCommit SiloSerial.

Section silo_system.
Import Memory Silo.
Context `{HI : NodeIndex loc} `{HL : !NodeIndexLaws loc} (schema : gmap Z nat).
Implicit Types (s : store) (t : tx) (T U : thread) (k : Z * Z) (l r : loc) (e : ReadWriteElement) (v : Value) (p : pc).
Implicit Types (g : ghost) (i j n : nat) (x y : sys).

(** The database has been loaded: every value is the row of one key and
    unlocked; the threads have not begun. *)
Record initial x : Prop := {
  in_store : ∃ g, store_ok schema g (st x) ∧ hold g = ∅;
  in_threads : ∀ i T, threads x !! i = Some T → ttx T = new_tx 0 [] ∧ tpc T = Idle;
  in_log0 : log x = [];
  in_next : next x = 0%nat
}.

Definition consistent (d0 : Z * Z → option block) x : Prop :=
  ∃ g, sys_ok schema g (st x) (threads x) ∧ log_ok d0 (st x) (threads x) (log x) (next x).

Lemma idle_thread g s i n : store_ok schema g s → thread_ok schema g s i (mkThread (new_tx 0 []) Idle n).
Proof.
  intros Hs. split; simpl; try done.
  - split; [done| |intros z; constructor]. intros k. unfold write_keys. simpl. split; [by intros ?%not_elem_of_nil|by intros (? & ? & ?)].
  - pose proof (so_epoch _ _ _ Hs). lia.
  - constructor.
  - by intros ? ?%not_elem_of_nil.
  - constructor.
Qed.

Lemma initial_consistent x : initial x → consistent (view (st x)) x.
Proof.
  intros [(g & Hs & Hh) Hth Hlog Hnx]. exists g.
  assert (∀ i T, threads x !! i = Some T → T = mkThread (new_tx 0 []) Idle (serial T)) as Hidle.
  { intros i [t p n] HT. destruct (Hth i _ HT). simpl in *. by subst. }
  split.
  - split; [done|..].
    + intros i T HT. rewrite (Hidle i T HT). by apply idle_thread.
    + intros l i k. by rewrite Hh, lookup_empty.
    + intros i T j U c z HT HU. rewrite (Hidle i T HT). simpl. by intros ?%not_elem_of_nil.
    + intros i T j U z HT HU. rewrite (Hidle i T HT). simpl. by intros ?%not_elem_of_nil.
    + intros i T j U c k e v z HT HU. by rewrite (Hidle i T HT).
  - rewrite Hlog, Hnx. split; try done.
    + constructor.
    + by intros ? ?%not_elem_of_nil.
    + intros i T HT. by rewrite (Hidle i T HT).
    + intros i j T U HT HU. by rewrite (Hidle i T HT).
    + constructor.
    + by intros ? ?%not_elem_of_nil.
    + intros i T HT. by rewrite (Hidle i T HT).
    + by intros i T y HT ? ? Hy%not_elem_of_nil.
    + by intros y k Hy%not_elem_of_nil.
    + intros L1 y L2 k Heq. by destruct L1.
    + intros L1 y L2 k o Heq. by destruct L1.
    + intros i T k e L1 y L2 z v HT. rewrite (Hidle i T HT). simpl. by intros ?%not_elem_of_nil.
Qed.

Lemma quiet_epoch i g s g' s' : quiet i g s g' s' → global_epoch s' = global_epoch s.
Proof. intros [Hq _]. apply (ev_epoch _ _ _ _ _ _ (Hq (S i) none ltac:(lia))). Qed.

(** ** A step of one thread *)
Section one_step.
Context {d0 : Z * Z → option block} {g : ghost} {s : store} {th : gmap nat thread} {L : list logged} {nx i n : nat} {t : tx}.
Context (Hsys : sys_ok schema g s th) (Hlog : log_ok d0 s th L nx).
Local Abbreviation at_ p := (mkThread t p n).

(** A transaction that is not in the log stays out of it. *)
Lemma log_outside p g' s' T' : th !! i = Some (at_ p) → serial T' = n → (alive (tpc T') → alive p) → ¬ in_log (tpc T') →
  (in_log p → ¬ alive (tpc T')) → commit_epoch p = None → (∀ j U, j ≠ i → th !! j = Some U → evolves g s g' s' j (refs U)) →
  (∀ k, word64 k.2 → view s' k = view s k) → global_epoch s' = global_epoch s → log_ok d0 s' (<[i := T']> th) L nx.
Proof.
  intros HT Hn Hal Hout Hdead Hc Hev Hview Hgl. eapply (log_same schema d0 Hsys Hlog HT Hev); try done.
  - by intros Hin%Hdead.
  - intros k e []. simpl in *. congruence.
  - intros k e Hk. unfold unvalidated in Hk. destruct (tpc T'); try by apply not_elem_of_nil in Hk. done.
Qed.

Lemma outside_quiet p g' s' T' : th !! i = Some (at_ p) → serial T' = n → (alive (tpc T') → alive p) → ¬ in_log (tpc T') →
  (in_log p → ¬ alive (tpc T')) → commit_epoch p = None → quiet i g s g' s' → log_ok d0 s' (<[i := T']> th) L nx.
Proof. intros HT Hn Hal Hout Hdead Hc Hq. eapply log_outside; try done; [intros; by apply Hq|apply Hq|by eapply quiet_epoch]. Qed.

(** A transaction of the log goes on without touching the store. *)
Lemma log_inside p p' : th !! i = Some (at_ p) → in_log p → in_log p' → held_keys (at_ p') = held_keys (at_ p) →
  (∀ c, commit_epoch p' = Some c → commit_epoch p = Some c) → (commit_epoch p' = None → held_keys (at_ p) = []) →
  (∀ k e, (k, e) ∈ unvalidated p' → (k, e) ∈ unvalidated p) →
  (∀ k e, rws t !! k = Some e → rwt e ≠ INSERT → (k, e) ∈ unvalidated p → (k, e) ∈ unvalidated p') →
  log_ok d0 s (<[i := at_ p']> th) L nx.
Proof.
  intros HT Hin Hin' Hheld Hc Hnc Hun Hun'. eapply (log_same schema d0 Hsys Hlog HT (g' := g)); try done; simpl.
  - intros. apply evolves_refl.
  - intros _. by destruct p.
  - intros _. split; [done|]. intros z [H1 H2 H3 H4 H5 H6]. split; simpl; try done.
    + intros c Hc'. apply H1. by apply Hc.
    + intros k e Hk. rewrite Hheld in Hk. by apply H3.
    + intros k. rewrite Hheld. apply H4.
    + intros k e He Hnew Hins Hni. apply (H6 k e); [done..|]. intros Hk. by apply Hni, Hun'.
  - intros k e Hp Hk He. rewrite Hheld. split_and!; [|done..]. destruct (commit_epoch p') eqn:Hcp; [eauto|]. rewrite Hnc in Hk by done. by apply not_elem_of_nil in Hk.
  - intros k e Hk. split; [by apply Hun|done].
Qed.

(** What a commit locks exists; it waits for the locked rows. *)
Lemma lock_entry_cases h k todo rest m : th !! i = Some (at_ (Locking h (k :: todo) rest m)) →
  ∃ e v, rws t !! k = Some e ∧ values s !! val e = Some v ∧
    if lock (tidword v) then lock_entry t s k m = Wait else ∃ ok m' s', lock_entry t s k m = Ok (ok, m', s').
Proof.
  intros HT. pose proof (sy_thread _ _ _ _ Hsys i _ HT) as HTok. destruct (to_pc _ _ _ _ _ HTok) as (_ & done & Htab & Hdone & _).
  assert (k ∈ write_order t) as Hk.
  { unfold write_order. simpl in *. rewrite Htab. rewrite bind_app, Hdone, !elem_of_app. left. right. left. }
  apply elem_of_write_order in Hk as (e & He & _); [|apply HTok].
  destruct (entry_value_of schema Hsys _ k e HT He I) as (o & v & _ & Hv & _). exists e, v. split_and!; [done..|].
  unfold lock_entry, lock_value. rewrite He. simpl. rewrite Hv. simpl. destruct (lock (tidword v)); [done|]. simpl.
  rewrite lookup_insert_eq. simpl. by case_match; eauto.
Qed.

Lemma validate_entry_cases k e todo m c : th !! i = Some (at_ (Validating ((k, e) :: todo) m c)) → small s →
  ∃ ok m', validate_entry s e m = Ok (ok, m') ∧ (ok = true → m ≤ m' < 2 ^ 29 - 1 ∧ (is_new e = true → rwt e = INSERT) ∧
    (rwt e ≠ INSERT → ∃ v, values s !! val e = Some v ∧ is_valid (tidword v) (tw e) = true ∧ (lock (tidword v) = false ∨ rwt e ≠ READ))).
Proof.
  intros HT Hsm. pose proof (sy_thread _ _ _ _ Hsys i _ HT) as HTok. destruct (to_pc _ _ _ _ _ HTok) as ([Hm _] & _ & _ & _ & Hent & _).
  assert (rws t !! k = Some e) as He by (apply Hent; left).
  unfold validate_entry. case_decide as Hins; [exists true, m; split; [done|]; intros _; split_and!; done || lia|].
  destruct (entry_value_of schema Hsys _ k e HT He I) as (o & v & Ho & Hv & Hvok & Hnew & _). rewrite Hv. simpl.
  destruct (is_valid (tidword v) (tw e)) eqn:Hval; simpl; [|by exists false, m].
  destruct (lock (tidword v) && bool_decide (rwt e = READ)) eqn:Hlk; [by exists false, m|].
  eexists true, _. split; [done|]. intros _. split_and!.
  - case_match; lia.
  - destruct Hsm as [_ Hsm]. specialize (Hsm _ _ Hv). case_match; lia.
  - intros Hn. rewrite (Hnew Hn) in Hvok. destruct Hvok as (_ & _ & Hun & _). unfold is_valid in Hval. rewrite Hun, andb_false_r in Hval. done.
  - intros _. exists v. split_and!; [done..|]. apply andb_false_iff in Hlk as [?|?%bool_decide_eq_false]; auto.
Qed.

Lemma free_epoch (o : Ptr) s1 s2 : free s1 o = Ok s2 → global_epoch s2 = global_epoch s1.
Proof. unfold free. by intros (m & _ & [= <-])%bind_Ok. Qed.

Lemma undo_epoch t1 s1 k t2 s2 : undo_entry t1 s1 k = Ok (t2, s2) → global_epoch s2 = global_epoch s1.
Proof.
  unfold undo_entry. intros (e & _ & ([t3 s3] & H1 & H2)%bind_Ok)%bind_Ok. assert (global_epoch s3 = global_epoch s1) as <-.
  { destruct (is_new e); [|by injection H1 as <- <-]. unfold undo_insert in H1. apply bind_Ok in H1 as (s4 & Hl & H1).
    unfold lock_value in Hl. apply bind_Ok in Hl as (v & _ & Hl). destruct (lock (tidword v)); [done|]. injection Hl as <-.
    apply bind_Ok in H1 as (v' & _ & H1). apply bind_Ok in H1 as (u & _ & [= _ <-]). done. }
  destruct (rwt e); try by injection H2 as _ <-.
  all: apply bind_Ok in H2 as (s4 & Hf & [= _ <-]); by eapply free_epoch.
Qed.

Lemma garbage_epoch z s1 s2 : free_garbage s1 z = Ok s2 → global_epoch s2 = global_epoch s1.
Proof. destruct z as [r|l]; simpl; [apply free_epoch|]. case_match; [by intros [= <-]|done]. Qed.

Local Ltac outside := eapply outside_quiet; [eassumption|..]; simpl; try (by intros []); try done.

(** What a step of a thread may do. *)
Definition step_fine p (m : outcome (tx * store * pc)) : Prop :=
  match m with
  | Ok (t', s', p') => ∃ g', sys_ok schema g' s' (<[i := mkThread t' p' n]> th) ∧
      log_ok d0 s' (<[i := mkThread t' p' n]> th) (log_step n t s p p' L) nx
  | Wait => ∃ h k todo rest m e v, p = Locking h (k :: todo) rest m ∧ rws t !! k = Some e ∧ values s !! val e = Some v ∧ lock (tidword v) = true
  | Throw _ | Stuck => False
  end.

Lemma locking_fine order h todo rest m : th !! i = Some (at_ (Locking h todo rest m)) → small s → order ≡ₚ map_to_list (rws t) →
  step_fine (Locking h todo rest m) (advance order t s (Locking h todo rest m)).
Proof.
  intros HT Hsm Hord. destruct todo as [|k todo]; [destruct rest as [|z rest]|].
  - exists g. split; [by eapply serial_ok|by eapply log_serial].
  - exists g. split; [by eapply table_ok|]. simpl. outside; apply still_refl.
  - destruct (lock_entry_cases h k todo rest m HT) as (e & v & He & Hv & Hcase). simpl. destruct (lock (tidword v)) eqn:Hlk.
    { rewrite Hcase. simpl. by repeat eexists. }
    destruct Hcase as (ok & m' & s' & Hle). rewrite Hle. simpl.
    destruct (lock_ok schema Hsys h k todo rest m ok m' s' HT Hsm Hle) as (g' & Hsys' & Hq). exists g'. split; [done|].
    destruct ok; by outside.
Qed.

Lemma validating_fine order todo m c : th !! i = Some (at_ (Validating todo m c)) → small s →
  step_fine (Validating todo m c) (advance order t s (Validating todo m c)).
Proof.
  intros HT Hsm. destruct todo as [|[k e] todo]; simpl.
  - destruct (validate_nodes t s).
    + exists g. split; [by eapply writing_ok|]. by eapply log_inside.
    + exists g. split; [by eapply refused_ok|]. by eapply log_refuse.
  - destruct (validate_entry_cases k e todo m c HT Hsm) as (ok & m' & -> & Hok). simpl. destruct ok.
    + destruct (Hok eq_refl) as (Hm & Hnew & Hval). exists g. split; [by eapply validated_ok|]. simpl. case_decide as Hins.
      * eapply log_inside; try done; simpl; [by right|]. intros k' e' He' Hne [[= -> ->]|?]%elem_of_cons; [done|done].
      * destruct (Hval Hins) as (v & Hv & Hvalid & Hlk). by eapply log_validate.
    + exists g. split; [by eapply refused_ok|]. by eapply log_refuse.
Qed.

Lemma writing_fine order todo cw : th !! i = Some (at_ (Writing todo cw)) → step_fine (Writing todo cw) (advance order t s (Writing todo cw)).
Proof.
  intros HT. destruct todo as [|k todo]; simpl.
  - exists g. split; [by eapply ended_ok|]. by eapply log_inside.
  - destruct (write_ok schema Hsys k todo cw HT) as (gc' & s' & g' & -> & Hsys' & Hev & Hrec & Hgl & e & v & v' & o & He & Hv & Ho & Hk & Hv' & Htid & Hview).
    simpl. exists g'. split; [done|]. by eapply log_write.
Qed.

Lemma rest_fine order p : th !! i = Some (at_ p) → ¬ client_turn p →
  match p with Locking _ _ _ _ | Validating _ _ _ | Writing _ _ => False | _ => True end → step_fine p (advance order t s p).
Proof.
  intros HT Hct Hp. destruct p as [| | | |todo| |todo|b|todo|]; try done; try (by destruct Hct; unfold client_turn; auto); simpl.
  - destruct todo as [|k todo].
    + exists g. split; [by eapply unlocked_ok|]. outside; apply still_refl.
    + destruct (unlock_ok schema Hsys k todo HT) as (s' & g' & -> & Hsys' & Hq). exists g'. split; [done|]. by outside.
  - destruct todo as [|k todo].
    + exists g. split; [by eapply clear_ok|]. outside; apply still_refl.
    + destruct (undo_entry_ok schema g s th i n t k todo Hsys HT) as (gc' & s' & g' & Hun & Hsys' & Hev & Hview). rewrite Hun. simpl.
      exists g'. split; [done|]. eapply log_outside; [exact HT|..]; simpl; try (by intros []); try done. by eapply undo_epoch.
  - destruct (GarbageCollector.remove _ _) as [freed gc] eqn:Hrem. exists g. split; [pose proof (collect_ok schema Hsys b HT) as Hc; by rewrite Hrem in Hc|].
    destruct b; outside; [by intros _ []|apply still_refl..].
  - destruct todo as [|z todo].
    + exists g. split; [by eapply idle_ok|]. outside; apply still_refl.
    + destruct (free_garbage_ok schema Hsys z todo HT) as (s' & g' & Hf & Hsys' & Hev & Hview). rewrite Hf. simpl.
      exists g'. split; [done|]. eapply log_outside; [exact HT|..]; simpl; try (by intros []); try done. by eapply garbage_epoch.
Qed.

Lemma advance_fine order p : th !! i = Some (at_ p) → small s → ¬ client_turn p → order ≡ₚ map_to_list (rws t) →
  step_fine p (advance order t s p).
Proof.
  intros HT Hsm Hct Hord. destruct p eqn:Hp; [by apply rest_fine|by apply locking_fine|by apply validating_fine|by apply writing_fine|by apply rest_fine..].
Qed.

Lemma call_fine c : th !! i = Some (at_ Calls) → allowed schema c → ∀ t' s', perform_call schema c t s = Ok (t', s') →
  ∃ g', sys_ok schema g' s' (<[i := mkThread t' Calls n]> th) ∧ log_ok d0 s' (<[i := mkThread t' Calls n]> th) L nx.
Proof.
  intros HT Hal t' s' Hc. pose proof Hsys as Hsys0. rewrite <- (insert_id th i _ HT) in Hsys0.
  destruct (performed_ok schema th i n c g s t t' s' Hsys0 Hal Hc) as (g' & Hsys' & Hq). exists g'. split; [done|]. by outside.
Qed.
End one_step.

Lemma consistent_step d0 x y : consistent d0 x → small (st x) → sys_step schema x y → consistent d0 y.
Proof.
  intros (g & Hsys & Hlog) Hsm Hstep. destruct Hstep as [x i [t p n] c t' s' HT Hp Hal Hc|x i [t p n] HT Hp|x i [t p n] HT Hp|x i [t p n] HT Hp|
    x i [t p n] order t' s' p' HT Hct Hord Hadv|x Hep]; simpl in *; subst.
  - exact (call_fine Hsys Hlog c HT Hal t' s' Hc).
  - exists g. simpl. split; [by eapply begin_ok|]. eapply log_begin; [done|exact HT|]. simpl. by intros [].
  - exists g. simpl. split; [by eapply start_ok|]. eapply outside_quiet; [done|done|exact HT|..]; simpl; try (by intros []); try done. apply still_refl.
  - exists g. simpl. split; [by eapply aborting_ok|].
    destruct Hp as [-> | ->]; (eapply outside_quiet; [done|done|exact HT|..]; simpl; try (by intros []); try done; apply still_refl).
  - pose proof (advance_fine Hsys Hlog order p HT Hsm Hct Hord) as Hf. by rewrite Hadv in Hf.
  - exists g. simpl. destruct Hsm as [Hsm _]. split; [by eapply epoch_ok|]. apply log_epoch; [done|].
    pose proof (so_epoch _ _ _ (sy_store _ _ _ _ Hsys)). rewrite wrap_small by (unfold word; lia). lia.
Qed.

Lemma reachable_consistent x0 x : initial x0 → reachable schema x0 x → consistent (view (st x0)) x.
Proof. intros Hin. induction 1 as [|x y _ IH Hsm Hst]; [by apply initial_consistent|by eapply consistent_step]. Qed.

(** ** Deadlock *)

(** The lock order as a number. *)
Definition rank k : Z := k.1 * 2 ^ 64 + k.2.

Lemma rank_bound k : word64 k.1 → word64 k.2 → rank k ≤ 2 ^ 128.
Proof. unfold rank, word64, word. lia. Qed.

Lemma rank_increases k k' : word64 k.2 → word64 k'.2 → lock_lt k k' → rank k < rank k'.
Proof. unfold rank, lock_lt, word64, word. lia. Qed.

Definition can_advance x : Prop := ∃ i T, threads x !! i = Some T ∧ ¬ client_turn (tpc T) ∧
  ∀ order, order ≡ₚ map_to_list (rws (ttx T)) → ∃ res, advance order (ttx T) (st x) (tpc T) = Ok res.

Section progress.
Context {d0 : Z * Z → option block} {x : sys} {g : ghost}.
Context (Hsys : sys_ok schema g (st x) (threads x)) (Hlog : log_ok d0 (st x) (threads x) (log x) (next x)) (Hsm : small (st x)).

(** A thread goes on or waits for a row that is locked. *)
Lemma advance_or_wait i T : threads x !! i = Some T → ¬ client_turn (tpc T) → can_advance x ∨
  ∃ h k todo rest m e v, tpc T = Locking h (k :: todo) rest m ∧ rws (ttx T) !! k = Some e ∧ values (st x) !! val e = Some v ∧ lock (tidword v) = true.
Proof.
  intros HT Hct. destruct T as [t p n]. simpl in *.
  destruct (advance (map_to_list (rws t)) t (st x) p) as [r| | |] eqn:Hadv;
    pose proof (advance_fine Hsys Hlog (map_to_list (rws t)) p HT Hsm Hct (Permutation_refl _)) as Hf; rewrite Hadv in Hf; try done; [|by right].
  left. exists i, (mkThread t p n). split_and!; [done..|]. simpl. intros order Hord.
  pose proof (advance_fine Hsys Hlog order p HT Hsm Hct Hord) as Hf'. destruct (advance order t (st x) p) as [res| | |] eqn:Hadv'; try done; [by exists res|].
  simpl in Hf'. destruct Hf' as (h & k & todo & rest & m & e & v & -> & _). simpl in Hadv, Hadv'. congruence.
Qed.

(** Who holds the lock a thread waits for. *)
Lemma lock_holder l v : values (st x) !! l = Some v → lock (tidword v) = true → ∃ j U k e, threads x !! j = Some U ∧ k ∈ held_keys U ∧
  rws (ttx U) !! k = Some e ∧ val e = l ∧ ¬ client_turn (tpc U).
Proof.
  intros Hv Hl. rewrite (hold_locked schema (sy_store _ _ _ _ Hsys) _ _ Hv) in Hl. apply bool_decide_eq_true in Hl as [[j k] Hh].
  destruct (sy_hold _ _ _ _ Hsys l j k Hh) as (U & e & HU & Hk & He & Hval). exists j, U, k, e. split_and!; [done..|].
  unfold held_keys in Hk. intros [Hp|[Hp|Hp]]; rewrite Hp in Hk; by apply not_elem_of_nil in Hk.
Qed.

Lemma waits_in_order i T h k todo rest m e j U k' e' h' k2 todo' rest' m' : threads x !! i = Some T → tpc T = Locking h (k :: todo) rest m →
  rws (ttx T) !! k = Some e → threads x !! j = Some U → tpc U = Locking h' (k2 :: todo') rest' m' →
  k' ∈ h' → rws (ttx U) !! k' = Some e' → val e' = val e → rank k < rank k2 ∧ rank k2 ≤ 2 ^ 128.
Proof.
  intros HT Hp He HU Hp' Hk' He' Hval. pose proof (sy_thread _ _ _ _ Hsys i T HT) as HTok. pose proof (sy_thread _ _ _ _ Hsys j U HU) as HUok.
  pose proof (to_shape _ _ _ _ _ HUok) as Hsh.
  assert (k' = k) as ->.
  { destruct (to_hold _ _ _ _ _ HUok k' e') as [_ (o & Ho & Hk)]; [unfold held_keys; by rewrite Hp'|done|by rewrite Hp'|]. rewrite Hval in Ho.
    destruct (to_entry _ _ _ _ _ HTok k e He) as [_ Hnew Hold]; [by rewrite Hp|]. unfold keyed in Hk. destruct (is_new e).
    - rewrite (Hnew eq_refl) in Ho. naive_solver.
    - destruct (Hold eq_refl) as [[Hl|[? Hl]] _]; rewrite Hl in Ho; naive_solver. }
  pose proof (to_pc _ _ _ _ _ HUok) as Hpc. rewrite Hp' in Hpc. destruct Hpc as (_ & done & Htab & Hdone & Hsort).
  assert (StronglySorted lock_lt (h' ++ k2 :: todo')) as Hss.
  { rewrite <- Hdone. apply order_sorted; [|done]. pose proof (table_order_sorted (ttx U)) as Hto. rewrite Htab in Hto. by apply StronglySorted_app_1_l in Hto. }
  assert (lock_lt k k2) as Hlt by (eapply (StronglySorted_app_1_elem_of lock_lt h' (k2 :: todo')); [exact Hss|exact Hk'|left]).
  assert (∀ z, z ∈ h' ++ k2 :: todo' → word64 z.1 ∧ word64 z.2) as Hword.
  { intros z Hz. rewrite <- Hdone in Hz. apply elem_of_order in Hz as [_ Hz]. apply (sh_writes _ Hsh) in Hz as (e2 & He2 & _).
    by destruct (sh_entry _ Hsh z e2 He2) as (_ & ? & ? & _). }
  destruct (Hword k) as [? ?]; [apply elem_of_app; by left|]. destruct (Hword k2) as [? ?]; [apply elem_of_app; right; left|].
  split; [by apply rank_increases|by apply rank_bound].
Qed.

(** The thread that waits for the greatest key waits for one that goes on. *)
Lemma waiting_progress (z : Z) : ∀ i T h k todo rest m e v, rank k = z → threads x !! i = Some T → tpc T = Locking h (k :: todo) rest m →
  rws (ttx T) !! k = Some e → values (st x) !! val e = Some v → lock (tidword v) = true → can_advance x.
Proof.
  induction (Zwf_up_well_founded (2 ^ 128) z) as [z _ IH]. intros i T h k todo rest m e v Hz HT Hp He Hv Hl.
  destruct (lock_holder _ _ Hv Hl) as (j & U & k' & e' & HU & Hk' & He' & Hval & Hct).
  destruct (advance_or_wait j U HU Hct) as [?|(h' & k2 & todo' & rest' & m' & e2 & v2 & Hp' & He2 & Hv2 & Hl2)]; [done|].
  unfold held_keys in Hk'. rewrite Hp' in Hk'.
  destruct (waits_in_order i T h k todo rest m e j U k' e' h' k2 todo' rest' m') as [Hlt Hle]; try done.
  eapply (IH (rank k2)); [|done..]. unfold Zwf_up. lia.
Qed.

Lemma thread_progress i T : threads x !! i = Some T → ¬ client_turn (tpc T) → can_advance x.
Proof.
  intros HT Hct. destruct (advance_or_wait i T HT Hct) as [?|(h & k & todo & rest & m & e & v & Hp & He & Hv & Hl)]; [done|]. by eapply waiting_progress.
Qed.

Lemma locked_progress l v : values (st x) !! l = Some v → lock (tidword v) = true → can_advance x.
Proof. intros Hv Hl. destruct (lock_holder l v Hv Hl) as (j & U & k & e & HU & _ & _ & _ & Hct). by eapply thread_progress. Qed.
End progress.

(** ** Properties *)

(** C2: No step misuses memory, where a call is one step.
    The steps of the threads are whole calls of running transactions and, for
    commits, aborts and destructors, single lock attempts, validations and
    installed writes (one such write being the exchange, the store of the tid
    word and the removal from the index together).  In every state reached by
    interleaving these steps, no such step touches freed memory, fails an
    assertion or throws: it returns or, while a row is locked, waits; and what
    a running transaction has read is still allocated and unchanged, whoever
    has committed in the meantime.  Not covered is a call that others
    interrupt between finding a value in the index and loading it: the value
    is retired with an epoch that is then too old to protect it
    (silo.hpp:740). *)
Theorem silo_safe x0 x : initial x0 → reachable schema x0 x → small (st x) →
  (∀ i T c, threads x !! i = Some T → tpc T = Calls → allowed schema c → ¬ is_store c →
    perform_call schema c (ttx T) (st x) = Wait ∨ ∃ t' s', perform_call schema c (ttx T) (st x) = Ok (t', s')) ∧
  (∀ i T order, threads x !! i = Some T → ¬ client_turn (tpc T) → order ≡ₚ map_to_list (rws (ttx T)) →
    advance order (ttx T) (st x) (tpc T) = Wait ∨ ∃ t' s' p', advance order (ttx T) (st x) (tpc T) = Ok (t', s', p')) ∧
  (∀ i T k r b, threads x !! i = Some T → alive (tpc T) → seen (ttx T) !! k = Some (r, b) → records (st x) !! r = Some b).
Proof.
  intros Hin Hr Hsm. destruct (reachable_consistent x0 x Hin Hr) as (g & Hsys & Hlog). split_and!.
  - intros i [t p n] c HT Hp Hal Hst. simpl in *. subst p. pose proof Hsys as Hsys0. rewrite <- (insert_id _ i _ HT) in Hsys0.
    pose proof (perform_fine schema _ i n c g (st x) t Hsys0 Hal Hst) as Hf. destruct (perform_call schema c t (st x)) as [[t' s']| | |]; eauto; done.
  - intros i [t p n] order HT Hct Hord. simpl in *. pose proof (advance_fine Hsys Hlog order p HT Hsm Hct Hord) as Hf.
    destruct (advance order t (st x) p) as [[[t' s'] p']| | |]; eauto; done.
  - intros i T k r b HT Hal Hseen. by eapply (to_seen _ _ _ _ _ (sy_thread _ _ _ _ Hsys i T HT) Hal).
Qed.

(** C1: Silo is serializable.  In every state the threads reach, the log of
    the transactions that have passed their serial point and were not
    refused is a serial history, in the order of their epochs: each row a
    transaction has validated has the content it had after the transactions
    before it in the log ran one after another (none for an inserted row);
    a transaction that has committed is in the log with the rows it read,
    validated, and the rows it wrote, installed; and when no transaction is
    between its serial point and its end, the database is what the
    transactions of the log, run one after another, make of the initial
    one. *)
Theorem silo_serializable x0 x : initial x0 → reachable schema x0 x →
  StronglySorted Z.le (lepoch <$> log x) ∧
  (∀ before (z : logged) after k o, log x = before ++ z :: after → lreads z !! k = Some o → replay (view (st x0)) before k = o) ∧
  (∀ i T, threads x !! i = Some T → tpc T = Ended true → ∃ z : logged, z ∈ log x ∧ lserial z = serial T ∧
    (∀ k e, rws (ttx T) !! k = Some e → is_new e = true ∨ rwt e ≠ INSERT →
      lreads z !! k = Some (if is_new e then None else snd <$> seen (ttx T) !! k)) ∧
    (∀ k, is_Some (lwrites z !! k) ↔ ∃ e, rws (ttx T) !! k = Some e ∧ rwt e ≠ READ) ∧
    (∀ k, is_Some (lwrites z !! k) → k ∈ ldone z)) ∧
  ((∀ i T, threads x !! i = Some T → commit_epoch (tpc T) = None) →
    ∀ k, word64 k.2 → view (st x) k = replay (view (st x0)) (log x) k).
Proof.
  intros Hin Hr. destruct (reachable_consistent x0 x Hin Hr) as (g & Hsys & Hlog). split_and!.
  - by eapply lg_sorted.
  - intros L1 y L2 k o HL' Ho. by eapply lg_reads.
  - intros i T HT Hp. destruct (lg_in _ _ _ _ _ Hlog i T HT) as (y & Hy & Hys & [H1 H2 H3 H4 H5 H6]); [by rewrite Hp|].
    pose proof (to_shape _ _ _ _ _ (sy_thread _ _ _ _ Hsys i T HT)) as Hsh. exists y. split_and!; [done..| | |].
    + intros k e He Hcase. destruct (is_new e) eqn:Hnew; [by eapply H5|].
      destruct (H6 k e) as (r & b & Hseen & Hrd); [done..|naive_solver|rewrite Hp; apply not_elem_of_nil|]. by rewrite Hseen.
    + intros k. by rewrite H2, elem_of_write_order.
    + intros k Hk. rewrite H4, <- H2. split; [done|]. unfold held_keys. rewrite Hp. apply not_elem_of_nil.
  - intros Hquiet k Hk. rewrite (lg_view _ _ _ _ _ Hlog k Hk). apply settled_replay. intros y Hy Hp.
    destruct (lg_pending _ _ _ _ _ Hlog y k Hy Hp) as (i & T & e & HT & _ & [c Hc] & _). specialize (Hquiet i T HT). congruence.
Qed.

(** C3: No deadlock.  In every state the threads reach, if some thread is
    inside a commit, an abort or a destructor, or some row is locked (so that
    calls on it wait), then some thread can take a step: the locks are taken
    in the order of the tables and the keys, so the thread that waits for the
    greatest key waits for one that is not waiting. *)
Theorem silo_no_deadlock x0 x : initial x0 → reachable schema x0 x → small (st x) →
  (∃ i T, threads x !! i = Some T ∧ ¬ client_turn (tpc T)) ∨ (∃ l v, values (st x) !! l = Some v ∧ lock (tidword v) = true) →
  ∃ i T, threads x !! i = Some T ∧ ¬ client_turn (tpc T) ∧
    ∀ order, order ≡ₚ map_to_list (rws (ttx T)) → ∃ res, advance order (ttx T) (st x) (tpc T) = Ok res.
Proof.
  intros Hin Hr Hsm Hcase. destruct (reachable_consistent x0 x Hin Hr) as (g & Hsys & Hlog).
  destruct Hcase as [(i & T & HT & Hct)|(l & v & Hv & Hl)]; [by eapply thread_progress|by eapply locked_progress].
Qed.

(** A transaction that inserts a row and then removes it (or removes it
    and inserts it again) never commits: its entry is validated although its
    value is not readable yet, so no transaction that writes its rows to
    memory has one. *)
Theorem silo_insert_remove_refused x0 x i T todo cw k e : initial x0 → reachable schema x0 x →
  threads x !! i = Some T → tpc T = Writing todo cw → rws (ttx T) !! k = Some e → is_new e = true → rwt e = INSERT.
Proof.
  intros Hin Hr HT Hp He Hnew. destruct (reachable_consistent x0 x Hin Hr) as (g & Hsys & _).
  pose proof (to_pc _ _ _ _ _ (sy_thread _ _ _ _ Hsys i T HT)) as Hpc. rewrite Hp in Hpc. destruct Hpc as (_ & _ & Hins & _). eauto.
Qed.
End silo_system.

(** ** Example: two threads, two rows *)
Section silo_example.
Import Memory Silo.

Section schedules.
Context `{HI : NodeIndex loc} (schema : gmap Z nat).

(** A schedule; an event that is not enabled ends it. *)
Inductive event := EBegin (i : nat) | ECall (i : nat) (c : call) | ECommit (i : nat) | EAbort (i : nat) | EStep (i : nat).

#[local] Instance allowed_dec c : Decision (allowed schema c).
Proof. destruct c; simpl; unfold word64, word; apply _. Defined.
#[global] Instance small_dec s : Decision (small s).
Proof.
  destruct (decide (global_epoch s < 2 ^ 32 - 1)) as [H1|H1]; [|right; by intros [? _]].
  destruct (decide (map_Forall (λ _ v, tid (tidword v) < 2 ^ 29 - 1) (values s))) as [H2|H2]; [left; by split|right; by intros [_ ?]].
Defined.

Definition move (x : sys) (i : nat) (s : store) (T : thread) (l : list logged) : sys := mkSys s (<[i := T]> (threads x)) l (next x).

Definition perform (ev : event) (x : sys) : option sys :=
  if decide (small (st x)) then
    match ev with
    | EBegin i => T ← threads x !! i;
        match tpc T with
        | Idle => Some (mkSys (st x) (<[i := mkThread (new_tx (global_epoch (st x)) (gc_container (ttx T))) Calls (next x)]> (threads x))
            (log x) (S (next x)))
        | _ => None
        end
    | ECall i c => T ← threads x !! i;
        match tpc T, decide (allowed schema c), perform_call schema c (ttx T) (st x) with
        | Calls, left _, Ok (t, s) => Some (move x i s (mkThread t Calls (serial T)) (log x))
        | _, _, _ => None
        end
    | ECommit i => T ← threads x !! i;
        match tpc T with
        | Calls => Some (move x i (st x) (mkThread (ttx T) (Locking [] [] (table_order (ttx T)) 0) (serial T)) (log x))
        | _ => None
        end
    | EAbort i => T ← threads x !! i;
        match tpc T with
        | Calls | Refused => Some (move x i (st x) (mkThread (ttx T) (Aborting (write_order (ttx T))) (serial T)) (log x))
        | _ => None
        end
    | EStep i => T ← threads x !! i;
        match tpc T with
        | Calls | Refused | Idle => None
        | p => match advance (map_to_list (rws (ttx T))) (ttx T) (st x) p with
               | Ok (t, s, p') => Some (move x i s (mkThread t p' (serial T)) (log_step (serial T) (ttx T) (st x) p p' (log x)))
               | _ => None
               end
        end
    end
  else None.

Lemma perform_step ev x y : perform ev x = Some y → small (st x) ∧ sys_step schema x y.
Proof.
  unfold perform. case_decide as Hsm; [|done]. intros H. split; [done|].
  destruct ev as [i|i c|i|i|i]; apply bind_Some in H as (T & HT & H); destruct (tpc T) eqn:Hp; try done.
  { injection H as <-. by apply step_begin. }
  { destruct (decide (allowed schema c)); [|done]. destruct (perform_call _ _ _ _) as [[t s]| | |] eqn:Hc; try done. injection H as <-. by eapply step_call. }
  { injection H as <-. by apply step_commit. }
  { injection H as <-. apply step_abort; auto. }
  { injection H as <-. apply step_abort; auto. }
  all: destruct (advance _ _ _ _) as [[[t s] p']| | |] eqn:Hadv; try done; apply (inj Some) in H as <-.
  all: rewrite <- Hp in *; eapply step_advance; [done| |done|done]; intros [?|[?|?]]; congruence.
Qed.

Definition run_schedule (evs : list event) (x : sys) : option sys := foldl (λ o ev, x ← o; perform ev x) (Some x) evs.

Lemma schedule_reachable evs x0 : reachable schema x0 (default x0 (run_schedule evs x0)).
Proof.
  induction evs as [|ev evs IH] using rev_ind; [constructor|]. unfold run_schedule in *. rewrite foldl_app. simpl.
  destruct (foldl _ _ evs) as [x|]; simpl in *; [|constructor]. destruct (perform ev x) as [y|] eqn:Hy; simpl; [|constructor].
  apply perform_step in Hy as [? ?]. by eapply reach_step.
Qed.
End schedules.

Definition si_schema : gmap Z nat := {[1 := 1%nat]}.
Definition si_store : store :=
  mkStore {[1%positive := mkValue (mkTid false true false 4 1) (Some 11%positive); 2%positive := mkValue (mkTid false true false 9 1) (Some 12%positive)]}
    {[11%positive := [Some 5]; 12%positive := [Some 6]]} two_rows 1.
Definition si_idle : thread := mkThread (new_tx 0 []) Idle 0.
Definition si0 : sys := mkSys si_store {[0%nat := si_idle; 1%nat := si_idle]} [] 0.

Definition si_ghost : ghost :=
  mkGhost {[1%positive := Live (1, 10); 2%positive := Live (1, 20)]} {[11%positive := Committed 1%positive; 12%positive := Committed 2%positive]} ∅.

Lemma si_vown l o : vown si_ghost !! l = Some o → (l = 1%positive ∧ o = Live (1, 10)) ∨ (l = 2%positive ∧ o = Live (1, 20)).
Proof. cbn [vown si_ghost]. intros [[<- <-]|[_ [<- <-]%lookup_singleton_Some]]%lookup_insert_Some; auto. Qed.

Lemma si_store_ok : store_ok si_schema si_ghost si_store.
Proof.
  split.
  - apply two_rows_ok.
  - intros [a b] l. simpl. split.
    + intros [Hw Hat]. split; [done|]. destruct (two_rows_at a b l Hw Hat) as [(-> & -> & ->)|(-> & -> & ->)]; eexists; (split; [reflexivity|by left]).
    + intros (Hw & o & Ho & Hk). split; [done|].
      destruct (si_vown l o Ho) as [[-> ->]|[-> ->]]; destruct Hk as [[= <- <-]|[? ?]]; done || by_vm.
  - intros l o Ho. destruct (si_vown l o Ho) as [[-> ->]|[-> ->]]; eexists; (split; [reflexivity|]); (split; [split; split; simpl; lia|]);
      (split; [done|]); (split; [done|]); eexists; (split; [done|]); (split; [reflexivity|]); eexists; (split; reflexivity).
  - cbn [values si_store]. intros l v [[<- <-]|[_ [<- <-]%lookup_singleton_Some]]%lookup_insert_Some; by eexists.
  - cbn [rown si_ghost]. intros r o [[<- <-]|[_ [<- <-]%lookup_singleton_Some]]%lookup_insert_Some; by eexists.
  - by intros l z.
  - simpl. lia.
Qed.

Lemma si_initial : initial si_schema si0.
Proof.
  split; [by exists si_ghost; split; [apply si_store_ok|]| |done|done].
  cbn [threads si0]. intros i T [[<- <-]|[_ [<- <-]%lookup_singleton_Some]]%lookup_insert_Some; done.
Qed.

(** Thread 0 updates key 10, reads key 20, inserts key 15 and begins to
    commit; thread 1 has read key 10 and wants to update it too. *)
Definition si_calls : list event :=
  [EBegin 0; EBegin 1; ECall 0 (CUpdate 1 10); ECall 0 (CStore (1, 10) [Some 7]); ECall 0 (CRead 1 20); ECall 0 (CInsert 1 15);
   ECall 0 (CStore (1, 15) [Some 8]); ECall 1 (CRead 1 10); ECall 1 (CUpdate 1 10); ECommit 0; ECommit 1].
(** Both sort their write sets and thread 0 locks both its rows. *)
Definition si_locked : sys := default si0 (run_schedule si_schema (si_calls ++ [EStep 0; EStep 1; EStep 0; EStep 0]) si0).
(** Thread 0 validates and is about to write. *)
Definition si_valid : sys := default si0 (run_schedule si_schema (si_calls ++ [EStep 0; EStep 1] ++ replicate 7 (EStep 0)) si0).
(** Thread 0 commits; thread 1 gets the lock and is refused. *)
Definition si_done : sys := default si0 (run_schedule si_schema (si_calls ++ [EStep 0; EStep 1] ++ replicate 10 (EStep 0) ++ replicate 5 (EStep 1)) si0).

Lemma si_small evs : bool_decide (small (st (default si0 (run_schedule si_schema evs si0)))) = true → small (st (default si0 (run_schedule si_schema evs si0))).
Proof. apply bool_decide_eq_true_1. Qed.

Definition si_thread (x : sys) (i : nat) : thread := default si_idle (threads x !! i).

(** Thread 1 waits for thread 0. *)
Lemma silo_safe_witness : tpc (si_thread si_locked 1) = Locking [] [(1, 10)] [] 0 ∧
  (advance (map_to_list (rws (ttx (si_thread si_locked 1)))) (ttx (si_thread si_locked 1)) (st si_locked) (tpc (si_thread si_locked 1)) = Wait ∨
   ∃ t' s' p', advance (map_to_list (rws (ttx (si_thread si_locked 1)))) (ttx (si_thread si_locked 1)) (st si_locked) (tpc (si_thread si_locked 1)) = Ok (t', s', p')).
Proof.
  destruct (silo_safe si_schema si0 si_locked si_initial (schedule_reachable _ _ _)) as (_ & Hadv & _); [apply si_small; by_vm|].
  assert (tpc (si_thread si_locked 1) = Locking [] [(1, 10)] [] 0) as Hp by by_vm. split; [exact Hp|].
  apply (Hadv 1%nat); [apply lookup_default; by_vm| |done]. rewrite Hp. by intros [?|[?|?]].
Defined.

Lemma silo_serializable_witness : tpc (si_thread si_done 0) = Ended true ∧ tpc (si_thread si_done 1) = Refused ∧
  view (st si_done) (1, 10) = Some [Some 7] ∧ view (st si_done) (1, 10) = replay (view (st si0)) (log si_done) (1, 10).
Proof.
  split; [by_vm|]. split; [by_vm|]. split; [by_vm|].
  destruct (silo_serializable si_schema si0 si_done si_initial (schedule_reachable _ _ _)) as (_ & _ & _ & Hdb).
  apply Hdb; [|split; simpl; lia]. apply (bool_decide_eq_true_1 (map_Forall (λ _ T, commit_epoch (tpc T) = None) (threads si_done))). by_vm.
Defined.

Lemma silo_no_deadlock_witness : ∃ i T, threads si_locked !! i = Some T ∧ ¬ client_turn (tpc T) ∧
  ∀ order, order ≡ₚ map_to_list (rws (ttx T)) → ∃ res, advance order (ttx T) (st si_locked) (tpc T) = Ok res.
Proof.
  apply (silo_no_deadlock si_schema si0 si_locked si_initial (schedule_reachable _ _ _)); [apply si_small; by_vm|]. right.
  exists 1%positive, (default (mkValue (mkTid false false false 0 0) None) (values (st si_locked) !! 1%positive)).
  split; [apply lookup_default; by_vm|by_vm].
Defined.

Lemma silo_insert_remove_refused_witness :
  rwt (default (mkElem None (mkTid false false false 0 0) READ false 1%positive) (rws (ttx (si_thread si_valid 0)) !! (1, 15))) = INSERT.
Proof.
  apply (silo_insert_remove_refused si_schema si0 si_valid 0 (si_thread si_valid 0) [(1, 10); (1, 15)] (mkTid false false false 10 1) (1, 15));
    [apply si_initial|apply schedule_reachable|apply lookup_default; by_vm|by_vm|apply lookup_default; by_vm|by_vm].
Defined.
End silo_example.
