(* ===== verification/SiloRun.v ===== *)
(** * The machine of Silo computes its functions

    [SiloSystem] lets other threads run between the steps of [advance].  Here
    a thread runs alone: the machine stops within a number of steps read off
    the transaction, and what it stops with is what [precommit], [abort] and
    the destructor return, their errors included. *)
From stdpp Require Import sorting.
From S2P Require Import Prelude Versions BitFields Epoch Index Memory Silo SiloInv SiloCommit SiloSystem.

Section silo_run.
Import Memory Silo.
Context `{HI : NodeIndex loc}.
Implicit Types (s : store) (t : tx) (k : Z * Z) (e : ReadWriteElement) (p : pc) (order : list ((Z * Z) * ReadWriteElement)).

(** ** Running to the end of a phase *)

Definition decided p : bool := match p with Refused | Ended _ => true | _ => false end.
Definition idle p : bool := match p with Idle => true | _ => false end.

(** At most [fuel] steps, until [stop]. *)
Fixpoint run (stop : pc → bool) order (fuel : nat) t s p : outcome (tx * store * pc) :=
  if stop p then Ok (t, s, p) else
  match fuel with
  | 0%nat => Ok (t, s, p)
  | S fuel => '(t, s, p) ← advance order t s p; run stop order fuel t s p
  end.

(** ** Termination *)

(** The entries of the write set of some tables. *)
Definition writes_in t (l : list Z) : nat := length (l ≫= table_writes t).

(** An upper bound of the steps to [Idle] or to the client's turn. *)
Definition work t p : nat :=
  let w := length (write_order t) in
  let gc := length (gc_container t) in
  match p with
  | Locking h todo rest _ => length todo + writes_in t rest + length rest + size (rws t) + (3 * w + gc + 6) + 2
  | Validating todo _ _ => length todo + (3 * w + gc + 6) + 1
  | Writing todo _ => 3 * length todo + gc + 5
  | Unlocking todo => length todo + 1
  | Refused | Calls | Idle => 0
  | Aborting todo => 2 * length todo + gc + 5
  | Ended _ => gc + 3
  | Freeing todo => length todo + 1
  end.

Lemma length_table_writes t (x : Z) : length (table_writes t x) = length (write_keys t x).
Proof. unfold table_writes. by rewrite length_fmap. Qed.

Lemma writes_in_cons t (x : Z) l : writes_in t (x :: l) = (length (write_keys t x) + writes_in t l)%nat.
Proof. unfold writes_in. simpl. by rewrite length_app, length_table_writes. Qed.

Lemma sort_writes_in t (x : Z) l : writes_in (sort_writes t x) l = writes_in t l.
Proof.
  induction l as [|y l IH]; [done|]. rewrite !writes_in_cons, IH. f_equal. apply Permutation_length, write_keys_sort_perm.
Qed.

Lemma up_to_length k ks : (length (up_to k ks) ≤ length ks)%nat.
Proof. induction ks as [|k' ks IH]; simpl; [done|]. case_decide; simpl; lia. Qed.

Lemma collect_length {A} (gc : list (Z * A)) (c : Z) (a : A) : length (GarbageCollector.collect gc c a) = S (length gc).
Proof. apply insert_ascending_length. Qed.

Lemma remove_length {A} (gc : list (Z * A)) (c : Z) : (length (GarbageCollector.remove gc c).1 ≤ length gc)%nat.
Proof. unfold GarbageCollector.remove. case_match; simpl; [rewrite length_take; lia|lia]. Qed.

(** What the steps do to the parts of a transaction the bound reads. *)
Lemma write_entry_shape t s k cw t' s' : write_entry t s k cw = Ok (t', s') →
  ∃ gc, t' = set_gc t gc ∧ (length gc ≤ length (gc_container t) + 2)%nat.
Proof.
  unfold write_entry. intros (e & _ & (v & _ & H)%bind_Ok)%bind_Ok. case_bool_decide; injection H as <- _; eexists; (split; [done|]); simpl; rewrite !collect_length; lia.
Qed.

Lemma undo_entry_shape t s k t' s' : undo_entry t s k = Ok (t', s') →
  ∃ gc, t' = set_gc t gc ∧ (length gc ≤ length (gc_container t) + 1)%nat.
Proof.
  unfold undo_entry. intros (e & _ & ([t1 s1] & H1 & H2)%bind_Ok)%bind_Ok.
  assert (∃ gc, t1 = set_gc t gc ∧ (length gc ≤ length (gc_container t) + 1)%nat) as Hgc.
  { destruct (is_new e); [|injection H1 as <- _; exists (gc_container t); rewrite set_gc_id; split; [done|lia]].
    unfold undo_insert in H1. apply bind_Ok in H1 as (s2 & _ & H1). apply bind_Ok in H1 as (v & _ & H1). apply bind_Ok in H1 as (u & _ & [= <- _]).
    eexists. split; [done|]. rewrite collect_length. lia. }
  destruct (rwt e); try (by injection H2 as <- _); by apply bind_Ok in H2 as (s2 & _ & [= <- _]).
Qed.

(** Every step takes work away. *)
Definition ordered order t p : Prop := match p with Locking _ _ _ _ => order ≡ₚ map_to_list (rws t) | _ => True end.

Lemma advance_work order t s p t' s' p' : ordered order t p → ¬ client_turn p →
  advance order t s p = Ok (t', s', p') → (work t' p' < work t p)%nat.
Proof.
  intros Hord Hct H. assert (∀ k, (length (up_to k (write_order t)) ≤ length (write_order t))%nat) as Hup by (intros; apply up_to_length).
  destruct p as [|h todo rest m|todo m c|todo cw|todo| |todo|b|todo|]; try (by destruct Hct; unfold client_turn; auto); simpl in H.
  - destruct todo as [|k todo]; [destruct rest as [|x rest]|].
    + injection H as <- <- <-. simpl. rewrite Hord, length_map_to_list. lia.
    + injection H as <- <- <-. unfold work. rewrite sort_writes_in, writes_in_cons, length_table_writes, (Permutation_length (write_keys_sort_perm t x x)).
      change (length (write_order (sort_writes t x))) with (writes_in (sort_writes t x) (table_order t)). rewrite sort_writes_in. change (writes_in t (table_order t)) with (length (write_order t)). simpl. lia.
    + apply bind_Ok in H as ([[ok m'] s1] & _ & H). injection H as <- <- <-. destruct ok; simpl; [lia|]. specialize (Hup k). lia.
  - destruct todo as [|[k e] todo].
    + injection H as <- <- <-. destruct (validate_nodes t s); simpl; [lia|]. specialize (Hup (UINT64_MAX, UINT64_MAX)). lia.
    + apply bind_Ok in H as ([ok m'] & _ & H). injection H as <- <- <-. destruct ok; simpl; [lia|]. specialize (Hup (UINT64_MAX, UINT64_MAX)). lia.
  - destruct todo as [|k todo]; [injection H as <- <- <-; simpl; lia|]. apply bind_Ok in H as ([t1 s1] & Hw & H). injection H as <- <- <-.
    apply write_entry_shape in Hw as (gc & -> & Hgc). simpl. lia.
  - destruct todo as [|k todo]; [injection H as <- <- <-; simpl; lia|]. apply bind_Ok in H as (s1 & Hw & H). injection H as <- <- <-. simpl. lia.
  - destruct todo as [|k todo]; [injection H as <- <- <-; simpl; lia|]. apply bind_Ok in H as ([t1 s1] & Hw & H). injection H as <- <- <-.
    apply undo_entry_shape in Hw as (gc & -> & Hgc). simpl. lia.
  - pose proof (remove_length (gc_container t) (starting_epoch t)) as Hr. destruct (GarbageCollector.remove _ _) as [freed gc].
    injection H as <- <- <-. simpl in *. rewrite length_fmap. lia.
  - destruct todo as [|x todo]; [injection H as <- <- <-; simpl; lia|]. apply bind_Ok in H as (s1 & Hw & H). injection H as <- <- <-. simpl. lia.
Qed.

Lemma advance_ordered order t s p t' s' p' : ordered order t p → advance order t s p = Ok (t', s', p') → ordered order t' p'.
Proof.
  intros Hord H. destruct p as [|h todo rest m|todo m c|todo cw|todo| |todo|b|todo|]; simpl in H; try (by injection H as <- <- <-).
  - destruct todo as [|k todo]; [destruct rest as [|x rest]|]; [by injection H as <- <- <-..|].
    apply bind_Ok in H as ([[ok m'] s1] & _ & H). injection H as <- <- <-. by destruct ok.
  - destruct todo as [|[k e] todo]; [injection H as <- <- <-; by case_match|]. apply bind_Ok in H as ([ok m'] & _ & H). injection H as <- <- <-. by destruct ok.
  - destruct todo as [|k todo]; [by injection H as <- <- <-|]. apply bind_Ok in H as ([t1 s1] & Hw & H). by injection H as <- <- <-.
  - destruct todo as [|k todo]; [by injection H as <- <- <-|]. apply bind_Ok in H as (s1 & Hw & H). by injection H as <- <- <-.
  - destruct todo as [|k todo]; [by injection H as <- <- <-|]. apply bind_Ok in H as ([t1 s1] & Hw & H). by injection H as <- <- <-.
  - destruct (GarbageCollector.remove _ _) as [freed gc]. by injection H as <- <- <-.
  - destruct todo as [|x todo]; [by injection H as <- <- <-|]. apply bind_Ok in H as (s1 & Hw & H). by injection H as <- <- <-.
Qed.

Lemma advance_client order t s p : client_turn p → advance order t s p = Ok (t, s, p).
Proof. by intros [->|[->| ->]]. Qed.

(** With enough fuel, more makes no difference. *)
Lemma run_client stop order fuel t s p : client_turn p → run stop order fuel t s p = Ok (t, s, p).
Proof. intros Hc. induction fuel as [|fuel IH]; simpl; destruct (stop p); try done. by rewrite (advance_client order t s p Hc). Qed.

Lemma run_enough stop order fuel j t s p : ordered order t p → (work t p ≤ fuel)%nat →
  run stop order (fuel + j) t s p = run stop order fuel t s p.
Proof.
  revert t s p. induction fuel as [|fuel IH]; intros t s p Hord Hw.
  - rewrite !run_client; [done|..]; unfold client_turn; destruct p; simpl in Hw; lia || auto.
  - simpl. destruct (stop p); [done|]. destruct (advance order t s p) as [[[t' s'] p']| | |] eqn:Hadv; try done. simpl.
    assert (client_turn p ∨ ¬ client_turn p) as [Hc|Hc] by (unfold client_turn; destruct p; naive_solver).
    + rewrite (advance_client order t s p Hc) in Hadv. injection Hadv as <- <- <-. by rewrite !run_client.
    + apply IH; [by eapply advance_ordered|]. pose proof (advance_work order t s p t' s' p' Hord Hc Hadv). lia.
Qed.

(** ** The phases *)

(** The run ends with the outcome [m]. *)
Definition ends stop order t s p (m : outcome (tx * store * pc)) : Prop := ∃ n, ∀ fuel, run stop order (n + fuel) t s p = m.

Lemma ends_stop stop order t s p : stop p = true → ends stop order t s p (Ok (t, s, p)).
Proof. intros Hs. exists 0%nat. intros [|fuel]; simpl; by rewrite Hs. Qed.

(** A step that computes [m] and goes on with what it computed. *)
Lemma ends_bind {A} (m : outcome A) (f : A → tx * store * pc) (h : A → outcome (tx * store * pc)) stop order t s p :
  stop p = false → advance order t s p = (a ← m; Ok (f a)) →
  (∀ a, m = Ok a → ends stop order (f a).1.1 (f a).1.2 (f a).2 (h a)) → ends stop order t s p (a ← m; h a).
Proof.
  intros Hs Hadv Hok. destruct m as [a|msg| |] eqn:Hm; [|exists 1%nat; intros fuel; simpl; by rewrite Hs, Hadv..].
  destruct (Hok a eq_refl) as [n Hn]. exists (S n). intros fuel. simpl. rewrite Hs, Hadv. simpl. destruct (f a) as [[t' s'] p']. apply Hn.
Qed.

Lemma ends_step stop order t s p t' s' p' m : stop p = false → advance order t s p = Ok (t', s', p') → ends stop order t' s' p' m → ends stop order t s p m.
Proof. intros Hs Hadv Hok. apply (ends_bind (Ok tt) (λ _, (t', s', p')) (λ _, m)); [done|done|by intros]. Qed.

Lemma unlock_ends order t s ks : ends decided order t s (Unlocking ks) (s' ← unlock_keys t s ks; Ok (t, s', Refused)).
Proof.
  revert s. induction ks as [|k ks IH]; intros s; simpl.
  - by eapply ends_step; [..|apply ends_stop].
  - rewrite bind_assoc. by apply (ends_bind _ (λ s', (t, s', Unlocking ks))).
Qed.

Lemma write_ends order t s ks cw :
  ends decided order t s (Writing ks cw) ('(t', s') ← write_keys_to_memory t s ks cw; Ok (t', s', Ended true)).
Proof.
  revert t s. induction ks as [|k ks IH]; intros t s; simpl.
  - by eapply ends_step; [..|apply ends_stop].
  - rewrite bind_assoc. apply (ends_bind _ (λ ts, (ts.1, ts.2, Writing ks cw))); [done|apply bind_ext; by intros [? ?]|].
    intros [t' s'] _. apply IH.
Qed.

(** What [precommit] does after the serial point. *)
Definition after_serial order t s (commit_tid commit_epoch : Z) : outcome (bool * tx * store) :=
  '(ok, commit_tid) ← validate_reads s order commit_tid;
  if negb ok then s ← unlock_writeset t s; Ok (false, t, s) else
  let commit_tw := mkTid false false false (next_tid commit_tid) commit_epoch in
  if negb (validate_nodes t s) then s ← unlock_writeset t s; Ok (false, t, s) else
  '(t, s) ← write_keys_to_memory t s (write_order t) commit_tw;
  Ok (true, t, s).

Definition verdict (m : outcome (bool * tx * store)) : outcome (tx * store * pc) :=
  '(ok, t, s) ← m; Ok (t, s, if ok : bool then Ended true else Refused).

Lemma refuse_ends order t s : ends decided order t s (unlocking_all t) (verdict (s ← unlock_writeset t s; Ok (false, t, s))).
Proof.
  unfold verdict. rewrite bind_assoc. apply unlock_ends.
Qed.

Lemma validate_ends order order' t s n c : ends decided order t s (Validating order' n c) (verdict (after_serial order' t s n c)).
Proof.
  revert n. induction order' as [|[k e] order' IH]; intros n; unfold after_serial.
  - simpl. eapply ends_step; [done..|]. destruct (validate_nodes t s); simpl; [|apply refuse_ends].
    unfold verdict. rewrite bind_assoc. erewrite bind_ext; [apply write_ends|]. by intros [t' s'].
  - simpl. unfold verdict. rewrite (bind_assoc (validate_entry s e n)), (bind_assoc (validate_entry s e n)).
    apply (ends_bind _ (λ a : bool * Z, (t, s, if a.1 then Validating order' a.2 c else unlocking_all t))); [done|apply bind_ext; by intros [? ?]|].
    intros [[] n'] _; [apply IH|apply refuse_ends].
Qed.

Lemma precommit_after order t s : precommit t s order =
  '(ok, commit_tid, t, s) ← lock_tables t s (table_order t) 0;
  if negb ok then Ok (false, t, s) else after_serial order t s commit_tid (global_epoch s).
Proof. done. Qed.

(** What [precommit] does from the lock of the next key on. *)
Definition from_keys order t s ks rest (commit_tid : Z) : outcome (bool * tx * store) :=
  '(ok, commit_tid, s) ← lock_keys t s ks commit_tid;
  if negb ok then Ok (false, t, s) else
  '(ok, commit_tid, t, s) ← lock_tables t s rest commit_tid;
  if negb ok then Ok (false, t, s) else after_serial order t s commit_tid (global_epoch s).

Lemma lock_ends order rest : ∀ t s held ks n, ends decided order t s (Locking held ks rest n) (verdict (from_keys order t s ks rest n)).
Proof.
  induction rest as [|x rest IHr]; intros t s held ks; revert s held; induction ks as [|k ks IH]; intros s held n; unfold from_keys.
  - simpl. eapply ends_step; [done..|]. apply validate_ends.
  - simpl. unfold verdict. rewrite (bind_assoc (lock_entry t s k n)), (bind_assoc (lock_entry t s k n)).
    apply (ends_bind _ (λ a : bool * Z * store, (t, a.2, if a.1.1 then Locking (held ++ [k]) ks [] a.1.2 else unlocking t k)));
      [done|apply bind_ext; by intros [[? ?] ?]|].
    intros [[[] n'] s'] _; [apply IH|]. simpl. rewrite !bind_assoc. apply unlock_ends.
  - simpl. eapply ends_step; [done..|]. simpl. rewrite bind_assoc.
    erewrite bind_ext; [apply (IHr (sort_writes t x) s held (table_writes (sort_writes t x) x))|]. by intros [[[] n'] s'].
  - simpl. unfold verdict. rewrite (bind_assoc (lock_entry t s k n)), (bind_assoc (lock_entry t s k n)).
    apply (ends_bind _ (λ a : bool * Z * store, (t, a.2, if a.1.1 then Locking (held ++ [k]) ks (x :: rest) a.1.2 else unlocking t k)));
      [done|apply bind_ext; by intros [[? ?] ?]|].
    intros [[[] n'] s'] _; [apply IH|]. simpl. rewrite !bind_assoc. apply unlock_ends.
Qed.

Lemma undo_ends order t s ks : ends decided order t s (Aborting ks) ('(t', s') ← undo_keys t s ks; Ok (clear t', s', Ended false)).
Proof.
  revert t s. induction ks as [|k ks IH]; intros t s; simpl.
  - by eapply ends_step; [..|apply ends_stop].
  - rewrite bind_assoc. apply (ends_bind _ (λ ts, (ts.1, ts.2, Aborting ks))); [done|apply bind_ext; by intros [? ?]|].
    intros [t' s'] _. apply IH.
Qed.

Lemma free_ends order t s gs : ends idle order t s (Freeing gs) (s' ← free_all s gs; Ok (t, s', Idle)).
Proof.
  revert s. induction gs as [|g gs IH]; intros s; simpl.
  - by eapply ends_step; [..|apply ends_stop].
  - rewrite bind_assoc. by apply (ends_bind _ (λ s', (t, s', Freeing gs))).
Qed.

Lemma run_ends stop order t s p m fuel : ordered order t p → (work t p ≤ fuel)%nat → ends stop order t s p m → run stop order fuel t s p = m.
Proof. intros Hord Hw [n Hn]. rewrite <- (Hn fuel), Nat.add_comm. symmetry. by apply run_enough. Qed.

(** ** Properties *)

(** The steps that interleave compose to the functions: a thread that
    runs alone with as much fuel as [work] reads off its transaction ends its
    commit with the verdict, the transaction and the memory that [precommit]
    returns, its abort with those of [abort], its destructor with those of
    [destroy]; where the function waits, throws or gets stuck, so does the
    run. *)
Theorem silo_run_equiv order t s (committed : bool) (fuel : nat) : order ≡ₚ map_to_list (rws t) →
  (work t (Locking [] [] (table_order t) 0) ≤ fuel)%nat →
  run decided order fuel t s (Locking [] [] (table_order t) 0) =
    ('(ok, t', s') ← precommit t s order; Ok (t', s', if ok : bool then Ended true else Refused)) ∧
  run decided order fuel t s (Aborting (write_order t)) = ('(t', s') ← abort t s; Ok (t', s', Ended false)) ∧
  run idle order fuel t s (Ended committed) = ('(t', s') ← destroy t s; Ok (t', s', Idle)).
Proof.
  intros Hord Hw. split_and!; apply run_ends; try done.
  - apply (lock_ends order (table_order t) t s [] []).
  - simpl in *. lia.
  - unfold abort. rewrite bind_assoc. erewrite bind_ext; [apply undo_ends|]. by intros [t' s'].
  - simpl in *. lia.
  - unfold destroy. destruct (GarbageCollector.remove _ _) as [freed gc] eqn:Hrem. rewrite bind_assoc.
    eapply ends_step; [done|simpl; rewrite Hrem; reflexivity|]. apply free_ends.
Qed.

(** ** Draining the system *)

(** A thread inside a commit, an abort or a destructor takes a step. *)
Definition drains x y : Prop := ∃ i T order t' s' p', small (st x) ∧ threads x !! i = Some T ∧ ¬ client_turn (tpc T) ∧
  order ≡ₚ map_to_list (rws (ttx T)) ∧ advance order (ttx T) (st x) (tpc T) = Ok (t', s', p') ∧
  y = mkSys s' (<[i := mkThread t' p' (serial T)]> (threads x)) (log_step (serial T) (ttx T) (st x) (tpc T) p' (log x)) (next x).

(** What is left to do for all threads together. *)
Definition total_work (th : gmap nat thread) : nat := map_fold (λ _ T n, work (ttx T) (tpc T) + n)%nat 0%nat th.

(** Nobody is inside a call of the protocol and nothing is locked. *)
Definition drained x : Prop :=
  (∀ i T, threads x !! i = Some T → client_turn (tpc T)) ∧
  (∀ l v, values (st x) !! l = Some v → lock (tidword v) = false).

Lemma total_work_insert th i T : th !! i = None → total_work (<[i := T]> th) = (work (ttx T) (tpc T) + total_work th)%nat.
Proof. intros Hi. unfold total_work. rewrite map_fold_insert_L; [done|intros; lia|done]. Qed.

Lemma total_work_replace th i T T' : th !! i = Some T → (work (ttx T') (tpc T') < work (ttx T) (tpc T))%nat →
  (total_work (<[i := T']> th) < total_work th)%nat.
Proof.
  intros Hi Hw. rewrite <- (insert_delete_id th i T Hi) at 2. rewrite <- insert_delete_eq.
  rewrite !total_work_insert by apply lookup_delete_eq. lia.
Qed.

Lemma advance_drains order t s p t' s' p' : ¬ client_turn p → order ≡ₚ map_to_list (rws t) → advance order t s p = Ok (t', s', p') →
  (work t' p' < work t p)%nat.
Proof. intros Hct Hord. apply advance_work; [|done]. unfold ordered. by destruct p. Qed.

(** The steps of the other threads leave a thread that is inside alone. *)
Lemma own_steps_only (schema : gmap Z nat) x y i T T' : sys_step schema x y → threads x !! i = Some T → threads y !! i = Some T' →
  ¬ client_turn (tpc T) → T' = T ∨ (work (ttx T') (tpc T') < work (ttx T) (tpc T))%nat.
Proof.
  intros Hstep HT HT' Hct. assert (∀ j U, threads x !! j = Some U → client_turn (tpc U) → i ≠ j) as Hne by naive_solver.
  destruct Hstep as [x j U c t' s' HU Hp _ _|x j U HU Hp|x j U HU Hp|x j U HU Hp|x j U order t' s' p' HU Hct' Hord Hadv|x _]; simpl in *;
    [left; rewrite lookup_insert_ne in HT' by (intros Heq; apply (Hne j U HU); [unfold client_turn; intuition|done]); congruence..| |left; congruence].
  destruct (decide (j = i)) as [->|Hji]; [|left; rewrite lookup_insert_ne in HT' by done; congruence].
  rewrite lookup_insert_eq in HT'. injection HT' as <-. assert (U = T) as -> by congruence. right. simpl. by eapply advance_drains.
Qed.

Lemma drains_step (schema : gmap Z nat) x y : drains x y → small (st x) ∧ sys_step schema x y.
Proof. intros (i & T & order & t' & s' & p' & Hsm & HT & Hct & Hord & Hadv & ->). split; [done|]. by eapply step_advance. Qed.

Lemma drains_work x y : drains x y → (total_work (threads y) < total_work (threads x))%nat.
Proof.
  intros (i & T & order & t' & s' & p' & _ & HT & Hct & Hord & Hadv & ->). simpl.
  apply (total_work_replace _ i T); [done|]. by eapply advance_drains.
Qed.

Lemma drains_reachable (schema : gmap Z nat) x0 x y : reachable schema x0 x → rtc drains x y → reachable schema x0 y.
Proof. intros Hr Hd. revert Hr. induction Hd as [|x z y Hxz _ IH]; [done|]. intros Hr. apply IH. destruct (drains_step schema x z Hxz). by eapply reach_step. Qed.

Lemma chain_bounded n x y : nsteps drains n x y → (n + total_work (threads y) ≤ total_work (threads x))%nat.
Proof. induction 1 as [x|n x y z Hxy _ IH]; [done|]. pose proof (drains_work x y Hxy). lia. Qed.

#[local] Instance client_turn_dec p : Decision (client_turn p).
Proof. unfold client_turn. destruct p; (by left; auto) || (right; naive_solver). Defined.

(** A state that cannot be drained further is drained. *)
Lemma can_advance_drains x : small (st x) → can_advance x → red drains x.
Proof.
  intros Hsm (i & T & HT & Hct & Hadv). destruct (Hadv _ (Permutation_refl _)) as [[[t' s'] p'] Hok].
  eexists. exists i, T, (map_to_list (rws (ttx T))), t', s', p'. split_and!; done.
Qed.

Lemma drained_or_drains (schema : gmap Z nat) `{!NodeIndexLaws loc} x0 x : initial schema x0 → reachable schema x0 x → small (st x) →
  ¬ red drains x → drained x.
Proof.
  intros Hin Hr Hsm Hnf. destruct (reachable_consistent schema x0 x Hin Hr) as (g & Hsys & Hlog). split.
  - intros i T HT. assert (client_turn (tpc T) ∨ ¬ client_turn (tpc T)) as [?|Hct] by (unfold client_turn; destruct (tpc T); naive_solver); [done|].
    destruct Hnf. apply can_advance_drains; [done|]. by eapply thread_progress.
  - intros l v Hv. apply not_true_iff_false. intros Hl. destruct Hnf. apply can_advance_drains; [done|]. by eapply locked_progress.
Qed.

Lemma drain_exists (schema : gmap Z nat) `{!NodeIndexLaws loc} x0 x : initial schema x0 → reachable schema x0 x →
  ∃ y, rtc drains x y ∧ (small (st y) → drained y).
Proof.
  intros Hin. remember (total_work (threads x)) as n eqn:Hn. revert x Hn. induction (lt_wf n) as [n _ IH]. intros x -> Hr.
  destruct (decide (small (st x))) as [Hsm|Hsm]; [|exists x; split; [constructor|done]].
  destruct (decide (map_Forall (λ _ T, client_turn (tpc T)) (threads x))) as [Hall|Hsome].
  - exists x. split; [constructor|]. intros _. apply (drained_or_drains schema x0); [done..|]. intros (y & i & T & _ & _ & _ & _ & _ & HT & Hct & _).
    by apply Hct, (Hall i).
  - apply map_not_Forall in Hsome as (i & T & HT & Hct); [|apply _]. destruct (reachable_consistent schema x0 x Hin Hr) as (g & Hsys & Hlog).
    destruct (can_advance_drains x Hsm) as [z Hz]; [by eapply thread_progress|].
    destruct (IH (total_work (threads z)) (drains_work x z Hz) z eq_refl) as (y & Hzy & Hy).
    + eapply drains_reachable; [done|]. by apply rtc_once.
    + exists y. split; [by eapply rtc_l|done].
Qed.

(** C4: Commits, aborts and destructors end and leave nothing locked.  From
    every state the threads reach: a thread that is inside one has less left
    to do after each of its own steps, and the steps of the others give it
    none; the steps that the threads inside can take follow one another at
    most [total_work] times, in whatever order they are scheduled; and where
    no such step is possible any more (a thread that spins on a locked row
    takes none), every thread has returned from its commit, abort or
    destructor and no row is locked. *)
Theorem silo_commits_end (schema : gmap Z nat) `{!NodeIndexLaws loc} x0 x : initial schema x0 → reachable schema x0 x →
  (∀ y i T T', sys_step schema x y → threads x !! i = Some T → threads y !! i = Some T' → ¬ client_turn (tpc T) →
    T' = T ∨ (work (ttx T') (tpc T') < work (ttx T) (tpc T))%nat) ∧
  (∀ n y, nsteps drains n x y → (n + total_work (threads y) ≤ total_work (threads x))%nat) ∧
  (∀ y, rtc drains x y → small (st y) → nf drains y → drained y) ∧
  (∃ y, rtc drains x y ∧ (small (st y) → drained y)).
Proof.
  intros Hin Hr. split_and!.
  - intros y i T T'. apply own_steps_only.
  - intros n y. apply chain_bounded.
  - intros y Hd Hsm Hnf. apply (drained_or_drains schema x0); [done| |done|done]. by eapply drains_reachable.
  - by eapply drain_exists.
Qed.
End silo_run.

(** ** Example: the commit of [SiloSystem]'s first thread, alone *)
Section run_example.
Import Memory Silo.

Definition sr0 : sys := default si0 (run_schedule si_schema (take 9 si_calls) si0).
Definition sr_tx : tx := ttx (si_thread sr0 0).

Lemma silo_run_equiv_witness :
  (if precommit sr_tx (st sr0) (map_to_list (rws sr_tx)) is Ok (true, _, _) then true else false) = true ∧
  run decided (map_to_list (rws sr_tx)) (work sr_tx (Locking [] [] (table_order sr_tx) 0)) sr_tx (st sr0) (Locking [] [] (table_order sr_tx) 0) =
    ('(ok, t', s') ← precommit sr_tx (st sr0) (map_to_list (rws sr_tx)); Ok (t', s', if ok : bool then Ended true else Refused)).
Proof.
  split; [by_vm|]. exact (proj1 (silo_run_equiv _ sr_tx (st sr0) true _ (Permutation_refl _) (Nat.le_refl _))).
Defined.

(** Two commits under way: thread 1 waits for a row that thread 0 has locked. *)
Lemma silo_commits_end_witness : total_work (threads si_locked) = 30%nat ∧
  (∀ n y, nsteps drains n si_locked y → (n + total_work (threads y) ≤ total_work (threads si_locked))%nat) ∧
  ∃ y, rtc drains si_locked y ∧ (small (st y) → drained y).
Proof.
  split; [by_vm|]. destruct (silo_commits_end si_schema si0 si_locked si_initial (schedule_reachable _ _ _)) as (_ & Hbound & _ & Hend).
  split; [exact Hbound|exact Hend].
Defined.
End run_example.
