(* ===== verification/SiloLoops.v ===== *)
(** * Reading a value of Silo without locking it

    [get_record_pointer] and [copy_record] load the word, the record and the
    word again until both words agree, while writers lock the word, exchange
    the record and store a new word.  The loops return what the atomic calls
    of [Silo] return at one moment in between. *)
From S2P Require Import Prelude Versions BitFields Epoch Index Memory Silo SiloInv.

Module SiloLoops.
Import Memory Silo.

(** The loop; its loads find [hist 0], [hist 1], ... and [load] says what is
    done with the record: its pointer is kept or the record is copied. *)
Fixpoint wait_stable {A} (load : Value → A) (hist : nat → Value) (fuel : nat) (n : nat) (expected : TidWord) : option (A * TidWord * nat) :=
  match fuel with
  | 0%nat => None
  | S fuel =>
      if lock expected then wait_stable load hist fuel (S n) (tidword (hist n)) else
      let rec := load (hist n) in
      let tw := tidword (hist (S n)) in
      if is_same tw expected then Some (rec, tw, n) else wait_stable load hist fuel (S (S n)) tw
  end.
Definition stable_read {A} (load : Value → A) (hist : nat → Value) (fuel : nat) : option (A * TidWord * nat) :=
  wait_stable load hist fuel 1 (tidword (hist 0%nat)).

(** What writers do to a value: [lock], [unlock], the exchange of the record
    and the store of the new word in [precommit], the store in [abort]. *)
Inductive phase := Free | Held | Swapped.
Inductive write_step : Value * phase → Value * phase → Prop :=
| do_lock v : write_step (v, Free) (mkValue (set_lock (tidword v) true) (vrec v), Held)
| do_unlock v : write_step (v, Held) (mkValue (set_lock (tidword v) false) (vrec v), Free)
| do_exchange v r : write_step (v, Held) (mkValue (tidword v) r, Swapped)
| do_publish v w : lock w = false → word_ok w → tid (tidword v) < tid w → write_step (v, Swapped) (mkValue w (vrec v), Free)
| do_undo v : write_step (v, Held) (mkValue (mkTid false false true (tid (tidword v)) (epoch (tidword v))) (vrec v), Free).

#[export] Instance phase_eq_dec : EqDecision phase.
Proof. solve_decision. Defined.

(** The word of a value says whether it is locked. *)
Definition flagged (c : Value * phase) : Prop := word_ok (tidword c.1) ∧ lock (tidword c.1) = bool_decide (c.2 ≠ Free).
End SiloLoops.

Section silo_loops.
Import Memory Silo SiloLoops.
Implicit Types (c d : Value * phase) (v : Value).

Lemma step_flagged c d : write_step c d → flagged c → flagged d.
Proof. intros Hs [[Ht He] Hl]. destruct Hs; split; simpl in *; done. Qed.

Lemma step_tid c d : write_step c d → tid (tidword c.1) ≤ tid (tidword d.1).
Proof. intros Hs. destruct Hs; simpl; lia. Qed.

(** The record has been exchanged, or a newer word published. *)
Definition overtaken (n : Z) c : Prop := n < tid (tidword c.1) ∨ (c.2 = Swapped ∧ n ≤ tid (tidword c.1)).

Lemma step_overtaken n c d : write_step c d → overtaken n c → overtaken n d.
Proof.
  intros Hs [Hlt|[Hp Hle]].
  - left. apply step_tid in Hs. lia.
  - destruct Hs; simpl in *; try done. left. simpl. lia.
Qed.

Lemma step_same_record c d : write_step c d → vrec d.1 = vrec c.1 ∨ overtaken (tid (tidword c.1)) d.
Proof. intros Hs. destruct Hs; simpl; auto. right. right. simpl. split; [done|lia]. Qed.

Lemma steps_flagged c d : rtc write_step c d → flagged c → flagged d.
Proof. induction 1; eauto using step_flagged. Qed.

Lemma steps_overtaken n c d : rtc write_step c d → overtaken n c → overtaken n d.
Proof. induction 1; eauto using step_overtaken. Qed.

Lemma overtaken_mono n m c : n ≤ m → overtaken m c → overtaken n c.
Proof. intros Hle [?|[? ?]]; [left; lia|right; split; [done|lia]]. Qed.

Lemma steps_same_record c d : rtc write_step c d → vrec d.1 = vrec c.1 ∨ overtaken (tid (tidword c.1)) d.
Proof.
  induction 1 as [c|c c' d Hs Hd IH]; [by left|]. pose proof (step_tid c c' Hs) as Hle.
  destruct (step_same_record c c' Hs) as [Hr|Ho]; [|right; by eapply steps_overtaken].
  destruct IH as [->|Ho]; [by left|right; by eapply overtaken_mono].
Qed.

(** When the word is the same before and after, the record in between is the
    one before. *)
Lemma same_word_record c0 c1 c2 : flagged c0 → rtc write_step c0 c1 → rtc write_step c1 c2 →
  tidword c2.1 = tidword c0.1 → lock (tidword c0.1) = false → vrec c1.1 = vrec c0.1.
Proof.
  intros Hf H1 H2 Hw Hl. destruct (steps_same_record c0 c1 H1) as [?|Ho]; [done|exfalso].
  destruct (steps_flagged c1 c2 H2 (steps_flagged c0 c1 H1 Hf)) as [_ Hl2].
  apply (steps_overtaken _ _ _ H2) in Ho as [?|[Hp _]]; [rewrite Hw in *; lia|]. rewrite Hw, Hl, Hp in Hl2. done.
Qed.

Section one_value.
Context (hist : nat → Value) (ph : nat → phase).
Context (Hstart : flagged (hist 0%nat, ph 0%nat)) (Hsteps : ∀ n, rtc write_step (hist n, ph n) (hist (S n), ph (S n))).

Lemma hist_flagged n : flagged (hist n, ph n).
Proof. induction n as [|n IH]; [done|]. eapply steps_flagged; [apply Hsteps|done]. Qed.

Lemma wait_stable_moment {A} (load : Value → A) fuel n expected rec tw m :
  wait_stable load hist fuel (S n) expected = Some (rec, tw, m) → expected = tidword (hist n) →
  (∀ v v', vrec v = vrec v' → load v = load v') →
  ∃ j, (n ≤ j)%nat ∧ m = S j ∧ tidword (hist j) = tw ∧ lock tw = false ∧ rec = load (hist j).
Proof.
  intros Hw He Hload. revert n expected Hw He. induction fuel as [|fuel IH]; intros n expected Hw He; [done|]. cbn [wait_stable] in Hw.
  destruct (lock expected) eqn:Hlk.
  { destruct (IH (S n) _ Hw eq_refl) as (j & ? & Hj). exists j. split; [lia|done]. }
  destruct (is_same _ expected) eqn:Hs.
  - injection Hw as <- <- <-. pose proof (hist_flagged n) as Hfn. pose proof (hist_flagged (S (S n))) as Hf2.
    rewrite He in Hs, Hlk. apply is_same_eq in Hs; [|apply Hf2|apply Hfn]. exists n. split_and!; [lia|done|done|congruence|].
    apply Hload. by apply (same_word_record (hist n, ph n) (hist (S n), ph (S n)) (hist (S (S n)), ph (S (S n)))).
  - destruct (IH (S (S n)) _ Hw eq_refl) as (j & ? & Hj). exists j. split; [lia|done].
Qed.

(** Once the value is left alone, two more rounds are enough. *)
Lemma wait_stable_ends {A} (load : Value → A) (j fuel n : nat) expected v : (∀ i, (j ≤ i)%nat → hist i = v) → lock (tidword v) = false →
  (j ≤ n + fuel)%nat → is_Some (wait_stable load hist (fuel + 2) n expected).
Proof.
  intros Hv Hl. assert (is_same (tidword v) (tidword v) = true) as Hsame by (unfold is_same; apply Z.eqb_refl).
  assert (∀ f i, (j ≤ i)%nat → is_Some (wait_stable load hist (S f) i (tidword v))) as Hend.
  { intros f i Hi. cbn [wait_stable]. rewrite Hl, (Hv i), (Hv (S i)) by lia. by rewrite Hsame. }
  revert n expected. induction fuel as [|fuel IH]; intros n expected Hn.
  - change (0 + 2)%nat with 2%nat. cbn [wait_stable]. fold (wait_stable load hist 1).
    destruct (lock expected); [rewrite (Hv n) by lia; apply (Hend 0%nat); lia|]. case_match; [done|]. rewrite (Hv (S n)) by lia. apply (Hend 0%nat). lia.
  - simpl. destruct (lock expected); [apply IH; lia|]. case_match; [done|]. apply IH. lia.
Qed.
End one_value.

Context `{HI : NodeIndex loc}.

(** C5: A read of Silo is atomic although it takes no lock: whatever writers
    do to the value between the loads of [get_record_pointer], the record and
    the word it returns are those the value had, unlocked, at one moment
    while the loop ran, so the call returns what it returns when it runs at
    that moment without interruption; and it returns after two rounds once
    the value is left unlocked and alone. *)
Theorem silo_read_atomic (hist : nat → Value) (ph : nat → phase) (s : nat → store) (l : loc) (fuel : nat) :
  flagged (hist 0%nat, ph 0%nat) → (∀ n, rtc write_step (hist n, ph n) (hist (S n), ph (S n))) →
  (∀ n, values (s n) !! l = Some (hist n)) →
  (∀ rec tw n, stable_read vrec hist fuel = Some (rec, tw, n) → ∃ j, (j < n)%nat ∧ get_record_pointer (s j) l = Ok (rec, tw)) ∧
  (∀ j v, (∀ i, (j ≤ i)%nat → hist i = v) → lock (tidword v) = false → (j + 2 ≤ fuel)%nat → is_Some (stable_read vrec hist fuel)).
Proof.
  intros Hstart Hsteps Hs. unfold stable_read. split.
  - intros rec tw n Hw. destruct (wait_stable_moment hist ph Hstart Hsteps vrec fuel 0 _ rec tw n Hw) as (j & _ & -> & Htw & Hl & ->); [done..|].
    exists j. split; [lia|]. unfold get_record_pointer. rewrite Hs. simpl. by rewrite Htw, Hl.
  - intros j v Hv Hl Hf. replace fuel with (fuel - 2 + 2)%nat by lia. apply (wait_stable_ends hist vrec j (fuel - 2) 1 _ v); [done..|lia].
Qed.
End silo_loops.

(** ** Example: the value is locked, changed and unlocked during the loop *)
Section loop_example.
Import Memory Silo SiloLoops.

Definition lo_word (locked : bool) (n : Z) : TidWord := mkTid locked true false n 1.
Definition lo_hist (n : nat) : Value :=
  match n with
  | 0%nat => mkValue (lo_word false 4) (Some 11%positive)
  | 1%nat => mkValue (lo_word true 4) (Some 12%positive)
  | _ => mkValue (lo_word false 5) (Some 12%positive)
  end.
Definition lo_phase (n : nat) : phase := match n with 1%nat => Swapped | _ => Free end.
Definition lo_store (n : nat) : store := mkStore {[1%positive := lo_hist n]} ∅ two_rows 1.

Lemma lo_steps n : rtc write_step (lo_hist n, lo_phase n) (lo_hist (S n), lo_phase (S n)).
Proof.
  destruct n as [|[|n]]; simpl; [| |done].
  - eapply rtc_l; [apply do_lock|]. apply rtc_once. apply (do_exchange (mkValue (lo_word true 4) (Some 11%positive))).
  - apply rtc_once. apply (do_publish (mkValue (lo_word true 4) (Some 12%positive))); [done|split; split; simpl; lia|simpl; lia].
Qed.

Lemma silo_read_atomic_witness : stable_read vrec lo_hist 3 = Some (Some 12%positive, lo_word false 5, 3%nat) ∧
  ∃ j, (j < 3)%nat ∧ get_record_pointer (lo_store j) 1%positive = Ok (Some 12%positive, lo_word false 5).
Proof.
  split; [by_vm|]. apply (silo_read_atomic lo_hist lo_phase lo_store 1%positive 3); [split; [split; split; simpl; lia|done]|apply lo_steps| |by_vm].
  intros n. apply lookup_singleton_eq.
Defined.
End loop_example.
