(* ===== verification/Mvto.v ===== *)
(** * protocols/mvto: multi-version timestamp ordering

    [MVTO<Index>]: every row keeps a chain of versions, newest first.  A
    transaction reads the latest version not younger than its timestamp and
    leaves its timestamp on it; at commit it adds versions to the rows it
    wrote, unless a younger transaction has read or written them.  Versions
    that no running transaction can see are dropped on the way.

    Each call runs without another thread in between (it holds the lock of
    the row while it works on the chain); the transactions of the workers
    interleave call by call.  Memory is explicit: a freed or null block that
    is used makes the call [Stuck].  The leaf nodes of the tree and their
    timestamps belong to the Masstree library. *)
From stdpp Require Import sorting.
From S2P Require Import Prelude Versions RWLock Timestamp Index Memory.

(** [LeafNode::update_ts] and [LeafNode::get_ts]. *)
Class LeafTimestamps := {
  leaves : Type;
  update_ts : leaves → Z → Z → leaves;
  get_ts : leaves → Z → Z
}.

Module Mvto.
Import Memory.

(** [class Version]; [prev] is the rest of the chain. *)
Record Version := mkVersion { read_ts : Z; write_ts : Z; rec : Ptr; deleted : bool }.

(** [struct Value]: the lock word of [rwl] and the chain from [version]. *)
Record Value := mkValue { rwl : Z; version : list Version }.

Inductive ReadWriteType := READ | UPDATE | INSERT | DELETE.
#[export] Instance ReadWriteType_eq_dec : EqDecision ReadWriteType.
Proof. solve_decision. Defined.

Record ReadWriteElement := mkElem { read_rec : Ptr; write_rec : Ptr; rwt : ReadWriteType; is_new : bool; val : loc }.

(** The order of the keys of the write set. *)
Definition key_order (a b : Z * nat) : Prop := a.1 ≤ b.1.
#[export] Instance key_order_dec : RelDecision key_order.
Proof. intros a b. unfold key_order. apply _. Defined.

(** ** Versions *)

Definition update_readts (v : Version) (ts : Z) : Version :=
  if ts <? read_ts v then v else mkVersion ts (write_ts v) (rec v) (deleted v).

Definition is_detached_from_tree (v : Value) : bool := bool_decide (version v = []).
Definition is_empty (v : Value) : bool :=
  match version v with [v] => deleted v | _ => false end.

(** The place in the chain of the latest version with [write_ts <= start_ts]. *)
Fixpoint get_correct_version (start_ts : Z) (chain : list Version) : option nat :=
  match chain with
  | [] => None
  | v :: chain => if start_ts <? write_ts v then S <$> get_correct_version start_ts chain else Some 0%nat
  end.

(** The versions [gc_version_chain] keeps and those it frees: the latest
    version with [write_ts <= smallest_ts] is the last it keeps. *)
Fixpoint gc_split (smallest_ts : Z) (chain : list Version) : list Version * list Version :=
  match chain with
  | [] => ([], [])
  | v :: chain =>
      if smallest_ts <? write_ts v then let '(kept, freed) := gc_split smallest_ts chain in (v :: kept, freed)
      else ([v], chain)
  end.

Fixpoint free_versions (m : heap) (vs : list Version) : outcome heap :=
  match vs with
  | [] => Ok m
  | v :: vs => m ← deallocate m (rec v); free_versions m vs
  end.

#[local] Existing Instance scan_index.

Section protocol.
Context `{HI : ScanIndex loc} `{HT : LeafTimestamps}.
(** [Schema]: the record size of each table. *)
Context (schema : gmap Z nat).

Record store := mkStore { values : gmap loc Value; records : heap; idx : index (V := loc); leaf_ts : leaves }.

(** A transaction.  The read/write sets of the tables are one map over
    (table, key); an iterator into it is a key and the number of the node it
    was made for, so that an iterator to an erased node is told from one to a
    node inserted later.  The write set holds the iterators of each table in
    the order they were added.  [gc] are the thread's two maps of retired
    values.  [observed] is not in the source: the version each first access
    found, as its timestamp and its record. *)
Record tx := mkTx {
  start_ts : Z; smallest_ts : Z; largest_ts : Z; tables : gset Z;
  rws : gmap (Z * Z) (nat * ReadWriteElement); nodes : nat; ws : gmap Z (list (Z * nat));
  gc : TimestampGC.t; observed : gmap (Z * Z) (Z * Ptr)
}.

Definition set_value (s : store) (l : loc) (v : Value) : store :=
  mkStore (<[l := v]> (values s)) (records s) (idx s) (leaf_ts s).
Definition set_records (s : store) (m : heap) : store := mkStore (values s) m (idx s) (leaf_ts s).
Definition set_idx (s : store) (i : index (V := loc)) : store := mkStore (values s) (records s) i (leaf_ts s).
Definition set_leaves (s : store) (n : leaves) : store := mkStore (values s) (records s) (idx s) n.

Definition set_tables (t : tx) (x : gset Z) : tx :=
  mkTx (start_ts t) (smallest_ts t) (largest_ts t) x (rws t) (nodes t) (ws t) (gc t) (observed t).
Definition set_rws (t : tx) (x : gmap (Z * Z) (nat * ReadWriteElement)) : tx :=
  mkTx (start_ts t) (smallest_ts t) (largest_ts t) (tables t) x (nodes t) (ws t) (gc t) (observed t).
Definition set_ws (t : tx) (x : gmap Z (list (Z * nat))) : tx :=
  mkTx (start_ts t) (smallest_ts t) (largest_ts t) (tables t) (rws t) (nodes t) x (gc t) (observed t).
Definition set_gc (t : tx) (x : TimestampGC.t) : tx :=
  mkTx (start_ts t) (smallest_ts t) (largest_ts t) (tables t) (rws t) (nodes t) (ws t) x (observed t).
Definition observe (t : tx) (k : Z * Z) (w : Z) (r : Ptr) : tx :=
  mkTx (start_ts t) (smallest_ts t) (largest_ts t) (tables t) (rws t) (nodes t) (ws t) (gc t) (<[k := (w, r)]> (observed t)).

(** The constructor. *)
Definition new_tx (ts smallest largest : Z) (g : TimestampGC.t) : tx := mkTx ts smallest largest ∅ ∅ 0 ∅ g ∅.
Definition set_new_ts (t : tx) (ts smallest largest : Z) : tx :=
  mkTx ts smallest largest (tables t) (rws t) (nodes t) (ws t) (gc t) (observed t).

Definition add_table (t : tx) (table_id : Z) : tx := set_tables t ({[table_id]} ∪ tables t).
Definition find (t : tx) (k : Z * Z) : option ReadWriteElement := snd <$> rws t !! k.

(** [rw_table.emplace_hint] of a new key. *)
Definition emplace (t : tx) (k : Z * Z) (e : ReadWriteElement) : tx :=
  mkTx (start_ts t) (smallest_ts t) (largest_ts t) (tables t) (<[k := (nodes t, e)]> (rws t)) (S (nodes t)) (ws t) (gc t) (observed t).
(** Assignments to the fields of an element. *)
Definition put (t : tx) (k : Z * Z) (e : ReadWriteElement) : tx :=
  set_rws t (alter (λ p, (p.1, e)) k (rws t)).

Definition w_table (t : tx) (table_id : Z) : list (Z * nat) := default [] (ws t !! table_id).
(** [w_table.emplace_back(key, iter)] with the iterator to the key's node. *)
Definition push_write (t : tx) (k : Z * Z) : tx :=
  match rws t !! k with
  | Some (n, _) => set_ws t (<[k.1 := w_table t k.1 ++ [(k.2, n)]]> (ws t))
  | None => t
  end.
(** [w_iter->second->second]. *)
Definition deref_iter (t : tx) (table_id : Z) (it : Z * nat) : outcome ReadWriteElement :=
  match rws t !! (table_id, it.1) with
  | Some (n, e) => if decide (n = it.2) then Ok e else Stuck
  | None => Stuck
  end.

Definition lock (s : store) (l : loc) : outcome (Value * store) :=
  v ← deref (values s !! l);
  let '(b, n) := RWLock.try_lock (rwl v) in
  if b : bool then let v := mkValue n (version v) in Ok (v, set_value s l v) else Wait.
Definition unlock (s : store) (l : loc) : outcome store :=
  v ← deref (values s !! l); Ok (set_value s l (mkValue (RWLock.unlock (rwl v)) (version v))).

Definition allocate (s : store) (size : nat) : loc * store :=
  let '(r, m) := aligned_allocate (records s) size in (r, set_records s m).
Definition free (s : store) (r : Ptr) : outcome store := m ← deallocate (records s) r; Ok (set_records s m).
Definition copy_record (s : store) (src : Ptr) (size : nat) : outcome (loc * store) :=
  let '(r, s) := allocate s size in m ← memcpy (records s) r src size; Ok (r, set_records s m).

Definition set_chain (s : store) (l : loc) (chain : list Version) : outcome store :=
  v ← deref (values s !! l); Ok (set_value s l (mkValue (rwl v) chain)).
Definition load_chain (s : store) (l : loc) : outcome (list Version) := v ← deref (values s !! l); Ok (version v).

Definition gc_version_chain (t : tx) (s : store) (l : loc) : outcome store :=
  chain ← load_chain s l;
  let '(kept, freed) := gc_split (smallest_ts t) chain in
  s ← set_chain s l kept;
  m ← free_versions (records s) freed;
  Ok (set_records s m).

(** A value leaves the tree: its only version is freed, the value retired. *)
Definition delete_from_tree (t : tx) (s : store) (k : Z * Z) (l : loc) : outcome (tx * store) :=
  let s := set_idx s (idx_remove (idx s) k.1 k.2).2 in
  chain ← load_chain s l;
  s ← set_chain s l [];
  v ← deref (head chain);
  s ← free s (rec v);
  Ok (set_gc t (TimestampGC.collect (gc t) (largest_ts t) l), s).

(** What every first access to a row does under its lock: the version to
    read, with its timestamp left on it, and whether it heads the chain;
    [None] when the value was detached or emptied or no version is visible. *)
Definition access_row (t : tx) (s : store) (k : Z * Z) (l : loc) : outcome (option (bool * Version) * tx * store) :=
  '(v, s) ← lock s l;
  if is_detached_from_tree v then s ← unlock s l; Ok (None, t, s)
  else if is_empty v then
    '(t, s) ← delete_from_tree t s k l; s ← unlock s l; Ok (None, t, s)
  else
    let n := get_correct_version (start_ts t) (version v) in
    s ← gc_version_chain t s l;
    match n with
    | None => s ← unlock s l; Ok (None, t, s)
    | Some n =>
        chain ← load_chain s l;
        v ← deref (chain !! n);
        let v := update_readts v (start_ts t) in
        s ← set_chain s l (<[n := v]> chain);
        s ← unlock s l;
        Ok (Some (bool_decide (n = 0%nat), v), t, s)
    end.
(** [Initializer::insert_into_index]: a row loaded before the workers start;
    the result of the insertion is not looked at. *)
Definition insert_into_index (s : store) (table_id key : Z) (r : loc) : store :=
  let l := fresh (dom (values s)) in
  let s := set_value s l (mkValue 0 [mkVersion 0 0 (Some r) false]) in
  set_idx s (idx_insert (idx s) table_id key l).2.

(** ** The operations *)

(** A row that is not in the read/write set is read; [None]: nothing to
    read. *)
Definition read_absent (t : tx) (s : store) (k : Z * Z) (l : loc) : outcome (option Ptr * tx * store) :=
  '(o, t, s) ← access_row t s k l;
  match o with
  | Some (_, v) =>
      if deleted v then Ok (None, t, s)
      else Ok (Some (rec v), observe (emplace t k (mkElem (rec v) None READ false l)) k (write_ts v) (rec v), s)
  | None => Ok (None, t, s)
  end.

Definition read (t : tx) (s : store) (table_id key : Z) : outcome (Ptr * tx * store) :=
  let t := add_table t table_id in
  match find t (table_id, key) with
  | None =>
      match idx_find (idx s) table_id key with
      | (NOT_FOUND, _) => Ok (None, t, s)
      | (_, l) =>
          l ← deref l;
          '(r, t, s) ← read_absent t s (table_id, key) l;
          Ok (default None r, t, s)
      end
  | Some e =>
      match rwt e with
      | READ => Ok (read_rec e, t, s)
      | UPDATE | INSERT => Ok (write_rec e, t, s)
      | DELETE => Ok (None, t, s)
      end
  end.

(** A new record over a deleted version. *)
Definition insert_over (t : tx) (s : store) (k : Z * Z) (l : loc) (record_size : nat) : Ptr * tx * store :=
  let '(r, s) := allocate s record_size in
  (Some r, push_write (emplace t k (mkElem None (Some r) INSERT false l)) k, s).

(** A new value with one version, not yet in the index. *)
Definition insert_new (t : tx) (s : store) (k : Z * Z) (record_size : nat) : Ptr * tx * store :=
  let new_val := fresh (dom (values s)) in
  let '(r, s) := allocate s record_size in
  let s := set_value s new_val (mkValue 0 [mkVersion (start_ts t) (start_ts t) (Some r) false]) in
  (Some r, push_write (emplace t k (mkElem None (Some r) INSERT true new_val)) k, s).

(** A deleted entry becomes an update of the record it has. *)
Definition revive (t : tx) (s : store) (k : Z * Z) (e : ReadWriteElement) : Ptr * tx * store :=
  (write_rec e, put t k (mkElem (read_rec e) (write_rec e) UPDATE (is_new e) (val e)), s).

Definition insert (t : tx) (s : store) (table_id key : Z) : outcome (Ptr * tx * store) :=
  record_size ← get_record_size schema table_id;
  let t := add_table t table_id in
  match find t (table_id, key) with
  | None =>
      match idx_find (idx s) table_id key with
      | (OK, l) =>
          l ← deref l;
          '(o, t, s) ← access_row t s (table_id, key) l;
          match o with
          | Some (is_head, v) =>
              if negb (is_head && deleted v) then Ok (None, t, s)
              else Ok (insert_over t s (table_id, key) l record_size)
          | None => Ok (None, t, s)
          end
      | _ => Ok (insert_new t s (table_id, key) record_size)
      end
  | Some e =>
      match rwt e with
      | READ | UPDATE | INSERT => Ok (None, t, s)
      | DELETE => Ok (revive t s (table_id, key) e)
      end
  end.

(** The version read is copied into a local record. *)
Definition copy_version (t : tx) (s : store) (k : Z * Z) (l : loc) (v : Version) (record_size : nat) :
    outcome (Ptr * tx * store) :=
  '(r, s) ← copy_record s (rec v) record_size;
  let t := emplace t k (mkElem (rec v) (Some r) UPDATE false l) in
  Ok (Some r, push_write (observe t k (write_ts v) (rec v)) k, s).

Definition update_absent (t : tx) (s : store) (k : Z * Z) (l : loc) (record_size : nat) :
    outcome (option Ptr * tx * store) :=
  '(o, t, s) ← access_row t s k l;
  match o with
  | Some (_, v) =>
      if deleted v then Ok (None, t, s)
      else '(r, t, s) ← copy_version t s k l v record_size; Ok (Some r, t, s)
  | None => Ok (None, t, s)
  end.

(** A row that was read: the record read is copied. *)
Definition update_read (t : tx) (s : store) (k : Z * Z) (e : ReadWriteElement) (record_size : nat) :
    outcome (Ptr * tx * store) :=
  '(r, s) ← copy_record s (read_rec e) record_size;
  Ok (Some r, push_write (put t k (mkElem (read_rec e) (Some r) UPDATE (is_new e) (val e))) k, s).

Definition update (t : tx) (s : store) (table_id key : Z) : outcome (Ptr * tx * store) :=
  record_size ← get_record_size schema table_id;
  let t := add_table t table_id in
  match find t (table_id, key) with
  | None =>
      match idx_find (idx s) table_id key with
      | (NOT_FOUND, _) => Ok (None, t, s)
      | (_, l) =>
          l ← deref l;
          '(r, t, s) ← update_absent t s (table_id, key) l record_size;
          Ok (default None r, t, s)
      end
  | Some e =>
      match rwt e with
      | READ => update_read t s (table_id, key) e record_size
      | UPDATE | INSERT => Ok (write_rec e, t, s)
      | DELETE => Ok (None, t, s)
      end
  end.

Definition upsert (t : tx) (s : store) (table_id key : Z) : outcome (Ptr * tx * store) :=
  record_size ← get_record_size schema table_id;
  let t := add_table t table_id in
  match find t (table_id, key) with
  | None =>
      match idx_find (idx s) table_id key with
      | (NOT_FOUND, _) => Ok (insert_new t s (table_id, key) record_size)
      | (OK, l) =>
          l ← deref l;
          '(o, t, s) ← access_row t s (table_id, key) l;
          match o with
          | Some (is_head, v) =>
              if is_head && deleted v then Ok (insert_over t s (table_id, key) l record_size)
              else if negb (deleted v) then copy_version t s (table_id, key) l v record_size
              else Ok (None, t, s)
          | None => Ok (None, t, s)
          end
      | _ => Throw "invalid state"
      end
  | Some e =>
      match rwt e with
      | READ => update_read t s (table_id, key) e record_size
      | UPDATE | INSERT => Ok (write_rec e, t, s)
      | DELETE => Ok (revive t s (table_id, key) e)
      end
  end.
Definition write := upsert.

(** *** Scans *)

(** The callbacks run on the transaction, the store and [kr_map]; an
    exception ends the scan. *)
Abbreviation scan_state := (outcome (tx * store * list (Z * Ptr))).

Definition per_node_func (leaf ver : Z) (x : scan_state * bool) : scan_state * bool :=
  ('(t, s, kr_map) ← x.1; Ok (t, set_leaves s (update_ts (leaf_ts s) leaf (start_ts t)), kr_map), x.2).

(** [row] is what a callback does with one row: [None] when it returns
    early. *)
Definition per_kv_func (row : tx → store → Z → loc → outcome (option Ptr * tx * store)) (count : Z)
    (key : Z) (l : loc) (x : scan_state * bool) : scan_state * bool :=
  match x.1 with
  | Ok (t, s, kr_map) =>
      match row t s key l with
      | Ok (Some r, t, s) =>
          let kr_map := MasstreeIndexes.map_emplace key r kr_map in
          (Ok (t, s, kr_map), if negb (count =? -1) && (count <=? Z.of_nat (length kr_map)) then false else x.2)
      | Ok (None, t, s) => (Ok (t, s, kr_map), x.2)
      | Throw w => (Throw w, x.2)
      | Stuck => (Stuck, x.2)
      | Wait => (Wait, x.2)
      end
  | _ => x
  end.

Definition scan_rows (row : tx → store → Z → loc → outcome (option Ptr * tx * store)) (t : tx) (s : store)
    (table_id lkey rkey count : Z) (rev : bool) (kr_map : list (Z * Ptr)) :
    outcome (bool * list (Z * Ptr) * tx * store) :=
  let '(res, x) :=
    if rev then idx_get_kv_in_rev_range_with (idx s) table_id lkey rkey per_node_func (per_kv_func row count) (Ok (t, s, kr_map))
    else idx_get_kv_in_range_with (idx s) table_id lkey rkey per_node_func (per_kv_func row count) (Ok (t, s, kr_map)) in
  '(t, s, kr_map) ← x;
  _ ← assert_ (bool_decide (res = OK));
  Ok (true, kr_map, t, s).

Definition read_row (table_id : Z) (t : tx) (s : store) (key : Z) (l : loc) : outcome (option Ptr * tx * store) :=
  match find t (table_id, key) with
  | None => read_absent t s (table_id, key) l
  | Some e =>
      match rwt e with
      | READ => Ok (Some (read_rec e), t, s)
      | UPDATE | INSERT => Ok (Some (write_rec e), t, s)
      | DELETE => Throw "deleted value"
      end
  end.

Definition read_scan (t : tx) (s : store) (table_id lkey rkey count : Z) (rev : bool) (kr_map : list (Z * Ptr)) :
    outcome (bool * list (Z * Ptr) * tx * store) :=
  scan_rows (read_row table_id) (add_table t table_id) s table_id lkey rkey count rev kr_map.

Definition update_row (table_id : Z) (record_size : nat) (t : tx) (s : store) (key : Z) (l : loc) :
    outcome (option Ptr * tx * store) :=
  match find t (table_id, key) with
  | None => update_absent t s (table_id, key) l record_size
  | Some e =>
      match rwt e with
      | READ => '(r, t, s) ← update_read t s (table_id, key) e record_size; Ok (Some r, t, s)
      | UPDATE | INSERT => Ok (Some (write_rec e), t, s)
      | DELETE => Throw "deleted value"
      end
  end.

Definition update_scan (t : tx) (s : store) (table_id lkey rkey count : Z) (rev : bool) (kr_map : list (Z * Ptr)) :
    outcome (bool * list (Z * Ptr) * tx * store) :=
  record_size ← get_record_size schema table_id;
  scan_rows (update_row table_id record_size) (add_table t table_id) s table_id lkey rkey count rev kr_map.

Definition remove (t : tx) (s : store) (table_id key : Z) : outcome (Ptr * tx * store) :=
  let t := add_table t table_id in
  let k := (table_id, key) in
  match find t k with
  | None =>
      match idx_find (idx s) table_id key with
      | (NOT_FOUND, _) => Ok (None, t, s)
      | (_, l) =>
          l ← deref l;
          '(o, t, s) ← access_row t s k l;
          match o with
          | Some (_, v) =>
              if deleted v then Ok (None, t, s)
              else
                let t := emplace t k (mkElem (rec v) None DELETE false l) in
                Ok (rec v, push_write (observe t k (write_ts v) (rec v)) k, s)
          | None => Ok (None, t, s)
          end
      end
  | Some e =>
      match rwt e with
      | READ => Ok (read_rec e, push_write (put t k (mkElem (read_rec e) (write_rec e) DELETE (is_new e) (val e))) k, s)
      | UPDATE =>
          _ ← assert_ (bool_decide (read_rec e ≠ None));
          s ← free s (write_rec e);
          Ok (read_rec e, put t k (mkElem (read_rec e) None UPDATE (is_new e) (val e)), s)
      | INSERT =>
          _ ← assert_ (bool_decide (read_rec e = None));
          s ← free s (write_rec e);
          Ok (None, set_rws t (delete k (rws t)), s)
      | DELETE => Throw "invalid state"
      end
  end.

(** ** Commit and abort *)

(** The tables in the order of [std::set], and the write set in the order
    the loops visit it. *)
Definition table_order (t : tx) : list Z := merge_sort Z.le (elements (tables t)).
Definition table_writes (t : tx) (table_id : Z) : list (Z * (Z * nat)) := pair table_id <$> w_table t table_id.
Definition write_order (t : tx) : list (Z * (Z * nat)) := table_order t ≫= table_writes t.

(** [std::sort] of one table's write set. *)
Definition sort_writes (t : tx) (table_id : Z) : tx :=
  set_ws t (<[table_id := merge_sort key_order (w_table t table_id)]> (ws t)).

(** The entries of a loop that ends at a key. *)
Fixpoint until (end_ : Z * Z) (end_exclusive : bool) (order : list (Z * (Z * nat))) : list (Z * (Z * nat)) :=
  match order with
  | [] => []
  | x :: order =>
      if decide ((x.1, x.2.1) = end_) then if end_exclusive then [] else [x] else x :: until end_ end_exclusive order
  end.

Fixpoint unlock_entries (t : tx) (s : store) (order : list (Z * (Z * nat))) : outcome store :=
  match order with
  | [] => Ok s
  | (table_id, it) :: order => e ← deref_iter t table_id it; s ← unlock s (val e); unlock_entries t s order
  end.
Definition unlock_writeset (t : tx) (s : store) (end_ : Z * Z) (end_exclusive : bool) : outcome store :=
  unlock_entries t s (until end_ end_exclusive (write_order t)).

(** A value inserted by this commit leaves the tree again. *)
Definition remove_inserted (t : tx) (s : store) (k : Z * Z) (e : ReadWriteElement) : outcome (tx * store) :=
  if decide (rwt e = INSERT ∧ is_new e = true) then delete_from_tree t s k (val e) else Ok (t, s).

Fixpoint remove_entries (t : tx) (s : store) (order : list (Z * (Z * nat))) : outcome (tx * store) :=
  match order with
  | [] => Ok (t, s)
  | (table_id, it) :: order =>
      e ← deref_iter t table_id it;
      '(t, s) ← remove_inserted t s (table_id, it.1) e;
      remove_entries t s order
  end.
Definition remove_already_inserted (t : tx) (s : store) (end_ : Z * Z) (end_exclusive : bool) : outcome (tx * store) :=
  remove_entries t s (until end_ end_exclusive (write_order t)).

(** The checks of one entry once its value is locked: [None] when they pass,
    otherwise the last argument of [remove_already_inserted]. *)
Definition check_entry (t : tx) (s : store) (k : Z * Z) (e : ReadWriteElement) (v : Value) :
    outcome (option bool * store) :=
  match version v with
  | [] => Ok (Some true, s)
  | h :: _ =>
      match rwt e, is_new e with
      | INSERT, true =>
          let '(res, ni, i) := idx_insert_with_nodeinfo (idx s) k.1 k.2 (val e) MasstreeWrapper.no_node_info in
          let s := set_idx s i in
          match res with
          | NOT_INSERTED => Ok (Some true, s)
          | OK =>
              leaf ← deref (MasstreeWrapper.node ni);
              Ok (if start_ts t <? get_ts (leaf_ts s) leaf then Some false else None, s)
          | _ => Ok (None, s)
          end
      | INSERT, false =>
          Ok (if (start_ts t <? read_ts h) || (start_ts t <? write_ts h) || negb (deleted h) then Some true else None, s)
      | UPDATE, _ | DELETE, _ =>
          Ok (if (start_ts t <? read_ts h) || (start_ts t <? write_ts h) || deleted h then Some true else None, s)
      | READ, _ => Ok (None, s)
      end
  end.

Fixpoint lock_entries (t : tx) (s : store) (table_id : Z) (its : list (Z * nat)) : outcome (bool * tx * store) :=
  match its with
  | [] => Ok (true, t, s)
  | it :: its =>
      e ← deref_iter t table_id it;
      let k := (table_id, it.1) in
      '(v, s) ← lock s (val e);
      '(failed, s) ← check_entry t s k e v;
      match failed with
      | None => lock_entries t s table_id its
      | Some end_exclusive =>
          '(t, s) ← remove_already_inserted t s k end_exclusive;
          s ← unlock_writeset t s k false;
          Ok (false, t, s)
      end
  end.

Fixpoint lock_tables (t : tx) (s : store) (order : list Z) : outcome (bool * tx * store) :=
  match order with
  | [] => Ok (true, t, s)
  | table_id :: order =>
      let t := sort_writes t table_id in
      '(ok, t, s) ← lock_entries t s table_id (w_table t table_id);
      if ok : bool then lock_tables t s order else Ok (false, t, s)
  end.

(** A new version on the chain, unless the value itself is new. *)
Definition apply_entry (t : tx) (s : store) (e : ReadWriteElement) : outcome store :=
  chain ← load_chain s (val e);
  s ← (if is_new e then Ok s
       else set_chain s (val e) (mkVersion (start_ts t) (start_ts t) (write_rec e) (bool_decide (rwt e = DELETE)) :: chain));
  s ← gc_version_chain t s (val e);
  unlock s (val e).
Fixpoint apply_entries (t : tx) (s : store) (order : list (Z * (Z * nat))) : outcome store :=
  match order with
  | [] => Ok s
  | (table_id, it) :: order => e ← deref_iter t table_id it; s ← apply_entry t s e; apply_entries t s order
  end.

Definition precommit (t : tx) (s : store) : outcome (bool * tx * store) :=
  '(ok, t, s) ← lock_tables t s (table_order t);
  if ok : bool then s ← apply_entries t s (write_order t); Ok (true, t, s) else Ok (false, t, s).

(** What [abort] frees for one entry. *)
Definition abort_entry (s : store) (e : ReadWriteElement) : outcome store :=
  if decide (rwt e = INSERT ∧ is_new e = true) then
    chain ← load_chain s (val e);
    match chain with
    | [] => Ok s
    | v :: _ =>
        s ← free s (rec v);
        Ok (mkStore (delete (val e) (values s)) (records s) (idx s) (leaf_ts s))
    end
  else free s (write_rec e).
Fixpoint abort_entries (t : tx) (s : store) (order : list (Z * (Z * nat))) : outcome store :=
  match order with
  | [] => Ok s
  | (table_id, it) :: order => e ← deref_iter t table_id it; s ← abort_entry s e; abort_entries t s order
  end.
Definition abort (t : tx) (s : store) : outcome (tx * store) :=
  s ← abort_entries t s (write_order t);
  Ok (mkTx (start_ts t) (smallest_ts t) (largest_ts t) ∅ ∅ (nodes t) ∅ (gc t) ∅, s).

(** The destructor: [GarbageCollector::remove] frees retired values. *)
Definition destroy (t : tx) (s : store) : outcome (TimestampGC.t * store) :=
  let '(freed, g) := TimestampGC.remove (gc t) (smallest_ts t) (largest_ts t) in
  values ← foldl (λ m p, m ← m; match m !! p.2 with Some _ => Ok (delete p.2 m) | None => Stuck end) (Ok (values s)) freed;
  Ok (g, mkStore values (records s) (idx s) (leaf_ts s)).
End protocol.
End Mvto.
