(* ===== verification/MvtoInv.v ===== *)
(** * The invariant of MVTO

    The specification is a store of versions: for every key the versions
    that were committed, newest first, each with its timestamp and its bytes
    (none for a deletion).  The chains in memory hold a prefix of it; what
    was dropped is older than every running transaction.  Ghost state says
    who owns what: [vown] the values (in the tree under a key, private to a
    transaction, being inserted by a commit, or retired), [rown] the records,
    [hold] the values that are locked; [log] lists the reads. *)
From S2P Require Import Prelude Versions RWLock Timestamp Index Memory Mvto.

#[export] Existing Instance scan_index.
#[export] Existing Instance scan_index_laws.

(** ** The version store *)

(** A version: its timestamp and the bytes of the row, [None] when it was
    deleted. *)
Abbreviation history := (list (Z * option Memory.block)).

(** The latest version written before [ts]. *)
Fixpoint version_before (ts : Z) (h : history) : option (Z * option Memory.block) :=
  match h with
  | [] => None
  | x :: h => if x.1 <? ts then Some x else version_before ts h
  end.

(** The row as of [ts]. *)
Definition row_before (ts : Z) (h : history) : option Memory.block := version_before ts h ≫= snd.

(** Newest first. *)
Abbreviation newest_first := (StronglySorted (λ a b : Z * option Memory.block, b.1 < a.1)).

Section histories.
Implicit Types (h kept old : history) (ts w : Z).

Lemma before_elem ts h x : version_before ts h = Some x → x ∈ h ∧ x.1 < ts.
Proof.
  induction h as [|y h IH]; [done|]. simpl. destruct (Z.ltb_spec y.1 ts).
  - intros [= <-]. split; [left|done].
  - intros [??]%IH. split; [by right|done].
Qed.

Lemma before_app ts kept old : (∀ x, x ∈ kept → ts ≤ x.1) → version_before ts (kept ++ old) = version_before ts old.
Proof.
  induction kept as [|y kept IH]; [done|]. intros Hk. simpl. destruct (Z.ltb_spec y.1 ts).
  - specialize (Hk y ltac:(left)). lia.
  - apply IH. intros x Hx. apply Hk. by right.
Qed.

Lemma before_app_l ts kept old x : version_before ts kept = Some x → version_before ts (kept ++ old) = Some x.
Proof. induction kept as [|y kept IH]; [done|]. simpl. destruct (y.1 <? ts); [done|apply IH]. Qed.

Lemma before_none ts h : version_before ts h = None → ∀ x, x ∈ h → ts ≤ x.1.
Proof.
  induction h as [|y h IH]; [intros _ x Hx; by apply not_elem_of_nil in Hx|]. simpl. destruct (Z.ltb_spec y.1 ts); [done|].
  intros Hh x [->|Hx]%elem_of_cons; [done|by apply IH].
Qed.

(** In a sorted history nothing lies between the version found and [ts]. *)
Lemma before_gap ts h x y : newest_first h → version_before ts h = Some x → y ∈ h → y.1 ≤ x.1 ∨ ts ≤ y.1.
Proof.
  induction 1 as [|z h Hs IH Hz]; [done|]. simpl. rewrite Forall_forall in Hz. destruct (Z.ltb_spec z.1 ts).
  - intros [= <-] [->|Hy]%elem_of_cons; [by left|]. apply Hz in Hy. lia.
  - intros Hx [->|Hy]%elem_of_cons; [by right|by apply IH].
Qed.

Lemma newest_app kept old : newest_first (kept ++ old) → newest_first kept ∧ newest_first old ∧
  ∀ x y, x ∈ kept → y ∈ old → y.1 < x.1.
Proof.
  induction kept as [|z kept IH]; simpl; [intros; split_and!; [constructor|done|by intros ??[]%not_elem_of_nil]|].
  intros [Hs Hz]%StronglySorted_inv. destruct (IH Hs) as (H1 & H2 & H3). rewrite Forall_app, !Forall_forall in Hz.
  destruct Hz as [Hz1 Hz2]. split_and!; [|done|].
  - constructor; [done|]. by rewrite Forall_forall.
  - intros x y [->|Hx]%elem_of_cons Hy; [by apply Hz2|by apply H3].
Qed.

Lemma newest_unique h w o o' : newest_first h → (w, o) ∈ h → (w, o') ∈ h → o = o'.
Proof.
  induction 1 as [|z h Hs IH Hz]; [by intros []%not_elem_of_nil|]. rewrite Forall_forall in Hz.
  intros [Heq|H1]%elem_of_cons [Heq'|H2]%elem_of_cons; subst; simplify_eq; [done|..|by apply IH].
  - apply Hz in H2. simpl in H2. lia.
  - apply Hz in H1. simpl in H1. lia.
Qed.

(** A version pushed at or after [ts] does not change what was before. *)
Lemma before_push ts w o h : ts ≤ w → version_before ts ((w, o) :: h) = version_before ts h.
Proof. intros. simpl. destruct (Z.ltb_spec w ts); [lia|done]. Qed.
End histories.

(** ** Ownership and the invariant *)

Inductive vowner := Live (k : Z * Z) | Private (i : nat) (k : Z * Z) | Pending (i : nat) (k : Z * Z) | Dead (i : nat) (k : Z * Z).
Inductive rowner := Committed (k : Z * Z) (w : Z) | Local (i : nat) (k : Z * Z) | Unborn (l : loc).

(** One read: the reader's timestamp, the key, the version's timestamp and
    its bytes. *)
Abbreviation event := (Z * (Z * Z) * Z * Memory.block)%type.

Record ghost := mkGhost {
  hist : gmap (Z * Z) history; log : list event; low : Z;
  vown : gmap loc vowner; rown : gmap loc rowner; hold : gset loc
}.

(** A worker between transactions keeps its maps of retired values. *)
Inductive worker `{ScanIndex loc} := Idle (g : TimestampGC.t) | Running (t : Mvto.tx).

Section mvto_invariant.
Import Memory Mvto.
Context `{HI : ScanIndex loc} `{HL : !ScanIndexLaws loc} `{HT : LeafTimestamps} (schema : gmap Z nat).
Implicit Types (s : store) (t : tx) (k : Z * Z) (l r : loc) (e : ReadWriteElement) (v : Version) (g : ghost) (i j : nat).

Definition versions g k : history := default [] (hist g !! k).

(** A key that is not in the tree: never written, or deleted before every
    running transaction. *)
Definition tomb (low_ : Z) (h : history) : Prop :=
  match h with [] => True | x :: _ => x.2 = None ∧ x.1 ≤ low_ end.

(** Where a chain ends: at a version every running transaction may read, or
    at the insertion. *)
Definition ends_at (low_ : Z) (kept old : history) : Prop :=
  ∃ front x, kept = front ++ [x] ∧ (x.1 ≤ low_ ∨ (x.2 ≠ None ∧ tomb low_ old)).

Definition ver_ok g s k v (x : Z * option block) : Prop :=
  write_ts v = x.1 ∧ x.1 ≤ read_ts v ∧
  match x.2 with
  | Some b => deleted v = false ∧ schema !! k.1 = Some (length b) ∧
      ∃ r, rec v = Some r ∧ rown g !! r = Some (Committed k x.1) ∧ records s !! r = Some b
  | None => deleted v = true ∧ rec v = None
  end.

Definition chain_ok g s k (c : list Version) : Prop :=
  ∃ kept old, versions g k = kept ++ old ∧ Forall2 (ver_ok g s k) c kept ∧ ends_at (low g) kept old.

Definition local g s i k (p : Ptr) : Prop :=
  ∃ r b, p = Some r ∧ rown g !! r = Some (Local i k) ∧ records s !! r = Some b ∧ schema !! k.1 = Some (length b).

(** The chain of a value that is not committed yet. *)
Definition unborn g s l k (c : list Version) : Prop :=
  ∃ ts r b, c = [mkVersion ts ts (Some r) false] ∧ rown g !! r = Some (Unborn l) ∧ records s !! r = Some b ∧
  schema !! k.1 = Some (length b).

Definition owner_ok g s l (o : vowner) (c : list Version) : Prop :=
  match o with
  | Live k => word64 k.2 ∧ chain_ok g s k c
  | Private i k | Pending i k => unborn g s l k c
  | Dead _ _ => c = []
  end.

Definition in_tree (o : vowner) k : Prop := o = Live k ∨ ∃ i, o = Pending i k.

(** The version read is still the one before the reader, and the head of the
    chain knows the reader. *)
Definition event_ok g s (x : event) : Prop :=
  let '(ts, k, w, b) := x in
  version_before ts (versions g k) = Some (w, Some b) ∧
  ∀ l v c, vown g !! l = Some (Live k) → version <$> values s !! l = Some (v :: c) → ts ≤ read_ts v.

Record store_ok g s : Prop := {
  so_index : index_ok (idx s);
  so_tree : ∀ k l, word64 k.2 → idx_at (idx s) k.1 k.2 = Some l ↔ ∃ o, vown g !! l = Some o ∧ in_tree o k;
  so_value : ∀ l o, vown g !! l = Some o → ∃ c, values s !! l = Some c ∧
    rwl c = (if decide (l ∈ hold g) then -1 else 0) ∧ owner_ok g s l o (version c);
  so_owned : ∀ l, is_Some (values s !! l) → is_Some (vown g !! l);
  so_rec : ∀ r, is_Some (rown g !! r) → is_Some (records s !! r);
  so_sorted : ∀ k, newest_first (versions g k);
  so_absent : ∀ k, (∀ l, vown g !! l ≠ Some (Live k)) → tomb (low g) (versions g k);
  so_log : ∀ x, x ∈ log g → event_ok g s x
}.

(** ** Transactions *)

Definition seen_ok g s t k (w : Z) (p : Ptr) : Prop :=
  ∃ r b l, p = Some r ∧ (start_ts t, k, w, b) ∈ log g ∧ rown g !! r = Some (Committed k w) ∧
  records s !! r = Some b ∧ schema !! k.1 = Some (length b) ∧ vown g !! l = Some (Live k).

(** [u]: the transaction is being undone, the values it inserted may have
    been retired. *)
Definition elem_ok (u : bool) g s i t k e : Prop :=
  match rwt e with
  | INSERT => read_rec e = None ∧
      if is_new e then
        ((vown g !! val e = Some (Private i k) ∨ vown g !! val e = Some (Pending i k)) ∧
         version <$> values s !! val e = Some [mkVersion (start_ts t) (start_ts t) (write_rec e) false])
        ∨ (u = true ∧ vown g !! val e = Some (Dead i k))
      else local g s i k (write_rec e) ∧ (vown g !! val e = Some (Live k) ∨ ∃ j, vown g !! val e = Some (Dead j k))
  | _ => is_new e = false ∧ vown g !! val e = Some (Live k) ∧ (∃ w, observed t !! k = Some (w, read_rec e)) ∧
      if decide (rwt e = UPDATE) then local g s i k (write_rec e) else write_rec e = None
  end.

(** The iterators of the write set point to the entries that are written. *)
Record writes_ok t : Prop := {
  wo_iter : ∀ table_id it, it ∈ w_table t table_id →
    ∃ e, rws t !! (table_id, it.1) = Some (it.2, e) ∧ rwt e ≠ READ;
  wo_nodup : ∀ table_id, NoDup (w_table t table_id).*1;
  wo_table : ∀ k, is_Some (rws t !! k) → word64 k.2 ∧ k.1 ∈ tables t
}.

Record tx_ok (u : bool) g s i t : Prop := {
  to_low : smallest_ts t ≤ low g ≤ start_ts t;
  to_fresh : ∀ k x, x ∈ versions g k → x.1 ≠ start_ts t;
  to_elem : ∀ k e, find t k = Some e → elem_ok u g s i t k e;
  to_seen : ∀ k w p, observed t !! k = Some (w, p) → seen_ok g s t k w p;
  to_writes : writes_ok t
}.

(** The retired values of a worker. *)
Definition gc_ok g i (c : TimestampGC.t) : Prop :=
  NoDup (retired c) ∧ ∀ l, l ∈ retired c → ∃ k, vown g !! l = Some (Dead i k).

Definition worker_gc (w : worker) : TimestampGC.t := match w with Idle c => c | Running t => gc t end.
Definition running (w : worker) : option tx := match w with Idle _ => None | Running t => Some t end.

(** ** What a transaction tolerates from the others *)

(** A version that a running transaction has read ([c]: a timestamp that is
    ending). *)
Definition protected (c : option Z) g k (w : Z) : Prop :=
  ∃ ts b, (ts, k, w, b) ∈ log g ∧ low g ≤ ts ∧ (∀ x, x ∈ versions g k → x.1 ≠ ts) ∧ c ≠ Some ts.

Record frame (oi : option nat) (c : option Z) g s g' s' : Prop := {
  fr_low : low g' = low g;
  fr_log : ∀ x, x ∈ log g → x ∈ log g';
  fr_hist : ∀ k x, x ∈ versions g' k → x ∈ versions g k ∨ c = Some x.1;
  fr_local : ∀ r j k, oi ≠ Some j → rown g !! r = Some (Local j k) → rown g' !! r = Some (Local j k) ∧ records s' !! r = records s !! r;
  fr_seen : ∀ r k w, protected c g k w → rown g !! r = Some (Committed k w) →
    rown g' !! r = Some (Committed k w) ∧ records s' !! r = records s !! r;
  fr_live : ∀ l k w, protected c g k w → vown g !! l = Some (Live k) → vown g' !! l = Some (Live k);
  fr_new : ∀ l j k, oi ≠ Some j → vown g !! l = Some (Private j k) ∨ vown g !! l = Some (Pending j k) →
    vown g' !! l = vown g !! l ∧ version <$> values s' !! l = version <$> values s !! l;
  fr_old : ∀ l k, vown g !! l = Some (Live k) → vown g' !! l = Some (Live k) ∨ ∃ j, vown g' !! l = Some (Dead j k);
  fr_dead : ∀ l j k, vown g !! l = Some (Dead j k) → vown g' !! l = Some (Dead j k)
}.

Lemma protected_mono oi c g s g' s' k w : frame oi c g s g' s' → protected c g k w → protected c g' k w.
Proof.
  intros F (ts & b & Hin & Hlow & Hts & Hc). exists ts, b. split_and!; [by apply F|by rewrite (fr_low _ _ _ _ _ _ F)| |done].
  intros x [Hx|Hx]%(fr_hist _ _ _ _ _ _ F); [by apply Hts|]. congruence.
Qed.

Lemma mv_frame_refl oi c g s : frame oi c g s g s.
Proof. split; eauto. Qed.

Lemma mv_frame_trans oi c g1 s1 g2 s2 g3 s3 : frame oi c g1 s1 g2 s2 → frame oi c g2 s2 g3 s3 → frame oi c g1 s1 g3 s3.
Proof.
  intros F1 F2. split.
  - rewrite (fr_low _ _ _ _ _ _ F2). apply F1.
  - intros. by apply F2, F1.
  - intros k x [Hx|Hx]%(fr_hist _ _ _ _ _ _ F2); [by apply F1|by right].
  - intros r j k Hj [H1 H2]%(fr_local _ _ _ _ _ _ F1); [|done]. destruct (fr_local _ _ _ _ _ _ F2 r j k Hj H1). by split; [|congruence].
  - intros r k w Hp [H1 H2]%(fr_seen _ _ _ _ _ _ F1); [|done].
    destruct (fr_seen _ _ _ _ _ _ F2 r k w (protected_mono _ _ _ _ _ _ _ _ F1 Hp) H1). by split; [|congruence].
  - intros l k w Hp Hl. eapply (fr_live _ _ _ _ _ _ F2); [by eapply protected_mono|]. by eapply F1.
  - intros l j k Hj Hl. destruct (fr_new _ _ _ _ _ _ F1 l j k Hj Hl) as [H1 H2].
    destruct (fr_new _ _ _ _ _ _ F2 l j k Hj) as [H3 H4]; [by rewrite H1|]. by split; congruence.
  - intros l k [Hl|[j Hl]]%(fr_old _ _ _ _ _ _ F1); [by apply F2|]. right. exists j. by apply F2.
  - intros l j k Hl%(fr_dead _ _ _ _ _ _ F1). by apply F2.
Qed.

Lemma frame_weaken oi c g s g' s' : frame None None g s g' s' → frame oi c g s g' s'.
Proof.
  intros F. assert (∀ k w, protected c g k w → protected None g k w) as Hp by (intros k w (ts & b & ? & ? & ? & _); by exists ts, b).
  destruct F as [H1 H2 H3 H4 H5 H6 H7 H8 H9]. split; eauto. intros k x [?|?]%H3; [by left|done].
Qed.

(** Every other transaction keeps its part of the invariant. *)
Lemma local_frame oi c g s g' s' j k p : frame oi c g s g' s' → oi ≠ Some j → local g s j k p → local g' s' j k p.
Proof.
  intros F Hj (r & b & -> & Hr & Hb & Hlen). destruct (fr_local _ _ _ _ _ _ F r j k Hj Hr) as [? Heq].
  exists r, b. by rewrite Heq.
Qed.

Lemma seen_protected u c g s j t k w p : c ≠ Some (start_ts t) → tx_ok u g s j t → observed t !! k = Some (w, p) → protected c g k w.
Proof.
  intros Hc Ht Ho. destruct (to_seen _ _ _ _ _ Ht k w p Ho) as (r & b & l & -> & Hin & _). exists (start_ts t), b.
  split_and!; [done|by apply Ht| |done]. intros x. by apply Ht.
Qed.

Lemma tx_frame u oi c g s g' s' j t : frame oi c g s g' s' → oi ≠ Some j → c ≠ Some (start_ts t) → tx_ok u g s j t → tx_ok u g' s' j t.
Proof.
  intros F Hj Hc Ht. pose proof (λ k w p, seen_protected u c g s j t k w p Hc Ht) as Hprot. split.
  - rewrite (fr_low _ _ _ _ _ _ F). apply Ht.
  - intros k x [Hx|Hx]%(fr_hist _ _ _ _ _ _ F); [by eapply Ht|congruence].
  - intros k e He. pose proof (to_elem _ _ _ _ _ Ht k e He) as Hok. unfold elem_ok in *.
    assert (rwt e ≠ INSERT → is_new e = false ∧ vown g !! val e = Some (Live k) ∧ (∃ w, observed t !! k = Some (w, read_rec e)) ∧
      (if decide (rwt e = UPDATE) then local g s j k (write_rec e) else write_rec e = None) →
      is_new e = false ∧ vown g' !! val e = Some (Live k) ∧ (∃ w, observed t !! k = Some (w, read_rec e)) ∧
      (if decide (rwt e = UPDATE) then local g' s' j k (write_rec e) else write_rec e = None)) as Hold.
    { intros _ (Hn & Hl & [w Hw] & Hr). split_and!; [done| |by exists w|].
      - eapply (fr_live _ _ _ _ _ _ F); [by eapply Hprot|done].
      - case_decide; [by eapply local_frame|done]. }
    destruct (rwt e) eqn:Hrwt; try (by apply Hold); clear Hold. destruct Hok as [Hrr Hok]. split; [done|].
    destruct (is_new e).
    + destruct Hok as [[Hv Hc']|[Hu Hv]]; [left|right; split; [done|by apply F]].
      destruct (fr_new _ _ _ _ _ _ F (val e) j k Hj Hv) as [H1 H2]. by rewrite H1, H2.
    + destruct Hok as [Hr [Hv|[j' Hv]]]; (split; [by eapply local_frame|]); [by apply F|]. right. exists j'. by apply F.
  - intros k w p Ho. destruct (to_seen _ _ _ _ _ Ht k w p Ho) as (r & b & l & -> & Hin & Hr & Hb & Hlen & Hl).
    destruct (fr_seen _ _ _ _ _ _ F r k w (Hprot _ _ _ Ho) Hr) as [H1 H2].
    exists r, b, l. rewrite H2. split_and!; [done|by apply F|done..|]. eapply (fr_live _ _ _ _ _ _ F); [by eapply Hprot|done].
  - apply Ht.
Qed.

Lemma gc_frame oi c g s g' s' i x : frame oi c g s g' s' → gc_ok g i x → gc_ok g' i x.
Proof. intros F [Hnd Hd]. split; [done|]. intros l [k Hl]%Hd. exists k. by apply F. Qed.

(** Between calls nothing is locked and no commit is half done. *)
Definition quiet g : Prop := hold g = ∅ ∧ ∀ l i k, vown g !! l ≠ Some (Pending i k).

(** Worker [i] may run a call of its transaction [t]. *)
Record turn (u : bool) g s i t : Prop := {
  tu_store : store_ok g s;
  tu_quiet : quiet g;
  tu_tx : tx_ok u g s i t;
  tu_gc : gc_ok g i (gc t)
}.

Lemma turn_undo g s i t : turn false g s i t → turn true g s i t.
Proof.
  intros [? ? [H1 H2 H3 H4 H5] ?]. split; [done..| |done]. split; [done..| |done|done]. intros k e He. specialize (H3 k e He).
  unfold elem_ok in *. destruct (rwt e); [done..| |done]. destruct H3 as [? H3]. split; [done|]. destruct (is_new e); [|done].
  destruct H3 as [?|[? _]]; [by left|done].
Qed.

(** The ghost state that only commits and reads change. *)
Definition same_spec g g' : Prop := hist g' = hist g ∧ log g' = log g.
End mvto_invariant.
