(* ===== verification/MvtoStore.v ===== *)
(** * What MVTO does to the store

    The changes the calls are made of (a lock taken or released, a read
    timestamp raised, versions dropped, a value detached, records allocated,
    written and freed, values made, inserted and committed), each with the
    ghost state it leads to: the invariant of the store is kept and the other
    transactions are not disturbed. *)
From S2P Require Import Prelude Versions RWLock Timestamp Index Memory Mvto MvtoInv.

Lemma Forall2_impl_elem {A B} (P Q : A → B → Prop) l k : Forall2 P l k → (∀ x y, y ∈ k → P x y → Q x y) → Forall2 Q l k.
Proof.
  induction 1 as [|x y l k Hxy _ IH]; intros Hi; constructor; [apply Hi; [left|done]|].
  apply IH. intros ???. apply Hi. by right.
Qed.

Section mvto_store.
Import Memory Mvto.
Context `{HI : ScanIndex loc} `{HL : !ScanIndexLaws loc} `{HT : LeafTimestamps} (schema : gmap Z nat).
Implicit Types (s : store) (t : tx) (k : Z * Z) (l r : loc) (e : ReadWriteElement) (v : Version) (g : ghost) (i j : nat).

#[local] Abbreviation store_ok := (store_ok schema).
#[local] Abbreviation owner_ok := (owner_ok schema).
#[local] Abbreviation chain_ok := (chain_ok schema).
#[local] Abbreviation ver_ok := (ver_ok schema).

Definition set_hold g (h : gset loc) : ghost := mkGhost (hist g) (log g) (low g) (vown g) (rown g) h.
Definition set_vown g (o : gmap loc vowner) : ghost := mkGhost (hist g) (log g) (low g) o (rown g) (hold g).
Definition set_rown g (o : gmap loc rowner) : ghost := mkGhost (hist g) (log g) (low g) (vown g) o (hold g).
Definition set_log g (x : list event) : ghost := mkGhost (hist g) x (low g) (vown g) (rown g) (hold g).

Lemma live_key g s l k : store_ok g s → vown g !! l = Some (Live k) → word64 k.2.
Proof. intros Hs Hl. destruct (so_value _ _ _ Hs l _ Hl) as (c & _ & _ & Hk & _). done. Qed.

Lemma live_at g s l k : store_ok g s → vown g !! l = Some (Live k) → idx_at (idx s) k.1 k.2 = Some l.
Proof. intros Hs Hl. apply (so_tree _ _ _ Hs); [by eapply live_key|]. eexists. split; [done|by left]. Qed.

Lemma live_unique g s l l' k : store_ok g s → vown g !! l = Some (Live k) → vown g !! l' = Some (Live k) → l = l'.
Proof. intros Hs H1 H2. apply (live_at _ _ _ _ Hs) in H1, H2. congruence. Qed.

Lemma live_chain g s l k : store_ok g s → vown g !! l = Some (Live k) →
  ∃ c, values s !! l = Some c ∧ rwl c = (if decide (l ∈ hold g) then -1 else 0) ∧ chain_ok g s k (version c).
Proof. intros Hs Hl. destruct (so_value _ _ _ Hs l _ Hl) as (c & ? & ? & _ & ?). eauto. Qed.

(** ** A value replaced: locks and read timestamps *)

Definition readers_kept (c c' : list Version) : Prop :=
  ∀ v x, c' = v :: x → ∃ v0 x0, c = v0 :: x0 ∧ read_ts v0 ≤ read_ts v.

Lemma readers_refl c : readers_kept c c.
Proof. intros v x ->. exists v, x. split; [done|lia]. Qed.

Lemma set_value_ok g s l o c c' h : store_ok g s → vown g !! l = Some o → values s !! l = Some c →
  (∀ l', l' ≠ l → l' ∈ h ↔ l' ∈ hold g) → rwl c' = (if decide (l ∈ h) then -1 else 0) →
  owner_ok g s l o (version c') → readers_kept (version c) (version c') →
  store_ok (set_hold g h) (set_value s l c').
Proof.
  intros Hs Ho Hc Hh Hrwl Hok Hread. split; simpl; try apply Hs.
  - intros l' o' Ho'. destruct (decide (l' = l)) as [->|Hne].
    + simplify_eq. exists c'. by rewrite lookup_insert_eq.
    + rewrite lookup_insert_ne by done. destruct (so_value _ _ _ Hs l' o' Ho') as (x & Hx & Hr & Hox). exists x.
      split_and!; [done| |done]. rewrite Hr. by destruct (decide (l' ∈ hold g)), (decide (l' ∈ h)); naive_solver.
  - intros l' Hl'. destruct (decide (l' = l)) as [->|Hne]; [by exists o|]. apply (so_owned _ _ _ Hs). by rewrite lookup_insert_ne in Hl'.
  - intros [[[ts k] w] b] Hin. destruct (so_log _ _ _ Hs _ Hin) as [H1 H2]. split; [done|].
    intros l' v x Hl' Hv. simpl in Hv. destruct (decide (l' = l)) as [->|Hne].
    + rewrite lookup_insert_eq in Hv. injection Hv as Hv. destruct (Hread v x Hv) as (v0 & x0 & Hc0 & Hle).
      etrans; [|exact Hle]. eapply (H2 l v0 x0 Hl'). rewrite Hc. simpl. by rewrite Hc0.
    + rewrite lookup_insert_ne in Hv by done. by eapply H2.
Qed.

Lemma set_value_frame g s l o c c' h : vown g !! l = Some o → values s !! l = Some c →
  ((∀ k, o ≠ Live k) → version c' = version c) → frame None None g s (set_hold g h) (set_value s l c').
Proof.
  intros Ho Hc Hv. split; simpl; eauto. intros l' j k _ Hl'. split; [done|].
  destruct (decide (l' = l)) as [->|Hne]; [|by rewrite lookup_insert_ne]. rewrite lookup_insert_eq, Hc. simpl. f_equal.
  apply Hv. destruct Hl'; naive_solver.
Qed.

(** ** Versions dropped *)

Lemma free_versions_ok m (vs : list Version) : NoDup (omap rec vs) → (∀ r, r ∈ omap rec vs → is_Some (m !! r)) →
  free_versions m vs = Ok (drop_recs m (omap rec vs)).
Proof.
  revert m. induction vs as [|v vs IH]; intros m; [done|]. csimpl. destruct (rec v) as [r|]; [|apply IH].
  intros [Hni Hnd]%NoDup_cons Hin. simpl. destruct (Hin r ltac:(left)) as [b Hb]. rewrite Hb. simpl.
  apply IH; [done|]. intros r' Hr'. rewrite lookup_delete_ne by (by intros ->). apply Hin. by right.
Qed.

(** The records of a stretch of chain. *)
Lemma chain_recs g s k (c : list Version) h r : Forall2 (ver_ok g s k) c h → r ∈ omap rec c →
  ∃ w b, rown g !! r = Some (Committed k w) ∧ records s !! r = Some b ∧ (w, Some b) ∈ h.
Proof.
  induction 1 as [|v [w o] c h (Hw & _ & Ho) _ IH]; csimpl; [by intros ?%not_elem_of_nil|].
  destruct o as [b|]; simpl in *.
  - destruct Ho as (_ & _ & r' & -> & Hr & Hb). intros [->|(w' & b' & ? & ? & ?)%IH]%elem_of_cons.
    + exists w, b. split_and!; [done..|left].
    + exists w', b'. split_and!; [done..|by right].
  - destruct Ho as [_ ->]. intros (w' & b' & ? & ? & ?)%IH. exists w', b'. split_and!; [done..|by right].
Qed.

Lemma chain_recs_nodup g s k (c : list Version) h : newest_first h → Forall2 (ver_ok g s k) c h → NoDup (omap rec c).
Proof.
  intros Hs. induction 1 as [|v [w o] c h (Hw & _ & Ho) Hc IH]; csimpl; [constructor|].
  apply StronglySorted_inv in Hs as [Hs Hall]. rewrite Forall_forall in Hall. destruct o as [b|]; simpl in *.
  - destruct Ho as (_ & _ & r & -> & Hr & _). constructor; [|by apply IH].
    intros (w' & b' & Hr' & _ & Hin)%(chain_recs _ _ _ _ _ _ Hc). apply Hall in Hin. simpl in Hin.
    rewrite Hr in Hr'. injection Hr' as ->. lia.
  - destruct Ho as [_ ->]. by apply IH.
Qed.

Lemma ver_keep g s g' s' k v x : (∀ r, rown g !! r = Some (Committed k x.1) → rown g' !! r = Some (Committed k x.1) ∧ records s' !! r = records s !! r) →
  ver_ok g s k v x → ver_ok g' s' k v x.
Proof.
  intros Hk (Hw & Hr & Ho). split_and!; [done..|]. destruct x.2 as [b|]; [|done].
  destruct Ho as (? & ? & r & ? & Hr' & Hb). destruct (Hk r Hr') as [? Heq]. split_and!; [done..|]. exists r. by rewrite Heq.
Qed.

Lemma unborn_keep g s g' s' l k c : (∀ r, rown g !! r = Some (Unborn l) → rown g' !! r = Some (Unborn l) ∧ records s' !! r = records s !! r) →
  unborn schema g s l k c → unborn schema g' s' l k c.
Proof.
  intros Hk (ts & r & b & -> & Hr & Hb & Hlen). destruct (Hk r Hr) as [? Heq]. exists ts, r, b. by rewrite Heq.
Qed.

(** The chain of another key, whose records are kept. *)
Lemma chain_keep g s g' s' k c : versions g' k = versions g k → low g' = low g →
  (∀ r w, rown g !! r = Some (Committed k w) → rown g' !! r = Some (Committed k w) ∧ records s' !! r = records s !! r) →
  chain_ok g s k c → chain_ok g' s' k c.
Proof.
  intros Hh Hl Hk (kept & old & Hv & Hc & He). exists kept, old. rewrite Hh, Hl. split_and!; [done| |done].
  eapply Forall2_impl; [done|]. intros v x. apply ver_keep. eauto.
Qed.

(** The rest of the store when the records [D] of versions of [k] go. *)
Section dropping.
Context (g : ghost) (s : store) (k : Z * Z) (D : list loc) (Hs : store_ok g s)
  (HD : ∀ r, r ∈ D → ∃ w, rown g !! r = Some (Committed k w)).

Definition drop_ghost : ghost := set_rown g (drop_recs (rown g) D).

Lemma drop_keep r o : rown g !! r = Some o → r ∉ D →
  rown drop_ghost !! r = Some o ∧ drop_recs (records s) D !! r = records s !! r.
Proof. intros Hr Hni. simpl. rewrite !lookup_drop_recs. by rewrite !decide_False. Qed.

Lemma drop_other l o c : vown g !! l = Some o → (∀ k', o = Live k' → k' ≠ k) → owner_ok g s l o c →
  owner_ok drop_ghost (set_records s (drop_recs (records s) D)) l o c.
Proof.
  intros _ Hne. destruct o as [k'|i k'|i k'|i k']; simpl; [|..|done].
  - intros [? Hc]. split; [done|]. eapply (chain_keep g s); [done..| |exact Hc]. intros r w Hr. apply drop_keep; [done|].
    intros [w' Hr']%HD. simplify_eq. by apply (Hne k').
  - apply unborn_keep. intros r Hr. apply drop_keep; [done|]. intros [w' Hr']%HD. congruence.
  - apply unborn_keep. intros r Hr. apply drop_keep; [done|]. intros [w' Hr']%HD. congruence.
Qed.
End dropping.

Definition drop_store s l (c : Value) (D : list loc) : store :=
  mkStore (<[l := c]> (values s)) (drop_recs (records s) D) (idx s) (leaf_ts s).

(** The tail of a chain is dropped below a version every running
    transaction may read. *)
Lemma prune_ok g s l k x (a b : list Version) : store_ok g s → vown g !! l = Some (Live k) →
  values s !! l = Some (mkValue x (a ++ b)) → (b ≠ [] → ∃ v, last a = Some v ∧ write_ts v ≤ low g) →
  let D := omap rec b in
  free_versions (records s) b = Ok (drop_recs (records s) D) ∧
  store_ok (drop_ghost g D) (drop_store s l (mkValue x a) D) ∧
  frame None None g s (drop_ghost g D) (drop_store s l (mkValue x a) D).
Proof.
  intros Hs Hl Hc Hlast D. destruct (live_chain _ _ _ _ Hs Hl) as (c & Hc' & Hrwl & kept & old & Hv & Hch & He).
  rewrite Hc in Hc'. injection Hc' as <-. simpl in *. apply Forall2_app_inv_l in Hch as (ka & kb & Ha & Hb & ->).
  pose proof (so_sorted _ _ _ Hs k) as Hsort. rewrite Hv in Hsort.
  destruct (newest_app _ _ Hsort) as (Hsk & _ & _). destruct (newest_app _ _ Hsk) as (_ & Hsb & Hab).
  assert (∀ r, r ∈ D → ∃ w b, rown g !! r = Some (Committed k w) ∧ (w, Some b) ∈ kb ∧ is_Some (records s !! r)) as HD.
  { intros r (w & b' & ? & ? & ?)%(chain_recs _ _ _ _ _ _ Hb). eauto 7. }
  assert (∀ r, r ∈ D → ∃ w, rown g !! r = Some (Committed k w)) as HD' by naive_solver.
  assert (∀ x y, x ∈ ka → y ∈ kb → x.1 ≠ y.1) as Hdis by (intros y z Hy Hz; specialize (Hab y z Hy Hz); lia).
  assert (ends_at (low g) ka (kb ++ old)) as He'.
  { destruct kb as [|y kb]; [by rewrite app_nil_r in He|]. destruct Hlast as (v & Hv1 & Hle); [by inversion Hb|].
    apply last_Some in Hv1 as [a' ->]. apply Forall2_app_inv_l in Ha as (ka' & z & Ha' & Hz & ->).
    inversion Hz as [|? z' ? ? (Hw & _) Hnil]; subst. inversion Hnil; subst. exists ka', z'. split; [done|left; congruence]. }
  split_and!.
  - apply free_versions_ok; [by eapply chain_recs_nodup|]. intros r Hr. destruct (HD r Hr) as (?&?&?&?&?). done.
  - split; simpl; try apply Hs.
    + intros l' o Ho. destruct (decide (l' = l)) as [->|Hne].
      * rewrite Hl in Ho. injection Ho as <-. exists (mkValue x a). rewrite lookup_insert_eq. split; [done|]. split; [done|]. split; [by eapply live_key|].
        exists ka, (kb ++ old). rewrite app_assoc. split_and!; [done| |done].
        eapply Forall2_impl_elem; [exact Ha|]. intros v y Hy Hok. eapply ver_keep, Hok. intros r Hr.
        apply drop_keep; [done|]. intros (w & b' & Hr' & Hin & _)%HD. simplify_eq. by eapply (Hdis y (y.1, Some b')).
      * rewrite lookup_insert_ne by done. destruct (so_value _ _ _ Hs l' o Ho) as (c' & ? & ? & Hok). exists c'.
        split_and!; [done..|]. eapply (drop_other g s k D HD' l' o); [done| |done]. intros k' -> ->. by apply Hne, (live_unique g s l' l k).
    + intros l' Hl'. destruct (decide (l' = l)) as [->|Hne]; [by eexists|]. apply (so_owned _ _ _ Hs). by rewrite lookup_insert_ne in Hl'.
    + intros r. rewrite !lookup_drop_recs. destruct (decide (r ∈ D)); [by intros [? ?]|]. apply Hs.
    + intros [[[ts k'] w] b'] Hin. destruct (so_log _ _ _ Hs _ Hin) as [H1 H2]. split; [done|].
      intros l' v c' Hl' Hvv. simpl in Hvv. destruct (decide (l' = l)) as [->|Hne].
      * rewrite lookup_insert_eq in Hvv. injection Hvv as ->. eapply (H2 l v (c' ++ b)); [done|]. by rewrite Hc.
      * rewrite lookup_insert_ne in Hvv by done. by eapply H2.
  - split; simpl; eauto.
    + intros r j k' _ Hr. apply drop_keep; [done|]. intros [w Hr']%HD'. congruence.
    + intros r k' w (ts & b' & Hin & Hlow & Hts & _) Hr. apply drop_keep; [done|].
      intros (w' & b'' & Hr' & Hkb & _)%HD. rewrite Hr in Hr'. injection Hr' as -> <-.
      destruct (so_log _ _ _ Hs _ Hin) as [Hbef _]. rewrite Hv in Hbef.
      destruct Hlast as (v & Hv1 & Hle); [intros ->; inversion Hb; subst; by apply not_elem_of_nil in Hkb|].
      apply last_Some in Hv1 as [a' ->]. apply Forall2_app_inv_l in Ha as (ka' & z & Ha' & Hz & ->).
      inversion Hz as [|? z' ? ? (Hw & _) Hnil]; subst. inversion Hnil; subst.
      assert (z' ∈ versions g k) as Hzin by (rewrite Hv; set_solver).
      pose proof (before_gap _ _ _ z' Hsort Hbef) as Hgap. specialize (Hab z' (w, Some b'') ltac:(set_solver) Hkb).
      specialize (Hts z' Hzin). simpl in *. destruct Hgap as [?|?]; [by rewrite Hv in Hzin|lia|lia].
    + intros l' j k' _ Hl'. split; [done|]. rewrite lookup_insert_ne; [done|]. intros <-. rewrite Hl in Hl'. by destruct Hl'.
Qed.

(** The rest of the store when only the records of [l] or of transaction [i]
    and the versions of [k] change. *)
Lemma owner_keep g s g' s' l o c : low g' = low g →
  (∀ k, o = Live k → versions g' k = versions g k ∧
    ∀ r w, rown g !! r = Some (Committed k w) → rown g' !! r = Some (Committed k w) ∧ records s' !! r = records s !! r) →
  (∀ r, rown g !! r = Some (Unborn l) → rown g' !! r = Some (Unborn l) ∧ records s' !! r = records s !! r) →
  owner_ok g s l o c → owner_ok g' s' l o c.
Proof.
  intros Hlow Hlive Hnew. destruct o as [k|i k|i k|i k]; simpl; [|..|done].
  - destruct (Hlive k eq_refl) as [Hv Hr]. intros [? Hc]. split; [done|]. by eapply (chain_keep g s).
  - by apply unborn_keep.
  - by apply unborn_keep.
Qed.

(** ** A value leaves the tree *)

Definition retire_ghost g l i k (D : list loc) : ghost :=
  mkGhost (hist g) (log g) (low g) (<[l := Dead i k]> (vown g)) (drop_recs (rown g) D) (hold g).
Definition retire_store s l k x (D : list loc) : store :=
  mkStore (<[l := mkValue x []]> (values s)) (drop_recs (records s) D) (idx_remove (idx s) k.1 k.2).2 (leaf_ts s).

Lemma mv_retire_ok g s l o i k c (D : list loc) : store_ok g s → vown g !! l = Some o → in_tree o k → word64 k.2 →
  values s !! l = Some c → tomb (low g) (versions g k) → (∀ r, r ∈ D → rown g !! r = Some (Unborn l)) →
  store_ok (retire_ghost g l i k D) (retire_store s l k (rwl c) D).
Proof.
  intros Hs Ho Hin Hk Hc Htomb HD.
  destruct (remove_result (idx s) k.1 k.2 (so_index _ _ _ Hs) Hk) as (i' & Hrem & Hiok & Hat).
  assert (∀ r o', rown g !! r = Some o' → o' ≠ Unborn l →
    drop_recs (rown g) D !! r = Some o' ∧ drop_recs (records s) D !! r = records s !! r) as Hkeep.
  { intros r o' Hr Hne. apply (drop_keep g s D); [done|]. intros Hr'%HD. congruence. }
  assert (∀ l' o', vown g !! l' = Some o' → in_tree o' k → l' = l) as Huniq.
  { intros l' o' Hl' Hin'. assert (idx_at (idx s) k.1 k.2 = Some l') by (apply (so_tree _ _ _ Hs); eauto).
    assert (idx_at (idx s) k.1 k.2 = Some l) by (apply (so_tree _ _ _ Hs); eauto). congruence. }
  split; simpl; rewrite ?Hrem; simpl; try apply Hs; [done|..].
  - intros k' l' Hk'. rewrite Hat by done. destruct (decide (k' = k)) as [->|Hne].
    + rewrite decide_True by done. split; [done|]. intros (o' & Ho' & Hin'). destruct (decide (l' = l)) as [->|].
      * rewrite lookup_insert_eq in Ho'. injection Ho' as <-. destruct Hin' as [?|[? ?]]; done.
      * rewrite lookup_insert_ne in Ho' by done. by eapply Huniq in Hin'.
    + rewrite decide_False by (destruct k, k'; naive_solver). rewrite (so_tree _ _ _ Hs) by done.
      destruct (decide (l' = l)) as [->|]; [|by rewrite lookup_insert_ne]. rewrite lookup_insert_eq, Ho.
      split; [|by intros (? & [= <-] & [?|[? ?]])]. intros (? & [= <-] & Hin'). destruct Hin as [->|[? ->]], Hin' as [?|[? ?]]; congruence.
  - intros l' o'. destruct (decide (l' = l)) as [->|Hne].
    + rewrite !lookup_insert_eq. intros [= <-]. exists (mkValue (rwl c) []). split; [done|]. split; [|done].
      destruct (so_value _ _ _ Hs l o Ho) as (c' & Hc' & Hr & _). by simplify_eq.
    + rewrite !lookup_insert_ne by done. intros Ho'. destruct (so_value _ _ _ Hs l' o' Ho') as (c' & ? & ? & Hok). exists c'.
      split; [done|]. split; [done|]. eapply (owner_keep g s); [done| | |exact Hok].
      * intros k' _. split; [done|]. intros. by apply Hkeep.
      * intros. apply Hkeep; [done|congruence].
  - intros l' Hl'. destruct (decide (l' = l)) as [->|]; [rewrite lookup_insert_eq; eauto|].
    rewrite lookup_insert_ne in Hl' by done. rewrite lookup_insert_ne by done. by apply Hs.
  - intros r. rewrite !lookup_drop_recs. destruct (decide (r ∈ D)); [by intros [? ?]|]. apply Hs.
  - intros k' Hk'. destruct (decide (k' = k)) as [->|Hne]; [done|]. apply Hs. intros l' Hl'. apply (Hk' l').
    rewrite lookup_insert_ne; [done|]. intros <-. rewrite Ho in Hl'. injection Hl' as ->. destruct Hin as [?|[? ?]]; congruence.
  - intros [[[ts k'] w] b] Hx. destruct (so_log _ _ _ Hs _ Hx) as [H1 H2]. split; [done|]. intros l' v x. simpl.
    destruct (decide (l' = l)) as [->|]; [by rewrite lookup_insert_eq|]. rewrite !lookup_insert_ne by done. apply H2.
Qed.

Lemma retire_frame oi c g s l o i k x (D : list loc) : vown g !! l = Some o →
  (∀ r, r ∈ D → rown g !! r = Some (Unborn l)) →
  (o = Live k ∧ (∀ w, ¬ protected c g k w) ∨ ∃ j, o = Pending j k ∧ oi = Some j) →
  frame oi c g s (retire_ghost g l i k D) (retire_store s l k x D).
Proof.
  intros Ho HD Hcase.
  assert (∀ r o', rown g !! r = Some o' → o' ≠ Unborn l →
    drop_recs (rown g) D !! r = Some o' ∧ drop_recs (records s) D !! r = records s !! r) as Hkeep.
  { intros r o' Hr Hne. apply (drop_keep g s D); [done|]. intros Hr'%HD. congruence. }
  split; simpl; auto.
  - intros l' k' w Hp Hl'. destruct (decide (l' = l)) as [->|]; [|by rewrite lookup_insert_ne]. rewrite Ho in Hl'.
    destruct Hcase as [[-> Hno]|(j & -> & _)]; [|done]. injection Hl' as ->. by destruct (Hno w).
  - intros l' j k' Hj Hl'. destruct (decide (l' = l)) as [->|]; [|by rewrite !lookup_insert_ne]. rewrite Ho in Hl'.
    destruct Hcase as [[-> Hno]|(j' & -> & ->)]; destruct Hl'; simplify_eq.
  - intros l' k' Hl'. destruct (decide (l' = l)) as [->|]; [|rewrite lookup_insert_ne by done; by left]. rewrite Ho in Hl'.
    rewrite lookup_insert_eq. destruct Hcase as [[-> _]|(j' & -> & _)]; [|done]. injection Hl' as ->. right. by eexists.
  - intros l' j k' Hl'. destruct (decide (l' = l)) as [->|]; [|by rewrite lookup_insert_ne]. rewrite Ho in Hl'.
    destruct Hcase as [[-> _]|(j' & -> & _)]; done.
Qed.

(** A live chain that is one deleted version: nothing reads it any more. *)
Lemma emptied_tomb g s l k x v : store_ok g s → vown g !! l = Some (Live k) → values s !! l = Some (mkValue x [v]) →
  deleted v = true → rec v = None ∧ tomb (low g) (versions g k) ∧ ∀ w, ¬ protected None g k w.
Proof.
  intros Hs Hl Hc Hd. destruct (live_chain _ _ _ _ Hs Hl) as (c & Hc' & _ & kept & old & Hv & Hch & front & y & -> & He).
  rewrite Hc in Hc'. injection Hc' as <-. simpl in Hch. apply Forall2_cons_inv_l in Hch as (y' & ? & (Hw & _ & Ho) & Hnil & Heq).
  inversion Hnil; subst. destruct front as [|? [|? ?]]; simpl in Heq; simplify_eq. simpl in Hv.
  destruct y' as [w [b|]]; simpl in Ho; [destruct Ho; congruence|]. destruct Ho as [_ Hr]. destruct He as [He|[? _]]; [|done]. simpl in He.
  split; [done|]. split; [by rewrite Hv|]. intros w' (ts & b & Hin & Hlow & Hts & _).
  destruct (so_log _ _ _ Hs _ Hin) as [Hb _]. specialize (Hts (w, None)). rewrite Hv in Hb, Hts. simpl in *.
  destruct (Z.ltb_spec w ts); [done|]. apply Hts; [left|lia].
Qed.

(** ** Records and private values *)

(** Records and their owners change, but no record of a chain. *)
Definition chains_keep g s g' s' : Prop :=
  ∀ r o, rown g !! r = Some o → (∃ k w, o = Committed k w) ∨ (∃ l, o = Unborn l) →
    rown g' !! r = Some o ∧ records s' !! r = records s !! r.

Lemma records_ok g s ro m : store_ok g s → chains_keep g s (set_rown g ro) (set_records s m) →
  (∀ r, is_Some (ro !! r) → is_Some (m !! r)) → store_ok (set_rown g ro) (set_records s m).
Proof.
  intros Hs Hk Hm. split; simpl; try apply Hs; [|done]. intros l o Ho. destruct (so_value _ _ _ Hs l o Ho) as (c & ? & ? & Hok).
  exists c. split; [done|]. split; [done|]. eapply (owner_keep g s); [done| | |exact Hok].
  - intros k _. split; [done|]. intros r w Hr. apply Hk; eauto.
  - intros r Hr. apply Hk; eauto.
Qed.

Lemma add_rec_ok g s r o b : store_ok g s → records s !! r = None →
  store_ok (set_rown g (<[r := o]> (rown g))) (set_records s (<[r := b]> (records s))) ∧
  frame None None g s (set_rown g (<[r := o]> (rown g))) (set_records s (<[r := b]> (records s))).
Proof.
  intros Hs Hr. assert (∀ r' o', rown g !! r' = Some o' → <[r := o]> (rown g) !! r' = Some o' ∧ <[r := b]> (records s) !! r' = records s !! r') as Hk.
  { intros r' o' Hr'. assert (r' ≠ r) by (intros ->; destruct (so_rec _ _ _ Hs r) as [? ?]; [eauto|congruence]).
    by rewrite !lookup_insert_ne. }
  split.
  - apply records_ok; [done| |]; [intros r' o' Hr' _; by apply Hk|].
    intros r'. destruct (decide (r' = r)) as [->|]; [rewrite !lookup_insert_eq; eauto|]. rewrite !lookup_insert_ne by done. apply Hs.
  - split; simpl; eauto.
Qed.

(** A local record is written or freed. *)
Lemma write_rec_ok g s r i k b : store_ok g s → rown g !! r = Some (Local i k) →
  store_ok g (set_records s (<[r := b]> (records s))) ∧ frame (Some i) None g s g (set_records s (<[r := b]> (records s))).
Proof.
  intros Hs Hr. assert (∀ r' o', rown g !! r' = Some o' → o' ≠ Local i k → rown g !! r' = Some o' ∧ <[r := b]> (records s) !! r' = records s !! r') as Hk.
  { intros r' o' Hr' Hne. assert (r' ≠ r) by congruence. by rewrite lookup_insert_ne. }
  split.
  - assert (g = set_rown g (rown g)) as -> by (by destruct g). apply records_ok; [done| |].
    + intros r' o' Hr' Ho'. apply Hk; [done|]. destruct Ho' as [(?&?&->)|[? ->]]; done.
    + intros r' Hr'. simpl in *. destruct (decide (r' = r)) as [->|]; [rewrite lookup_insert_eq; eauto|].
      rewrite lookup_insert_ne by done. by apply Hs.
  - split; simpl; eauto. intros r' j k' Hj Hr'. apply Hk; congruence.
Qed.

Lemma drop_local_ok g s r i k : store_ok g s → rown g !! r = Some (Local i k) →
  store_ok (set_rown g (delete r (rown g))) (set_records s (delete r (records s))) ∧
  frame (Some i) None g s (set_rown g (delete r (rown g))) (set_records s (delete r (records s))).
Proof.
  intros Hs Hr. assert (∀ r' o', rown g !! r' = Some o' → o' ≠ Local i k →
    delete r (rown g) !! r' = Some o' ∧ delete r (records s) !! r' = records s !! r') as Hk.
  { intros r' o' Hr' Hne. assert (r' ≠ r) by congruence. by rewrite !lookup_delete_ne. }
  split.
  - apply records_ok; [done| |].
    + intros r' o' Hr' Ho'. apply Hk; [done|]. destruct Ho' as [(?&?&->)|[? ->]]; done.
    + intros r'. destruct (decide (r' = r)) as [->|]; [rewrite lookup_delete_eq; by intros [? ?]|].
      rewrite !lookup_delete_ne by done. apply Hs.
  - split; simpl; eauto. intros r' j k' Hj Hr'. apply Hk; congruence.
Qed.

(** The record of a private value is written. *)
Lemma write_unborn_ok g s r l b b' : store_ok g s → rown g !! r = Some (Unborn l) → records s !! r = Some b → length b' = length b →
  store_ok g (set_records s (<[r := b']> (records s))) ∧
  ∀ oi, frame oi None g s g (set_records s (<[r := b']> (records s))).
Proof.
  intros Hs Hr Hb Hlen. assert (∀ r' o', rown g !! r' = Some o' → o' ≠ Unborn l → rown g !! r' = Some o' ∧ <[r := b']> (records s) !! r' = records s !! r') as Hk.
  { intros r' o' Hr' Hne. assert (r' ≠ r) by congruence. by rewrite lookup_insert_ne. }
  split; [|intros oi; split; simpl; eauto].
  split; simpl; try apply Hs.
  - intros l' o Ho. destruct (so_value _ _ _ Hs l' o Ho) as (c & Hc & Hrw & Hok). exists c. split; [done|]. split; [done|].
    assert (∀ k, unborn schema g s l' k (version c) → unborn schema g (set_records s (<[r := b']> (records s))) l' k (version c)) as Hun.
    { intros k (ts & r' & b1 & Hv & Hr' & Hb' & Hsz). destruct (decide (r' = r)) as [->|].
      - exists ts, r, b'. split_and!; [done..|by simpl; rewrite lookup_insert_eq|]. rewrite Hb in Hb'. injection Hb' as <-. by rewrite Hlen.
      - exists ts, r', b1. split_and!; [done..| |done]. simpl. by rewrite lookup_insert_ne. }
    destruct o; simpl in *; [|by apply Hun|by apply Hun|done]. destruct Hok as [? Hok]. split; [done|].
    eapply (chain_keep g s); [done..| |exact Hok]. intros. by apply Hk.
  - intros r' Hr'. destruct (decide (r' = r)) as [->|]; [rewrite lookup_insert_eq; eauto|]. rewrite lookup_insert_ne by done. by apply Hs.
Qed.

(** A private value with its record is made. *)
Definition new_ghost g l r i k : ghost :=
  mkGhost (hist g) (log g) (low g) (<[l := Private i k]> (vown g)) (<[r := Unborn l]> (rown g)) (hold g).
Definition new_store s l r ts b : store :=
  mkStore (<[l := mkValue 0 [mkVersion ts ts (Some r) false]]> (values s)) (<[r := b]> (records s)) (idx s) (leaf_ts s).

Lemma vown_fresh g s l : store_ok g s → values s !! l = None → vown g !! l = None.
Proof. intros Hs Hl. destruct (vown g !! l) as [o|] eqn:Ho; [|done]. destruct (so_value _ _ _ Hs l o Ho) as (c & ? & _). congruence. Qed.

Lemma mv_new_value_ok g s l r i k ts b : store_ok g s → values s !! l = None → records s !! r = None → l ∉ hold g →
  schema !! k.1 = Some (length b) →
  store_ok (new_ghost g l r i k) (new_store s l r ts b) ∧ frame None None g s (new_ghost g l r i k) (new_store s l r ts b).
Proof.
  intros Hs Hl Hr Hh Hsz. pose proof (vown_fresh _ _ _ Hs Hl) as Hvl.
  assert (∀ r' o', rown g !! r' = Some o' → <[r := Unborn l]> (rown g) !! r' = Some o' ∧ <[r := b]> (records s) !! r' = records s !! r') as Hk.
  { intros r' o' Hr'. assert (r' ≠ r) by (intros ->; destruct (so_rec _ _ _ Hs r) as [? ?]; [eauto|congruence]).
    by rewrite !lookup_insert_ne. }
  assert (∀ l' o', vown g !! l' = Some o' → l' ≠ l) as Hne by (intros l' o' Ho' ->; congruence).
  split; [|split; simpl; eauto].
  - split; simpl; try apply Hs.
    + intros k' l' Hk'. rewrite (so_tree _ _ _ Hs) by done. destruct (decide (l' = l)) as [->|]; [|by rewrite lookup_insert_ne].
      rewrite lookup_insert_eq, Hvl. split; [by intros (? & ? & _)|]. by intros (? & [= <-] & [?|[? ?]]).
    + intros l' o'. destruct (decide (l' = l)) as [->|].
      * rewrite !lookup_insert_eq. intros [= <-]. eexists. split; [done|]. split; [by rewrite decide_False|].
        exists ts, r, b. simpl. by rewrite !lookup_insert_eq.
      * rewrite !lookup_insert_ne by done. intros Ho'. destruct (so_value _ _ _ Hs l' o' Ho') as (c & ? & ? & Hok). exists c.
        split; [done|]. split; [done|]. eapply (owner_keep g s); [done| | |exact Hok]; intros; [split; [done|]; intros|]; by apply Hk.
    + intros l' Hl'. destruct (decide (l' = l)) as [->|]; [rewrite lookup_insert_eq; eauto|].
      rewrite lookup_insert_ne in Hl' by done. rewrite lookup_insert_ne by done. by apply Hs.
    + intros r'. destruct (decide (r' = r)) as [->|]; [rewrite !lookup_insert_eq; eauto|]. rewrite !lookup_insert_ne by done. apply Hs.
    + intros k' Hk'. apply Hs. intros l' Hl'. apply (Hk' l'). rewrite lookup_insert_ne; [done|]. symmetry. by eapply Hne.
    + intros [[[ts' k'] w] b'] Hx. destruct (so_log _ _ _ Hs _ Hx) as [H1 H2]. split; [done|]. intros l' v x. simpl.
      destruct (decide (l' = l)) as [->|]; [by rewrite lookup_insert_eq|]. rewrite !lookup_insert_ne by done. apply H2.
  - intros l' k' w _ Hl'. rewrite lookup_insert_ne; [done|]. symmetry. by eapply Hne.
  - intros l' j k' _ Hl'. assert (l' ≠ l) by (destruct Hl'; by eapply Hne). by rewrite !lookup_insert_ne.
  - intros l' k' Hl'. left. rewrite lookup_insert_ne; [done|]. symmetry. by eapply Hne.
  - intros l' j k' Hl'. rewrite lookup_insert_ne; [done|]. symmetry. by eapply Hne.
Qed.

(** A value outside the tree is freed with its records. *)
Definition free_ghost g l (D : list loc) : ghost :=
  mkGhost (hist g) (log g) (low g) (delete l (vown g)) (drop_recs (rown g) D) (hold g).
Definition free_store s l (D : list loc) : store :=
  mkStore (delete l (values s)) (drop_recs (records s) D) (idx s) (leaf_ts s).

Lemma free_value_ok g s l o (D : list loc) : store_ok g s → vown g !! l = Some o → (∀ k, ¬ in_tree o k) →
  (∀ r, r ∈ D → rown g !! r = Some (Unborn l)) → store_ok (free_ghost g l D) (free_store s l D).
Proof.
  intros Hs Ho Hout HD.
  assert (∀ r o', rown g !! r = Some o' → o' ≠ Unborn l →
    drop_recs (rown g) D !! r = Some o' ∧ drop_recs (records s) D !! r = records s !! r) as Hkeep.
  { intros r o' Hr Hne. apply (drop_keep g s D); [done|]. intros Hr'%HD. congruence. }
  split; simpl; try apply Hs.
  - intros k' l' Hk'. rewrite (so_tree _ _ _ Hs) by done. destruct (decide (l' = l)) as [->|]; [|by rewrite lookup_delete_ne].
    rewrite lookup_delete_eq, Ho. split; [|by intros (? & ? & _)]. intros (? & [= <-] & Hin). by destruct (Hout k').
  - intros l' o'. destruct (decide (l' = l)) as [->|]; [by rewrite lookup_delete_eq|]. rewrite !lookup_delete_ne by done.
    intros Ho'. destruct (so_value _ _ _ Hs l' o' Ho') as (c & ? & ? & Hok). exists c.
    split; [done|]. split; [done|]. eapply (owner_keep g s); [done| | |exact Hok].
    + intros k' _. split; [done|]. intros. by apply Hkeep.
    + intros. apply Hkeep; [done|congruence].
  - intros l' Hl'. destruct (decide (l' = l)) as [->|]; [rewrite lookup_delete_eq in Hl'; by destruct Hl'|].
    rewrite lookup_delete_ne in Hl' by done. rewrite lookup_delete_ne by done. by apply Hs.
  - intros r. rewrite !lookup_drop_recs. destruct (decide (r ∈ D)); [by intros [? ?]|]. apply Hs.
  - intros k' Hk'. apply Hs. intros l' Hl'. apply (Hk' l'). rewrite lookup_delete_ne; [done|]. intros <-. apply (Hout k'). left. congruence.
  - intros [[[ts' k'] w] b'] Hx. destruct (so_log _ _ _ Hs _ Hx) as [H1 H2]. split; [done|]. intros l' v x. simpl.
    destruct (decide (l' = l)) as [->|]; [by rewrite lookup_delete_eq|]. rewrite !lookup_delete_ne by done. apply H2.
Qed.

Lemma free_private_frame g s l i k (D : list loc) : vown g !! l = Some (Private i k) →
  (∀ r, r ∈ D → rown g !! r = Some (Unborn l)) → frame (Some i) None g s (free_ghost g l D) (free_store s l D).
Proof.
  intros Ho HD.
  assert (∀ r o', rown g !! r = Some o' → o' ≠ Unborn l →
    drop_recs (rown g) D !! r = Some o' ∧ drop_recs (records s) D !! r = records s !! r) as Hkeep.
  { intros r o' Hr Hne. apply (drop_keep g s D); [done|]. intros Hr'%HD. congruence. }
  split; simpl; auto.
  - intros l' k' w _ Hl'. by rewrite lookup_delete_ne by congruence.
  - intros l' j k' Hj Hl'. assert (l' ≠ l) by (destruct Hl'; congruence). by rewrite !lookup_delete_ne.
  - intros l' k' Hl'. left. by rewrite lookup_delete_ne by congruence.
  - intros l' j k' Hl'. by rewrite lookup_delete_ne by congruence.
Qed.

(** ** Commits *)

(** An insertion that found the key leaves the bindings alone. *)
Lemma reindex_ok g s ix : store_ok g s → index_ok ix → (∀ tb key, idx_at ix tb key = idx_at (idx s) tb key) →
  store_ok g (set_idx s ix) ∧ ∀ oi c, frame oi c g s g (set_idx s ix).
Proof.
  intros [] Hi Hat. split; [|intros oi c; split; simpl; eauto]. split; simpl; try done. intros k l Hk. rewrite Hat. by apply so_tree.
Qed.

(** A private value enters the tree. *)
Lemma mv_enter_ok g s l i k ix : store_ok g s → vown g !! l = Some (Private i k) → word64 k.2 → idx_at (idx s) k.1 k.2 = None →
  index_ok ix → (∀ tb key, word64 key → idx_at ix tb key = if decide (tb = k.1 ∧ key = k.2) then Some l else idx_at (idx s) tb key) →
  let g' := set_vown g (<[l := Pending i k]> (vown g)) in
  store_ok g' (set_idx s ix) ∧ frame (Some i) None g s g' (set_idx s ix).
Proof.
  intros Hs Hl Hk Hat Hi Hat' g'.
  assert (∀ l' o, vown g !! l' = Some o → (∀ k', o ≠ Private i k') → vown g' !! l' = Some o) as Hkeep.
  { intros l' o Ho Hne. unfold g'. simpl. rewrite lookup_insert_ne; [done|]. intros <-. rewrite Hl in Ho. injection Ho as <-. by apply (Hne k). }
  split.
  - split; simpl; try apply Hs; [done|..].
    + intros k' l' Hk'. rewrite Hat' by done. destruct (decide (l' = l)) as [->|].
      * rewrite lookup_insert_eq. destruct (decide (k' = k)) as [->|Hne].
        -- rewrite decide_True by done. split; [|done]. intros _. eexists. split; [done|]. right. by exists i.
        -- rewrite decide_False by (destruct k, k'; naive_solver). rewrite (so_tree _ _ _ Hs) by done. rewrite Hl.
           split; [by intros (? & [= <-] & [?|[? ?]])|]. intros (? & [= <-] & [?|[? [= _ ?]]]); done.
      * rewrite lookup_insert_ne by done. rewrite <- (so_tree _ _ _ Hs k' l' Hk'). destruct (decide (k' = k)) as [->|Hne].
        -- rewrite decide_True, Hat by done. split; [|done]. by intros [= ?].
        -- by rewrite decide_False by (destruct k, k'; naive_solver).
    + intros l' o. destruct (decide (l' = l)) as [->|]; [|rewrite lookup_insert_ne by done; apply Hs]. rewrite lookup_insert_eq. intros [= <-].
      destruct (so_value _ _ _ Hs l _ Hl) as (c & ? & ? & Hok). by exists c.
    + intros l' Hl'. destruct (decide (l' = l)) as [->|]; [rewrite lookup_insert_eq; eauto|]. rewrite lookup_insert_ne by done. by apply Hs.
    + intros k' Hk'. apply Hs. intros l' Hl'. apply (Hk' l'). by apply Hkeep.
    + intros [[[ts k'] w] b] Hx. destruct (so_log _ _ _ Hs _ Hx) as [H1 H2]. split; [done|]. intros l' v x. simpl.
      destruct (decide (l' = l)) as [->|]; [by rewrite lookup_insert_eq|]. rewrite lookup_insert_ne by done. apply H2.
  - split; simpl; eauto.
    + intros l' j k' Hj Hl'. split; [|done]. rewrite lookup_insert_ne; [done|]. intros <-. rewrite Hl in Hl'. destruct Hl'; simplify_eq.
Qed.

(** A version is added to the store of versions. *)
Definition add_version g k (x : Z * option block) (vo : gmap loc vowner) (ro : gmap loc rowner) : ghost :=
  mkGhost (<[k := x :: versions g k]> (hist g)) (log g) (low g) vo ro (hold g).

Lemma versions_add g k x vo ro k' : versions (add_version g k x vo ro) k' = if decide (k' = k) then x :: versions g k else versions g k'.
Proof. unfold versions at 1. simpl. case_decide; [subst; by rewrite lookup_insert_eq|by rewrite lookup_insert_ne]. Qed.

(** The row [l] of [k] gets a version with timestamp [ts], whose record was
    local; no reader of the row is later. *)
Section adding.
Context (g : ghost) (s : store) (k : Z * Z) (l : loc) (i : nat) (ts : Z) (o : option block) (p : Ptr)
  (vo : gmap loc vowner) (ro : gmap loc rowner) (c' : Value).
Context (Hs : store_ok g s) (Hk : word64 k.2)
  (Hvo : vo = <[l := Live k]> (vown g)) (Hro : ro = match p with Some r => <[r := Committed k ts]> (rown g) | None => rown g end)
  (Hl : vown g !! l = Some (Live k) ∨ vown g !! l = Some (Pending i k))
  (Hp : ∀ r, p = Some r → rown g !! r = Some (Local i k) ∨ (rown g !! r = Some (Unborn l) ∧ vown g !! l = Some (Pending i k)))
  (Hrwl : rwl c' = (if decide (l ∈ hold g) then -1 else 0))
  (Hnewest : ∀ x, x ∈ versions g k → x.1 < ts)
  (Hreaders : ∀ x, x ∈ log g → x.1.1.2 = k → x.1.1.1 ≤ ts).
#[local] Abbreviation g' := (add_version g k (ts, o) vo ro).
#[local] Abbreviation s' := (set_value s l c').
Context (Hhead : ∀ v x, version c' = v :: x → ts ≤ read_ts v)
  (Hchain : chain_ok g' s' k (version c')).

Lemma add_keep r o' : rown g !! r = Some o' → p ≠ Some r → ro !! r = Some o'.
Proof. intros Hr Hne. rewrite Hro. destruct p as [r'|]; [|done]. rewrite lookup_insert_ne; [done|congruence]. Qed.

Lemma add_others l' o' : vown g !! l' = Some o' → l' ≠ l → (∀ k', o' = Live k' → k' ≠ k).
Proof.
  intros Ho Hne k' -> ->. apply Hne. destruct Hl as [Hl'|Hl']; [by apply (live_unique g s l' l k)|].
  assert (idx_at (idx s) k.1 k.2 = Some l) by (apply (so_tree _ _ _ Hs); [done|]; eexists; split; [exact Hl'|]; right; by exists i).
  pose proof (live_at _ _ _ _ Hs Ho). congruence.
Qed.

Lemma add_version_ok : store_ok g' s'.
Proof.
  split; simpl; try apply Hs.
  - intros k' l' Hk'. rewrite (so_tree _ _ _ Hs) by done. rewrite Hvo. destruct (decide (l' = l)) as [->|]; [|by rewrite lookup_insert_ne].
    rewrite lookup_insert_eq. assert (∀ o', in_tree o' k' → (o' = Live k ∨ o' = Pending i k) → in_tree (Live k) k') as Hto.
    { intros o' [->|[j ->]] [?|?]; simplify_eq; by left. }
    split; [intros (o' & Ho' & Hin); eexists; split; [done|]; eapply Hto; [done|destruct Hl; [left|right]; congruence]|].
    intros (? & [= <-] & [[= <-]|[? ?]]); [|done]. destruct Hl as [Hl'|Hl']; rewrite Hl'; eexists; (split; [done|]); [by left|right; by exists i].
  - intros l' o'. rewrite Hvo. destruct (decide (l' = l)) as [->|Hne].
    + rewrite !lookup_insert_eq. intros [= <-]. by exists c'.
    + rewrite !lookup_insert_ne by done. intros Ho'. destruct (so_value _ _ _ Hs l' o' Ho') as (c & ? & ? & Hok). exists c.
      split; [done|]. split; [done|]. eapply (owner_keep g s); [done| | |exact Hok].
      * intros k' ->. pose proof (add_others l' _ Ho' Hne k' eq_refl) as Hkk. split; [by rewrite versions_add, decide_False|].
        intros r w Hr. split; [|done]. apply add_keep; [done|]. intros ->. destruct (Hp r eq_refl) as [?|[? _]]; congruence.
      * intros r Hr. split; [|done]. apply add_keep; [done|]. intros ->. destruct (Hp r eq_refl) as [?|[? _]]; congruence.
  - intros l' Hl'. rewrite Hvo. destruct (decide (l' = l)) as [->|]; [rewrite lookup_insert_eq; eauto|].
    rewrite lookup_insert_ne in Hl' by done. rewrite lookup_insert_ne by done. by apply Hs.
  - intros r. rewrite Hro. destruct p as [r'|]; [|apply Hs]. destruct (decide (r = r')) as [->|].
    + intros _. apply Hs. destruct (Hp r' eq_refl) as [->|[-> _]]; eauto.
    + rewrite lookup_insert_ne by done. apply Hs.
  - intros k'. rewrite versions_add. destruct (decide (k' = k)); [|apply Hs]. constructor; [apply Hs|]. rewrite Forall_forall. apply Hnewest.
  - intros k' Hk'. rewrite versions_add. destruct (decide (k' = k)) as [Heq|Heq]; [subst k'; destruct (Hk' l); by rewrite Hvo, lookup_insert_eq|].
    apply Hs. intros l' Hl'. apply (Hk' l'). rewrite Hvo, lookup_insert_ne; [done|]. intros <-. destruct Hl; congruence.
  - intros [[[ts' k'] w] b] Hx. destruct (so_log _ _ _ Hs _ Hx) as [H1 H2]. simpl. split.
    + rewrite versions_add. destruct (decide (k' = k)) as [Heq|Heq]; [subst k'|done]. rewrite before_push; [done|]. by apply (Hreaders _ Hx).
    + intros l' v x. rewrite Hvo. destruct (decide (l' = l)) as [->|].
      * rewrite !lookup_insert_eq. intros [= <-] [= Hv]. specialize (Hreaders _ Hx eq_refl). specialize (Hhead _ _ Hv). simpl in *. lia.
      * rewrite !lookup_insert_ne by done. apply H2.
Qed.

Lemma add_version_frame : frame (Some i) (Some ts) g s g' s'.
Proof.
  split; simpl; eauto.
  - intros k' x. rewrite versions_add. destruct (decide (k' = k)); [subst k'|by left]. intros [->|?]%elem_of_cons; [by right|by left].
  - intros r j k' Hj Hr. split; [|done]. apply add_keep; [done|]. intros ->. destruct (Hp r eq_refl) as [?|[? _]]; simplify_eq.
  - intros r k' w _ Hr. split; [|done]. apply add_keep; [done|]. intros ->. destruct (Hp r eq_refl) as [?|[? _]]; congruence.
  - intros l' k' w _ Hl'. rewrite Hvo. destruct (decide (l' = l)) as [->|]; [|by rewrite lookup_insert_ne]. rewrite lookup_insert_eq. destruct Hl; congruence.
  - intros l' j k' Hj Hl'. assert (l' ≠ l) by (intros ->; destruct Hl, Hl'; simplify_eq). rewrite Hvo. by rewrite !lookup_insert_ne.
  - intros l' k' Hl'. left. rewrite Hvo. destruct (decide (l' = l)) as [->|]; [|by rewrite lookup_insert_ne]. rewrite lookup_insert_eq. destruct Hl; congruence.
  - intros l' j k' Hl'. rewrite Hvo, lookup_insert_ne; [done|]. intros ->. destruct Hl; congruence.
Qed.
End adding.
End mvto_store.
