(* ===== verification/MvtoCalls.v ===== *)
(** * The calls of an MVTO transaction

    Every access to a row finds what the version store holds before the
    transaction's timestamp; every call returns and keeps the invariant. *)
From S2P Require Import Prelude Versions RWLock Timestamp Index Memory Mvto MvtoInv MvtoStore.

(** ** Chains *)
Section mvto_chains.
Import Mvto.
Implicit Types (v : Version) (c : list Version).

Lemma gc_split_app sm c : let '(kept, freed) := gc_split sm c in
  c = kept ++ freed ∧ (freed ≠ [] → ∃ v, last kept = Some v ∧ write_ts v ≤ sm).
Proof.
  induction c as [|v c IH]; simpl; [done|]. destruct (Z.ltb_spec sm (write_ts v)).
  - destruct (gc_split sm c) as [kept freed]. destruct IH as [-> IH]. split; [done|]. intros (v' & Hl & ?)%IH.
    exists v'. rewrite last_cons, Hl. done.
  - split; [done|]. intros _. by exists v.
Qed.

(** Dropping versions is invisible at and after the horizon. *)
Lemma gc_split_visible sm ts c : sm ≤ ts → get_correct_version ts (gc_split sm c).1 = get_correct_version ts c.
Proof.
  intros Hle. induction c as [|v c IH]; simpl; [done|]. destruct (Z.ltb_spec sm (write_ts v)).
  - destruct (gc_split sm c) as [kept freed]. simpl in *. by rewrite <- IH.
  - simpl. destruct (Z.ltb_spec ts (write_ts v)); [lia|done].
Qed.

(** A version that is overwritten up to the horizon is not kept. *)
Lemma gc_split_hidden sm ts c n m v : get_correct_version ts c = Some n → (m < n)%nat → c !! m = Some v → write_ts v ≤ sm →
  (length (gc_split sm c).1 ≤ n)%nat.
Proof.
  revert n m. induction c as [|v' c IH]; intros n m Hn Hm Hv Hle; [done|]. simpl in *. destruct (ts <? write_ts v'); [|injection Hn as <-; lia].
  apply fmap_Some in Hn as (n' & Hn & ->). destruct (Z.ltb_spec sm (write_ts v')); [|simpl; lia].
  destruct m as [|m]; [injection Hv as ->; lia|]. specialize (IH n' m Hn ltac:(lia) Hv Hle). destruct (gc_split sm c). simpl in *. lia.
Qed.

Lemma free_versions_drop (m m' : Memory.heap) (vs : list Version) : free_versions m vs = Ok m' → m' = drop_recs m (omap rec vs).
Proof.
  revert m. induction vs as [|v vs IH]; intros m; simpl; [by intros [= <-]|]. destruct (rec v) as [r|]; simpl; [|apply IH].
  destruct (m !! r); simpl; [apply IH|done].
Qed.

Lemma correct_Some ts c n : get_correct_version ts c = Some n →
  ∃ v, c !! n = Some v ∧ write_ts v ≤ ts ∧ ∀ m v', (m < n)%nat → c !! m = Some v' → ts < write_ts v'.
Proof.
  revert n. induction c as [|v c IH]; intros n; simpl; [done|]. destruct (Z.ltb_spec ts (write_ts v)).
  - intros (m & (v' & ? & ? & Hm)%IH & ->)%fmap_Some. exists v'. split_and!; [done..|].
    intros [|m'] v'' Hlt; simpl; [by intros [= <-]|]. apply Hm. lia.
  - intros [= <-]. exists v. split_and!; [done..|]. lia.
Qed.

Lemma correct_None ts c : get_correct_version ts c = None → ∀ v, v ∈ c → ts < write_ts v.
Proof.
  induction c as [|v c IH]; simpl; [by intros _ v []%not_elem_of_nil|]. destruct (Z.ltb_spec ts (write_ts v)); [|done].
  intros Hn%fmap_None v' [->|Hin]%elem_of_cons; [done|by apply IH].
Qed.
End mvto_chains.

Section mvto_access.
Import Memory Mvto.
Context `{HI : ScanIndex loc} `{HL : !ScanIndexLaws loc} `{HT : LeafTimestamps} (schema : gmap Z nat).
Implicit Types (s : store) (t : tx) (k : Z * Z) (l r : loc) (e : ReadWriteElement) (v : Version) (g : ghost) (i j : nat).

#[local] Abbreviation store_ok := (store_ok schema).
#[local] Abbreviation chain_ok := (chain_ok schema).
#[local] Abbreviation ver_ok := (ver_ok schema).

Lemma correct_before g s k (c : list Version) h ts : Forall2 (ver_ok g s k) c h → (∀ x, x ∈ h → x.1 ≠ ts) →
  match get_correct_version ts c with
  | Some n => version_before ts h = h !! n ∧ is_Some (h !! n)
  | None => version_before ts h = None
  end.
Proof.
  induction 1 as [|v x c h (Hw & _) _ IH]; intros Hts; simpl; [done|].
  assert (x.1 ≠ ts) by (apply Hts; left). rewrite Hw. destruct (Z.ltb_spec ts x.1), (Z.ltb_spec x.1 ts); try lia.
  - specialize (IH ltac:(intros; apply Hts; by right)). by destruct (get_correct_version ts c).
  - simpl. eauto.
Qed.

(** Where no version of the chain is visible, the row does not exist. *)
Lemma invisible g kept old k ts : low g ≤ ts → versions g k = kept ++ old → (∀ x, x ∈ versions g k → x.1 ≠ ts) →
  ends_at (low g) kept old → version_before ts kept = None → row_before ts (versions g k) = None.
Proof.
  intros Hlow -> Hts (front & x & -> & He) Hn. pose proof (before_none _ _ Hn) as Hall.
  unfold row_before. rewrite before_app by done. destruct He as [He|[_ Ht]].
  - specialize (Hall x ltac:(set_solver)). specialize (Hts x ltac:(set_solver)). lia.
  - destruct old as [|[w o] old]; [done|]. destruct Ht as [Ho Hw]. simpl in *. subst o.
    specialize (Hts (w, None) ltac:(set_solver)). simpl in *. destruct (Z.ltb_spec w ts); [done|lia].
Qed.

Lemma tomb_invisible g k ts : low g ≤ ts → (∀ x, x ∈ versions g k → x.1 ≠ ts) → tomb (low g) (versions g k) →
  row_before ts (versions g k) = None.
Proof.
  unfold row_before. intros Hlow Hts Ht. destruct (versions g k) as [|[w o] h]; [done|]. destruct Ht as [Ho Hw]. simpl in *. subst o.
  specialize (Hts (w, None) ltac:(set_solver)). simpl in *. destruct (Z.ltb_spec w ts); [done|lia].
Qed.

(** ** What an access computes *)

Lemma store_values s m m' : m = m' → mkStore m (records s) (idx s) (leaf_ts s) = mkStore m' (records s) (idx s) (leaf_ts s).
Proof. by intros ->. Qed.

Lemma access_detached t s k l : values s !! l = Some (mkValue 0 []) → access_row t s k l = Ok (None, t, s).
Proof.
  intros Hl. unfold access_row, lock. rewrite Hl. simpl. unfold unlock. simpl. rewrite lookup_insert_eq. simpl.
  unfold set_value. simpl. do 2 f_equal. rewrite insert_insert_eq, insert_id by done. by destruct s.
Qed.

Lemma access_emptied t s k l v : values s !! l = Some (mkValue 0 [v]) → deleted v = true → rec v = None →
  access_row t s k l = Ok (None, set_gc t (TimestampGC.collect (gc t) (largest_ts t) l), retire_store s l k 0 []).
Proof.
  intros Hl Hd Hr. unfold access_row, lock. rewrite Hl. simpl. unfold is_empty. simpl. rewrite Hd. unfold delete_from_tree, load_chain, set_chain, unlock. simpl.
  rewrite lookup_insert_eq. simpl. unfold free. rewrite Hr. simpl. rewrite lookup_insert_eq. simpl.
  unfold set_value, retire_store. simpl. do 3 f_equal. by rewrite !insert_insert_eq.
Qed.

Definition read_chain (ts : Z) (n : nat) (kept : list Version) : list Version :=
  match kept !! n with Some v => <[n := update_readts v ts]> kept | None => kept end.

Lemma access_visible t s k l (c kept freed : list Version) m : values s !! l = Some (mkValue 0 c) → c ≠ [] →
  is_empty (mkValue 0 c) = false → gc_split (smallest_ts t) c = (kept, freed) → free_versions (records s) freed = Ok m →
  smallest_ts t ≤ start_ts t →
  access_row t s k l = Ok (match get_correct_version (start_ts t) c with
    | None => (None, t, mkStore (<[l := mkValue 0 kept]> (values s)) m (idx s) (leaf_ts s))
    | Some n => ((λ v, (bool_decide (n = 0%nat), update_readts v (start_ts t))) <$> kept !! n, t,
        mkStore (<[l := mkValue 0 (read_chain (start_ts t) n kept)]> (values s)) m (idx s) (leaf_ts s))
    end).
Proof.
  intros Hl Hne He Hgc Hf Hle. unfold access_row, lock. rewrite Hl. simpl.
  unfold is_detached_from_tree. simpl. rewrite bool_decide_eq_false_2 by done.
  change (is_empty (mkValue (-1) c)) with (is_empty (mkValue 0 c)). rewrite He.
  unfold gc_version_chain, load_chain, set_chain, unlock. simpl. rewrite lookup_insert_eq. simpl. rewrite Hgc. simpl. rewrite Hf. simpl.
  destruct (get_correct_version (start_ts t) c) as [n|] eqn:Hn; simpl; rewrite lookup_insert_eq; simpl.
  - pose proof (gc_split_visible (smallest_ts t) (start_ts t) c Hle) as Hvis. rewrite Hgc, Hn in Hvis. simpl in Hvis.
    destruct (correct_Some _ _ _ Hvis) as (v & Hv & _). rewrite Hv. simpl. rewrite lookup_insert_eq. simpl.
    do 2 f_equal. unfold set_value. simpl. rewrite !insert_insert_eq. f_equal. f_equal. f_equal.
    unfold read_chain. by rewrite Hv.
  - do 2 f_equal. unfold set_value. simpl. by rewrite !insert_insert_eq.
Qed.

(** ** What an access does *)

Lemma gc_ok_collect g g' i c ts l k : gc_ok g i c → (∀ l' k', vown g !! l' = Some (Dead i k') → vown g' !! l' = Some (Dead i k')) →
  vown g' !! l = Some (Dead i k) → (∀ k', vown g !! l ≠ Some (Dead i k')) → gc_ok g' i (TimestampGC.collect c ts l).
Proof.
  intros [Hnd Hd] Hmono Hl Hni. unfold gc_ok. rewrite collect_retired. split.
  - constructor; [|done]. intros [k' Hl']%Hd. by apply (Hni k').
  - intros l'. rewrite collect_retired. intros [->|[k' ?]%Hd]%elem_of_cons; eauto.
Qed.

Lemma ver_update g s k v x ts : ver_ok g s k v x → ver_ok g s k (update_readts v ts) x.
Proof.
  unfold ver_ok, update_readts. destruct (Z.ltb_spec ts (read_ts v)); [done|]. simpl. intros (? & ? & ?). split_and!; [done|lia|done].
Qed.

Lemma update_readts_ge v ts : ts ≤ read_ts (update_readts v ts) ∧ read_ts v ≤ read_ts (update_readts v ts).
Proof. unfold update_readts. destruct (Z.ltb_spec ts (read_ts v)); simpl; lia. Qed.

Lemma read_chain_ok g s k ts n (c : list Version) h : Forall2 (ver_ok g s k) c h → Forall2 (ver_ok g s k) (read_chain ts n c) h.
Proof.
  intros Hc. unfold read_chain. destruct (c !! n) as [v|] eqn:Hv; [|done].
  destruct (Forall2_lookup_l _ _ _ _ _ Hc Hv) as (x & Hx & Hok). rewrite <- (list_insert_id h n x Hx).
  apply Forall2_insert; [done|]. by apply ver_update.
Qed.

Lemma read_chain_readers ts n (c : list Version) : readers_kept c (read_chain ts n c).
Proof.
  unfold read_chain. destruct (c !! n) as [v|] eqn:Hv; [|apply readers_refl]. destruct n as [|n], c as [|v0 c]; simplify_eq/=.
  - intros v' x [= <- <-]. exists v, c. split; [done|]. apply update_readts_ge.
  - intros v' x [= <- <-]. exists v0, c. split; [done|lia].
Qed.

(** The head of the chain knows the reader. *)
Lemma read_chain_head g s k ts n (c : list Version) h v0 x : Forall2 (ver_ok g s k) c h → get_correct_version ts c = Some n →
  read_chain ts n c = v0 :: x → ts ≤ read_ts v0.
Proof.
  intros Hc Hn. destruct (correct_Some _ _ _ Hn) as (v & Hv & _ & Hbig). unfold read_chain. rewrite Hv.
  destruct n as [|n], c as [|v1 c]; simplify_eq/=; intros [= <- <-].
  - apply update_readts_ge.
  - specialize (Hbig 0%nat v1 ltac:(lia) eq_refl). apply Forall2_cons_inv_l in Hc as (y & h' & (Hw & Hr & _) & _ & _). lia.
Qed.

Definition access_result g g' s' k l ts (o : option (bool * Version)) : Prop :=
  match o with
  | None => row_before ts (versions g k) = None
  | Some (is_head, v) => vown g' !! l = Some (Live k) ∧ (∀ v' c, version <$> values s' !! l = Some (v' :: c) → ts ≤ read_ts v') ∧
      ∃ x, version_before ts (versions g k) = Some x ∧ ver_ok g' s' k v x ∧ (is_head = true → head (versions g k) = Some x)
  end.

Lemma access_live i t g s k l : store_ok g s → quiet g → vown g !! l = Some (Live k) → smallest_ts t ≤ low g ≤ start_ts t →
  (∀ x, x ∈ versions g k → x.1 ≠ start_ts t) → gc_ok g i (gc t) →
  ∃ o c s' g', access_row t s k l = Ok (o, set_gc t c, s') ∧ store_ok g' s' ∧ frame None None g s g' s' ∧ quiet g' ∧
    same_spec g g' ∧ gc_ok g' i c ∧ access_result g g' s' k l (start_ts t) o.
Proof.
  intros Hs Hq Hl [Hsm Hlow] Hts Hgc. pose proof (live_chain _ _ _ _ _ Hs Hl) as ([x c] & Hc & Hx & kept & old & Hv & Hch & He). simpl in *.
  rewrite decide_False in Hx by (destruct Hq as [-> _]; set_solver). subst x.
  assert (c ≠ []) as Hne. { intros ->. inversion Hch; subst. destruct He as ([|? ?] & ? & ? & _); done. }
  assert (t = set_gc t (gc t)) as Ht by (by destruct t).
  destruct (is_empty (mkValue 0 c)) eqn:Hemp.
  - unfold is_empty in Hemp. simpl in Hemp. destruct c as [|v [|? ?]]; [done| |done].
    destruct (emptied_tomb schema g s l k 0 v Hs Hl Hc Hemp) as (Hr & Htomb & Hno).
    eexists None, _, _, (retire_ghost g l i k []). split; [by eapply access_emptied|]. split_and!.
    + eapply (mv_retire_ok schema g s l (Live k) i k (mkValue 0 [v]) []); [done..|by left|by eapply live_key|done|done|by intros ? ?%not_elem_of_nil].
    + eapply retire_frame; [done|by intros ? ?%not_elem_of_nil|]. left. done.
    + split; [apply Hq|].
      intros l' i' k'. simpl. destruct (decide (l' = l)) as [->|]; [by rewrite lookup_insert_eq|]. rewrite lookup_insert_ne by done. apply Hq.
    + done.
    + eapply gc_ok_collect; [done| |simpl; by rewrite lookup_insert_eq|intros ?; congruence].
      intros l' k' Hl'. simpl. rewrite lookup_insert_ne; [done|congruence].
    + simpl. by apply tomb_invisible.
  - destruct (gc_split (smallest_ts t) c) as [kc fc] eqn:Hsplit. pose proof (gc_split_app (smallest_ts t) c) as Happ.
    rewrite Hsplit in Happ. destruct Happ as [Happ Hlast].
    destruct (prune_ok schema g s l k 0 kc fc Hs Hl) as (Hfree & Hs1 & F1); [by rewrite <- Happ| |].
    { intros (v & ? & ?)%Hlast. exists v. split; [done|lia]. }
    pose proof (access_visible t s k l c kc fc _ Hc Hne Hemp Hsplit Hfree ltac:(lia)) as Hacc.
    pose proof (correct_before g s k c kept (start_ts t) Hch ltac:(intros; apply Hts; rewrite Hv; set_solver)) as Hbef.
    set (g1 := drop_ghost g (omap rec fc)) in *. set (s1 := drop_store s l (mkValue 0 kc) (omap rec fc)) in *.
    pose proof (gc_split_visible (smallest_ts t) (start_ts t) c ltac:(lia)) as Hvis. rewrite Hsplit in Hvis. simpl in Hvis.
    destruct (get_correct_version (start_ts t) c) as [n|] eqn:Hn.
    + destruct (live_chain schema g1 s1 l k Hs1 Hl) as (c1 & Hc1 & _ & kept1 & old1 & Hv1 & Hch1 & He1).
      simpl in Hc1. rewrite lookup_insert_eq in Hc1. injection Hc1 as <-. simpl in Hch1.
      pose proof (correct_Some _ _ _ Hvis) as (v & Hvn & _). rewrite Hvn in Hacc. simpl in Hacc.
      assert (quiet g1) as Hq1 by done.
      exists (Some (bool_decide (n = 0%nat), update_readts v (start_ts t))), (gc t),
        (set_value s1 l (mkValue 0 (read_chain (start_ts t) n kc))), (set_hold g1 (hold g1)). rewrite <- Ht. split_and!.
      * rewrite Hacc. unfold set_value, s1. simpl. by rewrite insert_insert_eq.
      * eapply (set_value_ok schema g1 s1 l (Live k) (mkValue 0 kc)); [done|done|by simpl; rewrite lookup_insert_eq|done| | |apply read_chain_readers].
        -- by rewrite decide_False by (destruct Hq1 as [-> _]; set_solver).
        -- split; [by eapply (live_key schema g s)|]. exists kept1, old1. split_and!; [done| |done]. by apply read_chain_ok.
      * eapply mv_frame_trans; [exact F1|]. eapply (set_value_frame g1 s1 l (Live k) (mkValue 0 kc)); [done|by simpl; rewrite lookup_insert_eq|]. intros Hno. by destruct (Hno k).
      * exact Hq.
      * done.
      * exact Hgc.
      * split; [done|]. split.
        -- intros v' x. simpl. rewrite lookup_insert_eq. simpl. intros [= Heq]. by eapply (read_chain_head g1 s1 k).
        -- destruct Hbef as [Hb [y Hy]]. rewrite Hy in Hb. exists y.
           assert (kept1 !! n = Some y) as Hy1.
           { destruct (Forall2_lookup_l _ _ _ _ _ Hch1 Hvn) as (y1 & Hy1 & _). rewrite Hy1. f_equal.
             change (versions g1 k) with (versions g k) in Hv1. rewrite Hv1 in Hv.
             assert (∀ z m (a b : history), a !! m = Some z → (a ++ b) !! m = Some z) as Hpre by (intros; by apply lookup_app_l_Some).
             apply (Hpre _ _ _ old1) in Hy1. apply (Hpre _ _ _ old) in Hy. congruence. }
           split; [rewrite Hv; by apply before_app_l|]. split.
           ++ destruct (Forall2_lookup_l _ _ _ _ _ Hch1 Hvn) as (y' & Hy' & Hok). simplify_eq. by apply ver_update.
           ++ intros ->%bool_decide_eq_true. rewrite Hv. destruct kept; [done|]. simpl in *. congruence.
    + exists None, (gc t), s1, g1. rewrite <- Ht. split_and!; [by rewrite Hacc|done..|exact Hgc|].
      by eapply invisible.
Qed.
End mvto_access.

(** ** The calls *)
Section mvto_calls.
Import Memory Mvto.
Context `{HI : ScanIndex loc} `{HL : !ScanIndexLaws loc} `{HT : LeafTimestamps} (schema : gmap Z nat).
Implicit Types (s : store) (t : tx) (k : Z * Z) (l r : loc) (e : ReadWriteElement) (v : Version) (g : ghost) (i j : nat).

#[local] Abbreviation store_ok := (store_ok schema).
#[local] Abbreviation tx_ok := (tx_ok schema false).
#[local] Abbreviation elem_ok := (elem_ok schema false).
#[local] Abbreviation turn := (turn schema false).
#[local] Abbreviation seen_ok := (seen_ok schema).

(** What a call may do: nothing that the others notice, no version added. *)
Record quiet_step g s g' s' t t' : Prop := {
  qs_frame : frame None None g s g' s';
  qs_hist : hist g' = hist g;
  qs_ts : start_ts t' = start_ts t;
  qs_gc_ts : smallest_ts t' = smallest_ts t ∧ largest_ts t' = largest_ts t
}.

Lemma mv_quiet_refl g s t : quiet_step g s g s t t.
Proof. split; [apply mv_frame_refl|done..]. Qed.

Lemma mv_quiet_trans g1 s1 t1 g2 s2 t2 g3 s3 t3 :
  quiet_step g1 s1 g2 s2 t1 t2 → quiet_step g2 s2 g3 s3 t2 t3 → quiet_step g1 s1 g3 s3 t1 t3.
Proof. intros [F1 H1 T1 S1] [F2 H2 T2 S2]. split; [by eapply mv_frame_trans|congruence|congruence|]. destruct S1, S2. split; congruence. Qed.

(** *** The transaction's own bookkeeping *)

Lemma tx_add_table g s i t x : tx_ok g s i t → tx_ok g s i (add_table t x).
Proof.
  intros [H1 H2 H3 H4 [W1 W2 W3]]. split; [done..|]. split; [done..|]. intros k Hk. destruct (W3 k Hk). split; [done|]. simpl. set_solver.
Qed.

Lemma tx_set_gc u g s i t c : MvtoInv.tx_ok schema u g s i t → MvtoInv.tx_ok schema u g s i (set_gc t c).
Proof. by intros [H1 H2 H3 H4 [W1 W2 W3]]. Qed.

Lemma tx_observe g s i t k w p : tx_ok g s i t → find t k = None → seen_ok g s t k w p → tx_ok g s i (observe t k w p).
Proof.
  intros [H1 H2 H3 H4 H5] Hk Hs. split; [done..| | |].
  - intros k' e He. specialize (H3 k' e He). assert (k' ≠ k) as Hne by (intros ->; unfold find in *; simpl in *; congruence).
    unfold MvtoInv.elem_ok in *. simpl. by rewrite lookup_insert_ne.
  - intros k' w' p'. simpl. destruct (decide (k' = k)) as [->|].
    + rewrite lookup_insert_eq. by intros [= <- <-].
    + rewrite lookup_insert_ne by done. apply H4.
  - split; apply H5.
Qed.

Lemma find_emplace t k e k' : find (emplace t k e) k' = if decide (k' = k) then Some e else find t k'.
Proof. unfold find. simpl. case_decide; [subst; by rewrite lookup_insert_eq|by rewrite lookup_insert_ne]. Qed.

Lemma find_put t k e k' : find (put t k e) k' = if decide (k' = k) then (λ _, e) <$> find t k else find t k'.
Proof.
  unfold find. simpl. case_decide; [subst|by rewrite lookup_alter_ne].
  rewrite lookup_alter_eq. by destruct (rws t !! k).
Qed.

Lemma rws_find t k : rws t !! k = None ↔ find t k = None.
Proof. unfold find. by destruct (rws t !! k). Qed.

Lemma find_rws t k e : find t k = Some e → ∃ n, rws t !! k = Some (n, e).
Proof. unfold find. destruct (rws t !! k) as [[n e']|]; [|done]. intros [= <-]. eauto. Qed.

Lemma absent_unwritten t k : writes_ok t → find t k = None → k.2 ∉ (w_table t k.1).*1.
Proof.
  intros [W1 _ _] Hk (it & Heq & Hin)%list_elem_of_fmap. destruct (W1 _ _ Hin) as (e & He & _). rewrite <- Heq in He.
  apply rws_find in Hk. destruct k. simpl in *. congruence.
Qed.

Lemma read_unwritten t k e : writes_ok t → find t k = Some e → rwt e = READ → k.2 ∉ (w_table t k.1).*1.
Proof.
  intros [W1 _ _] (n & Hk)%find_rws Hr (it & Heq & Hin)%list_elem_of_fmap. destruct (W1 _ _ Hin) as (e' & He & Hne).
  rewrite <- Heq in He. destruct k. simpl in *. congruence.
Qed.

Lemma w_table_push t k n e x : rws t !! k = Some (n, e) →
  w_table (push_write t k) x = if decide (x = k.1) then w_table t k.1 ++ [(k.2, n)] else w_table t x.
Proof.
  intros Hk. unfold push_write. rewrite Hk. unfold w_table. simpl. case_decide; [subst; by rewrite lookup_insert_eq|by rewrite lookup_insert_ne].
Qed.

Lemma push_fields t k n e : rws t !! k = Some (n, e) → rws (push_write t k) = rws t ∧ tables (push_write t k) = tables t.
Proof. intros Hk. unfold push_write. by rewrite Hk. Qed.

Lemma writes_push t k n e : writes_ok t → rws t !! k = Some (n, e) → rwt e ≠ READ → k.2 ∉ (w_table t k.1).*1 → writes_ok (push_write t k).
Proof.
  intros [W1 W2 W3] Hk Hr Hni. destruct (push_fields t k n e Hk) as [Hrws Htab]. split.
  - intros x it. rewrite (w_table_push t k n e) by done. rewrite Hrws. case_decide as Hx; [|apply W1]. subst x.
    intros [Hin| ->%list_elem_of_singleton]%elem_of_app; [by apply W1|]. exists e. by destruct k.
  - intros x. rewrite (w_table_push t k n e) by done. case_decide; [|apply W2]. rewrite fmap_app. apply NoDup_app.
    split_and!; [apply W2| |simpl; constructor; [apply not_elem_of_nil|constructor]]. intros y Hy ->%list_elem_of_singleton. done.
  - rewrite Hrws, Htab. apply W3.
Qed.

Lemma tx_push g s i t k n e : tx_ok g s i t → rws t !! k = Some (n, e) → rwt e ≠ READ → k.2 ∉ (w_table t k.1).*1 → tx_ok g s i (push_write t k).
Proof.
  intros [H1 H2 H3 H4 H5] Hk Hr Hni. pose proof (writes_push t k n e H5 Hk Hr Hni) as Hw. revert Hw. unfold push_write. rewrite Hk. by split.
Qed.

Lemma writes_emplace t k e : writes_ok t → find t k = None → word64 k.2 → k.1 ∈ tables t → writes_ok (emplace t k e).
Proof.
  intros [W1 W2 W3] Hk Hw Ht. split; [|done|].
  - intros x it Hin. destruct (W1 x it Hin) as (e' & He' & Hr'). exists e'. split; [|done]. simpl. rewrite lookup_insert_ne; [done|].
    intros ->. apply rws_find in Hk. congruence.
  - intros k'. simpl. destruct (decide (k' = k)) as [->|]; [done|]. rewrite lookup_insert_ne by done. apply W3.
Qed.

Lemma tx_emplace g s i t k e : tx_ok g s i t → find t k = None → word64 k.2 → k.1 ∈ tables t → elem_ok g s i t k e → tx_ok g s i (emplace t k e).
Proof.
  intros [H1 H2 H3 H4 H5] Hk Hw Ht He. split; [done..| |done|by apply writes_emplace].
  intros k' e'. rewrite find_emplace. case_decide; [intros [= <-]; subst; exact He|]. apply H3.
Qed.

(** A new entry that writes. *)
Lemma tx_emplace_push g s i t k e : tx_ok g s i t → find t k = None → word64 k.2 → k.1 ∈ tables t → elem_ok g s i t k e → rwt e ≠ READ →
  tx_ok g s i (push_write (emplace t k e) k).
Proof.
  intros Ht Hk Hw Htab He Hr. eapply tx_push; [by apply tx_emplace|simpl; by rewrite lookup_insert_eq|done|].
  apply (absent_unwritten t); [apply Ht|done].
Qed.

(** An entry that was read becomes a write. *)
Lemma tx_put_push g s i t k e e' : tx_ok g s i t → find t k = Some e → rwt e = READ → rwt e' ≠ READ → elem_ok g s i t k e' →
  tx_ok g s i (push_write (put t k e') k).
Proof.
  intros Ht Hk Hr Hr' He'. destruct (find_rws _ _ _ Hk) as [n Hn].
  eapply (tx_push _ _ _ (put t k e') k n e'); [|by simpl; rewrite lookup_alter_eq, Hn|done|].
  - destruct Ht as [H1 H2 H3 H4 [W1 W2 W3]]. split; [done..| |done|].
    + intros k' x. rewrite find_put. case_decide; [|apply H3]. rewrite Hk. intros [= <-]. subst. exact He'.
    + split; [|done|].
      * intros x it Hin. destruct (W1 x it Hin) as (y & Hy & Hry). exists y. split; [|done]. simpl. rewrite lookup_alter_ne; [done|].
        intros ->. simpl in *. congruence.
      * intros k'. simpl. rewrite lookup_alter_is_Some. apply W3.
  - apply (read_unwritten t k e); [apply Ht|done..].
Qed.

(** *** Accesses *)

(** A read is logged. *)
Lemma log_read_ok g s x : store_ok g s → event_ok g s x →
  store_ok (set_log g (x :: log g)) s ∧ frame None None g s (set_log g (x :: log g)) s.
Proof.
  intros Hs Hx. split; [|split; simpl; eauto; intros; by right].
  destruct Hs. split; simpl; try done. intros y [->|Hy]%elem_of_cons; [exact Hx|]. by apply so_log.
Qed.

(** What a row holds for the transaction, and what an access returns. *)
Definition row_at g t k : option block := row_before (start_ts t) (versions g k).

Definition accessed g g' s' t k l (o : option (bool * Version)) : Prop :=
  match o with
  | None => row_at g t k = None
  | Some (_, v) => vown g' !! l = Some (Live k) ∧
      if deleted v then row_at g t k = None
      else seen_ok g' s' t k (write_ts v) (rec v) ∧
        ∃ r b, rec v = Some r ∧ records s' !! r = Some b ∧ row_at g t k = Some b ∧ schema !! k.1 = Some (length b)
  end.

Lemma access_call i t g s k l : turn g s i t → vown g !! l = Some (Live k) →
  ∃ o c s' g', access_row t s k l = Ok (o, set_gc t c, s') ∧ turn g' s' i (set_gc t c) ∧
    quiet_step g s g' s' t (set_gc t c) ∧ accessed g g' s' t k l o.
Proof.
  intros [Hs Hq Ht Hgc] Hl.
  destruct (access_live schema i t g s k l Hs Hq Hl) as (o & c & s' & g' & Hacc & Hs' & F & Hq' & [Hh Hlog] & Hgc' & Hres);
    [apply Ht|intros x; apply Ht|done|].
  pose proof (tx_frame _ _ _ _ _ _ _ _ i t F ltac:(done) ltac:(done) Ht) as Ht'.
  exists o, c, s'. destruct o as [[b v]|].
  - destruct Hres as (Hl' & Hhead & [w o] & Hbef & (Hw & Hr & Ho) & _). simpl in Hw, Hr, Ho. destruct o as [bl|].
    + destruct Ho as (Hd & Hsz & r & Hrec & Hown & Hb).
      assert (event_ok g' s' (start_ts t, k, w, bl)) as Hev.
      { split; [unfold versions; by rewrite Hh|]. intros l0 v0 c0 Hl0. rewrite (live_unique _ _ _ _ _ _ Hs' Hl0 Hl'). apply Hhead. }
      destruct (log_read_ok g' s' _ Hs' Hev) as [Hs2 F2]. exists (set_log g' ((start_ts t, k, w, bl) :: log g')).
      split; [done|]. split_and!.
      * split; [done..| |done]. apply tx_set_gc. by eapply tx_frame.
      * split; [by eapply mv_frame_trans|done..].
      * split; [done|]. rewrite Hd, Hw. split.
        -- exists r, bl, l. split_and!; [done|left|done..].
        -- exists r, bl. split_and!; [done..| |done]. unfold row_at, row_before. by rewrite Hbef.
    + destruct Ho as [Hd Hrec]. exists g'. split; [done|]. split_and!.
      * split; [done..| |done]. by apply tx_set_gc.
      * split; [done|done..].
      * split; [done|]. rewrite Hd. unfold row_at, row_before. by rewrite Hbef.
  - exists g'. split; [done|]. split_and!; [|by split|done]. split; [done..| |done]. by apply tx_set_gc.
Qed.

(** The index finds the rows of the tree. *)
Lemma find_live g s tb key : store_ok g s ∧ quiet g → word64 key →
  (idx_find (idx s) tb key = (NOT_FOUND, None) ∧ ∀ l, vown g !! l ≠ Some (Live (tb, key))) ∨
  ∃ l, idx_find (idx s) tb key = (OK, Some l) ∧ vown g !! l = Some (Live (tb, key)).
Proof.
  intros [Hs [_ Hnp]] Hkey. rewrite find_result. destruct (idx_at (idx s) tb key) as [l|] eqn:Hat; [right|left].
  - exists l. split; [done|]. apply (so_tree _ _ _ Hs (tb, key) l Hkey) in Hat as (o & Ho & [->|[j ->]]); [done|]. by destruct (Hnp l j (tb, key)).
  - split; [done|]. intros l Hl. pose proof (live_at _ _ _ _ _ Hs Hl). simpl in *. congruence.
Qed.

Lemma absent_row g s i t tb key : turn g s i t → (∀ l, vown g !! l ≠ Some (Live (tb, key))) → row_at g t (tb, key) = None.
Proof.
  intros Ht Hno. apply tomb_invisible; [apply (tu_tx _ _ _ _ _ _ Ht)|intros x; apply (tu_tx _ _ _ _ _ _ Ht)|]. by apply (tu_store _ _ _ _ _ _ Ht).
Qed.

(** What a read of a row that is not in the read/write set returns. *)
Definition returns_row g s' t k (p : Ptr) : Prop :=
  match p with
  | None => row_at g t k = None
  | Some r => ∃ b, records s' !! r = Some b ∧ row_at g t k = Some b
  end.

Lemma mv_read_absent_ok i t g s k l : turn g s i t → vown g !! l = Some (Live k) → find t k = None → word64 k.2 → k.1 ∈ tables t →
  ∃ o t' s' g', read_absent t s k l = Ok (o, t', s') ∧ turn g' s' i t' ∧ quiet_step g s g' s' t t' ∧
    returns_row g s' t k (default None o) ∧ tables t' = tables t.
Proof.
  intros Ht Hl Hk Hw Htab. destruct (access_call i t g s k l Ht Hl) as (o & c & s' & g' & Hacc & Ht' & Hst & Hres).
  unfold read_absent. rewrite Hacc. simpl. destruct o as [[b v]|]; [|by exists None, (set_gc t c), s', g'].
  destruct Hres as [Hl' Hres]. destruct (deleted v); [by exists None, (set_gc t c), s', g'|]. destruct Hres as (Hseen & r & bl & Hrec & Hb & Hrow & Hsz). simpl.
  eexists (Some (rec v)), _, s', g'. split; [done|]. split_and!; [|by split; apply Hst| |done].
  - destruct Ht' as [H1 H2 H3 H4]. split; [done..| |done].
    change (tx_ok g' s' i (emplace (observe (set_gc t c) k (write_ts v) (rec v)) k (mkElem (rec v) None READ false l))).
    apply tx_emplace; [by apply tx_observe|done..|]. split; [done|]. split; [done|]. split; [|done].
    exists (write_ts v). simpl. by rewrite lookup_insert_eq.
  - simpl. rewrite Hrec. by exists bl.
Qed.

Lemma turn_add_table g s i t x : turn g s i t → turn g s i (add_table t x).
Proof. intros [H1 H2 H3 H4]. split; [done..|by apply tx_add_table|done]. Qed.

(** A row that was read is still what it was. *)
Lemma seen_row g s i t k w p : turn g s i t → observed t !! k = Some (w, p) → returns_row g s t k p ∧ ∃ r b,
  p = Some r ∧ records s !! r = Some b ∧ schema !! k.1 = Some (length b) ∧ row_at g t k = Some b.
Proof.
  intros [Hs Hq Ht _] Ho. destruct (to_seen _ _ _ _ _ _ Ht k w p Ho) as (r & b & l & -> & Hin & _ & Hb & Hsz & _).
  destruct (so_log _ _ _ Hs _ Hin) as [Hbef _]. assert (row_at g t k = Some b) as Hrow by (unfold row_at, row_before; by rewrite Hbef).
  split; [by exists b|]. by exists r, b.
Qed.

(** What [read] returns: the row before the timestamp, or the transaction's
    own write. *)
Definition read_result g s' t k (p : Ptr) : Prop :=
  match find t k with
  | Some e =>
      match rwt e with
      | READ => returns_row g s' t k p
      | UPDATE | INSERT => p = write_rec e
      | DELETE => p = None
      end
  | None => returns_row g s' t k p
  end.

Lemma mv_read_ok i t g s tb key : turn g s i t → word64 key →
  ∃ p t' s' g', read t s tb key = Ok (p, t', s') ∧ turn g' s' i t' ∧ quiet_step g s g' s' t t' ∧ read_result g s' t (tb, key) p.
Proof.
  intros Ht Hkey. pose proof (turn_add_table g s i t tb Ht) as Ht1. unfold read, read_result. set (t1 := add_table t tb) in *.
  change (find t1 (tb, key)) with (find t (tb, key)). destruct (find t (tb, key)) as [e|] eqn:Hk.
  - pose proof (to_elem _ _ _ _ _ _ (tu_tx _ _ _ _ _ _ Ht) _ _ Hk) as He. unfold MvtoInv.elem_ok in He.
    destruct (rwt e); eexists _, t1, s, g; (split; [done|]); split_and!; try done; try (by split; [apply mv_frame_refl|done..]).
    destruct He as (_ & _ & [w Hw] & _). by destruct (seen_row g s i t _ _ _ Ht Hw).
  - destruct (find_live g s tb key) as [[-> Hno]|(l & -> & Hl)]; [split; apply Ht|done| |].
    + exists None, t1, s, g. split; [done|]. split_and!; [done|by split; [apply mv_frame_refl|done..]|]. by eapply (absent_row g s i t).
    + simpl. destruct (mv_read_absent_ok i t1 g s (tb, key) l Ht1 Hl Hk Hkey) as (o & t' & s' & g' & Hr & Ht' & Hst & Hres & _); [simpl; set_solver|].
      rewrite Hr. simpl. exists (default None o), t', s', g'. split; [done|]. split; [done|]. split; [by destruct Hst; split|exact Hres].
Qed.

(** *** Local records *)

Lemma mv_copy_record_ok s r b : records s !! r = Some b →
  copy_record s (Some r) (length b) = Ok (fresh (dom (records s)), set_records s (<[fresh (dom (records s)) := b]> (records s))).
Proof.
  intros Hb. unfold copy_record, allocate, aligned_allocate. cbn -[memcpy fresh]. set (n := fresh (dom (records s))).
  assert (n ≠ r) by (intros <-; pose proof (allocate_fresh (records s)); unfold n in *; congruence).
  rewrite (memcpy_block _ n r b (replicate (length b) None)); [|by rewrite lookup_insert_ne|by rewrite lookup_insert_eq|apply length_replicate].
  cbn -[fresh]. unfold set_records. simpl. by rewrite insert_insert_eq.
Qed.

(** A fresh local record for a key. *)
Lemma local_turn g s i t k b (r := fresh (dom (records s))) : turn g s i t → schema !! k.1 = Some (length b) →
  let g' := set_rown g (<[r := Local i k]> (rown g)) in let s' := set_records s (<[r := b]> (records s)) in
  turn g' s' i t ∧ quiet_step g s g' s' t t ∧ local schema g' s' i k (Some r).
Proof.
  intros [Hs Hq Ht Hgc] Hsz g' s'. destruct (add_rec_ok schema g s r (Local i k) b Hs (allocate_fresh _)) as [Hs' F].
  split_and!.
  - split; [done..|by eapply tx_frame|done].
  - by split.
  - exists r, b. unfold g', s'. simpl. by rewrite !lookup_insert_eq.
Qed.

(** What a call that makes a local copy of a row returns. *)
Definition returns_copy g g' s' i t k (p : Ptr) : Prop :=
  ∃ r b, p = Some r ∧ records s' !! r = Some b ∧ rown g' !! r = Some (Local i k) ∧ row_at g t k = Some b.

Lemma copy_version_ok i t g s k l v n : turn g s i t → vown g !! l = Some (Live k) → find t k = None → word64 k.2 → k.1 ∈ tables t →
  schema !! k.1 = Some n → seen_ok g s t k (write_ts v) (rec v) → (∃ b r, rec v = Some r ∧ records s !! r = Some b ∧ row_at g t k = Some b) →
  ∃ p t' s' g', copy_version t s k l v n = Ok (p, t', s') ∧ turn g' s' i t' ∧ quiet_step g s g' s' t t' ∧ returns_copy g g' s' i t k p.
Proof.
  intros Ht Hl Hk Hw Htab Hn Hseen (b & r0 & Hr0 & Hb & Hrow). unfold copy_version.
  assert (n = length b) as ->.
  { destruct Hseen as (r & b' & l' & Hr & _ & _ & Hb' & Hsz & _). simplify_eq. congruence. }
  rewrite Hr0 in Hseen |- *. rewrite (mv_copy_record_ok s r0 b Hb). cbn -[fresh].
  destruct (local_turn g s i t k b Ht Hn) as (Ht' & Hst & Hloc). set (r := fresh _) in *. cbv zeta in *.
  set (g' := set_rown _ _) in *. set (s' := set_records _ _) in *.
  eexists (Some r), _, s', g'. split; [done|]. split_and!.
  - destruct Ht' as [H1 H2 H3 H4].
    change (turn g' s' i (push_write (emplace (observe t k (write_ts v) (Some r0)) k (mkElem (Some r0) (Some r) UPDATE false l)) k)).
    split; [done..| |].
    + apply tx_emplace_push; [apply tx_observe; [done..|]|done|done|done| |done].
      * destruct Hseen as (r1 & b1 & l1 & Hr1 & Hin & Hown & Hb1 & Hsz & Hl1). exists r1, b1, l1.
        assert (r1 ≠ r). { intros ->. pose proof (allocate_fresh (records s)). unfold r in *. congruence. }
        unfold g', s'. simpl. rewrite !lookup_insert_ne by done. done.
      * split; [done|]. split; [done|]. split; [exists (write_ts v); simpl; by rewrite lookup_insert_eq|]. exact Hloc.
    + unfold push_write. simpl. rewrite lookup_insert_eq. exact H4.
  - unfold push_write. simpl. rewrite lookup_insert_eq. destruct Hst as [F ? ? ?]. by split.
  - exists r, b. unfold g', s'. simpl. by rewrite !lookup_insert_eq.
Qed.

Lemma mv_update_absent_ok i t g s k l n : turn g s i t → vown g !! l = Some (Live k) → find t k = None → word64 k.2 → k.1 ∈ tables t →
  schema !! k.1 = Some n →
  ∃ o t' s' g', update_absent t s k l n = Ok (o, t', s') ∧ turn g' s' i t' ∧ quiet_step g s g' s' t t' ∧
    match o with Some p => returns_copy g g' s' i t k p | None => row_at g t k = None end.
Proof.
  intros Ht Hl Hk Hw Htab Hn. destruct (access_call i t g s k l Ht Hl) as (o & c & s' & g' & Hacc & Ht' & Hst & Hres).
  unfold update_absent. rewrite Hacc. simpl. destruct o as [[b v]|]; [|by exists None, (set_gc t c), s', g'].
  destruct Hres as [Hl' Hres]. destruct (deleted v); [by exists None, (set_gc t c), s', g'|].
  destruct Hres as (Hseen & r & bl & Hrec & Hb & Hrow & Hsz).
  assert (row_at g' (set_gc t c) k = Some bl) as Hrow' by (unfold row_at, versions; by rewrite (qs_hist _ _ _ _ _ _ Hst)).
  destruct (copy_version_ok i (set_gc t c) g' s' k l v n Ht' Hl' Hk Hw Htab Hn Hseen) as (p & t2 & s2 & g2 & Hcp & Ht2 & Hst2 & r2 & b2 & -> & Hb2 & Hown & Hrow2);
    [by exists bl, r|].
  rewrite Hcp. simpl. exists (Some (Some r2)), t2, s2, g2. split; [done|]. split; [done|]. split; [by eapply mv_quiet_trans|].
  exists r2, b2. split_and!; [done..|]. congruence.
Qed.

(** A row that was read is copied for writing. *)
Lemma mv_update_read_ok i t g s k e n : turn g s i t → find t k = Some e → rwt e = READ → schema !! k.1 = Some n →
  ∃ p t' s' g', update_read t s k e n = Ok (p, t', s') ∧ turn g' s' i t' ∧ quiet_step g s g' s' t t' ∧ returns_copy g g' s' i t k p.
Proof.
  intros Ht Hk Hr Hn. pose proof (to_elem _ _ _ _ _ _ (tu_tx _ _ _ _ _ _ Ht) _ _ Hk) as He. unfold MvtoInv.elem_ok in He. rewrite Hr in He.
  destruct He as (Hnew & Hl & [w Hw] & Hwr). destruct (seen_row g s i t k w _ Ht Hw) as (_ & r0 & b & Hr0 & Hb & Hsz & Hrow).
  assert (n = length b) as -> by congruence. unfold update_read. rewrite Hr0, (mv_copy_record_ok s r0 b Hb). cbn -[fresh].
  destruct (local_turn g s i t k b Ht Hn) as (Ht' & Hst & Hloc). set (r := fresh _) in *. cbv zeta in *.
  set (g' := set_rown _ _) in *. set (s' := set_records _ _) in *. destruct (find_rws _ _ _ Hk) as [m Hm].
  eexists (Some r), _, s', g'. split; [done|]. split_and!.
  - destruct Ht' as [H1 H2 H3 H4]. split; [done..| |].
    + eapply tx_put_push; [done..|]. split; [done|]. split; [done|]. split; [exists w; simpl; by rewrite <- Hr0|exact Hloc].
    + unfold push_write. simpl. by rewrite lookup_alter_eq, Hm.
  - unfold push_write. simpl. rewrite lookup_alter_eq, Hm. destruct Hst as [F ? ? ?]. by split.
  - exists r, b. unfold g', s'. simpl. by rewrite !lookup_insert_eq.
Qed.

(** What [update] returns: a local copy of the row, or the local record it
    has. *)
Definition update_result g g' s' i t k (p : Ptr) : Prop :=
  match find t k with
  | Some e =>
      match rwt e with
      | READ => returns_copy g g' s' i t k p
      | UPDATE | INSERT => p = write_rec e
      | DELETE => p = None
      end
  | None => match p with Some _ => returns_copy g g' s' i t k p | None => row_at g t k = None end
  end.

Lemma mv_update_ok i t g s tb key : turn g s i t → word64 key → is_Some (schema !! tb) →
  ∃ p t' s' g', update schema t s tb key = Ok (p, t', s') ∧ turn g' s' i t' ∧ quiet_step g s g' s' t t' ∧ update_result g g' s' i t (tb, key) p.
Proof.
  intros Ht Hkey [n Hn]. pose proof (turn_add_table g s i t tb Ht) as Ht1. unfold update, update_result, get_record_size. rewrite Hn. simpl.
  set (t1 := add_table t tb) in *. change (find t1 (tb, key)) with (find t (tb, key)). destruct (find t (tb, key)) as [e|] eqn:Hk.
  - destruct (rwt e) eqn:Hr; [|eexists _, t1, s, g; (split; [done|]); split_and!; try done; by split; [apply mv_frame_refl|done..]..].
    destruct (mv_update_read_ok i t1 g s (tb, key) e n Ht1 Hk Hr Hn) as (p & t' & s' & g' & Hu & Ht' & Hst & Hres).
    rewrite Hu. exists p, t', s', g'. split; [done|]. split; [done|]. split; [by destruct Hst; split|exact Hres].
  - destruct (find_live g s tb key) as [[-> Hno]|(l & -> & Hl)]; [split; apply Ht|done| |].
    + exists None, t1, s, g. split; [done|]. split_and!; [done|by split; [apply mv_frame_refl|done..]|]. by eapply (absent_row g s i t).
    + simpl. destruct (mv_update_absent_ok i t1 g s (tb, key) l n Ht1 Hl Hk Hkey) as (o & t' & s' & g' & Hr & Ht' & Hst & Hres); [simpl; set_solver|done|].
      rewrite Hr. simpl. exists (default None o), t', s', g'. split; [done|]. split; [done|]. split; [by destruct Hst; split|].
      destruct o as [p|]; [|exact Hres]. destruct Hres as (r & b & -> & ?). by exists r, b.
Qed.

(** *** Insertions *)

Lemma insert_over_ok i t g s k l n : turn g s i t → vown g !! l = Some (Live k) → find t k = None → word64 k.2 → k.1 ∈ tables t →
  schema !! k.1 = Some n →
  ∃ r t' s' g', insert_over t s k l n = (Some r, t', s') ∧ turn g' s' i t' ∧ quiet_step g s g' s' t t' ∧
    ∃ e, find t' k = Some e ∧ rwt e = INSERT ∧ write_rec e = Some r.
Proof.
  intros Ht Hl Hk Hw Htab Hn. unfold insert_over, allocate, aligned_allocate. cbn -[fresh].
  destruct (local_turn g s i t k (replicate n None) Ht ltac:(by rewrite length_replicate)) as (Ht' & Hst & Hloc).
  set (r := fresh _) in *. cbv zeta in *. set (g' := set_rown _ _) in *. set (s' := set_records _ _) in *.
  eexists r, _, s', g'. split; [done|]. split_and!.
  - destruct Ht' as [H1 H2 H3 H4]. split; [done..| |].
    + apply tx_emplace_push; [done..| |done]. split; [done|]. split; [exact Hloc|by left].
    + unfold push_write. simpl. by rewrite lookup_insert_eq.
  - unfold push_write. simpl. rewrite lookup_insert_eq. destruct Hst as [F ? ? ?]. by split.
  - unfold push_write, find. simpl. rewrite lookup_insert_eq. simpl. rewrite lookup_insert_eq. by eexists.
Qed.

Lemma mv_insert_new_ok i t g s k n : turn g s i t → find t k = None → word64 k.2 → k.1 ∈ tables t → schema !! k.1 = Some n →
  ∃ r t' s' g', insert_new t s k n = (Some r, t', s') ∧ turn g' s' i t' ∧ quiet_step g s g' s' t t' ∧
    ∃ e, find t' k = Some e ∧ rwt e = INSERT ∧ write_rec e = Some r.
Proof.
  intros [Hs Hq Ht Hgc] Hk Hw Htab Hn. unfold insert_new, allocate, aligned_allocate. cbn -[fresh].
  set (l := fresh (dom (values s))). set (r := fresh (dom (records s))).
  assert (values s !! l = None) as Hl by (apply not_elem_of_dom, is_fresh).
  destruct (mv_new_value_ok schema g s l r i k (start_ts t) (replicate n None) Hs Hl (allocate_fresh _)) as [Hs' F];
    [by destruct Hq as [-> _]; set_solver|by rewrite length_replicate|].
  set (g' := new_ghost _ _ _ _ _) in *. set (s' := new_store _ _ _ _ _) in *.
  assert (quiet g') as Hq'.
  { split; [apply Hq|]. intros l' i' k'. simpl. destruct (decide (l' = l)) as [->|]; [by rewrite lookup_insert_eq|].
    rewrite lookup_insert_ne by done. apply Hq. }
  pose proof (tx_frame _ _ _ _ _ _ _ _ i t F ltac:(done) ltac:(done) Ht) as Ht'. pose proof (gc_frame _ _ _ _ _ _ i _ F Hgc) as Hgc'.
  eexists r, _, s', g'. split; [done|]. split_and!.
  - split; [done..| |].
    + apply tx_emplace_push; [done..| |done]. split; [done|]. simpl. left. rewrite !lookup_insert_eq. split; [by left|done].
    + unfold push_write. simpl. by rewrite lookup_insert_eq.
  - unfold push_write. simpl. rewrite lookup_insert_eq. by split.
  - unfold push_write, find. simpl. rewrite lookup_insert_eq. simpl. rewrite lookup_insert_eq. by eexists.
Qed.

(** [insert] and [upsert] give out a record to fill in; [insert] only where
    there is no row. *)
Definition insert_result g g' s' t t' k (p : Ptr) : Prop :=
  match find t k with
  | Some e => p = None
  | None => match p with
      | Some r => row_at g t k = None ∧ ∃ e, find t' k = Some e ∧ rwt e = INSERT ∧ write_rec e = Some r
      | None => True
      end
  end.

Lemma mv_insert_ok i t g s tb key : turn g s i t → word64 key → is_Some (schema !! tb) → (∀ e, find t (tb, key) = Some e → rwt e ≠ DELETE) →
  ∃ p t' s' g', insert schema t s tb key = Ok (p, t', s') ∧ turn g' s' i t' ∧ quiet_step g s g' s' t t' ∧ insert_result g g' s' t t' (tb, key) p.
Proof.
  intros Ht Hkey [n Hn] Hdel. pose proof (turn_add_table g s i t tb Ht) as Ht1. unfold insert, insert_result, get_record_size. rewrite Hn. simpl.
  set (t1 := add_table t tb) in *. change (find t1 (tb, key)) with (find t (tb, key)). destruct (find t (tb, key)) as [e|] eqn:Hk.
  - specialize (Hdel e eq_refl). exists None, t1, s, g. split; [by destruct (rwt e)|]. split_and!; [done|by split; [apply mv_frame_refl|done..]|done].
  - destruct (find_live g s tb key) as [[-> Hno]|(l & -> & Hl)]; [split; apply Ht|done| |].
    + destruct (mv_insert_new_ok i t1 g s (tb, key) n Ht1 Hk Hkey) as (r & t' & s' & g' & Hin & Ht' & Hst & Hres); [simpl; set_solver|done|].
      rewrite Hin. exists (Some r), t', s', g'. split; [done|]. split; [done|]. split; [by destruct Hst; split|].
      split; [by eapply (absent_row g s i t)|done].
    + simpl. destruct (access_call i t1 g s (tb, key) l Ht1 Hl) as (o & c & s1 & g1 & Hacc & Ht2 & Hst & Hres). rewrite Hacc. simpl.
      assert (quiet_step g s g1 s1 t (set_gc t1 c)) as Hst' by (by destruct Hst; split).
      destruct o as [[h v]|]; [|by exists None, (set_gc t1 c), s1, g1]. destruct Hres as [Hl1 Hres].
      destruct (h && deleted v) eqn:Hhd; simpl; [|by exists None, (set_gc t1 c), s1, g1].
      apply andb_true_iff in Hhd as [_ Hd]. rewrite Hd in Hres.
      destruct (insert_over_ok i (set_gc t1 c) g1 s1 (tb, key) l n Ht2 Hl1 Hk Hkey) as (r & t' & s' & g' & Hin & Ht' & Hst2 & Hres2); [simpl; set_solver|done|].
      rewrite Hin. exists (Some r), t', s', g'. split; [done|]. split; [done|]. split; [by eapply mv_quiet_trans|done].
Qed.

Definition upsert_result g g' s' i t t' k (p : Ptr) : Prop :=
  match find t k with
  | Some e => match rwt e with READ => returns_copy g g' s' i t k p | _ => p = write_rec e end
  | None => match p with
      | Some r => returns_copy g g' s' i t k p ∨
          row_at g t k = None ∧ ∃ e, find t' k = Some e ∧ rwt e = INSERT ∧ write_rec e = Some r
      | None => row_at g t k = None
      end
  end.

Lemma mv_upsert_ok i t g s tb key : turn g s i t → word64 key → is_Some (schema !! tb) → (∀ e, find t (tb, key) = Some e → rwt e ≠ DELETE) →
  ∃ p t' s' g', upsert schema t s tb key = Ok (p, t', s') ∧ turn g' s' i t' ∧ quiet_step g s g' s' t t' ∧ upsert_result g g' s' i t t' (tb, key) p.
Proof.
  intros Ht Hkey [n Hn] Hdel. pose proof (turn_add_table g s i t tb Ht) as Ht1. unfold upsert, upsert_result, get_record_size. rewrite Hn. simpl.
  set (t1 := add_table t tb) in *. change (find t1 (tb, key)) with (find t (tb, key)). destruct (find t (tb, key)) as [e|] eqn:Hk.
  - specialize (Hdel e eq_refl). destruct (rwt e) eqn:Hr; [|eexists _, t1, s, g; (split; [done|]); split_and!; try done; by split; [apply mv_frame_refl|done..]..|done].
    destruct (mv_update_read_ok i t1 g s (tb, key) e n Ht1 Hk Hr Hn) as (p & t' & s' & g' & Hu & Ht' & Hst & Hres).
    rewrite Hu. exists p, t', s', g'. split; [done|]. split; [done|]. split; [by destruct Hst; split|exact Hres].
  - destruct (find_live g s tb key) as [[-> Hno]|(l & -> & Hl)]; [split; apply Ht|done| |].
    + destruct (mv_insert_new_ok i t1 g s (tb, key) n Ht1 Hk Hkey) as (r & t' & s' & g' & Hin & Ht' & Hst & Hres); [simpl; set_solver|done|].
      rewrite Hin. exists (Some r), t', s', g'. split; [done|]. split; [done|]. split; [by destruct Hst; split|].
      right. split; [by eapply (absent_row g s i t)|done].
    + simpl. destruct (access_call i t1 g s (tb, key) l Ht1 Hl) as (o & c & s1 & g1 & Hacc & Ht2 & Hst & Hres). rewrite Hacc. simpl.
      assert (quiet_step g s g1 s1 t (set_gc t1 c)) as Hst' by (by destruct Hst; split).
      destruct o as [[h v]|]; [|by exists None, (set_gc t1 c), s1, g1]. destruct Hres as [Hl1 Hres].
      destruct (deleted v); simpl.
      * rewrite andb_true_r. destruct h; [|by exists None, (set_gc t1 c), s1, g1].
        destruct (insert_over_ok i (set_gc t1 c) g1 s1 (tb, key) l n Ht2 Hl1 Hk Hkey) as (r & t' & s' & g' & Hin & Ht' & Hst2 & Hres2); [simpl; set_solver|done|].
        rewrite Hin. exists (Some r), t', s', g'. split; [done|]. split; [done|]. split; [by eapply mv_quiet_trans|by right].
      * rewrite andb_false_r. destruct Hres as (Hseen & r & bl & Hrec & Hb & Hrow & Hsz).
        assert (row_at g1 (set_gc t1 c) (tb, key) = Some bl) as Hrow' by (unfold row_at, versions; by rewrite (qs_hist _ _ _ _ _ _ Hst)).
        destruct (copy_version_ok i (set_gc t1 c) g1 s1 (tb, key) l v n Ht2 Hl1 Hk Hkey ltac:(simpl; set_solver) Hn Hseen)
          as (p & t2 & s2 & g2 & Hcp & Ht3 & Hst2 & r2 & b2 & -> & Hb2 & Hown & Hrow2); [by exists bl, r|].
        rewrite Hcp. exists (Some r2), t2, s2, g2. split; [done|]. split; [done|]. split; [by eapply mv_quiet_trans|].
        left. exists r2, b2. split_and!; [done..|]. rewrite <- Hrow2, Hrow'. exact Hrow.
Qed.

(** *** Removals *)

(** [remove] of a row that the transaction has not written. *)
Lemma mv_remove_ok i t g s tb key : turn g s i t → word64 key → (∀ e, find t (tb, key) = Some e → rwt e = READ) →
  ∃ p t' s' g', remove t s tb key = Ok (p, t', s') ∧ turn g' s' i t' ∧ quiet_step g s g' s' t t' ∧ returns_row g s' t (tb, key) p.
Proof.
  intros Ht Hkey Hread. pose proof (turn_add_table g s i t tb Ht) as Ht1. unfold remove. simpl.
  set (t1 := add_table t tb) in *. change (find t1 (tb, key)) with (find t (tb, key)). destruct (find t (tb, key)) as [e|] eqn:Hk.
  - specialize (Hread e eq_refl). rewrite Hread. pose proof (to_elem _ _ _ _ _ _ (tu_tx _ _ _ _ _ _ Ht) _ _ Hk) as He.
    unfold MvtoInv.elem_ok in He. rewrite Hread in He. destruct He as (Hnew & Hl & [w Hw] & Hwr). simpl in Hwr.
    eexists (read_rec e), _, s, g. split; [done|]. destruct (find_rws _ _ _ Hk) as [m Hm]. split_and!.
    + destruct Ht1 as [H1 H2 H3 H4]. split; [done..| |unfold push_write; simpl; by rewrite lookup_alter_eq, Hm].
      eapply tx_put_push; [done..|]. split; [done|]. split; [done|]. split; [by exists w|done].
    + unfold push_write. simpl. rewrite lookup_alter_eq, Hm. by split; [apply mv_frame_refl|done..].
    + by destruct (seen_row g s i t _ _ _ Ht Hw).
  - destruct (find_live g s tb key) as [[-> Hno]|(l & -> & Hl)]; [split; apply Ht|done| |].
    + exists None, t1, s, g. split; [done|]. split_and!; [done|by split; [apply mv_frame_refl|done..]|]. by eapply (absent_row g s i t).
    + simpl. destruct (access_call i t1 g s (tb, key) l Ht1 Hl) as (o & c & s1 & g1 & Hacc & Ht2 & Hst & Hres). rewrite Hacc. simpl.
      assert (quiet_step g s g1 s1 t (set_gc t1 c)) as Hst' by (by destruct Hst; split).
      destruct o as [[h v]|]; [|by exists None, (set_gc t1 c), s1, g1]. destruct Hres as [Hl1 Hres].
      destruct (deleted v); simpl; [by exists None, (set_gc t1 c), s1, g1|].
      destruct Hres as (Hseen & r & bl & Hrec & Hb & Hrow & Hsz). eexists (rec v), _, s1, g1. split; [done|]. split_and!.
      * destruct Ht2 as [H1 H2 H3 H4].
        change (turn g1 s1 i (push_write (emplace (observe (set_gc t1 c) (tb, key) (write_ts v) (rec v)) (tb, key) (mkElem (rec v) None DELETE false l)) (tb, key))).
        split; [done..| |unfold push_write; simpl; by rewrite lookup_insert_eq].
        apply tx_emplace_push; [by apply tx_observe|done|done|simpl; set_solver| |done]. split; [done|]. split; [done|]. split; [|done].
        exists (write_ts v). simpl. by rewrite lookup_insert_eq.
      * unfold push_write. simpl. rewrite lookup_insert_eq. destruct Hst' as [? ? ? ?]. by split.
      * simpl. rewrite Hrec. by exists bl.
Qed.

(** *** Scans *)

Lemma push_tables t k : tables (push_write t k) = tables t.
Proof. unfold push_write. by destruct (rws t !! k) as [[]|]. Qed.

Lemma copy_version_tables t s k l v n p t' s' : copy_version t s k l v n = Ok (p, t', s') → tables t' = tables t.
Proof. unfold copy_version. intros ([r s1] & _ & [= _ <- _])%bind_Ok. by rewrite push_tables. Qed.

Lemma access_tables t s k l o t' s' : access_row t s k l = Ok (o, t', s') → tables t' = tables t.
Proof.
  unfold access_row. intros ([v s1] & _ & H)%bind_Ok. destruct (is_detached_from_tree v).
  - by apply bind_Ok in H as (s2 & _ & [= _ <- _]).
  - destruct (is_empty v).
    + apply bind_Ok in H as ([t2 s2] & H2 & H). apply bind_Ok in H as (s3 & _ & [= _ <- _]). unfold delete_from_tree in H2.
      repeat (apply bind_Ok in H2 as (? & _ & H2)). by injection H2 as <- _.
    + apply bind_Ok in H as (s2 & _ & H). destruct (get_correct_version _ _) as [n|];
        repeat (apply bind_Ok in H as (? & _ & H)); by injection H as _ <- _.
Qed.

Lemma update_row_tables tb n t s key l o t' s' : update_row tb n t s key l = Ok (o, t', s') → tables t' = tables t.
Proof.
  unfold update_row. destruct (find t (tb, key)) as [e|].
  - destruct (rwt e); [|by intros [= _ <- _]..|done]. intros ([[r t1] s1] & H & [= _ <- _])%bind_Ok. unfold update_read in H.
    apply bind_Ok in H as ([r2 s2] & _ & [= _ <- _]). by rewrite push_tables.
  - unfold update_absent. intros ([[o1 t1] s1] & H1%access_tables & H)%bind_Ok.
    destruct o1 as [[h v]|]; [|by injection H as _ <- _]. destruct (deleted v); [by injection H as _ <- _|].
    apply bind_Ok in H as ([[r t2] s2] & H2%copy_version_tables & [= _ <- _]). congruence.
Qed.

(** What a scan does with a row it is shown: the row may have left the tree
    since the scan began. *)
Definition row_ok (row : tx → store → Z → loc → outcome (option Ptr * tx * store)) (tb : Z) : Prop :=
  ∀ i t g s key l, turn g s i t → word64 key → tb ∈ tables t →
    vown g !! l = Some (Live (tb, key)) ∨ (∃ j, vown g !! l = Some (Dead j (tb, key))) →
    (∃ o t' s' g', row t s key l = Ok (o, t', s') ∧ turn g' s' i t' ∧ quiet_step g s g' s' t t' ∧ tb ∈ tables t') ∨
    ∃ m, row t s key l = Throw m.

Lemma dead_value g s i t l j k : turn g s i t → vown g !! l = Some (Dead j k) → values s !! l = Some (mkValue 0 []).
Proof.
  intros Ht Hl. destruct (so_value _ _ _ (tu_store _ _ _ _ _ _ Ht) l _ Hl) as ([x c] & Hc & Hx & Hok). simpl in *. subst c.
  rewrite decide_False in Hx by (destruct (tu_quiet _ _ _ _ _ _ Ht) as [-> _]; set_solver). by subst x.
Qed.

Lemma read_row_ok tb : row_ok (read_row tb) tb.
Proof.
  intros i t g s key l Ht Hkey Htab Hl. unfold read_row. destruct (find t (tb, key)) as [e|] eqn:Hk.
  - destruct (rwt e); [left; eexists _, t, s, g; by split; [done|]; split; [done|]; split; [apply mv_quiet_refl|]..|by right; eexists].
  - left. destruct Hl as [Hl|[j Hl]].
    + destruct (mv_read_absent_ok i t g s (tb, key) l Ht Hl Hk Hkey Htab) as (o & t' & s' & g' & Hr & Ht' & Hst & _ & Htb).
      exists o, t', s', g'. by rewrite Htb.
    + exists None, t, s, g. unfold read_absent. rewrite (access_detached _ _ _ _ (dead_value _ _ _ _ _ _ _ Ht Hl)). simpl.
      split; [done|]. split; [done|]. split; [apply mv_quiet_refl|done].
Qed.

Lemma update_row_ok tb n : schema !! tb = Some n → row_ok (update_row tb n) tb.
Proof.
  intros Hn i t g s key l Ht Hkey Htab Hl.
  assert ((∃ o t' s' g', update_row tb n t s key l = Ok (o, t', s') ∧ turn g' s' i t' ∧ quiet_step g s g' s' t t') ∨
    ∃ m, update_row tb n t s key l = Throw m) as [(o & t' & s' & g' & Hu & ? & ?)|[m ->]]; [| |by right; exists m].
  2: { left. exists o, t', s', g'. by rewrite (update_row_tables _ _ _ _ _ _ _ _ _ Hu). }
  unfold update_row. destruct (find t (tb, key)) as [e|] eqn:Hk.
  - destruct (rwt e) eqn:Hr; [|left; eexists _, t, s, g; by split; [done|]; split; [done|]; apply mv_quiet_refl..|by right; eexists].
    destruct (mv_update_read_ok i t g s (tb, key) e n Ht Hk Hr Hn) as (p & t' & s' & g' & Hu & Ht' & Hst & _). rewrite Hu.
    left. by exists (Some p), t', s', g'.
  - left. destruct Hl as [Hl|[j Hl]].
    + destruct (mv_update_absent_ok i t g s (tb, key) l n Ht Hl Hk Hkey Htab Hn) as (o & t' & s' & g' & Hr & Ht' & Hst & _).
      by exists o, t', s', g'.
    + exists None, t, s, g. unfold update_absent. rewrite (access_detached _ _ _ _ (dead_value _ _ _ _ _ _ _ Ht Hl)). simpl.
      split; [done|]. split; [done|]. apply mv_quiet_refl.
Qed.

(** The leaves' timestamps concern no one. *)
Lemma leaves_turn g s i t n : turn g s i t → turn g (set_leaves s n) i t ∧ quiet_step g s g (set_leaves s n) t t.
Proof.
  intros [[] Hq [] Hgc]. split; [|by split; [split; simpl; eauto|done..]]. split; [by split|done|by split|done].
Qed.

Lemma scan_ok row i t g s tb lkey rkey count rev kr : row_ok row tb → turn g s i t → tb ∈ tables t →
  (∃ b kr' t' s' g', scan_rows row t s tb lkey rkey count rev kr = Ok (b, kr', t', s') ∧ turn g' s' i t' ∧ quiet_step g s g' s' t t') ∨
  ∃ m, scan_rows row t s tb lkey rkey count rev kr = Throw m.
Proof.
  intros Hrow Ht Htab.
  set (P := λ x : outcome (tx * store * list (Z * Ptr)), match x with
    | Ok (t', s', _) => ∃ g', turn g' s' i t' ∧ quiet_step g s g' s' t t' ∧ tb ∈ tables t' | Throw _ => True | _ => False end).
  assert (P (Ok (t, s, kr))) as HP by (exists g; split; [done|]; split; [apply mv_quiet_refl|done]).
  assert (∀ n ver x, P x.1 → P (per_node_func n ver x).1) as Hnode.
  { intros n ver [[[[t1 s1] kr1]|m| |] f]; simpl; [|done..]. intros (g1 & Ht1 & Hst1 & Htab1).
    destruct (leaves_turn g1 s1 i t1 (update_ts (leaf_ts s1) n (start_ts t1)) Ht1). exists g1. split; [done|]. split; [by eapply mv_quiet_trans|done]. }
  assert (∀ key l x, word64 key → idx_at (idx s) tb key = Some l → P x.1 → P (per_kv_func row count key l x).1) as Hkv.
  { intros key l [[[[t1 s1] kr1]|m| |] f] Hkey Hat; simpl; [|done..]. intros (g1 & Ht1 & Hst1 & Htab1).
    assert (vown g !! l = Some (Live (tb, key))) as Hl.
    { apply (so_tree _ _ _ (tu_store _ _ _ _ _ _ Ht) (tb, key) l Hkey) in Hat as (o & Ho & [->|[j ->]]); [done|].
      by destruct (proj2 (tu_quiet _ _ _ _ _ _ Ht) l j (tb, key)). }
    unfold per_kv_func. cbn [fst].
    destruct (Hrow i t1 g1 s1 key l Ht1 Hkey Htab1 (fr_old _ _ _ _ _ _ (qs_frame _ _ _ _ _ _ Hst1) l _ Hl)) as [(o & t2 & s2 & g2 & -> & Ht2 & Hst2 & Htab2)|[m ->]]; [|done].
    destruct o; (exists g2; split; [done|]; split; [by eapply mv_quiet_trans|done]). }
  unfold scan_rows. pose proof (so_index _ _ _ (tu_store _ _ _ _ _ _ Ht)) as Hi.
  pose proof (range_with_keeps P (idx s) tb lkey rkey per_node_func (per_kv_func row count) (Ok (t, s, kr)) Hi HP Hnode Hkv) as Hf.
  pose proof (rev_range_with_keeps P (idx s) tb lkey rkey per_node_func (per_kv_func row count) (Ok (t, s, kr)) Hi HP Hnode Hkv) as Hb.
  destruct rev.
  - destruct (idx_get_kv_in_rev_range_with _ _ _ _ _ _ _) as [res [[[t1 s1] kr1]|m| |]]; simpl in *; destruct Hb as [-> Hb]; [|by right; exists m|done..].
    destruct Hb as (g1 & Ht1 & Hst1 & _). left. simpl. by exists true, kr1, t1, s1, g1.
  - destruct (idx_get_kv_in_range_with _ _ _ _ _ _ _) as [res [[[t1 s1] kr1]|m| |]]; simpl in *; destruct Hf as [-> Hf]; [|by right; exists m|done..].
    destruct Hf as (g1 & Ht1 & Hst1 & _). left. simpl. by exists true, kr1, t1, s1, g1.
Qed.
End mvto_calls.
