(* ===== verification/MvtoCommit.v ===== *)
(** * Commit and abort of MVTO

    [precommit] either installs one version per written row, each newer than
    every version and not older than any reader of the row, or takes back
    what it did; either way it leaves no row locked.  [abort] frees what the
    transaction has made. *)
From stdpp Require Import sorting.
From S2P Require Import Prelude Versions RWLock Timestamp Index Memory Mvto MvtoInv MvtoStore MvtoCalls.

Section mvto_commit.
Import Memory Mvto.
Context `{HI : ScanIndex loc} `{HL : !ScanIndexLaws loc} `{HT : LeafTimestamps} (schema : gmap Z nat).
Implicit Types (s : store) (t : tx) (k : Z * Z) (l r : loc) (e : ReadWriteElement) (v : Version) (g : ghost) (i j : nat).

#[local] Abbreviation store_ok := (store_ok schema).
#[local] Abbreviation chain_ok := (chain_ok schema).
#[local] Abbreviation ver_ok := (ver_ok schema).
#[local] Abbreviation tx_ok := (tx_ok schema true).
#[local] Abbreviation elem_ok := (elem_ok schema true).
#[local] Abbreviation turn := (turn schema true).

(** ** One version installed *)

(** The bytes an entry commits. *)
Definition committed_value s e : option block :=
  if decide (rwt e = DELETE) then None else write_rec e ≫= λ r, records s !! r.

(** An entry that passed the checks. *)
Definition ready g s i t k e : Prop :=
  (∀ x, x ∈ versions g k → x.1 ≠ start_ts t) ∧
  if is_new e then rwt e = INSERT ∧ vown g !! val e = Some (Pending i k) ∧
    version <$> values s !! val e = Some [mkVersion (start_ts t) (start_ts t) (write_rec e) false]
  else vown g !! val e = Some (Live k) ∧ rwt e ≠ READ ∧
    (∃ h c, version <$> values s !! val e = Some (h :: c) ∧ read_ts h ≤ start_ts t ∧ write_ts h ≤ start_ts t) ∧
    (if decide (rwt e = DELETE) then write_rec e = None else local schema g s i k (write_rec e)).

Lemma pending_tomb g s l i k : store_ok g s → word64 k.2 → vown g !! l = Some (Pending i k) → tomb (low g) (versions g k).
Proof.
  intros Hs Hk Hl. apply Hs. intros l' Hl'. pose proof (live_at _ _ _ _ _ Hs Hl').
  assert (idx_at (idx s) k.1 k.2 = Some l) by (apply (so_tree _ _ _ Hs); [done|]; eexists; split; [exact Hl|]; right; by exists i). congruence.
Qed.

(** The row has no version after the transaction, and no later reader. *)
Lemma ready_newest g s i t k e : store_ok g s → word64 k.2 → low g ≤ start_ts t → ready g s i t k e →
  (∀ x, x ∈ versions g k → x.1 < start_ts t) ∧ ∀ x, x ∈ log g → x.1.1.2 = k → x.1.1.1 ≤ start_ts t.
Proof.
  intros Hs Hk Hlow [Hfresh Hr].
  assert (∀ y h, versions g k = y :: h → y.1 ≤ start_ts t → ∀ x, x ∈ versions g k → x.1 < start_ts t) as Hall.
  { intros y h Hv Hy x Hx. pose proof (so_sorted _ _ _ Hs k) as Hsort. pose proof (Hfresh x Hx). rewrite Hv in Hx, Hsort.
    apply StronglySorted_inv in Hsort as [_ Hf]. rewrite Forall_forall in Hf. apply elem_of_cons in Hx as [->|Hx%Hf]; lia. }
  destruct (is_new e).
  - destruct Hr as (_ & Hl & _). pose proof (pending_tomb _ _ _ _ _ Hs Hk Hl) as Ht. destruct (versions g k) as [|y h] eqn:Hv.
    + split; [by intros x ?%not_elem_of_nil|]. intros [[[ts k'] w] b] Hx Heq. simpl in Heq. subst k'.
      destruct (so_log _ _ _ Hs _ Hx) as [Hb _]. by rewrite Hv in Hb.
    + destruct Ht as [Hy Hle]. split; [apply (Hall y h); [done|lia]|]. intros [[[ts k'] w] b] Hx Heq. simpl in Heq. subst k'.
      destruct (so_log _ _ _ Hs _ Hx) as [Hb _]. rewrite Hv in Hb. simpl in *. destruct (Z.ltb_spec y.1 ts); [|lia].
      injection Hb as ->. done.
  - destruct Hr as (Hl & _ & (h & c & Hc & Hrd & Hwr) & _). destruct (live_chain _ _ _ _ _ Hs Hl) as (cc & Hcc & _ & kept & old & Hv & Hch & He).
    rewrite Hcc in Hc. simpl in Hc. injection Hc as Hc. rewrite Hc in Hch.
    apply Forall2_cons_inv_l in Hch as (y & kept' & (Hw & _) & _ & ->). split; [apply (Hall y (kept' ++ old)); [done|lia]|].
    intros [[[ts k'] w] b] Hx Heq. simpl in Heq. subst k'. destruct (so_log _ _ _ Hs _ Hx) as [_ Hb].
    etrans; [|exact Hrd]. eapply Hb; [exact Hl|]. rewrite Hcc. simpl. by rewrite Hc.
Qed.

(** The chain once the version is on it. *)
Definition pushed t e (c : list Version) : list Version :=
  if is_new e then c else mkVersion (start_ts t) (start_ts t) (write_rec e) (bool_decide (rwt e = DELETE)) :: c.

Definition install_ghost g s t k e : ghost :=
  add_version g k (start_ts t, committed_value s e) (<[val e := Live k]> (vown g))
    (match write_rec e with Some r => <[r := Committed k (start_ts t)]> (rown g) | None => rown g end).

(** Where the record of the entry comes from. *)
Lemma ready_rec g s i t k e : store_ok g s → ready g s i t k e →
  match write_rec e with
  | Some r => rwt e ≠ DELETE ∧ (∃ b, records s !! r = Some b ∧ schema !! k.1 = Some (length b)) ∧
      (rown g !! r = Some (Local i k) ∨ rown g !! r = Some (Unborn (val e)) ∧ vown g !! val e = Some (Pending i k))
  | None => rwt e = DELETE ∧ is_new e = false
  end.
Proof.
  intros Hs [_ Hr]. destruct (is_new e) eqn:Hn.
  - destruct Hr as (Hrwt & Hl & Hc). destruct (so_value _ _ _ Hs _ _ Hl) as (c & Hcc & _ & ts & r & b & Hv & Hown & Hb & Hsz).
    rewrite Hcc in Hc. simpl in Hc. rewrite Hv in Hc. injection Hc as _ _ Hwr. rewrite <- Hwr. split; [congruence|]. split; [by exists b|]. by right.
  - destruct Hr as (_ & _ & _ & Hw). destruct (decide (rwt e = DELETE)); [by rewrite Hw|].
    destruct Hw as (r & b & -> & Hown & Hb & Hsz). split; [done|]. split; [by exists b|]. by left.
Qed.

Lemma install_chain g s i t k e c : store_ok g s → word64 k.2 → ready g s i t k e → version <$> values s !! val e = Some c →
  chain_ok (install_ghost g s t k e) (set_value s (val e) (mkValue (-1) (pushed t e c))) k (pushed t e c).
Proof.
  intros Hs Hk Hready Hc. pose proof (ready_rec _ _ _ _ _ _ Hs Hready) as Hrec. destruct Hready as [_ Hr].
  set (g' := install_ghost g s t k e). set (s' := set_value s (val e) _).
  assert (versions g' k = (start_ts t, committed_value s e) :: versions g k) as Hv' by (unfold g', install_ghost; by rewrite versions_add, decide_True).
  assert (ver_ok g' s' k (mkVersion (start_ts t) (start_ts t) (write_rec e) (bool_decide (rwt e = DELETE))) (start_ts t, committed_value s e)) as Hver.
  { split; [done|]. split; [simpl; lia|]. simpl. unfold committed_value. destruct (write_rec e) as [r|] eqn:Hw.
    - destruct Hrec as (Hd & (b & Hb & Hsz) & _). rewrite decide_False by done. simpl. rewrite Hb. rewrite bool_decide_eq_false_2 by done.
      split; [done|]. split; [done|]. exists r. split; [done|]. unfold g', install_ghost. simpl. by rewrite lookup_insert_eq.
    - destruct Hrec as [Hd _]. rewrite decide_True by done. by rewrite bool_decide_eq_true_2. }
  unfold pushed. destruct (is_new e) eqn:Hn.
  - destruct Hr as (Hrwt & Hl & Hcv). rewrite Hc in Hcv. injection Hcv as ->. rewrite bool_decide_eq_false_2 in Hver by (rewrite Hrwt; done).
    exists [(start_ts t, committed_value s e)], (versions g k). split; [done|]. split; [constructor; [exact Hver|constructor]|].
    exists [], (start_ts t, committed_value s e). split; [done|]. right. split.
    + simpl. unfold committed_value. rewrite Hrwt. simpl. destruct (write_rec e) as [r|]; [|destruct Hrec; congruence].
      destruct Hrec as (_ & (b & Hb & _) & _). simpl. by rewrite Hb.
    + exact (pending_tomb g s _ i k Hs Hk Hl).
  - destruct Hr as (Hl & _ & _). destruct (live_chain _ _ _ _ _ Hs Hl) as (cc & Hcc & _ & kept & old & Hv & Hch & front & x & -> & He).
    rewrite Hcc in Hc. simpl in Hc. injection Hc as <-.
    exists ((start_ts t, committed_value s e) :: front ++ [x]), old. split; [by rewrite Hv', Hv|]. split.
    + constructor; [done|]. eapply Forall2_impl; [exact Hch|]. intros v y. apply ver_keep. intros r Hr. split; [|done].
      unfold g', install_ghost. simpl. destruct (write_rec e) as [r'|]; [|done]. destruct Hrec as (_ & _ & Ho).
      rewrite lookup_insert_ne; [done|]. intros ->. destruct Ho as [?|[? _]]; congruence.
    + exists ((start_ts t, committed_value s e) :: front), x. split; [done|exact He].
Qed.

Lemma apply_compute t s e (c kept freed : list Version) m : values s !! val e = Some (mkValue (-1) c) →
  gc_split (smallest_ts t) (pushed t e c) = (kept, freed) → free_versions (records s) freed = Ok m →
  apply_entry t s e = Ok (mkStore (<[val e := mkValue 0 kept]> (values s)) m (idx s) (leaf_ts s)).
Proof.
  intros Hc Hgc Hm. unfold apply_entry, pushed in *. unfold load_chain at 1, set_chain at 1. rewrite Hc. cbn -[gc_split].
  destruct (is_new e); cbn -[gc_split]; unfold gc_version_chain, load_chain, set_chain, unlock; cbn -[gc_split];
    rewrite ?Hc, ?lookup_insert_eq; cbn -[gc_split]; rewrite Hgc; cbn -[gc_split]; rewrite ?Hc, ?lookup_insert_eq; cbn -[gc_split];
    rewrite Hm; simpl; rewrite lookup_insert_eq; simpl; do 2 f_equal; unfold set_value; simpl; by rewrite !insert_insert_eq.
Qed.

(** What the other entries of the transaction rely on. *)
Definition keeps_other g s g' s' i k l : Prop :=
  (∀ l', l' ≠ l → vown g' !! l' = vown g !! l' ∧ values s' !! l' = values s !! l') ∧
  (∀ r o, rown g !! r = Some o → (∀ w, o ≠ Committed k w) → o ≠ Local i k → o ≠ Unborn l →
    rown g' !! r = Some o ∧ records s' !! r = records s !! r).

Lemma apply_entry_ok g s i t k e : store_ok g s → word64 k.2 → smallest_ts t ≤ low g ≤ start_ts t → ready g s i t k e → val e ∈ hold g →
  ∃ s' g', apply_entry t s e = Ok s' ∧ store_ok g' s' ∧ frame (Some i) (Some (start_ts t)) g s g' s' ∧
    hist g' = <[k := (start_ts t, committed_value s e) :: versions g k]> (hist g) ∧ log g' = log g ∧
    hold g' = hold g ∖ {[val e]} ∧ vown g' !! val e = Some (Live k) ∧ keeps_other g s g' s' i k (val e).
Proof.
  intros Hs Hk Hlow Hready Hhold. pose proof (ready_rec _ _ _ _ _ _ Hs Hready) as Hrec.
  destruct (ready_newest _ _ _ _ _ _ Hs Hk ltac:(apply Hlow) Hready) as [Hnew Hread].
  assert (vown g !! val e = Some (Live k) ∨ vown g !! val e = Some (Pending i k)) as Hl.
  { destruct Hready as [_ Hr]. destruct (is_new e); [right|left]; apply Hr. }
  assert (∃ c, values s !! val e = Some (mkValue (-1) c) ∧ ∀ v x, pushed t e c = v :: x → start_ts t ≤ read_ts v) as (c & Hc & Hhead).
  { assert (is_Some (vown g !! val e)) as [o Ho] by (destruct Hl; eauto).
    destruct (so_value _ _ _ Hs _ _ Ho) as ([x c] & Hc & Hx & _). simpl in Hx. rewrite decide_True in Hx by done. subst x. exists c. split; [done|].
    unfold pushed. destruct (is_new e) eqn:Hn; [|intros v x [= <- <-]; simpl; lia]. destruct Hready as [_ Hr]. rewrite Hn in Hr.
    destruct Hr as (_ & _ & Hv). rewrite Hc in Hv. injection Hv as ->. intros v x [= <- <-]. simpl. lia. }
  set (c' := mkValue (-1) (pushed t e c)). set (g1 := install_ghost g s t k e). set (s1 := set_value s (val e) c').
  assert (store_ok g1 s1 ∧ frame (Some i) (Some (start_ts t)) g s g1 s1) as [Hs1 F1].
  { assert (∀ r, write_rec e = Some r → rown g !! r = Some (Local i k) ∨ rown g !! r = Some (Unborn (val e)) ∧ vown g !! val e = Some (Pending i k)) as Hp.
    { intros r Hr. rewrite Hr in Hrec. apply Hrec. }
    assert (chain_ok g1 s1 k (version c')) as Hch by (eapply install_chain; [done..|]; by rewrite Hc).
    assert (rwl c' = (if decide (val e ∈ hold g) then -1 else 0)) as Hrwl by (by rewrite decide_True).
    split.
    - by eapply (add_version_ok schema g s k (val e) i (start_ts t) (committed_value s e) (write_rec e)).
    - by eapply (add_version_frame schema g s k (val e) i (start_ts t) (committed_value s e) (write_rec e)). }
  assert (vown g1 !! val e = Some (Live k)) as Hl1 by (simpl; by rewrite lookup_insert_eq).
  destruct (gc_split (smallest_ts t) (pushed t e c)) as [kept freed] eqn:Hsplit.
  pose proof (gc_split_app (smallest_ts t) (pushed t e c)) as Happ. rewrite Hsplit in Happ. destruct Happ as [Happ Hlast].
  destruct (prune_ok schema g1 s1 (val e) k (-1) kept freed Hs1 Hl1) as (Hfree & Hs2 & F2).
  { simpl. rewrite lookup_insert_eq. unfold c'. by rewrite Happ. }
  { intros (v & ? & ?)%Hlast. exists v. split; [done|]. simpl. lia. }
  set (D := omap rec freed) in *. set (g2 := drop_ghost g1 D) in *. set (s2 := drop_store s1 (val e) (mkValue (-1) kept) D) in *.
  destruct (live_chain schema g2 s2 (val e) k Hs2 Hl1) as (c2 & Hc2 & _ & Hch2). simpl in Hc2. rewrite lookup_insert_eq in Hc2. injection Hc2 as <-.
  assert (∀ r, r ∈ D → ∃ w, rown g1 !! r = Some (Committed k w)) as HD.
  { intros r Hr. destruct (live_chain schema g1 s1 (val e) k Hs1 Hl1) as (c3 & Hc3 & _ & kk & old & _ & Hch & _).
    simpl in Hc3. rewrite lookup_insert_eq in Hc3. injection Hc3 as <-. unfold c' in Hch. simpl in Hch. rewrite Happ in Hch.
    apply Forall2_app_inv_l in Hch as (ka & kb & _ & Hb & _). destruct (chain_recs _ _ _ _ _ _ _ Hb Hr) as (w & ? & ? & _). by exists w. }
  exists (set_value s2 (val e) (mkValue 0 kept)), (set_hold g2 (hold g ∖ {[val e]})). split_and!.
  - rewrite (apply_compute t s e c kept freed _ Hc Hsplit Hfree). unfold set_value, s2, s1. simpl. by rewrite !insert_insert_eq.
  - eapply (set_value_ok schema g2 s2 (val e) (Live k) (mkValue (-1) kept)); [done|done|by simpl; rewrite lookup_insert_eq|set_solver| | |apply readers_refl].
    + by rewrite decide_False by set_solver.
    + split; [done|exact Hch2].
  - eapply mv_frame_trans; [exact F1|]. apply frame_weaken. eapply mv_frame_trans; [exact F2|].
    eapply (set_value_frame g2 s2 (val e) (Live k) (mkValue (-1) kept)); [done|by simpl; rewrite lookup_insert_eq|done].
  - done.
  - done.
  - done.
  - done.
  - split.
    + intros l' Hl'. simpl. by rewrite !lookup_insert_ne.
    + intros r o Hr Hnc Hnl Hnu. assert (rown g1 !! r = Some o) as Hr1.
      { simpl. destruct (write_rec e) as [r'|]; [|done]. rewrite lookup_insert_ne; [done|]. intros ->.
        destruct Hrec as (_ & _ & [?|[? _]]); congruence. }
      apply (drop_keep g1 s1 D r o Hr1). intros [w Hw]%HD. apply (Hnc w). congruence.
Qed.

(** ** All versions installed *)

Definition entry_key (x : Z * (Z * nat)) : Z * Z := (x.1, x.2.1).

(** The version store with the versions of the entries. *)
Definition install_entry t s (h : gmap (Z * Z) history) (x : Z * (Z * nat)) : gmap (Z * Z) history :=
  match deref_iter t x.1 x.2 with
  | Ok e => <[entry_key x := (start_ts t, committed_value s e) :: default [] (h !! entry_key x)]> h
  | _ => h
  end.
Definition install_entries t s (R : list (Z * (Z * nat))) (h : gmap (Z * Z) history) : gmap (Z * Z) history :=
  foldl (install_entry t s) h R.

Lemma install_ext t s s' R h : (∀ x e, x ∈ R → deref_iter t x.1 x.2 = Ok e → committed_value s' e = committed_value s e) →
  install_entries t s' R h = install_entries t s R h.
Proof.
  revert h. induction R as [|x R IH]; intros h Hv; [done|]. simpl. rewrite IH by (intros ? ? ?; apply Hv; by right).
  f_equal. unfold install_entry. destruct (deref_iter t x.1 x.2) as [e| | |] eqn:He; [|done..]. rewrite (Hv x e); [done|left|done].
Qed.

Lemma ready_owner g s i t k e : ready g s i t k e → vown g !! val e = Some (Live k) ∨ vown g !! val e = Some (Pending i k).
Proof. intros [_ Hr]. destruct (is_new e); [right|left]; apply Hr. Qed.

Lemma ready_keep g s g' s' i t k l k' e' : store_ok g s → keeps_other g s g' s' i k l → k' ≠ k → vown g !! l = Some (Live k) ∨ vown g !! l = Some (Pending i k) →
  versions g' k' = versions g k' → ready g s i t k' e' →
  ready g' s' i t k' e' ∧ committed_value s' e' = committed_value s e' ∧ val e' ≠ l.
Proof.
  intros Hs [Hv Hr] Hne Hl Hver Hready. assert (val e' ≠ l) as Hnl.
  { intros <-. destruct (ready_owner _ _ _ _ _ _ Hready), Hl; congruence. }
  destruct (Hv _ Hnl) as [Hvo Hval].
  assert (match write_rec e' with Some r => records s' !! r = records s !! r ∧ (rown g !! r = Some (Local i k') → rown g' !! r = Some (Local i k')) | None => True end) as Hrec.
  { pose proof (ready_rec _ _ _ _ _ _ Hs Hready) as Hrec. destruct (write_rec e') as [r|]; [|done]. destruct Hrec as (_ & _ & Hown).
    destruct Hown as [Ho|[Ho _]]; destruct (Hr r _ Ho) as [? ?]; try congruence; [done|]. split; [done|congruence]. }
  split; [|split; [|done]].
  - destruct Hready as [Hf Hready]. split; [by rewrite Hver|]. rewrite Hvo, Hval. destruct (is_new e'); [done|].
    destruct Hready as (H1 & H2 & H3 & H4). split; [done|]. split; [done|]. split; [done|]. destruct (decide (rwt e' = DELETE)); [done|].
    destruct H4 as (r & b & Hw & Hown & Hb & Hsz). rewrite Hw in Hrec. destruct Hrec as [Hrec Hrown]. exists r, b. rewrite Hrec. split_and!; [done|by apply Hrown|done..].
  - unfold committed_value. destruct (write_rec e') as [r|]; [|done]. simpl. by destruct Hrec as [-> _].
Qed.

(** The entries to install: each checked and locked, and nothing else is. *)
Record installing g s i t (R : list (Z * (Z * nat))) : Prop := {
  in_store : store_ok g s;
  in_low : smallest_ts t ≤ low g ≤ start_ts t;
  in_once : NoDup (entry_key <$> R);
  in_ready : ∀ x, x ∈ R → ∃ e, deref_iter t x.1 x.2 = Ok e ∧ word64 (entry_key x).2 ∧ ready g s i t (entry_key x) e ∧ val e ∈ hold g;
  in_hold : ∀ l, l ∈ hold g → ∃ x e, x ∈ R ∧ deref_iter t x.1 x.2 = Ok e ∧ val e = l;
  in_pending : ∀ l j k, vown g !! l = Some (Pending j k) → l ∈ hold g
}.

Lemma apply_entries_ok i t R g s : installing g s i t R →
  ∃ s' g', apply_entries t s R = Ok s' ∧ store_ok g' s' ∧ frame (Some i) (Some (start_ts t)) g s g' s' ∧ quiet g' ∧
    hist g' = install_entries t s R (hist g) ∧ log g' = log g.
Proof.
  revert g s. induction R as [|x R IH]; intros g s [Hs Hlow Hnd Hready Hhold Hpend].
  - exists s, g. split; [done|]. split; [done|]. split; [apply mv_frame_refl|]. split; [|done].
    assert (hold g = ∅) as Hemp. { apply set_eq. intros l. split; [|set_solver]. intros (x & ? & ?%not_elem_of_nil & _)%Hhold. done. }
    split; [done|]. intros l j k Hl%Hpend. set_solver.
  - destruct (Hready x ltac:(left)) as (e & He & Hk & Hr & Hh). csimpl in Hnd. apply NoDup_cons in Hnd as [Hni Hnd].
    destruct (apply_entry_ok g s i t (entry_key x) e Hs Hk Hlow Hr Hh) as (s1 & g1 & Ha & Hs1 & F1 & Hh1 & Hlog1 & Hhold1 & Hl1 & Hkeep).
    assert (∀ k', k' ≠ entry_key x → versions g1 k' = versions g k') as Hver by (intros k' Hne; unfold versions; by rewrite Hh1, lookup_insert_ne).
    assert (∀ y e', y ∈ R → deref_iter t y.1 y.2 = Ok e' → ready g1 s1 i t (entry_key y) e' ∧ committed_value s1 e' = committed_value s e' ∧ val e' ≠ val e ∧ val e' ∈ hold g) as Hrest.
    { intros y e' Hy He'. assert (entry_key y ≠ entry_key x) as Hne by (intros Heq; apply Hni; rewrite <- Heq; by apply list_elem_of_fmap_2).
      destruct (Hready y ltac:(by right)) as (e2 & He2 & _ & Hr2 & Hh2). rewrite He' in He2. injection He2 as <-.
      destruct (ready_keep g s g1 s1 i t (entry_key x) (val e) (entry_key y) e' Hs Hkeep Hne (ready_owner _ _ _ _ _ _ Hr) (Hver _ Hne) Hr2) as (? & ? & ?). done. }
    destruct (IH g1 s1) as (s' & g' & Hap & Hs' & F & Hq & Hhist & Hlog).
    { split; [done|by rewrite (fr_low _ _ _ _ _ _ F1)|done|..].
      - intros y Hy. destruct (Hready y ltac:(by right)) as (e' & He' & Hk' & _). destruct (Hrest y e' Hy He') as (? & _ & ? & ?).
        exists e'. rewrite Hhold1. split_and!; [done..|set_solver].
      - intros l. rewrite Hhold1. intros [(y & e' & Hy & He' & <-)%Hhold Hl]%elem_of_difference. apply elem_of_cons in Hy as [->|Hy].
        + rewrite He in He'. injection He' as <-. set_solver.
        + by exists y, e'.
      - intros l j k Hl. rewrite Hhold1. destruct (decide (l = val e)) as [->|Hne]; [congruence|].
        destruct (proj1 Hkeep l Hne) as [Hvo _]. rewrite Hvo in Hl. apply Hpend in Hl. set_solver. }
    exists s', g'. split_and!; [|done|by eapply mv_frame_trans|done| |congruence].
    + simpl. destruct x as [tb it]. simpl in *. rewrite He. simpl. rewrite Ha. simpl. exact Hap.
    + rewrite Hhist, Hh1. change (install_entries t s (x :: R) (hist g)) with (install_entries t s R (install_entry t s (hist g) x)).
      assert (install_entry t s (hist g) x = <[entry_key x := (start_ts t, committed_value s e) :: versions g (entry_key x)]> (hist g)) as ->
        by (unfold install_entry; by rewrite He). apply install_ext. intros y e' Hy He'. by apply (Hrest y e').
Qed.

(** ** Taking back *)

Definition owner_key (o : vowner) : Z * Z := match o with Live k | Private _ k | Pending _ k | Dead _ k => k end.

Lemma elem_key g s i t k e : elem_ok g s i t k e → ∃ o, vown g !! val e = Some o ∧ owner_key o = k.
Proof.
  unfold MvtoInv.elem_ok. destruct (rwt e); try (intros (_ & -> & _); by eexists). intros [_ He]. destruct (is_new e).
  - destruct He as [[[->| ->] _]|[_ ->]]; by eexists.
  - destruct He as [_ [->|[j ->]]]; by eexists.
Qed.

Lemma iter_elem g s i t x : tx_ok g s i t → x.2 ∈ w_table t x.1 →
  ∃ e, deref_iter t x.1 x.2 = Ok e ∧ find t (entry_key x) = Some e ∧ rwt e ≠ READ ∧ word64 (entry_key x).2 ∧ elem_ok g s i t (entry_key x) e.
Proof.
  intros Ht Hx. destruct (wo_iter _ (to_writes _ _ _ _ _ _ Ht) _ _ Hx) as (e & He & Hr). exists e.
  assert (find t (entry_key x) = Some e) as Hf by (unfold find, entry_key; by rewrite He).
  split; [unfold deref_iter; rewrite He; by rewrite decide_True|]. split; [done|]. split; [done|]. split; [|by apply Ht].
  apply (wo_table _ (to_writes _ _ _ _ _ _ Ht)). unfold entry_key. eauto.
Qed.

(** A transaction keeps its part when its entries do. *)
Lemma tx_own u g s g' s' i t : hist g' = hist g → low g' = low g → MvtoInv.tx_ok schema u g s i t →
  (∀ k e, find t k = Some e → MvtoInv.elem_ok schema u g s i t k e → MvtoInv.elem_ok schema u g' s' i t k e) →
  (∀ k w p, seen_ok schema g s t k w p → seen_ok schema g' s' t k w p) → MvtoInv.tx_ok schema u g' s' i t.
Proof.
  intros Hh Hlow [H1 H2 H3 H4 H5] He Hse. split; [by rewrite Hlow|unfold versions; by rewrite Hh|eauto..|done].
Qed.

(** A value that was being inserted is taken out of the tree again. *)
Lemma delete_compute t s k l c v r : values s !! l = Some c → version c = [v] → rec v = Some r → is_Some (records s !! r) →
  delete_from_tree t s k l = Ok (set_gc t (TimestampGC.collect (gc t) (largest_ts t) l), retire_store s l k (rwl c) [r]).
Proof.
  intros Hc Hv Hr [b Hb]. unfold delete_from_tree, load_chain, set_chain. simpl. rewrite Hc. simpl. rewrite Hv. simpl.
  unfold free. rewrite Hr. simpl. by rewrite Hb.
Qed.

Lemma remove_inserted_ok g s i t k e : store_ok g s → tx_ok g s i t → gc_ok g i (gc t) → word64 k.2 → vown g !! val e = Some (Pending i k) →
  ∃ c s' g', delete_from_tree t s k (val e) = Ok (set_gc t c, s') ∧ store_ok g' s' ∧ tx_ok g' s' i (set_gc t c) ∧ gc_ok g' i c ∧
    frame (Some i) None g s g' s' ∧ same_spec g g' ∧ hold g' = hold g ∧ vown g' = <[val e := Dead i k]> (vown g).
Proof.
  intros Hs Ht Hgc Hk Hl. destruct (so_value _ _ _ Hs _ _ Hl) as (c & Hc & _ & ts & r & b & Hv & Hown & Hb & _).
  assert (∀ r', r' ∈ [r] → rown g !! r' = Some (Unborn (val e))) as HD by (by intros r' ->%list_elem_of_singleton).
  set (g' := retire_ghost g (val e) i k [r]). set (s' := retire_store s (val e) k (rwl c) [r]).
  assert (∀ r' o, rown g !! r' = Some o → o ≠ Unborn (val e) → rown g' !! r' = Some o ∧ records s' !! r' = records s !! r') as Hkeep.
  { intros r' o Hr' Ho. apply (drop_keep g s [r]); [done|]. intros ?%HD. congruence. }
  assert (∀ l' o, vown g !! l' = Some o → (∀ j k', o ≠ Pending j k') → vown g' !! l' = Some o) as Hvo.
  { intros l' o Hl' Hne. simpl. rewrite lookup_insert_ne; [done|]. intros <-. rewrite Hl in Hl'. injection Hl' as <-. by destruct (Hne i k). }
  assert (∀ k' p, local schema g s i k' p → local schema g' s' i k' p) as Hloc.
  { intros k' p (r' & b' & -> & Hr' & Hb' & Hsz). destruct (Hkeep r' _ Hr' ltac:(done)) as [? Heq]. exists r', b'. by rewrite Heq. }
  eexists _, s', g'. split; [by eapply delete_compute|]. split_and!.
  - eapply (mv_retire_ok schema g s (val e) (Pending i k) i k c [r]); [done..|right; by exists i|done|done|by eapply pending_tomb|done].
  - apply tx_set_gc. eapply (tx_own true g s); [done|done|exact Ht| |].
    + intros k' e' _ He'. unfold MvtoInv.elem_ok in *.
      destruct (rwt e'); try (destruct He' as (? & Hl' & ? & Hw); split; [done|]; split; [by apply Hvo|]; split; [done|];
        destruct (decide _); [by apply Hloc|done]).
      destruct He' as [? He']. split; [done|]. destruct (is_new e').
      * destruct (decide (val e' = val e)) as [Heq|Hne].
        -- right. split; [done|]. simpl. rewrite Heq, lookup_insert_eq. rewrite Heq, Hl in He'. destruct He' as [[[?|[= ->]] _]|[_ ?]]; done.
        -- simpl. by rewrite !lookup_insert_ne.
      * destruct He' as [? He']. split; [by apply Hloc|]. destruct He' as [?|[j ?]]; [left|right; exists j]; by apply Hvo.
    + intros k' w p (r' & b' & l' & -> & Hin & Hr' & Hb' & Hsz & Hl'). destruct (Hkeep r' _ Hr' ltac:(done)) as [? Heq].
      exists r', b', l'. rewrite Heq. split_and!; [done..|]. by apply Hvo.
  - eapply gc_ok_collect; [done| |simpl; by rewrite lookup_insert_eq|congruence]. intros. by apply Hvo.
  - eapply retire_frame; [done..|]. right. by exists i.
  - done.
  - done.
  - done.
Qed.

(** A failed commit on its way back: [R] is still to be taken out of the
    tree, [L] to be unlocked. *)
Record unwinding g s i t (R L : list (Z * (Z * nat))) : Prop := {
  un_store : store_ok g s;
  un_tx : tx_ok g s i t;
  un_gc : gc_ok g i (gc t);
  un_once : NoDup (entry_key <$> R);
  un_ready : ∀ x, x ∈ R → ∃ e, deref_iter t x.1 x.2 = Ok e ∧ word64 (entry_key x).2 ∧
    (rwt e = INSERT ∧ is_new e = true → vown g !! val e = Some (Pending i (entry_key x)));
  un_pending : ∀ l j k, vown g !! l = Some (Pending j k) → ∃ x e, x ∈ R ∧ deref_iter t x.1 x.2 = Ok e ∧ rwt e = INSERT ∧ is_new e = true ∧ val e = l;
  un_locked : NoDup (entry_key <$> L) ∧ ∀ x, x ∈ L → ∃ e, deref_iter t x.1 x.2 = Ok e ∧ val e ∈ hold g ∧ ∃ o, vown g !! val e = Some o ∧ owner_key o = entry_key x;
  un_hold : ∀ l, l ∈ hold g → ∃ x e, x ∈ L ∧ deref_iter t x.1 x.2 = Ok e ∧ val e = l
}.

Lemma remove_entries_ok i L R t g s : unwinding g s i t R L →
  ∃ c s' g', remove_entries t s R = Ok (set_gc t c, s') ∧ unwinding g' s' i (set_gc t c) [] L ∧ frame (Some i) None g s g' s' ∧ same_spec g g'.
Proof.
  revert t g s. induction R as [|x R IH]; intros t g s U.
  - exists (gc t), s, g. assert (t = set_gc t (gc t)) as <- by (by destruct t). split; [done|]. split; [done|]. split; [apply mv_frame_refl|done].
  - destruct U as [Hs Ht Hgc Hnd Hready Hpend Hlock Hhold]. destruct (Hready x ltac:(left)) as (e & He & Hk & Hp).
    csimpl in Hnd. apply NoDup_cons in Hnd as [Hni Hnd]. destruct x as [tb it]. simpl. simpl in He. rewrite He. simpl.
    unfold remove_inserted. destruct (decide (rwt e = INSERT ∧ is_new e = true)) as [Hin|Hno]; simpl.
    + specialize (Hp Hin). change (tb, it.1) with (entry_key (tb, it)).
      destruct (remove_inserted_ok g s i t (entry_key (tb, it)) e Hs Ht Hgc Hk Hp) as (c1 & s1 & g1 & Hd & Hs1 & Ht1 & Hgc1 & F1 & [Hh1 Hlog1] & Hhold1 & Hvo1).
      rewrite Hd. simpl. destruct (IH (set_gc t c1) g1 s1) as (c2 & s2 & g2 & Hrem & U2 & F2 & [Hh2 Hlog2]).
      { split; [done..| | | |].
        - intros y Hy. destruct (Hready y ltac:(by right)) as (e' & He' & Hk' & Hp'). exists e'. split; [done|]. split; [done|]. intros Hin'.
          specialize (Hp' Hin'). rewrite Hvo1, lookup_insert_ne; [done|]. intros Heq. rewrite <- Heq in Hp'. rewrite Hp in Hp'.
          apply Hni. assert (entry_key (tb, it) = entry_key y) as -> by congruence. by apply list_elem_of_fmap_2.
        - intros l j k. rewrite Hvo1. destruct (decide (l = val e)) as [->|Hne]; [by rewrite lookup_insert_eq|]. rewrite lookup_insert_ne by done.
          intros (y & e' & Hy & He' & Hr' & Hn' & Hv')%Hpend. apply elem_of_cons in Hy as [->|Hy]; [|by exists y, e'].
          simpl in He'. rewrite He in He'. injection He' as <-. by destruct Hne.
        - destruct Hlock as [HndL HLk]. split; [done|]. intros y Hy. destruct (HLk y Hy) as (e' & He' & Hh' & o & Ho & Hok). exists e'. rewrite Hhold1.
          split; [done|]. split; [done|]. rewrite Hvo1. destruct (decide (val e' = val e)) as [Heq|Hne].
          + rewrite Heq, lookup_insert_eq. eexists. split; [done|]. rewrite Heq, Hp in Ho. injection Ho as <-. exact Hok.
          + rewrite lookup_insert_ne by done. eauto.
        - intros l. rewrite Hhold1. intros Hl%Hhold. exact Hl. }
      exists c2, s2, g2. split; [exact Hrem|]. split; [exact U2|]. split; [by eapply mv_frame_trans|]. split; congruence.
    + apply IH. split; [done..| | |done|done].
      * intros y Hy. apply Hready. by right.
      * intros l j k (y & e' & Hy & He' & Hr' & Hn' & Hv')%Hpend. apply elem_of_cons in Hy as [->|Hy]; [|by exists y, e'].
        simpl in He'. rewrite He in He'. injection He' as <-. by destruct Hno.
Qed.

Lemma unlock_entries_ok i L t g s : unwinding g s i t [] L →
  ∃ s' g', unlock_entries t s L = Ok s' ∧ turn g' s' i t ∧ frame None None g s g' s' ∧ same_spec g g'.
Proof.
  revert g s. induction L as [|x L IH]; intros g s [Hs Ht Hgc _ _ Hpend [HndL HLk] Hhold].
  - exists s, g. split; [done|]. split; [|split; [apply mv_frame_refl|done]]. split; [done| |done|done].
    split; [|intros l j k (x & e & Hx%not_elem_of_nil & _)%Hpend; done].
    apply set_eq. intros l. split; [|set_solver]. intros (x & ? & ?%not_elem_of_nil & _)%Hhold. done.
  - destruct (HLk x ltac:(left)) as (e & He & Hh & o & Ho & Hok). csimpl in HndL. apply NoDup_cons in HndL as [Hni HndL].
    destruct (so_value _ _ _ Hs _ _ Ho) as ([n c] & Hc & Hn & Hown). simpl in *. rewrite decide_True in Hn by done. subst n.
    set (g1 := set_hold g (hold g ∖ {[val e]})). set (s1 := set_value s (val e) (mkValue 0 c)).
    assert (store_ok g1 s1) as Hs1.
    { eapply (set_value_ok schema g s (val e) o (mkValue (-1) c)); [done..|set_solver|by rewrite decide_False by set_solver|done|apply readers_refl]. }
    assert (frame None None g s g1 s1) as F1 by (eapply (set_value_frame g s (val e) o (mkValue (-1) c)); done).
    destruct (IH g1 s1) as (s2 & g2 & Hu & Ht2 & F2 & [Hh2 Hl2]).
    { split; [done|by eapply tx_frame|done|constructor|by intros ? ?%not_elem_of_nil|done|..].
      - split; [done|]. intros y Hy. destruct (HLk y ltac:(by right)) as (e' & He' & Hh' & o' & Ho' & Hok'). exists e'. split; [done|].
        split; [|by exists o']. simpl. apply elem_of_difference. split; [done|]. intros Heq%elem_of_singleton. apply Hni.
        rewrite Heq, Ho in Ho'. injection Ho' as <-. rewrite <- Hok, Hok'. by apply list_elem_of_fmap_2.
      - intros l [(y & e' & Hy & He' & <-)%Hhold Hne]%elem_of_difference. apply elem_of_cons in Hy as [->|Hy]; [|by exists y, e'].
        rewrite He in He'. injection He' as <-. set_solver. }
    exists s2, g2. split; [|split; [done|split; [by eapply mv_frame_trans|split; [exact Hh2|exact Hl2]]]].
    simpl. destruct x as [tb it]. simpl in *. rewrite He. simpl. unfold unlock. rewrite Hc. exact Hu.
Qed.

(** ** Locking and checking *)

(** The rows of [D] are locked and checked. *)
Record locking g s i t (D : list (Z * (Z * nat))) : Prop := {
  lk_install : installing g s i t D;
  lk_tx : tx_ok g s i t;
  lk_gc : gc_ok g i (gc t)
}.

(** The row of [e] is locked too. *)
Record next_locked g s g' s' i t (D : list (Z * (Z * nat))) e : Prop := {
  nl_store : store_ok g' s';
  nl_tx : tx_ok g' s' i t;
  nl_gc : gc_ok g' i (gc t);
  nl_frame : frame (Some i) None g s g' s';
  nl_spec : same_spec g g';
  nl_ready : ∀ y e', y ∈ D → deref_iter t y.1 y.2 = Ok e' → ready g s i t (entry_key y) e' → ready g' s' i t (entry_key y) e';
  nl_hold : hold g' = {[val e]} ∪ hold g;
  nl_vown : ∀ l, l ≠ val e → vown g' !! l = vown g !! l
}.

Lemma ready_same g s g' s' i t k e : versions g' k = versions g k → vown g' !! val e = vown g !! val e →
  version <$> values s' !! val e = version <$> values s !! val e → rown g' = rown g → records s' = records s →
  ready g s i t k e → ready g' s' i t k e.
Proof. intros Hv Ho Hc Hr Hm [Hf Hready]. unfold ready, local in *. rewrite Hv, Ho, Hc, Hr, Hm. done. Qed.

Lemma next_pass g s g' s' i t D x e : locking g s i t D → next_locked g s g' s' i t D e → entry_key x ∉ (entry_key <$> D) →
  deref_iter t x.1 x.2 = Ok e → word64 (entry_key x).2 → ready g' s' i t (entry_key x) e → locking g' s' i t (D ++ [x]).
Proof.
  intros [[Hs Hlow Hnd Hready Hhold Hpend] Ht Hgc] N Hni He Hk Hr. split; [|apply N..]. split.
  - apply N.
  - by rewrite (fr_low _ _ _ _ _ _ (nl_frame _ _ _ _ _ _ _ _ N)).
  - rewrite fmap_app. apply NoDup_app. split_and!; [done| |apply NoDup_singleton]. intros k Hk' ->%list_elem_of_singleton. done.
  - intros y [Hy| ->%list_elem_of_singleton]%elem_of_app.
    + destruct (Hready y Hy) as (e' & He' & Hk' & Hr' & Hh'). exists e'. rewrite (nl_hold _ _ _ _ _ _ _ _ N).
      split; [done|]. split; [done|]. split; [by eapply N|set_solver].
    + exists e. rewrite (nl_hold _ _ _ _ _ _ _ _ N). split; [done|]. split; [done|]. split; [done|set_solver].
  - intros l. rewrite (nl_hold _ _ _ _ _ _ _ _ N). intros [->%elem_of_singleton|(y & e' & Hy & ?)%Hhold]%elem_of_union.
    + exists x, e. split; [set_solver|done].
    + exists y, e'. split; [set_solver|done].
  - intros l j k Hl. rewrite (nl_hold _ _ _ _ _ _ _ _ N). destruct (decide (l = val e)) as [->|Hne]; [set_solver|].
    rewrite (nl_vown _ _ _ _ _ _ _ _ N) in Hl by done. apply Hpend in Hl. set_solver.
Qed.

Lemma next_fail g s g' s' i t D x e (b : bool) : locking g s i t D → next_locked g s g' s' i t D e → entry_key x ∉ (entry_key <$> D) →
  deref_iter t x.1 x.2 = Ok e → word64 (entry_key x).2 → find t (entry_key x) = Some e →
  (if b then ∀ j k, vown g' !! val e ≠ Some (Pending j k)
   else rwt e = INSERT ∧ is_new e = true ∧ vown g' !! val e = Some (Pending i (entry_key x))) →
  unwinding g' s' i t (if b then D else D ++ [x]) (D ++ [x]).
Proof.
  intros [[Hs Hlow Hnd Hready Hhold Hpend] Ht Hgc] N Hni He Hk Hf Hb.
  assert (NoDup (entry_key <$> D ++ [x])) as Hnd'.
  { rewrite fmap_app. apply NoDup_app. split_and!; [done| |apply NoDup_singleton]. intros k Hk' ->%list_elem_of_singleton. done. }
  assert (∀ y, y ∈ D → ∃ e', deref_iter t y.1 y.2 = Ok e' ∧ word64 (entry_key y).2 ∧ ready g' s' i t (entry_key y) e' ∧ val e' ∈ hold g) as HD.
  { intros y Hy. destruct (Hready y Hy) as (e' & He' & Hk' & Hr' & Hh'). exists e'. split; [done|]. split; [done|]. split; [by eapply N|done]. }
  split; [apply N..|by destruct b| | | |].
  - assert (∀ y, y ∈ D → ∃ e', deref_iter t y.1 y.2 = Ok e' ∧ word64 (entry_key y).2 ∧
      (rwt e' = INSERT ∧ is_new e' = true → vown g' !! val e' = Some (Pending i (entry_key y)))) as HD'.
    { intros y Hy. destruct (HD y Hy) as (e' & He' & Hk' & [_ Hr'] & _). exists e'. split; [done|]. split; [done|].
      intros [_ Hn]. rewrite Hn in Hr'. apply Hr'. }
    destruct b; [done|]. intros y [Hy| ->%list_elem_of_singleton]%elem_of_app; [by apply HD'|]. exists e. by destruct Hb as (_ & _ & ?).
  - intros l j k Hl. destruct (decide (l = val e)) as [->|Hne].
    + destruct b; [by destruct (Hb j k)|]. exists x, e. destruct Hb as (? & ? & _). split_and!; [set_solver|done..].
    + assert (l ∈ hold g) as (y & e' & Hy & He' & <-)%Hhold.
      { rewrite (nl_vown _ _ _ _ _ _ _ _ N) in Hl by done. by eapply Hpend. }
      destruct (HD y Hy) as (e2 & He2 & _ & [_ Hr] & _). rewrite He' in He2. injection He2 as <-. exists y, e'.
      split; [destruct b; set_solver|]. split; [done|]. destruct (is_new e'); [by split; [apply Hr|]|]. destruct Hr as [Hr _]. congruence.
  - split; [done|]. intros y [Hy| ->%list_elem_of_singleton]%elem_of_app.
    + destruct (HD y Hy) as (e' & He' & _ & Hr & Hh). exists e'. rewrite (nl_hold _ _ _ _ _ _ _ _ N). split; [done|]. split; [set_solver|].
      destruct (ready_owner _ _ _ _ _ _ Hr) as [->| ->]; by eexists.
    + exists e. rewrite (nl_hold _ _ _ _ _ _ _ _ N). split; [done|]. split; [set_solver|]. eapply elem_key. by apply (nl_tx _ _ _ _ _ _ _ _ N).
  - intros l. rewrite (nl_hold _ _ _ _ _ _ _ _ N). intros [->%elem_of_singleton|(y & e' & Hy & ?)%Hhold]%elem_of_union.
    + exists x, e. split; [set_solver|done].
    + exists y, e'. split; [set_solver|done].
Qed.

(** The lock is free, since the keys differ. *)
Lemma lock_next_ok g s i t D x e : locking g s i t D → entry_key x ∉ (entry_key <$> D) → find t (entry_key x) = Some e →
  ∃ c, values s !! val e = Some (mkValue 0 c) ∧
    let s' := set_value s (val e) (mkValue (-1) c) in let g' := set_hold g ({[val e]} ∪ hold g) in
    lock s (val e) = Ok (mkValue (-1) c, s') ∧ next_locked g s g' s' i t D e ∧ (∀ j k, vown g !! val e ≠ Some (Pending j k)).
Proof.
  intros [[Hs Hlow Hnd Hready Hhold Hpend] Ht Hgc] Hni Hf. destruct (elem_key _ _ _ _ _ _ (to_elem _ _ _ _ _ _ Ht _ _ Hf)) as (o & Ho & Hok).
  assert (val e ∉ hold g) as Hnh.
  { intros (y & e' & Hy & He' & Heq)%Hhold. apply Hni. destruct (Hready y Hy) as (e2 & He2 & _ & Hr & _). rewrite He' in He2. injection He2 as <-.
    apply ready_owner in Hr. rewrite Heq, Ho in Hr. rewrite <- Hok. destruct Hr as [[= ->]|[= ->]]; simpl; by apply list_elem_of_fmap_2. }
  destruct (so_value _ _ _ Hs _ _ Ho) as ([n c] & Hc & Hn & Hown). simpl in *. rewrite decide_False in Hn by done. subst n.
  assert (frame None None g s (set_hold g ({[val e]} ∪ hold g)) (set_value s (val e) (mkValue (-1) c))) as F
    by (eapply (set_value_frame g s (val e) o (mkValue 0 c)); done).
  exists c. split; [done|]. split_and!.
  - unfold lock. by rewrite Hc.
  - split; [|by eapply tx_frame|done|by apply frame_weaken|done| |done|done].
    + eapply (set_value_ok schema g s (val e) o (mkValue 0 c)); [done..|set_solver|by rewrite decide_True by set_solver|done|apply readers_refl].
    + intros y e' Hy He'. apply ready_same; try done. simpl. destruct (decide (val e' = val e)) as [->|]; [by rewrite lookup_insert_eq, Hc|].
      by rewrite lookup_insert_ne.
  - intros j k Hp%Hpend. done.
Qed.

(** The index takes the new value. *)
Lemma enter_next g s g1 s1 i t D e k ix : locking g s i t D → next_locked g s g1 s1 i t D e → find t k = Some e → word64 k.2 →
  rwt e = INSERT → is_new e = true → vown g1 !! val e = Some (Private i k) →
  version <$> values s1 !! val e = Some [mkVersion (start_ts t) (start_ts t) (write_rec e) false] →
  idx_at (idx s1) k.1 k.2 = None → index_ok ix →
  (∀ tb key, word64 key → idx_at ix tb key = if decide (tb = k.1 ∧ key = k.2) then Some (val e) else idx_at (idx s1) tb key) →
  let g2 := set_vown g1 (<[val e := Pending i k]> (vown g1)) in
  next_locked g s g2 (set_idx s1 ix) i t D e ∧ ready g2 (set_idx s1 ix) i t k e.
Proof.
  intros LK N Hf Hk Hr Hn Hl Hc Hat Hix Hat' g2. destruct N as [Hs1 Ht1 Hgc1 F1 [Hh1 Hlog1] Hready1 Hhold1 Hvo1].
  destruct (mv_enter_ok schema g1 s1 (val e) i k ix Hs1 Hl Hk Hat Hix Hat') as [Hs2 F2]. fold g2 in Hs2, F2.
  assert (∀ l, l ≠ val e → vown g2 !! l = vown g1 !! l) as Hvo by (intros l Hne; unfold g2; simpl; by rewrite lookup_insert_ne).
  split; [split|].
  - done.
  - eapply (tx_own true g1 s1); [done|done|done| |].
    + intros k' e' Hf' He'. destruct (decide (val e' = val e)) as [Heq|Hne].
      * destruct (elem_key _ _ _ _ _ _ He') as (o & Ho & Hok). rewrite Heq, Hl in Ho. injection Ho as <-. simpl in Hok. subst k'.
        rewrite Hf in Hf'. injection Hf' as <-. unfold MvtoInv.elem_ok in *. rewrite Hr, Hn in *. destruct He' as [? _]. split; [done|]. left.
        split; [|done]. right. unfold g2. simpl. by rewrite lookup_insert_eq.
      * unfold MvtoInv.elem_ok, local in *. by rewrite (Hvo _ Hne).
    + intros k' w p (r' & b' & l' & -> & Hin & Hr' & Hb' & Hsz & Hl'). exists r', b', l'. split_and!; [done..|]. rewrite Hvo; [done|]. intros ->. congruence.
  - destruct Hgc1 as [? Hd]. split; [done|]. intros l [k' Hl']%Hd. exists k'. rewrite Hvo; [done|]. intros ->. congruence.
  - by eapply mv_frame_trans.
  - done.
  - intros y e' Hy He' Hr'. pose proof (Hready1 y e' Hy He' Hr') as Hr1. eapply (ready_same g1 s1); try done. apply Hvo.
    intros Heq. apply ready_owner in Hr1. rewrite Heq, Hl in Hr1. by destruct Hr1.
  - done.
  - intros l Hne. rewrite Hvo by done. by apply Hvo1.
  - split; [intros x; by apply (to_fresh _ _ _ _ _ _ Ht1)|]. rewrite Hn. split; [done|]. split; [|done]. unfold g2. simpl. by rewrite lookup_insert_eq.
Qed.

Definition check_outcome g s i t D x (o : outcome (option bool * store)) : Prop :=
  ∃ s' g', frame (Some i) None g s g' s' ∧ same_spec g g' ∧
    ((o = Ok (None, s') ∧ locking g' s' i t (D ++ [x]) ∧ records s' = records s) ∨
     ∃ b : bool, o = Ok (Some b, s') ∧ unwinding g' s' i t (if b then D else D ++ [x]) (D ++ [x])).

(** A row of the tree is checked against its latest version. *)
Lemma check_live g s g1 s1 i t D x e h c (ok : bool) : locking g s i t D → next_locked g s g1 s1 i t D e → records s1 = records s → entry_key x ∉ (entry_key <$> D) →
  deref_iter t x.1 x.2 = Ok e → word64 (entry_key x).2 → find t (entry_key x) = Some e → is_new e = false → rwt e ≠ READ →
  (∀ j k, vown g1 !! val e ≠ Some (Pending j k)) → version <$> values s1 !! val e = Some (h :: c) →
  check_outcome g s i t D x (Ok (if (start_ts t <? read_ts h) || (start_ts t <? write_ts h) || ok then Some true else None, s1)).
Proof.
  intros LK N Hrecs Hni He Hk Hf Hn Hr Hnp Hc. exists s1, g1. split; [apply N|]. split; [apply N|].
  destruct (_ || _ || ok) eqn:Hchk; [right; exists true; split; [done|]; by eapply (next_fail g s g1 s1 i t D x e true)|].
  left. split; [done|]. split; [|done]. eapply next_pass; [done..|]. apply orb_false_iff in Hchk as [[H1%Z.ltb_ge H2%Z.ltb_ge]%orb_false_iff _].
  pose proof (nl_tx _ _ _ _ _ _ _ _ N) as Ht1. split; [intros y; by apply (to_fresh _ _ _ _ _ _ Ht1)|]. rewrite Hn.
  pose proof (to_elem _ _ _ _ _ _ Ht1 _ _ Hf) as Helem. unfold MvtoInv.elem_ok in Helem.
  assert (vown g1 !! val e = Some (Live (entry_key x)) ∧ if decide (rwt e = DELETE) then write_rec e = None else local schema g1 s1 i (entry_key x) (write_rec e)) as [Hl Hw].
  { destruct (rwt e) eqn:Hrwt; [done|..]; simpl in Helem |- *.
    - by destruct Helem as (_ & ? & _ & ?).
    - rewrite Hn in Helem. destruct Helem as (_ & Hw & Hl). split; [|done]. destruct Hl as [?|[j Hl]]; [done|].
      destruct (so_value _ _ _ (nl_store _ _ _ _ _ _ _ _ N) _ _ Hl) as (cc & Hcc & _ & Hnil). simpl in Hnil. rewrite Hcc in Hc. simpl in Hc. congruence.
    - by destruct Helem as (_ & ? & _ & ?). }
  split; [done|]. split; [done|]. split; [|done]. exists h, c. done.
Qed.

Lemma check_entry_ok g s i t D x : locking g s i t D → x.2 ∈ w_table t x.1 → entry_key x ∉ (entry_key <$> D) →
  ∃ e (c : Value) s1, deref_iter t x.1 x.2 = Ok e ∧ lock s (val e) = Ok (c, s1) ∧ check_outcome g s i t D x (check_entry t s1 (entry_key x) e c).
Proof.
  intros LK Hx Hni. destruct (iter_elem g s i t x (lk_tx _ _ _ _ _ LK) Hx) as (e & He & Hf & Hr & Hk & _).
  destruct (lock_next_ok g s i t D x e LK Hni Hf) as (c & Hc & Hlock & N & Hnp). cbv zeta in *.
  set (s1 := set_value s (val e) (mkValue (-1) c)) in *. set (g1 := set_hold g ({[val e]} ∪ hold g)) in *.
  exists e, (mkValue (-1) c), s1. split; [done|]. split; [done|]. unfold check_entry. cbn [version].
  assert (version <$> values s1 !! val e = Some c) as Hc1 by (simpl; by rewrite lookup_insert_eq).
  destruct c as [|h c].
  { exists s1, g1. split; [apply N|]. split; [apply N|]. right. exists true. split; [done|]. by eapply (next_fail g s g1 s1 i t D x e true). }
  pose proof (nl_tx _ _ _ _ _ _ _ _ N) as Ht1. pose proof (to_elem _ _ _ _ _ _ Ht1 _ _ Hf) as Helem. unfold MvtoInv.elem_ok in Helem.
  destruct (rwt e) eqn:Hrwt; [done|..].
  - destruct Helem as (Hn & _). by eapply (check_live g s g1 s1); try done; rewrite Hrwt.
  - destruct (is_new e) eqn:Hn; [|by eapply (check_live g s g1 s1); try done; rewrite Hrwt].
    assert (vown g1 !! val e = Some (Private i (entry_key x)) ∧ h :: c = [mkVersion (start_ts t) (start_ts t) (write_rec e) false]) as [Hl Hch].
    { destruct Helem as [_ [[[?|Hp] Hch]|[_ Hd]]].
      - rewrite Hc1 in Hch. split; [done|congruence].
      - by destruct (Hnp i (entry_key x)).
      - destruct (so_value _ _ _ (nl_store _ _ _ _ _ _ _ _ N) _ _ Hd) as (cc & Hcc & _ & Hnil). simpl in Hnil. rewrite Hcc in Hc1. simpl in Hc1. congruence. }
    rewrite Hch in Hc1. pose proof (nodeinfo_insert (idx s1) (entry_key x).1 (entry_key x).2 (val e) MasstreeWrapper.no_node_info) as Hins.
    pose proof (nodeinfo_node (idx s1) (entry_key x).1 (entry_key x).2 (val e) MasstreeWrapper.no_node_info) as Hnode.
    pose proof (so_index _ _ _ (nl_store _ _ _ _ _ _ _ _ N)) as Hi.
    change (entry_key x).1 with x.1 in *. change (entry_key x).2 with x.2.1 in *.
    destruct (idx_insert_with_nodeinfo (idx s1) x.1 x.2.1 (val e) MasstreeWrapper.no_node_info) as [[res ni] ix]. cbn [fst snd] in Hins, Hnode.
    destruct (idx_at (idx s1) x.1 x.2.1) as [l|] eqn:Hat.
    + destruct (insert_present (idx s1) x.1 x.2.1 (val e) Hi Hk ltac:(eauto)) as (ix' & Hins' & Hiok & Hsame).
      rewrite Hins' in Hins. injection Hins as -> ->. destruct (reindex_ok schema g1 s1 ix' (nl_store _ _ _ _ _ _ _ _ N) Hiok Hsame) as [Hs2 F2].
      exists (set_idx s1 ix'), g1. split; [eapply mv_frame_trans; [apply N|apply F2]|]. split; [apply N|]. right. exists true. split; [done|].
      eapply (next_fail g s g1 (set_idx s1 ix') i t D x e true); try done. destruct N as [A1 A2 A3 A4 A5 A6 A7 A8]. split; [done|by eapply tx_frame; [apply (F2 None None)|..]|done|eapply mv_frame_trans; [done|apply F2]|done| |done|done].
      intros y e' Hy He' Hr'. eapply (ready_same g1 s1); try done. by apply A6.
    + destruct (insert_absent (idx s1) x.1 x.2.1 (val e) Hi Hk Hat) as (ix' & Hins' & Hiok & Hat').
      rewrite Hins' in Hins. injection Hins as -> ->. destruct (Hnode eq_refl) as [leaf Hleaf]. rewrite Hleaf. simpl.
      destruct (enter_next g s g1 s1 i t D e (entry_key x) ix' LK N Hf Hk Hrwt Hn Hl Hc1 Hat Hiok Hat') as [N2 Hready].
      set (g2 := set_vown g1 _) in *. exists (set_idx s1 ix'), g2. split; [apply N2|]. split; [apply N2|].
      destruct (start_ts t <? _).
      * right. exists false. split; [done|]. eapply (next_fail g s g2 (set_idx s1 ix') i t D x e false); [done..|]. split; [done|]. split; [done|]. unfold g2. simpl. by rewrite lookup_insert_eq.
      * left. split; [done|]. split; [|done]. by eapply next_pass.
  - destruct Helem as (Hn & _). by eapply (check_live g s g1 s1); try done; rewrite Hrwt.
Qed.

(** ** The whole write set *)

Lemma until_first (D rest : list (Z * (Z * nat))) x b : entry_key x ∉ (entry_key <$> D) →
  until (entry_key x) b (D ++ x :: rest) = if b : bool then D else D ++ [x].
Proof.
  induction D as [|y D IH]; simpl.
  - intros _. rewrite decide_True by done. by destruct b.
  - intros [Hne Hni]%not_elem_of_cons. rewrite decide_False by (intros Heq; apply Hne; by rewrite <- Heq). rewrite IH by done. by destruct b.
Qed.

Lemma elem_table_writes t tb x : x ∈ table_writes t tb ↔ x.1 = tb ∧ x.2 ∈ w_table t tb.
Proof.
  unfold table_writes. rewrite list_elem_of_fmap. split; [by intros (y & -> & Hy)|]. intros [<- Hx]. exists x.2. by destruct x.
Qed.

Lemma elem_writes t (l : list Z) x : x ∈ (l ≫= table_writes t) ↔ x.1 ∈ l ∧ x.2 ∈ w_table t x.1.
Proof.
  rewrite list_elem_of_bind. split.
  - intros (tb & [<- Hx]%elem_table_writes & Hl). done.
  - intros [Hl Hx]. exists x.1. split; [by apply elem_table_writes|done].
Qed.

Lemma writes_nodup t (l : list Z) : NoDup l → writes_ok t → NoDup (entry_key <$> (l ≫= table_writes t)).
Proof.
  intros Hnd [_ Hw _]. induction Hnd as [|tb l Hni Hnd IH]; [constructor|]. cbn [mbind list_bind]. rewrite fmap_app. apply NoDup_app. split_and!.
  - unfold table_writes. rewrite <- list_fmap_compose.
    assert (entry_key ∘ pair tb <$> w_table t tb = pair tb <$> (w_table t tb).*1) as -> by (by rewrite <- list_fmap_compose).
    apply NoDup_fmap_2; [apply _|apply Hw].
  - intros k (x & -> & [Hx1 _]%elem_table_writes)%list_elem_of_fmap (y & Heq & [Hy _]%elem_writes)%list_elem_of_fmap.
    apply Hni. rewrite <- Hx1. unfold entry_key in Heq. by injection Heq as -> _.
  - exact IH.
Qed.

Lemma table_order_nodup t : NoDup (table_order t).
Proof. unfold table_order. rewrite merge_sort_Permutation. apply NoDup_elements. Qed.

Lemma elem_table_order t tb : tb ∈ table_order t ↔ tb ∈ tables t.
Proof. unfold table_order. rewrite merge_sort_Permutation. apply elem_of_elements. Qed.

Lemma lock_entries_ok i t tb rest its : ∀ D g s, locking g s i t D → write_order t = D ++ (pair tb <$> its) ++ rest →
  (∀ it, it ∈ its → it ∈ w_table t tb) → NoDup (entry_key <$> (D ++ (pair tb <$> its) ++ rest)) →
  ∃ s' g', frame (Some i) None g s g' s' ∧ same_spec g g' ∧
    ((lock_entries t s tb its = Ok (true, t, s') ∧ locking g' s' i t (D ++ (pair tb <$> its)) ∧ records s' = records s) ∨
     ∃ c, lock_entries t s tb its = Ok (false, set_gc t c, s') ∧ turn g' s' i (set_gc t c)).
Proof.
  induction its as [|it its IH]; intros D g s LK Hwo Hits Hnd.
  - exists s, g. split; [apply mv_frame_refl|]. split; [done|]. left. split; [done|]. split; [|done]. by rewrite app_nil_r.
  - assert (entry_key (tb, it) ∉ (entry_key <$> D)) as Hni.
    { rewrite fmap_app in Hnd. apply NoDup_app in Hnd as (_ & Hdis & _). intros Hin. apply (Hdis _ Hin). csimpl. left. }
    destruct (check_entry_ok g s i t D (tb, it) LK (Hits it ltac:(left)) Hni) as (e & c & s1 & He & Hlock & s2 & g2 & F2 & [Hh2 Hl2] & Hchk).
    simpl in He. simpl. rewrite He. simpl. rewrite Hlock. simpl. change (tb, it.1) with (entry_key (tb, it)).
    destruct Hchk as [(-> & LK2 & Hm2)|(b & -> & U)]; simpl.
    + destruct (IH (D ++ [(tb, it)]) g2 s2 LK2) as (s' & g' & F & [Hh Hl] & Hres).
      * rewrite <- app_assoc. exact Hwo.
      * intros x Hx. apply Hits. by right.
      * rewrite <- app_assoc. exact Hnd.
      * rewrite <- app_assoc in Hres. exists s', g'. split; [by eapply mv_frame_trans|]. split; [split; congruence|].
        destruct Hres as [(? & ? & Hm)|Hres]; [left; split_and!; [done..|congruence]|by right].
    + unfold remove_already_inserted. rewrite Hwo. csimpl. rewrite until_first by done.
      destruct (remove_entries_ok i (D ++ [(tb, it)]) _ t g2 s2 U) as (c3 & s3 & g3 & Hrem & U3 & F3 & [Hh3 Hl3]). rewrite Hrem. simpl.
      unfold unlock_writeset. change (write_order (set_gc t c3)) with (write_order t). rewrite Hwo. csimpl. rewrite until_first by done.
      destruct (unlock_entries_ok i (D ++ [(tb, it)]) (set_gc t c3) g3 s3 U3) as (s4 & g4 & Hun & Ht4 & F4 & [Hh4 Hl4]). rewrite Hun. simpl.
      exists s4, g4. split; [eapply mv_frame_trans; [exact F2|]; eapply mv_frame_trans; [exact F3|by apply frame_weaken]|].
      split; [split; congruence|]. right. by exists c3.
Qed.

(** The transaction with its write sets sorted. *)
Record resorted t t' : Prop := {
  re_ts : start_ts t' = start_ts t ∧ smallest_ts t' = smallest_ts t ∧ largest_ts t' = largest_ts t;
  re_sets : tables t' = tables t ∧ rws t' = rws t ∧ nodes t' = nodes t ∧ observed t' = observed t;
  re_writes : ∀ tb, w_table t' tb ≡ₚ w_table t tb
}.

Lemma resorted_trans t1 t2 t3 : resorted t1 t2 → resorted t2 t3 → resorted t1 t3.
Proof.
  intros [(?&?&?) (?&?&?&?) W1] [(?&?&?) (?&?&?&?) W2]. split; [split_and!; congruence..|]. intros tb. by rewrite W2.
Qed.

Lemma sort_resorted t tb : resorted t (sort_writes t tb) ∧ gc (sort_writes t tb) = gc t.
Proof.
  split; [|done]. split; [done..|]. intros tb'. unfold sort_writes, w_table at 1. simpl. destruct (decide (tb' = tb)) as [->|].
  - rewrite lookup_insert_eq. apply merge_sort_Permutation.
  - by rewrite lookup_insert_ne.
Qed.

Lemma gc_resorted t c : resorted t (set_gc t c).
Proof. by split. Qed.

Lemma tx_resorted g s i t t' : resorted t t' → tx_ok g s i t → tx_ok g s i t'.
Proof.
  intros [(Hts & Hsm & _) (Htab & Hrws & _ & Hobs) Hw] [H1 H2 H3 H4 [W1 W2 W3]]. split.
  - by rewrite Hts, Hsm.
  - by rewrite Hts.
  - intros k e He. unfold find in He. rewrite Hrws in He. specialize (H3 k e He). unfold MvtoInv.elem_ok in *. by rewrite Hts, Hobs.
  - intros k w p. rewrite Hobs. intros Ho. specialize (H4 k w p Ho). unfold seen_ok in *. by rewrite Hts.
  - split.
    + intros tb it. rewrite Hw, Hrws. apply W1.
    + intros tb. by rewrite Hw.
    + rewrite Hrws, Htab. apply W3.
Qed.

Lemma locking_sort g s i t tb D : locking g s i t D → locking g s i (sort_writes t tb) D.
Proof.
  intros [[] Ht Hgc]. split; [by split|by eapply tx_resorted; [apply sort_resorted|]|done].
Qed.

Lemma writes_sort t tb (l : list Z) : tb ∉ l → (l ≫= table_writes (sort_writes t tb)) = l ≫= table_writes t.
Proof.
  intros Hni. induction l as [|x l IH]; [done|]. apply not_elem_of_cons in Hni as [Hne Hni]. cbn [mbind list_bind]. rewrite IH by done. f_equal.
  unfold table_writes, w_table. simpl. by rewrite lookup_insert_ne.
Qed.

Lemma lock_tables_ok i order : ∀ done_ t g s, table_order t = done_ ++ order → locking g s i t (done_ ≫= table_writes t) →
  ∃ t' s' g', frame (Some i) None g s g' s' ∧ same_spec g g' ∧ resorted t t' ∧
    ((lock_tables t s order = Ok (true, t', s') ∧ locking g' s' i t' (write_order t') ∧ records s' = records s ∧ gc t' = gc t) ∨
     (lock_tables t s order = Ok (false, t', s') ∧ turn g' s' i t')).
Proof.
  induction order as [|tb order IH]; intros done_ t g s Hord LK.
  - exists t, s, g. split; [apply mv_frame_refl|]. split; [done|]. split; [by split|]. left. split; [done|]. split; [|done].
    unfold write_order. by rewrite Hord, app_nil_r.
  - pose proof (table_order_nodup t) as Hnd. pose proof Hnd as Hnd'. rewrite Hord in Hnd'. apply NoDup_app in Hnd' as (_ & Hdis & _).
    assert (tb ∉ done_) as Hni by (intros Hin; apply (Hdis _ Hin); left).
    apply (locking_sort _ _ _ _ tb) in LK. rewrite <- (writes_sort t tb done_ Hni) in LK. simpl. set (t1 := sort_writes t tb) in *.
    assert (table_order t1 = done_ ++ tb :: order) as Hord1 by exact Hord.
    assert (write_order t1 = (done_ ≫= table_writes t1) ++ (pair tb <$> w_table t1 tb) ++ (order ≫= table_writes t1)) as Hwo.
    { unfold write_order. rewrite Hord1, bind_app. done. }
    pose proof (lk_tx _ _ _ _ _ LK) as Ht1.
    destruct (lock_entries_ok i t1 tb (order ≫= table_writes t1) (w_table t1 tb) _ g s LK Hwo) as (s2 & g2 & F2 & [Hh2 Hl2] & Hres); [done| |].
    { rewrite <- Hwo. apply writes_nodup; [apply table_order_nodup|apply Ht1]. }
    destruct Hres as [(-> & LK2 & Hm2)|(c & -> & Ht2)]; simpl.
    + destruct (IH (done_ ++ [tb]) t1 g2 s2) as (t' & s' & g' & F & [Hh Hl] & Hre & Hres).
      * by rewrite <- app_assoc.
      * rewrite bind_app. simpl. by rewrite app_nil_r.
      * exists t', s', g'. split; [by eapply mv_frame_trans|]. split; [split; congruence|]. split; [eapply resorted_trans; [|exact Hre]; apply sort_resorted|].
        destruct Hres as [(? & ? & Hm & Hg)|Hres]; [left; split_and!; [done..|congruence|exact Hg]|by right].
    + exists (set_gc t1 c), s2, g2. split; [done|]. split; [done|]. split; [|by right].
      eapply resorted_trans; [apply sort_resorted|apply gc_resorted].
Qed.

Lemma locking_start g s i t : turn g s i t → locking g s i t [].
Proof.
  intros [Hs [Hh Hp] Ht Hgc]. split; [|done..]. split; [done|apply Ht|constructor|by intros ? ?%not_elem_of_nil|rewrite Hh; set_solver|].
  intros l j k Hl. by destruct (Hp l j k).
Qed.

(** [precommit] returns: with true it has installed the versions of the
    write set, with false it has changed nothing that others can see; no row
    stays locked. *)
Lemma precommit_ok g s i t : turn g s i t →
  ∃ (b : bool) t' s' g', precommit t s = Ok (b, t', s') ∧ resorted t t' ∧ store_ok g' s' ∧ quiet g' ∧ gc_ok g' i (gc t') ∧ log g' = log g ∧
    if b then frame (Some i) (Some (start_ts t)) g s g' s' ∧ hist g' = install_entries t' s (write_order t') (hist g)
    else frame (Some i) None g s g' s' ∧ hist g' = hist g ∧ tx_ok g' s' i t'.
Proof.
  intros Ht. destruct (lock_tables_ok i (table_order t) [] t g s eq_refl (locking_start _ _ _ _ Ht)) as (t1 & s1 & g1 & F1 & [Hh1 Hl1] & Hre & Hres).
  unfold precommit. destruct Hres as [(-> & [Hin Htx Hgc] & Hm & _)|[-> Ht1]]; simpl.
  - destruct (apply_entries_ok i t1 (write_order t1) g1 s1 Hin) as (s2 & g2 & -> & Hs2 & F2 & Hq2 & Hh2 & Hl2). simpl.
    destruct (re_ts _ _ Hre) as [Hts _]. rewrite Hts in F2. exists true, t1, s2, g2. split; [done|]. split; [done|]. split; [done|]. split; [done|].
    split; [by eapply gc_frame|]. split; [congruence|]. split.
    + eapply mv_frame_trans; [|exact F2]. destruct F1 as [A1 A2 A3 A4 A5 A6 A7 A8 A9].
      assert (∀ k w, protected (Some (start_ts t)) g k w → protected None g k w) as Hp by (intros k w (ts & b & ? & ? & ? & _); by exists ts, b).
      split; eauto. intros k x [?|?]%A3; [by left|done].
    + rewrite Hh2, Hh1. apply install_ext. intros x e _ _. unfold committed_value. by rewrite Hm.
  - exists false, t1, s1, g1. destruct Ht1 as [? ? ? ?]. done.
Qed.

(** ** Abort *)

(** What [abort] may free for an entry. *)
Definition disposable g s i t k e : Prop :=
  if decide (rwt e = INSERT ∧ is_new e = true) then
    (vown g !! val e = Some (Private i k) ∧ version <$> values s !! val e = Some [mkVersion (start_ts t) (start_ts t) (write_rec e) false])
    ∨ vown g !! val e = Some (Dead i k)
  else write_rec e = None ∨ local schema g s i k (write_rec e).

Lemma elem_disposable g s i t k e : quiet g → elem_ok g s i t k e → disposable g s i t k e.
Proof.
  intros [_ Hq] He. unfold disposable, MvtoInv.elem_ok in *. destruct (rwt e); simpl.
  - left. by apply He.
  - right. by destruct He as (_ & _ & _ & ?).
  - destruct He as [_ He]. destruct (is_new e).
    + rewrite decide_True by done. destruct He as [[[?|Hp] ?]|[_ ?]]; [by left|by destruct (Hq (val e) i k)|by right].
    + rewrite decide_False by (by intros [_ ?]). right. apply He.
  - left. by apply He.
Qed.

(** The changes one entry's disposal makes, seen from another. *)
Definition disposes g s g' s' i k : Prop :=
  (∀ l o, vown g !! l = Some o → o ≠ Private i k → vown g' !! l = Some o ∧ values s' !! l = values s !! l) ∧
  (∀ r k', rown g !! r = Some (Local i k') → k' ≠ k → rown g' !! r = Some (Local i k') ∧ records s' !! r = records s !! r).

Lemma disposable_keep g s g' s' i t k k' e : disposes g s g' s' i k → k' ≠ k → disposable g s i t k' e → disposable g' s' i t k' e.
Proof.
  intros [Hv Hr] Hne. unfold disposable. destruct (decide (rwt e = INSERT ∧ is_new e = true)).
  - intros [[Ho Hc]|Ho]; destruct (Hv _ _ Ho) as [H1 H2]; try congruence; [left; by rewrite H1, H2|by right].
  - intros [?|(r & b & Hw & Ho & Hb & Hsz)]; [by left|right]. destruct (Hr _ _ Ho Hne) as [H1 H2]. exists r, b. by rewrite H2.
Qed.

Lemma abort_entry_ok g s i t k e : store_ok g s → quiet g → disposable g s i t k e →
  ∃ s' g', abort_entry s e = Ok s' ∧ store_ok g' s' ∧ quiet g' ∧ frame (Some i) None g s g' s' ∧ same_spec g g' ∧ disposes g s g' s' i k.
Proof.
  intros Hs Hq. unfold disposable, abort_entry. destruct (decide (rwt e = INSERT ∧ is_new e = true)) as [Hin|Hno].
  - intros [[Ho Hc]|Ho].
    + destruct (so_value _ _ _ Hs _ _ Ho) as (c & Hcc & _ & ts & r & b & Hv & Hown & Hb & _). rewrite Hcc in Hc. simpl in Hc.
      injection Hc as Hc. unfold load_chain. rewrite Hcc. simpl. rewrite Hv. simpl. unfold free. simpl. rewrite Hb. simpl.
      assert (∀ r', r' ∈ [r] → rown g !! r' = Some (Unborn (val e))) as HD by (by intros r' ->%list_elem_of_singleton).
      exists (free_store s (val e) [r]), (free_ghost g (val e) [r]). split; [done|]. split_and!.
      * eapply (free_value_ok schema); [done..|intros k'; by intros [?|[? ?]]|done].
      * split; [apply Hq|]. intros l j k' Hl. simpl in Hl. apply lookup_delete_Some in Hl as [_ Hl]. by apply Hq in Hl.
      * by eapply free_private_frame.
      * done.
      * split; [intros l o Hl Hne; simpl; by rewrite !lookup_delete_ne by congruence|].
        intros r' k' Hr' _. apply (drop_keep g s [r]); [done|]. intros ?%HD. congruence.
    + destruct (so_value _ _ _ Hs _ _ Ho) as (c & Hcc & _ & Hv). simpl in Hv. unfold load_chain. rewrite Hcc. simpl. rewrite Hv.
      exists s, g. split; [done|]. split; [done|]. split; [done|]. split; [apply mv_frame_refl|]. done.
  - intros [->|(r & b & -> & Ho & Hb & Hsz)].
    + exists s, g. split; [by destruct s|]. split; [done|]. split; [done|]. split; [apply mv_frame_refl|]. done.
    + destruct (drop_local_ok schema g s r i k Hs Ho) as [Hs' F]. eexists _, _. split; [unfold free; simpl; by rewrite Hb|].
      split; [exact Hs'|]. split; [exact Hq|]. split; [exact F|]. split; [done|]. split; [done|].
      intros r' k' Hr' Hne. simpl. assert (r' ≠ r) by congruence. by rewrite !lookup_delete_ne.
Qed.

Lemma abort_entries_ok i t R : ∀ g s, store_ok g s → quiet g → NoDup (entry_key <$> R) →
  (∀ x, x ∈ R → ∃ e, deref_iter t x.1 x.2 = Ok e ∧ disposable g s i t (entry_key x) e) →
  ∃ s' g', abort_entries t s R = Ok s' ∧ store_ok g' s' ∧ quiet g' ∧ frame (Some i) None g s g' s' ∧ same_spec g g'.
Proof.
  induction R as [|x R IH]; intros g s Hs Hq Hnd HR.
  - exists s, g. split; [done|]. split; [done|]. split; [done|]. split; [apply mv_frame_refl|done].
  - destruct (HR x ltac:(left)) as (e & He & Hd). csimpl in Hnd. apply NoDup_cons in Hnd as [Hni Hnd].
    destruct (abort_entry_ok g s i t (entry_key x) e Hs Hq Hd) as (s1 & g1 & Ha & Hs1 & Hq1 & F1 & [Hh1 Hl1] & Hdis).
    destruct (IH g1 s1 Hs1 Hq1 Hnd) as (s2 & g2 & Hab & Hs2 & Hq2 & F2 & [Hh2 Hl2]).
    { intros y Hy. destruct (HR y ltac:(by right)) as (e' & He' & Hd'). exists e'. split; [done|]. eapply disposable_keep; [done| |done].
      intros Heq. apply Hni. rewrite <- Heq. by apply list_elem_of_fmap_2. }
    exists s2, g2. split; [simpl; destruct x as [tb it]; simpl in *; rewrite He; simpl; rewrite Ha; exact Hab|].
    split; [done|]. split; [done|]. split; [by eapply mv_frame_trans|]. split; congruence.
Qed.

(** [abort] frees the transaction's records and values and empties its
    sets. *)
Lemma mv_abort_ok g s i t : turn g s i t →
  ∃ t' s' g', abort t s = Ok (t', s') ∧ MvtoInv.turn schema false g' s' i t' ∧ frame (Some i) None g s g' s' ∧ same_spec g g' ∧
    t' = mkTx (start_ts t) (smallest_ts t) (largest_ts t) ∅ ∅ (nodes t) ∅ (gc t) ∅.
Proof.
  intros [Hs Hq Ht Hgc]. destruct (abort_entries_ok i t (write_order t) g s Hs Hq) as (s' & g' & Hab & Hs' & Hq' & F & Hspec).
  - apply writes_nodup; [apply table_order_nodup|apply Ht].
  - intros x [_ Hx]%elem_writes. destruct (iter_elem g s i t x Ht Hx) as (e & He & _ & _ & _ & Helem). exists e. split; [done|]. by apply elem_disposable.
  - unfold abort. rewrite Hab. simpl. eexists _, s', g'. split; [done|]. split; [|done]. split; [done..| |by eapply gc_frame].
    destruct Ht as [H1 H2 _ _ _]. split; simpl.
    + by rewrite (fr_low _ _ _ _ _ _ F).
    + intros k x [Hx|Hx]%(fr_hist _ _ _ _ _ _ F); [by eapply H2|done].
    + intros k e. unfold find. simpl. by rewrite lookup_empty.
    + intros k w p. by rewrite lookup_empty.
    + split; simpl.
      * intros tb it. unfold w_table. simpl. rewrite lookup_empty. by intros ?%not_elem_of_nil.
      * intros tb. unfold w_table. simpl. rewrite lookup_empty. constructor.
      * intros k. rewrite lookup_empty. by intros [? ?].
Qed.
End mvto_commit.
