(* ===== verification/MvtoSystem.v ===== *)
(** * MVTO with many workers

    The database is loaded, then workers begin transactions, call, write into
    the records they were given, commit, abort and finish, in any order.  A
    transaction that begins gets a new timestamp; the horizon below which
    versions may be dropped never passes a running transaction, and retired
    values are freed when no other transaction holds them: these are the
    conditions MVTO needs from its timestamps, stated at the steps. *)
From S2P Require Import Prelude Versions RWLock Timestamp Index Memory Mvto MvtoInv MvtoStore MvtoCalls MvtoCommit.

Module MvtoSystem.
Import Memory Mvto.
Section system.
Context `{HI : ScanIndex loc} `{HT : LeafTimestamps} (schema : gmap Z nat).

Record state := mkState {
  db : store; workers : gmap nat worker;
  committed : gmap (Z * Z) history; reads : list event; horizon : Z; issued : list Z
}.

Inductive call :=
| Read (table_id key : Z) | Insert (table_id key : Z) | Update (table_id key : Z) | Upsert (table_id key : Z)
| Remove (table_id key : Z) | ReadScan (table_id lkey rkey count : Z) (rev : bool) | UpdateScan (table_id lkey rkey count : Z) (rev : bool).

(** A call, without its results. *)
Definition run_call (t : tx) (s : store) (c : call) : outcome (tx * store) :=
  match c with
  | Read tb key => '(_, t, s) ← read t s tb key; Ok (t, s)
  | Insert tb key => '(_, t, s) ← insert schema t s tb key; Ok (t, s)
  | Update tb key => '(_, t, s) ← update schema t s tb key; Ok (t, s)
  | Upsert tb key => '(_, t, s) ← upsert schema t s tb key; Ok (t, s)
  | Remove tb key => '(_, t, s) ← remove t s tb key; Ok (t, s)
  | ReadScan tb l r n rev => '(_, _, t, s) ← read_scan t s tb l r n rev []; Ok (t, s)
  | UpdateScan tb l r n rev => '(_, _, t, s) ← update_scan schema t s tb l r n rev []; Ok (t, s)
  end.

(** Rows are of known tables and have 64-bit keys; a transaction does not
    remove a row it has written, nor insert one it has removed. *)
Definition kind (t : tx) (table_id key : Z) : option ReadWriteType := rwt <$> find t (table_id, key).
Definition permitted (t : tx) (c : call) : Prop :=
  match c with
  | Read tb key => word64 key
  | Update tb key => word64 key ∧ is_Some (schema !! tb)
  | Insert tb key | Upsert tb key => word64 key ∧ is_Some (schema !! tb) ∧ kind t tb key ≠ Some DELETE
  | Remove tb key => word64 key ∧ (kind t tb key = None ∨ kind t tb key = Some READ)
  | ReadScan _ _ _ _ _ => True
  | UpdateScan tb _ _ _ _ => is_Some (schema !! tb)
  end.

(** The reads of a transaction, with the bytes it was given. *)
Definition reads_of (t : tx) (s : store) : list event :=
  omap (λ x, let '(k, (w, p)) := x in (λ b, (start_ts t, k, w, b)) <$> (p ≫= λ r, records s !! r)) (map_to_list (observed t)).

Definition active (S : state) (i : nat) (t : tx) : Prop := workers S !! i = Some (Running t).

(** A new timestamp for worker [i], and the horizon that comes with it. *)
Definition grants (S : state) (i : nat) (ts smallest : Z) : Prop :=
  (ts ∉ issued S) ∧ Z.max (horizon S) smallest ≤ ts ∧
  ∀ j t, j ≠ i → active S j t → Z.max (horizon S) smallest ≤ start_ts t.

(** The values a collector frees are held by no other transaction. *)
Definition unheld (S : state) (i : nat) (s s' : store) : Prop :=
  ∀ j t k e, j ≠ i → active S j t → find t k = Some e → is_Some (values s !! val e) → is_Some (values s' !! val e).

Inductive step : state → state → Prop :=
| step_load s w h tb key b r :
    word64 key → h !! (tb, key) = None → schema !! tb = Some (length b) → r = fresh (dom (records s)) →
    step (mkState s w h [] 0 [0])
      (mkState (insert_into_index (set_records s (<[r := b]> (records s))) tb key r) w (<[(tb, key) := [(0, Some b)]]> h) [] 0 [0])
| step_begin S i c ts smallest largest :
    workers S !! i = Some (Idle c) → grants S i ts smallest →
    step S (mkState (db S) (<[i := Running (new_tx ts smallest largest c)]> (workers S))
      (committed S) (reads S) (Z.max (horizon S) smallest) (ts :: issued S))
| step_call S i t c t' s' :
    active S i t → permitted t c → run_call t (db S) c = Ok (t', s') →
    step S (mkState s' (<[i := Running t']> (workers S)) (committed S) (reads_of t' s' ++ reads S) (horizon S) (issued S))
| step_write S i t k e r b b' :
    active S i t → find t k = Some e → write_rec e = Some r → records (db S) !! r = Some b → length b' = length b →
    step S (mkState (set_records (db S) (<[r := b']> (records (db S)))) (workers S) (committed S) (reads S) (horizon S) (issued S))
| step_commit S i t t1 s1 c s2 :
    active S i t → precommit t (db S) = Ok (true, t1, s1) → destroy t1 s1 = Ok (c, s2) → unheld S i s1 s2 →
    step S (mkState s2 (<[i := Idle c]> (workers S)) (install_entries t1 (db S) (write_order t1) (committed S))
      (reads S) (horizon S) (issued S))
| step_fail S i t t1 s1 t2 s2 ts smallest largest :
    active S i t → precommit t (db S) = Ok (false, t1, s1) → abort t1 s1 = Ok (t2, s2) → grants S i ts smallest →
    step S (mkState s2 (<[i := Running (set_new_ts t2 ts smallest largest)]> (workers S))
      (committed S) (reads S) (Z.max (horizon S) smallest) (ts :: issued S))
| step_abort S i t t2 s2 ts smallest largest :
    active S i t → abort t (db S) = Ok (t2, s2) → grants S i ts smallest →
    step S (mkState s2 (<[i := Running (set_new_ts t2 ts smallest largest)]> (workers S))
      (committed S) (reads S) (Z.max (horizon S) smallest) (ts :: issued S))
| step_finish S i t c s' :
    active S i t → rws t = ∅ → destroy t (db S) = Ok (c, s') → unheld S i (db S) s' →
    step S (mkState s' (<[i := Idle c]> (workers S)) (committed S) (reads S) (horizon S) (issued S)).

(** An empty database and idle workers. *)
Definition initial `{!ScanIndexLaws loc} (S : state) : Prop :=
  index_ok (idx (db S)) ∧ (∀ tb key, word64 key → idx_at (idx (db S)) tb key = None) ∧ values (db S) = ∅ ∧ (∀ w, w ∈ (map_to_list (workers S)).*2 → w = Idle (TimestampGC.mk [] [])) ∧
  committed S = ∅ ∧ reads S = [] ∧ horizon S = 0 ∧ issued S = [0].

Inductive reachable (S0 : state) : state → Prop :=
| reach_start : reachable S0 S0
| reach_step S S' : reachable S0 S → step S S' → reachable S0 S'.
End system.
End MvtoSystem.

(** ** Steps of the workers *)
Section mvto_steps.
Import Memory Mvto MvtoSystem.
Context `{HI : ScanIndex loc} `{HL : !ScanIndexLaws loc} `{HT : LeafTimestamps} (schema : gmap Z nat).
Implicit Types (s : store) (t : tx) (k : Z * Z) (l r : loc) (e : ReadWriteElement) (v : Version) (g : ghost) (i j : nat).

#[local] Abbreviation store_ok := (store_ok schema).
#[local] Abbreviation tx_ok := (tx_ok schema).
#[local] Abbreviation turn := (turn schema false).

Lemma run_call_ok g s i t c : turn g s i t → permitted schema t c →
  (∃ t' s' g', run_call schema t s c = Ok (t', s') ∧ turn g' s' i t' ∧ quiet_step g s g' s' t t') ∨
  ∃ m, run_call schema t s c = Throw m.
Proof.
  intros Ht Hc. destruct c as [tb key|tb key|tb key|tb key|tb key|tb lk rk n rev|tb lk rk n rev]; simpl in *.
  - left. destruct (mv_read_ok schema i t g s tb key Ht Hc) as (p & t' & s' & g' & -> & ? & ? & _). by exists t', s', g'.
  - left. destruct Hc as (Hk & Hsz & Hd). destruct (mv_insert_ok schema i t g s tb key Ht Hk Hsz) as (p & t' & s' & g' & -> & ? & ? & _); [|by exists t', s', g'].
    intros e He Hr. apply Hd. unfold kind. by rewrite He, <- Hr.
  - left. destruct Hc as (Hk & Hsz). destruct (mv_update_ok schema i t g s tb key Ht Hk Hsz) as (p & t' & s' & g' & -> & ? & ? & _). by exists t', s', g'.
  - left. destruct Hc as (Hk & Hsz & Hd). destruct (mv_upsert_ok schema i t g s tb key Ht Hk Hsz) as (p & t' & s' & g' & -> & ? & ? & _); [|by exists t', s', g'].
    intros e He Hr. apply Hd. unfold kind. by rewrite He, <- Hr.
  - left. destruct Hc as (Hk & Hr). destruct (mv_remove_ok schema i t g s tb key Ht Hk) as (p & t' & s' & g' & -> & ? & ? & _); [|by exists t', s', g'].
    intros e He. unfold kind in Hr. rewrite He in Hr. simpl in Hr. by destruct Hr as [?|[= ?]].
  - unfold read_scan. pose proof (turn_add_table schema g s i t tb Ht) as Ht1.
    destruct (scan_ok schema _ i _ g s tb lk rk n rev [] (read_row_ok schema tb) Ht1) as [(b & kr & t' & s' & g' & -> & ? & Hst)|[m ->]]; [simpl; set_solver|left|right; by exists m].
    exists t', s', g'. split; [done|]. split; [done|]. destruct Hst. by split.
  - unfold update_scan, get_record_size. destruct Hc as [sz Hsz]. rewrite Hsz. simpl. pose proof (turn_add_table schema g s i t tb Ht) as Ht1.
    destruct (scan_ok schema _ i _ g s tb lk rk n rev [] (update_row_ok schema tb sz Hsz) Ht1) as [(b & kr & t' & s' & g' & -> & ? & Hst)|[m ->]]; [simpl; set_solver|left|right; by exists m].
    exists t', s', g'. split; [done|]. split; [done|]. destruct Hst. by split.
Qed.

(** *** The log *)

Lemma elem_reads_of t s x : x ∈ reads_of t s ↔ ∃ k w r b, observed t !! k = Some (w, Some r) ∧ records s !! r = Some b ∧ x = (start_ts t, k, w, b).
Proof.
  unfold reads_of. rewrite list_elem_of_omap. split.
  - intros ([k [w p]] & Hin%elem_of_map_to_list & (b & Hb & ->)%fmap_Some). destruct p as [r|]; [|done]. simpl in Hb. by exists k, w, r, b.
  - intros (k & w & r & b & Ho & Hb & ->). exists (k, (w, Some r)). rewrite elem_of_map_to_list. split; [done|]. simpl. by rewrite Hb.
Qed.

Lemma relog_ok g s L : store_ok g s → (∀ x, x ∈ L → x ∈ log g) → store_ok (set_log g L) s.
Proof. intros [] HLg. split; try done. intros x Hx%HLg. by apply so_log. Qed.

Lemma relog_call g s g' s' i t t' : tx_ok false g s i t → turn g' s' i t' → quiet_step g s g' s' t t' →
  let g2 := set_log g' (reads_of t' s' ++ log g) in turn g2 s' i t' ∧ frame None None g s g2 s'.
Proof.
  intros Ht [Hs' Hq' Ht' Hgc'] [F Hh Hts Hsm] g2.
  assert (∀ k w p, observed t' !! k = Some (w, p) → seen_ok schema g2 s' t' k w p) as Hseen.
  { intros k w p Ho. destruct (to_seen _ _ _ _ _ _ Ht' k w p Ho) as (r & b & l & -> & Hin & Hr & Hb & Hsz & Hl). exists r, b, l. split_and!; try done.
    apply elem_of_app. left. apply elem_reads_of. by exists k, w, r, b. }
  split.
  - split; [|done| |done].
    + apply relog_ok; [done|]. intros x [(k & w & r & b & Ho & Hb & ->)%elem_reads_of|Hx]%elem_of_app; [|by apply F].
      destruct (to_seen _ _ _ _ _ _ Ht' k w _ Ho) as (r' & b' & l & [= <-] & Hin & _ & Hb' & _). by simplify_eq.
    + destruct Ht' as [H1 H2 H3 H4 H5]. by split.
  - destruct F as [F1 F2 F3 F4 F5 F6 F7 F8 F9]. split; try done. intros x Hx. apply elem_of_app. by right.
Qed.

(** *** The horizon *)

Definition raise g (n : Z) : ghost := mkGhost (hist g) (log g) n (vown g) (rown g) (hold g).

Lemma tomb_raise a b h : a ≤ b → tomb a h → tomb b h.
Proof. intros Hle. destruct h as [|x h]; [done|]. intros [? ?]. split; [done|lia]. Qed.

Lemma raise_ok g s n : low g ≤ n → store_ok g s → store_ok (raise g n) s.
Proof.
  intros Hle []. split; try done.
  - intros l o Ho. destruct (so_value l o Ho) as (c & ? & ? & Hok). exists c. split; [done|]. split; [done|]. destruct o; try done.
    destruct Hok as [? (kept & old & Hv & Hc & front & x & Hk & He)]. split; [done|]. exists kept, old. split; [done|]. split; [done|].
    exists front, x. split; [done|]. destruct He as [He|[? Ht]]; [left; simpl; lia|right]. split; [done|]. by eapply tomb_raise.
  - intros k Hk. eapply tomb_raise; [exact Hle|]. by apply so_absent.
Qed.

Lemma raise_tx g s u i t n : low g ≤ n → n ≤ start_ts t → tx_ok u g s i t → tx_ok u (raise g n) s i t.
Proof. intros Hle Hn [H1 H2 H3 H4 H5]. split; try done. simpl. lia. Qed.

(** A transaction that holds nothing. *)
Lemma empty_tx_ok g s u i t : smallest_ts t ≤ low g ≤ start_ts t → (∀ k x, x ∈ versions g k → x.1 ≠ start_ts t) →
  rws t = ∅ → ws t = ∅ → observed t = ∅ → tx_ok u g s i t.
Proof.
  intros Hlow Hf Hr Hw Ho. split; [done..| | |].
  - intros k e. unfold find. by rewrite Hr.
  - intros k w p. by rewrite Ho.
  - split; unfold w_table; rewrite ?Hr, ?Hw.
    + intros tb it. rewrite lookup_empty. by intros ?%not_elem_of_nil.
    + intros tb. rewrite lookup_empty. constructor.
    + intros k. rewrite lookup_empty. by intros [? ?].
Qed.

(** *** Reclamation *)

Definition reclaim_ghost g (F : list loc) : ghost := foldl (λ g l, free_ghost g l []) g F.

Lemma reclaim_spec g F : hist (reclaim_ghost g F) = hist g ∧ log (reclaim_ghost g F) = log g ∧ low (reclaim_ghost g F) = low g ∧
  rown (reclaim_ghost g F) = rown g ∧ hold (reclaim_ghost g F) = hold g ∧ vown (reclaim_ghost g F) = drop_recs (vown g) F.
Proof. revert g. induction F as [|l F IH]; intros g; [done|]. simpl. destruct (IH (free_ghost g l [])) as (?&?&?&?&?&?). by split_and!. Qed.

Lemma reclaim_ok g s i (F : list (Z * loc)) : store_ok g s → NoDup F.*2 → (∀ l, l ∈ F.*2 → ∃ k, vown g !! l = Some (Dead i k)) →
  foldl (λ m p, m ← m; match m !! p.2 with Some _ => Ok (delete p.2 m) | None => Stuck end) (Ok (values s)) F = Ok (drop_recs (values s) F.*2) ∧
  store_ok (reclaim_ghost g F.*2) (mkStore (drop_recs (values s) F.*2) (records s) (idx s) (leaf_ts s)).
Proof.
  revert g s. induction F as [|[n l] F IH]; intros g s Hs Hnd Hdead; [by destruct s|]. csimpl in *. apply NoDup_cons in Hnd as [Hni Hnd].
  destruct (Hdead l ltac:(left)) as [k Hl]. destruct (so_value _ _ _ Hs _ _ Hl) as (c & Hc & _). simpl. rewrite Hc.
  destruct (IH (free_ghost g l []) (free_store s l [])) as [H1 H2]; [|done| |by split].
  - eapply (free_value_ok schema); [done..|intros k'; by intros [?|[? ?]]|by intros ? ?%not_elem_of_nil].
  - intros l' Hl'. destruct (Hdead l' ltac:(by right)) as [k' ?]. exists k'. simpl. rewrite lookup_delete_ne; [done|]. intros ->. done.
Qed.

(** What a transaction keeps when values it does not hold are freed. *)
Lemma reclaim_tx g s u j t i (F : list loc) : (∀ l, l ∈ F → ∃ k, vown g !! l = Some (Dead i k)) →
  (∀ k e, find t k = Some e → val e ∉ F) → tx_ok u g s j t →
  tx_ok u (reclaim_ghost g F) (mkStore (drop_recs (values s) F) (records s) (idx s) (leaf_ts s)) j t.
Proof.
  intros Hdead Hfree Ht. destruct (reclaim_spec g F) as (Hh & Hlog & Hlow & Hro & _ & Hvo). destruct Ht as [H1 H2 H3 H4 H5].
  split; [by rewrite Hlow|unfold versions; by rewrite Hh| | |done].
  - intros k e He. specialize (H3 k e He). specialize (Hfree k e He). unfold elem_ok, local in *. rewrite Hro, Hvo. simpl.
    assert (∀ A (m : gmap loc A), drop_recs m F !! val e = m !! val e) as Hd by (intros A m; by rewrite lookup_drop_recs, decide_False).
    rewrite !Hd. exact H3.
  - intros k w p Ho. destruct (H4 k w p Ho) as (r & b & l & -> & Hin & Hr & Hb & Hsz & Hl). exists r, b, l. rewrite Hlog, Hro, Hvo, lookup_drop_recs.
    split_and!; [done..|]. rewrite decide_False; [done|]. intros [k' Hd]%Hdead. congruence.
Qed.

Lemma destroy_ok g s i t : store_ok g s → quiet g → gc_ok g i (gc t) →
  ∃ c s' g', destroy t s = Ok (c, s') ∧ store_ok g' s' ∧ quiet g' ∧ hist g' = hist g ∧ log g' = log g ∧ low g' = low g ∧ gc_ok g' i c ∧
    (∀ j c', j ≠ i → gc_ok g j c' → gc_ok g' j c') ∧
    ∀ u j t', tx_ok u g s j t' → (∀ k e, find t' k = Some e → is_Some (values s !! val e) → is_Some (values s' !! val e)) → tx_ok u g' s' j t'.
Proof.
  intros Hs Hq [Hnd Hdead]. unfold destroy. destruct (TimestampGC.remove (gc t) (smallest_ts t) (largest_ts t)) as [F c] eqn:Hrem.
  pose proof (remove_retired (gc t) (smallest_ts t) (largest_ts t)) as Hp. rewrite Hrem in Hp. simpl in Hp.
  rewrite <- Hp in Hnd. apply NoDup_app in Hnd as (HndF & Hdis & Hndc).
  assert (∀ l, l ∈ F.*2 → ∃ k, vown g !! l = Some (Dead i k)) as HF by (intros l Hl; apply Hdead; rewrite <- Hp; apply elem_of_app; by left).
  destruct (reclaim_ok g s i F Hs HndF HF) as [Heq Hs']. rewrite Heq. simpl.
  destruct (reclaim_spec g F.*2) as (Hh & Hlog & Hlow & Hro & Hho & Hvo).
  eexists c, _, (reclaim_ghost g F.*2). split; [done|]. split; [done|]. split_and!; [|done..| | |].
  - split; [rewrite Hho; apply Hq|]. intros l j k. rewrite Hvo, lookup_drop_recs. destruct (decide (l ∈ F.*2)); [done|]. apply Hq.
  - split; [done|]. intros l Hl. assert (l ∉ F.*2) by (intros ?; by eapply Hdis). destruct (Hdead l) as [k Hk]; [rewrite <- Hp; apply elem_of_app; by right|].
    exists k. by rewrite Hvo, lookup_drop_recs, decide_False.
  - intros j c' Hj [? Hc']. split; [done|]. intros l Hl. destruct (Hc' l Hl) as [k Hk]. exists k. rewrite Hvo, lookup_drop_recs, decide_False; [done|].
    intros [k' ?]%HF. congruence.
  - intros u j t' Ht' Hheld. eapply reclaim_tx; [done| |done]. intros k e He Hin. destruct (HF _ Hin) as [k' Hd].
    destruct (so_value _ _ _ Hs _ _ Hd) as (cc & Hcc & _). destruct (Hheld k e He) as [? Hx]; [eauto|]. simpl in Hx.
    by rewrite lookup_drop_recs, decide_True in Hx.
Qed.

(** *** Writes into local records *)

Lemma write_step_ok g s i t k e r b b' : turn g s i t → find t k = Some e → write_rec e = Some r → records s !! r = Some b → length b' = length b →
  let s' := set_records s (<[r := b']> (records s)) in
  store_ok g s' ∧ tx_ok false g s' i t ∧ frame (Some i) None g s g s'.
Proof.
  intros [Hs Hq Ht Hgc] He Hw Hb Hlen s'. pose proof (to_elem _ _ _ _ _ _ Ht k e He) as Helem.
  assert (local schema g s i k (write_rec e) ∨ ∃ l, rown g !! r = Some (Unborn l)) as [Hloc|[l Hun]].
  { unfold elem_ok in Helem. destruct (rwt e); simpl in Helem.
    - destruct Helem as (_ & _ & _ & ?). congruence.
    - left. by destruct Helem as (_ & _ & _ & ?).
    - destruct Helem as [_ Helem]. destruct (is_new e); [|left; apply Helem]. destruct Helem as [[Ho Hc]|[? _]]; [|done]. right. exists (val e).
      destruct Ho as [Ho|Ho]; [|by destruct (proj2 Hq (val e) i k)]. destruct (so_value _ _ _ Hs _ _ Ho) as (c & Hcc & _ & ts & r' & b1 & Hv & Hown & _).
      rewrite Hcc in Hc. simpl in Hc. rewrite Hv in Hc. congruence.
    - destruct Helem as (_ & _ & _ & ?). congruence. }
  - destruct Hloc as (r' & b1 & Hw' & Hown & Hb1 & Hsz). rewrite Hw in Hw'. injection Hw' as <-.
    destruct (write_rec_ok schema g s r i k b' Hs Hown) as [Hs' F]. split_and!; [done| |done].
    assert (∀ k' p, local schema g s i k' p → local schema g s' i k' p) as Hkeep.
    { intros k' p (r2 & b2 & -> & Ho2 & Hb2 & Hsz2). destruct (decide (r2 = r)) as [->|Hne].
      - exists r, b'. simpl. rewrite lookup_insert_eq. split_and!; [done..|]. congruence.
      - exists r2, b2. simpl. by rewrite lookup_insert_ne. }
    eapply (tx_own schema false g s); [done..| |].
    + intros k' e' _ He'. unfold elem_ok in *. destruct (rwt e').
      * done.
      * simpl in *. destruct He' as (? & ? & ? & ?). split_and!; [done..|]. by apply Hkeep.
      * destruct He' as [? He']. split; [done|]. destruct (is_new e'); [done|]. destruct He' as [? ?]. split; [by apply Hkeep|done].
      * done.
    + intros k' w p (r2 & b2 & l & -> & Hin & Ho2 & Hb2 & Hsz2 & Hl). exists r2, b2, l. simpl. rewrite lookup_insert_ne by congruence. done.
  - destruct (write_unborn_ok schema g s r l b b' Hs Hun Hb Hlen) as [Hs' F]. split_and!; [done| |done]. by eapply tx_frame; [apply (F None)|..].
Qed.

(** *** Loading *)

Lemma no_live g s k : store_ok g s → versions g k = [] → ∀ l, vown g !! l ≠ Some (Live k).
Proof.
  intros Hs Hv l Hl. destruct (live_chain _ _ _ _ _ Hs Hl) as (c & _ & _ & kept & old & Hkv & _ & front & x & -> & _).
  rewrite Hv in Hkv. destruct front; done.
Qed.

Lemma load_ok g s tb key b (r := fresh (dom (records s))) : store_ok g s → quiet g → low g = 0 → log g = [] → word64 key → hist g !! (tb, key) = None →
  schema !! tb = Some (length b) →
  ∃ g', store_ok g' (insert_into_index (set_records s (<[r := b]> (records s))) tb key r) ∧ quiet g' ∧ low g' = 0 ∧ log g' = [] ∧
    hist g' = <[(tb, key) := [(0, Some b)]]> (hist g) ∧ ∀ j k l, vown g !! l = Some (Dead j k) → vown g' !! l = Some (Dead j k).
Proof.
  intros Hs Hq Hlow Hlog Hk Hh Hsz. set (k := (tb, key)). set (l := fresh (dom (values s))).
  assert (versions g k = []) as Hv by (unfold versions, k; by rewrite Hh).
  assert (values s !! l = None) as Hl by (apply not_elem_of_dom, is_fresh).
  destruct (mv_new_value_ok schema g s l r 0 k 0 b Hs Hl (allocate_fresh _)) as [Hs1 F1]; [destruct Hq as [-> _]; set_solver|done|].
  set (g1 := new_ghost g l r 0 k) in *. set (s1 := new_store s l r 0 b) in *.
  assert (vown g1 !! l = Some (Private 0 k)) as Hl1 by (simpl; by rewrite lookup_insert_eq).
  assert (idx_at (idx s1) tb key = None) as Hat.
  { destruct (idx_at (idx s1) tb key) as [l'|] eqn:Hat; [|done]. exfalso. change (idx s1) with (idx s) in Hat.
    apply (so_tree _ _ _ Hs k l' Hk) in Hat as (o & Ho & [->|[j ->]]); [by destruct (no_live g s k Hs Hv l')|by destruct (proj2 Hq l' j k)]. }
  destruct (insert_absent (idx s1) tb key l (so_index _ _ _ Hs1) Hk Hat) as (ix & Hins & Hiok & Hat').
  destruct (mv_enter_ok schema g1 s1 l 0 k ix Hs1 Hl1 Hk Hat Hiok Hat') as [Hs2 F2].
  set (g2 := set_vown g1 (<[l := Pending 0 k]> (vown g1))) in *. set (s2 := set_idx s1 ix) in *.
  assert (values s2 !! l = Some (mkValue 0 [mkVersion 0 0 (Some r) false])) as Hc2 by (simpl; by rewrite lookup_insert_eq).
  assert (set_value s2 l (mkValue 0 [mkVersion 0 0 (Some r) false]) = s2) as Hid by (unfold set_value; by rewrite insert_id).
  set (vo := <[l := Live k]> (vown g2)). set (ro := <[r := Committed k 0]> (rown g2)).
  exists (add_version g2 k (0, Some b) vo ro). split_and!.
  - assert (insert_into_index (set_records s (<[r := b]> (records s))) tb key r = s2) as ->.
    { unfold insert_into_index. cbn -[fresh idx_insert]. fold l. change (idx s1) with (idx s) in Hins. rewrite Hins. done. }
    rewrite <- Hid. eapply (add_version_ok schema g2 s2 k l 0 0 (Some b) (Some r)); try done.
    + right. simpl. by rewrite lookup_insert_eq.
    + intros r' [= <-]. right. simpl. by rewrite !lookup_insert_eq.
    + simpl. by rewrite decide_False by (destruct Hq as [-> _]; set_solver).
    + change (versions g2 k) with (versions g k). rewrite Hv. by intros x ?%not_elem_of_nil.
    + simpl. rewrite Hlog. by intros x ?%not_elem_of_nil.
    + simpl. intros v x [= <- <-]. simpl. lia.
    + exists [(0, Some b)], []. split; [rewrite versions_add, decide_True by done; change (versions g2 k) with (versions g k); by rewrite Hv|]. split.
      * constructor; [|constructor]. split; [done|]. split; [simpl; lia|]. simpl. split; [done|]. split; [done|]. exists r.
        unfold ro. simpl. by rewrite !lookup_insert_eq.
      * exists [], (0, Some b). split; [done|]. left. simpl. lia.
  - destruct Hq as [Hq1 Hq2]. split; [done|]. intros l' j k'. simpl. unfold vo. simpl. destruct (decide (l' = l)) as [->|]; [by rewrite lookup_insert_eq|].
    rewrite !lookup_insert_ne by done. apply Hq2.
  - done.
  - done.
  - simpl. change (versions g2 k) with (versions g k). by rewrite Hv.
  - intros j k' l' Hd. simpl. unfold vo. simpl. assert (l' ≠ l) by (intros ->; rewrite (vown_fresh _ _ _ _ Hs Hl) in Hd; done). by rewrite !lookup_insert_ne.
Qed.
End mvto_steps.

(** ** The system *)
Section mvto_system.
Import Memory Mvto MvtoSystem.
Context `{HI : ScanIndex loc} `{HL : !ScanIndexLaws loc} `{HT : LeafTimestamps} (schema : gmap Z nat).
Implicit Types (s : store) (t : tx) (k : Z * Z) (l r : loc) (e : ReadWriteElement) (v : Version) (g : ghost) (i j : nat) (S : state).

#[local] Abbreviation store_ok := (store_ok schema).
#[local] Abbreviation tx_ok := (tx_ok schema).
#[local] Abbreviation turn := (turn schema false).

(** The workers' part: each running transaction is in order, the timestamps
    are distinct and were issued. *)
Record workers_ok g s (w : gmap nat worker) (stamps : list Z) : Prop := {
  wk_gc : ∀ i x, w !! i = Some x → gc_ok g i (worker_gc x);
  wk_tx : ∀ i t, w !! i = Some (Running t) → tx_ok false g s i t ∧ start_ts t ∈ stamps ∧ start_ts t ≠ 0;
  wk_unique : ∀ i j t t', w !! i = Some (Running t) → w !! j = Some (Running t') → start_ts t = start_ts t' → i = j;
  wk_hist : ∀ k x, x ∈ versions g k → x.1 ∈ stamps;
  wk_zero : 0 ∈ stamps
}.

Definition invariant g S : Prop :=
  hist g = committed S ∧ log g = reads S ∧ low g = horizon S ∧ store_ok g (db S) ∧ quiet g ∧ workers_ok g (db S) (workers S) (issued S).
Definition consistent S : Prop := ∃ g, invariant g S.

Lemma invariant_turn g S i t : invariant g S → active S i t → turn g (db S) i t.
Proof. intros (_ & _ & _ & Hs & Hq & W) Hi. split; [done..|by apply (wk_tx _ _ _ _ W)|by apply (wk_gc _ _ _ _ W i (Running t))]. Qed.

(** Worker [i] moves on to [x]; the others see a frame. *)
Lemma workers_frame g s g' s' w stamps i t x c : workers_ok g s w stamps → w !! i = Some (Running t) → frame (Some i) c g s g' s' →
  c = None ∨ c = Some (start_ts t) → gc_ok g' i (worker_gc x) → (∀ t', x = Running t' → tx_ok false g' s' i t' ∧ start_ts t' = start_ts t) →
  workers_ok g' s' (<[i := x]> w) stamps.
Proof.
  intros [W1 W2 W3 W4 W5] Hi F Hc Hgc Hx. destruct (W2 i t Hi) as (_ & Hst & Hz). split.
  - intros j y. destruct (decide (j = i)) as [->|]; [rewrite lookup_insert_eq; by intros [= <-]|].
    rewrite lookup_insert_ne by done. intros Hy. eapply gc_frame; [exact F|by apply W1].
  - intros j t'. destruct (decide (j = i)) as [->|Hne].
    + rewrite lookup_insert_eq. intros [= ->]. destruct (Hx t' eq_refl) as [? ->]. done.
    + rewrite lookup_insert_ne by done. intros Hj. destruct (W2 j t' Hj) as (Ht' & ? & ?). split; [|done]. eapply tx_frame; [exact F|congruence| |done].
      intros Heq. apply Hne. eapply (W3 j i t' t); [done..|]. destruct Hc as [-> | ->]; congruence.
  - assert (∀ j t1, <[i := x]> w !! j = Some (Running t1) → ∃ t2, w !! j = Some (Running t2) ∧ start_ts t1 = start_ts t2) as Hold.
    { intros j t1. destruct (decide (j = i)) as [->|]; [rewrite lookup_insert_eq; intros [= ->]; exists t; split; [done|by apply Hx]|].
      rewrite lookup_insert_ne by done. by exists t1. }
    intros j j' t1 t2 (t1' & H1 & E1)%Hold (t2' & H2 & E2)%Hold Heq. eapply W3; [done..|congruence].
  - intros k y [Hy|Hy]%(fr_hist _ _ _ _ _ _ F); [by eapply W4|]. destruct Hc as [-> | ->]; [done|]. by injection Hy as <-.
  - done.
Qed.

(** A worker gets a timestamp for a transaction that holds nothing. *)
Lemma workers_grant g s w stamps i t ts smallest : workers_ok g s w stamps → is_Some (w !! i) → low g ≤ Z.max (low g) smallest ≤ ts →
  (ts ∉ stamps) → (∀ j t', j ≠ i → w !! j = Some (Running t') → Z.max (low g) smallest ≤ start_ts t') →
  start_ts t = ts → smallest_ts t = smallest → rws t = ∅ → ws t = ∅ → observed t = ∅ → gc_ok g i (gc t) →
  workers_ok (raise g (Z.max (low g) smallest)) s (<[i := Running t]> w) (ts :: stamps).
Proof.
  intros [W1 W2 W3 W4 W5] Hi Hlow Hts Hothers Hst Hsm Hr Hw Ho Hgc. split.
  - intros j y. destruct (decide (j = i)) as [->|]; [rewrite lookup_insert_eq; by intros [= <-]|]. rewrite lookup_insert_ne by done. apply W1.
  - intros j t'. destruct (decide (j = i)) as [->|Hne].
    + rewrite lookup_insert_eq. intros [= <-]. split; [|split; [rewrite Hst; left|rewrite Hst; by intros ->]]. apply empty_tx_ok; [simpl; lia| |done..].
      intros k x Hx%W4. rewrite Hst. by intros <-.
    + rewrite lookup_insert_ne by done. intros Hj. destruct (W2 j t' Hj) as (Ht' & Hin & ?). split; [|split; [by right|done]].
      apply raise_tx; [lia| |done]. by eapply Hothers.
  - assert (∀ j t', j ≠ i → w !! j = Some (Running t') → start_ts t' ≠ ts) as Hne by (intros j t' _ Hj Heq; apply Hts; rewrite <- Heq; by eapply W2).
    intros j j' t1 t2. destruct (decide (j = i)) as [->|], (decide (j' = i)) as [->|]; rewrite ?lookup_insert_eq, ?lookup_insert_ne by done.
    + done.
    + intros [= <-] H2 Heq. destruct (Hne j' t2); [done..|congruence].
    + intros H1 [= <-] Heq. destruct (Hne j t1); [done..|congruence].
    + apply W3.
  - intros k x Hx. right. by apply (W4 k).
  - by right.
Qed.

Lemma invariant_grant g s w h L lo stamps i t ts smallest : hist g = h → log g = L → low g = lo → store_ok g s → quiet g → workers_ok g s w stamps →
  is_Some (w !! i) → (ts ∉ stamps) → Z.max lo smallest ≤ ts → (∀ j t', j ≠ i → w !! j = Some (Running t') → Z.max lo smallest ≤ start_ts t') →
  start_ts t = ts → smallest_ts t = smallest → rws t = ∅ → ws t = ∅ → observed t = ∅ → gc_ok g i (gc t) →
  consistent (mkState s (<[i := Running t]> w) h L (Z.max lo smallest) (ts :: stamps)).
Proof.
  intros Hh HLg <- Hs Hq W Hi Hts Hlow Hothers Hst Hsm Hr Hw Ho Hgc. exists (raise g (Z.max (low g) smallest)). split_and!; [done|done|done| |exact Hq|].
  - apply raise_ok; [lia|done].
  - eapply workers_grant; try done; lia.
Qed.

Lemma mv_initial_consistent S : initial S → consistent S.
Proof.
  intros (Hiok & Hat & Hv & Hw & Hc & Hr & Hlow & Hi). exists (mkGhost ∅ [] 0 ∅ ∅ ∅).
  assert (∀ i x, workers S !! i = Some x → x = Idle (TimestampGC.mk [] [])) as Hidle.
  { intros i x Hx. apply Hw. apply list_elem_of_fmap. exists (i, x). split; [done|]. by apply elem_of_map_to_list. }
  split_and!; [done..| |by split|].
  - split; simpl; [done|..].
    + intros k l Hk. rewrite Hat by done. split; [done|]. by intros (? & ? & _).
    + intros l o. by rewrite lookup_empty.
    + intros l. rewrite Hv, lookup_empty. by intros [? ?].
    + intros r. rewrite lookup_empty. by intros [? ?].
    + intros k. unfold versions. simpl. rewrite lookup_empty. constructor.
    + intros k _. unfold versions. simpl. by rewrite lookup_empty.
    + by intros x ?%not_elem_of_nil.
  - split; simpl.
    + intros i x Hx. rewrite (Hidle i x Hx). split; [constructor|by intros l ?%not_elem_of_nil].
    + by intros i t ?%Hidle.
    + by intros i j t t' ?%Hidle.
    + intros k x. unfold versions. simpl. rewrite lookup_empty. by intros ?%not_elem_of_nil.
    + rewrite Hi. left.
Qed.

Lemma abort_grant g S i t t2 s2 ts smallest largest u : invariant g S → active S i t →
  (∃ g1 s1 t1, MvtoInv.turn schema u g1 s1 i t1 ∧ frame (Some i) None g (db S) g1 s1 ∧ same_spec g g1 ∧ abort t1 s1 = Ok (t2, s2)) → grants S i ts smallest →
  consistent (mkState s2 (<[i := Running (set_new_ts t2 ts smallest largest)]> (workers S)) (committed S) (reads S) (Z.max (horizon S) smallest) (ts :: issued S)).
Proof.
  intros (Hh & Hlog & Hlow & Hs & Hq & W) Hi (g1 & s1 & t1 & Ht1 & F1 & [Hh1 Hl1] & Hab) (Hts & Hle & Hothers).
  assert (MvtoInv.turn schema true g1 s1 i t1) as Hu by (destruct u; [done|by apply turn_undo]).
  destruct (mv_abort_ok schema g1 s1 i t1 Hu) as (t2' & s2' & g2 & Hab' & [Hs2 Hq2 Ht2 Hgc2] & F2 & [Hh2 Hl2] & Heq).
  rewrite Hab in Hab'. injection Hab' as <- <-. pose proof (mv_frame_trans _ _ _ _ _ _ _ _ F1 F2) as F.
  rewrite <- (insert_insert_eq (workers S) i (Running _) (Idle (gc t2))).
  eapply (invariant_grant g2); try done; [congruence|congruence|rewrite (fr_low _ _ _ _ _ _ F); exact Hlow| | | |by rewrite Heq..].
  - eapply (workers_frame g (db S) _ _ _ _ i t); [done..|by left|done|done].
  - by rewrite lookup_insert_eq.
  - intros j t' Hj. rewrite lookup_insert_ne by done. by apply Hothers.
Qed.

(** The transaction of worker [i] is over and is destroyed. *)
Lemma destroy_consistent g S i t s c s' : store_ok g s → quiet g → gc_ok g i (gc t) → low g = horizon S →
  workers_ok g s (<[i := Idle (gc t)]> (workers S)) (issued S) → destroy t s = Ok (c, s') → unheld S i s s' → log g = reads S →
  consistent (mkState s' (<[i := Idle c]> (workers S)) (hist g) (reads S) (horizon S) (issued S)).
Proof.
  intros Hs Hq Hgc Hlow [W1 W2 W3 W4 W5] Hdes Hun Hlog.
  destruct (destroy_ok schema g s i t Hs Hq Hgc) as (c' & s2 & g2 & Hdes' & Hs2 & Hq2 & Hh2 & Hlog2 & Hlow2 & Hgc2 & Hgcs & Htxs).
  rewrite Hdes in Hdes'. injection Hdes' as <- <-. exists g2. split_and!; simpl; try done; [congruence..|].
  assert (∀ j x, j ≠ i → <[i := Idle c]> (workers S) !! j = Some x → <[i := Idle (gc t)]> (workers S) !! j = Some x) as Hsame
    by (intros j x Hne; by rewrite !lookup_insert_ne).
  assert (∀ j t', <[i := Idle c]> (workers S) !! j = Some (Running t') → j ≠ i) as Hne by (intros j t' Hj ->; by rewrite lookup_insert_eq in Hj).
  split; [| | | |done].
  - intros j x Hx. destruct (decide (j = i)) as [->|Hji]; [rewrite lookup_insert_eq in Hx; by injection Hx as <-|].
    apply Hgcs; [done|]. apply W1. by apply Hsame.
  - intros j t' Hj. pose proof (Hne j t' Hj). destruct (W2 j t') as (Ht' & ? & ?); [by apply Hsame|]. split; [|done]. apply Htxs; [done|].
    intros k e He. eapply (Hun j t' k e); [done| |done]. unfold active. by rewrite lookup_insert_ne in Hj.
  - intros j j' t3 t4 H3 H4. apply W3; by apply Hsame; [eapply Hne|].
  - intros k x. unfold versions. rewrite Hh2. apply (W4 k).
Qed.

(** Every step keeps the invariant. *)
Lemma step_consistent S S' : step schema S S' → consistent S → consistent S'.
Proof.
  destruct 1 as [s w h tb key b r Hk Hh Hsz Hr|S i c ts smallest largest Hi Hgr|S i t c t' s' Hi Hp Hrun|S i t k e r b b' Hi He Hw Hb Hlen|
    S i t t1 s1 c s2 Hi Hpre Hdes Hun|S i t t1 s1 t2 s2 ts smallest largest Hi Hpre Hab Hgr|S i t t2 s2 ts smallest largest Hi Hab Hgr|S i t c s' Hi Hemp Hdes Hun];
    intros [g Hinv]; pose proof Hinv as (Hgh & Hgl & Hglow & Hs & Hq & W).
  - simpl in *. subst h r. destruct (load_ok schema g s tb key b Hs Hq Hglow Hgl Hk Hh Hsz) as (g' & Hs' & Hq' & Hlow' & Hlog' & Hh' & Hdead).
    exists g'. split_and!; simpl; try done. destruct W as [W1 W2 W3 W4 W5].
    assert (∀ i t, w !! i ≠ Some (Running t)) as Hno by (intros i t Hi; destruct (W2 i t Hi) as (_ & ?%list_elem_of_singleton & ?); done).
    split; [|by intros i t ?%Hno|by intros i j t t' ?%Hno| |done].
    + intros i x Hx. destruct (W1 i x Hx) as [? Hd]. split; [done|]. intros l Hl. destruct (Hd l Hl) as [k' ?]. exists k'. by apply Hdead.
    + intros k' x. unfold versions. rewrite Hh'. destruct (decide (k' = (tb, key))) as [->|]; [rewrite lookup_insert_eq; simpl; by intros ->%list_elem_of_singleton; left|].
      rewrite lookup_insert_ne by done. apply (W4 k').
  - destruct Hgr as (Hts & Hle & Hothers). eapply (invariant_grant g); try done. by apply (wk_gc _ _ _ _ W i (Idle c)).
  - pose proof (invariant_turn g S i t Hinv Hi) as Ht. destruct (run_call_ok schema g (db S) i t c Ht Hp) as [(t2 & s2 & g2 & Hrun2 & Ht2 & Hst)|[m Hm]]; [|congruence].
    rewrite Hrun in Hrun2. injection Hrun2 as <- <-.
    destruct (relog_call schema g (db S) g2 s' i t t' (tu_tx _ _ _ _ _ _ Ht) Ht2 Hst) as [[Hs3 Hq3 Ht3 Hgc3] F3]. set (g3 := set_log _ _) in *.
    exists g3. split_and!; simpl; try done; [by rewrite (qs_hist _ _ _ _ _ _ Hst)|by rewrite Hgl|exact (eq_trans (fr_low _ _ _ _ _ _ F3) Hglow)|].
    eapply (workers_frame g (db S) _ _ _ _ i t); [done..|by apply frame_weaken|by left|done|]. intros t0 [= <-]. split; [done|by apply Hst].
  - pose proof (invariant_turn g S i t Hinv Hi) as Ht. destruct (write_step_ok schema g (db S) i t k e r b b' Ht He Hw Hb Hlen) as (Hs' & Ht' & F).
    exists g. split_and!; simpl; try done. rewrite <- (insert_id (workers S) i (Running t) Hi).
    eapply (workers_frame g (db S) _ _ _ _ i t); [done..|by left|by apply (wk_gc _ _ _ _ W i (Running t))|]. by intros t0 [= <-].
  - pose proof (invariant_turn g S i t Hinv Hi) as Ht.
    destruct (precommit_ok schema g (db S) i t (turn_undo _ _ _ _ _ Ht)) as (ok & t1' & s1' & g1 & Hpre' & Hre & Hs1 & Hq1 & Hgc1 & Hlog1 & Hres).
    rewrite Hpre in Hpre'. injection Hpre' as <- <- <-. destruct Hres as [F1 Hh1].
    rewrite <- Hgh, <- Hh1. eapply (destroy_consistent g1); try done; [by rewrite (fr_low _ _ _ _ _ _ F1)| |congruence].
    eapply (workers_frame g (db S) _ _ _ _ i t); [done..|by right|done|done].
  - pose proof (invariant_turn g S i t Hinv Hi) as Ht.
    destruct (precommit_ok schema g (db S) i t (turn_undo _ _ _ _ _ Ht)) as (ok & t1' & s1' & g1 & Hpre' & Hre & Hs1 & Hq1 & Hgc1 & Hlog1 & Hres).
    rewrite Hpre in Hpre'. injection Hpre' as <- <- <-. destruct Hres as (F1 & Hh1 & Ht1).
    eapply (abort_grant g S i t t2 s2 ts smallest largest true); [done..| |done]. exists g1, s1, t1. by split_and!.
  - pose proof (invariant_turn g S i t Hinv Hi) as Ht. eapply (abort_grant g S i t t2 s2 ts smallest largest false); [done..| |done].
    exists g, (db S), t. split; [done|]. split; [apply mv_frame_refl|done].
  - pose proof (invariant_turn g S i t Hinv Hi) as [_ _ _ Hgc]. rewrite <- Hgh. eapply (destroy_consistent g); try done.
    eapply (workers_frame g (db S) _ _ _ _ i t _ None); [done..|apply mv_frame_refl|by left|done|done].
Qed.

Lemma mv_reachable_consistent S0 S : initial S0 → reachable schema S0 S → consistent S.
Proof. intros H0. induction 1; [by apply mv_initial_consistent|by eapply step_consistent]. Qed.

(** ** What holds in every reachable state *)

(** The versions of a row, and the row a transaction may see. *)
Definition versions_of S k : history := default [] (committed S !! k).
Definition visible S t k : option block := row_before (start_ts t) (versions_of S k).

(** C6: in every reachable state each read that a transaction ever made of
    an existing row, whatever was committed since, is the latest committed
    version written before the reader's timestamp, with the same bytes, and
    the versions of a row have distinct timestamps: the reads of existing
    rows and the commits are those of the transactions run one after the
    other in the order of their timestamps. *)
Theorem mvto_serializable (S0 S : state) (H0 : initial S0) (Hr : reachable schema S0 S) :
  (∀ ts k w b, (ts, k, w, b) ∈ reads S → version_before ts (versions_of S k) = Some (w, Some b)) ∧
  ∀ k, newest_first (versions_of S k).
Proof.
  destruct (mv_reachable_consistent S0 S H0 Hr) as (g & Hh & Hlog & _ & Hs & _). unfold versions_of. rewrite <- Hh, <- Hlog. split.
  - intros ts k w b Hin. by destruct (so_log _ _ _ Hs _ Hin).
  - apply Hs.
Qed.

(** Under a horizon below every running transaction, and reclamation of values
    that no transaction holds (both conditions of the steps), in every
    reachable state no call of a running transaction has undefined behaviour
    or waits for a lock: a permitted call returns or throws, and committing,
    aborting and the destructor return. *)
Theorem mvto_safe (S0 S : state) (i : nat) (t : tx) (c : call) (H0 : initial S0) (Hr : reachable schema S0 S) (Hi : active S i t) :
  (permitted schema t c → (∃ x, run_call schema t (db S) c = Ok x) ∨ ∃ m, run_call schema t (db S) c = Throw m) ∧
  (∃ x, precommit t (db S) = Ok x) ∧ (∃ x, abort t (db S) = Ok x) ∧ ∃ x, destroy t (db S) = Ok x.
Proof.
  destruct (mv_reachable_consistent S0 S H0 Hr) as [g Hinv]. pose proof (invariant_turn g S i t Hinv Hi) as Ht. split_and!.
  - intros Hp. destruct (run_call_ok schema g (db S) i t c Ht Hp) as [(t' & s' & _ & -> & _)|?]; [left; eauto|by right].
  - destruct (precommit_ok schema g (db S) i t (turn_undo _ _ _ _ _ Ht)) as (b & t' & s' & _ & -> & _). eauto.
  - destruct (mv_abort_ok schema g (db S) i t (turn_undo _ _ _ _ _ Ht)) as (t' & s' & _ & -> & _). eauto.
  - destruct Ht as [H1 H2 H3 H4]. destruct (destroy_ok schema g (db S) i t H1 H2 H4) as (x & s' & _ & -> & _). eauto.
Qed.


(** ** The chains hold the version store *)

Definition holds s v (x : Z * option block) : Prop :=
  write_ts v = x.1 ∧ deleted v = bool_decide (x.2 = None) ∧ rec v ≫= (λ r, records s !! r) = x.2.

(** Every row of the tree has a chain of the latest versions, unlocked, which
    answers as all its versions do from the horizon on; a key that is not in
    the tree has no row from the horizon on. *)
Definition represents s (h : gmap (Z * Z) history) (lo : Z) : Prop :=
  ∀ k, word64 k.2 → let hk := default [] (h !! k) in
  match idx_at (idx s) k.1 k.2 with
  | Some l => ∃ c kept old, values s !! l = Some (mkValue 0 c) ∧ hk = kept ++ old ∧ Forall2 (holds s) c kept ∧
      ∀ ts, lo ≤ ts → (∀ x, x ∈ hk → x.1 ≠ ts) → row_before ts kept = row_before ts hk
  | None => ∀ ts, lo ≤ ts → (∀ x, x ∈ hk → x.1 ≠ ts) → row_before ts hk = None
  end.

Lemma represents_ok g s : store_ok g s → quiet g → represents s (hist g) (low g).
Proof.
  intros Hs [Hh Hnp] k Hk. change (default [] (hist g !! k)) with (versions g k). cbv zeta. destruct (idx_at (idx s) k.1 k.2) as [l|] eqn:Hat.
  - assert (vown g !! l = Some (Live k)) as Hl.
    { apply (so_tree _ _ _ Hs k l Hk) in Hat as (o & Ho & [->|[j ->]]); [done|]. by destruct (Hnp l j k). }
    destruct (live_chain _ _ _ _ _ Hs Hl) as ([x c] & Hc & Hx & kept & old & Hv & Hch & He). simpl in *.
    rewrite decide_False in Hx by (rewrite Hh; set_solver). subst x. exists c, kept, old. split; [done|]. split; [done|]. split.
    + eapply Forall2_impl; [exact Hch|]. intros v [w [b|]] (Hw & _ & Ho); simpl in *.
      * destruct Ho as (Hd & _ & r & Hr & _ & Hb). unfold holds. rewrite Hr. simpl. by rewrite Hb.
      * destruct Ho as [Hd Hr]. unfold holds. by rewrite Hr.
    + intros ts Hts Hne. destruct (version_before ts kept) as [y|] eqn:Hb.
      * unfold row_before. by rewrite Hv, (before_app_l _ _ _ _ Hb), Hb.
      * rewrite (invisible g kept old k ts); [|done..]. unfold row_before. by rewrite Hb.
  - intros ts Hts Hne. apply (tomb_invisible g k ts); [done..|]. apply Hs. intros l Hl. pose proof (live_at _ _ _ _ _ Hs Hl). congruence.
Qed.



(** C10: [gc_version_chain] frees exactly the versions that no transaction
    at or above its horizon reads.  When it returns it has kept a prefix of the
    chain of the value, with the value's lock, and has freed the records of the
    rest and nothing else.  A transaction whose timestamp is not below the
    horizon finds the same version in what is kept as in the whole chain; but
    the version of an older transaction that was overwritten up to the horizon
    is among those freed, so the horizon must not pass a running transaction. *)
Theorem mvto_gc_invisible (t : tx) (s s' : store) (l : loc) (Hgc : gc_version_chain t s l = Ok s') :
  ∃ lock kept freed, values s !! l = Some (mkValue lock (kept ++ freed)) ∧
    s' = mkStore (<[l := mkValue lock kept]> (values s)) (records s') (idx s) (leaf_ts s) ∧
    (∀ r, records s' !! r = if decide (r ∈ omap rec freed) then None else records s !! r) ∧
    (∀ ts, smallest_ts t ≤ ts → get_correct_version ts kept = get_correct_version ts (kept ++ freed)) ∧
    (∀ ts n m v, get_correct_version ts (kept ++ freed) = Some n → (m < n)%nat → (kept ++ freed) !! m = Some v →
      write_ts v ≤ smallest_ts t → (length kept ≤ n)%nat).
Proof.
  unfold gc_version_chain, load_chain, set_chain in Hgc. destruct (values s !! l) as [[lock c]|] eqn:Hl; [|done]. simpl in Hgc.
  pose proof (gc_split_app (smallest_ts t) c) as Happ. pose proof (gc_split_visible (smallest_ts t)) as Hvis.
  pose proof (gc_split_hidden (smallest_ts t)) as Hhid. specialize (Hhid) with (c := c). specialize (Hvis) with (c := c).
  destruct (gc_split (smallest_ts t) c) as [kept freed]. destruct Happ as [-> _]. simpl in *. apply bind_Ok in Hgc as (m & Hm & [= <-]).
  apply free_versions_drop in Hm as ->. exists lock, kept, freed. split_and!; [done..|apply lookup_drop_recs|exact Hvis|exact Hhid].
Qed.
End mvto_system.
