(* ===== verification/MvtoRun.v ===== *)
(** * Runs of MVTO

    Schedules of the workers as lists of events that are carried out one by
    one: what they lead to is reachable.  They serve as instances of the
    theorems and to show what the code does when its conditions on the
    timestamps, or on the order of the calls, are not met. *)
From S2P Require Import Prelude Versions RWLock Timestamp Index Memory Mvto MvtoInv MvtoStore MvtoCalls MvtoCommit MvtoSystem.

Section mvto_schedules.
Import Memory Mvto MvtoSystem.
Context `{HI : ScanIndex loc} `{HL : !ScanIndexLaws loc} `{HT : LeafTimestamps} (schema : gmap Z nat).
Implicit Types S : state.

Inductive action :=
| ELoad (tb key : Z) (b : block) | EBegin (i : nat) (ts smallest largest : Z) | ECall (i : nat) (c : call)
| EWrite (i : nat) (k : Z * Z) (b : block) | ECommit (i : nat) | EFail (i : nat) (ts smallest largest : Z)
| EAbort (i : nat) (ts smallest largest : Z) | EFinish (i : nat).

#[local] Instance permitted_dec t c : Decision (permitted schema t c).
Proof. destruct c; simpl; apply _. Defined.

Definition others (S : state) (i : nat) (P : tx → bool) : bool :=
  forallb (λ x, if decide (x.1 = i) then true else match x.2 with Running t => P t | Idle _ => true end) (map_to_list (workers S)).

Lemma others_spec S i (P : tx → bool) j t : others S i P = true → j ≠ i → active S j t → P t = true.
Proof.
  unfold others, active. rewrite forallb_forall. intros HP Hj Ht. specialize (HP (j, Running t)). simpl in HP. rewrite decide_False in HP by done.
  apply HP, list_elem_of_In, elem_of_map_to_list, Ht.
Qed.

Definition grantsb S i ts smallest : bool :=
  bool_decide (ts ∉ issued S) && (Z.max (horizon S) smallest <=? ts) && others S i (λ t, Z.max (horizon S) smallest <=? start_ts t).
Lemma grantsb_spec S i ts smallest : grantsb S i ts smallest = true → grants S i ts smallest.
Proof.
  unfold grantsb. intros [[H1%bool_decide_eq_true H2]%andb_true_iff H3]%andb_true_iff. split; [done|]. split; [lia|].
  intros j t Hj Ht. pose proof (others_spec _ _ _ j t H3 Hj Ht). simpl in *. lia.
Qed.

Definition unheldb S i (s s' : store) : bool :=
  others S i (λ t, forallb (λ x, bool_decide (is_Some (values s !! val x.2.2) → is_Some (values s' !! val x.2.2))) (map_to_list (rws t))).
Lemma unheldb_spec S i s s' : unheldb S i s s' = true → unheld S i s s'.
Proof.
  unfold unheldb. intros H j t k e Hj Ht He. pose proof (others_spec _ _ _ j t H Hj Ht) as Hall. simpl in Hall. rewrite forallb_forall in Hall.
  destruct (find_rws _ _ _ He) as [n Hn]. specialize (Hall (k, (n, e))). simpl in Hall.
  apply (bool_decide_eq_true_1 (is_Some (values s !! val e) → is_Some (values s' !! val e))), Hall, list_elem_of_In, elem_of_map_to_list, Hn.
Qed.

Definition the_tx S i : option tx := match workers S !! i with Some (Running t) => Some t | _ => None end.
Definition move S i s w h L : state := mkState s (<[i := w]> (workers S)) h L (horizon S) (issued S).
Definition grant S i s t ts smallest : state :=
  mkState s (<[i := Running t]> (workers S)) (committed S) (reads S) (Z.max (horizon S) smallest) (ts :: issued S).

Definition perform (ev : action) S : option state :=
  match ev with
  | ELoad tb key b =>
      if decide (word64 key ∧ committed S !! (tb, key) = None ∧ schema !! tb = Some (length b) ∧ reads S = [] ∧ horizon S = 0 ∧ issued S = [0]) then
        let r := fresh (dom (records (db S))) in
        Some (mkState (insert_into_index (set_records (db S) (<[r := b]> (records (db S)))) tb key r) (workers S)
          (<[(tb, key) := [(0, Some b)]]> (committed S)) [] 0 [0])
      else None
  | EBegin i ts smallest largest =>
      match workers S !! i with
      | Some (Idle c) => if grantsb S i ts smallest then Some (grant S i (db S) (new_tx ts smallest largest c) ts smallest) else None
      | _ => None
      end
  | ECall i c => t ← the_tx S i;
      if decide (permitted schema t c) then
        match run_call schema t (db S) c with
        | Ok (t', s') => Some (move S i s' (Running t') (committed S) (reads_of t' s' ++ reads S))
        | _ => None
        end
      else None
  | EWrite i k b' => t ← the_tx S i; e ← find t k; r ← write_rec e; b ← records (db S) !! r;
      if decide (length b' = length b) then
        Some (mkState (set_records (db S) (<[r := b']> (records (db S)))) (workers S) (committed S) (reads S) (horizon S) (issued S))
      else None
  | ECommit i => t ← the_tx S i;
      match precommit t (db S) with
      | Ok (true, t1, s1) =>
          match destroy t1 s1 with
          | Ok (c, s2) => if unheldb S i s1 s2 then
              Some (move S i s2 (Idle c) (install_entries t1 (db S) (write_order t1) (committed S)) (reads S)) else None
          | _ => None
          end
      | _ => None
      end
  | EFail i ts smallest largest => t ← the_tx S i;
      match precommit t (db S) with
      | Ok (false, t1, s1) =>
          match abort t1 s1 with
          | Ok (t2, s2) => if grantsb S i ts smallest then Some (grant S i s2 (set_new_ts t2 ts smallest largest) ts smallest) else None
          | _ => None
          end
      | _ => None
      end
  | EAbort i ts smallest largest => t ← the_tx S i;
      match abort t (db S) with
      | Ok (t2, s2) => if grantsb S i ts smallest then Some (grant S i s2 (set_new_ts t2 ts smallest largest) ts smallest) else None
      | _ => None
      end
  | EFinish i => t ← the_tx S i;
      if decide (rws t = ∅) then
        match destroy t (db S) with
        | Ok (c, s') => if unheldb S i (db S) s' then Some (move S i s' (Idle c) (committed S) (reads S)) else None
        | _ => None
        end
      else None
  end.

Lemma the_tx_active S i t : the_tx S i = Some t → active S i t.
Proof. unfold the_tx, active. destruct (workers S !! i) as [[]|]; [done| |done]. by intros [= <-]. Qed.

Lemma action_step ev S S' : perform ev S = Some S' → step schema S S'.
Proof.
  destruct ev as [tb key b|i ts sm lg|i c|i k b'|i|i ts sm lg|i ts sm lg|i]; unfold perform.
  - case_decide as H; [|done]. destruct H as (? & ? & ? & Hr & Hh & Hi). intros [= <-]. destruct S. simpl in *. subst. by apply step_load.
  - destruct (workers S !! i) as [[c|]|] eqn:Hi; [|done..]. destruct (grantsb S i ts sm) eqn:Hg; [|done]. intros [= <-]. eapply step_begin; [done|]. by apply grantsb_spec.
  - intros (t & Ht%the_tx_active & H)%bind_Some. case_decide; [|done]. destruct (run_call schema t (db S) c) as [[t' s']| | |] eqn:Hc; [|done..].
    injection H as <-. by eapply step_call.
  - intros (t & Ht%the_tx_active & H)%bind_Some. apply bind_Some in H as (e & He & H). apply bind_Some in H as (r & Hr & H). apply bind_Some in H as (b & Hb & H).
    case_decide; [|done]. injection H as <-. by eapply step_write.
  - intros (t & Ht%the_tx_active & H)%bind_Some. destruct (precommit t (db S)) as [[[[] t1] s1]| | |] eqn:Hp; [|done..].
    destruct (destroy t1 s1) as [[c s2]| | |] eqn:Hd; [|done..]. destruct (unheldb S i s1 s2) eqn:Hu; [|done]. injection H as <-.
    eapply step_commit; [done..|]. by apply unheldb_spec.
  - intros (t & Ht%the_tx_active & H)%bind_Some. destruct (precommit t (db S)) as [[[[] t1] s1]| | |] eqn:Hp; [done| |done..].
    destruct (abort t1 s1) as [[t2 s2]| | |] eqn:Ha; [|done..]. destruct (grantsb S i ts sm) eqn:Hg; [|done]. injection H as <-.
    eapply step_fail; [done..|]. by apply grantsb_spec.
  - intros (t & Ht%the_tx_active & H)%bind_Some. destruct (abort t (db S)) as [[t2 s2]| | |] eqn:Ha; [|done..].
    destruct (grantsb S i ts sm) eqn:Hg; [|done]. injection H as <-. eapply step_abort; [done..|]. by apply grantsb_spec.
  - intros (t & Ht%the_tx_active & H)%bind_Some. case_decide; [|done]. destruct (destroy t (db S)) as [[c s2]| | |] eqn:Hd; [|done..].
    destruct (unheldb S i (db S) s2) eqn:Hu; [|done]. injection H as <-. eapply step_finish; [done..|]. by apply unheldb_spec.
Qed.

Definition run_events (evs : list action) S : option state := foldl (λ o ev, S ← o; perform ev S) (Some S) evs.

Lemma events_reachable evs S0 : reachable schema S0 (default S0 (run_events evs S0)).
Proof.
  induction evs as [|ev evs IH] using rev_ind; [constructor|]. unfold run_events in *. rewrite foldl_app. simpl.
  destruct (foldl _ _ evs) as [S|]; simpl in *; [|constructor]. destruct (perform ev S) as [S'|] eqn:Hy; simpl; [|constructor].
  eapply reach_step; [done|]. by apply action_step in Hy.
Qed.
End mvto_schedules.

(** ** An iterator to an erased entry *)
Section mvto_dangling.
Import Memory Mvto.
Context `{HI : ScanIndex loc} `{HT : LeafTimestamps}.

Lemma abort_entries_iters (t : tx) (s s' : store) R : abort_entries t s R = Ok s' → ∀ x, x ∈ R → ∃ e, deref_iter t x.1 x.2 = Ok e.
Proof.
  revert s. induction R as [|[tb it] R IH]; intros s; [by intros _ x ?%not_elem_of_nil|]. simpl.
  intros (e & He & (s1 & _ & Hr)%bind_Ok)%bind_Ok x [->|Hx]%elem_of_cons; [by exists e|by eapply IH].
Qed.

(** A transaction that removes a row it has inserted itself gets null,
    and the write set is left with an iterator to the erased entry: the
    [abort] that must follow does not return normally. *)
Theorem mvto_remove_own_insert (t : tx) (s : store) (tb key : Z) (e : ReadWriteElement) p t' s'
    (He : find t (tb, key) = Some e) (Hi : rwt e = INSERT) (Hw : key ∈ (w_table t tb).*1) (Hr : remove t s tb key = Ok (p, t', s')) :
  p = None ∧ find t' (tb, key) = None ∧ ∀ x, abort t' s' ≠ Ok x.
Proof.
  unfold remove in Hr. change (find (add_table t tb) (tb, key)) with (find t (tb, key)) in Hr. rewrite He, Hi in Hr.
  apply bind_Ok in Hr as (u & _ & Hr). apply bind_Ok in Hr as (s1 & _ & [= <- <- <-]). split; [done|].
  assert (rws (add_table t tb) !! (tb, key) = rws t !! (tb, key)) as _ by done.
  split; [unfold find; simpl; by rewrite lookup_delete_eq|]. intros x Hab. unfold abort in Hab.
  apply bind_Ok in Hab as (s2 & Hab & _). apply list_elem_of_fmap in Hw as (it & -> & Hit).
  destruct (abort_entries_iters _ _ _ _ Hab (tb, it)) as [e' He'].
  - apply elem_writes. simpl. split; [apply elem_table_order; simpl; set_solver|exact Hit].
  - unfold deref_iter in He'. simpl in He'. by rewrite lookup_delete_eq in He'.
Qed.
End mvto_dangling.

(** ** Two workers *)
Section mvto_example.
Import Memory Mvto MvtoSystem.

Lemma is_Ok_get {A} (o : outcome A) : (if o is Ok _ then true else false) = true → ∃ x, o = Ok x.
Proof. destruct o; [by eexists|done..]. Qed.

(** Leaf timestamps in a map; a timestamp is only raised. *)
#[local] Instance leaf_map : LeafTimestamps := {
  leaves := gmap Z Z;
  update_ts m n ts := <[n := Z.max ts (default 0 (m !! n))]> m;
  get_ts m n := default 0 (m !! n)
}.

Definition mv_schema : gmap Z nat := {[1 := 1%nat]}.
Definition no_rows : index (V := positive) := (∅ : gmap Z (gmap bytes positive)).
Definition mv0 : state :=
  mkState (mkStore ∅ ∅ no_rows (∅ : gmap Z Z)) {[0%nat := Idle (TimestampGC.mk [] []); 1%nat := Idle (TimestampGC.mk [] [])]} ∅ [] 0 [0].

Lemma mv_initial : initial mv0.
Proof.
  split; [|split; [done|split; [done|split; [|done]]]].
  - by intros tb k v.
  - intros w (x & -> & Hin)%list_elem_of_fmap. destruct x as [i w]. apply elem_of_map_to_list in Hin. simpl in *.
    apply lookup_insert_Some in Hin as [[_ <-]|[_ [_ <-]%lookup_singleton_Some]]; done.
Qed.

(** Worker 1 reads key 10; worker 0, which is older, updates it, is refused
    and tries again under a new timestamp; worker 1 inserts key 15. *)
Definition mv_calls : list action :=
  [ELoad 1 10 [Some 5]; EBegin 0 300 0 0; EBegin 1 600 0 0; ECall 1 (Read 1 10); ECall 0 (Update 1 10); EWrite 0 (1, 10) [Some 7];
   EFail 0 900 0 0; ECall 0 (Update 1 10); EWrite 0 (1, 10) [Some 7]; ECall 1 (Insert 1 15); EWrite 1 (1, 15) [Some 8]].
Definition mv_running : state := default mv0 (run_events mv_schema mv_calls mv0).
Definition mv_done : state := default mv0 (run_events mv_schema (mv_calls ++ [ECommit 0; ECommit 1]) mv0).
Definition mv_tx (S : state) (i : nat) : tx := default (new_tx 0 0 0 (TimestampGC.mk [] [])) (the_tx S i).

Lemma mv_active S i : (if the_tx S i is Some _ then true else false) = true → active S i (mv_tx S i).
Proof. intros H. apply the_tx_active. unfold mv_tx. by destruct (the_tx S i). Qed.

(** A later commit of key 10 leaves what worker 1 has read in its place. *)
Lemma mvto_serializable_witness : versions_of mv_done (1, 10) = [(900, Some [Some 7]); (0, Some [Some 5])] ∧
  version_before 600 (versions_of mv_done (1, 10)) = Some (0, Some [Some 5]).
Proof.
  split; [by_vm|]. destruct (mvto_serializable mv_schema mv0 mv_done mv_initial (events_reachable _ _ _)) as [Hreads _].
  apply (Hreads 600 (1, 10) 0 [Some 5]). apply (bool_decide_eq_true_1 ((600, (1, 10), 0, [Some 5]) ∈ reads mv_done)). by_vm.
Defined.

Lemma mvto_safe_witness : start_ts (mv_tx mv_running 1) = 600 ∧ ∃ x, precommit (mv_tx mv_running 1) (db mv_running) = Ok x.
Proof.
  split; [by_vm|].
  destruct (mvto_safe mv_schema mv0 mv_running 1 (mv_tx mv_running 1) (Read 1 20) mv_initial (events_reachable _ _ _)) as (_ & Hpre & _);
    [apply mv_active; by_vm|exact Hpre].
Defined.




Definition mv_chain : list Version :=
  [mkVersion 900 900 (Some 3%positive) false; mkVersion 700 500 (Some 2%positive) false; mkVersion 100 100 (Some 1%positive) false].
Definition tx_at (ts smallest : Z) : tx := new_tx ts smallest 0 (TimestampGC.mk [] []).
Definition mv_old : store :=
  mkStore {[7%positive := mkValue (-1) mv_chain]} {[1%positive := [Some 1]; 2%positive := [Some 2]; 3%positive := [Some 3]]} (idx (db mv0)) (leaf_ts (db mv0)).
Definition mv_collected : store := match gc_version_chain (tx_at 600 512) mv_old 7 with Ok s => s | _ => mv_old end.

Lemma mvto_gc_invisible_witness : ∃ kept freed, mv_chain = kept ++ freed ∧ values mv_collected !! 7%positive = Some (mkValue (-1) kept) ∧
  records mv_collected !! 1%positive = None ∧ get_correct_version 600 kept = Some 1%nat.
Proof.
  destruct (mvto_gc_invisible (tx_at 600 512) mv_old mv_collected 7 eq_refl) as (lock & kept & freed & Hl & Hs & Hr & Hv & _).
  injection Hl as <- Hc. exists kept, freed. split; [done|]. rewrite Hv, <- Hc by (simpl; lia). rewrite Hs. split_and!; [apply lookup_insert_eq|done..].
Defined.

(** ** What the conditions exclude *)

(** Worker 1 inserts key 15 and removes it again. *)
Lemma mvto_remove_own_insert_witness : ∃ t' s', remove (mv_tx mv_running 1) (db mv_running) 1 15 = Ok (None, t', s') ∧ ∀ x, abort t' s' ≠ Ok x.
Proof.
  destruct (is_Ok_get (remove (mv_tx mv_running 1) (db mv_running) 1 15)) as [[[p t'] s'] Hr]; [by_vm|].
  destruct (mvto_remove_own_insert (mv_tx mv_running 1) (db mv_running) 1 15
    (default (mkElem None None READ false 1%positive) (find (mv_tx mv_running 1) (1, 15))) p t' s') as (-> & _ & Ha).
  - apply lookup_default. by_vm.
  - by_vm.
  - apply (bool_decide_eq_true_1 (15 ∈ (w_table (mv_tx mv_running 1) 1).*1)). by_vm.
  - exact Hr.
  - exists t', s'. split; [exact Hr|exact Ha].
Defined.

(** A row loaded with key 10, and a transaction on it. *)
Definition mv_loaded : state := default mv0 (run_events mv_schema [ELoad 1 10 [Some 5]] mv0).

Definition chain_of (s : store) (table_id key : Z) : list Version :=
  default [] (version <$> (idx_at (idx s) table_id key ≫= λ l, values s !! l)).

(** A row is updated and then removed, or removed and then inserted, by one
    transaction, which commits; another transaction updates it. *)
Definition update_then_remove : outcome (tx * store) :=
  '(_, t, s) ← update mv_schema (tx_at 300 0) (db mv_loaded) 1 10; '(_, t, s) ← remove t s 1 10;
  '(_, t, s) ← precommit t s; Ok (t, s).
Definition remove_then_insert : outcome (tx * store) :=
  '(_, t, s) ← remove (tx_at 300 0) (db mv_loaded) 1 10; '(_, t, s) ← insert mv_schema t s 1 10;
  '(_, t, s) ← precommit t s; Ok (t, s).
Definition then_update (o : outcome (tx * store)) : outcome (list Version) :=
  '(_, s) ← o; '(_, _, s) ← update mv_schema (tx_at 600 0) s 1 10; Ok (chain_of s 1 10).

(** A transaction that updates a row and then removes it, or removes it
    and then inserts it, commits a version that is not deleted and has no
    record; the next transaction to update the row copies from null. *)
Theorem mvto_null_record :
  (λ x, chain_of x.2 1 10) <$> update_then_remove = Ok [mkVersion 300 300 None false; mkVersion 300 0 (Some 1%positive) false] ∧
  (λ x, chain_of x.2 1 10) <$> remove_then_insert = Ok [mkVersion 300 300 None false; mkVersion 300 0 (Some 1%positive) false] ∧
  then_update update_then_remove = Stuck ∧ then_update remove_then_insert = Stuck.
Proof. split_and!; by_vm. Qed.

(** Worker 1 looks for key 15 and finds nothing; worker 0, which is older,
    then inserts it and commits. *)
Definition mv_looked : state := default mv0 (run_events mv_schema [EBegin 1 600 0 0; ECall 1 (Read 1 15)] mv0).
Definition mv_inserted : state :=
  default mv_looked (run_events mv_schema [EBegin 0 300 0 0; ECall 0 (Insert 1 15); EWrite 0 (1, 15) [Some 8]; ECommit 0] mv_looked).

(** That a row is absent is not protected: a transaction that has found
    nothing under a key later has a row there, inserted by an older
    transaction that was let through. *)
Theorem mvto_absent_unprotected : ∃ S1 S2 : state, reachable mv_schema mv0 S1 ∧ reachable mv_schema S1 S2 ∧
  start_ts (mv_tx S1 1) = 600 ∧ start_ts (mv_tx S2 1) = 600 ∧ (kind (mv_tx S2 1) 1 15 = None) ∧
  visible S1 (mv_tx S1 1) (1, 15) = None ∧ visible S2 (mv_tx S2 1) (1, 15) = Some [Some 8].
Proof.
  exists mv_looked, mv_inserted. split; [apply events_reachable|]. split; [apply events_reachable|]. split_and!; by_vm.
Qed.
End mvto_example.
