(* ===== verification/WaitDieClaims.v ===== *)
(** * What a transaction may rely on at a wait-die lock

    The lock seen from one transaction: it has no business with the lock,
    holds it in a mode, or has asked for it and either waits in the queue or
    was granted it by a release.  Every call of one transaction leaves what
    the others rely on as it was: a release only turns waiting into holding. *)
From S2P Require Import Prelude WaitDieLock.

Section claims.
Import TimestampSortedList WaitDieLock.
Implicit Types (w : t) (ts : Z) (m : Operation).

(** The mode in which a request is granted. *)
Definition granted_mode m : Operation := match m with U => E | m => m end.

Definition waiting w m ts : Prop :=
  (ts, m) ∈ waiter_list w ∧ (ts ∈ owner_ts (owner_list w) ↔ m = U).
Definition pending w m ts : Prop := waiting w m ts ∨ holds w (granted_mode m) ts.

(** What the transactions other than [ts] keep. *)
Record others_keep ts w w' : Prop := {
  keep_absent ts' : ts' ≠ ts → absent w ts' → absent w' ts';
  keep_holds m ts' : ts' ≠ ts → holds w m ts' → holds w' m ts';
  keep_pending m ts' : ts' ≠ ts → pending w m ts' → pending w' m ts'
}.

Lemma others_keep_refl ts w : others_keep ts w w.
Proof. by split. Qed.

Lemma waiting_ts w m ts : waiting w m ts → ts ∈ waiter_ts w.
Proof. intros [Hin _]. by apply (list_elem_of_fmap_2 fst _ (ts, m)). Qed.

Lemma pending_granted w m ts : pending w m ts → ts ∉ waiter_ts w → holds w (granted_mode m) ts.
Proof. intros [Hw%waiting_ts|?]; done. Qed.

(** One transaction asks at most once. *)
Lemma waiter_once w ts m m' : lock_ok w → (ts, m) ∈ waiter_list w → (ts, m') ∈ waiter_list w → m = m'.
Proof.
  intros [[_ Hs _ _] _ _]. unfold youngest_first in Hs. induction (waiter_list w) as [|x q IH]; [by intros ?%not_elem_of_nil|].
  csimpl in Hs. apply StronglySorted_inv in Hs as [Hs Hall]. rewrite Forall_forall in Hall.
  assert (∀ n, (ts, n) ∈ q → x.1 > ts) as Hlt by (intros n Hn; apply Hall; by apply (list_elem_of_fmap_2 fst _ (ts, n))).
  intros [<-|H1]%elem_of_cons [Heq|H2]%elem_of_cons; [by injection Heq| | |by apply IH].
  - specialize (Hlt _ H2). simpl in Hlt. lia.
  - subst x. specialize (Hlt _ H1). simpl in Hlt. lia.
Qed.

(** An exclusive holder is the only owner. *)
Lemma holds_exclusive w ts m ts' : lock_ok w → holds w E ts → holds w m ts' → ts' = ts.
Proof.
  intros Hok (Hop & Hin & _) (_ & Hin' & _). pose proof (ok_mode _ _ (ok_lists _ Hok)) as Hm. unfold mode_ok in Hm.
  rewrite Hop in Hm. unfold owner_ts in *. destruct (owners (owner_list w)) as [|x [|? ?]]; try done. set_solver.
Qed.

Lemma holds_mode w ts m m' : holds w m ts → holds w m' ts → m = m'.
Proof. intros (<- & _) (<- & _). done. Qed.

(** ** Requests *)

(** A new owner in mode [m], or a new waiter, changes nothing for others. *)
Lemma keep_owner ts w m : lock_ok w → waiter_list w = [] → (m = S ∧ op (owner_list w) ≠ E ∨ owners (owner_list w) = []) →
  others_keep ts w (mk (waiter_list w) (owner_insert (owner_list w) ts m)).
Proof.
  intros Hok Hnil Hm. unfold absent, holds, pending, waiting, waiter_ts. 
  assert (∀ m' ts', ts' ∈ owner_ts (owner_list w) → op (owner_list w) = m' → m = m') as Hmode.
  { intros m' ts' Hin Hop. destruct Hm as [[-> Hne]|Hn]; [|unfold owner_ts in Hin; rewrite Hn in Hin; by apply not_elem_of_nil in Hin].
    pose proof (ok_mode _ _ (ok_lists _ Hok)) as Hmo. unfold mode_ok in Hmo. unfold owner_ts in Hin. rewrite Hop in *.
    destruct m'; try done. rewrite Hmo in Hin. by apply not_elem_of_nil in Hin. }
  assert (∀ m' ts', ts' ≠ ts → holds w m' ts' → holds (mk (waiter_list w) (owner_insert (owner_list w) ts m)) m' ts') as Hh.
  { intros m' ts' Hne (Hop & Hin & Hni). split; [simpl; by apply (Hmode m' ts')|]. split; [apply owner_insert_ts; by right|done]. }
  split; [|done|].
  - intros ts' Hne [Ho Hw]. split; [|done]. simpl. rewrite owner_insert_ts. intros [?|?]; done.
  - intros m' ts' Hne [[Hin _]|Hh']; [rewrite Hnil in Hin; by apply not_elem_of_nil in Hin|right; by apply Hh].
Qed.

Lemma keep_waiter ts w m : others_keep ts w (add_waiter w ts m).
Proof.
  assert (∀ x, x ∈ waiter_ts (add_waiter w ts m) ↔ x = ts ∨ x ∈ waiter_ts w) as Hq.
  { intros x. unfold waiter_ts. simpl. rewrite insert_perm. csimpl. apply elem_of_cons. }
  assert (∀ m' ts', ts' ≠ ts → holds w m' ts' → holds (add_waiter w ts m) m' ts') as Hh.
  { intros m' ts' Hne (Hop & Hin & Hni). split_and!; [done..|]. rewrite Hq. intros [?|?]; done. }
  split; [|done|].
  - intros ts' Hne [Ho Hw]. split; [done|]. rewrite Hq. intros [?|?]; done.
  - intros m' ts' Hne [[Hin Ho]|Hh']; [left|right; by apply Hh]. split; [|done]. simpl. rewrite insert_perm. by right.
Qed.

(** The end of a request by [ts], which had claim [P] before. *)
Definition requested w ts m (r : result) w' : Prop :=
  lock_ok w' ∧ others_keep ts w w' ∧ (∀ ts', ts' ≠ ts → ts' ∈ owner_ts (owner_list w') ∨ ts' ∈ waiter_ts w' → ts' ∈ owner_ts (owner_list w) ∨ ts' ∈ waiter_ts w) ∧
  match r with
  | Acquired => holds w' (granted_mode m) ts
  | Waiting => waiting w' m ts
  | Died => w' = w
  end.

Lemma died_requested w ts m : lock_ok w → requested w ts m Died w.
Proof. intros. split_and!; [done|apply others_keep_refl|auto|done]. Qed.

Lemma waiter_requested w ts m : lock_ok (add_waiter w ts m) → (ts ∈ owner_ts (owner_list w) ↔ m = U) → requested w ts m Waiting (add_waiter w ts m).
Proof.
  intros Hok Ho. split_and!; [done|apply keep_waiter| |].
  - intros ts' Hne [?|Hin]; [by left|right]. unfold waiter_ts in *. simpl in Hin. rewrite insert_perm in Hin. csimpl in Hin.
    apply elem_of_cons in Hin as [?|?]; done.
  - split; [|done]. simpl. rewrite insert_perm. by left.
Qed.

Lemma owner_requested w ts m : lock_ok w → waiter_list w = [] → absent w ts → m ≠ U →
  (m = S ∧ op (owner_list w) ≠ E ∨ m = E ∧ owners (owner_list w) = []) →
  requested w ts m Acquired (mk (waiter_list w) (owner_insert (owner_list w) ts m)).
Proof.
  intros Hok Hnil Ha Hu Hm. split_and!.
  - apply first_owner_ok; [done..|]. destruct Hm as [[-> _]|[-> ?]]; auto.
  - apply keep_owner; [done..|]. destruct Hm as [[-> ?]|[_ ?]]; auto.
  - intros ts' Hne. simpl. rewrite owner_insert_ts. intros [[?|?]|?]; [done|by left|by right].
  - split; [by destruct Hm as [[-> _]|[-> _]]|]. split; [apply owner_insert_ts; by left|]. apply Ha.
Qed.

Lemma conflict_requested w ts m : lock_ok w → absent w ts → m = S ∨ m = E → owners (owner_list w) ≠ [] →
  ∃ r w', (min_ts ← get_min_timestamp (owner_list w);
           if ts <? min_ts then Ok (Waiting, add_waiter w ts m) else Ok (Died, w)) = Ok (r, w') ∧ requested w ts m r w'.
Proof.
  intros Hok Ha Hm Hne. destruct (min_spec w Hok Hne) as (x & Hx & Hin & Hmin). destruct (wait_or_die w ts m Hok Ha Hm Hne) as (r & w' & Heq & Hok' & _).
  exists r, w'. split; [done|]. rewrite Hx in Heq. simpl in Heq. destruct (ts <? x); injection Heq as <- <-; [|by apply died_requested].
  apply waiter_requested; [done|]. split; [intros ?; by destruct Ha|]. intros ->. by destruct Hm.
Qed.

Lemma shared_requested w ts : lock_ok w → absent w ts → ∃ r w', try_lock_shared w ts = Ok (r, w') ∧ requested w ts S r w'.
Proof.
  intros Hok Ha. pose proof (ok_mode _ _ (ok_lists _ Hok)) as Hm. unfold mode_ok in Hm. pose proof (ok_blocked _ Hok) as Hb.
  unfold try_lock_shared. destruct (op (owner_list w)) eqn:Hop; [..|done].
  - destruct (empty (waiter_list w)) eqn:He; [|by exfalso; apply Hb; [intros Hn; by rewrite Hn in He|]].
    apply empty_nil in He. eexists _, _. split; [done|]. apply owner_requested; try done. left. by rewrite Hop.
  - destruct (empty (waiter_list w)) eqn:He; [|apply conflict_requested; auto].
    apply empty_nil in He. eexists _, _. split; [done|]. apply owner_requested; try done. left. by rewrite Hop.
  - apply conflict_requested; auto. by eapply owners_nonempty; [| |right].
Qed.

Lemma exclusive_requested w ts : lock_ok w → absent w ts → ∃ r w', try_lock w ts = Ok (r, w') ∧ requested w ts E r w'.
Proof.
  intros Hok Ha. pose proof (ok_mode _ _ (ok_lists _ Hok)) as Hm. unfold mode_ok in Hm. pose proof (ok_blocked _ Hok) as Hb.
  unfold try_lock. destruct (op (owner_list w)) eqn:Hop; [..|done].
  - destruct (empty (waiter_list w)) eqn:He; [|by exfalso; apply Hb; [intros Hn; by rewrite Hn in He|]].
    apply empty_nil in He. eexists _, _. split; [done|]. apply owner_requested; try done. by right.
  - apply conflict_requested; auto.
  - apply conflict_requested; auto. by eapply owners_nonempty; [| |right].
Qed.

Lemma upgrade_requested w ts : lock_ok w → holds w S ts → ∃ r w', try_lock_upgrade w ts = Ok (r, w') ∧ requested w ts U r w'.
Proof.
  intros Hok Hh. destruct (try_lock_upgrade_spec w ts Hok Hh) as (r & w' & Heq & Hok' & Hr). exists r, w'. split; [done|].
  destruct Hh as (Hop & Hin & Hni). unfold try_lock_upgrade in Heq. rewrite Hop in Heq.
  apply bind_Ok in Heq as (x & _ & Heq). destruct ((x =? ts) && (1 <? _)); [injection Heq as <- <-; by apply waiter_requested|].
  destruct ((x =? ts) && (_ =? 1)); injection Heq as <- <-; [|by apply died_requested]. simpl in Hr.
  assert (∀ ts', ts' ∈ owner_ts (owner_list w) → ts' = ts) as Hone by (rewrite Hr; set_solver).
  split_and!; [done| |done|by split_and!]. split.
  - intros ts' Hne [Ho Hq]. done.
  - intros m ts' Hne (_ & Hin' & _). by apply Hone in Hin'.
  - intros m ts' Hne [[Hq Ho]|(_ & Hin' & _)]; [|by apply Hone in Hin']. left. done.
Qed.

(** ** Releases *)

Lemma promote_keeps q o w woken : lists_ok q o → promote q o = Ok (w, woken) →
  (∀ m y, op o = m → y ∈ owner_ts o → y ∉ q.*1 → holds w m y) ∧
  (∀ m y, (y, m) ∈ q → pending w m y).
Proof.
  revert o w woken. induction q as [|[ts m0] q IH]; intros o w woken Hok Hp.
  { simpl in Hp. injection Hp as <- <-. split; [|by intros ? ? ?%not_elem_of_nil].
    intros m y Hop Hy _. split_and!; [done..|apply not_elem_of_nil]. }
  pose proof Hok as [Ho Hq Hmode Hw]. pose proof (Hw (ts, m0) ltac:(by left)) as Hm0. unfold waiter_ok in Hm0. simpl in Hm0.
  pose proof Hq as [Hlt Hq']%youngest_cons. simpl in Hlt.
  assert (w = mk ((ts, m0) :: q) o → (∀ m y, op o = m → y ∈ owner_ts o → y ∉ ((ts, m0) :: q).*1 → holds w m y) ∧
    (∀ m y, (y, m) ∈ (ts, m0) :: q → pending w m y)) as Hstop.
  { intros ->. split; [intros m y Hop Hy Hni; by split_and!|]. intros m y Hin. left. split; [done|]. cbn [owner_list].
    pose proof (Hw _ Hin) as H'. unfold waiter_ok in H'. simpl in H'. destruct m; try done; try (split; [intros ?%H'; lia|done]). tauto. }
  assert (∀ o' wk, lists_ok q o' → promote q o' = Ok (w, wk) → op o' = granted_mode m0 → ts ∈ owner_ts o' →
    (∀ m y, op o = m → y ∈ owner_ts o → y ≠ ts → op o' = m ∧ y ∈ owner_ts o') →
    (∀ m y, op o = m → y ∈ owner_ts o → y ∉ ((ts, m0) :: q).*1 → holds w m y) ∧ (∀ m y, (y, m) ∈ (ts, m0) :: q → pending w m y)) as Hgrant.
  { intros o' wk Hok' Hp' Hop' Hts Hkeep. destruct (IH o' w wk Hok' Hp') as [H1 H2]. split.
    - intros m y Hop Hy [Hne Hni]%not_elem_of_cons. destruct (Hkeep m y Hop Hy Hne). by apply H1.
    - intros m y [[= -> ->]|Hin]%elem_of_cons; [|by apply H2]. right. apply H1; [done..|]. intros Hin%Hlt. lia. }
  cbn [promote] in Hp.
  assert (∀ o', ('(l, wk) ← promote q o'; Ok (l, ts :: wk)) = Ok (w, woken) → ∃ wk, promote q o' = Ok (w, wk)) as Hinv.
  { intros o' ([l wk] & Heq & [= -> _])%bind_Ok. eauto. }
  unfold mode_ok in Hmode.
  destruct m0; [done|..].
  - destruct (op o) eqn:Hop; [..|by injection Hp as <- _; apply Hstop|done]; destruct (Hinv _ Hp) as [wk Hp'];
      (eapply Hgrant; [apply (grant_ok ts S q o S Hok); auto|exact Hp'|done|apply owner_insert_ts; by left|]).
    + intros m y _ Hy. unfold owner_ts in Hy. rewrite Hmode in Hy. by apply not_elem_of_nil in Hy.
    + intros m y <- Hy _. split; [done|]. apply owner_insert_ts. by right.
  - destruct (op o) eqn:Hop; [|by injection Hp as <- _; apply Hstop..|done]. destruct (Hinv _ Hp) as [wk Hp'].
    eapply Hgrant; [apply (grant_ok ts E q o E Hok); auto|exact Hp'|done|apply owner_insert_ts; by left|].
    intros m y _ Hy. unfold owner_ts in Hy. rewrite Hmode in Hy. by apply not_elem_of_nil in Hy.
  - destruct Hm0 as (Hop & Hin & _). rewrite Hop in *. destruct (1 <? _) eqn:Hn; [by injection Hp as <- _; apply Hstop|].
    destruct (_ =? 1) eqn:Hn1; [|done]. apply bind_Ok in Hp as (x & _ & Hp). apply bind_Ok in Hp as (u & _ & Hp).
    destruct (Hinv _ Hp) as [wk Hp']. apply Z.eqb_eq in Hn1. unfold get_size in Hn1.
    destruct (single_owner o ts Ho ltac:(lia) Hin) as [Hone _].
    eapply Hgrant; [|exact Hp'|done|done|].
    + split; [done|done|simpl; unfold mode_ok; simpl; lia|]. intros [ts' w'] Hin'. pose proof (Hw (ts', w') ltac:(by right)) as H'.
      unfold waiter_ok in *. simpl in *. destruct w'; try done. exfalso. by eapply upgrade_first.
    + intros m y _ Hy Hne. rewrite Hone in Hy. by apply list_elem_of_singleton in Hy.
Qed.

(** The end of a release by [ts]. *)
Definition unlocked w ts w' : Prop :=
  lock_ok w' ∧ others_keep ts w w' ∧ absent w' ts ∧
  (∀ ts', ts' ≠ ts → ts' ∈ owner_ts (owner_list w') ∨ ts' ∈ waiter_ts w' → ts' ∈ owner_ts (owner_list w) ∨ ts' ∈ waiter_ts w).

Lemma release_unlocked w ts m : lock_ok w → holds w m ts → m = S ∨ m = E →
  ∃ w' woken, (o ← owner_remove (owner_list w) ts; promote_waiters (mk (waiter_list w) o)) = Ok (w', woken) ∧ unlocked w ts w'.
Proof.
  intros Hok Hh Hm. destruct (release_spec w ts m Hok Hh Hm) as (w' & woken & Heq & Hok' & Hq & Hown & _).
  exists w', woken. split; [done|]. destruct Hh as (Hop & Hin & Hni). pose proof Hok as [[Ho Hws Hmo Hw] Hb Hu].
  assert (∀ y, y ∈ waiter_ts w' → y ∈ waiter_ts w) as Hsub by (intros y Hy; rewrite Hq; apply elem_of_app; by right).
  apply bind_Ok in Heq as (o & Hr & Hp). unfold owner_remove in Hr.
  destruct (remove_spec ts (owners (owner_list w)) Ho Hin) as (os & Hrem & Hos & Hel & Hlen). rewrite Hrem in Hr. injection Hr as <-.
  unfold promote_waiters in Hp. simpl in Hp.
  assert (lists_ok (waiter_list w) (mkOwners (if empty os then I else op (owner_list w)) os)) as Hlok.
  { split; try done.
    - unfold mode_ok. simpl. unfold mode_ok in Hmo. rewrite Hop in *.
      destruct os as [|x os']; simpl; [done|]. destruct Hm as [Hm|Hm]; rewrite Hm in *; [done|]. simpl in *. lia.
    - intros [ts' w0] Hx. pose proof (Hw _ Hx) as H'. unfold waiter_ok, owner_ts in *. simpl in *.
      destruct w0; try done; try by (intros y [? _]%Hel; auto).
      destruct H' as (Hs & Hin' & Hmin). pose proof (Hu _ Hx).
      assert (ts' ≠ ts) by (intros ->; apply Hni; by apply (list_elem_of_fmap_2 fst _ (ts, U))).
      rewrite Hs in *. split_and!; [|by apply Hel|].
      + destruct os; [simpl in *; lia|done].
      + intros y [? _]%Hel. auto. }
  destruct (promote_keeps _ _ _ _ Hlok Hp) as [H1 H2].
  assert (∀ m' ts', ts' ≠ ts → holds w m' ts' → holds w' m' ts') as Hkh.
  { intros m' ts' Hne (Hop' & Hin' & Hni'). assert (ts' ∈ os.*1) as Hin2 by (by apply Hel).
    apply H1; [|done|done]. simpl. destruct os; [by apply not_elem_of_nil in Hin2|done]. }
  split_and!; [done| | |].
  - split; [|done|].
    + intros ts' Hne [Ha1 Ha2]. split; [|intros ?%Hsub; done]. rewrite Hown. intros [[? _]|Hwk]; [done|].
      apply Ha2. rewrite Hq. apply elem_of_app. by left.
    + intros m' ts' Hne [[Hin' _]|Hh']; [by apply H2|right; by apply Hkh].
  - split; [|intros ?%Hsub; done]. rewrite Hown. intros [[_ ?]|Hwk]; [done|]. apply Hni. rewrite Hq. apply elem_of_app. by left.
  - intros ts' Hne [Hy|Hy]; [|right; auto]. apply Hown in Hy as [[? _]|Hwk]; [by left|]. right. rewrite Hq. apply elem_of_app. by left.
Qed.

Lemma unlock_unlocked w ts : lock_ok w → holds w E ts → ∃ w' woken, unlock w ts = Ok (w', woken) ∧ unlocked w ts w'.
Proof.
  intros Hok Hh. destruct (release_unlocked w ts E Hok Hh) as (w' & woken & Heq & Hu); [by right|]. exists w', woken.
  unfold unlock. destruct Hh as (-> & _). done.
Qed.

Lemma unlock_shared_unlocked w ts : lock_ok w → holds w S ts → ∃ w' woken, unlock_shared w ts = Ok (w', woken) ∧ unlocked w ts w'.
Proof.
  intros Hok Hh. destruct (release_unlocked w ts S Hok Hh) as (w' & woken & Heq & Hu); [by left|]. exists w', woken.
  unfold unlock_shared. destruct Hh as (-> & _). done.
Qed.

(** A waiter waits for a younger owner. *)
Lemma waits_for_younger w m ts : lock_ok w → (ts, m) ∈ waiter_list w → ∃ ts', ts' ∈ owner_ts (owner_list w) ∧ ts < ts'.
Proof.
  intros Hok Hin. pose proof Hok as [[Hos _ _ Hw] Hb Hu]. pose proof (Hw _ Hin) as Hwok. unfold waiter_ok in Hwok. simpl in Hwok.
  unfold owner_ts in *. destruct (decide (m = U)) as [->|Hnu].
  - destruct Hwok as (_ & Hts & Hmin). pose proof (Hu _ Hin) as Hlen. unfold youngest_first in Hos.
    destruct (owners (owner_list w)) as [|x [|y q]]; simpl in Hlen; [lia|lia|]. csimpl in *. exists x.1. split; [set_solver|].
    apply StronglySorted_inv in Hos as [_ Hall]. rewrite Forall_forall in Hall. specialize (Hall y.1 ltac:(set_solver)).
    specialize (Hmin y.1 ltac:(set_solver)). lia.
  - assert (owners (owner_list w) ≠ []) as Hne by (apply Hb; intros Hn; rewrite Hn in Hin; by apply not_elem_of_nil in Hin).
    destruct (owners (owner_list w)) as [|x q]; [done|]. exists x.1. csimpl. split; [set_solver|].
    destruct m; try done; apply Hwok; csimpl; set_solver.
Qed.

(** All owners but itself are younger. *)
Lemma owners_younger w m ts ts' : lock_ok w → (ts, m) ∈ waiter_list w → ts' ∈ owner_ts (owner_list w) → ts' ≠ ts → ts < ts'.
Proof.
  intros Hok Hin Ho Hne. pose proof (ok_waiter _ _ (ok_lists _ Hok) _ Hin) as Hwok. unfold waiter_ok in Hwok. simpl in Hwok.
  destruct m; try done; [by apply Hwok..|]. destruct Hwok as (_ & _ & Hmin). specialize (Hmin _ Ho). lia.
Qed.
End claims.
