(* ===== verification/WaitDie.v ===== *)
(** * protocols/waitdie: two-phase locking that waits or dies

    [WaitDie<Index>] over the lock of [WaitDieLock] and any index with the
    interface [Index]: the read/write set, the operations of a transaction,
    commit and abort.  A call may spin on a lock, so it is a [prog]: it runs
    to its end, or to the next request of a lock, where other threads may run
    before it goes on.  Memory is explicit: a freed or null block that is
    used makes the call [Stuck]. *)
From S2P Require Import Prelude Versions WaitDieLock Timestamp Index Memory.

Module WaitDie.
Import Memory.

Inductive ReadWriteType := READ | UPDATE | INSERT | DELETE.
#[export] Instance ReadWriteType_eq_dec : EqDecision ReadWriteType.
Proof. solve_decision. Defined.

Record ReadWriteElement := mkElem { rec : Ptr; rwt : ReadWriteType; is_new : bool; val : loc }.
Abbreviation entry := (((Z * Z) * ReadWriteElement)%type).

(** [struct Value]. *)
Record Value := mkValue { wdl : WaitDieLock.t; vrec : Ptr }.
Definition is_detached_from_tree (v : Value) : bool := bool_decide (vrec v = None).

Section protocol.
Context `{HI : Index loc}.
(** [Schema]: the record size of each table. *)
Context (schema : gmap Z nat).

Record store := mkStore { values : gmap loc Value; records : heap; idx : index (V := loc) }.

(** A transaction.  The read/write sets of the tables are one map over
    (table, key); [gc] are the thread's two maps of retired values.  [seen] is
    not in the source: the bytes each first access found. *)
Record tx := mkTx {
  start_ts : Z; smallest_ts : Z; largest_ts : Z; tables : gset Z;
  rws : gmap (Z * Z) ReadWriteElement; gc : TimestampGC.t; seen : gmap (Z * Z) block
}.

(** The arguments of a scan and what it has collected; [cur] is the next key
    to visit; [size] the record size when it updates. *)
Record scan := mkScan { table : Z; cur : Z; last : Z; limit : Z; size : option nat; kr_map : list (Z * Ptr) }.

(** What a call returns.  [More]: a scan goes on with the next row. *)
Inductive reply := Returned (p : Ptr) | More (sc : scan) | Scanned (b : bool) (kr_map : list (Z * Ptr)).

(** A call that has run so far: it is done, or asks for the lock of value
    [l] and goes on with [k], given whether it got the lock and the store it
    finds then.  [row] is the table and key the value was found under, and
    [key] the one to be inserted when [l] is the value of the next key. *)
Inductive prog :=
| Done (o : outcome (reply * tx * store))
| Lock (m : WaitDieLock.Operation) (row : Z * Z) (l : loc) (key : option (Z * Z)) (t : tx) (s : store) (k : bool → store → prog).

Definition lift {A} (o : outcome A) (k : A → prog) : prog :=
  match o with Ok a => k a | Throw w => Done (Throw w) | Stuck => Done Stuck | Wait => Done Wait end.

Definition ret (p : Ptr) (t : tx) (s : store) : prog := Done (Ok (Returned p, t, s)).

Definition set_value (s : store) (l : loc) (v : Value) : store := mkStore (<[l := v]> (values s)) (records s) (idx s).
Definition set_records (s : store) (m : heap) : store := mkStore (values s) m (idx s).
Definition set_idx (s : store) (i : index (V := loc)) : store := mkStore (values s) (records s) i.

(** The constructor. *)
Definition new_tx (ts smallest largest : Z) (g : TimestampGC.t) : tx := mkTx ts smallest largest ∅ ∅ g ∅.
Definition set_new_ts (t : tx) (ts smallest largest : Z) : tx :=
  mkTx ts smallest largest (tables t) (rws t) (gc t) (seen t).
Definition add_table (t : tx) (table_id : Z) : tx :=
  mkTx (start_ts t) (smallest_ts t) (largest_ts t) ({[table_id]} ∪ tables t) (rws t) (gc t) (seen t).
(** [rw_table.emplace_hint], and assignments to the fields of an element. *)
Definition put (t : tx) (k : Z * Z) (e : ReadWriteElement) : tx :=
  mkTx (start_ts t) (smallest_ts t) (largest_ts t) (tables t) (<[k := e]> (rws t)) (gc t) (seen t).
Definition set_gc (t : tx) (g : TimestampGC.t) : tx :=
  mkTx (start_ts t) (smallest_ts t) (largest_ts t) (tables t) (rws t) g (seen t).
Definition see (t : tx) (k : Z * Z) (o : option block) : tx :=
  mkTx (start_ts t) (smallest_ts t) (largest_ts t) (tables t) (rws t) (gc t) (match o with Some b => <[k := b]> (seen t) | None => seen t end).

(** [val->wdl.unlock(start_ts)] and [val->wdl.unlock_shared(start_ts)]. *)
Definition release (f : WaitDieLock.t → Z → outcome (WaitDieLock.t * list Z)) (t : tx) (s : store) (l : loc) : outcome store :=
  v ← deref (values s !! l);
  '(w, _) ← f (wdl v) (start_ts t);
  Ok (set_value s l (mkValue w (vrec v))).
Definition unlock := release WaitDieLock.unlock.
Definition unlock_shared := release WaitDieLock.unlock_shared.

Definition load_rec (s : store) (l : loc) : outcome Ptr := v ← deref (values s !! l); Ok (vrec v).
Definition bytes (s : store) (r : Ptr) : option block := r ≫= λ r, records s !! r.

Definition allocate (s : store) (size : nat) : loc * store :=
  let '(r, m) := aligned_allocate (records s) size in (r, set_records s m).
Definition free (s : store) (r : Ptr) : outcome store := m ← deallocate (records s) r; Ok (set_records s m).
Definition copy_record (s : store) (src : Ptr) (size : nat) : outcome (loc * store) :=
  let '(r, s) := allocate s size in m ← memcpy (records s) r src size; Ok (r, set_records s m).

(** ** The operations *)

(** How a first access to a row ends: the lock was refused, the row was
    removed meanwhile, or its record. *)
Inductive access := Refused | Detached | Got (p : Ptr).

Definition read_absent (t : tx) (s : store) (k : Z * Z) (l : loc) (next : access → tx → store → prog) : prog :=
  Lock WaitDieLock.S k l None t s (λ ok s,
    if ok then
      lift (deref (values s !! l)) (λ v,
      if is_detached_from_tree v then lift (unlock_shared t s l) (λ s, next Detached t s)
      else next (Got (vrec v)) (see (put t k (mkElem None READ false l)) k (bytes s (vrec v))) s)
    else next Refused t s).

(** [read], [update] and [remove] return null unless they get the row. *)
Definition finish (a : access) (t : tx) (s : store) : prog :=
  match a with Got p => ret p t s | Refused | Detached => ret None t s end.

Definition read (t : tx) (s : store) (table_id key : Z) : prog :=
  let t := add_table t table_id in
  match rws t !! (table_id, key) with
  | None =>
      match idx_find (idx s) table_id key with
      | (NOT_FOUND, _) => ret None t s
      | (_, l) => lift (deref l) (λ l, read_absent t s (table_id, key) l finish)
      end
  | Some e =>
      match rwt e with
      | READ => lift (load_rec s (val e)) (λ r, ret r t s)
      | UPDATE | INSERT => ret (rec e) t s
      | DELETE => ret None t s
      end
  end.

(** The write lock on the next key: requested when the key is not in the
    read/write set, upgraded when it was read, assumed held otherwise. *)
Definition lock_next (t : tx) (s : store) (table_id key next_key : Z) (next_value : loc) (k : bool → store → prog) : prog :=
  match rws t !! (table_id, next_key) with
  | None => Lock WaitDieLock.E (table_id, next_key) next_value (Some (table_id, key)) t s k
  | Some e =>
      if decide (rwt e = READ) then Lock WaitDieLock.U (table_id, next_key) next_value (Some (table_id, key)) t s k
      else k true s
  end.

(** The new value, locked and without a record, enters the index; the next
    key is unlocked. *)
Definition insert_new_record (t : tx) (s : store) (table_id key : Z) (next_value : loc) (record_size : nat) :
    outcome (reply * tx * store) :=
  let new_val := fresh (dom (values s)) in
  '(_, w) ← WaitDieLock.try_lock WaitDieLock.new (start_ts t);
  let s := set_value s new_val (mkValue w None) in
  let '(res, i) := idx_insert (idx s) table_id key new_val in
  let s := set_idx s i in
  match res with
  | NOT_INSERTED => Ok (Returned None, t, mkStore (delete new_val (values s)) (records s) (idx s))
  | _ =>
      s ← unlock t s next_value;
      let '(r, s) := allocate s record_size in
      Ok (Returned (Some r), put t (table_id, key) (mkElem (Some r) INSERT true new_val), s)
  end.

(** Lock the next key and insert. *)
Definition insert_before (t : tx) (s : store) (table_id key next_key : Z) (next_value : loc) (record_size : nat) : prog :=
  lock_next t s table_id key next_key next_value (λ ok s,
    if ok then Done (insert_new_record t s table_id key next_value record_size) else ret None t s).

(** A deleted entry becomes an update with a new local record. *)
Definition revive (t : tx) (s : store) (k : Z * Z) (e : ReadWriteElement) (record_size : nat) : prog :=
  let '(r, s) := allocate s record_size in
  ret (Some r) (put t k (mkElem (Some r) UPDATE (is_new e) (val e))) s.

Definition insert (t : tx) (s : store) (table_id key : Z) : prog :=
  lift (get_record_size schema table_id) (λ record_size,
  let t := add_table t table_id in
  match rws t !! (table_id, key) with
  | None =>
      match idx_find (idx s) table_id key with
      | (OK, _) => ret None t s
      | _ =>
          let '(res, next) := idx_get_next_kv (idx s) table_id key in
          lift (deref next) (λ '(next_key, next_value),
          lift (assert_ (negb (next_key =? 0))) (λ _,
          match res with
          | OK => insert_before t s table_id key next_key next_value record_size
          | _ => ret None t s
          end))
      end
  | Some e =>
      match rwt e with
      | READ | UPDATE | INSERT => ret None t s
      | DELETE => revive t s (table_id, key) e record_size
      end
  end).

(** A value not in the read/write set is locked and copied. *)
Definition update_absent (t : tx) (s : store) (k : Z * Z) (l : loc) (record_size : nat) (next : access → tx → store → prog) : prog :=
  Lock WaitDieLock.E k l None t s (λ ok s,
    if ok then
      lift (deref (values s !! l)) (λ v,
      if is_detached_from_tree v then lift (unlock t s l) (λ s, next Detached t s)
      else
        lift (copy_record s (vrec v) record_size) (λ '(r, s),
        next (Got (Some r)) (see (put t k (mkElem (Some r) UPDATE false l)) k (bytes s (vrec v))) s))
    else next Refused t s).

(** A value that was read: its lock is upgraded. *)
Definition update_read (t : tx) (s : store) (k : Z * Z) (e : ReadWriteElement) (record_size : nat) (next : access → tx → store → prog) : prog :=
  Lock WaitDieLock.U k (val e) None t s (λ ok s,
    if ok then
      lift (load_rec s (val e)) (λ src,
      lift (copy_record s src record_size) (λ '(r, s),
      next (Got (Some r)) (put t k (mkElem (Some r) UPDATE (is_new e) (val e))) s))
    else next Refused t s).

Definition update (t : tx) (s : store) (table_id key : Z) : prog :=
  lift (get_record_size schema table_id) (λ record_size,
  let t := add_table t table_id in
  match rws t !! (table_id, key) with
  | None =>
      match idx_find (idx s) table_id key with
      | (NOT_FOUND, _) => ret None t s
      | (_, l) => lift (deref l) (λ l, update_absent t s (table_id, key) l record_size finish)
      end
  | Some e =>
      match rwt e with
      | READ => update_read t s (table_id, key) e record_size finish
      | UPDATE | INSERT => ret (rec e) t s
      | DELETE => ret None t s
      end
  end).

Definition upsert (t : tx) (s : store) (table_id key : Z) : prog :=
  lift (get_record_size schema table_id) (λ record_size,
  let t := add_table t table_id in
  match rws t !! (table_id, key) with
  | None =>
      match idx_find (idx s) table_id key with
      | (NOT_FOUND, _) =>
          let '(res, next) := idx_get_next_kv (idx s) table_id key in
          match res with
          | OK => lift (deref next) (λ '(next_key, next_value), insert_before t s table_id key next_key next_value record_size)
          | _ => ret None t s
          end
      | (OK, l) => lift (deref l) (λ l, update_absent t s (table_id, key) l record_size finish)
      | _ => Done (Throw "invalid state")
      end
  | Some e =>
      match rwt e with
      | READ => update_read t s (table_id, key) e record_size finish
      | UPDATE | INSERT => ret (rec e) t s
      | DELETE => revive t s (table_id, key) e record_size
      end
  end).
Definition write := upsert.

(** *** Scans

    The index is read again for every row, since rows may come and go while
    the scan waits for a lock. *)
Definition next_row (s : store) (sc : scan) : option (Z * loc) :=
  head (idx_get_kv_in_range (idx s) (table sc) (cur sc) (last sc) 1 []).2.

(** [kr_map.emplace] and the test of [count]. *)
Definition collect_row (sc : scan) (key : Z) (p : Ptr) : reply :=
  let kr := MasstreeIndexes.map_emplace key p (kr_map sc) in
  if negb (limit sc =? -1) && (limit sc <=? Z.of_nat (length kr)) then Scanned true kr
  else More (mkScan (table sc) (key + 1) (last sc) (limit sc) (size sc) kr).
Definition skip_row (sc : scan) (key : Z) : reply :=
  More (mkScan (table sc) (key + 1) (last sc) (limit sc) (size sc) (kr_map sc)).

Definition finish_row (sc : scan) (key : Z) (a : access) (t : tx) (s : store) : prog :=
  Done (Ok (match a with Got p => collect_row sc key p | Detached => skip_row sc key | Refused => Scanned false (kr_map sc) end, t, s)).

(** [per_kv_func] of [read_scan] and of [update_scan]. *)
Definition read_row (sc : scan) (t : tx) (s : store) (key : Z) (l : loc) : prog :=
  let k := (table sc, key) in
  match rws t !! k with
  | None => read_absent t s k l (finish_row sc key)
  | Some e =>
      match rwt e with
      | READ => lift (load_rec s (val e)) (λ r, finish_row sc key (Got r) t s)
      | UPDATE | INSERT => finish_row sc key (Got (rec e)) t s
      | DELETE => Done (Throw "deleted value")
      end
  end.
Definition update_row (sc : scan) (record_size : nat) (t : tx) (s : store) (key : Z) (l : loc) : prog :=
  let k := (table sc, key) in
  match rws t !! k with
  | None => update_absent t s k l record_size (finish_row sc key)
  | Some e =>
      match rwt e with
      | READ => update_read t s k e record_size (finish_row sc key)
      | UPDATE | INSERT => finish_row sc key (Got (rec e)) t s
      | DELETE => Done (Throw "deleted value")
      end
  end.

(** One round of a scan. *)
Definition scan_row (sc : scan) (t : tx) (s : store) : prog :=
  match next_row s sc with
  | None => Done (Ok (Scanned true (kr_map sc), t, s))
  | Some (key, l) =>
      match size sc with
      | None => read_row sc t s key l
      | Some record_size => update_row sc record_size t s key l
      end
  end.

Definition read_scan (t : tx) (s : store) (table_id lkey rkey count : Z) (rev : bool) (kr_map : list (Z * Ptr)) : prog :=
  if rev then Done (Throw "reverse scan not supported in waitdie") else
  Done (Ok (More (mkScan table_id lkey rkey count None kr_map), add_table t table_id, s)).

Definition update_scan (t : tx) (s : store) (table_id lkey rkey count : Z) (rev : bool) (kr_map : list (Z * Ptr)) : prog :=
  if rev then Done (Throw "reverse scan not supported in waitdie") else
  lift (get_record_size schema table_id) (λ record_size,
  Done (Ok (More (mkScan table_id lkey rkey count (Some record_size) kr_map), add_table t table_id, s))).

(** *** Removal *)
Definition remove_absent (t : tx) (s : store) (k : Z * Z) (l : loc) : prog :=
  Lock WaitDieLock.E k l None t s (λ ok s,
    if ok then
      lift (deref (values s !! l)) (λ v,
      if is_detached_from_tree v then lift (unlock t s l) (λ s, ret None t s)
      else ret (vrec v) (see (put t k (mkElem None DELETE false l)) k (bytes s (vrec v))) s)
    else ret None t s).

Definition remove_read (t : tx) (s : store) (k : Z * Z) (e : ReadWriteElement) : prog :=
  Lock WaitDieLock.U k (val e) None t s (λ ok s,
    if ok then
      lift (load_rec s (val e)) (λ r, ret r (put t k (mkElem (rec e) DELETE (is_new e) (val e))) s)
    else ret None t s).

Definition remove (t : tx) (s : store) (table_id key : Z) : prog :=
  let t := add_table t table_id in
  let k := (table_id, key) in
  match rws t !! k with
  | None =>
      match idx_find (idx s) table_id key with
      | (NOT_FOUND, _) => ret None t s
      | (_, l) => lift (deref l) (λ l, remove_absent t s k l)
      end
  | Some e =>
      match rwt e with
      | READ => remove_read t s k e
      | UPDATE | INSERT =>
          lift (free s (rec e)) (λ s,
          lift (load_rec s (val e)) (λ r, ret r (put t k (mkElem None DELETE (is_new e) (val e))) s))
      | DELETE => ret None t s
      end
  end.

(** ** Commit and abort

    [order] lists the entries of the read/write set in the order the
    iterations over the hash tables visit them. *)
Fixpoint unlock_reads (t : tx) (s : store) (order : list entry) : outcome store :=
  match order with
  | [] => Ok s
  | (_, e) :: order =>
      s ← (if decide (rwt e = READ) then unlock_shared t s (val e) else Ok s);
      unlock_reads t s order
  end.

(** The record of a value is exchanged, the lock released and the old record
    freed. *)
Definition exchange_record (t : tx) (s : store) (l : loc) (r : Ptr) : outcome store :=
  v ← deref (values s !! l);
  let old := vrec v in
  let s := set_value s l (mkValue (wdl v) r) in
  s ← unlock t s l;
  free s old.

Definition retire (t : tx) (l : loc) : tx := set_gc t (TimestampGC.collect (gc t) (largest_ts t) l).

Fixpoint apply_writes (t : tx) (s : store) (order : list entry) : outcome (tx * store) :=
  match order with
  | [] => Ok (t, s)
  | ((table_id, key), e) :: order =>
      match rwt e with
      | READ => apply_writes t s order
      | UPDATE | INSERT => s ← exchange_record t s (val e) (rec e); apply_writes t s order
      | DELETE =>
          let s := set_idx s (idx_remove (idx s) table_id key).2 in
          s ← exchange_record t s (val e) None;
          apply_writes (retire t (val e)) s order
      end
  end.

Definition precommit (t : tx) (s : store) (order : list entry) : outcome (bool * tx * store) :=
  s ← unlock_reads t s order;
  '(t, s) ← apply_writes t s order;
  Ok (true, t, s).

(** One entry of an aborted transaction. *)
Definition undo_entry (t : tx) (s : store) (k : Z * Z) (e : ReadWriteElement) : outcome (tx * store) :=
  let '(t, s) := if is_new e then (retire t (val e), set_idx s (idx_remove (idx s) k.1 k.2).2) else (t, s) in
  s ← match rwt e with
      | READ => unlock_shared t s (val e)
      | UPDATE | INSERT => s ← free s (rec e); unlock t s (val e)
      | DELETE => unlock t s (val e)
      end;
  Ok (t, s).
Fixpoint undo (t : tx) (s : store) (order : list entry) : outcome (tx * store) :=
  match order with
  | [] => Ok (t, s)
  | (k, e) :: order => '(t, s) ← undo_entry t s k e; undo t s order
  end.

Definition abort (t : tx) (s : store) (order : list entry) : outcome (tx * store) :=
  '(t, s) ← undo t s order;
  Ok (mkTx (start_ts t) (smallest_ts t) (largest_ts t) ∅ ∅ (gc t) ∅, s).

(** The destructor: [GarbageCollector::remove] frees retired values. *)
Definition destroy (t : tx) (s : store) : outcome (TimestampGC.t * store) :=
  let '(freed, g) := TimestampGC.remove (gc t) (smallest_ts t) (largest_ts t) in
  values ← foldl (λ m p, m ← m; match m !! p.2 with Some _ => Ok (delete p.2 m) | None => Stuck end) (Ok (values s)) freed;
  Ok (g, mkStore values (records s) (idx s)).

(** [Initializer::insert_into_index]: a row loaded before the workers start;
    the result of the insertion is not looked at. *)
Definition insert_into_index (s : store) (table_id key : Z) (r : loc) : store :=
  let l := fresh (dom (values s)) in
  let s := set_value s l (mkValue WaitDieLock.new (Some r)) in
  set_idx s (idx_insert (idx s) table_id key l).2.

(** ** Threads

    A thread is between calls or between the rows of a scan, is about to ask
    for a lock, or has asked for it and spins until it is granted. *)
Inductive pc :=
| Idle
| Scanning (sc : scan)
| Wants (m : WaitDieLock.Operation) (row : Z * Z) (l : loc) (key : option (Z * Z)) (k : bool → store → prog)
| Blocked (m : WaitDieLock.Operation) (row : Z * Z) (l : loc) (key : option (Z * Z)) (k : bool → store → prog).

Record thread := mkThread { ttx : tx; tpc : pc }.

(** The request of a lock. *)
Definition request (m : WaitDieLock.Operation) (w : WaitDieLock.t) (ts : Z) : outcome (WaitDieLock.result * WaitDieLock.t) :=
  match m with
  | WaitDieLock.S => WaitDieLock.try_lock_shared w ts
  | WaitDieLock.E => WaitDieLock.try_lock w ts
  | WaitDieLock.U => WaitDieLock.try_lock_upgrade w ts
  | WaitDieLock.I => Stuck
  end.

(** Where a thread is after a call has run so far. *)
Definition settle (p : prog) : outcome (thread * store) :=
  match p with
  | Done o => '(r, t, s) ← o; Ok (mkThread t (match r with More sc => Scanning sc | _ => Idle end), s)
  | Lock m row l key t s k => Ok (mkThread t (Wants m row l key k), s)
  end.
End protocol.
End WaitDie.
