(* ===== verification/WaitDieInv.v ===== *)
(** * WaitDie: the invariant

    Locks, memory and index agree with what the threads hold.  A ghost state
    says for every value whether it is in the index or retired, by whom every
    record is owned, and what the committed database is.  [frame] is what one
    thread's step leaves to the others; the lemmas of this file carry the
    invariant over the changes the protocol makes to one row. *)
From S2P Require Import Prelude Versions WaitDieLock WaitDieClaims Timestamp Index Memory WaitDie.

Section waitdie_inv.
Import Memory WaitDie.
Context `{HI : Index loc} `{HL : !IndexLaws loc} (schema : gmap Z nat).
#[local] Existing Instance WaitDieLock.Operation_eq_dec.
Implicit Types (s : store) (t : tx) (i j : nat) (tk : Z * Z) (l : loc) (e : ReadWriteElement) (r : loc).

(** The owner of a record: the row it is the record of, or a thread that has
    it as local record of a row. *)
Inductive owner := Row (l : loc) | Local (i : nat) (tk : Z * Z).

(** [vown]: the row of every value and the thread that retired it, if it is
    retired; [rown]: table and owner of every record in use. *)
Record ghost := mkGhost { vown : gmap loc (Z * Z * option nat); rown : gmap loc (Z * owner); db : gmap (Z * Z) block }.
Implicit Types g : ghost.
Abbreviation threads := (gmap nat thread).
Implicit Types (th : thread) (T : threads).

Definition tts th : Z := start_ts (ttx th).
(** The value and mode a thread has asked for and may have been granted. *)
Definition asked th : option (WaitDieLock.Operation * (Z * Z) * loc) :=
  match tpc th with Blocked m row l _ _ => Some (m, row, l) | _ => None end.
(** The value a thread refers to besides its read/write set. *)
Definition wanted th : option (WaitDieLock.Operation * (Z * Z) * loc) :=
  match tpc th with Blocked m row l _ _ | Wants m row l _ _ => Some (m, row, l) | _ => None end.

Definition mode e : WaitDieLock.Operation := if decide (rwt e = READ) then WaitDieLock.S else WaitDieLock.E.

(** An entry of a read/write set. *)
Record entry_ok g s i tk e : Prop := {
  ent_live : vown g !! val e = Some (tk, None);
  ent_rec : match rwt e with
    | READ => rec e = None ∧ is_new e = false
    | DELETE => rec e = None
    | UPDATE | INSERT => ∃ r, rec e = Some r ∧ rown g !! r = Some (tk.1, Local i tk)
    end;
  ent_new : ∀ v, values s !! val e = Some v → (is_new e = true ↔ vrec v = None)
}.

(** What a thread wants: a lock it does not hold yet, or the upgrade of one. *)
Definition want_ok g th : Prop :=
  match wanted th with
  | Some (m, tk, l) => (∃ x, vown g !! l = Some (tk, x)) ∧
      match m with
      | WaitDieLock.I => False
      | WaitDieLock.U => ∃ e, rws (ttx th) !! tk = Some e ∧ val e = l ∧ rwt e = READ
      | _ => rws (ttx th) !! tk = None
      end
  | None => True
  end.

(** The claims of a thread on the locks. *)
Record claims_ok s th : Prop := {
  cl_hold tk e v : rws (ttx th) !! tk = Some e → asked th ≠ Some (WaitDieLock.U, tk, val e) → values s !! val e = Some v →
    holds (wdl v) (mode e) (tts th);
  cl_ask m tk l v : asked th = Some (m, tk, l) → values s !! l = Some v → pending (wdl v) m (tts th);
  cl_none l v : values s !! l = Some v → (∀ tk e, rws (ttx th) !! tk = Some e → val e ≠ l) → (∀ m tk, asked th ≠ Some (m, tk, l)) →
    absent (wdl v) (tts th)
}.

Record thread_ok g s i th : Prop := {
  th_entry tk e : rws (ttx th) !! tk = Some e → entry_ok g s i tk e;
  th_want : want_ok g th;
  th_claims : claims_ok s th;
  th_seen tk b : seen (ttx th) !! tk = Some b → is_Some (rws (ttx th) !! tk) ∧ db g !! tk = Some b;
  th_gc : NoDup (retired (gc (ttx th))) ∧ ∀ l, l ∈ retired (gc (ttx th)) → ∃ tk, vown g !! l = Some (tk, Some i)
}.

(** The record of a row in the index: committed, or not there yet because a
    thread is inserting the row. *)
Definition row_ok g s T tk l (v : Value) : Prop :=
  match vrec v with
  | Some r => rown g !! r = Some (tk.1, Row l) ∧ ∃ b, records s !! r = Some b ∧ db g !! tk = Some b
  | None => db g !! tk = None ∧ ∃ i th e, T !! i = Some th ∧ rws (ttx th) !! tk = Some e ∧ val e = l ∧ is_new e = true
  end.

Record inv g s T : Prop := {
  i_index : index_ok (idx s);
  i_bind tb k l : word64 k → (idx_at (idx s) tb k = Some l ↔ vown g !! l = Some ((tb, k), None));
  i_word l tk x : vown g !! l = Some (tk, x) → word64 tk.2;
  i_value l : is_Some (values s !! l) ↔ is_Some (vown g !! l);
  i_row l tk v : vown g !! l = Some (tk, None) → values s !! l = Some v → row_ok g s T tk l v;
  i_dead l tk i v : vown g !! l = Some (tk, Some i) → values s !! l = Some v → vrec v = None;
  i_db tk b : db g !! tk = Some b → ∃ l, vown g !! l = Some (tk, None);
  i_rec r tb o : rown g !! r = Some (tb, o) → ∃ b, records s !! r = Some b ∧ schema !! tb = Some (length b);
  i_lock l v : values s !! l = Some v → WaitDieLock.lock_ok (wdl v) ∧
    ∀ ts, ts ∈ owner_ts (WaitDieLock.owner_list (wdl v)) ∨ ts ∈ waiter_ts (wdl v) → ∃ i th, T !! i = Some th ∧ tts th = ts;
  i_ts i j th th' : T !! i = Some th → T !! j = Some th' → tts th = tts th' → i = j;
  i_thread i th : T !! i = Some th → thread_ok g s i th
}.

(** ** What one thread leaves to the others *)

Lemma live_inj g s T l l' tk : inv g s T → vown g !! l = Some (tk, None) → vown g !! l' = Some (tk, None) → l = l'.
Proof.
  intros Hi H1 H2. destruct tk as [tb k]. pose proof (i_word _ _ _ Hi _ _ _ H1) as Hw. simpl in Hw.
  apply (i_bind _ _ _ Hi) in H1, H2; [|done..]. congruence.
Qed.

Lemma wd_value_of g s T l x : inv g s T → vown g !! l = Some x → ∃ v, values s !! l = Some v.
Proof. intros Hi Hl. destruct (proj2 (i_value _ _ _ Hi l)) as [v Hv]; eauto. Qed.

(** A thread owns the lock of every row in its read/write set. *)
Lemma entry_owner s th tk e v : claims_ok s th → rws (ttx th) !! tk = Some e → values s !! val e = Some v →
  tts th ∈ owner_ts (WaitDieLock.owner_list (wdl v)).
Proof.
  intros [Hh Ha _] He Hv. destruct (decide (asked th = Some (WaitDieLock.U, tk, val e))) as [Hu|Hu].
  - destruct (Ha _ _ _ _ Hu Hv) as [[_ Ho]|(_ & Ho & _)]; [by apply Ho|done].
  - by apply (Hh tk e v He Hu Hv).
Qed.

Lemma exclusive_owner w ts ts' : WaitDieLock.lock_ok w → holds w WaitDieLock.E ts → ts' ∈ owner_ts (WaitDieLock.owner_list w) → ts' = ts.
Proof.
  intros Hok (Hop & Hin & _) Hin'. pose proof (ok_mode _ _ (ok_lists _ Hok)) as Hm. unfold mode_ok in Hm.
  rewrite Hop in Hm. unfold owner_ts in *. destruct (WaitDieLock.owners (WaitDieLock.owner_list w)) as [|x [|? ?]]; try done. set_solver.
Qed.

Record frame i (ts : Z) g s g' s' : Prop := {
  f_vown l tk x : vown g !! l = Some (tk, x) → vown g' !! l = Some (tk, x) ∨
    x = None ∧ vown g' !! l = Some (tk, Some i) ∧ ∃ v, values s !! l = Some v ∧ holds (wdl v) WaitDieLock.E ts;
  f_value l v : values s !! l = Some v → ∃ v', values s' !! l = Some v' ∧ others_keep ts (wdl v) (wdl v') ∧
    (vrec v' = vrec v ∨ holds (wdl v) WaitDieLock.E ts);
  f_fresh l v' : values s' !! l = Some v' → values s !! l = None → ∀ ts', ts' ≠ ts → absent (wdl v') ts';
  f_rown r tb j tk : j ≠ i → rown g !! r = Some (tb, Local j tk) → rown g' !! r = Some (tb, Local j tk);
  f_db tk b : db g !! tk = Some b → db g' !! tk = Some b ∨
    ∃ l v, vown g !! l = Some (tk, None) ∧ values s !! l = Some v ∧ holds (wdl v) WaitDieLock.E ts
}.

(** No other thread has the row that thread [ts] holds exclusively. *)
Lemma not_held g s T j th tk e v (ts : Z) : inv g s T → T !! j = Some th → tts th ≠ ts → rws (ttx th) !! tk = Some e →
  values s !! val e = Some v → ¬ holds (wdl v) WaitDieLock.E ts.
Proof.
  intros Hi Hj Hne He Hv Hh. apply Hne. eapply exclusive_owner; [apply (i_lock _ _ _ Hi _ _ Hv)|done|].
  eapply entry_owner; [by eapply i_thread|done..].
Qed.

Lemma frame_thread g s T i ts g' s' j th : inv g s T → T !! j = Some th → j ≠ i → tts th ≠ ts → frame i ts g s g' s' →
  thread_ok g' s' j th.
Proof.
  intros Hi Hj Hji Hts [Fv Fval Ff Fr Fd]. destruct (i_thread _ _ _ Hi j th Hj) as [He Hw [Hh Ha Hn] Hs [Hnd Hgc]]. split.
  - intros tk e Hte. destruct (He tk e Hte) as [Hlive Hrec Hnew]. destruct (wd_value_of _ _ _ _ _ Hi Hlive) as [v Hv].
    pose proof (not_held _ _ _ _ _ _ _ _ ts Hi Hj Hts Hte Hv) as Hnh. split.
    + destruct (Fv _ _ _ Hlive) as [?|(_ & _ & v1 & ? & ?)]; [done|]. by simplify_eq.
    + destruct (rwt e); try done; destruct Hrec as (r & ? & ?); exists r; eauto.
    + intros v' Hv'. destruct (Fval _ _ Hv) as (v1 & ? & _ & [Hr|?]); [|done]. simplify_eq. rewrite Hr. by apply Hnew.
  - unfold want_ok in *. destruct (wanted th) as [[[m tk] l]|]; [|done]. destruct Hw as [[x Hx] Hw]. split; [|done].
    destruct (Fv _ _ _ Hx) as [?|(_ & ? & _)]; eauto.
  - split.
    + intros tk e v' Hte Hask Hv'. destruct (He tk e Hte) as [Hlive _ _]. destruct (wd_value_of _ _ _ _ _ Hi Hlive) as [v Hv].
      destruct (Fval _ _ Hv) as (v1 & ? & Hk & _). simplify_eq. eapply keep_holds; [done..|]. by eapply Hh.
    + intros m tk l v' Hask Hv'. assert (∃ v, values s !! l = Some v) as [v Hv].
      { unfold want_ok in Hw. assert (wanted th = Some (m, tk, l)) as Heq by (unfold asked, wanted in *; by destruct (tpc th)).
        rewrite Heq in Hw. destruct Hw as [[x Hx] _]. by eapply wd_value_of. }
      destruct (Fval _ _ Hv) as (v1 & ? & Hk & _). simplify_eq. eapply keep_pending; [done..|]. by eapply Ha.
    + intros l v' Hv' Hno Hno'. destruct (values s !! l) as [v|] eqn:Hv; [|by eapply Ff].
      destruct (Fval _ _ Hv) as (v1 & ? & Hk & _). simplify_eq. eapply keep_absent; [done..|]. by eapply Hn.
  - intros tk b Hb. destruct (Hs tk b Hb) as [[e Hte] Hdb]. split; [by eexists|]. destruct (Fd tk b Hdb) as [?|(l & v & Hl & Hv & Hx)]; [done|].
    destruct (He tk e Hte) as [Hlive _ _]. assert (val e = l) as <- by (by eapply live_inj). exfalso.
    by eapply (not_held _ _ _ _ _ _ _ _ ts Hi Hj Hts Hte Hv).
  - split; [done|]. intros l Hl. destruct (Hgc l Hl) as [tk Hx]. exists tk. destruct (Fv _ _ _ Hx) as [?|(? & _)]; [done|]. by simplify_eq.
Qed.

(** ** A change to one row *)

(** Thread [i] changes the value [l] of row [tk]: its lock, and when [ex] it
    holds the lock of a row in the index exclusively and may change the record
    too; records of the row and its own local record of it come and go. *)
Record touch (ex : bool) i (ts : Z) g s l tk (x : option nat) (v v' : Value) (rown' : gmap loc (Z * owner)) (recs' : heap) (db' : gmap (Z * Z) block) : Prop := {
  to_value : values s !! l = Some v;
  to_row : vown g !! l = Some (tk, x);
  to_ex : ex = true → x = None ∧ holds (wdl v) WaitDieLock.E ts;
  to_same : ex = false → vrec v' = vrec v ∧ db' = db g;
  to_lock : WaitDieLock.lock_ok (wdl v');
  to_keep : others_keep ts (wdl v) (wdl v');
  to_who ts' : ts' ≠ ts → ts' ∈ owner_ts (WaitDieLock.owner_list (wdl v')) ∨ ts' ∈ waiter_ts (wdl v') →
    ts' ∈ owner_ts (WaitDieLock.owner_list (wdl v)) ∨ ts' ∈ waiter_ts (wdl v);
  to_recs r tb o : rown' !! r = Some (tb, o) → ∃ b, recs' !! r = Some b ∧ schema !! tb = Some (length b);
  to_others r tb o : rown g !! r = Some (tb, o) → o ≠ Local i tk → (ex = true → o ≠ Row l) → rown' !! r = Some (tb, o) ∧ recs' !! r = records s !! r;
  to_db tk' : tk' ≠ tk → db' !! tk' = db g !! tk'
}.

Lemma touch_frame ex i ts g s l tk x v v' rown' recs' db' : touch ex i ts g s l tk x v v' rown' recs' db' →
  frame i ts g s (mkGhost (vown g) rown' db') (mkStore (<[l := v']> (values s)) recs' (idx s)).
Proof.
  intros [Hv Hrow Hex Hsame Hlok Hkeep Hwho Hrecs Hoth Hdb]. split; simpl.
  - intros l' tk' y ?. by left.
  - intros l0 v0 Hv0. destruct (decide (l0 = l)) as [->|Hne].
    + rewrite lookup_insert_eq. exists v'. simplify_eq. split; [done|]. split; [done|]. destruct ex; [right; by apply Hex|left; by apply Hsame].
    + rewrite lookup_insert_ne by done. exists v0. split; [done|]. split; [apply others_keep_refl|by left].
  - intros l0 v0 Hv0 Hnone. destruct (decide (l0 = l)) as [->|Hne]; [congruence|]. rewrite lookup_insert_ne in Hv0 by done. congruence.
  - intros r tb j tk' Hj Hr. apply (Hoth r tb _ Hr); congruence.
  - intros tk' b Hb. destruct (decide (tk' = tk)) as [->|Hne]; [|left; by rewrite Hdb]. destruct ex; [|left; by destruct (Hsame eq_refl) as [_ ->]].
    right. exists l, v. destruct (Hex eq_refl) as [-> ?]. done.
Qed.

(** The thread that makes the change: elsewhere its read/write set stays. *)
Record acts i g s l tk (v' : Value) (rown' : gmap loc (Z * owner)) (recs' : heap) (db' : gmap (Z * Z) block) th th' : Prop := {
  ac_ts : tts th' = tts th;
  ac_old e : rws (ttx th) !! tk = Some e → val e = l;
  ac_rws tk' : tk' ≠ tk → rws (ttx th') !! tk' = rws (ttx th) !! tk';
  ac_entry e : rws (ttx th') !! tk = Some e → val e = l ∧ entry_ok (mkGhost (vown g) rown' db') (mkStore (<[l := v']> (values s)) recs' (idx s)) i tk e;
  ac_want : want_ok (mkGhost (vown g) rown' db') th';
  ac_elsewhere m tk' l' : asked th' = Some (m, tk', l') ∨ asked th = Some (m, tk', l') → l' = l ∧ tk' = tk;
  ac_hold e : rws (ttx th') !! tk = Some e → asked th' ≠ Some (WaitDieLock.U, tk, l) → holds (wdl v') (mode e) (tts th);
  ac_ask m : asked th' = Some (m, tk, l) → pending (wdl v') m (tts th);
  ac_none : rws (ttx th') !! tk = None → asked th' = None → absent (wdl v') (tts th);
  ac_seen tk' b : seen (ttx th') !! tk' = Some b → is_Some (rws (ttx th') !! tk') ∧ db' !! tk' = Some b;
  ac_gc : gc (ttx th') = gc (ttx th)
}.

Lemma acts_thread ex i g s T l tk x v v' rown' recs' db' th th' : inv g s T → T !! i = Some th →
  touch ex i (tts th) g s l tk x v v' rown' recs' db' → acts i g s l tk v' rown' recs' db' th th' →
  thread_ok (mkGhost (vown g) rown' db') (mkStore (<[l := v']> (values s)) recs' (idx s)) i th'.
Proof.
  intros Hi Hth [Hv Hrow Hex Hsame Hlok Hkeep Hwho Hrecs Hoth Hdb] [Ats Aold Arws Aent Awant Aelse Ahold Aask Anone Aseen Agc].
  destruct (i_thread _ _ _ Hi i th Hth) as [He _ [Hh Ha Hn] _ [Hnd Hgc]].
  assert (∀ tk' e, tk' ≠ tk → rws (ttx th) !! tk' = Some e → val e ≠ l) as Hother.
  { intros tk' e Hne Hte <-. destruct (He _ _ Hte) as [Hlive _ _]. rewrite Hrow in Hlive. by injection Hlive as ->. }
  split.
  - intros tk' e Hte. destruct (decide (tk' = tk)) as [->|Hne]; [by apply Aent|]. rewrite Arws in Hte by done.
    destruct (He _ _ Hte) as [Hlive Hrec Hnew]. split; [done| |].
    + destruct (rwt e); try done; destruct Hrec as (r & Hr & Ho); exists r; (split; [done|]); apply (Hoth _ _ _ Ho); congruence.
    + cbn [values]. rewrite lookup_insert_ne by (apply not_eq_sym; by eapply Hother). done.
  - done.
  - split; cbn [values]; unfold tts in *; rewrite Ats.
    + intros tk' e u Hte Hask Hu. destruct (decide (tk' = tk)) as [->|Hne].
      * destruct (Aent e Hte) as [<- _]. rewrite lookup_insert_eq in Hu. injection Hu as <-. by apply Ahold.
      * rewrite Arws in Hte by done. rewrite lookup_insert_ne in Hu by (apply not_eq_sym; by eapply Hother).
        eapply Hh; [done| |done]. intros Hask'. destruct (Aelse _ _ _ (or_intror Hask')). done.
    + intros m tk' l' u Hask Hu. destruct (Aelse _ _ _ (or_introl Hask)) as [-> ->]. rewrite lookup_insert_eq in Hu. injection Hu as <-. by apply Aask.
    + intros l' u Hu Hno Hno'. destruct (decide (l' = l)) as [->|Hne].
      * rewrite lookup_insert_eq in Hu. injection Hu as <-. apply Anone.
        -- destruct (rws (ttx th') !! tk) as [e|] eqn:Hte; [|done]. exfalso. destruct (Aent e eq_refl) as [Hval _]. by eapply Hno.
        -- destruct (asked th') as [[[m tk'] l']|] eqn:Hask; [|done]. exfalso. destruct (Aelse _ _ _ (or_introl eq_refl)) as [-> ->]. by eapply Hno'.
      * rewrite lookup_insert_ne in Hu by done. eapply Hn; [done| |].
        -- intros tk' e Hte. destruct (decide (tk' = tk)) as [->|Hnt]; [|apply (Hno tk'); by rewrite Arws]. rewrite (Aold _ Hte). congruence.
        -- intros m tk' Hask. by destruct (Aelse _ _ _ (or_intror Hask)).
  - done.
  - rewrite Agc. done.
Qed.

Lemma inv_touch ex i g s T l tk x v v' rown' recs' db' th th' : inv g s T → T !! i = Some th →
  touch ex i (tts th) g s l tk x v v' rown' recs' db' → acts i g s l tk v' rown' recs' db' th th' →
  match x with
  | None => row_ok (mkGhost (vown g) rown' db') (mkStore (<[l := v']> (values s)) recs' (idx s)) (<[i := th']> T) tk l v'
  | Some _ => vrec v' = None
  end →
  inv (mkGhost (vown g) rown' db') (mkStore (<[l := v']> (values s)) recs' (idx s)) (<[i := th']> T).
Proof.
  intros Hi Hth Ht Hac Hr. pose proof (acts_thread _ _ _ _ _ _ _ _ _ _ _ _ _ _ _ Hi Hth Ht Hac) as Hown.
  pose proof (touch_frame _ _ _ _ _ _ _ _ _ _ _ _ _ Ht) as Hf.
  destruct Ht as [Hv Hrow Hex Hsame Hlok Hkeep Hwho Hrecs Hoth Hdb]. destruct Hac as [Ats Aold Arws _ _ _ _ _ _ _ _].
  split; cbn [vown rown db values records idx]; [apply Hi|apply Hi|apply Hi| | | | | | | |].
  - intros l'. rewrite <- (i_value _ _ _ Hi l'). rewrite lookup_insert_is_Some. split; [|destruct (decide (l = l')); [left|right]; done].
    intros [->|[_ ?]]; [by eexists|done].
  - intros l' tk' u Hl' Hu. destruct (decide (l' = l)) as [->|Hne].
    { rewrite lookup_insert_eq in Hu. injection Hu as <-. rewrite Hrow in Hl'. by injection Hl' as -> ->. }
    rewrite lookup_insert_ne in Hu by done. pose proof (i_row _ _ _ Hi _ _ _ Hl' Hu) as Hro.
    assert (db' !! tk' = db g !! tk') as Hdb'.
    { destruct (decide (tk' = tk)) as [->|]; [|auto]. destruct ex; [|by destruct (Hsame eq_refl) as [_ ->]].
      destruct (Hex eq_refl) as [-> _]. exfalso. apply Hne. by eapply live_inj. }
    unfold row_ok in *. cbn [rown db records]. rewrite Hdb'. destruct (vrec u) as [r|].
    + destruct Hro as [Ho (b & Hb & Hd)]. destruct (Hoth _ _ _ Ho) as [-> ->]; [done|congruence|]. eauto.
    + destruct Hro as [Hd (j & th0 & e & Hj & He & Hval & Hn)]. split; [done|]. destruct (decide (j = i)) as [->|Hji].
      * exists i, th', e. rewrite lookup_insert_eq. simplify_eq. split; [done|]. split; [|done]. rewrite Arws; [done|].
        intros ->. by rewrite (Aold _ He) in Hne.
      * exists j, th0, e. by rewrite lookup_insert_ne by done.
  - intros l' tk' j u Hl' Hu. destruct (decide (l' = l)) as [->|Hne].
    + rewrite lookup_insert_eq in Hu. injection Hu as <-. rewrite Hrow in Hl'. by injection Hl' as -> ->.
    + rewrite lookup_insert_ne in Hu by done. by eapply i_dead.
  - intros tk' b Hb. destruct (decide (tk' = tk)) as [->|Hne].
    + destruct ex; [destruct (Hex eq_refl) as [-> _]; by exists l|]. destruct (Hsame eq_refl) as [_ Heq]. rewrite Heq in Hb. by eapply i_db.
    + rewrite Hdb in Hb by done. by eapply i_db.
  - done.
  - assert (∀ ts j th0, T !! j = Some th0 → tts th0 = ts → ∃ j th1, <[i := th']> T !! j = Some th1 ∧ tts th1 = ts) as Hw.
    { intros ts j th0 Hj Hts. destruct (decide (j = i)) as [->|Hji]; [exists i, th'; rewrite lookup_insert_eq; simplify_eq; by rewrite Ats|].
      exists j, th0. by rewrite lookup_insert_ne by done. }
    intros l' u Hu. destruct (decide (l' = l)) as [->|Hne].
    + rewrite lookup_insert_eq in Hu. injection Hu as <-. split; [done|]. intros ts Hts. destruct (decide (ts = tts th)) as [->|Hne]; [by eapply Hw|].
      destruct (proj2 (i_lock _ _ _ Hi _ _ Hv) ts) as (j & th0 & ? & ?); [by apply Hwho|]. by eapply Hw.
    + rewrite lookup_insert_ne in Hu by done. destruct (i_lock _ _ _ Hi _ _ Hu) as [? Hall]. split; [done|].
      intros ts Hts. destruct (Hall ts Hts) as (j & th0 & ? & ?). by eapply Hw.
  - intros j j' th0 th1 Hj Hj' Heq. apply lookup_insert_Some in Hj as [[<- <-]|[Hne Hj]], Hj' as [[<- <-]|[Hne' Hj']]; [done| | |].
    + rewrite Ats in Heq. by eapply i_ts.
    + rewrite Ats in Heq. by eapply i_ts.
    + by eapply i_ts.
  - intros j th0 Hj. apply lookup_insert_Some in Hj as [[<- <-]|[Hne Hj]]; [done|].
    eapply frame_thread; [done..| |exact Hf]. intros Heq. apply Hne. by eapply i_ts.
Qed.
End waitdie_inv.
