(* ===== verification/WaitDieSteps.v ===== *)
(** * WaitDie: the steps of one thread

    What a request, a release, a new entry of the read/write set, an installed
    or removed row and a reclaimed value do to the invariant. *)
From S2P Require Import Prelude Versions WaitDieLock WaitDieClaims Timestamp Index Memory WaitDie WaitDieInv.

Section waitdie_steps.
Import Memory WaitDie.
Context `{HI : Index loc} `{HL : !IndexLaws loc} (schema : gmap Z nat).
#[local] Existing Instance WaitDieLock.Operation_eq_dec.
Implicit Types (s : store) (t : tx) (i j : nat) (tk : Z * Z) (l : loc) (e : ReadWriteElement) (r : loc) (g : ghost) (th : thread) (T : gmap nat thread).
#[local] Abbreviation inv := (inv schema).

Lemma wanted_asked th : wanted th = None → asked th = None.
Proof. unfold wanted, asked. by destruct (tpc th). Qed.

Lemma row_ok_insert g s T i th th' tk l v : row_ok g s T tk l v → T !! i = Some th →
  (∀ e, rws (ttx th) !! tk = Some e → is_new e = true → ∃ e', rws (ttx th') !! tk = Some e' ∧ val e' = val e ∧ is_new e' = true) →
  row_ok g s (<[i := th']> T) tk l v.
Proof.
  unfold row_ok. intros Hr Hth Hkeep. destruct (vrec v); [done|]. destruct Hr as [Hd (j & th0 & e & Hj & He & Hval & Hn)]. split; [done|].
  destruct (decide (j = i)) as [->|Hne].
  - simplify_eq. destruct (Hkeep e He Hn) as (e' & ? & ? & ?). exists i, th', e'. by rewrite lookup_insert_eq.
  - exists j, th0, e. by rewrite lookup_insert_ne.
Qed.

(** ** Changes of a lock alone *)
Section lock.
Context {g : ghost} {s : store} {T : gmap nat thread} {i : nat} {th : thread} {l : loc} {tk : Z * Z} {x : option nat} {v : Value}.
Context (Hi : inv g s T) (Hth : T !! i = Some th) (Hrow : vown g !! l = Some (tk, x)) (Hv : values s !! l = Some v).

Lemma lock_touch w : WaitDieLock.lock_ok w → others_keep (tts th) (wdl v) w →
  (∀ ts', ts' ≠ tts th → ts' ∈ owner_ts (WaitDieLock.owner_list w) ∨ ts' ∈ waiter_ts w → ts' ∈ owner_ts (WaitDieLock.owner_list (wdl v)) ∨ ts' ∈ waiter_ts (wdl v)) →
  touch schema false i (tts th) g s l tk x v (mkValue w (vrec v)) (rown g) (records s) (db g).
Proof. intros Hw Hk Hwho. split; try done. intros r tb o Hr. by apply (i_rec _ _ _ _ Hi _ _ _ Hr). Qed.

Lemma old_row : match x with None => row_ok g s T tk l v | Some _ => vrec v = None end.
Proof. destruct x; [by eapply i_dead|by eapply i_row]. Qed.

(** The entries of the row under a changed lock. *)
Lemma entry_ok_lock tk' e w : entry_ok g s i tk' e → entry_ok g (mkStore (<[l := mkValue w (vrec v)]> (values s)) (records s) (idx s)) i tk' e.
Proof.
  intros [H1 H2 H3]. split; [done..|]. cbn [values]. intros u Hu. apply lookup_insert_Some in Hu as [[Heq <-]|[_ ?]]; [|auto].
  cbn [vrec]. apply H3. by rewrite <- Heq.
Qed.

Lemma lock_inv w th' : WaitDieLock.lock_ok w → others_keep (tts th) (wdl v) w →
  (∀ ts', ts' ≠ tts th → ts' ∈ owner_ts (WaitDieLock.owner_list w) ∨ ts' ∈ waiter_ts w → ts' ∈ owner_ts (WaitDieLock.owner_list (wdl v)) ∨ ts' ∈ waiter_ts (wdl v)) →
  tts th' = tts th → gc (ttx th') = gc (ttx th) → want_ok g th' →
  (∀ e, rws (ttx th) !! tk = Some e → val e = l ∧ (is_new e = true → rws (ttx th') !! tk = Some e)) →
  (∀ tk', tk' ≠ tk → rws (ttx th') !! tk' = rws (ttx th) !! tk') → (∀ e, rws (ttx th') !! tk = Some e → rws (ttx th) !! tk = Some e) →
  (∀ m tk' l', asked th' = Some (m, tk', l') ∨ asked th = Some (m, tk', l') → l' = l ∧ tk' = tk) →
  (∀ e, rws (ttx th') !! tk = Some e → asked th' ≠ Some (WaitDieLock.U, tk, l) → holds w (mode e) (tts th)) →
  (∀ m, asked th' = Some (m, tk, l) → pending w m (tts th)) →
  (rws (ttx th') !! tk = None → asked th' = None → absent w (tts th)) →
  (∀ tk' b, seen (ttx th') !! tk' = Some b → seen (ttx th) !! tk' = Some b ∧ is_Some (rws (ttx th') !! tk')) →
  inv g (set_value s l (mkValue w (vrec v))) (<[i := th']> T).
Proof.
  intros Hw Hk Hwho Hts Hgc Hwant Hold Hoth Hsub Helse Hh Ha Hn Hs. unfold set_value.
  assert (g = mkGhost (vown g) (rown g) (db g)) as Hg by (by destruct g). rewrite Hg at 1.
  pose proof (i_thread _ _ _ _ Hi _ _ Hth) as Hthok.
  eapply inv_touch; [done..|by apply lock_touch| |rewrite <- Hg].
  - split; try done.
    + intros e He. apply (Hold e He).
    + intros e He%Hsub. split; [by apply Hold|]. rewrite <- Hg. apply entry_ok_lock. by apply Hthok.
    + intros tk' b Hb. destruct (Hs _ _ Hb) as [Hb' ?]. split; [done|]. by apply (th_seen _ _ _ _ Hthok).
  - pose proof old_row as Hr. destruct x; [done|]. eapply (row_ok_insert _ _ T i th); [|done|].
    + unfold row_ok in *. done.
    + intros e He Hnew. destruct (Hold e He) as [Hval Hkeep]. exists e. auto.
Qed.
End lock.

(** A thread asks for a lock. *)
Lemma request_ok g s T i t m tk l key k : inv g s T → T !! i = Some (mkThread t (Wants m tk l key k)) →
  ∃ v (r : WaitDieLock.result) w, values s !! l = Some v ∧ request m (wdl v) (start_ts t) = Ok (r, w) ∧
    match r with
    | WaitDieLock.Died => w = wdl v
    | _ => inv g (set_value s l (mkValue w (vrec v))) (<[i := mkThread t (Blocked m tk l key k)]> T) ∧
        (r = WaitDieLock.Acquired → holds w (granted_mode m) (start_ts t))
    end.
Proof.
  intros Hi Hth. destruct (i_thread _ _ _ _ Hi _ _ Hth) as [He [[x Hx] Hwm] [Hh Ha Hn] Hs Hgc]. simpl in *.
  destruct (wd_value_of _ _ _ _ _ _ Hi Hx) as [v Hv]. exists v. destruct (i_lock _ _ _ _ Hi _ _ Hv) as [Hlok _].
  assert (m = WaitDieLock.U ∧ holds (wdl v) WaitDieLock.S (start_ts t) ∨ (m = WaitDieLock.S ∨ m = WaitDieLock.E) ∧ absent (wdl v) (start_ts t)) as Hcl.
  { assert (m ≠ WaitDieLock.U → rws t !! tk = None → absent (wdl v) (start_ts t)) as Habs.
    { intros _ Hnone. eapply Hn; [done| |done]. intros tk' e Hte <-. destruct (He _ _ Hte) as [Hlive _ _]. rewrite Hx in Hlive. injection Hlive as -> ->. congruence. }
    destruct m; [done|right; split; [by left|by apply Habs]|right; split; [by right|by apply Habs]|].
    left. split; [done|]. destruct Hwm as (e & Hte & <- & Hrd). replace WaitDieLock.S with (mode e); [by eapply Hh|]. unfold mode. by rewrite decide_True. }
  assert (∃ (r : WaitDieLock.result) w, request m (wdl v) (start_ts t) = Ok (r, w) ∧ requested (wdl v) (start_ts t) m r w) as (r & w & Hreq & Hlok' & Hk & Hwho & Hr).
  { destruct Hcl as [[-> Hs']|[[->| ->] Habs]]; simpl; [by apply upgrade_requested|by apply shared_requested|by apply exclusive_requested]. }
  exists r, w. split; [done|]. split; [done|]. 
  assert (r ≠ WaitDieLock.Died → pending w m (start_ts t) → inv g (set_value s l (mkValue w (vrec v))) (<[i := mkThread t (Blocked m tk l key k)]> T)) as Hinv.
  { intros _ Hpend. eapply (lock_inv Hi Hth Hx Hv); try done.
    - by split; [exists x|].
    - simpl. intros e Hte. destruct m; simpl in Hwm; [done|congruence..|]. destruct Hwm as (e' & ? & ? & ?). by simplify_eq.
    - unfold asked. simpl. intros m' tk' l' [Heq|Heq]; by simplify_eq.
    - intros e Hte Hask. simpl in *. destruct m; simpl in Hwm; [done|congruence..|]. by destruct Hask.
    - intros m' Heq. by injection Heq as <-.
    - simpl. intros tk' b Hb. split; [done|]. by apply (Hs _ _ Hb). }
  destruct r; [|split; [apply Hinv; [done|by left]|done]|done]. split; [apply Hinv; [done|by right]|done].
Qed.

(** A lock that was granted is given back: the row was removed meanwhile, or
    it was the next key of an insertion. *)
Lemma give_back_ok g s T i t m tk l key k v pc (f : WaitDieLock.t → Z → outcome (WaitDieLock.t * list Z)) :
  inv g s T → T !! i = Some (mkThread t (Blocked m tk l key k)) → wanted (mkThread t pc) = None →
  m = WaitDieLock.S ∧ f = WaitDieLock.unlock_shared ∨ m = WaitDieLock.E ∧ f = WaitDieLock.unlock →
  values s !! l = Some v → holds (wdl v) (granted_mode m) (start_ts t) →
  ∃ w q, f (wdl v) (start_ts t) = Ok (w, q) ∧ release f t s l = Ok (set_value s l (mkValue w (vrec v))) ∧
    inv g (set_value s l (mkValue w (vrec v))) (<[i := mkThread t pc]> T).
Proof.
  intros Hi Hth Hpc Hm Hv Hh. destruct (i_thread _ _ _ _ Hi _ _ Hth) as [He [[x Hx] Hwm] Hcl Hs Hgc]. simpl in *.
  destruct (i_lock _ _ _ _ Hi _ _ Hv) as [Hlok _].
  assert (∃ w woken, f (wdl v) (start_ts t) = Ok (w, woken) ∧ unlocked (wdl v) (start_ts t) w) as (w & woken & Hf & Hu).
  { destruct Hm as [[-> ->]|[-> ->]]; [by apply unlock_shared_unlocked|by apply unlock_unlocked]. }
  exists w, woken. unfold release. rewrite Hv. simpl. rewrite Hf. simpl. split; [done|]. split; [done|]. destruct Hu as (Hlok' & Hk & Habs & Hwho).
  assert (rws t !! tk = None) as Hnone by (destruct Hm as [[-> _]|[-> _]]; done).
  pose proof (wanted_asked _ Hpc) as Hask.
  eapply (lock_inv Hi Hth Hx Hv); simpl; try done; try (intros; congruence).
  - unfold want_ok. by rewrite Hpc.
  - rewrite Hask. unfold asked. simpl. intros m' tk' l' [Heq|Heq]; by simplify_eq.
  - intros tk' b Hb. split; [done|]. by apply (Hs _ _ Hb).
Qed.

(** ** Entries of the read/write set *)
Section entry.
Context {g : ghost} {s : store} {T : gmap nat thread} {i : nat} {th : thread} {l : loc} {tk : Z * Z} {v : Value}.
Context (Hi : inv g s T) (Hth : T !! i = Some th) (Hrow : vown g !! l = Some (tk, None)) (Hv : values s !! l = Some v).

Lemma own_entry e : rws (ttx th) !! tk = Some e → val e = l.
Proof. intros He. destruct (th_entry _ _ _ _ (i_thread _ _ _ _ Hi _ _ Hth) _ _ He) as [Hlive _ _]. by eapply live_inj. Qed.

(** The row enters the read/write set, or its entry changes. *)
Lemma entry_inv rown' recs' th' e :
  tts th' = tts th → gc (ttx th') = gc (ttx th) → wanted th' = None →
  (∀ m tk' l', asked th = Some (m, tk', l') → l' = l ∧ tk' = tk) →
  rws (ttx th') = <[tk := e]> (rws (ttx th)) → val e = l → holds (wdl v) (mode e) (tts th) → (is_new e = true ↔ vrec v = None) →
  match rwt e with
  | READ => rec e = None ∧ is_new e = false
  | DELETE => rec e = None
  | UPDATE | INSERT => ∃ r, rec e = Some r ∧ rown' !! r = Some (tk.1, Local i tk)
  end →
  (∀ r tb o, rown' !! r = Some (tb, o) → ∃ b, recs' !! r = Some b ∧ schema !! tb = Some (length b)) →
  (∀ r tb o, rown g !! r = Some (tb, o) → o ≠ Local i tk → rown' !! r = Some (tb, o) ∧ recs' !! r = records s !! r) →
  (∀ tk' b, seen (ttx th') !! tk' = Some b → is_Some (rws (ttx th') !! tk') ∧ db g !! tk' = Some b) →
  inv (mkGhost (vown g) rown' (db g)) (set_records s recs') (<[i := th']> T).
Proof.
  intros Hts Hgc Hwant Hask Hrws Hval Hh Hnew Hrec Hrecs Hoth Hseen. pose proof (wanted_asked _ Hwant) as Hask'.
  assert (set_records s recs' = mkStore (<[l := v]> (values s)) recs' (idx s)) as -> by (unfold set_records; by rewrite insert_id).
  destruct (i_lock _ _ _ _ Hi _ _ Hv) as [Hlok _].
  eapply (inv_touch _ false); [done|done| | |].
  - split; try done. intros r tb o Hr Hne _. by apply Hoth.
  - split; try done.
    + apply own_entry.
    + intros tk' Hne. by rewrite Hrws, lookup_insert_ne.
    + rewrite Hrws, lookup_insert_eq. intros e' [= <-]. split; [done|]. split; [by rewrite Hval|done|]. cbn [values]. rewrite Hval, lookup_insert_eq.
      by intros u [= <-].
    + unfold want_ok. by rewrite Hwant.
    + intros m tk' l' [Heq|Heq]; [congruence|by eapply Hask].
    + rewrite Hrws, lookup_insert_eq. by intros e' [= <-].
    + rewrite Hask'. done.
    + rewrite Hrws, lookup_insert_eq. done.
  - pose proof (i_row _ _ _ _ Hi _ _ _ Hrow Hv) as Hr. unfold row_ok in *. cbn [rown db records]. destruct (vrec v) as [r|].
    + destruct Hr as [Hr (b & Hb & Hd)]. destruct (Hoth _ _ _ Hr) as [-> ->]; [done|]. eauto.
    + destruct Hr as [Hd _]. split; [done|]. exists i, th', e. rewrite lookup_insert_eq, Hrws, lookup_insert_eq. split_and!; [done..|]. by apply Hnew.
Qed.

(** The row leaves the read/write set: its lock is released, its record
    replaced when it was written. *)
Lemma leave_inv ex rown' recs' db' r w th' :
  asked th = None → wanted th' = None → tts th' = tts th → gc (ttx th') = gc (ttx th) → rws (ttx th') = delete tk (rws (ttx th)) →
  (∀ tk' b, seen (ttx th') !! tk' = Some b → seen (ttx th) !! tk' = Some b ∧ tk' ≠ tk) →
  unlocked (wdl v) (tts th) w → (ex = true → holds (wdl v) WaitDieLock.E (tts th)) → (ex = false → vrec v = Some r ∧ db' = db g) →
  (∀ r tb o, rown' !! r = Some (tb, o) → ∃ b, recs' !! r = Some b ∧ schema !! tb = Some (length b)) →
  (∀ r tb o, rown g !! r = Some (tb, o) → o ≠ Local i tk → (ex = true → o ≠ Row l) → rown' !! r = Some (tb, o) ∧ recs' !! r = records s !! r) →
  (∀ tk', tk' ≠ tk → db' !! tk' = db g !! tk') →
  rown' !! r = Some (tk.1, Row l) → (∃ b, recs' !! r = Some b ∧ db' !! tk = Some b) →
  inv (mkGhost (vown g) rown' db') (mkStore (<[l := mkValue w (Some r)]> (values s)) recs' (idx s)) (<[i := th']> T).
Proof.
  intros Hask Hwant Hts Hgc Hrws Hseen (Hlok & Hk & Habs & Hwho) Hex Hsame Hrecs Hoth Hdb Hr Hb. pose proof (wanted_asked _ Hwant) as Hask'.
  eapply (inv_touch _ ex); [done|done| | |].
  - split; try done; [auto|]. intros He. destruct (Hsame He) as [-> ->]. done.
  - split; try done.
    + apply own_entry.
    + intros tk' Hne. by rewrite Hrws, lookup_delete_ne.
    + rewrite Hrws, lookup_delete_eq. done.
    + unfold want_ok. by rewrite Hwant.
    + intros m tk' l' [Heq|Heq]; congruence.
    + rewrite Hrws, lookup_delete_eq. done.
    + rewrite Hask'. done.
    + intros tk' b Hb'. destruct (Hseen _ _ Hb') as [Hs' Hne]. destruct (th_seen _ _ _ _ (i_thread _ _ _ _ Hi _ _ Hth) _ _ Hs') as [? ?].
      rewrite Hrws, lookup_delete_ne by done. split; [done|]. by rewrite Hdb.
  - unfold row_ok. cbn [vrec]. split; done.
Qed.
End entry.

(** ** Values that come and go *)

(** A row in the write set leaves the index and is retired. *)
Lemma retire_inv g s T i th tk e v w rown' recs' th' : inv g s T → T !! i = Some th → asked th = None → wanted th' = None →
  tts th' = tts th → rws (ttx th) !! tk = Some e → values s !! val e = Some v → holds (wdl v) WaitDieLock.E (tts th) →
  unlocked (wdl v) (tts th) w →
  rws (ttx th') = delete tk (rws (ttx th)) → retired (gc (ttx th')) ≡ₚ val e :: retired (gc (ttx th)) →
  (∀ tk' b, seen (ttx th') !! tk' = Some b → seen (ttx th) !! tk' = Some b ∧ tk' ≠ tk) →
  (∀ r tb o, rown' !! r = Some (tb, o) → ∃ b, recs' !! r = Some b ∧ schema !! tb = Some (length b)) →
  (∀ r tb o, rown g !! r = Some (tb, o) → o ≠ Local i tk → o ≠ Row (val e) → rown' !! r = Some (tb, o) ∧ recs' !! r = records s !! r) →
  inv (mkGhost (<[val e := (tk, Some i)]> (vown g)) rown' (delete tk (db g)))
    (mkStore (<[val e := mkValue w None]> (values s)) recs' (idx_remove (idx s) tk.1 tk.2).2) (<[i := th']> T).
Proof.
  intros Hi Hth Hask Hwant Hts He Hv Hx (Hlok & Hk & Habs & Hwho) Hrws Hgc Hseen Hrecs Hoth. pose proof (wanted_asked _ Hwant) as Hask'.
  pose proof (i_thread _ _ _ _ Hi _ _ Hth) as [Hent _ [Hh _ Hn] Hs [Hnd Hret]]. destruct (Hent _ _ He) as [Hlive _ _].
  set (l := val e) in *. set (g' := mkGhost _ _ _). set (s' := mkStore _ _ _).
  pose proof (i_word _ _ _ _ Hi _ _ _ Hlive) as Hw.
  destruct (remove_result (idx s) tk.1 tk.2 (i_index _ _ _ _ Hi) Hw) as (i' & Hrem & Hi' & Hat).
  assert (idx s' = i') as Hidx by (unfold s'; by rewrite Hrem).
  assert (frame i (tts th) g s g' s') as Hf.
  { split; simpl.
    - intros l' tk' x Hl'. destruct (decide (l' = l)) as [->|Hne]; [|left; by rewrite lookup_insert_ne]. right. rewrite Hlive in Hl'.
      injection Hl' as <- <-. rewrite lookup_insert_eq. eauto.
    - intros l' u Hu. destruct (decide (l' = l)) as [->|Hne].
      + rewrite lookup_insert_eq. simplify_eq. eexists. split; [done|]. split; [done|]. by right.
      + rewrite lookup_insert_ne by done. exists u. split; [done|]. split; [apply others_keep_refl|by left].
    - intros l' u Hu Hnone. destruct (decide (l' = l)) as [->|Hne]; [congruence|]. rewrite lookup_insert_ne in Hu by done. congruence.
    - intros r tb j tk' Hj Hr. apply (Hoth _ _ _ Hr); congruence.
    - intros tk' b Hb. destruct (decide (tk' = tk)) as [->|Hne]; [|left; by rewrite lookup_delete_ne]. right. eauto. }
  assert (∀ l' tk' x, l' ≠ l → vown g !! l' = Some (tk', None) → vown g !! l' = Some (tk', x) → tk' ≠ tk) as Hinj.
  { intros l' tk' x Hne Hl' _ ->. apply Hne. by eapply live_inj. }
  split; rewrite ?Hidx; cbn [vown rown db values records g' s'].
  - done.
  - intros tb k l' Hwk. rewrite Hat by done. destruct (decide (tb = tk.1 ∧ k = tk.2)) as [[-> ->]|Hne].
    + split; [done|]. intros [[_ ?]|[Hne Hl']]%lookup_insert_Some; [congruence|]. exfalso. apply Hne.
      eapply live_inj; [done|exact Hlive|]. by destruct tk.
    + rewrite (i_bind _ _ _ _ Hi) by done. destruct (decide (l' = l)) as [->|Hll]; [|by rewrite lookup_insert_ne].
      rewrite lookup_insert_eq, Hlive. split; [|done]. intros [= ->]. by destruct Hne.
  - intros l' tk' x [[_ [= <- _]]|[_ Hl']]%lookup_insert_Some; [done|by eapply i_word].
  - intros l'. rewrite !lookup_insert_is_Some, (i_value _ _ _ _ Hi l'). done.
  - intros l' tk' u Hl' Hu. destruct (decide (l' = l)) as [->|Hne]; [rewrite lookup_insert_eq in Hl'; done|].
    rewrite lookup_insert_ne in Hl' by done. rewrite lookup_insert_ne in Hu by done. pose proof (Hinj _ _ _ Hne Hl' Hl') as Htk. pose proof (i_row _ _ _ _ Hi _ _ _ Hl' Hu) as Hr.
    unfold row_ok, g', s' in *. cbn [rown db records]. rewrite lookup_delete_ne by done. destruct (vrec u) as [r|].
    + destruct Hr as [Hr (b & Hb & Hd)]. destruct (Hoth _ _ _ Hr) as [-> ->]; [done|congruence|]. eauto.
    + destruct Hr as [Hd (j & th0 & e0 & Hj & He0 & Hval & Hnew)]. split; [done|]. destruct (decide (j = i)) as [->|Hji].
      * exists i, th', e0. simplify_eq. rewrite lookup_insert_eq, Hrws, lookup_delete_ne; done.
      * exists j, th0, e0. by rewrite lookup_insert_ne.
  - intros l' tk' j u Hl' Hu. destruct (decide (l' = l)) as [->|Hne]; [rewrite lookup_insert_eq in Hu; by injection Hu as <-|].
    rewrite lookup_insert_ne in Hl' by done. rewrite lookup_insert_ne in Hu by done. by eapply i_dead.
  - intros tk' b [Hne Hb]%lookup_delete_Some. destruct (i_db _ _ _ _ Hi _ _ Hb) as [l' Hl']. exists l'. rewrite lookup_insert_ne; [done|].
    intros <-. congruence.
  - done.
  - assert (∀ ts j th0, T !! j = Some th0 → tts th0 = ts → ∃ j th1, <[i := th']> T !! j = Some th1 ∧ tts th1 = ts) as Hwt.
    { intros ts j th0 Hj Hts0. destruct (decide (j = i)) as [->|Hji]; [exists i, th'; rewrite lookup_insert_eq; simplify_eq; by rewrite Hts|].
      exists j, th0. by rewrite lookup_insert_ne by done. }
    intros l' u Hu. destruct (decide (l' = l)) as [->|Hne].
    + rewrite lookup_insert_eq in Hu. injection Hu as <-. split; [done|]. cbn [wdl]. intros ts Hts0. destruct (decide (ts = tts th)) as [->|Hne]; [by eapply Hwt|].
      destruct (proj2 (i_lock _ _ _ _ Hi _ _ Hv) ts) as (j & th0 & ? & ?); [by apply Hwho|]. by eapply Hwt.
    + rewrite lookup_insert_ne in Hu by done. destruct (i_lock _ _ _ _ Hi _ _ Hu) as [? Hall]. split; [done|].
      intros ts Hts0. destruct (Hall ts Hts0) as (j & th0 & ? & ?). by eapply Hwt.
  - intros j j' th0 th1 Hj Hj' Heq. apply lookup_insert_Some in Hj as [[<- <-]|[Hne Hj]], Hj' as [[<- <-]|[Hne' Hj']]; [done| | |by eapply i_ts];
      rewrite Hts in Heq; by eapply i_ts.
  - intros j th0 Hj. apply lookup_insert_Some in Hj as [[<- <-]|[Hne Hj]]; [|eapply frame_thread; [done..| |exact Hf]; intros Heq; apply Hne; by eapply i_ts].
    assert (∀ tk' e', rws (ttx th') !! tk' = Some e' → rws (ttx th) !! tk' = Some e' ∧ tk' ≠ tk ∧ val e' ≠ l) as Hsub.
    { rewrite Hrws. intros tk' e' [Hne He']%lookup_delete_Some. split; [done|]. split; [done|]. intros Heq. destruct (Hent _ _ He') as [Hl' _ _].
      rewrite Heq, Hlive in Hl'. congruence. }
    split.
    + intros tk' e' (He' & Hne & Hnl)%Hsub. destruct (Hent _ _ He') as [Hl' Hr Hnew]. split; simpl.
      * by rewrite lookup_insert_ne.
      * destruct (rwt e'); try done; destruct Hr as (r & ? & Hr); exists r; (split; [done|]); apply (Hoth _ _ _ Hr); congruence.
      * rewrite lookup_insert_ne by done. done.
    + unfold want_ok. by rewrite Hwant.
    + split; simpl; unfold tts in *; rewrite Hts.
      * intros tk' e' u (He' & Hne & Hnl)%Hsub _. rewrite lookup_insert_ne by done. intros Hu. eapply Hh; [done| |done]. by rewrite Hask.
      * rewrite Hask'. done.
      * intros l' u Hu Hno _. destruct (decide (l' = l)) as [->|Hnl]; [rewrite lookup_insert_eq in Hu; by injection Hu as <-|].
        rewrite lookup_insert_ne in Hu by done. eapply Hn; [done| |by rewrite Hask]. intros tk' e' He'. destruct (decide (tk' = tk)) as [->|Hne]; [rewrite He in He'; injection He' as <-; by apply not_eq_sym|].
        apply (Hno tk'). by rewrite Hrws, lookup_delete_ne.
    + intros tk' b Hb. destruct (Hseen _ _ Hb) as [Hb' Hne]. destruct (Hs _ _ Hb') as [? ?]. simpl. rewrite Hrws, !lookup_delete_ne by done. done.
    + simpl. split.
      * rewrite Hgc. constructor; [|done]. intros Hin. destruct (Hret _ Hin) as [? ?]. congruence.
      * intros l'. rewrite Hgc. intros [->|Hin]%elem_of_cons; [exists tk; by rewrite lookup_insert_eq|]. destruct (Hret _ Hin) as [tk' ?].
        exists tk'. rewrite lookup_insert_ne; [done|]. intros <-. congruence.
Qed.

(** A new row enters the index: loaded, when thread [i] does not exist, or
    inserted by thread [i]. *)
Lemma add_inv g s T i (ts : Z) T' l v0 tk (i' : index (V := loc)) rown' recs' db' :
  let g' := mkGhost (<[l := (tk, None)]> (vown g)) rown' db' in
  let s' := mkStore (<[l := v0]> (values s)) recs' i' in
  inv g s T → word64 tk.2 → idx_at (idx s) tk.1 tk.2 = None → values s !! l = None → index_ok i' →
  (∀ tb k, word64 k → idx_at i' tb k = if decide (tb = tk.1 ∧ k = tk.2) then Some l else idx_at (idx s) tb k) →
  WaitDieLock.lock_ok (wdl v0) → (∀ ts', ts' ≠ ts → absent (wdl v0) ts') →
  (∀ r x, rown g !! r = Some x → rown' !! r = Some x ∧ recs' !! r = records s !! r) →
  (∀ r tb o, rown' !! r = Some (tb, o) → ∃ b, recs' !! r = Some b ∧ schema !! tb = Some (length b)) →
  (∀ tk', tk' ≠ tk → db' !! tk' = db g !! tk') → row_ok g' s' T' tk l v0 →
  (∀ j, j ≠ i → T' !! j = T !! j) → (∀ j th, T !! j = Some th → j ≠ i → tts th ≠ ts) →
  match T !! i, T' !! i with
  | None, None => absent (wdl v0) ts
  | Some th, Some th' => tts th = ts ∧ tts th' = ts ∧ (∀ tk', tk' ≠ tk → rws (ttx th') !! tk' = rws (ttx th) !! tk') ∧ thread_ok g' s' i th'
  | _, _ => False
  end →
  inv g' s' T'.
Proof.
  intros g' s' Hi Hw Hnone Hl Hi' Hat Hlok Habs Hkeep Hrecs Hdb Hrow HT Hts Hown.
  assert (vown g !! l = None) as Hvn.
  { destruct (vown g !! l) as [x|] eqn:Hx; [|done]. destruct (wd_value_of _ _ _ _ _ _ Hi Hx). congruence. }
  assert (∀ l', vown g !! l' = Some (tk, None) → False) as Hfree.
  { intros l' Hl'. destruct tk as [tb k]. apply (i_bind _ _ _ _ Hi) in Hl'; [|done]. simpl in *. congruence. }
  assert (db g !! tk = None) as Hdn by (destruct (db g !! tk) eqn:Hd; [|done]; destruct (i_db _ _ _ _ Hi _ _ Hd) as [l' ?]; by exfalso; eapply Hfree).
  assert (frame i ts g s g' s') as Hf.
  { split; simpl.
    - intros l' tk' x Hl'. left. rewrite lookup_insert_ne; [done|]. congruence.
    - intros l' u Hu. exists u. rewrite lookup_insert_ne by congruence. split; [done|]. split; [apply others_keep_refl|by left].
    - intros l' u Hu Hn ts' Hne. destruct (decide (l' = l)) as [->|]; [rewrite lookup_insert_eq in Hu; injection Hu as <-; auto|].
      rewrite lookup_insert_ne in Hu by done. congruence.
    - intros r tb j tk' Hj Hr. by apply Hkeep.
    - intros tk' b Hb. left. rewrite Hdb; [done|]. congruence. }
  assert (∀ j th, T !! j = Some th → ∃ th', T' !! j = Some th' ∧ tts th' = tts th ∧ ∀ tk', tk' ≠ tk → rws (ttx th') !! tk' = rws (ttx th) !! tk') as Hsame.
  { intros j th Hj. destruct (decide (j = i)) as [->|Hne]; [|exists th; by rewrite HT]. rewrite Hj in Hown.
    destruct (T' !! i) as [th'|]; [|done]. destruct Hown as (-> & ? & ? & _). eauto. }
  assert (∀ j th', T' !! j = Some th' → ∃ th, T !! j = Some th ∧ tts th = tts th') as Hback.
  { intros j th' Hj. destruct (decide (j = i)) as [->|Hne]; [|exists th'; by rewrite <- HT]. rewrite Hj in Hown.
    destruct (T !! i) as [th|]; [|done]. destruct Hown as (? & ? & _). exists th. split; [done|congruence]. }
  split; cbn [vown rown db values records idx g' s'].
  - done.
  - intros tb k l' Hwk. rewrite Hat by done. destruct (decide (tb = tk.1 ∧ k = tk.2)) as [[-> ->]|Hne].
    + assert ((tk.1, tk.2) = tk) as -> by (by destruct tk). split; [intros [= <-]; by rewrite lookup_insert_eq|].
      intros [[-> _]|[_ ?]]%lookup_insert_Some; [done|]. by exfalso; eapply Hfree.
    + rewrite (i_bind _ _ _ _ Hi) by done. destruct (decide (l' = l)) as [->|]; [|by rewrite lookup_insert_ne].
      rewrite lookup_insert_eq, Hvn. split; [done|]. intros [= ->]. by destruct Hne.
  - intros l' tk' x [[_ [= <- _]]|[_ ?]]%lookup_insert_Some; [done|by eapply i_word].
  - intros l'. rewrite !lookup_insert_is_Some, (i_value _ _ _ _ Hi l'). done.
  - intros l' tk' u Hl' Hu. destruct (decide (l' = l)) as [->|Hne].
    { rewrite lookup_insert_eq in Hl'. injection Hl' as <-. rewrite lookup_insert_eq in Hu. by injection Hu as <-. }
    rewrite lookup_insert_ne in Hl' by done. rewrite lookup_insert_ne in Hu by done.
    assert (tk' ≠ tk) as Htk by (intros ->; by eapply Hfree). pose proof (i_row _ _ _ _ Hi _ _ _ Hl' Hu) as Hr.
    unfold row_ok in Hr |- *. cbn [rown db records g' s']. rewrite Hdb by done. destruct (vrec u) as [r|].
    + destruct Hr as [Hr (b & Hb & Hd)]. destruct (Hkeep _ _ Hr) as [-> ->]. eauto.
    + destruct Hr as [Hd (j & th0 & e0 & Hj & He0 & Hval & Hnew)]. split; [done|]. destruct (Hsame _ _ Hj) as (th1 & ? & _ & Hr1).
      exists j, th1, e0. by rewrite Hr1.
  - intros l' tk' j u Hl' Hu. destruct (decide (l' = l)) as [->|Hne]; [rewrite lookup_insert_eq in Hl'; done|].
    rewrite lookup_insert_ne in Hl' by done. rewrite lookup_insert_ne in Hu by done. by eapply i_dead.
  - intros tk' b Hb. destruct (decide (tk' = tk)) as [->|Hne]; [exists l; by rewrite lookup_insert_eq|]. rewrite Hdb in Hb by done.
    destruct (i_db _ _ _ _ Hi _ _ Hb) as [l' Hl']. exists l'. rewrite lookup_insert_ne; [done|]. congruence.
  - done.
  - intros l' u Hu. destruct (decide (l' = l)) as [->|Hne].
    + rewrite lookup_insert_eq in Hu. injection Hu as <-. split; [done|]. intros ts' Hts'. destruct (decide (ts' = ts)) as [->|Hne].
      * destruct (T !! i) as [th|] eqn:Hth, (T' !! i) as [th'|] eqn:Hth'; try done; [exists i, th'; by destruct Hown as (_ & ? & _)|].
        destruct Hown as [? ?]. by destruct Hts'.
      * destruct (Habs ts' Hne) as [? ?]. by destruct Hts'.
    + rewrite lookup_insert_ne in Hu by done. destruct (i_lock _ _ _ _ Hi _ _ Hu) as [? Hall]. split; [done|].
      intros ts' Hts'. destruct (Hall ts' Hts') as (j & th0 & Hj & <-). destruct (Hsame _ _ Hj) as (th1 & ? & ? & _). eauto.
  - intros j j' th0 th1 Hj Hj' Heq. destruct (Hback _ _ Hj) as (a & Ha & ?), (Hback _ _ Hj') as (b & Hb & ?). eapply i_ts; [exact Hi|exact Ha|exact Hb|congruence].
  - intros j th0 Hj. destruct (decide (j = i)) as [->|Hne].
    + rewrite Hj in Hown. destruct (T !! i); [|done]. apply Hown.
    + rewrite HT in Hj by done. eapply frame_thread; eauto.
Qed.

(** ** Threads on their own *)

(** A thread that has nothing begins anew under a new timestamp. *)
Lemma begin_inv g s T i th t' : inv g s T → T !! i = Some th → rws (ttx th) = ∅ → wanted th = None →
  rws t' = ∅ → seen t' = ∅ → gc t' = gc (ttx th) → (∀ j th', T !! j = Some th' → j ≠ i → tts th' ≠ start_ts t') →
  inv g s (<[i := mkThread t' Idle]> T).
Proof.
  intros Hi Hth Hrws Hwant Hrws' Hseen Hgc Hts. pose proof (wanted_asked _ Hwant) as Hask.
  pose proof (i_thread _ _ _ _ Hi _ _ Hth) as [_ _ [_ _ Hn] _ Hret].
  assert (∀ l v, values s !! l = Some v → absent (wdl v) (tts th)) as Habs.
  { intros l v Hv. eapply Hn; [done| |by rewrite Hask]. rewrite Hrws. done. }
  assert (∀ l v, values s !! l = Some v → absent (wdl v) (start_ts t')) as Habs'.
  { intros l v Hv. destruct (i_lock _ _ _ _ Hi _ _ Hv) as [_ Hall].
    assert (∀ P : Prop, (start_ts t' ∈ owner_ts (WaitDieLock.owner_list (wdl v)) ∨ start_ts t' ∈ waiter_ts (wdl v)) → P) as Hno; [|split; intros ?; apply Hno; auto].
    intros P Hin. destruct (Hall _ Hin) as (j & th' & Hj & Heq). destruct (decide (j = i)) as [->|Hne]; [|by destruct (Hts _ _ Hj Hne)].
    simplify_eq. destruct (Habs _ _ Hv) as [? ?]. rewrite <- Heq in Hin. by destruct Hin. }
  destruct Hi as [H1 H2 H3 H4 H5 H6 H7 H8 H9 H10 H11]. split; try done.
  - intros l tk v Hl Hv. pose proof (H5 _ _ _ Hl Hv) as Hr. unfold row_ok in *. destruct (vrec v); [done|].
    destruct Hr as [? (j & th0 & e & Hj & He & ?)]. split; [done|]. exists j, th0, e. rewrite lookup_insert_ne; [done|]. intros <-. simplify_eq.
    by rewrite Hrws in He.
  - intros l v Hv. destruct (H9 l v Hv) as [? Hall]. split; [done|]. intros ts Hin. destruct (Hall ts Hin) as (j & th0 & Hj & <-).
    exists j, th0. rewrite lookup_insert_ne; [done|]. intros <-. simplify_eq. destruct (Habs _ _ Hv) as [? ?]. by destruct Hin.
  - intros j j' th0 th1 Hj Hj' Heq. apply lookup_insert_Some in Hj as [[<- <-]|[Hne Hj]], Hj' as [[<- <-]|[Hne' Hj']]; [done| | |by eapply H10].
    + exfalso. by eapply (Hts j').
    + exfalso. by eapply (Hts j).
  - intros j th0 Hj. apply lookup_insert_Some in Hj as [[<- <-]|[Hne Hj]]; [|auto]. split; simpl.
    + rewrite Hrws'. done.
    + done.
    + split; simpl; [by rewrite Hrws'|done|]. intros l v Hv _ _. by apply (Habs' l).
    + rewrite Hseen. done.
    + by rewrite Hgc.
Qed.

(** A thread's place in its program and the tables it has noted make no
    difference by themselves. *)
Lemma place_inv g s T i th th' : inv g s T → T !! i = Some th → start_ts (ttx th') = start_ts (ttx th) → rws (ttx th') = rws (ttx th) →
  gc (ttx th') = gc (ttx th) → seen (ttx th') = seen (ttx th) → asked th' = None → asked th = None → want_ok g th' →
  inv g s (<[i := th']> T).
Proof.
  intros Hi Hth Hts Hrws Hgc Hseen Ha' Ha Hw. pose proof (i_thread _ _ _ _ Hi _ _ Hth) as [E1 E2 [E3 E4 E5] E6 E7].
  destruct Hi as [H1 H2 H3 H4 H5 H6 H7 H8 H9 H10 H11]. split; try done.
  - intros l tk v Hl Hv. eapply row_ok_insert; [by apply H5|done|]. rewrite Hrws. eauto.
  - intros l v Hv. destruct (H9 l v Hv) as [? Hall]. split; [done|]. intros ts Hin. destruct (Hall ts Hin) as (j & th0 & Hj & <-).
    destruct (decide (j = i)) as [->|Hne]; [exists i, th'; rewrite lookup_insert_eq; by simplify_eq|].
    exists j, th0. by rewrite lookup_insert_ne.
  - intros j j' th0 th1 Hj Hj' Heq. apply lookup_insert_Some in Hj as [[<- <-]|[Hne Hj]], Hj' as [[<- <-]|[Hne' Hj']]; [done| | |by eapply H10];
      unfold tts in Heq; rewrite Hts in Heq; by eapply H10.
  - intros j th0 Hj. apply lookup_insert_Some in Hj as [[<- <-]|[Hne Hj]]; [|auto]. split; rewrite ?Hrws, ?Hgc, ?Hseen; try done.
    split; unfold tts; rewrite ?Hts, ?Hrws.
    + intros tk e v He _. eapply E3; [done|]. by rewrite Ha.
    + rewrite Ha'. done.
    + intros l v Hv Hno _. eapply E5; [done|done|]. by rewrite Ha.
Qed.

(** ** Reclamation *)

(** The values a collector frees are wanted by no thread. *)
Definition unwanted T s s' : Prop :=
  ∀ j th m tk l, T !! j = Some th → wanted th = Some (m, tk, l) → is_Some (values s !! l) → is_Some (values s' !! l).

Lemma drop_inv g s T i th (F : list loc) c : inv g s T → T !! i = Some th → wanted th = None →
  (∀ l, l ∈ F → ∃ tk, vown g !! l = Some (tk, Some i)) → (∀ j th m tk l, T !! j = Some th → wanted th = Some (m, tk, l) → l ∉ F) →
  NoDup (retired c) → (∀ l, l ∈ retired c → l ∈ retired (gc (ttx th)) ∧ l ∉ F) →
  inv (mkGhost (drop_recs (vown g) F) (rown g) (db g)) (mkStore (drop_recs (values s) F) (records s) (idx s))
    (<[i := mkThread (set_gc (ttx th) c) (tpc th)]> T).
Proof.
  intros Hi Hth Hwant HF Hfree Hnd Hc. set (th1 := mkThread (set_gc (ttx th) c) (tpc th)). pose proof (wanted_asked _ Hwant) as Hask.
  assert (∀ A (m : gmap loc A) l x, drop_recs m F !! l = Some x → m !! l = Some x) as Hsub.
  { intros A m l x. rewrite lookup_drop_recs. by case_decide. }
  assert (∀ A (m : gmap loc A) l, l ∉ F → drop_recs m F !! l = m !! l) as Hkeep.
  { intros A m l Hl. by rewrite lookup_drop_recs, decide_False. }
  assert (∀ l tk x, vown g !! l = Some (tk, x) → x ≠ Some i → l ∉ F) as HnF by (intros l tk x Hl Hx [tk' ?]%HF; congruence).
  pose proof Hi as [H1 H2 H3 H4 H5 H6 H7 H8 H9 H10 H11].
  assert (∀ j th0, T !! j = Some th0 → ∃ th', <[i := th1]> T !! j = Some th' ∧ tts th' = tts th0 ∧ rws (ttx th') = rws (ttx th0)) as Hsame.
  { intros j th0 Hj. destruct (decide (j = i)) as [->|Hne]; [exists th1; rewrite lookup_insert_eq; by simplify_eq|exists th0; by rewrite lookup_insert_ne]. }
  assert (∀ j th0, T !! j = Some th0 → ∀ c', NoDup (retired c') → (∀ l, l ∈ retired c' → ∃ tk, drop_recs (vown g) F !! l = Some (tk, Some j)) →
    thread_ok (mkGhost (drop_recs (vown g) F) (rown g) (db g)) (mkStore (drop_recs (values s) F) (records s) (idx s)) j (mkThread (set_gc (ttx th0) c') (tpc th0))) as Hthok.
  { intros j th0 Hj c' Hnd' Hc'. destruct (H11 _ _ Hj) as [E1 E2 [E3 E4 E5] E6 E7]. split; simpl.
    - intros tk e He. destruct (E1 _ _ He) as [D1 D2 D3]. split; simpl; [|done|].
      + rewrite Hkeep; [done|]. by eapply HnF.
      + intros v Hv%Hsub. by apply D3.
    - unfold want_ok, wanted in *. simpl. destruct (match tpc th0 with Idle => _ | _ => _ end) as [[[m tk] l]|] eqn:Hw; [|done].
      destruct E2 as [[x Hx] E2]. split; [|done]. exists x. rewrite Hkeep; [done|]. by eapply (Hfree j th0).
    - split; unfold asked in *; simpl; unfold tts in *; simpl.
      + intros tk e v He Ha Hv%Hsub. by eapply E3.
      + intros m tk l v Ha Hv%Hsub. by eapply E4.
      + intros l v Hv%Hsub Hno Hno'. by eapply E5.
    - done.
    - done. }
  split; simpl.
  - done.
  - intros tb k l Hw. rewrite H2 by done. rewrite lookup_drop_recs. case_decide as Hl; [|done]. destruct (HF _ Hl). split; [congruence|done].
  - intros l tk x Hl%Hsub. by eapply H3.
  - intros l. rewrite !lookup_drop_recs. case_decide; [by split; intros [? ?]|apply H4].
  - intros l tk v Hl%Hsub Hv%Hsub. pose proof (H5 _ _ _ Hl Hv) as Hr. unfold row_ok in *. simpl. destruct (vrec v); [done|].
    destruct Hr as [? (j & th0 & e & Hj & He & ?)]. split; [done|]. destruct (Hsame _ _ Hj) as (th' & ? & _ & Heq). exists j, th', e. by rewrite Heq.
  - intros l tk j v Hl%Hsub Hv%Hsub. by eapply H6.
  - intros tk b Hb. destruct (H7 _ _ Hb) as [l Hl]. exists l. rewrite Hkeep; [done|]. by eapply HnF.
  - done.
  - intros l v Hv%Hsub. destruct (H9 _ _ Hv) as [? Hall]. split; [done|]. intros ts Hts. destruct (Hall _ Hts) as (j & th0 & Hj & <-).
    destruct (Hsame _ _ Hj) as (th' & ? & ? & _). eauto.
  - intros j j' th0 th2 Hj Hj' Heq. apply lookup_insert_Some in Hj as [[<- <-]|[Hne Hj]], Hj' as [[<- <-]|[Hne' Hj']]; [done|by eapply H10..].
  - intros j th0 Hj. apply lookup_insert_Some in Hj as [[<- <-]|[Hne Hj]].
    + apply Hthok; [done..|]. intros l Hl. destruct (Hc _ Hl) as [Hl' Hn]. destruct (th_gc _ _ _ _ (H11 _ _ Hth)) as [_ Hg].
      destruct (Hg _ Hl') as [tk ?]. exists tk. by rewrite Hkeep.
    + destruct (th_gc _ _ _ _ (H11 _ _ Hj)) as [Hnd0 Hg].
      assert (th0 = mkThread (set_gc (ttx th0) (gc (ttx th0))) (tpc th0)) as -> by (by destruct th0 as [[] ?]).
      apply Hthok; [done..|]. intros l Hl. destruct (Hg _ Hl) as [tk ?]. exists tk. rewrite Hkeep; [done|]. eapply HnF; [done|]. congruence.
Qed.

Lemma destroy_inv g s T i th : inv g s T → T !! i = Some th → wanted th = None →
  ∃ c s', destroy (ttx th) s = Ok (c, s') ∧
    (unwanted T s s' → ∃ g', db g' = db g ∧ inv g' s' (<[i := mkThread (set_gc (ttx th) c) (tpc th)]> T)).
Proof.
  intros Hi Hth Hwant. unfold destroy. destruct (th_gc _ _ _ _ (i_thread _ _ _ _ Hi _ _ Hth)) as [Hnd Hdead].
  pose proof (remove_retired (gc (ttx th)) (smallest_ts (ttx th)) (largest_ts (ttx th))) as Hp.
  destruct (TimestampGC.remove _ _ _) as [F c]. simpl in Hp. rewrite <- Hp in Hnd. apply NoDup_app in Hnd as (HndF & Hdis & Hndc).
  assert (∀ l, l ∈ F.*2 → ∃ tk, vown g !! l = Some (tk, Some i)) as HF by (intros l Hl; apply Hdead; rewrite <- Hp; apply elem_of_app; by left).
  rewrite free_all_ok; [|done|intros l [tk Hl]%HF; by eapply wd_value_of]. simpl. eexists c, _. split; [done|]. intros Hun.
  exists (mkGhost (drop_recs (vown g) F.*2) (rown g) (db g)). split; [done|]. apply drop_inv; [done..| |done|].
  - intros j th0 m tk l Hj Hw Hl. destruct (HF _ Hl) as [tk' Hx]. pose proof (th_want _ _ _ _ (i_thread _ _ _ _ Hi _ _ Hj)) as Hwo.
    unfold want_ok in Hwo. rewrite Hw in Hwo. destruct Hwo as [[x Hx'] _]. destruct (wd_value_of _ _ _ _ _ _ Hi Hx') as [v Hv].
    destruct (Hun _ _ _ _ _ Hj Hw) as [u Hu]; [by eexists|]. simpl in Hu. by rewrite lookup_drop_recs, decide_True in Hu.
  - intros l Hl. split; [rewrite <- Hp; apply elem_of_app; by right|]. intros Hin. by eapply Hdis.
Qed.
End waitdie_steps.
