(* ===== verification/WaitDieCalls.v ===== *)
(** * WaitDie: the calls

    [safe]: a call that has run so far keeps the invariant, and goes on safely
    from any state it may find when it gets its next lock or is refused it.
    Every call of the protocol is safe. *)
From S2P Require Import Prelude Versions WaitDieLock WaitDieClaims Timestamp Index Memory WaitDie WaitDieInv WaitDieSteps.

Section waitdie_calls.
Import Memory WaitDie.
Context `{HI : Index loc} `{HL : !IndexLaws loc} (schema : gmap Z nat).
#[local] Existing Instance WaitDieLock.Operation_eq_dec.
Implicit Types (s : store) (t : tx) (i j : nat) (tk : Z * Z) (l : loc) (e : ReadWriteElement) (r : loc) (g : ghost) (th : thread) (T : gmap nat thread).
#[local] Abbreviation inv := (inv schema).

(** The scan stays within 64-bit keys and meets no row the transaction has
    removed. *)
Record scan_ok t (sc : scan) : Prop := {
  sc_cur : word64 (cur sc);
  sc_last : word64 (last sc);
  sc_size n : size sc = Some n → schema !! table sc = Some n;
  sc_rows key e : cur sc ≤ key < last sc → rws t !! (table sc, key) = Some e → rwt e ≠ DELETE
}.

(** The thread spins on [l] no longer. *)
Definition granted s l t : Prop := ∀ v, values s !! l = Some v → start_ts t ∉ waiter_ts (wdl v).
Definition key_free s (key : option (Z * Z)) : Prop := match key with Some k => idx_at (idx s) k.1 k.2 = None | None => True end.

Fixpoint safe i (d : gmap (Z * Z) block) T (p : prog) : Prop :=
  match p with
  | Done (Ok (r, t, s)) => (∃ g, db g = d ∧ inv g s (<[i := mkThread t (match r with More sc => Scanning sc | _ => Idle end)]> T)) ∧
      match r with More sc => scan_ok t sc | _ => True end
  | Done _ => False
  | Lock m tk l key t s k => (∃ g, db g = d ∧ inv g s (<[i := mkThread t (Wants m tk l key k)]> T)) ∧
      (∀ g' s' T', inv g' s' (<[i := mkThread t (Wants m tk l key k)]> T') → safe i (db g') T' (k false s')) ∧
      (∀ g' s' T', inv g' s' (<[i := mkThread t (Blocked m tk l key k)]> T') → granted s' l t → key_free s' key → safe i (db g') T' (k true s'))
  end.

(** What a thread that waits goes on with. *)
Definition cont_ok i m tk l key t (k : bool → store → prog) : Prop :=
  (∀ g' s' T', inv g' s' (<[i := mkThread t (Wants m tk l key k)]> T') → safe i (db g') T' (k false s')) ∧
  (∀ g' s' T', inv g' s' (<[i := mkThread t (Blocked m tk l key k)]> T') → granted s' l t → key_free s' key → safe i (db g') T' (k true s')).

(** ** Steps that several calls share *)

Lemma set_place g s T i th th' : inv g s (<[i := th]> T) → start_ts (ttx th') = start_ts (ttx th) → rws (ttx th') = rws (ttx th) →
  gc (ttx th') = gc (ttx th) → seen (ttx th') = seen (ttx th) → asked th' = None → asked th = None → want_ok g th' → inv g s (<[i := th']> T).
Proof. intros Hi. intros. rewrite <- (insert_insert_eq T i th' th). eapply place_inv; [done|by rewrite lookup_insert_eq|done..]. Qed.

Lemma ret_safe g s T i t p : inv g s (<[i := mkThread t Idle]> T) → safe i (db g) T (ret p t s).
Proof. intros Hi. split; [|done]. by exists g. Qed.

Lemma noted g s T i t tb : inv g s (<[i := mkThread t Idle]> T) → inv g s (<[i := mkThread (add_table t tb) Idle]> T).
Proof. intros Hi. by eapply set_place. Qed.

(** A thread asks for the lock of a row it does not have. *)
Lemma lock_safe g s T i t m tk l key k x : inv g s (<[i := mkThread t Idle]> T) → m = WaitDieLock.S ∨ m = WaitDieLock.E →
  rws t !! tk = None → vown g !! l = Some (tk, x) →
  (∀ g' s' T', inv g' s' (<[i := mkThread t Idle]> T') → safe i (db g') T' (k false s')) →
  (∀ g' s' T' v x k', inv g' s' (<[i := mkThread t (Blocked m tk l key k')]> T') → values s' !! l = Some v → vown g' !! l = Some (tk, x) →
    holds (wdl v) m (start_ts t) → key_free s' key → safe i (db g') T' (k true s')) →
  safe i (db g) T (Lock m tk l key t s k).
Proof.
  intros Hi Hm Hnone Hl Hno Hyes. split; [|split].
  - exists g. split; [done|]. eapply set_place; [exact Hi|done..|]. split; [by exists x|]. destruct Hm as [-> | ->]; done.
  - intros g' s' T' Hi'. apply Hno. by eapply set_place.
  - intros g' s' T' Hi' Hgr Hkey. pose proof (i_thread _ _ _ _ Hi' i _ ltac:(by rewrite lookup_insert_eq)) as [_ [[x' Hx'] _] [_ Ha _] _ _].
    destruct (wd_value_of _ _ _ _ _ _ Hi' Hx') as [v Hv]. eapply Hyes; [done..| |done].
    pose proof (pending_granted _ _ _ (Ha m tk l v eq_refl Hv) (Hgr _ Hv)) as Hh. destruct Hm as [-> | ->]; done.
Qed.

(** A thread asks for the upgrade of the lock of a row it has read. *)
Lemma upgrade_safe g s T i t tk e key k : inv g s (<[i := mkThread t Idle]> T) → rws t !! tk = Some e → rwt e = READ →
  (∀ g' s' T', inv g' s' (<[i := mkThread t Idle]> T') → safe i (db g') T' (k false s')) →
  (∀ g' s' T' v k', inv g' s' (<[i := mkThread t (Blocked WaitDieLock.U tk (val e) key k')]> T') → values s' !! val e = Some v →
    vown g' !! val e = Some (tk, None) → holds (wdl v) WaitDieLock.E (start_ts t) → key_free s' key → safe i (db g') T' (k true s')) →
  safe i (db g) T (Lock WaitDieLock.U tk (val e) key t s k).
Proof.
  intros Hi He Hrd Hno Hyes. split; [|split].
  - exists g. split; [done|]. pose proof (i_thread _ _ _ _ Hi i _ ltac:(by rewrite lookup_insert_eq)) as [E1 _ _ _ _].
    destruct (E1 _ _ He) as [Hlive _ _]. eapply set_place; [exact Hi|done..|]. split; [by exists None|]. by exists e.
  - intros g' s' T' Hi'. apply Hno. by eapply set_place.
  - intros g' s' T' Hi' Hgr Hkey. pose proof (i_thread _ _ _ _ Hi' i _ ltac:(by rewrite lookup_insert_eq)) as [E1 _ [_ Ha _] _ _].
    destruct (E1 _ _ He) as [Hlive _ _]. destruct (wd_value_of _ _ _ _ _ _ Hi' Hlive) as [v Hv]. eapply Hyes; [done..| |done].
    apply (pending_granted _ _ _ (Ha _ tk (val e) v eq_refl Hv) (Hgr _ Hv)).
Qed.

(** A granted lock is given back. *)
Lemma back_safe g s T i t m tk l key k v (f : WaitDieLock.t → Z → outcome (WaitDieLock.t * list Z)) (next : store → prog) :
  inv g s (<[i := mkThread t (Blocked m tk l key k)]> T) →
  m = WaitDieLock.S ∧ f = WaitDieLock.unlock_shared ∨ m = WaitDieLock.E ∧ f = WaitDieLock.unlock →
  values s !! l = Some v → holds (wdl v) m (start_ts t) →
  (∀ s', inv g s' (<[i := mkThread t Idle]> T) → safe i (db g) T (next s')) →
  safe i (db g) T (lift (release f t s l) next).
Proof.
  intros Hi Hm Hv Hh Hnext. destruct (give_back_ok schema g s _ i t m tk l key k v Idle f Hi) as (w & q & _ & -> & Hi');
    [by rewrite lookup_insert_eq|done..|by destruct Hm as [[-> _]|[-> _]]|]. rewrite insert_insert_eq in Hi'. by apply Hnext.
Qed.

(** The record of a row that is not detached. *)
Lemma record_of g s T i th tk l x v : inv g s (<[i := th]> T) → values s !! l = Some v → vown g !! l = Some (tk, x) →
  is_detached_from_tree v = false → x = None ∧ ∃ r b, vrec v = Some r ∧ rown g !! r = Some (tk.1, Row l) ∧ records s !! r = Some b ∧ db g !! tk = Some b.
Proof.
  intros Hi Hv Hl Hd. unfold is_detached_from_tree in Hd. apply bool_decide_eq_false_1 in Hd. destruct x as [j|]; [by destruct Hd; eapply i_dead|].
  split; [done|]. pose proof (i_row _ _ _ _ Hi _ _ _ Hl Hv) as Hr. unfold row_ok in Hr. destruct (vrec v) as [r|]; [|done].
  destruct Hr as [? (b & ? & ?)]. eauto 6.
Qed.

Lemma fresh_unowned g s T : inv g s T → rown g !! fresh (dom (records s)) = None.
Proof.
  intros Hi. destruct (rown g !! _) as [[tb o]|] eqn:Hr; [|done]. destruct (i_rec _ _ _ _ Hi _ _ _ Hr) as (b & Hb & _).
  by rewrite allocate_fresh in Hb.
Qed.

Lemma copy_ok g s T r tb o b n : inv g s T → rown g !! r = Some (tb, o) → schema !! tb = Some n → records s !! r = Some b →
  copy_record s (Some r) n = Ok (fresh (dom (records s)), set_records s (<[fresh (dom (records s)) := b]> (records s))).
Proof.
  intros Hi Hr Hn Hb. destruct (i_rec _ _ _ _ Hi _ _ _ Hr) as (b' & Hb' & Hn'). assert (n = length b) as -> by congruence.
  unfold copy_record, allocate, aligned_allocate. cbn [records set_records].
  assert (fresh (dom (records s)) ≠ r) as Hne by (intros Heq; pose proof (allocate_fresh (records s)); congruence).
  rewrite (memcpy_block _ _ r b (replicate (length b) None)); [|by rewrite lookup_insert_ne|by rewrite lookup_insert_eq|by rewrite length_replicate].
  simpl. by rewrite insert_insert_eq.
Qed.

(** The local record of a row, new or replaced. *)
Definition local_rown g i tk r : gmap loc (Z * owner) := <[r := (tk.1, Local i tk)]> (rown g).

Lemma local_recs g s T i tk r b : inv g s T → schema !! tk.1 = Some (length b) →
  ∀ r' tb o, local_rown g i tk r !! r' = Some (tb, o) → ∃ b', <[r := b]> (records s) !! r' = Some b' ∧ schema !! tb = Some (length b').
Proof.
  unfold local_rown. intros Hi Hsz r' tb o [[<- [= <- <-]]|[Hne Hr']]%lookup_insert_Some; [exists b; by rewrite lookup_insert_eq|].
  rewrite lookup_insert_ne by done. by eapply i_rec.
Qed.

Lemma local_others g s T i tk r b : inv g s T → rown g !! r = None →
  ∀ r' tb o, rown g !! r' = Some (tb, o) → o ≠ Local i tk → local_rown g i tk r !! r' = Some (tb, o) ∧ <[r := b]> (records s) !! r' = records s !! r'.
Proof. intros Hi Hr r' tb o Hr' _. assert (r' ≠ r) by congruence. unfold local_rown. by rewrite !lookup_insert_ne. Qed.

(** A row enters the read/write set of a thread that has its lock. *)
Lemma enter_inv g s T i th l tk v rown' recs' th' e : inv g s (<[i := th]> T) → vown g !! l = Some (tk, None) → values s !! l = Some v →
  tts th' = tts th → gc (ttx th') = gc (ttx th) → wanted th' = None → (∀ m tk' l', asked th = Some (m, tk', l') → l' = l ∧ tk' = tk) →
  rws (ttx th') = <[tk := e]> (rws (ttx th)) → val e = l → holds (wdl v) (mode e) (tts th) → (is_new e = true ↔ vrec v = None) →
  match rwt e with
  | READ => rec e = None ∧ is_new e = false
  | DELETE => rec e = None
  | UPDATE | INSERT => ∃ r, rec e = Some r ∧ rown' !! r = Some (tk.1, Local i tk)
  end →
  (∀ r tb o, rown' !! r = Some (tb, o) → ∃ b, recs' !! r = Some b ∧ schema !! tb = Some (length b)) →
  (∀ r tb o, rown g !! r = Some (tb, o) → o ≠ Local i tk → rown' !! r = Some (tb, o) ∧ recs' !! r = records s !! r) →
  (∀ tk' b, seen (ttx th') !! tk' = Some b → is_Some (rws (ttx th') !! tk') ∧ db g !! tk' = Some b) →
  inv (mkGhost (vown g) rown' (db g)) (set_records s recs') (<[i := th']> T).
Proof. intros Hi Hl Hv. intros. rewrite <- (insert_insert_eq T i th' th). eapply (entry_inv schema Hi (lookup_insert_eq _ _ _) Hl Hv); eauto. Qed.

(** The read/write set afterwards: as before, or with an entry for the row
    that does not delete it. *)
Definition grows t tk t' : Prop := rws t' = rws t ∨ ∃ e, rwt e ≠ DELETE ∧ rws t' = <[tk := e]> (rws t).

(** A continuation of an access to a row. *)
Definition next_ok i t tk (next : access → tx → store → prog) : Prop :=
  ∀ a g s T t', inv g s (<[i := mkThread t' Idle]> T) → grows t tk t' → safe i (db g) T (next a t' s).

Lemma see_ok g s T i th tk l v r b t' e : inv g s (<[i := th]> T) → vrec v = Some r → records s !! r = Some b → db g !! tk = Some b →
  ttx th = t' → values s !! l = Some v → ∀ m tk' b', records s ⊆ m →
  seen (see (put t' tk e) tk (bytes (set_records s m) (vrec v))) !! tk' = Some b' →
  is_Some (rws (put t' tk e) !! tk') ∧ db g !! tk' = Some b'.
Proof.
  intros Hi Hr Hb Hd <- Hv m tk' b' Hm. unfold bytes. rewrite Hr. simpl. rewrite (lookup_weaken _ _ _ _ Hb Hm). simpl.
  destruct (decide (tk' = tk)) as [->|Hne]; [rewrite !lookup_insert_eq; intros [= <-]; by split|]. rewrite !lookup_insert_ne by done.
  intros Hs. by apply (th_seen _ _ _ _ (i_thread _ _ _ _ Hi i _ ltac:(by rewrite lookup_insert_eq))).
Qed.

Lemma read_absent_safe g s T i t tk l x next : inv g s (<[i := mkThread t Idle]> T) → rws t !! tk = None → vown g !! l = Some (tk, x) →
  next_ok i t tk next → safe i (db g) T (read_absent t s tk l next).
Proof.
  intros Hi Hnone Hl Hnext. eapply lock_safe; [done|by left|done..| |].
  - intros g' s' T' Hi'. apply Hnext; [done|by left].
  - intros g' s' T' v x' k' Hi' Hv Hl' Hh _. cbn beta iota. rewrite Hv. cbn [deref lift].
    destruct (is_detached_from_tree v) eqn:Hd.
    { eapply back_safe; [done|by left|done..|]. intros s2 Hi2. apply Hnext; [done|by left]. }
    destruct (record_of _ _ _ _ _ _ _ _ _ Hi' Hv Hl' Hd) as (-> & r & b & Hr & Ho & Hb & Hdb).
    change (db g') with (db (mkGhost (vown g') (rown g') (db g'))). assert (s' = set_records s' (records s')) as Hs by (by destruct s'). rewrite Hs at 2.
    apply Hnext; [|right; by eexists (mkElem None READ false l)].
    eapply enter_inv with (e := mkElem None READ false l); [exact Hi'|exact Hl'|exact Hv|..]; try done.
    + simpl. by intros m tk' l' [= <- <- <-].
    + by rewrite Hr.
    + by apply (i_rec _ _ _ _ Hi').
    + intros tk' b'. rewrite Hs. eapply see_ok; done.
Qed.

Lemma update_absent_safe g s T i t tk l x n next : inv g s (<[i := mkThread t Idle]> T) → rws t !! tk = None → vown g !! l = Some (tk, x) →
  schema !! tk.1 = Some n → next_ok i t tk next → safe i (db g) T (update_absent t s tk l n next).
Proof.
  intros Hi Hnone Hl Hn Hnext. eapply lock_safe; [done|by right|done..| |].
  - intros g' s' T' Hi'. apply Hnext; [done|by left].
  - intros g' s' T' v x' k' Hi' Hv Hl' Hh _. cbn beta iota. rewrite Hv. cbn [deref lift].
    destruct (is_detached_from_tree v) eqn:Hd.
    { eapply back_safe; [done|by right|done..|]. intros s2 Hi2. apply Hnext; [done|by left]. }
    destruct (record_of _ _ _ _ _ _ _ _ _ Hi' Hv Hl' Hd) as (-> & r & b & Hr & Ho & Hb & Hdb). rewrite Hr at 1.
    rewrite (copy_ok _ _ _ _ _ _ _ _ Hi' Ho Hn Hb). cbn [lift]. pose proof (fresh_unowned _ _ _ Hi') as Hfr.
    set (r' := fresh (dom (records s'))) in *. destruct (i_rec _ _ _ _ Hi' _ _ _ Ho) as (b' & Hb' & Hsz). assert (b' = b) as -> by congruence.
    change (db g') with (db (mkGhost (vown g') (local_rown g' i tk r') (db g'))).
    apply Hnext; [|right; by eexists (mkElem (Some r') UPDATE false l)].
    eapply enter_inv with (e := mkElem (Some r') UPDATE false l); [exact Hi'|exact Hl'|exact Hv|..]; try done.
    + simpl. by intros m tk' l' [= <- <- <-].
    + by rewrite Hr.
    + exists r'. split; [done|]. unfold local_rown. by rewrite lookup_insert_eq.
    + by eapply local_recs.
    + by eapply local_others.
    + intros tk' b''. eapply see_ok; try done. apply insert_subseteq. apply allocate_fresh.
Qed.

(** A row that was read keeps what was seen of it. *)
Lemma seen_kept g s T i th tk e e' : inv g s (<[i := th]> T) → rws (ttx th) !! tk = Some e →
  ∀ tk' b, seen (put (ttx th) tk e') !! tk' = Some b → is_Some (rws (put (ttx th) tk e') !! tk') ∧ db g !! tk' = Some b.
Proof.
  intros Hi He tk' b Hs. pose proof (i_thread _ _ _ _ Hi i _ ltac:(by rewrite lookup_insert_eq)) as [_ _ _ E4 _]. destruct (E4 _ _ Hs) as [? ?].
  split; [|done]. simpl. destruct (decide (tk' = tk)) as [->|]; [rewrite lookup_insert_eq; by eexists|by rewrite lookup_insert_ne].
Qed.

Lemma own_new g s T i th tk e v : inv g s (<[i := th]> T) → rws (ttx th) !! tk = Some e → values s !! val e = Some v → (is_new e = true ↔ vrec v = None).
Proof. intros Hi He Hv. by apply (th_entry _ _ _ _ (i_thread _ _ _ _ Hi i _ ltac:(by rewrite lookup_insert_eq)) _ _ He). Qed.

Lemma read_entry g s T i th tk e : inv g s (<[i := th]> T) → rws (ttx th) !! tk = Some e → rwt e = READ → rec e = None ∧ is_new e = false.
Proof. intros Hi He Hrd. destruct (th_entry _ _ _ _ (i_thread _ _ _ _ Hi i _ ltac:(by rewrite lookup_insert_eq)) _ _ He) as [_ Hrec _]. by rewrite Hrd in Hrec. Qed.

Lemma update_read_safe g s T i t tk e n next : inv g s (<[i := mkThread t Idle]> T) → rws t !! tk = Some e → rwt e = READ →
  schema !! tk.1 = Some n → next_ok i t tk next → safe i (db g) T (update_read t s tk e n next).
Proof.
  intros Hi He Hrd Hn Hnext. eapply upgrade_safe; [done..| |].
  - intros g' s' T' Hi'. apply Hnext; [done|by left].
  - intros g' s' T' v k' Hi' Hv Hl' Hh _. cbn beta iota. unfold load_rec. rewrite Hv. cbn [deref mbind outcome_bind lift].
    destruct (read_entry _ _ _ _ _ _ _ Hi' He Hrd) as [_ Hnew]. pose proof (own_new _ _ _ _ _ _ _ _ Hi' He Hv) as Hnv. rewrite Hnew in Hnv.
    assert (is_detached_from_tree v = false) as Hd by (apply bool_decide_eq_false_2; by intros ?%Hnv).
    destruct (record_of _ _ _ _ _ _ _ _ _ Hi' Hv Hl' Hd) as (_ & r & b & Hr & Ho & Hb & Hdb). rewrite Hr at 1.
    rewrite (copy_ok _ _ _ _ _ _ _ _ Hi' Ho Hn Hb). cbn [lift]. pose proof (fresh_unowned _ _ _ Hi') as Hfr.
    set (r' := fresh (dom (records s'))) in *. destruct (i_rec _ _ _ _ Hi' _ _ _ Ho) as (b' & Hb' & Hsz). assert (b' = b) as -> by congruence.
    change (db g') with (db (mkGhost (vown g') (local_rown g' i tk r') (db g'))).
    apply Hnext; [|right; by eexists (mkElem (Some r') UPDATE (is_new e) (val e))].
    eapply enter_inv with (e := mkElem (Some r') UPDATE (is_new e) (val e)); [exact Hi'|exact Hl'|exact Hv|..]; try done.
    + simpl. by intros m tk' l' [= <- <- <-].
    + simpl. by rewrite Hnew.
    + exists r'. split; [done|]. unfold local_rown. by rewrite lookup_insert_eq.
    + by eapply local_recs.
    + by eapply local_others.
    + by eapply (seen_kept _ _ _ _ (mkThread t _)).
Qed.

Lemma remove_absent_safe g s T i t tk l x : inv g s (<[i := mkThread t Idle]> T) → rws t !! tk = None → vown g !! l = Some (tk, x) →
  safe i (db g) T (remove_absent t s tk l).
Proof.
  intros Hi Hnone Hl. eapply lock_safe; [done|by right|done..|intros; by apply ret_safe|].
  intros g' s' T' v x' k' Hi' Hv Hl' Hh _. cbn beta iota. rewrite Hv. cbn [deref lift]. destruct (is_detached_from_tree v) eqn:Hd.
  { eapply back_safe; [done|by right|done..|]. intros s2 Hi2. by apply ret_safe. }
  destruct (record_of _ _ _ _ _ _ _ _ _ Hi' Hv Hl' Hd) as (-> & r & b & Hr & Ho & Hb & Hdb).
  change (db g') with (db (mkGhost (vown g') (rown g') (db g'))). assert (s' = set_records s' (records s')) as Hs by (by destruct s'). rewrite Hs at 2.
  apply ret_safe. eapply enter_inv with (e := mkElem None DELETE false l); [exact Hi'|exact Hl'|exact Hv|..]; try done.
  - simpl. by intros m tk' l' [= <- <- <-].
  - by rewrite Hr.
  - by apply (i_rec _ _ _ _ Hi').
  - intros tk' b'. rewrite Hs. eapply see_ok; done.
Qed.

Lemma remove_read_safe g s T i t tk e : inv g s (<[i := mkThread t Idle]> T) → rws t !! tk = Some e → rwt e = READ →
  safe i (db g) T (remove_read t s tk e).
Proof.
  intros Hi He Hrd. eapply upgrade_safe; [done..|intros; by apply ret_safe|].
  intros g' s' T' v k' Hi' Hv Hl' Hh _. cbn beta iota. unfold load_rec. rewrite Hv. cbn [deref mbind outcome_bind lift].
  destruct (read_entry _ _ _ _ _ _ _ Hi' He Hrd) as [Hrec _].
  change (db g') with (db (mkGhost (vown g') (rown g') (db g'))). assert (s' = set_records s' (records s')) as Hs by (by destruct s'). rewrite Hs at 1.
  apply ret_safe. eapply enter_inv with (e := mkElem (rec e) DELETE (is_new e) (val e)); [exact Hi'|exact Hl'|exact Hv|..]; try done.
  - simpl. by intros m tk' l' [= <- <- <-].
  - by eapply own_new in Hv; [|exact Hi'|done].
  - by apply (i_rec _ _ _ _ Hi').
  - by eapply (seen_kept _ _ _ _ (mkThread t _)).
Qed.

(** *** Rows the transaction has written *)
Section own.
Context {g : ghost} {s : store} {T : gmap nat thread} {i : nat} {t : tx} {tk : Z * Z} {e : ReadWriteElement}.
Context (Hi : inv g s (<[i := mkThread t Idle]> T)) (He : rws t !! tk = Some e).

Lemma wd_own_row : ∃ v, vown g !! val e = Some (tk, None) ∧ values s !! val e = Some v ∧ holds (wdl v) (mode e) (start_ts t) ∧ (is_new e = true ↔ vrec v = None).
Proof.
  pose proof (i_thread _ _ _ _ Hi i _ ltac:(by rewrite lookup_insert_eq)) as [E1 _ [E2 _ _] _ _]. destruct (E1 _ _ He) as [Hl _ Hn].
  destruct (wd_value_of _ _ _ _ _ _ Hi Hl) as [v Hv]. exists v. split_and!; [done|done|by eapply E2|by apply Hn].
Qed.

Lemma written_mode e' : rwt e ≠ READ → rwt e' ≠ READ → mode e' = mode e.
Proof. intros H1 H2. unfold mode. by rewrite !decide_False. Qed.

Lemma revive_safe n : rwt e = DELETE → schema !! tk.1 = Some n → safe i (db g) T (revive t s tk e n).
Proof.
  intros Hd Hn. destruct wd_own_row as (v & Hl & Hv & Hh & Hnew). unfold revive, allocate, aligned_allocate.
  pose proof (fresh_unowned _ _ _ Hi) as Hfr. set (r' := fresh (dom (records s))) in *.
  change (db g) with (db (mkGhost (vown g) (local_rown g i tk r') (db g))). apply ret_safe.
  eapply enter_inv with (e := mkElem (Some r') UPDATE (is_new e) (val e)); [exact Hi|exact Hl|exact Hv|..]; try done.
  - rewrite (written_mode (mkElem (Some r') UPDATE (is_new e) (val e))); [done|by rewrite Hd|done].
  - exists r'. split; [done|]. unfold local_rown. by rewrite lookup_insert_eq.
  - eapply local_recs; [done|]. by rewrite length_replicate.
  - by eapply local_others.
  - by eapply (seen_kept _ _ _ _ (mkThread t _)).
Qed.

(** The local record of a written row is freed. *)
Lemma free_local : rwt e = UPDATE ∨ rwt e = INSERT → ∃ r, rec e = Some r ∧ free s (rec e) = Ok (set_records s (delete r (records s))) ∧
  (∀ r' tb o, delete r (rown g) !! r' = Some (tb, o) → ∃ b, delete r (records s) !! r' = Some b ∧ schema !! tb = Some (length b)) ∧
  (∀ r' tb o, rown g !! r' = Some (tb, o) → o ≠ Local i tk → delete r (rown g) !! r' = Some (tb, o) ∧ delete r (records s) !! r' = records s !! r').
Proof.
  intros Hw. pose proof (i_thread _ _ _ _ Hi i _ ltac:(by rewrite lookup_insert_eq)) as [E1 _ _ _ _]. destruct (E1 _ _ He) as [_ Hrec _].
  assert (∃ r, rec e = Some r ∧ rown g !! r = Some (tk.1, Local i tk)) as (r & Hr & Ho) by (destruct Hw as [Hw|Hw]; by rewrite Hw in Hrec).
  exists r. split; [done|]. destruct (i_rec _ _ _ _ Hi _ _ _ Ho) as (b & Hb & _). unfold free, deallocate. rewrite Hr, Hb. split; [done|]. split.
  - intros r' tb o [Hne Hr']%lookup_delete_Some. rewrite lookup_delete_ne by done. by eapply i_rec.
  - intros r' tb o Hr' Hne. assert (r ≠ r') by congruence. by rewrite !lookup_delete_ne.
Qed.

Lemma remove_written_safe : rwt e = UPDATE ∨ rwt e = INSERT →
  safe i (db g) T (lift (free s (rec e)) (λ s, lift (load_rec s (val e)) (λ p, ret p (put t tk (mkElem None DELETE (is_new e) (val e))) s))).
Proof.
  intros Hw. destruct wd_own_row as (v & Hl & Hv & Hh & Hnew). destruct (free_local Hw) as (r & Hr & Hf & Hrecs & Hoth). rewrite Hf. cbn [lift].
  unfold load_rec. cbn [values set_records]. rewrite Hv. cbn [deref mbind outcome_bind lift].
  change (db g) with (db (mkGhost (vown g) (delete r (rown g)) (db g))). apply ret_safe.
  eapply enter_inv with (e := mkElem None DELETE (is_new e) (val e)); [exact Hi|exact Hl|exact Hv|..]; try done.
  - rewrite (written_mode (mkElem None DELETE (is_new e) (val e))); [done| |done]. destruct Hw as [-> | ->]; done.
  - by eapply (seen_kept _ _ _ _ (mkThread t _)).
Qed.
End own.

(** *** Insertion *)

(** The lock of a value its creator has locked. *)
Definition own_lock (ts : Z) : WaitDieLock.t := WaitDieLock.mk [] (WaitDieLock.mkOwners WaitDieLock.E [(ts, ())]).

Lemma own_lock_ok ts : WaitDieLock.lock_ok (own_lock ts) ∧ holds (own_lock ts) WaitDieLock.E ts ∧ ∀ ts', ts' ≠ ts → absent (own_lock ts) ts'.
Proof.
  split_and!.
  - split; [split|..]; simpl; try done; try (intros ? ?%not_elem_of_nil; done). all: repeat constructor.
  - split_and!; [done| |apply not_elem_of_nil]. by left.
  - intros ts' Hne. split; [|apply not_elem_of_nil]. unfold owner_ts. simpl. by intros ?%list_elem_of_singleton.
Qed.

(** A thread inserts a value of its own. *)
Lemma insert_inv g s T i t tk l (i' : index (V := loc)) r n : inv g s (<[i := mkThread t Idle]> T) → word64 tk.2 → idx_at (idx s) tk.1 tk.2 = None →
  values s !! l = None → index_ok i' → rws t !! tk = None → schema !! tk.1 = Some n → r = fresh (dom (records s)) →
  (∀ tb k, word64 k → idx_at i' tb k = if decide (tb = tk.1 ∧ k = tk.2) then Some l else idx_at (idx s) tb k) →
  inv (mkGhost (<[l := (tk, None)]> (vown g)) (local_rown g i tk r) (db g))
    (mkStore (<[l := mkValue (own_lock (start_ts t)) None]> (values s)) (<[r := replicate n None]> (records s)) i')
    (<[i := mkThread (put t tk (mkElem (Some r) INSERT true l)) Idle]> T).
Proof.
  intros Hi Hw Hnone Hl Hi' Hrws Hn -> Hat. pose proof (fresh_unowned _ _ _ Hi) as Hfr. set (r := fresh (dom (records s))) in *.
  set (th := mkThread t Idle) in *. set (e := mkElem _ _ _ _). set (th' := mkThread _ _). destruct (own_lock_ok (start_ts t)) as (Hlok & Hh & Habs).
  assert (<[i := th]> T !! i = Some th) as Hth by apply lookup_insert_eq.
  assert (vown g !! l = None) as Hvn by (destruct (vown g !! l) eqn:Hx; [destruct (wd_value_of _ _ _ _ _ _ Hi Hx); congruence|done]).
  assert (db g !! tk = None) as Hdn.
  { destruct (db g !! tk) eqn:Hd; [|done]. destruct (i_db _ _ _ _ Hi _ _ Hd) as [l' Hl']. destruct tk. apply (i_bind _ _ _ _ Hi) in Hl'; [|done]. simpl in *. congruence. }
  rewrite <- (insert_insert_eq T i th' th). pose proof (i_thread _ _ _ _ Hi _ _ Hth) as [E1 _ [E2 _ E3] E4 [E5 E6]].
  eapply (add_inv schema g s (<[i := th]> T) i (start_ts t)); [done|done|done|done|done|done|done|done| | |done| | | |]; cbn [wdl].
  - intros r' [tb o] Hr'. assert (r' ≠ r) by congruence. unfold local_rown. by rewrite !lookup_insert_ne.
  - eapply local_recs; [done|]. by rewrite length_replicate.
  - unfold row_ok. cbn [vrec]. split; [done|]. exists i, th', e. rewrite !lookup_insert_eq. by simpl; rewrite lookup_insert_eq.
  - intros j Hj. by rewrite lookup_insert_ne.
  - intros j th0 Hj Hne Heq. apply Hne. eapply i_ts; [exact Hi|exact Hj|exact Hth|done].
  - rewrite Hth, lookup_insert_eq. split_and!; [done|done| |].
    { intros tk' Hne. simpl. by rewrite lookup_insert_ne. }
    assert (∀ tk' e', rws (ttx th') !! tk' = Some e' → (tk' = tk ∧ e' = e) ∨ (tk' ≠ tk ∧ rws t !! tk' = Some e' ∧ val e' ≠ l)) as Hcase.
    { simpl. intros tk' e' [[-> <-]|[Hne He']]%lookup_insert_Some; [by left|right]. split_and!; [done..|]. intros <-.
      destruct (E1 _ _ He') as [? _ _]. congruence. }
    split.
    + intros tk' e' [[-> ->]|(Hne & He' & Hnl)]%Hcase.
      * split; simpl; [by rewrite lookup_insert_eq| |]; [|rewrite lookup_insert_eq; by intros v [= <-]].
        exists r. split; [done|]. unfold local_rown. by rewrite lookup_insert_eq.
      * destruct (E1 _ _ He') as [D1 D2 D3]. split; simpl; [by rewrite lookup_insert_ne| |by rewrite lookup_insert_ne].
        destruct (rwt e'); try done; destruct D2 as (r' & ? & Hr'); exists r'; (split; [done|]); unfold local_rown; rewrite lookup_insert_ne; [done|congruence|done|congruence].
    + done.
    + split; cbn [values].
      * intros tk' e' v [[-> ->]|(Hne & He' & Hnl)]%Hcase _; simpl; [rewrite lookup_insert_eq; by intros [= <-]|].
        rewrite lookup_insert_ne by done. intros Hv. by eapply E2.
      * done.
      * intros l' v Hv Hno _. destruct (decide (l' = l)) as [->|Hne].
        { exfalso. eapply (Hno tk e); [|done]. simpl. by rewrite lookup_insert_eq. }
        rewrite lookup_insert_ne in Hv by done. eapply E3; [done| |done]. intros tk' e' He'. apply (Hno tk'). simpl. rewrite lookup_insert_ne; [done|].
        simpl in He'. congruence.
    + intros tk' b Hb. destruct (E4 _ _ Hb) as [Hs ?]. split; [|done]. simpl in *. rewrite lookup_insert_ne; [done|]. intros <-. rewrite Hrws in Hs. by destruct Hs.
    + split; [done|]. intros l' Hl'. destruct (E6 _ Hl') as [tk' ?]. exists tk'. simpl. rewrite lookup_insert_ne; [done|]. congruence.
Qed.

Lemma insert_before_safe g s T i t tb key nk nl x n : inv g s (<[i := mkThread t Idle]> T) → word64 key → rws t !! (tb, key) = None →
  rws t !! (tb, nk) = None → vown g !! nl = Some ((tb, nk), x) → schema !! tb = Some n →
  safe i (db g) T (insert_before t s tb key nk nl n).
Proof.
  intros Hi Hw Hnone Hnext Hl Hn. unfold insert_before, lock_next. rewrite Hnext.
  eapply lock_safe; [done|by right|done..|intros; by apply ret_safe|].
  intros g' s' T' v x' k' Hi' Hv Hl' Hh Hkey. cbn beta iota. simpl in Hkey.
  destruct (give_back_ok schema g' s' _ i t WaitDieLock.E (tb, nk) nl (Some (tb, key)) k' v Idle WaitDieLock.unlock Hi') as (w & q & Hu & _ & Hi2);
    [by rewrite lookup_insert_eq|done|by right|done..|]. rewrite insert_insert_eq in Hi2.
  unfold insert_new_record. set (new := fresh (dom (values s'))). assert (values s' !! new = None) as Hnew by apply not_elem_of_dom, is_fresh.
  assert (new ≠ nl) as Hne by congruence.
  change (WaitDieLock.try_lock WaitDieLock.new (start_ts t)) with (Ok (WaitDieLock.Acquired, own_lock (start_ts t))). cbn [mbind outcome_bind idx set_value].
  destruct (insert_absent (idx s') tb key new (i_index _ _ _ _ Hi') Hw Hkey) as (i' & -> & Hok & Hat).
  unfold unlock, release. cbn [values set_idx set_value]. rewrite lookup_insert_ne, Hv by done. cbn [deref mbind outcome_bind]. rewrite Hu. cbn [mbind outcome_bind].
  unfold allocate, aligned_allocate. cbn [records set_records set_idx set_value values idx]. simpl. split; [|done].
  unfold set_records, set_value, set_idx. cbn [values records idx]. rewrite (insert_insert_ne _ nl new) by done.
  eexists. split; [|eapply (insert_inv _ _ _ _ _ (tb, key) new i' _ n Hi2); try done]; [done|].
  cbn [values set_value]. by rewrite lookup_insert_ne.
Qed.

(** ** The calls *)

Lemma finish_safe i t tk : next_ok i t tk finish.
Proof. intros [| |p] g s T t' Hi _; by apply ret_safe. Qed.

(** What the index finds is a row. *)
Lemma found_row g s T tb key l : inv g s T → word64 key → idx_at (idx s) tb key = Some l → vown g !! l = Some ((tb, key), None).
Proof. intros Hi Hw Hat. by apply (i_bind _ _ _ _ Hi). Qed.

(** A row in the read/write set is read from its value. *)
Lemma load_own g s T i t tk e : inv g s (<[i := mkThread t Idle]> T) → rws t !! tk = Some e → ∃ p, load_rec s (val e) = Ok p.
Proof. intros Hi He. destruct (wd_own_row Hi He) as (v & _ & Hv & _). exists (vrec v). unfold load_rec. by rewrite Hv. Qed.

Lemma read_safe g s T i t tb key : inv g s (<[i := mkThread t Idle]> T) → word64 key → safe i (db g) T (read t s tb key).
Proof.
  intros Hi%(noted _ _ _ _ _ tb) Hw. unfold read. destruct (rws _ !! _) as [e|] eqn:He.
  - destruct (rwt e); try by apply ret_safe. destruct (load_own _ _ _ _ _ _ _ Hi He) as [p ->]. by apply ret_safe.
  - rewrite find_result. destruct (idx_at (idx s) tb key) as [l|] eqn:Hat; [|by apply ret_safe].
    eapply read_absent_safe; [done..|by eapply found_row|apply finish_safe].
Qed.

Lemma update_safe g s T i t tb key : inv g s (<[i := mkThread t Idle]> T) → word64 key → is_Some (schema !! tb) →
  safe i (db g) T (update schema t s tb key).
Proof.
  intros Hi%(noted _ _ _ _ _ tb) Hw [n Hn]. unfold update, get_record_size. rewrite Hn. cbn [deref lift]. destruct (rws _ !! _) as [e|] eqn:He.
  - destruct (rwt e) eqn:Hr; try by apply ret_safe. eapply update_read_safe; [done..|apply finish_safe].
  - rewrite find_result. destruct (idx_at (idx s) tb key) as [l|] eqn:Hat; [|by apply ret_safe].
    eapply update_absent_safe; [done..|by eapply found_row|done|apply finish_safe].
Qed.

Lemma remove_safe g s T i t tb key : inv g s (<[i := mkThread t Idle]> T) → word64 key → safe i (db g) T (remove t s tb key).
Proof.
  intros Hi%(noted _ _ _ _ _ tb) Hw. unfold remove. destruct (rws _ !! _) as [e|] eqn:He.
  - destruct (rwt e) eqn:Hr; [by apply remove_read_safe|apply remove_written_safe; auto..|by apply ret_safe].
  - rewrite find_result. destruct (idx_at (idx s) tb key) as [l|] eqn:Hat; [|by apply ret_safe].
    eapply remove_absent_safe; [done..|by eapply found_row].
Qed.

(** The key after the one to be inserted is there, and the transaction has
    not accessed it. *)
Definition next_free t s (tb key : Z) : Prop :=
  match idx_get_next_kv (idx s) tb key with (OK, Some (nk, _)) => rws t !! (tb, nk) = None | _ => False end.
(** It need not be when the key itself is there. *)
Definition room t s (tb key : Z) : Prop :=
  is_Some (rws t !! (tb, key)) ∨ is_Some (idx_at (idx s) tb key) ∨ next_free t s tb key.

Lemma next_row_of g s T t tb key : inv g s T → word64 key → next_free t s tb key →
  ∃ nk nl, idx_get_next_kv (idx s) tb key = (OK, Some (nk, nl)) ∧ rws t !! (tb, nk) = None ∧ nk ≠ 0 ∧ vown g !! nl = Some ((tb, nk), None).
Proof.
  unfold next_free. destruct (idx_get_next_kv (idx s) tb key) as [[] [[nk nl]|]] eqn:Hnext; try done. intros Hi Hw Hnone.
  exists nk, nl. split; [done|]. split; [done|].
  destruct (next_result (idx s) tb key (i_index _ _ _ _ Hi) Hw) as (all & [_ Hall] & Heq). rewrite Hnext in Heq. injection Heq as Heq.
  destruct all as [|x all]; [done|]. injection Heq as <-. destruct (proj1 (Hall nk nl)) as [Hr Hat]; [by left|].
  unfold word64 in Hw. split; [lia|]. eapply found_row; [done| |done]. unfold word64. lia.
Qed.

Lemma insert_safe g s T i t tb key : inv g s (<[i := mkThread t Idle]> T) → word64 key → is_Some (schema !! tb) →
  room t s tb key → safe i (db g) T (insert schema t s tb key).
Proof.
  intros Hi%(noted _ _ _ _ _ tb) Hw [n Hn] Hnext. unfold insert, get_record_size. rewrite Hn. cbn [deref lift]. destruct (rws _ !! _) as [e|] eqn:He.
  - destruct (rwt e) eqn:Hr; try by apply ret_safe. by apply revive_safe.
  - rewrite find_result. destruct (idx_at (idx s) tb key) as [l|] eqn:Hat; [by apply ret_safe|].
    destruct Hnext as [[? ?]|[[? ?]|Hnext]]; [simpl in He; congruence..|].
    destruct (next_row_of _ _ _ _ _ _ Hi Hw Hnext) as (nk & nl & -> & Hnone & Hnk & Hl). cbn [deref lift].
    rewrite (proj2 (Z.eqb_neq nk 0) Hnk). cbn [negb assert_ lift]. by eapply insert_before_safe.
Qed.

Lemma upsert_safe g s T i t tb key : inv g s (<[i := mkThread t Idle]> T) → word64 key → is_Some (schema !! tb) →
  room t s tb key → safe i (db g) T (upsert schema t s tb key).
Proof.
  intros Hi%(noted _ _ _ _ _ tb) Hw [n Hn] Hnext. unfold upsert, get_record_size. rewrite Hn. cbn [deref lift]. destruct (rws _ !! _) as [e|] eqn:He.
  - destruct (rwt e) eqn:Hr; try by apply ret_safe.
    + eapply update_read_safe; [done..|apply finish_safe].
    + by apply revive_safe.
  - rewrite find_result. destruct (idx_at (idx s) tb key) as [l|] eqn:Hat.
    + eapply update_absent_safe; [done..|by eapply found_row|done|apply finish_safe].
    + destruct Hnext as [[? ?]|[[? ?]|Hnext]]; [simpl in He; congruence..|].
      destruct (next_row_of _ _ _ _ _ _ Hi Hw Hnext) as (nk & nl & -> & Hnone & Hnk & Hl). cbn [deref lift]. by eapply insert_before_safe.
Qed.

(** *** Scans *)

Lemma next_row_spec g s T t sc key l : inv g s T → scan_ok t sc → next_row s sc = Some (key, l) →
  cur sc ≤ key < last sc ∧ vown g !! l = Some ((table sc, key), None).
Proof.
  intros Hi [Hc Hl _ _] Hrow. unfold next_row in Hrow.
  destruct (range_result (idx s) (table sc) (cur sc) (last sc) 1 (i_index _ _ _ _ Hi) Hc Hl) as (all & [_ Hall] & Heq).
  rewrite Heq in Hrow. simpl in Hrow. assert ((key, l) ∈ all) as [Hr Hat]%Hall.
  { destruct all as [|x all]; [done|]. simpl in Hrow. injection Hrow as ->. by left. }
  split; [done|]. eapply found_row; [done| |done]. unfold word64 in *. lia.
Qed.

(** The scan goes on after the row. *)
Lemma scan_on g s T i t t' sc key kr : scan_ok t sc → cur sc ≤ key < last sc → grows t (table sc, key) t' → inv g s (<[i := mkThread t' Idle]> T) →
  let sc' := mkScan (table sc) (key + 1) (last sc) (limit sc) (size sc) kr in
  safe i (db g) T (Done (Ok (More sc', t', s))).
Proof.
  intros [Hc Hl Hz Hrows] Hk Hg Hi sc'. split; [exists g; split; [done|]; by eapply set_place|]. split; simpl; [|done|done|].
  - unfold word64 in *. lia.
  - intros k e Hke. assert (rws t' !! (table sc, k) = rws t !! (table sc, k)) as ->.
    { destruct Hg as [->|(e0 & _ & ->)]; [done|]. rewrite lookup_insert_ne; [done|]. intros [= ->]. lia. }
    apply Hrows. lia.
Qed.

Lemma finish_row_safe i t sc key : scan_ok t sc → cur sc ≤ key < last sc → next_ok i t (table sc, key) (finish_row sc key).
Proof.
  intros Hsc Hk a g s T t' Hi Hg. assert (∀ b kr, safe i (db g) T (Done (Ok (Scanned b kr, t', s)))) as Hend by (intros b kr; split; [by exists g|done]).
  destruct a; [apply Hend|by eapply scan_on|]. unfold finish_row, collect_row. destruct (negb _ && _); [apply Hend|by eapply scan_on].
Qed.

Lemma scan_row_safe g s T i t sc : inv g s (<[i := mkThread t (Scanning sc)]> T) → scan_ok t sc → safe i (db g) T (scan_row sc t s).
Proof.
  intros Hi0 Hsc. assert (inv g s (<[i := mkThread t Idle]> T)) as Hi by (by eapply set_place).
  unfold scan_row. destruct (next_row s sc) as [[key l]|] eqn:Hrow; [|split; [by exists g|done]].
  destruct (next_row_spec _ _ _ _ _ _ _ Hi Hsc Hrow) as [Hk Hl]. pose proof (finish_row_safe i t sc key Hsc Hk) as Hfin.
  assert (grows t (table sc, key) t) as Hsame by (by left). unfold read_row, update_row.
  destruct (size sc) as [n|] eqn:Hz; destruct (rws t !! _) as [e|] eqn:He.
  - pose proof (sc_rows _ _ Hsc _ _ Hk He) as Hd. pose proof (sc_size _ _ Hsc _ Hz) as Hn. destruct (rwt e) eqn:Hr; [by apply update_read_safe|by apply Hfin..|done].
  - pose proof (sc_size _ _ Hsc _ Hz) as Hn. by eapply update_absent_safe.
  - pose proof (sc_rows _ _ Hsc _ _ Hk He) as Hd. destruct (rwt e); [|by apply Hfin..|done].
    destruct (load_own _ _ _ _ _ _ _ Hi He) as [p ->]. by apply Hfin.
  - by eapply read_absent_safe.
Qed.

Lemma start_scan_safe g s T i t sc : inv g s (<[i := mkThread t Idle]> T) → scan_ok t sc → safe i (db g) T (Done (Ok (More sc, add_table t (table sc), s))).
Proof. intros Hi [H1 H2 H3 H4]. split; [exists g; split; [done|]; by eapply set_place|by split]. Qed.
End waitdie_calls.
