(* ===== verification/WaitDieCommit.v ===== *)
(** * WaitDie: commit and abort

    Entry by entry: a lock is released, a record installed, a row removed or
    a new row taken back.  Commit turns the database into the one its write
    set describes; abort leaves it as it was; both end with no lock held. *)
From S2P Require Import Prelude Versions WaitDieLock WaitDieClaims Timestamp Index Memory WaitDie WaitDieInv WaitDieSteps WaitDieCalls.

Section waitdie_commit.
Import Memory WaitDie.
Context `{HI : Index loc} `{HL : !IndexLaws loc} (schema : gmap Z nat).
#[local] Existing Instance WaitDieLock.Operation_eq_dec.
Implicit Types (s : store) (t : tx) (i j : nat) (tk : Z * Z) (l : loc) (e : ReadWriteElement) (r : loc) (g : ghost) (th : thread) (T : gmap nat thread).
#[local] Abbreviation inv := (inv schema).

(** What the transactions of one thread share. *)
Record agrees t t' : Prop := {
  ag_ts : start_ts t' = start_ts t;
  ag_small : smallest_ts t' = smallest_ts t;
  ag_large : largest_ts t' = largest_ts t;
  ag_gc : gc t' = gc t
}.

Lemma agrees_refl t : agrees t t.
Proof. by split. Qed.

(** The transaction after one of its rows is done with. *)
Definition leave t tk : tx := mkTx (start_ts t) (smallest_ts t) (largest_ts t) (tables t) (delete tk (rws t)) (gc t) ∅.

(** A record that may be there is freed. *)
Definition forget {A} (m : gmap loc A) (p : Ptr) : gmap loc A := match p with Some r => delete r m | None => m end.

Lemma lookup_forget {A} (m : gmap loc A) p r : p ≠ Some r → forget m p !! r = m !! r.
Proof. destruct p; [|done]. intros Hne. simpl. rewrite lookup_delete_ne; [done|]. congruence. Qed.

Lemma lookup_forget_Some {A} (m : gmap loc A) p r x : forget m p !! r = Some x → m !! r = Some x ∧ p ≠ Some r.
Proof. destruct p as [r'|]; [|done]. simpl. intros [? ?]%lookup_delete_Some. split; [done|]. congruence. Qed.

Lemma free_ok s p : (∀ r, p = Some r → is_Some (records s !! r)) → free s p = Ok (set_records s (forget (records s) p)).
Proof.
  intros Hp. unfold free, deallocate. destruct p as [r|]; [|done]. destruct (Hp r eq_refl) as [b ->]. done.
Qed.

Section row.
Context {g : ghost} {s : store} {T : gmap nat thread} {i : nat} {t t' : tx} {tk : Z * Z} {e : ReadWriteElement}.
Context (Hi : inv g s (<[i := mkThread t' Idle]> T)) (He : rws t' !! tk = Some e) (Ha : agrees t t').

Lemma leave_agrees : agrees t (leave t' tk).
Proof. by destruct Ha. Qed.

(** The lock of the row can be released. *)
Lemma own_unlock : ∃ v w q, values s !! val e = Some v ∧ vown g !! val e = Some (tk, None) ∧ holds (wdl v) (mode e) (start_ts t') ∧
  (is_new e = true ↔ vrec v = None) ∧
  (if decide (rwt e = READ) then WaitDieLock.unlock_shared else WaitDieLock.unlock) (wdl v) (start_ts t) = Ok (w, q) ∧
  unlocked (wdl v) (start_ts t') w.
Proof.
  destruct (wd_own_row _ Hi He) as (v & Hl & Hv & Hh & Hn). exists v. destruct (i_lock _ _ _ _ Hi _ _ Hv) as [Hlok _]. rewrite <- (ag_ts _ _ Ha).
  unfold mode in *. destruct (decide (rwt e = READ)).
  - destruct (unlock_shared_unlocked _ _ Hlok Hh) as (w & q & ? & ?). by exists w, q.
  - destruct (unlock_unlocked _ _ Hlok Hh) as (w & q & ? & ?). by exists w, q.
Qed.

Lemma place_of : <[i := mkThread t' Idle]> T !! i = Some (mkThread t' Idle).
Proof. apply lookup_insert_eq. Qed.

Lemma after_leave g' s' t2 : inv g' s' (<[i := mkThread t2 Idle]> (<[i := mkThread t' Idle]> T)) → inv g' s' (<[i := mkThread t2 Idle]> T).
Proof. by rewrite insert_insert_eq. Qed.

(** The record of a row that is not new. *)
Lemma wd_old_record v : values s !! val e = Some v → vown g !! val e = Some (tk, None) → is_new e = false → (is_new e = true ↔ vrec v = None) →
  ∃ r b, vrec v = Some r ∧ rown g !! r = Some (tk.1, Row (val e)) ∧ records s !! r = Some b ∧ db g !! tk = Some b.
Proof.
  intros Hv Hl Hn Hnew. rewrite Hn in Hnew. eapply (record_of schema); [exact Hi|done|done|]. apply bool_decide_eq_false_2. by intros ?%Hnew.
Qed.

(** A row that was not written is left as it is; [p] is its local record. *)
Lemma leave_row p : is_new e = false → match rwt e with READ | DELETE => p = None | _ => p = rec e end →
  ∃ w q v, values s !! val e = Some v ∧
    (if decide (rwt e = READ) then WaitDieLock.unlock_shared else WaitDieLock.unlock) (wdl v) (start_ts t) = Ok (w, q) ∧
    inv (mkGhost (vown g) (forget (rown g) p) (db g)) (mkStore (<[val e := mkValue w (vrec v)]> (values s)) (forget (records s) p) (idx s))
      (<[i := mkThread (leave t' tk) Idle]> T).
Proof.
  intros Hnew Hp. destruct own_unlock as (v & w & q & Hv & Hl & Hh & Hn & Hu & Hul). exists w, q, v. split; [done|]. split; [done|].
  destruct (wd_old_record v Hv Hl Hnew Hn) as (r & b & Hr & Ho & Hb & Hd). rewrite Hr. apply after_leave.
  assert (∀ r', p = Some r' → rown g !! r' = Some (tk.1, Local i tk)) as Hloc.
  { intros r' ->. pose proof (th_entry _ _ _ _ (i_thread _ _ _ _ Hi _ _ place_of) _ _ He) as [_ Hrec _].
    destruct (rwt e); try done; destruct Hrec as (? & ? & ?); congruence. }
  assert (p ≠ Some r) as Hpr by (intros ?%Hloc; congruence).
  eapply (leave_inv schema Hi place_of Hl Hv false); try done.
  - intros r' tb o [Hr' Hne]%lookup_forget_Some. rewrite lookup_forget by done. by eapply i_rec.
  - intros r' tb o Hr' Hne _. rewrite !lookup_forget; [done|..]; intros ?%Hloc; congruence.
  - by rewrite lookup_forget.
  - exists b. by rewrite lookup_forget.
Qed.

(** A row leaves the index, with its record and [p], its local record. *)
Lemma drop_row p v w : rwt e ≠ READ → match rwt e with DELETE => p = None | _ => p = rec e end → values s !! val e = Some v → unlocked (wdl v) (start_ts t') w →
  inv (mkGhost (<[val e := (tk, Some i)]> (vown g)) (forget (forget (rown g) p) (vrec v)) (delete tk (db g)))
    (mkStore (<[val e := mkValue w None]> (values s)) (forget (forget (records s) p) (vrec v)) (idx_remove (idx s) tk.1 tk.2).2)
    (<[i := mkThread (leave (retire t' (val e)) tk) Idle]> T).
Proof.
  intros Hw Hp Hv Hul. destruct (wd_own_row _ Hi He) as (v' & Hl & Hv' & Hh & Hn). rewrite Hv in Hv'. injection Hv' as <-.
  assert (∀ r', p = Some r' → rown g !! r' = Some (tk.1, Local i tk)) as Hloc.
  { intros r' ->. pose proof (th_entry _ _ _ _ (i_thread _ _ _ _ Hi _ _ place_of) _ _ He) as [_ Hrec _].
    destruct (rwt e); try done; destruct Hrec as (? & ? & ?); congruence. }
  assert (∀ r', vrec v = Some r' → rown g !! r' = Some (tk.1, Row (val e))) as Hrow.
  { intros r' Hr'. pose proof (i_row _ _ _ _ Hi _ _ _ Hl Hv) as Hro. unfold row_ok in Hro. rewrite Hr' in Hro. apply Hro. }
  apply after_leave. eapply (retire_inv schema _ _ _ _ (mkThread t' Idle)); try done.
  - apply place_of.
  - unfold mode in Hh. by rewrite decide_False in Hh.
  - apply collect_retired.
  - intros r' tb o [[Hr' Hne]%lookup_forget_Some Hne']%lookup_forget_Some. rewrite !lookup_forget by done. by eapply i_rec.
  - intros r' tb o Hr' Hne Hne'. rewrite !lookup_forget; [done|..]; try (intros ?%Hloc; congruence); intros ?%Hrow; congruence.
Qed.

(** ** Commit, entry by entry *)

(** The records of the other rows the thread has written. *)
Definition keeps_local s' : Prop :=
  ∀ tk' e' r, tk' ≠ tk → rws t' !! tk' = Some e' → rwt e' ≠ READ → rec e' = Some r → records s' !! r = records s !! r.

Lemma local_of tk' e' r : rws t' !! tk' = Some e' → rwt e' ≠ READ → rec e' = Some r → rown g !! r = Some (tk'.1, Local i tk').
Proof.
  intros He' Hr' Hr. pose proof (th_entry _ _ _ _ (i_thread _ _ _ _ Hi _ _ place_of) _ _ He') as [_ Hrec _].
  destruct (rwt e'); try done; try congruence; destruct Hrec as (? & ? & ?); congruence.
Qed.

Lemma exchange_ok : rwt e = UPDATE ∨ rwt e = INSERT →
  ∃ r b s' g', rec e = Some r ∧ records s !! r = Some b ∧ exchange_record t s (val e) (rec e) = Ok s' ∧ db g' = <[tk := b]> (db g) ∧
    inv g' s' (<[i := mkThread (leave t' tk) Idle]> T) ∧ keeps_local s'.
Proof.
  intros Hw. destruct own_unlock as (v & w & q & Hv & Hl & Hh & Hn & Hu & Hul).
  assert (rwt e ≠ READ) as Hnr by (destruct Hw as [-> | ->]; done). unfold mode in Hh. rewrite decide_False in Hu by done. rewrite decide_False in Hh by done.
  pose proof (th_entry _ _ _ _ (i_thread _ _ _ _ Hi _ _ place_of) _ _ He) as [_ Hrec _].
  assert (∃ r, rec e = Some r ∧ rown g !! r = Some (tk.1, Local i tk)) as (r & Hr & Ho) by (destruct Hw as [Hw|Hw]; by rewrite Hw in Hrec).
  destruct (i_rec _ _ _ _ Hi _ _ _ Ho) as (b & Hb & Hsz).
  assert (∀ r', vrec v = Some r' → rown g !! r' = Some (tk.1, Row (val e))) as Hrow.
  { intros r' Hr'. pose proof (i_row _ _ _ _ Hi _ _ _ Hl Hv) as Hro. unfold row_ok in Hro. rewrite Hr' in Hro. apply Hro. }
  assert (vrec v ≠ Some r) as Hvr by (intros ?%Hrow; congruence).
  unfold exchange_record, unlock, release. rewrite Hv. cbn [deref mbind outcome_bind values set_value]. rewrite lookup_insert_eq. cbn [deref mbind outcome_bind wdl].
  rewrite Hu. cbn [mbind outcome_bind]. rewrite free_ok; [|cbn [records set_value]; intros r' (b' & ? & _)%Hrow%(i_rec _ _ _ _ Hi); by exists b'].
  unfold set_value, set_records. cbn [values records idx wdl vrec]. rewrite insert_insert_eq, Hr.
  eexists r, b, _, (mkGhost (vown g) (<[r := (tk.1, Row (val e))]> (forget (rown g) (vrec v))) (<[tk := b]> (db g))).
  do 4 (split; [done|]). split; [apply after_leave; eapply (leave_inv schema Hi place_of Hl Hv true)|]; try done.
  - intros r' tb o [[<- [= <- <-]]|[Hne [Hr' Hne']%lookup_forget_Some]]%lookup_insert_Some; [exists b; by rewrite lookup_forget|].
    rewrite lookup_forget by done. by eapply i_rec.
  - intros r' tb o Hr' Hne Hne'. specialize (Hne' eq_refl). assert (r ≠ r') by congruence. assert (vrec v ≠ Some r') by (intros ?%Hrow; congruence).
    rewrite lookup_insert_ne, !lookup_forget by done. done.
  - intros tk' Hne. by rewrite lookup_insert_ne.
  - by rewrite lookup_insert_eq.
  - exists b. rewrite lookup_forget by done. by rewrite lookup_insert_eq.
  - intros tk' e' r' Hne He' Hr' Hre. simpl. rewrite lookup_forget; [done|]. intros ?%Hrow. pose proof (local_of _ _ _ He' Hr' Hre). congruence.
Qed.

Lemma delete_ok : rwt e = DELETE →
  ∃ s' g', exchange_record t (set_idx s (idx_remove (idx s) tk.1 tk.2).2) (val e) None = Ok s' ∧ db g' = delete tk (db g) ∧
    inv g' s' (<[i := mkThread (leave (retire t' (val e)) tk) Idle]> T) ∧ keeps_local s'.
Proof.
  intros Hw. destruct own_unlock as (v & w & q & Hv & Hl & Hh & Hn & Hu & Hul).
  assert (rwt e ≠ READ) as Hnr by (by rewrite Hw). rewrite decide_False in Hu by done.
  assert (∀ r', vrec v = Some r' → rown g !! r' = Some (tk.1, Row (val e))) as Hrow.
  { intros r' Hr'. pose proof (i_row _ _ _ _ Hi _ _ _ Hl Hv) as Hro. unfold row_ok in Hro. rewrite Hr' in Hro. apply Hro. }
  unfold exchange_record, unlock, release. cbn [values set_idx]. rewrite Hv. cbn [deref mbind outcome_bind values set_value]. rewrite lookup_insert_eq. cbn [deref mbind outcome_bind wdl].
  rewrite Hu. cbn [mbind outcome_bind]. rewrite free_ok; [|cbn [records set_value set_idx]; intros r' (b' & ? & _)%Hrow%(i_rec _ _ _ _ Hi); by exists b'].
  unfold set_value, set_records, set_idx. cbn [values records idx wdl vrec]. rewrite insert_insert_eq.
  eexists _, (mkGhost _ _ _). split; [done|]. split; [|split; [apply (drop_row None v w Hnr)|]]; try done; [by rewrite Hw|].
  intros tk' e' r' Hne He' Hr' Hre. simpl. rewrite lookup_forget; [done|]. intros ?%Hrow. pose proof (local_of _ _ _ He' Hr' Hre). congruence.
Qed.

(** ** Abort, entry by entry *)

(** The local record of an entry. *)
Definition local_rec : Ptr := match rwt e with READ | DELETE => None | _ => rec e end.

Lemma undo_release t0 s0 v w q : start_ts t0 = start_ts t → values s0 = values s → records s0 = records s → values s !! val e = Some v →
  (if decide (rwt e = READ) then WaitDieLock.unlock_shared else WaitDieLock.unlock) (wdl v) (start_ts t) = Ok (w, q) →
  match rwt e with
  | READ => unlock_shared t0 s0 (val e)
  | UPDATE | INSERT => s1 ← free s0 (rec e); unlock t0 s1 (val e)
  | DELETE => unlock t0 s0 (val e)
  end = Ok (mkStore (<[val e := mkValue w (vrec v)]> (values s)) (forget (records s) local_rec) (idx s0)).
Proof.
  intros Hag Hvs Hrs Hv Hu. pose proof (λ r, local_of tk e r He) as Hloc. unfold local_rec, unlock, unlock_shared, release in *. rewrite Hag.
  destruct (rwt e) eqn:Hr; rewrite ?decide_True in Hu by done; rewrite ?decide_False in Hu by done.
  2,3: rewrite free_ok; [|rewrite Hrs; intros r (b & ? & _)%Hloc%(i_rec _ _ _ _ Hi); [by exists b|done]].
  all: cbn [mbind outcome_bind values set_records]; rewrite Hvs, Hv; cbn [deref mbind outcome_bind]; rewrite Hu; cbn [mbind outcome_bind].
  all: unfold set_value, set_records; cbn [values records idx]; by rewrite ?Hvs, ?Hrs.
Qed.

Lemma wd_undo_entry_ok : ∃ t1 t1' s' g', undo_entry t s tk e = Ok (t1, s') ∧ agrees t1 t1' ∧ rws t1' = delete tk (rws t') ∧ db g' = db g ∧
  inv g' s' (<[i := mkThread t1' Idle]> T).
Proof.
  destruct own_unlock as (v & w & q & Hv & Hl & Hh & Hn & Hu & Hul). unfold undo_entry. destruct (is_new e) eqn:Hnew.
  - assert (rwt e ≠ READ) as Hnr.
    { intros Hr. destruct (read_entry schema _ _ _ _ _ _ _ Hi He Hr) as [_ ?]. congruence. }
    assert (vrec v = None) as Hvn by (by apply Hn). rewrite (undo_release _ _ v w q) by done.
    pose proof (i_row _ _ _ _ Hi _ _ _ Hl Hv) as Hro. unfold row_ok in Hro. rewrite Hvn in Hro. destruct Hro as [Hdn _].
    pose proof (drop_row local_rec v w Hnr ltac:(unfold local_rec; by destruct (rwt e)) Hv Hul) as Hinv. rewrite Hvn in *. cbn [forget] in Hinv.
    eexists _, _, _, _. split; [done|]. split; [|split; [|split; [|exact Hinv]]]; [|done|].
    + destruct Ha as [H1 H2 H3 H4]. split; simpl; [done..|]. by rewrite H3, H4.
    + simpl. by apply delete_id.
  - destruct (leave_row local_rec Hnew) as (w' & q' & v' & Hv' & Hu' & Hinv); [unfold local_rec; by destruct (rwt e)|]. simplify_eq.
    rewrite (undo_release _ _ v w' q') by done. eexists _, _, _, _. split; [done|]. split; [apply leave_agrees|]. split; [|split; [|exact Hinv]]; done.
Qed.
End row.

(** ** The loops *)

Implicit Types order rest : list entry.

(** The rows an iteration has not come to. *)
Lemma rest_cons t tk e rest : NoDup (((tk, e) :: rest).*1) → rws t = list_to_map ((tk, e) :: rest) →
  rws t !! tk = Some e ∧ delete tk (rws t) = list_to_map rest ∧ NoDup rest.*1 ∧ ∀ x, x ∈ rest → x.1 ≠ tk.
Proof.
  csimpl. intros [Hni Hnd]%NoDup_cons ->. rewrite lookup_insert_eq. split; [done|]. split; [|split; [done|]].
  - apply delete_insert_id. by apply not_elem_of_list_to_map_1.
  - intros x Hx <-. apply Hni. by apply list_elem_of_fmap_2.
Qed.

Lemma wd_unlock_reads_ok g s T i t t' order rest : (∀ x, x ∈ order → rwt x.2 = READ) → NoDup (order ++ rest).*1 → rws t' = list_to_map (order ++ rest) →
  agrees t t' → inv g s (<[i := mkThread t' Idle]> T) →
  ∃ s' t2, unlock_reads t s order = Ok s' ∧ records s' = records s ∧ rws t2 = list_to_map rest ∧ agrees t t2 ∧ inv g s' (<[i := mkThread t2 Idle]> T).
Proof.
  revert s t'. induction order as [|[tk e] order IH]; intros s t' Hrd Hnd Hrws Ha Hi; [by exists s, t'|].
  destruct (rest_cons _ _ _ _ Hnd Hrws) as (He & Hdel & Hnd' & _). pose proof (Hrd (tk, e) ltac:(by left)) as Hr. simpl in Hr.
  destruct (read_entry schema _ _ _ _ _ _ _ Hi He Hr) as [_ Hnew]. destruct (leave_row Hi He Ha None Hnew) as (w & q & v & Hv & Hu & Hinv); [by rewrite Hr|].
  rewrite decide_True in Hu by done. simpl. rewrite decide_True by done. unfold unlock_shared, release. rewrite Hv. cbn [deref mbind outcome_bind]. rewrite Hu.
  cbn [mbind outcome_bind]. destruct g as [vo ro d]. cbn [vown rown db forget] in Hinv.
  fold (order ++ rest) in *. destruct (IH _ (leave t' tk) (λ x Hx, Hrd x (list_elem_of_further _ _ _ Hx)) Hnd' Hdel (leave_agrees (tk := tk) Ha) Hinv) as (s' & t2 & Heq & Hrec & ?).
  exists s', t2. split; [exact Heq|]. by rewrite Hrec.
Qed.

(** The database a write set describes. *)
Definition install (m : heap) (d : gmap (Z * Z) block) (x : entry) : gmap (Z * Z) block :=
  match rwt x.2 with
  | READ => d
  | UPDATE | INSERT => match rec x.2 ≫= (m !!.) with Some b => <[x.1 := b]> d | None => d end
  | DELETE => delete x.1 d
  end.
Definition install_all (m : heap) (d : gmap (Z * Z) block) order : gmap (Z * Z) block := foldl (install m) d order.

Lemma install_all_ext m m' d order : (∀ x r, x ∈ order → rwt x.2 ≠ READ → rec x.2 = Some r → m' !! r = m !! r) →
  install_all m' d order = install_all m d order.
Proof.
  revert d. induction order as [|x order IH]; intros d Hm; [done|]. simpl.
  assert (install m' d x = install m d x) as ->.
  { unfold install. destruct (rwt x.2) eqn:Hr; try done; destruct (rec x.2) as [r|] eqn:Hrec; try done; simpl; by rewrite (Hm x r ltac:(by left) ltac:(by rewrite Hr) Hrec). }
  apply IH. intros y r Hy. apply Hm. by right.
Qed.

Lemma wd_apply_writes_ok g s T i t t' order : (∀ x, x ∈ order → rwt x.2 ≠ READ) → NoDup order.*1 → rws t' = list_to_map order →
  agrees t t' → inv g s (<[i := mkThread t' Idle]> T) →
  ∃ t1 s' g' t2, apply_writes t s order = Ok (t1, s') ∧ rws t2 = ∅ ∧ agrees t1 t2 ∧ db g' = install_all (records s) (db g) order ∧
    inv g' s' (<[i := mkThread t2 Idle]> T).
Proof.
  revert g s t t'. induction order as [|[tk e] order IH]; intros g s t t' Hwr Hnd Hrws Ha Hi; [by exists t, s, g, t'|].
  destruct (rest_cons _ _ _ _ Hnd Hrws) as (He & Hdel & Hnd' & Hneq). pose proof (Hwr (tk, e) ltac:(by left)) as Hr. simpl in Hr.
  assert (∀ g1 s1 t0 t1', keeps_local (s := s) (t' := t') (tk := tk) s1 → rws t1' = delete tk (rws t') → agrees t0 t1' → inv g1 s1 (<[i := mkThread t1' Idle]> T) →
    ∃ t1 s' g' t2, apply_writes t0 s1 order = Ok (t1, s') ∧ rws t2 = ∅ ∧ agrees t1 t2 ∧ db g' = install_all (records s) (db g1) order ∧
      inv g' s' (<[i := mkThread t2 Idle]> T)) as Hgo.
  { intros g1 s1 t0 t1' Hkeep Hrw Hag Hi1. destruct (IH g1 s1 t0 t1' (λ x Hx, Hwr x (list_elem_of_further _ _ _ Hx)) Hnd' (eq_trans Hrw Hdel) Hag Hi1)
      as (t1 & s' & g' & t2 & Heq & ? & ? & Hdb & ?). exists t1, s', g', t2. split_and!; try done. rewrite Hdb. apply install_all_ext.
    intros [tk' e'] r Hx Hr' Hrec. apply (Hkeep tk' e' r); [by apply (Hneq _ Hx)| |done|done]. rewrite Hrws. apply elem_of_list_to_map_1; [done|by right]. }
  unfold install_all. cbn [foldl]. unfold install at 2. cbn [fst snd apply_writes]. destruct tk as [tb key].
  destruct (rwt e) eqn:Hrw; [done|..].
  1,2: destruct (exchange_ok Hi He Ha) as (r & b & s1 & g1 & Hrec & Hb & -> & Hdb & Hi1 & Hkeep); [auto|];
    rewrite Hrec; simpl; rewrite Hb; simpl; rewrite <- Hdb; eapply Hgo; [exact Hkeep|..|exact Hi1]; [done|by apply leave_agrees].
  destruct (delete_ok Hi He Ha Hrw) as (s1 & g1 & Heq & Hdb & Hi1 & Hkeep). cbn [fst snd] in Heq. rewrite Heq. cbn [mbind outcome_bind].
  rewrite <- Hdb. eapply Hgo; [exact Hkeep|..|exact Hi1]; [done|]. destruct Ha as [H1 H2 H3 H4]. split; simpl; [done..|]. by rewrite H3, H4.
Qed.

Lemma wd_undo_ok g s T i t t' order : NoDup order.*1 → rws t' = list_to_map order → agrees t t' → inv g s (<[i := mkThread t' Idle]> T) →
  ∃ t1 s' g' t2, undo t s order = Ok (t1, s') ∧ rws t2 = ∅ ∧ agrees t1 t2 ∧ db g' = db g ∧ inv g' s' (<[i := mkThread t2 Idle]> T).
Proof.
  revert g s t t'. induction order as [|[tk e] order IH]; intros g s t t' Hnd Hrws Ha Hi; [by exists t, s, g, t'|].
  destruct (rest_cons _ _ _ _ Hnd Hrws) as (He & Hdel & Hnd' & _). cbn [undo].
  destruct (wd_undo_entry_ok Hi He Ha) as (t1 & t1' & s1 & g1 & -> & Ha1 & Hrw & Hdb & Hi1). cbn [mbind outcome_bind].
  destruct (IH g1 s1 t1 t1' Hnd' (eq_trans Hrw Hdel) Ha1 Hi1) as (t2 & s' & g' & t2' & ? & ? & ? & Hd & ?). exists t2, s', g', t2'. by rewrite Hd, Hdb.
Qed.

(** Commit goes over the read rows, then over the written ones. *)
Lemma unlock_reads_filter t s order : unlock_reads t s order = unlock_reads t s (filter (λ x, rwt x.2 = READ) order).
Proof.
  revert s. induction order as [|[tk e] order IH]; intros s; [done|]. rewrite filter_cons. simpl. case_decide as Hr; simpl; [|by rewrite IH].
  rewrite decide_True by done. destruct (unlock_shared t s (val e)); simpl; [apply IH|done..].
Qed.

Lemma apply_writes_filter t s order : apply_writes t s order = apply_writes t s (filter (λ x, rwt x.2 ≠ READ) order).
Proof.
  revert t s. induction order as [|[[tb key] e] order IH]; intros t s; [done|]. rewrite filter_cons. simpl. case_decide as Hr; cbn [apply_writes].
  - destruct (rwt e); [done|..]; (destruct (exchange_record _ _ _ _); simpl; [apply IH|done..]).
  - rewrite Hr. apply IH.
Qed.

Lemma install_all_filter m d order : install_all m d (filter (λ x, rwt x.2 ≠ READ) order) = install_all m d order.
Proof.
  revert d. induction order as [|x order IH]; intros d; [done|]. rewrite filter_cons. case_decide as Hr; simpl; [apply IH|].
  rewrite IH. assert (install m d x = d) as Heq by (unfold install; by rewrite Hr). unfold install_all. simpl. by rewrite Heq.
Qed.

Lemma order_map (m : gmap (Z * Z) ReadWriteElement) order order' : order ≡ₚ map_to_list m → order' ≡ₚ order → NoDup order'.*1 ∧ m = list_to_map order'.
Proof.
  intros Ho Hp. assert (NoDup order'.*1) as Hnd by (rewrite Hp, Ho; apply NoDup_fst_map_to_list). split; [done|].
  rewrite <- (list_to_map_to_list m). symmetry. apply list_to_map_proper; [done|]. by rewrite Hp.
Qed.

Lemma wd_precommit_ok g s T i t order : inv g s (<[i := mkThread t Idle]> T) → order ≡ₚ map_to_list (rws t) →
  ∃ t1 s1 g1 t2, precommit t s order = Ok (true, t1, s1) ∧ rws t2 = ∅ ∧ agrees t1 t2 ∧ db g1 = install_all (records s) (db g) order ∧
    inv g1 s1 (<[i := mkThread t2 Idle]> T).
Proof.
  intros Hi Ho. set (R := filter (λ x : entry, rwt x.2 = READ) order). set (W := filter (λ x : entry, rwt x.2 ≠ READ) order).
  destruct (order_map (rws t) order (R ++ W) Ho) as [Hnd Hrws]; [apply filter_app_complement|].
  destruct (wd_unlock_reads_ok g s T i t t R W) as (s1 & t1 & H1 & Hrec & Hrws1 & Ha & Hi1); [by intros x [? _]%list_elem_of_filter|done..|apply agrees_refl|done|].
  rewrite fmap_app in Hnd. apply NoDup_app in Hnd as (_ & _ & Hnd).
  destruct (wd_apply_writes_ok g s1 T i t t1 W) as (t2 & s2 & g2 & t3 & H2 & ? & ? & Hdb & ?); [by intros x [? _]%list_elem_of_filter|done..|].
  unfold precommit. rewrite unlock_reads_filter. fold R. rewrite H1. cbn [mbind outcome_bind]. rewrite apply_writes_filter. fold W. rewrite H2.
  exists t2, s2, g2, t3. split; [done|]. split; [done|]. split; [done|]. split; [|done]. rewrite Hdb, Hrec. apply install_all_filter.
Qed.

Lemma wd_abort_ok g s T i t order : inv g s (<[i := mkThread t Idle]> T) → order ≡ₚ map_to_list (rws t) →
  ∃ t1 s1 g1 t2, abort t s order = Ok (t1, s1) ∧ rws t1 = ∅ ∧ seen t1 = ∅ ∧ rws t2 = ∅ ∧ agrees t1 t2 ∧ db g1 = db g ∧
    inv g1 s1 (<[i := mkThread t2 Idle]> T).
Proof.
  intros Hi Ho. destruct (order_map (rws t) order order Ho) as [Hnd Hrws]; [done|].
  destruct (wd_undo_ok g s T i t t order) as (t1 & s1 & g1 & t2 & Hu & ? & [] & ? & ?); [done..|apply agrees_refl|done|].
  unfold abort. rewrite Hu. eexists _, s1, g1, t2. split; [done|]. by split_and!.
Qed.

Lemma destroy_agrees t t' s : agrees t t' → destroy t s = destroy t' s.
Proof. intros [_ H1 H2 H3]. unfold destroy. by rewrite H1, H2, H3. Qed.
End waitdie_commit.
