(* ===== verification/WaitDieSystem.v ===== *)
(** * WaitDie with many threads

    Rows are loaded, then threads call, ask for locks, wait, go on, write into
    the records they were given, commit and abort, in any order.  The
    conditions the protocol needs from its callers, from the timestamps and
    from the reclamation are stated at the steps.  The log of the committed
    transactions, in the order of their commits, is a serial execution. *)
From Stdlib Require Import Relations.
From S2P Require Import Prelude Versions WaitDieLock WaitDieClaims Timestamp Index Memory WaitDie WaitDieInv WaitDieSteps WaitDieCalls WaitDieCommit.

Module WaitDieSystem.
Import Memory WaitDie.
Section system.
Context `{HI : Index loc} (schema : gmap Z nat).

(** What a committed transaction saw when it first accessed a row, and what
    it wrote: [None] for a row it removed. *)
Record event := mkEvent { ev_seen : gmap (Z * Z) block; ev_writes : list (Z * Z * option block) }.

Record state := mkState { mem : store; threads : gmap nat thread; base : gmap (Z * Z) block; log : list event }.

Inductive call :=
| Read (table_id key : Z) | Insert (table_id key : Z) | Update (table_id key : Z) | Upsert (table_id key : Z) | Write (table_id key : Z)
| Remove (table_id key : Z) | ReadScan (table_id lkey rkey count : Z) (rev : bool) | UpdateScan (table_id lkey rkey count : Z) (rev : bool).

Definition run_call (t : tx) (s : store) (c : call) : prog :=
  match c with
  | Read tb key => read t s tb key
  | Insert tb key => insert schema t s tb key
  | Update tb key => update schema t s tb key
  | Upsert tb key => upsert schema t s tb key
  | Write tb key => write schema t s tb key
  | Remove tb key => remove t s tb key
  | ReadScan tb l r n rev => read_scan t s tb l r n rev []
  | UpdateScan tb l r n rev => update_scan schema t s tb l r n rev []
  end.

(** Rows of known tables with 64-bit keys; a key is inserted before a key
    the transaction has not accessed; a scan runs forward and over no row the
    transaction has removed. *)
Definition scans (t : tx) (tb l r : Z) (rev : bool) : Prop :=
  rev = false ∧ word64 l ∧ word64 r ∧ Forall (λ x, x.1.1 = tb → l ≤ x.1.2 < r → rwt x.2 ≠ DELETE) (map_to_list (rws t)).
Definition permitted (t : tx) (s : store) (c : call) : Prop :=
  match c with
  | Read tb key | Remove tb key => word64 key
  | Update tb key => word64 key ∧ is_Some (schema !! tb)
  | Insert tb key | Upsert tb key | Write tb key => word64 key ∧ is_Some (schema !! tb) ∧ room t s tb key
  | ReadScan tb l r _ rev => scans t tb l r rev
  | UpdateScan tb l r _ rev => scans t tb l r rev ∧ is_Some (schema !! tb)
  end.

Definition writes_of (m : heap) (order : list entry) : list (Z * Z * option block) :=
  omap (λ x, match rwt x.2 with
             | READ => None
             | UPDATE | INSERT => b ← rec x.2 ≫= (m !!.); Some (x.1, Some b)
             | DELETE => Some (x.1, None)
             end) order.

(** No other thread has this timestamp. *)
Definition unused_ts (T : gmap nat thread) (i : nat) (ts : Z) : Prop := ∀ j th, T !! j = Some th → j ≠ i → tts th ≠ ts.

Definition move (S : state) (s : store) (i : nat) (th : thread) : state := mkState s (<[i := th]> (threads S)) (base S) (log S).

Inductive step : state → state → Prop :=
| step_load s T d tb key b r :
    word64 key → idx_at (idx s) tb key = None → schema !! tb = Some (length b) → r = fresh (dom (records s)) →
    step (mkState s T d []) (mkState (insert_into_index (set_records s (<[r := b]> (records s))) tb key r) T (<[(tb, key) := b]> d) [])
| step_call S i t c th s :
    threads S !! i = Some (mkThread t Idle) → permitted t (mem S) c → settle (run_call t (mem S) c) = Ok (th, s) → step S (move S s i th)
| step_scan S i t sc th s :
    threads S !! i = Some (mkThread t (Scanning sc)) → settle (scan_row sc t (mem S)) = Ok (th, s) → step S (move S s i th)
| step_request S i t m row l key k v r w :
    threads S !! i = Some (mkThread t (Wants m row l key k)) → values (mem S) !! l = Some v →
    request m (wdl v) (start_ts t) = Ok (r, w) → r ≠ WaitDieLock.Died →
    step S (move S (set_value (mem S) l (mkValue w (vrec v))) i (mkThread t (Blocked m row l key k)))
| step_die S i t m row l key k v w th s :
    threads S !! i = Some (mkThread t (Wants m row l key k)) → values (mem S) !! l = Some v →
    request m (wdl v) (start_ts t) = Ok (WaitDieLock.Died, w) → settle (k false (mem S)) = Ok (th, s) → step S (move S s i th)
| step_resume S i t m row l key k th s :
    threads S !! i = Some (mkThread t (Blocked m row l key k)) → granted (mem S) l t → key_free (mem S) key →
    settle (k true (mem S)) = Ok (th, s) → step S (move S s i th)
| step_write S i t tk e r b b' :
    threads S !! i = Some (mkThread t Idle) → rws t !! tk = Some e → rwt e = UPDATE ∨ rwt e = INSERT → rec e = Some r →
    records (mem S) !! r = Some b → length b' = length b →
    step S (move S (set_records (mem S) (<[r := b']> (records (mem S)))) i (mkThread t Idle))
| step_commit S i t order t1 s1 c s2 ts smallest largest :
    threads S !! i = Some (mkThread t Idle) → order ≡ₚ map_to_list (rws t) → precommit t (mem S) order = Ok (true, t1, s1) →
    destroy t1 s1 = Ok (c, s2) → unwanted (threads S) s1 s2 → unused_ts (threads S) i ts →
    step S (mkState s2 (<[i := mkThread (new_tx ts smallest largest c) Idle]> (threads S)) (base S)
      (log S ++ [mkEvent (seen t) (writes_of (records (mem S)) order)]))
| step_abort S i t order t1 s1 ts smallest largest :
    threads S !! i = Some (mkThread t Idle) → order ≡ₚ map_to_list (rws t) → abort t (mem S) order = Ok (t1, s1) →
    unused_ts (threads S) i ts → step S (move S s1 i (mkThread (set_new_ts t1 ts smallest largest) Idle)).

(** An empty database and threads that begin, with timestamps of their own. *)
Definition initial `{!IndexLaws loc} (S : state) : Prop :=
  index_ok (idx (mem S)) ∧ (∀ tb key, word64 key → idx_at (idx (mem S)) tb key = None) ∧ values (mem S) = ∅ ∧ base S = ∅ ∧ log S = [] ∧
  (∀ i th, threads S !! i = Some th → ∃ ts smallest largest, th = mkThread (new_tx ts smallest largest (TimestampGC.mk [] [])) Idle) ∧
  (∀ i j th th', threads S !! i = Some th → threads S !! j = Some th' → tts th = tts th' → i = j).

Inductive reachable (S0 : state) : state → Prop :=
| reach_start : reachable S0 S0
| reach_step S S' : reachable S0 S → step S S' → reachable S0 S'.

(** ** The serial database *)

Definition replay (d : gmap (Z * Z) block) (w : list (Z * Z * option block)) : gmap (Z * Z) block :=
  foldl (λ d x, match x.2 with Some b => <[x.1 := b]> d | None => delete x.1 d end) d w.

(** One transaction after the other, each seeing what the earlier ones left. *)
Inductive serial (d : gmap (Z * Z) block) : list event → gmap (Z * Z) block → Prop :=
| serial_nil : serial d [] d
| serial_commit L d' ev : serial d L d' → ev_seen ev ⊆ d' → serial d (L ++ [ev]) (replay d' (ev_writes ev)).

(** The committed row under a key. *)
Definition row_at (s : store) (tb key : Z) : option block :=
  l ← idx_at (idx s) tb key; v ← values s !! l; vrec v ≫= (records s !!.).

(** What a thread does next ends without an error. *)
Definition ends (p : prog) : Prop := ∃ th s, settle p = Ok (th, s).
Definition runs (S : state) (th : thread) : Prop :=
  match tpc th with
  | Idle => (∀ c, permitted (ttx th) (mem S) c → ends (run_call (ttx th) (mem S) c)) ∧
      ∀ order, order ≡ₚ map_to_list (rws (ttx th)) →
      (∃ t1 s1 c s2, precommit (ttx th) (mem S) order = Ok (true, t1, s1) ∧ destroy t1 s1 = Ok (c, s2)) ∧
      ∃ t1 s1, abort (ttx th) (mem S) order = Ok (t1, s1)
  | Scanning sc => ends (scan_row sc (ttx th) (mem S))
  | Wants m row l key k => ends (k false (mem S)) ∧
      ∃ v r w, values (mem S) !! l = Some v ∧ request m (wdl v) (start_ts (ttx th)) = Ok (r, w)
  | Blocked m row l key k => granted (mem S) l (ttx th) → key_free (mem S) key → ends (k true (mem S))
  end.

(** A thread spins on a lock; it waits for another thread that has the lock. *)
Definition waits_on (S : state) (i : nat) (w : WaitDieLock.t) : Prop :=
  ∃ t m row l key k v, threads S !! i = Some (mkThread t (Blocked m row l key k)) ∧ values (mem S) !! l = Some v ∧ wdl v = w ∧ start_ts t ∈ waiter_ts w.
Definition spins (S : state) (i : nat) : Prop := ∃ w, waits_on S i w.
Definition waits_for (S : state) (i j : nat) : Prop :=
  i ≠ j ∧ ∃ w th, waits_on S i w ∧ threads S !! j = Some th ∧ tts th ∈ owner_ts (WaitDieLock.owner_list w).
End system.
End WaitDieSystem.

(** ** Every step keeps the system in order *)
Section waitdie_system.
Import Memory WaitDie WaitDieSystem.
Context `{HI : Index loc} `{HL : !IndexLaws loc} (schema : gmap Z nat).
#[local] Existing Instance WaitDieLock.Operation_eq_dec.
Implicit Types (s : store) (t : tx) (i j : nat) (tk : Z * Z) (l : loc) (e : ReadWriteElement) (r : loc) (g : ghost) (th : thread) (T : gmap nat thread) (S : state).
#[local] Abbreviation inv := (inv schema).
#[local] Abbreviation step := (step schema).
#[local] Abbreviation reachable := (reachable schema).

(** What a thread does next is safe whenever it comes. *)
Definition place_ok i th : Prop :=
  match tpc th with
  | Idle => True
  | Scanning sc => scan_ok schema (ttx th) sc
  | Wants m row l key k | Blocked m row l key k => cont_ok schema i m row l key (ttx th) k
  end.

Record sys_ok S g : Prop := {
  sys_inv : inv g (mem S) (threads S);
  sys_serial : serial (base S) (log S) (db g);
  sys_place i th : threads S !! i = Some th → place_ok i th
}.

Lemma inserted S i th : threads S !! i = Some th → threads S = <[i := th]> (threads S).
Proof. intros. by rewrite insert_id. Qed.

Lemma move_ok S g s g' i th : sys_ok S g → inv g' s (<[i := th]> (threads S)) → db g' = db g → place_ok i th → sys_ok (move S s i th) g'.
Proof.
  intros [_ Hser Hpl] Hi Hdb Hth. split; simpl; [done|by rewrite Hdb|]. intros j th' [[<- <-]|[_ ?]]%lookup_insert_Some; [done|by apply Hpl].
Qed.

Lemma settle_ok S g i p : sys_ok S g → safe schema i (db g) (threads S) p → ∃ th s g', settle p = Ok (th, s) ∧ sys_ok (move S s i th) g'.
Proof.
  intros Hs Hp. destruct p as [[[[r t] s]|w| |]|m row l key t s k]; try done.
  - destruct Hp as [(g' & Hdb & Hi) Hsc]. exists (mkThread t (match r with More sc => Scanning sc | _ => Idle end)), s, g'. split; [done|].
    eapply move_ok; [done..|]. by destruct r.
  - destruct Hp as [(g' & Hdb & Hi) Hk]. exists (mkThread t (Wants m row l key k)), s, g'. split; [done|]. by eapply move_ok.
Qed.

Section thread.
Context {S : state} {g : ghost} {i : nat} {t : tx} {p : pc} (Hs : sys_ok S g) (Hth : threads S !! i = Some (mkThread t p)).

Lemma sys_thread : inv g (mem S) (<[i := mkThread t p]> (threads S)).
Proof. rewrite <- (inserted _ _ _ Hth). apply Hs. Qed.

Lemma scans_ok tb lk rk n rev sz : scans t tb lk rk rev → (∀ n, sz = Some n → schema !! tb = Some n) → scan_ok schema t (mkScan tb lk rk n sz []).
Proof.
  intros (_ & Hl & Hr & Hall) Hsz. split; simpl; [done..|]. intros key e Hk He. rewrite Forall_forall in Hall.
  by apply (Hall ((tb, key), e)); [apply elem_of_map_to_list|..].
Qed.

Lemma call_ok c : p = Idle → permitted schema t (mem S) c → ∃ th s g', settle (run_call schema t (mem S) c) = Ok (th, s) ∧ sys_ok (move S s i th) g'.
Proof.
  intros Hp Hc. eapply settle_ok; [done|]. pose proof sys_thread as Hi. rewrite Hp in Hi.
  destruct c as [tb key|tb key|tb key|tb key|tb key|tb key|tb l r n rev|tb l r n rev]; simpl in *.
  - by apply read_safe.
  - destruct Hc as (? & ? & ?). by apply insert_safe.
  - destruct Hc. by apply update_safe.
  - destruct Hc as (? & ? & ?). by apply upsert_safe.
  - destruct Hc as (? & ? & ?). by apply upsert_safe.
  - by apply remove_safe.
  - pose proof (scans_ok tb l r n rev None Hc ltac:(done)) as Hsc. destruct Hc as (-> & _). by apply (start_scan_safe schema _ _ _ _ _ _ Hi) in Hsc.
  - destruct Hc as [Hc [sz Hsz]]. pose proof (scans_ok tb l r n rev (Some sz) Hc ltac:(by intros ? [= <-])) as Hsc. destruct Hc as (-> & _).
    unfold update_scan, get_record_size. rewrite Hsz. cbn [deref lift]. by apply (start_scan_safe schema _ _ _ _ _ _ Hi) in Hsc.
Qed.

Lemma scan_round_ok sc : p = Scanning sc → ∃ th s g', settle (scan_row sc t (mem S)) = Ok (th, s) ∧ sys_ok (move S s i th) g'.
Proof.
  intros Hp. pose proof sys_thread as Hi. pose proof (sys_place _ _ Hs _ _ Hth) as Hk. rewrite Hp in Hi, Hk.
  eapply settle_ok; [done|]. by apply scan_row_safe.
Qed.

Lemma ask_ok m row l key k : p = Wants m row l key k →
  ∃ v (r : WaitDieLock.result) w, values (mem S) !! l = Some v ∧ request m (wdl v) (start_ts t) = Ok (r, w) ∧
    (r ≠ WaitDieLock.Died → sys_ok (move S (set_value (mem S) l (mkValue w (vrec v))) i (mkThread t (Blocked m row l key k))) g) ∧
    ∃ th s g', settle (k false (mem S)) = Ok (th, s) ∧ sys_ok (move S s i th) g'.
Proof.
  intros Hp. pose proof (sys_place _ _ Hs _ _ Hth) as Hk. pose proof sys_thread as Hi. pose proof Hth as Hth'. rewrite Hp in Hk, Hi, Hth'.
  destruct (request_ok _ _ _ _ _ _ _ _ _ _ _ (sys_inv _ _ Hs) Hth') as (v & r & w & Hv & Hreq & Hr).
  exists v, r, w. split; [done|]. split; [done|]. split.
  - intros Hne. eapply move_ok; [done| |done|done]. by destruct r; [apply Hr..|].
  - eapply settle_ok; [done|]. by apply Hk.
Qed.

Lemma resume_ok m row l key k : p = Blocked m row l key k → granted (mem S) l t → key_free (mem S) key →
  ∃ th s g', settle (k true (mem S)) = Ok (th, s) ∧ sys_ok (move S s i th) g'.
Proof.
  intros Hp Hg Hk. pose proof (sys_place _ _ Hs _ _ Hth) as Hc. pose proof sys_thread as Hi. rewrite Hp in Hc, Hi.
  eapply settle_ok; [done|]. by apply Hc.
Qed.

Lemma wd_write_ok tk e r b b' : p = Idle → rws t !! tk = Some e → rwt e = UPDATE ∨ rwt e = INSERT → rec e = Some r →
  records (mem S) !! r = Some b → length b' = length b →
  ∃ g', sys_ok (move S (set_records (mem S) (<[r := b']> (records (mem S)))) i (mkThread t Idle)) g'.
Proof.
  intros Hp He Hw Hr Hb Hlen. pose proof sys_thread as Hi. rewrite Hp in Hi. destruct (wd_own_row schema Hi He) as (v & Hl & Hv & Hh & Hn).
  pose proof (local_of schema Hi tk e r He ltac:(destruct Hw as [-> | ->]; done) Hr) as Ho.
  exists (mkGhost (vown g) (rown g) (db g)). eapply move_ok; [done| |done..].
  eapply (enter_inv schema) with (e := e); [exact Hi|exact Hl|exact Hv|done|done|done|done| |done|done|done| | | |].
  - simpl. by rewrite insert_id.
  - destruct Hw as [-> | ->]; eauto.
  - intros r' tb o Hr'. destruct (i_rec _ _ _ _ Hi _ _ _ Hr') as (b1 & Hb1 & Hsz). destruct (decide (r' = r)) as [->|Hne].
    + exists b'. rewrite lookup_insert_eq. simplify_eq. by rewrite Hlen.
    + exists b1. by rewrite lookup_insert_ne.
  - intros r' tb o Hr' Hne. rewrite lookup_insert_ne; [done|]. congruence.
  - apply (th_seen _ _ _ _ (i_thread _ _ _ _ Hi _ _ (lookup_insert_eq _ _ _))).
Qed.

(** *** Commit and abort *)

Lemma install_writes m d order : install_all m d order = replay d (writes_of m order).
Proof.
  revert d. induction order as [|[tk e] order IH]; intros d; [done|]. unfold install_all, install. simpl. fold (install m).
  destruct (rwt e); try destruct (rec e ≫= (m !!.)); apply IH.
Qed.

Lemma restart_ok g' s t2 ts : inv g' s (<[i := mkThread t2 Idle]> (threads S)) → rws t2 = ∅ → unused_ts (threads S) i ts →
  ∀ t', rws t' = ∅ → seen t' = ∅ → gc t' = gc t2 → start_ts t' = ts → inv g' s (<[i := mkThread t' Idle]> (threads S)).
Proof.
  intros Hi Hr Hts t' Hr' Hse Hgc Ht'. rewrite <- (insert_insert_eq (threads S) i _ (mkThread t2 Idle)).
  eapply begin_inv; [exact Hi|apply lookup_insert_eq|done..|]. intros j th Hj Hne. rewrite lookup_insert_ne in Hj by done. rewrite Ht'. by apply (Hts j).
Qed.

Lemma wd_commit_ok order : p = Idle → order ≡ₚ map_to_list (rws t) →
  ∃ t1 s1 c s2, precommit t (mem S) order = Ok (true, t1, s1) ∧ destroy t1 s1 = Ok (c, s2) ∧
    ∀ ts smallest largest, unwanted (threads S) s1 s2 → unused_ts (threads S) i ts →
    ∃ g', sys_ok (mkState s2 (<[i := mkThread (new_tx ts smallest largest c) Idle]> (threads S)) (base S)
      (log S ++ [mkEvent (seen t) (writes_of (records (mem S)) order)])) g'.
Proof.
  intros Hp Ho. pose proof sys_thread as Hi. rewrite Hp in Hi. destruct (wd_precommit_ok _ _ _ _ _ _ order Hi Ho) as (t1 & s1 & g1 & t2 & Hpre & Hr2 & Ha & Hdb & Hi1).
  destruct (destroy_inv schema _ _ _ i _ Hi1 (lookup_insert_eq _ _ _) eq_refl) as (c & s2 & Hd & Hi2). simpl in Hd.
  exists t1, s1, c, s2. split; [done|]. split; [by rewrite (destroy_agrees _ _ _ Ha)|]. intros ts sm lg Hun Hts.
  destruct Hi2 as (g2 & Hdb2 & Hi2).
  { intros j th m tk l Hj Hw. apply lookup_insert_Some in Hj as [[<- <-]|[_ Hj]]; [done|]. by eapply Hun. }
  simpl in Hi2. rewrite insert_insert_eq in Hi2. exists g2. split; simpl.
  - by eapply restart_ok.
  - rewrite Hdb2, Hdb, install_writes. apply (serial_commit _ _ _ (mkEvent (seen t) _)); [apply Hs|]. simpl. apply map_subseteq_spec. intros tk b Hb.
    by apply (th_seen _ _ _ _ (i_thread _ _ _ _ Hi _ _ (lookup_insert_eq _ _ _))).
  - intros j th [[<- <-]|[_ Hj]]%lookup_insert_Some; [done|by eapply sys_place].
Qed.

Lemma abort_sys order : p = Idle → order ≡ₚ map_to_list (rws t) → ∃ t1 s1, abort t (mem S) order = Ok (t1, s1) ∧
  ∀ ts smallest largest, unused_ts (threads S) i ts → ∃ g', sys_ok (move S s1 i (mkThread (set_new_ts t1 ts smallest largest) Idle)) g'.
Proof.
  intros Hp Ho. pose proof sys_thread as Hi. rewrite Hp in Hi.
  destruct (wd_abort_ok _ _ _ _ _ _ order Hi Ho) as (t1 & s1 & g1 & t2 & Hab & Hr1 & Hs1 & Hr2 & Ha & Hdb & Hi1).
  exists t1, s1. split; [done|]. intros ts sm lg Hts. exists g1. eapply move_ok; [done| |done|done]. eapply restart_ok; try done. symmetry. apply Ha.
Qed.
End thread.

(** *** Loading and starting *)

Lemma new_lock_ok : WaitDieLock.lock_ok WaitDieLock.new ∧ ∀ ts, absent WaitDieLock.new ts.
Proof.
  split; [|intros ts; split; apply not_elem_of_nil].
  split; [split|..]; simpl; try done; try (intros ? ?%not_elem_of_nil; done). all: repeat constructor.
Qed.

Lemma wd_load_ok s T d tb key b r g : sys_ok (mkState s T d []) g → word64 key → idx_at (idx s) tb key = None → schema !! tb = Some (length b) →
  r = fresh (dom (records s)) →
  ∃ g', sys_ok (mkState (insert_into_index (set_records s (<[r := b]> (records s))) tb key r) T (<[(tb, key) := b]> d) []) g'.
Proof.
  intros [Hi Hser Hpl] Hw Hnone Hsz ->. simpl in *. pose proof (fresh_unowned _ _ _ _ Hi) as Hfr. set (r := fresh (dom (records s))) in *.
  unfold insert_into_index. cbn [values records idx set_records set_value set_idx]. set (l := fresh (dom (values s))).
  assert (values s !! l = None) as Hl by apply not_elem_of_dom, is_fresh.
  destruct (insert_absent (idx s) tb key l (i_index _ _ _ _ Hi) Hw Hnone) as (i' & -> & Hok & Hat). destruct new_lock_ok as [Hlok Habs].
  exists (mkGhost (<[l := ((tb, key), None)]> (vown g)) (<[r := (tb, Row l)]> (rown g)) (<[(tb, key) := b]> (db g))). split; simpl; [| |done].
  - set (i := fresh (dom T)). assert (T !! i = None) as HiT by apply not_elem_of_dom, is_fresh.
    set (ts := fresh (list_to_set (tts <$> (map_to_list T).*2) : gset Z)).
    apply (add_inv schema g s T i ts); try done; cbn [records set_value set_records].
    + intros r' x Hx. assert (r ≠ r') by congruence. by rewrite !lookup_insert_ne.
    + intros r' tb' o [[<- [= <- <-]]|[Hne Hr']]%lookup_insert_Some; [exists b; by rewrite lookup_insert_eq|].
      destruct (i_rec _ _ _ _ Hi _ _ _ Hr') as (b' & ? & ?). exists b'. by rewrite lookup_insert_ne.
    + intros tk' Hne. by rewrite lookup_insert_ne.
    + unfold row_ok. cbn [vrec rown db records fst]. rewrite !lookup_insert_eq. eauto.
    + intros j th Hj _ Heq. apply (is_fresh (list_to_set (tts <$> (map_to_list T).*2) : gset Z)). fold ts. rewrite <- Heq.
      apply elem_of_list_to_set, list_elem_of_fmap_2, (list_elem_of_fmap_2 snd _ (j, th)), elem_of_map_to_list, Hj.
    + by rewrite HiT.
  - inversion Hser as [|L d' ev ? ? Heq]; [|by destruct L]. subst. constructor.
Qed.

Lemma wd_initial_ok S : initial S → ∃ g, sys_ok S g.
Proof.
  intros (Hok & Hat & Hv & Hb & Hlog & Hth & Hts). exists (mkGhost ∅ ∅ ∅). split; [|rewrite Hlog, Hb; constructor|].
  - split; rewrite ?Hv; simpl; try done.
    + intros tb k l Hw. by rewrite Hat.
    + intros l. rewrite !lookup_empty. done.
    + intros i th (ts & sm & lg & ->)%Hth. split; simpl; try done; [|split; [constructor|by intros ? ?%not_elem_of_nil]].
      split; simpl; try done. by rewrite Hv.
  - intros i th (ts & sm & lg & ->)%Hth. done.
Qed.

Lemma wd_step_ok S S' g : sys_ok S g → step S S' → ∃ g', sys_ok S' g'.
Proof.
  intros Hs Hst. destruct Hst as [s T d tb key b r|S i t c th s Hth Hc Heq|S i t sc th s Hth Heq|S i t m row l key k v r w Hth Hv Hreq Hr|
    S i t m row l key k v w th s Hth Hv Hreq Heq|S i t m row l key k th s Hth Hg Hk Heq|S i t tk e r b b' Hth He Hw Hr Hb Hlen|
    S i t order t1 s1 c s2 ts sm lg Hth Ho Hpre Hd Hun Hts|S i t order t1 s1 ts sm lg Hth Ho Hab Hts].
  - by eapply wd_load_ok.
  - destruct (call_ok Hs Hth c eq_refl Hc) as (th' & s' & g' & Heq' & ?). rewrite Heq in Heq'. injection Heq' as <- <-. by exists g'.
  - destruct (scan_round_ok Hs Hth sc eq_refl) as (th' & s' & g' & Heq' & ?). rewrite Heq in Heq'. injection Heq' as <- <-. by exists g'.
  - destruct (ask_ok Hs Hth _ _ _ _ _ eq_refl) as (v' & r' & w' & Hv' & Hreq' & Hgo & _).
    rewrite Hv in Hv'. injection Hv' as <-. rewrite Hreq in Hreq'. injection Hreq' as <- <-. exists g. by apply Hgo.
  - destruct (ask_ok Hs Hth _ _ _ _ _ eq_refl) as (v' & r' & w' & _ & _ & _ & th' & s' & g' & Heq' & ?). rewrite Heq in Heq'. injection Heq' as <- <-. by exists g'.
  - destruct (resume_ok Hs Hth _ _ _ _ _ eq_refl Hg Hk) as (th' & s' & g' & Heq' & ?). rewrite Heq in Heq'. injection Heq' as <- <-. by exists g'.
  - by eapply (wd_write_ok Hs Hth tk e r b b').
  - destruct (wd_commit_ok Hs Hth order eq_refl Ho) as (t1' & s1' & c' & s2' & Hpre' & Hd' & Hgo). rewrite Hpre in Hpre'. injection Hpre' as <- <-.
    rewrite Hd in Hd'. injection Hd' as <- <-. by apply Hgo.
  - destruct (abort_sys Hs Hth order eq_refl Ho) as (t1' & s1' & Hab' & Hgo). rewrite Hab in Hab'. injection Hab' as <- <-. by apply Hgo.
Qed.

Lemma wd_reachable_ok S0 S : initial S0 → reachable S0 S → ∃ g, sys_ok S g.
Proof. intros H0. induction 1 as [|S S' _ [g IH] Hst]; [by apply wd_initial_ok|by eapply wd_step_ok]. Qed.

(** ** Correctness *)


Lemma row_at_db g s T tb key : inv g s T → word64 key → row_at s tb key = db g !! (tb, key).
Proof.
  intros Hi Hw. unfold row_at. destruct (idx_at (idx s) tb key) as [l|] eqn:Hat; simpl.
  - apply (i_bind _ _ _ _ Hi) in Hat; [|done]. destruct (wd_value_of _ _ _ _ _ _ Hi Hat) as [v Hv]. rewrite Hv. simpl.
    pose proof (i_row _ _ _ _ Hi _ _ _ Hat Hv) as Hr. unfold row_ok in Hr. destruct (vrec v) as [r|]; simpl.
    + destruct Hr as [_ (b & -> & ->)]. done.
    + by destruct Hr as [-> _].
  - destruct (db g !! (tb, key)) as [b|] eqn:Hd; [|done]. destruct (i_db _ _ _ _ Hi _ _ Hd) as [l Hl]. apply (i_bind _ _ _ _ Hi) in Hl; [|done]. congruence.
Qed.

(** Two transactions have accessed the same row only when both have read
    it; and what a transaction saw of a row when it first accessed it is the
    committed row until the transaction ends, whatever other threads do. *)
Theorem waitdie_isolated S0 S i th : initial S0 → reachable S0 S → threads S !! i = Some th →
  (∀ j th' tk e e', threads S !! j = Some th' → i ≠ j → rws (ttx th) !! tk = Some e → rws (ttx th') !! tk = Some e' → rwt e = READ ∧ rwt e' = READ) ∧
  (∀ tb key b, word64 key → seen (ttx th) !! (tb, key) = Some b → row_at (mem S) tb key = Some b).
Proof.
  intros H0 Hr Hth. destruct (wd_reachable_ok _ _ H0 Hr) as [g [Hi _ _]]. split.
  - assert (∀ i j th th' tk e e', threads S !! i = Some th → threads S !! j = Some th' → i ≠ j → rws (ttx th) !! tk = Some e → rws (ttx th') !! tk = Some e' → rwt e = READ) as Hx.
    { clear i th Hth. intros i j th th' tk e e' Hth Hth' Hne He He'. destruct (decide (rwt e = READ)) as [|Hw]; [done|]. exfalso. apply Hne.
      pose proof (i_thread _ _ _ _ Hi _ _ Hth) as [E1 E0 [E2 _ _] _ _]. pose proof (i_thread _ _ _ _ Hi _ _ Hth') as [D1 _ D2 _ _].
      destruct (E1 _ _ He) as [Hl _ _], (D1 _ _ He') as [Hl' _ _]. assert (val e' = val e) as Hval by (by eapply live_inj).
      destruct (wd_value_of _ _ _ _ _ _ Hi Hl) as [v Hv]. eapply i_ts; [exact Hi|done..|]. symmetry. eapply exclusive_owner; [apply (i_lock _ _ _ _ Hi _ _ Hv)| |].
      - assert (mode e = WaitDieLock.E) as <- by (unfold mode; by rewrite decide_False). eapply E2; [done| |done]. intros Hask.
        unfold want_ok in E0. assert (wanted th = Some (WaitDieLock.U, tk, val e)) as Hwt by (unfold asked, wanted in *; by destruct (tpc th)).
        rewrite Hwt in E0. destruct E0 as [_ (e0 & ? & _ & ?)]. congruence.
      - eapply entry_owner; [exact D2|done|by rewrite Hval]. }
    intros j th' tk e e' Hth' Hne He He'. split; [by eapply (Hx i j)|by eapply (Hx j i)].
  - intros tb key b Hw Hb. rewrite (row_at_db _ _ _ _ _ Hi Hw). by apply (th_seen _ _ _ _ (i_thread _ _ _ _ Hi _ _ Hth)).
Qed.

(** C11: the committed transactions, in the order of their commits, are a
    serial execution from the loaded rows: each saw the database the earlier
    ones left, and the rows in the index are those the last one left. *)
Theorem waitdie_serializable S0 S : initial S0 → reachable S0 S →
  ∃ d, serial (base S) (log S) d ∧ ∀ tb key, word64 key → row_at (mem S) tb key = d !! (tb, key).
Proof.
  intros H0 Hr. destruct (wd_reachable_ok _ _ H0 Hr) as [g [Hi Hser _]]. exists (db g). split; [done|]. intros tb key Hw. by eapply row_at_db.
Qed.

(** *** Deadlock *)

Lemma spinner g S i w : inv g (mem S) (threads S) → waits_on S i w →
  ∃ th m, threads S !! i = Some th ∧ (tts th, m) ∈ WaitDieLock.waiter_list w ∧ WaitDieLock.lock_ok w ∧
    ∀ ts, ts ∈ owner_ts (WaitDieLock.owner_list w) → ∃ j th', threads S !! j = Some th' ∧ tts th' = ts.
Proof.
  intros Hi (t & m & row & l & key & k & v & Hth & Hv & <- & Hin). destruct (i_lock _ _ _ _ Hi _ _ Hv) as [Hlok Hall].
  apply list_elem_of_fmap in Hin as ([ts m'] & Heq & Hin). simpl in Heq. exists (mkThread t (Blocked m row l key k)), m'.
  unfold tts. simpl. rewrite Heq. split_and!; [done..|]. intros ts' Ho. apply Hall. by left.
Qed.

Lemma waits_for_lt g S i j : inv g (mem S) (threads S) → waits_for S i j →
  ∃ th th', threads S !! i = Some th ∧ threads S !! j = Some th' ∧ tts th < tts th'.
Proof.
  intros Hi (Hne & w & th' & Hw & Hj & Ho). destruct (spinner _ _ _ _ Hi Hw) as (th & m & Hth & Hin & Hlok & _). exists th, th'. split; [done|]. split; [done|].
  eapply owners_younger; [done..|]. intros Heq. apply Hne. by eapply i_ts.
Qed.

Lemma decide_spins S i : spins S i ∨ ¬ spins S i.
Proof.
  destruct (threads S !! i) as [[t [| | |m row l key k]]|] eqn:Hth; try (right; intros (w & ? & ? & ? & ? & ? & ? & ? & ? & _); congruence).
  destruct (values (mem S) !! l) as [v|] eqn:Hv; [|right; intros (w & ? & ? & ? & ? & ? & ? & ? & ? & ? & _); congruence].
  destruct (decide (start_ts t ∈ waiter_ts (wdl v))) as [Hin|Hin]; [left; exists (wdl v), t; eauto 10|right].
  intros (w & ? & ? & ? & ? & ? & ? & ? & ? & ? & <- & ?). congruence.
Qed.

Lemma bounded_ts T : ∃ n, ∀ j th, T !! j = Some th → tts th ≤ n.
Proof.
  induction T as [|i th T Hi [n IH]] using map_ind; [by exists 0|]. exists (Z.max n (tts th)).
  intros j th' [[_ <-]|[_ ?%IH]]%lookup_insert_Some; lia.
Qed.

(** C13: Threads do not wait for each other in a circle.
    As long as no insertion that waited for the next key finds its own key
    taken when it goes on ([key_free]: in that case the code leaks the lock of
    the next key and an older thread would spin forever, waitdie.hpp:124 and
    waitdie_taken_leaks_lock) and the other conditions of the steps hold ([room],
    [unwanted]), a thread that spins waits for a younger one, so that
    there is no circle of waiting threads, and behind every spinning thread is
    one that does not spin. *)
Theorem waitdie_deadlock_free S0 S : initial S0 → reachable S0 S →
  (∀ i, ¬ tc (waits_for S) i i) ∧ (∀ i, spins S i → ∃ j, tc (waits_for S) i j ∧ is_Some (threads S !! j) ∧ ¬ spins S j).
Proof.
  intros H0 Hr. destruct (wd_reachable_ok _ _ H0 Hr) as [g [Hi _ _]]. split.
  - assert (∀ i j, tc (waits_for S) i j → ∃ th th', threads S !! i = Some th ∧ threads S !! j = Some th' ∧ tts th < tts th') as Hlt.
    { induction 1 as [i j Hw|i j j' Hw%(waits_for_lt _ _ _ _ Hi) _ (th & th' & ? & ? & ?)]; [by eapply waits_for_lt|].
      destruct Hw as (th1 & th2 & ? & ? & ?). simplify_eq. exists th1, th'. split_and!; [done..|lia]. }
    intros i (th & th' & ? & ? & ?)%Hlt. simplify_eq. lia.
  - destruct (bounded_ts (threads S)) as [n Hn].
    assert (∀ (d : nat) i th, threads S !! i = Some th → n - tts th < Z.of_nat d → spins S i → ∃ j, tc (waits_for S) i j ∧ is_Some (threads S !! j) ∧ ¬ spins S j) as Hd.
    { induction d as [|d IH]; intros i th Hth Hlt [w Hw]; [specialize (Hn _ _ Hth); lia|].
      destruct (spinner _ _ _ _ Hi Hw) as (th0 & m & Hth0 & Hin & Hlok & Hown). simplify_eq.
      destruct (waits_for_younger _ _ _ Hlok Hin) as (ts' & Ho & Hy). destruct (Hown _ Ho) as (j & th' & Hj & <-).
      assert (waits_for S i j) as Hij by (split; [intros ->; simplify_eq; lia|eauto]).
      destruct (decide_spins S j) as [Hsp|Hsp].
      - destruct (IH j th' Hj ltac:(lia) Hsp) as (j' & ? & ?). exists j'. split; [by eapply tc_l|done].
      - exists j. split; [by apply tc_once|]. eauto. }
    intros i Hsp. pose proof Hsp as (w & t & m & row & l & key & k & v & Hth & _). apply (Hd (Datatypes.S (Z.to_nat (n - start_ts t))) _ _ Hth); [|done].
    unfold tts. simpl. lia.
Qed.
End waitdie_system.
