(* ===== verification/WaitDieRun.v ===== *)
(** * Runs of WaitDie

    Schedules of the threads as lists of events that are carried out one by
    one: what they lead to is reachable.  They serve as instances of the
    theorems and show what the code does when a transaction inserts a key
    next to a row of its own, or finds its key taken after it has waited. *)
From S2P Require Import Prelude Versions WaitDieLock WaitDieClaims Timestamp Index Memory WaitDie WaitDieInv WaitDieSteps WaitDieCalls WaitDieCommit WaitDieSystem.

Section waitdie_schedules.
Import Memory WaitDie WaitDieSystem.
Context `{HI : Index loc} `{HL : !IndexLaws loc} (schema : gmap Z nat).
Implicit Types S : state.

Inductive action :=
| ELoad (tb key : Z) (b : block) | ECall (i : nat) (c : call) | EScan (i : nat) | EAsk (i : nat) | EResume (i : nat)
| EWrite (i : nat) (tk : Z * Z) (b : block) | ECommit (i : nat) (ts smallest largest : Z) | EAbort (i : nat) (ts smallest largest : Z).

#[local] Instance next_free_dec t s tb key : Decision (next_free t s tb key).
Proof. unfold next_free. destruct (idx_get_next_kv _ _ _) as [[] [[]|]]; apply _. Defined.
#[local] Instance permitted_dec t s c : Decision (permitted schema t s c).
Proof. destruct c; simpl; unfold room, scans, word64; apply _. Defined.
#[local] Instance key_free_dec s key : Decision (key_free s key).
Proof. unfold key_free. destruct key; apply _. Defined.

Definition unused_tsb (T : gmap nat thread) (i : nat) (ts : Z) : bool :=
  forallb (λ x, bool_decide (x.1 ≠ i → tts x.2 ≠ ts)) (map_to_list T).
Lemma unused_tsb_spec T i ts : unused_tsb T i ts = true → unused_ts T i ts.
Proof.
  unfold unused_tsb. rewrite forallb_forall. intros H j th Hj Hne.
  apply (bool_decide_eq_true_1 (j ≠ i → tts th ≠ ts)); [|done]. apply (H (j, th)), list_elem_of_In, elem_of_map_to_list, Hj.
Qed.

Definition unwantedb (T : gmap nat thread) (s s' : store) : bool :=
  forallb (λ x, match wanted x.2 with
                | Some (_, l) => bool_decide (is_Some (values s !! l) → is_Some (values s' !! l))
                | None => true
                end) (map_to_list T).
Lemma unwantedb_spec T s s' : unwantedb T s s' = true → unwanted T s s'.
Proof.
  unfold unwantedb. rewrite forallb_forall. intros H j th m tk l Hj Hw. specialize (H (j, th)). simpl in H. rewrite Hw in H.
  apply (bool_decide_eq_true_1 (is_Some (values s !! l) → is_Some (values s' !! l))), H, list_elem_of_In, elem_of_map_to_list, Hj.
Qed.

Definition place S i : option (tx * pc) := th ← threads S !! i; Some (ttx th, tpc th).
Definition after S i (p : prog) : option state := match settle p with Ok (th, s) => Some (move S s i th) | _ => None end.

Definition perform (ev : action) S : option state :=
  match ev with
  | ELoad tb key b =>
      if decide (word64 key ∧ idx_at (idx (mem S)) tb key = None ∧ schema !! tb = Some (length b) ∧ length (log S) = 0%nat) then
        let r := fresh (dom (records (mem S))) in
        Some (mkState (insert_into_index (set_records (mem S) (<[r := b]> (records (mem S)))) tb key r) (threads S) (<[(tb, key) := b]> (base S)) [])
      else None
  | ECall i c =>
      match place S i with
      | Some (t, Idle) => if decide (permitted schema t (mem S) c) then after S i (run_call schema t (mem S) c) else None
      | _ => None
      end
  | EScan i => match place S i with Some (t, Scanning sc) => after S i (scan_row sc t (mem S)) | _ => None end
  | EAsk i =>
      match place S i with
      | Some (t, Wants m row l key k) =>
          match values (mem S) !! l with
          | Some v =>
              match request m (wdl v) (start_ts t) with
              | Ok (WaitDieLock.Died, _) => after S i (k false (mem S))
              | Ok (_, w) => Some (move S (set_value (mem S) l (mkValue w (vrec v))) i (mkThread t (Blocked m row l key k)))
              | _ => None
              end
          | None => None
          end
      | _ => None
      end
  | EResume i =>
      match place S i with
      | Some (t, Blocked m row l key k) =>
          match values (mem S) !! l with
          | Some v => if decide ((start_ts t ∉ waiter_ts (wdl v)) ∧ key_free (mem S) key) then after S i (k true (mem S)) else None
          | None => None
          end
      | _ => None
      end
  | EWrite i tk b' =>
      match place S i with
      | Some (t, Idle) =>
          e ← rws t !! tk; r ← rec e; b ← records (mem S) !! r;
          if decide ((rwt e = UPDATE ∨ rwt e = INSERT) ∧ length b' = length b) then
            Some (move S (set_records (mem S) (<[r := b']> (records (mem S)))) i (mkThread t Idle))
          else None
      | _ => None
      end
  | ECommit i ts smallest largest =>
      match place S i with
      | Some (t, Idle) =>
          match precommit t (mem S) (map_to_list (rws t)) with
          | Ok (true, t1, s1) =>
              match destroy t1 s1 with
              | Ok (c, s2) =>
                  if unwantedb (threads S) s1 s2 && unused_tsb (threads S) i ts then
                    Some (mkState s2 (<[i := mkThread (new_tx ts smallest largest c) Idle]> (threads S)) (base S)
                      (log S ++ [mkEvent (seen t) (writes_of (records (mem S)) (map_to_list (rws t)))]))
                  else None
              | _ => None
              end
          | _ => None
          end
      | _ => None
      end
  | EAbort i ts smallest largest =>
      match place S i with
      | Some (t, Idle) =>
          match abort t (mem S) (map_to_list (rws t)) with
          | Ok (t1, s1) => if unused_tsb (threads S) i ts then Some (move S s1 i (mkThread (set_new_ts t1 ts smallest largest) Idle)) else None
          | _ => None
          end
      | _ => None
      end
  end.

Lemma place_thread S i t p : place S i = Some (t, p) → threads S !! i = Some (mkThread t p).
Proof. unfold place. destruct (threads S !! i) as [[]|]; [|done]. by intros [= <- <-]. Qed.

Lemma after_settle S i p S' : after S i p = Some S' → ∃ th s, settle p = Ok (th, s) ∧ S' = move S s i th.
Proof. unfold after. destruct (settle p) as [[th s]| | |]; [|done..]. intros [= <-]. eauto. Qed.

Lemma event_step ev S S' : perform ev S = Some S' → step schema S S'.
Proof.
  destruct ev as [tb key b|i c|i|i|i|i tk b'|i ts sm lg|i ts sm lg]; unfold perform.
  - case_decide as H; [|done]. destruct H as (? & ? & ? & Hl). intros [= <-]. destruct S as [s T d L]. simpl in *. destruct L; [|done]. by apply step_load.
  - destruct (place S i) as [[t []]|] eqn:Hp; [|done..]. apply place_thread in Hp. case_decide; [|done]. intros (th & s & ? & ->)%after_settle. by eapply step_call.
  - destruct (place S i) as [[t []]|] eqn:Hp; try done. apply place_thread in Hp. intros (th & s & ? & ->)%after_settle. by eapply step_scan.
  - destruct (place S i) as [[t [| |m row l key k|]]|] eqn:Hp; try done. apply place_thread in Hp. destruct (values (mem S) !! l) as [v|] eqn:Hv; [|done].
    destruct (request m (wdl v) (start_ts t)) as [[[] w]| | |] eqn:Hr; try done.
    + intros [= <-]. by eapply step_request.
    + intros [= <-]. by eapply step_request.
    + intros (th & s & ? & ->)%after_settle. by eapply step_die.
  - destruct (place S i) as [[t [| | |m row l key k]]|] eqn:Hp; try done. apply place_thread in Hp. destruct (values (mem S) !! l) as [v|] eqn:Hv; [|done].
    case_decide as H; [|done]. destruct H as [Hni Hk]. intros (th & s & ? & ->)%after_settle. eapply step_resume; [done| |done|done]. intros v' Hv'. by simplify_eq.
  - destruct (place S i) as [[t []]|] eqn:Hp; try done. apply place_thread in Hp. intros (e & He & (r & Hr & (b & Hb & H)%bind_Some)%bind_Some)%bind_Some.
    case_decide as Hd; [|done]. destruct Hd. injection H as <-. by eapply step_write.
  - destruct (place S i) as [[t []]|] eqn:Hp; try done. apply place_thread in Hp.
    destruct (precommit t (mem S) (map_to_list (rws t))) as [[[[] t1] s1]| | |] eqn:Hpre; try done. destruct (destroy t1 s1) as [[c s2]| | |] eqn:Hd; try done.
    destruct (unwantedb (threads S) s1 s2) eqn:Hu; [|done]. destruct (unused_tsb (threads S) i ts) eqn:Ht; [|done]. intros [= <-].
    eapply step_commit; [done|done|done|done|by apply unwantedb_spec|by apply unused_tsb_spec].
  - destruct (place S i) as [[t []]|] eqn:Hp; try done. apply place_thread in Hp. destruct (abort t (mem S) (map_to_list (rws t))) as [[t1 s1]| | |] eqn:Ha; try done.
    destruct (unused_tsb (threads S) i ts) eqn:Ht; [|done]. intros [= <-]. eapply step_abort; [done|done|done|by apply unused_tsb_spec].
Qed.

Definition run_schedule (evs : list action) S : option state := foldl (λ o ev, S ← o; perform ev S) (Some S) evs.

Lemma actions_reachable evs S0 : reachable schema S0 (default S0 (run_schedule evs S0)).
Proof.
  induction evs as [|ev evs IH] using rev_ind; [constructor|]. unfold run_schedule in *. rewrite foldl_app. simpl.
  destruct (foldl _ _ evs) as [S|]; simpl in *; [|constructor]. destruct (perform ev S) as [S'|] eqn:Hy; simpl; [|constructor].
  eapply reach_step; [done|]. by apply event_step in Hy.
Qed.
End waitdie_schedules.

(** ** Three threads *)
Section waitdie_example.
Import Memory WaitDie WaitDieSystem.
#[local] Existing Instance WaitDieLock.Operation_eq_dec.

Definition wd_schema : gmap Z nat := {[1 := 1%nat]}.
Definition no_gc : TimestampGC.t := TimestampGC.mk [] [].
Definition wd_thread (ts : Z) : thread := mkThread (new_tx ts 0 0 no_gc) Idle.
Definition wd0 : state :=
  mkState (mkStore ∅ ∅ (∅ : gmap Z (gmap Index.bytes positive))) (<[0%nat := wd_thread 100]> (<[1%nat := wd_thread 200]> {[2%nat := wd_thread 300]})) ∅ [].

Definition wd_run (evs : list action) : state := default wd0 (run_schedule wd_schema evs wd0).

Lemma wd_reach evs : reachable wd_schema wd0 (wd_run evs).
Proof. apply actions_reachable. Qed.

(** Thread 2, the youngest, updates key 10; thread 0 reads it and waits;
    thread 1 reads key 20 and inserts key 15 before key 30. *)
Definition wd_waiting : list action :=
  [ELoad 1 10 [Some 5]; ELoad 1 20 [Some 6]; ELoad 1 30 [Some 7]; ECall 2 (Update 1 10); EAsk 2; EResume 2; EWrite 2 (1, 10) [Some 8];
   ECall 0 (Read 1 10); EAsk 0; ECall 1 (Read 1 20); EAsk 1; EResume 1; ECall 1 (Insert 1 25); EAsk 1; EResume 1; EWrite 1 (1, 25) [Some 9]].
(** Thread 2 commits and thread 0 goes on; thread 1 commits. *)
Definition wd_done : list action := wd_waiting ++ [ECommit 2 400 0 0; EResume 0; ECommit 1 500 0 0; ECommit 0 600 0 0].

Lemma wd_initial : initial wd0.
Proof.
  assert (∀ i th, threads wd0 !! i = Some th → (i = 0%nat ∧ th = wd_thread 100) ∨ (i = 1%nat ∧ th = wd_thread 200) ∨ (i = 2%nat ∧ th = wd_thread 300)) as Hth.
  { intros i th. unfold wd0. cbn [threads]. intros [[<- <-]|[_ [[<- <-]|[_ [<- <-]%lookup_singleton_Some]]%lookup_insert_Some]]%lookup_insert_Some; auto. }
  split; [by intros tb k v|]. split; [done|]. split; [done|]. split; [done|]. split; [done|]. split.
  - intros i th [[_ ->]|[[_ ->]|[_ ->]]]%Hth; unfold wd_thread; eauto.
  - intros i j th th' [[-> ->]|[[-> ->]|[-> ->]]]%Hth [[-> ->]|[[-> ->]|[-> ->]]]%Hth Heq; (done || discriminate Heq).
Qed.

Definition wd_at (S : state) (i : nat) : thread := default (wd_thread 0) (threads S !! i).
Lemma wd_at_ok S i : (if threads S !! i is Some _ then true else false) = true → threads S !! i = Some (wd_at S i).
Proof. unfold wd_at. by destruct (threads S !! i). Qed.

(** A test of a thread that waits. *)
Lemma blocked_test S i (f : tx → loc → option (Z * Z) → (bool → store → prog) → bool) :
  match place S i with Some (t, Blocked _ _ l key k) => f t l key k | _ => false end = true →
  ∃ t m row l key k, threads S !! i = Some (mkThread t (Blocked m row l key k)) ∧ f t l key k = true.
Proof. destruct (place S i) as [[t [| | |m row l key k]]|] eqn:Hp; try done. apply place_thread in Hp. eauto 8. Qed.

Definition is_idle (th : thread) : bool := match tpc th with Idle => true | _ => false end.
Lemma is_idle_ok th : is_idle th = true → tpc th = Idle.
Proof. unfold is_idle. by destruct (tpc th). Qed.

Lemma runs_idle S th : runs wd_schema S th → tpc th = Idle → ∃ t1 s1, abort (ttx th) (mem S) (map_to_list (rws (ttx th))) = Ok (t1, s1).
Proof. unfold runs. intros Hr Hp. rewrite Hp in Hr. destruct Hr as [_ Hr]. by destruct (Hr (map_to_list (rws (ttx th)))) as [_ ?]. Qed.


Lemma waitdie_isolated_witness : row_at (mem (wd_run wd_waiting)) 1 20 = Some [Some 6].
Proof.
  apply (waitdie_isolated wd_schema wd0 (wd_run wd_waiting) 1 (wd_at (wd_run wd_waiting) 1) wd_initial (wd_reach _));
    [apply wd_at_ok; by_vm|split; lia|by_vm].
Defined.

Lemma waitdie_serializable_witness : ev_writes <$> log (wd_run wd_done) = [[((1, 10), Some [Some 8])]; [((1, 25), Some [Some 9])]; []] ∧
  ∃ d, serial (base (wd_run wd_done)) (log (wd_run wd_done)) d ∧ ∀ tb key, word64 key → row_at (mem (wd_run wd_done)) tb key = d !! (tb, key).
Proof. split; [by_vm|]. apply (waitdie_serializable wd_schema wd0 _ wd_initial (wd_reach _)). Defined.

Lemma waitdie_deadlock_free_witness : spins (wd_run wd_waiting) 0 ∧
  ∃ j, tc (waits_for (wd_run wd_waiting)) 0%nat j ∧ is_Some (threads (wd_run wd_waiting) !! j) ∧ ¬ spins (wd_run wd_waiting) j.
Proof.
  assert (spins (wd_run wd_waiting) 0) as Hsp; [|split; [exact Hsp|exact (proj2 (waitdie_deadlock_free wd_schema wd0 _ wd_initial (wd_reach wd_waiting)) 0%nat Hsp)]].
  destruct (blocked_test (wd_run wd_waiting) 0 (λ t l _ _, match values (mem (wd_run wd_waiting)) !! l with Some v => bool_decide (start_ts t ∈ waiter_ts (wdl v)) | None => false end))
    as (t & m & row & l & key & k & Hth & Ht); [by_vm|].
  destruct (values (mem (wd_run wd_waiting)) !! l) as [v|] eqn:Hv; [|done]. apply bool_decide_eq_true_1 in Ht. exists (wdl v), t, m, row, l, key, k, v.
  split; [exact Hth|]. split; [exact Hv|]. split; [reflexivity|exact Ht].
Defined.

(** ** What the conditions exclude *)

(** Thread 0 has updated key 20. *)
Definition next_own : list action :=
  [ELoad 1 10 [Some 5]; ELoad 1 20 [Some 6]; ECall 0 (Update 1 20); EAsk 0; EResume 0].

(** Commit and abort throw. *)
Definition throws {A} (o : outcome A) : bool := match o with Throw m => bool_decide (m = "No exclusive lock to unlock") | _ => false end.
Lemma throws_ok {A} (o : outcome A) : throws o = true → o = Throw "No exclusive lock to unlock".
Proof. destruct o; try done. simpl. by intros ->%bool_decide_eq_true_1. Qed.
Definition both_throw (t : tx) (s : store) (order : list entry) : bool := throws (precommit t s order) && throws (abort t s order).

Lemma own_test S th :
  match insert wd_schema (ttx th) (mem S) 1 15 with
  | Done (Ok (Returned (Some p), t, s)) =>
      match map_to_list (rws t) with [x; y] => both_throw t s [x; y] && both_throw t s [y; x] | _ => false end
  | _ => false
  end = true →
  ∃ p t s, insert wd_schema (ttx th) (mem S) 1 15 = Done (Ok (Returned (Some p), t, s)) ∧
    ∀ order, order ≡ₚ map_to_list (rws t) →
    precommit t s order = Throw "No exclusive lock to unlock" ∧ abort t s order = Throw "No exclusive lock to unlock".
Proof.
  destruct (insert _ _ _ _ _) as [[[[[[p|]| |] t] s]| | |]|] eqn:Hi; try done. destruct (map_to_list (rws t)) as [|x [|y [|]]] eqn:Hm; try done. intros Ht.
  exists p, t, s. split; [done|]. intros order Ho. rewrite Hm in Ho.
  unfold both_throw in Ht. apply andb_true_iff in Ht as [[H1 H2]%andb_true_iff [H3 H4]%andb_true_iff].
  symmetry in Ho. apply Permutation_length_2_inv in Ho as [-> | ->]; split; by apply throws_ok.
Qed.

(** C36: an insertion gives up the lock of the next key even when the
    transaction holds it for a row of its own: when it has updated key 20 and
    inserts key 15 before it, the insertion succeeds, and then both commit and
    abort throw, in every order of the entries. *)
Theorem waitdie_insert_next_own : ∃ S th p t s, reachable wd_schema wd0 S ∧ threads S !! 0%nat = Some th ∧ tpc th = Idle ∧
  insert wd_schema (ttx th) (mem S) 1 15 = Done (Ok (Returned (Some p), t, s)) ∧
  ∀ order, order ≡ₚ map_to_list (rws t) →
    precommit t s order = Throw "No exclusive lock to unlock" ∧ abort t s order = Throw "No exclusive lock to unlock".
Proof.
  exists (wd_run next_own), (wd_at (wd_run next_own) 0). destruct (own_test (wd_run next_own) (wd_at (wd_run next_own) 0)) as (p & t & s & Hi & Ht); [by_vm|].
  exists p, t, s. split; [apply wd_reach|]. split; [apply wd_at_ok; by_vm|]. split; [apply is_idle_ok; by_vm|]. split; [exact Hi|exact Ht].
Qed.

(** Threads 0 and 1 insert key 15 and wait for thread 2, which has read key
    20; thread 2 commits and thread 1 goes on. *)
Definition taken : list action :=
  [ELoad 1 10 [Some 5]; ELoad 1 20 [Some 6]; ECall 2 (Read 1 20); EAsk 2; EResume 2; ECall 0 (Insert 1 15); EAsk 0; ECall 1 (Insert 1 15); EAsk 1;
   ECommit 2 400 0 0; EResume 1].

(** Thread 0 has been granted the lock of value [l], goes on and aborts. *)
Definition leaks (S : state) (t : tx) (l : loc) (k : bool → store → prog) : bool :=
  match settle (k true (mem S)), values (mem S) !! l with
  | Ok (mkThread t1 Idle, s1), Some v0 =>
      match abort t1 s1 [] with
      | Ok (t2, s2) =>
          bool_decide (length (map_to_list (rws t1)) = 0%nat ∧ (start_ts t ∉ waiter_ts (wdl v0)) ∧
            WaitDieLock.op ∘ WaitDieLock.owner_list ∘ wdl <$> values s2 !! l = Some WaitDieLock.E ∧
            owner_ts ∘ WaitDieLock.owner_list ∘ wdl <$> values s2 !! l = Some [start_ts t] ∧
            waiter_ts ∘ wdl <$> values s2 !! l = Some [])
      | _ => false
      end
  | _, _ => false
  end.

Lemma leaks_ok S t l k : leaks S t l k = true → granted (mem S) l t ∧ ∃ t1 s1 t2 s2 v,
  settle (k true (mem S)) = Ok (mkThread t1 Idle, s1) ∧ (∀ order, order ≡ₚ map_to_list (rws t1) → abort t1 s1 order = Ok (t2, s2)) ∧
  values s2 !! l = Some v ∧ wdl v = own_lock (start_ts t).
Proof.
  unfold leaks. destruct (settle (k true (mem S))) as [[[t1 []] s1]| | |]; try done. destruct (values (mem S) !! l) as [v0|] eqn:Hv0; [|done].
  destruct (abort t1 s1 []) as [[t2 s2]| | |] eqn:Ha; try done. intros (Hr%nil_length_inv & Hg & Hop & Ho & Hq)%bool_decide_eq_true_1.
  split; [intros v' ?; by simplify_eq|]. destruct (values s2 !! l) as [v|] eqn:Hv; [|done]. exists t1, s1, t2, s2, v. split; [done|]. split.
  { intros order Hord. rewrite Hr in Hord. by apply Permutation_nil_r in Hord as ->. }
  split; [done|]. simpl in *. unfold own_lock. destruct (wdl v) as [q [o own]]. unfold owner_ts, waiter_ts in *. simpl in *. simplify_eq.
  destruct q; [|done]. by destruct own as [|[z []] [|]]; simplify_eq/=.
Qed.

Lemma own_lock_dies (a ts : Z) : a < ts →
  WaitDieLock.try_lock_shared (own_lock a) ts = Ok (WaitDieLock.Died, own_lock a) ∧ WaitDieLock.try_lock (own_lock a) ts = Ok (WaitDieLock.Died, own_lock a).
Proof. intros Hlt. unfold own_lock, WaitDieLock.try_lock_shared, WaitDieLock.try_lock. simpl. by rewrite (proj2 (Z.ltb_ge ts a)) by lia. Qed.

(** An insertion that finds its key taken after it has waited for the
    next key keeps the next key locked: the call returns null, the transaction
    aborts, and its exclusive lock is still there, so that every younger
    transaction that asks for the row dies from then on. *)
Theorem waitdie_taken_leaks_lock : ∃ S t m row l key k t1 s1 t2 s2 v, reachable wd_schema wd0 S ∧
  threads S !! 0%nat = Some (mkThread t (Blocked m row l key k)) ∧ granted (mem S) l t ∧
  settle (k true (mem S)) = Ok (mkThread t1 Idle, s1) ∧ (∀ order, order ≡ₚ map_to_list (rws t1) → abort t1 s1 order = Ok (t2, s2)) ∧
  values s2 !! l = Some v ∧
  ∀ ts, start_ts t < ts → WaitDieLock.try_lock_shared (wdl v) ts = Ok (WaitDieLock.Died, wdl v) ∧ WaitDieLock.try_lock (wdl v) ts = Ok (WaitDieLock.Died, wdl v).
Proof.
  destruct (blocked_test (wd_run taken) 0 (λ t l _ k, leaks (wd_run taken) t l k)) as (t & m & row & l & key & k & Hth & Ht); [by_vm|].
  destruct (leaks_ok _ _ _ _ Ht) as (Hg & t1 & s1 & t2 & s2 & v & Hk & Ha & Hv & Hw). exists (wd_run taken), t, m, row, l, key, k, t1, s1, t2, s2, v.
  split; [apply wd_reach|]. split; [exact Hth|]. split; [exact Hg|]. split; [exact Hk|]. split; [exact Ha|]. split; [exact Hv|].
  intros ts Hlt. rewrite Hw. exact (own_lock_dies _ _ Hlt).
Qed.
End waitdie_example.
