(* ===== verification/Utils.v ===== *)
(** * Strings and random numbers: utils/random.hpp and utils/utils.hpp

    C strings and [copy_cstr], SplitMix64 and xoshiro256++ on 64-bit words, the integers, strings and
    permutations drawn from them.  A function that draws is a function of the
    generator's state; an index or a divisor out of range is [Stuck]. *)
From S2P Require Import Prelude.

(** ** C strings *)

Abbreviation chars := (list Z).

(** The string in an array: the bytes before the first NUL. *)
Fixpoint str (a : chars) : list Z :=
  match a with [] => [] | c :: a => if c =? 0 then [] else c :: str a end.

(** [copy_cstr]: what [out] holds afterwards.  [in_] ends with NUL or is
    longer than what is copied. *)
Fixpoint copy_chars (out in_ : chars) (n : nat) : chars :=
  match out, n with
  | [], _ => []
  | _ :: out, O => 0 :: out
  | _ :: out, S n =>
      match in_ with
      | [] => 0 :: out
      | c :: in_ => if c =? 0 then 0 :: out else c :: copy_chars out in_ n
      end
  end.
Definition copy_cstr (out in_ : chars) (out_buf_size : nat) : chars :=
  match out_buf_size with O => out | S n => copy_chars out in_ n end.

Lemma length_copy_cstr out in_ n : length (copy_cstr out in_ n) = length out.
Proof.
  destruct n as [|n]; [done|]. simpl. revert in_ n. induction out as [|o out IH]; intros in_ n; [done|].
  destruct n as [|n]; [done|]. destruct in_ as [|c in_]; [done|]. simpl. destruct (c =? 0); simpl; [done|]. by rewrite IH.
Qed.

(** The copy is the string, cut to what fits. *)
Lemma str_copy_cstr out in_ n : (0 < n ≤ length out)%nat → str (copy_cstr out in_ n) = take (n - 1) (str in_).
Proof.
  destruct n as [|n]; [lia|]. intros [_ Hle]. simpl. rewrite Nat.sub_0_r. revert in_ n Hle.
  induction out as [|o out IH]; intros in_ n Hle; [simpl in Hle; lia|]. destruct n as [|n]; [done|]. destruct in_ as [|c in_]; [done|].
  simpl. destruct (c =? 0) eqn:Hc; simpl; [done|]. rewrite Hc. f_equal. apply IH. simpl in Hle. lia.
Qed.

Lemma str_app_nul a b : Forall (λ x, x ≠ 0) a → str (a ++ 0 :: b) = a.
Proof. induction 1 as [|x a Hx _ IH]; [done|]. simpl. rewrite IH. by destruct (Z.eqb_spec x 0). Qed.

Lemma copy_cstr_app out a b n : Forall (λ x, x ≠ 0) a → (length a < n)%nat → (length a < length out)%nat →
  copy_cstr out (a ++ 0 :: b) n = a ++ 0 :: drop (S (length a)) out.
Proof.
  destruct n as [|n]; [lia|]. intros Ha. simpl. revert n out. induction Ha as [|x a Hx _ IH]; intros n out Hn Ho; (destruct out as [|o out]; [simpl in Ho; lia|]).
  - by destruct n.
  - destruct n as [|n]; [simpl in Hn; lia|]. simpl. destruct (Z.eqb_spec x 0); [done|]. rewrite IH by (simpl in *; lia). done.
Qed.

Lemma str_nonzero a : Forall (λ x, x ≠ 0) (str a).
Proof. induction a as [|x a IH]; simpl; [constructor|]. destruct (Z.eqb_spec x 0); by constructor. Qed.
Lemma str_split a : (length (str a) < length a)%nat → a = str a ++ 0 :: drop (S (length (str a))) a.
Proof.
  induction a as [|x a IH]; simpl; [lia|]. destruct (Z.eqb_spec x 0) as [->|]; [done|]. simpl. intros H. f_equal. apply IH. lia.
Qed.

(** ** random.hpp *)
Module SplitMix64.
(** [operator()]: the number and the new [x_]. *)
Definition next (x_ : Z) : Z * Z :=
  let x := u64 (x_ + 0x9e3779b97f4a7c15) in
  let z := x in
  let z := u64 (Z.lxor z (Z.shiftr z 30) * 0xbf58476d1ce4e5b9) in
  let z := u64 (Z.lxor z (Z.shiftr z 27) * 0x94d049bb133111eb) in
  (Z.lxor z (Z.shiftr z 31), x).
End SplitMix64.

Module Xoshiro256PlusPlus.
Record State := mkS { s0 : Z; s1 : Z; s2 : Z; s3 : Z }.

Definition rotl (x k : Z) : Z := Z.lor (u64 (Z.shiftl x k)) (Z.shiftr x (64 - k)).

(** [operator()]. *)
Definition advance (s_ : State) : State :=
  let t := u64 (Z.shiftl (s1 s_) 17) in
  let a2 := Z.lxor (s2 s_) (s0 s_) in
  let a3 := Z.lxor (s3 s_) (s1 s_) in
  let a1 := Z.lxor (s1 s_) a2 in
  let a0 := Z.lxor (s0 s_) a3 in
  mkS a0 a1 (Z.lxor a2 t) (rotl a3 45).
Definition next (s_ : State) : Z * State :=
  (u64 (rotl (u64 (s0 s_ + s3 s_)) 23 + s0 s_), advance s_).

Definition JUMP : list Z := [0x180ec6d33cfd0aba; 0xd5a61266f0c9392c; 0xa9582618e03fc9aa; 0x39abdc4529b1661c].
Definition LONG_JUMP : list Z := [0x76e15d3efefdcbbf; 0xc5004e441c522fb3; 0x77710069854ee241; 0x39109bb02acbe635].
Definition xor (a b : State) : State :=
  mkS (Z.lxor (s0 a) (s0 b)) (Z.lxor (s1 a) (s1 b)) (Z.lxor (s2 a) (s2 b)) (Z.lxor (s3 a) (s3 b)).
Definition jump_by (jump : list Z) (s_ : State) : State :=
  (foldl (λ p word, foldl (λ p b, (if Z.testbit word b then xor p.1 p.2 else p.1, advance p.2)) p (seqZ 0 64))
    (mkS 0 0 0 0, s_) jump).1.
Definition jump_once (s_ : State) : State := jump_by JUMP s_.
Definition long_jump (s_ : State) : State := jump_by LONG_JUMP s_.
Definition jump (s_ : State) (num_jumps : nat) : State := Nat.iter num_jumps jump_once s_.

(** The constructor. *)
Definition new (seed : Z) (num_jumps : nat) : State :=
  let '(a1, x) := SplitMix64.next seed in
  let '(a2, x) := SplitMix64.next x in
  let '(a3, _) := SplitMix64.next x in
  jump (mkS seed a1 a2 a3) num_jumps.

(** *** The state is never zero *)
Definition wf (s_ : State) : Prop := word64 (s0 s_) ∧ word64 (s1 s_) ∧ word64 (s2 s_) ∧ word64 (s3 s_).
Definition zero : State := mkS 0 0 0 0.

Lemma word_lxor a b : word64 a → word64 b → word64 (Z.lxor a b).
Proof.
  intros Ha Hb. apply word_of_bits; [lia|apply Z.lxor_nonneg; unfold word in *; lia|].
  intros i Hi. by rewrite Z.lxor_spec, (word_testbit_high 64 a), (word_testbit_high 64 b).
Qed.
Lemma word_shiftr w a k : 0 ≤ w → 0 ≤ k → word w a → word w (Z.shiftr a k).
Proof.
  intros Hw Hk [Ha Hb]. rewrite Z.shiftr_div_pow2 by done. split; [apply Z.div_pos; lia|].
  eapply Z.le_lt_trans; [|exact Hb]. apply Z.div_le_upper_bound; [lia|]. assert (1 ≤ 2 ^ k) by lia. nia.
Qed.
Lemma rotl_word x k : 0 ≤ k ≤ 64 → word64 x → word64 (rotl x k).
Proof. intros Hk Hx. apply word_lor; [lia|by apply wrap_word|apply word_shiftr; lia || done]. Qed.

Lemma rotl_zero x k : 0 ≤ k < 64 → word64 x → rotl x k = 0 → x = 0.
Proof.
  intros Hk Hx H. apply Z.lor_eq_0_iff in H as [Hl Hr]. apply Z.bits_inj'. intros i Hi. rewrite Z.bits_0.
  destruct (Z.ltb_spec i (64 - k)).
  - assert (Z.testbit (u64 (Z.shiftl x k)) (i + k) = false) as Hb by (rewrite Hl; apply Z.bits_0).
    rewrite wrap_testbit, Z.shiftl_spec in Hb by lia. replace (i + k - k) with i in Hb by lia.
    destruct (Z.ltb_spec (i + k) 64); [done|lia].
  - assert (Z.testbit (Z.shiftr x (64 - k)) (i - (64 - k)) = false) as Hb by (rewrite Hr; apply Z.bits_0).
    rewrite Z.shiftr_spec in Hb by lia. by replace (i - (64 - k) + (64 - k)) with i in Hb by lia.
Qed.

Lemma advance_wf s_ : wf s_ → wf (advance s_).
Proof.
  intros (H0 & H1 & H2 & H3). assert (word64 (u64 (Z.shiftl (s1 s_) 17))) by by apply wrap_word.
  unfold advance, wf; simpl. split_and!; [..|apply rotl_word; [lia|]]; repeat apply word_lxor; done.
Qed.

(** The step of the generator has no kernel. *)
Lemma advance_zero s_ : wf s_ → advance s_ = zero → s_ = zero.
Proof.
  intros (H0 & H1 & H2 & H3) [= E0 E1 E2 E3]. apply rotl_zero in E3; [|lia|by apply word_lxor].
  rewrite E3, Z.lxor_0_r in E0. rewrite E0, Z.lxor_0_r in *. apply Z.lxor_eq in E1.
  assert (s1 s_ = 0) as Hs1.
  { rewrite <-E1 in E2. apply Z.lxor_eq in E2. apply Z.bits_inj'. intros i. apply (Zlt_0_ind (λ i, Z.testbit (s1 s_) i = Z.testbit 0 i)).
    clear i. intros i IH Hi. rewrite Z.bits_0. destruct (Z.ltb_spec i 64); [|by apply (word_testbit_high 64)].
    rewrite E2, wrap_testbit by lia. rewrite Z.shiftl_spec by done. destruct (i <? 64); [|done].
    destruct (Z.ltb_spec (i - 17) 0); [by apply Z.testbit_neg_r|]. rewrite IH, Z.bits_0 by lia. done. }
  rewrite Hs1 in *. rewrite Z.lxor_0_r in E3. destruct s_; simpl in *; by subst.
Qed.

(** [n] draws. *)
Definition draws (n : nat) (s_ : State) : State := Nat.iter n (λ s, (next s).2) s_.
Lemma draws_ok n s_ : wf s_ → s_ ≠ zero → wf (draws n s_) ∧ draws n s_ ≠ zero.
Proof.
  intros Hw Hz. induction n as [|n [IHw IHz]]; [done|]. simpl. split; [by apply advance_wf|]. intros E. apply IHz. by apply advance_zero.
Qed.

Lemma splitmix_word x : word64 (SplitMix64.next x).1 ∧ word64 (SplitMix64.next x).2.
Proof. unfold SplitMix64.next. simpl. split; [apply word_lxor; [|apply word_shiftr; [lia..|]]|]; by apply wrap_word. Qed.

Lemma new_ok seed : word64 seed → wf (new seed 0) ∧ new seed 0 ≠ zero.
Proof.
  intros Hs. unfold new, jump. pose proof (splitmix_word seed) as [? _]. destruct (SplitMix64.next seed) as [a1 x1] eqn:E1.
  pose proof (splitmix_word x1) as [? _]. destruct (SplitMix64.next x1) as [a2 x2]. pose proof (splitmix_word x2) as [? _].
  destruct (SplitMix64.next x2) as [a3 ?]. simpl in *. split; [done|]. intros [= -> -> _ _]. vm_compute in E1. done.
Qed.
End Xoshiro256PlusPlus.
Import Xoshiro256PlusPlus.

(** ** utils.hpp *)

(** A function that draws from [get_rand()]. *)
Definition Rand (A : Type) : Type := State → outcome (A * State).
#[export] Instance rand_ret : MRet Rand := λ A a st, Ok (a, st).
#[export] Instance rand_bind : MBind Rand := λ A B f m st, '(a, st) ← m st; f a st.
Definition lift {A} (m : outcome A) : Rand A := λ st, a ← m; Ok (a, st).

Definition urand_int (min max : Z) : Rand Z := λ st,
  let n := u64 (u64 (max - min) + 1) in
  _ ← assert_ (negb (n =? 0));
  let '(r, st) := next st in
  Ok (u64 (r mod n + min), st).

(** [get_constant_for_nurand] and [nurand_int]. *)
Definition get_constant_for_nurand (A : Z) (is_load : bool) : Z :=
  if A =? 255 then if is_load then 250 else 150
  else if A =? 1023 then 987
  else if A =? 8191 then 5987
  else UINT64_MAX.
Definition nurand_int (A : Z) (IS_LOAD : bool) (x y : Z) : Rand Z :=
  let C := get_constant_for_nurand A IS_LOAD in
  if C =? UINT64_MAX then lift (Throw "nurand_int bug")
  else
    a ← urand_int 0 A;
    b ← urand_int x y;
    _ ← lift (assert_ (negb (u64 (u64 (y - x) + 1) =? 0)));
    mret (u64 (u64 (Z.lor a b + C) mod u64 (u64 (y - x) + 1) + x)).

(** [out[i] = c], [memcpy(&out[i], ...)]. *)
Definition store_at (out : chars) (i : nat) (c : Z) : outcome chars :=
  if decide (i < length out)%nat then Ok (<[i := c]> out) else Stuck.
Definition memcpy_at (out : chars) (i : nat) (cs : chars) : outcome chars :=
  if decide (i + length cs ≤ length out)%nat then Ok (take i out ++ cs ++ drop (i + length cs) out) else Stuck.

Definition bytes_of (s : string) : chars := (λ a, Z.of_nat (Ascii.nat_of_ascii a)) <$> String.list_ascii_of_string s.
Definition alphanumeric : chars := bytes_of "0123456789ABCDEFGHIJKLMNOPQRSTUVWXYZabcdefghijklmnopqrstuvwxyz".
Definition digits : chars := bytes_of "0123456789".

(** [for (size_t i = 0; i < len_out; i++) out[i] = c[urand_int(0, len_c - 1)];]
    [n] is [len_out - i]. *)
Fixpoint fill (c : chars) (n i : nat) (out : chars) : Rand chars :=
  match n with
  | O => mret out
  | S n =>
      j ← urand_int 0 (Z.of_nat (length c) - 1);
      x ← lift (deref (c !! Z.to_nat j));
      out ← lift (store_at out i x);
      fill c n (S i) out
  end.
Definition make_random_string (c : chars) (out : chars) (min_len max_len : nat) : Rand (nat * chars) :=
  len_out ← urand_int (Z.of_nat min_len) (Z.of_nat max_len);
  out ← fill c (Z.to_nat len_out) 0 out;
  out ← lift (store_at out (Z.to_nat len_out) 0);
  mret (Z.to_nat len_out, out).
Definition make_random_astring := make_random_string alphanumeric.
Definition make_random_nstring := make_random_string digits.

(** [Permutation]: the shuffle; [i] goes from 0 to [s - 1]. *)
Definition swap {A} (l : list A) (i j : nat) : outcome (list A) :=
  x ← deref (l !! i); y ← deref (l !! j); Ok (<[i := y]> (<[j := x]> l)).
Fixpoint shuffle (n i : nat) (perm : list Z) : Rand (list Z) :=
  match n with
  | O => mret perm
  | S n =>
      let s := length perm in
      j ← urand_int 0 (Z.of_nat s - Z.of_nat i - 1);
      _ ← lift (assert_ (Z.of_nat i + j <? Z.of_nat s));
      perm ← (if j =? 0 then mret perm else lift (swap perm i (i + Z.to_nat j)));
      shuffle n (S i) perm
  end.
Definition Permutation_new (min max : Z) : Rand (list Z) :=
  _ ← lift (assert_ (min <=? max));
  let perm := seqZ min (max - min + 1) in
  shuffle (length perm - 1) 0 perm.

(** *** What is drawn is in range *)

(** [m] returns a value in [P]. *)
Definition draws_in {A} (m : Rand A) (P : A → Prop) : Prop := ∀ st, ∃ a st', m st = Ok (a, st') ∧ P a.

Lemma draws_bind {A B} (m : Rand A) (f : A → Rand B) P Q : draws_in m P → (∀ a, P a → draws_in (f a) Q) → draws_in (m ≫= f) Q.
Proof.
  intros Hm Hf st. destruct (Hm st) as (a & st1 & E & Ha). destruct (Hf a Ha st1) as (b & st2 & E' & Hb).
  exists b, st2. unfold mbind, rand_bind. by rewrite E.
Qed.
Lemma draws_ret {A} (a : A) (P : A → Prop) : P a → draws_in (mret a) P.
Proof. intros Ha st. by exists a, st. Qed.
Lemma draws_lift {A} (m : outcome A) a (P : A → Prop) : m = Ok a → P a → draws_in (lift m) P.
Proof. intros -> Ha st. by exists a, st. Qed.
Lemma draws_weaken {A} (m : Rand A) (P Q : A → Prop) : draws_in m P → (∀ a, P a → Q a) → draws_in m Q.
Proof. intros Hm HPQ st. destruct (Hm st) as (a & st' & E & Ha). exists a, st'. auto. Qed.

Lemma urand_int_in min max : 0 ≤ min ≤ max → max - min < UINT64_MAX → word64 max → draws_in (urand_int min max) (λ r, min ≤ r ≤ max).
Proof.
  intros Hm Hlt Hw st. unfold urand_int, UINT64_MAX, word in *. rewrite (wrap_small 64 (max - min)) by (unfold word; lia).
  rewrite (wrap_small 64 (max - min + 1)) by (unfold word; lia). rewrite assert_Ok by lia. cbn [mbind outcome_bind].
  destruct (next st) as [r st1]. eexists _, _. split; [done|]. pose proof (Z.mod_pos_bound r (max - min + 1)) as Hb.
  rewrite wrap_small by (unfold word; lia). lia.
Qed.

Lemma nurand_int_in A is_load x y : A = 255 ∨ A = 1023 ∨ A = 8191 → 0 ≤ x ≤ y → y < 2 ^ 32 → draws_in (nurand_int A is_load x y) (λ r, x ≤ r ≤ y).
Proof.
  intros HA Hxy Hy. unfold nurand_int.
  assert ((get_constant_for_nurand A is_load =? UINT64_MAX) = false) as -> by (destruct HA as [->|[->|]], is_load; subst; done).
  eapply draws_bind; [apply urand_int_in; unfold UINT64_MAX, word; lia|]. intros a _.
  eapply draws_bind; [apply urand_int_in; unfold UINT64_MAX, word; lia|]. intros b _.
  rewrite (wrap_small 64 (y - x)) by (unfold word; lia). rewrite (wrap_small 64 (y - x + 1)) by (unfold word; lia).
  eapply draws_bind with (P := λ _, True); [by apply (draws_lift _ ()); [apply assert_Ok; lia|]|]. intros _ _.
  apply draws_ret. generalize (u64 (Z.lor a b + get_constant_for_nurand A is_load)). intros r. pose proof (Z.mod_pos_bound r (y - x + 1)). rewrite wrap_small by (unfold word; lia). lia.
Qed.

(** Strings: no character of [c] is NUL. *)
Definition alphabet (c : chars) : Prop := c ≠ [] ∧ Z.of_nat (length c) < 2 ^ 32 ∧ Forall (λ x, x ≠ 0) c.
Lemma alphanumeric_ok : alphabet alphanumeric.
Proof. split_and!; [done|done|]. apply (bool_decide_unpack _). vm_compute. done. Qed.
Lemma digits_ok : alphabet digits.
Proof. split_and!; [done|done|]. apply (bool_decide_unpack _). vm_compute. done. Qed.

Lemma draw_char c : alphabet c → draws_in (j ← urand_int 0 (Z.of_nat (length c) - 1); lift (deref (c !! Z.to_nat j))) (λ x, x ≠ 0).
Proof.
  intros (Hn & Hl & Hc). assert (0 < length c)%nat by (by destruct c; [|simpl; lia]).
  eapply draws_bind; [apply urand_int_in; unfold UINT64_MAX, word; lia|]. intros j Hj. simpl in Hj.
  destruct (lookup_lt_is_Some_2 c (Z.to_nat j)) as [x Hx]; [lia|]. rewrite Hx. eapply draws_lift; [done|].
  exact (Forall_lookup_1 _ _ _ _ Hc Hx).
Qed.

Lemma fill_in c n i out : alphabet c → (i + n ≤ length out)%nat →
  draws_in (fill c n i out) (λ out', length out' = length out ∧ take i out' = take i out ∧ Forall (λ x, x ≠ 0) (take n (drop i out'))).
Proof.
  intros Hc. revert i out. induction n as [|n IH]; intros i out Hle; [by apply draws_ret|].
  intros st. destruct (draw_char c Hc st) as (x & st1 & E & Hx). unfold mbind, rand_bind in E. simpl. unfold mbind at 1, rand_bind at 1.
  destruct (urand_int _ _ st) as [[j st']| | |]; simpl in *; try discriminate.
  unfold mbind at 1, rand_bind at 1. rewrite E. simpl. unfold store_at. rewrite decide_True by lia.
  destruct (IH (S i) (<[i:=x]> out)) with (st := st1) as (out' & st2 & E2 & Hlen & Ht & Hf); [rewrite length_insert; lia|].
  unfold mbind, rand_bind, lift. simpl. rewrite E2. exists out', st2. rewrite length_insert in Hlen. split_and!; [done|done| |].
  - assert (take i (take (S i) out') = take i (take (S i) (<[i:=x]> out))) as H by by rewrite Ht.
    rewrite !take_take, Nat.min_l, take_insert_ge in H by lia. done.
  - assert (out' !! i = Some x) as Hi.
    { rewrite <-(lookup_take_lt _ (S i)) by lia. rewrite Ht, lookup_take_lt by lia. apply list_lookup_insert_eq. lia. }
    rewrite (drop_S _ _ _ Hi). simpl. by constructor.
Qed.

(** A random string ends with NUL at a length between the bounds. *)
Lemma make_random_string_in c out min max : alphabet c → (min ≤ max < length out)%nat → Z.of_nat (length out) < 2 ^ 32 →
  draws_in (make_random_string c out min max) (λ r, (min ≤ r.1 ≤ max)%nat ∧ length r.2 = length out ∧ length (str r.2) = r.1).
Proof.
  intros Hc Hb Hl. unfold make_random_string. eapply draws_bind; [apply urand_int_in; unfold UINT64_MAX, word; lia|].
  intros n Hn. simpl in Hn. eapply draws_bind; [apply fill_in; [done|simpl; lia]|]. intros out' (Hlen & _ & Hf).
  eapply draws_bind; [eapply (draws_lift _ (<[Z.to_nat n:=0]> out') (λ o, o = <[Z.to_nat n:=0]> out')); [|done]|].
  { unfold store_at. by rewrite decide_True by lia. }
  intros o ->. apply draws_ret. simpl. rewrite length_insert. split_and!; [lia..|done|].
  rewrite insert_take_drop, str_app_nul by (done || lia). rewrite length_take. lia.
Qed.

(** A swap of two elements. *)
Lemma swap_ok {A} (l : list A) i j : (i < length l)%nat → (j < length l)%nat → i ≠ j → ∃ l', swap l i j = Ok l' ∧ l' ≡ₚ l.
Proof.
  intros Hi Hj Hne. destruct (lookup_lt_is_Some_2 l i Hi) as [x Hx], (lookup_lt_is_Some_2 l j Hj) as [y Hy].
  unfold swap. rewrite Hx, Hy. simpl. eexists. split; [done|]. apply Permutation_inj. rewrite !length_insert. split; [done|].
  exists (λ n, if decide (n = i) then j else if decide (n = j) then i else n). split.
  - intros n m H. repeat case_decide; congruence.
  - intros n. destruct (decide (n = i)) as [->|]; [rewrite list_lookup_insert_eq by (by rewrite length_insert); done|].
    rewrite list_lookup_insert_ne by done. destruct (decide (n = j)) as [->|]; [by rewrite list_lookup_insert_eq|by rewrite list_lookup_insert_ne].
Qed.

Lemma shuffle_in n i perm : (i + n < length perm)%nat → Z.of_nat (length perm) < 2 ^ 32 → draws_in (shuffle n i perm) (λ p, p ≡ₚ perm).
Proof.
  revert i perm. induction n as [|n IH]; intros i perm Hle Hl; [by apply draws_ret|]. simpl.
  eapply draws_bind; [apply urand_int_in; unfold UINT64_MAX, word; lia|]. intros j Hj. simpl in Hj.
  eapply (draws_bind _ _ (λ _, True)); [apply (draws_lift _ ()); [apply assert_Ok; lia|done]|]. intros _ _.
  eapply (draws_bind _ _ (λ p, p ≡ₚ perm)).
  - destruct (Z.eqb_spec j 0); [by apply draws_ret|]. destruct (swap_ok perm i (i + Z.to_nat j)) as (l' & E & Hp); [lia..|]. by eapply draws_lift.
  - intros p Hp. pose proof (Permutation_length Hp) as Hlen. eapply draws_weaken; [apply IH; lia|]. intros q Hq. simpl in Hq. by rewrite Hq.
Qed.

Lemma Permutation_new_in min max : 0 ≤ min ≤ max → max < 2 ^ 32 - 1 → draws_in (Permutation_new min max) (λ p, p ≡ₚ seqZ min (max - min + 1)).
Proof.
  intros Hm Hl. unfold Permutation_new. eapply (draws_bind _ _ (λ _, True)); [apply (draws_lift _ ()); [apply assert_Ok; lia|done]|].
  intros _ _. apply shuffle_in; rewrite ?length_seqZ; lia.
Qed.
