(* ===== verification/Records.v ===== *)
(** * benchmarks/tpcc: the records

    The rows of the TPC-C tables ([record_layout.hpp]), their copies
    ([record_layout.cpp]) and the C strings in them ([copy_cstr] of
    [utils.hpp], [make_clast]).  A [char] array is the list of its bytes.  The
    arithmetic of [double] is a parameter. *)
From S2P Require Import Prelude Utils.

(** The operations on [double] the benchmark uses. *)
Class Double := {
  double : Type;
  d_of_Z : Z → double;
  d_add : double → double → double;
  d_sub : double → double → double;
  d_mul : double → double → double;
  d_div : double → double → double;
  (** [snprintf] with ["%7.2f"] *)
  d_print : double → list Z
}.

(** ** The records *)
Module Records.
Section records.
Context `{HD : Double}.

Record Item := mkItem { i_id : Z; i_im_id : Z; i_price : double; i_name : chars; i_data : chars }.
Record Address := mkAddress { street_1 : chars; street_2 : chars; city : chars; state : chars; zip : chars }.
Record Warehouse := mkWarehouse { w_id : Z; w_tax : double; w_ytd : double; w_name : chars; w_address : Address }.
(** [s_dist] is the array of ten arrays, in memory order. *)
Record Stock := mkStock {
  s_w_id : Z; s_i_id : Z; s_quantity : Z; s_ytd : Z; s_order_cnt : Z; s_remote_cnt : Z; s_dist : chars; s_data : chars
}.
Record District := mkDistrict {
  d_w_id : Z; d_id : Z; d_next_o_id : Z; d_tax : double; d_ytd : double; d_name : chars; d_address : Address
}.
Record Customer := mkCustomer {
  c_w_id : Z; c_d_id : Z; c_id : Z; c_payment_cnt : Z; c_delivery_cnt : Z; c_since : Z;
  c_credit_lim : double; c_discount : double; c_balance : double; c_ytd_payment : double;
  c_first : chars; c_middle : chars; c_last : chars; c_phone : chars; c_credit : chars; c_data : chars; c_address : Address
}.
Record History := mkHistory {
  h_c_w_id : Z; h_c_d_id : Z; h_c_id : Z; h_w_id : Z; h_d_id : Z; h_date : Z; h_amount : double; h_data : chars
}.
Record Order := mkOrder {
  o_w_id : Z; o_d_id : Z; o_id : Z; o_c_id : Z; o_carrier_id : Z; o_ol_cnt : Z; o_all_local : Z; o_entry_d : Z
}.
Record NewOrder := mkNewOrder { no_w_id : Z; no_d_id : Z; no_o_id : Z }.
Record OrderLine := mkOrderLine {
  ol_w_id : Z; ol_d_id : Z; ol_o_id : Z; ol_number : Z; ol_i_id : Z; ol_supply_w_id : Z;
  ol_delivery_d : Z; ol_quantity : Z; ol_amount : double; ol_dist_info : chars
}.

(** Sizes of the arrays. *)
Definition MAX_NAME := 24%nat.
Definition MAX_DATA := 50%nat.
Definition MAX_STREET := 20%nat.
Definition MAX_CITY := 20%nat.
Definition STATE := 2%nat.
Definition ZIP := 9%nat.
Definition W_MAX_NAME := 10%nat.
Definition D_MAX_NAME := 10%nat.
Definition DIST := 24%nat.
Definition MAX_FIRST := 16%nat.
Definition MAX_MIDDLE := 2%nat.
Definition MAX_LAST := 16%nat.
Definition PHONE := 16%nat.
Definition CREDIT := 2%nat.
Definition C_MAX_DATA := 500%nat.
Definition H_MAX_DATA := 24%nat.
Definition DIST_INFO := 24%nat.

(** *** [deep_copy_from]: the destination afterwards *)

Definition Item_deep_copy_from (this src : Item) : Item :=
  mkItem (i_id src) (i_im_id src) (i_price src)
    (copy_cstr (i_name this) (i_name src) (S MAX_NAME)) (copy_cstr (i_data this) (i_data src) (S MAX_DATA)).

Definition Address_deep_copy_from (this src : Address) : Address :=
  mkAddress (copy_cstr (street_1 this) (street_1 src) (S MAX_STREET)) (copy_cstr (street_2 this) (street_2 src) (S MAX_STREET))
    (copy_cstr (city this) (city src) (S MAX_CITY)) (copy_cstr (state this) (state src) (S STATE)) (copy_cstr (zip this) (zip src) (S ZIP)).

Definition Warehouse_deep_copy_from (this src : Warehouse) : Warehouse :=
  mkWarehouse (w_id src) (w_tax src) (w_ytd src) (copy_cstr (w_name this) (w_name src) (S W_MAX_NAME))
    (Address_deep_copy_from (w_address this) (w_address src)).

(** [memcpy(s_dist[0], src.s_dist[0], sizeof(10 * (Stock::DIST + 1)))]: the
    operand of [sizeof] is an [int]. *)
Definition sizeof_int := 4%nat.
Definition Stock_deep_copy_from (this src : Stock) : Stock :=
  mkStock (s_w_id src) (s_i_id src) (s_quantity src) (s_ytd src) (s_order_cnt src) (s_remote_cnt src)
    (take sizeof_int (s_dist src) ++ drop sizeof_int (s_dist this)) (copy_cstr (s_data this) (s_data src) (S MAX_DATA)).

Definition District_deep_copy_from (this src : District) : District :=
  mkDistrict (d_w_id src) (d_id src) (d_next_o_id src) (d_tax src) (d_ytd src) (copy_cstr (d_name this) (d_name src) (S D_MAX_NAME))
    (Address_deep_copy_from (d_address this) (d_address src)).

Definition Customer_deep_copy_from (this src : Customer) : Customer :=
  mkCustomer (c_w_id src) (c_d_id src) (c_id src) (c_payment_cnt src) (c_delivery_cnt src) (c_since src)
    (c_credit_lim src) (c_discount src) (c_balance src) (c_ytd_payment src)
    (copy_cstr (c_first this) (c_first src) (S MAX_FIRST)) (copy_cstr (c_middle this) (c_middle src) (S MAX_MIDDLE))
    (copy_cstr (c_last this) (c_last src) (S MAX_LAST)) (copy_cstr (c_phone this) (c_phone src) (S PHONE))
    (copy_cstr (c_credit this) (c_credit src) (S CREDIT)) (copy_cstr (c_data this) (c_data src) (S C_MAX_DATA))
    (Address_deep_copy_from (c_address this) (c_address src)).

Definition History_deep_copy_from (this src : History) : History :=
  mkHistory (h_c_w_id src) (h_c_d_id src) (h_c_id src) (h_w_id src) (h_d_id src) (h_date src) (h_amount src)
    (copy_cstr (h_data this) (h_data src) (S H_MAX_DATA)).

Definition Order_deep_copy_from (this src : Order) : Order := src.
Definition NewOrder_deep_copy_from (this src : NewOrder) : NewOrder := src.

Definition OrderLine_deep_copy_from (this src : OrderLine) : OrderLine :=
  mkOrderLine (ol_w_id src) (ol_d_id src) (ol_o_id src) (ol_number src) (ol_i_id src) (ol_supply_w_id src)
    (ol_delivery_d src) (ol_quantity src) (ol_amount src) (copy_cstr (ol_dist_info this) (ol_dist_info src) (S DIST_INFO)).

(** *** A record of any table *)
Inductive record :=
| RItem (r : Item) | RWarehouse (r : Warehouse) | RStock (r : Stock) | RDistrict (r : District) | RCustomer (r : Customer)
| RHistory (r : History) | ROrder (r : Order) | RNewOrder (r : NewOrder) | ROrderLine (r : OrderLine).
End records.

(** The tables, in the order in which a commit goes over them. *)
Inductive table := TItem | TWarehouse | TStock | TDistrict | TCustomer | THistory | TOrder | TNewOrder | TOrderLine.
#[export] Instance table_eq_dec : EqDecision table.
Proof. solve_decision. Defined.
Definition tables : list table := [TItem; TWarehouse; TStock; TDistrict; TCustomer; THistory; TOrder; TNewOrder; TOrderLine].
#[export] Instance table_countable : Countable table.
Proof.
  refine (inj_countable' (λ t, match t with TItem => 0 | TWarehouse => 1 | TStock => 2 | TDistrict => 3 | TCustomer => 4
    | THistory => 5 | TOrder => 6 | TNewOrder => 7 | TOrderLine => 8 end : Z)
    (λ z, match z with 0 => TItem | 1 => TWarehouse | 2 => TStock | 3 => TDistrict | 4 => TCustomer
    | 5 => THistory | 6 => TOrder | 7 => TNewOrder | _ => TOrderLine end) _). by intros [].
Defined.

Section any_record.
Context `{HD : Double}.
Definition table_of (r : record) : table :=
  match r with
  | RItem _ => TItem | RWarehouse _ => TWarehouse | RStock _ => TStock | RDistrict _ => TDistrict | RCustomer _ => TCustomer
  | RHistory _ => THistory | ROrder _ => TOrder | RNewOrder _ => TNewOrder | ROrderLine _ => TOrderLine
  end.

Definition deep_copy_from (this src : record) : outcome record :=
  match this, src with
  | RItem a, RItem b => Ok (RItem (Item_deep_copy_from a b))
  | RWarehouse a, RWarehouse b => Ok (RWarehouse (Warehouse_deep_copy_from a b))
  | RStock a, RStock b => Ok (RStock (Stock_deep_copy_from a b))
  | RDistrict a, RDistrict b => Ok (RDistrict (District_deep_copy_from a b))
  | RCustomer a, RCustomer b => Ok (RCustomer (Customer_deep_copy_from a b))
  | RHistory a, RHistory b => Ok (RHistory (History_deep_copy_from a b))
  | ROrder a, ROrder b => Ok (ROrder (Order_deep_copy_from a b))
  | RNewOrder a, RNewOrder b => Ok (RNewOrder (NewOrder_deep_copy_from a b))
  | ROrderLine a, ROrderLine b => Ok (ROrderLine (OrderLine_deep_copy_from a b))
  | _, _ => Stuck
  end.
End any_record.

(** ** What a copy keeps *)
Section contents.
Context `{HD : Double}.
Implicit Types r : record.

Definition map_address (f : chars → chars) (a : Address) : Address :=
  mkAddress (f (street_1 a)) (f (street_2 a)) (f (city a)) (f (state a)) (f (zip a)).

(** The record with its strings, and what is copied of [s_dist], in place of
    the arrays. *)
Definition norm r : record :=
  match r with
  | RItem i => RItem (mkItem (i_id i) (i_im_id i) (i_price i) (str (i_name i)) (str (i_data i)))
  | RWarehouse w => RWarehouse (mkWarehouse (w_id w) (w_tax w) (w_ytd w) (str (w_name w)) (map_address str (w_address w)))
  | RStock s => RStock (mkStock (s_w_id s) (s_i_id s) (s_quantity s) (s_ytd s) (s_order_cnt s) (s_remote_cnt s)
      (take sizeof_int (s_dist s)) (str (s_data s)))
  | RDistrict d => RDistrict (mkDistrict (d_w_id d) (d_id d) (d_next_o_id d) (d_tax d) (d_ytd d) (str (d_name d))
      (map_address str (d_address d)))
  | RCustomer c => RCustomer (mkCustomer (c_w_id c) (c_d_id c) (c_id c) (c_payment_cnt c) (c_delivery_cnt c) (c_since c)
      (c_credit_lim c) (c_discount c) (c_balance c) (c_ytd_payment c) (str (c_first c)) (str (c_middle c)) (str (c_last c))
      (str (c_phone c)) (str (c_credit c)) (str (c_data c)) (map_address str (c_address c)))
  | RHistory h => RHistory (mkHistory (h_c_w_id h) (h_c_d_id h) (h_c_id h) (h_w_id h) (h_d_id h) (h_date h) (h_amount h) (str (h_data h)))
  | ROrder _ | RNewOrder _ => r
  | ROrderLine l => ROrderLine (mkOrderLine (ol_w_id l) (ol_d_id l) (ol_o_id l) (ol_number l) (ol_i_id l) (ol_supply_w_id l)
      (ol_delivery_d l) (ol_quantity l) (ol_amount l) (str (ol_dist_info l)))
  end.

(** Two records with the same contents. *)
Definition same r r' : Prop := norm r = norm r'.
#[export] Instance same_equiv : Equivalence same.
Proof. split; unfold same; [by intros ?|by intros ? ? ->|by intros ? ? ? -> ->]. Qed.

Definition address_arrays (a : Address) : list (nat * chars) :=
  [(MAX_STREET, street_1 a); (MAX_STREET, street_2 a); (MAX_CITY, city a); (STATE, state a); (ZIP, zip a)].
(** The strings of a record, with the longest each may be; the ten texts in
    [s_dist] of a stock are apart, since a copy does not keep them.  What is
    generated has them too (dist_strings of RecordGen). *)
Definition arrays r : list (nat * chars) :=
  match r with
  | RItem i => [(MAX_NAME, i_name i); (MAX_DATA, i_data i)]
  | RWarehouse w => (W_MAX_NAME, w_name w) :: address_arrays (w_address w)
  | RStock s => [(MAX_DATA, s_data s)]
  | RDistrict d => (D_MAX_NAME, d_name d) :: address_arrays (d_address d)
  | RCustomer c => [(MAX_FIRST, c_first c); (MAX_MIDDLE, c_middle c); (MAX_LAST, c_last c); (PHONE, c_phone c);
      (CREDIT, c_credit c); (C_MAX_DATA, c_data c)] ++ address_arrays (c_address c)
  | RHistory h => [(H_MAX_DATA, h_data h)]
  | ROrder _ | RNewOrder _ => []
  | ROrderLine l => [(DIST_INFO, ol_dist_info l)]
  end.
Definition fits (x : nat * chars) : Prop := length x.2 = S x.1.
Definition ends (x : nat * chars) : Prop := (length (str x.2) ≤ x.1)%nat.
Definition dist_size := (10 * S DIST)%nat.
Definition sized r : Prop := Forall fits (arrays r) ∧ match r with RStock s => length (s_dist s) = dist_size | _ => True end.
(** Every array ends with NUL. *)
Definition terminated r : Prop := Forall ends (arrays r).
Definition well_formed r : Prop := sized r ∧ terminated r.

Lemma copy_string n (out in_ : chars) : length out = S n → (length (str in_) ≤ n)%nat → str (copy_cstr out in_ (S n)) = str in_.
Proof. intros Hl Hs. rewrite str_copy_cstr by lia. rewrite Nat.sub_succ, Nat.sub_0_r. by apply take_ge. Qed.

Lemma copy_address a b : Forall fits (address_arrays a) → Forall ends (address_arrays b) →
  map_address str (Address_deep_copy_from a b) = map_address str b ∧
  Forall fits (address_arrays (Address_deep_copy_from a b)) ∧ Forall ends (address_arrays (Address_deep_copy_from a b)).
Proof.
  destruct a, b. unfold address_arrays, Address_deep_copy_from, map_address, fits, ends. rewrite !Forall_cons. cbn -[copy_cstr]. intros. destruct_and!.
  rewrite !length_copy_cstr, !copy_string by done. by split_and!.
Qed.

(** A copy onto a record of the same type has the contents of the source. *)
Lemma deep_copy_from_ok this src : table_of this = table_of src → sized this → well_formed src →
  ∃ r, deep_copy_from this src = Ok r ∧ same r src ∧ well_formed r ∧ table_of r = table_of src.
Proof.
  intros Ht [Hl Hd] [[Hl' Hd'] Hs]. unfold terminated in Hs.
  destruct this, src; try discriminate Ht; (eexists; split; [reflexivity|]); unfold same, well_formed, sized, terminated;
    cbn -[copy_cstr take drop address_arrays] in *; rewrite ?Forall_cons in Hl, Hl', Hs; rewrite ?Forall_cons; destruct_and?;
    try match goal with H : Forall fits (address_arrays ?a), H' : Forall ends (address_arrays ?b) |- context [Address_deep_copy_from ?a ?b] =>
      destruct (copy_address a b H H') as (-> & ? & ?) end;
    unfold fits, ends in *; cbn -[copy_cstr take drop address_arrays] in *; rewrite ?length_copy_cstr, ?copy_string by done;
    try (rewrite take_app_le, take_take by (rewrite length_take, Hd'; unfold dist_size, sizeof_int, DIST; lia));
    rewrite ?length_app, ?length_take, ?length_drop; split_and!; try done; try apply Forall_nil_2.
  rewrite Hd, Hd'. done.
Qed.
End contents.

(** ** Last names *)

Definition candidates : list (list Z) :=
  bytes_of <$> ["BAR"; "OUGHT"; "ABLE"; "PRI"; "PRES"; "ESE"; "ANTI"; "CALLY"; "ATION"; "EING"].

(** The loop of [make_clast]: [out] from position [len] on. *)
Fixpoint make_clast_loop (out : chars) (len : nat) (ds : list Z) : outcome (nat * chars) :=
  match ds with
  | [] => Ok (len, out)
  | i :: ds =>
      c ← deref (candidates !! Z.to_nat i);
      let tail := copy_cstr (drop len out) (c ++ [0]) (S MAX_LAST - len) in
      make_clast_loop (take len out ++ tail) (len + length (str tail)) ds
  end.
Definition make_clast (out : chars) (num : Z) : outcome (nat * chars) :=
  _ ← assert_ (num <? 1000);
  '(len, out) ← make_clast_loop out 0 [num / 100; (num mod 100) / 10; num mod 10];
  _ ← assert_ (Nat.ltb len MAX_LAST);
  out ← store_at out len 0;
  Ok (len, out).

(** The syllable of a digit. *)
Definition syllable (i : Z) : list Z := default [] (candidates !! Z.to_nat i).

Lemma syllable_ok i : 0 ≤ i < 10 → candidates !! Z.to_nat i = Some (syllable i) ∧ (length (syllable i) ≤ 5)%nat ∧ Forall (λ x, x ≠ 0) (syllable i).
Proof.
  intros Hi. assert (i ∈ [0; 1; 2; 3; 4; 5; 6; 7; 8; 9]) as Hin by (rewrite !elem_of_cons, elem_of_nil; lia).
  rewrite !elem_of_cons, elem_of_nil in Hin. destruct_or!; try done; subst; (split; [vm_compute; reflexivity|split; [vm_compute; lia|vm_compute; repeat (constructor; [lia|]); constructor]]).
Qed.

Lemma make_clast_loop_ok ds : ∀ out len, Forall (λ i, 0 ≤ i < 10) ds → length out = S MAX_LAST → (len + 5 * length ds < S MAX_LAST)%nat →
  ∃ tl, make_clast_loop out len ds = Ok (length (take len out ++ (ds ≫= syllable)), (take len out ++ (ds ≫= syllable)) ++ tl) ∧
    length ((take len out ++ (ds ≫= syllable)) ++ tl) = S MAX_LAST ∧ (length (take len out ++ (ds ≫= syllable)) ≤ len + 5 * length ds)%nat.
Proof.
  induction ds as [|i ds IH]; intros out len Hds Hl Hlen; simpl.
  - exists (drop len out). rewrite app_nil_r, take_drop, length_take, Nat.min_l by lia. split_and!; [done|done|lia].
  - apply Forall_cons in Hds as [Hi Hds]. destruct (syllable_ok i Hi) as (-> & Hs & Hnz). simpl. simpl in Hlen.
    set (n := length (syllable i)) in *.
    assert (copy_cstr (drop len out) (syllable i ++ [0]) (S MAX_LAST - len) = syllable i ++ 0 :: drop (S n) (drop len out)) as Hcopy.
    { subst n. apply copy_cstr_app; [done| |]; rewrite ?length_drop; lia. }
    rewrite Hcopy, str_app_nul by done. fold n.
    set (out' := take len out ++ _). assert (length out' = S MAX_LAST) as Hl'.
    { unfold out'. rewrite length_app, length_take, length_app. cbn [length]. rewrite !length_drop. fold n. lia. }
    assert (take (len + n) out' = take len out ++ syllable i) as Ht.
    { unfold out'. rewrite app_assoc. apply take_app_length'. rewrite length_app, length_take. lia. }
    destruct (IH out' (len + n)%nat Hds Hl' ltac:(lia)) as (tl & E & H1 & H2). rewrite Ht in *. rewrite (app_assoc (take len out) (syllable i)). exists tl. split_and!; [done|done|etrans; [exact H2|lia]].
Qed.

(** A last name is the syllables of the three digits of its number. *)
Lemma make_clast_ok out num : 0 ≤ num < 1000 → length out = S MAX_LAST →
  ∃ len out', make_clast out num = Ok (len, out') ∧ length out' = S MAX_LAST ∧ len = length (str out') ∧ (len < MAX_LAST)%nat ∧
    str out' = syllable (num / 100) ++ syllable (num mod 100 / 10) ++ syllable (num mod 10).
Proof.
  intros Hn Hl. unfold make_clast. rewrite assert_Ok by lia.
  set (ds := [num / 100; num mod 100 / 10; num mod 10]).
  assert (Forall (λ i, 0 ≤ i < 10) ds) as Hds by (repeat constructor; Z.to_euclidean_division_equations; lia).
  destruct (make_clast_loop_ok ds out 0 Hds Hl) as (tl & E & H1 & H2); [simpl; unfold MAX_LAST; lia|].
  cbn [mbind outcome_bind]. rewrite E. rewrite take_0, app_nil_l in *. cbn [mbind outcome_bind]. set (name := ds ≫= syllable) in *.
  assert (length name < MAX_LAST)%nat as Hlt by (change (length ds) with 3%nat in H2; unfold MAX_LAST; lia).
  rewrite assert_Ok by (by apply Nat.ltb_lt). cbn [mbind outcome_bind]. unfold store_at. rewrite decide_True by (rewrite H1; unfold MAX_LAST in *; lia).
  assert (str (<[length name:=0]> (name ++ tl)) = name) as Hstr.
  { rewrite insert_take_drop by (rewrite H1; unfold MAX_LAST in *; lia). rewrite take_app_length. apply str_app_nul.
    clear -Hds. unfold name. induction Hds as [|i ds Hi _ IH]; [constructor|]. simpl. apply Forall_app. split; [by apply syllable_ok|done]. }
  cbn [mbind outcome_bind]. eexists _, _. split; [done|]. rewrite Hstr, length_insert. split_and!; [done..|].
  unfold name, ds. simpl. by rewrite app_nil_r.
Qed.
End Records.
