(* ===== verification/RecordGen.v ===== *)
(** * benchmarks/tpcc: the initial rows

    [generate] of every record ([record_layout.cpp]) and the random strings
    it fills them with ([record_layout.hpp]).  Each is a function of the
    memory it is called on: the arrays are overwritten in place, a write
    outside one is [Stuck].  What is generated is well formed. *)
From S2P Require Import Prelude Utils Records.

Module RecordGen.
Import Records.
Section generate.
Context `{HD : Double}.

Definition urand_double (min max divider : Z) : Rand double :=
  n ← urand_int min max; mret (d_div (d_of_Z n) (d_of_Z divider)).

(** [make_original]. *)
Definition ORIGINAL : chars := bytes_of "ORIGINAL".
Definition make_original (out : chars) : Rand chars :=
  let len := length (str out) in
  _ ← lift (assert_ (Nat.leb 8 len));
  i ← urand_int 0 (Z.of_nat len - 8);
  lift (memcpy_at out (Z.to_nat i) ORIGINAL).
Definition maybe_original (data : chars) : Rand chars :=
  p ← urand_int 0 99;
  if p <? 10 then make_original data else mret data.

Definition astring (out : chars) (min_len max_len : nat) : Rand chars := r ← make_random_astring out min_len max_len; mret r.2.
Definition nstring (out : chars) (min_len max_len : nat) : Rand chars := r ← make_random_nstring out min_len max_len; mret r.2.

Definition make_random_zip (out : chars) : Rand chars :=
  out ← nstring out 4 4;
  lift (memcpy_at out 4 [49; 49; 49; 49; 49; 0]).

Definition make_random_address (a : Address) : Rand Address :=
  s1 ← astring (street_1 a) 10 MAX_STREET;
  s2 ← astring (street_2 a) 10 MAX_STREET;
  c ← astring (city a) 10 MAX_CITY;
  st ← astring (state a) STATE STATE;
  z ← make_random_zip (zip a);
  mret (mkAddress s1 s2 c st z).

Definition Item_generate (this : Item) (i_id_ : Z) : Rand Item :=
  im ← urand_int 1 10000;
  price ← urand_double 100 10000 100;
  name ← astring (i_name this) 14 MAX_NAME;
  data ← astring (i_data this) 26 MAX_DATA;
  data ← maybe_original data;
  mret (mkItem i_id_ im price name data).

Definition Warehouse_generate (this : Warehouse) (w_id_ : Z) : Rand Warehouse :=
  tax ← urand_double 0 2000 10000;
  name ← astring (w_name this) 6 W_MAX_NAME;
  address ← make_random_address (w_address this);
  mret (mkWarehouse w_id_ tax (d_of_Z 300000) name address).

(** The ten arrays of [s_dist], one after the other. *)
Fixpoint dist_loop (n : nat) (s_dist : chars) : Rand chars :=
  match n with
  | O => mret s_dist
  | S n =>
      d ← astring (take (S DIST) s_dist) DIST DIST;
      rest ← dist_loop n (drop (S DIST) s_dist);
      mret (d ++ rest)
  end.
Definition Stock_generate (this : Stock) (s_w_id_ s_i_id_ : Z) : Rand Stock :=
  quantity ← urand_int 10 100;
  dist ← dist_loop 10 (s_dist this);
  data ← astring (s_data this) 26 MAX_DATA;
  data ← maybe_original data;
  mret (mkStock s_w_id_ s_i_id_ quantity 0 0 0 dist data).

Definition District_generate (this : District) (d_w_id_ d_id_ : Z) : Rand District :=
  tax ← urand_double 0 2000 10000;
  name ← astring (d_name this) 6 D_MAX_NAME;
  address ← make_random_address (d_address this);
  mret (mkDistrict d_w_id_ d_id_ 3001 tax (d_of_Z 30000) name address).

Definition Customer_generate (this : Customer) (c_w_id_ c_d_id_ c_id_ t_ : Z) : Rand Customer :=
  discount ← urand_double 0 5000 10000;
  first ← astring (c_first this) 8 MAX_FIRST;
  let middle := copy_cstr (c_middle this) (bytes_of "OE" ++ [0]) (S MAX_MIDDLE) in
  n ← (if c_id_ <=? 1000 then mret (c_id_ - 1) else nurand_int 255 true 0 999);
  last ← lift (make_clast (c_last this) n);
  phone ← nstring (c_phone this) PHONE PHONE;
  p ← urand_int 0 99;
  let credit := copy_cstr (c_credit this) (bytes_of (if p <? 10 then "BC" else "GC") ++ [0]) (S CREDIT) in
  data ← astring (c_data this) 300 C_MAX_DATA;
  address ← make_random_address (c_address this);
  mret (mkCustomer c_w_id_ c_d_id_ c_id_ 1 0 t_ (d_of_Z 50000) discount (d_of_Z (-10)) (d_of_Z 10)
    first middle last.2 phone credit data address).

(** [t] is what [get_timestamp()] returns. *)
Definition History_generate (this : History) (h_c_w_id_ h_c_d_id_ h_c_id_ h_w_id_ h_d_id_ t : Z) : Rand History :=
  data ← astring (h_data this) 12 H_MAX_DATA;
  mret (mkHistory h_c_w_id_ h_c_d_id_ h_c_id_ h_w_id_ h_d_id_ t (d_of_Z 10) data).

Definition Order_generate (o_w_id_ o_d_id_ o_id_ o_c_id_ t : Z) : Rand Order :=
  carrier ← (if o_id_ <? 2101 then urand_int 1 10 else mret 0);
  cnt ← urand_int 5 15;
  mret (mkOrder o_w_id_ o_d_id_ o_id_ o_c_id_ carrier cnt 1 t).

Definition NewOrder_generate (no_w_id_ no_d_id_ no_o_id_ : Z) : NewOrder := mkNewOrder no_w_id_ no_d_id_ no_o_id_.

Definition OrderLine_generate (this : OrderLine) (ol_w_id_ ol_d_id_ ol_o_id_ ol_number_ ol_supply_w_id_ ol_i_id_ o_entry_d_ : Z) : Rand OrderLine :=
  amount ← (if ol_o_id_ <? 2101 then mret (d_of_Z 0) else urand_double 1 999999 100);
  dist ← astring (ol_dist_info this) DIST_INFO DIST_INFO;
  mret (mkOrderLine ol_w_id_ ol_d_id_ ol_o_id_ ol_number_ ol_i_id_ ol_supply_w_id_ (if ol_o_id_ <? 2101 then o_entry_d_ else 0) 5 amount dist).

(** *** What is generated is well formed *)

(** A string of the array [x] fits and ends. *)
Definition string_of (n : nat) (a : chars) : Prop := length a = S n ∧ (length (str a) ≤ n)%nat.

Lemma astring_in out min n : length out = S n → (min ≤ n < 1000)%nat → draws_in (astring out min n) (λ a, string_of n a ∧ (min ≤ length (str a))%nat).
Proof.
  intros Hl Hb. unfold astring. eapply draws_bind; [apply make_random_string_in; [apply alphanumeric_ok|lia..]|].
  intros [m a] (? & ? & ?). apply draws_ret. unfold string_of. simpl in *. lia.
Qed.
Lemma nstring_in out min n : (min ≤ n)%nat → (n < length out < 1000)%nat →
  draws_in (nstring out min n) (λ a, length a = length out ∧ (min ≤ length (str a) ≤ n)%nat).
Proof.
  intros Hl Hb. unfold nstring. eapply draws_bind; [apply make_random_string_in; [apply digits_ok|lia..]|].
  intros [m a] (? & ? & ?). apply draws_ret. simpl in *. lia.
Qed.

Lemma memcpy_at_ok out i cs : (i + length cs ≤ length out)%nat → ∃ out', memcpy_at out i cs = Ok out' ∧ length out' = length out ∧ out' = take i out ++ cs ++ drop (i + length cs) out.
Proof.
  intros H. unfold memcpy_at. rewrite decide_True by done. eexists. split; [done|]. split; [|done].
  rewrite !length_app, length_take, length_drop. lia.
Qed.

Lemma make_original_in out n : string_of n out → (8 ≤ length (str out))%nat → (n < 1000)%nat → draws_in (make_original out) (string_of n).
Proof.
  intros [Hl Hs] H8 Hn. unfold make_original.
  eapply (draws_bind _ _ (λ _, True)); [apply (draws_lift _ ()); [apply assert_Ok; by apply Nat.leb_le|done]|]. intros _ _.
  eapply draws_bind; [apply urand_int_in; unfold UINT64_MAX, word; lia|]. intros i Hi. simpl in Hi.
  change (length ORIGINAL) with 8%nat. destruct (memcpy_at_ok out (Z.to_nat i) ORIGINAL) as (out' & E & Hl' & ->); [change (length ORIGINAL) with 8%nat; lia|].
  eapply draws_lift; [done|]. split; [congruence|]. change (length ORIGINAL) with 8%nat in *.
  pose proof (str_split out ltac:(lia)) as Ho. set (s := str out) in *. rewrite Ho.
  rewrite take_app_le, drop_app_le by lia. rewrite app_assoc, app_assoc, str_app_nul.
  - rewrite !length_app, length_take, length_drop. change (length ORIGINAL) with 8%nat. lia.
  - repeat apply Forall_app_2; [apply Forall_take, str_nonzero| |apply Forall_drop, str_nonzero]. vm_compute. repeat (constructor; [lia|]). constructor.
Qed.

Lemma maybe_original_in data n : string_of n data → (26 ≤ length (str data))%nat → (n < 1000)%nat → draws_in (maybe_original data) (string_of n).
Proof.
  intros Hd H8 Hn. unfold maybe_original. eapply draws_bind; [apply urand_int_in; unfold UINT64_MAX, word; lia|]. intros p _.
  destruct (p <? 10); [apply make_original_in; [done|lia|done]|by apply draws_ret].
Qed.

Lemma urand_double_in min max divider : 0 ≤ min ≤ max → max < 2 ^ 32 → draws_in (urand_double min max divider) (λ _, True).
Proof. intros. unfold urand_double. eapply draws_bind; [apply urand_int_in; unfold UINT64_MAX, word; lia|]. intros. by apply draws_ret. Qed.

(** The five digits after the four random ones. *)
Lemma zip_in out : length out = S ZIP → draws_in (make_random_zip out) (string_of ZIP).
Proof.
  intros Hl. unfold make_random_zip. eapply draws_bind; [apply nstring_in; rewrite ?Hl; unfold ZIP; lia|]. intros a (Ha & H4).
  destruct (memcpy_at_ok a 4 [49; 49; 49; 49; 49; 0]) as (out' & E & Hl' & ->); [rewrite Ha, Hl; simpl; unfold ZIP; lia|].
  eapply draws_lift; [done|]. split; [congruence|].
  assert (take 4 a = str a) as ->.
  { rewrite (str_split a) at 1 by (rewrite Ha, Hl; unfold ZIP; lia). apply take_app_length'. lia. }
  change [49; 49; 49; 49; 49; 0] with ([49; 49; 49; 49; 49] ++ [0]). rewrite <-(app_assoc _ [0]), app_assoc. cbn [app].
  rewrite str_app_nul; [rewrite length_app; simpl; unfold ZIP; lia|].
  apply Forall_app_2; [apply str_nonzero|]. repeat (constructor; [lia|]). constructor.
Qed.

(** Take the next draw of a computation, or its result. *)
Ltac string_in := first [apply astring_in; [done|vm_compute; lia] | apply zip_in; done | apply urand_double_in; lia
  | apply urand_int_in; unfold UINT64_MAX, word; lia | apply maybe_original_in; [eassumption|done|vm_compute; lia]].
Ltac draw := eapply draws_bind; [string_in|cbv beta; intros; destruct_and?].

Definition address_ok (a : Address) : Prop := Forall fits (address_arrays a) ∧ Forall ends (address_arrays a).
Lemma address_in a : Forall fits (address_arrays a) → draws_in (make_random_address a) address_ok.
Proof.
  unfold address_arrays, fits. rewrite !Forall_cons. intros. destruct_and!. simpl in *. unfold make_random_address.
  do 5 draw. apply draws_ret. unfold address_ok, address_arrays, fits, ends, string_of in *. rewrite !Forall_cons. destruct_and?. by split_and!.
Qed.
Ltac finish_record := apply draws_ret; unfold well_formed, sized, terminated, address_ok in *; cbn -[address_arrays]; destruct_and?;
  rewrite ?Forall_cons; unfold fits, ends, string_of in *; cbn -[address_arrays]; destruct_and?; split_and!; try done.

Lemma Item_generate_in this i : sized (RItem this) → draws_in (Item_generate this i) (λ r, well_formed (RItem r)).
Proof.
  unfold sized, fits. cbn. rewrite !Forall_cons. intros. destruct_and!. simpl in *. unfold Item_generate. do 5 draw. finish_record.
Qed.

Lemma Warehouse_generate_in this i : sized (RWarehouse this) → draws_in (Warehouse_generate this i) (λ r, well_formed (RWarehouse r)).
Proof.
  unfold sized, fits at 1. cbn -[address_arrays]. rewrite !Forall_cons. intros. destruct_and!. simpl in *. unfold Warehouse_generate. do 2 draw.
  eapply draws_bind; [by apply address_in|]. intros. finish_record.
Qed.

(** The [i]-th of the arrays that lie one after the other in [s_dist]. *)
Definition dist_text (i : nat) (s_dist : chars) : chars := take (S DIST) (drop (i * S DIST) s_dist).
Definition dist_strings (n : nat) (s_dist : chars) : Prop := ∀ i, (i < n)%nat → string_of DIST (dist_text i s_dist).

Lemma dist_strings_app n d rest : string_of DIST d → dist_strings n rest → dist_strings (S n) (d ++ rest).
Proof.
  intros Hd Hrest i Hi. pose proof Hd as [Hl _]. unfold dist_text. destruct i as [|i].
  - by rewrite drop_0, take_app_length'.
  - replace (S i * S DIST)%nat with (length d + i * S DIST)%nat by lia.
    rewrite <- drop_drop, drop_app_length. apply Hrest. lia.
Qed.

Lemma dist_loop_in n out : length out = (n * S DIST)%nat →
  draws_in (dist_loop n out) (λ out', length out' = length out ∧ dist_strings n out').
Proof.
  revert out. induction n as [|n IH]; intros out Hl; [apply draws_ret; split; [done|intros i; lia]|]. simpl.
  eapply draws_bind; [apply astring_in; [rewrite length_take, Hl; unfold DIST; lia|vm_compute; lia]|]. intros d (Hds & _). pose proof Hds as [Hd _].
  eapply draws_bind; [apply IH; rewrite length_drop, Hl; unfold DIST; lia|]. intros rest [Hr Hrs]. apply draws_ret.
  split; [rewrite length_app, Hd, Hr, length_drop, Hl; unfold DIST; lia|]. by apply dist_strings_app.
Qed.
Lemma Stock_generate_in this w i : sized (RStock this) → draws_in (Stock_generate this w i) (λ r, well_formed (RStock r) ∧ dist_strings 10 (s_dist r)).
Proof.
  unfold sized, fits. cbn. rewrite !Forall_cons. intros. destruct_and!. simpl in *. unfold Stock_generate. draw.
  eapply draws_bind; [by apply dist_loop_in|]. intros dist [? ?]. do 2 draw. finish_record. congruence.
Qed.

Lemma District_generate_in this w i : sized (RDistrict this) → draws_in (District_generate this w i) (λ r, well_formed (RDistrict r)).
Proof.
  unfold sized, fits at 1. cbn -[address_arrays]. rewrite !Forall_cons. intros. destruct_and!. simpl in *. unfold District_generate. do 2 draw.
  eapply draws_bind; [by apply address_in|]. intros. finish_record.
Qed.

Lemma copy_literal n out lit : length out = S n → Forall (λ x, x ≠ 0) lit → (length lit ≤ n)%nat → string_of n (copy_cstr out (lit ++ [0]) (S n)).
Proof.
  intros Hl Hz Hn. split; [by rewrite length_copy_cstr|]. rewrite copy_cstr_app by (done || lia). by rewrite str_app_nul.
Qed.
Lemma Customer_generate_in this w d c t : 1 ≤ c → sized (RCustomer this) → draws_in (Customer_generate this w d c t) (λ r, well_formed (RCustomer r)).
Proof.
  intros Hc. unfold sized, fits at 1. cbn -[address_arrays]. rewrite !Forall_cons. intros. destruct_and!. simpl in *. unfold Customer_generate. do 2 draw.
  eapply (draws_bind _ _ (λ n, 0 ≤ n < 1000)).
  { destruct (Z.leb_spec c 1000); [apply draws_ret; lia|]. eapply draws_weaken; [apply nurand_int_in; [by left|lia..]|]. simpl. lia. }
  intros n Hn. destruct (make_clast_ok (c_last this) n) as (len & last & E & ? & -> & ? & _); [lia|done|].
  eapply draws_bind; [eapply (draws_lift _ _ (λ r, r = (length (str last), last))); done|]. intros ? ->.
  eapply draws_bind; [apply nstring_in; [done|]; unfold PHONE in *; lia|]. intros phone [? ?]. draw. cbv zeta. draw.
  eapply draws_bind; [by apply address_in|]. intros.
  assert (string_of MAX_MIDDLE (copy_cstr (c_middle this) (bytes_of "OE" ++ [0]) (S MAX_MIDDLE))) as [? ?].
  { apply copy_literal; [done| |done]. vm_compute. repeat (constructor; [lia|]). constructor. }
  assert (∀ b : bool, string_of CREDIT (copy_cstr (c_credit this) (bytes_of (if b then "BC" else "GC") ++ [0]) (S CREDIT))) as Hcr.
  { intros b. apply copy_literal; [done| |by destruct b]. destruct b; vm_compute; repeat (constructor; [lia|]); constructor. }
  finish_record; try apply Hcr; try lia; try congruence.
Qed.

Lemma History_generate_in this a b c d e t : sized (RHistory this) → draws_in (History_generate this a b c d e t) (λ r, well_formed (RHistory r)).
Proof.
  unfold sized, fits. cbn. rewrite !Forall_cons. intros. destruct_and!. simpl in *. unfold History_generate. draw. finish_record.
Qed.
Lemma Order_generate_in w d o c t : draws_in (Order_generate w d o c t) (λ r, 5 ≤ o_ol_cnt r ≤ 15 ∧ 0 ≤ o_carrier_id r ≤ 10).
Proof.
  unfold Order_generate. eapply (draws_bind _ _ (λ n, 0 ≤ n ≤ 10)).
  { destruct (_ <? _); [|by apply draws_ret]. eapply draws_weaken; [apply urand_int_in; unfold UINT64_MAX, word; lia|]. simpl. lia. }
  intros. draw. by apply draws_ret.
Qed.
Lemma OrderLine_generate_in this a b c d e f t : sized (ROrderLine this) → draws_in (OrderLine_generate this a b c d e f t) (λ r, well_formed (ROrderLine r)).
Proof.
  unfold sized, fits. cbn. rewrite !Forall_cons. intros. destruct_and!. simpl in *. unfold OrderLine_generate.
  eapply (draws_bind _ _ (λ _, True)); [destruct (_ <? _); [by apply draws_ret|apply urand_double_in; lia]|]. intros. draw. finish_record.
Qed.

(** C21: What the loader generates has the type of its table: on any memory of
    the right size, for any state of the random numbers, [generate] of every
    record returns (no write is outside an array), and every character array
    of the record keeps its size and holds a string that ends inside it, the
    ten texts of [s_dist] of a stock included.  Customers are numbered from 1,
    as the loader numbers them; an order has 5 to 15 lines and a carrier up to
    10. *)
Theorem generate_well_formed (this : record) : sized this →
  match this with
  | RItem r => ∀ i, draws_in (Item_generate r i) (λ r, well_formed (RItem r))
  | RWarehouse r => ∀ w, draws_in (Warehouse_generate r w) (λ r, well_formed (RWarehouse r))
  | RStock r => ∀ w i, draws_in (Stock_generate r w i) (λ r, well_formed (RStock r) ∧ dist_strings 10 (s_dist r))
  | RDistrict r => ∀ w d, draws_in (District_generate r w d) (λ r, well_formed (RDistrict r))
  | RCustomer r => ∀ w d c t, 1 ≤ c → draws_in (Customer_generate r w d c t) (λ r, well_formed (RCustomer r))
  | RHistory r => ∀ cw cd c w d t, draws_in (History_generate r cw cd c w d t) (λ r, well_formed (RHistory r))
  | ROrder _ => ∀ w d o c t, draws_in (Order_generate w d o c t) (λ r, 5 ≤ o_ol_cnt r ≤ 15 ∧ 0 ≤ o_carrier_id r ≤ 10)
  | RNewOrder _ => ∀ w d o, well_formed (RNewOrder (NewOrder_generate w d o))
  | ROrderLine r => ∀ w d o n sw i t, draws_in (OrderLine_generate r w d o n sw i t) (λ r, well_formed (ROrderLine r))
  end.
Proof.
  destruct this; auto using Item_generate_in, Warehouse_generate_in, Stock_generate_in, District_generate_in, Customer_generate_in, History_generate_in,
    OrderLine_generate_in, Order_generate_in. intros _ w d o. unfold well_formed, sized, terminated. cbn. by rewrite !Forall_nil.
Qed.
End generate.
End RecordGen.
