(* ===== verification/Tx.v ===== *)
(** * The calls of a transaction

    What the transactions of TPC-C use of a protocol: the members of its class
    [Transaction] ([protocols/*/tpcc/transaction.hpp],
    [protocols/naive/include/transaction.hpp]). *)
From S2P Require Import Prelude Utils Records.

Module Tx.
Import Records.

Abbreviation loc := positive.
Abbreviation Ptr := (option positive).
Inductive Result := SUCCESS | FAIL | ABORT.

(** [tx] is the transaction object with the database behind it. *)
Class Transaction `{HD : Double} := {
  tx : Type;
  load : tx → loc → outcome record;
  store : tx → loc → record → outcome tx;
  get_record : tx → table → Z → outcome (Result * Ptr * tx);
  prepare_history_for_insert : tx → outcome (Result * Ptr * tx);
  prepare_record_for_insert : tx → table → Z → outcome (Result * Ptr * tx);
  prepare_record_for_update : tx → table → Z → outcome (Result * Ptr * tx);
  prepare_record_for_delete : tx → table → Z → outcome (Result * tx);
  finish_insert : tx → Ptr → outcome (Result * tx);
  finish_update : tx → Ptr → outcome (Result * tx);
  finish_delete : tx → Ptr → outcome (Result * tx);
  get_customer_by_last_name : tx → Z → Z → chars → outcome (Result * Ptr * tx);
  get_customer_by_last_name_and_prepare_for_update : tx → Z → Z → chars → outcome (Result * Ptr * tx);
  get_order_by_customer_id : tx → Z → Z → Z → outcome (Result * Ptr * tx);
  get_neworder_with_smallest_key_no_less_than : tx → Z → outcome (Result * Ptr * tx);
  range_query {A} : tx → table → Z → Z → (A → record → outcome A) → A → outcome (Result * A * tx);
  range_update {A} : tx → table → Z → Z → (A → record → outcome (A * record)) → A → outcome (Result * A * tx);
  commit : tx → outcome (bool * tx);
  abort : tx → outcome tx
}.

(** ** What they promise *)

(** What a transaction writes: a row, or the next entry of the history. *)
Inductive target := TRow (k : table * Z) | THist (i : nat).
#[export] Instance target_eq_dec : EqDecision target.
Proof. solve_decision. Defined.
Definition target_table (x : target) : table := match x with TRow k => k.1 | THist _ => THistory end.

Section wrote.
Context `{TX : Transaction} (ok : tx → Prop) (base : tx → table * Z → option record) (view : tx → target → option record)
  (points : tx → loc → target → Prop) (reads : tx → loc → table * Z → Prop) (hist : tx → list (option record)) (pending : tx → nat).
(** A step after which target [x] will be [o]. *)
Record wrote_by (x : target) (o : option record) (s s' : tx) : Prop := {
  wrote_ok : ok s';
  wrote_view y : view s' y = if decide (y = x) then o else view s y;
  wrote_base k : base s' k = base s k;
  wrote_reads l k : reads s l k → reads s' l k;
  wrote_points l y : y ≠ x → points s l y → points s' l y;
  wrote_hist : hist s' = hist s;
  wrote_pending : pending s' = match x with THist i => Nat.max (pending s) (S i) | TRow _ => pending s end
}.
End wrote.

(** The rows a transaction began with are [base], what it will leave is
    [view].  It writes through pointers that stand at their target
    ([points]) and reads through those that stand at a row ([reads]). *)
Class TransactionSpec `{TX : Transaction} := {
  ok : tx → Prop;
  idle : tx → Prop;
  base : tx → table * Z → option record;
  view : tx → target → option record;
  points : tx → loc → target → Prop;
  reads : tx → loc → table * Z → Prop;
  hist : tx → list (option record);
  pending : tx → nat;
  wrote := wrote_by ok base view points reads hist pending;
  idle_view s k : ok s → idle s → view s (TRow k) = base s k;
  idle_pending s : ok s → idle s → pending s = 0%nat;
  idle_history s i : ok s → idle s → view s (THist i) = None;
  view_typed s x r : ok s → view s x = Some r → table_of r = target_table x ∧ sized r;
  base_typed s k r : ok s → base s k = Some r → table_of r = k.1 ∧ well_formed r;
  load_points s l x : ok s → points s l x → ∃ r, view s x = Some r ∧ load s l = Ok r;
  load_reads s l k : ok s → reads s l k → ∃ r, base s k = Some r ∧ load s l = Ok r;
  store_points s l x r : ok s → points s l x → table_of r = target_table x → sized r →
    ∃ s', store s l r = Ok s' ∧ wrote x (Some r) s s' ∧ points s' l x;
  get_record_row s k r : ok s → base s k = Some r → ∃ l, get_record s k.1 k.2 = Ok (SUCCESS, Some l, s) ∧ reads s l k;
  get_record_absent s k : ok s → base s k = None → get_record s k.1 k.2 = Ok (FAIL, None, s);
  update_row s k r : ok s → k.1 ≠ THistory → view s (TRow k) = Some r →
    ∃ l s' r', prepare_record_for_update s k.1 k.2 = Ok (SUCCESS, Some l, s') ∧ wrote (TRow k) (Some r') s s' ∧ points s' l (TRow k) ∧
      same r' r ∧ (terminated r → terminated r');
  insert_row s k : ok s → k.1 ≠ THistory → view s (TRow k) = None →
    ∃ l s' r', prepare_record_for_insert s k.1 k.2 = Ok (SUCCESS, Some l, s') ∧ wrote (TRow k) (Some r') s s' ∧ points s' l (TRow k);
  insert_history s : ok s →
    ∃ l s' r', prepare_history_for_insert s = Ok (SUCCESS, Some l, s') ∧ wrote (THist (pending s)) (Some r') s s' ∧ points s' l (THist (pending s));
  delete_row s k r : ok s → k.1 ≠ THistory → view s (TRow k) = Some r →
    ∃ s', prepare_record_for_delete s k.1 k.2 = Ok (SUCCESS, s') ∧ wrote (TRow k) None s s';
  finish_ok s p : finish_insert s p = Ok (SUCCESS, s) ∧ finish_update s p = Ok (SUCCESS, s) ∧ finish_delete s p = Ok (SUCCESS, s);
  range_query_rows {A} s tb low up (f : A → record → outcome A) a : ok s →
    ∃ rows : list (Z * record), ascending rows ∧ (∀ key r, (key, r) ∈ rows ↔ base s (tb, key) = Some r ∧ low ≤ key < up) ∧
      range_query s tb low up f a = (a ← foldl (λ m x, a ← m; f a x.2) (Ok a) rows; Ok (SUCCESS, a, s));
  commit_ok s : ok s → (∀ k r, view s (TRow k) = Some r → terminated r) →
    ∃ s', commit s = Ok (true, s') ∧ ok s' ∧ idle s' ∧ (∀ k, base s' k = view s (TRow k)) ∧
      hist s' = hist s ++ ((λ i, view s (THist i)) <$> seq 0 (pending s));
  abort_ok s : ok s → ∃ s', abort s = Ok s' ∧ ok s' ∧ idle s' ∧ (∀ k, base s' k = base s k) ∧ hist s' = hist s
}.
End Tx.
