(* ===== verification/Tpcc.v ===== *)
(** * benchmarks/tpcc: the transactions

    The five transactions of TPC-C ([neworder_tx.hpp], [payment_tx.hpp],
    [delivery_tx.hpp], [orderstatus_tx.hpp], [stocklevel_tx.hpp]), their
    random inputs, the helpers and statistics of [tx_utils.hpp] and the runner
    ([tx_runner.hpp]).  They are written against [Transaction] of Tx.v, the
    calls every protocol offers them. *)
From S2P Require Import Prelude BitFields Utils Records RecordGen Tx.

Module Tpcc.
Import Records RecordGen Tx.

(** ** config.hpp, tx_utils.hpp *)
Record Config := mkConfig { num_threads : Z; num_warehouses : Z; does_random_abort : bool; fixed_ware : bool }.

Module Status.
Inductive t := SUCCESS | USER_ABORT | SYSTEM_ABORT | BUG.
End Status.

Record PerTxType := mkStat {
  num_commits : Z; num_usr_aborts : Z; num_sys_aborts : Z; abort_details : list Z;
  total_latency : Z; min_latency : Z; max_latency : Z
}.
Definition ABORT_DETAILS_SIZE := 20%nat.
Definition PerTxType_new : PerTxType := mkStat 0 0 0 (replicate ABORT_DETAILS_SIZE 0) 0 UINT64_MAX 0.
(** [PerTxType::add]. *)
Definition add (this rhs : PerTxType) (with_abort_details : bool) : PerTxType :=
  mkStat (u64 (num_commits this + num_commits rhs)) (u64 (num_usr_aborts this + num_usr_aborts rhs)) (u64 (num_sys_aborts this + num_sys_aborts rhs))
    (if with_abort_details then zip_with (λ a b, u64 (a + b)) (abort_details this) (abort_details rhs) else abort_details this)
    (u64 (total_latency this + total_latency rhs)) (min_latency this `min` min_latency rhs) (max_latency this `max` max_latency rhs).
(** [Stat::aggregate_perf]: over the kinds of transactions. *)
Definition aggregate_perf (per_type_ : list PerTxType) : PerTxType := foldl (λ out p, add out p false) PerTxType_new per_type_.

Section tpcc.
Context `{TX : Transaction} (c : Config).

(** What is written to [Output], which only sums it up. *)
Inductive value := VInt (z : Z) | VDouble (d : double) | VChars (a : chars) | VAddress (a : Address).

(** The state of a worker: its transaction, random numbers, clock
    ([get_timestamp]), the statistics of the kind of transaction it runs and
    its output. *)
Record world := mkWorld { w_tx : tx; w_rand : Xoshiro256PlusPlus.State; w_clock : Z; w_stat : PerTxType; w_out : list value }.
Definition set_tx (w : world) (t : tx) : world := mkWorld t (w_rand w) (w_clock w) (w_stat w) (w_out w).
Definition set_rand (w : world) (r : Xoshiro256PlusPlus.State) : world := mkWorld (w_tx w) r (w_clock w) (w_stat w) (w_out w).
Definition set_stat (w : world) (s : PerTxType) : world := mkWorld (w_tx w) (w_rand w) (w_clock w) s (w_out w).

(** A computation gives its result or returns from [run] with a status. *)
Definition M (A : Type) : Type := world → outcome ((Status.t + A) * world).
#[global] Instance M_ret : MRet M := λ A a w, Ok (inr a, w).
#[global] Instance M_bind : MBind M := λ A B f m w, '(r, w) ← m w; match r with inl st => Ok (inl st, w) | inr a => f a w end.
Definition return_ {A} (st : Status.t) : M A := λ w, Ok (inl st, w).
Definition out_of {A} (m : outcome A) : M A := λ w, a ← m; Ok (inr a, w).
Definition rand {A} (m : Rand A) : M A := λ w, '(a, r) ← m (w_rand w); Ok (inr a, set_rand w r).
Definition get_timestamp : M Z := λ w, Ok (inr (w_clock w), mkWorld (w_tx w) (w_rand w) (w_clock w + 1) (w_stat w) (w_out w)).
Definition emit (vs : list value) : M () := λ w, Ok (inr (), mkWorld (w_tx w) (w_rand w) (w_clock w) (w_stat w) (w_out w ++ vs)).
Definition on_tx {A} (f : tx → outcome (A * tx)) : M A := λ w, '(a, t) ← f (w_tx w); Ok (inr a, set_tx w t).
Definition on_stat (f : PerTxType → PerTxType) : M () := λ w, Ok (inr (), set_stat w (f (w_stat w))).

(** Access to a record through a pointer of its type. *)
Definition read {A} (cast : record → option A) (p : Ptr) : M A := λ w,
  l ← deref p; r ← load (w_tx w) l; a ← deref (cast r); Ok (inr a, w).
Definition write (p : Ptr) (r : record) : M () := λ w,
  l ← deref p; t ← store (w_tx w) l r; Ok (inr (), set_tx w t).
Definition as_item (r : record) : option Item := if r is RItem i then Some i else None.
Definition as_warehouse (r : record) : option Warehouse := if r is RWarehouse i then Some i else None.
Definition as_stock (r : record) : option Stock := if r is RStock i then Some i else None.
Definition as_district (r : record) : option District := if r is RDistrict i then Some i else None.
Definition as_customer (r : record) : option Customer := if r is RCustomer i then Some i else None.
Definition as_history (r : record) : option History := if r is RHistory i then Some i else None.
Definition as_order (r : record) : option Order := if r is ROrder i then Some i else None.
Definition as_neworder (r : record) : option NewOrder := if r is RNewOrder i then Some i else None.
Definition as_orderline (r : record) : option OrderLine := if r is ROrderLine i then Some i else None.

(** [not_succeeded]: whether, and the result it leaves. *)
Definition not_succeeded (res : Result) : M (bool * Result) :=
  res ← (if does_random_abort c then
           match res with SUCCESS => n ← rand (urand_int 1 100); mret (if n =? 1 then ABORT else SUCCESS) | _ => mret res end
         else mret res);
  _ ← match res with ABORT => on_tx (λ t, t ← abort t; Ok ((), t)) | _ => mret () end;
  mret (match res with SUCCESS => false | _ => true end, res).

Definition bump (a : nat) (s : PerTxType) : PerTxType :=
  mkStat (num_commits s) (num_usr_aborts s) (u64 (num_sys_aborts s + 1)) (alter (λ n, u64 (n + 1)) a (abort_details s))
    (total_latency s) (min_latency s) (max_latency s).

(** [TxHelper]. *)
Definition kill (res : Result) (abort_id : nat) : M Status.t :=
  match res with
  | FAIL => mret Status.BUG
  | ABORT => _ ← on_stat (bump abort_id); mret Status.SYSTEM_ABORT
  | SUCCESS => out_of (Throw "wrong Transaction::Result")
  end.
Definition helper_commit (abort_id : nat) (time : Z) : M Status.t :=
  b ← on_tx commit;
  if b : bool then
    _ ← on_stat (λ s, mkStat (u64 (num_commits s + 1)) (num_usr_aborts s) (num_sys_aborts s) (abort_details s)
           (u64 (total_latency s + time)) (min_latency s `min` time) (max_latency s `max` time));
    mret Status.SUCCESS
  else _ ← on_stat (bump abort_id); mret Status.SYSTEM_ABORT.
Definition usr_abort : M Status.t :=
  _ ← on_stat (λ s, mkStat (num_commits s) (u64 (num_usr_aborts s + 1)) (num_sys_aborts s) (abort_details s)
         (total_latency s) (min_latency s) (max_latency s));
  mret Status.USER_ABORT.

(** [res = tx.f(...); if (not_succeeded(tx, res)) return helper.kill(res, id);] *)
Definition check (res : Result) (id : nat) : M () :=
  x ← not_succeeded res;
  if x.1 : bool then st ← kill x.2 id; return_ st else mret ().
Definition call {A} (f : tx → outcome (Result * A * tx)) (id : nat) : M A :=
  x ← on_tx f; _ ← check x.1 id; mret x.2.
Definition call_ (f : tx → outcome (Result * tx)) (id : nat) : M () :=
  res ← on_tx f; check res id.
End tpcc.

(** ** neworder_tx.hpp *)
Module NewOrderTx.
Record item := mkItem { ol_supply_w_id : Z; ol_i_id : Z; ol_quantity : Z }.
Record Input := mkInput {
  w_id : Z; d_id : Z; c_id : Z; ol_cnt : Z; o_entry_d : Z; rbk : bool; is_remote : bool; items : list item
}.
Inductive AbortID :=
| GET_WAREHOUSE | PREPARE_UPDATE_DISTRICT | FINISH_UPDATE_DISTRICT | GET_CUSTOMER | PREPARE_INSERT_NEWORDER | FINISH_INSERT_NEWORDER
| PREPARE_INSERT_ORDER | FINISH_INSERT_ORDER | GET_ITEM | PREPARE_UPDATE_STOCK | FINISH_UPDATE_STOCK | PREPARE_INSERT_ORDERLINE
| FINISH_INSERT_ORDERLINE | PRECOMMIT.
Definition abort_id (a : AbortID) : nat :=
  match a with
  | GET_WAREHOUSE => 0 | PREPARE_UPDATE_DISTRICT => 1 | FINISH_UPDATE_DISTRICT => 2 | GET_CUSTOMER => 3 | PREPARE_INSERT_NEWORDER => 4
  | FINISH_INSERT_NEWORDER => 5 | PREPARE_INSERT_ORDER => 6 | FINISH_INSERT_ORDER => 7 | GET_ITEM => 8 | PREPARE_UPDATE_STOCK => 9
  | FINISH_UPDATE_STOCK => 10 | PREPARE_INSERT_ORDERLINE => 11 | FINISH_INSERT_ORDERLINE => 12 | PRECOMMIT => 13
  end%nat.
#[local] Coercion abort_id : AbortID >-> nat.

Section neworder.
Context `{TX : Transaction} (c : Config).

Definition UNUSED_ID := 1.

(** [while ((remote_w_id = urand_int(1, num_warehouses)) == w_id) {}]: it
    still spins after [fuel] draws. *)
Fixpoint other_warehouse (fuel : nat) (w_id : Z) : Rand Z :=
  match fuel with
  | O => lift Wait
  | S fuel => r ← urand_int 1 (num_warehouses c); if u16 r =? w_id then other_warehouse fuel w_id else mret (u16 r)
  end.

(** [for (int i = 1; i <= ol_cnt; i++)]; [n] is [ol_cnt - i + 1]. *)
Fixpoint generate_items (fuel : nat) (w_id : Z) (rbk is_remote : bool) (n : nat) : Rand (list item) :=
  match n with
  | O => mret []
  | S n =>
      i_id ← (if rbk && Nat.eqb n 0 then mret UNUSED_ID else nurand_int 8191 false 1 100000);
      supply ← (if is_remote && (1 <? num_warehouses c) then other_warehouse fuel w_id else mret w_id);
      q ← urand_int 1 10;
      its ← generate_items fuel w_id rbk is_remote n;
      mret (mkItem supply (u32 i_id) (u8 q) :: its)
  end.
(** [now] is what [get_timestamp()] returns. *)
Definition generate (fuel : nat) (w_id0 now : Z) : Rand Input :=
  d ← urand_int 1 10;
  cu ← nurand_int 1023 false 1 3000;
  cnt ← urand_int 5 15;
  r ← urand_int 1 100;
  rem ← urand_int 1 100;
  its ← generate_items fuel w_id0 (r =? 1) (rem =? 1) (Z.to_nat (u8 cnt));
  mret (mkInput w_id0 (u8 d) (u32 cu) (u8 cnt) now (r =? 1) (rem =? 1) its).

Definition create_neworder (w_id d_id o_id : Z) : NewOrder := mkNewOrder w_id d_id o_id.
Definition create_order (w_id d_id c_id o_id ol_cnt : Z) (is_remote : bool) (now : Z) : Order :=
  mkOrder w_id d_id o_id c_id 0 ol_cnt (if is_remote then 0 else 1) now.
(** [s.s_dist[d_id - 1]]. *)
Definition dist_info (s : Stock) (d_id : Z) : outcome chars :=
  _ ← assert_ ((1 <=? d_id) && (d_id <=? 10)); Ok (drop (S DIST * Z.to_nat (d_id - 1)) (s_dist s)).
Definition create_orderline (ol : OrderLine) (w_id d_id o_id ol_num ol_i_id ol_supply_w_id ol_quantity : Z) (ol_amount : double) (s : Stock) : outcome OrderLine :=
  dist ← dist_info s d_id;
  Ok (mkOrderLine w_id d_id o_id ol_num ol_i_id ol_supply_w_id 0 ol_quantity ol_amount (copy_cstr (ol_dist_info ol) dist (S DIST_INFO))).
Definition modify_stock (s : Stock) (ol_quantity : Z) (is_remote : bool) : Stock :=
  mkStock (s_w_id s) (s_i_id s)
    (swrap 16 (if ol_quantity + 10 <? s_quantity s then s_quantity s - ol_quantity else (s_quantity s - ol_quantity) + 91))
    (u32 (s_ytd s + ol_quantity)) (u16 (s_order_cnt s + 1)) (if is_remote then u16 (s_remote_cnt s + 1) else s_remote_cnt s) (s_dist s) (s_data s).
Definition set_next_o_id (d : District) (n : Z) : District := mkDistrict (d_w_id d) (Records.d_id d) n (d_tax d) (d_ytd d) (d_name d) (d_address d).

(** [strstr(a, b)]. *)
Fixpoint starts_with (b a : list Z) : bool :=
  match b, a with [], _ => true | x :: b, y :: a => (x =? y) && starts_with b a | _, _ => false end.
Fixpoint strstr (a b : list Z) : bool := starts_with b a || match a with [] => false | _ :: a => strstr a b end.

(** One pass of the loop over the order lines; the sum of the amounts. *)
Definition order_line (i : Input) (o_id ol_num : Z) (total : double) : M double :=
  it ← out_of (deref (items i !! Z.to_nat (ol_num - 1)));
  _ ← (if ol_i_id it =? UNUSED_ID then st ← usr_abort; return_ st else mret ());
  ip ← call c (λ t, get_record t TItem (ItemKey_create_key (ol_i_id it))) GET_ITEM;
  sp ← call c (λ t, prepare_record_for_update t TStock (StockKey.create_key (ol_supply_w_id it) (ol_i_id it))) PREPARE_UPDATE_STOCK;
  im ← read as_item ip;
  s ← read as_stock sp;
  let brand_generic := if strstr (str (i_data im)) ORIGINAL && strstr (str (s_data s)) ORIGINAL then 66 else 71 in
  let s := modify_stock s (ol_quantity it) (is_remote i) in
  _ ← write sp (RStock s);
  _ ← call_ c (λ t, finish_update t sp) FINISH_UPDATE_STOCK;
  let ol_amount := d_mul (d_of_Z (ol_quantity it)) (i_price im) in
  olp ← call c (λ t, prepare_record_for_insert t TOrderLine (OrderLineKey.create_key (w_id i) (d_id i) o_id ol_num)) PREPARE_INSERT_ORDERLINE;
  ol ← read as_orderline olp;
  s ← read as_stock sp;
  ol ← out_of (create_orderline ol (w_id i) (d_id i) o_id ol_num (ol_i_id it) (ol_supply_w_id it) (ol_quantity it) ol_amount s);
  _ ← write olp (ROrderLine ol);
  _ ← call_ c (λ t, finish_insert t olp) FINISH_INSERT_ORDERLINE;
  im ← read as_item ip;
  s ← read as_stock sp;
  _ ← emit [VInt (ol_supply_w_id it); VInt (ol_i_id it); VChars (i_name im); VInt (ol_quantity it); VInt (s_quantity s);
            VInt brand_generic; VDouble (i_price im); VDouble ol_amount];
  mret (d_add total ol_amount).

(** [for (ol_num = 1; ol_num <= ol_cnt; ol_num++)]; [n] is [ol_cnt - ol_num + 1]. *)
Fixpoint order_lines (i : Input) (o_id : Z) (n : nat) (ol_num : Z) (total : double) : M double :=
  match n with
  | O => mret total
  | S n => total ← order_line i o_id ol_num total; order_lines i o_id n (u8 (ol_num + 1)) total
  end.

(** [time] is the difference of the two time stamps. *)
Definition run (time : Z) (i : Input) : M Status.t :=
  _ ← emit [VInt (w_id i); VInt (d_id i); VInt (c_id i)];
  wp ← call c (λ t, get_record t TWarehouse (WarehouseKey_create_key (w_id i))) GET_WAREHOUSE;
  dp ← call c (λ t, prepare_record_for_update t TDistrict (DistrictKey.create_key (w_id i) (d_id i))) PREPARE_UPDATE_DISTRICT;
  d ← read as_district dp;
  let o_id := d_next_o_id d in
  _ ← write dp (RDistrict (set_next_o_id d (u32 (o_id + 1))));
  _ ← call_ c (λ t, finish_update t dp) FINISH_UPDATE_DISTRICT;
  cp ← call c (λ t, get_record t TCustomer (CustomerKey.create_key (w_id i) (d_id i) (c_id i))) GET_CUSTOMER;
  cu ← read as_customer cp;
  w ← read as_warehouse wp;
  d ← read as_district dp;
  _ ← emit [VChars (c_last cu); VChars (c_credit cu); VDouble (c_discount cu); VDouble (w_tax w); VDouble (d_tax d); VInt (ol_cnt i);
            VInt (d_next_o_id d); VInt (o_entry_d i)];
  nop ← call c (λ t, prepare_record_for_insert t TNewOrder (NewOrderKey.create_key (w_id i) (d_id i) o_id)) PREPARE_INSERT_NEWORDER;
  _ ← write nop (RNewOrder (create_neworder (w_id i) (d_id i) o_id));
  _ ← call_ c (λ t, finish_insert t nop) FINISH_INSERT_NEWORDER;
  op ← call c (λ t, prepare_record_for_insert t TOrder (OrderKey.create_key (w_id i) (d_id i) o_id)) PREPARE_INSERT_ORDER;
  now ← get_timestamp;
  _ ← write op (ROrder (create_order (w_id i) (d_id i) (c_id i) o_id (ol_cnt i) (is_remote i) now));
  _ ← call_ c (λ t, finish_insert t op) FINISH_INSERT_ORDER;
  total ← order_lines i o_id (Z.to_nat (ol_cnt i)) 1 (d_of_Z 0);
  cu ← read as_customer cp;
  w ← read as_warehouse wp;
  d ← read as_district dp;
  _ ← emit [VDouble (d_mul total (d_mul (d_sub (d_of_Z 1) (c_discount cu)) (d_add (d_add (d_of_Z 1) (w_tax w)) (d_tax d))))];
  helper_commit PRECOMMIT time.
End neworder.
End NewOrderTx.

(** ** payment_tx.hpp *)
Module PaymentTx.
Section payment.
Context `{TX : Transaction} (c : Config).

Record Input := mkInput {
  w_id : Z; d_id : Z; c_id : Z; c_w_id : Z; c_d_id : Z; h_amount : double; h_date : Z; by_last_name : bool; c_last : chars
}.
Inductive AbortID :=
| PREPARE_UPDATE_WAREHOUSE | FINISH_UPDATE_WAREHOUSE | PREPARE_UPDATE_DISTRICT | FINISH_UPDATE_DISTRICT | PREPARE_UPDATE_CUSTOMER_BY_LAST_NAME
| PREPARE_UPDATE_CUSTOMER | FINISH_UPDATE_CUSTOMER | PREPARE_INSERT_HISTORY | FINISH_INSERT_HISTORY | PRECOMMIT.
Definition abort_id (a : AbortID) : nat :=
  match a with
  | PREPARE_UPDATE_WAREHOUSE => 0 | FINISH_UPDATE_WAREHOUSE => 1 | PREPARE_UPDATE_DISTRICT => 2 | FINISH_UPDATE_DISTRICT => 3
  | PREPARE_UPDATE_CUSTOMER_BY_LAST_NAME => 4 | PREPARE_UPDATE_CUSTOMER => 5 | FINISH_UPDATE_CUSTOMER => 6 | PREPARE_INSERT_HISTORY => 7
  | FINISH_INSERT_HISTORY => 8 | PRECOMMIT => 9
  end%nat.
#[local] Coercion abort_id : AbortID >-> nat.

Definition UNUSED_ID := 0.

(** [last] is the memory of [c_last]. *)
Definition generate (fuel : nat) (last : chars) (w_id0 now : Z) : Rand Input :=
  d ← urand_int 1 10;
  amount ← urand_double 100 500000 100;
  p ← (if num_warehouses c =? 1 then mret 0 else urand_int 1 100);
  '(cw, cd) ← (if p <=? 85 then mret (w_id0, u8 d)
               else cw ← NewOrderTx.other_warehouse c fuel w_id0; cd ← urand_int 1 10; mret (cw, u8 cd));
  q ← urand_int 1 100;
  if q <=? 60 then
    n ← nurand_int 255 false 0 999;
    l ← lift (make_clast last n);
    mret (mkInput w_id0 (u8 d) UNUSED_ID cw cd amount now true l.2)
  else
    n ← nurand_int 1023 false 1 3000;
    mret (mkInput w_id0 (u8 d) (u32 n) cw cd amount now false last).

(** The decimal digits of a number, and in a field of at least [n]
    characters. *)
Definition dec (z : Z) : chars := bytes_of (pretty.pretty (Z.to_N z)).
Definition pad (n : nat) (a : chars) : chars := replicate (n - length a) 32 ++ a.
Definition pad_right (n : nat) (a : chars) : chars := a ++ replicate (n - length a) 32.
(** [snprintf(out, n, ...)]: what [out] holds. *)
Definition snprintf (out text : chars) (n : nat) : chars := copy_cstr out (text ++ [0]) n.

(** ["| %4u %2u %4u %2u %4u $%7.2f"] *)
Definition data_text (cu : Customer) (w_id d_id c_w_id c_d_id : Z) (h_amount : double) : chars :=
  bytes_of "| " ++ pad 4 (dec (Records.c_id cu)) ++ bytes_of " " ++ pad 2 (dec c_d_id) ++ bytes_of " " ++ pad 4 (dec c_w_id) ++ bytes_of " " ++
  pad 2 (dec d_id) ++ bytes_of " " ++ pad 4 (dec w_id) ++ bytes_of " $" ++ d_print h_amount.
Definition set_data (cu : Customer) (data : chars) : Customer :=
  mkCustomer (Records.c_w_id cu) (Records.c_d_id cu) (Records.c_id cu) (c_payment_cnt cu) (c_delivery_cnt cu) (c_since cu) (c_credit_lim cu)
    (c_discount cu) (c_balance cu) (c_ytd_payment cu) (c_first cu) (c_middle cu) (Records.c_last cu) (c_phone cu) (c_credit cu) data (c_address cu).
(** [new_data] is written before it is read. *)
Definition modify_customer_data (cu : Customer) (w_id d_id c_w_id c_d_id : Z) (h_amount : double) : outcome Customer :=
  let text := data_text cu w_id d_id c_w_id c_d_id h_amount in
  let new_data := snprintf (replicate (S C_MAX_DATA) 0) text (S C_MAX_DATA) in
  let len := length text in
  _ ← assert_ (Nat.leb len C_MAX_DATA);
  let new_data := take len new_data ++ copy_cstr (drop len new_data) (c_data cu) (S C_MAX_DATA - len) in
  Ok (set_data cu (copy_cstr (c_data cu) new_data (S C_MAX_DATA))).

(** ["%-10.10s    %.10s"] *)
Definition history_text (w_name d_name : chars) : chars :=
  pad_right 10 (take 10 (str w_name)) ++ bytes_of "    " ++ take 10 (str d_name).
Definition create_history (h : History) (w_id d_id c_id c_w_id c_d_id : Z) (h_amount : double) (w_name d_name : chars) (now : Z) : History :=
  mkHistory c_w_id c_d_id c_id w_id d_id now h_amount (snprintf (h_data h) (history_text w_name d_name) (S H_MAX_DATA)).

Definition pay_warehouse (w : Warehouse) (a : double) : Warehouse := mkWarehouse (Records.w_id w) (w_tax w) (d_add (w_ytd w) a) (w_name w) (w_address w).
Definition pay_district (d : District) (a : double) : District :=
  mkDistrict (d_w_id d) (Records.d_id d) (d_next_o_id d) (d_tax d) (d_add (d_ytd d) a) (d_name d) (d_address d).
Definition pay_customer (cu : Customer) (a : double) : Customer :=
  mkCustomer (Records.c_w_id cu) (Records.c_d_id cu) (Records.c_id cu) (u16 (c_payment_cnt cu + 1)) (c_delivery_cnt cu) (c_since cu) (c_credit_lim cu)
    (c_discount cu) (d_sub (c_balance cu) a) (d_add (c_ytd_payment cu) a) (c_first cu) (c_middle cu) (Records.c_last cu) (c_phone cu) (c_credit cu)
    (c_data cu) (c_address cu).
(** [c_credit[0] == 'B' && c_credit[1] == 'C'] *)
Definition bad_credit (cu : Customer) : bool := match c_credit cu with x :: y :: _ => (x =? 66) && (y =? 67) | _ => false end.

Definition run (time : Z) (i : Input) : M Status.t :=
  let a := h_amount i in
  _ ← emit [VInt (w_id i); VInt (d_id i)];
  wp ← call c (λ t, prepare_record_for_update t TWarehouse (WarehouseKey_create_key (w_id i))) PREPARE_UPDATE_WAREHOUSE;
  w ← read as_warehouse wp;
  _ ← write wp (RWarehouse (pay_warehouse w a));
  _ ← call_ c (λ t, finish_update t wp) FINISH_UPDATE_WAREHOUSE;
  dp ← call c (λ t, prepare_record_for_update t TDistrict (DistrictKey.create_key (w_id i) (d_id i))) PREPARE_UPDATE_DISTRICT;
  d ← read as_district dp;
  _ ← write dp (RDistrict (pay_district d a));
  _ ← call_ c (λ t, finish_update t dp) FINISH_UPDATE_DISTRICT;
  cp ← (if by_last_name i then
          _ ← out_of (assert_ (c_id i =? UNUSED_ID));
          call c (λ t, get_customer_by_last_name_and_prepare_for_update t (c_w_id i) (c_d_id i) (c_last i)) PREPARE_UPDATE_CUSTOMER_BY_LAST_NAME
        else
          _ ← out_of (assert_ (negb (c_id i =? UNUSED_ID)));
          call c (λ t, prepare_record_for_update t TCustomer (CustomerKey.create_key (c_w_id i) (c_d_id i) (c_id i))) PREPARE_UPDATE_CUSTOMER);
  cu ← read as_customer cp;
  let c_id := Records.c_id cu in
  w ← read as_warehouse wp;
  d ← read as_district dp;
  _ ← emit [VInt c_id; VInt (c_d_id i); VInt (c_w_id i); VDouble a; VInt (h_date i); VAddress (w_address w); VAddress (d_address d);
            VChars (c_first cu); VChars (c_middle cu); VChars (Records.c_last cu); VAddress (c_address cu); VChars (c_phone cu); VInt (c_since cu);
            VChars (c_credit cu); VDouble (c_credit_lim cu); VDouble (c_discount cu); VDouble (c_balance cu)];
  let cu := pay_customer cu a in
  cu ← (if bad_credit cu then
          _ ← emit [VChars (c_data cu)];
          out_of (modify_customer_data cu (w_id i) (d_id i) (c_w_id i) (c_d_id i) a)
        else mret cu);
  _ ← write cp (RCustomer cu);
  _ ← call_ c (λ t, finish_update t cp) FINISH_UPDATE_CUSTOMER;
  hp ← call c prepare_history_for_insert PREPARE_INSERT_HISTORY;
  h ← read as_history hp;
  w ← read as_warehouse wp;
  d ← read as_district dp;
  now ← get_timestamp;
  _ ← write hp (RHistory (create_history h (w_id i) (d_id i) c_id (c_w_id i) (c_d_id i) a (w_name w) (d_name d) now));
  _ ← call_ c (λ t, finish_insert t hp) FINISH_INSERT_HISTORY;
  helper_commit PRECOMMIT time.
End payment.
End PaymentTx.

(** ** delivery_tx.hpp *)
Module DeliveryTx.
Section delivery.
Context `{TX : Transaction} (c : Config).

Record Input := mkInput { w_id : Z; o_carrier_id : Z; ol_delivery_d : Z }.
Inductive AbortID :=
| GET_NEWORDER_WITH_SMALLEST_KEY | DELETE_NEWORDER | FINISH_DELETE_NEWORDER | PREPARE_UPDATE_ORDER | FINISH_UPDATE_ORDER
| RANGE_UPDATE_ORDERLINE | PREPARE_UPDATE_CUSTOMER | FINISH_UPDATE_CUSTOMER | PRECOMMIT.
Definition abort_id (a : AbortID) : nat :=
  match a with
  | GET_NEWORDER_WITH_SMALLEST_KEY => 0 | DELETE_NEWORDER => 1 | FINISH_DELETE_NEWORDER => 2 | PREPARE_UPDATE_ORDER => 3 | FINISH_UPDATE_ORDER => 4
  | RANGE_UPDATE_ORDERLINE => 5 | PREPARE_UPDATE_CUSTOMER => 6 | FINISH_UPDATE_CUSTOMER => 7 | PRECOMMIT => 8
  end%nat.
#[local] Coercion abort_id : AbortID >-> nat.

Definition generate (w_id0 now : Z) : Rand Input := n ← urand_int 1 10; mret (mkInput w_id0 (u8 n) now).

Definition set_carrier (o : Order) (carrier : Z) : Order :=
  mkOrder (o_w_id o) (o_d_id o) (o_id o) (o_c_id o) carrier (o_ol_cnt o) (o_all_local o) (o_entry_d o).
Definition deliver_customer (cu : Customer) (a : double) : Customer :=
  mkCustomer (c_w_id cu) (c_d_id cu) (c_id cu) (c_payment_cnt cu) (u16 (c_delivery_cnt cu + 1)) (c_since cu) (c_credit_lim cu) (c_discount cu)
    (d_add (c_balance cu) a) (c_ytd_payment cu) (c_first cu) (c_middle cu) (c_last cu) (c_phone cu) (c_credit cu) (c_data cu) (c_address cu).
(** The function given to [range_update]: it captures the sum and calls
    [get_timestamp()]. *)
Definition deliver_line (a : double * Z) (r : record) : outcome ((double * Z) * record) :=
  l ← deref (as_orderline r);
  Ok ((d_add a.1 (ol_amount l), a.2 + 1),
      ROrderLine (mkOrderLine (ol_w_id l) (ol_d_id l) (ol_o_id l) (ol_number l) (ol_i_id l) (ol_supply_w_id l) a.2 (ol_quantity l) (ol_amount l) (ol_dist_info l))).
(** [res = tx.range_update(o_low, o_up, ...); if (not_succeeded(tx, res)) ...] *)
Definition update_lines (low up : Z) : M double := λ w,
  '(res, a, t) ← range_update (w_tx w) TOrderLine low up deliver_line (d_of_Z 0, w_clock w);
  (_ ← check c res RANGE_UPDATE_ORDERLINE; mret a.1) (mkWorld t (w_rand w) a.2 (w_stat w) (w_out w)).

Definition district (i : Input) (d_id : Z) : M () :=
  x ← on_tx (λ t, get_neworder_with_smallest_key_no_less_than t (NewOrderKey.create_key (w_id i) d_id 1));
  match x.1 with
  | FAIL => mret ()
  | res =>
      _ ← check c res GET_NEWORDER_WITH_SMALLEST_KEY;
      let nop := x.2 in
      no ← read as_neworder nop;
      _ ← call_ c (λ t, prepare_record_for_delete t TNewOrder (NewOrderKey.create_key (no_w_id no) (no_d_id no) (no_o_id no))) DELETE_NEWORDER;
      _ ← call_ c (λ t, finish_delete t nop) FINISH_DELETE_NEWORDER;
      no ← read as_neworder nop;
      op ← call c (λ t, prepare_record_for_update t TOrder (OrderKey.create_key (w_id i) d_id (no_o_id no))) PREPARE_UPDATE_ORDER;
      o ← read as_order op;
      _ ← write op (ROrder (set_carrier o (o_carrier_id i)));
      _ ← call_ c (λ t, finish_update t op) FINISH_UPDATE_ORDER;
      o ← read as_order op;
      let o_low := OrderLineKey.create_key (o_w_id o) (o_d_id o) (o_id o) 1 in
      let o_up := OrderLineKey.create_key (o_w_id o) (o_d_id o) (u32 (o_id o + 1)) 1 in
      total_ol_amount ← update_lines o_low o_up;
      o ← read as_order op;
      cp ← call c (λ t, prepare_record_for_update t TCustomer (CustomerKey.create_key (w_id i) d_id (o_c_id o))) PREPARE_UPDATE_CUSTOMER;
      cu ← read as_customer cp;
      _ ← write cp (RCustomer (deliver_customer cu total_ol_amount));
      _ ← call_ c (λ t, finish_update t cp) FINISH_UPDATE_CUSTOMER;
      o ← read as_order op;
      emit [VInt d_id; VInt (o_id o)]
  end.

(** [for (d_id = 1; d_id <= DISTS_PER_WARE; d_id++)]; [n] passes are left. *)
Fixpoint districts (i : Input) (n : nat) (d_id : Z) : M () :=
  match n with O => mret () | S n => _ ← district i d_id; districts i n (u8 (d_id + 1)) end.

Definition run (time : Z) (i : Input) : M Status.t :=
  _ ← emit [VInt (w_id i); VInt (o_carrier_id i)];
  _ ← districts i 10 1;
  helper_commit PRECOMMIT time.
End delivery.
End DeliveryTx.

(** ** orderstatus_tx.hpp *)
Module OrderStatusTx.
Section orderstatus.
Context `{TX : Transaction} (c : Config).

Record Input := mkInput { w_id : Z; d_id : Z; c_id : Z; by_last_name : bool; c_last : chars }.
Inductive AbortID := GET_CUSTOMER_BY_LAST_NAME | GET_CUSTOMER | GET_ORDER_BY_CUSTOMER_ID | RANGE_GET_ORDERLINE | PRECOMMIT.
Definition abort_id (a : AbortID) : nat :=
  match a with
  | GET_CUSTOMER_BY_LAST_NAME => 0 | GET_CUSTOMER => 1 | GET_ORDER_BY_CUSTOMER_ID => 2 | RANGE_GET_ORDERLINE => 3 | PRECOMMIT => 4
  end%nat.
#[local] Coercion abort_id : AbortID >-> nat.

Definition generate (last : chars) (w_id0 : Z) : Rand Input :=
  d ← urand_int 1 10;
  p ← urand_int 1 100;
  if p <=? 60 then
    n ← nurand_int 255 false 0 999;
    l ← lift (make_clast last n);
    mret (mkInput w_id0 (u8 d) PaymentTx.UNUSED_ID true l.2)
  else
    n ← nurand_int 1023 false 1 3000;
    mret (mkInput w_id0 (u8 d) (u32 n) false last).

(** The function given to [range_query]: it captures the output. *)
Definition show_line (a : list value) (r : record) : outcome (list value) :=
  l ← deref (as_orderline r);
  Ok (a ++ [VInt (ol_supply_w_id l); VInt (ol_i_id l); VInt (ol_quantity l); VDouble (ol_amount l); VInt (ol_delivery_d l)]).

Definition run (time : Z) (i : Input) : M Status.t :=
  _ ← emit [VInt (w_id i); VInt (d_id i); VInt (c_id i)];
  cp ← (if by_last_name i then
          _ ← out_of (assert_ (c_id i =? PaymentTx.UNUSED_ID));
          call c (λ t, get_customer_by_last_name t (w_id i) (d_id i) (c_last i)) GET_CUSTOMER_BY_LAST_NAME
        else
          _ ← out_of (assert_ (negb (c_id i =? PaymentTx.UNUSED_ID)));
          call c (λ t, get_record t TCustomer (CustomerKey.create_key (w_id i) (d_id i) (c_id i))) GET_CUSTOMER);
  cu ← read as_customer cp;
  _ ← emit [VChars (c_first cu); VChars (c_middle cu); VChars (Records.c_last cu); VDouble (c_balance cu)];
  op ← call c (λ t, get_order_by_customer_id t (w_id i) (d_id i) (Records.c_id cu)) GET_ORDER_BY_CUSTOMER_ID;
  o ← read as_order op;
  _ ← emit [VInt (o_id o); VInt (o_entry_d o); VInt (o_carrier_id o)];
  let low := OrderLineKey.create_key (o_w_id o) (o_d_id o) (o_id o) 1 in
  let up := OrderLineKey.create_key (o_w_id o) (o_d_id o) (u32 (o_id o + 1)) 1 in
  x ← on_tx (λ t, range_query t TOrderLine low up show_line []);
  _ ← emit x.2;
  _ ← check c x.1 RANGE_GET_ORDERLINE;
  helper_commit PRECOMMIT time.
End orderstatus.
End OrderStatusTx.

(** ** stocklevel_tx.hpp *)
Module StockLevelTx.
Section stocklevel.
Context `{TX : Transaction} (c : Config).

Record Input := mkInput { w_id : Z; d_id : Z; threshold : Z }.
Inductive AbortID := GET_DISTRICT | RANGE_GET_ORDERLINE | GET_STOCK | PRECOMMIT.
Definition abort_id (a : AbortID) : nat := match a with GET_DISTRICT => 0 | RANGE_GET_ORDERLINE => 1 | GET_STOCK => 2 | PRECOMMIT => 3 end%nat.
#[local] Coercion abort_id : AbortID >-> nat.

Definition generate (w_id0 : Z) : Rand Input := d ← urand_int 1 10; t ← urand_int 10 20; mret (mkInput w_id0 (u8 d) (u8 t)).

(** [s_i_ids] is a [std::set]: its elements in ascending order. *)
Fixpoint set_insert (x : Z) (s : list Z) : list Z :=
  match s with [] => [x] | y :: s' => if x <? y then x :: s else if x =? y then s else y :: set_insert x s' end.
Definition collect (a : list Z) (r : record) : outcome (list Z) :=
  l ← deref (as_orderline r); Ok (if ol_i_id l =? NewOrderTx.UNUSED_ID then a else set_insert (ol_i_id l) a).

(** The loop over the set, which keeps the items that are low on stock. *)
Fixpoint low_stock (i : Input) (ids : list Z) : M (list Z) :=
  match ids with
  | [] => mret []
  | id :: ids =>
      sp ← call c (λ t, get_record t TStock (StockKey.create_key (w_id i) id)) GET_STOCK;
      s ← read as_stock sp;
      rest ← low_stock i ids;
      mret (if threshold i <=? s_quantity s then rest else id :: rest)
  end.

Definition run (time : Z) (i : Input) : M Status.t :=
  _ ← emit [VInt (w_id i); VInt (d_id i); VInt (threshold i)];
  dp ← call c (λ t, get_record t TDistrict (DistrictKey.create_key (w_id i) (d_id i))) GET_DISTRICT;
  d ← read as_district dp;
  let low := OrderLineKey.create_key (w_id i) (d_id i) (u32 (d_next_o_id d - 20)) 1 in
  let up := OrderLineKey.create_key (w_id i) (d_id i) (d_next_o_id d) 1 in
  ids ← call c (λ t, range_query t TOrderLine low up collect []) RANGE_GET_ORDERLINE;
  ids ← low_stock i ids;
  _ ← emit [VInt (Z.of_nat (length ids))];
  helper_commit PRECOMMIT time.
End stocklevel.
End StockLevelTx.

(** ** tx_runner.hpp *)
Module TxRunner.
Section runner.
Context `{TX : Transaction} (c : Config).

(** [run<TxProfile>]: [generate] is the constructor of the profile, [profile]
    its [run]. *)
Definition run {Input} (generate : Z → M Input) (profile : Input → M Status.t) (thread_id : Z) : M Status.t :=
  w_id ← (if fixed_ware c then
            _ ← out_of (assert_ (negb (num_warehouses c =? 0))); mret (u16 (thread_id mod num_warehouses c + 1))
          else n ← rand (urand_int 1 (num_warehouses c)); mret (u16 n));
  i ← generate w_id;
  profile i.

(** What [run] returns. *)
Definition status {A} (m : M Status.t) (k : Status.t → world → outcome A) : world → outcome A := λ w,
  '(r, w) ← m w; match r with inl st | inr st => k st w end.

(** [run_with_retry]; after [fuel] system aborts it is still at it. *)
Fixpoint run_with_retry (fuel : nat) (m : M Status.t) : world → outcome (bool * world) :=
  match fuel with
  | O => λ _, Wait
  | S fuel =>
      status m (λ st w,
        match st with
        | Status.SUCCESS => Ok (true, w)
        | Status.USER_ABORT => t ← abort (w_tx w); Ok (false, set_tx w t)
        | Status.SYSTEM_ABORT => run_with_retry fuel m w
        | Status.BUG => Stuck
        end)
  end.
End runner.
End TxRunner.
End Tpcc.
