(* ===== verification/Naive.v ===== *)
(** * protocols/naive: a write set under one lock

    The database of the naive protocol ([database.hpp]) with its secondary
    indexes, the cache of record memory ([cache.hpp]), the write set
    ([writeset.hpp]), the transactions ([transaction.hpp]) and the one lock
    they run under ([concurrency_manager.hpp]).  Records live in a memory: a
    secondary index holds plain pointers to them, so a use of freed memory is
    [Stuck].  The checks of a debug build are in force. *)
From stdpp Require Import sorting.
From S2P Require Import Prelude BitFields Utils Records Tx.

Module Naive.
Import Records Tx.

(** [strncmp], by the sign. *)
Fixpoint strncmp (a b : chars) (n : nat) : Z :=
  match n with
  | O => 0
  | S n =>
      let x := hd 0 a in let y := hd 0 b in
      if x <? y then -1 else if y <? x then 1 else if x =? 0 then 0 else strncmp (tl a) (tl b) n
  end.

(** *** Secondary keys *)
Module CustomerSecondaryKey.
Definition d_id : field := mkField 0 8.
Definition w_id : field := mkField 8 16.
Record t := mk { num : Z; c_last : chars }.
(** [c_last] is a new array. *)
Definition create_key (w d : Z) (c_last_in : chars) : t :=
  mk (set_field d_id d (set_field w_id w 0)) (copy_cstr (replicate (S MAX_LAST) 0) c_last_in (S MAX_LAST)).
Definition lt (a b : t) : bool :=
  if num a =? num b then strncmp (c_last a) (c_last b) MAX_LAST <? 0 else num a <? num b.
Definition eq (a b : t) : bool := (num a =? num b) && (strncmp (c_last a) (c_last b) MAX_LAST =? 0).
End CustomerSecondaryKey.

Module OrderSecondaryKey.
Definition c_id : field := mkField 0 32.
Definition d_id : field := mkField 32 8.
Definition w_id : field := mkField 40 16.
Definition create_key (w d c : Z) : Z := set_field c_id c (set_field d_id d (set_field w_id w 0)).
End OrderSecondaryKey.

(** [std::multimap]: [lower_bound], and [emplace] after the equal keys. *)
Section multimap.
Context {K V : Type} (lt : K → K → bool).
Fixpoint lower_bound (k : K) (m : list (K * V)) : list (K * V) :=
  match m with [] => [] | x :: m' => if lt x.1 k then lower_bound k m' else m end.
Fixpoint emplace (k : K) (v : V) (m : list (K * V)) : list (K * V) :=
  match m with [] => [(k, v)] | x :: m' => if lt k x.1 then (k, v) :: m else x :: emplace k v m' end.
Fixpoint while_equal (eq : K → K → bool) (k : K) (m : list (K * V)) : list V :=
  match m with [] => [] | x :: m' => if eq x.1 k then x.2 :: while_equal eq k m' else [] end.
End multimap.

Inductive LogType := INSERT | UPDATE | DELETE.
(** [it] is the key the iterator into the table stands at. *)
Record LogRecord := mkLog { lt : LogType; rec_ptr : Ptr; it : option Z }.

Section protocol.
Context `{HD : Double}.
(** What a new record holds before it is written to. *)
Context (junk : table → loc → record).

Record database := mkDb {
  rows : gmap (table * Z) loc;
  customers : list (CustomerSecondaryKey.t * loc); orders : list (Z * loc);
  history : list loc
}.

(** The memory, the caches and the tables, and the write set of the running
    transaction; [history] and the caches are those of its thread. *)
Record state := mkState {
  mem : gmap loc record; cache : gmap table (list loc); db : database;
  ws : gmap (table * Z) LogRecord; ws_history : list loc
}.

Definition set_mem (s : state) (m : gmap loc record) : state := mkState m (cache s) (db s) (ws s) (ws_history s).
Definition set_cache (s : state) (tb : table) (q : list loc) : state := mkState (mem s) (<[tb := q]> (cache s)) (db s) (ws s) (ws_history s).
Definition set_db (s : state) (d : database) : state := mkState (mem s) (cache s) d (ws s) (ws_history s).
Definition set_ws (s : state) (w : gmap (table * Z) LogRecord) : state := mkState (mem s) (cache s) (db s) w (ws_history s).
Definition set_ws_history (s : state) (h : list loc) : state := mkState (mem s) (cache s) (db s) (ws s) h.
Definition set_rows (d : database) (t : gmap (table * Z) loc) : database := mkDb t (customers d) (orders d) (history d).

(** ** Cache *)
Definition cache_size := 30%nat.
Definition cached (s : state) (tb : table) : list loc := default [] (cache s !! tb).

Definition allocate (s : state) (tb : table) : loc * state :=
  match last (cached s tb) with
  | None => let l := fresh (dom (mem s)) in (l, set_mem s (<[l := junk tb l]> (mem s)))
  | Some l => (l, set_cache s tb (removelast (cached s tb)))
  end.

Definition deallocate (s : state) (tb : table) (l : loc) : state :=
  let q := cached s tb ++ [l] in
  if Nat.ltb cache_size (length q) then
    set_cache (set_mem s (match head q with Some old => delete old (mem s) | None => mem s end)) tb (tail q)
  else set_cache s tb q.

(** ** Database *)
Definition db_get_record (d : database) (tb : table) (key : Z) : Ptr := rows d !! (tb, key).

Definition insert_history (d : database) (l : loc) : database := mkDb (rows d) (customers d) (orders d) (history d ++ [l]).

Definition insert_customer_secondary (d : database) (key : CustomerSecondaryKey.t) (l : loc) : database :=
  let t := customers d in
  if bool_decide (l ∈ while_equal CustomerSecondaryKey.eq key (lower_bound CustomerSecondaryKey.lt key t)) then d
  else mkDb (rows d) (emplace CustomerSecondaryKey.lt key l t) (orders d) (history d).
Definition insert_order_secondary (d : database) (key : Z) (l : loc) : database :=
  let t := orders d in
  if bool_decide (l ∈ while_equal Z.eqb key (lower_bound Z.ltb key t)) then d
  else mkDb (rows d) (customers d) (emplace Z.ltb key l t) (history d).

Definition insert_secondary (d : database) (r : record) (l : loc) : database :=
  match r with
  | RCustomer c => insert_customer_secondary d (CustomerSecondaryKey.create_key (c_w_id c) (c_d_id c) (c_last c)) l
  | ROrder o => insert_order_secondary d (OrderSecondaryKey.create_key (o_w_id o) (o_d_id o) (o_c_id o)) l
  | _ => d
  end.

(** A record under a key that is taken is freed with its [unique_ptr]. *)
Definition insert_record (s : state) (tb : table) (key : Z) (l : loc) : outcome state :=
  match rows (db s) !! (tb, key) with
  | Some _ => Ok (set_mem s (delete l (mem s)))
  | None =>
      r ← deref (mem s !! l);
      Ok (set_db s (insert_secondary (set_rows (db s) (<[(tb, key) := l]> (rows (db s)))) r l))
  end.

Definition update_record (s : state) (tb : table) (iter : option Z) (l : loc) : outcome state :=
  key ← deref iter;
  dst ← deref (rows (db s) !! (tb, key));
  let s := deallocate s tb dst in
  Ok (set_db s (set_rows (db s) (<[(tb, key) := l]> (rows (db s))))).

Definition delete_record (s : state) (tb : table) (iter : option Z) : outcome state :=
  key ← deref iter;
  dst ← deref (rows (db s) !! (tb, key));
  let s := deallocate s tb dst in
  Ok (set_db s (set_rows (db s) (delete (tb, key) (rows (db s))))).

(** ** Write set *)
Definition create_logrecord (s : state) (tb : table) (key : Z) (lr : LogRecord) : state := set_ws s (<[(tb, key) := lr]> (ws s)).

Definition apply_update_to_writeset (s : state) (tb : table) (key : Z) : outcome (Ptr * state) :=
  match ws s !! (tb, key) with
  | Some lr =>
      match lt lr with
      | INSERT | UPDATE => Ok (rec_ptr lr, s)
      | DELETE => Throw "Record already deleted"
      end
  | None =>
      match db_get_record (db s) tb key with
      | None => Throw "No record to update in db"
      | Some src =>
          let '(l, s) := allocate s tb in
          let s := create_logrecord s tb key (mkLog UPDATE (Some l) (Some key)) in
          to ← deref (mem s !! l);
          from ← deref (mem s !! src);
          r ← deep_copy_from to from;
          Ok (Some l, set_mem s (<[l := r]> (mem s)))
      end
  end.

Definition apply_insert_history (s : state) : Ptr * state :=
  let '(l, s) := allocate s THistory in (Some l, set_ws_history s (ws_history s ++ [l])).

Definition apply_insert_to_writeset (s : state) (tb : table) (key : Z) : outcome (Ptr * state) :=
  match ws s !! (tb, key) with
  | Some lr =>
      match lt lr with
      | INSERT => Throw "Record already inserted"
      | UPDATE => Throw "Record already updated"
      | DELETE => Ok (rec_ptr lr, create_logrecord s tb key (mkLog UPDATE (rec_ptr lr) (it lr)))
      end
  | None =>
      let '(l, s) := allocate s tb in
      Ok (Some l, create_logrecord s tb key (mkLog INSERT (Some l) None))
  end.

Definition remove_logrecord_with_logtype (s : state) (tb : table) (key : Z) (t : LogType) : outcome state :=
  lr ← deref (ws s !! (tb, key));
  match lt lr, t with
  | INSERT, INSERT | UPDATE, UPDATE | DELETE, DELETE =>
      l ← deref (rec_ptr lr);
      let s := deallocate s tb l in Ok (set_ws s (delete (tb, key) (ws s)))
  | _, _ => Ok s
  end.

Definition apply_delete_to_writeset (s : state) (tb : table) (key : Z) : outcome (bool * state) :=
  match ws s !! (tb, key) with
  | Some lr =>
      match lt lr with
      | INSERT => s ← remove_logrecord_with_logtype s tb key INSERT; Ok (true, s)
      | UPDATE => Ok (true, create_logrecord s tb key (mkLog DELETE (rec_ptr lr) (it lr)))
      | DELETE => Throw "Record already deleted"
      end
  | None =>
      match db_get_record (db s) tb key with
      | None => Throw "Record not found in db"
      | Some _ =>
          let '(l, s) := allocate s tb in
          Ok (true, create_logrecord s tb key (mkLog DELETE (Some l) (Some key)))
      end
  end.

(** The entries of one table, in the order of the map. *)
Definition entries {A} (tb : table) (m : gmap (table * Z) A) : list (Z * A) :=
  spec_row (omap (λ x, if decide (x.1.1 = tb) then Some (x.1.2, x.2) else None) (map_to_list m)).

Definition apply_entry (tb : table) (s : state) (x : Z * LogRecord) : outcome state :=
  let '(key, lr) := x in
  l ← deref (rec_ptr lr);
  match lt lr with
  | INSERT => insert_record s tb key l
  | UPDATE => update_record s tb (it lr) l
  | DELETE => s ← delete_record s tb (it lr); Ok (deallocate s tb l)
  end.

Definition clear_entry (tb : table) (s : state) (x : Z * LogRecord) : outcome state :=
  match rec_ptr x.2 with Some l => Ok (deallocate s tb l) | None => Throw "Null poitner found in writeset" end.

(** A loop over a list that stops at an error. *)
Fixpoint each {A} (f : state → A → outcome state) (s : state) (l : list A) : outcome state :=
  match l with [] => Ok s | x :: l => s ← f s x; each f s l end.

Definition drop_table (tb : table) (w : gmap (table * Z) LogRecord) : gmap (table * Z) LogRecord := filter (λ x, x.1.1 ≠ tb) w.

Definition apply_writeset_to_database (s : state) (tb : table) : outcome state :=
  match tb with
  | THistory =>
      let s := set_db s (foldl insert_history (db s) (ws_history s)) in Ok (set_ws_history s [])
  | _ =>
      s ← each (apply_entry tb) s (entries tb (ws s));
      Ok (set_ws s (drop_table tb (ws s)))
  end.
Definition apply_to_database (s : state) : outcome (bool * state) := s ← each apply_writeset_to_database s tables; Ok (true, s).

Definition clear_writeset (s : state) (tb : table) : outcome state :=
  match tb with
  | THistory => s ← each (λ s l, Ok (deallocate s THistory l)) s (ws_history s); Ok (set_ws_history s [])
  | _ => s ← each (clear_entry tb) s (entries tb (ws s)); Ok (set_ws s (drop_table tb (ws s)))
  end.
Definition clear_all (s : state) : outcome state := each clear_writeset s tables.

(** ** Transaction *)
Definition abort (s : state) : outcome state := clear_all s.
Definition commit (s : state) : outcome (bool * state) :=
  '(b, s) ← apply_to_database s;
  if b : bool then Ok (true, s) else s ← abort s; Ok (false, s).

Definition result_of (p : Ptr) : Result := match p with Some _ => SUCCESS | None => FAIL end.

Definition get_record (s : state) (tb : table) (key : Z) : outcome (Result * Ptr * state) :=
  let p := db_get_record (db s) tb key in Ok (result_of p, p, s).
Definition prepare_history_for_insert (s : state) : outcome (Result * Ptr * state) :=
  let '(p, s) := apply_insert_history s in Ok (result_of p, p, s).
Definition prepare_record_for_insert (s : state) (tb : table) (key : Z) : outcome (Result * Ptr * state) :=
  '(p, s) ← apply_insert_to_writeset s tb key; Ok (result_of p, p, s).
Definition prepare_record_for_update (s : state) (tb : table) (key : Z) : outcome (Result * Ptr * state) :=
  '(p, s) ← apply_update_to_writeset s tb key; Ok (result_of p, p, s).
Definition prepare_record_for_delete (s : state) (tb : table) (key : Z) : outcome (Result * state) :=
  '(b, s) ← apply_delete_to_writeset s tb key; Ok (if b : bool then SUCCESS else FAIL, s).
(** [finish_insert], [finish_update] and [finish_delete]. *)
Definition finish (s : state) : outcome (Result * state) := Ok (SUCCESS, s).

(** Access through a pointer. *)
Definition load (s : state) (l : loc) : outcome record := deref (mem s !! l).
Definition store (s : state) (l : loc) (r : record) : outcome state :=
  _ ← deref (mem s !! l); Ok (set_mem s (<[l := r]> (mem s))).

Definition load_customer (s : state) (l : loc) : outcome Customer :=
  r ← load s l; match r with RCustomer c => Ok c | _ => Stuck end.
Definition load_order (s : state) (l : loc) : outcome Order :=
  r ← load s l; match r with ROrder o => Ok o | _ => Stuck end.

Fixpoint load_customers (s : state) (ls : list loc) : outcome (list (loc * Customer)) :=
  match ls with [] => Ok [] | l :: ls => c ← load_customer s l; cs ← load_customers s ls; Ok ((l, c) :: cs) end.

(** [std::sort] by [c_first]; equal elements keep their order.  A single
    element is not compared. *)
Definition first_le (x y : loc * Customer) : Prop := strncmp (c_first x.2) (c_first y.2) MAX_FIRST ≤ 0.
#[local] Instance first_le_dec : RelDecision first_le := λ x y, decide (strncmp (c_first x.2) (c_first y.2) MAX_FIRST ≤ 0).
Definition sort_by_first (s : state) (temp : list loc) : outcome (list loc) :=
  match temp with
  | [] | [_] => Ok temp
  | _ => cs ← load_customers s temp; Ok (merge_sort first_le cs).*1
  end.

Definition get_customer_by_last_name (s : state) (w d : Z) (last : chars) : outcome (Result * Ptr) :=
  let key := CustomerSecondaryKey.create_key w d last in
  let temp := while_equal CustomerSecondaryKey.eq key (lower_bound CustomerSecondaryKey.lt key (customers (db s))) in
  match temp with
  | [] => Ok (FAIL, None)
  | _ =>
      temp ← sort_by_first s temp;
      c ← deref (temp !! Nat.pred (Nat.div (length temp + 1) 2));
      Ok (SUCCESS, Some c)
  end.

Definition get_customer_by_last_name_and_prepare_for_update (s : state) (w d : Z) (last : chars) : outcome (Result * Ptr * state) :=
  '(r, c_temp) ← get_customer_by_last_name s w d last;
  match r with
  | FAIL => Ok (FAIL, None, s)
  | _ =>
      l ← deref c_temp;
      c ← load_customer s l;
      '(p, s) ← apply_update_to_writeset s TCustomer (CustomerKey.create_key (c_w_id c) (c_d_id c) (c_id c));
      _ ← deref p;
      Ok (SUCCESS, p, s)
  end.

(** The order with the largest id. *)
Fixpoint latest_order (s : state) (ls : list loc) (max_o_id : Z) (o_ptr : Ptr) : outcome Ptr :=
  match ls with
  | [] => Ok o_ptr
  | l :: ls => o ← load_order s l; if max_o_id <? o_id o then latest_order s ls (o_id o) (Some l) else latest_order s ls max_o_id o_ptr
  end.
Definition get_order_by_customer_id (s : state) (w d c : Z) : outcome (Result * Ptr) :=
  let key := OrderSecondaryKey.create_key w d c in
  p ← latest_order s (while_equal Z.eqb key (lower_bound Z.ltb key (orders (db s)))) 0 None;
  Ok (result_of p, p).

(** The iterator is dereferenced without a test for [end()]. *)
Definition get_neworder_with_smallest_key_no_less_than (s : state) (low : Z) : outcome (Result * Ptr) :=
  '(k, l) ← deref (head (lower_bound Z.ltb low (entries TNewOrder (rows (db s)))));
  if (get_field NewOrderKey.w_id k =? get_field NewOrderKey.w_id low) && (get_field NewOrderKey.d_id k =? get_field NewOrderKey.d_id low)
  then Ok (SUCCESS, Some l) else Ok (FAIL, None).

(** The rows with low ≤ key < up. *)
Fixpoint while_below (up : Z) (m : list (Z * loc)) : list (Z * loc) :=
  match m with [] => [] | x :: m' => if x.1 <? up then x :: while_below up m' else [] end.
Definition range (s : state) (tb : table) (low up : Z) : list (Z * loc) := while_below up (lower_bound Z.ltb low (entries tb (rows (db s)))).

Fixpoint query_rows {A} (s : state) (f : A → record → outcome A) (a : A) (m : list (Z * loc)) : outcome A :=
  match m with [] => Ok a | x :: m => r ← load s x.2; a ← f a r; query_rows s f a m end.
Definition range_query {A} (s : state) (tb : table) (low up : Z) (f : A → record → outcome A) (a : A) : outcome (Result * A) :=
  a ← query_rows s f a (range s tb low up); Ok (SUCCESS, a).

Fixpoint update_rows {A} (s : state) (tb : table) (f : A → record → outcome (A * record)) (a : A) (m : list (Z * loc)) : outcome (A * state) :=
  match m with
  | [] => Ok (a, s)
  | x :: m =>
      '(p, s) ← apply_update_to_writeset s tb x.1;
      l ← deref p;
      r ← load s l;
      '(a, r) ← f a r;
      s ← store s l r;
      update_rows s tb f a m
  end.
Definition range_update {A} (s : state) (tb : table) (low up : Z) (f : A → record → outcome (A * record)) (a : A) : outcome (Result * A * state) :=
  '(a, s) ← update_rows s tb f a (range s tb low up); Ok (SUCCESS, a, s).
End protocol.
End Naive.
