(* ===== verification/NaiveLock.v ===== *)
(** * protocols/naive: the one lock

    The lock every transaction of the naive protocol runs under
    ([concurrency_manager.hpp]): [lock_var] behind a mutex and a condition
    variable.  The threads that construct and destroy transactions are a
    transition system over the acquisition of the mutex, the test of
    [lock_var], the wait, the wake-ups (spurious ones included) and the
    release; with one thread the lock is not used. *)
From stdpp Require Import list.
From S2P Require Import Prelude.

Module NaiveLock.

(** A thread: outside, in [lock] (before the mutex, with it at the test of
    the loop, in [wait], or woken and before the mutex again), running its
    transaction, in [unlock] (before the mutex, with it). *)
Inductive thread := Outside | Locking | Testing | Waiting | Woken | Running | Unlocking | Releasing.
#[export] Instance thread_eq_dec : EqDecision thread.
Proof. solve_decision. Defined.

(** [latch] is the thread that holds the mutex. *)
Record state := mkState { lock_var : Z; latch : option nat; threads : list thread }.
Definition set_thread (s : state) (i : nat) (t : thread) : state := mkState (lock_var s) (latch s) (<[i := t]> (threads s)).
Definition set_latch (s : state) (l : option nat) : state := mkState (lock_var s) l (threads s).
Definition set_lock_var (s : state) (v : Z) : state := mkState v (latch s) (threads s).

(** The next thing a thread does; [Unlock j] tells which thread
    [notify_one] wakes. *)
Inductive action := Construct | Latch | Test | Spurious | Destruct | Unlock (j : option nat).

Definition is_single_thread (s : state) : bool := Nat.eqb (length (threads s)) 1.

(** [notify_one] wakes a thread that waits, if there is one. *)
Definition notify_one (s : state) (j : option nat) : option state :=
  match j with
  | Some j => if decide (threads s !! j = Some Waiting) then Some (set_thread s j Woken) else None
  | None => if decide (Waiting ∈ threads s) then None else Some s
  end.

Definition act (s : state) (i : nat) (a : action) : option state :=
  t ← threads s !! i;
  match a, t with
  | Construct, Outside => Some (set_thread s i (if is_single_thread s then Running else Locking))
  | Latch, (Locking | Woken) => if latch s is Some _ then None else Some (set_thread (set_latch s (Some i)) i Testing)
  | Test, Testing =>
      if lock_var s =? 1 then Some (set_thread (set_latch s None) i Waiting)
      else Some (set_thread (set_latch (set_lock_var s 1) None) i Running)
  | Spurious, Waiting => Some (set_thread s i Woken)
  | Destruct, Running => Some (set_thread s i (if is_single_thread s then Outside else Unlocking))
  | Latch, Unlocking => if latch s is Some _ then None else Some (set_thread (set_latch s (Some i)) i Releasing)
  | Unlock j, Releasing => s ← notify_one (set_lock_var s 0) j; Some (set_thread (set_latch s None) i Outside)
  | _, _ => None
  end.

(** One thread per worker: [get_num_threads()] is the number of them. *)
Definition initial (n : nat) : state := mkState 0 None (replicate n Outside).
Inductive reachable (n : nat) : state → Prop :=
| reach_init : reachable n (initial n)
| reach_step s i a s' : reachable n s → act s i a = Some s' → reachable n s'.

(** ** The invariant *)

(** The threads between the acquisition and the release of the lock, and the
    threads that hold the mutex. *)
Definition owns (t : thread) : bool := match t with Running | Unlocking | Releasing => true | _ => false end.
Definition latched (t : thread) : bool := match t with Testing | Releasing => true | _ => false end.
Definition awake (t : thread) : bool := match t with Outside | Waiting => false | _ => true end.

Definition some (P : thread → bool) (l : list thread) : Prop := ∃ i t, l !! i = Some t ∧ P t = true.

Lemma some_new P l i t t' : l !! i = Some t → P t' = true → some P (<[i := t']> l).
Proof. intros Hi Ht. exists i, t'. split; [|done]. apply list_lookup_insert_eq. by eapply lookup_lt_Some. Qed.
Lemma some_old P l i t t' : l !! i = Some t → (P t = true → P t' = true) → some P l → some P (<[i := t']> l).
Proof.
  intros Hi Ht (j & u & Hj & Hu). destruct (decide (i = j)) as [<-|Hne].
  - simplify_eq. by eapply some_new; eauto.
  - exists j, u. by rewrite list_lookup_insert_ne.
Qed.

Record inv (s : state) : Prop := {
  i_owner i t : threads s !! i = Some t → owns t = true → is_single_thread s = true ∨ lock_var s = 1;
  i_owners i j t u : threads s !! i = Some t → threads s !! j = Some u → owns t = true → owns u = true → i = j;
  i_locked : lock_var s = 1 → some owns (threads s);
  i_latch i : latch s = Some i → ∃ t, threads s !! i = Some t ∧ latched t = true;
  i_latched i t : threads s !! i = Some t → latched t = true → latch s = Some i;
  i_free : is_single_thread s = true → lock_var s = 0;
  i_single i t : is_single_thread s = true → threads s !! i = Some t → t = Outside ∨ t = Running;
  i_woken i : threads s !! i = Some Waiting → some awake (threads s)
}.

Lemma initial_inv n : inv (initial n).
Proof.
  assert (∀ i t, replicate n Outside !! i = Some t → t = Outside) as H by (intros i t [? _]%lookup_replicate; done).
  split; simpl; try done; intros; repeat match goal with E : replicate _ _ !! _ = Some _ |- _ => apply H in E end; subst; try done. by left.
Qed.

Lemma insert_single s i t l v : is_single_thread (mkState v l (<[i := t]> (threads s))) = is_single_thread s.
Proof. unfold is_single_thread. simpl. by rewrite length_insert. Qed.
(** Case analysis on which thread moved. *)
Ltac moved := repeat match goal with
  | H : <[_ := _]> _ !! _ = Some _ |- _ => apply list_lookup_insert_Some in H as [(? & ? & ?)|[? ?]]
  end; simplify_eq/=.

(** A thread moves in or out of its transaction when it is the only one. *)
Lemma single_inv s i t t' : inv s → threads s !! i = Some t → is_single_thread s = true → t' = Outside ∨ t' = Running → inv (set_thread s i t').
Proof.
  intros [Ho Hos Hlk Hl Hld Hf Hs Hw] Hi H1 Ht'. assert (∀ j u, threads s !! j = Some u → j = i) as Hone.
  { intros j u Hj%lookup_lt_Some. apply lookup_lt_Some in Hi. unfold is_single_thread in H1. apply Nat.eqb_eq in H1. lia. }
  pose proof (Hs i t H1 Hi) as Ht. assert (latch s = None) as Hn.
  { destruct (latch s) as [k|] eqn:E; [|done]. destruct (Hl k eq_refl) as (u & Hk & Hu). destruct (Hs k u H1 Hk) as [->| ->]; done. }
  split; unfold set_thread; rewrite ?insert_single; simpl; rewrite ?Hn; try done.
  - by left.
  - intros j k u u' Hj Hk. moved; naive_solver.
  - rewrite Hf by done. done.
  - intros j u Hj. moved; destruct_or?; subst; naive_solver.
  - intros j u _ Hj. moved; naive_solver.
  - intros j Hj. moved; naive_solver.
Qed.

Lemma not_single s i t : inv s → is_single_thread s = false → threads s !! i = Some t → owns t = true → lock_var s = 1.
Proof. intros Hinv H1 Hi Ht. destruct (i_owner s Hinv i t Hi Ht); congruence. Qed.

(** The invariant without the clauses for a single thread, over the next
    state: [l'] is the latch, [v'] the lock. *)
Lemma multi_inv v' l' ts : length ts ≠ 1%nat →
  (∀ i t, ts !! i = Some t → owns t = true → v' = 1) →
  (∀ i j t u, ts !! i = Some t → ts !! j = Some u → owns t = true → owns u = true → i = j) →
  (v' = 1 → some owns ts) →
  (∀ i, l' = Some i → ∃ t, ts !! i = Some t ∧ latched t = true) →
  (∀ i t, ts !! i = Some t → latched t = true → l' = Some i) →
  (∀ i, ts !! i = Some Waiting → some awake ts) → inv (mkState v' l' ts).
Proof.
  intros H1. assert (is_single_thread (mkState v' l' ts) = false) as E by by apply Nat.eqb_neq.
  split; simpl; rewrite ?E; try done. intros. right. eauto.
Qed.

(** Some thread has the property: the one that moved, or one that did not. *)
Ltac others := match goal with
  | |- some _ (<[_ := _]> _) => first [eapply some_new; [eassumption|reflexivity] | eapply some_old; [eassumption|done|solve [eauto]]]
  end.
(** [unlock]: one of the threads that wait, if there is one, is woken. *)
Lemma release_inv s i s1 j : inv s → is_single_thread s = false → threads s !! i = Some Releasing →
  notify_one (set_lock_var s 0) j = Some s1 → inv (set_thread (set_latch s1 None) i Outside).
Proof.
  intros Hinv H1 Hi. destruct Hinv as [_ Hos _ _ Hld _ _ Hw].
  assert (∀ k u, threads s !! k = Some u → k ≠ i → owns u = false ∧ latched u = false) as Hk.
  { intros k u Hk Hne. split; apply not_true_is_false; intros Hu.
    - by apply Hne, (Hos k i u Releasing).
    - pose proof (Hld k u Hk Hu). pose proof (Hld i _ Hi eq_refl). congruence. }
  unfold notify_one, set_thread, set_latch, set_lock_var. simpl. destruct j as [j|]; case_decide as Hj; try done; intros [= <-]; simpl.
  - assert (j ≠ i) by (intros ->; congruence).
    apply multi_inv; [by rewrite !length_insert; apply Nat.eqb_neq|..]; simpl; try done.
    all: try (intros k u Hku Hu; moved; try done; edestruct Hk; eauto; congruence).
    + intros k k' u u' Hku Hku' Hu _. moved; try done; edestruct (Hk k); eauto; congruence.
    + intros. exists j, Woken. rewrite list_lookup_insert_ne by done. split; [|done]. apply list_lookup_insert_eq. by eapply lookup_lt_Some.
  - apply multi_inv; [by rewrite !length_insert; apply Nat.eqb_neq|..]; simpl; try done.
    all: try (intros k u Hku Hu; moved; try done; edestruct Hk; eauto; congruence).
    + intros k k' u u' Hku Hku' Hu _. moved; try done; edestruct (Hk k); eauto; congruence.
    + intros k Hku. moved. exfalso. apply Hj. by eapply list_elem_of_lookup_2.
Qed.
Lemma act_inv s i a s' : inv s → act s i a = Some s' → inv s'.
Proof.
  intros Hinv. unfold act. destruct (threads s !! i) as [t|] eqn:Hi; [|done]. simpl.
  destruct (is_single_thread s) eqn:H1.
  - destruct (i_single s Hinv i t H1 Hi) as [-> | ->]; destruct a; try done; intros [= <-]; eapply single_inv; eauto.
  - pose proof (λ j u, not_single s j u Hinv H1) as Ho. pose proof Hinv as Hinv'. destruct Hinv as [_ Hos Hlk Hl Hld _ _ Hw].
    destruct a, t; try done; try (destruct (latch s) eqn:Hlt; [done|]); try (destruct (lock_var s =? 1) eqn:Hv).
    all: try (intros [= <-]; apply multi_inv; [by rewrite length_insert; apply Nat.eqb_neq|..]; simpl).
    all: try (by intros; moved; eauto).
    all: try (by intros; moved; eauto; try others).
    all: try (by intros; moved; eauto; match goal with H : _ !! _ = Some ?u, H' : latched ?u = true |- _ => apply Hld in H'; [congruence|done] end).
    all: try (intros k Hk; first
      [ simplify_eq; by eexists; split; [apply list_lookup_insert_eq; eapply lookup_lt_Some; eassumption|reflexivity]
      | destruct (Hl k Hk) as (u & Hu & ?); destruct (decide (i = k)) as [<-|]; [by simplify_eq|by exists u; rewrite list_lookup_insert_ne] ]).
    all: try (intros j u Hj Hu; moved; try done; match goal with H : _ !! _ = Some ?u, H' : latched ?u = true |- _ => pose proof (Hld _ _ H H'); pose proof (Hld _ _ Hi) end; naive_solver).
    + intros _ _. destruct (Hlk ltac:(lia)) as (j & u & Hj & Hu). exists j, u. split; [|by destruct u]. rewrite list_lookup_insert_ne; [done|]. intros ->. by simplify_eq.
    + intros j k u u' Hj Hk Hu Hu'. moved; try done; exfalso; match goal with H : _ !! _ = Some ?u, H' : owns ?u = true |- _ => apply Ho in H; [lia|done] end.
    + intros (s1 & Hn & [= <-])%bind_Some. exact (release_inv _ _ _ _ Hinv' H1 Hi Hn).
    + intros (s1 & Hn & [= <-])%bind_Some. exact (release_inv _ _ _ _ Hinv' H1 Hi Hn).
Qed.

Lemma reachable_inv n s : reachable n s → inv s.
Proof. induction 1; [apply initial_inv|by eapply act_inv]. Qed.

(** A thread that is not asleep can move, or the one that holds the mutex. *)
Lemma awake_moves s i t : inv s → threads s !! i = Some t → awake t = true → ∃ j a s', a ≠ Construct ∧ a ≠ Spurious ∧ act s j a = Some s'.
Proof.
  intros Hinv Hi Ht. destruct (latch s) as [k|] eqn:Hl.
  - destruct (i_latch s Hinv k Hl) as (u & Hk & Hu). destruct u; try done.
    + exists k, Test. unfold act. rewrite Hk. simpl. destruct (lock_var s =? 1); by eexists.
    + destruct (decide (Waiting ∈ threads s)) as [[j Hj]%list_elem_of_lookup|Hnone].
      * exists k, (Unlock (Some j)). unfold act, notify_one. rewrite Hk. simpl. rewrite decide_True by done. by eexists.
      * exists k, (Unlock None). unfold act, notify_one. rewrite Hk. simpl. rewrite decide_False by done. by eexists.
  - destruct t; try done.
    1, 3, 5: exists i, Latch; unfold act; rewrite Hi; simpl; rewrite Hl; by eexists.
    1, 3: by pose proof (i_latched s Hinv i _ Hi eq_refl); congruence.
    exists i, Destruct. unfold act. rewrite Hi. by eexists.
Qed.

(** C19: The naive protocol runs one transaction at a time and never falls
    asleep: in every state the threads reach, whatever the interleaving, the
    spurious wake-ups and the thread that each [notify_one] picks, at most one
    thread is running its transaction; and as long as some thread is inside a
    transaction or a call of the lock, some thread can take a step other than
    a new call or a spurious wake-up, so that no wake-up is lost. *)
Theorem naive_lock_exclusive (n : nat) (s : state) : reachable n s →
  (∀ i j, threads s !! i = Some Running → threads s !! j = Some Running → i = j) ∧
  (∀ i t, threads s !! i = Some t → t ≠ Outside → ∃ j a s', a ≠ Construct ∧ a ≠ Spurious ∧ act s j a = Some s').
Proof.
  intros Hinv%reachable_inv. split; [intros i j Hi Hj; by eapply (i_owners s Hinv)|]. intros i t Hi Ht.
  destruct (awake t) eqn:Ha; [by eapply awake_moves|]. assert (t = Waiting) as -> by by destruct t.
  destruct (i_woken s Hinv i Hi) as (j & u & Hj & Hu). by eapply awake_moves.
Qed.

(** Thread 1 waits while thread 0 runs. *)
Definition waiting_run : list (nat * action) := [(0, Construct); (0, Latch); (0, Test); (1, Construct); (1, Latch); (1, Test)]%nat.
Definition do_all (s : state) (l : list (nat * action)) : option state := foldl (λ s x, s ← s; act s x.1 x.2) (Some s) l.
Lemma do_all_reachable n s l s' : reachable n s → do_all s l = Some s' → reachable n s'.
Proof.
  unfold do_all. revert s. induction l as [|[i a] l IH]; intros s Hs; simpl; [by intros [= <-]|]. destruct (act s i a) as [s1|] eqn:E.
  - apply IH. by eapply reach_step.
  - intros H. exfalso. clear -H. induction l; simpl in H; done.
Qed.
Lemma naive_lock_exclusive_witness : ∃ s, reachable 2 s ∧ threads s = [Running; Waiting] ∧
  (∃ j a s', a ≠ Construct ∧ a ≠ Spurious ∧ act s j a = Some s').
Proof.
  assert (∃ s, do_all (initial 2) waiting_run = Some s ∧ threads s = [Running; Waiting]) as (s & E & Ht) by (eexists; split; vm_compute; reflexivity).
  assert (reachable 2 s) as Hr by (eapply do_all_reachable; [constructor|exact E]). exists s. split; [done|]. split; [done|].
  destruct (naive_lock_exclusive 2 s Hr) as [_ H]. apply (H 1%nat Waiting); [by rewrite Ht|done].
Defined.
End NaiveLock.
