(* ===== verification/NaiveInv.v ===== *)
(** * Naive: the write set against the tables

    Every record in memory has one owner: a row, an entry of the write set,
    a history list or a cache.  [committed] is what the tables hold, [view]
    what they will hold after the commit; the operations of a transaction
    keep the invariant and change the view as they mean to. *)
From stdpp Require Import sorting.
From S2P Require Import Prelude BitFields Utils Records Tx Naive.

Section naive_inv.
Import Records Tx Naive.
Context `{HD : Double}.
Implicit Types (s : state) (tb : table) (k : table * Z) (l : loc) (lr : LogRecord).

Inductive place := Row k | Pend k | Cached tb | Hist | PHist.
Definition ptable (p : place) : table :=
  match p with Row k | Pend k => k.1 | Cached tb => tb | Hist | PHist => THistory end.
Implicit Types (p : place) (own : gmap loc place).

(** The record at a place; a row can be copied. *)
Definition holds p r : Prop := table_of r = ptable p ∧ sized r ∧ match p with Row _ => terminated r | _ => True end.

Record heap own s : Prop := {
  h_cache tb l : l ∈ cached s tb ↔ own !! l = Some (Cached tb);
  h_once tb : NoDup (cached s tb);
  h_mem l p : own !! l = Some p → ∃ r, mem s !! l = Some r ∧ holds p r
}.

Record inv own s : Prop := {
  i_heap : heap own s;
  i_rows k l : rows (db s) !! k = Some l ↔ own !! l = Some (Row k);
  i_ws k l : (∃ lr, ws s !! k = Some lr ∧ rec_ptr lr = Some l) ↔ own !! l = Some (Pend k);
  i_hist l : l ∈ history (db s) ↔ own !! l = Some Hist;
  i_whist l : l ∈ ws_history s ↔ own !! l = Some PHist;
  i_whist_once : NoDup (ws_history s);
  i_log k lr : ws s !! k = Some lr → is_Some (rec_ptr lr) ∧ k.1 ≠ THistory ∧
    match lt lr with INSERT => rows (db s) !! k = None | _ => it lr = Some k.2 ∧ is_Some (rows (db s) !! k) end
}.

(** What the tables hold, and what they will hold. *)
Definition committed s k : option record := rows (db s) !! k ≫= λ l, mem s !! l.
Definition pending s lr : option record :=
  match lt lr with DELETE => None | _ => rec_ptr lr ≫= λ l, mem s !! l end.
Definition view s k : option record :=
  match ws s !! k with None => committed s k | Some lr => pending s lr end.
(** Every record to be has its strings. *)
Definition filled s : Prop := ∀ k r, view s k = Some r → terminated r.
(** [l] is the pointer a transaction writes row [k] through. *)
Definition points s l k : Prop := ∃ lr, ws s !! k = Some lr ∧ rec_ptr lr = Some l ∧ lt lr ≠ DELETE.
(** The histories kept and to be. *)
Definition hist s : list (option record) := (λ l, mem s !! l) <$> history (db s).
Definition new_hist s : list (option record) := (λ l, mem s !! l) <$> ws_history s.

Definition good s : Prop := ∃ own, inv own s.

(** A step of a transaction: row [k] will be [o]. *)
Record writes k (o : option record) s s' : Prop := {
  w_good : good s';
  w_view k' : view s' k' = if decide (k' = k) then o else view s k';
  w_db : db s' = db s;
  w_rows k' l : rows (db s) !! k' = Some l → mem s' !! l = mem s !! l;
  w_points l k' : k' ≠ k → points s l k' → points s' l k' ∧ mem s' !! l = mem s !! l;
  w_hist : hist s' = hist s ∧ new_hist s' = new_hist s ∧ ws_history s' = ws_history s
}.

(** *** Memory *)

Definition uncached p : Prop := ∀ tb, p ≠ Cached tb.
Lemma uncached_row k : uncached (Row k). Proof. by intros ?. Qed.
Lemma uncached_pend k : uncached (Pend k). Proof. by intros ?. Qed.
Lemma uncached_hist : uncached Hist. Proof. by intros ?. Qed.
Lemma uncached_phist : uncached PHist. Proof. by intros ?. Qed.
#[local] Hint Resolve uncached_row uncached_pend uncached_hist uncached_phist : core.

(** A step that touches the memory and the caches only. *)
Record frame own own' s s' : Prop := {
  f_own l p : uncached p → own' !! l = Some p ↔ own !! l = Some p;
  f_mem l p : uncached p → own !! l = Some p → mem s' !! l = mem s !! l;
  f_db : db s' = db s;
  f_ws : ws s' = ws s;
  f_hist : ws_history s' = ws_history s
}.

Lemma heap_ws own s w : heap own s → heap own (set_ws s w).
Proof. by intros []. Qed.

Lemma heap_drop own s l p : heap own s → own !! l = Some p → uncached p → heap (delete l own) s.
Proof.
  intros [Hc Ho Hm] Hl Hu. split; [|done|].
  - intros tb l'. rewrite Hc, lookup_delete_Some. split; [|naive_solver]. intros H. split; [|done]. intros <-. rewrite Hl in H. injection H as ->. by eapply Hu.
  - intros l' p' [_ ?]%lookup_delete_Some. by apply Hm.
Qed.

Lemma heap_take own s l p r : heap own s → own !! l = None → uncached p → mem s !! l = Some r → holds p r → heap (<[l := p]> own) s.
Proof.
  intros [Hc Ho Hm] Hl Hu Hr Hp. split; [|done|].
  - intros tb l'. rewrite Hc, lookup_insert_Some. split; [intros H; right; split; [congruence|done]|]. intros [[_ H]|[_ ?]]; [by destruct (Hu tb)|done].
  - intros l' p' [[<- <-]|[_ ?]]%lookup_insert_Some; [by exists r|by apply Hm].
Qed.

Lemma heap_set own s l r p : heap own s → own !! l = Some p → holds p r → heap own (set_mem s (<[l := r]> (mem s))).
Proof.
  intros [Hc Ho Hm] Hl Hp. split; [done|done|]. intros l' p' H. simpl. destruct (decide (l = l')) as [<-|].
  - rewrite lookup_insert_eq. rewrite Hl in H. injection H as <-. by exists r.
  - rewrite lookup_insert_ne by done. by apply Hm.
Qed.

(** A record goes to the cache; the oldest one in the cache may be freed. *)
Lemma deallocate_ok own s tb l r : heap own s → own !! l = None → mem s !! l = Some r → holds (Cached tb) r →
  ∃ own', heap own' (deallocate s tb l) ∧ frame own own' s (deallocate s tb l) ∧
    (∀ x, own !! x = None → x ≠ l → own' !! x = None ∧ mem (deallocate s tb l) !! x = mem s !! x).
Proof.
  intros [Hc Ho Hm] Hl Hr Hp. unfold deallocate.
  assert (NoDup (cached s tb ++ [l])) as Hnd.
  { apply NoDup_app. split; [apply Ho|]. split; [|apply NoDup_singleton]. intros x Hx%Hc ->%list_elem_of_singleton. congruence. }
  assert (∀ tb' x, x ∈ (if decide (tb' = tb) then cached s tb ++ [l] else cached s tb') ↔ <[l := Cached tb]> own !! x = Some (Cached tb')) as Hin.
  { intros tb' x. rewrite lookup_insert_Some. destruct (decide (tb' = tb)) as [->|].
    - rewrite elem_of_app, list_elem_of_singleton, Hc. destruct (decide (l = x)) as [->|]; naive_solver.
    - rewrite Hc. split; [intros H; right; split; [congruence|done]|naive_solver]. }
  assert (∀ x p, <[l := Cached tb]> own !! x = Some p → ∃ r, mem s !! x = Some r ∧ holds p r) as Hm'.
  { intros x p [[<- <-]|[_ ?]]%lookup_insert_Some; [by exists r|by apply Hm]. }
  assert (∀ s' q tb', cached (set_cache s' tb q) tb' = if decide (tb' = tb) then q else cached s' tb') as Hq.
  { intros s' q tb'. unfold cached. simpl. destruct (decide (tb' = tb)) as [->|]; [by rewrite lookup_insert_eq|by rewrite lookup_insert_ne]. }
  destruct (cached s tb ++ [l]) as [|old q] eqn:Hol; [by destruct (cached s tb)|]. destruct (Nat.ltb _ _).
  - simpl. assert (<[l := Cached tb]> own !! old = Some (Cached tb)) as Hold by (apply Hin; rewrite decide_True by done; by left).
    assert (∀ p, uncached p → own !! old ≠ Some p) as Hne.
    { intros p Hu H. apply lookup_insert_Some in Hold as [[-> _]|[_ ?]]; [congruence|]. apply (Hu tb). congruence. }
    apply NoDup_cons in Hnd as [Hnq Hnd]. exists (delete old (<[l := Cached tb]> own)).
    split; [split|split; [split|]]; try done; cycle -1.
    { intros x Hx Hxl. assert (<[l := Cached tb]> own !! x = None) as Hx' by by rewrite lookup_insert_ne.
      simpl. rewrite !lookup_delete_ne by congruence. done. }
    + intros tb' x. rewrite Hq, lookup_delete_Some, <-Hin. destruct (decide (tb' = tb)) as [->|].
      * rewrite elem_of_cons. set_solver.
      * split; [|tauto]. intros H. split; [|done]. intros <-. apply Hc in H. apply lookup_insert_Some in Hold as [[-> _]|[_ ?]]; congruence.
    + intros tb'. rewrite Hq. destruct (decide _); [done|apply Ho].
    + intros x p [? ?]%lookup_delete_Some. simpl. rewrite lookup_delete_ne by done. by apply Hm'.
    + intros x p Hu. rewrite lookup_delete_Some, lookup_insert_Some. split; [intros [_ [[_ <-]|[_ ?]]]; [by destruct (Hu tb)|done]|].
      intros H. split; [|right; split; [congruence|done]]. intros <-. by eapply Hne.
    + intros x p Hu H. simpl. apply lookup_delete_ne. intros <-. by eapply Hne.
  - exists (<[l := Cached tb]> own). split; [split|split; [split|]]; try done; cycle -1.
    { intros x Hx Hxl. by rewrite lookup_insert_ne. }
    + intros tb' x. by rewrite Hq, Hin.
    + intros tb'. rewrite Hq. destruct (decide _); [done|apply Ho].
    + intros x p Hu. rewrite lookup_insert_Some. split; [intros [[_ <-]|[_ ?]]; [by destruct (Hu tb)|done]|]. intros. right. split; [congruence|done].
Qed.

(** *** The frame *)
Lemma inv_frame own own' s s' : inv own s → heap own' s' → frame own own' s s' → inv own' s'.
Proof.
  intros [] Hh [Ho Hm Hd Hw Hq]. split; rewrite ?Hd, ?Hw, ?Hq; try done.
  - intros k l. rewrite Ho by auto. done.
  - intros k l. rewrite Ho by auto. done.
  - intros l. rewrite Ho by auto. done.
  - intros l. rewrite Ho by auto. done.
Qed.

Lemma frame_rows own own' s s' k l : inv own s → frame own own' s s' → rows (db s) !! k = Some l → mem s' !! l = mem s !! l.
Proof. intros Hi Hf Hl. apply (f_mem _ _ _ _ Hf _ (Row k)); [auto|by apply (i_rows _ _ Hi)]. Qed.
Lemma frame_points own own' s s' k lr l : inv own s → frame own own' s s' → ws s !! k = Some lr → rec_ptr lr = Some l → mem s' !! l = mem s !! l.
Proof. intros Hi Hf Hl Hr. apply (f_mem _ _ _ _ Hf _ (Pend k)); [auto|apply (i_ws _ _ Hi); by exists lr]. Qed.
Lemma frame_hist own own' s s' : inv own s → frame own own' s s' → hist s' = hist s ∧ new_hist s' = new_hist s.
Proof.
  intros Hi [? Hm Hd ? Hq]. unfold hist, new_hist. rewrite Hd, Hq.
  split; apply list_fmap_ext; intros i l Hl%list_elem_of_lookup_2; [apply (Hm _ Hist)|apply (Hm _ PHist)]; [auto|by apply Hi|auto|by apply Hi].
Qed.
Lemma frame_committed own own' s s' k : inv own s → frame own own' s s' → committed s' k = committed s k.
Proof.
  intros Hi Hf. unfold committed. rewrite (f_db _ _ _ _ Hf). destruct (rows _ !! k) as [l|] eqn:Hl; [|done]. simpl. by eapply frame_rows.
Qed.
Lemma frame_pending own own' s s' k lr : inv own s → frame own own' s s' → ws s !! k = Some lr → pending s' lr = pending s lr.
Proof.
  intros Hi Hf Hl. unfold pending. destruct (lt lr); try done; (destruct (rec_ptr lr) as [l|] eqn:Hr; [|done]); simpl; by eapply frame_points.
Qed.
Lemma frame_view own own' s s' k : inv own s → frame own own' s s' → view s' k = view s k.
Proof.
  intros Hi Hf. unfold view. rewrite (f_ws _ _ _ _ Hf). destruct (ws s !! k) eqn:Hl; [by eapply frame_pending|by eapply frame_committed].
Qed.

(** *** Entries of the write set *)
Lemma ws_put own s k l r t i : inv own s → own !! l = None → mem s !! l = Some r → table_of r = k.1 → sized r → k.1 ≠ THistory → ws s !! k = None →
  match t with INSERT => rows (db s) !! k = None | _ => i = Some k.2 ∧ is_Some (rows (db s) !! k) end →
  inv (<[l := Pend k]> own) (set_ws s (<[k := mkLog t (Some l) i]> (ws s))).
Proof.
  intros [] Hl Hr Ht Hs Hk Hw Hlog.
  assert (∀ l' p', own !! l' = Some p' → <[l := Pend k]> own !! l' = Some p') as Hk1 by (intros l' p' H; rewrite lookup_insert_ne by congruence; done).
  assert (∀ l' p', (∀ k', p' ≠ Pend k') → <[l := Pend k]> own !! l' = Some p' → own !! l' = Some p') as Hk2.
  { intros l' p' Hn [[_ ?]|[_ ?]]%lookup_insert_Some; [|done]. by destruct (Hn k). }
  split; simpl; try done.
  - apply heap_ws. by eapply heap_take.
  - intros k' l'. rewrite i_rows0. split; [apply Hk1|by apply Hk2].
  - intros k' l'. rewrite lookup_insert_Some. destruct (decide (k' = k)) as [->|Hne].
    + rewrite lookup_insert_eq. split.
      * intros (? & [= <-] & [= ->]). by left.
      * intros [[-> _]|[_ H]]; [by eexists|]. apply i_ws0 in H as (? & ? & _). congruence.
    + rewrite lookup_insert_ne by done. rewrite i_ws0. split; [intros H; right; split; [congruence|done]|]. intros [[_ [= ->]]|[_ ?]]; done.
  - intros l'. rewrite i_hist0. split; [apply Hk1|by apply Hk2].
  - intros l'. rewrite i_whist0. split; [apply Hk1|by apply Hk2].
  - intros k' lr [[<- <-]|[_ ?]]%lookup_insert_Some; [simpl; by eauto|by eapply i_log0].
Qed.

Lemma ws_change own s k lr t i : inv own s → ws s !! k = Some lr → 
  match t with INSERT => rows (db s) !! k = None | _ => i = Some k.2 ∧ is_Some (rows (db s) !! k) end →
  inv own (set_ws s (<[k := mkLog t (rec_ptr lr) i]> (ws s))).
Proof.
  intros [] Hl Hlog. split; simpl; try done.
  - by apply heap_ws.
  - intros k' l'. rewrite <-i_ws0. destruct (decide (k' = k)) as [->|Hne].
    + rewrite lookup_insert_eq, Hl. split; intros (? & [= <-] & ?); by eexists.
    + by rewrite lookup_insert_ne by done.
  - intros k' lr' [[<- <-]|[_ ?]]%lookup_insert_Some; [|by eapply i_log0]. destruct (i_log0 _ _ Hl) as (? & ? & _). done.
Qed.

Lemma ws_remove own s k lr l : inv own s → ws s !! k = Some lr → rec_ptr lr = Some l → inv (delete l own) (set_ws s (delete k (ws s))).
Proof.
  intros [] Hl Hr. assert (own !! l = Some (Pend k)) as Hp by (apply i_ws0; by exists lr).
  assert (∀ l' p', p' ≠ Pend k → delete l own !! l' = Some p' ↔ own !! l' = Some p') as Hk.
  { intros l' p' Hn. rewrite lookup_delete_Some. split; [tauto|]. intros H. split; [congruence|done]. }
  split; simpl; try done.
  - apply heap_ws. by eapply heap_drop.
  - intros k' l'. by rewrite Hk.
  - intros k' l'. destruct (decide (k' = k)) as [->|Hne].
    + rewrite lookup_delete_eq. split; [naive_solver|]. intros [Hne H]%lookup_delete_Some. apply i_ws0 in H as (? & ? & ?). congruence.
    + rewrite lookup_delete_ne, Hk by congruence. apply i_ws0.
  - intros l'. by rewrite Hk.
  - intros l'. by rewrite Hk.
  - intros k' lr' [_ ?]%lookup_delete_Some. by apply i_log0.
Qed.

(** What is pending is a record of its table. *)
Lemma inv_pending own s k lr l : inv own s → ws s !! k = Some lr → rec_ptr lr = Some l → ∃ r, mem s !! l = Some r ∧ table_of r = k.1 ∧ sized r.
Proof. intros Hi Hl Hr. destruct (h_mem _ _ (i_heap _ _ Hi) l (Pend k)) as (r & ? & ? & ? & _); [apply Hi; by exists lr|by exists r]. Qed.
Lemma inv_row own s k l : inv own s → rows (db s) !! k = Some l → ∃ r, mem s !! l = Some r ∧ table_of r = k.1 ∧ well_formed r.
Proof. intros Hi Hl. destruct (h_mem _ _ (i_heap _ _ Hi) l (Row k)) as (r & ? & ? & ? & ?); [by apply Hi|by exists r]. Qed.

(** *** Steps *)
Lemma frame_ws own own' s s' w : frame own own' s s' → frame own own' (set_ws s w) (set_ws s' w).
Proof. by intros []. Qed.

Lemma frame_good own own' s s' : inv own s → heap own' s' → frame own own' s s' → good s'.
Proof. intros. eexists. by eapply inv_frame. Qed.

Lemma writes_trans k o o' s s' s'' : writes k o s s' → writes k o' s' s'' → writes k o' s s''.
Proof.
  intros [? V D R P (H1 & H2 & H3)] [? V' D' R' P' (H1' & H2' & H3')]. split; [done| | | | |].
  - intros k'. rewrite V', V. by destruct (decide _).
  - congruence.
  - intros k' l H. rewrite (R' k' l) by (by rewrite D). by eapply R.
  - intros l k' Hne H. destruct (P l k' Hne H) as [Hp E]. destruct (P' l k' Hne Hp) as [? ->]. by split.
  - split_and!; congruence.
Qed.

(** A write through the pointer. *)
Lemma store_ok s l k r : good s → points s l k → table_of r = k.1 → sized r →
  ∃ s', store s l r = Ok s' ∧ writes k (Some r) s s' ∧ points s' l k ∧ mem s' !! l = Some r.
Proof.
  intros [own Hi] (lr & Hlr & Hp & Hd) Ht Hs. destruct (inv_pending _ _ _ _ _ Hi Hlr Hp) as (r0 & Hr0 & _).
  assert (own !! l = Some (Pend k)) as Hl by (apply (i_ws _ _ Hi); by exists lr).
  assert (∀ x p, own !! x = Some p → p ≠ Pend k → <[l:=r]> (mem s) !! x = mem s !! x) as Hm by (intros x p H Hne; apply lookup_insert_ne; congruence).
  unfold store. rewrite Hr0. simpl. eexists. split; [done|]. split_and!; [|by exists lr|simpl; apply lookup_insert_eq].
  split; simpl; try done.
  - exists own. destruct Hi. split; try done. by eapply heap_set.
  - intros k'. unfold view, pending, committed. simpl. destruct (decide (k' = k)) as [->|Hne].
    + rewrite Hlr, Hp. simpl. rewrite lookup_insert_eq. by destruct (lt lr).
    + destruct (ws s !! k') as [lr'|] eqn:E.
      * destruct (rec_ptr lr') as [l'|] eqn:E'; [|done]. simpl. rewrite (Hm l' (Pend k')); [done|apply (i_ws _ _ Hi); by exists lr'|congruence].
      * destruct (rows (db s) !! k') as [l'|] eqn:E'; [|done]. simpl. apply (Hm l' (Row k')); [by apply (i_rows _ _ Hi)|done].
  - intros k' l' H%(i_rows _ _ Hi). by eapply Hm.
  - intros l' k' Hne H. split; [done|]. destruct H as (lr' & ? & ? & _). apply (Hm l' (Pend k')); [apply (i_ws _ _ Hi); by exists lr'|congruence].
  - split_and!; [..|done]; unfold hist, new_hist; apply list_fmap_ext; intros i l' Hl'%list_elem_of_lookup_2;
      [apply (Hm _ Hist)|apply (Hm _ PHist)]; [by apply (i_hist _ _ Hi)|done|by apply (i_whist _ _ Hi)|done].
Qed.

(** A change of an entry's type. *)
Lemma retype_ok own s k lr l t : inv own s → ws s !! k = Some lr → rec_ptr lr = Some l → t ≠ INSERT → lt lr ≠ INSERT →
  ∃ r, mem s !! l = Some r ∧ table_of r = k.1 ∧ sized r ∧
  writes k (match t with DELETE => None | _ => Some r end) s (create_logrecord s k.1 k.2 (mkLog t (rec_ptr lr) (it lr))).
Proof.
  intros Hi Hl Hp Ht Hlt. destruct (inv_pending _ _ _ _ _ Hi Hl Hp) as (r & Hr & ? & ?). exists r. split_and!; [done..|].
  unfold create_logrecord. replace (k.1, k.2) with k by (by destruct k). destruct (i_log _ _ Hi _ _ Hl) as (_ & _ & Hlog).
  split; simpl; try done.
  - exists own. eapply ws_change; [done..|]. destruct t, (lt lr); done.
  - intros k'. unfold view, pending, committed; simpl. destruct (decide (k' = k)) as [->|].
    + rewrite lookup_insert_eq. simpl. rewrite Hp. simpl. by destruct t.
    + by rewrite lookup_insert_ne by done.
  - intros l' k' Hne (lr' & ? & ?). split; [|done]. exists lr'. simpl. by rewrite lookup_insert_ne by done.
Qed.

(** *** The operations *)
Lemma view_some_cases own s k r : inv own s → view s k = Some r →
  (ws s !! k = None ∧ ∃ l, rows (db s) !! k = Some l ∧ mem s !! l = Some r ∧ table_of r = k.1 ∧ well_formed r) ∨
  (∃ lr l, ws s !! k = Some lr ∧ lt lr ≠ DELETE ∧ rec_ptr lr = Some l ∧ mem s !! l = Some r).
Proof.
  intros Hi. unfold view, committed, pending. destruct (ws s !! k) as [lr|] eqn:Hl.
  - intros Hv. right. destruct (rec_ptr lr) as [l|] eqn:Hp; [|by destruct (lt lr)]. exists lr, l. by destruct (lt lr).
  - intros (l & Hr & Hm)%bind_Some. left. split; [done|]. exists l. destruct (inv_row _ _ _ _ Hi Hr) as (r' & ? & ? & ?). naive_solver.
Qed.
Lemma view_none_cases own s k : inv own s → view s k = None →
  (ws s !! k = None ∧ rows (db s) !! k = None) ∨ (∃ lr l, ws s !! k = Some lr ∧ lt lr = DELETE ∧ rec_ptr lr = Some l).
Proof.
  intros Hi. unfold view, committed, pending. destruct (ws s !! k) as [lr|] eqn:Hl.
  - intros Hv. right. destruct (i_log _ _ Hi _ _ Hl) as ([l Hp] & _). destruct (inv_pending _ _ _ _ _ Hi Hl Hp) as (r & Hr & _).
    exists lr, l. rewrite Hp in Hv. simpl in Hv. destruct (lt lr); naive_solver.
  - intros Hv. left. split; [done|]. destruct (rows _ !! k) as [l|] eqn:Hr; [|done]. simpl in Hv.
    destruct (inv_row _ _ _ _ Hi Hr) as (r' & ? & _). congruence.
Qed.

(** What new memory holds is not known. *)
Context (junk : table → loc → record) (Hjunk : ∀ tb l, table_of (junk tb l) = tb ∧ sized (junk tb l)).

(** A record for table [tb], from the cache or new. *)
Lemma allocate_ok own s tb : heap own s →
  ∃ l r s' own', allocate junk s tb = (l, s') ∧ heap own' s' ∧ frame own own' s s' ∧ own' !! l = None ∧
    mem s' !! l = Some r ∧ table_of r = tb ∧ sized r.
Proof.
  intros [Hc Ho Hm]. unfold allocate. destruct (last (cached s tb)) as [l|] eqn:Hlast.
  - apply last_Some in Hlast as [q Hq]. rewrite Hq, removelast_last.
    pose proof (Ho tb) as Hnd. rewrite Hq in Hnd. apply NoDup_app in Hnd as (Hnd & Hdis & _).
    assert (own !! l = Some (Cached tb)) as Hl by (apply Hc; rewrite Hq; set_solver).
    destruct (Hm _ _ Hl) as (r & Hr & Ht & Hs & _). exists l, r, (set_cache s tb q), (delete l own).
    split_and!; try done; [| |apply lookup_delete_eq].
    + split.
      * intros tb' x. unfold cached at 1. simpl. rewrite lookup_delete_Some, <-Hc. destruct (decide (tb' = tb)) as [->|Hn].
        -- rewrite lookup_insert_eq, Hq. simpl. set_solver.
        -- rewrite lookup_insert_ne by done. fold (cached s tb'). split; [|tauto]. intros H. split; [|done]. intros <-. apply Hc in H. congruence.
      * intros tb'. unfold cached. simpl. destruct (decide (tb' = tb)) as [->|]; [by rewrite lookup_insert_eq|rewrite lookup_insert_ne by done; apply Ho].
      * intros x p [_ ?]%lookup_delete_Some. by apply Hm.
    + split; try done. intros x p Hu. rewrite lookup_delete_Some. split; [tauto|]. intros H. split; [|done]. intros <-. rewrite Hl in H. injection H as <-. by destruct (Hu tb).
  - assert (mem s !! fresh (dom (mem s)) = None) as Hf by apply not_elem_of_dom, is_fresh. set (l := fresh (dom (mem s))) in *.
    assert (own !! l = None) as Hn by (destruct (own !! l) eqn:E; [destruct (Hm _ _ E) as (? & ? & _); congruence|done]).
    assert (∀ x p, own !! x = Some p → <[l := junk tb l]> (mem s) !! x = mem s !! x) as Hk by (intros x p H; apply lookup_insert_ne; congruence).
    exists l, (junk tb l), (set_mem s (<[l := junk tb l]> (mem s))), own. destruct (Hjunk tb l) as [Ht Hs]. split_and!; try done.
    + split; [done|done|]. intros x p H. simpl. rewrite (Hk _ _ H). by apply Hm.
    + split; try done. intros x p _ H. simpl. by eapply Hk.
    + simpl. apply lookup_insert_eq.
Qed.

(** A new entry. *)
Lemma entry_ok own s k t i : inv own s → k.1 ≠ THistory → ws s !! k = None →
  match t with INSERT => rows (db s) !! k = None | _ => i = Some k.2 ∧ is_Some (rows (db s) !! k) end →
  ∃ l s1 r, allocate junk s k.1 = (l, s1) ∧ mem s1 !! l = Some r ∧ table_of r = k.1 ∧ sized r ∧ db s1 = db s ∧
    (∀ k' l', rows (db s) !! k' = Some l' → mem s1 !! l' = mem s !! l') ∧
    writes k (match t with DELETE => None | _ => Some r end) s (create_logrecord s1 k.1 k.2 (mkLog t (Some l) i)).
Proof.
  intros Hi Hk Hw Hlog. destruct (allocate_ok own s k.1 (i_heap _ _ Hi)) as (l & r & s1 & own1 & E & Hh & Hf & Hl & Hr & Ht & Hs).
  pose proof (inv_frame _ _ _ _ Hi Hh Hf) as Hi1. exists l, s1, r. split; [done|]. split_and!; [done|done|done|by apply Hf|intros ? ? ?; by eapply frame_rows|].
  unfold create_logrecord. replace (k.1, k.2) with k by (by destruct k).
  assert (ws s1 !! k = None) as Hw1 by (by rewrite (f_ws _ _ _ _ Hf)).
  split; simpl.
  - eexists. eapply ws_put; [done..|]. by rewrite (f_db _ _ _ _ Hf).
  - intros k'. rewrite <-(frame_view _ _ _ _ k' Hi Hf). unfold view, pending, committed; simpl. destruct (decide (k' = k)) as [->|].
    + rewrite lookup_insert_eq. simpl. by destruct t.
    + by rewrite lookup_insert_ne by done.
  - apply Hf.
  - intros k' l'. by eapply frame_rows.
  - intros l' k' Hne (lr & Hlr & Hp & Hd). split.
    + exists lr. simpl. rewrite lookup_insert_ne by done. by rewrite (f_ws _ _ _ _ Hf).
    + by eapply frame_points.
  - destruct (frame_hist _ _ _ _ Hi Hf) as [? ?]. split_and!; [done..|by apply Hf].
Qed.

Lemma writeset_update_ok s tb key r : good s → tb ≠ THistory → view s (tb, key) = Some r →
  ∃ l s' r', apply_update_to_writeset junk s tb key = Ok (Some l, s') ∧ writes (tb, key) (Some r') s s' ∧ points s' l (tb, key) ∧
    mem s' !! l = Some r' ∧ same r' r ∧ table_of r' = tb ∧ sized r' ∧ (terminated r → terminated r').
Proof.
  intros [own Hi] Hk Hv. unfold apply_update_to_writeset, db_get_record.
  destruct (view_some_cases _ _ _ _ Hi Hv) as [(Hw & l0 & Hr & Hm & Ht & Hwf)|(lr & l & Hl & Hd & Hp & Hm)].
  - rewrite Hw, Hr. destruct (entry_ok own s (tb, key) UPDATE (Some key) Hi Hk Hw) as (l & s1 & r1 & E & Hr1 & Ht1 & Hs1 & Hdb & Hrows & W); [by rewrite Hr|].
    simpl in *. rewrite E. unfold create_logrecord in *. cbn [mem set_ws]. rewrite Hr1. rewrite (Hrows _ _ Hr), Hm. simpl.
    destruct (deep_copy_from_ok r1 r) as (r2 & -> & Hsame & [Hs2 Ht2] & Htb); [by rewrite Ht1|done|done|]. simpl.
    set (s2 := set_ws s1 _) in *.
    assert (points s2 l (tb, key)) as P by (exists (mkLog UPDATE (Some l) (Some key)); simpl; by rewrite lookup_insert_eq).
    destruct (store_ok s2 l (tb, key) r2 (w_good _ _ _ _ W) P) as (s3 & E3 & W3 & P3 & M3); [by rewrite Htb|done|].
    unfold store in E3. replace (mem s2 !! l) with (Some r1) in E3. simpl in E3. injection E3 as <-.
    eexists l, _, r2. split; [reflexivity|]. split; [by eapply writes_trans|]. split_and!; try done. by rewrite Htb.
  - rewrite Hl. destruct (inv_pending _ _ _ _ _ Hi Hl Hp) as (r' & Hr' & ? & ?). assert (r' = r) as -> by congruence.
    exists l, s, r. split; [rewrite Hp; by destruct (lt lr)|]. split_and!; try done; [|by exists lr].
    split; try done; [by exists own|]. intros k'. by destruct (decide (k' = _)) as [->|].
Qed.

Lemma writeset_insert_ok s tb key : good s → tb ≠ THistory → view s (tb, key) = None →
  ∃ l s' r', apply_insert_to_writeset junk s tb key = Ok (Some l, s') ∧ writes (tb, key) (Some r') s s' ∧ points s' l (tb, key) ∧
    mem s' !! l = Some r' ∧ table_of r' = tb ∧ sized r'.
Proof.
  intros [own Hi] Hk Hv. unfold apply_insert_to_writeset. destruct (view_none_cases _ _ _ Hi Hv) as [[Hw Hr]|(lr & l & Hl & Hd & Hp)].
  - rewrite Hw. destruct (entry_ok own s (tb, key) INSERT None Hi Hk Hw Hr) as (l & s1 & r1 & E & Hr1 & Ht1 & Hs1 & _ & _ & W).
    simpl in *. rewrite E. eexists l, _, r1. split; [reflexivity|]. split_and!; try done. eexists. simpl. by rewrite lookup_insert_eq.
  - rewrite Hl, Hd. destruct (retype_ok own s (tb, key) lr l UPDATE) as (r & ? & ? & ? & W); [done..|by rewrite Hd|].
    rewrite Hp in *. simpl in *. eexists l, _, r. split; [reflexivity|]. split_and!; try done. eexists. simpl. by rewrite lookup_insert_eq.
Qed.

Lemma writeset_delete_ok s tb key r : good s → tb ≠ THistory → view s (tb, key) = Some r →
  ∃ s', apply_delete_to_writeset junk s tb key = Ok (true, s') ∧ writes (tb, key) None s s'.
Proof.
  intros [own Hi] Hk Hv. unfold apply_delete_to_writeset, db_get_record.
  destruct (view_some_cases _ _ _ _ Hi Hv) as [(Hw & l0 & Hr & Hm & Ht & Hwf)|(lr & l & Hl & Hd & Hp & Hm)].
  - rewrite Hw, Hr. destruct (entry_ok own s (tb, key) DELETE (Some key) Hi Hk Hw) as (l & s1 & r1 & E & _ & _ & _ & _ & _ & W); [by rewrite Hr|].
    simpl in *. rewrite E. by eexists.
  - rewrite Hl. destruct (lt lr) eqn:Hlt; [|eexists; split; [done|]|done].
    + unfold remove_logrecord_with_logtype. rewrite Hl. simpl. rewrite Hlt, Hp. simpl. eexists. split; [done|].
      pose proof (ws_remove _ _ _ _ _ Hi Hl Hp) as Hi1. assert (own !! l = Some (Pend (tb, key))) as Hown by (apply (i_ws _ _ Hi); by exists lr).
      destruct (inv_pending _ _ _ _ _ Hi Hl Hp) as (r' & Hr' & ? & ?).
      destruct (deallocate_ok (delete l own) s tb l r') as (own' & Hh & Hf & _); [eapply heap_drop; [apply Hi|done|auto]|apply lookup_delete_eq|done|done|].
      set (s1 := deallocate s tb l) in *. rewrite (f_ws _ _ _ _ Hf). set (w := delete (tb, key) (ws s)) in *.
      pose proof (frame_ws _ _ _ _ w Hf) as Hf'.
      split.
      * eapply frame_good; [exact Hi1|by apply heap_ws|done].
      * intros k'. rewrite (frame_view _ _ _ _ k' Hi1 Hf'). unfold view. cbn [ws set_ws]. unfold w. destruct (decide (k' = (tb, key))) as [->|].
        -- rewrite lookup_delete_eq. destruct (i_log _ _ Hi _ _ Hl) as (_ & _ & Hlog). rewrite Hlt in Hlog. unfold committed. simpl. by rewrite Hlog.
        -- by rewrite lookup_delete_ne by done.
      * apply Hf.
      * intros k' l' Hkl. apply (frame_rows _ _ _ _ k' l' Hi1 Hf'). done.
      * intros l' k' Hne (lr' & Hlr' & Hp' & Hd'). assert (w !! k' = Some lr') as Hw by (unfold w; by rewrite lookup_delete_ne).
        split; [by exists lr'|]. apply (frame_points _ _ _ _ k' lr' l' Hi1 Hf'); done.
      * destruct (frame_hist _ _ _ _ Hi1 Hf') as [? ?]. split_and!; [done..|by apply Hf'].
    + destruct (retype_ok own s (tb, key) lr l DELETE) as (r' & ? & ? & ? & W); [done..|by rewrite Hlt|]. done.
Qed.
End naive_inv.
