(* ===== verification/NaiveCommit.v ===== *)
(** * Naive: commit and abort

    [commit] moves the write set into the tables and [abort] gives its
    records back; both empty it.  The loops go over the entries of one table,
    and the entries of a table are dropped when its loop is over: [apply_entry]
    does not read the write set, so the invariant is kept for the set without
    the entries that are done. *)
From S2P Require Import Prelude BitFields Utils Records Tx Naive NaiveInv.

Section naive_commit.
Import Records Tx Naive NaiveInv.
Context `{HD : Double}.
Implicit Types (s : state) (tb : table) (k : table * Z) (l : loc) (lr : LogRecord) (own : gmap loc place) (w : gmap (table * Z) LogRecord).

(** *** The tables *)

(** A row leaves its table. *)
Lemma row_remove own s k l : inv own s → ws s !! k = None → rows (db s) !! k = Some l →
  inv (delete l own) (set_db s (set_rows (db s) (delete k (rows (db s))))).
Proof.
  intros [Hheap Hrow Hws Hhi Hwh Hwo Hlog] Hw Hr. assert (own !! l = Some (Row k)) as Hp by by apply Hrow.
  assert (∀ l' p', p' ≠ Row k → delete l own !! l' = Some p' ↔ own !! l' = Some p') as Hk.
  { intros l' p' Hn. rewrite lookup_delete_Some. split; [tauto|]. intros H. split; [congruence|done]. }
  split; simpl; try done.
  - assert (heap (delete l own) s) as [] by exact (heap_drop _ _ _ _ Hheap Hp (uncached_row k)). by split.
  - intros k' l'. destruct (decide (k' = k)) as [->|Hne].
    + rewrite lookup_delete_eq. split; [done|]. intros [Hne H]%lookup_delete_Some. apply Hrow in H. congruence.
    + rewrite lookup_delete_ne, Hk by congruence. apply Hrow.
  - intros k' l'. by rewrite Hk.
  - intros l'. by rewrite Hk.
  - intros l'. by rewrite Hk.
  - intros k' lr' H. assert (k' ≠ k) by (intros ->; congruence). rewrite lookup_delete_ne by done. by apply Hlog.
Qed.

(** A row enters its table, and the secondary indexes may change. *)
Lemma row_put own s d k l r : inv own s → own !! l = None → ws s !! k = None → rows (db s) !! k = None →
  mem s !! l = Some r → table_of r = k.1 → well_formed r → rows d = <[k := l]> (rows (db s)) → history d = history (db s) →
  inv (<[l := Row k]> own) (set_db s d).
Proof.
  intros [Hheap Hrow Hws Hhi Hwh Hwo Hlog] Hl Hw Hn Hr Ht [Hs Hwf] Hd Hh.
  assert (∀ l' p', own !! l' = Some p' → <[l := Row k]> own !! l' = Some p') as Hk1 by (intros l' p' H; rewrite lookup_insert_ne by congruence; done).
  assert (∀ l' p', (∀ k', p' ≠ Row k') → <[l := Row k]> own !! l' = Some p' → own !! l' = Some p') as Hk2.
  { intros l' p' Hn' [[_ ?]|[_ ?]]%lookup_insert_Some; [|done]. by destruct (Hn' k). }
  split; simpl; rewrite ?Hd, ?Hh; try done.
  - assert (heap (<[l := Row k]> own) s) as [] by (eapply heap_take; [exact Hheap|exact Hl|exact (uncached_row k)|exact Hr|by split]). by split.
  - intros k' l'. destruct (decide (k' = k)) as [->|Hne].
    + rewrite lookup_insert_eq, lookup_insert_Some. split; [intros [= ->]; by left|]. intros [[-> _]|[_ H]]; [done|]. apply Hrow in H. congruence.
    + rewrite lookup_insert_ne by done. rewrite Hrow, lookup_insert_Some. split; [intros H; right; split; [congruence|done]|]. intros [[_ [= ->]]|[_ ?]]; done.
  - intros k' l'. rewrite Hws. split; [apply Hk1|by apply Hk2].
  - intros l'. rewrite Hhi. split; [apply Hk1|by apply Hk2].
  - intros l'. rewrite Hwh. split; [apply Hk1|by apply Hk2].
  - intros k' lr' H. assert (k' ≠ k) by (intros ->; congruence). rewrite lookup_insert_ne by done. by apply Hlog.
Qed.

Lemma insert_secondary_rows d r l : rows (insert_secondary d r l) = rows d ∧ history (insert_secondary d r l) = history d.
Proof. destruct r; simpl; try done; unfold insert_customer_secondary, insert_order_secondary; by case_bool_decide. Qed.

(** [s'] differs from [s] in row [k] only, which is [o]. *)
Record settles k (o : option record) own own' s s' : Prop := {
  t_inv : inv own' s';
  t_view k' : view s' k' = if decide (k' = k) then o else view s k';
  t_pend k' lr l : ws s !! k' = Some lr → rec_ptr lr = Some l → mem s' !! l = mem s !! l;
  t_ws : ws s' = ws s;
  t_hist : hist s' = hist s ∧ new_hist s' = new_hist s ∧ ws_history s' = ws_history s
}.

Lemma settles_frame k o own own1 own2 s s1 s2 : settles k o own own1 s s1 → heap own2 s2 → frame own1 own2 s1 s2 → settles k o own own2 s s2.
Proof.
  intros [Hi V P W (H1 & H2 & H3)] Hh Hf. split.
  - by eapply inv_frame.
  - intros k'. by rewrite (frame_view _ _ _ _ k' Hi Hf).
  - intros k' lr l Hl Hp. rewrite <-(P _ _ _ Hl Hp). eapply frame_points; [done..| |done]. by rewrite W.
  - by rewrite (f_ws _ _ _ _ Hf).
  - destruct (frame_hist _ _ _ _ Hi Hf) as [-> ->]. by rewrite (f_hist _ _ _ _ Hf).
Qed.

Lemma settles_refl k own s : inv own s → ws s !! k = None → rows (db s) !! k = None → settles k None own own s s.
Proof. intros Hi Hw Hr. split; try done. intros k'. destruct (decide _) as [->|]; [|done]. unfold view, committed. by rewrite Hw, Hr. Qed.

Lemma settles_remove own s k l : inv own s → ws s !! k = None → rows (db s) !! k = Some l →
  settles k None own (delete l own) s (set_db s (set_rows (db s) (delete k (rows (db s))))).
Proof.
  intros Hi Hw Hr. split; try done; [by apply row_remove|]. intros k'. unfold view, committed, pending; simpl. destruct (decide _) as [->|].
  - by rewrite Hw, lookup_delete_eq.
  - by rewrite lookup_delete_ne by done.
Qed.

Lemma settles_put k own own1 s s1 d l r : settles k None own own1 s s1 → own1 !! l = None → ws s !! k = None → rows (db s1) !! k = None →
  mem s1 !! l = Some r → table_of r = k.1 → well_formed r → rows d = <[k := l]> (rows (db s1)) → history d = history (db s1) →
  settles k (Some r) own (<[l := Row k]> own1) s (set_db s1 d).
Proof.
  intros [Hi V P W (H1 & H2 & H3)] Hl Hw Hn Hr Ht Hwf Hd Hh. split; [eapply row_put; try done; by rewrite W| |done|done|].
  - intros k'. specialize (V k'). revert V. unfold view, committed, pending; simpl. rewrite W, Hd. destruct (decide _) as [->|].
    + by rewrite Hw, lookup_insert_eq.
    + by rewrite lookup_insert_ne by done.
  - unfold hist, new_hist in *; simpl in *. by rewrite Hh.
Qed.

(** A record that left its place goes to the cache. *)
Lemma settles_deallocate k own own1 s s1 tb l r : settles k None own own1 s s1 → own1 !! l = None → mem s1 !! l = Some r → table_of r = tb → sized r →
  ∃ own2, settles k None own own2 s (deallocate s1 tb l) ∧
    ∀ x, own1 !! x = None → x ≠ l → own2 !! x = None ∧ mem (deallocate s1 tb l) !! x = mem s1 !! x.
Proof.
  intros Hs Hl Hr Ht Hz. destruct (deallocate_ok own1 s1 tb l r (i_heap _ _ (t_inv _ _ _ _ _ _ Hs)) Hl Hr) as (own2 & Hh & Hf & Hx); [done|].
  exists own2. split; [by eapply settles_frame|done].
Qed.

Lemma deallocate_set_db s d tb l : deallocate (set_db s d) tb l = set_db (deallocate s tb l) d.
Proof. unfold deallocate. change (cached (set_db s d) tb) with (cached s tb). by destruct (Nat.ltb _ _). Qed.
Lemma deallocate_set_ws s w tb l : deallocate (set_ws s w) tb l = set_ws (deallocate s tb l) w.
Proof. unfold deallocate. change (cached (set_ws s w) tb) with (cached s tb). by destruct (Nat.ltb _ _). Qed.
Lemma deallocate_db s tb l : db (deallocate s tb l) = db s.
Proof. unfold deallocate. by destruct (Nat.ltb _ _). Qed.

(** A row leaves its table and its record goes to the cache. *)
Lemma settles_free own s k dst : inv own s → ws s !! k = None → rows (db s) !! k = Some dst →
  ∃ own2, settles k None own own2 s (set_db (deallocate s k.1 dst) (set_rows (db s) (delete k (rows (db s))))) ∧
    ∀ x, own !! x = None → own2 !! x = None ∧ mem (deallocate s k.1 dst) !! x = mem s !! x.
Proof.
  intros Hi Hw Hdst. destruct (inv_row _ _ _ _ Hi Hdst) as (r0 & Hr0 & Ht0 & Hz0 & _).
  assert (own !! dst = Some (Row k)) as Hod by by apply (i_rows _ _ Hi).
  destruct (settles_deallocate _ _ _ _ _ k.1 dst r0 (settles_remove _ _ _ _ Hi Hw Hdst) (lookup_delete_eq _ _) Hr0 Ht0 Hz0) as (own2 & H2 & Hx).
  rewrite deallocate_set_db in H2, Hx. exists own2. split; [done|]. intros x Hn.
  apply Hx; [by rewrite lookup_delete_ne by congruence|congruence].
Qed.

(** One entry of the write set, taken out of it. *)
Lemma apply_log_ok own s k lr l r : inv own s → ws s !! k = None → rec_ptr lr = Some l → own !! l = None →
  mem s !! l = Some r → table_of r = k.1 → sized r → (lt lr ≠ DELETE → terminated r) →
  match lt lr with INSERT => rows (db s) !! k = None | _ => it lr = Some k.2 ∧ is_Some (rows (db s) !! k) end →
  ∃ s' own', apply_entry k.1 s (k.2, lr) = Ok s' ∧ settles k (match lt lr with DELETE => None | _ => Some r end) own own' s s'.
Proof.
  intros Hi Hw Hp Hl Hr Ht Hz Hwf Hlog. assert ((k.1, k.2) = k) as Hk by by destruct k.
  unfold apply_entry, insert_record, update_record, delete_record. rewrite Hp. simpl. rewrite Hk. destruct (lt lr).
  - rewrite Hlog, Hr. simpl. destruct (insert_secondary_rows (set_rows (db s) (<[k:=l]> (rows (db s)))) r l) as [Hd Hh].
    eexists _, _. split; [done|]. eapply settles_put; try done; [by apply settles_refl|by split; auto].
  - destruct Hlog as [-> [dst Hdst]]. simpl. rewrite Hk, Hdst. simpl. destruct (settles_free _ _ _ _ Hi Hw Hdst) as (own2 & H2 & Hx).
    destruct (Hx l Hl) as [Hl2 Hm2]. rewrite deallocate_db. eexists _, _. split; [reflexivity|].
    eapply (settles_put _ _ _ _ _ (set_rows (db s) (<[k:=l]> (rows (db s))))) in H2; [exact H2|done|done|..].
    + simpl. apply lookup_delete_eq.
    + simpl. by rewrite Hm2.
    + done.
    + by split; auto.
    + simpl. by rewrite insert_delete_eq.
    + done.
  - destruct Hlog as [-> [dst Hdst]]. simpl. rewrite Hk, Hdst. simpl. destruct (settles_free _ _ _ _ Hi Hw Hdst) as (own2 & H2 & Hx).
    destruct (Hx l Hl) as [Hl2 Hm2]. rewrite deallocate_db.
    destruct (settles_deallocate _ _ _ _ _ k.1 l r H2 Hl2) as (own3 & H3 & _); [simpl; by rewrite Hm2|done|done|].
    by eexists _, own3.
Qed.

(** *** The entries of a table *)
Lemma apply_entry_ws tb s w x s' : apply_entry tb s x = Ok s' → apply_entry tb (set_ws s w) x = Ok (set_ws s' w).
Proof.
  destruct x as [key lr]. unfold apply_entry, insert_record, update_record, delete_record.
  destruct (rec_ptr lr) as [l|]; simpl; [|done]. destruct (lt lr).
  - destruct (rows (db s) !! _); simpl; [by intros [= <-]|]. destruct (mem s !! l); simpl; [|done]. by intros [= <-].
  - destruct (it lr); simpl; [|done]. destruct (rows (db s) !! _); simpl; [|done]. intros [= <-]. by rewrite deallocate_set_ws.
  - destruct (it lr); simpl; [|done]. destruct (rows (db s) !! _); simpl; [|done]. intros [= <-].
    by rewrite !deallocate_set_db, !deallocate_set_ws.
Qed.

Definition done_with tb (es : list (Z * LogRecord)) w : gmap (table * Z) LogRecord := foldl (λ w x, delete (tb, x.1) w) w es.

(** A loop over entries: [P] holds of the state without the entries that
    are done. *)
Lemma loop_ok (f : state → Z * LogRecord → outcome state) tb (P : state → Prop) :
  (∀ s w x s', f s x = Ok s' → f (set_ws s w) x = Ok (set_ws s' w)) →
  (∀ s k lr, k.1 = tb → P s → ws s !! k = Some lr →
    ∃ s', f (set_ws s (delete k (ws s))) (k.2, lr) = Ok s' ∧ ws s' = delete k (ws s) ∧ P s') →
  ∀ es s, P s → NoDup es.*1 → (∀ x, x ∈ es → ws s !! (tb, x.1) = Some x.2) →
  ∃ s', each f s es = Ok s' ∧ ws s' = ws s ∧ P (set_ws s' (done_with tb es (ws s))).
Proof.
  intros Hf Hstep es. induction es as [|x es IH]; intros s HP Hnd Hes; [exists s; by destruct s|].
  apply NoDup_cons in Hnd as [Hx Hnd].
  destruct (Hstep s (tb, x.1) x.2) as (s1 & E1 & W1 & P1); [done..|apply Hes; by left|].
  assert (f s x = Ok (set_ws s1 (ws s))) as E.
  { replace s with (set_ws (set_ws s (delete (tb, x.1) (ws s))) (ws s)) at 1 by by destruct s. apply Hf. by destruct x. }
  destruct (IH s1 P1 Hnd) as (s2 & E2 & _ & P2).
  { intros y Hy. rewrite W1, lookup_delete_ne; [apply Hes; by right|]. intros [= H]. apply Hx. rewrite H. by apply list_elem_of_fmap_2. }
  rewrite W1 in P2. simpl. rewrite E. simpl.
  assert (∀ xs a b, each f a xs = Ok b → ∀ w, each f (set_ws a w) xs = Ok (set_ws b w)) as He.
  { clear -Hf. intros xs. induction xs as [|y xs IHxs]; intros a b H w; [by injection H as <-|]. simpl in *.
    destruct (f a y) as [a'| | |] eqn:Ea; [|done..]. rewrite (Hf _ _ _ _ Ea). simpl in *. by apply IHxs. }
  eexists. split; [by apply He|]. done.
Qed.

(** [entries] lists the entries of a table. *)
Lemma elem_of_entries {A} tb (m : gmap (table * Z) A) x : x ∈ entries tb m ↔ m !! (tb, x.1) = Some x.2.
Proof.
  unfold entries. rewrite spec_row_perm, list_elem_of_omap. split.
  - intros ([[tb' key] a] & Hin & Hx). simpl in Hx. case_decide as Ht; [|done]. injection Hx as <-. subst. simpl. by apply elem_of_map_to_list.
  - intros H. exists ((tb, x.1), x.2). split; [by apply elem_of_map_to_list|]. simpl. rewrite decide_True by done. by destruct x.
Qed.
Lemma entries_NoDup {A} tb (m : gmap (table * Z) A) : NoDup (entries tb m).*1.
Proof.
  unfold entries. rewrite spec_row_perm. pose proof (NoDup_fst_map_to_list m) as H. revert H. generalize (map_to_list m). intros xs.
  induction xs as [|[[tb' key] a] xs IH]; [constructor|]. simpl. simpl. intros [Hn Hnd]%NoDup_cons. case_decide as Ht; [|by apply IH]. simpl. constructor; [|by apply IH].
  intros (y & -> & (z & Hz & Hy)%list_elem_of_omap)%list_elem_of_fmap. case_decide; [|done]. injection Hy as <-. simpl in Hn. apply Hn.
  apply list_elem_of_fmap. exists z. split; [|done]. destruct z as [[? ?] ?]; simpl in *; congruence.
Qed.
Lemma done_with_entries tb w : done_with tb (entries tb w) w = drop_table tb w.
Proof.
  assert (∀ es w k, done_with tb es w !! k = if decide (k.1 = tb ∧ k.2 ∈ es.*1) then None else w !! k) as Hd.
  { intros es. induction es as [|x es IH]; intros w' k; simpl; [rewrite decide_False; [done|set_solver]|]. rewrite IH.
    destruct (decide (k.1 = tb ∧ k.2 ∈ es.*1)) as [?|Hn]; [rewrite decide_True; [done|set_solver]|].
    destruct (decide (k = (tb, x.1))) as [->|]; [rewrite lookup_delete_eq, decide_True; [done|set_solver]|].
    rewrite lookup_delete_ne by done. rewrite decide_False; [done|]. intros [? [?|?]%elem_of_cons]; [destruct k; simpl in *; congruence|tauto]. }
  apply map_eq. intros k. rewrite Hd. unfold drop_table. destruct (decide (k.1 = tb ∧ _)) as [[Ht Hin]|Hn].
  - symmetry. apply map_lookup_filter_None. right. intros ? _. simpl. tauto.
  - destruct (w !! k) as [lr|] eqn:E; symmetry.
    + apply map_lookup_filter_Some. split; [done|]. simpl. intros Ht. apply Hn. split; [done|]. apply list_elem_of_fmap. exists (k.2, lr).
      split; [done|]. apply elem_of_entries. simpl. rewrite <-Ht. by destruct k.
    + apply map_lookup_filter_None. by left.
Qed.

Lemma drop_table_lookup tb ts w k :
  (if decide (k.1 ∈ ts) then None else drop_table tb w !! k) = if decide (k.1 ∈ tb :: ts) then None else w !! k.
Proof.
  unfold drop_table. rewrite map_lookup_filter.
  destruct (decide (k.1 ∈ ts)) as [?|Hn]; [rewrite decide_True; [done|by right]|].
  destruct (decide (k.1 = tb)) as [Ht|Ht].
  - rewrite (decide_True (P := k.1 ∈ tb :: ts)) by (rewrite Ht; by left). destruct (w !! k); [|done]. simpl. by rewrite option_guard_False by tauto.
  - rewrite (decide_False (P := k.1 ∈ tb :: ts)) by (intros [?|?]%elem_of_cons; done). destruct (w !! k); [|done]. simpl. by rewrite option_guard_True.
Qed.

Lemma each_app (f : state → table → outcome state) s xs ys : each f s (xs ++ ys) = s ← each f s xs; each f s ys.
Proof. revert s. induction xs as [|x xs IH]; intros s; simpl; [done|]. by destruct (f s x); simpl. Qed.

(** *** Commit *)
Section applying.
Context (V : table * Z → option record) (Hfilled : ∀ k r, V k = Some r → terminated r).

Definition applying (h nh : list (option record)) s : Prop := good s ∧ (∀ k, view s k = V k) ∧ hist s = h ∧ new_hist s = nh.

Lemma apply_step h nh s k lr : applying h nh s → ws s !! k = Some lr →
  ∃ s', apply_entry k.1 (set_ws s (delete k (ws s))) (k.2, lr) = Ok s' ∧ ws s' = delete k (ws s) ∧ applying h nh s'.
Proof.
  intros ((own & Hi) & HV & Hh & Hn) Hl. destruct (i_log _ _ Hi _ _ Hl) as ([l Hp] & _ & Hlog).
  destruct (inv_pending _ _ _ _ _ Hi Hl Hp) as (r & Hr & Ht & Hz).
  assert (view s k = match lt lr with DELETE => None | _ => Some r end) as Hv.
  { unfold view, pending. rewrite Hl, Hp. simpl. by destruct (lt lr). }
  destruct (apply_log_ok (delete l own) (set_ws s (delete k (ws s))) k lr l r) as (s' & own' & E & [Hi' V' _ W (H1 & H2 & _)]); try done.
  - by eapply ws_remove.
  - simpl. apply lookup_delete_eq.
  - apply lookup_delete_eq.
  - intros Hd. apply (Hfilled k). rewrite <-HV, Hv. by destruct (lt lr).
  - exists s'. split; [done|]. split; [by rewrite W|]. split; [by exists own'|]. split_and!.
    + intros k'. rewrite V'. destruct (decide _) as [->|Hne]; [by rewrite <-HV, Hv|]. rewrite <-HV. unfold view. simpl. by rewrite lookup_delete_ne by done.
    + by rewrite H1.
    + by rewrite H2.
Qed.

Lemma apply_table_ok h nh tb s : tb ≠ THistory → applying h nh s →
  ∃ s', apply_writeset_to_database s tb = Ok s' ∧ applying h nh s' ∧ ws s' = drop_table tb (ws s).
Proof.
  intros Htb HP. destruct (loop_ok (apply_entry tb) tb (applying h nh)) with (es := entries tb (ws s)) (s := s) as (s' & E & W & P').
  - intros. by apply apply_entry_ws.
  - intros s0 k lr <-. apply apply_step.
  - done.
  - apply entries_NoDup.
  - intros x. apply elem_of_entries.
  - rewrite done_with_entries, <-W in P'. exists (set_ws s' (drop_table tb (ws s'))). split_and!; [|done|by rewrite W]. destruct tb; simpl; rewrite ?E; done.
Qed.

Lemma apply_tables_ok h nh ts s : THistory ∉ ts → applying h nh s →
  ∃ s', each apply_writeset_to_database s ts = Ok s' ∧ applying h nh s' ∧ ∀ k, ws s' !! k = if decide (k.1 ∈ ts) then None else ws s !! k.
Proof.
  revert s. induction ts as [|tb ts IH]; intros s Hts HP; [by exists s|]. apply not_elem_of_cons in Hts as [Htb Hts].
  destruct (apply_table_ok h nh tb s (not_eq_sym Htb) HP) as (s1 & E1 & P1 & W1). destruct (IH s1 Hts P1) as (s2 & E2 & P2 & W2).
  exists s2. simpl. rewrite E1. split_and!; [done..|]. intros k. by rewrite W2, W1, drop_table_lookup.
Qed.

Lemma foldl_insert_history d q : foldl insert_history d q = mkDb (rows d) (customers d) (orders d) (history d ++ q).
Proof. revert d. induction q as [|l q IH]; intros d; simpl; [rewrite app_nil_r; by destruct d|]. rewrite IH. simpl. by rewrite <-app_assoc. Qed.

Lemma apply_history_ok h nh s : applying h nh s →
  ∃ s', apply_writeset_to_database s THistory = Ok s' ∧ applying (h ++ nh) [] s' ∧ ws s' = ws s ∧ ws_history s' = [].
Proof.
  intros ((own & Hi) & HV & Hh & Hn). eexists. split; [reflexivity|]. rewrite foldl_insert_history. split_and!; [|done..].
  set (g := λ p, match p with PHist => Hist | _ => p end).
  assert (∀ l p, p ≠ Hist → p ≠ PHist → (g <$> own) !! l = Some p ↔ own !! l = Some p) as Hg.
  { intros l p H1 H2. rewrite lookup_fmap, fmap_Some. split; [intros ([] & ? & ->); simpl in *; done|intros H; exists p; by destruct p]. }
  assert (∀ l, (g <$> own) !! l = Some Hist ↔ own !! l = Some Hist ∨ own !! l = Some PHist) as Hg'.
  { intros l. rewrite lookup_fmap, fmap_Some. split; [intros ([] & ? & ?); simpl in *; auto; done|intros []; by eexists]. }
  split_and!; [exists (g <$> own)|done| |done].
  - destruct Hi as [[Hc Ho Hm] Hrow Hws Hhi Hwh Hwo Hlog]. split; simpl; try done.
    + split; [intros; rewrite Hg by done; apply Hc|done|]. intros l p. rewrite lookup_fmap. intros (p' & H & ->)%fmap_Some.
      destruct (Hm _ _ H) as (r & ? & Ht & ? & ?). exists r. split; [done|]. split; [by destruct p'|]. by destruct p'.
    + intros. by rewrite Hg.
    + intros. by rewrite Hg.
    + intros l. rewrite Hg', elem_of_app. by rewrite Hhi, Hwh.
    + intros l. rewrite lookup_fmap, fmap_Some. split; [set_solver|]. by intros ([] & ? & ?).
    + constructor.
  - unfold hist, new_hist in *. simpl. by rewrite fmap_app, Hh, Hn.
Qed.
End applying.

(** No entry is left when the loops are over. *)
Definition first_tables := [TItem; TWarehouse; TStock; TDistrict; TCustomer].
Definition last_tables := [TOrder; TNewOrder; TOrderLine].
Lemma ws_emptied own s w1 w2 : inv own s →
  (∀ k, w1 !! k = if decide (k.1 ∈ first_tables) then None else ws s !! k) →
  (∀ k, w2 !! k = if decide (k.1 ∈ last_tables) then None else w1 !! k) → w2 = ∅.
Proof.
  intros Hi W1 W2. apply map_empty. intros k. rewrite W2, W1.
  destruct (ws s !! k) as [lr|] eqn:Hl; [|by repeat case_decide]. destruct (i_log _ _ Hi _ _ Hl) as (_ & Hk & _). by destruct k as [[] ?].
Qed.

Definition idle s : Prop := ws s = ∅ ∧ ws_history s = [].

Lemma idle_view s k : idle s → view s k = committed s k.
Proof. intros [Hw _]. unfold view. by rewrite Hw, lookup_empty. Qed.

Lemma naive_commit_ok s : good s → filled s →
  ∃ s', commit s = Ok (true, s') ∧ good s' ∧ idle s' ∧ (∀ k, committed s' k = view s k) ∧ hist s' = hist s ++ new_hist s.
Proof.
  intros Hg Hf. assert (applying (view s) (hist s) (new_hist s) s) as P0 by done.
  destruct (apply_tables_ok (view s) Hf (hist s) (new_hist s) first_tables s) as (s1 & E1 & P1 & W1); [set_solver|done|].
  destruct (apply_history_ok (view s) Hf _ _ _ P1) as (s2 & E2 & P2 & W2 & Q2).
  destruct (apply_tables_ok (view s) Hf (hist s ++ new_hist s) [] last_tables s2) as (s3 & E3 & P3 & W3); [set_solver|done|].
  assert (each apply_writeset_to_database s tables = Ok s3) as E.
  { change tables with (first_tables ++ THistory :: last_tables).
    rewrite each_app, E1. cbn [each mbind outcome_bind]. rewrite E2. done. }
  exists s3. unfold commit, apply_to_database. rewrite E. destruct P3 as (Hg3 & HV & Hh & Hn). split; [done|].
  assert (idle s3) as Hidle.
  { split; [|by apply fmap_nil_inv in Hn]. destruct Hg as [own Hi]. rewrite W2 in W3. by eapply ws_emptied. }
  split_and!; try done. intros k. rewrite <-HV. symmetry. by apply idle_view.
Qed.

(** *** Abort *)
Section clearing.
Context (C : table * Z → option record) (h : list (option record)).

Definition clearing q s : Prop := good s ∧ (∀ k, committed s k = C k) ∧ hist s = h ∧ ws_history s = q.

(** A record that has left its place goes to the cache. *)
Lemma clearing_deallocate own s tb l r : inv own s → own !! l = None → mem s !! l = Some r → table_of r = tb → sized r →
  (∀ k, committed s k = C k) → hist s = h → clearing (ws_history s) (deallocate s tb l).
Proof.
  intros Hi Hl Hr Ht Hz HC Hh. destruct (deallocate_ok own s tb l r (i_heap _ _ Hi) Hl Hr) as (own' & Hheap & Hf & _); [done|].
  split_and!; [by eapply frame_good| | |by apply Hf].
  - intros k. by rewrite (frame_committed _ _ _ _ k Hi Hf).
  - by destruct (frame_hist _ _ _ _ Hi Hf) as [-> _].
Qed.

Lemma deallocate_ws s tb l : ws (deallocate s tb l) = ws s ∧ ws_history (deallocate s tb l) = ws_history s.
Proof. unfold deallocate. by destruct (Nat.ltb _ _). Qed.

Lemma clear_step q s k lr : clearing q s → ws s !! k = Some lr →
  ∃ s', clear_entry k.1 (set_ws s (delete k (ws s))) (k.2, lr) = Ok s' ∧ ws s' = delete k (ws s) ∧ clearing q s'.
Proof.
  intros ((own & Hi) & HC & Hh & <-) Hl. destruct (i_log _ _ Hi _ _ Hl) as ([l Hp] & _). destruct (inv_pending _ _ _ _ _ Hi Hl Hp) as (r & Hr & Ht & Hz).
  unfold clear_entry. simpl. rewrite Hp. eexists. split; [done|]. split; [by rewrite (proj1 (deallocate_ws _ _ _))|].
  exact (clearing_deallocate _ (set_ws s (delete k (ws s))) _ _ _ (ws_remove _ _ _ _ _ Hi Hl Hp) (lookup_delete_eq _ _) Hr Ht Hz HC Hh).
Qed.

Lemma clear_table_ok q tb s : tb ≠ THistory → clearing q s →
  ∃ s', clear_writeset s tb = Ok s' ∧ clearing q s' ∧ ws s' = drop_table tb (ws s).
Proof.
  intros Htb HP. destruct (loop_ok (clear_entry tb) tb (clearing q)) with (es := entries tb (ws s)) (s := s) as (s' & E & W & P').
  - intros s0 w x s'. unfold clear_entry. destruct (rec_ptr x.2); [|done]. intros [= <-]. by rewrite deallocate_set_ws.
  - intros s0 k lr <-. apply clear_step.
  - done.
  - apply entries_NoDup.
  - intros x. apply elem_of_entries.
  - rewrite done_with_entries, <-W in P'. exists (set_ws s' (drop_table tb (ws s'))). split_and!; [|done|by rewrite W]. destruct tb; simpl; rewrite ?E; done.
Qed.

Lemma set_ws_history_eq s q : ws_history s = q → set_ws_history s q = s.
Proof. intros <-. by destruct s. Qed.

(** A history record leaves the write set. *)
Lemma ws_history_remove own s l q : inv own s → ws_history s = l :: q → inv (delete l own) (set_ws_history s q).
Proof.
  intros [Hheap Hrow Hws Hhi Hwh Hwo Hlog] Hq. assert (own !! l = Some PHist) as Hp by (apply Hwh; rewrite Hq; by left).
  rewrite Hq in Hwo. apply NoDup_cons in Hwo as [Hni Hwo].
  assert (∀ l' p', p' ≠ PHist → delete l own !! l' = Some p' ↔ own !! l' = Some p') as Hk.
  { intros l' p' Hn. rewrite lookup_delete_Some. split; [tauto|]. intros H. split; [congruence|done]. }
  split; simpl; try done.
  - assert (heap (delete l own) s) as [] by exact (heap_drop _ _ _ _ Hheap Hp uncached_phist). by split.
  - intros k' l'. by rewrite Hk.
  - intros k' l'. by rewrite Hk.
  - intros l'. by rewrite Hk.
  - intros l'. rewrite lookup_delete_Some, <-Hwh, Hq, elem_of_cons. set_solver.
Qed.

Lemma deallocate_set_ws_history s q tb l : deallocate (set_ws_history s q) tb l = set_ws_history (deallocate s tb l) q.
Proof. unfold deallocate. change (cached (set_ws_history s q) tb) with (cached s tb). by destruct (Nat.ltb _ _). Qed.

Lemma clear_history_ok q s : clearing q s → ∃ s', clear_writeset s THistory = Ok s' ∧ clearing [] s' ∧ ws s' = ws s.
Proof.
  intros HP. assert (∀ q s, clearing q (set_ws_history s q) → ∃ s',
    each (λ s l, Ok (deallocate s THistory l)) s q = Ok s' ∧ clearing [] (set_ws_history s' []) ∧ ws s' = ws s) as Hloop.
  { clear q s HP. intros q. induction q as [|l q IH]; intros s HP; [by exists s|]. simpl.
    destruct HP as ((own & Hi) & HC & Hh & _). assert (own !! l = Some PHist) as Hp by (apply (i_whist _ _ Hi); by left).
    destruct (h_mem _ _ (i_heap _ _ Hi) _ _ Hp) as (r & Hr & Ht & Hz & _).
    destruct (IH (deallocate s THistory l)) as (s' & E & P' & W).
    - rewrite <-deallocate_set_ws_history. exact (clearing_deallocate _ (set_ws_history s q) _ _ _ (ws_history_remove _ _ _ _ Hi eq_refl) (lookup_delete_eq _ _) Hr Ht Hz HC Hh).
    - exists s'. split_and!; [done..|]. rewrite W. apply deallocate_ws. }
  destruct (Hloop (ws_history s) s) as (s' & E & P' & W); [rewrite set_ws_history_eq by done; by pose proof HP as (_ & _ & _ & ->)|].
  exists (set_ws_history s' []). simpl. by rewrite E.
Qed.

Lemma clear_tables_ok q ts s : THistory ∉ ts → clearing q s →
  ∃ s', each clear_writeset s ts = Ok s' ∧ clearing q s' ∧ ∀ k, ws s' !! k = if decide (k.1 ∈ ts) then None else ws s !! k.
Proof.
  revert s. induction ts as [|tb ts IH]; intros s Hts HP; [by exists s|]. apply not_elem_of_cons in Hts as [Htb Hts].
  destruct (clear_table_ok q tb s (not_eq_sym Htb) HP) as (s1 & E1 & P1 & W1). destruct (IH s1 Hts P1) as (s2 & E2 & P2 & W2).
  exists s2. simpl. rewrite E1. split_and!; [done..|]. intros k. by rewrite W2, W1, drop_table_lookup.
Qed.
End clearing.

Lemma naive_abort_ok s : good s → ∃ s', abort s = Ok s' ∧ good s' ∧ idle s' ∧ (∀ k, committed s' k = committed s k) ∧ hist s' = hist s.
Proof.
  intros Hg. set (C := committed s). set (h := hist s). assert (clearing C h (ws_history s) s) as P0 by done.
  destruct (clear_tables_ok C h (ws_history s) first_tables s) with (2 := P0) as (s1 & E1 & P1 & W1); [set_solver|].
  destruct (clear_history_ok C h _ _ P1) as (s2 & E2 & P2 & W2).
  destruct (clear_tables_ok C h [] last_tables s2) with (2 := P2) as (s3 & E3 & P3 & W3); [set_solver|].
  exists s3. unfold abort, clear_all. change tables with (first_tables ++ THistory :: last_tables). rewrite each_app, E1.
  cbn [each mbind outcome_bind]. rewrite E2. destruct P3 as (Hg3 & HC & Hh & Hq). split_and!; try done.
  split; [|done]. destruct Hg as [own Hi]. rewrite W2 in W3. by eapply ws_emptied.
Qed.
End naive_commit.
