(* ===== verification/NaiveTx.v ===== *)
(** * Naive: a transaction for TPC-C

    The naive protocol as an instance of [Transaction], and the promises of
    [TransactionSpec] from the lemmas on its calls. *)
From S2P Require Import Prelude BitFields Utils Records Tx Naive NaiveInv NaiveCommit.

Section naive_tx.
Import Records Tx Naive NaiveInv NaiveCommit.
Context `{HD : Double} (junk : table → loc → record) (Hjunk : ∀ tb l, table_of (junk tb l) = tb ∧ sized (junk tb l)).
Implicit Types (s : state) (k : table * Z) (l : loc) (i : nat).

(** [with s f]: a call that does not change the transaction. *)
Definition unchanged {A} (s : state) (m : outcome A) : outcome (A * state) := a ← m; Ok (a, s).

Definition naive_transaction : Transaction := {|
  tx := state;
  Tx.load := Naive.load;
  Tx.store := Naive.store;
  Tx.get_record := Naive.get_record;
  Tx.prepare_history_for_insert := Naive.prepare_history_for_insert junk;
  Tx.prepare_record_for_insert := Naive.prepare_record_for_insert junk;
  Tx.prepare_record_for_update := Naive.prepare_record_for_update junk;
  Tx.prepare_record_for_delete := Naive.prepare_record_for_delete junk;
  Tx.finish_insert s _ := finish s;
  Tx.finish_update s _ := finish s;
  Tx.finish_delete s _ := finish s;
  Tx.get_customer_by_last_name s w d last := unchanged s (Naive.get_customer_by_last_name s w d last);
  Tx.get_customer_by_last_name_and_prepare_for_update := Naive.get_customer_by_last_name_and_prepare_for_update junk;
  Tx.get_order_by_customer_id s w d c := unchanged s (Naive.get_order_by_customer_id s w d c);
  Tx.get_neworder_with_smallest_key_no_less_than s low := unchanged s (Naive.get_neworder_with_smallest_key_no_less_than s low);
  Tx.range_query A s tb low up f a := unchanged s (Naive.range_query s tb low up f a);
  Tx.range_update A s tb low up f a := Naive.range_update junk s tb low up f a;
  Tx.commit := Naive.commit;
  Tx.abort := Naive.abort
|}.

(** *** History records *)
Lemma history_insert_ok s : good s →
  ∃ l s' r, apply_insert_history junk s = (Some l, s') ∧ good s' ∧ (∀ k, view s' k = view s k) ∧ db s' = db s ∧ ws s' = ws s ∧
    (∀ k l', rows (db s) !! k = Some l' → mem s' !! l' = mem s !! l') ∧ hist s' = hist s ∧
    ws_history s' = ws_history s ++ [l] ∧ new_hist s' = new_hist s ++ [Some r].
Proof.
  intros [own Hi]. unfold apply_insert_history. destruct (allocate_ok junk Hjunk own s THistory (i_heap _ _ Hi)) as (l & r & s1 & own1 & E & Hh & Hf & Hl & Hr & Ht & Hs).
  rewrite E. pose proof (inv_frame _ _ _ _ Hi Hh Hf) as Hi1. destruct (frame_hist _ _ _ _ Hi Hf) as [Hh1 Hn1].
  assert (ws_history s1 = ws_history s) as Hq by apply Hf.
  eexists l, _, r. split; [done|]. split_and!; simpl.
  - exists (<[l := PHist]> own1). destruct Hi1 as [Hheap Hrow Hws Hhi Hwh Hwo Hlog].
    assert (∀ l' p', own1 !! l' = Some p' → <[l := PHist]> own1 !! l' = Some p') as Hk1 by (intros l' p' H; rewrite lookup_insert_ne by congruence; done).
    assert (∀ l' p', p' ≠ PHist → <[l := PHist]> own1 !! l' = Some p' → own1 !! l' = Some p') as Hk2.
    { intros l' p' Hn [[_ ?]|[_ ?]]%lookup_insert_Some; [congruence|done]. }
    split; simpl; try done.
    + assert (heap (<[l := PHist]> own1) s1) as [] by (eapply heap_take; [exact Hheap|exact Hl|exact uncached_phist|exact Hr|by split]). by split.
    + intros k' l'. rewrite Hrow. split; [apply Hk1|by apply Hk2].
    + intros k' l'. rewrite Hws. split; [apply Hk1|by apply Hk2].
    + intros l'. rewrite Hhi. split; [apply Hk1|by apply Hk2].
    + intros l'. rewrite elem_of_app, list_elem_of_singleton, Hwh, lookup_insert_Some. destruct (decide (l = l')) as [->|]; naive_solver.
    + apply NoDup_app. split; [done|]. split; [|apply NoDup_singleton]. intros x Hx%Hwh ->%list_elem_of_singleton. congruence.
  - intros k. rewrite <-(frame_view _ _ _ _ k Hi Hf). done.
  - apply Hf.
  - apply Hf.
  - intros k l' H. by eapply frame_rows.
  - done.
  - by rewrite Hq.
  - unfold new_hist in *. simpl. by rewrite fmap_app, Hn1, <-Hr.
Qed.

Lemma history_store_ok s l i r : good s → ws_history s !! i = Some l → table_of r = THistory → sized r →
  ∃ s', store s l r = Ok s' ∧ good s' ∧ (∀ k, view s' k = view s k) ∧ db s' = db s ∧ ws s' = ws s ∧
    (∀ k l', rows (db s) !! k = Some l' → mem s' !! l' = mem s !! l') ∧ hist s' = hist s ∧
    ws_history s' = ws_history s ∧ new_hist s' = <[i := Some r]> (new_hist s).
Proof.
  intros [own Hi] Hl Ht Hs. assert (own !! l = Some PHist) as Hp by (apply (i_whist _ _ Hi); by eapply list_elem_of_lookup_2).
  destruct (h_mem _ _ (i_heap _ _ Hi) _ _ Hp) as (r0 & Hr0 & _).
  assert (∀ x p, own !! x = Some p → p ≠ PHist → <[l:=r]> (mem s) !! x = mem s !! x) as Hm by (intros x p H Hne; apply lookup_insert_ne; congruence).
  unfold store. rewrite Hr0. eexists. split; [done|]. split_and!; simpl; try done.
  - exists own. destruct Hi. split; try done. by eapply heap_set.
  - intros k. unfold view, NaiveInv.pending, committed. simpl. destruct (ws s !! k) as [lr|] eqn:E.
    + destruct (rec_ptr lr) as [l'|] eqn:E'; [|done]. simpl. rewrite (Hm l' (Pend k)); [done|apply (i_ws _ _ Hi); by exists lr|done].
    + destruct (rows (db s) !! k) as [l'|] eqn:E'; [|done]. simpl. apply (Hm l' (Row k)); [by apply (i_rows _ _ Hi)|done].
  - intros k l' H%(i_rows _ _ Hi). by eapply Hm.
  - unfold hist. simpl. apply list_fmap_ext. intros j l' Hl'%list_elem_of_lookup_2. apply (Hm _ Hist); [by apply (i_hist _ _ Hi)|done].
  - unfold new_hist. simpl. apply list_eq. intros j. rewrite list_lookup_fmap. destruct (decide (j = i)) as [->|Hne].
    + rewrite Hl, list_lookup_insert_eq by (rewrite length_fmap; by eapply lookup_lt_Some). simpl. by rewrite lookup_insert_eq.
    + rewrite list_lookup_insert_ne, list_lookup_fmap by done. destruct (ws_history s !! j) as [l'|] eqn:E; [|done]. simpl. f_equal.
      apply lookup_insert_ne. intros ->. apply Hne. symmetry. by eapply (NoDup_lookup _ _ _ _ (i_whist_once _ _ Hi)).
Qed.

(** *** Ranges *)
Lemma while_below_filter low up (m : list (Z * loc)) : ascending m → while_below up (lower_bound Z.ltb low m) = filter (λ x, low ≤ x.1 < up) m.
Proof.
  induction m as [|x m IH]; [done|]. intros [Hx Hm]%ascending_cons. simpl. destruct (Z.ltb_spec x.1 low).
  - rewrite IH by done. by rewrite filter_cons_False by lia.
  - assert (lower_bound Z.ltb low m = m) as Hlb.
    { destruct m as [|y m']; [done|]. simpl. assert (x.1 < y.1) by (apply Hx; by left). by destruct (Z.ltb_spec y.1 low); [lia|]. }
    rewrite Hlb in IH. rewrite filter_cons. simpl. destruct (Z.ltb_spec x.1 up).
    + rewrite decide_True by lia. by rewrite IH.
    + rewrite decide_False by lia. symmetry. apply filter_none. intros y Hy. specialize (Hx y Hy). lia.
Qed.

Lemma entries_ascending {A} (tb : table) (m : gmap (table * Z) A) : ascending (Naive.entries tb m).
Proof. apply spec_row_ascending. pose proof (entries_NoDup tb m) as H. unfold Naive.entries in H. by rewrite spec_row_perm in H. Qed.

Lemma range_ascending s tb low up : ascending (range s tb low up).
Proof. unfold range. rewrite while_below_filter by apply entries_ascending. apply ascending_filter, entries_ascending. Qed.

Lemma elem_of_range s tb low up key l : (key, l) ∈ range s tb low up ↔ rows (db s) !! (tb, key) = Some l ∧ low ≤ key < up.
Proof. unfold range. rewrite while_below_filter by apply entries_ascending. rewrite list_elem_of_filter, elem_of_entries. simpl. tauto. Qed.

(** The rows of a range with their records. *)
Lemma query_rows_ok {A} s (f : A → record → outcome A) a (m : list (Z * loc)) (g : Z * loc → record) : (∀ x, x ∈ m → mem s !! x.2 = Some (g x)) →
  query_rows s f a m = foldl (λ o x, a ← o; f a x.2) (Ok a) ((λ x, (x.1, g x)) <$> m).
Proof.
  intros Hg. assert (∀ m (o : outcome A), (∀ x, x ∈ m → mem s !! x.2 = Some (g x)) →
    (a ← o; query_rows s f a m) = foldl (λ o x, a ← o; f a x.2) o ((λ x, (x.1, g x)) <$> m)) as H.
  { clear. intros m. induction m as [|x m IH]; intros o Hg; [by destruct o|]. csimpl. rewrite <-IH by (intros y Hy; apply Hg; by right).
    destruct o; simpl; try done. unfold load. rewrite (Hg x) by (by left). simpl. by destruct (f _ _). }
  by rewrite <-(H m (Ok a) Hg).
Qed.

Lemma range_query_ok {A} s tb low up (f : A → record → outcome A) a : good s →
  ∃ rws : list (Z * record), ascending rws ∧ (∀ key r, (key, r) ∈ rws ↔ committed s (tb, key) = Some r ∧ low ≤ key < up) ∧
    unchanged s (range_query s tb low up f a) = (a ← foldl (λ m x, a ← m; f a x.2) (Ok a) rws; Ok (SUCCESS, a, s)).
Proof.
  intros [own Hi]. set (g := λ x : Z * loc, default (junk tb x.2) (mem s !! x.2)).
  assert (∀ x, x ∈ range s tb low up → rows (db s) !! (tb, x.1) = Some x.2 ∧ low ≤ x.1 < up ∧ mem s !! x.2 = Some (g x)) as Hr.
  { intros [key l] [Hl Hk]%elem_of_range. split; [done|]. split; [done|]. destruct (inv_row _ _ _ _ Hi Hl) as (r & Hm & _). unfold g. simpl. by rewrite Hm. }
  exists ((λ x, (x.1, g x)) <$> range s tb low up). split_and!.
  - unfold ascending. rewrite <-list_fmap_compose. apply range_ascending.
  - intros key r. rewrite list_elem_of_fmap. unfold committed. split.
    + intros (x & [= -> ->] & Hx). destruct (Hr _ Hx) as (-> & ? & ?). done.
    + intros [(l & Hl & Hm)%bind_Some Hk]. exists (key, l). unfold g. simpl. rewrite Hm. split; [done|]. by apply elem_of_range.
  - unfold unchanged, range_query. rewrite (query_rows_ok _ _ _ _ g) by (intros x Hx; by apply Hr). by destruct (foldl _ _ _).
Qed.

(** *** The promises *)
Definition naive_view s (x : target) : option record :=
  match x with TRow k => NaiveInv.view s k | THist i => mjoin (new_hist s !! i) end.
Definition naive_points s l (x : target) : Prop :=
  match x with TRow k => NaiveInv.points s l k | THist i => ws_history s !! i = Some l end.

Lemma writes_wrote k o s s' : writes k o s s' →
  wrote_by (TX := naive_transaction) good committed naive_view naive_points (λ s l k, rows (db s) !! k = Some l) NaiveInv.hist (λ s, length (ws_history s)) (TRow k) o s s'.
Proof.
  intros [Hg V D R P (H1 & H2 & H3)]. split; try done.
  - intros [k'|i]; simpl; [rewrite V; by repeat case_decide; try congruence|by rewrite H2].
  - intros k'. unfold committed. rewrite D. destruct (rows (db s) !! k') as [l|] eqn:E; [|done]. simpl. by eapply R.
  - intros l k'. by rewrite D.
  - intros l [k'|i] Hne Hp; simpl in *; [apply P; congruence|by rewrite H3].
  - by rewrite H3.
Qed.

Lemma good_view_typed s x r : good s → naive_view s x = Some r → table_of r = target_table x ∧ sized r.
Proof.
  intros [own Hi]. destruct x as [k|i]; simpl.
  - intros Hv. destruct (view_some_cases _ _ _ _ Hi Hv) as [(_ & l & _ & _ & ? & ? & _)|(lr & l & Hl & _ & Hp & Hm)]; [done|].
    destruct (inv_pending _ _ _ _ _ Hi Hl Hp) as (r' & ? & ? & ?). naive_solver.
  - unfold new_hist. rewrite list_lookup_fmap. destruct (ws_history s !! i) as [l|] eqn:E; [|done]. simpl. intros Hm.
    assert (own !! l = Some PHist) as Hp by (apply (i_whist _ _ Hi); by eapply list_elem_of_lookup_2).
    destruct (h_mem _ _ (i_heap _ _ Hi) _ _ Hp) as (r' & ? & ? & ? & _). naive_solver.
Qed.
Lemma good_base_typed s k r : good s → committed s k = Some r → table_of r = k.1 ∧ well_formed r.
Proof. intros [own Hi] (l & Hl & Hm)%bind_Some. destruct (inv_row _ _ _ _ Hi Hl) as (r' & ? & ? & ?). naive_solver. Qed.
Lemma good_load s l x : good s → naive_points s l x → ∃ r, naive_view s x = Some r ∧ load s l = Ok r.
Proof.
  intros [own Hi]. destruct x as [k|i]; simpl.
  - intros (lr & Hl & Hp & Hd). destruct (inv_pending _ _ _ _ _ Hi Hl Hp) as (r & Hm & _). exists r. unfold load, NaiveInv.view, NaiveInv.pending.
    rewrite Hm, Hl, Hp. split; [by destruct (lt lr)|done].
  - intros Hl. assert (own !! l = Some PHist) as Hp by (apply (i_whist _ _ Hi); by eapply list_elem_of_lookup_2).
    destruct (h_mem _ _ (i_heap _ _ Hi) _ _ Hp) as (r & Hm & _). exists r. unfold new_hist, load. rewrite list_lookup_fmap, Hl, Hm. done.
Qed.

Lemma hist_wrote s s' i r : good s' → (∀ k, NaiveInv.view s' k = NaiveInv.view s k) → db s' = db s → ws s' = ws s →
  (∀ k l', rows (db s) !! k = Some l' → mem s' !! l' = mem s !! l') → NaiveInv.hist s' = NaiveInv.hist s →
  (∀ j l, j ≠ i → ws_history s !! j = Some l → ws_history s' !! j = Some l) →
  (∀ j, new_hist s' !! j = if decide (j = i) then Some (Some r) else new_hist s !! j) → length (ws_history s') = Nat.max (length (ws_history s)) (S i) →
  wrote_by (TX := naive_transaction) good committed naive_view naive_points (λ s l k, rows (db s) !! k = Some l) NaiveInv.hist (λ s, length (ws_history s)) (THist i) (Some r) s s'.
Proof.
  intros Hg HV HD' HW HR HH HQ HN HL. split; try done.
  - intros [k|j]; simpl; [by rewrite HV|]. rewrite HN. by repeat case_decide; try congruence.
  - intros k. unfold committed. rewrite HD'. destruct (rows (db s) !! k) as [l|] eqn:E; [|done]. simpl. by eapply HR.
  - intros l k. by rewrite HD'.
  - intros l [k|j] Hne; simpl; [|apply HQ; congruence]. intros (lr & ? & ?). exists lr. by rewrite HW.
Qed.

#[refine] Instance naive_spec : TransactionSpec (TX := naive_transaction) := {|
  Tx.ok := good : tx (Transaction := naive_transaction) → Prop;
  Tx.idle := NaiveCommit.idle : tx (Transaction := naive_transaction) → Prop;
  Tx.base := committed;
  Tx.view := naive_view;
  Tx.points := naive_points;
  Tx.reads := λ (s : tx (Transaction := naive_transaction)) l k, rows (db s) !! k = Some l;
  Tx.hist := NaiveInv.hist;
  Tx.pending := λ (s : tx (Transaction := naive_transaction)), length (ws_history s)
|}.
Proof.
  - intros s k _ Hidle. by apply NaiveCommit.idle_view.
  - intros s _ [_ ->]. done.
  - intros s i _ [_ Hq]. simpl. unfold new_hist. by rewrite Hq.
  - apply good_view_typed.
  - apply good_base_typed.
  - apply good_load.
  - intros s l k [own Hi] Hl. destruct (inv_row _ _ _ _ Hi Hl) as (r & Hm & _). exists r. unfold committed. rewrite Hl. simpl. unfold load. by rewrite Hm.
  - intros s l [k|i] r Hg Hp Ht Hs; simpl in *.
    + destruct (store_ok s l k r Hg Hp Ht Hs) as (s' & E & W & P & _). exists s'. split_and!; [done|by apply writes_wrote|done].
    + destruct (history_store_ok s l i r Hg Hp Ht Hs) as (s' & E & G & V & D & W & R & H & Q & N). exists s'. split_and!; [done| |by rewrite Q].
      pose proof (lookup_lt_Some _ _ _ Hp). apply hist_wrote; try done.
      * intros j l' _. by rewrite Q.
      * intros j. rewrite N. case_decide as Hj; [subst; apply list_lookup_insert_eq; unfold new_hist; by rewrite length_fmap|by apply list_lookup_insert_ne].
      * rewrite Q. lia.
  - intros s k r Hg Hr. apply bind_Some in Hr as (l & Hl & _). exists l. destruct k. simpl. unfold get_record, db_get_record. by rewrite Hl.
  - intros s k [own Hi] Hn. unfold committed in Hn. destruct (rows (db s) !! k) as [l|] eqn:Hl.
    + destruct (inv_row _ _ _ _ Hi Hl) as (r & Hm & _). simpl in Hn. congruence.
    + destruct k. simpl. unfold get_record, db_get_record. by rewrite Hl.
  - intros s [tb key] r Hg Ht Hv. destruct (writeset_update_ok junk Hjunk s tb key r Hg Ht Hv) as (l & s' & r' & E & W & P & _ & Hs & _ & _ & Hte).
    exists l, s', r'. simpl. unfold prepare_record_for_update. rewrite E. split_and!; [done|by apply writes_wrote|done..].
  - intros s [tb key] Hg Ht Hv. destruct (writeset_insert_ok junk Hjunk s tb key Hg Ht Hv) as (l & s' & r' & E & W & P & _).
    exists l, s', r'. simpl. unfold prepare_record_for_insert. rewrite E. split_and!; [done|by apply writes_wrote|done].
  - intros s Hg. destruct (history_insert_ok s Hg) as (l & s' & r & E & G & V & D & W & R & H & Q & N). exists l, s', r. simpl.
    unfold prepare_history_for_insert. rewrite E. assert (length (new_hist s) = length (ws_history s)) as Hlen by apply length_fmap.
    split_and!; [done| |by rewrite Q, list_lookup_middle]. apply hist_wrote; try done.
    + intros j l' _ Hj. rewrite Q. by apply lookup_app_l_Some.
    + intros j. rewrite N. case_decide as Hj; [subst; by rewrite <-Hlen, list_lookup_middle|].
      destruct (decide (j < length (new_hist s))%nat); [by apply lookup_app_l|]. rewrite !lookup_ge_None_2; [done|lia|rewrite length_app; simpl; lia].
    + rewrite Q, length_app. simpl. lia.
  - intros s [tb key] r Hg Ht Hv. destruct (writeset_delete_ok junk Hjunk s tb key r Hg Ht Hv) as (s' & E & W).
    exists s'. simpl. unfold prepare_record_for_delete. rewrite E. split; [done|by apply writes_wrote].
  - done.
  - intros A s tb low up f a Hg. by apply range_query_ok.
  - intros s Hg Hf. destruct (NaiveCommit.naive_commit_ok s Hg) as (s' & E & G & I & C & H); [intros k r; apply Hf|].
    exists s'. split_and!; try done. rewrite H. f_equal. apply list_eq. intros j. rewrite list_lookup_fmap.
    assert (length (new_hist s) = length (ws_history s)) as Hlen by apply length_fmap.
    destruct (decide (j < length (ws_history s))%nat).
    + rewrite lookup_seq_lt by done. simpl. unfold new_hist. rewrite !list_lookup_fmap. destruct (lookup_lt_is_Some_2 (ws_history s) j) as [l0 ->]; done.
    + rewrite lookup_seq_ge by lia. apply lookup_ge_None_2. lia.
  - intros s Hg. destruct (NaiveCommit.naive_abort_ok s Hg) as (s' & E & G & I & C & H). by exists s'.
Defined.
End naive_tx.
