(* ===== verification/TxSerial.v ===== *)
(** * Transactions against their specification

    A transaction is a sequence of writes that commits or aborts.  Over any
    protocol that keeps the promises of [TransactionSpec], the rows after a
    series of transactions are those the committed ones describe, one after
    the other. *)
From S2P Require Import Prelude Utils Records Tx.

Module TxSerial.
Import Records Tx.

Section programs.
Context `{TX : Transaction}.
Implicit Types s : tx.

(** One write, as the transactions make them. *)
Inductive op := Insert (k : table * Z) (r : record) | Update (k : table * Z) (f : record → record) | Delete (k : table * Z) | Append (r : record).

Definition do_op s (o : op) : outcome tx :=
  match o with
  | Insert k r =>
      '(_, p, s) ← prepare_record_for_insert s k.1 k.2; l ← deref p; s ← store s l r; '(_, s) ← finish_insert s p; Ok s
  | Update k f =>
      '(_, p, s) ← prepare_record_for_update s k.1 k.2; l ← deref p; r ← load s l; s ← store s l (f r); '(_, s) ← finish_update s p; Ok s
  | Delete k => '(_, s) ← prepare_record_for_delete s k.1 k.2; '(_, s) ← finish_delete s None; Ok s
  | Append r =>
      '(_, p, s) ← prepare_history_for_insert s; l ← deref p; s ← store s l r; '(_, s) ← finish_insert s p; Ok s
  end.
Fixpoint do_ops s (os : list op) : outcome tx := match os with [] => Ok s | o :: os => s ← do_op s o; do_ops s os end.

(** The second component: whether it commits. *)
Definition transaction s (t : list op * bool) : outcome tx :=
  s ← do_ops s t.1;
  if t.2 : bool then '(b, s) ← commit s; if b : bool then Ok s else Stuck else abort s.
Fixpoint transactions s (ts : list (list op * bool)) : outcome tx := match ts with [] => Ok s | t :: ts => s ← transaction s t; transactions s ts end.
End programs.

(** ** The specification *)
Section spec.
Context `{HD : Double}.

(** The rows and the history. *)
Definition rows : Type := (table * Z → option record) * list record.
Definition upd (m : table * Z → option record) (k : table * Z) (o : option record) : table * Z → option record :=
  λ k', if decide (k' = k) then o else m k'.

(** A function on the contents of a record. *)
Record respects (f : record → record) : Prop := {
  r_same r r' : same r r' → same (f r) (f r');
  r_table r : table_of (f r) = table_of r;
  r_sized r : sized r → sized (f r);
  r_terminated r : terminated r → terminated (f r)
}.

Inductive spec_op : rows → op → rows → Prop :=
| SInsert m h k r : k.1 ≠ THistory → m k = None → table_of r = k.1 → well_formed r → spec_op (m, h) (Insert k r) (upd m k (Some r), h)
| SUpdate m h k r f : k.1 ≠ THistory → m k = Some r → respects f → spec_op (m, h) (Update k f) (upd m k (Some (f r)), h)
| SDelete m h k r : k.1 ≠ THistory → m k = Some r → spec_op (m, h) (Delete k) (upd m k None, h)
| SAppend m h r : table_of r = THistory → sized r → spec_op (m, h) (Append r) (m, h ++ [r]).
Inductive spec_ops : rows → list op → rows → Prop :=
| SNil m : spec_ops m [] m
| SCons m o m' os m'' : spec_op m o m' → spec_ops m' os m'' → spec_ops m (o :: os) m''.
(** An aborted transaction could have done its writes, and leaves nothing. *)
Inductive spec_transactions : rows → list (list op * bool) → rows → Prop :=
| TNil m : spec_transactions m [] m
| TCommit m os m' ts m'' : spec_ops m os m' → spec_transactions m' ts m'' → spec_transactions m ((os, true) :: ts) m''
| TAbort m os m' ts m'' : spec_ops m os m' → spec_transactions m ts m'' → spec_transactions m ((os, false) :: ts) m''.
End spec.

Section serial.
Context `{TS : TransactionSpec}.
Implicit Types s : tx.

(** The contents of what a transaction will leave. *)
Record stands s (b : table * Z → option record) (h0 : list (option record)) (m : rows) : Prop := {
  st_ok : ok s;
  st_base k : base s k = b k;
  st_hist : hist s = h0;
  st_view k : norm <$> view s (TRow k) = norm <$> m.1 k;
  st_clean k r : view s (TRow k) = Some r → terminated r;
  st_new : h0 ++ ((λ i, view s (THist i)) <$> seq 0 (pending s)) = Some <$> m.2
}.

Lemma wrote_trans x o o' s s' s'' : wrote x o s s' → wrote x o' s' s'' → wrote x o' s s''.
Proof.
  intros [? V B R P H N] [Ok' V' B' R' P' H' N']. split; [exact Ok'|intros y|intros k|intros l k|intros l y Hy| |].
  - rewrite V', V. by case_decide.
  - by rewrite B', B.
  - intros Hr. by apply R', R.
  - intros Hp. by apply P', P.
  - by rewrite H', H.
  - rewrite N', N. destruct x; [done|lia].
Qed.

Lemma fmap_same (o : option record) r : norm <$> o = norm <$> Some r → ∃ r', o = Some r' ∧ same r' r.
Proof. destruct o as [r'|]; [|done]. intros [= H]. by exists r'. Qed.

(** A row is written. *)
Lemma stands_row s s' b h0 (m : (table * Z → option record) * list record) k o o' : stands s b h0 m → wrote (TRow k) o s s' → norm <$> o = norm <$> o' → (∀ r, o = Some r → terminated r) →
  stands s' b h0 (upd m.1 k o', m.2).
Proof.
  intros [Hok Hb Hh Hv Hc Hn] [Ok V B _ _ H N] Ho Ht. split; try done.
  - intros k'. by rewrite B.
  - by rewrite H.
  - intros k'. simpl. unfold upd. rewrite V. destruct (decide (k' = k)) as [->|]; [by rewrite decide_True|by rewrite decide_False by congruence].
  - intros k' r. rewrite V. case_decide; [apply Ht|apply Hc].
  - simpl. rewrite <-Hn, N. f_equal. apply list_fmap_ext. intros j i _. rewrite V. by rewrite decide_False.
Qed.

Lemma do_op_ok s b h0 m o m' : stands s b h0 m → spec_op m o m' → ∃ s', do_op s o = Ok s' ∧ stands s' b h0 m'.
Proof.
  intros Hs Hop. pose proof (st_ok _ _ _ _ Hs) as Hok. destruct Hop as [m h k r Hk Hm Ht [Hz Hte]|m h k r f Hk Hm Hf|m h k r Hk Hm|m h r Ht Hz]; simpl.
  - pose proof (st_view _ _ _ _ Hs k) as Hv. simpl in Hv. rewrite Hm in Hv. apply fmap_None in Hv.
    destruct (insert_row s k Hok Hk Hv) as (l & s1 & r1 & -> & W1 & P1). simpl.
    destruct (store_points s1 l (TRow k) r (wrote_ok _ _ _ _ _ _ _ _ _ _ _ W1) P1 Ht Hz) as (s2 & -> & W2 & _). simpl.
    destruct (finish_ok s2 (Some l)) as (-> & _ & _). exists s2. split; [done|]. eapply (stands_row _ _ _ _ (m, h)); [done|by eapply wrote_trans|done|]. by intros ? [= <-].
  - pose proof (st_view _ _ _ _ Hs k) as Hv. simpl in Hv. rewrite Hm in Hv. apply fmap_same in Hv as (r0 & Hv & Hr0).
    destruct (update_row s k r0 Hok Hk Hv) as (l & s1 & r1 & -> & W1 & P1 & Hr1 & Hte). simpl.
    pose proof (wrote_ok _ _ _ _ _ _ _ _ _ _ _ W1) as Hok1. destruct (load_points s1 l (TRow k) Hok1 P1) as (r2 & Hr2 & ->). simpl.
    assert (r2 = r1) as ->. { rewrite (wrote_view _ _ _ _ _ _ _ _ _ _ _ W1), decide_True in Hr2 by done. congruence. }
    destruct (view_typed s1 _ _ Hok1 Hr2) as [Ht Hz].
    destruct (store_points s1 l (TRow k) (f r1) Hok1 P1) as (s2 & -> & W2 & _); [by rewrite r_table|by apply r_sized|]. simpl.
    destruct (finish_ok s2 (Some l)) as (_ & -> & _). exists s2. split; [done|]. eapply (stands_row _ _ _ _ (m, h)); [done|by eapply wrote_trans| |].
    + simpl. f_equal. apply (r_same _ Hf). by rewrite Hr1, Hr0.
    + intros ? [= <-]. apply (r_terminated _ Hf), Hte. by eapply st_clean.
  - pose proof (st_view _ _ _ _ Hs k) as Hv. simpl in Hv. rewrite Hm in Hv. apply fmap_same in Hv as (r0 & Hv & Hr0).
    destruct (delete_row s k r0 Hok Hk Hv) as (s1 & -> & W1). simpl. destruct (finish_ok s1 None) as (_ & _ & ->).
    exists s1. split; [done|]. by eapply (stands_row _ _ _ _ (m, h)).
  - destruct (insert_history s Hok) as (l & s1 & r1 & -> & W1 & P1). simpl.
    destruct (store_points s1 l _ r (wrote_ok _ _ _ _ _ _ _ _ _ _ _ W1) P1 Ht Hz) as (s2 & -> & W2 & _). simpl.
    destruct (finish_ok s2 (Some l)) as (-> & _ & _). exists s2. split; [done|].
    destruct Hs as [_ Hb Hh Hv Hc Hn], (wrote_trans _ _ _ _ _ _ W1 W2) as [Ok V B _ _ H N]. split; try done.
    + intros k. by rewrite B.
    + by rewrite H.
    + intros k. rewrite V, decide_False by done. apply Hv.
    + intros k r0. rewrite V, decide_False by done. apply Hc.
    + rewrite N, Nat.max_r by lia. rewrite seq_S, fmap_app, app_assoc. simpl. rewrite V, decide_True by done. rewrite fmap_app. f_equal.
      simpl in Hn. rewrite <-Hn. f_equal. apply list_fmap_ext. intros j i Hi. rewrite V, decide_False; [done|]. intros [= ->]. apply lookup_seq in Hi. lia.
Qed.

Lemma do_ops_ok s b h0 m os m' : stands s b h0 m → spec_ops m os m' → ∃ s', do_ops s os = Ok s' ∧ stands s' b h0 m'.
Proof.
  intros Hs Hop. revert s Hs. induction Hop as [m|m o m1 os m2 Ho _ IH]; intros s Hs; [by exists s|].
  destruct (do_op_ok _ _ _ _ _ _ Hs Ho) as (s1 & E & Hs1). destruct (IH s1 Hs1) as (s2 & E2 & Hs2). exists s2. simpl. by rewrite E.
Qed.

(** The rows a transaction finds. *)
Record holds s (m : rows) : Prop := {
  h_ok : ok s;
  h_idle : idle s;
  h_base k : norm <$> base s k = norm <$> m.1 k;
  h_hist : hist s = Some <$> m.2
}.
Lemma holds_stands s m : holds s m → stands s (base s) (hist s) m.
Proof.
  intros [Hok Hid Hb Hh]. split; try done.
  - intros k. by rewrite idle_view.
  - intros k r. rewrite idle_view by done. intros H. by destruct (base_typed s k r Hok H) as (_ & _ & ?).
  - rewrite idle_pending by done. by rewrite app_nil_r.
Qed.

Lemma transactions_ok ts s m m' : holds s m → spec_transactions m ts m' → ∃ s', transactions s ts = Ok s' ∧ holds s' m'.
Proof.
  intros Hs Hts. revert s Hs. induction Hts as [m|m os m1 ts m2 Ho _ IH|m os m1 ts m2 Ho _ IH]; intros s Hs; [by exists s|..].
  - destruct (do_ops_ok _ _ _ _ _ _ (holds_stands _ _ Hs) Ho) as (s1 & E & [Ok Hb Hh Hv Hc Hn]).
    destruct (commit_ok s1 Ok Hc) as (s2 & E2 & Ok2 & I2 & B2 & H2). destruct (IH s2) as (s3 & E3 & Hs3).
    + split; try done; [intros k; by rewrite B2|]. by rewrite H2, Hh.
    + exists s3. unfold transactions, transaction. simpl. rewrite E. simpl. rewrite E2. done.
  - destruct (do_ops_ok _ _ _ _ _ _ (holds_stands _ _ Hs) Ho) as (s1 & E & [Ok Hb Hh Hv Hc Hn]).
    destruct (abort_ok s1 Ok) as (s2 & E2 & Ok2 & I2 & B2 & H2). destruct (IH s2) as (s3 & E3 & Hs3).
    + destruct Hs as [_ _ Hb0 Hh0]. split; try done; [intros k; by rewrite B2, Hb|]. by rewrite H2, Hh.
    + exists s3. unfold transactions, transaction. simpl. rewrite E. simpl. rewrite E2. done.
Qed.
End serial.
End TxSerial.
