(* ===== verification/TpccRules.v ===== *)
(** * TPC-C: rules for the steps of a transaction

    A transaction of TPC-C over any protocol with [TransactionSpec]: [St] says
    what its writes have made of the rows so far, which pointers it holds and
    that no entry but one lacks its strings; one rule per step.  Rows are
    compared by their columns but [ol_dist_info], which a copy of a stock row
    does not bring along. *)
From S2P Require Import Prelude BitFields Utils Records RecordGen Tx Tpcc.

Module TpccRules.
Import Records Tx Tpcc.

(** *** Columns *)
Section cols.
Context `{HD : Double}.
Implicit Types r : record.

Definition cols r : record :=
  match norm r with
  | ROrderLine l => ROrderLine (mkOrderLine (ol_w_id l) (ol_d_id l) (ol_o_id l) (ol_number l) (ol_i_id l) (ol_supply_w_id l)
      (ol_delivery_d l) (ol_quantity l) (ol_amount l) [])
  | r => r
  end.
Definition eqv (o o' : option record) : Prop := cols <$> o = cols <$> o'.
#[global] Instance eqv_equiv : Equivalence eqv.
Proof. unfold eqv. split; [by intros ?|by intros ? ? ->|by intros ? ? ? -> ->]. Qed.

Lemma same_cols r r' : same r r' → cols r = cols r'.
Proof. unfold same, cols. by intros ->. Qed.
Lemma eqv_some o r : eqv o (Some r) → ∃ r', o = Some r' ∧ cols r' = cols r.
Proof. destruct o as [r'|]; [|done]. intros [= H]. by exists r'. Qed.
Lemma eqv_none o : eqv o None → o = None.
Proof. by destruct o. Qed.

(** The columns of the records of a table. *)
Lemma cols_warehouse r w : cols r = cols (RWarehouse w) → ∃ w', r = RWarehouse w' ∧ norm (RWarehouse w') = norm (RWarehouse w).
Proof. destruct r as [| w' | | | | | | |]; try discriminate. intros H. by exists w'. Qed.
Lemma cols_district r d : cols r = cols (RDistrict d) → ∃ d', r = RDistrict d' ∧ norm (RDistrict d') = norm (RDistrict d).
Proof. destruct r as [| | | d' | | | | |]; try discriminate. intros H. by exists d'. Qed.
Lemma cols_customer r d : cols r = cols (RCustomer d) → ∃ d', r = RCustomer d' ∧ norm (RCustomer d') = norm (RCustomer d).
Proof. destruct r as [| | | | d' | | | |]; try discriminate. intros H. by exists d'. Qed.
Lemma cols_stock r d : cols r = cols (RStock d) → ∃ d', r = RStock d' ∧ norm (RStock d') = norm (RStock d).
Proof. destruct r as [| | d' | | | | | |]; try discriminate. intros H. by exists d'. Qed.
Lemma cols_item r d : cols r = cols (RItem d) → ∃ d', r = RItem d' ∧ norm (RItem d') = norm (RItem d).
Proof. destruct r as [d' | | | | | | | |]; try discriminate. intros H. by exists d'. Qed.
End cols.

Definition upd {HD : Double} (m : target → option record) (x : target) (o : option record) : target → option record :=
  λ y, if decide (y = x) then o else m y.

Section rules.
Context `{TS : TransactionSpec} (c : Config) (Hc : does_random_abort c = false).
Context (b : table * Z → option record) (h : list (option record)) (stat : PerTxType).
Implicit Types (w : world) (m : target → option record) (n : nat) (ps : list (loc * target)) (rs : list (loc * (table * Z))) (dirty : option target).

Record St w m n ps rs dirty : Prop := {
  st_ok : ok (w_tx w);
  st_base k : eqv (base (w_tx w) k) (b k);
  st_view x : eqv (view (w_tx w) x) (m x);
  st_points : Forall (λ p, points (w_tx w) p.1 p.2) ps;
  st_once : NoDup ps.*2;
  st_reads : Forall (λ p, reads (w_tx w) p.1 p.2) rs;
  st_clean k r : dirty ≠ Some (TRow k) → view (w_tx w) (TRow k) = Some r → terminated r;
  st_hist : hist (w_tx w) = h;
  st_pending : pending (w_tx w) = n;
  st_stat : w_stat w = stat
}.

(** [m] returns a value in [Q]. *)
Definition wp {A} (e : M A) w (Q : A → world → Prop) : Prop := ∃ a w', e w = Ok (inr a, w') ∧ Q a w'.

Lemma wp_ret {A} (a : A) w Q : Q a w → wp (mret a) w Q.
Proof. intros HQ. by exists a, w. Qed.
Lemma wp_bind {A B} (e : M A) (f : A → M B) w Q : wp e w (λ a w', wp (f a) w' Q) → wp (e ≫= f) w Q.
Proof. intros (a & w1 & E & a2 & w2 & E2 & HQ). exists a2, w2. unfold mbind, M_bind. rewrite E. done. Qed.
Lemma wp_out {A} (o : outcome A) a w Q : o = Ok a → Q a w → wp (out_of o) w Q.
Proof. intros -> HQ. by exists a, w. Qed.
Lemma wp_weaken {A} (e : M A) w (P Q : A → world → Prop) : wp e w P → (∀ a w', P a w' → Q a w') → wp e w Q.
Proof. intros (a & w' & E & HP) HPQ. exists a, w'. auto. Qed.

(** [m] ends the transaction with a status in [Q]. *)
Definition exits {A} (e : M A) w (Q : Status.t → world → Prop) : Prop := ∃ st w', e w = Ok (inl st, w') ∧ Q st w'.

Lemma exits_after {A B} (e : M A) (f : A → M B) w Q : wp e w (λ a w', exits (f a) w' Q) → exits (e ≫= f) w Q.
Proof. intros (a & w1 & E & st & w2 & E2 & HQ). exists st, w2. unfold mbind, M_bind. rewrite E. done. Qed.
Lemma exits_bind {A B} (e : M A) (f : A → M B) w Q : exits e w Q → exits (e ≫= f) w Q.
Proof. intros (st & w' & E & HQ). exists st, w'. unfold mbind, M_bind. rewrite E. done. Qed.

Lemma St_tx w w' m n ps rs d : w_tx w' = w_tx w → w_stat w' = w_stat w → St w m n ps rs d → St w' m n ps rs d.
Proof. destruct w, w'. simpl. intros -> -> [Hok Hb Hv Hp Ho Hr Hcl Hh Hn Hst]. split; [exact Hok|exact Hb|exact Hv|exact Hp|exact Ho|exact Hr|exact Hcl|exact Hh|exact Hn|exact Hst]. Qed.

Lemma wp_emit vs w m n ps rs d (Q : () → world → Prop) : St w m n ps rs d → (∀ w', St w' m n ps rs d → w_clock w' = w_clock w → Q () w') → wp (emit vs) w Q.
Proof. intros Hs HQ. eexists _, _. split; [done|]. apply HQ; [by apply (St_tx w)|done]. Qed.
Lemma wp_clock w m n ps rs d (Q : Z → world → Prop) : St w m n ps rs d → (∀ w', St w' m n ps rs d → Q (w_clock w) w') → wp get_timestamp w Q.
Proof. intros Hs HQ. eexists _, _. split; [done|]. apply HQ. by apply (St_tx w). Qed.

Lemma check_success id w : check c SUCCESS id w = Ok (inr (), w).
Proof. unfold check, not_succeeded. by rewrite Hc. Qed.

Lemma wp_call {A} (f : tx → outcome (Result * A * tx)) id w a t Q : f (w_tx w) = Ok (SUCCESS, a, t) → Q a (set_tx w t) → wp (call c f id) w Q.
Proof.
  intros E HQ. exists a, (set_tx w t). split; [|done]. unfold call, mbind, M_bind, on_tx. rewrite E. cbn [mbind outcome_bind fst snd].
  by rewrite check_success.
Qed.
Lemma wp_call_ (f : tx → outcome (Result * tx)) id w t Q : f (w_tx w) = Ok (SUCCESS, t) → Q () (set_tx w t) → wp (call_ c f id) w Q.
Proof.
  intros E HQ. exists (), (set_tx w t). split; [|done]. unfold call_, mbind, M_bind, on_tx. rewrite E. cbn [mbind outcome_bind fst snd].
  by rewrite check_success.
Qed.

(** The [finish] calls do nothing here. *)
Lemma set_tx_same w : set_tx w (w_tx w) = w.
Proof. by destruct w. Qed.
Lemma wp_finish_insert p id w Q : Q () w → wp (call_ c (λ t, finish_insert t p) id) w Q.
Proof. intros HQ. eapply wp_call_; [apply finish_ok|]. by rewrite set_tx_same. Qed.
Lemma wp_finish_update p id w Q : Q () w → wp (call_ c (λ t, finish_update t p) id) w Q.
Proof. intros HQ. eapply wp_call_; [apply finish_ok|]. by rewrite set_tx_same. Qed.

(** *** Rules *)
Lemma wp_get_record tb key r id w m n ps rs d (Q : Ptr → world → Prop) : St w m n ps rs d → b (tb, key) = Some r →
  (∀ l, St w m n ps ((l, (tb, key)) :: rs) d → Q (Some l) w) → wp (call c (λ t, get_record t tb key) id) w Q.
Proof.
  intros Hs Hr HQ. pose proof (st_base _ _ _ _ _ _ Hs (tb, key)) as Hb. rewrite Hr in Hb. apply eqv_some in Hb as (r' & Hb & _).
  destruct (get_record_row (w_tx w) (tb, key) r' (st_ok _ _ _ _ _ _ Hs) Hb) as (l & E & Hl). eapply wp_call; [exact E|].
  rewrite set_tx_same. apply HQ. destruct Hs. split; try done. by constructor.
Qed.

Lemma wrote_St w t m n ps rs d x o o' : St w m n ps rs d → wrote x o (w_tx w) t → eqv o o' → x ∉ ps.*2 →
  (∀ r, o = Some r → d ≠ Some x → terminated r) →
  St (set_tx w t) (upd m x o') (match x with THist i => Nat.max n (S i) | TRow _ => n end) ps rs d.
Proof.
  intros [Hok Hb Hv Hp Ho Hr Hcl Hh Hn Hst] [Ok V B R P H N] Heq Hx Ht. split; simpl; try done.
  - intros k. by rewrite B.
  - intros y. rewrite V. unfold upd. by case_decide.
  - rewrite Forall_forall in Hp. apply Forall_forall. intros [l y] Hin. apply P; [|by apply (Hp (l, y))].
    intros E. apply Hx. simpl in E. rewrite <-E. by apply (list_elem_of_fmap_2 snd _ (l, y)).
  - eapply Forall_impl; [done|]. intros [l k]. apply R.
  - intros k r Hd. rewrite V. case_decide as Hk; [subst; intros E; by eapply Ht|by apply Hcl].
  - by rewrite H.
  - rewrite N, Hn. done.
Qed.

Lemma St_push w m n ps rs d l x : St w m n ps rs d → points (w_tx w) l x → x ∉ ps.*2 → St w m n ((l, x) :: ps) rs d.
Proof. intros [] Hl Hx. split; try done; constructor; done. Qed.
Lemma St_eqv w m m' n ps rs d : St w m n ps rs d → (∀ x, eqv (m x) (m' x)) → St w m' n ps rs d.
Proof. intros [] Hm. split; try done. intros x. by rewrite <-Hm. Qed.

Lemma wp_update tb key r id w m n ps rs (Q : Ptr → world → Prop) : St w m n ps rs None → tb ≠ THistory → m (TRow (tb, key)) = Some r → TRow (tb, key) ∉ ps.*2 →
  (∀ l w', St w' m n ((l, TRow (tb, key)) :: ps) rs None → w_clock w' = w_clock w → Q (Some l) w') →
  wp (call c (λ t, prepare_record_for_update t tb key) id) w Q.
Proof.
  intros Hs Ht Hm Hx HQ. pose proof (st_view _ _ _ _ _ _ Hs (TRow (tb, key))) as Hv. rewrite Hm in Hv. apply eqv_some in Hv as (r1 & Hv & Hr1).
  destruct (update_row (w_tx w) (tb, key) r1 (st_ok _ _ _ _ _ _ Hs) Ht Hv) as (l & t & r2 & E & W & P & Hsame & Hte).
  eapply wp_call; [exact E|]. apply HQ; [|done]. apply St_push; [|done|done].
  eapply St_eqv; [eapply (wrote_St _ _ _ _ _ _ _ (TRow (tb, key)) (Some r2) (Some r) Hs W)|].
  - unfold eqv. simpl. f_equal. rewrite <-Hr1. by apply same_cols.
  - done.
  - intros ? [= <-] _. apply Hte. by eapply (st_clean _ _ _ _ _ _ Hs).
  - intros x. unfold upd. case_decide as Hd; [by rewrite Hd, Hm|done].
Qed.

Lemma wp_insert tb key id w m n ps rs (Q : Ptr → world → Prop) : St w m n ps rs None → tb ≠ THistory → m (TRow (tb, key)) = None → TRow (tb, key) ∉ ps.*2 →
  (∀ l w' r, St w' (upd m (TRow (tb, key)) (Some r)) n ((l, TRow (tb, key)) :: ps) rs (Some (TRow (tb, key))) → w_clock w' = w_clock w → Q (Some l) w') →
  wp (call c (λ t, prepare_record_for_insert t tb key) id) w Q.
Proof.
  intros Hs Ht Hm Hx HQ. pose proof (st_view _ _ _ _ _ _ Hs (TRow (tb, key))) as Hv. rewrite Hm in Hv. apply eqv_none in Hv.
  destruct (insert_row (w_tx w) (tb, key) (st_ok _ _ _ _ _ _ Hs) Ht Hv) as (l & t & r & E & W & P).
  eapply wp_call; [exact E|]. apply (HQ l _ r); [|done]. apply St_push; [|done|done].
  assert (St w m n ps rs (Some (TRow (tb, key)))) as Hs'. { destruct Hs. split; try done. intros k r' _. by apply st_clean0. }
  by eapply (wrote_St _ _ _ _ _ _ _ (TRow (tb, key)) (Some r) (Some r) Hs' W).
Qed.

Lemma wp_insert_history id w m ps rs (Q : Ptr → world → Prop) n : St w m n ps rs None → THist n ∉ ps.*2 →
  (∀ l w' r, St w' (upd m (THist n) (Some r)) (S n) ((l, THist n) :: ps) rs None → w_clock w' = w_clock w → Q (Some l) w') →
  wp (call c prepare_history_for_insert id) w Q.
Proof.
  intros Hs Hx HQ. destruct (insert_history (w_tx w) (st_ok _ _ _ _ _ _ Hs)) as (l & t & r & E & W & P). rewrite (st_pending _ _ _ _ _ _ Hs) in *.
  eapply wp_call; [exact E|]. apply (HQ l _ r); [|done]. apply St_push; [|done|done].
  assert (St w m n ps rs (Some (THist n))) as Hs'. { destruct Hs. split; try done. intros k r' _. by apply st_clean0. }
  pose proof (wrote_St _ _ _ _ _ _ _ (THist n) (Some r) (Some r) Hs' W) as H. simpl in H. rewrite Nat.max_r in H by lia.
  destruct H; [done|done|done|]. split; try done. intros k r' _. by apply st_clean0.
Qed.

(** Reading through a pointer to a write, and to a row. *)
Lemma wp_read {A} (cast : record → option A) l x r w m n ps rs d (Q : A → world → Prop) : St w m n ps rs d → (l, x) ∈ ps → m x = Some r →
  (∀ r', cols r' = cols r → table_of r' = target_table x → sized r' → (∀ k, x = TRow k → d ≠ Some x → terminated r') → ∃ a, cast r' = Some a ∧ Q a w) →
  wp (read cast (Some l)) w Q.
Proof.
  intros Hs Hl Hm HQ. pose proof (st_view _ _ _ _ _ _ Hs x) as Hv. rewrite Hm in Hv. apply eqv_some in Hv as (r1 & Hv & Hr1).
  pose proof (st_points _ _ _ _ _ _ Hs) as Hp. rewrite Forall_forall in Hp. specialize (Hp _ Hl). simpl in Hp.
  destruct (load_points _ _ _ (st_ok _ _ _ _ _ _ Hs) Hp) as (r2 & Hr2 & E). assert (r2 = r1) as -> by congruence.
  destruct (view_typed _ _ _ (st_ok _ _ _ _ _ _ Hs) Hv) as [Ht Hz]. destruct (HQ r1 Hr1 Ht Hz) as (a & Ha & HQa).
  { intros k -> Hd. by eapply (st_clean _ _ _ _ _ _ Hs). }
  exists a, w. split; [|done]. unfold read. simpl. rewrite E. simpl. by rewrite Ha.
Qed.
Lemma wp_read_row {A} (cast : record → option A) l k r w m n ps rs d (Q : A → world → Prop) : St w m n ps rs d → (l, k) ∈ rs → b k = Some r →
  (∀ r', cols r' = cols r → well_formed r' → ∃ a, cast r' = Some a ∧ Q a w) →
  wp (read cast (Some l)) w Q.
Proof.
  intros Hs Hl Hm HQ. pose proof (st_base _ _ _ _ _ _ Hs k) as Hv. rewrite Hm in Hv. apply eqv_some in Hv as (r1 & Hv & Hr1).
  pose proof (st_reads _ _ _ _ _ _ Hs) as Hp. rewrite Forall_forall in Hp. specialize (Hp _ Hl). simpl in Hp.
  destruct (load_reads _ _ _ (st_ok _ _ _ _ _ _ Hs) Hp) as (r2 & Hr2 & E). assert (r2 = r1) as -> by congruence.
  destruct (base_typed _ _ _ (st_ok _ _ _ _ _ _ Hs) Hv) as [_ Hz]. destruct (HQ r1 Hr1 Hz) as (a & Ha & HQa).
  exists a, w. split; [|done]. unfold read. simpl. rewrite E. simpl. by rewrite Ha.
Qed.

(** Writing through a pointer. *)
Lemma wp_write l x r r0 w m n ps rs d (Q : () → world → Prop) : St w m n ps rs d → (l, x) ∈ ps → (d = None ∨ d = Some x) →
  table_of r = target_table x → sized r → terminated r → cols r = cols r0 → (match x with THist i => (i < n)%nat | TRow _ => True end) →
  (∀ w', St w' (upd m x (Some r0)) n ps rs None → w_clock w' = w_clock w → Q () w') →
  wp (write (Some l) r) w Q.
Proof.
  clear c Hc.
  intros Hs Hl Hd Ht Hz Hte Heq Hi HQ. pose proof (st_points _ _ _ _ _ _ Hs) as Hp. rewrite Forall_forall in Hp. specialize (Hp _ Hl). simpl in Hp.
  destruct (store_points _ _ _ r (st_ok _ _ _ _ _ _ Hs) Hp Ht Hz) as (t & E & W & P).
  exists (), (set_tx w t). unfold write. simpl. rewrite E. split; [done|]. apply HQ; [|done].
  destruct Hs as [Hok Hb Hv Hps Ho Hr Hcl Hh Hn Hst], W as [Ok V B R P' H N]. split; simpl; try done.
  - intros k. by rewrite B.
  - intros y. rewrite V. unfold upd. case_decide; [unfold eqv; simpl; by rewrite Heq|done].
  - rewrite Forall_forall in Hps. apply Forall_forall. intros [l' y] Hin. simpl. destruct (decide (y = x)) as [->|Hne]; [|by apply P', (Hps (l', y))].
    assert (l' = l) as ->; [|done]. apply list_elem_of_lookup in Hin as [i1 H1]. apply list_elem_of_lookup in Hl as [i2 H2].
    assert (i1 = i2) as -> by (eapply (NoDup_lookup ps.*2); [done|rewrite list_lookup_fmap, H1; done|rewrite list_lookup_fmap, H2; done]). congruence.
  - eapply Forall_impl; [done|]. intros [l' k]. apply R.
  - intros k r' _. rewrite V. case_decide as Hk; [by intros [= <-]|]. apply Hcl. destruct Hd as [->| ->]; congruence.
  - by rewrite H.
  - rewrite N, Hn. destruct x; [done|lia].
Qed.

(** Pointers that are not used any more. *)
Lemma St_drop qs qs' w m n ps rs d : St w m n (qs ++ ps) (qs' ++ rs) d → St w m n ps rs d.
Proof.
  intros [Hok Hb Hv Hps Ho Hr Hcl Hh Hn Hst]. split; try done.
  - by apply Forall_app in Hps as [_ ?].
  - rewrite fmap_app in Ho. by apply NoDup_app in Ho as (_ & _ & ?).
  - by apply Forall_app in Hr as [_ ?].
Qed.

(** The beginning. *)
Lemma idle_St w : ok (w_tx w) → idle (w_tx w) → (∀ k, eqv (base (w_tx w) k) (b k)) → hist (w_tx w) = h → w_stat w = stat →
  St w (λ x, match x with TRow k => b k | THist _ => None end) 0 [] [] None.
Proof.
  clear c Hc. intros Hok Hid Hb Hh Hst. split; [done|done| |constructor|apply NoDup_nil_2|constructor| |done|by apply idle_pending|done].
  - intros [k|i]; [by rewrite idle_view|by rewrite idle_history].
  - intros k r _ Hv. rewrite idle_view in Hv by done. by destruct (base_typed _ _ _ Hok Hv) as (_ & _ & ?).
Qed.

(** The end: the transaction commits. *)
Lemma commit_rule id time w m n ps rs : St w m n ps rs None →
  ∃ w', helper_commit id time w = Ok (inr Status.SUCCESS, w') ∧ ok (w_tx w') ∧ idle (w_tx w') ∧ (∀ k, eqv (base (w_tx w') k) (m (TRow k))) ∧
    (∃ h', hist (w_tx w') = h ++ h' ∧ length h' = n ∧ ∀ i, (i < n)%nat → ∃ o, h' !! i = Some o ∧ eqv o (m (THist i))) ∧
    num_commits (w_stat w') = u64 (num_commits stat + 1).
Proof.
  intros [Hok Hb Hv Hps Ho Hr Hcl Hh Hn Hst]. destruct (commit_ok (w_tx w) Hok) as (t & E & Ok & I & B & H); [intros k r; by apply Hcl|].
  unfold helper_commit, mbind, M_bind, on_tx. rewrite E. eexists. split; [reflexivity|]. simpl. split_and!; try done.
  - intros k. by rewrite B.
  - rewrite H, Hh, Hn. eexists. split; [done|]. rewrite length_fmap, length_seq. split; [done|]. intros i Hi.
    eexists. rewrite list_lookup_fmap, lookup_seq_lt by done. split; [done|]. apply Hv.
  - by rewrite Hst.
Qed.
End rules.
End TpccRules.
