(* ===== verification/TpccNewOrder.v ===== *)
(** * TPC-C: what a new order does

    The new-order transaction over any protocol with [TransactionSpec]: when
    the rows it needs exist it commits, and the rows it leaves are those of
    [neworder_spec]; with an unused item it is rolled back. *)
From S2P Require Import Prelude BitFields Utils Records RecordGen Tx Tpcc TpccRules.

Module TpccNewOrder.
Import Records Tx Tpcc TpccRules Tpcc.NewOrderTx.

(** ** The rows afterwards *)
Section spec.
Context `{HD : Double} (b : table * Z → option record) (i : Input).
Implicit Types (it : item) (m : target → option record).

Definition stock_key it : table * Z := (TStock, StockKey.create_key (ol_supply_w_id it) (ol_i_id it)).
Definition item_key it : table * Z := (TItem, ItemKey_create_key (ol_i_id it)).
Definition line_key (o n : Z) : table * Z := (TOrderLine, OrderLineKey.create_key (w_id i) (d_id i) o n).
Definition district_key : table * Z := (TDistrict, DistrictKey.create_key (w_id i) (d_id i)).
Definition neworder_key (o : Z) : table * Z := (TNewOrder, NewOrderKey.create_key (w_id i) (d_id i) o).
Definition order_key (o : Z) : table * Z := (TOrder, OrderKey.create_key (w_id i) (d_id i) o).

(** A line takes its quantity from the stock and enters the order. *)
Definition line_of (o n : Z) it (price : double) : OrderLine :=
  mkOrderLine (w_id i) (d_id i) o n (ol_i_id it) (ol_supply_w_id it) 0 (ol_quantity it) (d_mul (d_of_Z (ol_quantity it)) price) [].
(** The stock is filled up by 91 when fewer than eleven would be left. *)
Definition sold (s : Stock) (n : Z) (remote : bool) : Stock :=
  mkStock (s_w_id s) (s_i_id s) (swrap 16 (s_quantity s - n + (if s_quantity s - n <=? 10 then 91 else 0))) (u32 (s_ytd s + n))
    (u16 (s_order_cnt s + 1)) (if remote then u16 (s_remote_cnt s + 1) else s_remote_cnt s) (s_dist s) (s_data s).
Definition line_spec (o n : Z) it m : target → option record :=
  match m (TRow (stock_key it)), b (item_key it) with
  | Some (RStock s), Some (RItem im) =>
      upd (upd m (TRow (stock_key it)) (Some (RStock (sold s (ol_quantity it) (is_remote i)))))
        (TRow (line_key o n)) (Some (ROrderLine (line_of o n it (i_price im))))
  | _, _ => m
  end.
Fixpoint lines_spec (o n : Z) (its : list item) m : target → option record :=
  match its with [] => m | it :: its => lines_spec o (n + 1) its (line_spec o n it m) end.

Definition at_start : target → option record := λ x, match x with TRow k => b k | THist _ => None end.
Definition neworder_spec (now : Z) : target → option record :=
  match b district_key with
  | Some (RDistrict d) =>
      let o := d_next_o_id d in
      lines_spec o 1 (items i)
        (upd (upd (upd at_start (TRow district_key) (Some (RDistrict (set_next_o_id d (u32 (o + 1))))))
          (TRow (neworder_key o)) (Some (RNewOrder (mkNewOrder (w_id i) (d_id i) o))))
          (TRow (order_key o)) (Some (ROrder (mkOrder (w_id i) (d_id i) o (c_id i) 0 (ol_cnt i) (if is_remote i then 0 else 1) now))))
  | _ => at_start
  end.

(** The rows the transaction needs, and those it inserts. *)
Record ready : Prop := {
  rd_warehouse : ∃ w, b (TWarehouse, WarehouseKey_create_key (w_id i)) = Some (RWarehouse w);
  rd_customer : ∃ cu, b (TCustomer, CustomerKey.create_key (w_id i) (d_id i) (c_id i)) = Some (RCustomer cu);
  rd_district : ∃ d, b district_key = Some (RDistrict d) ∧ b (neworder_key (d_next_o_id d)) = None ∧ b (order_key (d_next_o_id d)) = None ∧
    ∀ n, 1 ≤ n ≤ ol_cnt i → b (line_key (d_next_o_id d) n) = None;
  rd_d_id : 1 ≤ d_id i ≤ 10;
  rd_cnt : Z.of_nat (length (items i)) = ol_cnt i ∧ ol_cnt i ≤ 15;
  rd_items : Forall (λ it, ol_i_id it ≠ UNUSED_ID ∧ (∃ im, b (item_key it) = Some (RItem im)) ∧ ∃ s, b (stock_key it) = Some (RStock s)) (items i)
}.
End spec.

Section neworder.
Context `{TS : TransactionSpec} (c : Config) (Hc : does_random_abort c = false).
Context (b : table * Z → option record) (h : list (option record)) (stat : PerTxType) (i : Input).
Implicit Types (w : world) (m : target → option record) (ps : list (loc * target)) (rs : list (loc * (table * Z))).

Lemma line_key_inj o n n' : 1 ≤ n ≤ 15 → 1 ≤ n' ≤ 15 → line_key i o n = line_key i o n' → n = n'.
Proof.
  intros Hn Hn' [= H]. assert (∀ n, get_field OrderLineKey.ol_number (OrderLineKey.create_key (w_id i) (d_id i) o n) = u8 n) as Hg.
  { intros. unfold OrderLineKey.create_key. by fields. }
  pose proof (Hg n) as H1. rewrite H, Hg in H1. rewrite !wrap_small in H1 by (unfold word; lia). done.
Qed.

Lemma modify_stock_sold s q r : modify_stock s q r = sold s q r.
Proof.
  unfold modify_stock, sold. f_equal. f_equal. destruct (Z.ltb_spec (q + 10) (s_quantity s)), (Z.leb_spec (s_quantity s - q) 10); lia.
Qed.
Lemma modify_stock_norm s s' q r : norm (RStock s) = norm (RStock s') → norm (RStock (modify_stock s q r)) = norm (RStock (sold s' q r)).
Proof.
  rewrite modify_stock_sold. destruct s, s'. unfold norm, sold. cbn -[take str sizeof_int]. generalize sizeof_int. intros k H. injection H. intros. subst. by do 2 f_equal.
Qed.
Lemma norm_cols r r' : norm r = norm r' → cols r = cols r'.
Proof. unfold cols. by intros ->. Qed.

Lemma create_orderline_ok ol o n it amount s : 1 ≤ d_id i ≤ 10 → sized (ROrderLine ol) →
  ∃ ol', create_orderline ol (w_id i) (d_id i) o n (ol_i_id it) (ol_supply_w_id it) (ol_quantity it) amount s = Ok ol' ∧
    cols (ROrderLine ol') = ROrderLine (mkOrderLine (w_id i) (d_id i) o n (ol_i_id it) (ol_supply_w_id it) 0 (ol_quantity it) amount []) ∧
    sized (ROrderLine ol') ∧ terminated (ROrderLine ol').
Proof.
  intros Hd [Hf _]. apply Forall_cons in Hf as [Hf _]. unfold fits in Hf. simpl in Hf. unfold create_orderline, dist_info. rewrite assert_Ok by lia.
  eexists. split; [reflexivity|]. split; [done|]. unfold sized, terminated, fits, ends. cbn -[copy_cstr drop]. rewrite !Forall_cons. cbn -[copy_cstr drop].
  rewrite length_copy_cstr. split_and!; [done|constructor|done| |constructor].
  rewrite str_copy_cstr by lia. rewrite length_take. lia.
Qed.

(** The pass of the loop for one line. *)
Lemma order_line_ok o n it s im total w m ps rs (Q : double → world → Prop) :
  St b h stat w m 0 ps rs None → items i !! Z.to_nat (n - 1) = Some it → ol_i_id it ≠ UNUSED_ID → 1 ≤ d_id i ≤ 10 →
  m (TRow (stock_key it)) = Some (RStock s) → b (item_key it) = Some (RItem im) → m (TRow (line_key i o n)) = None →
  (∀ x, x ∈ ps.*2 → x ≠ TRow (stock_key it) ∧ x ≠ TRow (line_key i o n)) →
  (∀ total' w', St b h stat w' (line_spec b i o n it m) 0 ps rs None → w_clock w' = w_clock w → Q total' w') →
  wp (order_line c i o n total) w Q.
Proof.
  intros Hs Hit Hu Hd Hm Hb Hl Hps HQ. unfold order_line.
  eapply wp_bind, wp_out; [by rewrite Hit|]. destruct (Z.eqb_spec (ol_i_id it) UNUSED_ID) as [?|_]; [done|]. eapply wp_bind, wp_ret.
  eapply wp_bind, (wp_get_record c Hc b h stat); [exact Hs|exact Hb|]. clear Hs. intros ip Hs.
  eapply wp_bind, (wp_update c Hc b h stat); [exact Hs|done|exact Hm|intros H; by destruct (Hps _ H)|]. clear Hs. intros sp w1 Hs Hclk1.
  eapply wp_bind, (wp_read_row b h stat); [exact Hs|by left|exact Hb|]. intros r (im1 & -> & Him)%cols_item _. eexists. split; [done|].
  eapply wp_bind, (wp_read b h stat); [exact Hs|by left|exact Hm|]. intros r (s1 & -> & Hs1)%cols_stock _ Hz1 Ht1. eexists. split; [done|].
  specialize (Ht1 _ eq_refl ltac:(done)).
  eapply wp_bind, (wp_write b h stat) with (x := TRow (stock_key it)) (r0 := RStock (sold s (ol_quantity it) (is_remote i))); [done|by left|by left|done|done|done|by apply norm_cols, modify_stock_norm|done|].
  clear Hs. intros w2 Hs Hclk2. eapply wp_bind, (wp_finish_update c Hc).
  eapply wp_bind, (wp_insert c Hc b h stat); [done|done|by unfold upd; rewrite decide_False by done|intros [H|H]%elem_of_cons; [done|by destruct (Hps _ H)]|].
  clear Hs. intros olp w3 r0 Hs Hclk3.
  set (m' := upd m (TRow (stock_key it)) (Some (RStock (sold s (ol_quantity it) (is_remote i))))) in *.
  eapply wp_bind, (wp_read b h stat); [exact Hs|by left|by unfold upd; rewrite decide_True|].
  intros r _ Ht Hz _. destruct r as [| | | | | | | |ol]; try discriminate Ht. eexists. split; [done|].
  eapply wp_bind, (wp_read b h stat); [exact Hs|right; by left|unfold upd at 1; rewrite decide_False by done; unfold m', upd; by rewrite decide_True|].
  intros r (s2 & -> & Hs2)%cols_stock _ _ _. eexists. split; [done|].
  destruct (create_orderline_ok ol o n it (d_mul (d_of_Z (ol_quantity it)) (i_price im1)) s2 Hd Hz) as (ol' & E & Hcols & Hz' & Hte').
  eapply wp_bind, wp_out; [exact E|].
  eapply wp_bind, (wp_write b h stat) with (x := TRow (line_key i o n)) (r0 := ROrderLine (line_of i o n it (i_price im)));
    [exact Hs|by left|by right|done|done|done| |done|].
  { rewrite Hcols. unfold line_of. injection Him as _ _ -> _ _. done. }
  clear Hs. intros w4 Hs Hclk4. eapply wp_bind, (wp_finish_insert c Hc).
  eapply wp_bind, (wp_read_row b h stat); [exact Hs|by left|exact Hb|]. intros r (im2 & -> & _)%cols_item _. eexists. split; [done|].
  eapply wp_bind, (wp_read b h stat); [exact Hs|right; by left|unfold upd at 1; rewrite decide_False by done; unfold upd at 1; rewrite decide_False by done; unfold m', upd; by rewrite decide_True|].
  intros r (s3 & -> & _)%cols_stock _ _ _. eexists. split; [done|].
  eapply wp_bind, (wp_emit b h stat); [exact Hs|]. clear Hs. intros w5 Hs Hclk5. apply wp_ret. apply HQ; [|congruence].
  eapply St_eqv; [exact (St_drop b h stat [_; _] [_] _ _ _ _ _ _ Hs)|]. intros x.
  unfold line_spec. rewrite Hm, Hb. unfold m', upd. by repeat case_decide.
Qed.

Lemma line_spec_other o n it s im m k : m (TRow (stock_key it)) = Some (RStock s) → b (item_key it) = Some (RItem im) →
  k.1 ≠ TStock → k ≠ line_key i o n → line_spec b i o n it m (TRow k) = m (TRow k).
Proof.
  intros Hst Him Hk Hk'. unfold line_spec. rewrite Hst, Him. unfold upd. rewrite decide_False by congruence. rewrite decide_False; [done|]. by intros [= ->].
Qed.

(** The loop over the lines. *)
Lemma order_lines_ok o its : ∀ n total w m ps rs (Q : double → world → Prop),
  St b h stat w m 0 ps rs None → 1 ≤ n → n + Z.of_nat (length its) ≤ 16 → drop (Z.to_nat (n - 1)) (items i) = its → 1 ≤ d_id i ≤ 10 →
  Forall (λ it, ol_i_id it ≠ UNUSED_ID ∧ (∃ im, b (item_key it) = Some (RItem im)) ∧ ∃ s, m (TRow (stock_key it)) = Some (RStock s)) its →
  (∀ j, n ≤ j < n + Z.of_nat (length its) → m (TRow (line_key i o j)) = None) →
  Forall (λ x, target_table x ≠ TStock ∧ target_table x ≠ TOrderLine) ps.*2 →
  (∀ total' w', St b h stat w' (lines_spec b i o n its m) 0 ps rs None → w_clock w' = w_clock w → Q total' w') →
  wp (order_lines c i o (length its) n total) w Q.
Proof.
  induction its as [|it its IH]; intros n total w m ps rs Q Hs Hn Hle Hdrop Hd Hits Hlines Hps HQ; cbn [length order_lines lines_spec] in *.
  - apply wp_ret. by apply HQ.
  - apply Forall_cons in Hits as [(Hu & [im Him] & [s Hst]) Hits].
    assert (items i !! Z.to_nat (n - 1) = Some it) as Hit by (rewrite <-(Nat.add_0_r (Z.to_nat (n - 1))), <-lookup_drop, Hdrop; done).
    eapply wp_bind, order_line_ok; [exact Hs|exact Hit|exact Hu|exact Hd|exact Hst|exact Him|apply Hlines; lia| |].
    { intros x Hx. rewrite Forall_forall in Hps. destruct (Hps x Hx). by split; intros ->. }
    intros total' w' Hs' Hclk. rewrite wrap_small by (unfold word; lia).
    eapply IH; [exact Hs'|lia|lia| |exact Hd| | |exact Hps|].
    + replace (Z.to_nat (n + 1 - 1)) with (Z.to_nat (n - 1) + 1)%nat by lia. rewrite <-drop_drop, Hdrop. done.
    + eapply Forall_impl; [exact Hits|]. intros it' (? & ? & [s' Hs1]). split_and!; [done|done|].
      unfold line_spec. rewrite Hst, Him. unfold upd. rewrite decide_False by done.
      case_decide; [by eexists|by exists s'].
    + intros j Hj. rewrite (line_spec_other _ _ _ s im) by (done || (intros E%line_key_inj; lia)). apply Hlines. lia.
    + intros total2 w2 Hs2 Hclk2. apply HQ; [done|congruence].
Qed.

Lemma lines_spec_district o its n k m : k.1 = TDistrict → lines_spec b i o n its m (TRow k) = m (TRow k).
Proof.
  intros Hk. revert n m. induction its as [|it its IH]; intros n m; [done|]. simpl. rewrite IH. unfold line_spec.
  destruct (m _) as [[]|]; try done. destruct (b _) as [[]|]; try done. unfold upd. rewrite !decide_False; [done|..]; intros [= ->]; done.
Qed.

Lemma set_next_norm d d' n : norm (RDistrict d) = norm (RDistrict d') → norm (RDistrict (set_next_o_id d n)) = norm (RDistrict (set_next_o_id d' n)).
Proof. destruct d, d'. simpl. intros H. injection H. intros. subst. congruence. Qed.

(** The transaction up to its lines, and what follows them. *)
Definition after_lines (time : Z) (wp_ dp cp : Ptr) (total : double) : M Status.t :=
  cu ← read as_customer cp;
  w ← read as_warehouse wp_;
  d ← read as_district dp;
  _ ← emit [VDouble (d_mul total (d_mul (d_sub (d_of_Z 1) (c_discount cu)) (d_add (d_add (d_of_Z 1) (w_tax w)) (d_tax d))))];
  helper_commit (abort_id PRECOMMIT) time.

Definition header_spec (d : District) (now : Z) : target → option record :=
  let o := d_next_o_id d in
  upd (upd (upd (at_start b) (TRow (district_key i)) (Some (RDistrict (set_next_o_id d (u32 (o + 1))))))
    (TRow (neworder_key i o)) (Some (RNewOrder (mkNewOrder (w_id i) (d_id i) o))))
    (TRow (order_key i o)) (Some (ROrder (mkOrder (w_id i) (d_id i) o (c_id i) 0 (ol_cnt i) (if is_remote i then 0 else 1) now))).

Definition customer_key : table * Z := (TCustomer, CustomerKey.create_key (w_id i) (d_id i) (c_id i)).
Definition warehouse_key : table * Z := (TWarehouse, WarehouseKey_create_key (w_id i)).

(** For whatever [R] follows from its first step. *)
Lemma neworder_head (R : M Status.t → world → Prop) time w d :
  (∀ A (e : M A) f w, wp e w (λ a w', R (f a) w') → R (e ≫= f) w) →
  St b h stat w (at_start b) 0 [] [] None →
  (∃ wh, b warehouse_key = Some (RWarehouse wh)) → (∃ cu, b customer_key = Some (RCustomer cu)) → b (district_key i) = Some (RDistrict d) →
  b (neworder_key i (d_next_o_id d)) = None → b (order_key i (d_next_o_id d)) = None →
  (∀ op nop wp_ dp cp w', St b h stat w' (header_spec d (w_clock w)) 0
      [(op, TRow (order_key i (d_next_o_id d))); (nop, TRow (neworder_key i (d_next_o_id d))); (dp, TRow (district_key i))]
      [(cp, customer_key); (wp_, warehouse_key)] None →
    R (total ← order_lines c i (d_next_o_id d) (Z.to_nat (ol_cnt i)) 1 (d_of_Z 0); after_lines time (Some wp_) (Some dp) (Some cp) total) w') →
  R (run c time i) w.
Proof.
  intros HR Hs [wh Hw] [cu Hcu] Hd Hno Ho HQ. unfold warehouse_key, customer_key in *.
  unfold run.
  eapply HR, (wp_emit b h stat); [exact Hs|]. clear Hs. intros w1 Hs Hc1.
  eapply HR, (wp_get_record c Hc b h stat); [exact Hs|exact Hw|]. clear Hs. intros wp_ Hs.
  eapply HR, (wp_update c Hc b h stat); [exact Hs|done|exact Hd|set_solver|]. clear Hs. intros dp w2 Hs Hc2.
  eapply HR, (wp_read b h stat); [exact Hs|by left|exact Hd|]. intros r (d1 & -> & Hd1)%cols_district _ Hz1 Ht1. eexists. split; [done|].
  specialize (Ht1 _ eq_refl ltac:(done)).
  assert (d_next_o_id d1 = d_next_o_id d) as -> by by injection Hd1.
  eapply HR, (wp_write b h stat) with (x := TRow (district_key i)) (r0 := RDistrict (set_next_o_id d (u32 (d_next_o_id d + 1)))); [exact Hs|by left|by left|done|done|done| |done|].
  { by apply norm_cols, set_next_norm. }
  clear Hs. intros w3 Hs Hc3. eapply HR, (wp_finish_update c Hc).
  eapply HR, (wp_get_record c Hc b h stat); [exact Hs|exact Hcu|]. clear Hs. intros cp Hs.
  eapply HR, (wp_read_row b h stat); [exact Hs|by left|exact Hcu|]. intros r (cu1 & -> & _)%cols_customer _. eexists. split; [done|].
  eapply HR, (wp_read_row b h stat); [exact Hs|right; by left|exact Hw|]. intros r (wh1 & -> & _)%cols_warehouse _. eexists. split; [done|].
  eapply HR, (wp_read b h stat); [exact Hs|by left|by unfold upd; rewrite decide_True|]. intros r (d2 & -> & _)%cols_district _ _ _. eexists. split; [done|].
  eapply HR, (wp_emit b h stat); [exact Hs|]. clear Hs. intros w4 Hs Hc4.
  set (m1 := upd _ _ _) in *.
  eapply HR, (wp_insert c Hc b h stat); [exact Hs|done|unfold m1, upd; rewrite decide_False by done; exact Hno|set_solver|]. clear Hs. intros nop w5 r5 Hs Hc5.
  eapply HR, (wp_write b h stat) with (x := TRow (neworder_key i (d_next_o_id d))) (r := RNewOrder _); [exact Hs|by left|by right|done|split; constructor|constructor|reflexivity|done|].
  clear Hs. intros w6 Hs Hc6. eapply HR, (wp_finish_insert c Hc).
  eapply HR, (wp_insert c Hc b h stat); [exact Hs|done|unfold m1, upd; rewrite !decide_False by done; exact Ho|set_solver|]. clear Hs. intros op w7 r7 Hs Hc7.
  eapply HR, (wp_clock b h stat); [exact Hs|]. clear Hs. intros w8 Hs.
  eapply HR, (wp_write b h stat) with (x := TRow (order_key i (d_next_o_id d))) (r := ROrder _); [exact Hs|by left|by right|done|split; constructor|constructor|reflexivity|done|].
  clear Hs. intros w9 Hs Hc9. eapply HR, (wp_finish_insert c Hc). apply (HQ op nop wp_ dp cp).
  replace (w_clock w7) with (w_clock w) in Hs by congruence.
  eapply St_eqv; [exact Hs|]. intros x. unfold header_spec, m1, upd. by repeat case_decide.
Qed.

(** The whole transaction. *)
Lemma neworder_run_ok time w : St b h stat w (at_start b) 0 [] [] None → ready b i →
  ∃ w', run c time i w = Ok (inr Status.SUCCESS, w') ∧ ok (w_tx w') ∧ idle (w_tx w') ∧
    (∀ k, eqv (base (w_tx w') k) (neworder_spec b i (w_clock w) (TRow k))) ∧ hist (w_tx w') = h ∧
    num_commits (w_stat w') = u64 (num_commits stat + 1).
Proof.
  intros Hs0 [[wh Hw] [cu Hcu] (d & Hd & Hno & Ho & Hl) Hdi [Hlen Hcnt] Hits].
  assert (wp (run c time i) w (λ st w', st = Status.SUCCESS ∧ ok (w_tx w') ∧ idle (w_tx w') ∧
    (∀ k, eqv (base (w_tx w') k) (neworder_spec b i (w_clock w) (TRow k))) ∧ hist (w_tx w') = h ∧ num_commits (w_stat w') = u64 (num_commits stat + 1)))
    as (st & w' & E & -> & H); [|by exists w'].
  match goal with |- wp _ _ ?Q => eapply (neworder_head (λ e w, wp e w Q)) end; [by intros A e f w0 He; apply wp_bind|exact Hs0|by exists wh|by exists cu|exact Hd|exact Hno|exact Ho|].
  intros op nop wp_ dp cp w9 Hs. set (m3 := header_spec d (w_clock w)) in *.
  eapply wp_bind. replace (Z.to_nat (ol_cnt i)) with (length (items i)) by lia.
  eapply (order_lines_ok (d_next_o_id d) (items i) 1 _ w9 m3); [exact Hs|lia|lia|done|done| | | |].
  { eapply Forall_impl; [exact Hits|]. intros it (? & ? & [s Hst]). split_and!; [done|done|]. exists s. unfold m3, header_spec, upd. by rewrite !decide_False by done. }
  { intros j Hj. unfold m3, header_spec, upd. rewrite !decide_False by done. apply Hl. lia. }
  { repeat (constructor; [done|]). constructor. }
  clear Hs. intros total w10 Hs Hc10. unfold after_lines.
  eapply wp_bind, (wp_read_row b h stat); [exact Hs|by left|exact Hcu|]. intros r (cu2 & -> & _)%cols_customer _. eexists. split; [done|].
  eapply wp_bind, (wp_read_row b h stat); [exact Hs|right; by left|exact Hw|]. intros r (wh2 & -> & _)%cols_warehouse _. eexists. split; [done|].
  eapply wp_bind, (wp_read b h stat); [exact Hs|right; right; by left| |].
  { rewrite (lines_spec_district _ _ _ (district_key i)) by done. unfold m3, header_spec, upd. by rewrite !decide_False, decide_True by done. }
  intros r (d3 & -> & _)%cols_district _ _ _. eexists. split; [done|].
  eapply wp_bind, (wp_emit b h stat); [exact Hs|]. clear Hs. intros w11 Hs Hc11.
  destruct (commit_rule b h stat (abort_id PRECOMMIT) time _ _ _ _ _ Hs) as (w12 & E & Hok & Hid & Hb & (h' & Hh & Hlen' & _) & Hnc).
  exists Status.SUCCESS, w12. split; [exact E|]. split_and!; [done|done|done| | |done].
  - intros k. rewrite Hb. unfold neworder_spec. by rewrite Hd.
  - by rewrite Hh, (nil_length_inv h'), app_nil_r.
Qed.

(** *** The roll back *)
Definition count_usr_abort (s : PerTxType) : PerTxType :=
  mkStat (num_commits s) (u64 (num_usr_aborts s + 1)) (num_sys_aborts s) (abort_details s) (total_latency s) (min_latency s) (max_latency s).

(** The lines before the first unused item are worked off, then the user
    aborts. *)
Lemma order_lines_abort o bad rest k its : ∀ n total w m ps rs (Q : Status.t → world → Prop),
  St b h stat w m 0 ps rs None → 1 ≤ n → n + Z.of_nat (length its) ≤ 16 → drop (Z.to_nat (n - 1)) (items i) = its ++ bad :: rest → 1 ≤ d_id i ≤ 10 →
  ol_i_id bad = UNUSED_ID →
  Forall (λ it, ol_i_id it ≠ UNUSED_ID ∧ (∃ im, b (item_key it) = Some (RItem im)) ∧ ∃ s, m (TRow (stock_key it)) = Some (RStock s)) its →
  (∀ j, n ≤ j < n + Z.of_nat (length its) → m (TRow (line_key i o j)) = None) →
  Forall (λ x, target_table x ≠ TStock ∧ target_table x ≠ TOrderLine) ps.*2 →
  (∀ m' w', St b h stat w' m' 0 ps rs None → Q Status.USER_ABORT (set_stat w' (count_usr_abort stat))) →
  exits (order_lines c i o (length its + S k) n total) w Q.
Proof.
  induction its as [|it its IH]; intros n total w m ps rs Q Hs Hn Hle Hdrop Hd Hbad Hits Hlines Hps HQ; cbn [length order_lines Nat.add] in *;
    assert (∀ x xs, drop (Z.to_nat (n - 1)) (items i) = x :: xs → items i !! Z.to_nat (n - 1) = Some x) as Hhead
      by (intros x xs Hx; rewrite <-(Nat.add_0_r (Z.to_nat (n - 1))), <-lookup_drop, Hx; done).
  - apply exits_bind. unfold order_line. eapply exits_after, wp_out; [by erewrite Hhead|]. rewrite Hbad, Z.eqb_refl. apply exits_bind.
    eexists _, _. split; [reflexivity|]. simpl. rewrite (st_stat _ _ _ _ _ _ _ _ _ Hs). by eapply HQ.
  - apply Forall_cons in Hits as [(Hu & [im Him] & [s Hst]) Hits].
    eapply exits_after, order_line_ok; [exact Hs|by eapply Hhead|exact Hu|exact Hd|exact Hst|exact Him|apply Hlines; lia| |].
    { intros x Hx. rewrite Forall_forall in Hps. destruct (Hps x Hx). by split; intros ->. }
    intros total' w' Hs' _. rewrite wrap_small by (unfold word; lia).
    eapply IH; [exact Hs'|lia|lia| |exact Hd|exact Hbad| | |exact Hps|exact HQ].
    + replace (Z.to_nat (n + 1 - 1)) with (Z.to_nat (n - 1) + 1)%nat by lia. rewrite <-drop_drop, Hdrop. done.
    + eapply Forall_impl; [exact Hits|]. intros it' (? & ? & [s' Hs1]). split_and!; [done|done|].
      unfold line_spec. rewrite Hst, Him. unfold upd. rewrite decide_False by done. case_decide; [by eexists|by exists s'].
    + intros j Hj. rewrite (line_spec_other _ _ _ s im) by (done || (intros E%line_key_inj; lia)). apply Hlines. lia.
Qed.

(** The order with some of its lines only. *)
Definition with_items (its : list item) : Input :=
  mkInput (w_id i) (d_id i) (c_id i) (Z.of_nat (length its)) (o_entry_d i) (rbk i) (is_remote i) its.
End neworder.

(** C14: A new order over any protocol that keeps its promises: when the
    warehouse, the district (numbered 1 to 10) and the customer exist, the
    order has one line per item and at most 15 of them, no item has the number
    1 (which the code takes for an unused item, see neworder_rolls_back),
    every item exists and its stock too, and the keys of the new rows are
    free, the transaction commits with status SUCCESS and is counted once; the
    district has the next order number, the order, its new-order row and one
    order line per item are there, each stock has given its quantity, line by
    line, and every other row and the history are as before.  The text
    [ol_dist_info] of the lines is not compared: a copy of a stock does not
    bring it along (stock_copy_drops_dist). *)
Theorem neworder_commits `{TS : TransactionSpec} (c : Config) (b : table * Z → option record) (i : Input) (time : Z) (w : world) :
  does_random_abort c = false → ok (w_tx w) → idle (w_tx w) → (∀ k, eqv (base (w_tx w) k) (b k)) → ready b i →
  ∃ w', run c time i w = Ok (inr Status.SUCCESS, w') ∧ ok (w_tx w') ∧ idle (w_tx w') ∧
    (∀ k, eqv (base (w_tx w') k) (neworder_spec b i (w_clock w) (TRow k))) ∧ hist (w_tx w') = hist (w_tx w) ∧
    num_commits (w_stat w') = u64 (num_commits (w_stat w) + 1).
Proof. intros Hc Hok Hid Hb Hr. eapply neworder_run_ok; [done|by apply idle_St|done]. Qed.

(** C15: The roll back of a new order, over any protocol that keeps its
    promises.  When some item of the order has the number that stands for an
    unused item, and the rest of what the lines before it need is as in
    [ready], the transaction works off the lines before that item and leaves
    with USER_ABORT; the runner then aborts it and returns false, without a
    retry; every row and the history are as before, and one user abort and no
    commit is counted. *)
Theorem neworder_rolls_back `{TS : TransactionSpec} (c : Config) (b : table * Z → option record) (i : Input) (time : Z) (w : world)
    (before after : list item) (bad : item) (fuel : nat) :
  does_random_abort c = false → ok (w_tx w) → idle (w_tx w) → (∀ k, eqv (base (w_tx w) k) (b k)) →
  items i = before ++ bad :: after → ol_i_id bad = UNUSED_ID → ol_cnt i = Z.of_nat (length (items i)) → ol_cnt i ≤ 15 →
  ready b (with_items i before) →
  ∃ w', TxRunner.run_with_retry (S fuel) (run c time i) w = Ok (false, w') ∧ ok (w_tx w') ∧ idle (w_tx w') ∧
    (∀ k, eqv (base (w_tx w') k) (b k)) ∧ hist (w_tx w') = hist (w_tx w) ∧
    num_usr_aborts (w_stat w') = u64 (num_usr_aborts (w_stat w) + 1) ∧ num_commits (w_stat w') = num_commits (w_stat w).
Proof.
  intros Hc Hok Hid Hb Heq Hbad Hcnt Hle [Hw Hcu (d & Hd & Hno & Ho & Hl) Hdi _ Hits].
  pose proof (idle_St b (hist (w_tx w)) (w_stat w) w Hok Hid Hb eq_refl eq_refl) as Hs0.
  assert (exits (run c time i) w (λ st w', st = Status.USER_ABORT ∧ ∃ m' ps rs w1,
    St b (hist (w_tx w)) (w_stat w) w1 m' 0 ps rs None ∧ w' = set_stat w1 (count_usr_abort (w_stat w)))) as (st & w' & E & -> & m' & ps & rs & w1 & Hs1 & ->).
  { match goal with |- exits _ _ ?Q => eapply (neworder_head c Hc b _ _ i (λ e w, exits e w Q)) end;
      [by intros A e f w0 He; apply exits_after|exact Hs0|exact Hw|exact Hcu|exact Hd|exact Hno|exact Ho|].
    intros op nop wp_ dp cp w9 Hs. apply exits_bind. rewrite Hcnt, Heq, length_app, Nat2Z.id. cbn [length].
    rewrite Heq, length_app in Hcnt. cbn [length] in Hcnt.
    eapply (order_lines_abort c Hc b _ _ i); [exact Hs|lia|lia|exact Heq|exact Hdi|exact Hbad| | | |].
    - eapply Forall_impl; [exact Hits|]. intros it (? & ? & [s Hst]). split_and!; [done|done|]. exists s. unfold header_spec, upd. by rewrite !decide_False by done.
    - intros j Hj. unfold header_spec, upd. rewrite !decide_False by done. apply Hl. simpl. lia.
    - repeat (constructor; [done|]). constructor.
    - intros m' w' Hs'. split; [done|]. eexists m', _, _, w'. split; [exact Hs'|reflexivity]. }
  destruct (abort_ok (w_tx w1) (st_ok _ _ _ _ _ _ _ _ _ Hs1)) as (t & Ea & Ok & I & B & H).
  eexists. split; [cbn [TxRunner.run_with_retry]; unfold TxRunner.status; rewrite E; cbn [mbind outcome_bind w_tx set_stat]; rewrite Ea; reflexivity|].
  simpl. split_and!; [done|done| | |done|done].
  - intros k. rewrite B. apply (st_base _ _ _ _ _ _ _ _ _ Hs1).
  - rewrite H. apply (st_hist _ _ _ _ _ _ _ _ _ Hs1).
Qed.
End TpccNewOrder.
