(* ===== verification/TpccPayment.v ===== *)
(** * TPC-C: what a payment does

    The payment transaction of a customer given by its number, over any
    protocol with [TransactionSpec]: the warehouse and the district collect
    the amount, the customer is debited, the text of one with bad credit gets
    the payment in front, and a history record is kept. *)
From S2P Require Import Prelude BitFields Utils Records RecordGen Tx Tpcc TpccRules TpccNewOrder.

Module TpccPayment.
Import Records Tx Tpcc TpccRules Tpcc.PaymentTx.

Section spec.
Context `{HD : Double} (b : table * Z → option record) (i : Input).

Definition warehouse_key : table * Z := (TWarehouse, WarehouseKey_create_key (w_id i)).
Definition district_key : table * Z := (TDistrict, DistrictKey.create_key (w_id i) (d_id i)).
Definition customer_key : table * Z := (TCustomer, CustomerKey.create_key (c_w_id i) (c_d_id i) (c_id i)).

Definition text_of (cu : Customer) : chars := data_text cu (w_id i) (d_id i) (c_w_id i) (c_d_id i) (h_amount i).
(** The customer afterwards: the balance goes down and the year's payments go
    up. *)
Definition debited (cu : Customer) (a : double) : Customer :=
  mkCustomer (Records.c_w_id cu) (Records.c_d_id cu) (Records.c_id cu) (u16 (c_payment_cnt cu + 1)) (c_delivery_cnt cu) (c_since cu) (c_credit_lim cu)
    (c_discount cu) (d_sub (c_balance cu) a) (d_add (c_ytd_payment cu) a) (c_first cu) (c_middle cu) (Records.c_last cu) (c_phone cu) (c_credit cu)
    (c_data cu) (c_address cu).
Definition warehouse_with (w : Warehouse) (ytd : double) : Warehouse := mkWarehouse (Records.w_id w) (w_tax w) ytd (w_name w) (w_address w).
Definition district_with (d : District) (ytd : double) : District := mkDistrict (d_w_id d) (Records.d_id d) (d_next_o_id d) (d_tax d) ytd (d_name d) (d_address d).
Definition paid (cu : Customer) : Customer :=
  let cu := debited cu (h_amount i) in
  if NewOrderTx.starts_with [66; 67] (str (c_credit cu)) then set_data cu (take C_MAX_DATA (text_of cu ++ str (c_data cu))) else cu.
Definition history_of (cu : Customer) (w : Warehouse) (d : District) (now : Z) : History :=
  mkHistory (c_w_id i) (c_d_id i) (Records.c_id cu) (w_id i) (d_id i) now (h_amount i) (history_text (w_name w) (d_name d)).

Definition payment_spec (now : Z) : target → option record :=
  match b warehouse_key, b district_key, b customer_key with
  | Some (RWarehouse w), Some (RDistrict d), Some (RCustomer cu) =>
      upd (upd (upd (upd (λ x, match x with TRow k => b k | THist _ => None end)
        (TRow warehouse_key) (Some (RWarehouse (warehouse_with w (d_add (w_ytd w) (h_amount i))))))
        (TRow district_key) (Some (RDistrict (district_with d (d_add (d_ytd d) (h_amount i))))))
        (TRow customer_key) (Some (RCustomer (paid cu))))
        (THist 0) (Some (RHistory (history_of cu w d now)))
  | _, _, _ => λ x, match x with TRow k => b k | THist _ => None end
  end.

(** The rows it needs; the printed amount is a string that fits. *)
Record ready : Prop := {
  rd_warehouse : ∃ w, b warehouse_key = Some (RWarehouse w);
  rd_district : ∃ d, b district_key = Some (RDistrict d);
  rd_customer : ∃ cu, b customer_key = Some (RCustomer cu) ∧ (length (text_of cu) ≤ C_MAX_DATA)%nat;
  rd_print : Forall (λ x, x ≠ 0) (d_print (h_amount i));
  rd_by_id : by_last_name i = false ∧ c_id i ≠ UNUSED_ID
}.
End spec.

(** *** Texts *)
Section texts.
Context `{HD : Double}.
Implicit Types (a : chars) (s : string).

Abbreviation nonzero := (Forall (λ x, x ≠ 0)).
Definition plain s : Prop := Forall (λ x, x ≠ Ascii.zero) (String.list_ascii_of_string s).

(** A literal has no NUL. *)
Ltac literal := vm_compute; repeat (constructor; [lia|]); constructor.

Lemma bytes_nonzero s : plain s → nonzero (bytes_of s).
Proof.
  intros H. unfold bytes_of. apply Forall_fmap. eapply Forall_impl; [exact H|]. intros x Hx. simpl. intros E. apply Hx.
  assert (Ascii.nat_of_ascii x = 0%nat) as E' by lia. by rewrite <-(Ascii.ascii_nat_embedding x), E'.
Qed.

Lemma pretty_plain x s : plain s → plain (pretty.pretty_N_go x s).
Proof.
  revert s. induction (N.lt_wf_0 x) as [x _ IH]. intros s Hs. destruct (decide (x = 0%N)) as [->|Hx]; [done|].
  rewrite pretty.pretty_N_go_step by lia. apply IH; [apply N.div_lt; lia|]. unfold plain. simpl. constructor; [|done].
  unfold pretty.pretty_N_char. by repeat case_match.
Qed.
Lemma dec_nonzero z : nonzero (dec z).
Proof.
  apply bytes_nonzero. unfold pretty.pretty, pretty.pretty_N. destruct (decide _); [|apply pretty_plain; constructor]. unfold plain. simpl. by constructor.
Qed.
Lemma pad_nonzero n a : nonzero a → nonzero (pad n a).
Proof. intros H. apply Forall_app. split; [by apply Forall_replicate|done]. Qed.

Lemma text_nonzero cu i : nonzero (d_print (h_amount i)) → nonzero (text_of i cu).
Proof.
  intros H. unfold text_of, data_text.
  repeat (apply Forall_app_2; [first [apply pad_nonzero, dec_nonzero|literal]|]). done.
Qed.

Lemma str_app a b : nonzero a → str (a ++ b) = a ++ str b.
Proof. induction 1 as [|x a Hx _ IH]; [done|]. simpl. rewrite IH. by destruct (Z.eqb_spec x 0). Qed.

Lemma str_id a : nonzero a → str a = a.
Proof. intros H. rewrite <-(app_nil_r a) at 1. by rewrite str_app, app_nil_r. Qed.

(** The new text is the payment and what fits of the old one. *)
Lemma modify_customer_data_ok cu i : fits (C_MAX_DATA, c_data cu) → nonzero (text_of i cu) → (length (text_of i cu) ≤ C_MAX_DATA)%nat →
  ∃ data, modify_customer_data cu (w_id i) (d_id i) (c_w_id i) (c_d_id i) (h_amount i) = Ok (set_data cu data) ∧
    fits (C_MAX_DATA, data) ∧ ends (C_MAX_DATA, data) ∧ str data = take C_MAX_DATA (text_of i cu ++ str (c_data cu)).
Proof.
  unfold fits, ends. cbn [fst snd]. intros Hf Hz Hl. unfold modify_customer_data. fold (text_of i cu). set (text := text_of i cu) in *.
  rewrite assert_Ok by (by apply Nat.leb_le). cbn [mbind outcome_bind]. eexists. split; [reflexivity|]. rewrite length_copy_cstr, str_copy_cstr by lia.
  rewrite Nat.sub_succ, Nat.sub_0_r. split; [done|]. split; [rewrite length_take; lia|].
  unfold snprintf. change (text ++ [0]) with (text ++ 0 :: []). rewrite copy_cstr_app by first [done|rewrite ?length_replicate; lia].
  rewrite take_app_length, drop_app_length. set (rest := 0 :: _).
  assert (length rest = S C_MAX_DATA - length text)%nat as Hr.
  { unfold rest. cbn [length]. rewrite length_drop, length_replicate. lia. }
  rewrite str_app by done. rewrite str_copy_cstr by lia. rewrite !take_app, take_take. f_equal. f_equal. lia.
Qed.

Lemma bad_credit_str cu : fits (CREDIT, c_credit cu) → bad_credit cu = NewOrderTx.starts_with [66; 67] (str (c_credit cu)).
Proof.
  unfold fits, bad_credit. cbn [fst snd]. destruct (c_credit cu) as [|x [|y l]]; try done. intros _. cbn -[Z.eqb].
  destruct (Z.eqb_spec x 0) as [->|]; [done|]. destruct (Z.eqb_spec y 0) as [->|]; cbn -[Z.eqb]; [by rewrite !andb_false_r|].
  by rewrite (Z.eqb_sym 66), (Z.eqb_sym 67), andb_true_r.
Qed.

Lemma history_text_ok wn dn : nonzero (history_text wn dn) ∧ (length (history_text wn dn) ≤ H_MAX_DATA)%nat.
Proof.
  unfold history_text, pad_right. split.
  - repeat apply Forall_app_2; try (apply Forall_take, str_nonzero); [by apply Forall_replicate|]. literal.
  - rewrite !length_app, !length_replicate, !length_take. change (length (bytes_of "    ")) with 4%nat. unfold H_MAX_DATA. lia.
Qed.
End texts.

Section payment.
Context `{TS : TransactionSpec} (c : Config) (Hc : does_random_abort c = false).
Context (b : table * Z → option record) (h : list (option record)) (stat : PerTxType) (i : Input).

Lemma pay_warehouse_norm w w' a : norm (RWarehouse w) = norm (RWarehouse w') → norm (RWarehouse (pay_warehouse w a)) = norm (RWarehouse (pay_warehouse w' a)).
Proof. destruct w, w'. simpl. intros H. injection H. intros. subst. congruence. Qed.
Lemma pay_district_norm d d' a : norm (RDistrict d) = norm (RDistrict d') → norm (RDistrict (pay_district d a)) = norm (RDistrict (pay_district d' a)).
Proof. destruct d, d'. simpl. intros H. injection H. intros. subst. congruence. Qed.
Lemma pay_customer_norm cu cu' a : norm (RCustomer cu) = norm (RCustomer cu') → norm (RCustomer (pay_customer cu a)) = norm (RCustomer (pay_customer cu' a)).
Proof. destruct cu, cu'. simpl. intros H. injection H. intros. subst. congruence. Qed.
Lemma set_data_norm cu cu' data data' : norm (RCustomer cu) = norm (RCustomer cu') → str data = str data' →
  norm (RCustomer (set_data cu data)) = norm (RCustomer (set_data cu' data')).
Proof. destruct cu, cu'. simpl. intros H. injection H. intros. subst. congruence. Qed.

Lemma customer_fits cu : sized (RCustomer cu) → fits (CREDIT, c_credit cu) ∧ fits (C_MAX_DATA, c_data cu).
Proof. intros [H _]. simpl in H. rewrite !Forall_cons in H. by destruct_and!. Qed.

(** The customer that is written back. *)
Lemma paid_ok cu cu' w : norm (RCustomer cu) = norm (RCustomer cu') → sized (RCustomer cu) → terminated (RCustomer cu) →
  Forall (λ x, x ≠ 0) (d_print (h_amount i)) → (length (text_of i cu') ≤ C_MAX_DATA)%nat →
  ∃ cu2 out, (let p := pay_customer cu (h_amount i) in
    if bad_credit p then _ ← emit [VChars (c_data p)]; out_of (modify_customer_data p (w_id i) (d_id i) (c_w_id i) (c_d_id i) (h_amount i)) else mret p) w
      = Ok (inr cu2, mkWorld (w_tx w) (w_rand w) (w_clock w) (w_stat w) out) ∧
    norm (RCustomer cu2) = norm (RCustomer (paid i cu')) ∧ sized (RCustomer cu2) ∧ terminated (RCustomer cu2).
Proof.
  intros Hn Hz Ht Hp Hl. destruct (customer_fits cu Hz) as [Hf1 Hf2]. cbv zeta. unfold paid.
  rewrite bad_credit_str by done. set (p := pay_customer cu (h_amount i)).
  assert (str (c_credit p) = str (c_credit (pay_customer cu' (h_amount i)))) as -> by by injection Hn.
  assert (text_of i p = text_of i (pay_customer cu' (h_amount i))) as Htext by (unfold text_of, data_text; simpl; by injection Hn as _ _ -> _).
  assert (str (c_data p) = str (c_data (pay_customer cu' (h_amount i)))) as Hdata by by injection Hn.
  destruct (NewOrderTx.starts_with _ _).
  - destruct (modify_customer_data_ok p i) as (data & E & Hfit & Hend & Hstr); [done|by apply text_nonzero|by rewrite Htext|].
    eexists _, _. split; [unfold mbind, M_bind, emit, out_of; rewrite E; reflexivity|]. split; [|split].
    + apply set_data_norm; [by apply pay_customer_norm|]. rewrite Hstr, Htext, Hdata. symmetry. apply str_id, Forall_take, Forall_app_2; [by apply text_nonzero|apply str_nonzero].
    + destruct Hz as [Hz _]. split; [|done]. cbn -[address_arrays] in Hz |- *. rewrite !Forall_cons in Hz |- *. destruct_and!. by split_and!.
    + unfold terminated in *. cbn -[address_arrays] in Ht |- *. rewrite !Forall_cons in Ht |- *. destruct_and!. by split_and!.
  - exists p, (w_out w). split; [by destruct w|]. split; [by apply pay_customer_norm|]. by destruct Hz.
Qed.

Lemma create_history_ok hr cu1 cu w1 w d1 d now : sized (RHistory hr) → Records.c_id cu1 = Records.c_id cu → str (w_name w1) = str (w_name w) → str (d_name d1) = str (d_name d) →
  let hr' := create_history hr (w_id i) (d_id i) (Records.c_id cu1) (c_w_id i) (c_d_id i) (h_amount i) (w_name w1) (d_name d1) now in
  cols (RHistory hr') = cols (RHistory (history_of i cu w d now)) ∧ sized (RHistory hr') ∧ terminated (RHistory hr').
Proof.
  intros [Hf _] Hid Hwn Hdn. apply Forall_cons in Hf as [Hf _]. unfold fits in Hf. cbn [fst snd] in Hf. cbv zeta. unfold create_history, history_of.
  unfold history_text. rewrite Hwn, Hdn, Hid. fold (history_text (w_name w) (d_name d)). destruct (history_text_ok (w_name w) (d_name d)) as [Hnz Hlen].
  set (text := history_text _ _) in *. assert (str (snprintf (h_data hr) text (S H_MAX_DATA)) = text) as Hstr.
  { unfold snprintf. change (text ++ [0]) with (text ++ 0 :: []). rewrite copy_cstr_app by first [done|lia]. by rewrite str_app_nul. }
  split; [|split].
  - unfold cols. cbn [norm h_data h_c_w_id h_c_d_id h_c_id h_w_id h_d_id h_date h_amount]. by rewrite Hstr, str_id.
  - split; [|done]. constructor; [|constructor]. unfold fits. cbn [fst snd h_data]. unfold snprintf. by rewrite length_copy_cstr.
  - constructor; [|constructor]. unfold ends. cbn [fst snd h_data]. by rewrite Hstr.
Qed.

Lemma payment_run_ok time w : St b h stat w (λ x, match x with TRow k => b k | THist _ => None end) 0 [] [] None → ready b i →
  ∃ w', run c time i w = Ok (inr Status.SUCCESS, w') ∧ ok (w_tx w') ∧ idle (w_tx w') ∧
    (∀ k, eqv (base (w_tx w') k) (payment_spec b i (w_clock w) (TRow k))) ∧
    (∃ o, hist (w_tx w') = h ++ [o] ∧ eqv o (payment_spec b i (w_clock w) (THist 0))) ∧
    num_commits (w_stat w') = u64 (num_commits stat + 1).
Proof.
  set (m0 := λ x, match x with TRow k => b k | THist _ => None end).
  intros Hs [[wh Hw] [d Hd] (cu & Hcu & Htext) Hpr [Hby Hid]].
  assert (wp (run c time i) w (λ st w', st = Status.SUCCESS ∧ ok (w_tx w') ∧ idle (w_tx w') ∧
    (∀ k, eqv (base (w_tx w') k) (payment_spec b i (w_clock w) (TRow k))) ∧
    (∃ o, hist (w_tx w') = h ++ [o] ∧ eqv o (payment_spec b i (w_clock w) (THist 0))) ∧ num_commits (w_stat w') = u64 (num_commits stat + 1)))
    as (st & w' & E & -> & H); [|by exists w'].
  unfold run. cbv zeta.
  eapply wp_bind, (wp_emit b h stat); [exact Hs|]. clear Hs. intros w1 Hs Hc1.
  eapply wp_bind, (wp_update c Hc b h stat); [exact Hs|done|exact Hw|set_solver|]. clear Hs. intros wp_ w2 Hs Hc2.
  eapply wp_bind, (wp_read b h stat); [exact Hs|by left|exact Hw|]. intros r (wh1 & -> & Hw1)%cols_warehouse _ Hz Ht. eexists. split; [done|]. specialize (Ht _ eq_refl ltac:(done)).
  eapply wp_bind, (wp_write b h stat) with (x := TRow (warehouse_key i)) (r0 := RWarehouse (warehouse_with wh (d_add (w_ytd wh) (h_amount i))));
    [exact Hs|by left|by left|done|exact Hz|exact Ht|by apply TpccNewOrder.norm_cols, pay_warehouse_norm|done|].
  clear Hs Hz Ht. intros w3 Hs Hc3. eapply wp_bind, (wp_finish_update c Hc).
  eapply wp_bind, (wp_update c Hc b h stat); [exact Hs|done|unfold upd; rewrite decide_False by done; exact Hd|set_solver|]. clear Hs. intros dp w4 Hs Hc4.
  eapply wp_bind, (wp_read b h stat); [exact Hs|by left|unfold upd; rewrite decide_False by done; exact Hd|].
  intros r (d1 & -> & Hd1)%cols_district _ Hz Ht. eexists. split; [done|]. specialize (Ht _ eq_refl ltac:(done)).
  eapply wp_bind, (wp_write b h stat) with (x := TRow (district_key i)) (r0 := RDistrict (district_with d (d_add (d_ytd d) (h_amount i))));
    [exact Hs|by left|by left|done|exact Hz|exact Ht|by apply TpccNewOrder.norm_cols, pay_district_norm|done|].
  clear Hs Hz Ht. intros w5 Hs Hc5. eapply wp_bind, (wp_finish_update c Hc).
  rewrite Hby. eapply wp_bind, wp_bind, wp_out; [apply assert_Ok; apply negb_true_iff; by apply Z.eqb_neq|].
  set (m1 := upd (upd m0 _ _) _ _) in Hs.
  assert (m1 (TRow (customer_key i)) = Some (RCustomer cu)) as Hcu1 by (unfold m1, upd; rewrite !decide_False by done; exact Hcu).
  eapply (wp_update c Hc b h stat); [exact Hs|done|exact Hcu1|set_solver|]. clear Hs. intros cp w6 Hs Hc6.
  eapply wp_bind, (wp_read b h stat); [exact Hs|by left|exact Hcu1|]. intros r (cu1 & -> & Hn)%cols_customer _ Hz Ht. eexists. split; [done|]. specialize (Ht _ eq_refl ltac:(done)).
  assert (m1 (TRow (warehouse_key i)) = Some (RWarehouse (warehouse_with wh (d_add (w_ytd wh) (h_amount i))))) as Hw2.
  { unfold m1. unfold upd at 1. rewrite decide_False by done. unfold upd. by rewrite decide_True. }
  assert (m1 (TRow (district_key i)) = Some (RDistrict (district_with d (d_add (d_ytd d) (h_amount i))))) as Hd2 by (unfold m1, upd; by rewrite decide_True).
  eapply wp_bind, (wp_read b h stat); [exact Hs|right; right; by left|exact Hw2|]. intros r (wh2 & -> & _)%cols_warehouse _ _ _. eexists. split; [done|].
  eapply wp_bind, (wp_read b h stat); [exact Hs|right; by left|exact Hd2|]. intros r (d2 & -> & _)%cols_district _ _ _. eexists. split; [done|].
  eapply wp_bind, (wp_emit b h stat); [exact Hs|]. clear Hs. intros w7 Hs Hc7.
  destruct (paid_ok cu1 cu w7 Hn Hz Ht Hpr Htext) as (cu2 & out & E & Hn2 & Hz2 & Ht2). cbv zeta in E.
  eapply wp_bind. eexists cu2, _. split; [exact E|].
  set (w8 := mkWorld _ _ _ _ _). assert (St b h stat w8 m1 0 [(cp, TRow (customer_key i)); (dp, TRow (district_key i)); (wp_, TRow (warehouse_key i))] [] None) as Hs8 by by apply (St_tx b h stat w7).
  assert (w_clock w8 = w_clock w7) as Hc8 by done. clear Hs. rename Hs8 into Hs. clearbody w8.
  eapply wp_bind, (wp_write b h stat) with (x := TRow (customer_key i)) (r0 := RCustomer (paid i cu));
    [exact Hs|by left|by left|by injection Hn2|exact Hz2|exact Ht2|by apply TpccNewOrder.norm_cols|done|].
  clear Hs. intros w9 Hs Hc9. eapply wp_bind, (wp_finish_update c Hc).
  eapply wp_bind, (wp_insert_history c Hc b h stat); [exact Hs|set_solver|]. clear Hs. intros hp w10 r10 Hs Hc10.
  set (m2 := upd m1 (TRow (customer_key i)) (Some (RCustomer (paid i cu)))) in *.
  assert (∀ x, x ≠ THist 0 → x ≠ TRow (customer_key i) → upd m2 (THist 0) (Some r10) x = m1 x) as Hm2 by (intros x ? ?; unfold m2, upd; by rewrite !decide_False).
  eapply wp_bind, (wp_read b h stat); [exact Hs|by left|by unfold upd; rewrite decide_True|].
  intros r _ Hht Hhz _. destruct r as [| | | | |hr| | |]; try discriminate Hht. eexists. split; [done|].
  eapply wp_bind, (wp_read b h stat); [exact Hs|right; right; right; by left|by rewrite Hm2; [exact Hw2|..]|].
  intros r (wh3 & -> & Hw3)%cols_warehouse _ _ _. eexists. split; [done|].
  eapply wp_bind, (wp_read b h stat); [exact Hs|right; right; by left|by rewrite Hm2; [exact Hd2|..]|].
  intros r (d3 & -> & Hd3)%cols_district _ _ _. eexists. split; [done|].
  eapply wp_bind, (wp_clock b h stat); [exact Hs|]. clear Hs. intros w11 Hs.
  destruct (create_history_ok hr cu1 cu wh3 wh d3 d (w_clock w10)) as (Hcols & Hz3 & Ht3); [done|by injection Hn|by injection Hw3|by injection Hd3|].
  eapply wp_bind, (wp_write b h stat) with (x := THist 0) (r0 := RHistory (history_of i cu wh d (w_clock w10)));
    [exact Hs|by left|by left|done|exact Hz3|exact Ht3|exact Hcols|lia|].
  clear Hs. intros w12 Hs Hc12. eapply wp_bind, (wp_finish_insert c Hc).
  destruct (commit_rule b h stat (abort_id PRECOMMIT) time _ _ _ _ _ Hs) as (w13 & E13 & Hok & Hidle & Hb & (h' & Hh & Hlen' & Hh') & Hnc).
  assert (∀ x, upd (upd m2 (THist 0) (Some r10)) (THist 0) (Some (RHistory (history_of i cu wh d (w_clock w10)))) x = payment_spec b i (w_clock w) x) as Hm.
  { intros x. unfold payment_spec. rewrite Hw, Hd, Hcu. unfold m2, m1, m0, upd. replace (w_clock w10) with (w_clock w) by congruence. by repeat case_decide. }
  exists Status.SUCCESS, w13. split; [exact E13|]. split_and!; [done|done|done| | |done].
  - intros k. by rewrite Hb, Hm.
  - destruct h' as [|o [|]]; try discriminate Hlen'. exists o. split; [done|]. destruct (Hh' 0%nat ltac:(lia)) as (o' & [= <-] & Ho). by rewrite Ho, Hm.
Qed.
End payment.

(** C16: A payment of a customer given by its number, over any protocol that
    keeps its promises: when the three rows exist the transaction commits; the
    warehouse and the district have collected the amount, the customer's
    balance, payments and count are updated and, with bad credit, the payment
    is put in front of its data, cut to what fits; one history record is
    appended and no other row changes. *)
Theorem payment_commits `{TS : TransactionSpec} (c : Config) (b : table * Z → option record) (i : Input) (time : Z) (w : world) :
  does_random_abort c = false → ok (w_tx w) → idle (w_tx w) → (∀ k, eqv (base (w_tx w) k) (b k)) → ready b i →
  ∃ w', run c time i w = Ok (inr Status.SUCCESS, w') ∧ ok (w_tx w') ∧ idle (w_tx w') ∧
    (∀ k, eqv (base (w_tx w') k) (payment_spec b i (w_clock w) (TRow k))) ∧
    (∃ o, hist (w_tx w') = hist (w_tx w) ++ [o] ∧ eqv o (payment_spec b i (w_clock w) (THist 0))) ∧
    num_commits (w_stat w') = u64 (num_commits (w_stat w) + 1).
Proof. intros Hc Hok Hid Hb Hr. eapply payment_run_ok; [done|by apply idle_St|done]. Qed.
End TpccPayment.
