(* ===== verification/TpccStockLevel.v ===== *)
(** * TPC-C: what the stock level reports

    The stock-level transaction over any protocol with [TransactionSpec]: it
    reports how many items of the last twenty orders of a district are low on
    stock, and changes nothing. *)
From S2P Require Import Prelude BitFields Utils Records RecordGen Tx Tpcc TpccRules.

Module TpccStockLevel.
Import Records Tx Tpcc TpccRules Tpcc.StockLevelTx.

Section stocklevel.
Context `{TS : TransactionSpec} (c : Config) (Hc : does_random_abort c = false).
Context (b : table * Z → option record) (h : list (option record)) (stat : PerTxType) (i : Input).
Implicit Types (w : world) (m : target → option record) (ids : list Z).

Definition stock_key (id : Z) : table * Z := (TStock, StockKey.create_key (w_id i) id).
Definition district_key : table * Z := (TDistrict, DistrictKey.create_key (w_id i) (d_id i)).
(** The order lines of the orders from [next - 20] to [next - 1]. *)
Definition recent_line (next key : Z) : Prop :=
  OrderLineKey.create_key (w_id i) (d_id i) (u32 (next - 20)) 1 ≤ key < OrderLineKey.create_key (w_id i) (d_id i) next 1.
Definition recent_item (next id : Z) : Prop :=
  id ≠ NewOrderTx.UNUSED_ID ∧ ∃ key l, b (TOrderLine, key) = Some (ROrderLine l) ∧ recent_line next key ∧ ol_i_id l = id.
Definition low_item (next id : Z) : Prop :=
  recent_item next id ∧ ∃ s, b (stock_key id) = Some (RStock s) ∧ s_quantity s < threshold i.

(** *** The set of items *)
Definition sorted ids : Prop := StronglySorted Z.lt ids.
Lemma elem_of_set_insert x ids y : y ∈ set_insert x ids ↔ y = x ∨ y ∈ ids.
Proof.
  induction ids as [|z ids IH]; simpl; [set_solver|]. destruct (Z.ltb_spec x z); [set_solver|]. destruct (Z.eqb_spec x z); [set_solver|].
  rewrite !elem_of_cons, IH. tauto.
Qed.
Lemma set_insert_sorted x ids : sorted ids → sorted (set_insert x ids).
Proof.
  unfold sorted. induction 1 as [|z ids Hs IH Hz]; simpl; [repeat constructor|]. destruct (Z.ltb_spec x z).
  - constructor; [by constructor|]. constructor; [done|]. eapply Forall_impl; [exact Hz|]. simpl. lia.
  - destruct (Z.eqb_spec x z); [by constructor|]. constructor; [done|]. apply Forall_forall. intros y [->|Hy]%elem_of_set_insert; [lia|].
    rewrite Forall_forall in Hz. by apply Hz.
Qed.
Lemma sorted_NoDup ids : sorted ids → NoDup ids.
Proof. induction 1 as [|z ids Hs IH Hz]; constructor; [|done]. intros Hin. rewrite Forall_forall in Hz. specialize (Hz z Hin). lia. Qed.

(** What the range query collects. *)
Lemma collect_lines_ok (rows : list (Z * record)) : ∀ a, sorted a → Forall (λ x, table_of x.2 = TOrderLine) rows →
  ∃ a', foldl (λ o x, a ← o; collect a x.2) (Ok a) rows = Ok a' ∧ sorted a' ∧
    ∀ id, id ∈ a' ↔ id ∈ a ∨ (id ≠ NewOrderTx.UNUSED_ID ∧ ∃ key l, (key, ROrderLine l) ∈ rows ∧ ol_i_id l = id).
Proof.
  induction rows as [|[key r] rows IH]; intros a Ha Hr; [exists a; split_and!; [done|done|set_solver]|].
  apply Forall_cons in Hr as [Ht Hr]. simpl in Ht. destruct r as [| | | | | | | |l]; try discriminate Ht. simpl.
  set (a1 := if ol_i_id l =? NewOrderTx.UNUSED_ID then a else set_insert (ol_i_id l) a).
  destruct (IH a1) as (a' & E & Hs & Hin); [unfold a1; destruct (_ =? _); [done|by apply set_insert_sorted]|done|].
  exists a'. split_and!; [done|done|]. intros id. rewrite Hin.
  assert (id ∈ a1 ↔ id ∈ a ∨ (id ≠ NewOrderTx.UNUSED_ID ∧ ol_i_id l = id)) as ->.
  { unfold a1. destruct (Z.eqb_spec (ol_i_id l) NewOrderTx.UNUSED_ID); [naive_solver|]. rewrite elem_of_set_insert. naive_solver. }
  split; [intros [[?|[? ?]]|(? & key' & l' & ? & ?)]|intros [?|(? & key' & l' & Hl & ?)]].
  - by left.
  - right. split; [done|]. exists key, l. split; [by left|done].
  - right. split; [done|]. exists key', l'. split; [by right|done].
  - by left; left.
  - apply elem_of_cons in Hl as [[= -> ->]|Hl]; [left; by right|right; split; [done|by exists key', l']].
Qed.

(** The loop over the set. *)
Lemma low_stock_ok m ids : ∀ w rs, St b h stat w m 0 [] rs None → Forall (λ id, ∃ s, b (stock_key id) = Some (RStock s)) ids →
  ∃ ids' , low_stock c i ids w = Ok (inr ids', w) ∧ ids' `sublist_of` ids ∧
    ∀ id, id ∈ ids' ↔ id ∈ ids ∧ ∃ s, b (stock_key id) = Some (RStock s) ∧ s_quantity s < threshold i.
Proof.
  induction ids as [|id ids IH]; intros w rs Hs Hst; [exists []; split_and!; [done|done|set_solver]|].
  apply Forall_cons in Hst as [[s Hid] Hst].
  assert (wp (low_stock c i (id :: ids)) w (λ ids' w', w' = w ∧ ids' `sublist_of` id :: ids ∧
    ∀ id', id' ∈ ids' ↔ id' ∈ id :: ids ∧ ∃ s, b (stock_key id') = Some (RStock s) ∧ s_quantity s < threshold i)) as (ids' & w' & E & -> & H); [|by exists ids'].
  cbn [low_stock]. eapply wp_bind, (wp_get_record c Hc b h stat); [exact Hs|exact Hid|]. clear Hs. intros sp Hs.
  eapply wp_bind, (wp_read_row b h stat); [exact Hs|by left|exact Hid|]. intros r (s1 & -> & Hs1)%cols_stock _. eexists. split; [done|].
  assert (s_quantity s1 = s_quantity s) as -> by by injection Hs1.
  destruct (IH w _ Hs Hst) as (rest & E & Hsub & Hin). eapply wp_bind. exists rest, w. split; [exact E|]. apply wp_ret. split; [done|].
  destruct (Z.leb_spec (threshold i) (s_quantity s)).
  - split; [by constructor|]. intros id'. rewrite Hin, elem_of_cons. split; [naive_solver|]. intros [[->|?] (s' & Hs' & ?)]; [|naive_solver].
    rewrite Hid in Hs'. injection Hs' as <-. lia.
  - split; [by constructor|]. intros id'. rewrite elem_of_cons, Hin, elem_of_cons. split; [|naive_solver].
    intros [->|?]; [|naive_solver]. split; [by left|]. by exists s.
Qed.

Lemma stocklevel_run_ok time w d m : St b h stat w m 0 [] [] None → b district_key = Some (RDistrict d) →
  (∀ id, recent_item (d_next_o_id d) id → ∃ s, b (stock_key id) = Some (RStock s)) →
  ∃ w' ids, run c time i w = Ok (inr Status.SUCCESS, w') ∧
    w_out w' = w_out w ++ [VInt (w_id i); VInt (d_id i); VInt (threshold i); VInt (Z.of_nat (length ids))] ∧
    NoDup ids ∧ (∀ id, id ∈ ids ↔ low_item (d_next_o_id d) id) ∧
    ok (w_tx w') ∧ idle (w_tx w') ∧ (∀ k, eqv (base (w_tx w') k) (m (TRow k))).
Proof.
  intros Hs Hd Hst.
  assert (wp (run c time i) w (λ st w', st = Status.SUCCESS ∧ ∃ ids,
    w_out w' = w_out w ++ [VInt (w_id i); VInt (d_id i); VInt (threshold i); VInt (Z.of_nat (length ids))] ∧
    NoDup ids ∧ (∀ id, id ∈ ids ↔ low_item (d_next_o_id d) id) ∧
    ok (w_tx w') ∧ idle (w_tx w') ∧ (∀ k, eqv (base (w_tx w') k) (m (TRow k))))) as (st & w' & E & -> & ids & H); [|by exists w', ids].
  unfold run. cbv zeta. eapply wp_bind. eexists _, _. split; [reflexivity|]. set (w1 := mkWorld _ _ _ _ _).
  assert (St b h stat w1 m 0 [] [] None) as Hs1 by by apply (St_tx b h stat w). clear Hs. rename Hs1 into Hs.
  eapply wp_bind, (wp_get_record c Hc b h stat); [exact Hs|exact Hd|]. clear Hs. intros dp Hs.
  eapply wp_bind, (wp_read_row b h stat); [exact Hs|by left|exact Hd|]. intros r (d1 & -> & Hd1)%cols_district _. eexists. split; [done|].
  assert (d_next_o_id d1 = d_next_o_id d) as -> by by injection Hd1. set (next := d_next_o_id d) in *.
  destruct (range_query_rows (w_tx w1) TOrderLine (OrderLineKey.create_key (w_id i) (d_id i) (u32 (next - 20)) 1)
    (OrderLineKey.create_key (w_id i) (d_id i) next 1) collect [] (st_ok _ _ _ _ _ _ _ _ _ Hs)) as (rows & _ & Hrows & Hq).
  destruct (collect_lines_ok rows []) as (a & Ha & Hsorted & Hin); [constructor| |].
  { apply Forall_forall. intros [key r] [Hb _]%Hrows. by destruct (base_typed _ _ _ (st_ok _ _ _ _ _ _ _ _ _ Hs) Hb) as [? _]. }
  rewrite Ha in Hq. assert (∀ id, id ∈ a ↔ recent_item next id) as Hrec.
  { intros id. rewrite Hin. unfold recent_item. split.
    - intros [?%elem_of_nil|(? & key & l & [Hb Hk]%Hrows & Hl)]; [done|]. split; [done|]. pose proof (st_base _ _ _ _ _ _ _ _ _ Hs (TOrderLine, key)) as Heq.
      rewrite Hb in Heq. symmetry in Heq. apply eqv_some in Heq as (r & Hr & Hcols). destruct r as [| | | | | | | |l']; try discriminate Hcols.
      exists key, l'. split_and!; [done|done..|]. injection Hcols. congruence.
    - intros (? & key & l & Hb & Hk & Hl). right. split; [done|]. pose proof (st_base _ _ _ _ _ _ _ _ _ Hs (TOrderLine, key)) as Heq.
      rewrite Hb in Heq. apply eqv_some in Heq as (r & Hr & Hcols). destruct r as [| | | | | | | |l']; try discriminate Hcols.
      exists key, l'. split; [by apply Hrows|]. injection Hcols. congruence. }
  eapply wp_bind, (wp_call c Hc); [exact Hq|]. rewrite set_tx_same.
  destruct (low_stock_ok m a w1 _ Hs) as (ids & E & Hsub & Hids); [apply Forall_forall; intros id Hid; by apply Hst, Hrec|].
  eapply wp_bind. eexists ids, w1. split; [exact E|]. eapply wp_bind. eexists _, _. split; [reflexivity|]. set (w2 := mkWorld _ _ _ _ _).
  assert (St b h stat w2 m 0 [] [(dp, district_key)] None) as Hs2 by by apply (St_tx b h stat w1).
  destruct (commit_rule b h stat (abort_id PRECOMMIT) time _ _ _ _ _ Hs2) as (w3 & E3 & Hok & Hidle & Hb & _ & _).
  exists Status.SUCCESS, w3. split; [exact E3|]. split; [done|]. exists ids. split_and!.
  - unfold helper_commit, mbind, M_bind, on_tx in E3. destruct (commit (w_tx w2)) as [[[] t]| | |]; simpl in E3; try discriminate; injection E3 as <-; simpl; by rewrite <-app_assoc.
  - eapply sublist_NoDup; [|exact Hsub]. by apply sorted_NoDup.
  - intros id. rewrite Hids, Hrec. done.
  - done.
  - done.
  - done.
Qed.
End stocklevel.

(** C18: The stock level over any protocol that keeps its promises: the last
    value the transaction outputs is the number of different items (but the
    one that marks an unused line) on the lines of the last twenty orders of
    the district whose stock at the warehouse is below the threshold; it
    commits and no row changes. *)
Theorem stocklevel_reports `{TS : TransactionSpec} (c : Config) (b : table * Z → option record) (i : Input) (time : Z) (w : world) (d : District) :
  does_random_abort c = false → ok (w_tx w) → idle (w_tx w) → (∀ k, eqv (base (w_tx w) k) (b k)) →
  b (district_key i) = Some (RDistrict d) → (∀ id, recent_item b i (d_next_o_id d) id → ∃ s, b (stock_key i id) = Some (RStock s)) →
  ∃ w' ids, run c time i w = Ok (inr Status.SUCCESS, w') ∧
    w_out w' = w_out w ++ [VInt (w_id i); VInt (d_id i); VInt (threshold i); VInt (Z.of_nat (length ids))] ∧
    NoDup ids ∧ (∀ id, id ∈ ids ↔ low_item b i (d_next_o_id d) id) ∧
    ok (w_tx w') ∧ idle (w_tx w') ∧ (∀ k, eqv (base (w_tx w') k) (b k)).
Proof. intros Hc Hok Hid Hb Hd Hs. exact (stocklevel_run_ok c Hc b _ _ i time w d _ (idle_St b _ _ w Hok Hid Hb eq_refl eq_refl) Hd Hs). Qed.
End TpccStockLevel.
