(* ===== verification/TpccStat.v ===== *)
(** * TPC-C: the statistics add up

    Over any protocol and for every outcome, a run of a transaction counts
    once, under the status it returns; a run with retries counts one commit or
    one user abort at the end, and a system abort for every retry. *)
From S2P Require Import Prelude BitFields Utils Records RecordGen Tx Tpcc.

Create HintDb counts.

Module TpccStat.
Import Records Tx Tpcc.

(** The counters of commits, user aborts and system aborts. *)
Definition counters (s : PerTxType) : Z * Z * Z := (num_commits s, num_usr_aborts s, num_sys_aborts s).
Definition count (st : Status.t) (n : Z * Z * Z) : Z * Z * Z :=
  match st with
  | Status.SUCCESS => (u64 (n.1.1 + 1), n.1.2, n.2)
  | Status.USER_ABORT => (n.1.1, u64 (n.1.2 + 1), n.2)
  | Status.SYSTEM_ABORT => (n.1.1, n.1.2, u64 (n.2 + 1))
  | Status.BUG => n
  end.

Section stat.
Context `{TX : Transaction} (c : Config).
Implicit Types w : world.

(** A step counts only when it ends the run. *)
Definition counts {A} (e : M A) : Prop := ∀ w r w', e w = Ok (r, w') →
  counters (w_stat w') = match r with inl st => count st (counters (w_stat w)) | inr _ => counters (w_stat w) end.
(** A run, which ends by its last value or before. *)
Definition counts_run (e : M Status.t) : Prop := ∀ w r w', e w = Ok (r, w') →
  counters (w_stat w') = count (match r with inl st | inr st => st end) (counters (w_stat w)).

Lemma counts_bind {A B} (e : M A) (f : A → M B) : counts e → (∀ a, counts (f a)) → counts (e ≫= f).
Proof.
  intros He Hf w r w'. unfold mbind, M_bind. intros ([r1 w1] & E & H)%bind_Ok. specialize (He _ _ _ E).
  destruct r1 as [st|a]; [by injection H as <- <-|]. specialize (Hf _ _ _ _ H). by rewrite Hf, He.
Qed.
Lemma counts_run_bind {A} (e : M A) (f : A → M Status.t) : counts e → (∀ a, counts_run (f a)) → counts_run (e ≫= f).
Proof.
  intros He Hf w r w'. unfold mbind, M_bind. intros ([r1 w1] & E & H)%bind_Ok. specialize (He _ _ _ E).
  destruct r1 as [st|a]; [by injection H as <- <-|]. specialize (Hf _ _ _ _ H). by rewrite Hf, He.
Qed.
Lemma counts_ret {A} (a : A) : counts (mret a).
Proof. by intros w r w' [= <- <-]. Qed.
Lemma counts_out {A} (o : outcome A) : counts (out_of o).
Proof. intros w r w' (a & _ & [= <- <-])%bind_Ok. done. Qed.
Lemma counts_rand {A} (m : Rand A) : counts (rand m).
Proof. intros w r w' ([a g] & _ & [= <- <-])%bind_Ok. done. Qed.
Lemma counts_clock : counts get_timestamp.
Proof. by intros w r w' [= <- <-]. Qed.
Lemma counts_emit vs : counts (emit vs).
Proof. by intros w r w' [= <- <-]. Qed.
Lemma counts_on_tx {A} (f : tx → outcome (A * tx)) : counts (on_tx f).
Proof. intros w r w' ([a t] & _ & [= <- <-])%bind_Ok. done. Qed.
Lemma counts_read {A} (cast : record → option A) p : counts (read cast p).
Proof. intros w r w' (l & _ & (x & _ & (a & _ & [= <- <-])%bind_Ok)%bind_Ok)%bind_Ok. done. Qed.
Lemma counts_write p r0 : counts (write p r0).
Proof. intros w r w' (l & _ & (x & _ & [= <- <-])%bind_Ok)%bind_Ok. done. Qed.
#[local] Hint Resolve @counts_ret @counts_out @counts_rand @counts_clock @counts_emit @counts_on_tx @counts_read @counts_write : counts.
Ltac counts := repeat first [progress intros | progress eauto with counts nocore | apply counts_bind | apply counts_run_bind | case_match].

Lemma counts_not_succeeded res : counts (not_succeeded c res).
Proof. unfold not_succeeded. counts. Qed.
Lemma kill_counts res id w r w' : kill res id w = Ok (r, w') →
  counters (w_stat w') = count (match r with inl st | inr st => st end) (counters (w_stat w)) ∧ ∃ st, r = inr st.
Proof.
  destruct res; simpl; [done|intros [= <- <-]; split; [done|by eexists]|]. unfold mbind, M_bind, on_stat. simpl. intros [= <- <-]. split; [done|by eexists].
Qed.
Lemma counts_check res id : counts (check c res id).
Proof.
  apply counts_bind; [apply counts_not_succeeded|]. intros [[] res']; [|apply counts_ret]. intros w r w'. unfold mbind, M_bind.
  intros ([r1 w1] & (E & st & ->)%kill_counts & [= <- <-])%bind_Ok. done.
Qed.
Lemma counts_call {A} (f : tx → outcome (Result * A * tx)) id : counts (call c f id).
Proof. apply counts_bind; [apply counts_on_tx|]. intros x. apply counts_bind; [apply counts_check|]. intros _. apply counts_ret. Qed.
Lemma counts_call_ (f : tx → outcome (Result * tx)) id : counts (call_ c f id).
Proof. apply counts_bind; [apply counts_on_tx|]. intros x. apply counts_check. Qed.
#[local] Hint Resolve counts_check @counts_call counts_call_ : counts.
Lemma counts_usr_abort : counts (st ← usr_abort; return_ (A := ()) st).
Proof. by intros w r w' [= <- <-]. Qed.
Lemma counts_commit id time : counts_run (helper_commit id time).
Proof.
  intros w r w'. unfold helper_commit, mbind, M_bind, on_tx. intros ([r1 w1] & ([b t] & E & [= <- <-])%bind_Ok & H)%bind_Ok.
  destruct b; by injection H as <- <-.
Qed.
#[local] Hint Resolve counts_usr_abort counts_commit : counts.

Lemma neworder_counts time i : counts_run (NewOrderTx.run c time i).
Proof.
  assert (∀ o n total, counts (NewOrderTx.order_line c i o n total)) as Hl by (intros; unfold NewOrderTx.order_line; counts).
  assert (∀ o k n total, counts (NewOrderTx.order_lines c i o k n total)) as Hls.
  { intros o k. induction k as [|k IH]; intros n total; simpl; [apply counts_ret|]. apply counts_bind; [apply Hl|intros; apply IH]. }
  unfold NewOrderTx.run. counts.
Qed.
Lemma payment_counts time i : counts_run (PaymentTx.run c time i).
Proof. unfold PaymentTx.run. counts. Qed.

Lemma delivery_counts time i : counts_run (DeliveryTx.run c time i).
Proof.
  assert (∀ low up, counts (DeliveryTx.update_lines c low up)) as Hu.
  { intros low up w r w'. unfold DeliveryTx.update_lines. intros ([[res a] t] & _ & H)%bind_Ok.
    assert (counts (_ ← check c res (DeliveryTx.abort_id DeliveryTx.RANGE_UPDATE_ORDERLINE); mret a.1)) as Hc by counts.
    by apply Hc in H. }
  assert (∀ d, counts (DeliveryTx.district c i d)) as Hd by (intros; unfold DeliveryTx.district; counts; apply Hu).
  assert (∀ n d, counts (DeliveryTx.districts c i n d)) as Hds.
  { intros n. induction n as [|n IH]; intros d; simpl; [apply counts_ret|]. apply counts_bind; [apply Hd|intros; apply IH]. }
  unfold DeliveryTx.run. counts.
Qed.

Lemma orderstatus_counts time i : counts_run (OrderStatusTx.run c time i).
Proof. unfold OrderStatusTx.run. counts. Qed.

Lemma stocklevel_counts time i : counts_run (StockLevelTx.run c time i).
Proof.
  assert (∀ ids, counts (StockLevelTx.low_stock c i ids)) as Hl by (intros ids; induction ids; simpl; counts; done).
  unfold StockLevelTx.run. counts.
Qed.

(** The runner. *)
Lemma runner_counts {Input} (generate : Z → M Input) (profile : Input → M Status.t) thread_id :
  (∀ z, counts (generate z)) → (∀ i, counts_run (profile i)) → counts_run (TxRunner.run c generate profile thread_id).
Proof. intros Hg Hp. unfold TxRunner.run. counts. Qed.

(** [n] system aborts. *)
Definition retried (n : nat) (x : Z * Z * Z) : Z * Z * Z := Nat.iter n (count Status.SYSTEM_ABORT) x.

Lemma retry_counts fuel e w b w' : counts_run e → TxRunner.run_with_retry fuel e w = Ok (b, w') →
  ∃ n, (n < fuel)%nat ∧ counters (w_stat w') = count (if b : bool then Status.SUCCESS else Status.USER_ABORT) (retried n (counters (w_stat w))).
Proof.
  intros He. revert w. induction fuel as [|fuel IH]; intros w; simpl; [done|]. unfold TxRunner.status. intros ([r w1] & E & H)%bind_Ok.
  specialize (He _ _ _ E). assert (∃ st, match r with inl st | inr st => st end = st) as [st Hst] by by eexists.
  rewrite Hst in He. assert (match st with Status.SUCCESS => Ok (true, w1) | Status.USER_ABORT => t ← abort (w_tx w1); Ok (false, set_tx w1 t)
    | Status.SYSTEM_ABORT => TxRunner.run_with_retry fuel e w1 | Status.BUG => Stuck end = Ok (b, w')) as H' by (by destruct r; simpl in *; subst).
  clear H. destruct st; simpl in H'; [| | |done].
  - injection H' as <- <-. exists 0%nat. split; [lia|]. by rewrite He.
  - apply bind_Ok in H' as (t & _ & [= <- <-]). exists 0%nat. split; [lia|]. simpl. by rewrite He.
  - destruct (IH _ H') as (n & Hn & ->). exists (S n). split; [lia|]. unfold retried. by rewrite Nat.iter_succ_r, He.
Qed.

(** A kind of transaction with a new random input; [last] is the memory of the
    name, [time] what the clock measures. *)
Inductive Profile := NewOrder | Payment | Delivery | OrderStatus | StockLevel.
Definition profile_run (p : Profile) (draws : nat) (last : chars) (time thread_id : Z) : M Status.t :=
  match p with
  | NewOrder => TxRunner.run c (λ ware, now ← get_timestamp; rand (NewOrderTx.generate c draws ware now)) (NewOrderTx.run c time) thread_id
  | Payment => TxRunner.run c (λ ware, now ← get_timestamp; rand (PaymentTx.generate c draws last ware now)) (PaymentTx.run c time) thread_id
  | Delivery => TxRunner.run c (λ ware, now ← get_timestamp; rand (DeliveryTx.generate ware now)) (DeliveryTx.run c time) thread_id
  | OrderStatus => TxRunner.run c (λ ware, rand (OrderStatusTx.generate last ware)) (OrderStatusTx.run c time) thread_id
  | StockLevel => TxRunner.run c (λ ware, rand (StockLevelTx.generate ware)) (StockLevelTx.run c time) thread_id
  end.
Lemma profile_counts p draws last time thread_id : counts_run (profile_run p draws last time thread_id).
Proof.
  destruct p; (apply runner_counts; [intros; counts|]);
    auto using neworder_counts, payment_counts, delivery_counts, orderstatus_counts, stocklevel_counts.
Qed.

(** C20: The statistics add up, over any protocol and whatever its calls
    return: a transaction of any kind that is run with retries counts once as
    a commit when the call returns true and once as a user abort when it
    returns false, and each of its retries counts once as a system abort. *)
Theorem tpcc_counts p draws last time thread_id fuel w b w' :
  TxRunner.run_with_retry fuel (profile_run p draws last time thread_id) w = Ok (b, w') →
  ∃ n, (n < fuel)%nat ∧ counters (w_stat w') = count (if b : bool then Status.SUCCESS else Status.USER_ABORT) (retried n (counters (w_stat w))).
Proof. apply retry_counts, profile_counts. Qed.
End stat.
End TpccStat.
