(* ===== verification/NaiveRun.v ===== *)
(** * Naive and TPC-C: claims and runs

    What the naive protocol promises, over any use of it, and a small database
    on which the transactions run, for the witnesses. *)
From stdpp Require Import sorting.
From S2P Require Import Prelude BitFields Utils Records RecordGen Tx Tpcc Naive NaiveInv NaiveCommit NaiveTx TxSerial TpccRules TpccNewOrder TpccPayment TpccStockLevel.

Import Records Tx Tpcc TpccRules Naive NaiveInv NaiveCommit NaiveTx.

(** ** An instance *)

(** Amounts in cents. *)
#[export] Instance cents : Double := {|
  double := Z; d_of_Z z := z; d_add := Z.add; d_sub := Z.sub; d_mul := Z.mul; d_div := Z.div; d_print := Tpcc.PaymentTx.dec
|}.
Section blank.
(** A record whose arrays are full of [x]. *)
Context (x : Z).
Definition arr (n : nat) : chars := replicate (S n) x.
Definition blank_address : Address := mkAddress (arr MAX_STREET) (arr MAX_STREET) (arr MAX_CITY) (arr STATE) (arr ZIP).
Definition blank (tb : table) : record :=
  match tb with
  | TItem => RItem (Records.mkItem 0 0 0 (arr MAX_NAME) (arr MAX_DATA))
  | TWarehouse => RWarehouse (mkWarehouse 0 0 0 (arr W_MAX_NAME) blank_address)
  | TStock => RStock (mkStock 0 0 0 0 0 0 (replicate dist_size x) (arr MAX_DATA))
  | TDistrict => RDistrict (mkDistrict 0 0 0 0 0 (arr D_MAX_NAME) blank_address)
  | TCustomer => RCustomer (mkCustomer 0 0 0 0 0 0 0 0 0 0 (arr MAX_FIRST) (arr MAX_MIDDLE) (arr MAX_LAST) (arr PHONE) (arr CREDIT) (arr C_MAX_DATA) blank_address)
  | THistory => RHistory (mkHistory 0 0 0 0 0 0 0 (arr H_MAX_DATA))
  | TOrder => ROrder (mkOrder 0 0 0 0 0 0 0 0)
  | TNewOrder => RNewOrder (mkNewOrder 0 0 0)
  | TOrderLine => ROrderLine (mkOrderLine 0 0 0 0 0 0 0 0 0 (arr DIST_INFO))
  end.
End blank.
(** New memory is full of X. *)
Definition junk (tb : table) (l : loc) : record := blank 88 tb.

Definition sizedb (r : record) : bool := forallb (λ y, Nat.eqb (length y.2) (S y.1)) (arrays r) && match r with RStock s => Nat.eqb (length (s_dist s)) dist_size | _ => true end.
Definition terminatedb (r : record) : bool := forallb (λ y, Nat.leb (length (str y.2)) y.1) (arrays r).
Lemma sizedb_ok r : sizedb r = true → sized r.
Proof.
  unfold sizedb, sized. intros [H1 H2]%andb_true_iff. split.
  - apply Forall_forall. intros y Hy. apply forallb_forall with (x := y) in H1; [by apply Nat.eqb_eq|by apply list_elem_of_In].
  - destruct r; try done. by apply Nat.eqb_eq.
Qed.
Lemma terminatedb_ok r : terminatedb r = true → terminated r.
Proof.
  intros H. apply Forall_forall. intros y Hy. apply forallb_forall with (x := y) in H; [by apply Nat.leb_le|by apply list_elem_of_In].
Qed.
Lemma junk_ok tb l : table_of (junk tb l) = tb ∧ sized (junk tb l).
Proof. split; [by destruct tb|]. apply sizedb_ok. by destruct tb. Qed.

#[export] Instance naive : Transaction := naive_transaction junk.
#[export] Instance naive_promises : TransactionSpec (TX := naive) := naive_spec junk junk_ok.

Definition empty : state := mkState ∅ ∅ (mkDb ∅ [] [] []) ∅ [].
Lemma empty_database_ok : TxSerial.holds (TS := naive_promises) empty (λ _, None, []).
Proof.
  split; [|done|done|done]. exists ∅. split; try done.
  - split.
    + intros tb l. unfold cached. simpl. rewrite lookup_empty. simpl. by rewrite elem_of_nil.
    + intros tb. constructor.
    + intros l p. by rewrite lookup_empty.
  - intros k l. simpl. rewrite !lookup_empty. naive_solver.
  - intros l. simpl. rewrite lookup_empty, elem_of_nil. naive_solver.
  - intros l. simpl. rewrite lookup_empty, elem_of_nil. naive_solver.
  - constructor.
Qed.

(** ** Loading rows *)
Definition table_rows : Type := list ((table * Z) * record).
Definition rows_of (rs : table_rows) : table * Z → option record := foldl (λ m x, TxSerial.upd m x.1 (Some x.2)) (λ _, None) rs.
Definition row_ok (x : (table * Z) * record) : bool :=
  bool_decide (x.1.1 ≠ THistory) && bool_decide (table_of x.2 = x.1.1) && sizedb x.2 && terminatedb x.2.
Definition load_ops (rs : table_rows) : list TxSerial.op := (λ x, TxSerial.Insert x.1 x.2) <$> rs.

Lemma load_spec rs m : NoDup rs.*1 → forallb row_ok rs = true → (∀ x, x ∈ rs → m x.1 = None) →
  TxSerial.spec_ops (m, []) (load_ops rs) (foldl (λ m x, TxSerial.upd m x.1 (Some x.2)) m rs, []).
Proof.
  revert m. induction rs as [|x rs IH]; intros m Hnd Hok Hm; [constructor|]. simpl in *. apply NoDup_cons in Hnd as [Hx Hnd].
  apply andb_true_iff in Hok as [Hok Hrs]. unfold row_ok in Hok. apply andb_true_iff in Hok as [[[H1%bool_decide_eq_true H2%bool_decide_eq_true]%andb_true_iff H3]%andb_true_iff H4].
  econstructor; [constructor; [done|apply Hm; by left|done|split; [by apply sizedb_ok|by apply terminatedb_ok]]|].
  apply IH; [done|done|]. intros y Hy. unfold TxSerial.upd. rewrite decide_False; [apply Hm; by right|]. intros E. apply Hx. rewrite <-E. by apply list_elem_of_fmap_2.
Qed.

(** The database after the rows are loaded. *)
Lemma loaded rs : NoDup rs.*1 → forallb row_ok rs = true →
  ∃ s, TxSerial.transactions (TX := naive) empty [(load_ops rs, true)] = Ok s ∧ TxSerial.holds (TS := naive_promises) s (rows_of rs, []).
Proof.
  intros Hnd Hok. eapply (TxSerial.transactions_ok (TS := naive_promises)); [exact empty_database_ok|]. eapply TxSerial.TCommit; [|constructor]. by apply load_spec.
Qed.
Lemma holds_eqv (s : state) rs k : TxSerial.holds (TS := naive_promises) s (rows_of rs, []) → eqv (base (TransactionSpec := naive_promises) s k) (rows_of rs k).
Proof.
  intros [_ _ Hb _]. specialize (Hb k). unfold eqv. simpl in *. destruct (committed s k), (rows_of rs k); try done. simpl in *. f_equal.
  injection Hb as Hb. unfold cols. by rewrite Hb.
Qed.

(** ** The small database *)
Definition a_warehouse : record := match blank 0 TWarehouse with RWarehouse w => RWarehouse (mkWarehouse 1 10 0 (w_name w) (w_address w)) | r => r end.
Definition the_district : District := mkDistrict 1 1 3001 5 0 (arr 0 D_MAX_NAME) (blank_address 0).
Definition a_district : record := RDistrict the_district.
(** Customer [c], whose last name is BAR. *)
Definition a_customer (c : Z) : record :=
  match blank 0 TCustomer with
  | RCustomer cu => RCustomer (mkCustomer 1 1 c 0 0 0 0 3 100 0 (c_first cu) (c_middle cu)
      (copy_cstr (Records.c_last cu) (bytes_of "BAR" ++ [0]) (S MAX_LAST)) (c_phone cu) (copy_cstr (c_credit cu) (bytes_of "BC" ++ [0]) (S CREDIT)) (c_data cu) (c_address cu))
  | r => r
  end.
Definition an_item (id : Z) : record := match blank 0 TItem with RItem it => RItem (Records.mkItem id 0 20 (i_name it) (i_data it)) | r => r end.
(** The texts of its districts are full of D. *)
Definition dist_texts : chars := concat (replicate 10 (replicate DIST 68 ++ [0])).
Definition a_stock (id quantity : Z) : record :=
  match blank 0 TStock with RStock s => RStock (mkStock 1 id quantity 0 0 0 dist_texts (s_data s)) | r => r end.
Definition small : table_rows :=
  [((TWarehouse, WarehouseKey_create_key 1), a_warehouse); ((TDistrict, DistrictKey.create_key 1 1), a_district);
   ((TCustomer, CustomerKey.create_key 1 1 1), a_customer 1); ((TCustomer, CustomerKey.create_key 1 1 2), a_customer 2);
   ((TItem, ItemKey_create_key 1), an_item 1); ((TItem, ItemKey_create_key 7), an_item 7);
   ((TStock, StockKey.create_key 1 1), a_stock 1 50); ((TStock, StockKey.create_key 1 7), a_stock 7 12)].

Lemma small_ok : NoDup small.*1 ∧ forallb row_ok small = true.
Proof. split; [apply (bool_decide_unpack _); by vm_compute|by vm_compute]. Qed.
Definition cfg : Config := mkConfig 1 1 false false.
Definition world_of (s : state) : world (TX := naive) := mkWorld s (Xoshiro256PlusPlus.mkS 1 2 3 4) 100 PerTxType_new [].

(** *** A new order of two lines of item 7 *)
Definition an_order : NewOrderTx.Input := NewOrderTx.mkInput 1 1 1 2 0 false false [NewOrderTx.mkItem 1 7 1; NewOrderTx.mkItem 1 7 10].

Lemma order_ready : TpccNewOrder.ready (rows_of small) an_order.
Proof.
  split.
  - eexists. vm_compute. reflexivity.
  - eexists. vm_compute. reflexivity.
  - eexists. split; [vm_compute; reflexivity|]. split_and!; [by vm_compute|by vm_compute|]. intros n _. reflexivity.
  - vm_compute. done.
  - vm_compute. done.
  - repeat constructor; try (vm_compute; done); eexists; vm_compute; reflexivity.
Qed.
Lemma neworder_commits_witness : ∃ (s : state) w',
  TxSerial.holds (TS := naive_promises) s (rows_of small, []) ∧ Tpcc.NewOrderTx.run (TX := naive) cfg 5 an_order (world_of s) = Ok (inr Status.SUCCESS, w') ∧
  (∀ k, eqv (committed (w_tx w') k) (TpccNewOrder.neworder_spec (rows_of small) an_order 100 (TRow k))).
Proof.
  destruct (loaded small (proj1 small_ok) (proj2 small_ok)) as (s & _ & Hs). pose proof Hs as [Hok Hid _ _].
  destruct (TpccNewOrder.neworder_commits (TS := naive_promises) cfg (rows_of small) an_order 5 (world_of s) eq_refl Hok Hid (λ k, holds_eqv s small k Hs) order_ready)
    as (w' & E & _ & _ & Hb & _). by exists s, w'.
Defined.

(** *** A payment of customer 1, who has bad credit *)
Definition a_payment : Tpcc.PaymentTx.Input := Tpcc.PaymentTx.mkInput 1 1 1 1 1 500 0 false (replicate 17 0).
Lemma payment_ready : TpccPayment.ready (rows_of small) a_payment.
Proof.
  split.
  - eexists. vm_compute. reflexivity.
  - eexists. vm_compute. reflexivity.
  - eexists. split; [vm_compute; reflexivity|]. vm_compute. lia.
  - apply TpccPayment.dec_nonzero.
  - done.
Qed.
Lemma payment_commits_witness : ∃ (s : state) w',
  TxSerial.holds (TS := naive_promises) s (rows_of small, []) ∧ Tpcc.PaymentTx.run (TX := naive) cfg 5 a_payment (world_of s) = Ok (inr Status.SUCCESS, w') ∧
  (∀ k, eqv (committed (w_tx w') k) (TpccPayment.payment_spec (rows_of small) a_payment 100 (TRow k))).
Proof.
  destruct (loaded small (proj1 small_ok) (proj2 small_ok)) as (s & _ & Hs). pose proof Hs as [Hok Hid _ _].
  destruct (TpccPayment.payment_commits (TS := naive_promises) cfg (rows_of small) a_payment 5 (world_of s) eq_refl Hok Hid (λ k, holds_eqv s small k Hs) payment_ready)
    as (w' & E & _ & _ & Hb & _). by exists s, w'.
Defined.

(** *** A new order whose second item is item 1 *)
Definition rolled : NewOrderTx.Input := NewOrderTx.mkInput 1 1 1 2 0 true false [NewOrderTx.mkItem 1 7 1; NewOrderTx.mkItem 1 1 5].

Lemma rolled_ready : TpccNewOrder.ready (rows_of small) (TpccNewOrder.with_items rolled [NewOrderTx.mkItem 1 7 1]).
Proof.
  split.
  - eexists. vm_compute. reflexivity.
  - eexists. vm_compute. reflexivity.
  - eexists. split; [vm_compute; reflexivity|]. split_and!; [by vm_compute|by vm_compute|]. intros n _. reflexivity.
  - vm_compute. done.
  - vm_compute. done.
  - repeat constructor; try (vm_compute; done); eexists; vm_compute; reflexivity.
Qed.
(** Item 1 is in the table, and the order is rolled back. *)
Lemma neworder_rolls_back_witness : is_Some (rows_of small (TItem, ItemKey_create_key 1)) ∧ ∃ (s : state) w',
  TxSerial.holds (TS := naive_promises) s (rows_of small, []) ∧
  Tpcc.TxRunner.run_with_retry (TX := naive) 1 (Tpcc.NewOrderTx.run (TX := naive) cfg 5 rolled) (world_of s) = Ok (false, w') ∧
  (∀ k, eqv (committed (w_tx w') k) (rows_of small k)).
Proof.
  split; [eexists; vm_compute; reflexivity|].
  destruct (loaded small (proj1 small_ok) (proj2 small_ok)) as (s & _ & Hs). pose proof Hs as [Hok Hid _ _].
  destruct (TpccNewOrder.neworder_rolls_back (TS := naive_promises) cfg (rows_of small) rolled 5 (world_of s) [NewOrderTx.mkItem 1 7 1] [] (NewOrderTx.mkItem 1 1 5) 0
    eq_refl Hok Hid (λ k, holds_eqv s small k Hs) eq_refl eq_refl eq_refl ltac:(done) rolled_ready)
    as (w' & E & _ & _ & Hb & _). by exists s, w'.
Defined.

(** *** The stock level, with one line of item 7 *)
Definition a_line : record := match blank 0 TOrderLine with ROrderLine l => ROrderLine (mkOrderLine 1 1 3000 1 7 1 0 1 20 (ol_dist_info l)) | r => r end.
Definition with_line : table_rows := ((TOrderLine, OrderLineKey.create_key 1 1 3000 1), a_line) :: small.
Lemma with_line_ok : NoDup with_line.*1 ∧ forallb row_ok with_line = true.
Proof. split; [apply (bool_decide_unpack _); by vm_compute|by vm_compute]. Qed.
Definition a_query : Tpcc.StockLevelTx.Input := Tpcc.StockLevelTx.mkInput 1 1 20.

Lemma only_line key l : rows_of with_line (TOrderLine, key) = Some (ROrderLine l) → ol_i_id l = 7.
Proof.
  cbn [rows_of with_line small foldl fst snd]. unfold TxSerial.upd. rewrite 8!decide_False by done. case_decide; [|done]. unfold a_line. cbn [blank]. by intros [= <-].
Qed.

Lemma stocklevel_reports_witness : ∃ (s : state) w' (ids : list Z),
  TxSerial.holds (TS := naive_promises) s (rows_of with_line, []) ∧ Tpcc.StockLevelTx.run (TX := naive) cfg 5 a_query (world_of s) = Ok (inr Status.SUCCESS, w') ∧
  (∀ id, id ∈ ids ↔ TpccStockLevel.low_item (rows_of with_line) a_query 3001 id).
Proof.
  destruct (loaded with_line (proj1 with_line_ok) (proj2 with_line_ok)) as (s & _ & Hs). pose proof Hs as [Hok Hid _ _].
  destruct (TpccStockLevel.stocklevel_reports (TS := naive_promises) cfg (rows_of with_line) a_query 5 (world_of s)
    the_district eq_refl Hok Hid (λ k, holds_eqv s with_line k Hs))
    as (w' & ids & E & _ & _ & Hids & _).
  - vm_compute. reflexivity.
  - intros id (_ & key & l & Hb & _ & <-). apply only_line in Hb as ->. eexists. vm_compute. reflexivity.
  - by exists s, w', ids.
Defined.

(** ** Claims *)

(** C17: The naive protocol does what a transaction says: after any series of
    transactions that insert, update and delete rows and append to the
    history, some committed and some aborted, the calls have all succeeded
    and the tables hold, up to what a copy of a record keeps, exactly what
    the committed transactions wrote, one after the other; whatever memory
    the cache hands out again. *)
Theorem naive_serial `{HD : Double} (new_memory : table → loc → record) (Hnew : ∀ tb l, table_of (new_memory tb l) = tb ∧ sized (new_memory tb l))
  (ts : list (list TxSerial.op * bool)) (s : state) (m m' : TxSerial.rows) :
  TxSerial.holds (TS := naive_spec new_memory Hnew) s m → TxSerial.spec_transactions m ts m' →
  ∃ s', TxSerial.transactions (TX := naive_transaction new_memory) s ts = Ok s' ∧ TxSerial.holds (TS := naive_spec new_memory Hnew) s' m'.
Proof. apply TxSerial.transactions_ok. Qed.

Lemma naive_serial_witness : ∃ s, TxSerial.transactions (TX := naive) empty [(load_ops small, true); ([TxSerial.Delete (TItem, ItemKey_create_key 7)], false)] = Ok s ∧
  norm <$> committed s (TItem, ItemKey_create_key 7) = norm <$> Some (an_item 7).
Proof.
  destruct (naive_serial junk junk_ok [(load_ops small, true); ([TxSerial.Delete (TItem, ItemKey_create_key 7)], false)] empty (λ _, None, []) (rows_of small, []) empty_database_ok)
    as (s & E & [_ _ Hb _]).
  - eapply TxSerial.TCommit; [by apply load_spec; try apply small_ok|]. eapply TxSerial.TAbort; [|constructor].
    eapply TxSerial.SCons; [|constructor]. eapply TxSerial.SDelete with (r := an_item 7); [done|by vm_compute].
  - exists s. split; [exact E|]. etrans; [exact (Hb (TItem, ItemKey_create_key 7))|]. reflexivity.
Defined.
