(* ===== verification/NaiveClaims.v ===== *)
(** * Naive and TPC-C: where the code does not do what it means to

    Runs of the naive protocol and of the transactions on the small database
    of NaiveRun.v, and the cases they are taken from. *)
From stdpp Require Import sorting.
From S2P Require Import Prelude BitFields Utils Records RecordGen Tx Tpcc Naive NaiveInv NaiveCommit NaiveTx TxSerial TpccRules TpccStat NaiveRun.

Import Records Tx Tpcc TpccRules Naive NaiveInv NaiveCommit NaiveTx.

(** The small database, loaded. *)
Definition loaded_state : outcome state := TxSerial.transactions (TX := naive) empty [(load_ops small, true)].

(** ** Witnesses *)

(** A customer generated over memory full of X. *)
Definition memory : Customer := match blank 88 TCustomer with RCustomer c => c | _ => mkCustomer 0 0 0 0 0 0 0 0 0 0 [] [] [] [] [] [] (blank_address 88) end.
Lemma generate_well_formed_witness : ∃ c st, RecordGen.Customer_generate memory 1 1 5 100 (Xoshiro256PlusPlus.mkS 1 2 3 4) = Ok (c, st) ∧ well_formed (RCustomer c).
Proof. apply (RecordGen.generate_well_formed (RCustomer memory)); [|lia]. apply sizedb_ok. by vm_compute. Defined.

(** A stock level with a random district, which is district 1. *)
Definition seeded (s : state) : world (TX := naive) := mkWorld s (Xoshiro256PlusPlus.mkS 22 2 3 4) 100 PerTxType_new [].
Definition stock_level_run : outcome (bool * world (TX := naive)) :=
  s ← loaded_state; TxRunner.run_with_retry (TX := naive) 1 (TpccStat.profile_run (TX := naive) cfg TpccStat.StockLevel 0 [] 5 0) (seeded s).
Lemma tpcc_counts_witness : ∃ s w, TxRunner.run_with_retry (TX := naive) 1 (TpccStat.profile_run (TX := naive) cfg TpccStat.StockLevel 0 [] 5 0) (seeded s) = Ok (true, w) ∧
  TpccStat.counters (w_stat w) = (1, 0, 0).
Proof.
  assert (match stock_level_run with Ok (b, _) => b | _ => false end = true) as H by by_vm. unfold stock_level_run in H.
  destruct loaded_state as [s| | |]; try discriminate H. cbn [mbind outcome_bind] in H. destruct (TxRunner.run_with_retry _ _ _) as [[[] w]| | |] eqn:E; try discriminate H.
  exists s, w. split; [exact E|]. destruct (TpccStat.tpcc_counts (TX := naive) cfg _ _ _ _ _ _ _ _ _ E) as (n & Hn & ->). assert (n = 0%nat) as -> by lia. reflexivity.
Defined.

(** *** The index by last name goes stale *)
Section stale.
Context `{HD : Double} (junk : table → loc → record) (Hjunk : ∀ tb l, table_of (junk tb l) = tb ∧ sized (junk tb l)).
Implicit Types (s : state) (l : loc).

Lemma allocate_frame s tb : db (allocate junk s tb).2 = db s ∧ ws (allocate junk s tb).2 = ws s ∧ ws_history (allocate junk s tb).2 = ws_history s.
Proof. unfold allocate. by destruct (last _). Qed.

(** The first update of a row in a transaction. *)
Lemma update_shape s tb key p s' : apply_update_to_writeset junk s tb key = Ok (p, s') → ws s !! (tb, key) = None →
  p = Some (allocate junk s tb).1 ∧ db s' = db s ∧ ws_history s' = ws_history s ∧
  ws s' = <[(tb, key) := mkLog UPDATE p (Some key)]> (ws s).
Proof.
  unfold apply_update_to_writeset. intros H Hw. rewrite Hw in H. destruct (db_get_record _ _ _) as [src|]; [|done].
  pose proof (allocate_frame s tb) as (Hd & Hws & Hh). destruct (allocate junk s tb) as [l s1]. simpl in *.
  apply bind_Ok in H as (to & _ & H). apply bind_Ok in H as (from & _ & H). apply bind_Ok in H as (r & _ & [= <- <-]).
  simpl. by rewrite Hws.
Qed.

Lemma last_deallocate s tb l : last (cached (deallocate s tb l) tb) = Some l.
Proof.
  unfold deallocate. destruct (cached s tb) as [|x q] eqn:Hq; simpl.
  - unfold cached. simpl. by rewrite lookup_insert_eq.
  - destruct (Nat.ltb _ _); unfold cached; simpl; rewrite lookup_insert_eq; simpl; [|rewrite app_comm_cons]; by rewrite last_snoc.
Qed.

Lemma allocate_last s tb l : last (cached s tb) = Some l → (allocate junk s tb).1 = l.
Proof. unfold allocate. by intros ->. Qed.

(** The commit of one updated customer, loop by loop. *)
Lemma entries_one {A} tb tb' key (a : A) : entries tb {[(tb', key) := a]} = if decide (tb' = tb) then [(key, a)] else [].
Proof. unfold entries. rewrite map_to_list_singleton. simpl. by case_decide. Qed.

Lemma drop_one tb tb' key lr : drop_table tb {[(tb', key) := lr]} = if decide (tb' = tb) then ∅ else {[(tb', key) := lr]}.
Proof.
  unfold drop_table. case_decide as Ht; [apply map_filter_singleton_False|apply map_filter_singleton_True]; simpl; tauto.
Qed.

Lemma set_ws_id s : set_ws s (ws s) = s.
Proof. by destruct s. Qed.

Lemma apply_other s tb key lr : ws s = {[(TCustomer, key) := lr]} → tb ≠ TCustomer → tb ≠ THistory → apply_writeset_to_database s tb = Ok s.
Proof.
  intros Hw Hc Hh. unfold apply_writeset_to_database. destruct tb; try done;
    rewrite Hw, entries_one, decide_False by done; simpl; by rewrite Hw, drop_one, decide_False, <- Hw, set_ws_id by done.
Qed.

Lemma apply_none s tb : ws s = ∅ → ws_history s = [] → apply_writeset_to_database s tb = Ok s.
Proof. intros Hw Hh. destruct s as [m ca [r c o h] w q]. simpl in Hw, Hh. subst w q. by destruct tb. Qed.

Lemma commit_one_update s key l l' : ws s = {[(TCustomer, key) := mkLog UPDATE (Some l') (Some key)]} → ws_history s = [] →
  rows (db s) !! (TCustomer, key) = Some l →
  commit s = Ok (true, set_ws (set_db (deallocate s TCustomer l) (set_rows (db s) (<[(TCustomer, key) := l']> (rows (db s))))) ∅).
Proof.
  intros Hw Hh Hr. set (s' := set_ws _ _).
  assert (ws_history s' = []) as Hh' by (unfold s'; simpl; by rewrite (proj2 (deallocate_ws s TCustomer l))).
  assert (apply_writeset_to_database s TCustomer = Ok s') as Hc.
  { unfold apply_writeset_to_database. rewrite Hw, entries_one, decide_True by done. simpl. unfold update_record. simpl. rewrite Hr. simpl.
    rewrite deallocate_db. f_equal. unfold s'. f_equal. rewrite (proj1 (deallocate_ws s TCustomer l)), Hw, drop_one. by rewrite decide_True. }
  unfold commit, apply_to_database, tables. cbn [each].
  do 4 (rewrite (apply_other s _ key _ Hw) by done; cbn [mbind outcome_bind]). rewrite Hc. cbn [mbind outcome_bind].
  by do 4 (rewrite apply_none by done; cbn [mbind outcome_bind]).
Qed.

Lemma store_shape s l r s' : store s l r = Ok s' → db s' = db s ∧ ws s' = ws s ∧ ws_history s' = ws_history s.
Proof. unfold store. by intros (x & _ & [= <-])%bind_Ok. Qed.

(** The record of a pending entry is not the record of a row. *)
Lemma pending_not_row s k k' l l' : good s → points s l' k → rows (db s) !! k' = Some l → l' ≠ l.
Proof.
  intros [own Hi] (lr & Hlr & Hp & _) Hl ->. assert (own !! l = Some (Pend k)) by (apply (i_ws _ _ Hi); by exists lr).
  apply (i_rows _ _ Hi) in Hl. congruence.
Qed.

(** A transaction has filled the row it updates. *)
Lemma filled_update s s' key r : good s → idle s → writes (TCustomer, key) (Some r) s s' → terminated r → filled s'.
Proof.
  intros [own Hi] Hid W Hr k r'. rewrite (w_view _ _ _ _ W). case_decide; [by intros [= <-]|]. rewrite idle_view by done. unfold committed.
  intros (l & Hl & Hm)%bind_Some. destruct (inv_row _ _ _ _ Hi Hl) as (r1 & Hr1 & _ & [_ ?]). congruence.
Qed.

(** The pointers the index by last name has for a name. *)
Definition named (d : database) (w dist : Z) (name : chars) : list loc :=
  let key := CustomerSecondaryKey.create_key w dist name in
  while_equal CustomerSecondaryKey.eq key (lower_bound CustomerSecondaryKey.lt key (customers d)).

Lemma named_customers d d' w dist name : customers d' = customers d → named d' w dist name = named d w dist name.
Proof. unfold named. by intros ->. Qed.

Lemma by_name_one s w dist name l : named (db s) w dist name = [l] → get_customer_by_last_name s w dist name = Ok (SUCCESS, Some l).
Proof. unfold named, get_customer_by_last_name. by intros ->. Qed.

(** C38: The index by last name goes stale.  In any state between
    transactions: a transaction that updates a customer and commits leaves the
    row with a new record, while the index still leads the customer's name to
    the old one, which still has the old contents; and the next transaction
    that updates another customer is handed that record to write in, so that
    the name of the first customer then finds the row of the second. *)
Theorem naive_stale_secondary s (key key2 : Z) l (r r2 : record) (w dist : Z) (name : chars) :
  good s → idle s → rows (db s) !! (TCustomer, key) = Some l → named (db s) w dist name = [l] →
  committed s (TCustomer, key2) = Some r2 → key2 ≠ key → table_of r = TCustomer → well_formed r →
  ∃ l' s1 s2 s3 s4 r', apply_update_to_writeset junk s TCustomer key = Ok (Some l', s1) ∧ store s1 l' r = Ok s2 ∧ commit s2 = Ok (true, s3) ∧
    l' ≠ l ∧ rows (db s3) !! (TCustomer, key) = Some l' ∧ committed s3 (TCustomer, key) = Some r ∧
    get_customer_by_last_name s3 w dist name = Ok (SUCCESS, Some l) ∧
    apply_update_to_writeset junk s3 TCustomer key2 = Ok (Some l, s4) ∧ mem s4 !! l = Some r' ∧ same r' r2 ∧
    committed s4 (TCustomer, key) = Some r ∧ get_customer_by_last_name s4 w dist name = Ok (SUCCESS, Some l).
Proof.
  intros Hg Hid Hl Hname Hr2 Hne Ht [Hz Hs].
  assert (∃ r0, view s (TCustomer, key) = Some r0) as [r0 Hr0].
  { destruct Hg as [own Hi]. destruct (inv_row _ _ _ _ Hi Hl) as (r0 & Hr0 & _). exists r0. rewrite idle_view by done. unfold committed. by rewrite Hl. }
  destruct (writeset_update_ok junk Hjunk s TCustomer key r0 Hg ltac:(done) Hr0) as (l' & s1 & r1 & E1 & W1 & P1 & _).
  destruct (update_shape _ _ _ _ _ E1) as (_ & Hd1 & Hh1 & Hw1); [by rewrite (proj1 Hid)|].
  destruct (store_ok s1 l' (TCustomer, key) r (w_good _ _ _ _ W1) P1 Ht Hz) as (s2 & E2 & W2 & P2 & _).
  assert (writes (TCustomer, key) (Some r) s s2) as W by by eapply writes_trans.
  destruct (store_shape _ _ _ _ E2) as (Hd2 & Hw2 & Hh2). pose proof (w_db _ _ _ _ W) as Hd.
  assert (rows (db s2) !! (TCustomer, key) = Some l) as Hl2 by by rewrite Hd.
  assert (commit s2 = Ok (true, set_ws (set_db (deallocate s2 TCustomer l) (set_rows (db s2) (<[(TCustomer, key) := l']> (rows (db s2))))) ∅)) as E3.
  { apply commit_one_update; [by rewrite Hw2, Hw1, (proj1 Hid)|by rewrite Hh2, Hh1, (proj2 Hid)|done]. }
  destruct (naive_commit_ok s2 (w_good _ _ _ _ W) (filled_update _ _ _ _ Hg Hid W Hs)) as (s3 & E3' & Hg3 & Hid3 & Hc3 & _).
  set (s3' := set_ws _ _) in E3. assert (s3 = s3') as -> by congruence. clear E3'.
  assert (committed s3' (TCustomer, key2) = Some r2) as Hr3.
  { rewrite Hc3, (w_view _ _ _ _ W), decide_False, idle_view by (done || congruence). done. }
  assert (committed s3' (TCustomer, key) = Some r) as Hk3 by by rewrite Hc3, (w_view _ _ _ _ W), decide_True.
  destruct (writeset_update_ok junk Hjunk s3' TCustomer key2 r2 Hg3 ltac:(done)) as (l4 & s4 & r4 & E4 & W4 & _ & Hm4 & Hsame & _);
    [by rewrite idle_view|].
  destruct (update_shape _ _ _ _ _ E4) as (Hl4 & Hd4 & _); [by rewrite (proj1 Hid3)|].
  rewrite (allocate_last s3' TCustomer l) in Hl4 by exact (last_deallocate s2 TCustomer l). injection Hl4 as ->.
  assert (customers (db s3') = customers (db s)) as Hcu by (simpl; by rewrite Hd).
  assert (rows (db s3') !! (TCustomer, key) = Some l') as Hrow3 by apply lookup_insert_eq.
  exists l', s1, s2, s3', s4, r4. split_and!; try done.
  - by apply (pending_not_row s2 (TCustomer, key) (TCustomer, key)); [apply W|..].
  - apply by_name_one. by rewrite (named_customers _ _ _ _ _ Hcu).
  - rewrite <- Hk3. unfold committed. rewrite Hd4, Hrow3. simpl. by apply (w_rows _ _ _ _ W4 (TCustomer, key)).
  - apply by_name_one. by rewrite Hd4, (named_customers _ _ _ _ _ Hcu).
Qed.
End stale.

(** Two customers with two names. *)
Definition bar : chars := bytes_of "BAR" ++ [0].
Definition ought : record :=
  match a_customer 2 with
  | RCustomer cu => RCustomer (mkCustomer (c_w_id cu) (c_d_id cu) (c_id cu) 0 0 0 0 3 100 0 (c_first cu) (c_middle cu)
      (copy_cstr (Records.c_last cu) (bytes_of "OUGHT" ++ [0]) (S MAX_LAST)) (c_phone cu) (c_credit cu) (c_data cu) (c_address cu))
  | r => r
  end.
Definition two_names : table_rows := [((TCustomer, CustomerKey.create_key 1 1 1), a_customer 1); ((TCustomer, CustomerKey.create_key 1 1 2), ought)].
Definition two_names_state : outcome state := TxSerial.transactions (TX := naive) empty [(load_ops two_names, true)].
Definition found_alone (m : outcome state) : bool :=
  match m with
  | Ok s => match rows (db s) !! (TCustomer, CustomerKey.create_key 1 1 1), committed s (TCustomer, CustomerKey.create_key 1 1 2) with
      | Some l, Some _ => bool_decide (named (db s) 1 1 bar = [l]) | _, _ => false end
  | _ => false
  end.

Lemma naive_stale_secondary_witness : ∃ (s : state) l l' s1 s2 s3, two_names_state = Ok s ∧
  apply_update_to_writeset junk s TCustomer (CustomerKey.create_key 1 1 1) = Ok (Some l', s1) ∧ store s1 l' ought = Ok s2 ∧ commit s2 = Ok (true, s3) ∧
  l' ≠ l ∧ rows (db s3) !! (TCustomer, CustomerKey.create_key 1 1 1) = Some l' ∧ get_customer_by_last_name s3 1 1 bar = Ok (SUCCESS, Some l).
Proof.
  destruct (loaded two_names) as (s & E & [Hg Hid _ _]); [apply (bool_decide_unpack _); by vm_compute|by vm_compute|].
  assert (found_alone two_names_state = true) as Hf by by_vm. unfold two_names_state in Hf |- *. rewrite E in Hf |- *. simpl in Hf.
  destruct (rows (db s) !! _) as [l|] eqn:Hl; [|done]. destruct (committed s _) as [r2|] eqn:Hr2; [|done]. apply bool_decide_eq_true in Hf.
  destruct (naive_stale_secondary junk junk_ok s (CustomerKey.create_key 1 1 1) (CustomerKey.create_key 1 1 2) l ought r2 1 1 bar)
    as (l' & s1 & s2 & s3 & _ & _ & E1 & E2 & E3 & Hne & Hrow & _ & Hget & _);
    [exact Hg|exact Hid|exact Hl|exact Hf|exact Hr2|by vm_compute|reflexivity|split; [by apply sizedb_ok; vm_compute|by apply terminatedb_ok; vm_compute]|].
  exists s, l, l', s1, s2, s3. by repeat (split; [first [exact E1|exact E2|exact E3|exact Hne|exact Hrow|reflexivity]|]).
Defined.

(** The price of an item. *)
Definition price (s : state) (id : Z) : outcome Z :=
  l ← deref (rows (db s) !! (TItem, ItemKey_create_key id)); r ← load s l; it ← deref (as_item r); Ok (i_price it).
Definition cheap_item : record := match an_item 7 with RItem it => RItem (Records.mkItem 7 0 1 (i_name it) (i_data it)) | r => r end.
Definition insert_run : outcome (Result * bool * Z) :=
  s ← loaded_state;
  '(res, p, s) ← prepare_record_for_insert junk s TItem (ItemKey_create_key 7);
  l ← deref p;
  s ← store s l cheap_item;
  '(b, s) ← commit s;
  n ← price s 7;
  Ok (res, b, n).

(** An insertion of a key that is taken is lost without an error: the
    call succeeds, the commit returns true, and the table keeps the old row. *)
Theorem naive_insert_lost : insert_run = Ok (SUCCESS, true, 20).
Proof. by_vm. Qed.

(** *** Delivery without a new order *)

Lemma lower_bound_nil {V} (low : Z) (m : list (Z * V)) : (∀ x, x ∈ m → (x.1 <? low) = true) → lower_bound Z.ltb low m = [].
Proof. induction m as [|x m IH]; intros H; [done|]. simpl. rewrite H by left. apply IH. intros y Hy. apply H. by right. Qed.

Lemma bind_stuck {A B} (m : M (TX := naive) A) (f : A → M B) w : m w = Stuck → (m ≫= f) w = Stuck.
Proof. intros E. unfold mbind, M_bind. by rewrite E. Qed.
Lemma emit_bind {B} vs (f : () → M (TX := naive) B) w : (emit vs ≫= f) w = f () (mkWorld (w_tx w) (w_rand w) (w_clock w) (w_stat w) (w_out w ++ vs)).
Proof. done. Qed.

(** C39: A delivery has undefined behaviour when no new order is left at or
    above the first district of its warehouse: the iterator that
    [lower_bound] returns is the end of the table and is dereferenced. *)
Theorem naive_delivery_stuck (cf : Config) (time : Z) (i : DeliveryTx.Input) (w : world) :
  (∀ k l, rows (db (w_tx w)) !! (TNewOrder, k) = Some l → k < NewOrderKey.create_key (DeliveryTx.w_id i) 1 1) →
  DeliveryTx.run (TX := naive) cf time i w = Stuck.
Proof.
  intros Hlow. unfold DeliveryTx.run, DeliveryTx.districts, DeliveryTx.district. rewrite emit_bind. do 3 apply bind_stuck.
  unfold on_tx. cbn. unfold Naive.get_neworder_with_smallest_key_no_less_than. rewrite lower_bound_nil; [done|].
  intros [k l] Hx%elem_of_entries. apply Z.ltb_lt. by eapply Hlow.
Qed.
Definition no_neworders (s : outcome state) : bool := match s with Ok s => match entries TNewOrder (rows (db s)) with [] => true | _ => false end | _ => false end.
Lemma small_no_neworders : no_neworders loaded_state = true.
Proof. by_vm. Qed.
Lemma naive_delivery_stuck_witness : ∃ s : state, loaded_state = Ok s ∧ DeliveryTx.run (TX := naive) cfg 5 (DeliveryTx.mkInput 1 3 0) (world_of s) = Stuck.
Proof.
  pose proof small_no_neworders as H. destruct loaded_state as [s| | |]; try discriminate H. exists s. split; [reflexivity|].
  apply naive_delivery_stuck. intros k l Hk. simpl in *. destruct (entries TNewOrder (rows (db s))) as [|x es] eqn:E; [|discriminate H].
  exfalso. assert (Hx : (k, l) ∈ entries TNewOrder (rows (db s))) by by apply elem_of_entries. rewrite E in Hx. by apply elem_of_nil in Hx.
Defined.

(** *** Copies of a stock *)

(** C40: The copy of a stock has the texts of the districts from the second on
    from the memory it is written to, not from the stock. *)
Theorem stock_copy_drops_dist `{HD : Double} (to from : Stock) (d : Z) :
  length (s_dist to) = dist_size → length (s_dist from) = dist_size → 2 ≤ d →
  ∃ s, deep_copy_from (RStock to) (RStock from) = Ok (RStock s) ∧ NewOrderTx.dist_info s d = NewOrderTx.dist_info to d.
Proof.
  intros Ht Hf Hd. eexists. split; [reflexivity|]. unfold NewOrderTx.dist_info. cbn [s_dist Stock_deep_copy_from].
  destruct ((1 <=? d) && (d <=? 10)); [|done]. simpl. f_equal. rewrite drop_app_ge by (rewrite length_take, Hf; unfold dist_size, sizeof_int, DIST; lia).
  rewrite drop_drop, length_take, Hf. f_equal. unfold dist_size, sizeof_int, DIST. lia.
Qed.

Definition a_stock_of (x : Z) : Stock := match blank x TStock with RStock s => s | _ => mkStock 0 0 0 0 0 0 [] [] end.
Lemma stock_copy_drops_dist_witness : ∃ s, deep_copy_from (RStock (a_stock_of 88)) (RStock (a_stock_of 68)) = Ok (RStock s) ∧
  NewOrderTx.dist_info s 2 = NewOrderTx.dist_info (a_stock_of 88) 2.
Proof. apply (stock_copy_drops_dist (a_stock_of 88) (a_stock_of 68) 2); [reflexivity|reflexivity|lia]. Defined.
